(* ===== verification/_CoqProject ===== *)
-Q . S2P
Prelude.v
Cbor.v
CborFacts.v
Frame.v
FrameFacts.v
Scan.v
ScanFacts.v
Segment.v
SegmentFacts.v
Chunks.v
Raft.v
RaftFacts.v
RaftLogFacts.v
HeapKernel.v
HeapKernelFacts.v
HeapModel.v
HeapConfine.v
StoreModel.v
StoreModelFacts.v
AdaptiveWrite.v
AdaptiveWriteFacts.v
AtomicLifecycle.v
AtomicCbor.v
AtomicCborFacts.v
AtomicKeys.v
AtomicPlan.v
AtomicPlanFacts.v
AtomicOracle.v
AtomicOracleFacts.v
HydraSorted.v
HydraSortedFacts.v
HydraRadix.v
HydraMphf.v
Hydra.v
HydraFacts.v
HydraCodecFacts.v
HeapFrames.v
HeapFramesFacts.v
Descriptors.v
DescriptorsFacts.v
ItemEnvelope.v
AtomicFile.v
AtomicFileFacts.v
SegmentIds.v
SegmentIdsFacts.v
WriteDedup.v
WriteDedupFacts.v
OperationOnce.v
SdaNumber.v
SdaLexer.v
SdaParser.v
SdaFormat.v
SdaValue.v
SdaValueFacts.v
SdaNumberFacts.v
SdaEval.v
SdaEvalFacts.v
SdaTermination.v
SdaParseFacts.v
SdaJson.v
SdaPrint.v
SdaReparse.v
SdaFormatFacts.v
Cluster.v
ClusterToken.v
ClusterScan.v
ClusterScanFacts.v
ClusterPaging.v
ClusterWrite.v
ClusterWriteFacts.v
ClusterRepair.v
ClusterRepairFacts.v
ClusterRebalance.v
ClusterRebalanceFacts.v
ClusterMove.v
RaftStore.v
RaftRecovery.v
RaftRpc.v
RaftRpcFacts.v
