(* ===== verification/Prelude.v ===== *)
(** * Residiuum: a verification development

    Residiuum is a durable object store whose media survive damage: data are
    written as self-describing frames into append-only segments, any damaged
    medium can be salvaged by scanning it for frames, a partition of the store
    is replicated by a consensus group, and every access passes an
    authorization kernel for isolated heaps.  This library models the parts of
    the Rust program that carry this logic, as executable functions, and proves
    what makes them correct.

    ** The parts and how they interact

    - [residiuum-format] is the wire layer.  [cbor_envelope.rs] reads, validates
      and writes the deterministic CBOR maps of frame envelopes; [frame.rs] lays
      a frame out as prefix, envelope, body and suffix with two CRC32C checks
      and a body digest, and verifies a candidate; [scan.rs] salvages a buffer
      by trying frames forward from start magics or backward from end magics;
      [segment.rs] appends frames to an active segment and seals it;
      [chunks.rs] splits large payloads and reassembles them.  The bodies of
      frames have their own exact codecs: ownership, subjects, admission and
      events of a heap, descriptors of domains and heaps, and item envelopes.
    - [residiuum-store/hydra] is the index family of a sealed segment: sorted
      tables with an Eytzinger layout, a byte-wise radix tree, a minimal perfect
      hash, and the segment index file that combines them.
    - [residiuum-store] keeps small control documents by atomic replacement,
      allocates random and segment identifiers ahead of their use, and records
      the outcome of every client operation in a ledger so that a retry is
      answered and not executed again.
    - [residiuum-cluster] replicates a partition.  [raft.rs] holds the peers of
      a group, elections, log replication, commitment, membership changes and
      local snapshots.  [directory.rs], [coverage.rs], [token.rs] and
      [cluster.rs] build the distributed store around these groups: the map from
      subjects to partitions and from partitions to nodes, answers with the
      coverage they were read with, signed continuation tokens, replicated and
      convergent writes, reconciliation, repair, and the rebalance of a partition
      to other nodes.  [raft_persist.rs] keeps the state of a peer in files, and
      [raft_rpc.rs] runs a group of nodes that exchange messages.
    - [residiuum-heap] authorizes.  A request presents a verified certificate
      and is decided against the security snapshot of its heap; an allowed
      request mints a capability bound to a shared slot, and every observation
      is confined to the capability.
    - [residiuum-store-model] is the sequential reference of the store: logical
      events, receipts, damage marks, reopening and scans, with a generator of
      command histories and the invariants it checks.
    - [residiuum-store/adaptive_write] decides when to batch writes and moves
      them through credits, an ordered ready ring, a bounded queue and a
      reservation pipeline, with service estimates and a scale controller.
    - [residiuum-atomics] is the protocol of multi-object transactions: plans are
      closed into a canonical form that is encoded and hashed, validated, and
      decided by a serial reference Heap; a lifecycle machine orders prepare,
      members, decision and publication.
    - [sda-core] is the data algebra in which queries and enrichments are
      written: exact numbers, a lexer and a recursive descent, a formatter, an
      evaluator with its standard functions, and a bridge to JSON.
    - The rest of the embedded store, the server, the SDK and the tools are built
      on these and are not modelled; see below.

    ** Files

    - [Prelude]: the error monad for [Result] and [?], machine integers with
      their wrapping, saturating and checked operations, bytes, integers as
      bytes, loop lemmas and the tactics of the development.
    - [Cbor], [CborFacts]: [cbor_envelope.rs].  The reader's cursor is the
      unread suffix of the input.
    - [Frame], [FrameFacts]: [frame.rs], [limits.rs], [kinds.rs],
      [integrity.rs].  CRC32C and BLAKE3 are external: they are the operations
      of the class [IntegrityPrims], and [IntegrityLaws] states what the code
      relies on (ranges, digest length, incremental hashing).
      The end of the file has a concrete provider that satisfies the laws.
    - [Scan], [ScanFacts]: [scan.rs].
    - [Segment], [SegmentFacts]: [segment.rs]; [ActiveSegment.t] is the struct,
      its methods are functions of the same names in the module.
    - [Chunks]: [chunks.rs].  Where a component has no file of [Facts], its
      theorems follow the model in the same file.
    - [Raft], [RaftFacts], [RaftLogFacts]: [raft.rs].  [PartitionRaft] is the group; whether a durable flush
      succeeds is an oracle in the state, so that every failure pattern is
      covered.
    - [Cluster]: the modes, the partition map, the directory,
      coverage and the plan of a rebalance job.
    - [ClusterToken]: the keyring and the codec of continuation tokens; keyed BLAKE3 and the hash of a query are the classes
      [KeyedBlake3] and [QueryHasher].
    - [ClusterScan], [ClusterScanFacts], [ClusterPaging]: the cluster handle,
      [get], [scan] and paging.  The store of a node is the class [NodeStore]
      with its laws; [Shelf] is the smallest store that meets them.
    - [ClusterWrite], [ClusterWriteFacts]: linearizable and convergent writes,
      [put_many] and reconciliation, against [NodeStoreWrite].
    - [ClusterRepair], [ClusterRepairFacts]: the repair of a partition, with the
      fingerprint of a copy as the class [NodeFingerprint].
    - [ClusterRebalance], [ClusterRebalanceFacts], [ClusterMove]: the driver of a
      rebalance and its seven steps; what the files of the cluster answer are
      oracles of the section.
    - [RaftStore], [RaftRecovery]: [raft_persist.rs] on the file system of
      [AtomicFile]; the texts of [serde_json] are the classes [ControlJson] and
      [Document].
    - [RaftRpc], [RaftRpcFacts]: [raft_rpc.rs].  A node owns one peer; the trait
      [RaftTransport] is a class over the world behind it, with two instances: the
      in-process network of the source, and [scripted], which gives arbitrary
      answers.  [net_step] lets single nodes act on arbitrary messages.
    - [HeapKernel], [HeapKernelFacts]: identities, rights, constraints,
      snapshots, the decision and capabilities.  Slots are a shared memory from
      slot to snapshot, since a capability sees later stores.  SHA-256 and the
      operation registry, which the build script generates from
      [spec/operations-v1.json], are the operations of the class [KernelEnv].
    - [HeapModel]: [authority_model.rs], a state machine, and
      its relation to the kernel.
    - [HeapConfine]: [isolation.rs], [operational.rs] and
      the predicates of [isolation_profile.rs].
    - [StoreModel], [StoreModelFacts]: [residiuum-store-model].
    - [AdaptiveWrite], [AdaptiveWriteFacts]: one module per structure of
      [residiuum-store/src/adaptive_write]; a method under a mutex is one
      function on the state.
    - [AtomicLifecycle]: [lifecycle.rs] with the phases of [evidence.rs].
    - [AtomicCbor], [AtomicCborFacts]: [error.rs], [cbor.rs] and the reasons of
      [outcome.rs]; related to [Cbor] by an embedding of values.
    - [AtomicKeys]: canonical keys, signed integers and the
      key order.  The [num_bigint] crate is the class [BigIntOps] with
      [BigIntLaws]; [sample_bigint] meets them.
    - [AtomicPlan], [AtomicPlanFacts]: plans, limits, compiled predicates,
      [canonical.rs], [encode.rs] (accounting) and [validate.rs].  BLAKE3 is the
      class [Blake3].
    - [AtomicOracle], [AtomicOracleFacts]: [oracle.rs] and [outcome.rs].
    - [HydraSorted], [HydraSortedFacts], [HydraRadix], [HydraMphf], [Hydra],
      [HydraFacts] and [HydraCodecFacts]: one file per structure of
      [residiuum-store/src/hydra] and the segment index with its file format.
    - [HeapFrames], [HeapFramesFacts]: the ownership, subject, admission and
      event bodies of the format crate.
    - [Descriptors], [DescriptorsFacts]: domain and heap descriptors.
    - [ItemEnvelope]: item envelopes, and the records that
      a sealed segment contributes to its index.
    - [AtomicFile], [AtomicFileFacts]: the replacement of control documents on a
      file system whose unsynced writes may be lost by a crash.
    - [SegmentIds], [SegmentIdsFacts]: random identifiers and the pool and lease
      of segment identifiers; the random source is a list of blocks.
    - [WriteDedup], [WriteDedupFacts]: the records, journal, tables and sessions
      of the operation ledger; [OperationOnce]: the ledger across runs of the
      store.
    - [SdaNumber], [SdaLexer], [SdaParser], [SdaFormat], [SdaValue], [SdaEval]
      and [SdaJson]: the data algebra, by the files of [sda-core/src]; the
      evaluator's standard functions ([stdlib.rs]) are in [SdaEval].  The parser
      is a record of the recursive calls, tied by [descend].  The Unicode
      classes of characters, [BigInt] and [BigRational], the debug text of
      values and the texts of [serde_json] are the classes [CharClass],
      [BigNum], [DebugText] and [SerdeJson].
    - [SdaNumberFacts], [SdaParseFacts], [SdaValueFacts], [SdaEvalFacts] and
      [SdaTermination]: the theorems on these.
    - [SdaPrint], [SdaReparse] and [SdaFormatFacts]: formatting and reading back.
      [SdaPrint] gives the tokens of a formatted program and the printable
      fragment, [SdaReparse] shows that the parser reads these tokens, and
      [SdaFormatFacts] that the lexer reads the text as these tokens.

    ** What the theorems show

    - Envelopes: encoding and decoding are inverse in both directions, so the
      accepted bytes are canonical; duplicate keys are the only failure of the
      encoder on representable values; the recursive descent terminates.
    - Frames: encoding, decoding and verifying agree; whatever verifies is what
      the encoder emits for the decoded parts; truncation and a changed body are
      always answered by the right error.
    - Scans: the forward report tiles the buffer truthfully and misses no frame
      that is not inside another; damage before intact frames does not hide
      them; on clean buffers both directions agree; the reverse scan is sound.
    - Segments: a sealed segment scans back to exactly the frames its caller
      appended, each with its kind, envelope and body, and the recorded counts; offsets stay valid; checkpoints roll back; a scan
      recovers the writer state.
    - Chunks: a reassembly is never fabricated, and pieces of one split
      reassemble in any order.
    - Consensus: at most one leader per term under arbitrary flush failures;
      granted votes are justified; logs stay indexed; acknowledged entries agree
      with the leader; a reported commit is on a quorum; installing a snapshot
      ahead of the log always fails.
    - Cluster: an acknowledged write is what a read then returns; a scan that
      needs no election, has no document budget and meets no unreadable subject
      returns exactly the rows of the partitions its coverage names, and following
      its tokens gives the rows of one unlimited scan; a token outlives one
      rotation of the key and no more; where the stores accept what their limits
      allow, repair makes the reachable copies of a partition agree; in every
      interleaving, whatever each save answers, the voters and the directory are
      those that the phase of a rebalance declares, a partition whose activation
      could not save the directory apart, and a finished rebalance has ended within its
      steps, switched the placement and copied the rows.  Concrete runs show where
      the code is weaker than it means to be: repair can undo a committed delete,
      reconciling two conflicting values swaps them, [put_many] needs a quorum in
      every mode, a write acknowledged between two steps of a rebalance is lost,
      the rows can be copied from a stale replica, the placement epoch can go
      back, and a partial subject is dropped from a scan that claims to be complete.
    - Peer files: after any saves, failed saves and crashes a restart finds what
      was last saved or an attempt after it, and a peer saved with success comes
      back as it was.  A damaged hard state and a snapshot installed half way are
      the cases that concrete runs show not to be covered.
    - Network consensus: nodes that exchange messages, with any of them lost, late
      or repeated, elect one leader in a term, and the in-process network is such a
      system; base64 text decodes to what was encoded.  Concrete runs show that a
      retry with the same operation id can commit a command twice and that a
      snapshot can commit an entry that no quorum has.
    - Heaps: the decision is exactly an explicit authorization relation, in which
      the second of the grace deadline, where code and specification differ, is a
      case of its own; minted
      capabilities hold no more than certificate and policy grant and die with
      every change of what they were validated against; constraint intersection
      is exact; the authority model keeps its invariants in every run and the
      kernel refines it; observations do not depend on other heaps.
    - Store model: no command history violates the checked invariants; every
      branch of a mutation; reopening keeps exactly what is durable; scans are
      truthful.
    - Adaptive writes: credits are conserved within their limits; the ready ring
      delivers in order without loss; the pipeline drains; a selected batch is
      within every limit and pays; estimates stay within the samples; the
      controller stays in its range.
    - Atomics: every event sequence of the lifecycle is safe; the key order is
      the exact numeric order; closing a plan forgets only the order of its
      parts; the canonical encoding is faithful; the serial Heap accepts exactly
      the acceptable plans and decides them all or nothing, decisions are final,
      its state is that of the committed plans and lifecycle changes run in order,
      and versions are never reused.
    - Indexes: each structure gives no wrong answer and scans exactly; it answers
      every lookup as the list of its records does, the PGM index for a search
      window of at least 8 (a smaller one misses keys); it builds or fails totally, and its file decodes to what was encoded;
      the records of a segment are exactly its verified item frames.
    - Bodies: each codec accepts exactly the canonical bytes of its values, and
      a frame of one heap is never accepted for another.
    - Control documents: a replacement is atomic across crashes, and a reader
      sees the old or the new document and nothing else.
    - Identifiers: no identifier is issued twice in any sequence of crashes and
      reopenings, and a new one is above that of every segment with a file on the
      media the store was opened over.
    - Operation ledger: a client operation leaves at most one event on the media
      and a retry changes nothing, also when a put fails with its event written,
      in runs where a store whose reconciliation failed executes nothing more
      before it is restarted; a concrete run shows that the code needs this.
    - Data algebra: every text is parsed or refused with a stated error; equality
      of values is the extensional one, an equivalence on well-formed data;
      evaluation raises no error and keeps values well formed; programs that give
      functions only to combinators end under bindings without functions, and a
      self-application does not; the
      formatted text of a printable program is read back as the program; the
      text of a number is exact only where its decimals are whole or its fraction
      is kept.

    ** Bounds and fuel

    Machine integers are [Z] with their width as explicit bounds; [usize] is 64
    bits.  The CBOR descent takes fuel [length + 1]: every nested value consumes
    at least its head byte ([cbor_fuel_enough]).  The scans take fuel
    [length + 1]: each turn of either loop moves the position by at least one
    byte, and the theorems on scans are about this fuel.  The replication loop
    has the 64 rounds of the source, and that of the RPC layer its configured number.  The apply loop takes fuel equal to the
    distance between the commit and the apply index.  The CBOR reader of the
    Atomic protocol descends by the levels left of its depth limit.  The commit
    position of the serial Heap is unbounded; the uniqueness of versions is
    stated for fewer than 2^64 commits.  The displacement search of the perfect
    hash runs its 2^32 - 1 turns through a binary iterator; indexes hold fewer
    than 2^32 records.  Decimal numbers of up to 128 bits are read and written with fuel
    40, more than their digits; taking an identifier from a pool of [n] has fuel
    [n + 1]; the replay of a journal has its length as fuel.  The lexer, the loops
    of the parser and its descent have the number of characters or tokens left as
    fuel, which [parse_source_total] shows to be enough; the evaluator's fuel
    bounds the nesting of calls and [combinator_programs_end] gives the depth of
    the expression as enough; factors are stripped from a denominator with its
    logarithm as fuel; JSON is converted with its depth.  The directory
    is searched with its length as fuel, a rebalance runs its seven steps
    ([rebalance_moves]), log records are decoded with the length of the file as
    fuel, and following the tokens of a scan takes
    more fuel than there are rows in scope ([paged_find_exact]).  A token fits its
    limit for subjects of up to 4096 bytes and a prefix and coverage within 12000
    bytes.  Everything else is structural.

    ** What is not modelled

    File and network I/O (the embedded store beyond the parts above, the
    server, the client), threads and locks, signature checks, text formats, and
    the harnesses for tests, benchmarks and evidence.  Buffer capacities are left out.  In the consensus
    group the durable stores are only the success or failure of a flush, which
    [RaftStore] models on its own; the connections of the RPC layer, its delays
    and its JSON are left out.  Certificate
    parsing and holder proofs are not modelled: the decision starts from a
    verified certificate, as in the code.  Of the adaptive write path the
    threads and the waiting variants are left out; of the Atomic protocol the
    builder, staging, the evidence codec and the durable lane.  Of the cluster
    the creation, opening and persistence of its control files, the audit and
    placement records, and the processes and their simulation are left out.

    ** What is left

    The largest parts without a model are the embedded store's file layout and
    recovery, the server with its protocol handlers, and the SDK's drivers: they
    are sequences of I/O calls around the parts above.  The evidence codec and
    staging of the Atomic protocol, the parsing of certificates and holder proofs,
    and the predicates of the SDK are pure and could be added in the way of the
    existing files. *)
From Stdlib Require Export ZArith Lia Bool.
From Stdlib Require Import Strings.Byte.
From stdpp Require Export base list gmap option strings sorting.

Abbreviation byte := Byte.byte.

(** ** The error monad

    Every fallible Rust function [fn f(..) -> Result<A, E>] is a function
    into [result E A]; the [?] operator is the notation [let?]. *)

Inductive result (E A : Type) : Type :=
| Ok (a : A)
| Err (e : E).
Arguments Ok {E A} a.
Arguments Err {E A} e.

Declare Scope rs_scope.
Delimit Scope rs_scope with rs.

Notation "'let?' x ':=' c 'in' k" :=
  (match c with Ok x => k | Err e => Err e end)
  (at level 10, x name, c at level 100, k at level 200) : rs_scope.
Notation "'let?' ' p ':=' c 'in' k" :=
  (match c with Ok p => k | Err e => Err e end)
  (at level 10, p strict pattern, c at level 100, k at level 200) : rs_scope.

#[global] Open Scope rs_scope.
#[global] Open Scope Z_scope.
#[global] Open Scope list_scope.

Definition is_ok {E A} (r : result E A) : bool :=
  match r with Ok _ => true | Err _ => false end.

(** [for _ in 0..n { body()?; }] over an explicit state. *)
Fixpoint iter_n {E S} (n : nat) (body : S -> result E S) (s : S) : result E S :=
  match n with
  | O => Ok s
  | S n' => let? s' := body s in iter_n n' body s'
  end.

(** [for _ in 0..n { out.push(item()?); }] over an explicit state. *)
Fixpoint collect_n {E S A} (n : nat) (item : S -> result E (A * S)) (s : S)
  : result E (list A * S) :=
  match n with
  | O => Ok ([], s)
  | S n' =>
      let? '(a, s1) := item s in
      let? '(l, s2) := collect_n n' item s1 in
      Ok (a :: l, s2)
  end.

(** ** Automation *)

Create HintDb residiuum discriminated.

(** Case analysis on the scrutinee of a [let?] or an [if] in a hypothesis. *)
Ltac break_match_hyp H :=
  match type of H with
  | context [match ?x with _ => _ end] =>
      lazymatch x with
      | context [match _ with _ => _ end] => fail
      | _ => destruct x eqn:?
      end
  end.
Ltac break_match_goal :=
  match goal with
  | |- context [match ?x with _ => _ end] =>
      lazymatch x with
      | context [match _ with _ => _ end] => fail
      | _ => destruct x eqn:?
      end
  end.
(** Run an error-monad hypothesis to its successful end. *)
Ltac run H := repeat (break_match_hyp H; try discriminate H).
Ltac boolify :=
  repeat match goal with
  | H : _ && _ = true |- _ => apply andb_true_iff in H; destruct H
  | H : _ || _ = false |- _ => apply orb_false_iff in H; destruct H
  | H : negb _ = true |- _ => apply negb_true_iff in H
  | H : negb _ = false |- _ => apply negb_false_iff in H
  | H : (_ <? _) = true |- _ => apply Z.ltb_lt in H
  | H : (_ <? _) = false |- _ => apply Z.ltb_ge in H
  | H : (_ <=? _) = true |- _ => apply Z.leb_le in H
  | H : (_ <=? _) = false |- _ => apply Z.leb_gt in H
  | H : (_ =? _) = true |- _ => apply Z.eqb_eq in H
  | H : (_ =? _) = false |- _ => apply Z.eqb_neq in H
  end.

(** ** Machine integers

    A [uN] value is a [Z] in [0, 2^N).  [usize] is 64 bits wide, as on every
    target the repository builds for. *)

Definition U8_MAX : Z := 255.
Definition U16_MAX : Z := 65535.
Definition U32_MAX : Z := 4294967295.
Definition U64_MAX : Z := 18446744073709551615.

Definition in_u8 (z : Z) : Prop := 0 <= z <= U8_MAX.
Definition in_u16 (z : Z) : Prop := 0 <= z <= U16_MAX.
Definition in_u32 (z : Z) : Prop := 0 <= z <= U32_MAX.
Definition in_u64 (z : Z) : Prop := 0 <= z <= U64_MAX.

(** [a.checked_add(b)] on [u64]/[usize]. *)
Definition checked_add (a b : Z) : option Z :=
  if a + b <=? U64_MAX then Some (a + b) else None.
(** [a.saturating_add(b)] and [a.saturating_sub(b)] on [u64]/[usize]. *)
Definition sat_add (a b : Z) : Z := Z.min (a + b) U64_MAX.
Definition sat_sub (a b : Z) : Z := Z.max (a - b) 0.
(** [x as u32] on a wider unsigned integer. *)
Definition as_u32 (z : Z) : Z := z mod 2 ^ 32.

(** ** Bytes *)

#[global] Instance byte_eq_decision : EqDecision byte := Byte.byte_eq_dec.
#[global] Instance byte_countable : Countable byte :=
  inj_countable Byte.to_N Byte.of_N Byte.of_to_N.

Definition b2z (b : byte) : Z := Z.of_N (Byte.to_N b).
Definition z2b (z : Z) : byte :=
  match Byte.of_N (Z.to_N (z mod 256)) with Some b => b | None => Byte.x00 end.

Lemma b2z_range b : 0 <= b2z b < 256.
Proof.
  unfold b2z. split; [lia|].
  pose proof (Byte.to_N_bounded b). lia.
Qed.

Lemma b2z_z2b z : b2z (z2b z) = z mod 256.
Proof.
  unfold b2z, z2b. pose proof (Z.mod_pos_bound z 256 ltac:(lia)) as Hb.
  destruct (Byte.of_N _) as [b|] eqn:Hof.
  - apply Byte.to_of_N in Hof. rewrite Hof. lia.
  - apply Byte.of_N_None_iff in Hof. lia.
Qed.

Lemma z2b_b2z b : z2b (b2z b) = b.
Proof.
  unfold z2b. pose proof (b2z_range b). rewrite Z.mod_small by lia.
  unfold b2z. rewrite N2Z.id, Byte.of_to_N. done.
Qed.

Lemma b2z_inj b1 b2 : b2z b1 = b2z b2 -> b1 = b2.
Proof. intros H. by rewrite <- (z2b_b2z b1), <- (z2b_b2z b2), H. Qed.

Lemma b2z_z2b_small z : 0 <= z < 256 -> b2z (z2b z) = z.
Proof. intros. rewrite b2z_z2b. by apply Z.mod_small. Qed.
#[export] Hint Resolve b2z_range : residiuum.

(** [a == b] on byte slices. *)
Definition bytes_eqb (a b : list byte) : bool := bool_decide (a = b).

(** The lexicographic [Ord] of [[u8]]. *)
Fixpoint bytes_cmp (a b : list byte) : comparison :=
  match a, b with
  | [], [] => Eq
  | [], _ :: _ => Lt
  | _ :: _, [] => Gt
  | x :: a', y :: b' =>
      match b2z x ?= b2z y with Eq => bytes_cmp a' b' | c => c end
  end.

Definition bytes_leb (a b : list byte) : bool :=
  match bytes_cmp a b with Gt => false | _ => true end.

(** [&bytes[a..b]]. *)
Definition slice {A} (a b : nat) (l : list A) : list A := take (b - a) (drop a l).

(** ** Fixed-width integers as bytes *)

(** [x.to_le_bytes()] / [uN::from_le_bytes]. *)
Fixpoint le_bytes (n : nat) (z : Z) : list byte :=
  match n with
  | O => []
  | S n' => z2b z :: le_bytes n' (z / 256)
  end.
Fixpoint le_val (bs : list byte) : Z :=
  match bs with
  | [] => 0
  | b :: t => b2z b + 256 * le_val t
  end.
(** [x.to_be_bytes()] / [uN::from_be_bytes]. *)
Definition be_bytes (n : nat) (z : Z) : list byte := reverse (le_bytes n z).
Definition be_val (bs : list byte) : Z := le_val (reverse bs).

Lemma length_le_bytes n z : length (le_bytes n z) = n.
Proof. revert z. induction n; intros z; simpl; [done|by rewrite IHn]. Qed.
Lemma length_be_bytes n z : length (be_bytes n z) = n.
Proof. unfold be_bytes. by rewrite length_reverse, length_le_bytes. Qed.

Lemma le_val_range bs : 0 <= le_val bs < 256 ^ Z.of_nat (length bs).
Proof.
  induction bs as [|b t IH]; simpl; [lia|].
  rewrite Nat2Z.inj_succ, Z.pow_succ_r by lia.
  pose proof (b2z_range b). nia.
Qed.
Lemma be_val_range bs : 0 <= be_val bs < 256 ^ Z.of_nat (length bs).
Proof. unfold be_val. rewrite <- (length_reverse bs). apply le_val_range. Qed.

Lemma le_val_bytes n z : le_val (le_bytes n z) = z mod 256 ^ Z.of_nat n.
Proof.
  revert z. induction n as [|n IH]; intros z; simpl.
  - by rewrite Z.mod_1_r.
  - rewrite IH, b2z_z2b, Nat2Z.inj_succ, Z.pow_succ_r by lia.
    rewrite Z.rem_mul_r by lia. lia.
Qed.
Lemma le_bytes_val bs : le_bytes (length bs) (le_val bs) = bs.
Proof.
  induction bs as [|b t IH]; simpl; [done|]. pose proof (b2z_range b).
  f_equal.
  - apply b2z_inj. rewrite b2z_z2b, (Z.mul_comm 256), Z.mod_add by lia.
    by apply Z.mod_small.
  - rewrite (Z.mul_comm 256), Z.div_add by lia.
    rewrite Z.div_small by lia. simpl. done.
Qed.

Lemma le_val_bytes_small n z :
  0 <= z < 256 ^ Z.of_nat n -> le_val (le_bytes n z) = z.
Proof. intros. rewrite le_val_bytes. by apply Z.mod_small. Qed.
Lemma be_val_bytes_small n z :
  0 <= z < 256 ^ Z.of_nat n -> be_val (be_bytes n z) = z.
Proof.
  intros. unfold be_val, be_bytes. rewrite reverse_involutive.
  by apply le_val_bytes_small.
Qed.
Lemma be_bytes_val bs n : length bs = n -> be_bytes n (be_val bs) = bs.
Proof.
  intros <-. unfold be_bytes, be_val.
  rewrite <- (length_reverse bs), le_bytes_val. by rewrite reverse_involutive.
Qed.
Lemma le_bytes_val_len bs n : length bs = n -> le_bytes n (le_val bs) = bs.
Proof. intros <-. apply le_bytes_val. Qed.

(** ** Loops that consume a concatenation *)

Section Loops.
Context {E A : Type}.

Lemma iter_n_concat (body : list byte -> result E (list byte)) (l : list (list byte)) r :
  Forall (fun b => forall r, body (b ++ r) = Ok r) l ->
  iter_n (length l) body (concat l ++ r) = Ok r.
Proof.
  induction 1 as [|b l Hb _ IH]; simpl; [done|].
  by rewrite <- app_assoc, Hb.
Qed.

Lemma collect_n_concat (item : list byte -> result E (A * list byte))
    (e : A -> list byte) (l : list A) r :
  Forall (fun a => forall r, item (e a ++ r) = Ok (a, r)) l ->
  collect_n (length l) item (concat (map e l) ++ r) = Ok (l, r).
Proof.
  induction 1 as [|a l Ha _ IH]; simpl; [done|].
  by rewrite <- app_assoc, Ha, IH.
Qed.

Lemma iter_n_inv (body : list byte -> result E (list byte))
    (P : A -> Prop) (e : A -> list byte) n r r' :
  (forall r r', body r = Ok r' -> exists a, P a /\ r = e a ++ r') ->
  iter_n n body r = Ok r' ->
  exists l, length l = n /\ Forall P l /\ r = concat (map e l) ++ r'.
Proof.
  intros Hbody. revert r. induction n as [|n IH]; simpl; intros r.
  - intros [= ->]. by exists [].
  - destruct (body r) as [r1|] eqn:Hr; [|done]. intros Hit.
    apply Hbody in Hr as (a & Ha & ->).
    apply IH in Hit as (l & <- & Hl & ->).
    exists (a :: l). split; [done|]. split; [by constructor|].
    simpl. by rewrite app_assoc.
Qed.

Lemma collect_n_inv (item : list byte -> result E (A * list byte))
    (P : A -> Prop) (e : A -> list byte) n : forall r l r',
  (forall r a r', item r = Ok (a, r') -> P a /\ r = e a ++ r') ->
  collect_n n item r = Ok (l, r') ->
  length l = n /\ Forall P l /\ r = concat (map e l) ++ r'.
Proof.
  induction n as [|n IH]; simpl; intros r l r' Hitem.
  - intros [= <- <-]. done.
  - destruct (item r) as [[a r1]|] eqn:Hr; [|done].
    destruct (collect_n n item r1) as [[l1 r2]|] eqn:Hc; [|done]. intros [= <- <-].
    apply Hitem in Hr as [Ha ->]. apply IH in Hc as (<- & Hl & ->); [|done].
    split; [done|]. split; [by constructor|]. simpl. by rewrite app_assoc.
Qed.
End Loops.

Lemma concat_length_ge {A} (e : A -> list byte) (k : nat) l :
  (forall a, a ∈ l -> k <= length (e a))%nat ->
  (k * length l <= length (concat (map e l)))%nat.
Proof.
  induction l as [|a l IH]; simpl; intros Hl; [lia|].
  rewrite length_app. pose proof (Hl a ltac:(set_solver)).
  assert (k * length l <= length (concat (map e l)))%nat by (apply IH; set_solver). lia.
Qed.

Lemma elem_of_concat_length {A} (e : A -> list byte) a l :
  a ∈ l -> (length (e a) <= length (concat (map e l)))%nat.
Proof.
  induction 1; simpl; rewrite length_app; lia.
Qed.

(** ** The order of byte strings *)

Definition bytes_lt (a b : list byte) : Prop := bytes_cmp a b = Lt.

Lemma bytes_cmp_Eq a b : bytes_cmp a b = Eq <-> a = b.
Proof.
  revert b. induction a as [|x a IH]; intros [|y b]; simpl; try done.
  destruct (Z.compare_spec (b2z x) (b2z y)) as [H|H|H].
  - apply b2z_inj in H as ->. rewrite IH. naive_solver.
  - split; [done|]. intros [= -> ->]. lia.
  - split; [done|]. intros [= -> ->]. lia.
Qed.

Lemma bytes_cmp_Gt a b : bytes_cmp a b = Gt -> bytes_lt b a.
Proof.
  unfold bytes_lt. revert b. induction a as [|x a IH]; intros [|y b]; simpl; try done.
  rewrite (Z.compare_antisym (b2z x) (b2z y)).
  destruct (b2z x ?= b2z y); simpl; auto; done.
Qed.

Lemma bytes_lt_trans a b c : bytes_lt a b -> bytes_lt b c -> bytes_lt a c.
Proof.
  unfold bytes_lt. revert b c. induction a as [|x a IH]; intros [|y b] [|z c]; simpl; try done.
  destruct (Z.compare_spec (b2z x) (b2z y)), (Z.compare_spec (b2z y) (b2z z));
    intros H1 H2; try done;
    destruct (Z.compare_spec (b2z x) (b2z z)); try lia; try done.
  by eapply IH.
Qed.

Lemma bytes_cmp_antisym a b : bytes_cmp b a = CompOpp (bytes_cmp a b).
Proof.
  destruct (bytes_cmp a b) eqn:Hc; simpl.
  - apply bytes_cmp_Eq in Hc as ->. by apply bytes_cmp_Eq.
  - destruct (bytes_cmp b a) eqn:Hc'; [|exfalso|done].
    + apply bytes_cmp_Eq in Hc' as ->. by rewrite (proj2 (bytes_cmp_Eq a a) eq_refl) in Hc.
    + pose proof (bytes_lt_trans a b a Hc Hc') as H. unfold bytes_lt in H.
      by rewrite (proj2 (bytes_cmp_Eq a a) eq_refl) in H.
  - by apply bytes_cmp_Gt.
Qed.

(** Tuples of byte strings compare lexicographically. *)
Fixpoint keys_cmp (a b : list (list byte)) : comparison :=
  match a, b with
  | [], [] => Eq
  | [], _ :: _ => Lt
  | _ :: _, [] => Gt
  | x :: a', y :: b' => match bytes_cmp x y with Eq => keys_cmp a' b' | c => c end
  end.

Lemma keys_cmp_Eq a b : keys_cmp a b = Eq <-> a = b.
Proof.
  revert b. induction a as [|x a IH]; intros [|y b]; simpl; try done.
  destruct (bytes_cmp x y) eqn:Hc.
  - apply bytes_cmp_Eq in Hc as ->. rewrite IH. naive_solver.
  - split; [done|]. intros [= -> ->]. by rewrite (proj2 (bytes_cmp_Eq y y) eq_refl) in Hc.
  - split; [done|]. intros [= -> ->]. by rewrite (proj2 (bytes_cmp_Eq y y) eq_refl) in Hc.
Qed.
Lemma keys_cmp_antisym a b : keys_cmp b a = CompOpp (keys_cmp a b).
Proof.
  revert b. induction a as [|x a IH]; intros [|y b]; simpl; try done.
  rewrite (bytes_cmp_antisym x y). by destruct (bytes_cmp x y); simpl.
Qed.
Lemma keys_cmp_trans a b c : keys_cmp a b = Lt -> keys_cmp b c = Lt -> keys_cmp a c = Lt.
Proof.
  revert b c. induction a as [|x a IH]; intros [|y b] [|z c]; simpl; try done.
  destruct (bytes_cmp x y) eqn:H1; [apply bytes_cmp_Eq in H1 as ->| |done];
    destruct (bytes_cmp y z) eqn:H2; try done.
  - apply IH.
  - apply bytes_cmp_Eq in H2 as ->. by rewrite H1.
  - by rewrite (bytes_lt_trans x y z H1 H2).
Qed.

(** ** Stable sorting

    [v.sort_by(cmp)] and [v.sort_by_key(key)]: the sort is stable, so it is the
    insertion sort that keeps equal elements in order. *)

Section SortBy.
Context {A : Type} (cmp : A -> A -> comparison).

Fixpoint insert_by (x : A) (l : list A) : list A :=
  match l with
  | [] => [x]
  | y :: t => match cmp x y with Gt => y :: insert_by x t | _ => x :: l end
  end.
Definition sort_by (l : list A) : list A := foldr insert_by [] l.

Lemma insert_by_perm x l : insert_by x l ≡ₚ x :: l.
Proof.
  induction l as [|y l IH]; simpl; [done|]. destruct (cmp x y); [done..|].
  by rewrite IH, Permutation_swap.
Qed.
Lemma sort_by_perm l : sort_by l ≡ₚ l.
Proof. induction l as [|x l IH]; simpl; [done|]. by rewrite insert_by_perm, IH. Qed.

Definition not_gt (x y : A) : Prop := cmp x y <> Gt.

Context (Hanti : forall x y, cmp y x = CompOpp (cmp x y)).
Context (Htrans : forall x y z, not_gt x y -> not_gt y z -> not_gt x z).

Lemma insert_by_sorted x l : StronglySorted not_gt l -> StronglySorted not_gt (insert_by x l).
Proof.
  induction 1 as [|y l Hl IH Hy]; simpl; [by repeat constructor|].
  destruct (cmp x y) eqn:Hc.
  1,2: constructor; [by constructor|]; constructor; [unfold not_gt; congruence|];
    eapply Forall_impl; [exact Hy|]; intros z Hz; eapply Htrans; [|exact Hz];
    unfold not_gt; congruence.
  constructor; [done|]. rewrite insert_by_perm. constructor; [|done].
  unfold not_gt. rewrite Hanti, Hc. done.
Qed.
Lemma sort_by_sorted l : StronglySorted not_gt (sort_by l).
Proof. induction l as [|x l IH]; simpl; [constructor|]. by apply insert_by_sorted. Qed.

(** Sorting a sorted list changes nothing. *)
Lemma sort_by_id l : StronglySorted not_gt l -> sort_by l = l.
Proof.
  induction 1 as [|x l Hl IH Hx]; simpl; [done|]. rewrite IH.
  destruct Hx as [|y l Hy _]; simpl; [done|]. unfold not_gt in Hy. by destruct (cmp x y).
Qed.

(** When only equal elements compare equal, the order of the input is forgotten. *)
Lemma sort_by_order l l' :
  (forall x y, x ∈ l -> y ∈ l -> cmp x y = Eq -> x = y) -> l ≡ₚ l' -> sort_by l = sort_by l'.
Proof.
  intros Heq Hp. apply (StronglySorted_unique_strong not_gt).
  - intros x1 x2 H1 H2 H12 H21. rewrite sort_by_perm in H1, H2. rewrite <- Hp in H2.
    apply Heq; [done..|]. unfold not_gt in *. rewrite Hanti in H21.
    by destruct (cmp x1 x2).
  - apply sort_by_sorted.
  - apply sort_by_sorted.
  - by rewrite !sort_by_perm.
Qed.
End SortBy.

(** The bytes of an ASCII literal. *)
Definition lit (s : string) : list byte := String.list_byte_of_string s.

#[global] Arguments b2z : simpl never.
#[global] Arguments z2b : simpl never.
#[global] Arguments le_bytes : simpl never.
#[global] Arguments be_bytes : simpl never.
#[global] Arguments le_val : simpl never.
#[global] Arguments be_val : simpl never.
