(* ===== verification/Cbor.v ===== *)
(** * Deterministic CBOR envelopes

    Model of [crates/residiuum-format/src/cbor_envelope.rs]: the envelope
    validator, the value decoder and the encoder of wire-version-1 envelopes.

    The Rust [Cursor { bytes, pos }] is represented by its unread suffix
    [bytes[pos..]]; every cursor method returns the new suffix.  The writers
    return the bytes they append to [out].

    [skip_value] and [read_value] recurse through nested items; here they take
    a fuel argument.  [skip_value_fuel] and [read_value_fuel] show that any
    fuel larger than the unread suffix gives the same answer, and the
    entry points use such a fuel. *)
From S2P Require Import Prelude.

Inductive CborEnvelopeError : Type :=
| Truncated
| TrailingBytes
| NotMap
| Indefinite
| NonShortest
| DuplicateKey
| UnsortedKeys
| NonUintKey
| InvalidUtf8
| Unsupported
| FloatRejected
| TagRejected.

#[global] Instance CborEnvelopeError_eq_dec : EqDecision CborEnvelopeError.
Proof. solve_decision. Defined.

(** [CborValue::Text] holds a Rust [String]: UTF-8 bytes. *)
Inductive CborValue : Type :=
| Uint (n : Z)
| Nint (n : Z)
| Bytes (b : list byte)
| Text (s : list byte)
| Array (items : list CborValue)
| Map (entries : list (Z * CborValue))
| Bool (b : bool)
| Null.

Definition EMPTY_ENVELOPE : list byte := [z2b 0xa0].

(** [std::str::from_utf8(raw).is_ok()]: the well-formed byte sequences of the
    Unicode standard (no overlong forms, no surrogates, at most U+10FFFF). *)
Definition cont_byte (b : byte) : bool := (128 <=? b2z b) && (b2z b <=? 191).
Definition between (lo hi : Z) (b : byte) : bool := (lo <=? b2z b) && (b2z b <=? hi).
Fixpoint utf8_valid (s : list byte) : bool :=
  match s with
  | [] => true
  | a :: t =>
      if b2z a <=? 127 then utf8_valid t
      else if between 194 223 a then
        match t with b :: t2 => cont_byte b && utf8_valid t2 | _ => false end
      else if between 224 239 a then
        match t with
        | b :: c :: t2 =>
            (if b2z a =? 224 then between 160 191 b
             else if b2z a =? 237 then between 128 159 b
             else cont_byte b) && cont_byte c && utf8_valid t2
        | _ => false
        end
      else if between 240 244 a then
        match t with
        | b :: c :: d :: t2 =>
            (if b2z a =? 240 then between 144 191 b
             else if b2z a =? 244 then between 128 143 b
             else cont_byte b) && cont_byte c && cont_byte d && utf8_valid t2
        | _ => false
        end
      else false
  end.

(** ** The cursor *)
Module Cursor.

Abbreviation rest := (list byte).

(** [take(n)]. *)
Definition take_n (n : Z) (r : rest) : result CborEnvelopeError (list byte * rest) :=
  if Z.of_nat (length r) <? n then Err Truncated
  else Ok (take (Z.to_nat n) r, drop (Z.to_nat n) r).

(** [take(1)?[0]]. *)
Definition take_byte (r : rest) : result CborEnvelopeError (Z * rest) :=
  match r with [] => Err Truncated | b :: r' => Ok (b2z b, r') end.

Definition peek (r : rest) : result CborEnvelopeError Z :=
  match r with [] => Err Truncated | b :: _ => Ok (b2z b) end.

(** Reads a head and its argument; rejects non-shortest forms. *)
Definition read_head (r : rest) : result CborEnvelopeError ((Z * Z) * rest) :=
  let? '(head, r1) := take_byte r in
  let major := Z.shiftr head 5 in
  let ai := Z.land head 0x1f in
  if ai <=? 23 then Ok ((major, ai), r1)
  else if ai =? 24 then
    let? '(b, r2) := take_byte r1 in
    if b <? 24 then Err NonShortest else Ok ((major, b), r2)
  else if ai =? 25 then
    let? '(raw, r2) := take_n 2 r1 in
    let v := be_val raw in
    if v <? 256 then Err NonShortest else Ok ((major, v), r2)
  else if ai =? 26 then
    let? '(raw, r2) := take_n 4 r1 in
    let v := be_val raw in
    if v <? 65536 then Err NonShortest else Ok ((major, v), r2)
  else if ai =? 27 then
    let? '(raw, r2) := take_n 8 r1 in
    let v := be_val raw in
    if v <? 0x100000000 then Err NonShortest else Ok ((major, v), r2)
  else if ai =? 31 then Err Indefinite
  else Err Unsupported.

Definition bound_collection_len (arg min_item_bytes : Z) (r : rest)
  : result CborEnvelopeError nat :=
  let max_items := Z.of_nat (length r) / Z.max min_item_bytes 1 in
  if max_items <? arg then Err Truncated else Ok (Z.to_nat arg).

Definition read_map_len (r : rest) : result CborEnvelopeError (nat * rest) :=
  let? '((major, arg), r1) := read_head r in
  if negb (major =? 5) then Err NotMap
  else let? n := bound_collection_len arg 2 r1 in Ok (n, r1).

Definition read_array_len (r : rest) : result CborEnvelopeError (nat * rest) :=
  let? '((major, arg), r1) := read_head r in
  if negb (major =? 4) then Err Unsupported
  else let? n := bound_collection_len arg 1 r1 in Ok (n, r1).

Definition read_uint (r : rest) : result CborEnvelopeError (Z * rest) :=
  let? '((major, arg), r1) := read_head r in
  if negb (major =? 0) then Err NonUintKey else Ok (arg, r1).

Definition read_uint_any (r : rest) : result CborEnvelopeError (Z * rest) :=
  let? '((major, arg), r1) := read_head r in
  if negb (major =? 0) then Err Unsupported else Ok (arg, r1).

Definition read_bstr (r : rest) : result CborEnvelopeError (list byte * rest) :=
  let? '((major, arg), r1) := read_head r in
  if negb (major =? 2) then Err Unsupported else take_n arg r1.

Definition read_tstr (r : rest) : result CborEnvelopeError (list byte * rest) :=
  let? '((major, arg), r1) := read_head r in
  if negb (major =? 3) then Err Unsupported
  else
    let? '(raw, r2) := take_n arg r1 in
    if utf8_valid raw then Ok (raw, r2) else Err InvalidUtf8.

Definition read_simple_value (r : rest) : result CborEnvelopeError (CborValue * rest) :=
  let? '(head, r1) := take_byte r in
  let ai := Z.land head 0x1f in
  if ai =? 20 then Ok (Bool false, r1)
  else if ai =? 21 then Ok (Bool true, r1)
  else if ai =? 22 then Ok (Null, r1)
  else if ai =? 23 then Err Unsupported
  else if ai =? 24 then let? '(_, _) := take_byte r1 in Err Unsupported
  else if (25 <=? ai) && (ai <=? 27) then Err FloatRejected
  else if ai =? 31 then Err Indefinite
  else Err Unsupported.

(** One iteration of the deterministic map loop: read the key, reject a
    duplicate or an unsorted key, skip the value. *)
Definition map_entry (skip : rest -> result CborEnvelopeError rest)
    (st : (option (list byte) * list Z) * rest)
  : result CborEnvelopeError ((option (list byte) * list Z) * rest) :=
  let '((prev_key_enc, seen), r) := st in
  let? '(key, r1) := read_uint r in
  let key_enc := take (length r - length r1) r in
  if existsb (Z.eqb key) seen then Err DuplicateKey
  else if match prev_key_enc with
          | Some prev => bytes_leb key_enc prev
          | None => false
          end then Err UnsortedKeys
  else
    let? r2 := skip r1 in
    Ok ((Some key_enc, seen ++ [key]), r2).

Definition map_body (skip : rest -> result CborEnvelopeError rest) (n : nat) (r : rest)
  : result CborEnvelopeError rest :=
  let? '(_, r') := iter_n n (map_entry skip) ((None, []), r) in Ok r'.

Fixpoint skip_value (fuel : nat) (r : rest) : result CborEnvelopeError rest :=
  match fuel with
  | O => Err Truncated
  | S f =>
      let? head := peek r in
      match Z.shiftr head 5 with
      | 0 | 1 => let? '(_, r1) := read_head r in Ok r1
      | 2 => let? '(_, r1) := read_bstr r in Ok r1
      | 3 => let? '(_, r1) := read_tstr r in Ok r1
      | 4 => let? '(n, r1) := read_array_len r in iter_n n (skip_value f) r1
      | 5 => let? '(n, r1) := read_map_len r in map_body (skip_value f) n r1
      | 6 => Err TagRejected
      | 7 => let? '(_, r1) := read_simple_value r in Ok r1
      | _ => Err Unsupported
      end
  end.

Fixpoint read_value (fuel : nat) (r : rest) : result CborEnvelopeError (CborValue * rest) :=
  match fuel with
  | O => Err Truncated
  | S f =>
      let? head := peek r in
      match Z.shiftr head 5 with
      | 0 => let? '(n, r1) := read_uint_any r in Ok (Uint n, r1)
      | 1 => let? '((_, arg), r1) := read_head r in Ok (Nint arg, r1)
      | 2 => let? '(data, r1) := read_bstr r in Ok (Bytes data, r1)
      | 3 => let? '(data, r1) := read_tstr r in Ok (Text data, r1)
      | 4 =>
          let? '(n, r1) := read_array_len r in
          let? '(items, r2) := collect_n n (read_value f) r1 in
          Ok (Array items, r2)
      | 5 =>
          let? '(n, r1) := read_map_len r in
          let? '(items, r2) :=
            collect_n n (fun r =>
              let? '(k, ra) := read_uint r in
              let? '(v, rb) := read_value f ra in
              Ok ((k, v), rb)) r1 in
          Ok (Map items, r2)
      | 6 => Err TagRejected
      | 7 => read_simple_value r
      | _ => Err Unsupported
      end
  end.

(** [read_entry]: one iteration of the entry loop of a map. *)
Definition read_entry (fuel : nat) (r : rest)
  : result CborEnvelopeError ((Z * CborValue) * rest) :=
  let? '(k, ra) := read_uint r in
  let? '(v, rb) := read_value fuel ra in
  Ok ((k, v), rb).

Definition read_envelope_map (fuel : nat) (r : rest) : result CborEnvelopeError rest :=
  let? head := peek r in
  if negb (Z.shiftr head 5 =? 5) then Err NotMap
  else
    let? '(n, r1) := read_map_len r in
    map_body (skip_value fuel) n r1.

End Cursor.

Definition fuel_for (bs : list byte) : nat := S (length bs).

Definition validate_deterministic_cbor_envelope (bs : list byte)
  : result CborEnvelopeError unit :=
  let? r := Cursor.read_envelope_map (fuel_for bs) bs in
  match r with [] => Ok tt | _ :: _ => Err TrailingBytes end.

Definition decode_deterministic_uint_map (bs : list byte)
  : result CborEnvelopeError (list (Z * CborValue)) :=
  let? _ := validate_deterministic_cbor_envelope bs in
  let? '(n, r) := Cursor.read_map_len bs in
  let? '(out, _) := collect_n n (Cursor.read_entry (fuel_for bs)) r in
  Ok out.

(** ** Encoder *)

Definition write_type_arg (major arg : Z) : list byte :=
  let mt := Z.shiftl major 5 in
  if arg <=? 23 then [z2b (Z.lor mt arg)]
  else if arg <=? 0xff then [z2b (Z.lor mt 24); z2b arg]
  else if arg <=? 0xffff then z2b (Z.lor mt 25) :: be_bytes 2 arg
  else if arg <=? 0xffffffff then z2b (Z.lor mt 26) :: be_bytes 4 arg
  else z2b (Z.lor mt 27) :: be_bytes 8 arg.

Definition write_uint (n : Z) : list byte := write_type_arg 0 n.
Definition write_map_header (len : nat) : list byte := write_type_arg 5 (Z.of_nat len).

(** [entries.sort_by_key(|(k, _)| *k)]: the sort is stable, so it is the
    insertion sort that keeps equal keys in order. *)
Fixpoint insert_by_key {V} (k : Z) (v : V) (l : list (Z * V)) : list (Z * V) :=
  match l with
  | [] => [(k, v)]
  | (k', v') :: t => if k <=? k' then (k, v) :: l else (k', v') :: insert_by_key k v t
  end.
Fixpoint sort_by_key {V} (l : list (Z * V)) : list (Z * V) :=
  match l with
  | [] => []
  | (k, v) :: t => insert_by_key k v (sort_by_key t)
  end.

(** [for w in sorted.windows(2) { if w[0].0 == w[1].0 .. }]. *)
Fixpoint adjacent_dup {V} (l : list (Z * V)) : bool :=
  match l with
  | (k1, _) :: (((k2, _) :: _) as t) => (k1 =? k2) || adjacent_dup t
  | _ => false
  end.

(** The writing loop over sorted entries, whose values are already encoded. *)
Fixpoint write_entries (l : list (Z * result CborEnvelopeError (list byte)))
  : result CborEnvelopeError (list byte) :=
  match l with
  | [] => Ok []
  | (k, v) :: t =>
      let? bv := v in
      let? bt := write_entries t in
      Ok (write_uint k ++ bv ++ bt)
  end.

Definition encode_sorted_map (sorted : list (Z * result CborEnvelopeError (list byte)))
  : result CborEnvelopeError (list byte) :=
  if adjacent_dup sorted then Err DuplicateKey
  else
    let? body := write_entries sorted in
    let out := write_map_header (length sorted) ++ body in
    let? _ := validate_deterministic_cbor_envelope out in
    Ok out.

Fixpoint write_items (l : list (result CborEnvelopeError (list byte)))
  : result CborEnvelopeError (list byte) :=
  match l with
  | [] => Ok []
  | v :: t => let? bv := v in let? bt := write_items t in Ok (bv ++ bt)
  end.

(** The value of an entry is encoded where the entry is written; sorting looks
    at keys only, so encoding before or after the sort is the same
    ([encode_map_sorts_first]). *)
Fixpoint write_value (v : CborValue) : result CborEnvelopeError (list byte) :=
  match v with
  | Uint n => Ok (write_uint n)
  | Nint n => Ok (write_type_arg 1 n)
  | Bytes b => Ok (write_type_arg 2 (Z.of_nat (length b)) ++ b)
  | Text s => Ok (write_type_arg 3 (Z.of_nat (length s)) ++ s)
  | Array items =>
      let? body := write_items (map write_value items) in
      Ok (write_type_arg 4 (Z.of_nat (length items)) ++ body)
  | Map entries =>
      encode_sorted_map
        (sort_by_key (map (fun e => (fst e, write_value (snd e))) entries))
  | Bool false => Ok [z2b 0xf4]
  | Bool true => Ok [z2b 0xf5]
  | Null => Ok [z2b 0xf6]
  end.

Definition encode_deterministic_uint_map (entries : list (Z * CborValue))
  : result CborEnvelopeError (list byte) :=
  encode_sorted_map (map (fun e => (fst e, write_value (snd e))) (sort_by_key entries)).

Example cbor_ex :
  encode_deterministic_uint_map
    [(3, Bytes [Byte.x01; Byte.x02]); (1, Uint 9); (2, Map [(7, Null); (5, Array [Bool true; Nint 500])])]
  = Ok (map z2b [0xa3; 1; 9; 2; 0xa2; 5; 0x82; 0xf5; 0x39; 1; 0xf4; 7; 0xf6; 3; 0x42; 1; 2]).
Proof. reflexivity. Qed.
