(* ===== verification/CborFacts.v ===== *)
(** * Correctness of the deterministic CBOR codec

    Theorems about [Cbor.v]: heads are read back exactly as written and only
    shortest heads are read; the encoder's output validates and decodes to the
    canonical form of what was encoded; every accepted envelope is the encoding
    of the entries it decodes to. *)
From S2P Require Import Prelude Cbor.
Import Cursor.

(** ** Reference encoding

    [enc] is the encoding a value has when it is already in canonical form: no
    sorting, no checks.  [canonical] says that it is (all nested maps strictly
    sorted by key); [canon] sorts every nested map; [encodable] says that the
    keys of every nested map are distinct and that every integer and length
    fits its width. *)

Fixpoint enc (v : CborValue) : list byte :=
  match v with
  | Uint n => write_type_arg 0 n
  | Nint n => write_type_arg 1 n
  | Bytes b => write_type_arg 2 (Z.of_nat (length b)) ++ b
  | Text s => write_type_arg 3 (Z.of_nat (length s)) ++ s
  | Array items => write_type_arg 4 (Z.of_nat (length items)) ++ concat (map enc items)
  | Map es =>
      write_type_arg 5 (Z.of_nat (length es)) ++
      concat (map (fun e => write_uint (fst e) ++ enc (snd e)) es)
  | Bool b => [z2b (if b then 0xf5 else 0xf4)]
  | Null => [z2b 0xf6]
  end.

Definition enc_entry (e : Z * CborValue) : list byte := write_uint (fst e) ++ enc (snd e).
Definition enc_map (es : list (Z * CborValue)) : list byte :=
  write_type_arg 5 (Z.of_nat (length es)) ++ concat (map enc_entry es).

Definition below (lo : option Z) (k : Z) : Prop :=
  match lo with Some l => l < k | None => True end.

(** Keys strictly increasing, the first one above [lo]. *)
Fixpoint incr (lo : option Z) (ks : list Z) : Prop :=
  match ks with
  | [] => True
  | k :: t => below lo k /\ incr (Some k) t
  end.

Fixpoint canonical (v : CborValue) : Prop :=
  match v with
  | Uint n | Nint n => in_u64 n
  | Bytes b => in_u64 (Z.of_nat (length b))
  | Text s => in_u64 (Z.of_nat (length s)) /\ utf8_valid s = true
  | Array items =>
      in_u64 (Z.of_nat (length items)) /\
      foldr (fun x acc => canonical x /\ acc) True items
  | Map es =>
      in_u64 (Z.of_nat (length es)) /\ incr None (map fst es) /\
      foldr (fun e acc => (in_u64 (fst e) /\ canonical (snd e)) /\ acc) True es
  | Bool _ | Null => True
  end.

Definition canonical_entry (e : Z * CborValue) : Prop :=
  in_u64 (fst e) /\ canonical (snd e).
Definition canonical_map (es : list (Z * CborValue)) : Prop :=
  in_u64 (Z.of_nat (length es)) /\ incr None (map fst es) /\ Forall canonical_entry es.

Fixpoint canon (v : CborValue) : CborValue :=
  match v with
  | Array items => Array (map canon items)
  | Map es => Map (sort_by_key (map (fun e => (fst e, canon (snd e))) es))
  | _ => v
  end.
Definition canon_entries (es : list (Z * CborValue)) : list (Z * CborValue) :=
  sort_by_key (map (fun e => (fst e, canon (snd e))) es).

Fixpoint encodable (v : CborValue) : Prop :=
  match v with
  | Uint n | Nint n => in_u64 n
  | Bytes b => in_u64 (Z.of_nat (length b))
  | Text s => in_u64 (Z.of_nat (length s)) /\ utf8_valid s = true
  | Array items =>
      in_u64 (Z.of_nat (length items)) /\
      foldr (fun x acc => encodable x /\ acc) True items
  | Map es =>
      in_u64 (Z.of_nat (length es)) /\ NoDup (map fst es) /\
      foldr (fun e acc => (in_u64 (fst e) /\ encodable (snd e)) /\ acc) True es
  | Bool _ | Null => True
  end.
Definition encodable_map (es : list (Z * CborValue)) : Prop := encodable (Map es).

Lemma utf8_ascii s : Forall (fun c => b2z c <= 127) s -> utf8_valid s = true.
Proof.
  induction 1 as [|c s Hc Hs IH]; [done|]. cbn [utf8_valid]. by rewrite (proj2 (Z.leb_le _ _)).
Qed.
Lemma foldr_and_Forall {A} (P : A -> Prop) l :
  foldr (fun x acc => P x /\ acc) True l <-> Forall P l.
Proof. induction l as [|x l IH]; simpl; [done|]. by rewrite Forall_cons, IH. Qed.

Lemma CborValue_ind_nested (P : CborValue -> Prop) :
  (forall n, P (Uint n)) -> (forall n, P (Nint n)) ->
  (forall b, P (Bytes b)) -> (forall s, P (Text s)) ->
  (forall items, Forall P items -> P (Array items)) ->
  (forall es, Forall (fun e => P (snd e)) es -> P (Map es)) ->
  (forall b, P (Bool b)) -> P Null -> forall v, P v.
Proof.
  intros HU HN HB HT HA HM Hb Hn. fix IH 1. intros [n|n|b|s|items|es|b|].
  1-4,7-8: by clear IH.
  - apply HA. clear -IH. induction items as [|x t IHt]; constructor; [apply IH|apply IHt].
  - apply HM. clear -IH. induction es as [|x t IHt]; constructor; [apply IH|apply IHt].
Qed.

(** ** Heads *)

Lemma lor_head m a : 0 <= a < 32 -> Z.lor (Z.shiftl m 5) a = 32 * m + a.
Proof.
  intros Ha.
  assert (Hland : Z.land (Z.shiftl m 5) a = 0).
  { apply Z.bits_inj'. intros i Hi. rewrite Z.land_spec, Z.bits_0.
    destruct (Z.lt_ge_cases i 5).
    - by rewrite Z.shiftl_spec_low by lia.
    - rewrite <- (Z.mod_small a (2 ^ 5)) by lia.
      rewrite Z.mod_pow2_bits_high by lia. apply andb_false_r. }
  rewrite <- Z.lxor_lor, <- Z.add_nocarry_lxor by done.
  rewrite Z.shiftl_mul_pow2 by lia. lia.
Qed.

Lemma shiftr5 h : Z.shiftr h 5 = h / 32.
Proof. by rewrite Z.shiftr_div_pow2 by lia. Qed.
Lemma land31 h : Z.land h 0x1f = h mod 32.
Proof. change 0x1f with (Z.ones 5). by rewrite Z.land_ones by lia. Qed.

Lemma head_byte m a : 0 <= m < 8 -> 0 <= a < 32 ->
  b2z (z2b (Z.lor (Z.shiftl m 5) a)) = 32 * m + a.
Proof. intros. rewrite lor_head by lia. apply b2z_z2b_small. lia. Qed.

Lemma head_byte_inv b : z2b (Z.lor (Z.shiftl (b2z b / 32) 5) (b2z b mod 32)) = b.
Proof.
  rewrite lor_head by (apply Z.mod_pos_bound; lia).
  rewrite <- (Z.div_mod (b2z b) 32) by lia. apply z2b_b2z.
Qed.

Lemma take_n_app n bs r : Z.of_nat (length bs) = n -> take_n n (bs ++ r) = Ok (bs, r).
Proof.
  intros <-. unfold take_n. rewrite length_app.
  destruct (Z.ltb_spec (Z.of_nat (length bs + length r)) (Z.of_nat (length bs))); [lia|].
  rewrite Nat2Z.id, take_app_length, drop_app_length. done.
Qed.

Lemma take_n_inv n r raw r' : take_n n r = Ok (raw, r') ->
  r = raw ++ r' /\ Z.of_nat (length raw) = Z.max 0 n.
Proof.
  unfold take_n. destruct (Z.ltb_spec (Z.of_nat (length r)) n); [done|].
  intros [= <- <-]. rewrite take_drop, length_take. split; [done|lia].
Qed.

(** The view of a head through [take_byte]. *)
Lemma take_byte_head m x t r : 0 <= m < 8 -> 0 <= x < 32 ->
  take_byte ((z2b (Z.lor (Z.shiftl m 5) x) :: t) ++ r) = Ok (32 * m + x, t ++ r).
Proof. intros. simpl. by rewrite head_byte. Qed.
Lemma head_major m x : 0 <= x < 32 -> Z.shiftr (32 * m + x) 5 = m.
Proof. intros. rewrite shiftr5, Z.mul_comm, Z.div_add_l, Z.div_small by lia. lia. Qed.
Lemma head_ai m x : 0 <= x < 32 -> Z.land (32 * m + x) 0x1f = x.
Proof.
  intros. rewrite land31, Z.mul_comm, Z.add_comm, Z.mod_add by lia.
  by apply Z.mod_small.
Qed.

Ltac pos_ltb :=
  match goal with
  | |- context [?a <? ?b] => destruct (Z.ltb_spec a b); [lia|]
  | |- context [?a <=? ?b] =>
      first [ rewrite (proj2 (Z.leb_le a b)) by lia
            | rewrite (proj2 (Z.leb_gt a b)) by lia ]
  end.

(** A head is read back as written. *)
Lemma read_head_write m a r : 0 <= m < 8 -> in_u64 a ->
  read_head (write_type_arg m a ++ r) = Ok ((m, a), r).
Proof.
  intros Hm [Ha0 Ha]. unfold U64_MAX in Ha. unfold write_type_arg.
  destruct (Z.leb_spec a 23); [|destruct (Z.leb_spec a 255);
    [|destruct (Z.leb_spec a 65535); [|destruct (Z.leb_spec a 4294967295)]]];
    unfold read_head; rewrite take_byte_head, head_major, head_ai by lia; cbn [Z.leb Z.eqb Z.compare Pos.compare Pos.compare_cont Pos.eqb app take_byte].
  - by pos_ltb.
  - rewrite b2z_z2b_small by lia. by pos_ltb.
  - rewrite take_n_app by by rewrite length_be_bytes.
    rewrite be_val_bytes_small by lia. by pos_ltb.
  - rewrite take_n_app by by rewrite length_be_bytes.
    rewrite be_val_bytes_small by lia. by pos_ltb.
  - rewrite take_n_app by by rewrite length_be_bytes.
    rewrite be_val_bytes_small by lia. by pos_ltb.
Qed.

(** A wide argument, read big-endian, is what the writer emits. *)
Lemma wide_arg n r raw r' : take_n (Z.of_nat n) r = Ok (raw, r') ->
  r = be_bytes n (be_val raw) ++ r' /\ 0 <= be_val raw < 256 ^ Z.of_nat n.
Proof.
  intros [-> Hl]%take_n_inv. assert (length raw = n) as <- by lia.
  rewrite be_bytes_val by done. split; [done|apply be_val_range].
Qed.

(** Only shortest heads are read: what was read is what the writer emits. *)
Lemma read_head_inv r m a r' : read_head r = Ok ((m, a), r') ->
  0 <= m < 8 /\ in_u64 a /\ r = write_type_arg m a ++ r'.
Proof.
  unfold read_head. destruct r as [|b r1]; simpl; [done|].
  rewrite shiftr5, land31.
  pose proof (b2z_range b) as Hb. pose proof (head_byte_inv b) as Hinv.
  pose proof (Z.mod_pos_bound (b2z b) 32 ltac:(lia)) as Hai.
  assert (0 <= b2z b / 32 < 8) as Hmj.
  { split; [apply Z.div_pos; lia|apply Z.div_lt_upper_bound; lia]. }
  revert Hinv Hai Hmj. generalize (b2z b / 32) (b2z b mod 32). clear Hb.
  intros mj ai Hinv Hai Hmj. unfold in_u64, U64_MAX, write_type_arg.
  destruct (Z.leb_spec ai 23).
  { intros [= <- <- <-]. split; [lia|]. split; [lia|].
    pos_ltb. by rewrite Hinv. }
  destruct (Z.eqb_spec ai 24) as [->|].
  { destruct r1 as [|c r2]; simpl; [done|]. pose proof (b2z_range c).
    destruct (Z.ltb_spec (b2z c) 24); [done|]. intros [= <- <- <-].
    split; [lia|]. split; [lia|]. do 2 pos_ltb. by rewrite Hinv, z2b_b2z. }
  destruct (Z.eqb_spec ai 25) as [->|].
  { destruct (take_n 2 r1) as [[raw r2]|] eqn:Ht; [|done].
    apply (wide_arg 2) in Ht as [-> ?].
    destruct (Z.ltb_spec (be_val raw) 256); [done|]. intros [= <- <- <-].
    split; [lia|]. split; [lia|]. do 3 pos_ltb. by rewrite Hinv. }
  destruct (Z.eqb_spec ai 26) as [->|].
  { destruct (take_n 4 r1) as [[raw r2]|] eqn:Ht; [|done].
    apply (wide_arg 4) in Ht as [-> ?].
    destruct (Z.ltb_spec (be_val raw) 65536); [done|]. intros [= <- <- <-].
    split; [lia|]. split; [lia|]. do 4 pos_ltb. by rewrite Hinv. }
  destruct (Z.eqb_spec ai 27) as [->|]; [|by repeat case_match].
  destruct (take_n 8 r1) as [[raw r2]|] eqn:Ht; [|done].
  apply (wide_arg 8) in Ht as [-> ?].
  destruct (Z.ltb_spec (be_val raw) 4294967296); [done|]. intros [= <- <- <-].
  split; [lia|]. split; [lia|]. do 4 pos_ltb. by rewrite Hinv.
Qed.

Lemma write_type_arg_length m a : (1 <= length (write_type_arg m a))%nat.
Proof. unfold write_type_arg. repeat case_match; simpl; lia. Qed.

Lemma peek_head m a r : 0 <= m < 8 -> in_u64 a ->
  exists h, peek (write_type_arg m a ++ r) = Ok h /\ Z.shiftr h 5 = m.
Proof.
  intros Hm Ha. pose proof (read_head_write m a r Hm Ha) as Hrd.
  unfold read_head in Hrd. destruct (write_type_arg m a ++ r) as [|b t]; [done|].
  exists (b2z b). split; [done|]. cbn in Hrd. by repeat case_match; simplify_eq.
Qed.

Lemma read_uint_write k r : in_u64 k -> read_uint (write_uint k ++ r) = Ok (k, r).
Proof. intros. unfold read_uint, write_uint. by rewrite read_head_write by (done || lia). Qed.

Lemma read_uint_inv r k r' : read_uint r = Ok (k, r') ->
  in_u64 k /\ r = write_uint k ++ r'.
Proof.
  unfold read_uint. destruct (read_head r) as [[[m a] r1]|] eqn:Hh; [|done].
  apply read_head_inv in Hh as (Hm & Ha & ->).
  destruct (Z.eqb_spec m 0) as [->|]; simpl; [|done]. by intros [= <- <-].
Qed.

(** ** Key order: encoded keys compare as the keys do *)

Lemma bytes_cmp_snoc x y a b : length x = length y ->
  bytes_cmp (x ++ [a]) (y ++ [b]) =
  match bytes_cmp x y with Eq => b2z a ?= b2z b | c => c end.
Proof.
  revert y. induction x as [|p x IH]; intros [|q y] Hl; simplify_eq/=.
  - by destruct (b2z a ?= b2z b).
  - destruct (b2z p ?= b2z q); [by apply IH|done|done].
Qed.

Lemma be_bytes_S n z : be_bytes (S n) z = be_bytes n (z / 256) ++ [z2b z].
Proof. unfold be_bytes. change (le_bytes (S n) z) with (z2b z :: le_bytes n (z / 256)).
  by rewrite reverse_cons. Qed.

Lemma be_bytes_cmp n a b :
  0 <= a < 256 ^ Z.of_nat n -> 0 <= b < 256 ^ Z.of_nat n ->
  bytes_cmp (be_bytes n a) (be_bytes n b) = (a ?= b).
Proof.
  revert a b. induction n as [|n IH]; intros a b Ha Hb.
  - assert (a = 0) as -> by (simpl in Ha; lia).
    assert (b = 0) as -> by (simpl in Hb; lia). done.
  - rewrite Nat2Z.inj_succ, Z.pow_succ_r in Ha, Hb by lia.
    rewrite !be_bytes_S, bytes_cmp_snoc by by rewrite !length_be_bytes.
    rewrite IH by (split; [apply Z.div_pos; lia|apply Z.div_lt_upper_bound; lia]).
    rewrite !b2z_z2b.
    pose proof (Z.div_mod a 256 ltac:(lia)). pose proof (Z.div_mod b 256 ltac:(lia)).
    pose proof (Z.mod_pos_bound a 256 ltac:(lia)).
    pose proof (Z.mod_pos_bound b 256 ltac:(lia)).
    destruct (Z.compare_spec (a / 256) (b / 256));
      destruct (Z.compare_spec (a mod 256) (b mod 256));
      symmetry; first [apply Z.compare_eq_iff; lia
                      |apply Z.compare_lt_iff; lia|apply Z.compare_gt_iff; lia].
Qed.

Lemma bytes_cmp_cons_eq x a b : bytes_cmp (x :: a) (x :: b) = bytes_cmp a b.
Proof. simpl. by rewrite Z.compare_refl. Qed.

Lemma bytes_cmp_head_lt x y s t : b2z x < b2z y -> bytes_cmp (x :: s) (y :: t) = Lt.
Proof. intros H. simpl. by rewrite (proj2 (Z.compare_lt_iff _ _) H). Qed.
Lemma bytes_cmp_head_gt x y s t : b2z y < b2z x -> bytes_cmp (x :: s) (y :: t) = Gt.
Proof. intros H. simpl. by rewrite (proj2 (Z.compare_gt_iff _ _) H). Qed.

Lemma write_uint_cmp a b : in_u64 a -> in_u64 b ->
  bytes_cmp (write_uint a) (write_uint b) = (a ?= b).
Proof.
  intros [? Ha] [? Hb]. unfold U64_MAX in *. unfold write_uint, write_type_arg.
  pose proof (fun x => head_byte 0 x ltac:(lia)) as Hh.
  repeat match goal with |- context [?x <=? ?y] => destruct (Z.leb_spec x y); [|] end;
    try lia.
  1: { cbn [bytes_cmp]. rewrite !Hh by lia. rewrite Z.mul_0_r, !Z.add_0_l.
       by destruct (a ?= b). }
  all: first
    [ rewrite bytes_cmp_head_lt by (rewrite !Hh by lia; lia);
      symmetry; apply Z.compare_lt_iff; lia
    | rewrite bytes_cmp_head_gt by (rewrite !Hh by lia; lia);
      symmetry; apply Z.compare_gt_iff; lia
    | rewrite bytes_cmp_cons_eq; rewrite be_bytes_cmp by lia; done
    | rewrite bytes_cmp_cons_eq; cbn [bytes_cmp];
      rewrite !b2z_z2b_small by lia; by destruct (a ?= b) ].
Qed.

Lemma write_uint_leb a b : in_u64 a -> in_u64 b ->
  bytes_leb (write_uint a) (write_uint b) = (a <=? b).
Proof. intros. unfold bytes_leb. rewrite write_uint_cmp by done. done. Qed.

(** ** Reading the reference encoding *)

Lemma enc_length v : (1 <= length (enc v))%nat.
Proof.
  destruct v; simpl; rewrite ?length_app; try lia;
    match goal with |- context [write_type_arg ?m ?a] =>
      pose proof (write_type_arg_length m a); lia end.
Qed.
Lemma enc_entry_length e : (2 <= length (enc_entry e))%nat.
Proof.
  unfold enc_entry. rewrite length_app.
  pose proof (write_type_arg_length 0 (fst e)). pose proof (enc_length (snd e)).
  unfold write_uint. lia.
Qed.

Lemma bound_ok n k r : (0 < k)%nat -> (k * n <= length r)%nat ->
  bound_collection_len (Z.of_nat n) (Z.of_nat k) r = Ok n.
Proof.
  intros Hk Hn. unfold bound_collection_len.
  rewrite Z.max_l by lia. rewrite Nat2Z.id.
  destruct (Z.ltb_spec (Z.of_nat (length r) / Z.of_nat k) (Z.of_nat n)) as [Hlt|]; [|done].
  pose proof (Z.div_le_lower_bound (Z.of_nat (length r)) (Z.of_nat k) (Z.of_nat n)). lia.
Qed.

Lemma read_array_len_write n r : in_u64 (Z.of_nat n) -> (n <= length r)%nat ->
  read_array_len (write_type_arg 4 (Z.of_nat n) ++ r) = Ok (n, r).
Proof.
  intros. unfold read_array_len. rewrite read_head_write by (done || lia). simpl.
  by rewrite (bound_ok n 1) by lia.
Qed.
Lemma read_map_len_write n r : in_u64 (Z.of_nat n) -> (2 * n <= length r)%nat ->
  read_map_len (write_type_arg 5 (Z.of_nat n) ++ r) = Ok (n, r).
Proof.
  intros. unfold read_map_len. rewrite read_head_write by (done || lia). simpl.
  by rewrite (bound_ok n 2) by lia.
Qed.

(** The deterministic map loop accepts strictly increasing keys. *)
Lemma map_iter_ok skip es lo seen r :
  incr lo (map fst es) -> Forall (fun e => in_u64 (fst e)) es ->
  match lo with Some l => in_u64 l | None => True end ->
  (forall x, In x seen -> exists l, lo = Some l /\ x <= l) ->
  Forall (fun e => forall r, skip (enc (snd e) ++ r) = Ok r) es ->
  exists st, iter_n (length es) (map_entry skip)
      ((write_uint <$> lo, seen), concat (map enc_entry es) ++ r) = Ok (st, r).
Proof.
  revert lo seen. induction es as [|[k v] es IH]; intros lo seen Hincr Hu Hlo Hseen Hskip.
  { by eexists. }
  destruct Hincr as [Hk Hincr]. apply Forall_cons in Hu as [Hku Hu], Hskip as [Hv Hskip].
  simpl in Hk, Hku, Hincr, Hv.
  assert (Hstep : map_entry skip
      ((write_uint <$> lo, seen), concat (map enc_entry ((k, v) :: es)) ++ r) =
      Ok ((Some (write_uint k), seen ++ [k]), concat (map enc_entry es) ++ r)).
  { cbn [map concat]. change (enc_entry (k, v)) with (write_uint k ++ enc v).
    rewrite <- !app_assoc. unfold map_entry. rewrite read_uint_write by done.
    rewrite (length_app (write_uint k)), Nat.add_sub, take_app_length.
    replace (existsb (Z.eqb k) seen) with false.
    2: { symmetry. apply not_true_iff_false. rewrite existsb_exists.
         intros (x & Hx & He). apply Z.eqb_eq in He. subst x.
         apply Hseen in Hx as (l & -> & ?). simpl in Hk. lia. }
    replace (match write_uint <$> lo with Some p => bytes_leb (write_uint k) p | None => false end)
      with false.
    2: { destruct lo as [l|]; simpl in *; [|done].
         rewrite write_uint_leb by done. symmetry. apply Z.leb_gt. lia. }
    by rewrite Hv. }
  cbn [length iter_n]. rewrite Hstep.
  apply (IH (Some k)); try done.
  intros x Hx. exists k. split; [done|]. apply in_app_or in Hx as [Hx|[<-|[]]]; [|lia].
  apply Hseen in Hx as (l & -> & ?). simpl in Hk. lia.
Qed.

Lemma map_body_ok skip es r :
  incr None (map fst es) -> Forall (fun e => in_u64 (fst e)) es ->
  Forall (fun e => forall r, skip (enc (snd e) ++ r) = Ok r) es ->
  map_body skip (length es) (concat (map enc_entry es) ++ r) = Ok r.
Proof.
  intros Hi Hu Hs. unfold map_body.
  destruct (map_iter_ok skip es None [] r) as [st Hst]; try done.
  change (write_uint <$> None) with (@None (list byte)) in Hst. by rewrite Hst.
Qed.

(** Reading a canonical value: [read_value] returns it and [skip_value]
    passes over it, with any fuel at least as long as the encoding. *)
Lemma read_enc v : canonical v -> forall f r, (length (enc v) <= f)%nat ->
  read_value f (enc v ++ r) = Ok (v, r) /\ skip_value f (enc v ++ r) = Ok r.
Proof.
  induction v as [n|n|b|s|items IH|es IH|b|] using CborValue_ind_nested;
    intros Hc f r Hf;
    (destruct f as [|f]; [match type of Hf with (length (enc ?v) <= 0)%nat =>
       pose proof (enc_length v); lia end|]); cbn [read_value skip_value enc] in *.
  - destruct (peek_head 0 n r ltac:(lia) Hc) as (h & -> & ->).
    unfold read_uint_any. by rewrite read_head_write by (done || lia).
  - destruct (peek_head 1 n r ltac:(lia) Hc) as (h & -> & ->).
    by rewrite read_head_write by (done || lia).
  - rewrite <- app_assoc.
    destruct (peek_head 2 _ (b ++ r) ltac:(lia) Hc) as (h & -> & ->).
    unfold read_bstr. rewrite read_head_write by (done || lia). cbn.
    by rewrite take_n_app by done.
  - destruct Hc as [Hl Hu]. rewrite <- app_assoc.
    destruct (peek_head 3 _ (s ++ r) ltac:(lia) Hl) as (h & -> & ->).
    unfold read_tstr. rewrite read_head_write by (done || lia). cbn.
    rewrite take_n_app by done. by rewrite Hu.
  - destruct Hc as [Hl Hc]. apply foldr_and_Forall in Hc.
    rewrite length_app in Hf. pose proof (write_type_arg_length 4 (Z.of_nat (length items))).
    assert (Hall : Forall (fun v => forall r, read_value f (enc v ++ r) = Ok (v, r) /\
              skip_value f (enc v ++ r) = Ok r) items).
    { rewrite Forall_forall in IH, Hc |- *. intros v Hv r'. apply IH; [done|by apply Hc|].
      pose proof (elem_of_concat_length enc v items Hv). lia. }
    rewrite <- app_assoc.
    destruct (peek_head 4 _ (concat (map enc items) ++ r) ltac:(lia) Hl) as (h & -> & ->).
    rewrite read_array_len_write; [|done|].
    2: { rewrite length_app. pose proof (concat_length_ge enc 1 items). 
         assert (1 * length items <= length (concat (map enc items)))%nat
           by (apply concat_length_ge; intros; apply enc_length). lia. }
    rewrite collect_n_concat.
    2: { eapply Forall_impl; [exact Hall|]. intros v Hv r'. apply Hv. }
    split; [done|]. rewrite <- (length_map enc items). apply iter_n_concat.
    apply Forall_map. eapply Forall_impl; [exact Hall|]. intros v Hv r'. apply Hv.
  - destruct Hc as (Hl & Hi & Hc). apply foldr_and_Forall in Hc.
    change (concat (map _ es)) with (concat (map enc_entry es)) in *.
    rewrite length_app in Hf. pose proof (write_type_arg_length 5 (Z.of_nat (length es))).
    assert (Hall : Forall (fun e => in_u64 (fst e) /\ forall r,
              read_value f (enc (snd e) ++ r) = Ok (snd e, r) /\
              skip_value f (enc (snd e) ++ r) = Ok r) es).
    { rewrite Forall_forall in IH, Hc |- *. intros e He. destruct (Hc e He) as [Hk Hce].
      split; [done|]. intros r'. apply IH; [done|done|].
      pose proof (elem_of_concat_length enc_entry e es He) as Hle.
      unfold enc_entry in Hle at 1. rewrite length_app in Hle. lia. }
    rewrite <- app_assoc.
    destruct (peek_head 5 _ (concat (map enc_entry es) ++ r) ltac:(lia) Hl) as (h & -> & ->).
    rewrite read_map_len_write; [|done|].
    2: { rewrite length_app.
         assert (2 * length es <= length (concat (map enc_entry es)))%nat
           by (apply concat_length_ge; intros; apply enc_entry_length). lia. }
    rewrite collect_n_concat.
    2: { eapply Forall_impl; [exact Hall|]. intros [k v] [Hk Hv] r'. unfold enc_entry.
         cbn [fst snd] in *. rewrite <- app_assoc, read_uint_write by done.
         by rewrite (proj1 (Hv r')). }
    split; [done|]. apply map_body_ok; [done| |].
    + eapply Forall_impl; [exact Hall|]. naive_solver.
    + eapply Forall_impl; [exact Hall|]. intros e [_ Hv] r'. apply Hv.
  - by destruct b.
  - done.
Qed.

(** ** Everything accepted is a reference encoding *)

Lemma map_iter_inv skip n lo seen r st r' :
  (forall r r', skip r = Ok r' -> exists v, canonical v /\ r = enc v ++ r') ->
  match lo with Some l => in_u64 l | None => True end ->
  iter_n n (map_entry skip) ((write_uint <$> lo, seen), r) = Ok (st, r') ->
  exists es, length es = n /\ incr lo (map fst es) /\ Forall canonical_entry es /\
             r = concat (map enc_entry es) ++ r'.
Proof.
  intros Hskip. revert lo seen r. induction n as [|n IH]; intros lo seen r Hlo Hit.
  { simplify_eq/=. by exists []. }
  cbn [iter_n] in Hit. destruct (map_entry skip _) as [[[pk sn] r2]|] eqn:Hst; [|done].
  unfold map_entry in Hst. destruct (read_uint r) as [[k r1]|] eqn:Hr; [|done].
  apply read_uint_inv in Hr as [Hk ->].
  rewrite length_app, Nat.add_sub, take_app_length in Hst.
  destruct (existsb _ seen); [done|].
  destruct (match write_uint <$> lo with Some p => bytes_leb (write_uint k) p
            | None => false end) eqn:Hle; [done|].
  destruct (skip r1) as [r3|] eqn:Hs; [|done]. simplify_eq.
  apply Hskip in Hs as (v & Hv & ->).
  apply (IH (Some k)) in Hit as (es & <- & Hi & He & ->); [|done].
  exists ((k, v) :: es). split; [done|]. split.
  { split; [|done]. destruct lo as [l|]; [|done]. simpl in Hle |- *.
    rewrite write_uint_leb in Hle by done. by apply Z.leb_gt in Hle. }
  split; [by constructor|]. simpl. unfold enc_entry at 2. by rewrite <- !app_assoc.
Qed.

Lemma map_body_inv skip n r r' :
  (forall r r', skip r = Ok r' -> exists v, canonical v /\ r = enc v ++ r') ->
  map_body skip n r = Ok r' ->
  exists es, length es = n /\ incr None (map fst es) /\ Forall canonical_entry es /\
             r = concat (map enc_entry es) ++ r'.
Proof.
  intros Hskip. unfold map_body.
  destruct (iter_n _ _ _) as [[st r1]|] eqn:Hit; [|done]. intros [= <-].
  by apply (map_iter_inv skip n None [] r st r1).
Qed.

Lemma peek_inv r h : peek r = Ok h -> exists b t, r = b :: t /\ h = b2z b.
Proof. destruct r as [|b t]; [done|]. intros [= <-]. eauto. Qed.

Lemma bound_inv a k r n : in_u64 a -> bound_collection_len a k r = Ok n ->
  a = Z.of_nat n.
Proof.
  unfold bound_collection_len, in_u64. case_match; [done|]. intros ? [= <-]. lia.
Qed.

Lemma read_map_len_inv r n r' : read_map_len r = Ok (n, r') ->
  in_u64 (Z.of_nat n) /\ r = write_type_arg 5 (Z.of_nat n) ++ r'.
Proof.
  unfold read_map_len. destruct (read_head r) as [[[m a] r1]|] eqn:Hh; [|done].
  apply read_head_inv in Hh as (Hm & Ha & ->).
  destruct (Z.eqb_spec m 5) as [->|]; simpl; [|done].
  destruct (bound_collection_len _ _ _) eqn:Hb; [|done]. intros [= <- <-].
  apply bound_inv in Hb as ->; [|done]. done.
Qed.
Lemma read_array_len_inv r n r' : read_array_len r = Ok (n, r') ->
  in_u64 (Z.of_nat n) /\ r = write_type_arg 4 (Z.of_nat n) ++ r'.
Proof.
  unfold read_array_len. destruct (read_head r) as [[[m a] r1]|] eqn:Hh; [|done].
  apply read_head_inv in Hh as (Hm & Ha & ->).
  destruct (Z.eqb_spec m 4) as [->|]; simpl; [|done].
  destruct (bound_collection_len _ _ _) eqn:Hb; [|done]. intros [= <- <-].
  apply bound_inv in Hb as ->; [|done]. done.
Qed.
Lemma read_bstr_inv r b r' : read_bstr r = Ok (b, r') ->
  in_u64 (Z.of_nat (length b)) /\ r = enc (Bytes b) ++ r'.
Proof.
  unfold read_bstr. destruct (read_head r) as [[[m a] r1]|] eqn:Hh; [|done].
  apply read_head_inv in Hh as (Hm & Ha & ->).
  destruct (Z.eqb_spec m 2) as [->|]; simpl; [|done].
  intros [-> Hl]%take_n_inv. destruct Ha. rewrite Z.max_r in Hl by lia. subst a.
  split; [done|]. by rewrite <- app_assoc.
Qed.
Lemma read_tstr_inv r s r' : read_tstr r = Ok (s, r') ->
  canonical (Text s) /\ r = enc (Text s) ++ r'.
Proof.
  unfold read_tstr. destruct (read_head r) as [[[m a] r1]|] eqn:Hh; [|done].
  apply read_head_inv in Hh as (Hm & Ha & ->).
  destruct (Z.eqb_spec m 3) as [->|]; simpl; [|done].
  destruct (take_n a r1) as [[raw r2]|] eqn:Ht; [|done].
  apply take_n_inv in Ht as [-> Hl]. destruct (utf8_valid raw) eqn:Hu; [|done].
  intros [= <- <-]. destruct Ha. rewrite Z.max_r in Hl by lia. subst a.
  split; [done|]. by rewrite <- app_assoc.
Qed.

Lemma read_simple_inv b t v r' :
  Z.shiftr (b2z b) 5 = 7 -> read_simple_value (b :: t) = Ok (v, r') ->
  canonical v /\ b :: t = enc v ++ r'.
Proof.
  rewrite shiftr5. intros H7 H. unfold read_simple_value in H. cbn in H.
  rewrite land31 in H. pose proof (head_byte_inv b) as Hb. rewrite H7 in Hb.
  destruct (Z.eqb_spec (b2z b mod 32) 20) as [E|].
  { simplify_eq. split; [done|]. cbn [enc]. by rewrite <- Hb, E. }
  destruct (Z.eqb_spec (b2z b mod 32) 21) as [E|].
  { simplify_eq. split; [done|]. cbn [enc]. by rewrite <- Hb, E. }
  destruct (Z.eqb_spec (b2z b mod 32) 22) as [E|].
  { simplify_eq. split; [done|]. cbn [enc]. by rewrite <- Hb, E. }
  repeat case_match; done.
Qed.

Lemma major_cases b : let m := Z.shiftr (b2z b) 5 in
  m = 0 \/ m = 1 \/ m = 2 \/ m = 3 \/ m = 4 \/ m = 5 \/ m = 6 \/ m = 7.
Proof.
  cbn. rewrite shiftr5. pose proof (b2z_range b).
  assert (0 <= b2z b / 32 < 8)
    by (split; [apply Z.div_pos; lia|apply Z.div_lt_upper_bound; lia]). lia.
Qed.

Lemma read_head_major b t m a r1 : read_head (b :: t) = Ok ((m, a), r1) ->
  in_u64 a /\ b :: t = write_type_arg (Z.shiftr (b2z b) 5) a ++ r1.
Proof.
  intros (Hm & Ha & Hr)%read_head_inv. split; [done|].
  destruct (peek_head m a r1 Hm Ha) as (h & Hh & Hs). rewrite <- Hr in Hh.
  simplify_eq/=. by rewrite Hr.
Qed.

Lemma skip_inv f r r' : skip_value f r = Ok r' ->
  exists v, canonical v /\ r = enc v ++ r'.
Proof.
  revert r r'. induction f as [|f IH]; intros r r'; [done|]. cbn [skip_value].
  destruct (peek r) as [h|] eqn:Hp; [|done]. apply peek_inv in Hp as (b & t & -> & ->).
  destruct (major_cases b) as [E|[E|[E|[E|[E|[E|[E|E]]]]]]]; rewrite E.
  - destruct (read_head (b :: t)) as [[[mj a] r1]|] eqn:Hh; [|done]. intros [= <-].
    apply read_head_major in Hh as [Ha ->]. rewrite E. by exists (Uint a).
  - destruct (read_head (b :: t)) as [[[mj a] r1]|] eqn:Hh; [|done]. intros [= <-].
    apply read_head_major in Hh as [Ha ->]. rewrite E. by exists (Nint a).
  - destruct (read_bstr (b :: t)) as [[d r1]|] eqn:Hh; [|done]. intros [= <-].
    apply read_bstr_inv in Hh as [? ->]. by exists (Bytes d).
  - destruct (read_tstr (b :: t)) as [[d r1]|] eqn:Hh; [|done]. intros [= <-].
    apply read_tstr_inv in Hh as [? ->]. by exists (Text d).
  - destruct (read_array_len (b :: t)) as [[n r1]|] eqn:Hh; [|done].
    apply read_array_len_inv in Hh as [Hn ->]. intros Hit.
    apply (iter_n_inv _ canonical enc) in Hit as (l & <- & Hl & ->); [|done].
    exists (Array l). split; [split; [done|by apply foldr_and_Forall]|].
    cbn [enc]. by rewrite app_assoc.
  - destruct (read_map_len (b :: t)) as [[n r1]|] eqn:Hh; [|done].
    apply read_map_len_inv in Hh as [Hn ->]. intros Hit.
    apply map_body_inv in Hit as (es & <- & Hi & Hes & ->); [|done].
    exists (Map es). split; [split; [done|split; [done|by apply foldr_and_Forall]]|].
    cbn [enc]. by rewrite app_assoc.
  - done.
  - destruct (read_simple_value (b :: t)) as [[v r1]|] eqn:Hh; [|done]. intros [= <-].
    apply read_simple_inv in Hh as [? ->]; [|done]. by exists v.
Qed.

(** The envelope validator accepts exactly the reference encodings of
    canonical maps. *)
Lemma validate_spec bs :
  validate_deterministic_cbor_envelope bs = Ok tt <->
  exists es, canonical_map es /\ bs = enc_map es.
Proof.
  unfold validate_deterministic_cbor_envelope, read_envelope_map. split.
  - destruct (peek bs) as [h|] eqn:Hp; [|done].
    destruct (negb _); [done|].
    destruct (read_map_len bs) as [[n r1]|] eqn:Hn; [|done].
    apply read_map_len_inv in Hn as [Hn ->].
    destruct (map_body _ _ _) as [r|] eqn:Hb; [|done].
    apply map_body_inv in Hb as (es & <- & Hi & He & ->); [|by apply skip_inv].
    destruct r; [|done]. intros _. exists es. split; [done|].
    by rewrite app_nil_r.
  - intros (es & (Hl & Hi & He) & ->). unfold enc_map.
    destruct (peek_head 5 _ (concat (map enc_entry es)) ltac:(lia) Hl) as (h & -> & ->).
    cbn [negb Z.eqb Pos.eqb].
    rewrite read_map_len_write; [|done|apply concat_length_ge; intros; apply enc_entry_length].
    rewrite <- (app_nil_r (concat _)) at 2. rewrite map_body_ok; [done|done| |].
    + eapply Forall_impl; [exact He|]. by intros e [? _].
    + rewrite Forall_forall in He |- *. intros e Hin r. apply read_enc; [by apply He|].
      unfold fuel_for. rewrite length_app.
      pose proof (elem_of_concat_length enc_entry e es Hin) as Hle.
      unfold enc_entry in Hle at 1. rewrite length_app in Hle. lia.
Qed.

Lemma decode_enc es : canonical_map es ->
  decode_deterministic_uint_map (enc_map es) = Ok es.
Proof.
  intros Hc. unfold decode_deterministic_uint_map.
  rewrite (proj2 (validate_spec _)) by eauto. destruct Hc as (Hl & Hi & He).
  unfold enc_map at 1.
  rewrite read_map_len_write; [|done|apply concat_length_ge; intros; apply enc_entry_length].
  rewrite <- (app_nil_r (concat _)). rewrite collect_n_concat; [done|].
  rewrite Forall_forall in He |- *. intros [k v] Hin r. destruct (He _ Hin) as [Hk Hv].
  unfold read_entry. change (enc_entry (k, v)) with (write_uint k ++ enc v).
  rewrite <- app_assoc, read_uint_write by done.
  destruct (read_enc v Hv (fuel_for (enc_map es)) r) as [-> _]; [|done].
  unfold fuel_for, enc_map. rewrite length_app.
  pose proof (elem_of_concat_length enc_entry (k, v) es Hin) as Hle.
  unfold enc_entry in Hle at 1. rewrite length_app in Hle. simpl in Hle. lia.
Qed.

(** ** Sorting entries by key *)

Section SortByKey.
Context {V : Type}.
Implicit Types l : list (Z * V).

Lemma insert_by_key_perm k (v : V) l : insert_by_key k v l ≡ₚ (k, v) :: l.
Proof.
  induction l as [|[k' v'] l IH]; simpl; [done|]. case_match; [done|].
  by rewrite IH, Permutation_swap.
Qed.
Lemma sort_by_key_perm l : sort_by_key l ≡ₚ l.
Proof. induction l as [|[k v] l IH]; simpl; [done|]. by rewrite insert_by_key_perm, IH. Qed.

Lemma insert_by_key_map {W} (g : V -> W) k v l :
  insert_by_key k (g v) (map (fun e => (fst e, g (snd e))) l) =
  map (fun e => (fst e, g (snd e))) (insert_by_key k v l).
Proof. induction l as [|[k' v'] l IH]; simpl; [done|]. case_match; simpl; by rewrite ?IH. Qed.
Lemma sort_by_key_map {W} (g : V -> W) l :
  sort_by_key (map (fun e => (fst e, g (snd e))) l) =
  map (fun e => (fst e, g (snd e))) (sort_by_key l).
Proof. induction l as [|[k v] l IH]; simpl; [done|]. by rewrite IH, insert_by_key_map. Qed.

Lemma insert_by_key_incr k (v : V) l lo :
  below lo k -> incr lo (map fst l) -> ~ In k (map fst l) ->
  incr lo (map fst (insert_by_key k v l)).
Proof.
  revert lo. induction l as [|[k' v'] l IH]; simpl; intros lo Hk Hi Hin; [done|].
  destruct Hi as [Hk' Hi]. destruct (Z.leb_spec k k'); simpl.
  - split; [done|]. split; [|done]. simpl. assert (k <> k') by intuition. lia.
  - split; [done|]. apply IH; [simpl; lia|done|tauto].
Qed.
Lemma sort_by_key_incr l : NoDup (map fst l) -> incr None (map fst (sort_by_key l)).
Proof.
  induction l as [|[k v] l IH]; simpl; [done|]. intros [Hk Hd]%NoDup_cons.
  apply insert_by_key_incr; [done|by apply IH|]. intros Hin. apply Hk.
  rewrite list_elem_of_In. by rewrite <- (sort_by_key_perm l).
Qed.

Lemma incr_above lo ks x : incr lo ks -> In x ks -> below lo x.
Proof.
  revert lo. induction ks as [|k ks IH]; intros lo; [done|]. intros [Hk Hi] [<-|Hin]; [done|].
  specialize (IH _ Hi Hin). destruct lo; simpl in *; [lia|done].
Qed.
Lemma incr_NoDup lo ks : incr lo ks -> NoDup ks.
Proof.
  revert lo. induction ks as [|k ks IH]; intros lo; [constructor|]. intros [_ Hi].
  constructor; [|by eapply IH]. rewrite list_elem_of_In. intros Hin.
  pose proof (incr_above _ _ _ Hi Hin). simpl in *. lia.
Qed.
Lemma sort_by_key_sorted lo l : incr lo (map fst l) -> sort_by_key l = l.
Proof.
  revert lo. induction l as [|[k v] l IH]; intros lo; [done|]. intros [_ Hi]. simpl.
  rewrite (IH _ Hi). destruct l as [|[k' v'] l]; [done|]. simpl in *.
  destruct Hi as [Hk _]. destruct (Z.leb_spec k k'); [done|lia].
Qed.

Lemma adjacent_dup_incr lo l : incr lo (map fst l) -> adjacent_dup l = false.
Proof.
  revert lo. induction l as [|[k v] l IH]; intros lo; [done|]. intros [_ Hi].
  simpl. destruct l as [|[k' v'] l]; [done|]. rewrite (IH _ Hi), orb_false_r.
  destruct Hi as [Hk _]. simpl in Hk. apply Z.eqb_neq. lia.
Qed.

(** A list sorted with no equal neighbours has distinct keys. *)
Lemma insert_by_key_le k (v : V) l lo :
  lo <= k -> Forall (fun e => lo <= fst e) l ->
  Forall (fun e => lo <= fst e) (insert_by_key k v l).
Proof. intros. rewrite insert_by_key_perm. by constructor. Qed.

Fixpoint weakly (l : list (Z * V)) : Prop :=
  match l with [] => True | (k, _) :: t => Forall (fun e => k <= fst e) t /\ weakly t end.
Lemma insert_by_key_weakly k (v : V) l : weakly l -> weakly (insert_by_key k v l).
Proof.
  induction l as [|[k' v'] l IH]; simpl; [done|]. intros [Hk Hw].
  destruct (Z.leb_spec k k'); simpl.
  - split; [|done]. constructor; [done|]. eapply Forall_impl; [exact Hk|]. simpl. lia.
  - split; [|by apply IH]. apply insert_by_key_le; [lia|done].
Qed.
Lemma sort_by_key_weakly l : weakly (sort_by_key l).
Proof. induction l as [|[k v] l IH]; simpl; [done|]. by apply insert_by_key_weakly. Qed.
Lemma weakly_no_adjacent l lo : weakly l -> adjacent_dup l = false ->
  Forall (fun e => below lo (fst e)) l -> incr lo (map fst l).
Proof.
  revert lo. induction l as [|[k v] l IH]; intros lo; [done|].
  intros [Hk Hw] Hd Hlo. apply Forall_cons in Hlo as [Hlo _].
  split; [done|]. apply IH; [done| |].
  - destruct l as [|[k' v'] l]; [done|]. simpl in Hd.
    by apply orb_false_iff in Hd as [_ ?].
  - destruct l as [|[k' v'] l]; [constructor|]. simpl in Hd.
    apply orb_false_iff in Hd as [Hne _]. apply Z.eqb_neq in Hne.
    apply Forall_cons in Hk as [Hk _]. simpl in Hk.
    destruct Hw as [Hk' _]. constructor; [simpl; lia|].
    eapply Forall_impl; [exact Hk'|]. simpl. lia.
Qed.
Lemma adjacent_dup_spec l : adjacent_dup (sort_by_key l) = false <-> NoDup (map fst l).
Proof.
  split; intros H.
  - rewrite <- (sort_by_key_perm l). eapply incr_NoDup, (weakly_no_adjacent _ None);
      [apply sort_by_key_weakly|done|]. by apply Forall_true.
  - eapply adjacent_dup_incr, sort_by_key_incr, H.
Qed.
End SortByKey.

(** ** The encoder *)

Lemma write_entries_ok cs :
  write_entries (map (fun e => (fst e, Ok (enc (snd e)))) cs) = Ok (concat (map enc_entry cs)).
Proof.
  induction cs as [|[k v] cs IH]; simpl; [done|]. rewrite IH. unfold enc_entry at 2.
  simpl. by rewrite app_assoc.
Qed.
Lemma write_items_ok vs : write_items (map (fun v => Ok (enc v)) vs) = Ok (concat (map enc vs)).
Proof. induction vs as [|v vs IH]; simpl; [done|]. by rewrite IH. Qed.

Lemma encode_sorted_map_ok cs : canonical_map cs ->
  encode_sorted_map (map (fun e => (fst e, Ok (enc (snd e)))) cs) = Ok (enc_map cs).
Proof.
  intros Hc. pose proof Hc as (_ & Hi & _). unfold encode_sorted_map.
  rewrite (adjacent_dup_incr None) by by rewrite map_map.
  rewrite write_entries_ok, length_map. unfold write_map_header.
  change (_ ++ concat (map enc_entry cs)) with (enc_map cs).
  by rewrite (proj2 (validate_spec _)) by eauto.
Qed.

Lemma canonical_Map es : canonical (Map es) <-> canonical_map es.
Proof. unfold canonical_map. simpl. by rewrite foldr_and_Forall. Qed.

Lemma canon_entries_canonical es :
  in_u64 (Z.of_nat (length es)) -> NoDup (map fst es) ->
  Forall (fun e => in_u64 (fst e) /\ canonical (canon (snd e))) es ->
  canonical_map (canon_entries es).
Proof.
  intros Hl Hd He. unfold canonical_map, canon_entries.
  rewrite (sort_by_key_perm (map _ es)) at 1. rewrite length_map. split; [done|]. split.
  - apply sort_by_key_incr. by rewrite map_map.
  - rewrite sort_by_key_perm. apply Forall_map. eapply Forall_impl; [exact He|].
    by intros e [? ?].
Qed.

Lemma write_value_canon v : encodable v ->
  write_value v = Ok (enc (canon v)) /\ canonical (canon v).
Proof.
  induction v as [n|n|b|s|items IH|es IH|b|] using CborValue_ind_nested; intros He;
    try (by destruct b); try (by simpl in *).
  - destruct He as [Hl He]. apply foldr_and_Forall in He.
    assert (Hall : Forall (fun v => write_value v = Ok (enc (canon v)) /\ canonical (canon v)) items).
    { rewrite Forall_forall in *. intros v Hin. auto. }
    cbn [write_value canon enc canonical]. rewrite length_map. split.
    + replace (map write_value items) with (map (fun v => @Ok CborEnvelopeError _ (enc v)) (map canon items)).
      { by rewrite write_items_ok. }
      rewrite map_map. apply map_ext_Forall. eapply Forall_impl; [exact Hall|].
      by intros v [-> _].
    + split; [done|]. apply foldr_and_Forall, Forall_map.
      eapply Forall_impl; [exact Hall|]. by intros v [_ ?].
  - destruct He as (Hl & Hd & He). apply foldr_and_Forall in He.
    assert (Hall : Forall (fun e => write_value (snd e) = Ok (enc (canon (snd e))) /\
                                    canonical (canon (snd e))) es).
    { rewrite Forall_forall in IH, He |- *. intros e Hin. apply IH; [done|].
      by apply He. }
    assert (Hc : canonical_map (canon_entries es)).
    { apply canon_entries_canonical; [done|done|].
      rewrite Forall_forall in He, Hall |- *. intros e Hin.
      split; [by apply He|by apply Hall]. }
    split; [|by apply canonical_Map].
    change (enc (canon (Map es))) with (enc_map (canon_entries es)).
    rewrite <- encode_sorted_map_ok by done. cbn [write_value]. f_equal. unfold canon_entries.
    rewrite <- (sort_by_key_map (fun v => Ok (enc v))). f_equal. rewrite map_map.
    apply map_ext_Forall. eapply Forall_impl; [exact Hall|]. intros e [-> _]. done.
Qed.

(** The nested encoder is the entry point applied to the nested map. *)
Lemma encode_map_sorts_first es :
  write_value (Map es) = encode_deterministic_uint_map es.
Proof.
  unfold encode_deterministic_uint_map. cbn [write_value].
  by rewrite (sort_by_key_map write_value).
Qed.

Lemma canonical_canon v : canonical v -> encodable v /\ canon v = v.
Proof.
  induction v as [n|n|b|s|items IH|es IH|b|] using CborValue_ind_nested; intros Hc;
    try (by destruct b); try (by simpl in *).
  - destruct Hc as [Hl Hc]. apply foldr_and_Forall in Hc.
    assert (Hall : Forall (fun v => encodable v /\ canon v = v) items).
    { rewrite Forall_forall in *. intros v Hin. auto. }
    simpl. split.
    + split; [done|]. apply foldr_and_Forall. eapply Forall_impl; [exact Hall|]. naive_solver.
    + f_equal. rewrite <- (map_id items) at 2. apply map_ext_Forall.
      eapply Forall_impl; [exact Hall|]. naive_solver.
  - destruct Hc as (Hl & Hi & Hc). apply foldr_and_Forall in Hc.
    assert (Hall : Forall (fun e => encodable (snd e) /\ canon (snd e) = snd e) es).
    { rewrite Forall_forall in IH, Hc |- *. intros e Hin. apply IH; [done|].
      by apply Hc. }
    assert (Hmap : map (fun e => (fst e, canon (snd e))) es = es).
    { rewrite <- (map_id es) at 2. apply map_ext_Forall.
      eapply Forall_impl; [exact Hall|]. intros [k v] [_ Hv]. simpl in *. by rewrite Hv. }
    simpl. split.
    + split; [done|]. split; [by eapply incr_NoDup|].
      apply (foldr_and_Forall (fun e => in_u64 (fst e) /\ encodable (snd e))).
      rewrite Forall_forall in Hc, Hall |- *. intros e Hin.
      split; [by apply Hc|by apply Hall].
    + f_equal. rewrite Hmap. by eapply sort_by_key_sorted.
Qed.

Lemma canonical_map_encode es : canonical_map es ->
  encode_deterministic_uint_map es = Ok (enc_map es).
Proof.
  intros Hc. apply canonical_Map in Hc. rewrite <- encode_map_sorts_first.
  destruct (canonical_canon _ Hc) as [He Hid].
  destruct (write_value_canon _ He) as [Hw _]. rewrite Hw, Hid. done.
Qed.

(** Whatever decodes is a canonical map, and is its encoding. *)
Lemma decode_canonical bs es : decode_deterministic_uint_map bs = Ok es ->
  canonical_map es /\ bs = enc_map es /\ encode_deterministic_uint_map es = Ok bs.
Proof.
  intros Hd. destruct (validate_deterministic_cbor_envelope bs) as [[]|e] eqn:Hv.
  - apply validate_spec in Hv as (es' & Hc & ->). rewrite decode_enc in Hd by done.
    injection Hd as ->. split_and!; [done|done|by apply canonical_map_encode].
  - unfold decode_deterministic_uint_map in Hd. by rewrite Hv in Hd.
Qed.
(** A canonical map encodes and decodes to itself. *)
Lemma canonical_roundtrip es : canonical_map es ->
  exists bs, encode_deterministic_uint_map es = Ok bs /\ decode_deterministic_uint_map bs = Ok es.
Proof. intros Hc. exists (enc_map es). split; [by apply canonical_map_encode|by apply decode_enc]. Qed.

(** ** Fuel *)

Section Fuel.
Context {E A : Type}.
Lemma iter_n_ext_len {S} (sz : S -> nat) N n (b1 b2 : S -> result E S) s :
  (forall s, (sz s <= N)%nat -> b1 s = b2 s) ->
  (forall s s', b1 s = Ok s' -> (sz s' <= sz s)%nat) -> (sz s <= N)%nat ->
  iter_n n b1 s = iter_n n b2 s.
Proof.
  intros Heq Hdec. revert s. induction n as [|n IH]; simpl; intros s Hs; [done|].
  rewrite <- Heq by done. destruct (b1 s) as [s'|] eqn:Hb; [|done].
  apply IH. specialize (Hdec _ _ Hb). lia.
Qed.
Lemma collect_n_ext_len N n (b1 b2 : list byte -> result E (A * list byte)) r :
  (forall r, (length r <= N)%nat -> b1 r = b2 r) ->
  (forall r a r', b1 r = Ok (a, r') -> (length r' <= length r)%nat) -> (length r <= N)%nat ->
  collect_n n b1 r = collect_n n b2 r.
Proof.
  intros Heq Hdec. revert r. induction n as [|n IH]; simpl; intros r Hr; [done|].
  rewrite <- Heq by done. destruct (b1 r) as [[a r']|] eqn:Hb; [|done].
  rewrite IH; [done|]. specialize (Hdec _ _ _ Hb). lia.
Qed.
Lemma collect_n_len n (b : list byte -> result E (A * list byte)) r l r' :
  (forall r a r', b r = Ok (a, r') -> (length r' <= length r)%nat) ->
  collect_n n b r = Ok (l, r') -> (length r' <= length r)%nat.
Proof.
  intros Hdec. revert r l. induction n as [|n IH]; simpl; intros r l.
  { by intros [= <- <-]. }
  destruct (b r) as [[a r1]|] eqn:Hb; [|done].
  destruct (collect_n n b r1) as [[l' r2]|] eqn:Hc; [|done]. intros [= <- <-].
  apply Hdec in Hb. apply IH in Hc. lia.
Qed.
End Fuel.

Lemma read_head_len r x r' : read_head r = Ok (x, r') -> (length r' < length r)%nat.
Proof.
  destruct x as [m a]. intros (_ & _ & ->)%read_head_inv. rewrite length_app.
  pose proof (write_type_arg_length m a). lia.
Qed.
Lemma read_uint_len r k r' : read_uint r = Ok (k, r') -> (length r' < length r)%nat.
Proof.
  intros [_ ->]%read_uint_inv. rewrite length_app.
  pose proof (write_type_arg_length 0 k). unfold write_uint. lia.
Qed.
Lemma skip_len f r r' : skip_value f r = Ok r' -> (length r' < length r)%nat.
Proof.
  intros (v & _ & ->)%skip_inv. rewrite length_app. pose proof (enc_length v). lia.
Qed.
Lemma read_array_len_len r n r' : read_array_len r = Ok (n, r') -> (length r' < length r)%nat.
Proof.
  intros [_ ->]%read_array_len_inv. rewrite length_app.
  pose proof (write_type_arg_length 4 (Z.of_nat n)). lia.
Qed.
Lemma read_map_len_len r n r' : read_map_len r = Ok (n, r') -> (length r' < length r)%nat.
Proof.
  intros [_ ->]%read_map_len_inv. rewrite length_app.
  pose proof (write_type_arg_length 5 (Z.of_nat n)). lia.
Qed.

Lemma map_entry_len f s s' : map_entry (skip_value f) s = Ok s' ->
  (length (snd s') <= length (snd s))%nat.
Proof.
  destruct s as [[p sn] r], s' as [[p' sn'] r']. unfold map_entry.
  destruct (read_uint r) as [[k r1]|] eqn:Hk; [|done]. apply read_uint_len in Hk.
  repeat case_match; try done; intros [= <- <- <-];
    match goal with H : skip_value _ _ = _ |- _ => apply skip_len in H end; simpl; lia.
Qed.

Lemma skip_value_fuel f1 f2 r :
  (length r < f1)%nat -> (length r < f2)%nat -> skip_value f1 r = skip_value f2 r.
Proof.
  revert f2 r. induction f1 as [|f1 IH]; intros f2 r H1 H2; [lia|].
  destruct f2 as [|f2]; [lia|]. cbn [skip_value].
  destruct (peek r) as [h|] eqn:Hp; [|done]. apply peek_inv in Hp as (b & t & -> & ->).
  destruct (major_cases b) as [E|[E|[E|[E|[E|[E|[E|E]]]]]]]; rewrite E; try done.
  - destruct (read_array_len (b :: t)) as [[n r1]|] eqn:Hn; [|done].
    apply read_array_len_len in Hn.
    apply (iter_n_ext_len length (length r1)); [|intros s s' ?%skip_len; lia|done].
    intros s Hs. apply IH; lia.
  - destruct (read_map_len (b :: t)) as [[n r1]|] eqn:Hn; [|done].
    apply read_map_len_len in Hn. unfold map_body.
    rewrite (iter_n_ext_len (fun s => length (snd s)) (length r1) n
      (map_entry (skip_value f1)) (map_entry (skip_value f2))); try done.
    2: { intros s s' ?%map_entry_len. lia. }
    intros [[p sn] r2] Hr2. simpl in Hr2. unfold map_entry.
    destruct (read_uint r2) as [[k r3]|] eqn:Hk; [|done]. apply read_uint_len in Hk.
    rewrite (IH f2 r3) by lia. done.
Qed.

Lemma read_simple_len r v r' : read_simple_value r = Ok (v, r') -> (length r' < length r)%nat.
Proof.
  destruct r as [|b t]; [done|]. unfold read_simple_value. cbn.
  repeat case_match; try done; intros [= <- <-]; lia.
Qed.

Lemma read_bstr_len r b r' : read_bstr r = Ok (b, r') -> (length r' < length r)%nat.
Proof. intros [_ ->]%read_bstr_inv. rewrite length_app. pose proof (enc_length (Bytes b)). lia. Qed.
Lemma read_tstr_len r b r' : read_tstr r = Ok (b, r') -> (length r' < length r)%nat.
Proof. intros [_ ->]%read_tstr_inv. rewrite length_app. pose proof (enc_length (Text b)). lia. Qed.

Lemma read_entry_len f r e r' :
  (forall r v r', read_value f r = Ok (v, r') -> (length r' < length r)%nat) ->
  (let? '(k, ra) := read_uint r in
   let? '(v, rb) := read_value f ra in Ok ((k, v), rb)) = Ok (e, r') ->
  (length r' <= length r)%nat.
Proof.
  intros Hv. destruct (read_uint r) as [[k ra]|] eqn:Hk; [|done].
  destruct (read_value f ra) as [[v rb]|] eqn:Hr; [|done]. intros [= <- <-].
  apply read_uint_len in Hk. apply Hv in Hr. lia.
Qed.

Lemma read_value_len f r v r' : read_value f r = Ok (v, r') -> (length r' < length r)%nat.
Proof.
  revert r v r'. induction f as [|f IH]; intros r v r'; [done|]. cbn [read_value].
  destruct (peek r) as [h|] eqn:Hp; [|done]. apply peek_inv in Hp as (b & t & -> & ->).
  destruct (major_cases b) as [E|[E|[E|[E|[E|[E|[E|E]]]]]]]; rewrite E; try done;
    intros H.
  - unfold read_uint_any in H. destruct (read_head _) as [[[m a] r1]|] eqn:Hh; [|done].
    apply read_head_len in Hh. by destruct (negb _); simplify_eq.
  - destruct (read_head _) as [[[m a] r1]|] eqn:Hh; [|done].
    apply read_head_len in Hh. by simplify_eq.
  - destruct (read_bstr _) as [[d r1]|] eqn:Hh; [|done].
    apply read_bstr_len in Hh. by simplify_eq.
  - destruct (read_tstr _) as [[d r1]|] eqn:Hh; [|done].
    apply read_tstr_len in Hh. by simplify_eq.
  - destruct (read_array_len _) as [[n r1]|] eqn:Hn; [|done]. apply read_array_len_len in Hn.
    destruct (collect_n _ _ _) as [[l r2]|] eqn:Hc; [|done]. simplify_eq.
    apply collect_n_len in Hc; [lia|]. intros ? ? ? ?%IH. lia.
  - destruct (read_map_len _) as [[n r1]|] eqn:Hn; [|done]. apply read_map_len_len in Hn.
    destruct (collect_n _ _ _) as [[l r2]|] eqn:Hc; [|done]. simplify_eq.
    apply collect_n_len in Hc; [lia|]. intros ? ? ?. by apply read_entry_len.
  - by apply read_simple_len in H.
Qed.

Lemma read_value_fuel f1 f2 r :
  (length r < f1)%nat -> (length r < f2)%nat -> read_value f1 r = read_value f2 r.
Proof.
  revert f2 r. induction f1 as [|f1 IH]; intros f2 r H1 H2; [lia|].
  destruct f2 as [|f2]; [lia|]. cbn [read_value].
  destruct (peek r) as [h|] eqn:Hp; [|done]. apply peek_inv in Hp as (b & t & -> & ->).
  destruct (major_cases b) as [E|[E|[E|[E|[E|[E|[E|E]]]]]]]; rewrite E; try done.
  - destruct (read_array_len (b :: t)) as [[n r1]|] eqn:Hn; [|done].
    apply read_array_len_len in Hn.
    rewrite (collect_n_ext_len (length r1) n (read_value f1) (read_value f2)); [done| | |done].
    + intros s Hs. apply IH; lia.
    + intros ? ? ? ?%read_value_len. lia.
  - destruct (read_map_len (b :: t)) as [[n r1]|] eqn:Hn; [|done].
    apply read_map_len_len in Hn.
    assert (Hx : collect_n n (read_entry f1) r1 = collect_n n (read_entry f2) r1).
    { apply (collect_n_ext_len (length r1)); [| |done].
      - intros s Hs. unfold read_entry. destruct (read_uint s) as [[k ra]|] eqn:Hk; [|done].
        apply read_uint_len in Hk. by rewrite (IH f2 ra) by lia.
      - intros ? ? ?. apply read_entry_len. apply read_value_len. }
    unfold read_entry in Hx. by rewrite Hx.
Qed.

(** ** Claims *)

(** C1. Round trip of the envelope codec: entries whose integers and lengths
    fit their widths, whose text is UTF-8 and whose map keys are distinct (at
    every nesting level) encode successfully -- the encoder's self-check never
    fails on them -- and decoding returns exactly those entries in canonical
    order: the top-level entries sorted by key, every nested map sorted too. *)
Theorem cbor_roundtrip es : encodable_map es ->
  exists bs, encode_deterministic_uint_map es = Ok bs /\
    validate_deterministic_cbor_envelope bs = Ok tt /\
    decode_deterministic_uint_map bs = Ok (canon_entries es) /\
    canon_entries es ≡ₚ map (fun e => (fst e, canon (snd e))) es.
Proof.
  intros He. destruct (write_value_canon _ He) as [Hw Hc].
  rewrite encode_map_sorts_first in Hw. apply canonical_Map in Hc.
  exists (enc_map (canon_entries es)). split; [done|]. split.
  { apply validate_spec. eauto. }
  split; [by apply decode_enc|apply sort_by_key_perm].
Qed.

(** C2. The wire form is canonical: an envelope the validator accepts decodes,
    and re-encoding what it decodes to gives back the very same bytes; and any
    encodable entries that encode to these bytes are, up to the canonical
    order, the decoded ones.  So no two distinct byte strings carry the same
    envelope and no envelope has two byte strings. *)
Theorem cbor_canonical bs : validate_deterministic_cbor_envelope bs = Ok tt ->
  exists es, decode_deterministic_uint_map bs = Ok es /\
    encode_deterministic_uint_map es = Ok bs /\
    forall es', encodable_map es' -> encode_deterministic_uint_map es' = Ok bs ->
      canon_entries es' = es.
Proof.
  intros (es & Hc & ->)%validate_spec. exists es.
  split; [by apply decode_enc|]. split; [by apply canonical_map_encode|].
  intros es' He'. destruct (write_value_canon _ He') as [Hw Hc'].
  rewrite encode_map_sorts_first in Hw. rewrite Hw. intros [= Heq].
  assert (canonical_map (canon_entries es')) as Hc2%decode_enc by by apply canonical_Map.
  apply decode_enc in Hc.
  assert (enc_map (canon_entries es') = enc_map es) as Henc by exact Heq.
  rewrite Henc, Hc in Hc2. by injection Hc2.
Qed.

(** Termination of the recursive descent: the fuel the entry points use
    (one more than the buffer length) is enough; any larger fuel gives the
    same result of [skip_value] and of [read_value], on every input. *)
Theorem cbor_fuel_enough bs f : (length bs < f)%nat ->
  skip_value f bs = skip_value (fuel_for bs) bs /\
  read_value f bs = read_value (fuel_for bs) bs.
Proof.
  intros Hf. unfold fuel_for.
  split; [apply skip_value_fuel|apply read_value_fuel]; lia.
Qed.

(** The encoder's duplicate check is exact: it reports [DuplicateKey] for
    every entry list with a repeated top-level key, wherever the repetition
    is, and entries that encode have distinct keys. *)
Theorem cbor_duplicate_keys es :
  (~ NoDup (map fst es) -> encode_deterministic_uint_map es = Err DuplicateKey) /\
  (forall bs, encode_deterministic_uint_map es = Ok bs -> NoDup (map fst es)).
Proof.
  unfold encode_deterministic_uint_map, encode_sorted_map.
  assert (Hd : adjacent_dup (map (fun e => (fst e, write_value (snd e))) (sort_by_key es)) =
               adjacent_dup (sort_by_key es)).
  { generalize (sort_by_key es). intros l. induction l as [|[k v] l IH]; [done|].
    destruct l as [|[k' v'] l]; [done|]. cbn in *. by rewrite IH. }
  rewrite Hd. split.
  - intros Hn. destruct (adjacent_dup (sort_by_key es)) eqn:Ha; [done|].
    by apply adjacent_dup_spec in Ha.
  - intros bs. destruct (adjacent_dup (sort_by_key es)) eqn:Ha; [done|].
    intros _. by apply adjacent_dup_spec in Ha.
Qed.

Definition sample_entries : list (Z * CborValue) :=
  [(3, Bytes [z2b 1; z2b 2]); (1, Uint 9); (2, Map [(7, Null); (5, Array [Bool true; Nint 500])])].

Lemma sample_encodable : encodable_map sample_entries.
Proof.
  unfold encodable_map, sample_entries, in_u64, U64_MAX. cbn.
  split_and?; first [done | by apply (bool_decide_unpack (NoDup _))].
Qed.

Lemma cbor_roundtrip_witness : encodable_map sample_entries /\
  exists bs, encode_deterministic_uint_map sample_entries = Ok bs /\
    validate_deterministic_cbor_envelope bs = Ok tt /\
    decode_deterministic_uint_map bs = Ok (canon_entries sample_entries) /\
    canon_entries sample_entries ≡ₚ map (fun e => (fst e, canon (snd e))) sample_entries.
Proof.
  split; [exact sample_encodable|]. exact (cbor_roundtrip sample_entries sample_encodable).
Defined.

Lemma cbor_canonical_witness :
  validate_deterministic_cbor_envelope (map z2b [0xa1; 0x18; 0x20; 0x61; 0x41]) = Ok tt /\
  exists es, decode_deterministic_uint_map (map z2b [0xa1; 0x18; 0x20; 0x61; 0x41]) = Ok es.
Proof.
  split; [reflexivity|].
  destruct (cbor_canonical (map z2b [0xa1; 0x18; 0x20; 0x61; 0x41]) eq_refl) as (es & H & _).
  exists es. exact H.
Defined.

Lemma cbor_fuel_enough_witness :
  skip_value 40 (map z2b [0x81; 0x81; 0x01]) = skip_value 4 (map z2b [0x81; 0x81; 0x01]).
Proof.
  exact (proj1 (cbor_fuel_enough (map z2b [0x81; 0x81; 0x01]) 40 ltac:(simpl; lia))).
Defined.

Lemma cbor_duplicate_keys_witness :
  encode_deterministic_uint_map [(4, Null); (2, Uint 1); (4, Uint 2)] = Err DuplicateKey.
Proof.
  apply (cbor_duplicate_keys [(4, Null); (2, Uint 1); (4, Uint 2)]).
  cbn. intros Hd%NoDup_cons. destruct Hd as [Hd _]. apply Hd. rewrite list_elem_of_In.
  simpl. tauto.
Defined.
