(* ===== verification/Frame.v ===== *)
(** * Frames: limits, kinds, integrity fields, encode and verify

    Model of [crates/residiuum-format/src/{limits,kinds,integrity,frame}.rs].

    CRC32C and BLAKE3 are crates outside the repository: they are the operations
    of the class [IntegrityPrims], and [IntegrityLaws] states what the frame code
    relies on (the width of a CRC, the length of a digest, and that the
    incremental hasher computes the digest of the concatenated chunks).

    A fixed array [[u8; N]] is a [list byte]; [splice] is
    [a[off..off + d.len()].copy_from_slice(d)].  The thread-local diagnostic
    switch that skips the body hash is the argument [skip_hash]. *)
From S2P Require Import Prelude Cbor.

(** ** limits.rs *)

Record SafetyLimits := {
  max_envelope_len : Z;
  max_body_len : Z;
  max_frame_len : Z }.

Definition draft_defaults : SafetyLimits := {|
  max_envelope_len := 64 * 1024;
  max_body_len := 16 * 1024 * 1024;
  max_frame_len := 17 * 1024 * 1024 |}.

Definition checked_frame_len (envelope_len body_len : Z) : option Z :=
  match checked_add 64 56 with
  | None => None
  | Some fixed =>
      match checked_add fixed envelope_len with
      | None => None
      | Some a => checked_add a body_len
      end
  end.

Definition accepts_lengths (l : SafetyLimits) (envelope_len body_len : Z) : bool :=
  if (max_envelope_len l <? envelope_len) || (max_body_len l <? body_len) then false
  else match checked_frame_len envelope_len body_len with
       | Some frame_len => frame_len <=? max_frame_len l
       | None => false
       end.

(** ** kinds.rs *)

Inductive FrameKind : Type :=
| Invalid | StoreDescriptor | SegmentDescriptor | ItemEvent | PayloadChunk
| BatchPrepare | BatchCommit | SegmentSummary | PurgeAttestation | Padding
| HeapDescriptor | CollectionDescriptor | StreamDescriptor | HeapMigrationEvidence.

#[global] Instance FrameKind_eq_dec : EqDecision FrameKind.
Proof. solve_decision. Defined.

Definition kind_as_u8 (k : FrameKind) : byte :=
  z2b match k with
  | Invalid => 0 | StoreDescriptor => 1 | SegmentDescriptor => 2 | ItemEvent => 3
  | PayloadChunk => 4 | BatchPrepare => 5 | BatchCommit => 6 | SegmentSummary => 7
  | PurgeAttestation => 8 | Padding => 9 | HeapDescriptor => 10
  | CollectionDescriptor => 11 | StreamDescriptor => 12 | HeapMigrationEvidence => 13
  end.

Definition kind_from_u8 (b : byte) : result byte FrameKind :=
  match b2z b with
  | 0 => Ok Invalid | 1 => Ok StoreDescriptor | 2 => Ok SegmentDescriptor
  | 3 => Ok ItemEvent | 4 => Ok PayloadChunk | 5 => Ok BatchPrepare
  | 6 => Ok BatchCommit | 7 => Ok SegmentSummary | 8 => Ok PurgeAttestation
  | 9 => Ok Padding | 10 => Ok HeapDescriptor | 11 => Ok CollectionDescriptor
  | 12 => Ok StreamDescriptor | 13 => Ok HeapMigrationEvidence
  | _ => Err b
  end.

(** [FrameFlags]: the flag byte and its named bits. *)
Definition COMPRESSED : Z := Z.shiftl 1 0.
Definition ENCRYPTED : Z := Z.shiftl 1 1.
Definition CHUNKED : Z := Z.shiftl 1 2.
Definition CANONICAL : Z := Z.shiftl 1 3.
Definition REPAIR : Z := Z.shiftl 1 4.
Definition RESERVED_MASK : Z := 0xE0.
Definition flag_set (mask : Z) (f : byte) : bool := negb (Z.land (b2z f) mask =? 0).
Definition has_reserved_bits (f : byte) : bool := flag_set RESERVED_MASK f.
Definition compressed (f : byte) : bool := flag_set COMPRESSED f.
Definition encrypted (f : byte) : bool := flag_set ENCRYPTED f.
Definition chunked (f : byte) : bool := flag_set CHUNKED f.

(** ** integrity.rs *)

Class IntegrityPrims : Type := {
  crc32c : list byte -> Z;
  crc32c_append : Z -> list byte -> Z;
  blake3_hash : list byte -> list byte;
  Hasher : Type;
  hasher_new : Hasher;
  hasher_update : Hasher -> list byte -> Hasher;
  hasher_finalize : Hasher -> list byte }.

Class IntegrityLaws (I : IntegrityPrims) : Prop := {
  crc32c_u32 bs : in_u32 (crc32c bs);
  crc32c_append_u32 c bs : in_u32 (crc32c_append c bs);
  blake3_hash_len bs : length (blake3_hash bs) = 32%nat;
  hasher_spec chunks :
    hasher_finalize (fold_left hasher_update chunks hasher_new) = blake3_hash (concat chunks) }.

(** [a[off..off + d.len()].copy_from_slice(d)]. *)
Definition splice (off : nat) (d a : list byte) : list byte :=
  take off a ++ d ++ drop (off + length d) a.

Definition zeros (n : nat) : list byte := replicate n Byte.x00.

Definition FRAME_PREFIX_LEN : nat := 64.
Definition FRAME_SUFFIX_LEN : nat := 56.
Definition START_MAGIC : list byte := map z2b [82; 69; 83; 73; 68; 70; 82; 77].
Definition END_MAGIC : list byte := map z2b [82; 69; 83; 73; 68; 69; 78; 68].
Definition WIRE_MAJOR : byte := z2b 1.
Definition WIRE_MINOR : byte := z2b 0.
Definition BODY_HASH_LEN : nat := 32.

Record FrameHeader := {
  wire_major : byte;
  wire_minor : byte;
  frame_kind : byte;
  flags : byte;
  envelope_len : Z;
  body_len : Z;
  logical_len : Z;
  writer_sequence : Z;
  event_id : list byte }.

Record FrameParts := {
  fp_header : FrameHeader;
  fp_envelope : list byte;
  fp_body : list byte }.

Record DecodedFrame := {
  df_header : FrameHeader;
  df_envelope : list byte;
  df_body : list byte;
  df_body_hash : list byte;
  df_frame_len : Z }.

(** The ranges of the header's machine integers. *)
Record wf_header (h : FrameHeader) : Prop := {
  wf_envelope_len : in_u32 (envelope_len h);
  wf_body_len : in_u64 (body_len h);
  wf_logical_len : in_u64 (logical_len h);
  wf_writer_sequence : in_u64 (writer_sequence h);
  wf_event_id : length (event_id h) = 16%nat }.

Inductive FrameVerifyError : Type :=
| Truncated (need have : Z)
| BadStartMagic
| UnsupportedWireMajor (v : byte)
| LengthsOutOfLimits
| BadPrefixCrc
| BadEndMagic
| BadSuffixCrc
| FrameLenMismatch (suffix computed : Z)
| BadBodyHash
| HeaderPayloadMismatch
| ReservedNonZero
| TrailingBytes (frame_len buffer_len : Z)
| BadEnvelopeCbor (e : CborEnvelopeError).

(** [FrameHeader::new_draft] and [known_kind]. *)
Definition new_draft (kind : FrameKind) (elen blen : Z) (eid : list byte) : FrameHeader := {|
  wire_major := WIRE_MAJOR; wire_minor := WIRE_MINOR; frame_kind := kind_as_u8 kind;
  flags := Byte.x00; envelope_len := elen; body_len := blen; logical_len := blen;
  writer_sequence := 0; event_id := eid |}.
Definition known_kind (h : FrameHeader) : option FrameKind :=
  match kind_from_u8 (frame_kind h) with Ok k => Some k | Err _ => None end.

(** ** frame.rs: writing and reading the fixed prefix *)

Definition write_prefix_fields (prefix : list byte) (h : FrameHeader) : list byte :=
  let prefix := splice 0 START_MAGIC prefix in
  let prefix := splice 8 [wire_major h] prefix in
  let prefix := splice 9 [wire_minor h] prefix in
  let prefix := splice 10 [frame_kind h] prefix in
  let prefix := splice 11 [flags h] prefix in
  let prefix := splice 12 (le_bytes 4 (envelope_len h)) prefix in
  let prefix := splice 16 (le_bytes 8 (body_len h)) prefix in
  let prefix := splice 24 (le_bytes 8 (logical_len h)) prefix in
  let prefix := splice 32 (le_bytes 8 (writer_sequence h)) prefix in
  splice 40 (event_id h) prefix.

Definition read_prefix_fields (prefix : list byte) : FrameHeader := {|
  wire_major := nth 8 prefix Byte.x00;
  wire_minor := nth 9 prefix Byte.x00;
  frame_kind := nth 10 prefix Byte.x00;
  flags := nth 11 prefix Byte.x00;
  envelope_len := le_val (slice 12 16 prefix);
  body_len := le_val (slice 16 24 prefix);
  logical_len := le_val (slice 24 32 prefix);
  writer_sequence := le_val (slice 32 40 prefix);
  event_id := slice 40 56 prefix |}.

Section Frames.
Context {I : IntegrityPrims}.

Definition prefix_crc32c (prefix64 envelope : list byte) : Z :=
  let buf := splice 56 (zeros 4) prefix64 in
  let crc := crc32c buf in
  crc32c_append crc envelope.

Definition suffix_crc32c (suffix56 : list byte) : Z :=
  crc32c (splice 48 (zeros 4) suffix56).

Definition body_hash (body : list byte) : list byte := blake3_hash body.

(** The chunked loop of [append_body_hashed]: 16 KiB at a time. *)
Definition CHUNK : nat := 16384.
Fixpoint hash_chunks (fuel : nat) (h : Hasher) (out body : list byte) : Hasher * list byte :=
  match fuel with
  | O => (h, out)
  | S f =>
      match body with
      | [] => (h, out)
      | _ =>
          let chunk := take CHUNK body in
          hash_chunks f (hasher_update h chunk) (out ++ chunk) (drop CHUNK body)
      end
  end.

(** Returns the extended buffer and the digest. *)
Definition append_body_hashed (skip_hash : bool) (out body : list byte)
  : list byte * list byte :=
  if skip_hash then (out ++ body, zeros BODY_HASH_LEN)
  else match body with
  | [] => (out, body_hash body)
  | _ =>
      let '(h, out') := hash_chunks (length body) hasher_new out body in
      (out', hasher_finalize h)
  end.

Definition encode_frame_into (skip_hash : bool) (out : list byte) (h : FrameHeader)
    (envelope body : list byte) : result FrameVerifyError (list byte) :=
  if negb (as_u32 (Z.of_nat (length envelope)) =? envelope_len h)
     || negb (Z.of_nat (length body) =? body_len h)
  then Err HeaderPayloadMismatch
  else if negb (bool_decide (wire_major h = WIRE_MAJOR))
  then Err (UnsupportedWireMajor (wire_major h))
  else match validate_deterministic_cbor_envelope envelope with
  | Err e => Err (BadEnvelopeCbor e)
  | Ok _ =>
      match checked_frame_len (envelope_len h) (body_len h) with
      | None => Err LengthsOutOfLimits
      | Some frame_len =>
          let prefix := write_prefix_fields (zeros FRAME_PREFIX_LEN) h in
          let pcrc := prefix_crc32c prefix envelope in
          let prefix := splice 56 (le_bytes 4 pcrc) prefix in
          let out := out ++ prefix in
          let out := out ++ envelope in
          let '(out, hash) := append_body_hashed skip_hash out body in
          let suffix := zeros FRAME_SUFFIX_LEN in
          let suffix := splice 0 END_MAGIC suffix in
          let suffix := splice 8 (le_bytes 8 frame_len) suffix in
          let suffix := splice 16 hash suffix in
          let scrc := suffix_crc32c suffix in
          let suffix := splice 48 (le_bytes 4 scrc) suffix in
          Ok (out ++ suffix)
      end
  end.

Definition encode_frame (skip_hash : bool) (p : FrameParts)
  : result FrameVerifyError (list byte) :=
  match checked_frame_len (envelope_len (fp_header p)) (body_len (fp_header p)) with
  | None => Err LengthsOutOfLimits
  | Some _ => encode_frame_into skip_hash [] (fp_header p) (fp_envelope p) (fp_body p)
  end.

(** ** frame.rs: structural verification *)

Definition VerifiedFrameViews : Type :=
  (FrameHeader * list byte * list byte * list byte * Z)%type.

Definition verify_frame_at (bytes : list byte) (limits : SafetyLimits)
  : result FrameVerifyError VerifiedFrameViews :=
  let have := Z.of_nat (length bytes) in
  if have <? Z.of_nat FRAME_PREFIX_LEN
  then Err (Truncated (Z.of_nat FRAME_PREFIX_LEN) have)
  else
  let prefix := take FRAME_PREFIX_LEN bytes in
  if negb (bytes_eqb (slice 0 8 prefix) START_MAGIC) then Err BadStartMagic
  else if negb (bool_decide (nth 8 prefix Byte.x00 = WIRE_MAJOR))
  then Err (UnsupportedWireMajor (nth 8 prefix Byte.x00))
  else
  let header := read_prefix_fields prefix in
  if negb (accepts_lengths limits (envelope_len header) (body_len header))
  then Err LengthsOutOfLimits
  else
  match checked_frame_len (envelope_len header) (body_len header) with
  | None => Err LengthsOutOfLimits
  | Some frame_len =>
  if have <? frame_len then Err (Truncated frame_len have)
  else
  let env_end := (FRAME_PREFIX_LEN + Z.to_nat (envelope_len header))%nat in
  let body_end := (env_end + Z.to_nat (body_len header))%nat in
  let envelope := slice FRAME_PREFIX_LEN env_end bytes in
  let body := slice env_end body_end bytes in
  let suffix := slice body_end (Z.to_nat frame_len) bytes in
  if negb (prefix_crc32c prefix envelope =? le_val (slice 56 60 prefix))
  then Err BadPrefixCrc
  else match validate_deterministic_cbor_envelope envelope with
  | Err e => Err (BadEnvelopeCbor e)
  | Ok _ =>
  if negb (bytes_eqb (slice 0 8 suffix) END_MAGIC) then Err BadEndMagic
  else if negb (suffix_crc32c suffix =? le_val (slice 48 52 suffix))
  then Err BadSuffixCrc
  else
  let suffix_frame_len := le_val (slice 8 16 suffix) in
  if negb (suffix_frame_len =? frame_len)
  then Err (FrameLenMismatch suffix_frame_len frame_len)
  else if negb (bytes_eqb (body_hash body) (slice 16 48 suffix))
  then Err BadBodyHash
  else Ok (header, envelope, body, body_hash body, frame_len)
  end
  end.

Definition decode_frame (bytes : list byte) (limits : SafetyLimits)
  : result FrameVerifyError DecodedFrame :=
  match verify_frame_at bytes limits with
  | Err e => Err e
  | Ok (header, envelope, body, hash, frame_len) =>
      if negb (Z.of_nat (length bytes) =? frame_len)
      then Err (TrailingBytes frame_len (Z.of_nat (length bytes)))
      else Ok {| df_header := header; df_envelope := envelope; df_body := body;
                 df_body_hash := hash; df_frame_len := frame_len |}
  end.

Definition verify_frame_bytes (bytes : list byte) (limits : SafetyLimits)
  : result FrameVerifyError VerifiedFrameViews :=
  match verify_frame_at bytes limits with
  | Err e => Err e
  | Ok (header, envelope, body, hash, frame_len) =>
      if negb (Z.of_nat (length bytes) =? frame_len)
      then Err (TrailingBytes frame_len (Z.of_nat (length bytes)))
      else Ok (header, envelope, body, hash, frame_len)
  end.

End Frames.

(** * A concrete integrity provider

    The witnesses evaluate the frame code, so they need executable integrity
    primitives.  [crc32c] here is the reflected Castagnoli CRC computed bit by
    bit; the digest is a 32-byte stand-in for BLAKE3 (CRC, length, zeros): the
    theorems hold for every provider that satisfies [IntegrityLaws], and this
    one shows that the laws can be met. *)

Definition crc_bit (c : Z) : Z :=
  if Z.odd c then Z.lxor (Z.shiftr c 1) 0x82F63B78 else Z.shiftr c 1.
Definition crc_byte (c : Z) (b : byte) : Z := Nat.iter 8 crc_bit (Z.lxor c (b2z b)).
Definition crc_update (c : Z) (bs : list byte) : Z := fold_left crc_byte bs c.

Definition sample_crc_append (crc : Z) (bs : list byte) : Z :=
  Z.lxor (crc_update (Z.lxor crc U32_MAX) bs) U32_MAX mod 2 ^ 32.
Definition sample_crc (bs : list byte) : Z := sample_crc_append 0 bs.

Definition sample_digest (bs : list byte) : list byte :=
  le_bytes 4 (sample_crc bs) ++ le_bytes 8 (Z.of_nat (length bs)) ++ zeros 20.

#[global] Instance SampleIntegrity : IntegrityPrims := {|
  crc32c := sample_crc;
  crc32c_append := sample_crc_append;
  blake3_hash := sample_digest;
  Hasher := list byte;
  hasher_new := [];
  hasher_update h bs := h ++ bs;
  hasher_finalize := sample_digest |}.

Lemma fold_app_concat (chunks : list (list byte)) acc :
  fold_left (fun h bs => h ++ bs) chunks acc = acc ++ concat chunks.
Proof.
  revert acc. induction chunks as [|c l IH]; intros acc; simpl.
  - by rewrite app_nil_r.
  - by rewrite IH, app_assoc.
Qed.

Lemma sample_crc_append_range c bs : in_u32 (sample_crc_append c bs).
Proof.
  unfold sample_crc_append, in_u32, U32_MAX.
  pose proof (Z.mod_pos_bound (Z.lxor (crc_update (Z.lxor c 4294967295) bs) 4294967295) (2 ^ 32)).
  lia.
Qed.

#[global] Instance SampleIntegrityLaws : IntegrityLaws SampleIntegrity.
Proof.
  split.
  - intros bs. apply sample_crc_append_range.
  - apply sample_crc_append_range.
  - intros bs. cbn [blake3_hash SampleIntegrity]. unfold sample_digest.
    by rewrite !length_app, !length_le_bytes.
  - intros chunks. cbn. by rewrite fold_app_concat.
Qed.

(** The check value of CRC-32C: ["123456789"]. *)
Example crc32c_check_value :
  sample_crc (map z2b [49; 50; 51; 52; 53; 54; 55; 56; 57]) = 0xE3069283.
Proof. vm_compute. reflexivity. Qed.

(** A small frame for the witnesses. *)
Definition sample_event_id : list byte := map z2b (seqZ 1 16).
Definition sample_body : list byte := map z2b [104; 101; 108; 108; 111].
Definition sample_header : FrameHeader :=
  new_draft ItemEvent 1 5 sample_event_id.
