(* ===== verification/FrameFacts.v ===== *)
(** * Correctness of frame encoding and verification

    Theorems about [Frame.v], for any integrity primitives that satisfy
    [IntegrityLaws]. [frame_image] is the byte layout of FORMAT_SPEC 4 written as
    one concatenation; the encoder produces it, the verifier accepts it in front
    of any further bytes, and whatever the verifier accepts is that layout up to
    the reserved fields. *)
From S2P Require Import Prelude Cbor CborFacts Frame.

(** ** The reference layout *)

Definition prefix_layout (h : FrameHeader) (crc : Z) (reserved : list byte) : list byte :=
  START_MAGIC ++ [wire_major h] ++ [wire_minor h] ++ [frame_kind h] ++ [flags h] ++
  le_bytes 4 (envelope_len h) ++ le_bytes 8 (body_len h) ++ le_bytes 8 (logical_len h) ++
  le_bytes 8 (writer_sequence h) ++ event_id h ++ le_bytes 4 crc ++ reserved.

Definition suffix_layout (frame_len : Z) (hash : list byte) (crc : Z) (reserved : list byte)
  : list byte :=
  END_MAGIC ++ le_bytes 8 frame_len ++ hash ++ le_bytes 4 crc ++ reserved.

Definition frame_size (envelope body : list byte) : Z :=
  120 + Z.of_nat (length envelope) + Z.of_nat (length body).

Section Image.
Context {I : IntegrityPrims}.

(** The image of a frame with the given reserved fields. *)
Definition frame_image_with (r1 r2 : list byte) (h : FrameHeader) (env body : list byte)
  : list byte :=
  let n := frame_size env body in
  prefix_layout h (prefix_crc32c (prefix_layout h 0 r1) env) r1 ++ env ++ body ++
  suffix_layout n (blake3_hash body) (suffix_crc32c (suffix_layout n (blake3_hash body) 0 r2)) r2.

Definition frame_image : FrameHeader -> list byte -> list byte -> list byte :=
  frame_image_with (zeros 4) (zeros 4).

(** What a caller must respect for a frame to be encoded. *)
Record encodable_frame (h : FrameHeader) (env body : list byte) : Prop := {
  ef_wf : wf_header h;
  ef_env_len : envelope_len h = Z.of_nat (length env);
  ef_body_len : body_len h = Z.of_nat (length body);
  ef_major : wire_major h = WIRE_MAJOR;
  ef_cbor : validate_deterministic_cbor_envelope env = Ok tt;
  ef_total : frame_size env body <= U64_MAX }.
End Image.

(** ** Lists, slices and fixed arrays *)

Lemma length_16 {A} (l : list A) : length l = 16%nat ->
  exists a b c d e f g h i j k m n o p q, l = [a;b;c;d;e;f;g;h;i;j;k;m;n;o;p;q].
Proof.
  intros H. do 16 (destruct l as [|? l]; [done|]). destruct l; [|done].
  repeat eexists.
Qed.
Lemma length_32 {A} (l : list A) : length l = 32%nat ->
  exists l1 l2, length l1 = 16%nat /\ length l2 = 16%nat /\ l = l1 ++ l2.
Proof.
  intros H. exists (take 16 l), (drop 16 l).
  rewrite length_take, length_drop, take_drop. repeat split; lia.
Qed.

Lemma slice_app_skip {A} (x r : list A) a b k :
  length x = k -> (k <= a)%nat -> slice a b (x ++ r) = slice (a - k) (b - k) r.
Proof.
  intros <- Hk. unfold slice. rewrite drop_app_ge by done. f_equal. lia.
Qed.
Lemma slice_app_here {A} (x r : list A) b : length x = b -> slice 0 b (x ++ r) = x.
Proof. intros <-. unfold slice. rewrite drop_0, Nat.sub_0_r. apply take_app_length. Qed.
Lemma slice_cat {A} (l : list A) a b c :
  (a <= b)%nat -> (b <= c)%nat -> slice a b l ++ slice b c l = slice a c l.
Proof.
  intros. unfold slice. replace (drop b l) with (drop (b - a) (drop a l)).
  2: { rewrite drop_drop. f_equal. lia. }
  rewrite <- (take_drop (b - a) (take (c - a) (drop a l))).
  rewrite take_take, Nat.min_l by lia. f_equal.
  rewrite skipn_firstn_comm. f_equal. lia.
Qed.
Lemma slice_all {A} (l : list A) n : length l = n -> slice 0 n l = l.
Proof. intros <-. unfold slice. by rewrite drop_0, Nat.sub_0_r, firstn_all. Qed.
Lemma length_slice {A} (l : list A) a b : (b <= length l)%nat -> length (slice a b l) = (b - a)%nat.
Proof. intros. unfold slice. rewrite length_take, length_drop. lia. Qed.
Lemma slice_nth {A} (l : list A) i d : (i < length l)%nat -> slice i (S i) l = [nth i l d].
Proof.
  intros Hi. unfold slice. replace (S i - i)%nat with 1%nat by lia.
  destruct (nth_split l d Hi) as (l1 & l2 & Hl & Hlen). rewrite Hl at 1.
  rewrite <- Hlen, drop_app_length. done.
Qed.
Lemma slice_take {A} (l : list A) a b n : (b <= n)%nat -> slice a b (take n l) = slice a b l.
Proof.
  intros. unfold slice. rewrite skipn_firstn_comm, take_take. f_equal. lia.
Qed.

Lemma splice_length off d a : (off + length d <= length a)%nat ->
  length (splice off d a) = length a.
Proof. intros. unfold splice. rewrite !length_app, length_take, length_drop. lia. Qed.

(** ** Prefix and suffix as written by the encoder *)

Lemma write_prefix_layout h : length (event_id h) = 16%nat ->
  write_prefix_fields (zeros FRAME_PREFIX_LEN) h = prefix_layout h 0 (zeros 4).
Proof.
  destruct h as [M m k fl el bl ll ws eid]. simpl. intros He.
  apply length_16 in He as (?&?&?&?&?&?&?&?&?&?&?&?&?&?&?&?&->). reflexivity.
Qed.

Lemma splice_prefix_crc h c0 c r : length (event_id h) = 16%nat ->
  splice 56 (le_bytes 4 c) (prefix_layout h c0 r) = prefix_layout h c r.
Proof.
  destruct h as [M m k fl el bl ll ws eid]. simpl. intros He.
  apply length_16 in He as (?&?&?&?&?&?&?&?&?&?&?&?&?&?&?&?&->). reflexivity.
Qed.

Lemma prefix_crc_layout {I : IntegrityPrims} h c r env : length (event_id h) = 16%nat ->
  prefix_crc32c (prefix_layout h c r) env = prefix_crc32c (prefix_layout h 0 r) env.
Proof.
  intros He. unfold prefix_crc32c. change (zeros 4) with (le_bytes 4 0).
  by rewrite !splice_prefix_crc.
Qed.

Lemma suffix_splices n hash : length hash = 32%nat ->
  splice 16 hash (splice 8 (le_bytes 8 n) (splice 0 END_MAGIC (zeros FRAME_SUFFIX_LEN))) =
  suffix_layout n hash 0 (zeros 4).
Proof.
  intros (h1 & h2 & H1 & H2 & ->)%length_32.
  apply length_16 in H1 as (?&?&?&?&?&?&?&?&?&?&?&?&?&?&?&?&->).
  apply length_16 in H2 as (?&?&?&?&?&?&?&?&?&?&?&?&?&?&?&?&->). reflexivity.
Qed.
Lemma splice_suffix_crc n hash c0 c r : length hash = 32%nat ->
  splice 48 (le_bytes 4 c) (suffix_layout n hash c0 r) = suffix_layout n hash c r.
Proof.
  intros (h1 & h2 & H1 & H2 & ->)%length_32.
  apply length_16 in H1 as (?&?&?&?&?&?&?&?&?&?&?&?&?&?&?&?&->).
  apply length_16 in H2 as (?&?&?&?&?&?&?&?&?&?&?&?&?&?&?&?&->). reflexivity.
Qed.
Lemma suffix_crc_layout {I : IntegrityPrims} n hash c r : length hash = 32%nat ->
  suffix_crc32c (suffix_layout n hash c r) = suffix_crc32c (suffix_layout n hash 0 r).
Proof.
  intros He. unfold suffix_crc32c. change (zeros 4) with (le_bytes 4 0).
  by rewrite !splice_suffix_crc.
Qed.

Lemma length_prefix_layout h c r : length (event_id h) = 16%nat -> length r = 4%nat ->
  length (prefix_layout h c r) = 64%nat.
Proof.
  intros He Hr. unfold prefix_layout, START_MAGIC.
  rewrite !length_app, !length_le_bytes, He, Hr. reflexivity.
Qed.
Lemma length_suffix_layout n hash c r : length hash = 32%nat -> length r = 4%nat ->
  length (suffix_layout n hash c r) = 56%nat.
Proof.
  intros He Hr. unfold suffix_layout, END_MAGIC.
  rewrite !length_app, !length_le_bytes, He, Hr. reflexivity.
Qed.

(** ** Reading the layout back *)

Lemma le4_val z : in_u32 z -> le_val (le_bytes 4 z) = z.
Proof. intros [? ?]. apply le_val_bytes_small. unfold U32_MAX in *. lia. Qed.
Lemma le8_val z : in_u64 z -> le_val (le_bytes 8 z) = z.
Proof. intros [? ?]. apply le_val_bytes_small. unfold U64_MAX in *. lia. Qed.

Lemma read_prefix_layout h c r : wf_header h ->
  read_prefix_fields (prefix_layout h c r) = h.
Proof.
  intros [H1 H2 H3 H4 He]. destruct h as [M m k fl el bl ll ws eid]. simpl in *.
  apply length_16 in He as (?&?&?&?&?&?&?&?&?&?&?&?&?&?&?&?&->).
  rewrite <- (le4_val el H1) at 2. rewrite <- (le8_val bl H2) at 2.
  rewrite <- (le8_val ll H3) at 2. rewrite <- (le8_val ws H4) at 2. reflexivity.
Qed.
Lemma prefix_layout_crc_field h c r : length (event_id h) = 16%nat ->
  slice 56 60 (prefix_layout h c r) = le_bytes 4 c.
Proof.
  destruct h as [M m k fl el bl ll ws eid]. simpl. intros He.
  apply length_16 in He as (?&?&?&?&?&?&?&?&?&?&?&?&?&?&?&?&->). reflexivity.
Qed.
Lemma suffix_layout_fields n hash c r : length hash = 32%nat ->
  slice 0 8 (suffix_layout n hash c r) = END_MAGIC /\
  slice 8 16 (suffix_layout n hash c r) = le_bytes 8 n /\
  slice 16 48 (suffix_layout n hash c r) = hash /\
  slice 48 52 (suffix_layout n hash c r) = le_bytes 4 c.
Proof.
  intros (h1 & h2 & H1 & H2 & ->)%length_32.
  apply length_16 in H1 as (?&?&?&?&?&?&?&?&?&?&?&?&?&?&?&?&->).
  apply length_16 in H2 as (?&?&?&?&?&?&?&?&?&?&?&?&?&?&?&?&->). done.
Qed.

(** ** The encoder produces the layout *)

Section Encode.
Context {I : IntegrityPrims} {L : IntegrityLaws I}.

Lemma hash_chunks_spec f h0 out body : (length body <= f)%nat ->
  exists chunks, concat chunks = body /\
    hash_chunks f h0 out body = (fold_left hasher_update chunks h0, out ++ body).
Proof.
  revert h0 out body. induction f as [|f IH]; intros h0 out body Hf.
  { destruct body; [|simpl in Hf; lia]. exists []. by rewrite app_nil_r. }
  destruct body as [|b body]; [exists []; by rewrite app_nil_r|].
  cbn [hash_chunks].
  destruct (IH (hasher_update h0 (take CHUNK (b :: body)))
               (out ++ take CHUNK (b :: body)) (drop CHUNK (b :: body))) as (cs & Hcs & ->).
  { rewrite length_drop. simpl in Hf |- *. unfold CHUNK. lia. }
  exists (take CHUNK (b :: body) :: cs). split.
  - cbn [concat]. by rewrite Hcs, take_drop.
  - by rewrite <- app_assoc, take_drop.
Qed.

(** The incremental loop computes the digest of the body and copies it. *)
Lemma append_body_hashed_spec out body :
  append_body_hashed false out body = (out ++ body, blake3_hash body).
Proof.
  unfold append_body_hashed. destruct body as [|b body]; [by rewrite app_nil_r|].
  destruct (hash_chunks_spec (length (b :: body)) hasher_new out (b :: body))
    as (cs & Hcs & ->); [done|].
  by rewrite hasher_spec, Hcs.
Qed.

Lemma checked_frame_len_size env body : frame_size env body <= U64_MAX ->
  checked_frame_len (Z.of_nat (length env)) (Z.of_nat (length body)) = Some (frame_size env body).
Proof.
  unfold frame_size, checked_frame_len, checked_add, U64_MAX. intros H.
  change (64 + 56 <=? 18446744073709551615) with true. cbn match.
  rewrite (proj2 (Z.leb_le (64 + 56 + Z.of_nat (length env)) _)) by lia.
  by rewrite (proj2 (Z.leb_le _ _)) by lia.
Qed.

Lemma encode_frame_into_image out h env body : encodable_frame h env body ->
  encode_frame_into false out h env body = Ok (out ++ frame_image h env body).
Proof.
  intros [Hwf He Hb HM Hc Ht]. pose proof (wf_event_id _ Hwf) as Hid.
  unfold encode_frame_into, as_u32.
  pose proof (wf_envelope_len _ Hwf) as [_ Hu]. unfold U32_MAX in Hu.
  rewrite Z.mod_small, <- He, <- Hb, !Z.eqb_refl by lia. cbn [negb orb].
  rewrite bool_decide_eq_true_2, Hc by done. cbn [negb].
  rewrite He, Hb, checked_frame_len_size by done.
  rewrite write_prefix_layout by done. rewrite append_body_hashed_spec.
  rewrite suffix_splices, splice_prefix_crc, splice_suffix_crc
    by (done || apply blake3_hash_len).
  unfold frame_image, frame_image_with. by rewrite !app_assoc.
Qed.
End Encode.

(** ** The verifier accepts exactly the layout *)

Lemma slice_le4 p a : (a + 4 <= length p)%nat ->
  le_bytes 4 (le_val (slice a (a + 4) p)) = slice a (a + 4) p /\
  in_u32 (le_val (slice a (a + 4) p)).
Proof.
  intros H. assert (length (slice a (a + 4) p) = 4%nat) as Hl by (rewrite length_slice; lia).
  split; [by apply le_bytes_val_len|]. pose proof (le_val_range (slice a (a + 4) p)) as Hr.
  rewrite Hl in Hr. unfold in_u32, U32_MAX. cbn in Hr. lia.
Qed.
Lemma slice_le8 p a : (a + 8 <= length p)%nat ->
  le_bytes 8 (le_val (slice a (a + 8) p)) = slice a (a + 8) p /\
  in_u64 (le_val (slice a (a + 8) p)).
Proof.
  intros H. assert (length (slice a (a + 8) p) = 8%nat) as Hl by (rewrite length_slice; lia).
  split; [by apply le_bytes_val_len|]. pose proof (le_val_range (slice a (a + 8) p)) as Hr.
  rewrite Hl in Hr. unfold in_u64, U64_MAX. cbn in Hr. lia.
Qed.

Lemma read_prefix_inv p : length p = 64%nat -> slice 0 8 p = START_MAGIC ->
  wf_header (read_prefix_fields p) /\
  p = prefix_layout (read_prefix_fields p) (le_val (slice 56 60 p)) (slice 60 64 p).
Proof.
  intros Hl Hm. pose proof (slice_le4 p 12 ltac:(lia)) as [E1 R1].
  pose proof (slice_le8 p 16 ltac:(lia)) as [E2 R2].
  pose proof (slice_le8 p 24 ltac:(lia)) as [E3 R3].
  pose proof (slice_le8 p 32 ltac:(lia)) as [E4 R4].
  pose proof (slice_le4 p 56 ltac:(lia)) as [E5 _]. simpl in *.
  split; [constructor; simpl; try done; rewrite length_slice; lia|].
  unfold prefix_layout, read_prefix_fields. cbn [wire_major wire_minor frame_kind flags
    envelope_len body_len logical_len writer_sequence event_id].
  rewrite <- Hm, E1, E2, E3, E4, E5.
  rewrite <- !(slice_nth p) by lia.
  rewrite (slice_cat p 56 60 64) by lia. rewrite (slice_cat p 40) by lia.
  rewrite (slice_cat p 32) by lia. rewrite (slice_cat p 24) by lia.
  rewrite (slice_cat p 16) by lia. rewrite (slice_cat p 12) by lia.
  rewrite (slice_cat p 11) by lia. rewrite (slice_cat p 10) by lia.
  rewrite (slice_cat p 9) by lia. rewrite (slice_cat p 8) by lia.
  rewrite (slice_cat p 0) by lia. by rewrite slice_all.
Qed.

Lemma suffix_inv s : length s = 56%nat -> slice 0 8 s = END_MAGIC ->
  s = suffix_layout (le_val (slice 8 16 s)) (slice 16 48 s) (le_val (slice 48 52 s)) (slice 52 56 s).
Proof.
  intros Hl Hm. pose proof (slice_le8 s 8 ltac:(lia)) as [E1 _].
  pose proof (slice_le4 s 48 ltac:(lia)) as [E2 _]. simpl in *.
  unfold suffix_layout. rewrite <- Hm, E1, E2.
  rewrite (slice_cat s 48) by lia. rewrite (slice_cat s 16) by lia.
  rewrite (slice_cat s 8) by lia. rewrite (slice_cat s 0) by lia. by rewrite slice_all.
Qed.

Section Verify.
Context {I : IntegrityPrims} {L : IntegrityLaws I}.

Lemma length_image_with r1 r2 h env body :
  length (event_id h) = 16%nat -> length r1 = 4%nat -> length r2 = 4%nat ->
  Z.of_nat (length (frame_image_with r1 r2 h env body)) = frame_size env body.
Proof.
  intros. unfold frame_image_with, frame_size.
  rewrite !length_app, length_prefix_layout, length_suffix_layout
    by (done || apply blake3_hash_len). lia.
Qed.

Lemma checked_frame_len_inv el bl n : 0 <= el -> 0 <= bl ->
  checked_frame_len el bl = Some n -> n = 120 + el + bl /\ n <= U64_MAX.
Proof.
  intros ? ?. unfold checked_frame_len, checked_add.
  repeat (case_match; boolify; simplify_eq; try done). intros [= <-]. lia.
Qed.

(** The regions of a buffer cut at the lengths the header declares. *)
Lemma cut_regions (pre env body sfx tail : list byte) : length pre = 64%nat -> length sfx = 56%nat ->
  let bytes := pre ++ env ++ body ++ sfx ++ tail in
  let e := (64 + length env)%nat in let b := (e + length body)%nat in
  take 64 bytes = pre /\ slice 64 e bytes = env /\ slice e b bytes = body /\
  slice b (Z.to_nat (frame_size env body)) bytes = sfx.
Proof.
  intros Hp Hs bytes e b. subst bytes b e. split; [by apply take_app_length'|].
  split.
  { rewrite (slice_app_skip _ _ _ _ 64) by lia. apply slice_app_here. lia. }
  split.
  - rewrite (slice_app_skip pre _ _ _ 64) by lia.
    rewrite (slice_app_skip env _ _ _ (length env)) by lia.
    replace (64 + length env - 64 - length env)%nat with O by lia. apply slice_app_here. lia.
  - rewrite (slice_app_skip pre _ _ _ 64) by lia.
    rewrite (slice_app_skip env _ _ _ (length env)) by lia.
    rewrite (slice_app_skip body _ _ _ (length body)) by lia.
    replace (64 + length env + length body - 64 - length env - length body)%nat with O by lia.
    apply slice_app_here. unfold frame_size. lia.
Qed.

Lemma prefix_layout_checks h c r : wf_header h -> wire_major h = WIRE_MAJOR ->
  slice 0 8 (prefix_layout h c r) = START_MAGIC /\
  nth 8 (prefix_layout h c r) Byte.x00 = WIRE_MAJOR /\
  read_prefix_fields (prefix_layout h c r) = h.
Proof. intros Hwf HM. split; [done|]. split; [exact HM|]. by apply read_prefix_layout. Qed.

(** A buffer with the layout of a frame whose suffix carries the digest [hs]
    is accepted exactly when [hs] is the digest of the body. *)
Lemma verify_layout r1 r2 hs h env body tail limits :
  encodable_frame h env body -> length r1 = 4%nat -> length r2 = 4%nat -> length hs = 32%nat ->
  accepts_lengths limits (envelope_len h) (body_len h) = true ->
  verify_frame_at
    (prefix_layout h (prefix_crc32c (prefix_layout h 0 r1) env) r1 ++ env ++ body ++
     suffix_layout (frame_size env body) hs
       (suffix_crc32c (suffix_layout (frame_size env body) hs 0 r2)) r2 ++ tail) limits =
  if bytes_eqb (blake3_hash body) hs
  then Ok (h, env, body, blake3_hash body, frame_size env body) else Err BadBodyHash.
Proof.
  intros [Hwf He Hb HM Hc Ht] Hr1 Hr2 Hhs Hacc. pose proof (wf_event_id _ Hwf) as Hid.
  set (c1 := prefix_crc32c (prefix_layout h 0 r1) env).
  set (c2 := suffix_crc32c (suffix_layout (frame_size env body) hs 0 r2)).
  pose proof (length_prefix_layout h c1 r1 Hid Hr1) as Hpre.
  pose proof (length_suffix_layout (frame_size env body) hs c2 r2 Hhs Hr2) as Hsfx.
  destruct (cut_regions _ env body _ tail Hpre Hsfx) as (R1 & R2 & R3 & R4).
  destruct (prefix_layout_checks h c1 r1 Hwf HM) as (P1 & P2 & P3).
  destruct (suffix_layout_fields (frame_size env body) hs c2 r2 Hhs) as (F1 & F2 & F3 & F4).
  unfold verify_frame_at, FRAME_PREFIX_LEN.
  rewrite (proj2 (Z.ltb_ge _ _)) by (rewrite !length_app; lia).
  rewrite R1, P1, P2, P3. unfold bytes_eqb at 1. rewrite !bool_decide_eq_true_2 by done.
  cbn [negb]. rewrite Hacc, He, Hb, checked_frame_len_size by done. cbn [negb].
  rewrite (proj2 (Z.ltb_ge _ _)) by (rewrite !length_app, Hpre, Hsfx; unfold frame_size; lia).
  rewrite !Nat2Z.id, R2, R3, R4, prefix_crc_layout, prefix_layout_crc_field by done.
  rewrite le4_val, Z.eqb_refl by apply crc32c_append_u32. cbn [negb].
  rewrite Hc, F1, F2, F3, F4. rewrite suffix_crc_layout by done.
  rewrite le4_val, le8_val by (apply crc32c_u32 || (unfold in_u64, frame_size in *; lia)).
  unfold bytes_eqb at 1. rewrite bool_decide_eq_true_2 by done. rewrite !Z.eqb_refl. cbn [negb].
  unfold body_hash. by destruct (bytes_eqb _ _).
Qed.

Lemma verify_image r1 r2 h env body tail limits :
  encodable_frame h env body -> length r1 = 4%nat -> length r2 = 4%nat ->
  accepts_lengths limits (envelope_len h) (body_len h) = true ->
  verify_frame_at (frame_image_with r1 r2 h env body ++ tail) limits =
  Ok (h, env, body, blake3_hash body, frame_size env body).
Proof.
  intros. unfold frame_image_with. rewrite <- !app_assoc.
  rewrite verify_layout by (done || apply blake3_hash_len).
  unfold bytes_eqb. by rewrite bool_decide_eq_true_2.
Qed.

Lemma buffer_cut (bytes : list byte) a b :
  (64 <= a)%nat -> (a <= b)%nat -> (b + 56 <= length bytes)%nat ->
  bytes = take 64 bytes ++ slice 64 a bytes ++ slice a b bytes ++ slice b (b + 56) bytes
          ++ drop (b + 56) bytes /\
  length (slice 64 a bytes) = (a - 64)%nat /\ length (slice a b bytes) = (b - a)%nat /\
  length (slice b (b + 56) bytes) = 56%nat.
Proof.
  intros. rewrite !length_slice by lia. split; [|lia].
  change (take 64 bytes) with (slice 0 64 bytes).
  rewrite !app_assoc, !slice_cat by lia.
  unfold slice. by rewrite drop_0, Nat.sub_0_r, take_drop.
Qed.

(** The checks of the suffix, once the header has been accepted. *)
Lemma suffix_checks_inv sf bd fl : length sf = 56%nat ->
  slice 0 8 sf = END_MAGIC -> suffix_crc32c sf = le_val (slice 48 52 sf) ->
  le_val (slice 8 16 sf) = fl -> blake3_hash bd = slice 16 48 sf ->
  length (slice 52 56 sf) = 4%nat /\
  sf = suffix_layout fl (blake3_hash bd)
         (suffix_crc32c (suffix_layout fl (blake3_hash bd) 0 (slice 52 56 sf))) (slice 52 56 sf).
Proof.
  intros Hl Hm Hc Hn Hh. split; [rewrite length_slice; lia|].
  pose proof (suffix_inv sf Hl Hm) as Hsf. rewrite Hn, <- Hc, <- Hh in Hsf.
  rewrite Hsf at 1. f_equal. rewrite Hsf at 1. apply suffix_crc_layout, blake3_hash_len.
Qed.

Lemma verify_inv bytes limits h env body hash n :
  verify_frame_at bytes limits = Ok (h, env, body, hash, n) ->
  exists r1 r2 tail, length r1 = 4%nat /\ length r2 = 4%nat /\
    encodable_frame h env body /\ hash = blake3_hash body /\ n = frame_size env body /\
    accepts_lengths limits (envelope_len h) (body_len h) = true /\
    bytes = frame_image_with r1 r2 h env body ++ tail.
Proof.
  unfold verify_frame_at, FRAME_PREFIX_LEN. set (p := take 64 bytes).
  destruct (Z.ltb_spec (Z.of_nat (length bytes)) (Z.of_nat 64)) as [|Hlen]; [done|].
  assert (length p = 64%nat) as Hp by (unfold p; rewrite length_take; lia).
  destruct (bytes_eqb (slice 0 8 p) START_MAGIC) eqn:Hm; [|done].
  apply bool_decide_eq_true in Hm.
  destruct (read_prefix_inv p Hp Hm) as [Hwf Hpl].
  destruct (bool_decide (nth 8 p Byte.x00 = WIRE_MAJOR)) eqn:HM; [|done].
  apply bool_decide_eq_true in HM. cbn [negb].
  remember (read_prefix_fields p) as hd eqn:Hhd.
  assert (wire_major hd = WIRE_MAJOR) as HM' by by rewrite Hhd.
  destruct (accepts_lengths limits (envelope_len hd) (body_len hd)) eqn:Hacc; [|done].
  cbn [negb].
  pose proof (wf_envelope_len _ Hwf) as [He0 _]. pose proof (wf_body_len _ Hwf) as [Hb0 _].
  destruct (checked_frame_len (envelope_len hd) (body_len hd)) as [fl|] eqn:Hfl; [|done].
  apply checked_frame_len_inv in Hfl as [Hfl Hmax]; [|done|done].
  destruct (Z.ltb_spec (Z.of_nat (length bytes)) fl) as [|Hge]; [done|].
  set (a := (64 + Z.to_nat (envelope_len hd))%nat).
  set (b := (a + Z.to_nat (body_len hd))%nat).
  assert (Hbl : (Z.to_nat fl = b + 56)%nat) by (unfold b, a; lia). rewrite Hbl.
  destruct (buffer_cut bytes a b) as (Hbytes & Hel & Hbd & Hsl); [unfold b, a in *; lia..|].
  fold p in Hbytes. replace (a - 64)%nat with (Z.to_nat (envelope_len hd)) in Hel by (unfold a; lia).
  replace (b - a)%nat with (Z.to_nat (body_len hd)) in Hbd by (unfold b; lia).
  revert Hbytes Hel Hbd Hsl. generalize (slice 64 a bytes) (slice a b bytes)
    (slice b (b + 56) bytes) (drop (b + 56) bytes). clear a b Hbl.
  intros e bd sf tl Hbytes Hel Hbd Hsl.
  destruct (Z.eqb_spec (prefix_crc32c p e) (le_val (slice 56 60 p))) as [Hcrc|]; [|done].
  destruct (validate_deterministic_cbor_envelope e) as [[]|] eqn:Hv; [|done].
  destruct (bytes_eqb (slice 0 8 sf) END_MAGIC) eqn:Hem; [|done].
  apply bool_decide_eq_true in Hem.
  destruct (Z.eqb_spec (suffix_crc32c sf) (le_val (slice 48 52 sf))) as [Hscrc|]; [|done].
  destruct (Z.eqb_spec (le_val (slice 8 16 sf)) fl) as [Hsfl|]; [|done].
  destruct (bytes_eqb (body_hash bd) (slice 16 48 sf)) eqn:Hh; [|done].
  apply bool_decide_eq_true in Hh. unfold body_hash in Hh.
  destruct (suffix_checks_inv sf bd fl) as [Hr2 Hsf]; try done.
  cbn [negb]. intros [= <- <- <- <- <-].
  assert (Hn : fl = frame_size e bd) by (unfold frame_size; lia).
  exists (slice 60 64 p), (slice 52 56 sf), tl.
  split; [rewrite length_slice; lia|]. split; [done|]. split.
  { constructor; try done; unfold frame_size in *; lia. }
  do 3 (split; [done|]).
  rewrite Hbytes at 1. unfold frame_image_with. rewrite <- !app_assoc, <- Hn, <- Hsf.
  f_equal. rewrite Hpl at 1. f_equal. rewrite <- Hcrc, Hpl at 1. apply prefix_crc_layout, Hwf.
Qed.
End Verify.

(** ** Claims *)

Section Claims.
Context {I : IntegrityPrims} {L : IntegrityLaws I}.

Lemma ef_event_id h env body : encodable_frame h env body -> length (event_id h) = 16%nat.
Proof. intros Hf. exact (wf_event_id _ (ef_wf _ _ _ Hf)). Qed.

Lemma length_image h env body : encodable_frame h env body ->
  Z.of_nat (length (frame_image h env body)) = frame_size env body.
Proof.
  intros Hf. unfold frame_image.
  exact (length_image_with (zeros 4) (zeros 4) h env body (ef_event_id _ _ _ Hf) eq_refl eq_refl).
Qed.

Lemma encode_frame_image h env body : encodable_frame h env body ->
  encode_frame false {| fp_header := h; fp_envelope := env; fp_body := body |} =
  Ok (frame_image h env body).
Proof.
  intros Hf. unfold encode_frame. cbn [fp_header fp_envelope fp_body].
  rewrite (ef_env_len _ _ _ Hf), (ef_body_len _ _ _ Hf), checked_frame_len_size
    by apply (ef_total _ _ _ Hf).
  by rewrite encode_frame_into_image.
Qed.

Lemma decode_frame_image h env body limits : encodable_frame h env body ->
  accepts_lengths limits (envelope_len h) (body_len h) = true ->
  decode_frame (frame_image h env body) limits =
  Ok {| df_header := h; df_envelope := env; df_body := body;
        df_body_hash := blake3_hash body; df_frame_len := frame_size env body |}.
Proof.
  intros Hf Hacc. unfold decode_frame.
  rewrite <- (app_nil_r (frame_image h env body)) at 1. unfold frame_image.
  rewrite verify_image by done. fold (frame_image h env body). rewrite length_image by done.
  by rewrite Z.eqb_refl.
Qed.

(** C3. Round trip of frames: a frame within its limits encodes; the bytes
    have the declared length, decode to the same header, envelope and body, and
    are recognised by the verifier in front of any trailing bytes (which the
    exact-length decoder rejects). *)
Theorem frame_roundtrip h env body limits :
  encodable_frame h env body ->
  accepts_lengths limits (envelope_len h) (body_len h) = true ->
  exists bytes,
    encode_frame false {| fp_header := h; fp_envelope := env; fp_body := body |} = Ok bytes /\
    decode_frame bytes limits =
      Ok {| df_header := h; df_envelope := env; df_body := body;
            df_body_hash := blake3_hash body; df_frame_len := Z.of_nat (length bytes) |} /\
    (forall tail, verify_frame_at (bytes ++ tail) limits =
      Ok (h, env, body, blake3_hash body, Z.of_nat (length bytes))) /\
    (forall tail, tail <> [] -> decode_frame (bytes ++ tail) limits =
      Err (TrailingBytes (Z.of_nat (length bytes)) (Z.of_nat (length (bytes ++ tail))))).
Proof.
  intros Hf Hacc. exists (frame_image h env body).
  assert (Hlen : Z.of_nat (length (frame_image h env body)) = frame_size env body)
    by by apply length_image.
  rewrite Hlen. split; [by apply encode_frame_image|].
  split; [by apply decode_frame_image|]. split.
  - intros tail. exact (verify_image (zeros 4) (zeros 4) h env body tail limits Hf eq_refl eq_refl Hacc).
  - intros tail Ht. unfold decode_frame. unfold frame_image at 1. rewrite verify_image by done.
    rewrite (proj2 (Z.eqb_neq _ _)); [done|]. rewrite length_app.
    destruct tail; [done|]. cbn [length]. lia.
Qed.

(** C4. Soundness of verification: an accepted candidate lies within the
    buffer, its header is well formed, its envelope is a valid canonical
    envelope, the reported digest is that of the body, and -- when the two
    reserved fields are zero, as writers leave them -- the accepted window is
    byte for byte what the encoder emits for the decoded parts. *)
Theorem verify_sound bytes limits h env body hash n :
  verify_frame_at bytes limits = Ok (h, env, body, hash, n) ->
  wf_header h /\ validate_deterministic_cbor_envelope env = Ok tt /\
  hash = blake3_hash body /\ n = frame_size env body /\ n <= Z.of_nat (length bytes) /\
  accepts_lengths limits (envelope_len h) (body_len h) = true /\
  (slice 60 64 bytes = zeros 4 -> slice (Z.to_nat n - 4) (Z.to_nat n) bytes = zeros 4 ->
   encode_frame false {| fp_header := h; fp_envelope := env; fp_body := body |} =
   Ok (take (Z.to_nat n) bytes)).
Proof.
  intros (r1 & r2 & tail & H1 & H2 & Hf & -> & -> & Hacc & ->)%verify_inv.
  pose proof (ef_event_id _ _ _ Hf) as Hid.
  pose proof (length_image_with r1 r2 h env body Hid H1 H2) as Hlen.
  split; [apply Hf|]. split; [apply Hf|]. do 2 (split; [reflexivity|]). split; [rewrite length_app; lia|]. split; [done|].
  intros Hz1 Hz2. rewrite encode_frame_image by done.
  assert (r1 = zeros 4) as ->.
  { rewrite <- Hz1. unfold frame_image_with. rewrite <- !app_assoc.
    rewrite <- (slice_take _ 60 64 64) by lia.
    rewrite take_app_length' by by rewrite length_prefix_layout.
    unfold prefix_layout. rewrite !app_assoc. symmetry.
    rewrite (slice_app_skip _ _ _ _ 60); [|rewrite !length_app, !length_le_bytes, Hid; done|lia].
    by apply slice_all. }
  assert (r2 = zeros 4) as ->.
  { rewrite <- Hz2. rewrite <- (slice_take _ _ _ (Z.to_nat (frame_size env body))) by lia.
    rewrite take_app_length' by lia. unfold frame_image_with, suffix_layout.
    rewrite !app_assoc. symmetry.
    rewrite (slice_app_skip _ _ _ _ (Z.to_nat (frame_size env body) - 4)); [| |lia].
    - replace (_ - _)%nat with O by lia. apply slice_all. unfold frame_size in *. lia.
    - rewrite !length_app, !length_le_bytes, length_prefix_layout, blake3_hash_len by done.
      unfold frame_size. cbn [length START_MAGIC END_MAGIC map]. lia. }
  f_equal. rewrite take_app_length' by lia. done.
Qed.

(** No truncated frame is accepted: every strict prefix of an encoded
    frame is reported as truncated, with the bytes needed and available. *)
Theorem truncated_frame_rejected h env body limits k :
  encodable_frame h env body ->
  accepts_lengths limits (envelope_len h) (body_len h) = true ->
  (k < length (frame_image h env body))%nat ->
  verify_frame_at (take k (frame_image h env body)) limits =
  Err (Truncated (if (k <? 64)%nat then 64 else frame_size env body) (Z.of_nat k)).
Proof.
  intros [Hwf He Hb HM Hc Ht] Hacc Hk.
  assert (Hlk : length (take k (frame_image h env body)) = k) by (rewrite length_take; lia).
  unfold verify_frame_at, FRAME_PREFIX_LEN. rewrite Hlk.
  destruct (Nat.ltb_spec k 64); [by rewrite (proj2 (Z.ltb_lt _ _)) by lia|].
  rewrite (proj2 (Z.ltb_ge _ _)) by lia. rewrite take_take, Nat.min_l by lia.
  pose proof (wf_event_id _ Hwf) as Hid.
  pose proof (length_image_with (zeros 4) (zeros 4) h env body Hid eq_refl eq_refl) as Hlen.
  unfold frame_image, frame_image_with in *. rewrite take_app_length' by by rewrite length_prefix_layout.
  set (c := prefix_crc32c _ _).
  destruct (prefix_layout_checks h c (zeros 4) Hwf HM) as (-> & -> & ->).
  unfold bytes_eqb. rewrite !bool_decide_eq_true_2 by done. cbn [negb].
  rewrite Hacc, He, Hb, checked_frame_len_size by done. cbn [negb].
  by rewrite (proj2 (Z.ltb_lt _ _)) by lia.
Qed.

(** Body tampering is detected: replace the body of an encoded frame by
    other bytes of the same length and the verifier answers [BadBodyHash],
    unless the two bodies have the same BLAKE3 digest. *)
Theorem body_tamper_detected h env body body' tail limits :
  encodable_frame h env body ->
  accepts_lengths limits (envelope_len h) (body_len h) = true ->
  length body' = length body -> blake3_hash body' <> blake3_hash body ->
  verify_frame_at
    (splice (64 + length env) body' (frame_image h env body) ++ tail) limits = Err BadBodyHash.
Proof.
  intros Hf Hacc Hl Hne. pose proof (ef_event_id _ _ _ Hf) as Hid.
  assert (Hs : frame_size env body' = frame_size env body) by (unfold frame_size; lia).
  unfold frame_image, frame_image_with, splice.
  set (c := prefix_crc32c _ _). set (p := prefix_layout h c (zeros 4)).
  assert (length p = 64%nat) as Hp by by apply length_prefix_layout.
  rewrite (app_assoc p), take_app_length' by (rewrite length_app; lia).
  rewrite (app_assoc _ body), drop_app_length' by (rewrite !length_app; lia).
  rewrite <- !app_assoc, <- Hs. unfold p, c. rewrite verify_layout.
  - unfold bytes_eqb. by rewrite bool_decide_eq_false_2.
  - destruct Hf. constructor; try done; unfold frame_size in *; lia.
  - done.
  - done.
  - apply blake3_hash_len.
  - done.
Qed.
End Claims.

(** ** Witnesses: one small item frame under the concrete provider *)

Lemma sample_encodable_frame :
  encodable_frame sample_header EMPTY_ENVELOPE sample_body.
Proof.
  constructor; [constructor|..]; try done; try (vm_compute; by split).
Qed.

Lemma frame_roundtrip_witness :
  encodable_frame sample_header EMPTY_ENVELOPE sample_body /\
  accepts_lengths draft_defaults 1 5 = true /\
  exists bytes, encode_frame false
    {| fp_header := sample_header; fp_envelope := EMPTY_ENVELOPE; fp_body := sample_body |} = Ok bytes.
Proof.
  split; [exact sample_encodable_frame|]. split; [reflexivity|].
  destruct (frame_roundtrip sample_header EMPTY_ENVELOPE sample_body draft_defaults
              sample_encodable_frame eq_refl) as (bytes & H & _).
  exists bytes. exact H.
Defined.

Lemma verify_sound_witness : exists n,
  verify_frame_at (frame_image sample_header EMPTY_ENVELOPE sample_body ++ sample_body)
    draft_defaults = Ok (sample_header, EMPTY_ENVELOPE, sample_body, blake3_hash sample_body, n) /\
  n = frame_size EMPTY_ENVELOPE sample_body.
Proof.
  exists 126. assert (H : verify_frame_at
    (frame_image sample_header EMPTY_ENVELOPE sample_body ++ sample_body) draft_defaults =
    Ok (sample_header, EMPTY_ENVELOPE, sample_body, blake3_hash sample_body, 126))
    by (vm_compute; reflexivity).
  split; [exact H|].
  destruct (verify_sound _ _ _ _ _ _ _ H) as (_ & _ & _ & Hn & _). exact Hn.
Defined.

Lemma truncated_frame_rejected_witness :
  verify_frame_at (take 100 (frame_image sample_header EMPTY_ENVELOPE sample_body)) draft_defaults =
  Err (Truncated 126 100).
Proof.
  refine (truncated_frame_rejected sample_header EMPTY_ENVELOPE sample_body draft_defaults 100
            sample_encodable_frame eq_refl _).
  vm_compute. lia.
Defined.

Lemma body_tamper_detected_witness :
  verify_frame_at (splice (64 + length EMPTY_ENVELOPE) (rev sample_body)
     (frame_image sample_header EMPTY_ENVELOPE sample_body) ++ []) draft_defaults = Err BadBodyHash.
Proof.
  refine (body_tamper_detected sample_header EMPTY_ENVELOPE sample_body (rev sample_body) []
            draft_defaults sample_encodable_frame eq_refl eq_refl _).
  vm_compute. discriminate.
Defined.
