(* ===== verification/Scan.v ===== *)
(** * Salvage scanning

    Model of [crates/residiuum-format/src/scan.rs].  Offsets are [nat]: a
    buffer never exceeds [isize::MAX] bytes, so the [usize]/[u64] sums of the
    scanner cannot wrap.  A vector that is pushed to is a list extended at its
    end; the two scan loops carry fuel (one unit per candidate), and
    [scan_forward]/[scan_reverse] supply more than the loops can use. *)
From S2P Require Import Prelude Cbor Frame.

Record ByteRange := { range_start : nat; range_end : nat }.

Definition range_len (r : ByteRange) : nat := range_end r - range_start r.
Definition range_is_empty (r : ByteRange) : bool := (range_end r <=? range_start r)%nat.

Inductive HoleReason : Type :=
| UnclassifiedGarbage
| CorruptCandidate (candidate_offset : nat) (error : FrameVerifyError)
| DamagedCandidate (candidate_offset : nat) (error : FrameVerifyError).

Inductive ScanRegion : Type :=
| VerifiedFrame (range : ByteRange) (frame : DecodedFrame)
| Hole (range : ByteRange) (reason : HoleReason).

Definition region_range (r : ScanRegion) : ByteRange :=
  match r with VerifiedFrame range _ => range | Hole range _ => range end.
Definition region_start (r : ScanRegion) : nat := range_start (region_range r).
Definition region_end (r : ScanRegion) : nat := range_end (region_range r).
Definition is_verified (r : ScanRegion) : bool :=
  match r with VerifiedFrame _ _ => true | Hole _ _ => false end.

Record ScanReport := {
  source_len : nat;
  report_limits : SafetyLimits;
  regions : list ScanRegion }.

Definition region_frame (r : ScanRegion) : option (nat * DecodedFrame) :=
  match r with VerifiedFrame range f => Some (range_start range, f) | Hole _ _ => None end.
Definition region_hole (r : ScanRegion) : option (ByteRange * HoleReason) :=
  match r with Hole range reason => Some (range, reason) | VerifiedFrame _ _ => None end.
Definition verified_frames (rep : ScanReport) : list (nat * DecodedFrame) :=
  omap region_frame (regions rep).
Definition verified_count (rep : ScanReport) : nat := length (verified_frames rep).
Definition holes (rep : ScanReport) : list (ByteRange * HoleReason) :=
  omap region_hole (regions rep).

(** ** Searching for the boundary magics *)

(** [l.windows(w.len()).position(|x| x == w)]. *)
Fixpoint position (w l : list byte) : option nat :=
  if bytes_eqb (take (length w) l) w then Some O
  else match l with
  | [] => None
  | _ :: t => match position w t with Some i => Some (S i) | None => None end
  end.

(** [l.windows(w.len()).rposition(|x| x == w)]. *)
Fixpoint rposition (w l : list byte) : option nat :=
  match l with
  | [] => None
  | _ :: t =>
      match rposition w t with
      | Some i => Some (S i)
      | None => if bytes_eqb (take (length w) l) w then Some O else None
      end
  end.

Definition find_start_magic (haystack : list byte) (from : nat) : option nat :=
  let n := length haystack in
  if (n <=? from)%nat || (n - from <? length START_MAGIC)%nat then None
  else match position START_MAGIC (drop from haystack) with
       | Some i => Some (from + i)%nat
       | None => None
       end.

Definition find_end_magic_rightmost (haystack : list byte) (exclusive_end : nat)
  : option nat :=
  if (exclusive_end <? length END_MAGIC)%nat || bool_decide (haystack = []) then None
  else
  let e := Nat.min exclusive_end (length haystack) in
  if (e <? length END_MAGIC)%nat then None
  else rposition END_MAGIC (take e haystack).

Definition classify_failure (candidate_offset : nat) (error : FrameVerifyError)
  : HoleReason :=
  match error with
  | BadBodyHash | BadEndMagic | BadSuffixCrc | FrameLenMismatch _ _ | Truncated _ _ =>
      DamagedCandidate candidate_offset error
  | other => CorruptCandidate candidate_offset other
  end.

(** Appends garbage, extending an adjacent garbage region instead of adding one. *)
Definition push_garbage (rs : list ScanRegion) (s e : nat) : list ScanRegion :=
  if (e <=? s)%nat then rs
  else match last rs with
  | Some (Hole r UnclassifiedGarbage) =>
      if (range_end r =? s)%nat
      then removelast rs ++
             [Hole {| range_start := range_start r; range_end := e |} UnclassifiedGarbage]
      else rs ++ [Hole {| range_start := s; range_end := e |} UnclassifiedGarbage]
  | _ => rs ++ [Hole {| range_start := s; range_end := e |} UnclassifiedGarbage]
  end.

Section Scan.
Context {I : IntegrityPrims}.

Definition try_candidate (bytes : list byte) (offset : nat) (limits : SafetyLimits)
  : result FrameVerifyError (DecodedFrame * Z) :=
  let? '(header, envelope, body, hash, frame_len) := verify_frame_at (drop offset bytes) limits in
  Ok ({| df_header := header; df_envelope := envelope; df_body := body;
         df_body_hash := hash; df_frame_len := frame_len |}, frame_len).

(** The [while] loop of [scan_forward] and the garbage tail after it. *)
Fixpoint forward_loop (fuel : nat) (bytes : list byte) (limits : SafetyLimits)
    (rs : list ScanRegion) (p : nat) : list ScanRegion :=
  match fuel with
  | O => rs
  | S f =>
      let n := length bytes in
      if (p + FRAME_PREFIX_LEN <=? n)%nat then
        match find_start_magic bytes p with
        | None => if (p <? n)%nat then push_garbage rs p n else rs
        | Some q =>
            let rs := if (p <? q)%nat then push_garbage rs p q else rs in
            match try_candidate bytes q limits with
            | Ok (frame, frame_len) =>
                let e := (q + Z.to_nat frame_len)%nat in
                forward_loop f bytes limits
                  (rs ++ [VerifiedFrame {| range_start := q; range_end := e |} frame]) e
            | Err error =>
                forward_loop f bytes limits
                  (rs ++ [Hole {| range_start := q; range_end := q + 1 |}
                               (classify_failure q error)]) (q + 1)
            end
        end
      else if (p <? n)%nat then push_garbage rs p n else rs
  end.

Definition scan_forward (bytes : list byte) (limits : SafetyLimits) : ScanReport := {|
  source_len := length bytes;
  report_limits := limits;
  regions := forward_loop (S (length bytes)) bytes limits [] 0 |}.

(** ** Reverse scanning *)

Definition try_reverse_candidate (bytes : list byte) (end_magic_off exclusive_end : nat)
    (limits : SafetyLimits) : result FrameVerifyError (DecodedFrame * nat * nat) :=
  let sfx_end := (end_magic_off + FRAME_SUFFIX_LEN)%nat in
  if (exclusive_end <? sfx_end)%nat || (length bytes <? sfx_end)%nat
  then Err (Truncated (Z.of_nat sfx_end) (Z.of_nat (Nat.min exclusive_end (length bytes))))
  else
  let suffix := slice end_magic_off sfx_end bytes in
  if negb (bytes_eqb (slice 0 8 suffix) END_MAGIC) then Err BadEndMagic
  else
  let claimed_frame_len := le_val (slice 8 16 suffix) in
  if claimed_frame_len <? Z.of_nat (FRAME_PREFIX_LEN + FRAME_SUFFIX_LEN)
  then Err LengthsOutOfLimits
  else if Z.of_nat exclusive_end <? claimed_frame_len
  then Err (Truncated claimed_frame_len (Z.of_nat exclusive_end))
  else
  let frame_end := Z.of_nat sfx_end in
  if frame_end <? claimed_frame_len
  then Err (Truncated claimed_frame_len frame_end)
  else
  let start := Z.to_nat (frame_end - claimed_frame_len) in
  let stop := (start + Z.to_nat claimed_frame_len)%nat in
  if (exclusive_end <? stop)%nat
  then Err (Truncated (Z.of_nat stop) (Z.of_nat exclusive_end))
  else
  let? '(header, envelope, body, hash, frame_len) :=
    verify_frame_at (slice start stop bytes) limits in
  if negb (frame_len =? claimed_frame_len)
  then Err (FrameLenMismatch claimed_frame_len frame_len)
  else Ok ({| df_header := header; df_envelope := envelope; df_body := body;
              df_body_hash := hash; df_frame_len := frame_len |}, start, Z.to_nat frame_len).

Definition garbage (s e : nat) : ScanRegion :=
  Hole {| range_start := s; range_end := e |} UnclassifiedGarbage.

(** The [while] loop of [scan_reverse]: regions are pushed right to left; the
    result is the pushed vector and the final exclusive end. *)
Fixpoint reverse_loop (fuel : nat) (bytes : list byte) (limits : SafetyLimits)
    (rev_rs : list ScanRegion) (e : nat) : list ScanRegion * nat :=
  match fuel with
  | O => (rev_rs, e)
  | S f =>
      if (e <? FRAME_SUFFIX_LEN)%nat then (rev_rs, e)
      else match find_end_magic_rightmost bytes e with
      | None => (if (0 <? e)%nat then rev_rs ++ [garbage 0 e] else rev_rs, e)
      | Some s =>
          match try_reverse_candidate bytes s e limits with
          | Ok (frame, start, frame_len) =>
              let frame_end := (start + frame_len)%nat in
              let rev_rs :=
                if (frame_end <? e)%nat then rev_rs ++ [garbage frame_end e] else rev_rs in
              reverse_loop f bytes limits
                (rev_rs ++ [VerifiedFrame {| range_start := start; range_end := frame_end |} frame])
                start
          | Err error =>
              let rev_rs :=
                if (s + length END_MAGIC <? e)%nat then rev_rs ++ [garbage (s + 1) e]
                else rev_rs in
              reverse_loop f bytes limits
                (rev_rs ++ [Hole {| range_start := s; range_end := s + 1 |}
                                 (classify_failure s error)]) s
          end
      end
  end.

(** One step of the loop of [coalesce_adjacent_garbage]. *)
Definition coalesce_push (out : list ScanRegion) (region : ScanRegion) : list ScanRegion :=
  match last out, region with
  | Some (Hole r UnclassifiedGarbage), Hole r2 UnclassifiedGarbage =>
      if (range_end r =? range_start r2)%nat
      then removelast out ++ [garbage (range_start r) (range_end r2)]
      else out ++ [region]
  | _, _ => out ++ [region]
  end.

Definition coalesce_adjacent_garbage (rs : list ScanRegion) : list ScanRegion :=
  if (length rs <? 2)%nat then rs else fold_left coalesce_push rs [].

Definition scan_reverse (bytes : list byte) (limits : SafetyLimits) : ScanReport :=
  let n := length bytes in
  let '(rev_rs, e) := reverse_loop (S n) bytes limits [] n in
  let rev_rs :=
    if (0 <? e)%nat && (e <? FRAME_SUFFIX_LEN)%nat then rev_rs ++ [garbage 0 e] else rev_rs in
  {| source_len := n;
     report_limits := limits;
     regions := coalesce_adjacent_garbage (reverse rev_rs) |}.

End Scan.
