(* ===== verification/ScanFacts.v ===== *)
(** * Correctness of salvage scanning

    Theorems about [Scan.v].  A report of the forward scan tiles the buffer;
    every region says the truth about its bytes ([region_ok]); hence every frame
    that verifies anywhere in the buffer is reported or lies inside a reported
    frame.  On a buffer of intact frames both scans report exactly these. *)
From S2P Require Import Prelude Cbor CborFacts Frame FrameFacts Scan.

(** ** Positions of the magics *)

Lemma position_Some w l i : position w l = Some i ->
  take (length w) (drop i l) = w /\ forall j, (j < i)%nat -> take (length w) (drop j l) <> w.
Proof.
  revert i. induction l as [|x t IH]; intros i; cbn [position]; unfold bytes_eqb;
    case_bool_decide as Hw; try done.
  - intros [= <-]. split; [done|lia].
  - intros [= <-]. split; [done|lia].
  - destruct (position w t) as [k|]; [|done]. intros [= <-].
    destruct (IH k eq_refl) as [H1 H2]. split; [done|].
    intros [|j] Hj; [done|]. apply H2. lia.
Qed.

Lemma position_None w l : w <> [] -> position w l = None ->
  forall j, take (length w) (drop j l) <> w.
Proof.
  intros Hne. induction l as [|x t IH]; cbn [position]; unfold bytes_eqb;
    case_bool_decide as Hw; try done.
  - intros _ j. by rewrite drop_nil.
  - destruct (position w t); [done|]. intros _ [|j]; [done|]. by apply IH.
Qed.

Lemma position_here w r : position w (w ++ r) = Some O.
Proof.
  destruct (w ++ r) eqn:E; cbn [position]; rewrite <- E, take_app_length; unfold bytes_eqb;
    by rewrite bool_decide_eq_true_2.
Qed.

Lemma rposition_app w x t i :
  rposition w t = Some i -> rposition w (x ++ t) = Some (length x + i)%nat.
Proof.
  intros H. induction x as [|a x IH]; [done|]. simpl. by rewrite IH.
Qed.

Definition magic_at (bytes : list byte) (q : nat) : Prop :=
  take 8 (drop q bytes) = START_MAGIC.

Lemma magic_at_bound bytes q : magic_at bytes q -> (q + 8 <= length bytes)%nat.
Proof.
  unfold magic_at. intros H. apply (f_equal length) in H.
  rewrite length_take, length_drop in H. change (length START_MAGIC) with 8%nat in H. lia.
Qed.

Lemma find_start_magic_Some bytes p q : find_start_magic bytes p = Some q ->
  (p <= q)%nat /\ magic_at bytes q /\ forall j, (p <= j < q)%nat -> ~ magic_at bytes j.
Proof.
  unfold find_start_magic. intros H. run H. injection H as <-.
  destruct (position_Some _ _ _ Heqo) as [Hm Hno]. rewrite drop_drop in Hm.
  split; [lia|]. split; [exact Hm|]. intros j Hj Hmj.
  apply (Hno (j - p)%nat); [lia|]. rewrite drop_drop.
  replace (p + (j - p))%nat with j by lia. exact Hmj.
Qed.

Lemma find_start_magic_None bytes p : find_start_magic bytes p = None ->
  forall j, (p <= j)%nat -> ~ magic_at bytes j.
Proof.
  unfold find_start_magic. intros H j Hj Hm.
  pose proof (magic_at_bound _ _ Hm) as Hb.
  destruct (_ || _) eqn:E.
  - apply orb_true_iff in E as [E|E]; [apply Nat.leb_le in E | apply Nat.ltb_lt in E; change (length START_MAGIC) with 8%nat in E]; lia.
  - destruct (position _ _) eqn:Ep; [done|].
    refine (position_None START_MAGIC (drop p bytes) _ Ep (j - p)%nat _); [discriminate|].
    rewrite drop_drop. replace (p + (j - p))%nat with j by lia. exact Hm.
Qed.

(** ** Reports of the forward scan *)

(** [rs] covers [a, b) with adjacent non-empty regions in order. *)
Fixpoint tiles (a b : nat) (rs : list ScanRegion) : Prop :=
  match rs with
  | [] => a = b
  | r :: rs' => region_start r = a /\ (a < region_end r)%nat /\ tiles (region_end r) b rs'
  end.

Lemma tiles_app a m b l1 l2 : tiles a m l1 -> tiles m b l2 -> tiles a b (l1 ++ l2).
Proof.
  revert a. induction l1 as [|r l1 IH]; intros a; simpl; [by intros ->|].
  intros (H1 & H2 & H3) Hl. split; [done|]. split; [done|]. by apply IH.
Qed.

Definition is_garbage (r : ScanRegion) : bool :=
  match r with Hole _ UnclassifiedGarbage => true | _ => false end.

Lemma push_garbage_fresh rs s e :
  (forall r, last rs = Some r -> is_garbage r = false) -> (s < e)%nat ->
  push_garbage rs s e = rs ++ [garbage s e].
Proof.
  intros Hl Hse. unfold push_garbage. rewrite (proj2 (Nat.leb_gt _ _)) by done.
  destruct (last rs) as [r|] eqn:E; [|done]. specialize (Hl r eq_refl).
  by destruct r as [|? []].
Qed.

Section Forward.
Context {I : IntegrityPrims} {L : IntegrityLaws I}.
Variables (bytes : list byte) (limits : SafetyLimits).

(** A frame verifies at offset [q]. *)
Definition frame_at (q : nat) (f : DecodedFrame) : Prop :=
  verify_frame_at (drop q bytes) limits =
  Ok (df_header f, df_envelope f, df_body f, df_body_hash f, df_frame_len f).

(** What a region of a report says of the bytes. *)
Definition region_ok (r : ScanRegion) : Prop :=
  match r with
  | VerifiedFrame rg f =>
      frame_at (range_start rg) f /\
      range_end rg = (range_start rg + Z.to_nat (df_frame_len f))%nat
  | Hole rg UnclassifiedGarbage =>
      forall q f, (range_start rg <= q < range_end rg)%nat -> ~ frame_at q f
  | Hole rg (CorruptCandidate q e as reason) | Hole rg (DamagedCandidate q e as reason) =>
      range_start rg = q /\ range_end rg = (q + 1)%nat /\ magic_at bytes q /\
      reason = classify_failure q e /\ verify_frame_at (drop q bytes) limits = Err e
  end.

Lemma frame_at_facts q f : frame_at q f ->
  magic_at bytes q /\ (120 <= Z.to_nat (df_frame_len f))%nat /\
  (q + Z.to_nat (df_frame_len f) <= length bytes)%nat.
Proof.
  unfold frame_at. intros (r1 & r2 & tail & H1 & H2 & Hf & _ & Hn & _ & Hb)%verify_inv.
  pose proof (length_image_with r1 r2 (df_header f) (df_envelope f) (df_body f)
                (ef_event_id _ _ _ Hf) H1 H2) as Hlen.
  apply (f_equal length) in Hb as Hl. rewrite length_drop, length_app in Hl.
  assert (120 <= df_frame_len f) by (rewrite Hn; unfold frame_size; lia).
  split; [unfold magic_at; rewrite Hb; reflexivity|lia].
Qed.

Lemma try_candidate_Ok q frame n : try_candidate bytes q limits = Ok (frame, n) ->
  frame_at q frame /\ n = df_frame_len frame.
Proof.
  unfold try_candidate, frame_at. intros H. run H. injection H as <- <-. done.
Qed.
Lemma try_candidate_Err q e : try_candidate bytes q limits = Err e ->
  verify_frame_at (drop q bytes) limits = Err e.
Proof. unfold try_candidate. intros H. run H. by injection H as <-. Qed.

Lemma garbage_ok p e :
  (forall j, (p <= j < e)%nat -> ~ magic_at bytes j) -> region_ok (garbage p e).
Proof.
  intros H. cbn. intros q f Hq Hf. apply (H q Hq). by apply (frame_at_facts q f).
Qed.
Lemma tail_garbage_ok p :
  (length bytes < p + FRAME_PREFIX_LEN)%nat -> region_ok (garbage p (length bytes)).
Proof.
  intros H. cbn. intros q f Hq Hf. apply frame_at_facts in Hf. unfold FRAME_PREFIX_LEN in H. lia.
Qed.
Lemma candidate_hole_ok q e : magic_at bytes q -> verify_frame_at (drop q bytes) limits = Err e ->
  region_ok (Hole {| range_start := q; range_end := q + 1 |} (classify_failure q e)).
Proof. intros. destruct e; repeat split; done. Qed.

Lemma push_tail_spec rs p :
  (forall r, last rs = Some r -> is_garbage r = false) -> (p <= length bytes)%nat ->
  region_ok (garbage p (length bytes)) ->
  exists l,
    (if (p <? length bytes)%nat then push_garbage rs p (length bytes) else rs) = rs ++ l /\
    tiles p (length bytes) l /\ Forall region_ok l.
Proof.
  intros Hlast Hp Hg. destruct (Nat.ltb_spec p (length bytes)).
  - exists [garbage p (length bytes)]. rewrite push_garbage_fresh by done.
    split; [done|]. split; [by repeat split|]. by repeat constructor.
  - exists []. rewrite app_nil_r. split; [done|]. split; [simpl; lia|constructor].
Qed.

Lemma push_gap_spec rs p q :
  (forall r, last rs = Some r -> is_garbage r = false) -> (p <= q)%nat ->
  (forall j, (p <= j < q)%nat -> ~ magic_at bytes j) ->
  exists pre, (if (p <? q)%nat then push_garbage rs p q else rs) = rs ++ pre /\
    Forall region_ok pre /\ tiles p q pre.
Proof.
  intros Hlast Hpq Hno. exists (if (p <? q)%nat then [garbage p q] else []).
  destruct (Nat.ltb_spec p q).
  - rewrite push_garbage_fresh by done. split; [done|].
    split; [by repeat constructor; apply garbage_ok|]. by repeat split.
  - rewrite app_nil_r. split; [done|]. split; [constructor|simpl; lia].
Qed.

(** One candidate: whatever the verifier answers, one region that starts at the
    candidate is appended and the search resumes at its end. *)
Lemma candidate_step fuel rs q : magic_at bytes q ->
  exists r,
    match try_candidate bytes q limits with
    | Ok (frame, frame_len) =>
        forward_loop fuel bytes limits
          (rs ++ [VerifiedFrame {| range_start := q; range_end := q + Z.to_nat frame_len |} frame])
          (q + Z.to_nat frame_len)
    | Err error =>
        forward_loop fuel bytes limits
          (rs ++ [Hole {| range_start := q; range_end := q + 1 |} (classify_failure q error)]) (q + 1)
    end = forward_loop fuel bytes limits (rs ++ [r]) (region_end r) /\
    region_ok r /\ is_garbage r = false /\ region_start r = q /\
    (q < region_end r <= length bytes)%nat.
Proof.
  intros Hm. pose proof (magic_at_bound _ _ Hm) as Hmb.
  destruct (try_candidate bytes q limits) as [[frame n]|e] eqn:Hc.
  - apply try_candidate_Ok in Hc as [Hf ->]. pose proof (frame_at_facts q frame Hf).
    exists (VerifiedFrame {| range_start := q; range_end := q + Z.to_nat (df_frame_len frame) |} frame).
    split; [reflexivity|]. split; [by split|]. cbn. split_and!; try done; lia.
  - apply try_candidate_Err in Hc.
    exists (Hole {| range_start := q; range_end := q + 1 |} (classify_failure q e)).
    split; [reflexivity|].
    split; [by apply candidate_hole_ok|]. split; [by destruct e|]. cbn. split_and!; try done; lia.
Qed.

(** The loop extends what it was given, and the extension tiles the rest of
    the buffer truthfully.  One unit of fuel per byte is enough. *)
Lemma forward_loop_spec fuel rs p :
  (forall r, last rs = Some r -> is_garbage r = false) ->
  (p <= length bytes)%nat -> (length bytes - p < fuel)%nat ->
  exists l, forward_loop fuel bytes limits rs p = rs ++ l /\
    tiles p (length bytes) l /\ Forall region_ok l.
Proof.
  revert rs p. induction fuel as [|fuel IH]; intros rs p Hlast Hp Hfuel; [lia|].
  cbn [forward_loop].
  destruct (Nat.leb_spec (p + FRAME_PREFIX_LEN) (length bytes)) as [Hpl|Hpl].
  2: { apply push_tail_spec; [done..|]. by apply tail_garbage_ok. }
  destruct (find_start_magic bytes p) as [q|] eqn:Hq.
  2: { apply push_tail_spec; [done..|]. apply garbage_ok.
       intros j Hj. by eapply find_start_magic_None; [done|lia]. }
  apply find_start_magic_Some in Hq as (Hpq & Hm & Hno).
  pose proof (magic_at_bound _ _ Hm) as Hmb.
  destruct (push_gap_spec rs p q Hlast Hpq Hno) as (pre & -> & Hok & Htile).
  destruct (candidate_step fuel (rs ++ pre) q Hm) as (r & -> & Hr & Hng & Hs & He).
  destruct (IH ((rs ++ pre) ++ [r]) (region_end r)) as (l & -> & Ht & Hl); [|lia..|].
  { rewrite last_snoc. by intros ? [= <-]. }
  exists (pre ++ r :: l). rewrite <- !app_assoc. split; [done|].
  split; [apply (tiles_app _ q); [done|]; cbn; split; [done|]; split; [lia|done]|].
  apply Forall_app. split; [done|]. by constructor.
Qed.

Lemma scan_forward_spec :
  tiles 0 (length bytes) (regions (scan_forward bytes limits)) /\
  Forall region_ok (regions (scan_forward bytes limits)).
Proof.
  destruct (forward_loop_spec (S (length bytes)) [] 0) as (l & Hl & H); [done|lia..|].
  unfold scan_forward. cbn [regions]. rewrite Hl. exact H.
Qed.

Lemma tiles_covers a b rs q : tiles a b rs -> (a <= q < b)%nat ->
  exists r, r ∈ rs /\ (region_start r <= q < region_end r)%nat.
Proof.
  revert a. induction rs as [|r rs IH]; intros a; simpl; [lia|].
  intros (Hs & He & Ht) Hq. destruct (Nat.lt_ge_cases q (region_end r)).
  - exists r. split; [apply elem_of_cons; by left|lia].
  - destruct (IH _ Ht ltac:(lia)) as (r' & Hr' & H'). exists r'.
    split; [apply elem_of_cons; by right|done].
Qed.
End Forward.

(** ** Buffers of intact frames *)

Section Clean.
Context {I : IntegrityPrims} {L : IntegrityLaws I}.
Variable limits : SafetyLimits.

(** A frame the encoder produces and the limits accept. *)
Definition good_frame (f : FrameParts) : Prop :=
  encodable_frame (fp_header f) (fp_envelope f) (fp_body f) /\
  accepts_lengths limits (envelope_len (fp_header f)) (body_len (fp_header f)) = true.

Definition image (f : FrameParts) : list byte :=
  frame_image (fp_header f) (fp_envelope f) (fp_body f).

Definition decoded (f : FrameParts) : DecodedFrame := {|
  df_header := fp_header f; df_envelope := fp_envelope f; df_body := fp_body f;
  df_body_hash := blake3_hash (fp_body f);
  df_frame_len := frame_size (fp_envelope f) (fp_body f) |}.

(** The report of frames laid out back to back from offset [p]. *)
Fixpoint laid_out (p : nat) (fs : list FrameParts) : list ScanRegion :=
  match fs with
  | [] => []
  | f :: fs' =>
      let e := (p + length (image f))%nat in
      VerifiedFrame {| range_start := p; range_end := e |} (decoded f) :: laid_out e fs'
  end.

Definition clean (fs : list FrameParts) : list byte := concat (map image fs).

Lemma image_length f : good_frame f ->
  Z.of_nat (length (image f)) = frame_size (fp_envelope f) (fp_body f) /\
  (120 <= length (image f))%nat.
Proof.
  intros [Hf _]. pose proof (length_image _ _ _ Hf) as Hl. unfold image.
  unfold frame_size in *. lia.
Qed.

Lemma image_verifies f tail : good_frame f ->
  verify_frame_at (image f ++ tail) limits =
  Ok (fp_header f, fp_envelope f, fp_body f, blake3_hash (fp_body f),
      frame_size (fp_envelope f) (fp_body f)).
Proof.
  intros [Hf Ha].
  exact (verify_image (zeros 4) (zeros 4) (fp_header f) (fp_envelope f) (fp_body f) tail limits
           Hf eq_refl eq_refl Ha).
Qed.

Lemma image_magic f : exists r, image f = START_MAGIC ++ r.
Proof.
  unfold image, frame_image, frame_image_with, prefix_layout. rewrite <- !app_assoc.
  by eexists.
Qed.

Lemma find_start_magic_clean pre f post : good_frame f ->
  find_start_magic (pre ++ image f ++ post) (length pre) = Some (length pre).
Proof.
  intros Hf. destruct (image_length f Hf) as [Hl Hl']. unfold find_start_magic.
  rewrite (proj2 (Nat.leb_gt _ _)) by (rewrite !length_app; lia).
  rewrite (proj2 (Nat.ltb_ge _ _))
    by (change (length START_MAGIC) with 8%nat; rewrite !length_app; lia).
  rewrite drop_app_length. destruct (image_magic f) as [r ->].
  rewrite <- app_assoc. cbn [orb]. rewrite position_here. f_equal. lia.
Qed.

Lemma forward_loop_clean fuel fs pre rs :
  Forall good_frame fs -> (length (clean fs) < fuel)%nat ->
  forward_loop fuel (pre ++ clean fs) limits rs (length pre) = rs ++ laid_out (length pre) fs.
Proof.
  intros Hg. revert fuel pre rs. induction Hg as [|f fs Hf Hg IH]; intros fuel pre rs Hfuel.
  - destruct fuel; [simpl in *; lia|]. cbn [forward_loop clean map concat].
    rewrite app_nil_r. rewrite (proj2 (Nat.leb_gt _ _)) by (unfold FRAME_PREFIX_LEN; lia).
    rewrite Nat.ltb_irrefl. cbn. by rewrite app_nil_r.
  - destruct fuel as [|fuel]; [lia|]. unfold clean in *. cbn [map concat] in *.
    destruct (image_length f Hf) as [Hl Hl'].
    rewrite length_app in Hfuel. cbn [forward_loop].
    rewrite (proj2 (Nat.leb_le _ _)) by (rewrite !length_app; unfold FRAME_PREFIX_LEN; lia).
    rewrite find_start_magic_clean by done. rewrite Nat.ltb_irrefl. unfold try_candidate. rewrite drop_app_length, image_verifies by done.
    replace (Z.to_nat (frame_size (fp_envelope f) (fp_body f))) with (length (image f)) by lia.
    cbn [laid_out]. rewrite (app_assoc pre), <- length_app, IH by lia.
    by rewrite <- app_assoc.
Qed.

(** Frames that verify inside [d] end inside [d]. *)
Definition contained (d post : list byte) : Prop :=
  forall q f, (q < length d)%nat -> frame_at (d ++ post) limits q f ->
  (q + Z.to_nat (df_frame_len f) <= length d)%nat.

(** The loop always arrives exactly at the first intact frame after [d]. *)
Lemma forward_loop_salvage fuel d fs rs p :
  fs <> [] -> Forall good_frame fs -> contained d (clean fs) ->
  (forall r, last rs = Some r -> is_garbage r = false) ->
  (p <= length d)%nat -> (length (d ++ clean fs) - p < fuel)%nat ->
  exists l, forward_loop fuel (d ++ clean fs) limits rs p = rs ++ l ++ laid_out (length d) fs /\
    tiles p (length d) l /\ Forall (region_ok (d ++ clean fs) limits) l.
Proof.
  intros Hne Hg Hcont. revert rs p.
  destruct fs as [|f fs]; [done|]. set (B := d ++ clean (f :: fs)).
  assert (Hf : good_frame f) by by inversion Hg.
  destruct (image_length f Hf) as [_ Hl].
  assert (HB : length B = (length d + length (image f) + length (clean fs))%nat)
    by (unfold B, clean; cbn [map concat]; rewrite !length_app; lia).
  assert (Hmd : find_start_magic B (length d) = Some (length d))
    by (exact (find_start_magic_clean d f (clean fs) Hf)).
  induction fuel as [|fuel IH]; intros rs p Hlast Hp Hfuel; [lia|].
  assert (Hclean := fun rs => forward_loop_clean (S fuel) (f :: fs) d rs Hg).
  fold B in Hclean. cbn [forward_loop] in *.
  rewrite (proj2 (Nat.leb_le _ _)) in Hclean by (unfold FRAME_PREFIX_LEN; lia).
  rewrite (proj2 (Nat.leb_le _ _)) by (unfold FRAME_PREFIX_LEN; lia).
  rewrite Hmd, Nat.ltb_irrefl in Hclean.
  destruct (find_start_magic B p) as [q|] eqn:Hq.
  2: { destruct (find_start_magic_None _ _ Hq (length d) ltac:(lia)).
       by apply (find_start_magic_Some B (length d)). }
  apply find_start_magic_Some in Hq as (Hpq & Hm & Hno).
  assert (Hqd : (q <= length d)%nat).
  { destruct (Nat.le_gt_cases q (length d)); [done|]. exfalso.
    apply (Hno (length d)); [lia|]. by apply (find_start_magic_Some B (length d)). }
  destruct (push_gap_spec B limits rs p q Hlast Hpq Hno) as (pre & -> & Hok & Htile).
  destruct (Nat.eq_dec q (length d)) as [->|Hneq].
  { exists pre. rewrite Hclean. 2: { unfold B in *. rewrite length_app in *. lia. }
    by rewrite <- app_assoc. }
  destruct (candidate_step B limits fuel (rs ++ pre) q Hm) as (r & -> & Hr & Hng & Hs & He).
  assert (Hend : (region_end r <= length d)%nat).
  { destruct r as [rg fr|rg [|? e|? e]]; cbn in *; unfold region_start, region_end in *; cbn in *; [|done|lia..].
    destruct Hr as [Hfr ->]. rewrite Hs in *. apply (Hcont q fr); [lia|done]. }
  destruct (IH ((rs ++ pre) ++ [r]) (region_end r)) as (l & -> & Ht & Hl'); [|lia..|].
  { rewrite last_snoc. by intros ? [= <-]. }
  exists (pre ++ r :: l). rewrite <- !app_assoc. split; [done|].
  split; [apply (tiles_app _ q); [done|]; cbn; split; [done|]; split; [lia|done]|].
  apply Forall_app. split; [done|]. by constructor.
Qed.

Lemma scan_forward_clean_regions fs : Forall good_frame fs ->
  regions (scan_forward (clean fs) limits) = laid_out 0 fs.
Proof.
  intros Hg. unfold scan_forward. cbn [regions].
  exact (forward_loop_clean (S (length (clean fs))) fs [] [] Hg (Nat.lt_succ_diag_r _)).
Qed.
End Clean.

(** ** The reverse scan *)

Lemma rposition_Some w l i : w <> [] -> rposition w l = Some i ->
  take (length w) (drop i l) = w /\ (i + length w <= length l)%nat.
Proof.
  intros Hw. revert i. induction l as [|x t IH]; intros i; cbn [rposition]; [done|].
  destruct (rposition w t) as [k|].
  - intros [= <-]. destruct (IH k eq_refl) as [H1 H2]. split; [done|simpl; lia].
  - unfold bytes_eqb. case_bool_decide as E; [|done]. intros [= <-]. split; [done|].
    apply (f_equal length) in E. rewrite length_take in E. lia.
Qed.

Lemma find_end_magic_bound bytes e s :
  find_end_magic_rightmost bytes e = Some s -> (s + 8 <= e)%nat.
Proof.
  unfold find_end_magic_rightmost. intros H. run H.
  apply rposition_Some in H as [_ H]; [|discriminate].
  change (length END_MAGIC) with 8%nat in H. rewrite length_take in H. lia.
Qed.

(** Non-empty regions in order within [a, b), gaps allowed. *)
Fixpoint spaced (a b : nat) (rs : list ScanRegion) : Prop :=
  match rs with
  | [] => (a <= b)%nat
  | r :: rs' => (a <= region_start r < region_end r)%nat /\ spaced (region_end r) b rs'
  end.

Lemma spaced_app a b l1 l2 :
  spaced a b (l1 ++ l2) <-> exists m, spaced a m l1 /\ spaced m b l2.
Proof.
  revert a. induction l1 as [|r l1 IH]; intros a; simpl.
  - split.
    + intros H. by exists a.
    + intros (m & Hm & H). destruct l2; simpl in *; [lia|]. destruct H. split; [lia|done].
  - rewrite IH. naive_solver.
Qed.

Lemma coalesce_push_spaced out r rs a b :
  spaced a b (out ++ [r] ++ rs) -> spaced a b (coalesce_push out r ++ rs).
Proof.
  intros H. unfold coalesce_push.
  destruct (last out) as [[|r1 [| |]]|] eqn:E; try (by rewrite <- app_assoc).
  destruct r as [|r2 [| |]]; try (by rewrite <- app_assoc).
  destruct (Nat.eqb_spec (range_end r1) (range_start r2)) as [Heq|]; [|by rewrite <- app_assoc].
  apply last_Some in E as [o ->]. rewrite removelast_last. rewrite <- !app_assoc in *.
  apply spaced_app in H as (m & Ho & Hr). apply spaced_app. exists m. split; [done|].
  cbn in *. unfold region_start, region_end in *. cbn in *. split; [lia|tauto].
Qed.

Lemma coalesce_push_frames out r :
  omap region_frame (coalesce_push out r) = omap region_frame out ++ omap region_frame [r].
Proof.
  unfold coalesce_push.
  destruct (last out) as [[|r1 [| |]]|] eqn:E; try (by rewrite omap_app).
  destruct r as [|r2 [| |]]; try (by rewrite omap_app).
  destruct (range_end r1 =? range_start r2)%nat; [|by rewrite omap_app].
  apply last_Some in E as [o ->]. rewrite removelast_last. rewrite !omap_app. cbn. by rewrite !app_nil_r.
Qed.

Lemma coalesce_spec rs a b : spaced a b rs ->
  spaced a b (coalesce_adjacent_garbage rs) /\
  omap region_frame (coalesce_adjacent_garbage rs) = omap region_frame rs.
Proof.
  intros H. unfold coalesce_adjacent_garbage. destruct (_ <? 2)%nat; [done|].
  change rs with ([] ++ rs) in H. change (omap region_frame rs) with (omap region_frame [] ++ omap region_frame rs).
  revert H. generalize (@nil ScanRegion). induction rs as [|r rs IH]; intros out H; simpl.
  - rewrite !app_nil_r in *. done.
  - apply (coalesce_push_spaced out r rs) in H. destruct (IH _ H) as [H1 H2].
    split; [done|]. rewrite H2, coalesce_push_frames, <- app_assoc. simpl.
    by destruct (region_frame r).
Qed.

Section Reverse.
Context {I : IntegrityPrims} {L : IntegrityLaws I}.
Variables (bytes : list byte) (limits : SafetyLimits).

Lemma verify_extend w t v :
  verify_frame_at w limits = Ok v -> verify_frame_at (w ++ t) limits = Ok v.
Proof.
  destruct v as [[[[h env] body] hash] n].
  intros (r1 & r2 & tail & H1 & H2 & Hf & -> & -> & Hacc & ->)%verify_inv.
  rewrite <- app_assoc. by apply verify_image.
Qed.

Lemma slice_drop_split {A} (l : list A) a b : (a <= b)%nat ->
  drop a l = slice a b l ++ drop b l.
Proof.
  intros. unfold slice. rewrite <- (take_drop (b - a) (drop a l)) at 1.
  rewrite drop_drop. do 2 f_equal. lia.
Qed.

Definition frame_entry_ok (x : nat * DecodedFrame) : Prop :=
  frame_at bytes limits (fst x) (snd x).

Lemma try_reverse_Ok s e frame start n :
  try_reverse_candidate bytes s e limits = Ok (frame, start, n) ->
  frame_at bytes limits start frame /\ n = Z.to_nat (df_frame_len frame) /\
  (start + n = s + 56 /\ s + 56 <= e)%nat /\ (120 <= n)%nat.
Proof.
  unfold try_reverse_candidate, FRAME_SUFFIX_LEN, FRAME_PREFIX_LEN. intros H. run H. boolify.
  injection H as <- <- <-. subst.
  repeat match goal with
  | H : (_ <? _)%nat = false |- _ => apply Nat.ltb_ge in H
  end.
  split; [|cbn [df_frame_len] in *; lia].
  unfold frame_at. cbn. erewrite slice_drop_split; [|apply Nat.le_add_r].
  eapply verify_extend. eassumption.
Qed.

Lemma reverse_loop_spec fuel rev_rs e :
  (e <= length bytes)%nat -> (e < fuel)%nat ->
  spaced e (length bytes) (reverse rev_rs) ->
  Forall frame_entry_ok (omap region_frame rev_rs) ->
  forall rs e', reverse_loop fuel bytes limits rev_rs e = (rs, e') ->
  (e' <= length bytes)%nat /\
  spaced (if (e' <? 56)%nat then e' else 0) (length bytes) (reverse rs) /\
  Forall frame_entry_ok (omap region_frame rs).
Proof.
  revert rev_rs e. induction fuel as [|fuel IH]; intros rev_rs e He Hfuel Hsp Hok rs e'; [lia|].
  cbn [reverse_loop]. unfold FRAME_SUFFIX_LEN.
  destruct (Nat.ltb_spec e 56) as [Hlt|Hge].
  { intros [= <- <-]. by rewrite (proj2 (Nat.ltb_lt _ _)). }
  destruct (find_end_magic_rightmost bytes e) as [s|] eqn:Hs.
  2: { rewrite (proj2 (Nat.ltb_lt 0 e)) by lia. intros [= <- <-].
       rewrite (proj2 (Nat.ltb_ge _ _)) by lia. rewrite reverse_app, omap_app. simpl.
       rewrite app_nil_r. split; [done|]. split; [|done]. split; [cbn; lia|done]. }
  apply find_end_magic_bound in Hs.
  destruct (try_reverse_candidate bytes s e limits) as [[[frame start] n]|err] eqn:Hc.
  - apply try_reverse_Ok in Hc as (Hf & Hn & [Hend Hend2] & Hmin). apply IH; [lia..| |].
    + rewrite reverse_snoc. destruct (Nat.ltb_spec (start + n) e).
      * rewrite reverse_snoc. cbn. split_and!; try lia. done.
      * replace e with (start + n)%nat in Hsp by lia. cbn. split_and!; try lia. done.
    + rewrite omap_app. apply Forall_app. split; [|by repeat constructor].
      destruct (_ <? _)%nat; [|done]. by rewrite omap_app, app_nil_r.
  - change (length END_MAGIC) with 8%nat. apply IH; [lia..| |].
    + rewrite reverse_snoc. destruct (Nat.ltb_spec (s + 8) e).
      * rewrite reverse_snoc. cbn. split_and!; try lia. done.
      * cbn. split; [lia|]. apply (spaced_app _ _ []). exists e. split; [cbn; lia|done].
    + rewrite omap_app. apply Forall_app. split; [|constructor].
      destruct (_ <? _)%nat; [|done]. by rewrite omap_app, app_nil_r.
Qed.

Lemma scan_reverse_spec :
  spaced 0 (length bytes) (regions (scan_reverse bytes limits)) /\
  Forall frame_entry_ok (verified_frames (scan_reverse bytes limits)).
Proof.
  unfold scan_reverse, verified_frames.
  destruct (reverse_loop _ _ _ _ _) as [rs e] eqn:E.
  apply reverse_loop_spec in E as (He & Hsp & Hok); [|simpl; lia..|constructor].
  cbn [regions]. unfold FRAME_SUFFIX_LEN.
  set (rs' := if _ && _ then _ else rs).
  assert (H : spaced 0 (length bytes) (reverse rs') /\ Forall frame_entry_ok (omap region_frame rs')).
  { unfold rs'. destruct (Nat.ltb_spec e 56); simpl.
    - destruct (Nat.ltb_spec 0 e); simpl.
      + rewrite reverse_snoc, omap_app, app_nil_r. split; [cbn; split; [lia|done]|done].
      + split; [|done]. by replace e with 0%nat in Hsp by lia.
    - rewrite andb_false_r. done. }
  destruct H as [H1 H2]. destruct (coalesce_spec _ _ _ H1) as [H3 H4]. split; [done|].
  rewrite H4. clear -H2. induction rs' as [|r l IH] using rev_ind; [constructor|].
  rewrite reverse_snoc. rewrite omap_app in H2. apply Forall_app in H2 as [Hl Hr].
  change (r :: reverse l) with ([r] ++ reverse l). rewrite omap_app. apply Forall_app. auto.
Qed.
End Reverse.

(** ** The reverse scan of intact frames *)

Section ReverseClean.
Context {I : IntegrityPrims} {L : IntegrityLaws I}.
Variable limits : SafetyLimits.

Definition image_suffix (f : FrameParts) : list byte :=
  drop (length (image f) - 56) (image f).

(** The end magic does not occur again inside the suffix (its digest and CRC). *)
Definition suffix_clean (f : FrameParts) : Prop :=
  rposition END_MAGIC (image_suffix f) = Some O.

Lemma image_split f : good_frame limits f ->
  image f = take (length (image f) - 56) (image f) ++ image_suffix f /\
  length (image_suffix f) = 56%nat /\ slice 0 8 (image_suffix f) = END_MAGIC /\
  le_val (slice 8 16 (image_suffix f)) = frame_size (fp_envelope f) (fp_body f).
Proof.
  intros Hf. split; [unfold image_suffix; by rewrite take_drop|].
  destruct (image_length limits f Hf) as [Hl Hl']. destruct Hf as [Hf _].
  pose proof (ef_total _ _ _ Hf) as Ht.
  assert (exists c, image_suffix f =
    suffix_layout (frame_size (fp_envelope f) (fp_body f)) (blake3_hash (fp_body f)) c (zeros 4))
    as [c ->].
  { unfold image_suffix, image, frame_image, frame_image_with in *. eexists.
    rewrite !app_assoc. apply drop_app_length'.
    rewrite (length_app _ (suffix_layout _ _ _ _)).
    rewrite length_suffix_layout by (done || apply blake3_hash_len). lia. }
  destruct (suffix_layout_fields (frame_size (fp_envelope f) (fp_body f))
    (blake3_hash (fp_body f)) c (zeros 4) (blake3_hash_len _)) as (-> & -> & _ & _).
  rewrite length_suffix_layout by (done || apply blake3_hash_len).
  rewrite le8_val by (unfold in_u64, frame_size in *; lia). done.
Qed.

Lemma laid_out_snoc p fs f : laid_out p (fs ++ [f]) =
  laid_out p fs ++ [VerifiedFrame {| range_start := p + length (clean fs);
    range_end := p + length (clean fs) + length (image f) |} (decoded f)].
Proof.
  revert p. induction fs as [|g fs IH]; intros p; cbn [laid_out clean map concat app length].
  - by rewrite Nat.add_0_r.
  - rewrite IH. unfold clean. rewrite length_app, !Nat.add_assoc. done.
Qed.

Lemma find_end_magic_clean x f post : good_frame limits f -> suffix_clean f ->
  find_end_magic_rightmost ((x ++ image f) ++ post) (length (x ++ image f)) =
  Some (length x + (length (image f) - 56))%nat.
Proof.
  intros Hf Hc. destruct (image_split f Hf) as (Hi & Hs & _ & _).
  destruct (image_length limits f Hf) as [_ Hl]. unfold find_end_magic_rightmost.
  change (length END_MAGIC) with 8%nat.
  rewrite (proj2 (Nat.ltb_ge _ _)) by (rewrite length_app; lia).
  rewrite bool_decide_eq_false_2.
  2: { intros E%(f_equal length). rewrite !length_app in E. cbn in E. lia. }
  rewrite Nat.min_l by (rewrite (length_app _ post); lia). cbn [orb].
  rewrite (proj2 (Nat.ltb_ge _ _)) by (rewrite length_app; lia).
  rewrite take_app_length. rewrite Hi at 1. rewrite app_assoc, (rposition_app _ _ _ 0) by done.
  rewrite length_app, length_take. f_equal. lia.
Qed.

Lemma try_reverse_clean x f post : good_frame limits f ->
  try_reverse_candidate ((x ++ image f) ++ post) (length x + (length (image f) - 56))
    (length (x ++ image f)) limits = Ok (decoded f, length x, length (image f)).
Proof.
  intros Hf. destruct (image_split f Hf) as (Hi & Hs & Hm & Hn).
  destruct (image_length limits f Hf) as [Hl Hl'].
  unfold try_reverse_candidate, FRAME_SUFFIX_LEN, FRAME_PREFIX_LEN.
  rewrite (length_app (x ++ _) post), (length_app x).
  replace (length x + (length (image f) - 56) + 56)%nat with (length x + length (image f))%nat by lia.
  rewrite Nat.ltb_irrefl, (proj2 (Nat.ltb_ge _ _)) by lia. cbn [orb].
  assert (slice (length x + (length (image f) - 56)) (length x + length (image f))
            ((x ++ image f) ++ post) = image_suffix f) as ->.
  { rewrite <- app_assoc, (slice_app_skip x _ _ _ (length x)) by lia.
    unfold slice. replace (length x + (length (image f) - 56) - length x)%nat
      with (length (image f) - 56)%nat by lia.
    rewrite drop_app_le by lia. apply take_app_length'. rewrite Hs. lia. }
  rewrite Hm, Hn. unfold bytes_eqb. rewrite bool_decide_eq_true_2 by done. cbn [negb].
  rewrite !(proj2 (Z.ltb_ge _ _)) by lia.
  replace (Z.to_nat (Z.of_nat (length x + length (image f)) - _))%nat with (length x) by lia.
  replace (Z.to_nat (frame_size _ _)) with (length (image f)) by lia.
  rewrite Nat.ltb_irrefl.
  assert (slice (length x) (length x + length (image f)) ((x ++ image f) ++ post) = image f ++ [])
    as ->.
  { rewrite <- app_assoc, (slice_app_skip x _ _ _ (length x)), app_nil_r by lia.
    rewrite Nat.sub_diag, Nat.add_comm, Nat.add_sub. by apply slice_app_here. }
  rewrite image_verifies by done. rewrite Z.eqb_refl. cbn [negb]. unfold decoded.
  do 2 f_equal. lia.
Qed.

Lemma reverse_loop_clean fuel fs post rev_rs :
  Forall (good_frame limits) fs -> Forall suffix_clean fs -> (length (clean fs) < fuel)%nat ->
  reverse_loop fuel (clean fs ++ post) limits rev_rs (length (clean fs)) =
  (rev_rs ++ reverse (laid_out 0 fs), O).
Proof.
  revert fuel post rev_rs. induction fs as [|f fs IH] using rev_ind; intros fuel post rev_rs Hg Hc Hfuel.
  - destruct fuel; [simpl in *; lia|]. cbn. by rewrite app_nil_r.
  - apply Forall_app in Hg as [Hg [Hf _]%Forall_cons]. apply Forall_app in Hc as [Hc [Hs _]%Forall_cons].
    assert (Hcl : clean (fs ++ [f]) = clean fs ++ image f).
    { unfold clean. rewrite map_app, concat_app. cbn. by rewrite app_nil_r. }
    rewrite Hcl in *. destruct (image_length limits f Hf) as [_ Hl].
    destruct fuel as [|fuel]; [lia|]. rewrite length_app in Hfuel. cbn [reverse_loop].
    unfold FRAME_SUFFIX_LEN at 1. rewrite (proj2 (Nat.ltb_ge _ _)) by (rewrite length_app; lia).
    rewrite find_end_magic_clean, try_reverse_clean by done.
    rewrite length_app, Nat.ltb_irrefl, <- app_assoc, IH by (done || lia).
    rewrite laid_out_snoc, reverse_snoc, <- app_assoc. done.
Qed.

Lemma coalesce_clean p fs : coalesce_adjacent_garbage (laid_out p fs) = laid_out p fs.
Proof.
  unfold coalesce_adjacent_garbage. destruct (_ <? 2)%nat; [done|].
  change (laid_out p fs) with ([] ++ laid_out p fs) at 2. generalize (@nil ScanRegion).
  revert p. induction fs as [|f fs IH]; intros p out; cbn [laid_out fold_left].
  - by rewrite app_nil_r.
  - rewrite IH. unfold coalesce_push. destruct (last out) as [[|? []]|]; by rewrite <- app_assoc.
Qed.

Lemma scan_reverse_clean_regions fs :
  Forall (good_frame limits) fs -> Forall suffix_clean fs ->
  regions (scan_reverse (clean fs) limits) = laid_out 0 fs.
Proof.
  intros Hg Hc. unfold scan_reverse.
  pose proof (reverse_loop_clean (S (length (clean fs))) fs [] [] Hg Hc ltac:(lia)) as E.
  rewrite app_nil_r in E. rewrite E. cbn [regions app Nat.ltb Nat.leb andb].
  by rewrite reverse_involutive, coalesce_clean.
Qed.
End ReverseClean.

(** ** Claims *)

Section Claims.
Context {I : IntegrityPrims} {L : IntegrityLaws I}.

(** C5. The forward report is complete and truthful about the bytes: its
    regions tile the buffer without gaps or overlap; a verified frame is a frame
    that verifies at its offset with exactly that extent; a candidate hole is a
    start magic whose verification fails with the recorded error; and no frame
    verifies at any offset of a garbage region. *)
Theorem forward_report_truthful bytes limits :
  tiles 0 (length bytes) (regions (scan_forward bytes limits)) /\
  Forall (region_ok bytes limits) (regions (scan_forward bytes limits)).
Proof. apply scan_forward_spec. Qed.

(** C6. No intact frame is lost: if a frame verifies at any offset of the
    buffer, the forward scan reports it, or the offset lies strictly inside a
    frame that it reports. *)
Theorem forward_scan_complete bytes limits q f :
  frame_at bytes limits q f ->
  (q, f) ∈ verified_frames (scan_forward bytes limits) \/
  exists s g, (s, g) ∈ verified_frames (scan_forward bytes limits) /\
    (s < q < s + Z.to_nat (df_frame_len g))%nat.
Proof.
  intros Hf. destruct (scan_forward_spec bytes limits) as [Ht Hok].
  destruct (frame_at_facts bytes limits q f Hf) as (Hm & _ & _).
  destruct (tiles_covers _ _ _ q Ht) as (r & Hr & Hq).
  { pose proof (magic_at_bound _ _ Hm). lia. }
  rewrite Forall_forall in Hok. pose proof (Hok r Hr) as Hrok.
  destruct r as [rg g|rg [|? e|? e]].
  - destruct Hrok as [Hg He].
    assert (Hin : (range_start rg, g) ∈ verified_frames (scan_forward bytes limits)).
    { apply list_elem_of_omap. by exists (VerifiedFrame rg g). }
    cbn in Hq. unfold region_start, region_end in Hq. cbn in Hq.
    destruct (Nat.eq_dec (range_start rg) q) as [<-|Hne].
    + left. unfold frame_at in *. rewrite Hf in Hg. destruct f, g. cbn in *.
      by injection Hg as -> -> -> -> ->.
    + right. exists (range_start rg), g. split; [done|lia].
  - by destruct (Hrok q f Hq).
  - destruct Hrok as (Hs & He & _ & _ & Herr). cbn in Hq. unfold region_start, region_end in Hq. cbn in Hq.
    assert (q = candidate_offset) as -> by lia. unfold frame_at in Hf. by rewrite Herr in Hf.
  - destruct Hrok as (Hs & He & _ & _ & Herr). cbn in Hq. unfold region_start, region_end in Hq. cbn in Hq.
    assert (q = candidate_offset) as -> by lia. unfold frame_at in Hf. by rewrite Herr in Hf.
Qed.

(** Damage cannot hide what follows it: put any bytes [d] in front of a
    run of intact frames, where no frame that verifies inside [d] reaches past its
    end.  The forward report is a tiling of [d] followed by exactly these frames
    at their offsets. *)
Theorem damage_does_not_hide limits d fs :
  fs <> [] -> Forall (good_frame limits) fs -> contained limits d (clean fs) ->
  exists l, regions (scan_forward (d ++ clean fs) limits) = l ++ laid_out (length d) fs /\
    tiles 0 (length d) l /\ Forall (region_ok (d ++ clean fs) limits) l.
Proof.
  intros Hne Hg Hc.
  exact (forward_loop_salvage limits (S (length (d ++ clean fs))) d fs [] 0 Hne Hg Hc
           ltac:(done) ltac:(lia) ltac:(lia)).
Qed.

(** On a buffer of intact frames both scans report exactly the frames in
    order and nothing else (for the reverse scan, provided no suffix contains a
    second end magic). *)
Theorem clean_scans_agree limits fs :
  Forall (good_frame limits) fs ->
  regions (scan_forward (clean fs) limits) = laid_out 0 fs /\
  (Forall suffix_clean fs ->
   regions (scan_reverse (clean fs) limits) = regions (scan_forward (clean fs) limits)).
Proof.
  intros Hg. split; [by apply scan_forward_clean_regions|]. intros Hc.
  by rewrite scan_forward_clean_regions, scan_reverse_clean_regions.
Qed.

(** Soundness of the reverse scan: its regions are non-empty, in ascending
    order and disjoint, and every frame it reports verifies at its offset. *)
Theorem reverse_scan_sound bytes limits :
  spaced 0 (length bytes) (regions (scan_reverse bytes limits)) /\
  forall q f, (q, f) ∈ verified_frames (scan_reverse bytes limits) -> frame_at bytes limits q f.
Proof.
  destruct (scan_reverse_spec bytes limits) as [H1 H2]. split; [done|].
  intros q f Hin. rewrite Forall_forall in H2. exact (H2 (q, f) Hin).
Qed.
End Claims.

(** ** Witnesses *)

Definition sample_parts : FrameParts :=
  {| fp_header := sample_header; fp_envelope := EMPTY_ENVELOPE; fp_body := sample_body |}.
Definition sample_noise : list byte := map z2b [0xff; 0x52; 0x45].

Lemma sample_good : Forall (good_frame draft_defaults) [sample_parts; sample_parts].
Proof.
  assert (good_frame draft_defaults sample_parts) by (split; [exact sample_encodable_frame|reflexivity]).
  by repeat constructor.
Qed.

Lemma sample_contained : contained draft_defaults sample_noise (clean [sample_parts; sample_parts]).
Proof.
  intros q f Hq Hf. destruct (frame_at_facts _ _ _ _ Hf) as (Hm & _). exfalso.
  unfold magic_at in Hm. destruct q as [|[|[|q]]]; [vm_compute in Hm; discriminate..|].
  cbn in Hq. lia.
Qed.

Lemma forward_report_truthful_witness :
  let bytes := sample_noise ++ image sample_parts in
  map (fun r => (region_start r, region_end r, is_verified r))
      (regions (scan_forward bytes draft_defaults)) = [(0, 3, false); (3, 129, true)]%nat /\
  tiles 0 (length bytes) (regions (scan_forward bytes draft_defaults)).
Proof.
  intros bytes. split; [vm_compute; reflexivity|].
  exact (proj1 (forward_report_truthful bytes draft_defaults)).
Defined.

Lemma sample_frame_at : frame_at (sample_noise ++ image sample_parts) draft_defaults 3
  (decoded sample_parts).
Proof. vm_compute. reflexivity. Qed.

Lemma forward_scan_complete_witness :
  let bytes := sample_noise ++ image sample_parts in
  frame_at bytes draft_defaults 3 (decoded sample_parts) /\
  ((3%nat, decoded sample_parts) ∈ verified_frames (scan_forward bytes draft_defaults) \/
   exists s g, (s, g) ∈ verified_frames (scan_forward bytes draft_defaults) /\
     (s < 3 < s + Z.to_nat (df_frame_len g))%nat).
Proof.
  intros bytes. split; [exact sample_frame_at|].
  exact (forward_scan_complete bytes draft_defaults 3 (decoded sample_parts) sample_frame_at).
Defined.

Lemma damage_does_not_hide_witness : exists l,
  regions (scan_forward (sample_noise ++ clean [sample_parts; sample_parts]) draft_defaults) =
  l ++ laid_out (length sample_noise) [sample_parts; sample_parts].
Proof.
  destruct (damage_does_not_hide draft_defaults sample_noise [sample_parts; sample_parts]
    ltac:(discriminate) sample_good sample_contained) as (l & H & _).
  exists l. exact H.
Defined.

Lemma clean_scans_agree_witness :
  regions (scan_reverse (clean [sample_parts; sample_parts]) draft_defaults) =
  regions (scan_forward (clean [sample_parts; sample_parts]) draft_defaults).
Proof.
  apply (clean_scans_agree draft_defaults [sample_parts; sample_parts] sample_good).
  repeat constructor; vm_compute; reflexivity.
Defined.

Lemma reverse_scan_sound_witness :
  spaced 0 (length (sample_noise ++ image sample_parts)) (regions (scan_reverse (sample_noise ++ image sample_parts) draft_defaults)).
Proof.
  exact (proj1 (reverse_scan_sound (sample_noise ++ image sample_parts) draft_defaults)).
Defined.

(** The reverse report, unlike the forward one, need not cover the buffer: when a
    failed end magic ends exactly at the search boundary, the seven bytes after
    its first one belong to no region. *)
Example reverse_scan_leaves_gap :
  map (fun r => (region_start r, region_end r))
    (regions (scan_reverse (zeros 100 ++ END_MAGIC) draft_defaults)) = [(0, 100); (100, 101)]%nat.
Proof. vm_compute. reflexivity. Qed.
