(* ===== verification/Segment.v ===== *)
(** * Active append segments and sealing

    Model of [crates/residiuum-format/src/segment.rs].  A method on [&mut self]
    that returns [Result<T, SegmentError>] is a function from the state to
    [result SegmentError (T * state)]: every failing path of the source returns
    before the first mutation, so an error leaves the state as it was.  Buffer
    capacity ([Vec::with_capacity], [reserve_additional]) has no effect on the
    contents and is left out; [skip_hash] is the thread-local diagnostic switch
    that [encode_frame_into] reads. *)
From S2P Require Import Prelude Cbor Frame.

Definition DESCRIPTOR_BODY_LEN : nat := 16 + 16 + 8 + 4 + 8 + 8.
Definition SUMMARY_BODY_LEN : nat := 16 + 16 + 8 + 8.
Definition STORE_DESCRIPTOR_BODY_LEN : nat := 16 + 8 + 4 + 4.
Definition STORE_DESCRIPTOR_FORMAT_TAG : Z := 1.

Record SegmentId := { store_id : list byte; segment_id : list byte }.

Inductive SegmentError : Type :=
| Frame (e : FrameVerifyError)
| AlreadySealed
| MissingDescriptor
| ReservedKind (k : byte)
| InvalidEnvelope
| CheckpointMismatch.

(** [?] on a frame error inside a segment method ([#[from]]). *)
Definition from_frame {A} (r : result FrameVerifyError A) : result SegmentError A :=
  match r with Ok a => Ok a | Err e => Err (Frame e) end.

(** ** Fixed body layouts *)

Definition encode_descriptor_body (ids : SegmentId) (created_ns : Z) (limits : SafetyLimits)
  : list byte :=
  store_id ids ++ segment_id ids ++ le_bytes 8 created_ns ++
  le_bytes 4 (max_envelope_len limits) ++ le_bytes 8 (max_body_len limits) ++
  le_bytes 8 (max_frame_len limits).

Definition decode_descriptor_body (body : list byte) : option (SegmentId * Z * SafetyLimits) :=
  if negb (length body =? DESCRIPTOR_BODY_LEN)%nat then None
  else Some
    ({| store_id := slice 0 16 body; segment_id := slice 16 32 body |},
     le_val (slice 32 40 body),
     {| max_envelope_len := le_val (slice 40 44 body);
        max_body_len := le_val (slice 44 52 body);
        max_frame_len := le_val (slice 52 60 body) |}).

Definition encode_summary_body (ids : SegmentId) (sealed_byte_len frame_count : Z) : list byte :=
  store_id ids ++ segment_id ids ++ le_bytes 8 sealed_byte_len ++ le_bytes 8 frame_count.

Definition decode_summary_body (body : list byte) : option (SegmentId * Z * Z) :=
  if negb (length body =? SUMMARY_BODY_LEN)%nat then None
  else Some
    ({| store_id := slice 0 16 body; segment_id := slice 16 32 body |},
     le_val (slice 32 40 body), le_val (slice 40 48 body)).

Definition encode_store_descriptor_body (sid : list byte) (created_ns : Z) : list byte :=
  sid ++ le_bytes 8 created_ns ++ le_bytes 4 STORE_DESCRIPTOR_FORMAT_TAG ++ le_bytes 4 0.

(** ** The active segment *)

Module ActiveSegment.

Record t := {
  ids : SegmentId;
  limits : SafetyLimits;
  bytes : list byte;
  base_offset : Z;
  writer_seq : Z;
  frame_count : Z;
  sealed : bool;
  created_ns : Z }.

Record Checkpoint := {
  cp_base_offset : Z;
  cp_retained_len : nat;
  cp_writer_sequence : Z;
  cp_frame_count : Z;
  cp_sealed : bool }.

Record Sealed := {
  s_ids : SegmentId;
  s_limits : SafetyLimits;
  s_bytes : list byte;
  s_frame_count : Z;
  s_created_ns : Z }.

(** The logical length: discarded prefix plus retained bytes. *)
Definition len (s : t) : Z := sat_add (base_offset s) (Z.of_nat (length (bytes s))).
Definition is_empty (s : t) : bool := len s =? 0.

(** The state after [bytes] was extended by one frame. *)
Definition extended (s : t) (bs : list byte) : t := {|
  ids := ids s; limits := limits s; bytes := bs; base_offset := base_offset s;
  writer_seq := sat_add (writer_seq s) 1; frame_count := sat_add (frame_count s) 1;
  sealed := sealed s; created_ns := created_ns s |}.

Section Ops.
Context {I : IntegrityPrims}.
Variable skip_hash : bool.

Definition append_raw (s : t) (kind : FrameKind) (envelope body eid : list byte)
  : result SegmentError (Z * t) :=
  let header := {|
    wire_major := WIRE_MAJOR; wire_minor := WIRE_MINOR; frame_kind := kind_as_u8 kind;
    flags := Byte.x00; envelope_len := as_u32 (Z.of_nat (length envelope));
    body_len := Z.of_nat (length body); logical_len := Z.of_nat (length body);
    writer_sequence := writer_seq s; event_id := eid |} in
  if negb (accepts_lengths (limits s) (envelope_len header) (body_len header))
  then Err (Frame LengthsOutOfLimits)
  else
  let? bs := from_frame (encode_frame_into skip_hash (bytes s) header envelope body) in
  Ok (len s, extended s bs).

Definition create_with_descriptor_envelope (i : SegmentId) (l : SafetyLimits) (created : Z)
    (envelope : list byte) : result SegmentError t :=
  match validate_deterministic_cbor_envelope envelope with
  | Err _ => Err InvalidEnvelope
  | Ok _ =>
      let seg := {| ids := i; limits := l; bytes := []; base_offset := 0; writer_seq := 0;
                    frame_count := 0; sealed := false; created_ns := created |} in
      let body := encode_descriptor_body i created l in
      let? '(_, seg) := append_raw seg SegmentDescriptor envelope body (segment_id i) in
      Ok seg
  end.

Definition create (i : SegmentId) (l : SafetyLimits) (created : Z) : result SegmentError t :=
  create_with_descriptor_envelope i l created EMPTY_ENVELOPE.

Definition append (s : t) (kind : FrameKind) (envelope body eid : list byte)
  : result SegmentError (Z * t) :=
  if sealed s then Err AlreadySealed
  else match kind with
  | SegmentDescriptor | SegmentSummary => Err (ReservedKind (kind_as_u8 kind))
  | _ => append_raw s kind envelope body eid
  end.

Definition stamped (h : FrameHeader) (seq : Z) : FrameHeader := {|
  wire_major := wire_major h; wire_minor := wire_minor h; frame_kind := frame_kind h;
  flags := flags h; envelope_len := envelope_len h; body_len := body_len h;
  logical_len := logical_len h; writer_sequence := seq; event_id := event_id h |}.

Definition append_parts (s : t) (parts : FrameParts) : result SegmentError (Z * t) :=
  let k := frame_kind (fp_header parts) in
  if sealed s then Err AlreadySealed
  else if bool_decide (k = kind_as_u8 SegmentDescriptor) || bool_decide (k = kind_as_u8 SegmentSummary)
  then Err (ReservedKind k)
  else
  let header := stamped (fp_header parts) (writer_seq s) in
  let? bs := from_frame
    (encode_frame_into skip_hash (bytes s) header (fp_envelope parts) (fp_body parts)) in
  Ok (len s, extended s bs).

Definition append_preencoded_frame (s : t) (frame : list byte) : result SegmentError (Z * t) :=
  if sealed s then Err AlreadySealed
  else match frame with
  | [] => Err MissingDescriptor
  | _ => Ok (len s, extended s (bytes s ++ frame))
  end.

(** Flips the last byte of the segment id: [event_id[15] ^= 0xff]. *)
Definition summary_event_id (segment_id : list byte) : list byte :=
  alter (fun b => z2b (Z.lxor (b2z b) 0xff)) 15%nat segment_id.

Definition seal (s : t) : result SegmentError Sealed :=
  if sealed s then Err AlreadySealed
  else if frame_count s =? 0 then Err MissingDescriptor
  else if negb (base_offset s =? 0) then Err MissingDescriptor
  else
  let frames_after := frame_count s + 1 in
  let eid := summary_event_id (segment_id (ids s)) in
  match checked_frame_len (Z.of_nat (length EMPTY_ENVELOPE)) (Z.of_nat SUMMARY_BODY_LEN) with
  | None => Err (Frame LengthsOutOfLimits)
  | Some summary_frame_len =>
      let sealed_len := Z.of_nat (length (bytes s)) + summary_frame_len in
      let body := encode_summary_body (ids s) sealed_len frames_after in
      let? '(_, s') := append_raw s SegmentSummary EMPTY_ENVELOPE body eid in
      Ok {| s_ids := ids s'; s_limits := limits s'; s_bytes := bytes s';
            s_frame_count := frame_count s'; s_created_ns := created_ns s' |}
  end.

End Ops.

Definition resume_unsealed (i : SegmentId) (l : SafetyLimits) (bs : list byte)
    (frames seq created : Z) : result SegmentError t :=
  match bs with
  | [] => Err MissingDescriptor
  | _ =>
      if frames =? 0 then Err MissingDescriptor
      else Ok {| ids := i; limits := l; bytes := bs; base_offset := 0; writer_seq := seq;
                 frame_count := frames; sealed := false; created_ns := created |}
  end.

Definition checkpoint (s : t) : Checkpoint := {|
  cp_base_offset := base_offset s; cp_retained_len := length (bytes s);
  cp_writer_sequence := writer_seq s; cp_frame_count := frame_count s; cp_sealed := sealed s |}.

Definition restore_checkpoint (s : t) (cp : Checkpoint) : result SegmentError t :=
  if negb (base_offset s =? cp_base_offset cp) then Err CheckpointMismatch
  else if (length (bytes s) <? cp_retained_len cp)%nat then Err CheckpointMismatch
  else Ok {| ids := ids s; limits := limits s; bytes := take (cp_retained_len cp) (bytes s);
             base_offset := base_offset s; writer_seq := cp_writer_sequence cp;
             frame_count := cp_frame_count cp; sealed := cp_sealed cp;
             created_ns := created_ns s |}.

Definition with_bytes (s : t) (bs : list byte) (base : Z) : t := {|
  ids := ids s; limits := limits s; bytes := bs; base_offset := base;
  writer_seq := writer_seq s; frame_count := frame_count s; sealed := sealed s;
  created_ns := created_ns s |}.

Definition take_unsealed_prefix (s : t) : option (list byte) * t :=
  if sealed s || negb (base_offset s =? 0) then (None, s)
  else (Some (bytes s), with_bytes s [] (base_offset s)).

Definition discard_through (s : t) (absolute_end : Z) : t :=
  if absolute_end <=? base_offset s then s
  else
  let logical := len s in
  let e := Z.min absolute_end logical in
  let drop_n := Z.to_nat (e - base_offset s) in
  if (drop_n =? 0)%nat then s
  else if (length (bytes s) <=? drop_n)%nat then with_bytes s [] e
  else with_bytes s (drop drop_n (bytes s)) e.

End ActiveSegment.
