(* ===== verification/SegmentFacts.v ===== *)
(** * Correctness of active and sealed segments

    Theorems about [Segment.v].  A segment state is read as a list of frames
    ([seg_inv]): the retained bytes are the images of the frames from the base
    offset on, sequence numbers count from zero, the first frame is the
    descriptor.  Every operation preserves this reading, so a sealed segment
    scans to exactly the frames that were appended. *)
From S2P Require Import Prelude Cbor CborFacts Frame FrameFacts Scan ScanFacts Segment.
Import ActiveSegment.

(** ** Body layouts *)

Record wf_ids (i : SegmentId) : Prop := {
  wf_store_id : length (store_id i) = 16%nat;
  wf_segment_id : length (segment_id i) = 16%nat }.
Record wf_limits (l : SafetyLimits) : Prop := {
  wf_max_envelope : in_u32 (max_envelope_len l);
  wf_max_body : in_u64 (max_body_len l);
  wf_max_frame : in_u64 (max_frame_len l) }.

(** Reads the fields of a concatenation of fields of known length. *)
Ltac field_len := solve [assumption | apply length_le_bytes | lia].
Ltac cut_fields :=
  repeat first
    [ rewrite slice_app_here by field_len
    | rewrite (slice_app_skip _ _ _ _ 16) by field_len; cbn [Nat.sub]
    | rewrite (slice_app_skip _ _ _ _ 8) by field_len; cbn [Nat.sub]
    | rewrite (slice_app_skip _ _ _ _ 4) by field_len; cbn [Nat.sub]
    | rewrite slice_all by field_len ].

Lemma descriptor_roundtrip i c l : wf_ids i -> wf_limits l -> in_u64 c ->
  decode_descriptor_body (encode_descriptor_body i c l) = Some (i, c, l) /\
  length (encode_descriptor_body i c l) = DESCRIPTOR_BODY_LEN.
Proof.
  intros [H1 H2] [L1 L2 L3] Hc.
  assert (Hlen : length (encode_descriptor_body i c l) = DESCRIPTOR_BODY_LEN).
  { unfold encode_descriptor_body. by rewrite !length_app, !length_le_bytes, H1, H2. }
  split; [|done]. unfold decode_descriptor_body. rewrite Hlen, Nat.eqb_refl.
  unfold encode_descriptor_body. cbn [negb]. cut_fields.
  rewrite !le8_val, le4_val by done. by destruct i, l.
Qed.

Lemma summary_roundtrip i n k : wf_ids i -> in_u64 n -> in_u64 k ->
  decode_summary_body (encode_summary_body i n k) = Some (i, n, k).
Proof.
  intros [H1 H2] Hn Hk.
  assert (Hlen : length (encode_summary_body i n k) = SUMMARY_BODY_LEN).
  { unfold encode_summary_body. by rewrite !length_app, !length_le_bytes, H1, H2. }
  unfold decode_summary_body. rewrite Hlen, Nat.eqb_refl.
  unfold encode_summary_body. cbn [negb]. cut_fields.
  rewrite !le8_val by done. by destruct i.
Qed.
Lemma summary_body_length i n k : wf_ids i ->
  length (encode_summary_body i n k) = SUMMARY_BODY_LEN.
Proof.
  intros [H1 H2]. unfold encode_summary_body. by rewrite !length_app, !length_le_bytes, H1, H2.
Qed.

(** ** Operations and reachable segments *)

Inductive SegOp : Type :=
| OpAppend (kind : FrameKind) (envelope body eid : list byte)
| OpParts (parts : FrameParts)
| OpEncoded (frame : list byte)
| OpDiscard (absolute_end : Z).

Section Reach.
Context {I : IntegrityPrims}.

(** The state after an operation. *)
Definition apply_op (s : t) (op : SegOp) : result SegmentError t :=
  match op with
  | OpAppend k e b i => let? '(_, s') := append false s k e b i in Ok s'
  | OpParts p => let? '(_, s') := append_parts false s p in Ok s'
  | OpEncoded f => let? '(_, s') := append_preencoded_frame s f in Ok s'
  | OpDiscard n => Ok (discard_through s n)
  end.

Fixpoint run_ops (s : t) (ops : list SegOp) : result SegmentError t :=
  match ops with
  | [] => Ok s
  | op :: ops' => let? s' := apply_op s op in run_ops s' ops'
  end.

Definition lifecycle_kind (k : byte) : bool :=
  bool_decide (k = kind_as_u8 SegmentDescriptor) || bool_decide (k = kind_as_u8 SegmentSummary).

(** A content frame that carries the segment's next sequence number. *)
Definition next_frame (s : t) (f : FrameParts) : Prop :=
  good_frame (limits s) f /\ writer_sequence (fp_header f) = writer_seq s /\
  lifecycle_kind (frame_kind (fp_header f)) = false.

(** What callers owe: arguments of their Rust types ([eid : [u8; 16]]), and for
    the two raw entry points frames within the limits ([append_parts] does not
    check them) and a stamped image ([append_preencoded_frame] takes any bytes). *)
Definition op_ok (s : t) (op : SegOp) : Prop :=
  match op with
  | OpAppend _ e _ i => length i = 16%nat /\ Z.of_nat (length e) <= U32_MAX
  | OpParts p => next_frame s {| fp_header := stamped (fp_header p) (writer_seq s);
                                 fp_envelope := fp_envelope p; fp_body := fp_body p |}
  | OpEncoded fr => exists f, next_frame s f /\ fr = image f
  | OpDiscard n => in_u64 n
  end.

Inductive reachable (i : SegmentId) (l : SafetyLimits) (c : Z) : t -> Prop :=
| reach_create env s :
    Z.of_nat (length env) <= U32_MAX ->
    create_with_descriptor_envelope false i l c env = Ok s -> reachable i l c s
| reach_step s op s' :
    reachable i l c s -> op_ok s op -> apply_op s op = Ok s' -> reachable i l c s'.

(** The frame of an operation: what the caller handed over, under the header that the
    segment gives it. *)
Definition writes (op : SegOp) (f : FrameParts) : Prop :=
  match op with
  | OpAppend k e b i =>
      frame_kind (fp_header f) = kind_as_u8 k /\ event_id (fp_header f) = i /\
      fp_envelope f = e /\ fp_body f = b
  | OpParts p =>
      fp_header f = stamped (fp_header p) (writer_sequence (fp_header f)) /\
      fp_envelope f = fp_envelope p /\ fp_body f = fp_body p
  | OpEncoded fr => fr = image f
  | OpDiscard _ => False
  end.
Definition is_append (op : SegOp) : bool := match op with OpDiscard _ => false | _ => true end.

(** A segment created with a descriptor envelope, and the operations since then. *)
Inductive seg_history (i : SegmentId) (l : SafetyLimits) (c : Z) (env : list byte)
  : list SegOp -> t -> Prop :=
| history_create s :
    Z.of_nat (length env) <= U32_MAX ->
    create_with_descriptor_envelope false i l c env = Ok s -> seg_history i l c env [] s
| history_op ops s op s' :
    seg_history i l c env ops s -> op_ok s op -> apply_op s op = Ok s' ->
    seg_history i l c env (ops ++ [op]) s'.

(** ** Reading a state as a list of frames *)

Definition count (fs : list FrameParts) : Z := Z.min (Z.of_nat (length fs)) U64_MAX.

Definition sequenced (fs : list FrameParts) : Prop :=
  forall k f, fs !! k = Some f ->
  writer_sequence (fp_header f) = Z.min (Z.of_nat k) U64_MAX.

Record seg_inv (i : SegmentId) (l : SafetyLimits) (c : Z) (s : t) (fs : list FrameParts) : Prop := {
  inv_ids : ids s = i;
  inv_limits : limits s = l;
  inv_created : created_ns s = c;
  inv_open : sealed s = false;
  inv_base : 0 <= base_offset s <= Z.of_nat (length (clean fs));
  inv_bytes : bytes s = drop (Z.to_nat (base_offset s)) (clean fs);
  inv_count : frame_count s = count fs;
  inv_seq : writer_seq s = count fs;
  inv_good : Forall (good_frame l) fs;
  inv_sequenced : sequenced fs;
  inv_shape : exists d rest, fs = d :: rest /\
    frame_kind (fp_header d) = kind_as_u8 SegmentDescriptor /\
    fp_body d = encode_descriptor_body i c l /\
    Forall (fun f => lifecycle_kind (frame_kind (fp_header f)) = false) rest }.
End Reach.

Section SegmentFacts.
Context {I : IntegrityPrims} {L : IntegrityLaws I}.

Lemma clean_snoc fs f : clean (fs ++ [f]) = clean fs ++ image f.
Proof. unfold clean. rewrite map_app, concat_app. cbn. by rewrite app_nil_r. Qed.

Lemma count_snoc fs f : count (fs ++ [f]) = sat_add (count fs) 1.
Proof. unfold count, sat_add. rewrite length_app. cbn [length]. lia. Qed.
Lemma count_range fs : in_u64 (count fs).
Proof. unfold count, in_u64, U64_MAX. lia. Qed.

Lemma sequenced_snoc fs f : sequenced fs -> writer_sequence (fp_header f) = count fs ->
  sequenced (fs ++ [f]).
Proof.
  intros Hs Hf k g Hk. apply lookup_app_Some in Hk as [Hk|[Hge Hk]]; [by apply Hs|].
  destruct (k - length fs)%nat eqn:E; [|done]. injection Hk as <-. rewrite Hf. unfold count.
  do 2 f_equal. lia.
Qed.

(** The frame that [append_raw] writes. *)
Definition raw_frame (s : t) (kind : FrameKind) (env body eid : list byte) : FrameParts := {|
  fp_header := {|
    wire_major := WIRE_MAJOR; wire_minor := WIRE_MINOR; frame_kind := kind_as_u8 kind;
    flags := Byte.x00; envelope_len := as_u32 (Z.of_nat (length env));
    body_len := Z.of_nat (length body); logical_len := Z.of_nat (length body);
    writer_sequence := writer_seq s; event_id := eid |};
  fp_envelope := env; fp_body := body |}.

Lemma accepts_lengths_inv l e b : accepts_lengths l e b = true ->
  exists n, checked_frame_len e b = Some n.
Proof.
  unfold accepts_lengths. destruct (_ || _); [done|].
  destruct (checked_frame_len e b) as [n|]; [by exists n|done].
Qed.

Lemma raw_frame_good s kind env body eid :
  in_u64 (writer_seq s) -> length eid = 16%nat -> Z.of_nat (length env) <= U32_MAX ->
  validate_deterministic_cbor_envelope env = Ok tt ->
  accepts_lengths (limits s) (Z.of_nat (length env)) (Z.of_nat (length body)) = true ->
  good_frame (limits s) (raw_frame s kind env body eid).
Proof.
  intros Hw Hid He Hv Ha. destruct (accepts_lengths_inv _ _ _ Ha) as [n Hn].
  assert (Hu : as_u32 (Z.of_nat (length env)) = Z.of_nat (length env)).
  { unfold as_u32. apply Z.mod_small. unfold U32_MAX in He. lia. }
  destruct (checked_frame_len_inv _ _ _ (Zle_0_nat _) (Zle_0_nat _) Hn) as [-> Hmax].
  unfold good_frame, raw_frame. cbn [fp_header fp_envelope fp_body envelope_len body_len].
  rewrite Hu. split; [|done]. unfold U64_MAX in *.
  constructor; cbn; try done; [constructor; cbn|..]; unfold in_u32, in_u64, U64_MAX, frame_size in *;
    rewrite ?Hu; try done; try lia.
Qed.

Lemma append_raw_Ok s kind env body eid off s' :
  in_u64 (writer_seq s) -> length eid = 16%nat -> Z.of_nat (length env) <= U32_MAX ->
  append_raw false s kind env body eid = Ok (off, s') ->
  let f := raw_frame s kind env body eid in
  good_frame (limits s) f /\ off = len s /\ s' = extended s (bytes s ++ image f).
Proof.
  intros Hw Hid He H. assert (Hu : as_u32 (Z.of_nat (length env)) = Z.of_nat (length env)).
  { unfold as_u32. apply Z.mod_small. unfold U32_MAX in He. lia. }
  unfold append_raw in H. cbn [envelope_len body_len] in H. rewrite Hu in H.
  destruct (accepts_lengths _ _ _) eqn:Ha; [|done]. cbn [negb] in H.
  assert (Hv : validate_deterministic_cbor_envelope env = Ok tt).
  { destruct (validate_deterministic_cbor_envelope env) as [[]|e] eqn:Hv; [done|].
    unfold encode_frame_into in H. rewrite Hv in H. by run H. }
  pose proof (raw_frame_good s kind env body eid Hw Hid He Hv Ha) as Hg.
  intros f. split; [exact Hg|].
  pose proof (encode_frame_into_image (bytes s) _ _ _ (proj1 Hg)) as Himg.
  cbn [raw_frame fp_header fp_envelope fp_body] in Himg. rewrite Hu in Himg. rewrite Himg in H.
  cbn in H. injection H as <- <-. split; [done|]. do 2 f_equal. unfold f, image, raw_frame. cbn. by rewrite Hu.
Qed.

Lemma inv_extend i l c s fs f :
  seg_inv i l c s fs -> good_frame l f -> writer_sequence (fp_header f) = writer_seq s ->
  lifecycle_kind (frame_kind (fp_header f)) = false ->
  seg_inv i l c (extended s (bytes s ++ image f)) (fs ++ [f]).
Proof.
  intros [] Hg Hw Hk. constructor; cbn; try done.
  - rewrite clean_snoc, length_app. lia.
  - rewrite inv_bytes0, clean_snoc, drop_app_le by lia. done.
  - by rewrite inv_count0, count_snoc.
  - by rewrite inv_seq0, count_snoc.
  - apply Forall_app. split; [done|]. by apply Forall_singleton.
  - apply sequenced_snoc; [done|]. by rewrite Hw.
  - destruct inv_shape0 as (d & rest & -> & Hd & Hb & Hr). exists d, (rest ++ [f]).
    split; [done|]. split; [done|]. split; [done|]. apply Forall_app. split; [done|].
    by apply Forall_singleton.
Qed.

Lemma discard_inv i l c s fs n :
  seg_inv i l c s fs -> seg_inv i l c (discard_through s n) fs.
Proof.
  intros Hinv. pose proof (inv_base _ _ _ _ _ Hinv) as Hb.
  pose proof (inv_bytes _ _ _ _ _ Hinv) as Hbs. unfold discard_through.
  destruct (Z.leb_spec n (base_offset s)); [done|].
  set (e := Z.min n (len s)).
  assert (Hlen : Z.of_nat (length (bytes s)) = Z.of_nat (length (clean fs)) - base_offset s).
  { rewrite Hbs, length_drop. lia. }
  assert (He : 0 <= e <= Z.of_nat (length (clean fs))).
  { unfold e, len, sat_add, U64_MAX. lia. }
  destruct (Nat.eqb_spec (Z.to_nat (e - base_offset s)) 0); [done|].
  assert (Hd : drop (Z.to_nat (e - base_offset s)) (bytes s) = drop (Z.to_nat e) (clean fs)).
  { rewrite Hbs, drop_drop. f_equal. lia. }
  destruct Hinv. destruct (Nat.leb_spec (length (bytes s)) (Z.to_nat (e - base_offset s))) as [Hle|_];
    constructor; cbn; try done; try lia.
  rewrite <- Hd, drop_ge by lia. done.
Qed.

Lemma apply_op_inv i l c s op s' fs :
  seg_inv i l c s fs -> op_ok s op -> apply_op s op = Ok s' ->
  (exists f, writes op f /\ seg_inv i l c s' (fs ++ [f])) \/
  (exists n, op = OpDiscard n /\ seg_inv i l c s' fs).
Proof.
  intros Hinv Hok H. pose proof (inv_limits _ _ _ _ _ Hinv) as Hl.
  pose proof (inv_open _ _ _ _ _ Hinv) as Ho.
  assert (Hw : in_u64 (writer_seq s)) by (rewrite (inv_seq _ _ _ _ _ Hinv); apply count_range).
  destruct op as [k e b id|p|fr|n]; cbn [apply_op op_ok] in H, Hok.
  - left. destruct Hok as [Hid He]. unfold append in H. rewrite Ho in H.
    destruct (lifecycle_kind (kind_as_u8 k)) eqn:Hk; [by destruct k|].
    assert (Hr : exists off, append_raw false s k e b id = Ok (off, s')).
    { destruct k; try done; run H; injection H as <-; eauto. }
    destruct Hr as [off Hr]. apply append_raw_Ok in Hr as (Hg & _ & Hs'); [|done..].
    rewrite Hl in Hg. eexists. split; [|rewrite Hs'; by apply inv_extend]. done.
  - left. unfold append_parts in H. rewrite Ho in H.
    set (f := {| fp_header := _ |}) in Hok. destruct Hok as (Hg & Hseq & Hk).
    change (frame_kind (fp_header f)) with (frame_kind (fp_header p)) in Hk. fold (lifecycle_kind (frame_kind (fp_header p))) in H.
    rewrite Hk in H.
    pose proof (encode_frame_into_image (bytes s) _ _ _ (proj1 Hg)) as Himg.
    change (fp_header f) with (stamped (fp_header p) (writer_seq s)) in Himg at 1.
    change (fp_envelope f) with (fp_envelope p) in Himg at 1.
    change (fp_body f) with (fp_body p) in Himg at 1. rewrite Himg in H.
    cbn [from_frame] in H. injection H as <-.
    rewrite Hl in Hg. exists f. split; [done|]. exact (inv_extend _ _ _ _ _ f Hinv Hg Hseq Hk).
  - left. destruct Hok as (f & (Hg & Hseq & Hk) & ->). unfold append_preencoded_frame in H.
    rewrite Ho in H. exists f. assert (s' = extended s (bytes s ++ image f)) as ->.
    { remember (image f) as fr. destruct fr; [done|]. by injection H as <-. }
    split; [reflexivity|]. rewrite Hl in Hg. by apply inv_extend.
  - right. exists n. injection H as <-. split; [done|]. by apply discard_inv.
Qed.

Lemma create_inv i l c env s :
  wf_ids i -> Z.of_nat (length env) <= U32_MAX ->
  create_with_descriptor_envelope false i l c env = Ok s ->
  exists d, seg_inv i l c s [d] /\ fp_envelope d = env.
Proof.
  intros Hi He H. unfold create_with_descriptor_envelope in H.
  destruct (validate_deterministic_cbor_envelope env); [|done].
  set (s0 := {| ids := i |}) in H.
  destruct (append_raw false s0 _ _ _ _) as [[off s1]|] eqn:Hr; [|done]. injection H as <-.
  apply append_raw_Ok in Hr as (Hg & _ & ->); [|unfold in_u64, U64_MAX; cbn; lia|apply Hi|done].
  set (f := raw_frame _ _ _ _ _) in *. exists f. split; [|done].
  constructor; try reflexivity.
  - split; [done|apply Zle_0_nat].
  - unfold clean, with_bytes. cbn [map concat bytes extended base_offset s0]. by rewrite app_nil_r.
  - by apply Forall_singleton.
  - intros [|k] g Hk; [by injection Hk as <-|done].
  - exists f, []. split; [done|]. split; [done|]. split; [done|constructor].
Qed.

Lemma reachable_inv i l c s : wf_ids i -> reachable i l c s -> exists fs, seg_inv i l c s fs.
Proof.
  intros Hi. induction 1 as [env s He Hc|s op s' _ [fs IH] Hok Hs].
  - destruct (create_inv _ _ _ _ _ Hi He Hc) as [d [Hd _]]. by exists [d].
  - destruct (apply_op_inv _ _ _ _ _ _ _ IH Hok Hs) as [(f & _ & H)|(n & _ & H)]; eauto.
Qed.

(** The frames of a segment after its descriptor are those of its appends, in order. *)
Lemma history_inv i l c env ops s : wf_ids i -> seg_history i l c env ops s ->
  exists d content, seg_inv i l c s (d :: content) /\ fp_envelope d = env /\
    Forall2 writes (List.filter is_append ops) content.
Proof.
  intros Hi. induction 1 as [s He Hc|ops s op s' _ (d & content & IH & Hd & Hw) Hok Hs].
  - destruct (create_inv _ _ _ _ _ Hi He Hc) as [d [Hd Henv]]. by exists d, [].
  - destruct (apply_op_inv _ _ _ _ _ _ _ IH Hok Hs) as [(f & Hf & H)|(n & -> & H)].
    + exists d, (content ++ [f]). split_and!; [exact H|done|]. rewrite List.filter_app.
      apply Forall2_app; [done|]. destruct op; [by constructor..|done].
    + exists d, content. split_and!; [done..|]. rewrite List.filter_app. by rewrite app_nil_r.
Qed.
End SegmentFacts.

(** ** Consequences *)

Section SegmentClaims.
Context {I : IntegrityPrims} {L : IntegrityLaws I}.

Definition seg_step (s s' : t) : Prop := exists op, op_ok s op /\ apply_op s op = Ok s'.

Lemma clean_length_ge l fs : Forall (good_frame l) fs -> (120 * length fs <= length (clean fs))%nat.
Proof.
  induction 1 as [|f fs Hf _ IH]; [simpl; lia|]. unfold clean in *. cbn [map concat length].
  rewrite length_app. pose proof (image_length l f Hf). lia.
Qed.

Lemma count_exact l fs : Forall (good_frame l) fs -> Z.of_nat (length (clean fs)) <= U64_MAX ->
  count fs = Z.of_nat (length fs).
Proof. intros Hg Hl. pose proof (clean_length_ge l fs Hg). unfold count. lia. Qed.

Lemma append_raw_succeeds s kind env body eid :
  in_u64 (writer_seq s) -> length eid = 16%nat -> Z.of_nat (length env) <= U32_MAX ->
  validate_deterministic_cbor_envelope env = Ok tt ->
  accepts_lengths (limits s) (Z.of_nat (length env)) (Z.of_nat (length body)) = true ->
  append_raw false s kind env body eid =
  Ok (len s, extended s (bytes s ++ image (raw_frame s kind env body eid))).
Proof.
  intros Hw Hid He Hv Ha. pose proof (raw_frame_good s kind env body eid Hw Hid He Hv Ha) as Hg.
  assert (Hu : as_u32 (Z.of_nat (length env)) = Z.of_nat (length env)).
  { unfold as_u32. apply Z.mod_small. unfold U32_MAX in He. lia. }
  pose proof (encode_frame_into_image (bytes s) _ _ _ (proj1 Hg)) as Himg.
  unfold append_raw. cbn [envelope_len body_len].
  unfold raw_frame in Himg at 1. cbn [fp_header] in Himg.
  change (fp_envelope (raw_frame _ _ _ _ _)) with env in Himg at 1.
  change (fp_body (raw_frame _ _ _ _ _)) with body in Himg at 1.
  rewrite Hu in *. rewrite Ha, Himg. done.
Qed.

(** The frame that [seal] appends. *)
Definition summary_frame (i : SegmentId) (s : t) : FrameParts :=
  raw_frame s SegmentSummary EMPTY_ENVELOPE
    (encode_summary_body i (Z.of_nat (length (bytes s)) + 169) (frame_count s + 1))
    (summary_event_id (segment_id i)).

Lemma summary_frame_size i s : wf_ids i ->
  frame_size (fp_envelope (summary_frame i s)) (fp_body (summary_frame i s)) = 169.
Proof.
  intros Hi. unfold frame_size, summary_frame. cbn [fp_envelope fp_body raw_frame].
  by rewrite summary_body_length.
Qed.

Lemma seal_ok i l c s fs :
  wf_ids i -> seg_inv i l c s fs -> base_offset s = 0 -> accepts_lengths l 1 48 = true ->
  good_frame l (summary_frame i s) /\
  seal false s = Ok {| s_ids := i; s_limits := l; s_bytes := clean (fs ++ [summary_frame i s]);
                       s_frame_count := count (fs ++ [summary_frame i s]); s_created_ns := c |}.
Proof.
  intros Hi Hinv Hb Ha. destruct (inv_shape _ _ _ _ _ Hinv) as (d & rest & Hfs & _).
  assert (Hw : in_u64 (writer_seq s)) by (rewrite (inv_seq _ _ _ _ _ Hinv); apply count_range).
  pose proof (inv_bytes _ _ _ _ _ Hinv) as Hbs. rewrite Hb, drop_0 in Hbs.
  assert (Hid : length (summary_event_id (segment_id i)) = 16%nat).
  { unfold summary_event_id. rewrite length_alter. apply Hi. }
  assert (Ha' : accepts_lengths (limits s) (Z.of_nat (length EMPTY_ENVELOPE)) (Z.of_nat (length
     (encode_summary_body i (Z.of_nat (length (bytes s)) + 169) (frame_count s + 1)))) = true).
  { rewrite summary_body_length, (inv_limits _ _ _ _ _ Hinv) by done. exact Ha. }
  pose proof (raw_frame_good s SegmentSummary EMPTY_ENVELOPE _ _ Hw Hid ltac:(done) eq_refl Ha') as Hg.
  rewrite (inv_limits _ _ _ _ _ Hinv) in Hg. split; [exact Hg|].
  unfold seal. rewrite (inv_open _ _ _ _ _ Hinv).
  assert ((frame_count s =? 0) = false) as ->.
  { rewrite (inv_count _ _ _ _ _ Hinv), Hfs. apply Z.eqb_neq. unfold count, U64_MAX. cbn [length]. lia. }
  rewrite Hb. cbn [Z.eqb negb]. change (checked_frame_len _ _) with (Some 169). cbv iota.
  rewrite (inv_ids _ _ _ _ _ Hinv), append_raw_succeeds by done.
  fold (summary_frame i s). cbn [extended ids limits bytes frame_count created_ns].
  rewrite clean_snoc, count_snoc, Hbs, (inv_ids _ _ _ _ _ Hinv), (inv_limits _ _ _ _ _ Hinv),
    (inv_count _ _ _ _ _ Hinv), (inv_created _ _ _ _ _ Hinv). done.
Qed.


Lemma steps_inv i l c s s2 fs : seg_inv i l c s fs -> rtc seg_step s s2 ->
  exists gs, seg_inv i l c s2 (fs ++ gs).
Proof.
  intros Hinv Hst. revert fs Hinv. induction Hst as [s|s s1 s2 (op & Hok & Hop) _ IH]; intros fs Hinv.
  - exists []. by rewrite app_nil_r.
  - destruct (apply_op_inv _ _ _ _ _ _ _ Hinv Hok Hop) as [(f & _ & H)|(n & _ & H)].
    + destruct (IH _ H) as [gs Hgs]. exists (f :: gs). by rewrite <- app_assoc in Hgs.
    + by apply IH.
Qed.

(** A locator stays valid: the offset that [append] returns is where the
    frame verifies, with the caller's kind, envelope, body and event id, after any
    further appends and write-through discards that have not dropped it. *)
Theorem locator_stays_valid i l c s k env body eid off s1 s2 :
  wf_ids i -> reachable i l c s -> op_ok s (OpAppend k env body eid) ->
  base_offset s + Z.of_nat (length (bytes s)) <= U64_MAX ->
  append false s k env body eid = Ok (off, s1) -> rtc seg_step s1 s2 ->
  base_offset s2 <= off ->
  exists h n, verify_frame_at (drop (Z.to_nat (off - base_offset s2)) (bytes s2)) l =
    Ok (h, env, body, blake3_hash body, n) /\
    known_kind h = Some k /\ event_id h = eid /\ writer_sequence h = writer_seq s.
Proof.
  intros Hi Hr Hok Hmax Happ Hst Hb2. destruct (reachable_inv _ _ _ _ Hi Hr) as [fs Hinv].
  assert (Hw : in_u64 (writer_seq s)) by (rewrite (inv_seq _ _ _ _ _ Hinv); apply count_range).
  pose proof (inv_base _ _ _ _ _ Hinv) as Hb. pose proof (inv_bytes _ _ _ _ _ Hinv) as Hbs.
  pose proof (inv_limits _ _ _ _ _ Hinv) as Hl. destruct Hok as [Hid He].
  unfold append in Happ. rewrite (inv_open _ _ _ _ _ Hinv) in Happ.
  destruct (lifecycle_kind (kind_as_u8 k)) eqn:Hk; [by destruct k|].
  assert (Hraw : append_raw false s k env body eid = Ok (off, s1)) by by destruct k.
  apply append_raw_Ok in Hraw as (Hg & -> & ->); [|done..]. rewrite Hl in Hg.
  set (f := raw_frame s k env body eid) in *.
  destruct (steps_inv _ _ _ _ _ _ (inv_extend _ _ _ _ _ _ Hinv Hg eq_refl Hk) Hst) as [gs H2].
  assert (Hoff : len s = Z.of_nat (length (clean fs))).
  { unfold len, sat_add. rewrite Hbs, length_drop in *. lia. }
  pose proof (inv_base _ _ _ _ _ H2). rewrite (inv_bytes _ _ _ _ _ H2), drop_drop.
  replace (_ + _)%nat with (length (clean fs)) by lia.
  unfold clean. rewrite <- app_assoc, map_app, concat_app, drop_app_length.
  rewrite map_app, concat_app. cbn [map concat]. rewrite app_nil_r.
  eexists _, _. split; [apply (image_verifies l f _ Hg)|]. cbn [f raw_frame fp_header].
  split; [by destruct k|]. done.
Qed.

Lemma encode_into_extends out h env body o :
  encode_frame_into false out h env body = Ok o -> exists x, o = out ++ x.
Proof.
  unfold encode_frame_into. rewrite append_body_hashed_spec. intros H. run H. injection H as <-.
  rewrite <- !app_assoc. by eexists.
Qed.

(** [s'] is [s] with more bytes behind its retained ones. *)
Definition grown (s s' : t) : Prop :=
  (exists x, bytes s' = bytes s ++ x) /\ ids s' = ids s /\ limits s' = limits s /\
  base_offset s' = base_offset s /\ created_ns s' = created_ns s.

Lemma grown_extended s x : grown s (extended s (bytes s ++ x)).
Proof. split; [by exists x|done]. Qed.

Lemma append_raw_grown s k env body eid off s' :
  append_raw false s k env body eid = Ok (off, s') -> grown s s'.
Proof.
  unfold append_raw. intros H. destruct (negb _); [done|].
  destruct (encode_frame_into _ _ _ _ _) as [o|] eqn:E; [|done].
  apply encode_into_extends in E as [x ->]. injection H as <- <-. apply grown_extended.
Qed.

Lemma apply_op_grown s op s' :
  (forall n, op <> OpDiscard n) -> apply_op s op = Ok s' -> grown s s'.
Proof.
  intros Hnd H. destruct op as [k e b id|p|fr|n]; cbn [apply_op] in H.
  - unfold append in H. destruct (sealed s); [done|].
    destruct (append_raw false s k e b id) as [[off s1]|] eqn:E.
    + destruct k; try done; injection H as <-; by eapply append_raw_grown.
    + by destruct k.
  - unfold append_parts in H. destruct (sealed s); [done|]. destruct (_ || _); [done|].
    destruct (encode_frame_into _ _ _ _ _) as [o|] eqn:E; [|done].
    apply encode_into_extends in E as [x ->]. injection H as <-. apply grown_extended.
  - unfold append_preencoded_frame in H. destruct (sealed s); [done|]. destruct fr; [done|].
    injection H as <-. apply grown_extended.
  - by destruct (Hnd n).
Qed.

Lemma run_ops_grown s ops s' :
  Forall (fun op => forall n, op <> OpDiscard n) ops -> run_ops s ops = Ok s' -> grown s s'.
Proof.
  intros Hnd. revert s. induction Hnd as [|op ops Hop _ IH]; intros s; cbn [run_ops].
  - intros [= ->]. split; [exists []; by rewrite app_nil_r|done].
  - destruct (apply_op s op) as [s1|] eqn:E; [|done]. intros H%IH.
    apply apply_op_grown in E; [|done]. destruct E as ([x Hx] & Hi & Hl & Hb & Hc).
    destruct H as ([y Hy] & Hi' & Hl' & Hb' & Hc').
    split; [exists (x ++ y); by rewrite Hy, Hx, app_assoc|]. split_and!; congruence.
Qed.

(** Checkpoints roll back exactly: after any successful appends, restoring
    the checkpoint taken before them gives back the very same state. *)
Theorem checkpoint_rolls_back s ops s' :
  Forall (fun op => forall n, op <> OpDiscard n) ops -> run_ops s ops = Ok s' ->
  restore_checkpoint s' (checkpoint s) = Ok s.
Proof.
  intros Hnd H. apply run_ops_grown in H as ([x Hx] & Hi & Hl & Hb & Hc); [|done].
  unfold restore_checkpoint, checkpoint.
  cbn [cp_base_offset cp_retained_len cp_writer_sequence cp_frame_count cp_sealed].
  rewrite Hb, Z.eqb_refl, Hx, take_app_length, Hi, Hl, Hc. cbn [negb].
  rewrite (proj2 (Nat.ltb_ge _ _)) by (rewrite length_app; lia). by destruct s.
Qed.

Lemma laid_out_frames p fs : length (omap region_frame (laid_out p fs)) = length fs.
Proof. revert p. induction fs as [|f fs IH]; intros p; cbn; [done|]. by rewrite IH. Qed.

(** Recovery of an unsealed segment: scanning the resident bytes of a
    reachable segment recovers its frame count and next sequence number, and
    resuming from them yields the state itself. *)
Theorem resume_recovers_state i l c s :
  wf_ids i -> reachable i l c s -> base_offset s = 0 ->
  Z.of_nat (length (bytes s)) <= U64_MAX ->
  let n := Z.of_nat (verified_count (scan_forward (bytes s) l)) in
  resume_unsealed i l (bytes s) n n c = Ok s.
Proof.
  intros Hi Hr Hb Hmax n. destruct (reachable_inv _ _ _ _ Hi Hr) as [fs Hinv].
  destruct Hinv. rewrite Hb, drop_0 in inv_bytes0.
  pose proof (count_exact l fs inv_good0 ltac:(congruence)) as Hcnt.
  assert (Hn : n = Z.of_nat (length fs)).
  { unfold n, verified_count, verified_frames.
    by rewrite inv_bytes0, scan_forward_clean_regions, laid_out_frames. }
  destruct inv_shape0 as (d & rest & Hfs & _). unfold resume_unsealed.
  destruct (bytes s) as [|b bs] eqn:Ebs.
  { pose proof (clean_length_ge l fs inv_good0) as Hge.
    rewrite <- inv_bytes0, Hfs in Hge. cbn [length] in Hge. lia. }
  rewrite (proj2 (Z.eqb_neq _ _)) by (rewrite Hn, Hfs; cbn [length]; lia).
  destruct s. cbn in *. subst. by rewrite Hn, Hcnt.
Qed.
End SegmentClaims.

(** ** Witnesses *)

Definition sample_ids : SegmentId :=
  {| store_id := map z2b (seqZ 100 16); segment_id := map z2b (seqZ 32 16) |}.
Definition ok_or {E A} (d : A) (r : result E A) : A :=
  match r with Ok a => a | Err _ => d end.
Definition blank_segment : t := {|
  ids := sample_ids; limits := draft_defaults; bytes := []; base_offset := 0; writer_seq := 0;
  frame_count := 0; sealed := false; created_ns := 7 |}.
Definition sample_op : SegOp := OpAppend ItemEvent EMPTY_ENVELOPE sample_body sample_event_id.
Definition sample_segment : t := ok_or blank_segment (create false sample_ids draft_defaults 7).
Definition sample_segment1 : t := ok_or blank_segment (apply_op sample_segment sample_op).

Lemma sample_wf_ids : wf_ids sample_ids.
Proof. by split. Qed.
Lemma sample_wf_limits : wf_limits draft_defaults.
Proof. split; vm_compute; by split. Qed.
Lemma sample_reachable : reachable sample_ids draft_defaults 7 sample_segment.
Proof. apply (reach_create _ _ _ EMPTY_ENVELOPE); vm_compute; done. Qed.
Lemma sample_op_ok : op_ok sample_segment sample_op.
Proof. vm_compute. done. Qed.
Lemma sample_applied : apply_op sample_segment sample_op = Ok sample_segment1.
Proof. vm_compute. reflexivity. Qed.
Lemma sample_reachable1 : reachable sample_ids draft_defaults 7 sample_segment1.
Proof. exact (reach_step _ _ _ _ _ _ sample_reachable sample_op_ok sample_applied). Qed.

Lemma sample_history : seg_history sample_ids draft_defaults 7 EMPTY_ENVELOPE [sample_op] sample_segment1.
Proof.
  apply (history_op _ _ _ _ [] sample_segment); [|exact sample_op_ok|exact sample_applied].
  apply history_create; vm_compute; done.
Qed.

Lemma locator_stays_valid_witness : exists h n,
  verify_frame_at (drop (Z.to_nat (181 - base_offset sample_segment1)) (bytes sample_segment1)) draft_defaults =
  Ok (h, EMPTY_ENVELOPE, sample_body, blake3_hash sample_body, n).
Proof.
  destruct (locator_stays_valid sample_ids draft_defaults 7 sample_segment ItemEvent
    EMPTY_ENVELOPE sample_body sample_event_id 181 sample_segment1 sample_segment1
    sample_wf_ids sample_reachable sample_op_ok ltac:(vm_compute; discriminate)
    ltac:(vm_compute; reflexivity) ltac:(constructor) ltac:(vm_compute; discriminate))
    as (h & n & H & _).
  exists h, n. exact H.
Defined.

Lemma checkpoint_rolls_back_witness :
  restore_checkpoint sample_segment1 (checkpoint sample_segment) = Ok sample_segment.
Proof.
  refine (checkpoint_rolls_back sample_segment [sample_op] sample_segment1 _ _).
  - constructor; [discriminate|constructor].
  - vm_compute. reflexivity.
Defined.

Lemma resume_recovers_state_witness :
  let n := Z.of_nat (verified_count (scan_forward (bytes sample_segment1) draft_defaults)) in
  n = 2 /\ resume_unsealed sample_ids draft_defaults (bytes sample_segment1) n n 7 = Ok sample_segment1.
Proof.
  split; [vm_compute; reflexivity|].
  exact (resume_recovers_state sample_ids draft_defaults 7 sample_segment1 sample_wf_ids
    sample_reachable1 ltac:(vm_compute; reflexivity) ltac:(vm_compute; discriminate)).
Defined.
