(* ===== verification/Chunks.v ===== *)
(** * Payload chunks

    Model of [crates/residiuum-format/src/chunks.rs].  The [BTreeMap<u32, Vec<_>>]
    of the reassembler is an association list kept in ascending key order. *)
From S2P Require Import Prelude Cbor Frame.

Record ChunkPiece := {
  item_id : list byte;
  index : Z;
  total : Z;
  cp_logical_len : Z;
  cp_body : list byte }.

Definition CHUNK_BODY_HEADER_LEN : nat := 16 + 4 + 4 + 8.

Definition encode_chunk_body (p : ChunkPiece) : list byte :=
  item_id p ++ le_bytes 4 (index p) ++ le_bytes 4 (total p) ++
  le_bytes 8 (cp_logical_len p) ++ cp_body p.

Definition decode_chunk_body (body : list byte) : option ChunkPiece :=
  if (length body <? CHUNK_BODY_HEADER_LEN)%nat then None
  else Some {|
    item_id := slice 0 16 body;
    index := le_val (slice 16 20 body);
    total := le_val (slice 20 24 body);
    cp_logical_len := le_val (slice 24 32 body);
    cp_body := drop 32 body |}.

Record LogicalExtent := {
  ext_index : Z;
  ext_start : Z;
  ext_end : Z;
  present : bool }.

Inductive ReassemblyState : Type :=
| Complete (body content_hash : list byte)
| Partial (extents : list LogicalExtent) (missing : list Z)
| Unavailable
| Conflicting (idx : Z) (body_hashes : list (list byte)).

(** [by_index.entry(k).or_default().push(p)]. *)
Fixpoint entry_push (k : Z) (p : ChunkPiece) (m : list (Z * list ChunkPiece))
  : list (Z * list ChunkPiece) :=
  match m with
  | [] => [(k, [p])]
  | (k', g) :: m' =>
      if k =? k' then (k', g ++ [p]) :: m'
      else if k <? k' then (k, [p]) :: m
      else (k', g) :: entry_push k p m'
  end.

(** [by_index.get(&k)]. *)
Fixpoint get (k : Z) (m : list (Z * list ChunkPiece)) : option (list ChunkPiece) :=
  match m with
  | [] => None
  | (k', g) :: m' => if k =? k' then Some g else get k m'
  end.

(** [hashes.sort(); hashes.dedup();]. *)
Fixpoint insert_sorted (x : list byte) (l : list (list byte)) : list (list byte) :=
  match l with
  | [] => [x]
  | y :: l' => if bytes_leb x y then x :: l else y :: insert_sorted x l'
  end.
Definition sort_bytes (l : list (list byte)) : list (list byte) := foldr insert_sorted [] l.
Fixpoint dedup (l : list (list byte)) : list (list byte) :=
  match l with
  | x :: ((y :: _) as l') => if bytes_eqb x y then dedup l' else x :: dedup l'
  | _ => l
  end.

Section Reassembly.
Context {I : IntegrityPrims}.

Definition inconsistent (t : Z) (id : list byte) (p : ChunkPiece) : bool :=
  negb (total p =? t) || negb (bytes_eqb (item_id p) id).

(** The grouping loop, which stops at the first index out of range. *)
Fixpoint group_pieces (t : Z) (pieces : list ChunkPiece) (m : list (Z * list ChunkPiece))
  : result ReassemblyState (list (Z * list ChunkPiece)) :=
  match pieces with
  | [] => Ok m
  | p :: ps =>
      if t <=? index p then Err (Conflicting (index p) [body_hash (cp_body p)])
      else group_pieces t ps (entry_push (index p) p m)
  end.

(** The scan of the groups for different contents at one index. *)
Fixpoint find_conflict (m : list (Z * list ChunkPiece)) : option ReassemblyState :=
  match m with
  | [] => None
  | (i, g) :: m' =>
      let hashes := map (fun p => body_hash (cp_body p)) g in
      match hashes with
      | [] => find_conflict m'
      | first :: _ =>
          if existsb (fun h => negb (bytes_eqb h first)) hashes
          then Some (Conflicting i (dedup (sort_bytes hashes)))
          else find_conflict m'
      end
  end.

Record Assembly := {
  extents_acc : list LogicalExtent;
  missing_acc : list Z;
  cursor : Z;
  body_acc : list byte }.

(** One turn of [for i in 0..total]. *)
Definition assemble_step (m : list (Z * list ChunkPiece)) (a : Assembly) (i : Z) : Assembly :=
  match get i m with
  | Some (p :: _) =>
      let e := sat_add (cursor a) (cp_logical_len p) in
      {| extents_acc := extents_acc a ++
           [{| ext_index := i; ext_start := cursor a; ext_end := e; present := true |}];
         missing_acc := missing_acc a; cursor := e; body_acc := body_acc a ++ cp_body p |}
  | _ =>
      {| extents_acc := extents_acc a ++
           [{| ext_index := i; ext_start := cursor a; ext_end := cursor a; present := false |}];
         missing_acc := missing_acc a ++ [i]; cursor := cursor a; body_acc := body_acc a |}
  end.

Definition assemble (m : list (Z * list ChunkPiece)) (t : Z) : Assembly :=
  fold_left (assemble_step m) (seqZ 0 t)
    {| extents_acc := []; missing_acc := []; cursor := 0; body_acc := [] |}.

Definition reassemble_chunks (pieces : list ChunkPiece)
    (expected_content_hash : option (list byte)) : ReassemblyState :=
  match pieces with
  | [] => Unavailable
  | p0 :: _ =>
      let t := total p0 in
      if t =? 0 then Unavailable
      else match List.find (inconsistent t (item_id p0)) pieces with
      | Some p => Conflicting (index p) (map (fun p => body_hash (cp_body p)) pieces)
      | None =>
      match group_pieces t pieces [] with
      | Err c => c
      | Ok by_index =>
      match find_conflict by_index with
      | Some c => c
      | None =>
      let a := assemble by_index t in
      match missing_acc a with
      | _ :: _ => Partial (extents_acc a) (missing_acc a)
      | [] =>
      let content_hash := body_hash (body_acc a) in
      match expected_content_hash with
      | Some expected =>
          if negb (bytes_eqb expected content_hash)
          then Conflicting 0 [content_hash; expected]
          else Complete (body_acc a) content_hash
      | None => Complete (body_acc a) content_hash
      end end end end end
  end.

End Reassembly.

(** * Correctness of chunk bodies and reassembly

    Theorems about [Chunks.v]: chunk bodies round trip, reassembly never
    fabricates bytes, and pieces of one split come back in any order. *)
From S2P Require Import CborFacts FrameFacts Scan ScanFacts Segment SegmentFacts.

(** ** The index of the reassembler *)

(** Keys ascend and no group is empty, as in a [BTreeMap] filled by pushes. *)
Fixpoint index_above (lo : Z) (m : list (Z * list ChunkPiece)) : Prop :=
  match m with
  | [] => True
  | (k, g) :: m' => lo < k /\ g <> [] /\ index_above k m'
  end.

Definition group (k : Z) (m : list (Z * list ChunkPiece)) : list ChunkPiece :=
  match get k m with Some g => g | None => [] end.

Lemma index_above_weaken lo lo' m : lo' <= lo -> index_above lo m -> index_above lo' m.
Proof. destruct m as [|[k g] m]; cbn; [done|]. intros ? (? & ? & ?). split; [lia|done]. Qed.

Lemma get_below lo k m : index_above lo m -> k <= lo -> get k m = None.
Proof.
  revert lo. induction m as [|[k' g] m IH]; intros lo; cbn; [done|].
  intros (Hlo & _ & Hm) Hk. rewrite (proj2 (Z.eqb_neq _ _)) by lia. apply (IH k'); [done|lia].
Qed.

Lemma entry_push_above lo k p m :
  lo < k -> index_above lo m -> index_above lo (entry_push k p m).
Proof.
  revert lo. induction m as [|[k' g] m IH]; intros lo Hlo; cbn; [by intros _|].
  intros (Hk' & Hg & Hm). destruct (Z.eqb_spec k k'); [|destruct (Z.ltb_spec k k')]; cbn.
  - split; [done|]. split; [by destruct g|done].
  - done.
  - split; [done|]. split; [done|]. apply IH; [lia|done].
Qed.

Lemma group_entry_push lo k k' p m : index_above lo m ->
  group k (entry_push k' p m) = group k m ++ (if k =? k' then [p] else []).
Proof.
  unfold group. revert lo. induction m as [|[j g] m IH]; intros lo; cbn [entry_push get].
  - intros _. destruct (Z.eqb_spec k k'); by rewrite ?app_nil_r.
  - intros (Hlo & Hg & Hm). destruct (Z.eqb_spec k' j) as [->|Hne]; [|destruct (Z.ltb_spec k' j)];
      cbn [get].
    + destruct (Z.eqb_spec k j); by rewrite ?app_nil_r.
    + destruct (Z.eqb_spec k k') as [->|].
      * rewrite (proj2 (Z.eqb_neq k' j)) by lia. by rewrite (get_below j) by (done || lia).
      * destruct (k =? j); by rewrite app_nil_r.
    + destruct (Z.eqb_spec k j) as [->|].
      * rewrite (proj2 (Z.eqb_neq j k')) by lia. by rewrite app_nil_r.
      * by apply (IH j).
Qed.

Lemma get_group lo k m : index_above lo m ->
  get k m = match group k m with [] => None | g => Some g end.
Proof.
  unfold group. revert lo. induction m as [|[j g] m IH]; intros lo; cbn; [done|].
  intros (_ & Hg & Hm). destruct (k =? j); [by destruct g|]. by apply (IH j).
Qed.

Lemma get_In lo k g m : index_above lo m -> get k m = Some g <-> (k, g) ∈ m.
Proof.
  revert lo. induction m as [|[j h] m IH]; intros lo; cbn.
  - split; [done|]. by intros Hx%elem_of_nil.
  - intros (_ & _ & Hm). rewrite elem_of_cons. destruct (Z.eqb_spec k j) as [->|Hne].
    + split; [intros [= ->]; by left|]. intros [[= ->]|Hin]; [done|].
      apply (IH j Hm) in Hin. by rewrite (get_below j) in Hin by (done || lia).
    + rewrite (IH j Hm). split; [by right|]. by intros [[= -> ->]|].
Qed.

Section Reassembly.
Context {I : IntegrityPrims}.

Definition at_index (k : Z) (p : ChunkPiece) : bool := k =? index p.

Lemma group_pieces_spec t ps m m' : index_above (-1) m ->
  Forall (fun p => 0 <= index p) ps -> group_pieces t ps m = Ok m' ->
  index_above (-1) m' /\ Forall (fun p => index p < t) ps /\
  forall k, group k m' = group k m ++ List.filter (at_index k) ps.
Proof.
  intros Hm Hps. revert m Hm. induction Hps as [|p ps Hp _ IH]; intros m Hm; cbn.
  - intros [= <-]. split; [done|]. split; [constructor|]. intros k. by rewrite app_nil_r.
  - destruct (Z.leb_spec t (index p)); [done|]. intros H'.
    destruct (IH _ (entry_push_above (-1) (index p) p m ltac:(lia) Hm) H') as (H1 & H2 & H3).
    split; [done|]. split; [by constructor|]. intros k.
    rewrite H3, (group_entry_push (-1)), <- app_assoc by done. unfold at_index at 2.
    by destruct (k =? index p).
Qed.

Lemma group_pieces_ok t ps m : Forall (fun p => index p < t) ps ->
  exists m', group_pieces t ps m = Ok m'.
Proof.
  intros Hps. revert m. induction Hps as [|p ps Hp _ IH]; intros m; cbn; [by eexists|].
  by rewrite (proj2 (Z.leb_gt _ _)).
Qed.

(** The early exits are conflicts. *)
Lemma group_pieces_err t ps m b h : group_pieces t ps m <> Err (Complete b h).
Proof.
  revert m. induction ps as [|p ps IH]; intros m; cbn; [done|]. by destruct (_ <=? _).
Qed.
Lemma find_conflict_shape m b h : find_conflict m <> Some (Complete b h).
Proof.
  induction m as [|[k g] m IH]; cbn; [done|]. destruct g; [done|]. cbn. by destruct (_ || _).
Qed.

(** All the pieces of a group carry the digest of its first piece. *)
Definition agree (g : list ChunkPiece) : Prop :=
  forall p q, head g = Some q -> p ∈ g -> body_hash (cp_body p) = body_hash (cp_body q).

Lemma find_conflict_None m : find_conflict m = None <-> forall k g, (k, g) ∈ m -> agree g.
Proof.
  induction m as [|[k g] m IH]; cbn.
  { split; [|done]. intros _ k g Hx%elem_of_nil. done. }
  destruct g as [|q g]; cbn.
  { rewrite IH. split; intros H k' g'.
    - intros [[= -> ->]|Hin]%elem_of_cons; [by intros p q|by apply (H k')].
    - intros Hin. apply (H k'), elem_of_cons. by right. }
  destruct (negb _ || _) eqn:E.
  - split; [done|]. intros H. exfalso. specialize (H k (q :: g) ltac:(apply elem_of_cons; by left)).
    apply orb_true_iff in E as [E|E].
    + unfold bytes_eqb in E. by rewrite bool_decide_eq_true_2 in E.
    + apply existsb_exists in E as (h & Hin & Hh). apply in_map_iff in Hin as (p & <- & Hp).
      unfold bytes_eqb in Hh. rewrite bool_decide_eq_true_2 in Hh; [done|].
      apply (H p q); [done|]. apply elem_of_cons. right. by apply list_elem_of_In.
  - rewrite IH. apply orb_false_iff in E as [_ E]. split; intros H k' g'.
    + intros [[= -> ->]|Hin]%elem_of_cons; [|by apply (H k')].
      intros p q' [= <-] Hp. apply elem_of_cons in Hp as [->|Hp]; [done|].
      destruct (bytes_eqb (body_hash (cp_body p)) (body_hash (cp_body q))) eqn:Eb.
      * unfold bytes_eqb in Eb. by apply bool_decide_eq_true in Eb.
      * exfalso. rewrite <- not_true_iff_false in E. apply E, existsb_exists.
        exists (body_hash (cp_body p)). rewrite Eb. split; [|done].
        apply (in_map (fun p => body_hash (cp_body p))). by apply list_elem_of_In.
    + intros Hin. apply (H k'), elem_of_cons. by right.
Qed.

(** ** The assembly loop *)

Definition absent (m : list (Z * list ChunkPiece)) (i : Z) : bool :=
  match group i m with [] => true | _ => false end.
Definition first_body (m : list (Z * list ChunkPiece)) (i : Z) : list byte :=
  match group i m with p :: _ => cp_body p | [] => [] end.

Lemma assemble_fold m l a :
  let a' := fold_left (assemble_step m) l a in
  missing_acc a' = missing_acc a ++ List.filter (absent m) l /\
  body_acc a' = body_acc a ++ concat (map (first_body m) l) /\
  map (fun x => (ext_index x, present x)) (extents_acc a') =
  map (fun x => (ext_index x, present x)) (extents_acc a) ++
    map (fun i => (i, negb (absent m i))) l.
Proof.
  revert a. induction l as [|i l IH]; intros a; cbn [fold_left List.filter map concat].
  { by rewrite !app_nil_r. }
  destruct (IH (assemble_step m a i)) as (-> & -> & ->).
  unfold assemble_step, first_body, absent, group.
  destruct (get i m) as [[|p g]|]; cbn; rewrite ?map_app; cbn; rewrite <- ?app_assoc; done.
Qed.

Lemma assemble_spec m t :
  missing_acc (assemble m t) = List.filter (absent m) (seqZ 0 t) /\
  body_acc (assemble m t) = concat (map (first_body m) (seqZ 0 t)) /\
  map (fun x => (ext_index x, present x)) (extents_acc (assemble m t)) =
    map (fun i => (i, negb (absent m i))) (seqZ 0 t).
Proof. apply (assemble_fold m (seqZ 0 t)). Qed.

Record piece_wf (p : ChunkPiece) : Prop := {
  wf_item_id : length (item_id p) = 16%nat;
  wf_index : in_u32 (index p);
  wf_total : in_u32 (total p);
  wf_logical : in_u64 (cp_logical_len p) }.

(** The pieces of one item: same identity and total, indices in range. *)
Definition same_item (id : list byte) (t : Z) (pieces : list ChunkPiece) : Prop :=
  Forall (fun p => item_id p = id /\ total p = t /\ 0 <= index p < t) pieces.

Lemma consistent_find t id pieces :
  List.find (inconsistent t id) pieces = None <->
  Forall (fun p => item_id p = id /\ total p = t) pieces.
Proof.
  induction pieces as [|p ps IH]; cbn; [split; [constructor|done]|].
  rewrite Forall_cons, <- IH. unfold inconsistent at 1, bytes_eqb.
  destruct (Z.eqb_spec (total p) t), (bool_decide_reflect (item_id p = id)); cbn;
    split; intros H; try done; naive_solver.
Qed.

(** The index built from the pieces of one item holds exactly these pieces. *)
Lemma index_spec id t pieces : same_item id t pieces ->
  exists m, group_pieces t pieces [] = Ok m /\ index_above (-1) m /\
    forall k, group k m = List.filter (at_index k) pieces.
Proof.
  intros H. destruct (group_pieces_ok t pieces []) as [m Hm].
  { eapply Forall_impl; [exact H|]. cbn. intros; lia. }
  exists m. split; [done|].
  destruct (group_pieces_spec t pieces [] m) as (H1 & _ & H3); [done| |done|by split].
  eapply Forall_impl; [exact H|]. cbn. intros; lia.
Qed.

Lemma filter_at_index k pieces p :
  p ∈ List.filter (at_index k) pieces <-> p ∈ pieces /\ index p = k.
Proof.
  rewrite !list_elem_of_In, filter_In. unfold at_index. rewrite Z.eqb_eq. naive_solver.
Qed.

Lemma absent_spec m pieces k : (forall k, group k m = List.filter (at_index k) pieces) ->
  absent m k = true <-> forall p, p ∈ pieces -> index p <> k.
Proof.
  intros Hm. unfold absent. rewrite Hm. pose proof (filter_at_index k pieces) as Hf.
  destruct (List.filter (at_index k) pieces) as [|q g].
  - split; [|done]. intros _ p Hp Hi. apply (proj1 (elem_of_nil p)). by apply Hf.
  - split; [done|]. intros H. destruct (Hf q) as [Hq _].
    destruct Hq as [Hq Hi]; [apply elem_of_cons; by left|]. by destruct (H q Hq).
Qed.

End Reassembly.

(** ** Claims *)

(** Chunk bodies round trip, and decoding loses nothing: whatever decodes
    re-encodes to the same bytes. *)
Theorem chunk_body_roundtrip p :
  piece_wf p ->
  decode_chunk_body (encode_chunk_body p) = Some p /\
  forall body q, decode_chunk_body body = Some q -> encode_chunk_body q = body.
Proof.
  intros [H1 H2 H3 H4]. split.
  - unfold decode_chunk_body. unfold encode_chunk_body at 1, CHUNK_BODY_HEADER_LEN.
    rewrite !length_app, !length_le_bytes, H1, (proj2 (Nat.ltb_ge _ _)) by lia.
    unfold encode_chunk_body. cut_fields.
    rewrite le8_val, !le4_val by done. rewrite !app_assoc, drop_app_length'
      by by rewrite !length_app, !length_le_bytes, H1. by destruct p.
  - unfold decode_chunk_body. change CHUNK_BODY_HEADER_LEN with 32%nat. intros body q H.
    destruct (Nat.ltb_spec (length body) 32) as [|Hl]; [done|].
    injection H as <-. unfold encode_chunk_body. cbn [item_id index total cp_logical_len cp_body].
    rewrite !le_bytes_val_len by (rewrite length_slice; lia).
    rewrite !app_assoc, !slice_cat by lia. unfold slice. rewrite drop_0, Nat.sub_0_r. apply take_drop.
Qed.

(** What the run of the reassembler establishes before it answers [Complete]. *)
Lemma complete_inv {I : IntegrityPrims} pieces e body h :
  Forall piece_wf pieces -> reassemble_chunks pieces e = Complete body h ->
  exists p0 m, p0 ∈ pieces /\
    Forall (fun p => item_id p = item_id p0 /\ total p = total p0 /\ 0 <= index p < total p0) pieces /\
    (forall k, group k m = List.filter (at_index k) pieces) /\
    (forall k, agree (group k m)) /\
    (forall i, 0 <= i < total p0 -> exists q g, group i m = q :: g) /\
    body = concat (map (first_body m) (seqZ 0 (total p0))) /\ h = body_hash body /\
    (forall x, e = Some x -> x = h).
Proof.
  intros Hwf. unfold reassemble_chunks. destruct pieces as [|p0 ps]; [done|].
  set (pieces := p0 :: ps) in *. destruct (Z.eqb_spec (total p0) 0) as [|Ht]; [done|].
  destruct (List.find _ pieces) eqn:Hfind; [done|]. apply consistent_find in Hfind.
  destruct (group_pieces (total p0) pieces []) as [m|c] eqn:Hgrp;
    [|intros ->; by apply group_pieces_err in Hgrp].
  assert (Hpos : Forall (fun p => 0 <= index p) pieces).
  { eapply Forall_impl; [exact Hwf|]. intros p [_ [Hp _] _ _]. exact Hp. }
  destruct (group_pieces_spec (total p0) pieces [] m) as (Habove & Hlt & Hgroup); [done..|].
  destruct (find_conflict m) eqn:Hc; [intros ->; by apply find_conflict_shape in Hc|].
  rewrite find_conflict_None in Hc.
  destruct (assemble_spec m (total p0)) as (Hmiss & Hbody & _). rewrite Hmiss, Hbody.
  destruct (List.filter (absent m) (seqZ 0 (total p0))) eqn:Hnone; [|done].
  intros H. exists p0, m. split; [apply elem_of_cons; by left|].
  split; [rewrite Forall_forall in *; naive_solver|]. split; [done|]. split; [|split].
  - intros k. pose proof (get_group (-1) k m Habove) as Hk. destruct (group k m) eqn:Eg; [done|].
    apply (Hc k). by apply (get_In (-1)).
  - intros i Hi. destruct (group i m) as [|q g] eqn:Eg; [|by exists q, g].
    assert (In i []) as []. rewrite <- Hnone. apply filter_In.
    split; [apply list_elem_of_In, elem_of_seqZ; lia|]. unfold absent. by rewrite Eg.
  - destruct e as [x|]; [|injection H as <- <-; by repeat split].
    destruct (negb (bytes_eqb x _)) eqn:Ex; [done|]. apply negb_false_iff, bool_decide_eq_true in Ex.
    injection H as <- <-. repeat split. intros y [= <-]. exact Ex.
Qed.

(** C8. Reassembly never fabricates bytes: a complete body is the concatenation
    of one supplied piece per index, in index order and with none missing; every
    supplied piece has the digest of the one used at its index; and the reported
    hash is that of the body and equals the expected one when it was given. *)
Theorem complete_never_fabricates {I : IntegrityPrims} pieces e body h :
  Forall piece_wf pieces -> reassemble_chunks pieces e = Complete body h ->
  h = body_hash body /\ (forall x, e = Some x -> x = h) /\
  exists chosen, body = concat (map cp_body chosen) /\
    (forall j q, chosen !! j = Some q -> q ∈ pieces /\ index q = Z.of_nat j) /\
    (forall p, p ∈ pieces -> total p = Z.of_nat (length chosen) /\
       exists q, chosen !! Z.to_nat (index p) = Some q /\ item_id q = item_id p /\
         body_hash (cp_body q) = body_hash (cp_body p)).
Proof.
  intros Hwf Hc. destruct (complete_inv _ _ _ _ Hwf Hc)
    as (p0 & m & Hp0 & Hsame & Hgroup & Hagree & Hall & Hbody & Hh & Hx).
  split; [done|]. split; [done|]. rewrite Forall_forall in Hsame.
  assert (Hin : forall i q g, group i m = q :: g -> q ∈ pieces /\ index q = i).
  { intros i q g Eg. apply filter_at_index. rewrite <- Hgroup, Eg. apply elem_of_cons. by left. }
  exists (map (fun i => default p0 (head (group i m))) (seqZ 0 (total p0))). split; [|split].
  - rewrite Hbody, map_map. f_equal. apply map_ext_in. intros i Hi.
    apply list_elem_of_In, elem_of_seqZ in Hi. destruct (Hall i ltac:(lia)) as (q & g & Eg).
    unfold first_body. by rewrite Eg.
  - intros j q Hj. apply list_lookup_fmap_Some in Hj as (i & -> & Hi).
    apply lookup_seqZ in Hi as [-> Hi]. destruct (Hall (0 + Z.of_nat j) ltac:(lia)) as (q & g & Eg).
    rewrite Eg. apply (Hin _ _ g). exact Eg.
  - intros p Hp. destruct (Hsame p Hp) as (Hid & Htp & Hi). rewrite length_map, length_seqZ.
    split; [lia|]. destruct (Hall (index p) Hi) as (q & g & Eg). exists q. split; [|split].
    + apply list_lookup_fmap_Some. exists (index p). rewrite Eg. split; [done|].
      apply lookup_seqZ. lia.
    + destruct (Hsame q (proj1 (Hin _ _ _ Eg))) as [-> _]. done.
    + symmetry. apply (Hagree (index p)); [by rewrite Eg|]. rewrite Hgroup. by apply filter_at_index.
Qed.

Lemma reassemble_same_item {I : IntegrityPrims} id t pieces m e :
  pieces <> [] -> same_item id t pieces -> group_pieces t pieces [] = Ok m ->
  find_conflict m = None ->
  reassemble_chunks pieces (Some e) =
  match missing_acc (assemble m t) with
  | _ :: _ => Partial (extents_acc (assemble m t)) (missing_acc (assemble m t))
  | [] => if negb (bytes_eqb e (body_hash (body_acc (assemble m t))))
          then Conflicting 0 [body_hash (body_acc (assemble m t)); e]
          else Complete (body_acc (assemble m t)) (body_hash (body_acc (assemble m t)))
  end.
Proof.
  intros Hne Hs Hg Hc. unfold reassemble_chunks. destruct pieces as [|p0 ps]; [done|].
  apply Forall_cons in Hs as H0. destruct H0 as [(Hid & Ht & Hi) _].
  rewrite Ht, (proj2 (Z.eqb_neq t 0)) by lia.
  rewrite (proj2 (consistent_find t (item_id p0) (p0 :: ps))), Hg, Hc; [done|].
  eapply Forall_impl; [exact Hs|]. cbn. intros p (H1 & H2 & _). split; congruence.
Qed.

(** The groups of pieces that come from one split. *)
Definition groups_from (bodies : list (list byte)) (m : list (Z * list ChunkPiece)) : Prop :=
  forall i p, p ∈ group i m -> bodies !! Z.to_nat i = Some (cp_body p).

Lemma groups_agree {I : IntegrityPrims} bodies m :
  index_above (-1) m -> groups_from bodies m -> find_conflict m = None.
Proof.
  intros Habove Hbody. apply find_conflict_None. intros k g Hg p q Hq Hp.
  apply (get_In (-1)) in Hg; [|done].
  assert (group k m = g) as <- by (unfold group; by rewrite Hg).
  pose proof (Hbody k p Hp) as Hb1.
  assert (Hb2 : bodies !! Z.to_nat k = Some (cp_body q)).
  { apply Hbody. destruct (group k m); [done|]. injection Hq as ->. apply elem_of_cons. by left. }
  congruence.
Qed.

Lemma first_bodies_whole bodies m :
  groups_from bodies m ->
  List.filter (absent m) (seqZ 0 (Z.of_nat (length bodies))) = [] ->
  map (first_body m) (seqZ 0 (Z.of_nat (length bodies))) = bodies.
Proof.
  intros Hbody Hmiss. apply list_eq. intros j.
  destruct (bodies !! j) as [b|] eqn:Ej.
  - assert (Hj : (j < length bodies)%nat) by (by apply lookup_lt_Some in Ej).
    apply list_lookup_fmap_Some. exists (Z.of_nat j). split; [|apply lookup_seqZ; lia].
    unfold first_body. destruct (group (Z.of_nat j) m) as [|q g] eqn:Eg.
    + assert (In (Z.of_nat j) []) as []. rewrite <- Hmiss. apply filter_In.
      split; [apply list_elem_of_In, elem_of_seqZ; lia|]. unfold absent. by rewrite Eg.
    + pose proof (Hbody (Z.of_nat j) q) as Hb. rewrite Eg, Nat2Z.id in Hb.
      specialize (Hb ltac:(apply elem_of_cons; by left)). congruence.
  - apply lookup_ge_None in Ej. apply lookup_ge_None. rewrite length_map, length_seqZ. lia.
Qed.

(** The pieces of one split reassemble in any order and with repetitions:
    if every index is present the result is the whole body; otherwise it is
    partial, names exactly the missing indices, and lists one extent per index. *)
Theorem split_reassembles {I : IntegrityPrims} id bodies pieces :
  pieces <> [] ->
  Forall (fun p => item_id p = id /\ total p = Z.of_nat (length bodies) /\ 0 <= index p /\
                   bodies !! Z.to_nat (index p) = Some (cp_body p)) pieces ->
  let n := Z.of_nat (length bodies) in
  let missing := List.filter (fun i => forallb (fun p => negb (i =? index p)) pieces) (seqZ 0 n) in
  let whole := concat bodies in
  (missing = [] ->
   reassemble_chunks pieces (Some (body_hash whole)) = Complete whole (body_hash whole)) /\
  (missing <> [] -> exists extents,
   reassemble_chunks pieces (Some (body_hash whole)) = Partial extents missing /\
   map ext_index extents = seqZ 0 n /\
   forall x, x ∈ extents -> present x = true <-> ~ ext_index x ∈ missing).
Proof.
  intros Hne Hps n missing whole.
  assert (Hsame : same_item id n pieces).
  { eapply Forall_impl; [exact Hps|]. cbn. intros p (H1 & H2 & H3 & H4).
    apply lookup_lt_Some in H4. unfold n. repeat split; try done; lia. }
  destruct (index_spec _ _ _ Hsame) as (m & Hm & Habove & Hgroup).
  assert (Hmiss : List.filter (absent m) (seqZ 0 n) = missing).
  { apply filter_ext. intros i. apply eq_iff_eq_true.
    rewrite (absent_spec m pieces i Hgroup), forallb_forall. setoid_rewrite <- list_elem_of_In.
    apply forall_proper. intros p. rewrite negb_true_iff, Z.eqb_neq.
    split; intros Hx Hy; specialize (Hx Hy); congruence. }
  rewrite Forall_forall in Hps.
  assert (Hbody : groups_from bodies m).
  { intros i p Hp. rewrite Hgroup in Hp. apply filter_at_index in Hp as [Hp <-]. by apply Hps. }
  pose proof (groups_agree bodies m Habove Hbody) as Hconf.
  destruct (assemble_spec m n) as (Hm1 & Hm2 & Hm3). rewrite Hmiss in Hm1.
  rewrite (reassemble_same_item id n pieces m) by done. rewrite Hm1. split; intros Hmz.
  - assert (Hw : body_acc (assemble m n) = whole).
    { rewrite Hm2. unfold whole. f_equal. apply first_bodies_whole; [done|]. by rewrite <- Hmz. }
    rewrite Hmz, Hw. unfold bytes_eqb. by rewrite bool_decide_eq_true_2.
  - eexists. split; [by destruct missing|]. split.
    + apply (f_equal (map fst)) in Hm3. rewrite !map_map in Hm3. cbn in Hm3. by rewrite map_id in Hm3.
    + intros x Hx. assert (Hpair : (ext_index x, present x) ∈ map (fun i => (i, negb (absent m i))) (seqZ 0 n)).
      { rewrite <- Hm3. by apply (list_elem_of_fmap_2 (fun x => (ext_index x, present x))). }
      apply list_elem_of_fmap in Hpair as (i & [= -> ->] & Hi). rewrite <- Hmiss.
      rewrite !list_elem_of_In, filter_In, <- list_elem_of_In. destruct (absent m i); naive_solver.
Qed.

(** ** Witnesses: two pieces, out of order and one repeated *)

Definition sample_piece (i : Z) (b : list byte) : ChunkPiece := {|
  item_id := sample_event_id; index := i; total := 2;
  cp_logical_len := Z.of_nat (length b); cp_body := b |}.
Definition sample_pieces : list ChunkPiece :=
  [sample_piece 1 sample_body; sample_piece 0 [Byte.x01]; sample_piece 1 sample_body].

Lemma chunk_body_roundtrip_witness :
  decode_chunk_body (encode_chunk_body (sample_piece 1 sample_body)) = Some (sample_piece 1 sample_body).
Proof.
  apply (chunk_body_roundtrip (sample_piece 1 sample_body)).
  constructor; [reflexivity|vm_compute; by split..].
Defined.

Lemma complete_never_fabricates_witness : exists chosen,
  Byte.x01 :: sample_body = concat (map cp_body chosen).
Proof.
  assert (Hwf : Forall piece_wf sample_pieces).
  { repeat apply Forall_cons_2; try apply Forall_nil_2; (constructor; [reflexivity|vm_compute; by split..]). }
  assert (Hc : reassemble_chunks sample_pieces None =
    Complete (Byte.x01 :: sample_body) (body_hash (Byte.x01 :: sample_body)))
    by (vm_compute; reflexivity).
  destruct (complete_never_fabricates _ _ _ _ Hwf Hc) as (_ & _ & chosen & H & _).
  exists chosen. exact H.
Defined.

Lemma split_reassembles_witness :
  let whole := concat [[Byte.x01]; sample_body] in
  reassemble_chunks sample_pieces (Some (body_hash whole)) = Complete whole (body_hash whole).
Proof.
  apply (split_reassembles sample_event_id [[Byte.x01]; sample_body] sample_pieces);
    [discriminate| |vm_compute; reflexivity].
  repeat apply Forall_cons_2; try apply Forall_nil_2; by repeat split.
Defined.
