(* ===== verification/Raft.v ===== *)
(** * Per-partition consensus

    Model of [crates/residiuum-cluster/src/raft.rs] (and the snapshot installer of
    [raft_rpc.rs]).  [NodeId], [Term], indices and positions are [Z]; the
    [HashMap]s keyed by node index are [gmap Z _]; a method on [&mut self] returns
    the new group next to its result.  Durable peer stores are outside the model:
    the only thing the protocol sees of them is whether [save_peer] succeeds,
    which is the argument [save] of every operation that flushes.  Terms and
    indices are far below [u64::MAX], so the [+ 1]s of the source do not wrap. *)
From S2P Require Import Prelude.

Abbreviation NodeId := Z.
Abbreviation Term := Z.

Inductive LogCommand : Type :=
| Put (subject : string) (value : list byte)
| Delete (subject : string).

Definition subject_of (c : LogCommand) : string :=
  match c with Put s _ => s | Delete s => s end.

Definition SNAPSHOT_BASE : string := "__residiuum_snapshot_base__".

Record LogEntry := { e_term : Term; e_index : Z; e_command : LogCommand }.

Inductive RaftRole : Type := Follower | Candidate | Leader.

#[global] Instance RaftRole_eq_dec : EqDecision RaftRole.
Proof. solve_decision. Defined.

Record RaftPeer := {
  node_id : NodeId;
  current_term : Term;
  voted_for : option NodeId;
  role : RaftRole;
  log : list LogEntry;
  commit_index : Z;
  last_applied : Z;
  next_index : gmap Z Z;
  match_index : gmap Z Z }.

(** ** Field updates *)

Definition set_hard (p : RaftPeer) (t : Term) (v : option NodeId) : RaftPeer := {|
  node_id := node_id p; current_term := t; voted_for := v; role := role p; log := log p;
  commit_index := commit_index p; last_applied := last_applied p;
  next_index := next_index p; match_index := match_index p |}.
Definition set_role (p : RaftPeer) (r : RaftRole) : RaftPeer := {|
  node_id := node_id p; current_term := current_term p; voted_for := voted_for p; role := r;
  log := log p; commit_index := commit_index p; last_applied := last_applied p;
  next_index := next_index p; match_index := match_index p |}.
Definition set_log (p : RaftPeer) (l : list LogEntry) : RaftPeer := {|
  node_id := node_id p; current_term := current_term p; voted_for := voted_for p;
  role := role p; log := l; commit_index := commit_index p; last_applied := last_applied p;
  next_index := next_index p; match_index := match_index p |}.
Definition set_frontiers (p : RaftPeer) (commit applied : Z) : RaftPeer := {|
  node_id := node_id p; current_term := current_term p; voted_for := voted_for p;
  role := role p; log := log p; commit_index := commit; last_applied := applied;
  next_index := next_index p; match_index := match_index p |}.
Definition set_indices (p : RaftPeer) (next mtch : gmap Z Z) : RaftPeer := {|
  node_id := node_id p; current_term := current_term p; voted_for := voted_for p;
  role := role p; log := log p; commit_index := commit_index p; last_applied := last_applied p;
  next_index := next; match_index := mtch |}.

(** ** RaftPeer *)

Definition peer_new (n : NodeId) : RaftPeer := {|
  node_id := n; current_term := 0; voted_for := None; role := Follower; log := [];
  commit_index := 0; last_applied := 0; next_index := ∅; match_index := ∅ |}.

Definition log_last_index (l : list LogEntry) : Z :=
  match last l with Some e => e_index e | None => 0 end.
Definition last_log_index (p : RaftPeer) : Z := log_last_index (log p).
Definition last_log_term (p : RaftPeer) : Term :=
  match last (log p) with Some e => e_term e | None => 0 end.

Definition log_entry_at (l : list LogEntry) (index : Z) : option LogEntry :=
  if index =? 0 then None else l !! Z.to_nat (index - 1).
Definition entry_at (p : RaftPeer) (index : Z) : option LogEntry := log_entry_at (log p) index.
Definition term_at (p : RaftPeer) (index : Z) : option Term :=
  if index =? 0 then Some 0 else e_term <$> log p !! Z.to_nat (index - 1).

Definition log_at_least_as_up_to_date (p : RaftPeer) (cand_last_term : Term)
    (cand_last_index : Z) : bool :=
  if negb (cand_last_term =? last_log_term p) then last_log_term p <=? cand_last_term
  else last_log_index p <=? cand_last_index.

Definition become_follower (p : RaftPeer) (t : Term) : RaftPeer :=
  set_indices (set_role (set_hard p t None) Follower) ∅ ∅.

Definition become_leader (p : RaftPeer) (voters : list NodeId) : RaftPeer :=
  let p := set_role p Leader in
  let next := last_log_index p + 1 in
  let ni := fold_left (fun m v => <[v := next]> m) voters ∅ in
  let mi := fold_left (fun m v => <[v := 0]> m) voters ∅ in
  set_indices p (<[node_id p := last_log_index p + 1]> ni) (<[node_id p := last_log_index p]> mi).

Record VoteResult := { vr_term : Term; vote_granted : bool }.
Record AppendResult := { ar_term : Term; ar_success : bool; conflict_index : option Z }.
Record CommitEvidence := {
  ev_partition : Z; ev_term : Term; ev_position : Z; ev_acked_by : list NodeId;
  ev_committed : bool }.

Inductive ElectError : Type :=
| NotAVoter | CandidateOffline | NoOnlineVoters
| NoQuorum (votes need : Z) | HigherTerm (t : Term) | ElectPersistFailed.

Inductive ProposeError : Type :=
| NotLeader | SteppedDown (t : Term) | ProposePersistFailed.

Record ProposeResult := {
  pr_entry : LogEntry; pr_term : Term; pr_position : Z; replica_acks : Z;
  pr_acked_by : list NodeId; pr_committed : bool; pr_commit_index : Z }.

Inductive RaftMetaError : Type := CorruptMeta (what : string) | StoreFailed.

(** ** PartitionRaft *)

Record PartitionRaft := {
  partition : Z;
  voters : list NodeId;
  placement_epoch : Z;
  joint : bool;
  outgoing : list NodeId;
  incoming : list NodeId;
  peers : gmap Z RaftPeer;
  stores : gset Z }.

Definition with_peers (g : PartitionRaft) (ps : gmap Z RaftPeer) : PartitionRaft := {|
  partition := partition g; voters := voters g; placement_epoch := placement_epoch g;
  joint := joint g; outgoing := outgoing g; incoming := incoming g; peers := ps;
  stores := stores g |}.

(** [if let Some(p) = self.peers.get_mut(&n) { .. }]. *)
Definition upd (g : PartitionRaft) (n : NodeId) (f : RaftPeer -> RaftPeer) : PartitionRaft :=
  with_peers g (alter f n (peers g)).

Definition raft_new (part : Z) (vs : list NodeId) (epoch : Z) : PartitionRaft := {|
  partition := part; voters := vs; placement_epoch := epoch; joint := false; outgoing := [];
  incoming := []; peers := fold_left (fun m v => <[v := peer_new v]> m) vs ∅; stores := ∅ |}.

Definition attach_store (g : PartitionRaft) (n : NodeId) : PartitionRaft := {|
  partition := partition g; voters := voters g; placement_epoch := placement_epoch g;
  joint := joint g; outgoing := outgoing g; incoming := incoming g; peers := peers g;
  stores := {[ n ]} ∪ stores g |}.
Definition has_persistence (g : PartitionRaft) : bool := negb (bool_decide (stores g = ∅)).

Definition ensure_peer (g : PartitionRaft) (n : NodeId) : PartitionRaft :=
  match peers g !! n with
  | Some _ => g
  | None => with_peers g (<[n := peer_new n]> (peers g))
  end.

Definition quorum (g : PartitionRaft) : Z := as_u32 (Z.of_nat (length (voters g))) / 2 + 1.

Fixpoint leader_scan (g : PartitionRaft) (vs : list NodeId) (best : option (NodeId * Term))
  : option (NodeId * Term) :=
  match vs with
  | [] => best
  | v :: vs' =>
      match peers g !! v with
      | None => None
      | Some p =>
          let best' :=
            if bool_decide (role p = Leader) then
              match best with
              | None => Some (v, current_term p)
              | Some (_, t) => if t <? current_term p then Some (v, current_term p) else best
              end
            else best in
          leader_scan g vs' best'
      end
  end.
Definition current_leader (g : PartitionRaft) : option (NodeId * Term) :=
  leader_scan g (voters g) None.

Definition max_commit_index (g : PartitionRaft) : Z :=
  map_fold (fun _ p m => Z.max (commit_index p) m) 0 (peers g).

(** Steps down leaders outside the voter set. *)
Definition step_down_outsiders (g : PartitionRaft) : PartitionRaft :=
  with_peers g (map_imap (fun i p =>
    Some (if bool_decide (role p = Leader) && negb (bool_decide (i ∈ voters g))
          then set_role p Follower else p)) (peers g)).

Definition with_membership (g : PartitionRaft) (vs : list NodeId) (epoch : Z) (j : bool)
    (out inc : list NodeId) : PartitionRaft := {|
  partition := partition g; voters := vs; placement_epoch := epoch; joint := j;
  outgoing := out; incoming := inc; peers := peers g; stores := stores g |}.

Definition set_voters (g : PartitionRaft) (vs : list NodeId) (epoch : Z) : PartitionRaft :=
  let g := fold_left ensure_peer vs g in
  step_down_outsiders (with_membership g vs epoch false [] []).

(** [union.sort()] on node ids. *)
Fixpoint insert_node (x : NodeId) (l : list NodeId) : list NodeId :=
  match l with
  | [] => [x]
  | y :: l' => if x <=? y then x :: l else y :: insert_node x l'
  end.
Definition union_nodes (old new : list NodeId) : list NodeId :=
  fold_left (fun u n => if bool_decide (n ∈ u) then u else u ++ [n]) new old.

Definition set_joint_voters (g : PartitionRaft) (old new : list NodeId) (epoch : Z)
  : PartitionRaft :=
  let union := foldr insert_node [] (union_nodes old new) in
  let g := fold_left ensure_peer union g in
  step_down_outsiders (with_membership g union epoch true old new).

Definition stream_log_to (g : PartitionRaft) (leader dest : NodeId) : PartitionRaft * Z :=
  let g := ensure_peer g dest in
  match peers g !! leader with
  | None => (g, 0)
  | Some lp =>
      let last_idx := last_log_index lp in
      let g := upd g dest (fun d =>
        set_frontiers (set_role (set_hard (set_log d (log lp)) (current_term lp) None) Follower)
          (commit_index lp) 0) in
      let g :=
        if bool_decide (role lp = Leader) then
          upd g leader (fun p =>
            if bool_decide (role p = Leader)
            then set_indices p (<[dest := last_idx + 1]> (next_index p))
                               (<[dest := last_idx]> (match_index p))
            else p)
        else g in
      (g, Z.of_nat (length (log lp)))
  end.

(** The log loop of [append_entries] with its early return on a gap. *)
Fixpoint append_log (l : list LogEntry) (entries : list LogEntry)
  : list LogEntry * option Z :=
  match entries with
  | [] => (l, None)
  | e :: es =>
      match log_entry_at l (e_index e) with
      | Some existing =>
          if negb (e_term existing =? e_term e)
          then append_log (take (Z.to_nat (e_index e - 1)) l ++ [e]) es
          else append_log l es
      | None =>
          if negb (e_index e =? log_last_index l + 1)
          then (l, Some (log_last_index l + 1))
          else append_log (l ++ [e]) es
      end
  end.

Definition sync_follower_commit (g : PartitionRaft) (leader follower : NodeId) : PartitionRaft :=
  let leader_commit :=
    match peers g !! leader with Some p => commit_index p | None => 0 end in
  upd g follower (fun f =>
    if commit_index f <? leader_commit
    then set_frontiers f (Z.min leader_commit (last_log_index f)) (last_applied f)
    else f).

Definition commit_evidence (g : PartitionRaft) (leader : NodeId) (position : Z)
  : CommitEvidence :=
  match peers g !! leader with
  | None => {| ev_partition := partition g; ev_term := 0; ev_position := position;
               ev_acked_by := []; ev_committed := false |}
  | Some p =>
      {| ev_partition := partition g;
         ev_term := default 0 (term_at p position);
         ev_position := position;
         ev_acked_by := List.filter (fun v => position <=? default 0 (match_index p !! v)) (voters g);
         ev_committed := position <=? commit_index p |}
  end.

Section Flush.
Variable save : NodeId -> RaftPeer -> bool.

Definition flush_peer (g : PartitionRaft) (n : NodeId) : bool :=
  if bool_decide (n ∈ stores g) then
    match peers g !! n with
    | None => true
    | Some p => save n p
    end
  else true.

Definition flush_all (g : PartitionRaft) : bool :=
  forallb (flush_peer g) (elements (stores g)).

Definition request_vote (g : PartitionRaft) (voter candidate : NodeId) (candidate_term : Term)
    (cand_last_index : Z) (cand_last_term : Term) : PartitionRaft * VoteResult :=
  match peers g !! voter with
  | None => (g, {| vr_term := 0; vote_granted := false |})
  | Some peer =>
      if candidate_term <? current_term peer
      then (g, {| vr_term := current_term peer; vote_granted := false |})
      else
      let peer := if current_term peer <? candidate_term
                  then become_follower peer candidate_term else peer in
      let up_to_date := log_at_least_as_up_to_date peer cand_last_term cand_last_index in
      let can_vote := match voted_for peer with None => true | Some c => c =? candidate end in
      if can_vote && up_to_date then
        let granted := set_hard peer candidate_term (Some candidate) in
        let g' := with_peers g (<[voter := granted]> (peers g)) in
        if negb (flush_peer g' voter)
        then (with_peers g (<[voter := peer]> (peers g)),
              {| vr_term := candidate_term; vote_granted := false |})
        else (g', {| vr_term := candidate_term; vote_granted := true |})
      else (with_peers g (<[voter := peer]> (peers g)),
            {| vr_term := current_term peer; vote_granted := false |})
  end.

(** The voter loop of [elect]: the group, the votes, and the higher term that
    stopped the loop, if any. *)
Fixpoint solicit (g : PartitionRaft) (candidate : NodeId) (online : list NodeId)
    (new_term : Term) (li : Z) (lt : Term) (vs : list NodeId) (votes : Z)
  : PartitionRaft * Z * option Term :=
  match vs with
  | [] => (g, votes, None)
  | v :: vs' =>
      if (v =? candidate) || negb (bool_decide (v ∈ online))
      then solicit g candidate online new_term li lt vs' votes
      else
      let '(g', res) := request_vote g v candidate new_term li lt in
      if new_term <? vr_term res then (g', votes, Some (vr_term res))
      else solicit g' candidate online new_term li lt vs'
             (if vote_granted res then votes + 1 else votes)
  end.

(** Steps down the other leaders and candidates in older or equal terms. *)
Definition step_down_others (g : PartitionRaft) (candidate : NodeId) (new_term : Term)
  : PartitionRaft :=
  fold_left (fun g v =>
    if v =? candidate then g
    else upd g v (fun p =>
      if (bool_decide (role p = Leader) || bool_decide (role p = Candidate))
         && (current_term p <=? new_term)
      then set_role p Follower else p)) (voters g) g.

Definition elect (g : PartitionRaft) (candidate : NodeId) (online : list NodeId)
  : PartitionRaft * result ElectError (NodeId * Term) :=
  if negb (bool_decide (candidate ∈ voters g)) then (g, Err NotAVoter)
  else if negb (bool_decide (candidate ∈ online)) then (g, Err CandidateOffline)
  else match peers g !! candidate with
  | None => (g, Err NotAVoter)
  | Some peer =>
      let new_term := current_term peer + 1 in
      let cand := set_role (set_hard peer new_term (Some candidate)) Candidate in
      let li := last_log_index cand in
      let lt := last_log_term cand in
      let g := with_peers g (<[candidate := cand]> (peers g)) in
      if negb (flush_peer g candidate)
      then (upd g candidate (fun p => set_role p Follower), Err ElectPersistFailed)
      else
      let '(g, votes, saw_higher) := solicit g candidate online new_term li lt (voters g) 1 in
      match saw_higher with
      | Some higher =>
          (upd g candidate (fun p => become_follower p higher), Err (HigherTerm higher))
      | None =>
          if quorum g <=? votes then
            let g := step_down_others g candidate new_term in
            let g := upd g candidate (fun p =>
              become_leader (set_hard p new_term (voted_for p)) (voters g)) in
            (g, Ok (candidate, new_term))
          else (upd g candidate (fun p => set_role p Follower), Err (NoQuorum votes (quorum g)))
      end
  end.

(** The order of candidates: newest last term, longest log, the preferred node,
    then the lowest id.  [true] when [a] sorts before or with [b]. *)
Definition cand_leb (g : PartitionRaft) (preferred : option NodeId) (a b : NodeId) : bool :=
  let pa := default (peer_new a) (peers g !! a) in
  let pb := default (peer_new b) (peers g !! b) in
  match last_log_term pb ?= last_log_term pa with
  | Lt => true | Gt => false
  | Eq =>
  match last_log_index pb ?= last_log_index pa with
  | Lt => true | Gt => false
  | Eq =>
  match preferred with
  | Some p =>
      if (a =? p) && negb (b =? p) then true
      else if (b =? p) && negb (a =? p) then false
      else a <=? b
  | None => a <=? b
  end end end.

Fixpoint insert_cand (le : NodeId -> NodeId -> bool) (x : NodeId) (l : list NodeId)
  : list NodeId :=
  match l with
  | [] => [x]
  | y :: l' => if le x y then x :: l else y :: insert_cand le x l'
  end.
Definition sort_cands (le : NodeId -> NodeId -> bool) (l : list NodeId) : list NodeId :=
  foldr (insert_cand le) [] l.

Fixpoint try_candidates (g : PartitionRaft) (cands online : list NodeId) (last_err : ElectError)
  : PartitionRaft * result ElectError (NodeId * Term) :=
  match cands with
  | [] => (g, Err last_err)
  | c :: cs =>
      match elect g c online with
      | (g', Ok lt) => (g', Ok lt)
      | (g', Err e) => try_candidates g' cs online e
      end
  end.

Definition ensure_leader_preferring (g : PartitionRaft) (online : list NodeId)
    (preferred : option NodeId) : PartitionRaft * result ElectError (NodeId * Term) :=
  let continue_with g :=
    match online with
    | [] => (g, Err NoOnlineVoters)
    | _ =>
        match List.filter (fun n => bool_decide (n ∈ voters g)) online with
        | [] => (g, Err NoOnlineVoters)
        | cands =>
            try_candidates g (sort_cands (cand_leb g preferred) cands) online
              (NoQuorum 0 (quorum g))
        end
    end in
  match current_leader g with
  | Some (leader, t) =>
      if bool_decide (leader ∈ online) then (g, Ok (leader, t))
      else continue_with (upd g leader (fun p => set_role p Follower))
  | None => continue_with g
  end.

Definition ensure_leader (g : PartitionRaft) (online : list NodeId) :=
  ensure_leader_preferring g online None.

(** A valid leader's message: adopt its term and follow it. *)
Definition adopt_leader (p : RaftPeer) (leader_id : NodeId) (leader_term : Term) : RaftPeer :=
  if ((current_term p <? leader_term) || negb (bool_decide (role p = Follower))
      || negb (bool_decide (voted_for p = Some leader_id)))
     && (current_term p <=? leader_term)
  then set_role (set_hard p leader_term (Some leader_id)) Follower
  else p.

(** Replies that refuse with a hint, after the adopted state is stored. *)
Definition refuse_append (g : PartitionRaft) (follower : NodeId) (p : RaftPeer) (c : Z)
  : PartitionRaft * AppendResult :=
  (with_peers g (<[follower := p]> (peers g)),
   {| ar_term := current_term p; ar_success := false; conflict_index := Some c |}).

(** The rest of [append_entries] once the previous entry matched. *)
Definition accept_append (g : PartitionRaft) (follower : NodeId) (peer : RaftPeer)
    (entries : list LogEntry) (leader_commit : Z) : PartitionRaft * AppendResult :=
  match append_log (log peer) entries with
  | (l, Some conflict) => refuse_append g follower (set_log peer l) conflict
  | (l, None) =>
      let peer := set_log peer l in
      let peer :=
        if commit_index peer <? leader_commit
        then set_frontiers peer (Z.min leader_commit (last_log_index peer)) (last_applied peer)
        else peer in
      let g' := with_peers g (<[follower := peer]> (peers g)) in
      (g', {| ar_term := current_term peer; ar_success := flush_peer g' follower;
              conflict_index := None |})
  end.

Definition append_entries (g : PartitionRaft) (follower leader_id : NodeId)
    (leader_term : Term) (prev_log_index : Z) (prev_log_term : Term)
    (entries : list LogEntry) (leader_commit : Z) : PartitionRaft * AppendResult :=
  match peers g !! follower with
  | None => (g, {| ar_term := 0; ar_success := false; conflict_index := None |})
  | Some peer =>
      if leader_term <? current_term peer
      then (g, {| ar_term := current_term peer; ar_success := false; conflict_index := None |})
      else
      let peer := adopt_leader peer leader_id leader_term in
      if 0 <? prev_log_index then
        match term_at peer prev_log_index with
        | Some t =>
            if t =? prev_log_term then accept_append g follower peer entries leader_commit
            else refuse_append g follower peer prev_log_index
        | None =>
            refuse_append g follower peer (Z.max (sat_add (last_log_index peer) 1) 1)
        end
      else accept_append g follower peer entries leader_commit
  end.

(** The update of [next_index] after a refused append, and whether the loop
    stops because no progress is possible. *)
Definition back_off (p : RaftPeer) (follower : NodeId) (hint : option Z) (no_progress : bool)
  : RaftPeer * bool :=
  let next := default 1 (next_index p !! follower) in
  let hint := default (sat_sub next 1) hint in
  let next := Z.min (Z.max hint 1) next in
  let '(next, stop) :=
    if 1 <? next then (next - 1, false) else if no_progress then (next, true) else (1, false) in
  (set_indices p (<[follower := next]> (next_index p)) (match_index p), stop).

(** At most [fuel] rounds; the source starts with 64. *)
Fixpoint replicate_loop (fuel : nat) (g : PartitionRaft) (leader follower : NodeId)
  : PartitionRaft * result ProposeError unit :=
  match fuel with
  | O => (g, Ok tt)
  | S f =>
      match peers g !! leader with
      | None => (g, Err NotLeader)
      | Some peer =>
          if negb (bool_decide (role peer = Leader)) then (g, Err NotLeader)
          else
          let next := default 1 (next_index peer !! follower) in
          let prev_idx := sat_sub next 1 in
          let prev_term := default 0 (term_at peer prev_idx) in
          let entries := List.filter (fun e => next <=? e_index e) (log peer) in
          let t := current_term peer in
          let '(g, res) :=
            append_entries g follower leader t prev_idx prev_term entries (commit_index peer) in
          if t <? ar_term res then
            (upd g leader (fun p => become_follower p (ar_term res)), Err (SteppedDown (ar_term res)))
          else if ar_success res then
            let match_idx := match last entries with Some e => e_index e | None => prev_idx end in
            (upd g leader (fun p => set_indices p (<[follower := match_idx + 1]> (next_index p))
                                                  (<[follower := match_idx]> (match_index p))), Ok tt)
          else
          match peers g !! leader with
          | None => replicate_loop f g leader follower
          | Some p =>
              let '(p', stop) := back_off p follower (conflict_index res)
                                   (bool_decide (entries = []) && (prev_idx =? 0)) in
              let g := with_peers g (<[leader := p']> (peers g)) in
              if stop then (g, Ok tt) else replicate_loop f g leader follower
          end
      end
  end.
Definition replicate_to (g : PartitionRaft) (leader follower : NodeId) :=
  replicate_loop 64 g leader follower.

(** Voters whose match index reaches [n], as counted by [advance_commit]. *)
Definition match_count (g : PartitionRaft) (p : RaftPeer) (n : Z) : Z :=
  Z.of_nat (length (List.filter (fun v => n <=? default 0 (match_index p !! v)) (voters g))).

(** The downward search of [advance_commit] over [commit+1 ..= last]. *)
Definition committable (g : PartitionRaft) (p : RaftPeer) (n : Z) : bool :=
  match term_at p n with
  | None => false
  | Some t => (t =? current_term p) && (quorum g <=? match_count g p n)
  end.
Definition advance_commit (g : PartitionRaft) (leader : NodeId) : PartitionRaft :=
  match peers g !! leader with
  | None => g
  | Some p =>
      if negb (bool_decide (role p = Leader)) then g
      else
      let range := reverse (seqZ (commit_index p + 1) (last_log_index p - commit_index p)) in
      match List.find (committable g p) range with
      | Some n => upd g leader (fun p => set_frontiers p n (last_applied p))
      | None => g
      end
  end.

(** The follower loops of [propose]: the first collects acknowledgements and
    stops at an error, the second ignores errors. *)
Fixpoint replicate_all (g : PartitionRaft) (leader : NodeId) (new_index : Z)
    (fs : list NodeId) (acked : list NodeId) : PartitionRaft * result ProposeError (list NodeId) :=
  match fs with
  | [] => (g, Ok acked)
  | f :: fs' =>
      match replicate_to g leader f with
      | (g, Err e) => (g, Err e)
      | (g, Ok _) =>
          let m := match peers g !! leader with
                   | Some p => default 0 (match_index p !! f) | None => 0 end in
          replicate_all g leader new_index fs' (if new_index <=? m then acked ++ [f] else acked)
      end
  end.
Definition push_commit (g : PartitionRaft) (leader : NodeId) (online : list NodeId)
  : PartitionRaft :=
  fold_left (fun g f =>
    if (f =? leader) || negb (bool_decide (f ∈ online)) then g
    else fst (replicate_to g leader f)) (voters g) g.

Definition propose (g : PartitionRaft) (leader : NodeId) (command : LogCommand)
    (online : list NodeId) : PartitionRaft * result ProposeError ProposeResult :=
  match peers g !! leader with
  | None => (g, Err NotLeader)
  | Some peer =>
      if negb (bool_decide (role peer = Leader)) then (g, Err NotLeader)
      else
      let t := current_term peer in
      let new_index := last_log_index peer + 1 in
      let entry := {| e_term := t; e_index := new_index; e_command := command |} in
      let peer' := set_indices (set_log peer (log peer ++ [entry]))
                     (<[leader := new_index + 1]> (next_index peer))
                     (<[leader := new_index]> (match_index peer)) in
      let g1 := with_peers g (<[leader := peer']> (peers g)) in
      if negb (flush_peer g1 leader) then
        (upd g1 leader (fun p =>
           let p := if last_log_index p =? new_index then set_log p (removelast (log p)) else p in
           set_indices p (<[leader := last_log_index p + 1]> (next_index p))
                         (<[leader := last_log_index p]> (match_index p))),
         Err ProposePersistFailed)
      else
      let followers := List.filter
        (fun v => negb (v =? leader) && bool_decide (v ∈ online)) (voters g1) in
      match replicate_all g1 leader new_index followers [leader] with
      | (g2, Err e) => (g2, Err e)
      | (g2, Ok acked) =>
          let g3 := advance_commit g2 leader in
          let commit := match peers g3 !! leader with Some p => commit_index p | None => 0 end in
          let committed := new_index <=? commit in
          let g4 := if committed then push_commit g3 leader online else g3 in
          (g4, Ok {| pr_entry := entry; pr_term := t; pr_position := new_index;
                     replica_acks := Z.of_nat (length acked); pr_acked_by := acked;
                     pr_committed := committed; pr_commit_index := commit |})
      end
  end.

(** The [while] loop of [take_apply_batch]; one unit of fuel per entry. *)
Fixpoint apply_loop (fuel : nat) (p : RaftPeer) (out : list LogEntry)
  : RaftPeer * list LogEntry :=
  match fuel with
  | O => (p, out)
  | S f =>
      if last_applied p <? commit_index p then
        let next := last_applied p + 1 in
        match entry_at p next with
        | None => (p, out)
        | Some e =>
            apply_loop f (set_frontiers p (commit_index p) next)
              (if bool_decide (subject_of (e_command e) = SNAPSHOT_BASE) then out else out ++ [e])
        end
      else (p, out)
  end.
Definition take_apply_batch (g : PartitionRaft) (n : NodeId) : PartitionRaft * list LogEntry :=
  match peers g !! n with
  | None => (g, [])
  | Some p =>
      let '(p', out) := apply_loop (Z.to_nat (commit_index p - last_applied p)) p [] in
      (with_peers g (<[n := p']> (peers g)), out)
  end.

(** [save_snapshot] is the store's [install_snapshot]. *)
Variable save_snapshot : NodeId -> Z -> Term -> list byte -> list LogEntry -> bool.

Definition snapshot_base (t : Term) (index : Z) : LogEntry :=
  {| e_term := t; e_index := index; e_command := Delete SNAPSHOT_BASE |}.

Definition install_local_snapshot (g : PartitionRaft) (n : NodeId) (last_included_index : Z)
    (blob : list byte) : PartitionRaft * result RaftMetaError unit :=
  match peers g !! n with
  | None => (g, Err (CorruptMeta "snapshot: unknown peer"))
  | Some peer =>
      match term_at peer last_included_index with
      | None => (g, Err (CorruptMeta "snapshot: index not in log"))
      | Some t =>
          let remaining := List.filter (fun e => last_included_index <? e_index e) (log peer) in
          let new_log :=
            if bool_decide (remaining = []) && (0 <? last_included_index)
            then [snapshot_base t last_included_index] else remaining in
          let peer := set_frontiers (set_log peer new_log)
            (Z.max (commit_index peer) last_included_index)
            (Z.max (last_applied peer) last_included_index) in
          let g := with_peers g (<[n := peer]> (peers g)) in
          if bool_decide (n ∈ stores g) then
            let disk := List.filter
              (fun e => negb (bool_decide (subject_of (e_command e) = SNAPSHOT_BASE))) remaining in
            if save_snapshot n last_included_index t blob disk && save n peer
            then (g, Ok tt) else (g, Err StoreFailed)
          else (g, Ok tt)
      end
  end.

(** raft_rpc.rs: installing a snapshot whose index is not in the local log. *)
Definition force_install_snapshot (g : PartitionRaft) (local : NodeId)
    (last_included_index : Z) (last_included_term : Term) (blob : list byte)
  : PartitionRaft * result RaftMetaError unit :=
  match peers g !! local with
  | None => (g, Err (CorruptMeta "snapshot: unknown peer"))
  | Some peer =>
      let new_log := if 0 <? last_included_index
                     then [snapshot_base last_included_term last_included_index] else [] in
      let peer := set_frontiers (set_log peer new_log)
        (Z.max (commit_index peer) last_included_index)
        (Z.max (last_applied peer) last_included_index) in
      install_local_snapshot (with_peers g (<[local := peer]> (peers g))) local
        last_included_index blob
  end.

End Flush.
