(* ===== verification/RaftFacts.v ===== *)
(** * Safety of the partition group: elections

    Theorems about [Raft.v].  The election argument keeps two ghost histories:
    the votes that were cast, and the elections that succeeded.  [elections_ok]
    ties them to the hard state of the peers and is preserved by every operation
    that does not change the membership; quorum intersection then gives at most
    one leader per term. *)
From S2P Require Import Prelude Raft.

(** ** Generic facts *)

Lemma NoDup_incl_length_filter (l vs : list Z) :
  NoDup l -> (forall x, x ∈ l -> x ∈ vs) -> (length l <= length vs)%nat.
Proof.
  intros Hnd Hincl. apply submseteq_length. by apply NoDup_submseteq.
Qed.

(** Two majorities of one voter set share a voter. *)
Lemma quorums_intersect (vs Q1 Q2 : list Z) :
  NoDup Q1 -> NoDup Q2 -> (forall x, x ∈ Q1 -> x ∈ vs) -> (forall x, x ∈ Q2 -> x ∈ vs) ->
  (length vs < length Q1 + length Q2)%nat -> exists q, q ∈ Q1 /\ q ∈ Q2.
Proof.
  intros H1 H2 I1 I2 Hlen.
  destruct (decide (Exists (fun q => q ∈ Q2) Q1)) as [Hex|Hno].
  - apply Exists_exists in Hex as (q & Hq1 & Hq2). by exists q.
  - exfalso. assert (Hle : (length (Q1 ++ Q2) <= length vs)%nat).
    { apply NoDup_incl_length_filter.
      - apply NoDup_app. split; [done|]. split; [|done].
        intros x Hx1 Hx2. apply Hno, Exists_exists. by exists x.
      - intros x [Hx|Hx]%elem_of_app; auto. }
    rewrite length_app in Hle. lia.
Qed.

(** ** The invariant *)

Abbreviation Votes := (list (NodeId * Term * NodeId)).
Abbreviation Elections := (list (NodeId * Term)).

Section Elections.
Variable vs : list NodeId.

Record elections_ok (g : PartitionRaft) (E : Elections) (V : Votes) : Prop := {
  eo_voters : voters g = vs;
  eo_votes v t c : (v, t, c) ∈ V -> exists p, peers g !! v = Some p /\ t <= current_term p /\
    (t = current_term p ->
     voted_for p = Some c \/ exists L, voted_for p = Some L /\ (L, t) ∈ E);
  eo_once v t c c' : (v, t, c) ∈ V -> (v, t, c') ∈ V -> c = c';
  eo_quorum c t : (c, t) ∈ E -> exists Q, NoDup Q /\ (forall q, q ∈ Q -> q ∈ vs /\ (q, t, c) ∈ V) /\
    (length vs < 2 * length Q)%nat;
  eo_term c t : (c, t) ∈ E -> exists p, peers g !! c = Some p /\ t <= current_term p;
  eo_leader n p : peers g !! n = Some p -> role p = Leader -> (n, current_term p) ∈ E }.

Lemma elections_unique g E V c1 c2 t :
  elections_ok g E V -> (c1, t) ∈ E -> (c2, t) ∈ E -> c1 = c2.
Proof.
  intros H H1 H2. destruct (eo_quorum _ _ _ H _ _ H1) as (Q1 & N1 & I1 & L1).
  destruct (eo_quorum _ _ _ H _ _ H2) as (Q2 & N2 & I2 & L2).
  destruct (quorums_intersect vs Q1 Q2) as (q & Hq1 & Hq2); [done|done|naive_solver..|lia|].
  apply (eo_once _ _ _ H q t); naive_solver.
Qed.

(** The part of a peer that elections depend on. *)
Definition hard (p : RaftPeer) : Term * option NodeId * RaftRole :=
  (current_term p, voted_for p, role p).

(** Replacing one peer: terms do not fall, a vote of the same term is kept or
    becomes that of the elected leader, and no leader appears from nowhere. *)
Lemma elections_update g E V n p p' :
  elections_ok g E V -> peers g !! n = Some p -> current_term p <= current_term p' ->
  (current_term p' = current_term p -> voted_for p' = voted_for p \/
     exists L, voted_for p' = Some L /\ (L, current_term p') ∈ E) ->
  (role p' = Leader -> (n, current_term p') ∈ E) ->
  elections_ok (with_peers g (<[n := p']> (peers g))) E V.
Proof.
  intros H Hp Hle Hvote Hrole. split; cbn [voters peers with_peers].
  - apply H.
  - intros v t c Hv. destruct (eo_votes _ _ _ H v t c Hv) as (q & Hq & Ht & Hc).
    destruct (decide (v = n)) as [->|Hne].
    + rewrite lookup_insert_eq. exists p'. split; [done|]. assert (q = p) as -> by congruence.
      split; [lia|]. intros ->. destruct (Hvote ltac:(lia)) as [->|Hl]; [apply Hc; lia|by right].
    + rewrite lookup_insert_ne by done. by exists q.
  - apply H.
  - apply H.
  - intros c t Hc. destruct (eo_term _ _ _ H c t Hc) as (q & Hq & Ht).
    destruct (decide (c = n)) as [->|Hne].
    + rewrite lookup_insert_eq. exists p'. split; [done|]. assert (q = p) as -> by congruence. lia.
    + rewrite lookup_insert_ne by done. by exists q.
  - intros m q Hq Hr. destruct (decide (m = n)) as [->|Hne].
    + rewrite lookup_insert_eq in Hq. injection Hq as <-. by apply Hrole.
    + rewrite lookup_insert_ne in Hq by done. by apply (eo_leader _ _ _ H m).
Qed.

Lemma upd_lookup g n f p : peers g !! n = Some p ->
  upd g n f = with_peers g (<[n := f p]> (peers g)).
Proof.
  intros Hp. unfold upd. f_equal. apply map_eq. intros k.
  destruct (decide (k = n)) as [->|Hne].
  - by rewrite lookup_alter_eq, lookup_insert_eq, Hp.
  - by rewrite lookup_alter_ne, lookup_insert_ne.
Qed.
Lemma upd_missing g n f : peers g !! n = None -> upd g n f = g.
Proof.
  intros Hp. unfold upd. assert (alter f n (peers g) = peers g) as ->; [|by destruct g].
  apply map_eq. intros k. rewrite lookup_alter. case_decide as Hk; [|done].
  subst. by rewrite Hp.
Qed.

Lemma elections_upd g E V n f :
  elections_ok g E V ->
  (forall p, peers g !! n = Some p -> current_term p <= current_term (f p) /\
     (current_term (f p) = current_term p -> voted_for (f p) = voted_for p \/
        exists L, voted_for (f p) = Some L /\ (L, current_term (f p)) ∈ E) /\
     (role (f p) = Leader -> (n, current_term (f p)) ∈ E)) ->
  elections_ok (upd g n f) E V.
Proof.
  intros H Hf. destruct (peers g !! n) as [p|] eqn:Hp; [|by rewrite upd_missing].
  rewrite (upd_lookup _ _ _ p) by done. destruct (Hf p eq_refl) as (H1 & H2 & H3).
  by apply (elections_update _ _ _ _ p).
Qed.

(** Updates of logs, frontiers and replication indices change nothing. *)
Lemma elections_same g E V n p p' :
  elections_ok g E V -> peers g !! n = Some p -> hard p' = hard p ->
  elections_ok (with_peers g (<[n := p']> (peers g))) E V.
Proof.
  intros H Hp Hh. injection Hh as H1 H2 H3. apply (elections_update _ _ _ _ p); try done.
  - lia.
  - intros _. by left.
  - intros Hr. rewrite H1. apply (eo_leader _ _ _ H n); congruence.
Qed.
Lemma elections_upd_same g E V n f :
  elections_ok g E V -> (forall p, hard (f p) = hard p) -> elections_ok (upd g n f) E V.
Proof.
  intros H Hf. destruct (peers g !! n) as [p|] eqn:Hp; [|by rewrite upd_missing].
  rewrite (upd_lookup _ _ _ p) by done. by apply (elections_same _ _ _ _ p).
Qed.
(** Stepping down is always safe. *)
Lemma elections_step_down g E V n f :
  elections_ok g E V -> (forall p, f p = p \/ f p = set_role p Follower) ->
  elections_ok (upd g n f) E V.
Proof.
  intros H Hf. apply elections_upd; [done|]. intros p Hp.
  destruct (Hf p) as [->| ->]; cbn.
  - split; [lia|]. split; [by left|]. intros Hr. by apply (eo_leader _ _ _ H n).
  - split; [lia|]. split; [by left|done].
Qed.

(** Casting a vote for a candidate that has not been elected in the term. *)
Lemma elections_vote g E V v p p' t c :
  elections_ok g E V -> peers g !! v = Some p -> current_term p <= t ->
  (current_term p = t -> voted_for p = None \/ voted_for p = Some c) ->
  current_term p' = t -> voted_for p' = Some c -> ~ (c, t) ∈ E ->
  (role p' = Leader -> (v, t) ∈ E) ->
  elections_ok (with_peers g (<[v := p']> (peers g))) E ((v, t, c) :: V).
Proof.
  intros H Hp Hle Hfree Ht Hv Hnot Hrole.
  assert (Hmine : forall t' c', (v, t', c') ∈ V -> t' < t \/ (t' = t /\ c' = c)).
  { intros t' c' Hin. destruct (eo_votes _ _ _ H _ _ _ Hin) as (q & Hq & Hq1 & Hq2).
    assert (q = p) as -> by congruence. destruct (decide (t' = t)) as [->|]; [|left; lia].
    assert (current_term p = t) as He by lia. right. split; [done|].
    destruct (Hfree He) as [Hn|Hs], (Hq2 ltac:(lia)) as [Hc|(L & HL & HE)]; try congruence. }
  split; cbn [voters peers with_peers].
  - apply H.
  - intros w t' c' [[= -> -> ->]|Hin]%elem_of_cons.
    + rewrite lookup_insert_eq. exists p'. split; [done|]. split; [lia|]. by left.
    + destruct (decide (w = v)) as [->|Hne].
      * rewrite lookup_insert_eq. exists p'. split; [done|].
        destruct (Hmine _ _ Hin) as [Hlt|[-> ->]]; [split; lia|]. split; [lia|]. by left.
      * rewrite lookup_insert_ne by done. by apply (eo_votes _ _ _ H).
  - intros w t' c1 c2 [H1|H1]%elem_of_cons [H2|H2]%elem_of_cons.
    + congruence.
    + injection H1 as -> -> ->. destruct (Hmine _ _ H2) as [Hlt|[_ ->]]; [lia|done].
    + injection H2 as -> -> ->. destruct (Hmine _ _ H1) as [Hlt|[_ ->]]; [lia|done].
    + by apply (eo_once _ _ _ H w t').
  - intros c' t' Hc. destruct (eo_quorum _ _ _ H _ _ Hc) as (Q & HN & HQ & HL).
    exists Q. split; [done|]. split; [|done]. intros q Hq. destruct (HQ q Hq).
    split; [done|]. apply elem_of_cons. by right.
  - intros c' t' Hc. destruct (eo_term _ _ _ H _ _ Hc) as (q & Hq & Hq1).
    destruct (decide (c' = v)) as [->|Hne].
    + rewrite lookup_insert_eq. exists p'. split; [done|]. assert (q = p) as -> by congruence. lia.
    + rewrite lookup_insert_ne by done. by exists q.
  - intros m q Hq Hr. destruct (decide (m = v)) as [->|Hne].
    + rewrite lookup_insert_eq in Hq. injection Hq as <-. rewrite Ht. by apply Hrole.
    + rewrite lookup_insert_ne in Hq by done. by apply (eo_leader _ _ _ H m).
Qed.

(** ** RequestVote *)

Lemma request_vote_ok save g E V v c t li lt g' res :
  elections_ok g E V -> ~ (c, t) ∈ E -> request_vote save g v c t li lt = (g', res) ->
  elections_ok g' E (if vote_granted res then (v, t, c) :: V else V) /\
  (forall n, n <> v -> peers g' !! n = peers g !! n).
Proof.
  intros H Hnot Hr. unfold request_vote in Hr.
  destruct (peers g !! v) as [p|] eqn:Hp; [|by injection Hr as <- <-].
  destruct (Z.ltb_spec t (current_term p)) as [|Hle]; [by injection Hr as <- <-|].
  set (p1 := if current_term p <? t then become_follower p t else p) in Hr.
  assert (Hp1 : current_term p1 = t /\ (current_term p = t -> voted_for p1 = voted_for p) /\
                (role p1 = Leader -> (v, t) ∈ E)).
  { unfold p1. destruct (Z.ltb_spec (current_term p) t) as [Hlt|Hge]; cbn.
    - split; [done|]. split; [lia|done].
    - assert (current_term p = t) as Heq by lia. split; [done|]. split; [done|].
      intros Hrole. rewrite <- Heq. by apply (eo_leader _ _ _ H v). }
  destruct Hp1 as (Ht1 & Hv1 & Hr1).
  assert (Hkeep : elections_ok (with_peers g (<[v := p1]> (peers g))) E V).
  { apply (elections_update _ _ _ _ p); rewrite ?Ht1; try done. intros He. left. apply Hv1. lia. }
  assert (Hother : forall q n, n <> v -> peers (with_peers g (<[v := q]> (peers g))) !! n = peers g !! n)
    by (intros q n Hn; cbn; by rewrite lookup_insert_ne).
  destruct (_ && _) eqn:Hcan; [|injection Hr as <- <-; by split; [|apply Hother]].
  destruct (negb _); injection Hr as <- <-; cbn [vote_granted]; (split; [|apply Hother]); [done|].
  apply andb_true_iff in Hcan as [Hcan _].
  apply (elections_vote _ _ _ _ p); try done.
  intros He. rewrite <- (Hv1 He). destruct (voted_for p1) as [c'|]; [|by left].
  apply Z.eqb_eq in Hcan as ->. by right.
Qed.

Lemma solicit_ok save c t li lt online l g E V n0 g' n hi :
  elections_ok g E V -> ~ (c, t) ∈ E -> NoDup l -> (forall v, v ∈ l -> v ∈ vs) ->
  solicit save g c online t li lt l n0 = (g', n, hi) ->
  exists G V', elections_ok g' E V' /\ V ⊆ V' /\ n = n0 + Z.of_nat (length G) /\ NoDup G /\
    (forall v, v ∈ G -> v <> c /\ v ∈ l /\ (v, t, c) ∈ V') /\
    peers g' !! c = peers g !! c /\ (forall x, hi = Some x -> t < x).
Proof.
  intros H Hnot. revert g V n0 H.
  induction l as [|v l IH]; intros g V n0 H Hnd Hin Hs; cbn [solicit] in Hs.
  - injection Hs as <- <- <-. exists [], V. split; [done|]. split; [done|].
    split; [cbn; lia|]. split; [constructor|]. split; [by intros v ?%elem_of_nil|]. by split.
  - apply NoDup_cons in Hnd as [Hv Hnd].
    assert (Hin' : forall w, w ∈ l -> w ∈ vs) by (intros w Hw; apply Hin, elem_of_cons; by right).
    destruct (_ || _) eqn:Hskip.
    + destruct (IH g V n0 H Hnd Hin' Hs) as (G & V' & H1 & H2 & H3 & H4 & H5 & H6 & H7).
      exists G, V'. split_and!; try done. intros w Hw. destruct (H5 w Hw) as (? & ? & ?).
      split; [done|]. split; [apply elem_of_cons; by right|done].
    + apply orb_false_iff in Hskip as [Hvc%Z.eqb_neq _].
      destruct (request_vote save g v c t li lt) as [g1 res] eqn:Hrv.
      destruct (request_vote_ok _ _ _ _ _ _ _ _ _ _ _ H Hnot Hrv) as [Hok Hsame].
      specialize (Hsame c (not_eq_sym Hvc)).
      destruct (Z.ltb_spec t (vr_term res)) as [Hhi|_].
      * injection Hs as <- <- <-. eexists [], _. split; [exact Hok|].
        split; [by destruct (vote_granted res); [apply list_subseteq_cons|]|].
        split; [cbn; lia|]. split; [constructor|]. split; [by intros w ?%elem_of_nil|].
        split; [done|]. by intros x [= <-].
      * destruct (IH _ _ _ Hok Hnd Hin' Hs) as (G & V' & H1 & H2 & H3 & H4 & H5 & H6 & H7).
        rewrite Hsame in H6.
        destruct (vote_granted res).
        -- exists (v :: G), V'. split; [done|].
           split; [intros x Hx; apply H2, elem_of_cons; by right|].
           split; [cbn [length]; lia|]. split.
           { apply NoDup_cons. split; [|done]. intros Hg. by destruct (H5 v Hg) as (_ & ? & _). }
           split; [|done]. intros w [->|Hw]%elem_of_cons.
           ++ split; [done|]. split; [apply elem_of_cons; by left|]. apply H2, elem_of_cons. by left.
           ++ destruct (H5 w Hw) as (? & ? & ?). split; [done|]. split; [apply elem_of_cons; by right|done].
        -- exists G, V'. split_and!; try done. intros w Hw. destruct (H5 w Hw) as (? & ? & ?).
           split; [done|]. split; [apply elem_of_cons; by right|done].
Qed.

(** ** Elections *)

Lemma elections_elect g E V c t p Q :
  elections_ok g E V -> peers g !! c = Some p -> t <= current_term p ->
  NoDup Q -> (forall q, q ∈ Q -> q ∈ vs /\ (q, t, c) ∈ V) -> (length vs < 2 * length Q)%nat ->
  elections_ok g ((c, t) :: E) V.
Proof.
  intros H Hp Ht HN HQ HL. split.
  - apply H.
  - intros v t' c' Hv. destruct (eo_votes _ _ _ H _ _ _ Hv) as (q & Hq & Hq1 & Hq2).
    exists q. split; [done|]. split; [done|]. intros He.
    destruct (Hq2 He) as [?|(L & ? & ?)]; [by left|]. right. exists L. split; [done|].
    apply elem_of_cons. by right.
  - apply H.
  - intros c' t' [[= -> ->]|Hc]%elem_of_cons; [by exists Q|by apply (eo_quorum _ _ _ H)].
  - intros c' t' [[= -> ->]|Hc]%elem_of_cons; [by exists p|by apply (eo_term _ _ _ H)].
  - intros n q Hq Hr. apply elem_of_cons. right. by apply (eo_leader _ _ _ H).
Qed.

Lemma step_down_others_ok g E V c t :
  elections_ok g E V ->
  elections_ok (step_down_others g c t) E V /\
  peers (step_down_others g c t) !! c = peers g !! c /\
  voters (step_down_others g c t) = voters g.
Proof.
  unfold step_down_others. generalize (voters g) at 1 2 3. intros l. revert g.
  induction l as [|v l IH]; intros g H; cbn [fold_left]; [done|].
  destruct (Z.eqb_spec v c) as [->|Hne]; [by apply IH|].
  match goal with |- context [fold_left _ l ?g1] => destruct (IH g1) as (H1 & H2 & H3) end.
  - apply elections_step_down; [done|]. intros p. destruct (_ && _); [by right|by left].
  - split; [done|]. rewrite H2, H3. cbn. split; [by rewrite lookup_alter_ne|done].
Qed.

Lemma quorum_spec g : Z.of_nat (length (voters g)) < 2 ^ 32 ->
  quorum g = Z.of_nat (length (voters g)) / 2 + 1.
Proof.
  intros H. unfold quorum, as_u32. rewrite Z.mod_small; [done|]. lia.
Qed.

Lemma elect_ok save g E V c online g' r :
  NoDup vs -> Z.of_nat (length vs) < 2 ^ 32 -> elections_ok g E V ->
  elect save g c online = (g', r) ->
  exists V', elections_ok g' (match r with Ok lt => lt :: E | Err _ => E end) V'.
Proof.
  intros Hnd Hsmall H He. unfold elect in He. rewrite (eo_voters _ _ _ H) in He.
  destruct (bool_decide_reflect (c ∈ vs)) as [Hcv|]; cbn [negb] in He; [|injection He as <- <-; by exists V].
  destruct (negb _); [injection He as <- <-; by exists V|].
  destruct (peers g !! c) as [p|] eqn:Hp; [|injection He as <- <-; by exists V].
  set (t := current_term p + 1) in *. set (cand := set_role _ Candidate) in He.
  assert (Hnot : ~ (c, t) ∈ E).
  { intros Hin. destruct (eo_term _ _ _ H _ _ Hin) as (q & Hq & Ht). assert (q = p) as -> by congruence. lia. }
  set (g1 := with_peers g (<[c := cand]> (peers g))) in He.
  assert (H1 : elections_ok g1 E ((c, t, c) :: V)).
  { apply (elections_vote _ _ _ _ p); try done; cbn; lia. }
  assert (Hp1 : peers g1 !! c = Some cand) by (cbn; by rewrite lookup_insert_eq).
  destruct (negb _).
  { injection He as <- <-. exists ((c, t, c) :: V). apply elections_step_down; [done|]. by right. }
  replace (voters g1) with vs in He by (symmetry; apply (eo_voters _ _ _ H1)).
  destruct (solicit save g1 c online t _ _ vs 1) as [[g2 n] hi] eqn:Hs.
  destruct (solicit_ok _ _ _ _ _ _ _ _ _ _ _ _ _ _ H1 Hnot Hnd ltac:(done) Hs)
    as (G & V' & H2 & Hsub & Hn & HG & HGin & Hsame & Hhi).
  rewrite Hp1 in Hsame. exists V'. destruct hi as [x|].
  { injection He as <- <-. apply elections_upd; [done|]. intros q Hq.
    assert (q = cand) as -> by congruence. specialize (Hhi x eq_refl). cbn. split; [lia|]. split; [lia|done]. }
  rewrite quorum_spec, (eo_voters _ _ _ H2) in He by (by rewrite (eo_voters _ _ _ H2)).
  destruct (Z.leb_spec (Z.of_nat (length vs) / 2 + 1) n) as [Hq|_].
  2: { injection He as <- <-. apply elections_step_down; [done|]. by right. }
  assert (H3 : elections_ok g2 ((c, t) :: E) V').
  { apply (elections_elect _ _ _ _ _ cand (c :: G)); try done.
    - apply NoDup_cons. split; [|done]. intros Hc. by destruct (HGin c Hc).
    - intros q [->|Hin]%elem_of_cons.
      + split; [done|]. apply Hsub, elem_of_cons. by left.
      + destruct (HGin q Hin) as (_ & ? & ?). done.
    - cbn [length]. pose proof (Z.div_mod (Z.of_nat (length vs)) 2). pose proof (Z.mod_pos_bound (Z.of_nat (length vs)) 2). lia. }
  injection He as <- <-. destruct (step_down_others_ok _ _ _ c t H3) as (H4 & Hsame4 & _).
  apply elections_upd; [done|]. intros q Hq4. rewrite Hsame4 in Hq4.
  assert (q = cand) as -> by congruence. cbn. split; [lia|]. split; [by left|].
  intros _. apply elem_of_cons. by left.
Qed.

(** ** Replication *)

Lemma append_entries_ok save g E V f L t pi pt es lc g' res :
  elections_ok g E V -> (L, t) ∈ E -> append_entries save g f L t pi pt es lc = (g', res) ->
  elections_ok g' E V /\ (forall n, n <> f -> peers g' !! n = peers g !! n).
Proof.
  intros H HL Ha. unfold append_entries, accept_append, refuse_append in Ha.
  destruct (peers g !! f) as [p|] eqn:Hp; [|by injection Ha as <- <-].
  destruct (Z.ltb_spec t (current_term p)) as [|Hle]; [by injection Ha as <- <-|].
  set (p1 := adopt_leader p L t) in *.
  assert (Hstore : forall q, hard q = hard p1 ->
    elections_ok (with_peers g (<[f := q]> (peers g))) E V /\
    (forall n, n <> f -> peers (with_peers g (<[f := q]> (peers g))) !! n = peers g !! n)).
  { intros q Hq. split; [|intros n Hn; cbn; by rewrite lookup_insert_ne].
    injection Hq as Hq1 Hq2 Hq3. unfold p1, adopt_leader in *.
    destruct ((_ || _ || _) && _) eqn:Hc; cbn in *.
    - apply (elections_update _ _ _ _ p); rewrite ?Hq1, ?Hq2, ?Hq3; try done.
      intros _. right. by exists L.
    - by apply (elections_same _ _ _ _ p); unfold hard; rewrite ?Hq1, ?Hq2, ?Hq3. }
  repeat match type of Ha with
  | (if ?b then _ else _) = _ => destruct b
  | match ?x with _ => _ end = _ => destruct x
  end; injection Ha as <- _; apply Hstore; by try destruct (commit_index _ <? lc).
Qed.

Lemma replicate_loop_ok save fuel g E V L f g' r :
  elections_ok g E V -> f <> L -> replicate_loop save fuel g L f = (g', r) ->
  elections_ok g' E V.
Proof.
  intros H Hne. revert g H. induction fuel as [|fuel IH]; intros g H Hr; cbn [replicate_loop] in Hr.
  { by injection Hr as <- <-. }
  destruct (peers g !! L) as [p|] eqn:Hp; [|by injection Hr as <- <-].
  destruct (bool_decide_reflect (role p = Leader)) as [Hl|]; cbn [negb] in Hr; [|by injection Hr as <- <-].
  destruct (append_entries _ _ _ _ _ _ _ _ _) as [g1 res] eqn:Ha.
  destruct (append_entries_ok _ _ _ _ _ _ _ _ _ _ _ _ _ H (eo_leader _ _ _ H _ _ Hp Hl) Ha)
    as [H1 Hsame]. specialize (Hsame L (not_eq_sym Hne)).
  destruct (Z.ltb_spec (current_term p) (ar_term res)) as [Hlt|_].
  { injection Hr as <- <-. apply elections_upd; [done|]. intros q Hq.
    assert (q = p) as -> by congruence. cbn. split; [lia|]. split; [lia|done]. }
  destruct (ar_success res).
  { injection Hr as <- <-. by apply elections_upd_same. }
  rewrite Hsame, Hp in Hr. destruct (back_off _ _ _ _) as [p' stop] eqn:Hb.
  assert (H2 : elections_ok (with_peers g1 (<[L := p']> (peers g1))) E V).
  { apply (elections_same _ _ _ _ p); [done|congruence|].
    unfold back_off in Hb. destruct (if 1 <? _ then _ else _). by injection Hb as <- <-. }
  destruct stop; [by injection Hr as <- <-|]. by apply (IH _ H2).
Qed.

Lemma replicate_to_ok save g E V L f g' r :
  elections_ok g E V -> f <> L -> replicate_to save g L f = (g', r) -> elections_ok g' E V.
Proof. unfold replicate_to. generalize 64%nat. intros n. apply replicate_loop_ok. Qed.

#[local] Opaque replicate_to.

Lemma replicate_all_ok save L n fs acked g E V g' r :
  elections_ok g E V -> (forall f, f ∈ fs -> f <> L) ->
  replicate_all save g L n fs acked = (g', r) -> elections_ok g' E V.
Proof.
  revert acked g. induction fs as [|f fs IH]; intros acked g H Hne Hr; cbn [replicate_all] in Hr.
  { by injection Hr as <- <-. }
  destruct (replicate_to save g L f) as [g1 r1] eqn:Hrep.
  pose proof (replicate_to_ok _ _ _ _ _ _ _ _ H (Hne f ltac:(apply elem_of_cons; by left)) Hrep) as H1.
  destruct r1; [|by injection Hr as <- <-]. apply (IH _ _ H1) in Hr; [done|].
  intros f' Hf'. apply Hne, elem_of_cons. by right.
Qed.

Lemma push_commit_ok save g E V L online :
  elections_ok g E V -> elections_ok (push_commit save g L online) E V.
Proof.
  unfold push_commit. generalize (voters g). intros l. revert g.
  induction l as [|f l IH]; intros g H; cbn [fold_left]; [done|]. apply IH.
  destruct (_ || _) eqn:Hs; [done|]. apply orb_false_iff in Hs as [Hs%Z.eqb_neq _].
  destruct (replicate_to save g L f) as [g1 r1] eqn:Hr. by eapply replicate_to_ok.
Qed.

Lemma advance_commit_ok g E V L : elections_ok g E V -> elections_ok (advance_commit g L) E V.
Proof.
  intros H. unfold advance_commit. destruct (peers g !! L); [|done].
  destruct (negb _); [done|]. destruct (List.find _ _); [|done]. by apply elections_upd_same.
Qed.

Lemma propose_ok save g E V L cmd online g' r :
  elections_ok g E V -> propose save g L cmd online = (g', r) -> elections_ok g' E V.
Proof.
  intros H Hr. unfold propose in Hr. destruct (peers g !! L) as [p|] eqn:Hp; [|by injection Hr as <- <-].
  destruct (negb _); [by injection Hr as <- <-|].
  set (g1 := with_peers g _) in Hr.
  assert (H1 : elections_ok g1 E V) by by apply (elections_same _ _ _ _ p).
  destruct (negb _).
  { injection Hr as <- <-. apply elections_upd_same; [done|]. intros q. by destruct (_ =? _). }
  destruct (replicate_all _ _ _ _ _ _) as [g2 r2] eqn:Hrep.
  apply replicate_all_ok with (E := E) (V := V) in Hrep; [|done|].
  2: { intros f Hf. apply list_elem_of_In, filter_In in Hf as [_ Hf].
       apply andb_true_iff in Hf as [Hf _]. by apply negb_true_iff, Z.eqb_neq in Hf. }
  destruct r2 as [acked|]; [|by injection Hr as <- <-].
  injection Hr as <- _. apply (advance_commit_ok _ _ _ L) in Hrep.
  destruct (_ <=? _); [by apply push_commit_ok|done].
Qed.

Lemma apply_loop_hard fuel p out : hard (fst (apply_loop fuel p out)) = hard p.
Proof.
  revert p out. induction fuel as [|fuel IH]; intros p out; cbn; [done|].
  destruct (_ <? _); [|done]. destruct (entry_at _ _); [|done]. by rewrite IH.
Qed.

Lemma take_apply_batch_ok g E V n :
  elections_ok g E V -> elections_ok (fst (take_apply_batch g n)) E V.
Proof.
  intros H. unfold take_apply_batch. destruct (peers g !! n) as [p|] eqn:Hp; [|done].
  destruct (apply_loop _ _ _) as [p' out] eqn:Ha. apply (elections_same _ _ _ _ p); [done..|].
  change p' with (fst (p', out)). by rewrite <- Ha, apply_loop_hard.
Qed.

Lemma install_local_snapshot_ok save ss g E V n i b :
  elections_ok g E V -> elections_ok (fst (install_local_snapshot save ss g n i b)) E V.
Proof.
  intros H. unfold install_local_snapshot. destruct (peers g !! n) as [p|] eqn:Hp; [|done].
  destruct (term_at p i); [|done].
  repeat match goal with |- context [if ?b then _ else _] =>
    lazymatch b with bool_decide (n ∈ _) => destruct b | _ && save _ _ => destruct b end end;
  by apply (elections_same _ _ _ _ p).
Qed.

(** ** Choosing a leader *)

Lemma try_candidates_ok save cands online g E V e g' r :
  NoDup vs -> Z.of_nat (length vs) < 2 ^ 32 -> elections_ok g E V ->
  try_candidates save g cands online e = (g', r) ->
  exists E' V', elections_ok g' E' V' /\ E ⊆ E' /\ (forall lt, r = Ok lt -> lt ∈ E').
Proof.
  intros Hnd Hsm. revert g E V e. induction cands as [|c cs IH]; intros g E V e H Ht; cbn in Ht.
  { injection Ht as <- <-. exists E, V. split; [done|]. split; [done|]. done. }
  destruct (elect save g c online) as [g1 r1] eqn:He.
  destruct (elect_ok _ _ _ _ _ _ _ _ Hnd Hsm H He) as [V1 H1]. destruct r1 as [lt|e1].
  - injection Ht as <- <-. exists (lt :: E), V1. split; [done|].
    split; [by apply list_subseteq_cons|]. intros x [= <-]. apply elem_of_cons. by left.
  - destruct (IH _ _ _ _ H1 Ht) as (E' & V' & ? & ? & ?). by exists E', V'.
Qed.

Lemma leader_scan_ok g E V l best lt : elections_ok g E V ->
  (forall x, best = Some x -> x ∈ E) -> leader_scan g l best = Some lt -> lt ∈ E.
Proof.
  intros H. revert best. induction l as [|v l IH]; intros best Hb Hs; cbn in Hs; [by apply Hb|].
  destruct (peers g !! v) as [p|] eqn:Hp; [|done]. eapply IH; [|exact Hs].
  intros x Hx. destruct (bool_decide_reflect (role p = Leader)) as [Hl|]; [|by apply Hb].
  pose proof (eo_leader _ _ _ H _ _ Hp Hl) as HE.
  destruct best as [[b t]|]; [|by injection Hx as <-].
  destruct (t <? current_term p); [by injection Hx as <-|by apply Hb].
Qed.

Lemma ensure_leader_ok save g E V online pref g' r :
  NoDup vs -> Z.of_nat (length vs) < 2 ^ 32 -> elections_ok g E V ->
  ensure_leader_preferring save g online pref = (g', r) ->
  exists E' V', elections_ok g' E' V' /\ E ⊆ E' /\ (forall lt, r = Ok lt -> lt ∈ E').
Proof.
  intros Hnd Hsm H He. unfold ensure_leader_preferring in He.
  assert (Hcont : forall g0 g' r, elections_ok g0 E V ->
    match online with
    | [] => (g0, Err NoOnlineVoters)
    | _ => match List.filter (fun n => bool_decide (n ∈ voters g0)) online with
           | [] => (g0, Err NoOnlineVoters)
           | cands => try_candidates save g0 (sort_cands (cand_leb g0 pref) cands) online
                        (NoQuorum 0 (quorum g0))
           end
    end = (g', r) ->
    exists E' V', elections_ok g' E' V' /\ E ⊆ E' /\ (forall lt, r = Ok lt -> lt ∈ E')).
  { clear He. intros g0 g1 r1 H0 Hm. destruct online; [injection Hm as <- <-; by exists E, V|].
    destruct (List.filter _ _); [injection Hm as <- <-; by exists E, V|].
    by eapply try_candidates_ok. }
  destruct (current_leader g) as [[leader t]|] eqn:Hc; [|by apply (Hcont g)].
  destruct (bool_decide _).
  - injection He as <- <-. exists E, V. split; [done|]. split; [done|]. intros lt [= <-].
    eapply leader_scan_ok; [done| |exact Hc]. done.
  - eapply Hcont; [|exact He]. apply elections_step_down; [done|]. by right.
Qed.
End Elections.

(** ** Runs of a group with a fixed membership *)

(** One operation of the group; the second argument lists what it reported as
    leader of a term.  Whether flushes succeed is chosen anew at every step. *)
Inductive rstep : PartitionRaft -> Elections -> PartitionRaft -> Prop :=
| step_elect save g c online g' lt :
    elect save g c online = (g', Ok lt) -> rstep g [lt] g'
| step_elect_fails save g c online g' e :
    elect save g c online = (g', Err e) -> rstep g [] g'
| step_ensure save g online pref g' lt :
    ensure_leader_preferring save g online pref = (g', Ok lt) -> rstep g [lt] g'
| step_ensure_fails save g online pref g' e :
    ensure_leader_preferring save g online pref = (g', Err e) -> rstep g [] g'
| step_propose save g L cmd online g' r :
    propose save g L cmd online = (g', r) -> rstep g [] g'
| step_apply g n : rstep g [] (fst (take_apply_batch g n))
| step_sync g L f : rstep g [] (sync_follower_commit g L f)
| step_snapshot save ss g n i b : rstep g [] (fst (install_local_snapshot save ss g n i b))
| step_attach g n : rstep g [] (attach_store g n).

Inductive raft_run (part : Z) (vs : list NodeId) (epoch : Z) : PartitionRaft -> Elections -> Prop :=
| run_start : raft_run part vs epoch (raft_new part vs epoch) []
| run_step g H g' ev :
    raft_run part vs epoch g H -> rstep g ev g' -> raft_run part vs epoch g' (ev ++ H).

Lemma raft_new_peers vs : forall (m : gmap Z RaftPeer) n p,
  (forall n p, m !! n = Some p -> p = peer_new n) ->
  fold_left (fun m v => <[v := peer_new v]> m) vs m !! n = Some p -> p = peer_new n.
Proof.
  induction vs as [|v vs IH]; intros m n p Hm; cbn; [apply Hm|].
  apply IH. intros k q Hq. destruct (decide (k = v)) as [->|Hne].
  - rewrite lookup_insert_eq in Hq. by injection Hq.
  - rewrite lookup_insert_ne in Hq by done. by apply Hm.
Qed.

Lemma raft_new_ok part vs epoch : elections_ok vs (raft_new part vs epoch) [] [].
Proof.
  split.
  - done.
  - by intros v t c ?%elem_of_nil.
  - by intros v t c c' ?%elem_of_nil.
  - by intros c t ?%elem_of_nil.
  - by intros c t ?%elem_of_nil.
  - intros n p Hp Hr. apply raft_new_peers in Hp; [by subst|]. by intros.
Qed.

Lemma rstep_ok vs g E V ev g' :
  NoDup vs -> Z.of_nat (length vs) < 2 ^ 32 -> elections_ok vs g E V -> rstep g ev g' ->
  exists E' V', elections_ok vs g' E' V' /\ E ⊆ E' /\ ev ⊆ E'.
Proof.
  intros Hnd Hsm H Hs.
  assert (Hnil : E ⊆ E /\ [] ⊆ E) by (split; [done|apply list_subseteq_nil]). destruct Hs.
  - destruct (elect_ok _ _ _ _ _ _ _ _ _ Hnd Hsm H H0) as [V' H']. exists (lt :: E), V'.
    split; [done|]. split; [by apply list_subseteq_cons|]. intros x ->%list_elem_of_singleton.
    apply elem_of_cons. by left.
  - destruct (elect_ok _ _ _ _ _ _ _ _ _ Hnd Hsm H H0) as [V' H']. exists E, V'. split; [done|apply Hnil].
  - destruct (ensure_leader_ok _ _ _ _ _ _ _ _ _ Hnd Hsm H H0) as (E' & V' & H1 & H2 & H3).
    exists E', V'. split; [done|]. split; [done|]. intros x ->%list_elem_of_singleton. by apply H3.
  - destruct (ensure_leader_ok _ _ _ _ _ _ _ _ _ Hnd Hsm H H0) as (E' & V' & H1 & H2 & H3).
    exists E', V'. split; [done|]. split; [done|apply list_subseteq_nil].
  - exists E, V. split; [by eapply propose_ok|apply Hnil].
  - exists E, V. split; [by apply take_apply_batch_ok|apply Hnil].
  - exists E, V. split; [|apply Hnil]. apply elections_upd_same; [done|]. intros p. by destruct (_ <? _).
  - exists E, V. split; [by apply install_local_snapshot_ok|apply Hnil].
  - exists E, V. split; [|apply Hnil]. destruct H; by split.
Qed.

Lemma raft_run_ok part vs epoch g H :
  NoDup vs -> Z.of_nat (length vs) < 2 ^ 32 -> raft_run part vs epoch g H ->
  exists E V, elections_ok vs g E V /\ H ⊆ E.
Proof.
  intros Hnd Hsm. induction 1 as [|g H g' ev _ (E & V & Hok & Hsub) Hs].
  - exists [], []. split; [apply raft_new_ok|done].
  - destruct (rstep_ok _ _ _ _ _ _ Hnd Hsm Hok Hs) as (E' & V' & H1 & H2 & H3).
    exists E', V'. split; [done|]. intros x [Hx|Hx]%elem_of_app; [by apply H3|]. by apply H2, Hsub.
Qed.

(** C9. Election safety: in any run of a partition group over a fixed set of
    voters -- elections, leader selection, proposals with replication, snapshots,
    apply batches, with flushes failing at will -- two successful elections of
    the same term name the same node, and two peers that hold the leader role in
    the same term are the same peer. *)
Theorem election_safety part vs epoch g H :
  NoDup vs -> Z.of_nat (length vs) < 2 ^ 32 -> raft_run part vs epoch g H ->
  (forall c1 c2 t, (c1, t) ∈ H -> (c2, t) ∈ H -> c1 = c2) /\
  (forall n1 n2 p1 p2, peers g !! n1 = Some p1 -> peers g !! n2 = Some p2 ->
     role p1 = Leader -> role p2 = Leader -> current_term p1 = current_term p2 -> n1 = n2).
Proof.
  intros Hnd Hsm Hrun. destruct (raft_run_ok _ _ _ _ _ Hnd Hsm Hrun) as (E & V & Hok & Hsub). split.
  - intros c1 c2 t H1 H2. apply (elections_unique vs g E V c1 c2 t); auto.
  - intros n1 n2 p1 p2 Hp1 Hp2 Hr1 Hr2 Ht.
    apply (elections_unique vs g E V n1 n2 (current_term p1)); [done|by eapply eo_leader|].
    rewrite Ht. by eapply eo_leader.
Qed.

(** A granted vote is binding and justified: the voter's term becomes the
    candidate's, its vote is recorded for that candidate, it had not voted for
    anyone else in that term, the candidate's log is at least as up to date as
    its own, and the flush of the new hard state succeeded. *)
Theorem vote_granted_justified save g v c t li lt g' res p :
  request_vote save g v c t li lt = (g', res) -> vote_granted res = true ->
  peers g !! v = Some p ->
  exists p', peers g' !! v = Some p' /\ current_term p' = t /\ voted_for p' = Some c /\
    log p' = log p /\ current_term p <= t /\
    (current_term p = t -> voted_for p = None \/ voted_for p = Some c) /\
    (last_log_term p < lt \/ (last_log_term p = lt /\ last_log_index p <= li)) /\
    flush_peer save g' v = true.
Proof.
  intros Hr Hg Hp. unfold request_vote in Hr. rewrite Hp in Hr.
  destruct (Z.ltb_spec t (current_term p)) as [|Hle]; [by injection Hr as <- <-|].
  set (p1 := if current_term p <? t then become_follower p t else p) in Hr.
  assert (Hp1 : log p1 = log p /\ (current_term p = t -> voted_for p1 = voted_for p)).
  { unfold p1. destruct (Z.ltb_spec (current_term p) t); cbn; [split; [done|lia]|done]. }
  destruct Hp1 as [Hlog Hvote].
  destruct (_ && _) eqn:Hcan; [|by injection Hr as <- <-].
  destruct (flush_peer save _ v) eqn:Hfl; cbn [negb] in Hr; injection Hr as <- <-; [|done].
  apply andb_true_iff in Hcan as [Hcan Hup]. eexists. cbn [peers with_peers].
  rewrite lookup_insert_eq. split; [reflexivity|]. cbn. split; [done|]. split; [done|].
  split; [done|]. split; [done|]. split; [|split; [|done]].
  - intros He. rewrite <- (Hvote He). destruct (voted_for p1) as [x|]; [|by left].
    apply Z.eqb_eq in Hcan as ->. by right.
  - unfold log_at_least_as_up_to_date, last_log_term, last_log_index in *. rewrite Hlog in Hup.
    destruct (Z.eqb_spec lt (match last (log p) with Some e => e_term e | None => 0 end)); cbn in Hup;
      boolify; [right|left]; lia.
Qed.

(** ** Witnesses *)

Definition sample_group : PartitionRaft := raft_new 0 [0; 1; 2] 1.
Definition always_saves (_ : NodeId) (_ : RaftPeer) : bool := true.
Definition sample_elected : PartitionRaft := fst (elect always_saves sample_group 0 [0; 1; 2]).

Lemma election_safety_witness :
  raft_run 0 [0; 1; 2] 1 sample_elected [(0, 1)] /\
  forall c, (c, 1) ∈ [(0, 1)] -> c = 0.
Proof.
  assert (Hrun : raft_run 0 [0; 1; 2] 1 sample_elected [(0, 1)]).
  { apply (run_step _ _ _ _ _ _ [(0, 1)] (run_start _ _ _)).
    apply (step_elect always_saves _ 0 [0; 1; 2]). vm_compute. reflexivity. }
  split; [exact Hrun|]. intros c Hc.
  refine (proj1 (election_safety 0 [0; 1; 2] 1 sample_elected [(0, 1)] _ _ Hrun) c 0 1 Hc _).
  - apply (bool_decide_unpack (NoDup _)). vm_compute. exact I.
  - vm_compute. reflexivity.
  - apply elem_of_cons. by left.
Defined.

Lemma vote_granted_justified_witness : exists p',
  peers (fst (request_vote always_saves sample_group 1 0 1 0 0)) !! 1 = Some p' /\
  voted_for p' = Some 0.
Proof.
  destruct (vote_granted_justified always_saves sample_group 1 0 1 0 0
    (fst (request_vote always_saves sample_group 1 0 1 0 0))
    (snd (request_vote always_saves sample_group 1 0 1 0 0)) (peer_new 1)
    ltac:(vm_compute; reflexivity) ltac:(vm_compute; reflexivity) ltac:(vm_compute; reflexivity))
    as (p' & H & _ & Hv & _).
  exists p'. split; [exact H|exact Hv].
Defined.
