(* ===== verification/RaftLogFacts.v ===== *)
(** * Safety of the partition group: logs, replication and commitment

    Theorems about [Raft.v].  [indexed] is the layout the accessors rely on
    (vector position [i] holds index [i + 1]); every operation but the snapshot
    installer keeps it.  AppendEntries makes the follower agree with what was
    sent, and a committed proposal is in the logs of a quorum. *)
From S2P Require Import Prelude Raft RaftFacts.

Lemma take_of_take {A} (l : list A) n m : (n <= m)%nat -> take n (take m l) = take n l.
Proof. intros. rewrite take_take. f_equal. lia. Qed.

Lemma last_drop {A} (l : list A) n : (n < length l)%nat -> last (drop n l) = last l.
Proof.
  intros Hn. rewrite <- (take_drop n l) at 2. rewrite last_app.
  destruct (last (drop n l)) eqn:E; [done|]. apply last_None in E.
  apply (f_equal length) in E. rewrite length_drop in E. cbn in E. lia.
Qed.

Definition indexed (l : list LogEntry) : Prop :=
  forall i e, l !! i = Some e -> e_index e = Z.of_nat i + 1.

(** Entries with consecutive indices after [prev]. *)
Definition follows (prev : nat) (es : list LogEntry) : Prop :=
  forall j e, es !! j = Some e -> e_index e = Z.of_nat (prev + j) + 1.

Lemma indexed_nil : indexed [].
Proof. by intros i e Hi. Qed.
Lemma indexed_take n l : indexed l -> indexed (take n l).
Proof. intros H i e [Hi _]%lookup_take_Some. by apply H. Qed.
Lemma indexed_snoc l e : indexed l -> e_index e = Z.of_nat (length l) + 1 -> indexed (l ++ [e]).
Proof.
  intros H He i x Hx. apply lookup_app_Some in Hx as [Hx|[Hge Hx]]; [by apply H|].
  destruct (i - length l)%nat eqn:Ei; [|done]. injection Hx as <-. rewrite He. f_equal. lia.
Qed.
Lemma indexed_prefix l e : indexed (l ++ [e]) -> indexed l.
Proof. intros H i x Hx. apply H. by apply lookup_app_l_Some. Qed.
Lemma indexed_last l : indexed l -> log_last_index l = Z.of_nat (length l).
Proof.
  intros H. unfold log_last_index. destruct l as [|x l _] using rev_ind; [done|].
  rewrite last_snoc. rewrite (H (length l) x).
  - rewrite length_app. cbn. lia.
  - by apply list_lookup_middle.
Qed.
Lemma follows_cons prev e es : follows prev (e :: es) <->
  e_index e = Z.of_nat prev + 1 /\ follows (S prev) es.
Proof.
  unfold follows. split.
  - intros H. split; [rewrite (H 0%nat e eq_refl); lia|]. intros j x Hj.
    rewrite (H (S j) x Hj). lia.
  - intros [He H] [|j] x Hj; [injection Hj as <-; lia|]. rewrite (H j x Hj). lia.
Qed.
Lemma follows_drop l n : indexed l -> follows n (drop n l).
Proof. intros H j e Hj. rewrite lookup_drop in Hj. by apply H. Qed.

(** ** The follower's log *)

Definition terms_agree (prev : nat) (es l : list LogEntry) : Prop :=
  forall j e x, es !! j = Some e -> l !! (prev + j)%nat = Some x -> e_term x = e_term e.

(** What the append loop achieves on a log [l] that matches up to [prev]. *)
Record appended (prev : nat) (es l l' : list LogEntry) : Prop := {
  ap_indexed : indexed l';
  ap_below : take prev l' = take prev l;
  ap_length : (prev + length es <= length l')%nat;
  ap_terms : terms_agree prev es l';
  ap_keeps : terms_agree prev es l -> l `prefix_of` l';
  ap_nil : es = [] -> l' = l }.

(** The first entry replaces the tail of the log from [prev] on. *)
Lemma appended_replace prev e es l l' : (prev <= length l)%nat ->
  appended (S prev) es (take prev l ++ [e]) l' ->
  take prev l' = take prev l /\ terms_agree prev (e :: es) l' /\ take prev l ++ [e] `prefix_of` l'.
Proof.
  intros Hp [_ H3 H4 H5 _ _].
  assert (Hlen : length (take prev l ++ [e]) = S prev)
    by (rewrite length_app, length_take; cbn; lia).
  assert (Hpre : take (S prev) l' = take prev l ++ [e]) by (rewrite H3; apply take_ge; lia).
  split; [by rewrite <- (take_of_take l' prev (S prev)), Hpre, take_app_length' by (rewrite ?length_take; lia)|].
  split; [|rewrite <- Hpre; apply prefix_take]. intros [|j] x y Hj Hy.
  - injection Hj as <-. rewrite Nat.add_0_r in Hy.
    assert (Hy' : take (S prev) l' !! prev = Some y) by (rewrite lookup_take_lt by lia; done).
    rewrite Hpre, lookup_app_r, length_take, Nat.min_l, Nat.sub_diag in Hy' by (rewrite ?length_take; lia).
    by injection Hy' as <-.
  - apply (H5 j x y Hj). by rewrite <- Nat.add_succ_comm in Hy.
Qed.

(** The first entry is already there. *)
Lemma appended_skip prev e es l l' x : l !! prev = Some x -> e_term x = e_term e ->
  appended (S prev) es l l' -> appended prev (e :: es) l l'.
Proof.
  intros Hx Heq [H2 H3 H4 H5 H6 _].
  assert (Hsame : l' !! prev = Some x).
  { rewrite <- (lookup_take_lt l' (S prev)), H3, lookup_take_lt by lia. done. }
  split; [done| |cbn; lia| | |done].
  - rewrite <- (take_of_take l' prev (S prev)), H3, take_of_take by lia. done.
  - intros [|j] y z Hj Hz; [injection Hj as <-; rewrite Nat.add_0_r in Hz; congruence|].
    apply (H5 j y z Hj). by rewrite <- Nat.add_succ_comm in Hz.
  - intros Hag. apply H6. intros j y z Hj Hz. apply (Hag (S j) y z Hj).
    by rewrite <- Nat.add_succ_comm.
Qed.

Lemma append_log_spec es prev l : indexed l -> follows prev es -> (prev <= length l)%nat ->
  exists l', append_log l es = (l', None) /\ appended prev es l l'.
Proof.
  revert prev l. induction es as [|e es IH]; intros prev l Hl Hf Hp.
  { exists l. split; [done|]. split; [done|done|cbn; lia|by intros j x y Hj|done|done]. }
  apply follows_cons in Hf as [He Hf]. cbn [append_log]. unfold log_entry_at.
  rewrite He, (proj2 (Z.eqb_neq _ _)) by lia.
  replace (Z.to_nat (Z.of_nat prev + 1 - 1)) with prev by lia.
  destruct (IH (S prev) (take prev l ++ [e])) as (l1 & Hrun & Hap); [|done|rewrite length_app, length_take; cbn; lia|].
  { apply indexed_snoc; [by apply indexed_take|]. rewrite length_take. lia. }
  destruct (appended_replace _ _ _ _ _ Hp Hap) as (Hbelow & Hterms & Hpre).
  pose proof (ap_length _ _ _ _ Hap) as Hlen1.
  destruct (l !! prev) as [x|] eqn:Hx.
  - destruct (Z.eqb_spec (e_term x) (e_term e)) as [Heq|Hne]; cbn [negb].
    + destruct (IH (S prev) l) as (l' & H1 & H2); [done|done|by apply lookup_lt_Some in Hx|].
      exists l'. split; [done|]. by apply (appended_skip _ _ _ _ _ x).
    + exists l1. split; [done|]. split; [apply Hap|done|cbn; lia|done| |done].
      intros Hag. destruct Hne. apply (Hag O e x eq_refl). by rewrite Nat.add_0_r.
  - apply lookup_ge_None in Hx. rewrite indexed_last by done.
    assert (length l = prev) as Hlen by lia. rewrite Hlen, Z.eqb_refl. cbn [negb].
    assert (Ht : take prev l = l) by (apply take_ge; lia). rewrite Ht in *.
    exists l1. split; [done|]. split; [apply Hap|by rewrite Ht|cbn; lia|done| |done].
    intros _. etrans; [|exact Hpre]. by exists [e].
Qed.

(** ** AppendEntries *)

(** What a follower's reply says about its state after the call. *)
Record append_post (save : NodeId -> RaftPeer -> bool) (g g' : PartitionRaft) (f : NodeId)
    (p p' : RaftPeer) (t prev pt : Z) (es : list LogEntry) (lc : Z) (res : AppendResult) : Prop := {
  po_peer : peers g' !! f = Some p';
  po_voters : voters g' = voters g;
  po_others n : n <> f -> peers g' !! n = peers g !! n;
  po_term : current_term p' = t;
  po_reply : ar_term res = t;
  po_outcome :
    (ar_success res = false /\ log p' = log p /\ commit_index p' = commit_index p) \/
    ((0 < prev -> term_at p prev = Some pt) /\ appended (Z.to_nat prev) es (log p) (log p') /\
     ar_success res = flush_peer save g' f /\
     commit_index p' =
       (if commit_index p <? lc then Z.min lc (last_log_index p') else commit_index p)) }.

Lemma adopt_leader_fields p L t : current_term p <= t ->
  log (adopt_leader p L t) = log p /\ commit_index (adopt_leader p L t) = commit_index p /\
  current_term (adopt_leader p L t) = t.
Proof.
  intros Ht. unfold adopt_leader. destruct ((_ || _ || _) && _) eqn:Hc; [done|].
  split; [done|]. split; [done|]. apply andb_false_iff in Hc as [Hc|Hc]; boolify; lia.
Qed.

Lemma append_entries_spec save g f L t prev pt es lc g' res p :
  append_entries save g f L t prev pt es lc = (g', res) -> peers g !! f = Some p ->
  indexed (log p) -> 0 <= prev -> follows (Z.to_nat prev) es -> current_term p <= t ->
  exists p', append_post save g g' f p p' t prev pt es lc res.
Proof.
  intros Ha Hp Hi Hprev Hf Ht. unfold append_entries in Ha. rewrite Hp in Ha.
  rewrite (proj2 (Z.ltb_ge _ _)) in Ha by done.
  destruct (adopt_leader_fields p L t Ht) as (Hl1 & Hc1 & Ht1).
  set (p1 := adopt_leader p L t) in *.
  assert (Hterm : forall i, term_at p1 i = term_at p i) by (intros i; unfold term_at; by rewrite Hl1).
  assert (Hrefuse : forall c, refuse_append g f p1 c = (g', res) ->
    exists p', append_post save g g' f p p' t prev pt es lc res).
  { intros c [= <- <-]. exists p1. split; cbn; try done.
    - by rewrite lookup_insert_eq.
    - intros n Hn. by rewrite lookup_insert_ne.
    - left. by rewrite Hl1. }
  assert (Haccept : (0 < prev -> term_at p prev = Some pt) -> (Z.to_nat prev <= length (log p))%nat ->
    accept_append save g f p1 es lc = (g', res) ->
    exists p', append_post save g g' f p p' t prev pt es lc res).
  { intros Hpt Hle Hacc. unfold accept_append in Hacc. rewrite Hl1 in Hacc.
    destruct (append_log_spec es (Z.to_nat prev) (log p) Hi Hf Hle) as (l' & Hrun & Hap).
    rewrite Hrun in Hacc. change (commit_index (set_log p1 l')) with (commit_index p1) in Hacc.
    rewrite Hc1 in Hacc. injection Hacc as <- <-. eexists. split.
    - cbn. by rewrite lookup_insert_eq.
    - done.
    - intros n Hn. cbn. by rewrite lookup_insert_ne.
    - destruct (commit_index p <? lc); exact Ht1.
    - cbn [ar_term]. destruct (commit_index p <? lc); exact Ht1.
    - right. split; [done|]. cbn [ar_success].
      destruct (commit_index p <? lc); by split_and!. }
  destruct (Z.ltb_spec 0 prev) as [Hpos|Hz].
  - rewrite Hterm in Ha. destruct (term_at p prev) as [x|] eqn:Hx; [|by apply Hrefuse in Ha].
    destruct (Z.eqb_spec x pt) as [->|]; [|by apply Hrefuse in Ha]. apply Haccept; [done| |done].
    unfold term_at in Hx. rewrite (proj2 (Z.eqb_neq _ _)) in Hx by lia.
    apply fmap_Some in Hx as (e & He & _). apply lookup_lt_Some in He. lia.
  - apply Haccept; [lia| |done]. lia.
Qed.

(** ** Replication keeps every log indexed *)

Definition logs_indexed (g : PartitionRaft) : Prop :=
  forall n p, peers g !! n = Some p -> indexed (log p).

Lemma sent_entries_from l off next : (forall i e, l !! i = Some e -> e_index e = off + Z.of_nat i + 1) ->
  List.filter (fun e => next <=? e_index e) l = drop (Z.to_nat (next - 1 - off)) l.
Proof.
  revert off. induction l as [|e l IH]; intros off H; [by rewrite drop_nil|]. cbn [List.filter].
  pose proof (H 0%nat e eq_refl) as He.
  assert (Hl : forall i x, l !! i = Some x -> e_index x = (off + 1) + Z.of_nat i + 1)
    by (intros i x Hx; rewrite (H (S i) x Hx); lia).
  destruct (Z.leb_spec next (e_index e)) as [Hle|Hgt].
  - replace (Z.to_nat (next - 1 - off)) with 0%nat by lia. rewrite drop_0. f_equal.
    rewrite (IH _ Hl). replace (Z.to_nat _) with 0%nat by lia. done.
  - rewrite (IH _ Hl). replace (Z.to_nat (next - 1 - off)) with (S (Z.to_nat (next - 1 - (off + 1)))) by lia.
    done.
Qed.

Lemma sent_entries l next : indexed l ->
  List.filter (fun e => next <=? e_index e) l = drop (Z.to_nat (sat_sub next 1)) l.
Proof.
  intros H. rewrite (sent_entries_from l 0) by (intros i e Hi; rewrite (H i e Hi); lia).
  f_equal. unfold sat_sub. lia.
Qed.

Lemma logs_indexed_insert g n p :
  logs_indexed g -> indexed (log p) -> logs_indexed (with_peers g (<[n := p]> (peers g))).
Proof.
  intros H Hp m q Hq. cbn in Hq. destruct (decide (m = n)) as [->|Hne].
  - rewrite lookup_insert_eq in Hq. by injection Hq as <-.
  - rewrite lookup_insert_ne in Hq by done. by apply (H m).
Qed.
Lemma logs_indexed_upd g n f :
  logs_indexed g -> (forall p, peers g !! n = Some p -> indexed (log (f p))) -> logs_indexed (upd g n f).
Proof.
  intros H Hf. destruct (peers g !! n) as [p|] eqn:Hp; [|by rewrite upd_missing].
  rewrite (upd_lookup _ _ _ p) by done. apply logs_indexed_insert; auto.
Qed.
Lemma logs_indexed_upd_same g n f :
  logs_indexed g -> (forall p, log (f p) = log p) -> logs_indexed (upd g n f).
Proof.
  intros H Hf. apply logs_indexed_upd; [done|]. intros p Hp. rewrite Hf. by apply (H n).
Qed.

Lemma append_entries_indexed save g f L t prev pt es lc g' res :
  logs_indexed g -> 0 <= prev -> follows (Z.to_nat prev) es ->
  append_entries save g f L t prev pt es lc = (g', res) -> logs_indexed g'.
Proof.
  intros H Hprev Hf Ha. destruct (peers g !! f) as [p|] eqn:Hp.
  2: { unfold append_entries in Ha. rewrite Hp in Ha. by injection Ha as <- <-. }
  destruct (Z_lt_le_dec t (current_term p)) as [Hlt|Hle].
  { unfold append_entries in Ha. rewrite Hp, (proj2 (Z.ltb_lt _ _)) in Ha by done.
    by injection Ha as <- <-. }
  destruct (append_entries_spec _ _ _ _ _ _ _ _ _ _ _ _ Ha Hp (H f p Hp) Hprev Hf Hle) as [p' []].
  intros n q Hq. destruct (decide (n = f)) as [->|Hne].
  - assert (q = p') as -> by congruence. destruct po_outcome0 as [(_ & -> & _)|(_ & Hap & _)]; [by apply (H f)|].
    apply Hap.
  - rewrite po_others0 in Hq by done. by apply (H n).
Qed.

Lemma replicate_loop_indexed save fuel g L f :
  logs_indexed g -> logs_indexed (fst (replicate_loop save fuel g L f)).
Proof.
  revert g. induction fuel as [|fuel IH]; intros g H; cbn [replicate_loop]; [done|].
  destruct (peers g !! L) as [p|] eqn:Hp; [|done]. destruct (negb _); [done|].
  rewrite sent_entries by by apply (H L). set (prev := sat_sub _ 1).
  destruct (append_entries _ _ _ _ _ _ _ _ _) as [g1 res] eqn:Ha.
  apply append_entries_indexed in Ha; [|done|unfold prev, sat_sub; lia|apply follows_drop; by apply (H L)].
  destruct (_ <? _); [by apply logs_indexed_upd_same|].
  destruct (ar_success res); [by apply logs_indexed_upd_same|].
  destruct (peers g1 !! L) as [q|] eqn:Hq; [|by apply IH].
  destruct (back_off _ _ _ _) as [q' stop] eqn:Hb.
  assert (Hl : log q' = log q).
  { unfold back_off in Hb. destruct (if 1 <? _ then _ else _). by injection Hb as <- <-. }
  assert (H2 : logs_indexed (with_peers g1 (<[L := q']> (peers g1)))).
  { apply logs_indexed_insert; [done|]. rewrite Hl. by apply (Ha L). }
  destruct stop; [done|by apply IH].
Qed.
Lemma replicate_to_eq save g L f : replicate_to save g L f = replicate_loop save 64 g L f.
Proof. reflexivity. Qed.
Lemma replicate_to_indexed save g L f :
  logs_indexed g -> logs_indexed (fst (replicate_to save g L f)).
Proof. unfold replicate_to. generalize 64%nat. intros n. apply replicate_loop_indexed. Qed.
#[local] Opaque replicate_to.

Lemma replicate_all_indexed save L n fs acked g :
  logs_indexed g -> logs_indexed (fst (replicate_all save g L n fs acked)).
Proof.
  revert g acked. induction fs as [|f fs IH]; intros g acked H; cbn [replicate_all]; [done|].
  pose proof (replicate_to_indexed save g L f H) as H1.
  destruct (replicate_to save g L f) as [g1 [|]]; [by apply IH|done].
Qed.

Lemma push_commit_indexed save g L online :
  logs_indexed g -> logs_indexed (push_commit save g L online).
Proof.
  unfold push_commit. generalize (voters g). intros l. revert g.
  induction l as [|f l IH]; intros g H; cbn [fold_left]; [done|]. apply IH.
  destruct (_ || _); [done|]. by apply replicate_to_indexed.
Qed.

Lemma advance_commit_indexed g L : logs_indexed g -> logs_indexed (advance_commit g L).
Proof.
  intros H. unfold advance_commit. destruct (peers g !! L); [|done].
  destruct (negb _); [done|]. destruct (List.find _ _); [|done]. by apply logs_indexed_upd_same.
Qed.

Lemma propose_indexed save g L cmd online :
  logs_indexed g -> logs_indexed (fst (propose save g L cmd online)).
Proof.
  intros H. unfold propose. destruct (peers g !! L) as [p|] eqn:Hp; [|done].
  destruct (negb _); [done|]. set (g1 := with_peers g _).
  assert (H1 : logs_indexed g1).
  { apply logs_indexed_insert; [done|]. cbn. apply indexed_snoc; [by apply (H L)|]. cbn.
    unfold last_log_index. by rewrite indexed_last by (by apply (H L)). }
  destruct (negb _).
  { apply logs_indexed_upd; [done|]. intros q Hq. apply H1 in Hq. destruct (_ =? _); [|done]. cbn.
    destruct (log q) as [|x l _] using rev_ind; [done|]. rewrite removelast_last. by apply indexed_prefix in Hq. }
  pose proof (replicate_all_indexed save L (last_log_index p + 1)
    (List.filter (fun v => negb (v =? L) && bool_decide (v ∈ online)) (voters g1)) [L] g1 H1) as H2.
  destruct (replicate_all _ _ _ _ _ _) as [g2 [acked|]]; [|done]. cbn [fst] in *.
  apply (advance_commit_indexed _ L) in H2. destruct (_ <=? _); [by apply push_commit_indexed|done].
Qed.

(** ** Elections and membership changes keep every log indexed *)

Lemma request_vote_indexed save g v c t li lt :
  logs_indexed g -> logs_indexed (fst (request_vote save g v c t li lt)).
Proof.
  intros H. unfold request_vote. destruct (peers g !! v) as [p|] eqn:Hp; [|done].
  destruct (t <? current_term p); [done|].
  assert (Hl : indexed (log (if current_term p <? t then become_follower p t else p)))
    by (destruct (_ <? _); exact (H v p Hp)).
  destruct (_ && _); [destruct (negb _)|]; by apply logs_indexed_insert.
Qed.

Lemma solicit_indexed save c online t li lt l g n :
  logs_indexed g -> logs_indexed (fst (fst (solicit save g c online t li lt l n))).
Proof.
  revert g n. induction l as [|v l IH]; intros g n H; cbn [solicit]; [done|].
  destruct (_ || _); [by apply IH|].
  pose proof (request_vote_indexed save g v c t li lt H) as H1.
  destruct (request_vote save g v c t li lt) as [g1 res]. destruct (_ <? _); [done|]. by apply IH.
Qed.

Lemma step_down_others_indexed g c t : logs_indexed g -> logs_indexed (step_down_others g c t).
Proof.
  unfold step_down_others. generalize (voters g). intros l. revert g.
  induction l as [|v l IH]; intros g H; cbn [fold_left]; [done|]. apply IH.
  destruct (_ =? _); [done|]. apply logs_indexed_upd_same; [done|]. intros p. by destruct (_ && _).
Qed.

Lemma elect_indexed save g c online :
  logs_indexed g -> logs_indexed (fst (elect save g c online)).
Proof.
  intros H. unfold elect. destruct (negb _); [done|]. destruct (negb _); [done|].
  destruct (peers g !! c) as [p|] eqn:Hp; [|done]. set (cand := set_role _ Candidate).
  set (g1 := with_peers g (<[c := cand]> (peers g))).
  assert (H1 : logs_indexed g1) by (apply logs_indexed_insert; [done|exact (H c p Hp)]).
  destruct (negb _); [by apply logs_indexed_upd_same|].
  pose proof (solicit_indexed save c online (current_term p + 1) (last_log_index cand)
    (last_log_term cand) (voters g1) g1 1 H1) as H2.
  destruct (solicit _ _ _ _ _ _ _ _ _) as [[g2 n] [hi|]]; cbn [fst] in H2; [by apply logs_indexed_upd_same|].
  destruct (_ <=? _); [|by apply logs_indexed_upd_same].
  apply logs_indexed_upd_same; [by apply step_down_others_indexed|done].
Qed.

Lemma try_candidates_indexed save cands online e g :
  logs_indexed g -> logs_indexed (fst (try_candidates save g cands online e)).
Proof.
  revert g e. induction cands as [|c cs IH]; intros g e H; cbn [try_candidates]; [done|].
  pose proof (elect_indexed save g c online H) as H1.
  destruct (elect save g c online) as [g1 [|]]; [done|by apply IH].
Qed.

Lemma ensure_leader_indexed save g online pref :
  logs_indexed g -> logs_indexed (fst (ensure_leader_preferring save g online pref)).
Proof.
  intros H. unfold ensure_leader_preferring.
  destruct (current_leader g) as [[l t]|].
  - destruct (bool_decide _); [done|].
    assert (H1 : logs_indexed (upd g l (fun p => set_role p Follower))) by by apply logs_indexed_upd_same.
    destruct online; [done|]. destruct (List.filter _ _); [done|]. by apply try_candidates_indexed.
  - destruct online; [done|]. destruct (List.filter _ _); [done|]. by apply try_candidates_indexed.
Qed.

Lemma ensure_peers_indexed l g : logs_indexed g -> logs_indexed (fold_left ensure_peer l g).
Proof.
  revert g. induction l as [|n l IH]; intros g H; cbn [fold_left]; [done|]. apply IH.
  unfold ensure_peer. destruct (peers g !! n); [done|]. by apply logs_indexed_insert.
Qed.

Lemma step_down_outsiders_indexed g : logs_indexed g -> logs_indexed (step_down_outsiders g).
Proof.
  intros H n p Hp. cbn in Hp. rewrite map_lookup_imap in Hp.
  destruct (peers g !! n) as [q|] eqn:Hq; [|done]. cbn in Hp. injection Hp as <-.
  destruct (_ && _); exact (H n q Hq).
Qed.

Lemma apply_loop_log fuel p out : log (fst (apply_loop fuel p out)) = log p.
Proof.
  revert p out. induction fuel as [|fuel IH]; intros p out; cbn; [done|].
  destruct (_ <? _); [|done]. destruct (entry_at _ _); [|done]. by rewrite IH.
Qed.

(** The operations of a group, membership changes and log streaming included;
    only the snapshot installer is left out. *)
Inductive gstep : PartitionRaft -> PartitionRaft -> Prop :=
| g_elect save g c online : gstep g (fst (elect save g c online))
| g_ensure save g online pref : gstep g (fst (ensure_leader_preferring save g online pref))
| g_propose save g L cmd online : gstep g (fst (propose save g L cmd online))
| g_apply g n : gstep g (fst (take_apply_batch g n))
| g_sync g L f : gstep g (sync_follower_commit g L f)
| g_stream g L d : gstep g (fst (stream_log_to g L d))
| g_voters g vs e : gstep g (set_voters g vs e)
| g_joint g old new e : gstep g (set_joint_voters g old new e)
| g_attach g n : gstep g (attach_store g n).

Lemma stream_indexed g L d : logs_indexed g -> logs_indexed (fst (stream_log_to g L d)).
Proof.
  intros H. unfold stream_log_to. apply (ensure_peers_indexed [d]) in H. cbn [fold_left] in H.
  destruct (peers (ensure_peer g d) !! L) as [p|] eqn:Hp; [|done]. cbn [fst].
  assert (H1 : logs_indexed (upd (ensure_peer g d) d (fun x =>
    set_frontiers (set_role (set_hard (set_log x (log p)) (current_term p) None) Follower)
      (commit_index p) 0))).
  { apply logs_indexed_upd; [done|]. intros q _. exact (H L p Hp). }
  destruct (bool_decide _); [|done]. apply logs_indexed_upd_same; [done|].
  intros q. by destruct (bool_decide _).
Qed.

Lemma gstep_indexed g g' : logs_indexed g -> gstep g g' -> logs_indexed g'.
Proof.
  intros H Hs. destruct Hs.
  - by apply elect_indexed.
  - by apply ensure_leader_indexed.
  - by apply propose_indexed.
  - unfold take_apply_batch. destruct (peers g !! n) as [p|] eqn:Hp; [|done].
    pose proof (apply_loop_log (Z.to_nat (commit_index p - last_applied p)) p []) as Hl.
    destruct (apply_loop _ _ _) as [p' out]. apply logs_indexed_insert; [done|].
    cbn in Hl. rewrite Hl. by apply (H n).
  - apply logs_indexed_upd_same; [done|]. intros p. by destruct (_ <? _).
  - by apply stream_indexed.
  - apply step_down_outsiders_indexed. by apply (ensure_peers_indexed vs g) in H.
  - apply step_down_outsiders_indexed.
    by apply (ensure_peers_indexed (foldr insert_node [] (union_nodes old new)) g) in H.
  - done.
Qed.

(** The log layout is an invariant: in every group reached from a new one
    by elections, leader selection, proposals, apply batches, commit syncs, log
    streaming and membership changes, the entry at position [i] of every peer's
    log has index [i + 1], so the positional accessors [term_at] and [entry_at]
    return the entry with the requested index. *)
Theorem logs_stay_indexed part vs epoch g n p :
  rtc gstep (raft_new part vs epoch) g -> peers g !! n = Some p ->
  indexed (log p) /\
  forall i e, entry_at p i = Some e -> 0 <= i -> e_index e = i /\ term_at p i = Some (e_term e).
Proof.
  intros Hrun Hp. assert (H0 : logs_indexed (raft_new part vs epoch)).
  { intros m q Hq. apply raft_new_peers in Hq; [subst; apply indexed_nil|by intros]. }
  assert (H : logs_indexed g).
  { induction Hrun; [done|]. apply IHHrun; [done|]. by eapply gstep_indexed. }
  split; [by apply (H n)|]. intros i e He Hi. unfold entry_at, log_entry_at, term_at in *.
  destruct (Z.eqb_spec i 0); [done|]. rewrite He. split; [|done].
  rewrite (H n p Hp _ _ He). lia.
Qed.

(** AppendEntries establishes agreement: when a follower acknowledges a
    batch of consecutive entries after [prev], its previous entry has the given
    term, its log holds the sent term at every sent index, everything up to
    [prev] is untouched, entries beyond the batch survive unless one conflicted,
    and its commit index moved to the leader's, capped by its last index. *)
Theorem append_entries_agreement save g f L t prev pt es lc g' res p :
  peers g !! f = Some p -> indexed (log p) -> 0 <= prev -> follows (Z.to_nat prev) es ->
  current_term p <= t ->
  append_entries save g f L t prev pt es lc = (g', res) -> ar_success res = true ->
  exists p', peers g' !! f = Some p' /\ current_term p' = t /\
    (0 < prev -> term_at p prev = Some pt) /\
    (forall e, e ∈ es -> term_at p' (e_index e) = Some (e_term e)) /\
    take (Z.to_nat prev) (log p') = take (Z.to_nat prev) (log p) /\
    (terms_agree (Z.to_nat prev) es (log p) -> log p `prefix_of` log p') /\
    commit_index p' = (if commit_index p <? lc then Z.min lc (last_log_index p') else commit_index p) /\
    flush_peer save g' f = true.
Proof.
  intros Hp Hi Hprev Hf Ht Ha Hs.
  destruct (append_entries_spec _ _ _ _ _ _ _ _ _ _ _ _ Ha Hp Hi Hprev Hf Ht) as [p' []].
  destruct po_outcome0 as [(Hno & _)|(Hpt & Hap & Hfl & Hc)]; [congruence|].
  exists p'. split; [done|]. split; [done|]. split; [done|]. split; [|split; [|split; [|split]]].
  - intros e He. apply list_elem_of_lookup in He as [j Hj]. pose proof (Hf j e Hj) as Hidx.
    pose proof (ap_length _ _ _ _ Hap) as Hlen. apply lookup_lt_Some in Hj as Hjl.
    destruct (lookup_lt_is_Some_2 (log p') (Z.to_nat prev + j)) as [x Hx]; [lia|].
    unfold term_at. rewrite (proj2 (Z.eqb_neq _ _)) by lia.
    replace (Z.to_nat (e_index e - 1)) with (Z.to_nat prev + j)%nat by lia. rewrite Hx. cbn.
    f_equal. by apply (ap_terms _ _ _ _ Hap j).
  - apply Hap.
  - apply Hap.
  - done.
  - congruence.
Qed.

(** ** Commitment

    A proposal by leader [L] in term [t] whose log, the new entry included, is
    [LL]: followers that acknowledge it hold its last entry, and nothing that the
    proposal does afterwards removes it. *)

Section Commit.
Variable save : NodeId -> RaftPeer -> bool.
Variables (L : NodeId) (t : Term) (LL : list LogEntry) (new_entry : LogEntry).
Hypothesis LL_indexed : indexed LL.
Hypothesis LL_last : last LL = Some new_entry.
Hypothesis new_entry_term : e_term new_entry = t.

(** Peer [v] holds an entry of term [t] at the new index. *)
Definition has (g : PartitionRaft) (v : NodeId) : Prop :=
  exists q, peers g !! v = Some q /\ term_at q (Z.of_nat (length LL)) = Some t.

Record leading (g : PartitionRaft) : Prop := {
  ld_logs : logs_indexed g;
  ld_peer : exists p, peers g !! L = Some p /\ log p = LL /\
    (role p = Leader -> current_term p = t /\
       forall f, 1 <= default 1 (next_index p !! f) <= Z.of_nat (length LL) + 1) }.

(** The leader's match index tells the truth about the new entry. *)
Definition matched (g : PartitionRaft) : Prop :=
  forall p v, peers g !! L = Some p -> role p = Leader ->
  Z.of_nat (length LL) <= default 0 (match_index p !! v) -> has g v.

Lemma LL_lookup : (0 < length LL)%nat /\ LL !! (length LL - 1)%nat = Some new_entry.
Proof.
  apply last_Some in LL_last as Hl. destruct Hl as [l Hl]. rewrite Hl, length_app. cbn.
  split; [lia|]. rewrite Nat.add_sub. by apply list_lookup_middle.
Qed.

Lemma term_at_new p : log p = LL -> term_at p (Z.of_nat (length LL)) = Some t.
Proof.
  intros Hl. destruct LL_lookup as [Hpos Hlast]. unfold term_at.
  rewrite (proj2 (Z.eqb_neq _ _)) by lia. rewrite Hl.
  replace (Z.to_nat (Z.of_nat (length LL) - 1)) with (length LL - 1)%nat by lia.
  rewrite Hlast. cbn. by rewrite new_entry_term.
Qed.

(** Appending what the leader sends from [prev] on. *)
Lemma appended_has prev l l' : (prev < length LL)%nat ->
  appended prev (drop prev LL) l l' -> e_term <$> l' !! (length LL - 1)%nat = Some t.
Proof.
  intros Hlt [_ _ Hlen Hterms _ _]. destruct LL_lookup as [Hpos Hlast].
  rewrite length_drop in Hlen.
  destruct (lookup_lt_is_Some_2 l' (length LL - 1)) as [x Hx]; [lia|]. rewrite Hx. cbn. f_equal.
  rewrite <- new_entry_term. apply (Hterms (length LL - 1 - prev)%nat).
  - rewrite lookup_drop. by replace (prev + (length LL - 1 - prev))%nat with (length LL - 1)%nat by lia.
  - by replace (prev + (length LL - 1 - prev))%nat with (length LL - 1)%nat by lia.
Qed.

Lemma send_has g f prev lc g1 res p :
  logs_indexed g -> peers g !! L = Some p -> log p = LL -> f <> L ->
  0 <= prev <= Z.of_nat (length LL) ->
  append_entries save g f L t prev (default 0 (term_at p prev)) (drop (Z.to_nat prev) LL) lc = (g1, res) ->
  logs_indexed g1 /\ peers g1 !! L = Some p /\ (forall v, has g v -> has g1 v) /\
  (ar_success res = true -> has g1 f) /\ voters g1 = voters g.
Proof.
  intros Hlogs HL Hlog Hne Hprev Ha.
  pose proof (append_entries_indexed _ _ _ _ _ _ _ _ _ _ _ Hlogs (proj1 Hprev)
                (follows_drop LL (Z.to_nat prev) LL_indexed) Ha) as Hlogs1.
  assert (Hnochange : g1 = g -> ar_success res = false ->
    logs_indexed g1 /\ peers g1 !! L = Some p /\ (forall v, has g v -> has g1 v) /\
    (ar_success res = true -> has g1 f) /\ voters g1 = voters g)
    by (intros -> ->; by split_and!).
  destruct (peers g !! f) as [q|] eqn:Hq.
  2: { apply Hnochange; unfold append_entries in Ha; rewrite Hq in Ha; by injection Ha as <- <-. }
  destruct (Z_lt_le_dec t (current_term q)) as [Hlt|Hle].
  { apply Hnochange; unfold append_entries in Ha; rewrite Hq, (proj2 (Z.ltb_lt _ _)) in Ha by done;
      by injection Ha as <- <-. }
  destruct (append_entries_spec _ _ _ _ _ _ _ _ _ _ _ _ Ha Hq (Hlogs f q Hq) (proj1 Hprev)
    (follows_drop LL _ LL_indexed) Hle) as [q' []].
  destruct LL_lookup as [Hpos Hlast].
  assert (Hkeep : has g f -> has g1 f).
  { intros (x & Hx & Hxt). assert (x = q) as -> by congruence. exists q'. split; [done|].
    unfold term_at in *. rewrite (proj2 (Z.eqb_neq _ _)) in * by lia.
    replace (Z.to_nat (Z.of_nat (length LL) - 1)) with (length LL - 1)%nat in * by lia.
    destruct po_outcome0 as [(_ & -> & _)|(_ & Hap & _)]; [done|].
    destruct (decide (Z.to_nat prev < length LL)%nat); [by apply (appended_has _ _ _ l Hap)|].
    rewrite (ap_nil _ _ _ _ Hap); [done|]. apply drop_ge. lia. }
  split; [done|]. split; [by rewrite po_others0|]. split; [|split; [|done]].
  - intros v Hv. destruct (decide (v = f)) as [->|Hvf]; [by apply Hkeep|].
    destruct Hv as (x & Hx & Hxt). exists x. by rewrite po_others0.
  - intros Hs. destruct po_outcome0 as [(Hno & _)|(Hpt & Hap & _)]; [congruence|].
    destruct (decide (Z.to_nat prev < length LL)%nat) as [Hl|Hge].
    + exists q'. split; [done|]. unfold term_at. rewrite (proj2 (Z.eqb_neq _ _)) by lia.
      replace (Z.to_nat (Z.of_nat (length LL) - 1)) with (length LL - 1)%nat by lia.
      by apply (appended_has _ _ _ Hl Hap).
    + assert (prev = Z.of_nat (length LL)) as Hp by lia. apply Hkeep. exists q. split; [done|].
      rewrite <- Hp, Hpt by lia. rewrite Hp, (term_at_new p Hlog). done.
Qed.

Lemma back_off_bounds p f hint np p' stop : back_off p f hint np = (p', stop) ->
  1 <= default 1 (next_index p !! f) ->
  (forall x, default 1 (next_index p' !! x) = default 1 (next_index p !! x) \/
     (1 <= default 1 (next_index p' !! x) <= default 1 (next_index p !! x))) /\
  log p' = log p /\ match_index p' = match_index p /\ role p' = role p /\ current_term p' = current_term p.
Proof.
  unfold back_off. intros H Hn. set (n := default 1 (next_index p !! f)) in *.
  set (m := Z.min _ n) in *. assert (Hm : 1 <= m <= n) by (unfold m; lia).
  assert (Hb : exists k, 1 <= k <= n /\
    p' = set_indices p (<[f := k]> (next_index p)) (match_index p)).
  { destruct (Z.ltb_spec 1 m); [|destruct np]; injection H as <- <-; eexists; (split; [|reflexivity]); lia. }
  destruct Hb as (k & Hk & ->). cbn. split; [|done]. intros x.
  destruct (decide (x = f)) as [->|Hx]; [rewrite lookup_insert_eq; right; cbn; unfold n in *; lia|].
  rewrite lookup_insert_ne by done. by left.
Qed.

Lemma has_same g g' v : peers g' !! v = peers g !! v -> has g v -> has g' v.
Proof. unfold has. by intros ->. Qed.
Lemma has_log g v q q' : peers g !! v = Some q -> log q' = log q ->
  forall x, has g x -> has (with_peers g (<[v := q']> (peers g))) x.
Proof.
  intros Hq Hl x (y & Hy & Ht). unfold has. cbn. destruct (decide (x = v)) as [->|Hne].
  - rewrite lookup_insert_eq. exists q'. split; [done|]. assert (y = q) as -> by congruence.
    unfold term_at in *. by rewrite Hl.
  - rewrite lookup_insert_ne by done. by exists y.
Qed.

(** Replacing the leader's own record, its log kept. *)
Lemma leading_insert g p p' : leading g -> peers g !! L = Some p -> log p' = log p ->
  (role p' = Leader -> current_term p' = t /\
     forall f, 1 <= default 1 (next_index p' !! f) <= Z.of_nat (length LL) + 1) ->
  leading (with_peers g (<[L := p']> (peers g))) /\
  (forall v, has g v -> has (with_peers g (<[L := p']> (peers g))) v).
Proof.
  intros [Hlogs (q & Hq & Hl & _)] Hp Hlog Hbounds. assert (q = p) as -> by congruence.
  split; [|by apply (has_log g L p)]. split.
  - apply logs_indexed_insert; [done|]. rewrite Hlog. by apply (Hlogs L).
  - exists p'. cbn. rewrite lookup_insert_eq. split; [done|]. split; [congruence|done].
Qed.

Lemma replicate_loop_has fuel g f g' r :
  leading g -> f <> L -> replicate_loop save fuel g L f = (g', r) ->
  leading g' /\ (forall v, has g v -> has g' v) /\ (matched g -> r = Ok tt -> matched g') /\
  voters g' = voters g.
Proof.
  intros Hlead Hne. revert g Hlead. induction fuel as [|fuel IH]; intros g Hlead Hr; cbn [replicate_loop] in Hr.
  { injection Hr as <- <-. by split_and!. }
  pose proof Hlead as [Hlogs (p & HL & Hlog & Hbounds)]. rewrite HL in Hr.
  destruct (bool_decide_reflect (role p = Leader)) as [Hrole|]; cbn [negb] in Hr;
    [|injection Hr as <- <-; by split_and!].
  destruct (Hbounds Hrole) as [Hterm Hnext]. rewrite Hlog, Hterm, sent_entries in Hr by done.
  set (prev := sat_sub _ 1) in Hr. pose proof (Hnext f) as Hnf.
  assert (Hprev : 0 <= prev <= Z.of_nat (length LL)) by (unfold prev, sat_sub; lia).
  destruct (append_entries _ _ _ _ _ _ _ _ _) as [g1 res] eqn:Ha.
  destruct (send_has _ _ _ _ _ _ _ Hlogs HL Hlog Hne Hprev Ha) as (Hlogs1 & HL1 & Hkeep & Hsucc & Hv1).
  assert (Hlead1 : leading g1) by (split; [done|by exists p]).
  destruct (Z.ltb_spec t (ar_term res)) as [Hhi|_].
  { injection Hr as <- <-. rewrite (upd_lookup _ _ _ p) by done.
    destruct (leading_insert g1 p (become_follower p (ar_term res)) Hlead1 HL1 eq_refl ltac:(done)) as [H1 H2].
    split; [done|]. split; [auto|]. by split. }
  destruct (ar_success res).
  - injection Hr as <- <-. rewrite (upd_lookup _ _ _ p) by done.
    set (m := match last (drop (Z.to_nat prev) LL) with Some e => e_index e | None => prev end).
    assert (Hm : m = Z.of_nat (length LL)).
    { unfold m. destruct (decide (Z.to_nat prev < length LL)%nat) as [Hl|Hge].
      - rewrite last_drop by lia. rewrite LL_last, (LL_indexed (length LL - 1)%nat new_entry) by apply LL_lookup.
        destruct LL_lookup. lia.
      - rewrite drop_ge by lia. cbn. lia. }
    match goal with |- context [<[L := ?q]> (peers g1)] =>
      destruct (leading_insert g1 p q Hlead1 HL1 eq_refl) as [H1 H2] end.
    { intros _. split; [done|]. intros x. cbn. destruct (decide (x = f)) as [->|Hx];
        [rewrite lookup_insert_eq; cbn; lia|rewrite lookup_insert_ne by done; apply Hnext]. }
    split; [done|]. split; [auto|]. split; [|done]. intros Hmatch _ q v Hq _ Hle.
    cbn in Hq. rewrite lookup_insert_eq in Hq. injection Hq as <-. cbn in Hle.
    destruct (decide (v = f)) as [->|Hx]; [apply H2, Hsucc; done|].
    rewrite lookup_insert_ne in Hle by done. apply H2, Hkeep. by apply (Hmatch p).
  - rewrite HL1 in Hr. destruct (back_off _ _ _ _) as [p' stop] eqn:Hb.
    destruct (back_off_bounds _ _ _ _ _ _ Hb ltac:(lia)) as (Hn' & Hl' & Hm' & Hr' & Ht').
    destruct (leading_insert g1 p p' Hlead1 HL1 Hl') as [H1 H2].
    { intros _. split; [congruence|]. intros x. specialize (Hnext x). destruct (Hn' x); lia. }
    set (g2 := with_peers g1 _) in *.
    assert (H3 : matched g -> matched g2).
    { intros Hmatch q v Hq Hrq Hle. cbn in Hq. rewrite lookup_insert_eq in Hq. injection Hq as <-.
      apply H2, Hkeep. rewrite Hm' in Hle. by apply (Hmatch p). }
    destruct stop; [injection Hr as <- <-; split_and!; auto|].
    destruct (IH g2 H1 Hr) as (H4 & H5 & H6 & H7). split_and!; auto. by rewrite H7.
Qed.
Lemma replicate_to_has g f g' r :
  leading g -> f <> L -> replicate_to save g L f = (g', r) ->
  leading g' /\ (forall v, has g v -> has g' v) /\ (matched g -> r = Ok tt -> matched g') /\
  voters g' = voters g.
Proof.
  rewrite replicate_to_eq. generalize 64%nat. intros n. apply replicate_loop_has.
Qed.

Lemma replicate_all_has n fs acked g g' r :
  leading g -> matched g -> (forall f, f ∈ fs -> f <> L) ->
  replicate_all save g L n fs acked = (g', Ok r) ->
  leading g' /\ matched g' /\ voters g' = voters g.
Proof.
  revert acked g. induction fs as [|f fs IH]; intros acked g Hl Hm Hne Hr; cbn [replicate_all] in Hr.
  { by injection Hr as <- <-. }
  destruct (replicate_to save g L f) as [g1 r1] eqn:Hrep.
  destruct (replicate_to_has _ _ _ _ Hl (Hne f ltac:(apply elem_of_cons; by left)) Hrep)
    as (H1 & _ & H3 & H4).
  destruct r1 as [[]|]; [|done]. destruct (IH _ g1 H1 (H3 Hm eq_refl)
    ltac:(intros x Hx; apply Hne, elem_of_cons; by right) Hr) as (H5 & H6 & H7).
  split_and!; [done|done|congruence].
Qed.

Lemma push_commit_has g online : leading g ->
  forall v, has g v -> has (push_commit save g L online) v.
Proof.
  unfold push_commit. generalize (voters g). intros l. revert g.
  induction l as [|f l IH]; intros g H v Hv; cbn [fold_left]; [done|].
  destruct (_ || _) eqn:Hs; [by apply IH|]. apply orb_false_iff in Hs as [Hs%Z.eqb_neq _].
  destruct (replicate_to save g L f) as [g1 r1] eqn:Hr.
  destruct (replicate_to_has _ _ _ _ H Hs Hr) as (H1 & H2 & _). apply IH; auto.
Qed.

Lemma advance_commit_has g :
  leading g -> leading (advance_commit g L) /\ forall v, has g v -> has (advance_commit g L) v.
Proof.
  intros Hlead. pose proof Hlead as [_ (p & Hp & _ & Hb)]. unfold advance_commit. rewrite Hp.
  destruct (negb _); [done|]. destruct (List.find _ _); [|done].
  rewrite (upd_lookup _ _ _ p) by done. by apply (leading_insert g p).
Qed.
End Commit.

(** The leader's own commit index is not touched while it replicates. *)
Lemma append_entries_others save g f L t prev pt es lc n :
  n <> f -> peers (fst (append_entries save g f L t prev pt es lc)) !! n = peers g !! n.
Proof.
  intros Hn. unfold append_entries, accept_append, refuse_append.
  repeat match goal with
  | |- context [match ?x with _ => _ end] =>
      lazymatch x with
      | context [match _ with _ => _ end] => fail
      | _ => destruct x
      end
  end; cbn; rewrite ?lookup_insert_ne by done; done.
Qed.

Lemma replicate_loop_commit save fuel g L f : f <> L ->
  commit_index <$> peers (fst (replicate_loop save fuel g L f)) !! L = commit_index <$> peers g !! L.
Proof.
  intros Hne. revert g. induction fuel as [|fuel IH]; intros g; cbn [replicate_loop]; [done|].
  destruct (peers g !! L) as [p|] eqn:Hp; [|by cbn; rewrite Hp]. destruct (negb _); [by cbn; rewrite Hp|].
  set (prev := sat_sub _ 1). set (es := List.filter _ _). set (pt := default 0 _).
  pose proof (append_entries_others save g f L (current_term p) prev pt es (commit_index p) L
    (not_eq_sym Hne)) as Hsame.
  destruct (append_entries _ _ _ _ _ _ _ _ _) as [g1 res]. cbn [fst] in Hsame.
  rewrite Hp in Hsame.
  destruct (_ <? _); [cbn; by rewrite lookup_alter_eq, Hsame|].
  destruct (ar_success res); [cbn; by rewrite lookup_alter_eq, Hsame|].
  rewrite Hsame. destruct (back_off _ _ _ _) as [p' stop] eqn:Hb.
  assert (Hc : commit_index p' = commit_index p).
  { unfold back_off in Hb. destruct (if 1 <? _ then _ else _). by injection Hb as <- <-. }
  destruct stop; [|rewrite IH]; cbn; by rewrite lookup_insert_eq; cbn; rewrite Hc.
Qed.

Lemma replicate_all_commit save L n fs acked g : (forall f, f ∈ fs -> f <> L) ->
  commit_index <$> peers (fst (replicate_all save g L n fs acked)) !! L = commit_index <$> peers g !! L.
Proof.
  revert acked g. induction fs as [|f fs IH]; intros acked g Hne; cbn [replicate_all]; [done|].
  assert (Hf : commit_index <$> peers (fst (replicate_to save g L f)) !! L = commit_index <$> peers g !! L).
  { rewrite replicate_to_eq. apply replicate_loop_commit, Hne, elem_of_cons. by left. }
  destruct (replicate_to save g L f) as [g1 [|]]; cbn [fst] in Hf; [|done].
  rewrite IH; [done|]. intros x Hx. apply Hne, elem_of_cons. by right.
Qed.

(** What a leader's record satisfies from its election on. *)
Record leader_ok (p : RaftPeer) : Prop := {
  lo_next f : 1 <= default 1 (next_index p !! f) <= last_log_index p + 1;
  lo_match f : default 0 (match_index p !! f) <= last_log_index p;
  lo_commit : commit_index p <= last_log_index p }.

(** An election makes a record that satisfies it. *)
Lemma fold_insert_default (l : list Z) (x d : Z) (m : gmap Z Z) f :
  (default d (m !! f) = d \/ default d (m !! f) = x) ->
  default d (fold_left (fun m v => <[v := x]> m) l m !! f) = d \/
  default d (fold_left (fun m v => <[v := x]> m) l m !! f) = x.
Proof.
  revert m. induction l as [|v l IH]; intros m Hm; cbn [fold_left]; [done|]. apply IH.
  destruct (decide (f = v)) as [->|Hne]; [rewrite lookup_insert_eq; by right|].
  by rewrite lookup_insert_ne.
Qed.
Lemma become_leader_ok p vs :
  0 <= last_log_index p -> commit_index p <= last_log_index p -> leader_ok (become_leader p vs).
Proof.
  intros Hpos Hc. split; cbn; [| |done]; intros f; change (last_log_index (become_leader p vs)) with (last_log_index p);
    (destruct (decide (f = node_id p)) as [->|Hne]; [rewrite lookup_insert_eq; cbn; change (last_log_index (set_role p Leader)) with (last_log_index p); lia|]);
    rewrite lookup_insert_ne by done; change (last_log_index (set_role p Leader)) with (last_log_index p).
  - destruct (fold_insert_default vs (last_log_index p + 1) 1 ∅ f) as [-> | ->]; [by left|lia..].
  - destruct (fold_insert_default vs 0 0 ∅ f) as [-> | ->]; [by left|lia..].
Qed.

(** The leader's state right after it appended the new entry. *)
Lemma proposal_leading g L p cmd :
  logs_indexed g -> peers g !! L = Some p -> leader_ok p ->
  let N := last_log_index p + 1 in
  let entry := {| e_term := current_term p; e_index := N; e_command := cmd |} in
  let LL := log p ++ [entry] in
  let p1 := set_indices (set_log p LL) (<[L := N + 1]> (next_index p)) (<[L := N]> (match_index p)) in
  let g1 := with_peers g (<[L := p1]> (peers g)) in
  N = Z.of_nat (length LL) /\ indexed LL /\
  leading L (current_term p) LL g1 /\ matched L (current_term p) LL g1.
Proof.
  intros Hlogs Hp [Hnext Hmatch Hcommit] N entry LL p1 g1.
  assert (HN : N = Z.of_nat (length LL)).
  { unfold N, LL, last_log_index. rewrite indexed_last by (by apply (Hlogs L)). rewrite length_app. cbn. lia. }
  assert (HLL : indexed LL).
  { apply indexed_snoc; [by apply (Hlogs L)|]. cbn. rewrite HN. unfold LL. rewrite length_app. cbn. lia. }
  assert (Hp1 : peers g1 !! L = Some p1) by (cbn; by rewrite lookup_insert_eq).
  split; [done|]. split; [done|]. split.
  - split; [by apply logs_indexed_insert|]. exists p1. split; [done|]. split; [done|]. intros _.
    split; [done|]. intros f. cbn. destruct (decide (f = L)) as [->|Hf].
    + rewrite lookup_insert_eq. cbn. unfold N in *. lia.
    + rewrite lookup_insert_ne by done. specialize (Hnext f). unfold N in *. lia.
  - intros q v Hq _ Hle. assert (q = p1) as -> by congruence. cbn in Hle.
    destruct (decide (v = L)) as [->|Hv].
    + exists p1. split; [done|]. by apply (term_at_new (current_term p) LL entry); [apply last_snoc|..].
    + rewrite lookup_insert_ne in Hle by done. specialize (Hmatch v). unfold N in *. lia.
Qed.

(** If the commit index reaches the last entry, a quorum of match indices did. *)
Lemma advance_commit_quorum g L p N :
  peers g !! L = Some p -> indexed (log p) -> N = Z.of_nat (length (log p)) -> commit_index p < N ->
  N <= match peers (advance_commit g L) !! L with Some q => commit_index q | None => 0 end ->
  role p = Leader /\ term_at p N = Some (current_term p) /\ quorum g <= match_count g p N.
Proof.
  intros Hp Hi HN Hlow Hc. unfold advance_commit in Hc. rewrite Hp in Hc.
  destruct (bool_decide_reflect (role p = Leader)) as [Hrole|]; cbn [negb] in Hc; [|rewrite Hp in Hc; lia].
  destruct (List.find _ _) as [n|] eqn:Hfind; [|rewrite Hp in Hc; lia].
  apply List.find_some in Hfind as [Hin Hok].
  rewrite (upd_lookup _ _ _ p) in Hc by done. cbn in Hc. rewrite lookup_insert_eq in Hc. cbn in Hc.
  assert (n = N) as ->.
  { apply list_elem_of_In, elem_of_reverse, elem_of_seqZ in Hin. unfold last_log_index in Hin.
    rewrite indexed_last in Hin by done. lia. }
  unfold committable in Hok. destruct (term_at p N) as [x|]; [|done]. boolify.
  split; [done|]. split; [congruence|done].
Qed.

(** C10. A committed proposal is replicated: when [propose] reports the new
    entry committed, at least a quorum of the configured voters hold an entry of
    the leader's term at its position, in the state the call leaves behind. *)
Theorem committed_on_quorum save g L cmd online g' r p :
  logs_indexed g -> NoDup (voters g) -> peers g !! L = Some p -> leader_ok p ->
  propose save g L cmd online = (g', Ok r) -> pr_committed r = true ->
  exists Q, NoDup Q /\ (forall v, v ∈ Q -> v ∈ voters g) /\ quorum g <= Z.of_nat (length Q) /\
    forall v, v ∈ Q -> exists q, peers g' !! v = Some q /\ term_at q (pr_position r) = Some (pr_term r).
Proof.
  intros Hlogs Hnd Hp Hlok Hr Hc. unfold propose in Hr. rewrite Hp in Hr. destruct (negb _); [done|].
  destruct (proposal_leading g L p cmd Hlogs Hp Hlok) as (HN & HLL & Hlead & Hmat).
  set (N := last_log_index p + 1) in *. set (entry := {| e_term := _ |}) in *.
  set (LL := log p ++ [entry]) in *. set (p1 := set_indices _ _ _) in *. set (g1 := with_peers g _) in *.
  assert (Hlast : last LL = Some entry) by apply last_snoc.
  destruct (negb _); [done|]. set (fs := List.filter _ _) in Hr.
  assert (Hfs : forall f, f ∈ fs -> f <> L).
  { intros f Hf. apply list_elem_of_In, filter_In in Hf as [_ Hf].
    apply andb_true_iff in Hf as [Hf _]. by apply negb_true_iff, Z.eqb_neq in Hf. }
  pose proof (replicate_all_commit save L N fs [L] g1 Hfs) as Hcom.
  destruct (replicate_all save g1 L N fs [L]) as [g2 [acked|]] eqn:Hrep; [|done]. cbn [fst] in Hcom.
  destruct (replicate_all_has save L _ LL entry HLL Hlast eq_refl _ _ _ _ _ _ Hlead Hmat Hfs Hrep)
    as (Hlead2 & Hmat2 & Hv2).
  destruct (advance_commit_has L _ LL g2 Hlead2) as [Hlead3 Hkeep3].
  injection Hr as <- <-. cbn [pr_committed pr_position pr_term] in *. rewrite Hc.
  pose proof (push_commit_has save L _ LL entry HLL Hlast eq_refl _ online Hlead3) as Hkeep4.
  destruct Hlead2 as [_ (p2 & Hp2 & Hl2 & _)].
  unfold g1 in Hcom. cbn [peers with_peers] in Hcom. rewrite lookup_insert_eq, Hp2 in Hcom. injection Hcom as Hcom.
  pose proof (lo_commit _ Hlok). boolify.
  destruct (advance_commit_quorum g2 L p2 N Hp2) as (Hrole & _ & Hq);
    [by rewrite Hl2|by rewrite Hl2|unfold N; cbn in Hcom; lia|done|].
  exists (List.filter (fun v => N <=? default 0 (match_index p2 !! v)) (voters g2)).
  unfold match_count, quorum in *. rewrite Hv2 in *. split_and!.
  - by apply NoDup_ListNoDup, List.NoDup_filter, NoDup_ListNoDup.
  - intros v Hv. apply list_elem_of_In, filter_In in Hv as [Hv _]. by apply list_elem_of_In.
  - done.
  - intros v Hv. apply list_elem_of_In, filter_In in Hv as [_ Hle]. boolify. rewrite HN in *.
    destruct (Hkeep4 v (Hkeep3 v (Hmat2 p2 v Hp2 Hrole Hle))) as (q & Hq' & Hqt). by exists q.
Qed.

(** ** Snapshots *)

(** Installing a snapshot ahead of the local log cannot succeed: for every
    index above 1 the forced installer first replaces the log by a single base
    entry and then looks that index up by position, so it answers an error --
    after the local log is gone and the commit and apply frontiers have moved. *)
Theorem force_install_always_fails save ss g n p i t b :
  peers g !! n = Some p -> 2 <= i ->
  exists g' p', force_install_snapshot save ss g n i t b =
      (g', Err (CorruptMeta "snapshot: index not in log")) /\
    peers g' !! n = Some p' /\ log p' = [snapshot_base t i] /\
    i <= commit_index p' /\ i <= last_applied p'.
Proof.
  intros Hp Hi. unfold force_install_snapshot. rewrite Hp, (proj2 (Z.ltb_lt 0 i)) by lia.
  unfold install_local_snapshot. cbn [peers with_peers]. rewrite lookup_insert_eq.
  unfold term_at. rewrite (proj2 (Z.eqb_neq i 0)) by lia. cbn [log set_log set_frontiers].
  rewrite lookup_ge_None_2 by (cbn; lia). cbn [fmap option_fmap option_map].
  eexists _, _. split; [reflexivity|]. cbn. rewrite lookup_insert_eq. split; [reflexivity|]. cbn.
  split; [done|]. split; lia.
Qed.

(** ** Witnesses *)

Definition sample_cmd : LogCommand := Put "k" [].
Definition sample_entry : LogEntry := {| e_term := 1; e_index := 1; e_command := sample_cmd |}.
Definition sample_proposed : PartitionRaft :=
  fst (propose always_saves sample_elected 0 sample_cmd [0; 1]).

Lemma logs_stay_indexed_witness : exists p,
  peers sample_proposed !! 1 = Some p /\ log p = [sample_entry] /\ indexed (log p).
Proof.
  destruct (peers sample_proposed !! 1) as [p|] eqn:Hp; [|vm_compute in Hp; discriminate].
  exists p. split; [reflexivity|]. split; [vm_compute in Hp; injection Hp as <-; reflexivity|].
  refine (proj1 (logs_stay_indexed 0 [0; 1; 2] 1 sample_proposed 1 p _ Hp)).
  eapply rtc_l; [apply (g_elect always_saves _ 0 [0; 1; 2])|].
  eapply rtc_l; [apply (g_propose always_saves _ 0 sample_cmd [0; 1])|]. constructor.
Defined.

Lemma append_entries_agreement_witness : exists p',
  peers (fst (append_entries always_saves sample_elected 2 0 1 0 0 [sample_entry] 1)) !! 2 = Some p' /\
  term_at p' 1 = Some 1.
Proof.
  destruct (peers sample_elected !! 2) as [p|] eqn:Hp; [|vm_compute in Hp; discriminate].
  assert (Hfacts : log p = [] /\ current_term p = 1) by (vm_compute in Hp; injection Hp as <-; by split).
  destruct Hfacts as [Hl Ht].
  destruct (append_entries_agreement always_saves sample_elected 2 0 1 0 0 [sample_entry] 1
    (fst (append_entries always_saves sample_elected 2 0 1 0 0 [sample_entry] 1))
    (snd (append_entries always_saves sample_elected 2 0 1 0 0 [sample_entry] 1)) p Hp
    ltac:(rewrite Hl; apply indexed_nil) ltac:(lia)
    ltac:(by intros [|j] e Hj; [injection Hj as <-|]) ltac:(lia)
    ltac:(vm_compute; reflexivity) ltac:(vm_compute; reflexivity)) as (p' & H1 & _ & _ & H2 & _).
  exists p'. split; [exact H1|]. apply (H2 sample_entry). apply elem_of_cons. by left.
Defined.

Lemma committed_on_quorum_witness : exists Q,
  NoDup Q /\ 2 <= Z.of_nat (length Q) /\
  forall v, v ∈ Q -> exists q, peers sample_proposed !! v = Some q /\ term_at q 1 = Some 1.
Proof.
  assert (Hr : exists r, propose always_saves sample_elected 0 sample_cmd [0; 1] = (sample_proposed, Ok r) /\
    pr_committed r = true /\ pr_position r = 1 /\ pr_term r = 1)
    by (eexists; split; [vm_compute; reflexivity|by split_and!]).
  destruct Hr as (r & Hr & Hc & Hpos & Hterm).
  assert (Hlogs : logs_indexed sample_elected).
  { apply elect_indexed. intros n p Hp. apply raft_new_peers in Hp; [subst; apply indexed_nil|by intros]. }
  assert (Hp : exists p, peers sample_elected !! 0 = Some p /\ leader_ok p).
  { eexists (become_leader (set_role (set_hard (peer_new 0) 1 (Some 0)) Candidate) [0; 1; 2]).
    split; [vm_compute; reflexivity|]. apply become_leader_ok; cbn; done. }
  destruct Hp as (p & Hp & Hok).
  destruct (committed_on_quorum always_saves sample_elected 0 sample_cmd [0; 1] sample_proposed r p
    Hlogs ltac:(apply (bool_decide_unpack (NoDup _)); vm_compute; exact I) Hp Hok Hr Hc)
    as (Q & H1 & _ & H2 & H3).
  exists Q. split; [exact H1|]. split; [exact H2|]. rewrite Hpos, Hterm in H3. exact H3.
Defined.

Lemma force_install_always_fails_witness :
  snd (force_install_snapshot always_saves (fun _ _ _ _ _ => true) sample_group 1 5 1 []) =
  Err (CorruptMeta "snapshot: index not in log").
Proof.
  destruct (force_install_always_fails always_saves (fun _ _ _ _ _ => true) sample_group 1 (peer_new 1) 5 1 []
    ltac:(vm_compute; reflexivity) ltac:(lia)) as (g' & p' & H & _).
  rewrite H. reflexivity.
Defined.

(** ** Where the safety arguments stop

    Streaming a log clears the destination's vote but keeps the leader's term:
    with voters 0, 1, 2, node 1 votes for node 0 in term 1, receives the stream,
    and then votes for node 2 in the same term, which wins the same election. *)
Example stream_log_allows_second_vote :
  let '(g1, r1) := elect always_saves sample_group 0 [0; 1] in
  let '(g2, _) := stream_log_to g1 0 1 in
  let '(g3, r2) := elect always_saves g2 2 [1; 2] in
  r1 = Ok (0, 1) /\ r2 = Ok (2, 1).
Proof. vm_compute. by split. Qed.

(** A joint configuration counts one majority of the union, which need not meet
    a majority of the old set: an entry committed by nodes 0 and 1 of the old
    voters 0, 1, 2 is absent from the log of the leader that nodes 2, 3, 4 elect in
    the joint configuration -- in the same term. *)
Example joint_majority_misses_old_quorum :
  let '(g1, _) := elect always_saves sample_group 0 [0; 1] in
  let '(g2, r) := propose always_saves g1 0 sample_cmd [0; 1] in
  let g3 := set_joint_voters g2 [0; 1; 2] [2; 3; 4] 2 in
  let '(g4, r2) := elect always_saves g3 2 [2; 3; 4] in
  match r with Ok x => pr_committed x = true /\ r2 = Ok (2, 1) | Err _ => False end.
Proof. vm_compute. by split. Qed.

(** After a local snapshot the positional accessors answer for other indices:
    with entries 1, 2, 3 and a snapshot at 1, [entry_at 1] is the entry of index 2. *)
Example snapshot_shifts_positions :
  let es := [{| e_term := 1; e_index := 1; e_command := sample_cmd |};
             {| e_term := 1; e_index := 2; e_command := sample_cmd |};
             {| e_term := 1; e_index := 3; e_command := sample_cmd |}] in
  let g := upd sample_group 0 (fun p => set_log p es) in
  let '(g', r) := install_local_snapshot always_saves (fun _ _ _ _ _ => true) g 0 1 [] in
  r = Ok tt /\
  (e_index <$> (peers g' !! 0 ≫= fun p => entry_at p 1)) = Some 2 /\
  (peers g' !! 0 ≫= fun p => entry_at p 3) = None.
Proof. vm_compute. by split. Qed.
