(* ===== verification/HeapKernel.v ===== *)
(** * The heap authorization kernel

    Model of [crates/residiuum-heap/src]: identities ([ids.rs]), rights
    ([rights.rs]), constraints ([constraints.rs]), the administrative state and
    the security snapshot with its slot ([snapshot.rs]), blacklist entries
    ([authority.rs]), the security time floor ([security_time.rs]) and the pure
    decision with the capabilities minted from it ([decide.rs],
    [capability.rs]).

    The operation registry is generated by the build script from
    [spec/operations-v1.json]; it and SHA-256 are the operations of a class. *)
From S2P Require Import Prelude.
Open Scope string_scope.
Open Scope list_scope.
Open Scope Z_scope.

(** ** Errors ([error.rs]) *)

Inductive HeapUnavailableCause : Type :=
| MalformedOrBadSignature
| UnknownOperation
| InsufficientRights
| ConstraintDenied
| InvalidState
| StaleAuthority
| NotYetValidOrExpired
| Blacklisted
| InvalidIdentity
| Denied.

Inductive HeapError : Type :=
| HeapUnavailable
| UnavailableDetailed (cause : HeapUnavailableCause)
| InvalidArgument (what : string).

Definition unavailable (cause : HeapUnavailableCause) : HeapError := UnavailableDetailed cause.

#[global] Instance cause_eq_dec : EqDecision HeapUnavailableCause.
Proof. solve_decision. Defined.
#[global] Instance heap_error_eq_dec : EqDecision HeapError.
Proof. solve_decision. Defined.

(** ** Identities ([ids.rs])

    A UUID identity is its sixteen bytes in network order. *)

Definition zero16 : list byte := repeat Byte.x00 16.

Definition id_from_bytes (bytes : list byte) : result HeapError (list byte) :=
  if bytes_eqb bytes zero16 then Err (InvalidArgument "is zero")
  else
  let version := Z.shiftr (Z.land (b2z (nth 6 bytes Byte.x00)) 0xf0) 4 in
  if negb (version =? 4) then Err (InvalidArgument "must be UUIDv4")
  else
  let variant := Z.shiftr (Z.land (b2z (nth 8 bytes Byte.x00)) 0xc0) 6 in
  if negb (variant =? 2) then Err (InvalidArgument "must be RFC variant")
  else Ok bytes.

(** [new_random]: [fill] is what [getrandom::fill] left in the buffer, if it
    succeeded. *)
Definition id_new_random (fill : option (list byte)) : result HeapError (list byte) :=
  match fill with
  | None => Err (InvalidArgument "getrandom failed")
  | Some bytes =>
      let set := fun (mask tag : Z) b => z2b (Z.lor (Z.land (b2z b) mask) tag) in
      Ok (alter (set 0x3f 0x80) 8%nat (alter (set 0x0f 0x40) 6%nat bytes))
  end.

(** The constructor of the non-zero counters (epoch, generation, revision). *)
Definition nonzero_new (v : Z) : result HeapError Z :=
  if v =? 0 then Err (InvalidArgument "must be non-zero") else Ok v.

(** ** Rights ([rights.rs]) *)

Module Rights.

Definition t : Type := Z.
Definition EMPTY : t := 0.
Definition DEFINED_MASK : Z := 0x1ffff.
(** [!DEFINED_MASK] on [u64]. *)
Definition RESERVED_BITS : Z := Z.lxor U64_MAX DEFINED_MASK.

Definition from_bits_certificate (bits : Z) : result HeapError t :=
  if bits =? 0 then Err (unavailable MalformedOrBadSignature)
  else if negb (Z.land bits RESERVED_BITS =? 0) then Err (unavailable MalformedOrBadSignature)
  else Ok bits.

Definition from_bits_effective (bits : Z) : result HeapError t :=
  if negb (Z.land bits RESERVED_BITS =? 0) then Err (unavailable MalformedOrBadSignature)
  else Ok bits.

Definition contains (self other : t) : bool := Z.land self other =? other.
Definition intersection (self other : t) : t := Z.land self other.
Definition is_subset_of (self other : t) : bool := Z.land self other =? self.

End Rights.

(** ** The generated registry and SHA-256 *)

Record GeneratedOp := {
  op_id : Z;
  op_wire_name : string;
  op_status : string;
  op_rights_mask : Z;
  op_returns_data : bool;
  op_mutates_data : bool }.

Class KernelEnv := {
  sha256 : list byte -> list byte;
  generated_op : Z -> option GeneratedOp;
  admitted_ops_for_state : string -> option (list Z) }.

Inductive OperationStatus : Type := OpActive | OpReserved.
#[global] Instance op_status_eq_dec : EqDecision OperationStatus.
Proof. solve_decision. Defined.

Module Operation.
Section Ops.
Context {K : KernelEnv}.

Definition lookup (id : Z) : result HeapError GeneratedOp :=
  match generated_op id with
  | Some row => Ok row
  | None => Err (unavailable UnknownOperation)
  end.

Definition status (id : Z) : result HeapError OperationStatus :=
  let? row := lookup id in
  if bool_decide (op_status row = "active") then Ok OpActive
  else if bool_decide (op_status row = "reserved") then Ok OpReserved
  else Err (unavailable UnknownOperation).

Definition is_callable (id : Z) : bool :=
  match status id with Ok OpActive => true | _ => false end.

Definition required_rights (id : Z) : result HeapError Rights.t :=
  let? row := lookup id in
  Rights.from_bits_effective (op_rights_mask row).

End Ops.
End Operation.

(** ** Constraints ([constraints.rs]) *)

Record SourceNetworkValue := {
  family : Z;
  net_prefix : Z;
  address : list byte }.

Inductive Constraint : Type :=
| CollectionAllowlist (ids : list (list byte))
| StreamAllowlist (ids : list (list byte))
| OperationAllowlist (ids : list Z)
| MaxRequestBytes (m : Z)
| MaxResultBytes (m : Z)
| MaxQueryWork (m : Z)
| MaxDurationMs (m : Z)
| SourceNetwork (n : SourceNetworkValue).

#[global] Instance source_network_eq_dec : EqDecision SourceNetworkValue.
Proof. solve_decision. Defined.
#[global] Instance constraint_eq_dec : EqDecision Constraint.
Proof. solve_decision. Defined.

Definition kind (c : Constraint) : Z :=
  match c with
  | CollectionAllowlist _ => 1
  | StreamAllowlist _ => 2
  | OperationAllowlist _ => 3
  | MaxRequestBytes _ => 4
  | MaxResultBytes _ => 5
  | MaxQueryWork _ => 6
  | MaxDurationMs _ => 7
  | SourceNetwork _ => 8
  end.

Module Constraints.

Definition t : Type := list Constraint.
Definition empty : t := [].

(** The loop of [decode_canonical]; [last] is [None] in the first turn. *)
Fixpoint decode_loop (last : option Z) (entries : list (Z * bool * Constraint))
  : result HeapError t :=
  match entries with
  | [] => Ok []
  | (k, critical, c) :: rest =>
      if negb critical then Err (unavailable MalformedOrBadSignature)
      else if negb (kind c =? k) then Err (unavailable MalformedOrBadSignature)
      else if match last with Some l => k <=? l | None => false end
      then Err (unavailable MalformedOrBadSignature)
      else
      let? out := decode_loop (Some k) rest in
      Ok (c :: out)
  end.
Definition decode_canonical (entries : list (Z * bool * Constraint)) : result HeapError t :=
  decode_loop None entries.

Fixpoint sorted_loop (last : option Z) (inner : t) : bool :=
  match inner with
  | [] => true
  | c :: rest =>
      if match last with Some l => kind c <=? l | None => false end then false
      else sorted_loop (Some (kind c)) rest
  end.
Definition from_sorted (inner : t) : result HeapError t :=
  if sorted_loop None inner then Ok inner else Err (unavailable MalformedOrBadSignature).

(** One allowlist merge: the members of [x] that are in [y]. *)
Definition merge_list {A} `{EqDecision A} (mk : list A -> Constraint) (x y : list A)
  : result HeapError Constraint :=
  let set := List.filter (fun id => bool_decide (id ∈ y)) x in
  match set with
  | [] => Err (unavailable ConstraintDenied)
  | _ => Ok (mk set)
  end.

Definition merge_pair (a b : Constraint) : result HeapError Constraint :=
  match a, b with
  | CollectionAllowlist x, CollectionAllowlist y => merge_list CollectionAllowlist x y
  | StreamAllowlist x, StreamAllowlist y => merge_list StreamAllowlist x y
  | OperationAllowlist x, OperationAllowlist y => merge_list OperationAllowlist x y
  | MaxRequestBytes x, MaxRequestBytes y => Ok (MaxRequestBytes (Z.min x y))
  | MaxResultBytes x, MaxResultBytes y => Ok (MaxResultBytes (Z.min x y))
  | MaxQueryWork x, MaxQueryWork y => Ok (MaxQueryWork (Z.min x y))
  | MaxDurationMs x, MaxDurationMs y => Ok (MaxDurationMs (Z.min x y))
  | SourceNetwork x, SourceNetwork y =>
      if bool_decide (x = y) then Ok (SourceNetwork x) else Err (unavailable ConstraintDenied)
  | _, _ => Err (unavailable MalformedOrBadSignature)
  end.

(** The [BTreeMap<u64, Constraint>] of [intersect], whose keys are the kinds of
    its values: the list of its values in ascending order of kind. *)
Definition map_get (k : Z) (m : t) : option Constraint := List.find (fun c => kind c =? k) m.
Fixpoint map_insert (c : Constraint) (m : t) : t :=
  match m with
  | [] => [c]
  | d :: m' =>
      if kind c =? kind d then c :: m'
      else if kind c <? kind d then c :: m
      else d :: map_insert c m'
  end.

Fixpoint intersect_loop (m : t) (cs : t) : result HeapError t :=
  match cs with
  | [] => Ok m
  | c :: rest =>
      match map_get (kind c) m with
      | None => intersect_loop (map_insert c m) rest
      | Some existing =>
          let? merged := merge_pair existing c in
          intersect_loop (map_insert merged m) rest
      end
  end.
Definition intersect (self other : t) : result HeapError t :=
  intersect_loop [] (self ++ other).

Fixpoint allows_operation (cs : t) (op : Z) : bool :=
  match cs with
  | [] => true
  | OperationAllowlist ids :: rest =>
      if negb (bool_decide (op ∈ ids)) then false else allows_operation rest op
  | _ :: rest => allows_operation rest op
  end.
Fixpoint allows_collection (cs : t) (id : list byte) : bool :=
  match cs with
  | [] => true
  | CollectionAllowlist ids :: rest =>
      if negb (bool_decide (id ∈ ids)) then false else allows_collection rest id
  | _ :: rest => allows_collection rest id
  end.
Fixpoint allows_stream (cs : t) (id : list byte) : bool :=
  match cs with
  | [] => true
  | StreamAllowlist ids :: rest =>
      if negb (bool_decide (id ∈ ids)) then false else allows_stream rest id
  | _ :: rest => allows_stream rest id
  end.

Fixpoint max_query_work (cs : t) : option Z :=
  match cs with
  | [] => None
  | MaxQueryWork m :: _ => Some m
  | _ :: rest => max_query_work rest
  end.
Fixpoint max_result_bytes (cs : t) : option Z :=
  match cs with
  | [] => None
  | MaxResultBytes m :: _ => Some m
  | _ :: rest => max_result_bytes rest
  end.

End Constraints.

Definition require_rights (effective required : Rights.t) : result HeapError unit :=
  if Rights.contains effective required then Ok tt else Err (unavailable InsufficientRights).

(** ** Administrative state and security snapshot ([snapshot.rs], [authority.rs]) *)

Inductive HeapAdministrativeState : Type :=
| Active | ReadOnly | Suspended | Retired | Purging | Purged.
#[global] Instance admin_state_eq_dec : EqDecision HeapAdministrativeState.
Proof. solve_decision. Defined.

Definition state_as_u8 (s : HeapAdministrativeState) : Z :=
  match s with
  | Active => 1 | ReadOnly => 2 | Suspended => 3 | Retired => 4 | Purging => 5 | Purged => 6
  end.
Definition state_from_u8 (v : Z) : option HeapAdministrativeState :=
  if v =? 1 then Some Active
  else if v =? 2 then Some ReadOnly
  else if v =? 3 then Some Suspended
  else if v =? 4 then Some Retired
  else if v =? 5 then Some Purging
  else if v =? 6 then Some Purged
  else None.
Definition wire_name (s : HeapAdministrativeState) : string :=
  match s with
  | Active => "active"
  | ReadOnly => "read_only"
  | Suspended => "suspended"
  | Retired => "retired"
  | Purging => "purging"
  | Purged => "purged"
  end.
Definition is_terminal (s : HeapAdministrativeState) : bool :=
  match s with Purged => true | _ => false end.
Definition is_serving (s : HeapAdministrativeState) : bool :=
  match s with Active | ReadOnly => true | _ => false end.

Inductive BlacklistKind : Type := CertificateHash | HolderPublicKeyHash.
Record BlacklistEntry := {
  bl_kind : BlacklistKind;
  bl_generation : Z;
  bl_fingerprint : list byte }.

Record HeapSecuritySnapshot := {
  sn_deployment_id : list byte;
  sn_heap_id : list byte;
  sn_authority_epoch : Z;
  sn_authority_generation : Z;
  sn_previous_generation : option Z;
  sn_grace_deadline_unix_s : option Z;
  sn_master_public_key : list byte;
  sn_previous_master_public_key : option (list byte);
  sn_security_revision : Z;
  sn_authority_chain_head_hash : list byte;
  sn_administrative_state : HeapAdministrativeState;
  sn_blacklist : list BlacklistEntry;
  sn_policy_rights_ceiling : option Rights.t }.

(** Slots are shared: a capability holds a reference to its slot and every
    store is seen through it.  The memory maps each slot to its snapshot. *)
Definition SlotId : Type := nat.
Definition Slots : Type := SlotId -> HeapSecuritySnapshot.
Definition slot_load (m : Slots) (slot : SlotId) : HeapSecuritySnapshot := m slot.
Definition slot_store (m : Slots) (slot : SlotId) (snap : HeapSecuritySnapshot) : Slots :=
  fun i => if decide (i = slot) then snap else m i.

(** ** Security time ([security_time.rs]) *)

Inductive TimeDecision : Type := Accept | NotYetValid | Expired.

(** [observe] with the floor as state; the accepted instant is the new floor. *)
Definition observe (floor unix_s : Z) : result HeapError Z * Z :=
  if unix_s <? floor then (Err (unavailable NotYetValidOrExpired), floor)
  else (Ok unix_s, unix_s).

(** ** Certificates and capabilities ([certificate.rs], [capability.rs]) *)

Record VerifiedCertificate := {
  cose_bytes : list byte;
  fingerprint : list byte;
  ct_deployment_id : list byte;
  ct_heap_id : list byte;
  ct_authority_epoch : Z;
  ct_authority_generation : Z;
  certificate_id : list byte;
  holder_public_key : list byte;
  ct_rights : Rights.t;
  ct_constraints : Constraints.t;
  not_before : Z;
  expires_at : Z;
  issuer_master_key_id : list byte }.

Record CapInner := {
  capability_id : list byte;
  cap_slot : SlotId;
  cap_deployment_id : list byte;
  cap_heap_id : list byte;
  cap_certificate_id : list byte;
  certificate_fingerprint : list byte;
  holder_fingerprint : list byte;
  cap_authority_epoch : Z;
  cap_authority_generation : Z;
  validated_security_revision : Z;
  validated_authority_chain_head_hash : list byte;
  effective_rights : Rights.t;
  effective_constraints : Constraints.t;
  validity_deadline_unix_s : Z }.

(** ** The decision ([decide.rs]) *)

Module Kernel.

Record OperationDescriptor := {
  operation_id : Z;
  request_bytes : Z }.

Inductive AuthorizationDecision : Type :=
| Allow
| Deny (cause : HeapUnavailableCause).

Section Decide.
Context {K : KernelEnv}.

Definition authority_binding_holds (s : HeapSecuritySnapshot) (c : VerifiedCertificate) : bool :=
  bytes_eqb (ct_heap_id c) (sn_heap_id s)
  && bytes_eqb (ct_deployment_id c) (sn_deployment_id s)
  && (ct_authority_epoch c =? sn_authority_epoch s).

Definition generation_accepted (s : HeapSecuritySnapshot) (c : VerifiedCertificate) (now : Z)
  : bool :=
  (ct_authority_generation c =? sn_authority_generation s)
  || bool_decide (sn_previous_generation s = Some (ct_authority_generation c))
     && match sn_grace_deadline_unix_s s with Some d => now <=? d | None => false end.

Fixpoint blacklist_hit (generation : Z) (cert_fp holder_fp : list byte)
    (entries : list BlacklistEntry) : bool :=
  match entries with
  | [] => false
  | e :: rest =>
      if negb (bl_generation e =? generation)
      then blacklist_hit generation cert_fp holder_fp rest
      else if match bl_kind e with
              | CertificateHash => bytes_eqb (bl_fingerprint e) cert_fp
              | HolderPublicKeyHash => bytes_eqb (bl_fingerprint e) holder_fp
              end then true
      else blacklist_hit generation cert_fp holder_fp rest
  end.
Definition certificate_blacklisted (s : HeapSecuritySnapshot) (c : VerifiedCertificate) : bool :=
  blacklist_hit (ct_authority_generation c) (fingerprint c) (sha256 (holder_public_key c))
    (sn_blacklist s).

Definition authority_admission_ok (s : HeapSecuritySnapshot) (c : VerifiedCertificate) (now : Z)
  : bool :=
  if negb (authority_binding_holds s c) then false
  else if negb (is_serving (sn_administrative_state s)) || is_terminal (sn_administrative_state s)
  then false
  else if negb (generation_accepted s c now) then false
  else if certificate_blacklisted s c then false
  else
  let expected_master :=
    if ct_authority_generation c =? sn_authority_generation s
    then Some (sn_master_public_key s)
    else sn_previous_master_public_key s in
  match expected_master with
  | Some pk => bytes_eqb (issuer_master_key_id c) (sha256 pk)
  | None => false
  end.

Definition time_window (nb ex now : Z) : TimeDecision :=
  if now <? nb then NotYetValid
  else if ex <=? now then Expired
  else Accept.

(** [matches!(id, 1..=3)]. *)
Definition is_public (id : Z) : bool := (1 <=? id) && (id <=? 3).

Definition effective_of (s : HeapSecuritySnapshot) (c : VerifiedCertificate) : Rights.t :=
  match sn_policy_rights_ceiling s with
  | Some ceiling => Rights.intersection (ct_rights c) ceiling
  | None => ct_rights c
  end.

Fixpoint within_request_bytes (cs : Constraints.t) (request : Z) : bool :=
  match cs with
  | [] => true
  | MaxRequestBytes m :: rest => if m <? request then false else within_request_bytes rest request
  | _ :: rest => within_request_bytes rest request
  end.

Definition decide_inner (s : HeapSecuritySnapshot) (c : VerifiedCertificate)
    (op : OperationDescriptor) (now : Z) : result HeapError unit :=
  if is_public (operation_id op) then
    let? st := Operation.status (operation_id op) in
    if negb (bool_decide (st = OpActive)) then Err (unavailable UnknownOperation) else Ok tt
  else
  let? st := Operation.status (operation_id op) in
  if negb (bool_decide (st = OpActive)) then Err (unavailable UnknownOperation)
  else if negb (authority_binding_holds s c) then Err (unavailable StaleAuthority)
  else match time_window (not_before c) (expires_at c) now with
  | NotYetValid | Expired => Err (unavailable NotYetValidOrExpired)
  | Accept =>
  if negb (generation_accepted s c now) then Err (unavailable StaleAuthority)
  else
  let? expected_master :=
    if ct_authority_generation c =? sn_authority_generation s then Ok (sn_master_public_key s)
    else match sn_previous_master_public_key s with
         | Some pk => Ok pk
         | None => Err (unavailable StaleAuthority)
         end in
  if negb (bytes_eqb (issuer_master_key_id c) (sha256 expected_master))
  then Err (unavailable StaleAuthority)
  else if certificate_blacklisted s c then Err (unavailable Blacklisted)
  else if is_terminal (sn_administrative_state s) then Err (unavailable InvalidState)
  else match admitted_ops_for_state (wire_name (sn_administrative_state s)) with
  | None => Err (unavailable InvalidState)
  | Some admitted =>
  if negb (bool_decide (operation_id op ∈ admitted)) then Err (unavailable InvalidState)
  else
  let? required := Operation.required_rights (operation_id op) in
  let? _ := require_rights (effective_of s c) required in
  if negb (Constraints.allows_operation (ct_constraints c) (operation_id op))
  then Err (unavailable ConstraintDenied)
  else if negb (within_request_bytes (ct_constraints c) (request_bytes op))
  then Err (unavailable ConstraintDenied)
  else Ok tt
  end
  end.

Definition decide (s : HeapSecuritySnapshot) (c : VerifiedCertificate)
    (op : OperationDescriptor) (now : Z) : AuthorizationDecision :=
  match decide_inner s c op now with
  | Ok _ => Allow
  | Err (UnavailableDetailed cause) => Deny cause
  | Err _ => Deny Denied
  end.

Definition cap_deadline (s : HeapSecuritySnapshot) (c : VerifiedCertificate) : Z :=
  if bool_decide (sn_previous_generation s = Some (ct_authority_generation c)) then
    match sn_grace_deadline_unix_s s with
    | Some g => Z.min (expires_at c) g
    | None => expires_at c
    end
  else expires_at c.

(** [fill] is the outcome of the random source. *)
Definition mint_capability (m : Slots) (slot : SlotId) (c : VerifiedCertificate) (now : Z)
    (fill : option (list byte)) : result HeapError CapInner :=
  let snap := slot_load m slot in
  if negb (bytes_eqb (ct_heap_id c) (sn_heap_id snap)) then Err (unavailable StaleAuthority)
  else
  let deadline := cap_deadline snap c in
  if deadline <=? now then Err (unavailable NotYetValidOrExpired)
  else
  let? id := id_new_random fill in
  Ok {| capability_id := id;
        cap_slot := slot;
        cap_deployment_id := ct_deployment_id c;
        cap_heap_id := ct_heap_id c;
        cap_certificate_id := certificate_id c;
        certificate_fingerprint := fingerprint c;
        holder_fingerprint := sha256 (holder_public_key c);
        cap_authority_epoch := ct_authority_epoch c;
        cap_authority_generation := ct_authority_generation c;
        validated_security_revision := sn_security_revision snap;
        validated_authority_chain_head_hash := sn_authority_chain_head_hash snap;
        effective_rights := effective_of snap c;
        effective_constraints := ct_constraints c;
        validity_deadline_unix_s := deadline |}.

Definition refresh_capability_or_terminate (m : Slots) (cap : CapInner)
  : result HeapError unit :=
  let snap := slot_load m (cap_slot cap) in
  if negb (bytes_eqb (sn_heap_id snap) (cap_heap_id cap))
     || negb (bytes_eqb (sn_deployment_id snap) (cap_deployment_id cap))
     || negb (sn_authority_epoch snap =? cap_authority_epoch cap)
     || negb (sn_security_revision snap =? validated_security_revision cap)
     || negb (bytes_eqb (sn_authority_chain_head_hash snap)
                (validated_authority_chain_head_hash cap))
     || negb (is_serving (sn_administrative_state snap))
  then Err (unavailable StaleAuthority)
  else
  let? _ := nonzero_new (sn_security_revision snap) in
  Ok tt.

End Decide.
End Kernel.
