(* ===== verification/HeapKernelFacts.v ===== *)
(** * Properties of the heap authorization kernel

    The decision against an explicit authorization relation, what a minted
    capability can do and when it dies, and the exactness of constraint
    intersection. *)
From Stdlib Require Import Sorting.Sorted.
From S2P Require Import Prelude HeapKernel.
Open Scope string_scope.
Open Scope list_scope.
Open Scope Z_scope.

(** ** Rights as bit sets *)

Lemma contains_spec e r :
  Rights.contains e r = true <-> forall i, Z.testbit r i = true -> Z.testbit e i = true.
Proof.
  unfold Rights.contains. rewrite Z.eqb_eq. split.
  - intros H i Hi. rewrite <- H in Hi. rewrite Z.land_spec in Hi. by boolify.
  - intros H. apply Z.bits_inj'. intros i _. rewrite Z.land_spec.
    destruct (Z.testbit r i) eqn:Hr; [by rewrite (H i Hr)|by rewrite andb_false_r].
Qed.

Lemma reserved_bits_small b :
  in_u64 b -> Z.land b Rights.RESERVED_BITS = 0 <-> b < 2 ^ 17.
Proof.
  intros [H0 H64].
  assert (Hm : Z.land b Rights.RESERVED_BITS = Z.shiftl (Z.shiftr b 17) 17).
  { apply Z.bits_inj'. intros i Hi. rewrite Z.land_spec.
    replace Rights.RESERVED_BITS with (Z.shiftl (Z.ones 47) 17) by reflexivity.
    rewrite !Z.shiftl_spec by lia.
    destruct (decide (i < 17)).
    - rewrite !(Z.testbit_neg_r _ (i - 17)) by lia. by rewrite andb_false_r.
    - rewrite Z.shiftr_spec by lia. replace (i - 17 + 17) with i by lia.
      destruct (decide (i < 64)).
      + rewrite Z.ones_spec_low by lia. by rewrite andb_true_r.
      + rewrite Z.ones_spec_high by lia. rewrite andb_false_r. symmetry.
        destruct (decide (b = 0)) as [->|]; [by rewrite Z.testbit_0_l|].
        apply Z.bits_above_log2; [lia|]. apply Z.log2_lt_pow2; [lia|].
        assert (2 ^ 64 <= 2 ^ i) by (apply Z.pow_le_mono_r; lia).
        unfold U64_MAX in H64. lia. }
  rewrite Hm, Z.shiftl_mul_pow2, Z.shiftr_div_pow2 by lia.
  rewrite Z.mul_eq_0. split.
  - intros [Hd|Hd]; [|lia]. apply Z.div_small_iff in Hd; lia.
  - intros Hd. left. apply Z.div_small. lia.
Qed.

(** ** Constraint lists *)

Lemma allows_operation_spec cs op :
  Constraints.allows_operation cs op = true <->
  forall ids, OperationAllowlist ids ∈ cs -> op ∈ ids.
Proof.
  induction cs as [|c cs IH]; [set_solver|].
  destruct c; simpl; try (rewrite IH; set_solver).
  case_bool_decide; simpl; [rewrite IH|]; set_solver.
Qed.
Lemma allows_collection_spec cs id :
  Constraints.allows_collection cs id = true <->
  forall ids, CollectionAllowlist ids ∈ cs -> id ∈ ids.
Proof.
  induction cs as [|c cs IH]; [set_solver|].
  destruct c; simpl; try (rewrite IH; set_solver).
  case_bool_decide; simpl; [rewrite IH|]; set_solver.
Qed.
Lemma allows_stream_spec cs id :
  Constraints.allows_stream cs id = true <->
  forall ids, StreamAllowlist ids ∈ cs -> id ∈ ids.
Proof.
  induction cs as [|c cs IH]; [set_solver|].
  destruct c; simpl; try (rewrite IH; set_solver).
  case_bool_decide; simpl; [rewrite IH|]; set_solver.
Qed.
Lemma within_request_spec cs n :
  Kernel.within_request_bytes cs n = true <->
  forall m, MaxRequestBytes m ∈ cs -> n <= m.
Proof.
  induction cs as [|c cs IH]; [set_solver|].
  destruct c; simpl; try (rewrite IH; set_solver).
  destruct (m <? n) eqn:Hm; boolify; [|rewrite IH].
  - split; [done|]. intros H. specialize (H m ltac:(set_solver)). lia.
  - split; [|set_solver]. intros H m' Hm'.
    apply elem_of_cons in Hm' as [[= ->]|]; [done|]. by apply H.
Qed.

(** ** The decision *)

Section Decision.
Context {K : KernelEnv}.

Definition op_is_active (id : Z) : Prop :=
  exists row, generated_op id = Some row /\ op_status row = "active".

(** The certificate is of the previous generation, signed by its master key, and the
    grace of that generation ends at [d]. *)
Definition previous_signs (s : HeapSecuritySnapshot) (c : VerifiedCertificate) (d : Z) : Prop :=
  ct_authority_generation c <> sn_authority_generation s /\
  sn_previous_generation s = Some (ct_authority_generation c) /\
  sn_grace_deadline_unix_s s = Some d /\
  exists pk, sn_previous_master_public_key s = Some pk /\ issuer_master_key_id c = sha256 pk.

(** The certificate is signed for this snapshot: by the master key of the
    current generation, or by the previous one during grace.  Grace is [now < d] in the
    specification of heaps (section 8.11); the code also accepts the second of the
    deadline itself, which is the third case. *)
Inductive generation_holds (s : HeapSecuritySnapshot) (c : VerifiedCertificate) (now : Z)
  : Prop :=
| GenCurrent :
    ct_authority_generation c = sn_authority_generation s ->
    issuer_master_key_id c = sha256 (sn_master_public_key s) ->
    generation_holds s c now
| GenGrace d : previous_signs s c d -> now < d -> generation_holds s c now
| GenDeadline : previous_signs s c now -> generation_holds s c now.

Definition blacklist_names (c : VerifiedCertificate) (e : BlacklistEntry) : Prop :=
  bl_generation e = ct_authority_generation c /\
  bl_fingerprint e = match bl_kind e with
                     | CertificateHash => fingerprint c
                     | HolderPublicKeyHash => sha256 (holder_public_key c)
                     end.

(** Every right the operation needs is granted by the certificate and, when a
    policy ceiling is set, left by the ceiling. *)
Definition rights_cover (s : HeapSecuritySnapshot) (c : VerifiedCertificate) (required : Z)
  : Prop :=
  forall i, Z.testbit required i = true ->
    Z.testbit (ct_rights c) i = true /\
    forall ceiling, sn_policy_rights_ceiling s = Some ceiling -> Z.testbit ceiling i = true.

Record authorized (s : HeapSecuritySnapshot) (c : VerifiedCertificate)
    (op : Kernel.OperationDescriptor) (now : Z) : Prop := {
  au_heap : ct_heap_id c = sn_heap_id s;
  au_deployment : ct_deployment_id c = sn_deployment_id s;
  au_epoch : ct_authority_epoch c = sn_authority_epoch s;
  au_window : not_before c <= now < expires_at c;
  au_generation : generation_holds s c now;
  au_not_blacklisted : forall e, e ∈ sn_blacklist s -> ~ blacklist_names c e;
  au_state : sn_administrative_state s <> Purged /\
    exists ops, admitted_ops_for_state (wire_name (sn_administrative_state s)) = Some ops /\
      Kernel.operation_id op ∈ ops;
  au_operation : exists row, generated_op (Kernel.operation_id op) = Some row /\
    op_status row = "active" /\ op_rights_mask row < 2 ^ 17 /\
    rights_cover s c (op_rights_mask row);
  au_allowlist : forall ids, OperationAllowlist ids ∈ ct_constraints c ->
    Kernel.operation_id op ∈ ids;
  au_request : forall m, MaxRequestBytes m ∈ ct_constraints c ->
    Kernel.request_bytes op <= m }.

Lemma status_active id : Operation.status id = Ok OpActive <-> op_is_active id.
Proof.
  unfold Operation.status, Operation.lookup, op_is_active.
  destruct (generated_op id) as [row|].
  - repeat case_bool_decide; split; naive_solver.
  - split; naive_solver.
Qed.

Lemma blacklist_hit_spec g cf hf es :
  Kernel.blacklist_hit g cf hf es = true <->
  exists e, e ∈ es /\ bl_generation e = g /\
    bl_fingerprint e = match bl_kind e with CertificateHash => cf | HolderPublicKeyHash => hf end.
Proof.
  transitivity (existsb (fun e => (bl_generation e =? g) && bytes_eqb (bl_fingerprint e)
    match bl_kind e with CertificateHash => cf | HolderPublicKeyHash => hf end) es = true).
  - f_equiv. induction es as [|e es IH]; simpl; [done|]. rewrite <- IH.
    destruct (bl_generation e =? g), (bl_kind e); simpl; try done;
      by destruct (bytes_eqb (bl_fingerprint e) cf), (bytes_eqb (bl_fingerprint e) hf).
  - rewrite existsb_exists. setoid_rewrite <- list_elem_of_In.
    setoid_rewrite andb_true_iff. setoid_rewrite Z.eqb_eq. unfold bytes_eqb.
    by setoid_rewrite bool_decide_eq_true.
Qed.

Lemma blacklisted_spec s c :
  Kernel.certificate_blacklisted s c = false <->
  forall e, e ∈ sn_blacklist s -> ~ blacklist_names c e.
Proof.
  unfold Kernel.certificate_blacklisted.
  rewrite <- not_true_iff_false, blacklist_hit_spec. unfold blacklist_names. naive_solver.
Qed.

Lemma effective_of_spec s c i :
  Z.testbit (Kernel.effective_of s c) i = true <->
  Z.testbit (ct_rights c) i = true /\
  forall ceiling, sn_policy_rights_ceiling s = Some ceiling -> Z.testbit ceiling i = true.
Proof.
  unfold Kernel.effective_of, Rights.intersection.
  destruct (sn_policy_rights_ceiling s); [rewrite Z.land_spec, andb_true_iff|]; naive_solver.
Qed.

Definition op_public (op : Kernel.OperationDescriptor) : Prop :=
  1 <= Kernel.operation_id op <= 3.

Lemma is_public_spec op : Kernel.is_public (Kernel.operation_id op) = true <-> op_public op.
Proof. unfold Kernel.is_public, op_public. rewrite andb_true_iff, !Z.leb_le. done. Qed.

Lemma decide_allow_inner s c op now :
  Kernel.decide s c op now = Kernel.Allow <-> Kernel.decide_inner s c op now = Ok tt.
Proof.
  unfold Kernel.decide. destruct (Kernel.decide_inner s c op now) as [[]|[]]; split; naive_solver.
Qed.

Lemma generation_holds_spec s c now :
  generation_holds s c now <->
  Kernel.generation_accepted s c now = true /\
  exists pk, (if ct_authority_generation c =? sn_authority_generation s
              then Some (sn_master_public_key s) else sn_previous_master_public_key s) = Some pk /\
    issuer_master_key_id c = sha256 pk.
Proof.
  unfold Kernel.generation_accepted. split.
  - assert (Hprev : forall d, previous_signs s c d -> now <= d ->
      (ct_authority_generation c =? sn_authority_generation s)
      || bool_decide (sn_previous_generation s = Some (ct_authority_generation c))
         && match sn_grace_deadline_unix_s s with Some d => now <=? d | None => false end = true /\
      exists pk, (if ct_authority_generation c =? sn_authority_generation s
                  then Some (sn_master_public_key s) else sn_previous_master_public_key s) = Some pk /\
        issuer_master_key_id c = sha256 pk).
    { intros d (Hne & Hp & Hd & pk & Hk & Hi) Hn. rewrite (proj2 (Z.eqb_neq _ _) Hne), Hd. simpl.
      rewrite bool_decide_true by done. split; [simpl; by apply Z.leb_le|naive_solver]. }
    intros [He Hi|d Hs Hn|Hs].
    + rewrite He, Z.eqb_refl. naive_solver.
    + apply (Hprev d Hs). lia.
    + by apply (Hprev now Hs).
  - destruct (_ =? _) eqn:He; boolify; simpl.
    + intros (_ & pk & [= <-] & ?). by apply GenCurrent.
    + intros (Ha & pk & Hk & Hi). boolify.
      apply bool_decide_eq_true in H. destruct (sn_grace_deadline_unix_s s) eqn:Hd; [|done].
      boolify. assert (Hs : previous_signs s c z) by (split_and!; eauto).
      destruct (decide (now = z)) as [->|]; [by apply GenDeadline|]. apply (GenGrace s c now z Hs). lia.
Qed.

Lemma time_window_accept nb ex now :
  Kernel.time_window nb ex now = Accept <-> nb <= now < ex.
Proof.
  unfold Kernel.time_window.
  destruct (now <? nb) eqn:?, (ex <=? now) eqn:?; boolify; split; intros; try done; lia.
Qed.

Lemma binding_spec s c :
  Kernel.authority_binding_holds s c = true <->
  ct_heap_id c = sn_heap_id s /\ ct_deployment_id c = sn_deployment_id s /\
  ct_authority_epoch c = sn_authority_epoch s.
Proof.
  unfold Kernel.authority_binding_holds, bytes_eqb.
  rewrite !andb_true_iff, !bool_decide_eq_true, Z.eqb_eq. tauto.
Qed.

(** The rights that the operation requires are available. *)
Lemma required_spec s c id :
  (forall row, generated_op id = Some row -> in_u64 (op_rights_mask row)) ->
  (exists required, Operation.required_rights id = Ok required /\
     require_rights (Kernel.effective_of s c) required = Ok tt) <->
  exists row, generated_op id = Some row /\ op_rights_mask row < 2 ^ 17 /\
    rights_cover s c (op_rights_mask row).
Proof.
  intros Hty. unfold Operation.required_rights, Operation.lookup, Rights.from_bits_effective,
    require_rights, rights_cover.
  destruct (generated_op id) as [row|]; [|naive_solver].
  specialize (Hty row eq_refl). pose proof (reserved_bits_small _ Hty) as Hr.
  setoid_rewrite <- effective_of_spec.
  destruct (_ =? 0) eqn:Hz; boolify; simpl.
  - split.
    + intros (? & [= <-] & Hc). exists row. split; [done|]. split; [tauto|].
      apply contains_spec. by destruct (Rights.contains _ _).
    + intros (? & [= <-] & _ & Hc). eexists. split; [done|].
      apply contains_spec in Hc. by rewrite Hc.
  - split; [naive_solver|]. intros (? & [= <-] & ? & _). tauto.
Qed.

Lemma decide_inner_private s c op now :
  Kernel.is_public (Kernel.operation_id op) = false ->
  Kernel.decide_inner s c op now = Ok tt <->
  Operation.status (Kernel.operation_id op) = Ok OpActive /\
  Kernel.authority_binding_holds s c = true /\
  Kernel.time_window (not_before c) (expires_at c) now = Accept /\
  generation_holds s c now /\
  Kernel.certificate_blacklisted s c = false /\
  is_terminal (sn_administrative_state s) = false /\
  (exists ops, admitted_ops_for_state (wire_name (sn_administrative_state s)) = Some ops /\
     Kernel.operation_id op ∈ ops) /\
  (exists required, Operation.required_rights (Kernel.operation_id op) = Ok required /\
     require_rights (Kernel.effective_of s c) required = Ok tt) /\
  Constraints.allows_operation (ct_constraints c) (Kernel.operation_id op) = true /\
  Kernel.within_request_bytes (ct_constraints c) (Kernel.request_bytes op) = true.
Proof.
  intros Hp. rewrite generation_holds_spec.
  unfold Kernel.decide_inner, bytes_eqb. rewrite Hp. split.
  - intros H. run H; boolify;
      repeat match goal with X : bool_decide _ = true |- _ => apply bool_decide_eq_true in X end.
    all: subst; repeat match goal with X : () |- _ => destruct X end.
    all: repeat match goal with
      | |- _ /\ _ => split
      | |- exists _, Some _ = Some _ /\ _ => eexists; split; [reflexivity|done]
      | |- exists _, Ok _ = Ok _ /\ _ => eexists; split; [reflexivity|done]
      end; done.
  - intros (-> & -> & -> & (-> & pk & Hk & Hi) & -> & -> & (ops & -> & Hop) &
      (req & -> & ->) & -> & ->). cbn -[Z.eqb].
    destruct (_ =? _); [|destruct (sn_previous_master_public_key s); [|done]];
      simplify_eq; rewrite !bool_decide_true by done; done.
Qed.

Lemma decide_private_iff s c op now :
  (forall row, generated_op (Kernel.operation_id op) = Some row ->
     in_u64 (op_rights_mask row)) ->
  Kernel.is_public (Kernel.operation_id op) = false ->
  Kernel.decide s c op now = Kernel.Allow <-> authorized s c op now.
Proof.
  intros Hty Hp.
  rewrite decide_allow_inner, decide_inner_private, required_spec, binding_spec,
    time_window_accept, blacklisted_spec, allows_operation_spec, within_request_spec,
    status_active by done.
  split.
  - intros ((row & Hrow & Hact) & (? & ? & ?) & ? & ? & ? & Hterm & Hops &
      (row' & Hrow' & ? & ?) & ? & ?). simplify_eq.
    split; try done; [split; [by intros Hx; rewrite Hx in Hterm|done]|].
    naive_solver.
  - intros [? ? ? ? ? ? [Hst ?] (row & ? & ? & ? & ?) ? ?].
    repeat split; try done; try lia; [by exists row|by destruct (sn_administrative_state s)|].
    by exists row.
Qed.

Lemma decide_public_iff s c op now :
  Kernel.is_public (Kernel.operation_id op) = true ->
  Kernel.decide s c op now = Kernel.Allow <-> op_is_active (Kernel.operation_id op).
Proof.
  intros Hp. rewrite decide_allow_inner, <- status_active.
  unfold Kernel.decide_inner. rewrite Hp.
  destruct (Operation.status _) as [[]|]; naive_solver.
Qed.

(** C11. The pure decision allows an operation exactly when it is an active
    public process operation, or the certificate is authorized for it: bound to
    this heap, deployment and epoch, inside its validity window, signed for the current
    generation or for the previous one up to the grace deadline (the second of the
    deadline included, which the specification of heaps leaves out), not blacklisted, the state admits the operation, the
    rights of the certificate under the ceiling cover the ones the registry
    requires, and the operation allowlists and request limits are met. *)
Theorem decide_allow_iff s c op now :
  (forall row, generated_op (Kernel.operation_id op) = Some row ->
     in_u64 (op_rights_mask row)) ->
  Kernel.decide s c op now = Kernel.Allow <->
  (op_public op /\ op_is_active (Kernel.operation_id op)) \/
  (~ op_public op /\ authorized s c op now).
Proof.
  intros Hty. rewrite <- is_public_spec.
  destruct (Kernel.is_public _) eqn:Hp.
  - rewrite decide_public_iff by done. naive_solver.
  - rewrite decide_private_iff by done. naive_solver.
Qed.

(** ** Capabilities *)

Lemma version_bits b :
  Z.shiftr (Z.land (b2z (z2b (Z.lor (Z.land (b2z b) 0x0f) 0x40))) 0xf0) 4 = 4.
Proof. destruct b; vm_compute; reflexivity. Qed.
Lemma variant_bits b :
  Z.shiftr (Z.land (b2z (z2b (Z.lor (Z.land (b2z b) 0x3f) 0x80))) 0xc0) 6 = 2.
Proof. destruct b; vm_compute; reflexivity. Qed.

(** A random identity is a valid version-4 UUID. *)
Lemma new_random_valid bytes :
  length bytes = 16%nat ->
  exists id, id_new_random (Some bytes) = Ok id /\ length id = 16%nat /\ id_from_bytes id = Ok id.
Proof.
  intros Hl. eexists. split; [reflexivity|]. split; [by rewrite !length_alter|].
  do 16 (destruct bytes as [|? bytes]; [done|]). destruct bytes; [|done].
  unfold id_from_bytes. cbn [alter list_alter nth].
  rewrite version_bits, variant_bits. cbn.
  unfold bytes_eqb. rewrite bool_decide_false; [done|]. intros H.
  apply (f_equal (fun l => Z.shiftr (Z.land (b2z (nth 6 l Byte.x00)) 0xf0) 4)) in H.
  cbn [nth] in H. rewrite version_bits in H. by vm_compute in H.
Qed.

Record capability_of (snap : HeapSecuritySnapshot) (slot : SlotId) (c : VerifiedCertificate)
    (now : Z) (cap : CapInner) : Prop := {
  co_slot : cap_slot cap = slot;
  co_heap : cap_heap_id cap = ct_heap_id c /\ ct_heap_id c = sn_heap_id snap;
  co_deployment : cap_deployment_id cap = ct_deployment_id c;
  co_epoch : cap_authority_epoch cap = ct_authority_epoch c;
  co_revision : validated_security_revision cap = sn_security_revision snap;
  co_head : validated_authority_chain_head_hash cap = sn_authority_chain_head_hash snap;
  co_rights : effective_rights cap = Kernel.effective_of snap c;
  co_constraints : effective_constraints cap = ct_constraints c;
  co_deadline : now < validity_deadline_unix_s cap /\
    validity_deadline_unix_s cap = Kernel.cap_deadline snap c;
  co_id : id_from_bytes (capability_id cap) = Ok (capability_id cap) }.

Lemma mint_inv m slot c now fill cap :
  (forall bs, fill = Some bs -> length bs = 16%nat) ->
  Kernel.mint_capability m slot c now fill = Ok cap ->
  capability_of (m slot) slot c now cap.
Proof.
  unfold Kernel.mint_capability, slot_load, bytes_eqb. intros Hfill H.
  case_bool_decide as Hh; simpl in H; [|done].
  destruct (_ <=? _) eqn:Hd; [done|]. boolify.
  destruct fill as [bs|]; [|done].
  destruct (new_random_valid bs (Hfill _ eq_refl)) as (id & Hid & _ & Hv).
  rewrite Hid in H. simplify_eq. by split.
Qed.

Lemma cap_deadline_le s c : Kernel.cap_deadline s c <= expires_at c.
Proof.
  unfold Kernel.cap_deadline. case_bool_decide; [destruct (sn_grace_deadline_unix_s s)|]; lia.
Qed.

(** The time of an allowed decision lies before the capability deadline, except
    at the very last second of the grace window. *)
Lemma authorized_deadline s c op now :
  authorized s c op now ->
  now < Kernel.cap_deadline s c \/
  sn_previous_generation s = Some (ct_authority_generation c) /\
  exists g, sn_grace_deadline_unix_s s = Some g /\ g <= now /\
    (ct_authority_generation c <> sn_authority_generation s -> g = now).
Proof.
  intros [_ _ _ Hw Hg _ _ _ _ _]. unfold Kernel.cap_deadline.
  case_bool_decide as Hp; [|left; lia].
  destruct (sn_grace_deadline_unix_s s) as [g|] eqn:Hgr; [|left; lia].
  destruct (decide (now < g)); [left; lia|]. right. split; [done|].
  exists g. split; [done|]. split; [lia|]. intros Hne.
  destruct Hg as [|d (_ & _ & Hd & _) Hn|(_ & _ & Hd & _)]; [done|..]; simplify_eq; lia.
Qed.

(** The snapshot still is the one the capability was validated against. *)
Record still_bound (snap : HeapSecuritySnapshot) (cap : CapInner) : Prop := {
  sb_heap : sn_heap_id snap = cap_heap_id cap;
  sb_deployment : sn_deployment_id snap = cap_deployment_id cap;
  sb_epoch : sn_authority_epoch snap = cap_authority_epoch cap;
  sb_revision : sn_security_revision snap = validated_security_revision cap /\
    sn_security_revision snap <> 0;
  sb_head : sn_authority_chain_head_hash snap = validated_authority_chain_head_hash cap;
  sb_serving : is_serving (sn_administrative_state snap) = true }.

Lemma refresh_spec m cap :
  Kernel.refresh_capability_or_terminate m cap = Ok tt <-> still_bound (m (cap_slot cap)) cap.
Proof.
  unfold Kernel.refresh_capability_or_terminate, slot_load, nonzero_new, bytes_eqb.
  split.
  - intros H. destruct (_ || _) eqn:Hb; [done|]. destruct (_ =? 0) eqn:Hz; [done|]. boolify.
    repeat match goal with X : bool_decide _ = true |- _ => apply bool_decide_eq_true in X end.
    by split.
  - intros [H1 H2 H3 [H4 H5] H6 H7]. rewrite H7, !bool_decide_true by done.
    rewrite (proj2 (Z.eqb_eq _ _) H3), (proj2 (Z.eqb_eq _ _) H4).
    by rewrite (proj2 (Z.eqb_neq _ _) H5).
Qed.

(** C12. After an allowed decision on a heap operation, minting on the same
    snapshot yields a capability that is valid now, lives no longer than the
    certificate, holds exactly the rights of the certificate under the policy
    ceiling (among them those the operation requires), carries its constraints
    and refreshes at once when the state serves.  The one exception: for a
    generation in its grace window minting refuses from the grace deadline on,
    which the decision still accepts. *)
Theorem allowed_then_minted m slot c op now bs :
  (forall row, generated_op (Kernel.operation_id op) = Some row ->
     in_u64 (op_rights_mask row)) ->
  ~ op_public op -> length bs = 16%nat -> sn_security_revision (m slot) <> 0 ->
  Kernel.decide (m slot) c op now = Kernel.Allow ->
  match Kernel.mint_capability m slot c now (Some bs) with
  | Ok cap =>
      now < validity_deadline_unix_s cap <= expires_at c /\
      (forall i, Z.testbit (effective_rights cap) i = true <->
         Z.testbit (ct_rights c) i = true /\
         forall ceiling, sn_policy_rights_ceiling (m slot) = Some ceiling ->
           Z.testbit ceiling i = true) /\
      (exists required, Operation.required_rights (Kernel.operation_id op) = Ok required /\
         Rights.contains (effective_rights cap) required = true) /\
      effective_constraints cap = ct_constraints c /\
      (is_serving (sn_administrative_state (m slot)) = true ->
         Kernel.refresh_capability_or_terminate m cap = Ok tt)
  | Err e =>
      e = unavailable NotYetValidOrExpired /\
      sn_previous_generation (m slot) = Some (ct_authority_generation c) /\
      exists g, sn_grace_deadline_unix_s (m slot) = Some g /\ g <= now /\
        (ct_authority_generation c <> sn_authority_generation (m slot) -> g = now)
  end.
Proof.
  intros Hty Hpub Hl Hrev Hallow.
  apply decide_private_iff in Hallow as Hau; [|done|by rewrite <- not_true_iff_false, is_public_spec].
  pose proof (proj1 (decide_allow_inner _ _ _ _) Hallow) as Hin.
  apply decide_inner_private in Hin as (_ & _ & _ & _ & _ & _ & _ & (req & Hreq & Hrr) & _);
    [|by rewrite <- not_true_iff_false, is_public_spec].
  destruct (Kernel.mint_capability m slot c now (Some bs)) as [cap|e] eqn:Hm.
  - apply mint_inv in Hm as [<- [Hc Hh] Hd He Hr Hhd Hri Hco [Hnow Hdl] _]; [|naive_solver].
    rewrite Hri. split; [rewrite Hdl in *; pose proof (cap_deadline_le (m (cap_slot cap)) c); lia|].
    split; [intros i; apply effective_of_spec|].
    split; [exists req; split; [done|]; unfold require_rights in Hrr; by destruct (Rights.contains _ _)|].
    split; [done|]. intros Hs. apply refresh_spec. destruct Hau.
    split; congruence || done.
  - unfold Kernel.mint_capability, slot_load, bytes_eqb in Hm.
    rewrite bool_decide_true in Hm by apply Hau. cbn [negb] in Hm.
    destruct (_ <=? _) eqn:Hle; boolify.
    + split; [congruence|]. apply authorized_deadline in Hau as [|]; [lia|done].
    + destruct (new_random_valid bs Hl) as (id & Hid & _). by rewrite Hid in Hm.
Qed.

(** A capability that was live at some point is terminated by every
    replacement of its slot that changes heap, deployment, epoch, security
    revision or chain head or leaves the serving states, survives a replacement
    that keeps them, and is not affected by stores to other slots. *)
Theorem capability_lifetime m cap i snap :
  Kernel.refresh_capability_or_terminate m cap = Ok tt ->
  Kernel.refresh_capability_or_terminate (slot_store m i snap) cap =
  if bool_decide (i = cap_slot cap) then
    if bool_decide (
      sn_heap_id snap = sn_heap_id (m i) /\
      sn_deployment_id snap = sn_deployment_id (m i) /\
      sn_authority_epoch snap = sn_authority_epoch (m i) /\
      sn_security_revision snap = sn_security_revision (m i) /\
      sn_authority_chain_head_hash snap = sn_authority_chain_head_hash (m i) /\
      is_serving (sn_administrative_state snap) = true)
    then Ok tt else Err (unavailable StaleAuthority)
  else Ok tt.
Proof.
  intros Hlive. apply refresh_spec in Hlive as Hb.
  case_bool_decide as Hi.
  - subst i. destruct Hb as [H1 H2 H3 [H4 H4'] H5 H6].
    case_bool_decide as Hs.
    + apply refresh_spec. unfold slot_store. rewrite decide_True by done.
      destruct Hs as (? & ? & ? & ? & ? & ?). split; intuition congruence.
    + unfold Kernel.refresh_capability_or_terminate, slot_load, slot_store, bytes_eqb.
      rewrite decide_True by done. destruct (_ || _) eqn:Hor; [done|]. exfalso. apply Hs.
      boolify.
      repeat match goal with X : bool_decide _ = true |- _ => apply bool_decide_eq_true in X end.
      intuition congruence.
  - apply refresh_spec. unfold slot_store. by rewrite decide_False by done.
Qed.

End Decision.

(** ** Constraint intersection *)

Definition kind_lt (a b : Constraint) : Prop := kind a < kind b.
Definition kinds_sorted : Constraints.t -> Prop := StronglySorted kind_lt.

Lemma sorted_loop_spec last cs :
  Constraints.sorted_loop last cs = true <->
  kinds_sorted cs /\ forall l, last = Some l -> Forall (fun c => l < kind c) cs.
Proof.
  revert last. induction cs as [|c cs IH]; intros last; simpl.
  { split; [|done]. intros _. split; [constructor|by constructor]. }
  destruct (match last with Some l => kind c <=? l | None => false end) eqn:Hl.
  - split; [done|]. intros [_ H]. destruct last as [l|]; [|done]. boolify.
    specialize (H l eq_refl). inversion H; subst. lia.
  - rewrite IH. split.
    + intros [Hs Hf]. specialize (Hf _ eq_refl).
      split; [by constructor|]. intros l ->. boolify. constructor; [lia|].
      eapply Forall_impl; [exact Hf|]. simpl. lia.
    + intros [Hs _]. apply StronglySorted_inv in Hs as [Hs Hf].
      split; [done|]. by intros l [= <-].
Qed.

Lemma from_sorted_spec cs r :
  Constraints.from_sorted cs = Ok r <-> kinds_sorted cs /\ r = cs.
Proof.
  unfold Constraints.from_sorted. pose proof (sorted_loop_spec None cs) as H.
  destruct (Constraints.sorted_loop None cs); naive_solver.
Qed.

Lemma decode_loop_sorted last es r :
  Constraints.decode_loop last es = Ok r ->
  Constraints.sorted_loop last r = true /\ es = map (fun c => (kind c, true, c)) r.
Proof.
  revert last r. induction es as [|[[k crit] c] es IH]; simpl; intros last r H.
  { by simplify_eq. }
  destruct crit; simpl in H; [|done].
  destruct (kind c =? k) eqn:Hk; simpl in H; [|done]. boolify.
  destruct (match last with Some l => k <=? l | None => false end) eqn:Hl; [done|].
  destruct (Constraints.decode_loop (Some k) es) as [out|] eqn:Hd; [|done].
  simplify_eq. apply IH in Hd as [Hd ->]. simpl. by rewrite Hl.
Qed.

(** Decoded constraint sets are canonical. *)
Lemma decode_canonical_sorted es r :
  Constraints.decode_canonical es = Ok r ->
  Constraints.from_sorted r = Ok r /\ es = map (fun c => (kind c, true, c)) r.
Proof.
  intros [Hs He]%decode_loop_sorted. split; [|done].
  apply sorted_loop_spec in Hs as [Hs _]. by apply from_sorted_spec.
Qed.

Lemma map_get_Some k cs c : Constraints.map_get k cs = Some c -> c ∈ cs /\ kind c = k.
Proof.
  intros H. apply List.find_some in H as [Hin Hk]. boolify. by rewrite list_elem_of_In.
Qed.

Lemma map_get_elem cs c :
  kinds_sorted cs -> c ∈ cs <-> Constraints.map_get (kind c) cs = Some c.
Proof.
  intros Hs. split; [|by intros [? _]%map_get_Some].
  induction Hs as [|d cs Hs IH Hf]; [set_solver|].
  unfold Constraints.map_get in *. simpl. intros [->|Hin]%elem_of_cons; [by rewrite Z.eqb_refl|].
  rewrite Forall_forall in Hf. specialize (Hf _ Hin). unfold kind_lt in Hf.
  rewrite (proj2 (Z.eqb_neq _ _)) by lia. auto.
Qed.

Lemma map_get_above k cs :
  Forall (fun c => k < kind c) cs -> Constraints.map_get k cs = None.
Proof.
  unfold Constraints.map_get. induction 1 as [|c cs Hc _ IH]; simpl; [done|].
  by rewrite (proj2 (Z.eqb_neq _ _)) by lia.
Qed.

Lemma map_insert_bound k c m :
  Forall (fun d => k < kind d) m -> k < kind c ->
  Forall (fun d => k < kind d) (Constraints.map_insert c m).
Proof.
  induction 1 as [|d m Hd Hm IH]; simpl; intros Hk; [by repeat constructor|].
  destruct (_ =? _); [|destruct (_ <? _)]; repeat apply Forall_cons_2; auto.
Qed.

Lemma map_insert_spec c m :
  kinds_sorted m ->
  kinds_sorted (Constraints.map_insert c m) /\
  forall k, Constraints.map_get k (Constraints.map_insert c m) =
    if k =? kind c then Some c else Constraints.map_get k m.
Proof.
  unfold Constraints.map_get.
  induction 1 as [|d m Hs [IHs IHg] Hf]; simpl.
  - split; [by repeat constructor|]. intros k. rewrite Z.eqb_sym. done.
  - destruct (kind c =? kind d) eqn:Hcd; boolify.
    + split.
      * constructor; [done|]. eapply Forall_impl; [exact Hf|]. unfold kind_lt. lia.
      * intros k. simpl. rewrite (Z.eqb_sym k), <- Hcd. by destruct (_ =? _).
    + destruct (kind c <? kind d) eqn:Hlt; boolify.
      * split; [|intros k; simpl; by rewrite (Z.eqb_sym k)].
        constructor; [by constructor|]. constructor; [done|].
        eapply Forall_impl; [exact Hf|]. unfold kind_lt. lia.
      * split; [constructor; [done|]; apply map_insert_bound; [exact Hf|lia]|].
        intros k. simpl. rewrite IHg. destruct (kind d =? k) eqn:Hdk; [|done]. boolify.
        by rewrite (proj2 (Z.eqb_neq _ _)) by lia.
Qed.

Lemma merge_pair_kind a b c : Constraints.merge_pair a b = Ok c -> kind c = kind a.
Proof.
  unfold Constraints.merge_pair, Constraints.merge_list.
  destruct a, b; try done; intros H; try (by simplify_eq);
    try (destruct (List.filter _ _); by simplify_eq); case_bool_decide; by simplify_eq.
Qed.

(** What intersection holds for each kind. *)
Definition merged_at (x y : option Constraint) (r : option Constraint) : Prop :=
  match x, y with
  | None, _ => r = y
  | _, None => r = x
  | Some a, Some b => exists c, Constraints.merge_pair a b = Ok c /\ r = Some c
  end.

Lemma intersect_loop_ok m cs r :
  kinds_sorted m -> kinds_sorted cs -> Constraints.intersect_loop m cs = Ok r ->
  kinds_sorted r /\
  forall k, merged_at (Constraints.map_get k m) (Constraints.map_get k cs) (Constraints.map_get k r).
Proof.
  intros Hm Hcs. revert m Hm. induction Hcs as [|c cs Hcs IH Hf]; simpl; intros m Hm H.
  { simplify_eq. split; [done|]. intros k. unfold merged_at. by destruct (Constraints.map_get k r). }
  pose proof (map_get_above _ _ Hf) as Hnone.
  destruct (Constraints.map_get (kind c) m) as [d|] eqn:Hg.
  - destruct (Constraints.merge_pair d c) as [e|] eqn:He; [|done].
    pose proof (merge_pair_kind _ _ _ He) as Hke.
    apply map_get_Some in Hg as Hd. destruct Hd as [_ Hkd].
    destruct (map_insert_spec e m Hm) as [Hs Hgi].
    apply IH in H as [Hr Hk]; [|done]. split; [done|]. intros k. specialize (Hk k).
    rewrite Hgi, Hke, Hkd in Hk. unfold Constraints.map_get at 2. simpl. rewrite (Z.eqb_sym _ k).
    destruct (k =? kind c) eqn:Hkc; boolify; [subst k|done].
    rewrite Hg. rewrite Hnone in Hk. simpl in Hk. simpl. eauto.
  - destruct (map_insert_spec c m Hm) as [Hs Hgi].
    apply IH in H as [Hr Hk]; [|done]. split; [done|]. intros k. specialize (Hk k).
    rewrite Hgi in Hk. unfold Constraints.map_get at 2. simpl. rewrite (Z.eqb_sym _ k).
    destruct (k =? kind c) eqn:Hkc; boolify; [subst k|done].
    rewrite Hg. rewrite Hnone in Hk. done.
Qed.

Lemma intersect_loop_err m cs e :
  kinds_sorted m -> kinds_sorted cs -> Constraints.intersect_loop m cs = Err e ->
  exists k a b, Constraints.map_get k m = Some a /\ Constraints.map_get k cs = Some b /\
    Constraints.merge_pair a b = Err e.
Proof.
  intros Hm Hcs. revert m Hm. induction Hcs as [|c cs Hcs IH Hf]; simpl; intros m Hm H; [done|].
  pose proof (map_get_above _ _ Hf) as Hnone.
  destruct (Constraints.map_get (kind c) m) as [d|] eqn:Hg.
  - destruct (Constraints.merge_pair d c) as [e'|] eqn:He.
    + pose proof (merge_pair_kind _ _ _ He) as Hke.
      apply map_get_Some in Hg as Hd. destruct Hd as [_ Hkd].
      destruct (map_insert_spec e' m Hm) as [Hs Hgi].
      apply IH in H as (k & a & b & Ha & Hb & Hab); [|done].
      rewrite Hgi, Hke, Hkd in Ha. destruct (k =? kind c) eqn:Hkc; boolify; [congruence|].
      exists k, a, b. split; [done|]. unfold Constraints.map_get. simpl.
      by rewrite (proj2 (Z.eqb_neq _ _)) by done.
    + simplify_eq. exists (kind c), d, c. unfold Constraints.map_get at 2. simpl.
      by rewrite Z.eqb_refl.
  - destruct (map_insert_spec c m Hm) as [Hs Hgi].
    apply IH in H as (k & a & b & Ha & Hb & Hab); [|done].
    rewrite Hgi in Ha. destruct (k =? kind c) eqn:Hkc; boolify; [congruence|].
    exists k, a, b. split; [done|]. unfold Constraints.map_get. simpl.
    by rewrite (proj2 (Z.eqb_neq _ _)) by done.
Qed.

Lemma intersect_loop_app m a b :
  Constraints.intersect_loop m (a ++ b) =
  let? m' := Constraints.intersect_loop m a in Constraints.intersect_loop m' b.
Proof.
  revert m. induction a as [|c a IH]; intros m; simpl; [done|].
  destruct (Constraints.map_get _ _); [destruct (Constraints.merge_pair _ _)|]; auto.
Qed.

Lemma intersect_split a b :
  kinds_sorted a -> kinds_sorted b ->
  exists a', kinds_sorted a' /\ (forall k, Constraints.map_get k a' = Constraints.map_get k a) /\
    Constraints.intersect a b = Constraints.intersect_loop a' b.
Proof.
  intros Ha Hb. unfold Constraints.intersect. rewrite intersect_loop_app.
  destruct (Constraints.intersect_loop [] a) as [a'|e] eqn:H.
  - apply intersect_loop_ok in H as [Hs Hk]; [|constructor|done].
    exists a'. split; [done|]. split; [|done]. intros k. exact (Hk k).
  - apply intersect_loop_err in H as (k & x & y & Hx & _); [done|constructor|done].
Qed.

Section MergeList.
Context {A : Type} `{EqDecision A} (mk : list A -> Constraint).

Lemma merge_list_ok x y c :
  Constraints.merge_list mk x y = Ok c ->
  exists l, c = mk l /\ forall id, id ∈ l <-> id ∈ x /\ id ∈ y.
Proof.
  unfold Constraints.merge_list. intros Hc.
  exists (List.filter (fun id => bool_decide (id ∈ y)) x). split.
  - by destruct (List.filter _ _); simplify_eq.
  - intros id. rewrite !list_elem_of_In, filter_In, bool_decide_eq_true, list_elem_of_In. done.
Qed.

Lemma merge_list_err x y e :
  Constraints.merge_list mk x y = Err e ->
  e = unavailable ConstraintDenied /\ forall id, ~ (id ∈ x /\ id ∈ y).
Proof.
  unfold Constraints.merge_list. destruct (List.filter _ _) as [|] eqn:Hf; intros H'; simplify_eq.
  split; [done|]. intros id [Hx Hy].
  assert (Hi : id ∈ List.filter (fun id => bool_decide (id ∈ y)) x)
    by (rewrite list_elem_of_In, filter_In, bool_decide_eq_true, <- list_elem_of_In; done).
  rewrite Hf in Hi. set_solver.
Qed.

(** An allowlist predicate of a sorted constraint list, at its kind. *)
Context (k : Z) (allows : Constraints.t -> A -> bool)
  (Hkind : forall c, kind c = k <-> exists l, c = mk l)
  (Hinj : forall l l', mk l = mk l' -> l = l')
  (Hallows : forall cs id, allows cs id = true <-> forall ids, mk ids ∈ cs -> id ∈ ids)
  (Hmerge : forall x y, Constraints.merge_pair (mk x) (mk y) = Constraints.merge_list mk x y).

Lemma allows_get cs id :
  kinds_sorted cs ->
  allows cs id = true <-> forall l, Constraints.map_get k cs = Some (mk l) -> id ∈ l.
Proof.
  intros Hs. rewrite Hallows.
  assert (Hk : forall l, kind (mk l) = k) by (intros l; apply Hkind; by exists l).
  split; intros Hx l Hl; apply Hx.
  - apply map_get_elem; [done|]. by rewrite Hk.
  - rewrite <- (Hk l). by apply map_get_elem.
Qed.

Lemma map_get_mk cs c : Constraints.map_get k cs = Some c -> exists l, c = mk l.
Proof. intros [_ Hk]%map_get_Some. by apply Hkind. Qed.

Lemma allows_merged a b r id :
  kinds_sorted a -> kinds_sorted b -> kinds_sorted r ->
  merged_at (Constraints.map_get k a) (Constraints.map_get k b) (Constraints.map_get k r) ->
  allows r id = allows a id && allows b id.
Proof.
  intros Ha Hb Hr Hm. apply eq_true_iff_eq. rewrite andb_true_iff, !allows_get by done.
  destruct (Constraints.map_get k a) as [x|] eqn:Hx, (Constraints.map_get k b) as [y|] eqn:Hy;
    simpl in Hm; try (rewrite Hm; naive_solver).
  apply map_get_mk in Hx as [lx ->], Hy as [ly ->].
  destruct Hm as (c & Hc & ->). rewrite Hmerge in Hc. apply merge_list_ok in Hc as (l & -> & Hl).
  split.
  - intros H1. specialize (H1 l eq_refl). apply Hl in H1 as [? ?].
    split; intros ? [= <-%Hinj]; done.
  - intros [H1 H2] ? [= <-%Hinj]. apply Hl. naive_solver.
Qed.

Lemma allows_disjoint a b x y e :
  kinds_sorted a -> kinds_sorted b ->
  Constraints.map_get k a = Some (mk x) -> Constraints.map_get k b = Some (mk y) ->
  Constraints.merge_pair (mk x) (mk y) = Err e ->
  e = unavailable ConstraintDenied /\ forall id, allows a id && allows b id = false.
Proof.
  intros Ha Hb Hx Hy He. rewrite Hmerge in He. apply merge_list_err in He as [-> Hd].
  split; [done|]. intros id. apply not_true_iff_false. rewrite andb_true_iff, !allows_get by done.
  intros [H1 H2]. apply (Hd id). auto.
Qed.
End MergeList.

(** The tighter of two optional maxima. *)
Definition tighter (x y : option Z) : option Z :=
  match x, y with
  | Some a, Some b => Some (Z.min a b)
  | None, y => y
  | x, None => x
  end.

Lemma max_query_work_get cs :
  Constraints.max_query_work cs =
  match Constraints.map_get 6 cs with Some (MaxQueryWork m) => Some m | _ => None end.
Proof.
  unfold Constraints.map_get. induction cs as [|c cs IH]; [done|]. by destruct c.
Qed.
Lemma max_result_bytes_get cs :
  Constraints.max_result_bytes cs =
  match Constraints.map_get 5 cs with Some (MaxResultBytes m) => Some m | _ => None end.
Proof.
  unfold Constraints.map_get. induction cs as [|c cs IH]; [done|]. by destruct c.
Qed.
Lemma within_request_get cs n :
  kinds_sorted cs ->
  Kernel.within_request_bytes cs n =
  match Constraints.map_get 4 cs with Some (MaxRequestBytes m) => n <=? m | _ => true end.
Proof.
  intros Hs. apply eq_true_iff_eq. rewrite within_request_spec.
  setoid_rewrite (map_get_elem cs) ; [|done]. cbn [kind].
  destruct (Constraints.map_get 4 cs) as [c|] eqn:Hc; [|naive_solver].
  apply map_get_Some in Hc as [_ Hk]. destruct c; try done. rewrite Z.leb_le. naive_solver.
Qed.

(** Case analysis on what two lists and their merge hold at one kind. *)
Ltac merged_cases Hm a b k :=
  let x := fresh "x" in let y := fresh "y" in
  let Hx := fresh "Hx" in let Hy := fresh "Hy" in
  destruct (Constraints.map_get k a) as [x|] eqn:Hx, (Constraints.map_get k b) as [y|] eqn:Hy;
  simpl in Hm;
  try (apply map_get_Some in Hx as [_ Hx]); try (apply map_get_Some in Hy as [_ Hy]);
  try (destruct x; try done); try (destruct y; try done);
  [destruct Hm as (? & Hm & ->); simpl in Hm; simplify_eq|rewrite Hm..].

Lemma query_work_merged a b r :
  merged_at (Constraints.map_get 6 a) (Constraints.map_get 6 b) (Constraints.map_get 6 r) ->
  Constraints.max_query_work r = tighter (Constraints.max_query_work a) (Constraints.max_query_work b).
Proof. intros Hm. rewrite !max_query_work_get. merged_cases Hm a b 6; done. Qed.
Lemma result_bytes_merged a b r :
  merged_at (Constraints.map_get 5 a) (Constraints.map_get 5 b) (Constraints.map_get 5 r) ->
  Constraints.max_result_bytes r =
  tighter (Constraints.max_result_bytes a) (Constraints.max_result_bytes b).
Proof. intros Hm. rewrite !max_result_bytes_get. merged_cases Hm a b 5; done. Qed.
Lemma request_bytes_merged a b r n :
  kinds_sorted a -> kinds_sorted b -> kinds_sorted r ->
  merged_at (Constraints.map_get 4 a) (Constraints.map_get 4 b) (Constraints.map_get 4 r) ->
  Kernel.within_request_bytes r n =
  Kernel.within_request_bytes a n && Kernel.within_request_bytes b n.
Proof.
  intros Ha Hb Hr Hm. rewrite !within_request_get by done.
  merged_cases Hm a b 4; simpl; rewrite ?andb_true_r; try done.
  apply eq_true_iff_eq. rewrite andb_true_iff, !Z.leb_le. lia.
Qed.

(** Intersecting two canonical constraint sets is exact: when it succeeds
    the result is canonical, permits precisely the operations, collections,
    streams and request sizes that both sets permit, and carries the tighter of
    the query-work and result-size maxima; when it fails, the cause is
    ConstraintDenied and the two sets have no operation, no collection or no
    stream in common, or name different source networks. *)
Theorem intersection_exact a b :
  Constraints.from_sorted a = Ok a -> Constraints.from_sorted b = Ok b ->
  match Constraints.intersect a b with
  | Ok r =>
      Constraints.from_sorted r = Ok r /\
      (forall op, Constraints.allows_operation r op =
         Constraints.allows_operation a op && Constraints.allows_operation b op) /\
      (forall id, Constraints.allows_collection r id =
         Constraints.allows_collection a id && Constraints.allows_collection b id) /\
      (forall id, Constraints.allows_stream r id =
         Constraints.allows_stream a id && Constraints.allows_stream b id) /\
      (forall n, Kernel.within_request_bytes r n =
         Kernel.within_request_bytes a n && Kernel.within_request_bytes b n) /\
      Constraints.max_query_work r =
        tighter (Constraints.max_query_work a) (Constraints.max_query_work b) /\
      Constraints.max_result_bytes r =
        tighter (Constraints.max_result_bytes a) (Constraints.max_result_bytes b)
  | Err e =>
      e = unavailable ConstraintDenied /\
      ((forall op, Constraints.allows_operation a op && Constraints.allows_operation b op = false) \/
       (forall id, Constraints.allows_collection a id && Constraints.allows_collection b id = false) \/
       (forall id, Constraints.allows_stream a id && Constraints.allows_stream b id = false) \/
       exists n n', SourceNetwork n ∈ a /\ SourceNetwork n' ∈ b /\ n <> n')
  end.
Proof.
  intros [Ha _]%from_sorted_spec [Hb _]%from_sorted_spec.
  assert (K3 : forall c, kind c = 3 <-> exists l, c = OperationAllowlist l)
    by (intros []; simpl; split; intros; naive_solver).
  assert (K1 : forall c, kind c = 1 <-> exists l, c = CollectionAllowlist l)
    by (intros []; simpl; split; intros; naive_solver).
  assert (K2 : forall c, kind c = 2 <-> exists l, c = StreamAllowlist l)
    by (intros []; simpl; split; intros; naive_solver).
  destruct (intersect_split a b Ha Hb) as (a' & Ha' & Hga & ->).
  destruct (Constraints.intersect_loop a' b) as [r|e] eqn:Hr.
  - apply intersect_loop_ok in Hr as [Hs Hk]; [|done..]. setoid_rewrite Hga in Hk.
    split; [by apply from_sorted_spec|].
    split; [intros op; eapply (allows_merged OperationAllowlist 3); eauto using allows_operation_spec; naive_solver|].
    split; [intros op; eapply (allows_merged CollectionAllowlist 1); eauto using allows_collection_spec; naive_solver|].
    split; [intros op; eapply (allows_merged StreamAllowlist 2); eauto using allows_stream_spec; naive_solver|].
    auto using request_bytes_merged, query_work_merged, result_bytes_merged.
  - apply intersect_loop_err in Hr as (k & x & y & Hx & Hy & He); [|done..].
    rewrite Hga in Hx. pose proof (map_get_Some _ _ _ Hx) as [Hxa Hkx].
    pose proof (map_get_Some _ _ _ Hy) as [Hyb Hky].
    destruct x, y; simpl in He, Hkx, Hky; subst k; try done; simplify_eq.
    + destruct (allows_disjoint CollectionAllowlist 1 Constraints.allows_collection K1
        allows_collection_spec ltac:(done) a b _ _ _ Ha Hb Hx Hy He); auto.
    + destruct (allows_disjoint StreamAllowlist 2 Constraints.allows_stream K2
        allows_stream_spec ltac:(done) a b _ _ _ Ha Hb Hx Hy He); auto.
    + destruct (allows_disjoint OperationAllowlist 3 Constraints.allows_operation K3
        allows_operation_spec ltac:(done) a b _ _ _ Ha Hb Hx Hy He); auto.
    + case_bool_decide; simplify_eq. split; [done|]. eauto 10.
Qed.

(** ** A concrete environment for the witnesses

    Three rows of [spec/operations-v1.json], its admission lists restricted to
    them, and a 32-byte stand-in for SHA-256. *)

Definition sample_ops : list GeneratedOp :=
  [{| op_id := 1; op_wire_name := "ping"; op_status := "active"; op_rights_mask := 0;
      op_returns_data := false; op_mutates_data := false |};
   {| op_id := 111; op_wire_name := "get"; op_status := "active"; op_rights_mask := 1;
      op_returns_data := true; op_mutates_data := false |};
   {| op_id := 140; op_wire_name := "export"; op_status := "reserved"; op_rights_mask := 16;
      op_returns_data := true; op_mutates_data := false |}].

Definition sample_kernel_env : KernelEnv := {|
  sha256 bs := take 32 (bs ++ repeat Byte.x00 32);
  generated_op id := List.find (fun o => op_id o =? id) sample_ops;
  admitted_ops_for_state s :=
    if bool_decide (s = "active") then Some [111; 140]
    else if bool_decide (s = "read_only") then Some [111; 140] else Some [] |}.

Definition sample_id (b : byte) : list byte :=
  repeat b 6 ++ [Byte.x40; b; Byte.x80] ++ repeat b 7.
Definition sample_key (b : byte) : list byte := repeat b 32.

(** Generation 2 with generation 1 in grace until time 500. *)
Definition sample_snapshot : HeapSecuritySnapshot := {|
  sn_deployment_id := sample_id Byte.x01; sn_heap_id := sample_id Byte.x02;
  sn_authority_epoch := 1; sn_authority_generation := 2;
  sn_previous_generation := Some 1; sn_grace_deadline_unix_s := Some 500;
  sn_master_public_key := sample_key Byte.x0a;
  sn_previous_master_public_key := Some (sample_key Byte.x0b);
  sn_security_revision := 7; sn_authority_chain_head_hash := sample_key Byte.x0c;
  sn_administrative_state := Active;
  sn_blacklist := [{| bl_kind := CertificateHash; bl_generation := 1;
                      bl_fingerprint := sample_key Byte.xff |}];
  sn_policy_rights_ceiling := Some 0x3 |}.

(** A certificate of the previous generation with rights Read and Write. *)
Definition sample_certificate : VerifiedCertificate := {|
  cose_bytes := [Byte.x84]; fingerprint := sample_key Byte.x0d;
  ct_deployment_id := sample_id Byte.x01; ct_heap_id := sample_id Byte.x02;
  ct_authority_epoch := 1; ct_authority_generation := 1;
  certificate_id := sample_id Byte.x03; holder_public_key := sample_key Byte.x0e;
  ct_rights := 0x5;
  ct_constraints := [OperationAllowlist [111]; MaxRequestBytes 4096];
  not_before := 10; expires_at := 1000;
  issuer_master_key_id := sample_key Byte.x0b |}.

Definition sample_get : Kernel.OperationDescriptor :=
  {| Kernel.operation_id := 111; Kernel.request_bytes := 100 |}.

Lemma sample_rows_typed id :
  forall row, @generated_op sample_kernel_env id = Some row -> in_u64 (op_rights_mask row).
Proof.
  intros row [Hin _]%find_some. unfold in_u64, U64_MAX.
  destruct Hin as [<-|[<-|[<-|[]]]]; cbn; lia.
Qed.

Lemma decide_allow_iff_witness :
  @Kernel.decide sample_kernel_env sample_snapshot sample_certificate sample_get 400
    = Kernel.Allow /\
  @authorized sample_kernel_env sample_snapshot sample_certificate sample_get 400.
Proof.
  assert (H : @Kernel.decide sample_kernel_env sample_snapshot sample_certificate sample_get 400
    = Kernel.Allow) by (vm_compute; reflexivity).
  split; [exact H|].
  apply (@decide_allow_iff sample_kernel_env sample_snapshot sample_certificate sample_get 400
    (sample_rows_typed 111)) in H as [[Hp _]|[_ Ha]]; [|exact Ha].
  unfold op_public in Hp. simpl in Hp. lia.
Defined.

(** At the second of the grace deadline the decision is still positive, against section
    8.11 of the specification, and minting is not. *)
Example grace_deadline_disagrees :
  @Kernel.decide sample_kernel_env sample_snapshot sample_certificate sample_get 500
    = Kernel.Allow /\
  @Kernel.mint_capability sample_kernel_env (fun _ => sample_snapshot) 0%nat sample_certificate 500
    (Some (sample_id Byte.x04)) = Err (unavailable NotYetValidOrExpired).
Proof. vm_compute. done. Qed.

Lemma allowed_then_minted_witness :
  exists cap,
    @Kernel.mint_capability sample_kernel_env (fun _ => sample_snapshot) 0%nat sample_certificate
      400 (Some (sample_id Byte.x04)) = Ok cap /\
    400 < validity_deadline_unix_s cap <= 1000 /\ effective_rights cap = 1 /\
    @Kernel.refresh_capability_or_terminate (fun _ => sample_snapshot) cap = Ok tt.
Proof.
  pose proof (@allowed_then_minted sample_kernel_env (fun _ => sample_snapshot) 0%nat
    sample_certificate sample_get 400 (sample_id Byte.x04) (sample_rows_typed 111)) as H.
  destruct (Kernel.mint_capability _ _ _ _ _) as [cap|] eqn:Hm; [|vm_compute in Hm; done].
  exists cap. split; [done|].
  destruct H as (H1 & _ & _ & _ & H2);
    [unfold op_public; simpl; lia|done|done|vm_compute; reflexivity|].
  split; [exact H1|]. split; [vm_compute in Hm; by simplify_eq|]. by apply H2.
Defined.

Definition sample_cap : CapInner := {|
  capability_id := sample_id Byte.x04; cap_slot := 0%nat;
  cap_deployment_id := sample_id Byte.x01; cap_heap_id := sample_id Byte.x02;
  cap_certificate_id := sample_id Byte.x03; certificate_fingerprint := sample_key Byte.x0d;
  holder_fingerprint := sample_key Byte.x0e; cap_authority_epoch := 1;
  cap_authority_generation := 1; validated_security_revision := 7;
  validated_authority_chain_head_hash := sample_key Byte.x0c; effective_rights := 1;
  effective_constraints := [OperationAllowlist [111]; MaxRequestBytes 4096];
  validity_deadline_unix_s := 500 |}.

Definition suspended_snapshot : HeapSecuritySnapshot := {|
  sn_deployment_id := sample_id Byte.x01; sn_heap_id := sample_id Byte.x02;
  sn_authority_epoch := 1; sn_authority_generation := 2;
  sn_previous_generation := Some 1; sn_grace_deadline_unix_s := Some 500;
  sn_master_public_key := sample_key Byte.x0a;
  sn_previous_master_public_key := Some (sample_key Byte.x0b);
  sn_security_revision := 7; sn_authority_chain_head_hash := sample_key Byte.x0c;
  sn_administrative_state := Suspended; sn_blacklist := [];
  sn_policy_rights_ceiling := None |}.

Lemma capability_lifetime_witness :
  Kernel.refresh_capability_or_terminate (fun _ => sample_snapshot) sample_cap = Ok tt /\
  Kernel.refresh_capability_or_terminate
    (slot_store (fun _ => sample_snapshot) 0%nat suspended_snapshot) sample_cap
    = Err (unavailable StaleAuthority) /\
  Kernel.refresh_capability_or_terminate
    (slot_store (fun _ => sample_snapshot) 1%nat suspended_snapshot) sample_cap = Ok tt.
Proof.
  assert (H : Kernel.refresh_capability_or_terminate (fun _ => sample_snapshot) sample_cap = Ok tt)
    by (vm_compute; reflexivity).
  split; [exact H|].
  rewrite !(capability_lifetime _ _ _ _ H). vm_compute. done.
Defined.

Lemma intersection_exact_witness :
  exists r,
    Constraints.intersect [OperationAllowlist [111; 112]; MaxQueryWork 10]
      [OperationAllowlist [112; 113]; MaxRequestBytes 5] = Ok r /\
    Constraints.allows_operation r 112 = true /\ Constraints.allows_operation r 111 = false /\
    Constraints.max_query_work r = Some 10.
Proof.
  pose proof (intersection_exact [OperationAllowlist [111; 112]; MaxQueryWork 10]
    [OperationAllowlist [112; 113]; MaxRequestBytes 5] eq_refl eq_refl) as H.
  destruct (Constraints.intersect _ _) as [r|] eqn:Hr; [|vm_compute in Hr; done].
  destruct H as (_ & Ho & _ & _ & _ & Hq & _).
  exists r. split; [done|]. rewrite !Ho, Hq. vm_compute. done.
Defined.
