(* ===== verification/HeapModel.v ===== *)
(** * The executable authority model

    Model of [crates/residiuum-heap/src/authority_model.rs], the state machine
    that mirrors the TLA+ sketch of heap authority.  Every mutating method is a
    function from the state to its boolean answer and the next state. *)
From S2P Require Import Prelude HeapKernel.

Module AuthorityModel.

(** The model has an administrative state type of its own with the same
    constructors and predicates as the kernel's. *)
Inductive ModelAdminState : Type :=
| MActive | MReadOnly | MSuspended | MRetired | MPurging | MPurged.
#[global] Instance model_admin_eq_dec : EqDecision ModelAdminState.
Proof. solve_decision. Defined.

Definition m_is_serving (s : ModelAdminState) : bool :=
  match s with MActive | MReadOnly => true | _ => false end.
Definition m_is_terminal (s : ModelAdminState) : bool :=
  match s with MPurged => true | _ => false end.

Definition ModelCert : Type := Z.

Record t := {
  current_gen : Z;
  previous_gen : option Z;
  grace_deadline : option Z;
  now : Z;
  blacklist : gset ModelCert;
  admin_state : ModelAdminState;
  admitted : gset ModelCert }.

Definition new (g : Z) : t := {|
  current_gen := g; previous_gen := None; grace_deadline := None; now := 0;
  blacklist := ∅; admin_state := MActive; admitted := ∅ |}.

Definition gen_ok (m : t) (cert_gen : Z) : bool :=
  if cert_gen =? current_gen m then true
  else match previous_gen m, grace_deadline m with
  | Some prev, Some deadline => (cert_gen =? prev) && (now m <=? deadline)
  | _, _ => false
  end.

Definition not_blacklisted (m : t) (cert : ModelCert) : bool :=
  negb (bool_decide (cert ∈ blacklist m)) || bool_decide (previous_gen m = None).

Definition admission_ok (m : t) (cert : ModelCert) (cert_gen : Z) : bool :=
  m_is_serving (admin_state m) && negb (m_is_terminal (admin_state m))
  && gen_ok m cert_gen && not_blacklisted m cert.

Definition advance_time (m : t) : t := {|
  current_gen := current_gen m; previous_gen := previous_gen m;
  grace_deadline := grace_deadline m; now := sat_add (now m) 1;
  blacklist := blacklist m; admin_state := admin_state m; admitted := admitted m |}.

Definition hard_cycle (m : t) (new_gen : Z) : bool * t :=
  if new_gen =? current_gen m then (false, m)
  else (true, {|
    current_gen := new_gen; previous_gen := None; grace_deadline := None; now := now m;
    blacklist := ∅; admin_state := admin_state m; admitted := ∅ |}).

Definition grace_cycle (m : t) (new_gen deadline : Z) : bool * t :=
  if (new_gen =? current_gen m) || (deadline <? now m) then (false, m)
  else (true, {|
    current_gen := new_gen; previous_gen := Some (current_gen m);
    grace_deadline := Some deadline; now := now m;
    blacklist := ∅; admin_state := admin_state m; admitted := ∅ |}).

Definition blacklist_add (m : t) (cert : ModelCert) : bool * t :=
  if bool_decide (previous_gen m = None) then (false, m)
  else (true, {|
    current_gen := current_gen m; previous_gen := previous_gen m;
    grace_deadline := grace_deadline m; now := now m;
    blacklist := {[cert]} ∪ blacklist m; admin_state := admin_state m;
    admitted := admitted m ∖ {[cert]} |}).

Definition admit_cert (m : t) (cert : ModelCert) (cert_gen : Z) : bool * t :=
  if negb (admission_ok m cert cert_gen) then (false, m)
  else (true, {|
    current_gen := current_gen m; previous_gen := previous_gen m;
    grace_deadline := grace_deadline m; now := now m;
    blacklist := blacklist m; admin_state := admin_state m;
    admitted := {[cert]} ∪ admitted m |}).

(** Enter an administrative state and clear the admissions. *)
Definition enter (m : t) (s : ModelAdminState) : t := {|
  current_gen := current_gen m; previous_gen := previous_gen m;
  grace_deadline := grace_deadline m; now := now m;
  blacklist := blacklist m; admin_state := s; admitted := ∅ |}.

Definition suspend (m : t) : bool * t :=
  if negb (bool_decide (admin_state m = MActive)) then (false, m)
  else (true, enter m MSuspended).

Definition retire (m : t) : bool * t :=
  match admin_state m with
  | MActive | MReadOnly | MSuspended => (true, enter m MRetired)
  | _ => (false, m)
  end.

Definition purge_done (m : t) : bool * t :=
  match admin_state m with
  | MRetired | MPurging => (true, enter m MPurged)
  | _ => (false, m)
  end.

Definition expire_grace (m : t) : bool * t :=
  match previous_gen m, grace_deadline m with
  | Some _, Some deadline =>
      if deadline <? now m then
        (true, {|
          current_gen := current_gen m; previous_gen := None; grace_deadline := None;
          now := now m; blacklist := ∅; admin_state := admin_state m; admitted := ∅ |})
      else (false, m)
  | _, _ => (false, m)
  end.

Definition cert_still_ok (m : t) (c : ModelCert) : bool :=
  admission_ok m c (current_gen m)
  || match previous_gen m with Some g => admission_ok m c g | None => false end.

Definition invariants_hold (m : t) : bool :=
  if negb (bool_decide (admitted m = ∅)) && negb (m_is_serving (admin_state m)) then false
  else if m_is_terminal (admin_state m) && negb (bool_decide (admitted m = ∅)) then false
  else forallb (cert_still_ok m) (elements (admitted m)).

(** The calls a client can make. *)
Inductive op : Type :=
| AdvanceTime | HardCycle (g : Z) | GraceCycle (g deadline : Z) | BlacklistAdd (c : ModelCert)
| Admit (c : ModelCert) (g : Z) | Suspend | Retire | PurgeDone | ExpireGrace.

Definition apply (m : t) (o : op) : t :=
  match o with
  | AdvanceTime => advance_time m
  | HardCycle g => (hard_cycle m g).2
  | GraceCycle g d => (grace_cycle m g d).2
  | BlacklistAdd c => (blacklist_add m c).2
  | Admit c g => (admit_cert m c g).2
  | Suspend => (suspend m).2
  | Retire => (retire m).2
  | PurgeDone => (purge_done m).2
  | ExpireGrace => (expire_grace m).2
  end.

Definition run (m : t) (ops : list op) : t := fold_left apply ops m.

End AuthorityModel.

(** * Properties of the authority model

    The invariants of the model in every run, and that the admission of the
    kernel refines the admission of the model. *)
From S2P Require Import HeapKernelFacts.
Import AuthorityModel.

(** ** The inductive invariant *)

Record wf (m : t) : Prop := {
  wf_serving : m_is_serving (admin_state m) = false -> admitted m = ∅;
  wf_disjoint : admitted m ∩ blacklist m = ∅;
  wf_blacklist : previous_gen m = None -> blacklist m = ∅ }.

Lemma wf_new g : wf (new g).
Proof. split; [done|set_solver|done]. Qed.

Lemma wf_enter m s : wf m -> wf (enter m s).
Proof. intros [Hs Hd Hb]. split; [done|set_solver|done]. Qed.

Lemma wf_apply m o : wf m -> wf (apply m o).
Proof.
  intros Hwf. pose proof Hwf as [Hs Hd Hb]. destruct o; simpl.
  - by split.
  - unfold hard_cycle. destruct (_ =? _); split; simpl; set_solver.
  - unfold grace_cycle. destruct (_ || _); split; simpl; set_solver.
  - unfold blacklist_add. case_bool_decide as Hp; simpl; [by split|].
    split; simpl; [intros H; specialize (Hs H); set_solver|set_solver|done].
  - unfold admit_cert. destruct (admission_ok m c g) eqn:Ha; simpl; [|by split].
    unfold admission_ok, not_blacklisted in Ha. boolify. split; simpl; [congruence| |done].
    destruct (decide (previous_gen m = None)) as [Hp|Hp]; [rewrite (Hb Hp); set_solver|].
    rewrite (bool_decide_false _ Hp), orb_false_r in *. boolify.
    match goal with X : bool_decide _ = false |- _ => apply bool_decide_eq_false in X end.
    set_solver.
  - unfold suspend. case_match; simpl; auto using wf_enter.
  - unfold retire. case_match; simpl; auto using wf_enter.
  - unfold purge_done. case_match; simpl; auto using wf_enter.
  - unfold expire_grace. repeat case_match; simpl; done.
Qed.

Lemma run_app m a b : run m (a ++ b) = run (run m a) b.
Proof. apply fold_left_app. Qed.

Lemma wf_run m ops : wf m -> wf (run m ops).
Proof.
  induction ops as [|o ops IH] using rev_ind; [done|].
  intros Hm. rewrite run_app. simpl. by apply wf_apply, IH.
Qed.

Lemma wf_cert_ok m c : wf m -> c ∈ admitted m -> cert_still_ok m c = true.
Proof.
  intros [Hs Hd Hb] Hc. unfold cert_still_ok, admission_ok, gen_ok, not_blacklisted.
  rewrite Z.eqb_refl. destruct (admin_state m) eqn:Ha; simpl in Hs |- *;
    try (specialize (Hs eq_refl); set_solver).
  all: rewrite bool_decide_false; [done|set_solver].
Qed.

Lemma wf_invariants m : wf m -> invariants_hold m = true.
Proof.
  intros Hwf. unfold invariants_hold.
  destruct (m_is_serving (admin_state m)) eqn:Hs.
  - rewrite andb_false_r. replace (m_is_terminal (admin_state m)) with false
      by (by destruct (admin_state m)). simpl.
    apply forallb_forall. intros c Hc. apply wf_cert_ok; [done|].
    by apply elem_of_elements, list_elem_of_In.
  - rewrite (wf_serving _ Hwf Hs), (bool_decide_true (∅ = ∅)) by done. simpl.
    by rewrite andb_false_r.
Qed.

Lemma non_serving_apply m o :
  m_is_serving (admin_state m) = false -> m_is_serving (admin_state (apply m o)) = false /\
  (admin_state m = MPurged -> admin_state (apply m o) = MPurged).
Proof.
  intros Hs. destruct o; simpl; unfold hard_cycle, grace_cycle, blacklist_add, admit_cert, suspend,
    retire, purge_done, expire_grace;
    try (repeat match goal with |- context [if ?b then _ else _] => destruct b end; done).
  - case_bool_decide as Ha; [by rewrite Ha in Hs|done].
  - destruct (admin_state m) eqn:Ha; try done; simpl; rewrite ?Ha; done.
  - destruct (admin_state m) eqn:Ha; try done; simpl; rewrite ?Ha; done.
  - repeat case_match; simpl; rewrite ?Hs; done.
Qed.

Lemma non_serving_run m ops :
  m_is_serving (admin_state m) = false -> m_is_serving (admin_state (run m ops)) = false /\
  (admin_state m = MPurged -> admin_state (run m ops) = MPurged).
Proof.
  revert m. induction ops as [|o ops IH]; intros m Hs; [done|]. simpl.
  pose proof (non_serving_apply m o Hs) as [H1 H2]. destruct (IH _ H1). naive_solver.
Qed.

(** A certificate enters the admitted set only through a successful [admit_cert]. *)
Lemma admitted_apply m o c :
  c ∈ admitted (apply m o) -> c ∈ admitted m \/
  exists g, o = Admit c g /\ admission_ok m c g = true.
Proof.
  destruct o; simpl; unfold hard_cycle, grace_cycle, blacklist_add, admit_cert, suspend, retire,
    purge_done, expire_grace; intros Hc; repeat case_match; simpl in *; try set_solver.
  all: match goal with X : negb _ = false |- _ => apply negb_false_iff in X end.
  all: apply elem_of_union in Hc as [->%elem_of_singleton|]; eauto.
Qed.

Lemma admitted_provenance m0 ops c :
  admitted m0 = ∅ -> c ∈ admitted (run m0 ops) ->
  exists before g after, ops = before ++ Admit c g :: after /\
    admission_ok (run m0 before) c g = true /\
    forall a b, after = a ++ b -> c ∈ admitted (run m0 (before ++ Admit c g :: a)).
Proof.
  intros H0. induction ops as [|o ops IH] using rev_ind; [simpl; set_solver|].
  rewrite run_app. simpl. intros Hc.
  apply admitted_apply in Hc as Hcase.
  destruct (decide (c ∈ admitted (run m0 ops))) as [Hin|Hin].
  - destruct (IH Hin) as (before & g & after & -> & Hok & Hstay).
    exists before, g, (after ++ [o]). split; [by rewrite <- app_assoc|]. split; [done|].
    intros a b Hab. destruct b as [|x b _] using rev_ind.
    + rewrite app_nil_r in Hab. subst a.
      change (Admit c g :: after ++ [o]) with ((Admit c g :: after) ++ [o]).
      rewrite app_assoc, run_app. exact Hc.
    + rewrite app_assoc in Hab. apply app_inj_tail in Hab as [-> _]. by eapply Hstay.
  - destruct Hcase as [|(g & -> & Hok)]; [done|].
    exists ops, g, []. split; [done|]. split; [done|].
    intros a b [-> ->]%eq_sym%app_nil. rewrite run_app. exact Hc.
Qed.

(** In every run of the authority model from a fresh state the checked
    invariants hold; no admitted certificate is blacklisted; every admitted
    certificate was admitted at some earlier step where the admission test
    held and has been admitted ever since; and once the heap has left the
    serving states it never serves again and nothing is admitted, a purged heap
    staying purged. *)
Theorem model_run_safe g ops :
  let m := run (new g) ops in
  invariants_hold m = true /\
  admitted m ∩ blacklist m = ∅ /\
  (forall c, c ∈ admitted m ->
     exists before cert_gen after, ops = before ++ Admit c cert_gen :: after /\
       admission_ok (run (new g) before) c cert_gen = true /\
       forall a b, after = a ++ b ->
         c ∈ admitted (run (new g) (before ++ Admit c cert_gen :: a))) /\
  (m_is_serving (admin_state m) = false -> forall ops',
     m_is_serving (admin_state (run m ops')) = false /\ admitted (run m ops') = ∅ /\
     (admin_state m = MPurged -> admin_state (run m ops') = MPurged)).
Proof.
  intros m. assert (Hwf : wf m) by apply wf_run, wf_new.
  split; [by apply wf_invariants|]. split; [apply Hwf|].
  split; [intros c; by apply admitted_provenance|].
  intros Hs ops'. destruct (non_serving_run m ops' Hs) as [H1 H2].
  split; [done|]. split; [|done]. apply wf_serving; [by apply wf_run|done].
Qed.

(** The checked invariant does not see an admission whose grace has passed: a
    certificate of the previous generation stays admitted after the deadline,
    with [invariants_hold] still true and its generation no longer accepted. *)
Example overdue_admission_passes :
  let m := run (new 1) [GraceCycle 2 0; Admit 9 1; AdvanceTime] in
  9 ∈ admitted m /\ gen_ok m 1 = false /\ invariants_hold m = true.
Proof. simpl. split; [set_solver|]. split; vm_compute; reflexivity. Qed.

(** ** The kernel against the model *)

Definition abstract_state (s : HeapAdministrativeState) : ModelAdminState :=
  match s with
  | Active => MActive | ReadOnly => MReadOnly | Suspended => MSuspended
  | Retired => MRetired | Purging => MPurging | Purged => MPurged
  end.

Section Refinement.
Context {K : KernelEnv}.

(** The model state that a snapshot at a time stands for, seen by one
    certificate of identity [id]. *)
Record abstracts (m : t) (s : HeapSecuritySnapshot) (time : Z) (id : ModelCert)
    (c : VerifiedCertificate) : Prop := {
  ab_current : current_gen m = sn_authority_generation s;
  ab_previous : previous_gen m = sn_previous_generation s;
  ab_grace : grace_deadline m = sn_grace_deadline_unix_s s;
  ab_now : now m = time;
  ab_state : admin_state m = abstract_state (sn_administrative_state s);
  ab_blacklist : id ∈ blacklist m <-> Kernel.certificate_blacklisted s c = true }.

Lemma abstract_serving s : m_is_serving (abstract_state s) = is_serving s.
Proof. by destruct s. Qed.
Lemma abstract_terminal s : m_is_terminal (abstract_state s) = is_terminal s.
Proof. by destruct s. Qed.

Lemma gen_ok_abstract m s time id c :
  abstracts m s time id c ->
  gen_ok m (ct_authority_generation c) = Kernel.generation_accepted s c time.
Proof.
  intros [H1 H2 H3 H4 _ _]. unfold gen_ok, Kernel.generation_accepted.
  rewrite H1, H2, H3, H4. destruct (_ =? _); [done|]. simpl.
  destruct (sn_previous_generation s) as [p|], (sn_grace_deadline_unix_s s) as [d|]; simpl;
    rewrite ?andb_false_r; try done.
  f_equal. apply eq_true_iff_eq. rewrite Z.eqb_eq, bool_decide_eq_true. naive_solver.
Qed.

(** The issuer is the master key of the generation that the certificate names. *)
Definition issued_by_generation (s : HeapSecuritySnapshot) (c : VerifiedCertificate) : Prop :=
  exists pk, (if ct_authority_generation c =? sn_authority_generation s
              then Some (sn_master_public_key s) else sn_previous_master_public_key s) = Some pk /\
    issuer_master_key_id c = sha256 pk.

Lemma admission_kernel_spec s c time :
  Kernel.authority_admission_ok s c time = true <->
  Kernel.authority_binding_holds s c = true /\ is_serving (sn_administrative_state s) = true /\
  Kernel.generation_accepted s c time = true /\ Kernel.certificate_blacklisted s c = false /\
  issued_by_generation s c.
Proof.
  unfold Kernel.authority_admission_ok, issued_by_generation, bytes_eqb.
  assert (Ht : is_serving (sn_administrative_state s) = true ->
    is_terminal (sn_administrative_state s) = false) by (by destruct (sn_administrative_state s)).
  destruct (Kernel.authority_binding_holds s c); simpl; [|naive_solver].
  destruct (is_serving _); simpl; [rewrite Ht by done|naive_solver].
  destruct (Kernel.generation_accepted s c time); simpl; [|naive_solver].
  destruct (Kernel.certificate_blacklisted s c); simpl; [naive_solver|].
  destruct (if _ =? _ then _ else _) as [pk|]; [rewrite bool_decide_eq_true|]; naive_solver.
Qed.

(** C13. The admission test of the kernel refines the one of the model: on a
    snapshot that a model state stands for, the kernel admits a certificate
    exactly when the model does and moreover the certificate is bound to the
    heap, issued by the master key of its generation and not blacklisted (which
    the model checks only while a previous generation exists); and whatever
    data operation the decision allows in a serving state was admitted. *)
Theorem kernel_refines_model m s time id c :
  abstracts m s time id c ->
  (Kernel.authority_admission_ok s c time = true <->
   admission_ok m id (ct_authority_generation c) = true /\
   Kernel.authority_binding_holds s c = true /\ issued_by_generation s c /\
   Kernel.certificate_blacklisted s c = false) /\
  (forall op,
     Kernel.decide s c op time = Kernel.Allow -> ~ op_public op ->
     is_serving (sn_administrative_state s) = true ->
     admission_ok m id (ct_authority_generation c) = true).
Proof.
  intros Hab. pose proof (gen_ok_abstract _ _ _ _ _ Hab) as Hg.
  destruct Hab as [_ _ _ _ Hst Hbl].
  assert (Hadm : admission_ok m id (ct_authority_generation c) = true <->
    is_serving (sn_administrative_state s) = true /\
    Kernel.generation_accepted s c time = true /\ not_blacklisted m id = true).
  { unfold admission_ok. rewrite Hst, abstract_serving, abstract_terminal, Hg.
    rewrite !andb_true_iff, negb_true_iff. destruct (sn_administrative_state s); naive_solver. }
  assert (Hnb : Kernel.certificate_blacklisted s c = false -> not_blacklisted m id = true).
  { intros H. unfold not_blacklisted. rewrite bool_decide_false; [done|].
    rewrite Hbl. by rewrite H. }
  split.
  - rewrite admission_kernel_spec, Hadm. naive_solver.
  - intros op Hd Hp Hs. apply decide_allow_inner in Hd.
    apply decide_inner_private in Hd as (_ & _ & _ & Hgen & Hb & _);
      [|by rewrite <- not_true_iff_false, is_public_spec].
    apply Hadm. apply generation_holds_spec in Hgen as [? _]. auto.
Qed.
End Refinement.

Definition sample_model : t := {|
  current_gen := 2; previous_gen := Some 1; grace_deadline := Some 500; now := 400;
  blacklist := ∅; admin_state := MActive; admitted := ∅ |}.

Lemma kernel_refines_model_witness :
  @abstracts sample_kernel_env sample_model sample_snapshot 400 5 sample_certificate /\
  admission_ok sample_model 5 1 = true /\
  @Kernel.authority_admission_ok sample_kernel_env sample_snapshot sample_certificate 400 = true.
Proof.
  assert (Hab : @abstracts sample_kernel_env sample_model sample_snapshot 400 5 sample_certificate).
  { split; try reflexivity. split; [set_solver|]. intros H. vm_compute in H. discriminate. }
  split; [exact Hab|].
  destruct (@kernel_refines_model sample_kernel_env _ _ _ _ _ Hab) as [Hiff Hallow].
  assert (Hadm : admission_ok sample_model 5 1 = true).
  { apply (Hallow sample_get); [vm_compute; reflexivity|unfold op_public; simpl; lia|reflexivity]. }
  split; [exact Hadm|]. apply Hiff. split; [exact Hadm|]. split; [vm_compute; reflexivity|].
  split; [|vm_compute; reflexivity].
  exists (sample_key Byte.x0b). split; vm_compute; reflexivity.
Defined.
