(* ===== verification/HeapConfine.v ===== *)
(** * Confinement of observations to a capability

    Model of [isolation.rs] (query observations), [operational.rs] (metrics,
    logs, exports, health details and support bundles) and of the profile checks
    of [isolation_profile.rs].  The registry of isolation profiles is a static
    that is loaded once from an embedded JSON document; its value is an argument
    of the functions that read it. *)
From S2P Require Import Prelude HeapKernel.
Open Scope string_scope.
Open Scope list_scope.
Open Scope Z_scope.

(** ** Isolation profiles ([isolation_profile.rs]) *)

Inductive IsolationProfileId : Type :=
| HeapDataIsolated | HeapMetadataHardened | HeapResourceIsolated | HeapPhysicalIsolated.
#[global] Instance profile_id_eq_dec : EqDecision IsolationProfileId.
Proof. solve_decision. Defined.

Definition profile_as_str (p : IsolationProfileId) : string :=
  match p with
  | HeapDataIsolated => "heap-data-isolated"
  | HeapMetadataHardened => "heap-metadata-hardened"
  | HeapResourceIsolated => "heap-resource-isolated"
  | HeapPhysicalIsolated => "heap-physical-isolated"
  end.

Definition profile_parse (s : string) : result HeapError IsolationProfileId :=
  if bool_decide (s = "heap-data-isolated") then Ok HeapDataIsolated
  else if bool_decide (s = "heap-metadata-hardened") then Ok HeapMetadataHardened
  else if bool_decide (s = "heap-resource-isolated") then Ok HeapResourceIsolated
  else if bool_decide (s = "heap-physical-isolated") then Ok HeapPhysicalIsolated
  else Err (InvalidArgument "unknown isolation profile").

Definition REFERENCE_ISOLATION_PROFILE : IsolationProfileId := HeapDataIsolated.

Record IsolationProfile := {
  profile_id : IsolationProfileId;
  unauthenticated_fields : list string;
  authenticated_heap_local_fields : list string;
  always_confidential : list string;
  coarsen_public_timing : bool;
  expose_aggregate_load : bool }.

Definition str_in (field : string) (l : list string) : bool := bool_decide (field ∈ l).

Definition is_always_confidential (p : IsolationProfile) (field : string) : bool :=
  str_in field (always_confidential p)
  || (bool_decide (field = "aggregate_load") && negb (expose_aggregate_load p))
  || (bool_decide (field = "fine_timing_ms") && coarsen_public_timing p).

Definition unauthenticated_allows (p : IsolationProfile) (field : string) : bool :=
  if str_in field (always_confidential p) then false
  else if bool_decide (field = "aggregate_load") && negb (expose_aggregate_load p) then false
  else if bool_decide (field = "fine_timing_ms") && coarsen_public_timing p then false
  else str_in field (unauthenticated_fields p).

Definition authenticated_allows_heap_local (p : IsolationProfile) (field : string)
  : result HeapError unit :=
  if is_always_confidential p field then Err (unavailable ConstraintDenied)
  else if str_in field (authenticated_heap_local_fields p)
          || str_in field (unauthenticated_fields p) then Ok tt
  else Err (unavailable ConstraintDenied).

(** The loaded registry, or the error with which loading failed. *)
Definition Registry : Type := result HeapError (list IsolationProfile).

Definition registry_get (ps : list IsolationProfile) (id : IsolationProfileId)
  : result HeapError IsolationProfile :=
  match List.find (fun p => bool_decide (profile_id p = id)) ps with
  | Some p => Ok p
  | None => Err (InvalidArgument "isolation profile not in registry")
  end.

Definition unauthenticated_field_allowed_under (reg : Registry) (profile : IsolationProfileId)
    (field : string) : bool :=
  match reg with
  | Err _ => false
  | Ok ps => match registry_get ps profile with
             | Err _ => false
             | Ok p => unauthenticated_allows p field
             end
  end.

(** ** Query observations ([isolation.rs]) *)

Record QueryObservationRequest := {
  requested_heap : list byte;
  rq_collections : list (list byte);
  rq_streams : list (list byte);
  estimated_work : Z;
  estimated_result_bytes : Z }.

Record ConfinedObservation := {
  co_heap_id : list byte;
  co_collections : list (list byte);
  co_streams : list (list byte);
  work_budget : Z }.

Definition is_collection_allowlist (c : Constraint) : bool :=
  match c with CollectionAllowlist _ => true | _ => false end.
Definition is_stream_allowlist (c : Constraint) : bool :=
  match c with StreamAllowlist _ => true | _ => false end.

Definition is_nil {A} (l : list A) : bool := match l with [] => true | _ => false end.

(** The two filtering loops: stop at the first id that is not allowed. *)
Fixpoint collect_allowed (allowed : list byte -> bool) (ids : list (list byte))
  : result HeapError (list (list byte)) :=
  match ids with
  | [] => Ok []
  | id :: rest =>
      if negb (allowed id) then Err (unavailable ConstraintDenied)
      else
      let? out := collect_allowed allowed rest in
      Ok (id :: out)
  end.

Definition exceeds (max : option Z) (estimate : Z) : bool :=
  match max with Some m => m <? estimate | None => false end.

Definition confine_query_observation (m : Slots) (cap : CapInner) (r : QueryObservationRequest)
  : result HeapError ConfinedObservation :=
  let? _ := Kernel.refresh_capability_or_terminate m cap in
  if negb (bytes_eqb (requested_heap r) (cap_heap_id cap)) then Err (unavailable StaleAuthority)
  else
  let cs := effective_constraints cap in
  let has_collection_allowlist := existsb is_collection_allowlist cs in
  let has_stream_allowlist := existsb is_stream_allowlist cs in
  if has_collection_allowlist && is_nil (rq_collections r)
  then Err (unavailable ConstraintDenied)
  else if has_stream_allowlist && is_nil (rq_streams r) && is_nil (rq_collections r)
  then Err (unavailable ConstraintDenied)
  else
  let? collections := collect_allowed (Constraints.allows_collection cs) (rq_collections r) in
  let? streams := collect_allowed (Constraints.allows_stream cs) (rq_streams r) in
  if exceeds (Constraints.max_query_work cs) (estimated_work r)
  then Err (unavailable ConstraintDenied)
  else if exceeds (Constraints.max_result_bytes cs) (estimated_result_bytes r)
  then Err (unavailable ConstraintDenied)
  else Ok {|
    co_heap_id := cap_heap_id cap;
    co_collections := collections;
    co_streams := streams;
    work_budget := match Constraints.max_query_work cs with
                   | Some w => w
                   | None => estimated_work r
                   end |}.

(** ** Operational observations ([operational.rs]) *)

Record OperationalEvent := {
  ev_heap_id : option (list byte);
  ev_field : string;
  ev_value : string }.

Record SupportBundleEntry := {
  sb_heap_id : option (list byte);
  sb_kind : string;
  sb_label : string;
  contains_secrets : bool }.

Section Operational.
Context (reg : Registry).

(** The admission of one item named [field] that belongs to the bound heap. *)
Definition admit_local (profile : IsolationProfileId) (view : IsolationProfile) (field : string)
  : result HeapError unit :=
  if is_always_confidential view field then Err (unavailable ConstraintDenied)
  else if negb (bool_decide (profile = HeapDataIsolated))
  then authenticated_allows_heap_local view field
  else Ok tt.

Fixpoint confine_events (bound : list byte) (profile : IsolationProfileId)
    (view : IsolationProfile) (evs : list OperationalEvent)
  : result HeapError (list OperationalEvent) :=
  match evs with
  | [] => Ok []
  | ev :: rest =>
      match ev_heap_id ev with
      | Some h =>
          if bytes_eqb h bound then
            let? _ := admit_local profile view (ev_field ev) in
            let? out := confine_events bound profile view rest in
            Ok (ev :: out)
          else confine_events bound profile view rest
      | None =>
          if unauthenticated_field_allowed_under reg profile (ev_field ev) then
            let? out := confine_events bound profile view rest in
            Ok (ev :: out)
          else Err (unavailable ConstraintDenied)
      end
  end.

Definition confine_operational_observation_under (m : Slots) (cap : CapInner)
    (evs : list OperationalEvent) (profile : IsolationProfileId)
  : result HeapError (list byte * list OperationalEvent) :=
  let? _ := Kernel.refresh_capability_or_terminate m cap in
  let? ps := reg in
  let? view := registry_get ps profile in
  let? out := confine_events (cap_heap_id cap) profile view evs in
  Ok (cap_heap_id cap, out).

Definition confine_operational_observation (m : Slots) (cap : CapInner)
    (evs : list OperationalEvent) : result HeapError (list byte * list OperationalEvent) :=
  confine_operational_observation_under m cap evs REFERENCE_ISOLATION_PROFILE.

Fixpoint confine_entries (bound : list byte) (profile : IsolationProfileId)
    (view : IsolationProfile) (es : list SupportBundleEntry)
  : result HeapError (list SupportBundleEntry) :=
  match es with
  | [] => Ok []
  | e :: rest =>
      if contains_secrets e then Err (unavailable ConstraintDenied)
      else match sb_heap_id e with
      | Some h =>
          if bytes_eqb h bound then
            let? _ := admit_local profile view (sb_kind e) in
            let? out := confine_entries bound profile view rest in
            Ok (e :: out)
          else confine_entries bound profile view rest
      | None =>
          if unauthenticated_field_allowed_under reg profile (sb_kind e) then
            let? out := confine_entries bound profile view rest in
            Ok (e :: out)
          else Err (unavailable ConstraintDenied)
      end
  end.

Definition confine_support_bundle_under (m : Slots) (cap : CapInner)
    (es : list SupportBundleEntry) (profile : IsolationProfileId)
  : result HeapError (list byte * list SupportBundleEntry) :=
  let? _ := Kernel.refresh_capability_or_terminate m cap in
  let? ps := reg in
  let? view := registry_get ps profile in
  let? out := confine_entries (cap_heap_id cap) profile view es in
  Ok (cap_heap_id cap, out).

Definition confine_support_bundle (m : Slots) (cap : CapInner) (es : list SupportBundleEntry)
  : result HeapError (list byte * list SupportBundleEntry) :=
  confine_support_bundle_under m cap es REFERENCE_ISOLATION_PROFILE.
End Operational.

Definition confine_export_heaps (m : Slots) (cap : CapInner) (requested : list (list byte))
  : result HeapError (list (list byte)) :=
  let? _ := Kernel.refresh_capability_or_terminate m cap in
  let bound := cap_heap_id cap in
  if is_nil requested then Ok [bound]
  else if existsb (fun h => negb (bytes_eqb h bound)) requested
  then Err (unavailable StaleAuthority)
  else Ok [bound].

Record HealthDetailInput := {
  live : bool;
  ready : bool;
  reasons : list string;
  store_path : option string;
  live_count : option Z;
  node_index : option Z;
  draining : bool;
  bound_heap_usage_bytes : option Z;
  foreign_heap_usage_bytes : option Z }.

Record ConfinedHealthDetail := {
  ch_live : bool;
  ch_ready : bool;
  ch_reasons : list string;
  ch_draining : option bool;
  ch_bound_heap_usage_bytes : option Z }.

Definition confine_health_detail (m : Slots) (cap : option CapInner) (i : HealthDetailInput)
  : result HeapError ConfinedHealthDetail :=
  match cap with
  | None => Ok {| ch_live := live i; ch_ready := ready i; ch_reasons := [];
                  ch_draining := None; ch_bound_heap_usage_bytes := None |}
  | Some cap =>
      let? _ := Kernel.refresh_capability_or_terminate m cap in
      Ok {| ch_live := live i; ch_ready := ready i; ch_reasons := reasons i;
            ch_draining := Some (draining i);
            ch_bound_heap_usage_bytes := bound_heap_usage_bytes i |}
  end.

(** * Properties of confinement

    Observations of a capability do not depend on other heaps, and every query
    that passes stays inside the capability's heap and constraints. *)
From S2P Require Import HeapKernelFacts.
Open Scope string_scope.
Open Scope list_scope.
Open Scope Z_scope.

(** ** Operational events *)

(** Deployment-wide items and items of the bound heap; the rest is foreign. *)
Definition local_to (bound : list byte) (h : option (list byte)) : bool :=
  match h with Some h => bytes_eqb h bound | None => true end.

Section Operational.
Context (reg : Registry).

(** What an item that is not foreign must satisfy. *)
Definition disclosable (profile : IsolationProfileId) (view : IsolationProfile)
    (h : option (list byte)) (field : string) : bool :=
  match h with
  | Some _ => is_ok (admit_local profile view field)
  | None => unauthenticated_field_allowed_under reg profile field
  end.

Lemma admit_local_err profile view field e :
  admit_local profile view field = Err e -> e = unavailable ConstraintDenied.
Proof.
  unfold admit_local, authenticated_allows_heap_local. intros H.
  repeat (break_match_hyp H; simplify_eq; try done).
Qed.

Lemma confine_events_eq bound profile view evs :
  let mine := List.filter (fun ev => local_to bound (ev_heap_id ev)) evs in
  confine_events reg bound profile view evs =
  if forallb (fun ev => disclosable profile view (ev_heap_id ev) (ev_field ev)) mine
  then Ok mine else Err (unavailable ConstraintDenied).
Proof.
  induction evs as [|ev evs IH]; simpl; [done|]. simpl in IH. rewrite IH.
  destruct (ev_heap_id ev) as [h|] eqn:Hh; simpl.
  - destruct (bytes_eqb h bound); simpl; [|done]. rewrite Hh. simpl.
    destruct (admit_local profile view (ev_field ev)) as [u|e] eqn:Ha; simpl.
    + by destruct (forallb _ _).
    + by rewrite (admit_local_err _ _ _ _ Ha).
  - rewrite Hh. simpl. destruct (unauthenticated_field_allowed_under _ _ _); simpl; [|done].
    by destruct (forallb _ _).
Qed.

Lemma confine_entries_eq bound profile view es :
  let mine := List.filter (fun e => local_to bound (sb_heap_id e)) es in
  confine_entries reg bound profile view es =
  if forallb (fun e => negb (contains_secrets e)) es &&
     forallb (fun e => disclosable profile view (sb_heap_id e) (sb_kind e)) mine
  then Ok mine else Err (unavailable ConstraintDenied).
Proof.
  induction es as [|e es IH]; simpl; [done|]. simpl in IH. rewrite IH.
  destruct (contains_secrets e); simpl; [done|].
  set (S := forallb (fun e => negb (contains_secrets e)) es). clearbody S. clear IH.
  destruct (sb_heap_id e) as [h|] eqn:Hh; simpl.
  - destruct (bytes_eqb h bound); simpl; [|done]. rewrite Hh. simpl.
    destruct (admit_local profile view (sb_kind e)) as [u|e'] eqn:Ha; simpl.
    + destruct S; cbn [andb]; [by destruct (forallb _ _)|done].
    + rewrite andb_false_r. by rewrite (admit_local_err _ _ _ _ Ha).
  - rewrite Hh. simpl. destruct (unauthenticated_field_allowed_under _ _ _); simpl.
    + destruct S; cbn [andb]; [by destruct (forallb _ _)|done].
    + by rewrite andb_false_r.
Qed.

(** C14. Operational observations are non-interfering: two event streams that
    agree on the deployment-wide events and on those of the bound heap give the
    same answer, error or not, whatever they carry about other heaps; and an
    answer is exactly these events in order, each an allowlisted deployment-wide
    field or a field of the bound heap that the profile does not hold
    confidential. *)
Theorem operational_noninterference m cap profile evs evs' :
  List.filter (fun ev => local_to (cap_heap_id cap) (ev_heap_id ev)) evs =
  List.filter (fun ev => local_to (cap_heap_id cap) (ev_heap_id ev)) evs' ->
  confine_operational_observation_under reg m cap evs profile =
  confine_operational_observation_under reg m cap evs' profile /\
  forall h out, confine_operational_observation_under reg m cap evs profile = Ok (h, out) ->
    h = cap_heap_id cap /\
    out = List.filter (fun ev => local_to (cap_heap_id cap) (ev_heap_id ev)) evs /\
    exists ps view, reg = Ok ps /\ registry_get ps profile = Ok view /\
    forall ev, ev ∈ out ->
      (ev_heap_id ev = Some (cap_heap_id cap) /\
       is_always_confidential view (ev_field ev) = false) \/
      (ev_heap_id ev = None /\ unauthenticated_allows view (ev_field ev) = true).
Proof.
  intros Hf. unfold confine_operational_observation_under.
  destruct (Kernel.refresh_capability_or_terminate m cap); [|by split].
  destruct reg as [ps|] eqn:Hreg; [|by split].
  destruct (registry_get ps profile) as [view|] eqn:Hview; [|by split].
  rewrite <- Hreg, !confine_events_eq, Hf. split; [done|]. intros h out.
  destruct (forallb _ _) eqn:Hall; [|done]. intros [= <- <-].
  split; [done|]. split; [done|]. exists ps, view. split; [done|]. split; [done|].
  intros ev Hev. rewrite forallb_forall in Hall.
  apply list_elem_of_In in Hev. specialize (Hall ev Hev).
  apply filter_In in Hev as [_ Hl].
  destruct (ev_heap_id ev) as [h|]; simpl in Hall, Hl.
  - left. unfold bytes_eqb in Hl. apply bool_decide_eq_true in Hl as ->.
    split; [done|]. unfold admit_local in Hall.
    by destruct (is_always_confidential view (ev_field ev)).
  - right. split; [done|]. unfold unauthenticated_field_allowed_under in Hall.
    by rewrite Hreg, Hview in Hall.
Qed.

(** Support bundles are confined alike as long as no foreign entry carries
    secrets: a secret-bearing entry of another heap refuses the whole bundle. *)
Lemma support_bundle_noninterference m cap profile es es' :
  List.filter (fun e => local_to (cap_heap_id cap) (sb_heap_id e)) es =
  List.filter (fun e => local_to (cap_heap_id cap) (sb_heap_id e)) es' ->
  forallb (fun e => negb (contains_secrets e)) es = forallb (fun e => negb (contains_secrets e)) es' ->
  confine_support_bundle_under reg m cap es profile =
  confine_support_bundle_under reg m cap es' profile.
Proof.
  intros Hf Hs. unfold confine_support_bundle_under.
  destruct (Kernel.refresh_capability_or_terminate m cap); [|done].
  destruct reg as [ps|] eqn:Hreg; [|done]. destruct (registry_get _ profile); [|done].
  by rewrite <- Hreg, !confine_entries_eq, Hf, Hs.
Qed.
End Operational.

(** ** Query observations *)

Lemma collect_allowed_spec allowed ids out :
  collect_allowed allowed ids = Ok out <-> out = ids /\ forall id, id ∈ ids -> allowed id = true.
Proof.
  revert out. induction ids as [|id ids IH]; simpl; intros out.
  { split; [intros [= <-]|intros [-> _]]; [|done]. split; [done|]. by intros ? ?%elem_of_nil. }
  setoid_rewrite elem_of_cons. destruct (allowed id) eqn:Ha; simpl.
  2: { split; [done|]. intros [_ Hall]. by rewrite (Hall id) in Ha by auto. }
  destruct (collect_allowed allowed ids) as [o|] eqn:Ho.
  - destruct (proj1 (IH o) eq_refl) as [-> Hall].
    split; [intros [= <-]|by intros [-> _]]. split; [done|]. intros id' [->|]; auto.
  - split; [done|]. intros [-> Hall]. exfalso. by discriminate (proj2 (IH ids) (conj eq_refl (fun x Hx => Hall x (or_intror Hx)))).
Qed.

Lemma exceeds_spec max e :
  exceeds max e = false <-> forall m, max = Some m -> e <= m.
Proof. unfold exceeds. destruct max; [rewrite Z.ltb_ge|]; naive_solver. Qed.

Lemma has_collection_allowlist cs :
  existsb is_collection_allowlist cs = true <-> exists ids, CollectionAllowlist ids ∈ cs.
Proof.
  rewrite existsb_exists. setoid_rewrite <- list_elem_of_In. split.
  - intros ([] & ? & ?); try done. eauto.
  - intros [ids ?]. by exists (CollectionAllowlist ids).
Qed.
Lemma has_stream_allowlist cs :
  existsb is_stream_allowlist cs = true <-> exists ids, StreamAllowlist ids ∈ cs.
Proof.
  rewrite existsb_exists. setoid_rewrite <- list_elem_of_In. split.
  - intros ([] & ? & ?); try done. eauto.
  - intros [ids ?]. by exists (StreamAllowlist ids).
Qed.

(** The query lies inside the capability. *)
Record query_confined (cap : CapInner) (r : QueryObservationRequest) : Prop := {
  qc_heap : requested_heap r = cap_heap_id cap;
  qc_collections : forall ids, CollectionAllowlist ids ∈ effective_constraints cap ->
    rq_collections r <> [] /\ rq_collections r ⊆ ids;
  qc_streams : forall ids, StreamAllowlist ids ∈ effective_constraints cap ->
    (rq_streams r = [] -> rq_collections r <> []) /\ rq_streams r ⊆ ids;
  qc_work : forall m, Constraints.max_query_work (effective_constraints cap) = Some m ->
    estimated_work r <= m;
  qc_result : forall m, Constraints.max_result_bytes (effective_constraints cap) = Some m ->
    estimated_result_bytes r <= m }.

Lemma no_unlisted_scan {A} (b : bool) (l : list A) :
  b && is_nil l = false <-> (b = true -> l <> []).
Proof. destruct b, l; naive_solver. Qed.

Lemma query_passed m cap r obs :
  confine_query_observation m cap r = Ok obs ->
  Kernel.refresh_capability_or_terminate m cap = Ok tt /\ query_confined cap r /\
  obs = {| co_heap_id := cap_heap_id cap; co_collections := rq_collections r;
           co_streams := rq_streams r;
           work_budget := default (estimated_work r)
             (Constraints.max_query_work (effective_constraints cap)) |}.
Proof.
  unfold confine_query_observation, bytes_eqb. set (cs := effective_constraints cap).
  intros H. destruct (Kernel.refresh_capability_or_terminate m cap) as [[]|]; [|done].
  case_bool_decide as Hh; simpl in H; [|done].
  destruct (existsb is_collection_allowlist cs && _) eqn:H1; [done|].
  destruct (existsb is_stream_allowlist cs && _ && _) eqn:H2; [done|].
  destruct (collect_allowed _ (rq_collections r)) as [c|] eqn:Hc; [|done].
  destruct (collect_allowed _ (rq_streams r)) as [st|] eqn:Hs; [|done].
  destruct (exceeds _ (estimated_work r)) eqn:Hw; [done|].
  destruct (exceeds _ (estimated_result_bytes r)) eqn:Hr; [done|].
  apply collect_allowed_spec in Hc as [-> Hc], Hs as [-> Hs].
  setoid_rewrite allows_collection_spec in Hc. setoid_rewrite allows_stream_spec in Hs.
  pose proof (proj1 (no_unlisted_scan _ _) H1) as H1'.
  rewrite <- andb_assoc in H2.
  split; [done|]. split; [|simplify_eq; by destruct (Constraints.max_query_work cs)].
  split; [done| | |by apply exceeds_spec|by apply exceeds_spec].
  + intros ids Hids. split; [|intros id Hid; by apply (Hc id Hid)].
    apply H1', has_collection_allowlist. eauto.
  + intros ids Hids. split; [|intros id Hid; by apply (Hs id Hid)].
    assert (existsb is_stream_allowlist cs = true) as Hl by (apply has_stream_allowlist; eauto).
    rewrite Hl in H2. intros Hn. rewrite Hn in H2. by destruct (rq_collections r).
Qed.

Lemma query_passes m cap r :
  Kernel.refresh_capability_or_terminate m cap = Ok tt -> query_confined cap r ->
  confine_query_observation m cap r = Ok {| co_heap_id := cap_heap_id cap; co_collections := rq_collections r;
           co_streams := rq_streams r;
           work_budget := default (estimated_work r)
             (Constraints.max_query_work (effective_constraints cap)) |}.
Proof.
  unfold confine_query_observation, bytes_eqb. set (cs := effective_constraints cap).
  intros -> [Hh Hc Hs Hw Hr]. rewrite bool_decide_true by done. simpl.
  assert (existsb is_collection_allowlist cs && is_nil (rq_collections r) = false) as ->.
  { apply no_unlisted_scan. intros (ids & Hids)%has_collection_allowlist. by eapply Hc. }
  assert (existsb is_stream_allowlist cs && is_nil (rq_streams r)
    && is_nil (rq_collections r) = false) as ->.
  { apply not_true_iff_false. rewrite !andb_true_iff. intros [[Hl Hn] Hm].
    apply has_stream_allowlist in Hl as (ids & Hids). destruct (Hs ids Hids) as [Hx _].
    destruct (rq_streams r), (rq_collections r); naive_solver. }
  rewrite (proj2 (collect_allowed_spec _ _ (rq_collections r))).
  2: { split; [done|]. intros id Hid. apply allows_collection_spec. intros ids Hids.
       by apply (Hc ids Hids). }
  rewrite (proj2 (collect_allowed_spec _ _ (rq_streams r))).
  2: { split; [done|]. intros id Hid. apply allows_stream_spec. intros ids Hids.
       by apply (Hs ids Hids). }
  rewrite (proj2 (exceeds_spec _ (estimated_work r))) by done.
  rewrite (proj2 (exceeds_spec _ (estimated_result_bytes r))) by done.
  by destruct (Constraints.max_query_work cs).
Qed.

(** A query observation passes exactly when the capability is live and the
    query is confined to it: the heap is the bound one, under a collection
    allowlist it names collections and only listed ones, under a stream
    allowlist it names streams or collections and only listed streams, and the
    work and result estimates are within the maxima.  The observation then is
    the request itself, with the work maximum as its budget when there is one. *)
Theorem query_confinement m cap r obs :
  confine_query_observation m cap r = Ok obs <->
  still_bound (m (cap_slot cap)) cap /\ query_confined cap r /\
  obs = {| co_heap_id := cap_heap_id cap; co_collections := rq_collections r;
           co_streams := rq_streams r;
           work_budget := default (estimated_work r)
             (Constraints.max_query_work (effective_constraints cap)) |}.
Proof.
  rewrite <- refresh_spec. split; [apply query_passed|].
  intros (Hl & Hq & ->). by apply query_passes.
Qed.

(** ** Concrete instances *)

Definition data_isolated : IsolationProfile := {|
  profile_id := HeapDataIsolated;
  unauthenticated_fields := ["protocol_versions"; "live"; "ready"; "build_id"];
  authenticated_heap_local_fields := ["heap_id"; "usage"];
  always_confidential := ["heap_count"; "physical_paths"];
  coarsen_public_timing := false; expose_aggregate_load := true |}.
Definition sample_registry : Registry := Ok [data_isolated].

Definition own_event : OperationalEvent :=
  {| ev_heap_id := Some (sample_id Byte.x02); ev_field := "usage"; ev_value := "7" |}.
Definition foreign_event : OperationalEvent :=
  {| ev_heap_id := Some (sample_id Byte.x09); ev_field := "physical_paths"; ev_value := "/x" |}.
Definition public_event : OperationalEvent :=
  {| ev_heap_id := None; ev_field := "live"; ev_value := "true" |}.

Lemma operational_noninterference_witness :
  confine_operational_observation_under sample_registry (fun _ => sample_snapshot) sample_cap
    [own_event; foreign_event; public_event] HeapDataIsolated
  = Ok (sample_id Byte.x02, [own_event; public_event]).
Proof.
  rewrite (proj1 (operational_noninterference sample_registry (fun _ => sample_snapshot) sample_cap
    HeapDataIsolated [own_event; foreign_event; public_event] [own_event; public_event] eq_refl)).
  vm_compute. reflexivity.
Defined.

(** A secret-bearing entry of another heap is visible in the error. *)
Example foreign_secret_refuses_bundle :
  let foreign s := {| sb_heap_id := Some (sample_id Byte.x09); sb_kind := "log"; sb_label := "l";
                      contains_secrets := s |} in
  confine_support_bundle sample_registry (fun _ => sample_snapshot) sample_cap [foreign false]
    = Ok (sample_id Byte.x02, []) /\
  confine_support_bundle sample_registry (fun _ => sample_snapshot) sample_cap [foreign true]
    = Err (unavailable ConstraintDenied).
Proof. vm_compute. done. Qed.

(** Under a stream allowlist, naming one collection lifts the requirement to
    name streams; and the budget is the maximum, not what the estimate leaves. *)
Example stream_allowlist_scan_passes :
  let cap := {|
    capability_id := sample_id Byte.x04; cap_slot := 0%nat;
    cap_deployment_id := sample_id Byte.x01; cap_heap_id := sample_id Byte.x02;
    cap_certificate_id := sample_id Byte.x03; certificate_fingerprint := sample_key Byte.x0d;
    holder_fingerprint := sample_key Byte.x0e; cap_authority_epoch := 1;
    cap_authority_generation := 1; validated_security_revision := 7;
    validated_authority_chain_head_hash := sample_key Byte.x0c; effective_rights := 1;
    effective_constraints := [StreamAllowlist [sample_id Byte.x05]; MaxQueryWork 10];
    validity_deadline_unix_s := 500 |} in
  confine_query_observation (fun _ => sample_snapshot) cap
    {| requested_heap := sample_id Byte.x02; rq_collections := [sample_id Byte.x06];
       rq_streams := []; estimated_work := 4; estimated_result_bytes := 0 |}
  = Ok {| co_heap_id := sample_id Byte.x02; co_collections := [sample_id Byte.x06];
          co_streams := []; work_budget := 10 |}.
Proof. vm_compute. reflexivity. Qed.
