(* ===== verification/StoreModel.v ===== *)
(** * The reference model of the store

    Model of [crates/residiuum-store-model/src]: the sequential logical store
    ([lib.rs]) with its history and scan interfaces ([history_api.rs],
    [scan_model.rs]) and the command interpreter with its invariant check
    ([generator.rs]).  [BTreeMap<String, _>] is [gmap string]; where the code
    iterates over a map only membership of the result matters.  Sequence numbers
    and generations are unbounded integers. *)
From Stdlib Require Import Ascii.
From S2P Require Import Prelude.
Open Scope string_scope.
Open Scope list_scope.
Open Scope Z_scope.

(** ** Hexadecimal keys ([lib.rs], module [hex]) *)

Definition hex_digit (n : Z) : ascii :=
  match String.get (Z.to_nat n) "0123456789abcdef" with
  | Some c => c
  | None => zero
  end.

Fixpoint hex_encode (bytes : list byte) : string :=
  match bytes with
  | [] => EmptyString
  | b :: rest =>
      String (hex_digit (Z.shiftr (b2z b) 4)) (String (hex_digit (Z.land (b2z b) 0xf))
        (hex_encode rest))
  end.

Definition from_hex (c : ascii) : option Z :=
  let v := Z.of_N (N_of_ascii c) in
  if (48 <=? v) && (v <=? 57) then Some (v - 48)
  else if (97 <=? v) && (v <=? 102) then Some (v - 97 + 10)
  else if (65 <=? v) && (v <=? 70) then Some (v - 65 + 10)
  else None.

Fixpoint hex_decode (s : string) : option (list byte) :=
  match s with
  | EmptyString => Some []
  | String a (String b rest) =>
      match from_hex a, from_hex b, hex_decode rest with
      | Some hi, Some lo, Some out => Some (z2b (Z.lor (Z.shiftl hi 4) lo) :: out)
      | _, _, _ => None
      end
  | _ => None
  end.

Definition subject_key (subject : list byte) : string := hex_encode subject.

(** ** Data ([lib.rs], [history_api.rs]) *)

Definition Id16 : Type := list byte.

Inductive DurabilityAck : Type := AckNone | AckMemory | AckBuffered | AckDurable.
Inductive CrashOutcome : Type := OutcomeOld | OutcomeNew | OutcomeUnknown.
Inductive EventKind : Type := Put | Delete.
#[global] Instance durability_eq_dec : EqDecision DurabilityAck.
Proof. solve_decision. Defined.
#[global] Instance event_kind_eq_dec : EqDecision EventKind.
Proof. solve_decision. Defined.

Inductive ValueObservation : Type :=
| Absent
| Present (value : list byte) (event_id : Id16) (generation : Z)
| ObsUnavailable (cause : string)
| Conflict (event_ids : list Id16).

Record ModelEvent := {
  me_event_id : Id16;
  me_subject : list byte;
  me_kind : EventKind;
  me_value : list byte;
  me_operation_id : string;
  me_durability : DurabilityAck;
  me_seq : Z }.

Record ModelReceipt := {
  mr_operation_id : string;
  mr_event_id : Id16;
  mr_subject : list byte;
  mr_durability : DurabilityAck }.

Record HistoryGap := {
  subject_hex : string;
  note : string;
  before_seq : option Z;
  after_seq : option Z }.

Record ModelStore := {
  store_identity : Id16;
  accepted_configuration : string;
  events : list ModelEvent;
  current_generation : gmap string Z;
  receipts : gmap string ModelReceipt;
  known_damage : gmap string string;
  unavailable_coverage : gset string;
  history_gaps : list HistoryGap;
  compaction_generations : Z;
  writer_holder : option Z;
  next_seq : Z }.

Inductive ModelError : Type := OperationIdConflict | EmptySubject.

Definition store_new (id : Id16) : ModelStore := {|
  store_identity := id; accepted_configuration := "residiuum-core-storage-v1";
  events := []; current_generation := ∅; receipts := ∅; known_damage := ∅;
  unavailable_coverage := ∅; history_gaps := []; compaction_generations := 0;
  writer_holder := None; next_seq := 1 |}.

(** ** Mutations *)

Definition with_writer (s : ModelStore) (w : option Z) : ModelStore := {|
  store_identity := store_identity s; accepted_configuration := accepted_configuration s;
  events := events s; current_generation := current_generation s; receipts := receipts s;
  known_damage := known_damage s; unavailable_coverage := unavailable_coverage s;
  history_gaps := history_gaps s; compaction_generations := compaction_generations s;
  writer_holder := w; next_seq := next_seq s |}.

Definition try_acquire_writer (s : ModelStore) (holder : Z) : bool * ModelStore :=
  match writer_holder s with
  | None => (true, with_writer s (Some holder))
  | Some h => if h =? holder then (true, s) else (false, s)
  end.

Definition release_writer (s : ModelStore) (holder : Z) : ModelStore :=
  if bool_decide (writer_holder s = Some holder) then with_writer s None else s.

Definition with_receipts (s : ModelStore) (r : gmap string ModelReceipt) : ModelStore := {|
  store_identity := store_identity s; accepted_configuration := accepted_configuration s;
  events := events s; current_generation := current_generation s; receipts := r;
  known_damage := known_damage s; unavailable_coverage := unavailable_coverage s;
  history_gaps := history_gaps s; compaction_generations := compaction_generations s;
  writer_holder := writer_holder s; next_seq := next_seq s |}.

Definition generation_of (g : gmap string Z) (sk : string) : Z := default 0 (g !! sk).

Definition apply_mutation (s : ModelStore) (subject : list byte) (kind : EventKind)
    (value : list byte) (operation_id : string) (event_id : Id16) (durability : DurabilityAck)
  : result ModelError ModelReceipt * ModelStore :=
  if bytes_eqb subject [] then (Err EmptySubject, s)
  else match receipts s !! operation_id with
  | Some existing =>
      if bytes_eqb (mr_event_id existing) event_id && bytes_eqb (mr_subject existing) subject
      then (Ok existing, s)
      else (Err OperationIdConflict, s)
  | None =>
      let receipt := {| mr_operation_id := operation_id; mr_event_id := event_id;
                        mr_subject := subject; mr_durability := durability |} in
      if existsb (fun e => bytes_eqb (me_event_id e) event_id) (events s) then
        (Ok receipt, with_receipts s (<[operation_id := receipt]> (receipts s)))
      else
      let sk := subject_key subject in
      let gen := generation_of (current_generation s) sk + 1 in
      (Ok receipt, {|
        store_identity := store_identity s; accepted_configuration := accepted_configuration s;
        events := events s ++ [{|
          me_event_id := event_id; me_subject := subject; me_kind := kind; me_value := value;
          me_operation_id := operation_id; me_durability := durability; me_seq := next_seq s |}];
        current_generation := <[sk := gen]> (current_generation s);
        receipts := <[operation_id := receipt]> (receipts s);
        known_damage := delete sk (known_damage s);
        unavailable_coverage := unavailable_coverage s ∖ {[sk]};
        history_gaps := history_gaps s; compaction_generations := compaction_generations s;
        writer_holder := writer_holder s; next_seq := next_seq s + 1 |})
  end.

Definition put_with_ack (s : ModelStore) subject value op event durability :=
  apply_mutation s subject Put value op event durability.
Definition put_durable (s : ModelStore) subject value op event :=
  apply_mutation s subject Put value op event AckDurable.
Definition delete_durable (s : ModelStore) subject op event :=
  apply_mutation s subject Delete [] op event AckDurable.

Definition with_marks (s : ModelStore) (d : gmap string string) (u : gset string) : ModelStore := {|
  store_identity := store_identity s; accepted_configuration := accepted_configuration s;
  events := events s; current_generation := current_generation s; receipts := receipts s;
  known_damage := d; unavailable_coverage := u;
  history_gaps := history_gaps s; compaction_generations := compaction_generations s;
  writer_holder := writer_holder s; next_seq := next_seq s |}.

Definition interrupted_put (s : ModelStore) (subject value : list byte) (op : string)
    (event : Id16) (outcome : CrashOutcome)
  : result ModelError (option ModelReceipt) * ModelStore :=
  match outcome with
  | OutcomeOld => (Ok None, s)
  | OutcomeNew =>
      match put_durable s subject value op event with
      | (Ok r, s') => (Ok (Some r), s')
      | (Err e, s') => (Err e, s')
      end
  | OutcomeUnknown =>
      if bytes_eqb subject [] then (Err EmptySubject, s)
      else (Ok None, with_marks s (known_damage s)
                       ({[subject_key subject]} ∪ unavailable_coverage s))
  end.

Definition mark_damage (s : ModelStore) (subject : list byte) (cause : string) : ModelStore :=
  let sk := subject_key subject in
  with_marks s (<[sk := cause]> (known_damage s)) ({[sk]} ∪ unavailable_coverage s).

Definition is_durable (d : DurabilityAck) : bool :=
  match d with AckDurable => true | _ => false end.

(** The loop that rebuilds the generations from a history. *)
Definition count_generation (g : gmap string Z) (e : ModelEvent) : gmap string Z :=
  let sk := subject_key (me_subject e) in
  <[sk := generation_of g sk + 1]> g.

Definition drop_nondurable_after_reopen (s : ModelStore) : ModelStore :=
  let evs := List.filter (fun e => is_durable (me_durability e)) (events s) in
  {| store_identity := store_identity s; accepted_configuration := accepted_configuration s;
     events := evs;
     current_generation := fold_left count_generation evs ∅;
     receipts := filter (fun kr => is_durable (mr_durability kr.2) = true) (receipts s);
     known_damage := known_damage s; unavailable_coverage := unavailable_coverage s;
     history_gaps := history_gaps s; compaction_generations := compaction_generations s;
     writer_holder := writer_holder s; next_seq := next_seq s |}.

(** ** Reads *)

Fixpoint last_of (subject : list byte) (evs : list ModelEvent) (last : option ModelEvent)
  : option ModelEvent :=
  match evs with
  | [] => last
  | e :: rest =>
      last_of subject rest (if bytes_eqb (me_subject e) subject then Some e else last)
  end.

Definition get (s : ModelStore) (subject : list byte) : ValueObservation :=
  let sk := subject_key subject in
  match known_damage s !! sk with
  | Some cause => ObsUnavailable cause
  | None =>
      if bool_decide (sk ∈ unavailable_coverage s) then ObsUnavailable "coverage_incomplete"
      else match last_of subject (events s) None with
      | None => Absent
      | Some e =>
          match me_kind e with
          | Delete => Absent
          | Put => Present (me_value e) (me_event_id e)
                     (default 1 (current_generation s !! sk))
          end
      end
  end.

Record HistoryEntry := {
  he_event_id : Id16;
  he_seq : Z;
  he_kind : EventKind;
  he_value : list byte;
  is_current : bool }.

Definition history (s : ModelStore) (subject : list byte) : list HistoryEntry :=
  let current_id :=
    option_map me_event_id
      (List.find (fun e => bytes_eqb (me_subject e) subject) (rev (events s))) in
  map (fun e => {| he_event_id := me_event_id e; he_seq := me_seq e; he_kind := me_kind e;
                   he_value := me_value e;
                   is_current := bool_decide (current_id = Some (me_event_id e)) |})
    (List.filter (fun e => bytes_eqb (me_subject e) subject) (events s)).

Inductive HistoricalValue : Type :=
| Found (event_id : Id16) (kind : EventKind) (value : list byte) (current : bool)
| Missing.

Definition historical_get (s : ModelStore) (subject : list byte) (event_id : Id16)
  : HistoricalValue :=
  match List.find (fun h => bytes_eqb (he_event_id h) event_id) (history s subject) with
  | None => Missing
  | Some h => Found (he_event_id h) (he_kind h) (he_value h) (is_current h)
  end.

Definition record_gap (s : ModelStore) (subject : list byte) (n : string)
    (before after : option Z) : ModelStore := {|
  store_identity := store_identity s; accepted_configuration := accepted_configuration s;
  events := events s; current_generation := current_generation s; receipts := receipts s;
  known_damage := known_damage s; unavailable_coverage := unavailable_coverage s;
  history_gaps := history_gaps s ++ [{| subject_hex := subject_key subject; note := n;
                                        before_seq := before; after_seq := after |}];
  compaction_generations := compaction_generations s;
  writer_holder := writer_holder s; next_seq := next_seq s |}.

Definition gaps_for (s : ModelStore) (subject : list byte) : list HistoryGap :=
  List.filter (fun g => bool_decide (subject_hex g = subject_key subject)) (history_gaps s).

Record LastCompleteResult := {
  complete : option HistoryEntry;
  partials : list HistoryEntry;
  lc_gaps : list HistoryGap;
  tombstone_stop : bool }.

(** The reverse walk: the complete entry, the partials, whether a tombstone
    stopped it. *)
Fixpoint last_complete_loop (incomplete : bool) (budget : nat) (hist : list HistoryEntry)
    (parts : list HistoryEntry) : option HistoryEntry * list HistoryEntry * bool :=
  match budget, hist with
  | S b, h :: rest =>
      match he_kind h with
      | Delete => (None, parts, true)
      | Put =>
          if incomplete then last_complete_loop incomplete b rest (parts ++ [h])
          else (Some h, parts, false)
      end
  | _, _ => (None, parts, false)
  end.

Definition last_complete (s : ModelStore) (subject : list byte) (max_events : nat)
  : LastCompleteResult :=
  let sk := subject_key subject in
  let incomplete := bool_decide (sk ∈ unavailable_coverage s)
                    || bool_decide (is_Some (known_damage s !! sk)) in
  let '(c, p, t) := last_complete_loop incomplete max_events (rev (history s subject)) [] in
  {| complete := c; partials := p; lc_gaps := gaps_for s subject; tombstone_stop := t |}.

(** The fingerprint loop, with its wrapping arithmetic. *)
Definition compact_fingerprint (evs : list ModelEvent) : Z :=
  fold_left (fun fp e =>
    let fp := Z.lxor fp (b2z (nth 0 (me_event_id e) Byte.x00)) in
    ((fp * 0x9e37) mod 2 ^ 64 + me_seq e) mod 2 ^ 64) evs (Z.of_nat (length evs)).

Definition compact_preserve_history (s : ModelStore) : Z * ModelStore :=
  (compact_fingerprint (events s), {|
  store_identity := store_identity s; accepted_configuration := accepted_configuration s;
  events := events s; current_generation := current_generation s; receipts := receipts s;
  known_damage := known_damage s; unavailable_coverage := unavailable_coverage s;
  history_gaps := history_gaps s;
  compaction_generations := sat_add (compaction_generations s) 1;
  writer_holder := writer_holder s; next_seq := next_seq s |}).

Definition history_fingerprint (s : ModelStore) : list (Id16 * Z * EventKind) :=
  map (fun e => (me_event_id e, me_seq e, me_kind e)) (events s).

(** ** Coverage-aware scans ([scan_model.rs]) *)

Inductive ScanCompleteness : Type := ScanComplete | ScanIncomplete.

Record ScanKeyRow := {
  row_subject : list byte;
  row_observation : ValueObservation;
  key_survives : bool }.

Record ScanPage := {
  rows : list ScanKeyRow;
  completeness : ScanCompleteness;
  body_incomplete_subjects : list (list byte) }.

(** Insertion into a [BTreeMap<Vec<u8>, ()>], kept as its sorted keys. *)
Fixpoint insert_subject (x : list byte) (l : list (list byte)) : list (list byte) :=
  match l with
  | [] => [x]
  | y :: rest =>
      match bytes_cmp x y with
      | Lt => x :: l
      | Eq => l
      | Gt => y :: insert_subject x rest
      end
  end.
Definition insert_all (xs l : list (list byte)) : list (list byte) :=
  fold_left (fun acc x => insert_subject x acc) xs l.

Definition marked_keys (s : ModelStore) : list string :=
  map fst (map_to_list (known_damage s)) ++ elements (unavailable_coverage s).

Definition scan_subjects (s : ModelStore) : list (list byte) :=
  insert_all (omap hex_decode (marked_keys s)) (insert_all (map me_subject (events s)) []).

Definition is_body_incomplete (o : ValueObservation) : bool :=
  match o with ObsUnavailable _ | Conflict _ => true | _ => false end.

Definition is_marked (s : ModelStore) (subject : list byte) : bool :=
  let sk := subject_key subject in
  bool_decide (sk ∈ unavailable_coverage s) || bool_decide (is_Some (known_damage s !! sk)).

Definition scan_keys (s : ModelStore) : ScanPage :=
  let subjects := scan_subjects s in
  {| rows := map (fun x => {| row_subject := x; row_observation := get s x;
                              key_survives := true |}) subjects;
     completeness := if existsb (is_marked s) subjects then ScanIncomplete else ScanComplete;
     body_incomplete_subjects :=
       List.filter (fun x => is_body_incomplete (get s x)) subjects |}.

(** ** Commands ([generator.rs])

    The transition classes that the interpreter records for coverage reports do
    not influence the store and are left out. *)

Inductive Command : Type :=
| CPutDurable (subject value : list byte) (op : string) (event : Id16)
| CDeleteDurable (subject : list byte) (op : string) (event : Id16)
| CPutBuffered (subject value : list byte) (op : string) (event : Id16)
| CPutMemory (subject value : list byte) (op : string) (event : Id16)
| CInterrupt (subject value : list byte) (op : string) (event : Id16) (outcome : CrashOutcome)
| CDamage (subject : list byte) (cause : string)
| CReopen
| CCompact
| CWriterAcquire
| CWriterReject
| CGap (subject : list byte) (n : string).

(** Reopening serializes and restores the whole state, then drops what is not
    durable. *)
Definition apply_command (s : ModelStore) (c : Command) : ModelStore :=
  match c with
  | CPutDurable subject value op event => (put_durable s subject value op event).2
  | CDeleteDurable subject op event => (delete_durable s subject op event).2
  | CPutBuffered subject value op event => (put_with_ack s subject value op event AckBuffered).2
  | CPutMemory subject value op event => (put_with_ack s subject value op event AckMemory).2
  | CInterrupt subject value op event outcome =>
      (interrupted_put s subject value op event outcome).2
  | CDamage subject cause => mark_damage s subject cause
  | CReopen => drop_nondurable_after_reopen s
  | CCompact => (compact_preserve_history s).2
  | CWriterAcquire => (try_acquire_writer s 1).2
  | CWriterReject => (try_acquire_writer (try_acquire_writer s 1).2 2).2
  | CGap subject n => record_gap s subject n None None
  end.

(** The assertions that a command makes on its way; a reopening restores the
    identity because its JSON is that of the whole state. *)
Definition command_asserts (s : ModelStore) (c : Command) : bool :=
  match c with
  | CCompact => bool_decide (history_fingerprint s = history_fingerprint (compact_preserve_history s).2)
  | CWriterReject => negb (try_acquire_writer (try_acquire_writer s 1).2 2).1
  | _ => true
  end.

Inductive Violation : Type :=
| Abs001 (sk : string) | EmptyConfiguration | Gen001 (seq : Z) | Id002.

Definition damage_collapsed (s : ModelStore) (sk : string) : bool :=
  match hex_decode sk with
  | Some subject => match get s subject with Absent => true | _ => false end
  | None => false
  end.

Fixpoint check_order (last : Z) (evs : list ModelEvent) : option Violation :=
  match evs with
  | [] => None
  | e :: rest => if me_seq e <=? last then Some (Gen001 (me_seq e)) else check_order (me_seq e) rest
  end.

(** [seen] holds the latest event of each identity. *)
Fixpoint check_ids (seen : gmap (list byte) ModelEvent) (evs : list ModelEvent)
  : option Violation :=
  match evs with
  | [] => None
  | e :: rest =>
      match seen !! me_event_id e with
      | Some prev =>
          if negb (bytes_eqb (me_value prev) (me_value e))
             || negb (bool_decide (me_kind prev = me_kind e))
             || negb (bytes_eqb (me_subject prev) (me_subject e))
          then Some Id002
          else check_ids (<[me_event_id e := e]> seen) rest
      | None => check_ids (<[me_event_id e := e]> seen) rest
      end
  end.

Definition check_invariants (s : ModelStore) : option Violation :=
  match List.find (damage_collapsed s) (map fst (map_to_list (known_damage s))) with
  | Some sk => Some (Abs001 sk)
  | None =>
      if bool_decide (accepted_configuration s = "") then Some EmptyConfiguration
      else match check_order 0 (events s) with
      | Some v => Some v
      | None => check_ids ∅ (events s)
      end
  end.

Fixpoint run_commands (s : ModelStore) (cmds : list Command) : ModelStore * option Violation :=
  match cmds with
  | [] => (s, check_invariants s)
  | c :: rest =>
      let s' := apply_command s c in
      match check_invariants s' with
      | Some v => (s', Some v)
      | None => run_commands s' rest
      end
  end.
Definition run_history (id : Id16) (cmds : list Command) : ModelStore * option Violation :=
  run_commands (store_new id) cmds.
