(* ===== verification/StoreModelFacts.v ===== *)
(** * Properties of the reference model of the store *)
From Stdlib Require Import Sorting.Sorted Ascii.
From S2P Require Import Prelude StoreModel.
Open Scope string_scope.
Open Scope list_scope.
Open Scope Z_scope.

(** ** Hexadecimal keys *)

Lemma hex_byte b : exists hi lo,
  from_hex (hex_digit (Z.shiftr (b2z b) 4)) = Some hi /\
  from_hex (hex_digit (Z.land (b2z b) 0xf)) = Some lo /\
  z2b (Z.lor (Z.shiftl hi 4) lo) = b.
Proof. destruct b; vm_compute; do 2 eexists; repeat split; reflexivity. Qed.

Lemma hex_decode_encode bs : hex_decode (hex_encode bs) = Some bs.
Proof.
  induction bs as [|b bs IH]; [done|]. destruct (hex_byte b) as (hi & lo & Hhi & Hlo & Hb).
  cbn [hex_encode hex_decode]. by rewrite Hhi, Hlo, IH, Hb.
Qed.

#[global] Instance subject_key_inj : Inj (=) (=) subject_key.
Proof.
  intros a b H. unfold subject_key in H.
  assert (Some a = Some b) as [=] by (by rewrite <- !hex_decode_encode, H). done.
Qed.

(** ** The invariant *)

Definition event_before (a b : ModelEvent) : Prop := me_seq a < me_seq b.

Record store_ok (s : ModelStore) : Prop := {
  ok_config : accepted_configuration s <> "";
  ok_damage : forall sk c, known_damage s !! sk = Some c -> exists x, sk = subject_key x;
  ok_coverage : forall sk, sk ∈ unavailable_coverage s -> exists x, sk = subject_key x;
  ok_order : StronglySorted event_before (events s);
  ok_range : Forall (fun e => 1 <= me_seq e < next_seq s) (events s);
  ok_next : 1 <= next_seq s;
  ok_ids : NoDup (map me_event_id (events s));
  ok_generation : current_generation s = fold_left count_generation (events s) ∅ }.

Lemma store_ok_new id : store_ok (store_new id).
Proof. split; simpl; try done; constructor. Qed.

(** States that differ only in fields the invariant does not read. *)
Lemma store_ok_same s s' :
  store_ok s -> accepted_configuration s' = accepted_configuration s -> events s' = events s ->
  current_generation s' = current_generation s -> next_seq s' = next_seq s ->
  known_damage s' = known_damage s -> unavailable_coverage s' = unavailable_coverage s ->
  store_ok s'.
Proof. intros [] Ha He Hg Hn Hd Hu. split; rewrite ?Ha, ?He, ?Hg, ?Hn, ?Hd, ?Hu; done. Qed.

Lemma StronglySorted_snoc {A} (R : A -> A -> Prop) l x :
  StronglySorted R l -> Forall (fun y => R y x) l -> StronglySorted R (l ++ [x]).
Proof.
  induction 1 as [|y l Hs IH Hf]; simpl; intros Hx; [by repeat constructor|].
  apply Forall_cons in Hx as [Hy Hx]. constructor; [by apply IH|].
  apply Forall_app. split; [done|by apply Forall_singleton].
Qed.

Lemma StronglySorted_filter {A} (R : A -> A -> Prop) f l :
  StronglySorted R l -> StronglySorted R (List.filter f l).
Proof.
  induction 1 as [|y l Hs IH Hf]; simpl; [constructor|]. destruct (f y); [|done].
  constructor; [done|]. rewrite Forall_forall in *. intros x Hx. apply Hf.
  apply list_elem_of_In in Hx. apply filter_In in Hx as [Hx _]. by apply list_elem_of_In.
Qed.

Lemma event_known_spec s event :
  existsb (fun e => bytes_eqb (me_event_id e) event) (events s) = false <->
  event ∉ map me_event_id (events s).
Proof.
  rewrite <- not_true_iff_false, existsb_exists. unfold bytes_eqb.
  setoid_rewrite bool_decide_eq_true. setoid_rewrite <- list_elem_of_In.
  split; intros H Hc; apply H; [|destruct Hc as (e & He & <-); by apply list_elem_of_fmap_2].
  apply list_elem_of_fmap in Hc as (e & -> & He). eauto.
Qed.

Lemma apply_mutation_ok s subject kind value op event d :
  store_ok s -> store_ok (apply_mutation s subject kind value op event d).2.
Proof.
  intros Hok. pose proof Hok as [H1 H2 H3 H4 H5 H6 H7 H8]. unfold apply_mutation.
  destruct (bytes_eqb subject []); [done|]. destruct (receipts s !! op).
  { by destruct (_ && _). }
  destruct (existsb _ _) eqn:Hex; [by apply (store_ok_same s)|].
  apply event_known_spec in Hex.
  split; simpl; try done.
  - intros sk c Hc. apply lookup_delete_Some in Hc as [_ Hc]. eauto.
  - intros sk Hsk. apply H3. set_solver.
  - apply StronglySorted_snoc; [done|]. eapply Forall_impl; [exact H5|].
    unfold event_before. simpl. lia.
  - apply Forall_app. split; [eapply Forall_impl; [exact H5|]; simpl; lia|].
    apply Forall_singleton. simpl. lia.
  - lia.
  - rewrite map_app. simpl. apply NoDup_app. split; [done|]. split; [set_solver|apply NoDup_singleton].
  - rewrite fold_left_app. simpl. by rewrite <- H8.
Qed.

Lemma marks_ok s d u :
  store_ok s ->
  (forall sk c, d !! sk = Some c -> exists x, sk = subject_key x) ->
  (forall sk, sk ∈ u -> exists x, sk = subject_key x) -> store_ok (with_marks s d u).
Proof. intros []. by split. Qed.

Lemma interrupted_put_ok s subject value op event o :
  store_ok s -> store_ok (interrupted_put s subject value op event o).2.
Proof.
  intros Hok. destruct o; simpl; [done| |].
  - pose proof (apply_mutation_ok s subject Put value op event AckDurable Hok) as H.
    unfold put_durable. by destruct (apply_mutation _ _ _ _ _ _ _) as [[] s'].
  - destruct (bytes_eqb subject []); [done|]. simpl. pose proof Hok as [].
    apply marks_ok; [done|done|]. set_solver.
Qed.

Lemma mark_damage_ok s subject cause : store_ok s -> store_ok (mark_damage s subject cause).
Proof.
  intros Hok. pose proof Hok as []. apply marks_ok; [done| |set_solver].
  intros sk c [[<- _]|[_ Hc]]%lookup_insert_Some; eauto.
Qed.

Lemma reopen_ok s : store_ok s -> store_ok (drop_nondurable_after_reopen s).
Proof.
  intros [H1 H2 H3 H4 H5 H6 H7 H8]. split; simpl; try done.
  - by apply StronglySorted_filter.
  - rewrite Forall_forall in *. intros e He. apply H5.
    apply list_elem_of_In in He. apply filter_In in He as [He _]. by apply list_elem_of_In.
  - clear -H7. induction (events s) as [|e l IH]; simpl in *; [done|].
    apply NoDup_cons in H7 as [Hn Hd]. destruct (is_durable _); simpl; [|by apply IH].
    apply NoDup_cons. split; [|by apply IH]. intros Hc. apply Hn.
    apply list_elem_of_fmap in Hc as (x & -> & Hx). apply list_elem_of_fmap_2.
    apply list_elem_of_In in Hx. apply filter_In in Hx as [Hx _]. by apply list_elem_of_In.
Qed.

Lemma writer_ok s h : store_ok s -> store_ok (try_acquire_writer s h).2.
Proof.
  intros Hok. unfold try_acquire_writer. destruct (writer_holder s); [by destruct (_ =? _)|].
  by apply (store_ok_same s).
Qed.

Lemma apply_command_ok s c : store_ok s -> store_ok (apply_command s c).
Proof.
  intros Hok. destruct c; cbn [apply_command];
    unfold put_durable, delete_durable, put_with_ack;
    auto using apply_mutation_ok, interrupted_put_ok, mark_damage_ok, reopen_ok, writer_ok.
  - by apply (store_ok_same s).
  - by apply (store_ok_same s).
Qed.

Lemma run_ok s cmds : store_ok s -> store_ok (fold_left apply_command cmds s).
Proof. revert s. induction cmds; simpl; auto using apply_command_ok. Qed.

Lemma get_damaged s x c : known_damage s !! subject_key x = Some c -> get s x = ObsUnavailable c.
Proof. intros H. unfold get. by rewrite H. Qed.

Lemma check_order_ok last evs :
  StronglySorted event_before evs -> Forall (fun e => last < me_seq e) evs ->
  check_order last evs = None.
Proof.
  intros Hs. revert last. induction Hs as [|e evs Hs IH Hf]; simpl; intros last Hl; [done|].
  apply Forall_cons in Hl as [He _]. rewrite (proj2 (Z.leb_gt _ _)) by done. by apply IH.
Qed.

Lemma check_ids_ok seen evs :
  NoDup (map me_event_id evs) ->
  (forall e, e ∈ evs -> seen !! me_event_id e = None) -> check_ids seen evs = None.
Proof.
  revert seen. induction evs as [|e evs IH]; simpl; intros seen Hn Hs; [done|].
  apply NoDup_cons in Hn as [Hin Hn]. rewrite Hs by set_solver. apply IH; [done|].
  intros e' He'. rewrite lookup_insert_ne; [apply Hs; set_solver|].
  intros Heq. apply Hin. rewrite Heq. by apply list_elem_of_fmap_2.
Qed.

Lemma invariants_of_ok s : store_ok s -> check_invariants s = None.
Proof.
  intros [H1 H2 H3 H4 H5 H6 H7 H8]. unfold check_invariants.
  destruct (List.find _ _) as [sk|] eqn:Hf.
  { apply find_some in Hf as [Hin Hc]. apply list_elem_of_In in Hin.
    apply list_elem_of_fmap in Hin as ([sk' c] & -> & Hin). apply elem_of_map_to_list in Hin.
    simpl in Hc. destruct (H2 _ _ Hin) as [x ->]. unfold damage_collapsed in Hc.
    unfold subject_key at 1 in Hc. rewrite hex_decode_encode in Hc.
    by rewrite (get_damaged s x c Hin) in Hc. }
  rewrite bool_decide_false by done.
  rewrite check_order_ok; [|done|eapply Forall_impl; [exact H5|simpl; lia]].
  apply check_ids_ok; [done|]. intros. apply lookup_empty.
Qed.

(** The events of one subject. *)
Definition about (x : list byte) (evs : list ModelEvent) : list ModelEvent :=
  List.filter (fun e => bytes_eqb (me_subject e) x) evs.

Lemma generation_count evs g x :
  default 0 (fold_left count_generation evs g !! subject_key x) =
  default 0 (g !! subject_key x) + Z.of_nat (length (about x evs)).
Proof.
  revert g. induction evs as [|e evs IH]; intros g; simpl; [lia|].
  rewrite IH. unfold count_generation, generation_of, bytes_eqb.
  case_bool_decide as He.
  - rewrite He, lookup_insert_eq. simpl. lia.
  - rewrite lookup_insert_ne; [lia|]. by intros ?%(inj subject_key).
Qed.

Lemma last_of_snoc x evs e last :
  last_of x (evs ++ [e]) last = if bytes_eqb (me_subject e) x then Some e else last_of x evs last.
Proof. revert last. induction evs; intros last; simpl; [done|]. by rewrite IHevs. Qed.

Lemma last_of_about x evs : last_of x evs None = list.last (about x evs).
Proof.
  induction evs as [|e evs IH] using rev_ind; [done|]. rewrite last_of_snoc.
  unfold about in *. rewrite List.filter_app. simpl. destruct (bytes_eqb _ _).
  - by rewrite last_snoc.
  - by rewrite app_nil_r.
Qed.

(** No assertion of a command fails: histories give the writer lock to holder 1 only. *)
Definition first_writer (s : ModelStore) : Prop := writer_holder s = None \/ writer_holder s = Some 1.
Lemma apply_mutation_writer s subject kind value op event ack :
  writer_holder (apply_mutation s subject kind value op event ack).2 = writer_holder s.
Proof. unfold apply_mutation. by repeat case_match. Qed.
Lemma interrupted_put_writer s subject value op event outcome :
  writer_holder (interrupted_put s subject value op event outcome).2 = writer_holder s.
Proof.
  destruct outcome; cbn [interrupted_put]; [done| |by destruct (bytes_eqb _ _)].
  pose proof (apply_mutation_writer s subject Put value op event AckDurable) as Hw.
  change (apply_mutation s subject Put value op event AckDurable) with (put_durable s subject value op event) in Hw.
  by destruct (put_durable s subject value op event) as [[r|e] s'].
Qed.
Lemma apply_command_writer s c : first_writer s -> first_writer (apply_command s c).
Proof.
  unfold first_writer. intros Hw.
  destruct c; cbn [apply_command]; unfold put_durable, delete_durable, put_with_ack;
    rewrite ?apply_mutation_writer, ?interrupted_put_writer; try done.
  all: unfold try_acquire_writer; destruct Hw as [E|E]; repeat (rewrite E; cbn); auto.
Qed.
Lemma command_asserts_hold id cmds c :
  command_asserts (fold_left apply_command cmds (store_new id)) c = true.
Proof.
  assert (Hw : first_writer (fold_left apply_command cmds (store_new id))).
  { assert (H0 : first_writer (store_new id)) by by left. revert H0. generalize (store_new id).
    induction cmds as [|x cmds IH]; intros s Hs; [done|]. apply IH. by apply apply_command_writer. }
  destruct c; try done; cbn [command_asserts].
  - by apply bool_decide_eq_true_2.
  - unfold try_acquire_writer. destruct Hw as [E|E]; repeat (rewrite E; cbn); done.
Qed.

(** C15. No command history violates the invariants of the reference model:
    the run is never cut short, it reports no violation (damage never reads as
    absence, sequence numbers increase, no event is applied twice), and the
    generation counters are the numbers of accepted events. *)
Theorem store_model_invariants id cmds :
  run_history id cmds = (fold_left apply_command cmds (store_new id), None) /\
  let s := fold_left apply_command cmds (store_new id) in
  NoDup (map me_event_id (events s)) /\
  StronglySorted event_before (events s) /\
  forall x, default 0 (current_generation s !! subject_key x) =
    Z.of_nat (length (about x (events s))).
Proof.
  split.
  - unfold run_history. generalize (store_ok_new id). generalize (store_new id).
    induction cmds as [|c cmds IH]; simpl; intros s Hok.
    + by rewrite invariants_of_ok.
    + pose proof (apply_command_ok s c Hok) as Hc. rewrite (invariants_of_ok _ Hc). by apply IH.
  - intros s. assert (store_ok s) as [_ _ _ Ho _ _ Hn Hg] by apply run_ok, store_ok_new.
    split; [done|]. split; [done|]. intros x. rewrite Hg, generation_count. by rewrite lookup_empty.
Qed.

(** ** Mutations *)

Lemma filter_current x (evs : list ModelEvent) :
  List.find (fun e => bytes_eqb (me_subject e) x) (rev evs) = list.last (about x evs).
Proof.
  rewrite <- last_of_about. induction evs as [|e evs IH] using rev_ind; [done|].
  rewrite rev_app_distr, last_of_snoc. simpl. by destruct (bytes_eqb _ _).
Qed.

(** What a read answers for a subject without marks. *)
Definition observed (last : option ModelEvent) (gen : Z)
  : ValueObservation :=
  match last with
  | Some e => match me_kind e with Put => Present (me_value e) (me_event_id e) gen | Delete => Absent end
  | None => Absent
  end.

Definition unmarked (s : ModelStore) (x : list byte) : Prop :=
  known_damage s !! subject_key x = None /\ subject_key x ∉ unavailable_coverage s.

Lemma get_unmarked s x :
  store_ok s -> unmarked s x ->
  get s x = observed (list.last (about x (events s))) (Z.of_nat (length (about x (events s)))).
Proof.
  intros [_ _ _ _ _ _ _ Hg] [Hd Hu]. unfold get, observed.
  rewrite Hd, bool_decide_false, last_of_about by done.
  destruct (list.last (about x (events s))) as [e|] eqn:Hl; [|done].
  destruct (me_kind e); [|done]. f_equal.
  pose proof (generation_count (events s) ∅ x) as Hc. rewrite <- Hg, lookup_empty in Hc. simpl in Hc.
  destruct (current_generation s !! subject_key x) as [g|]; simpl in *; [lia|].
  destruct (about x (events s)); [done|]. simpl in Hc. lia.
Qed.

Lemma fresh_mutation s subject kind value op event d :
  subject <> [] -> receipts s !! op = None -> event ∉ map me_event_id (events s) ->
  exists s', apply_mutation s subject kind value op event d =
    (Ok {| mr_operation_id := op; mr_event_id := event; mr_subject := subject;
           mr_durability := d |}, s') /\
  events s' = events s ++ [{|
    me_event_id := event; me_subject := subject; me_kind := kind; me_value := value;
    me_operation_id := op; me_durability := d; me_seq := next_seq s |}] /\
  receipts s' !! op = Some {| mr_operation_id := op; mr_event_id := event; mr_subject := subject;
                              mr_durability := d |} /\
  known_damage s' = delete (subject_key subject) (known_damage s) /\
  unavailable_coverage s' = unavailable_coverage s ∖ {[subject_key subject]} /\
  forall t, t <> subject ->
    current_generation s' !! subject_key t = current_generation s !! subject_key t.
Proof.
  intros Hs Hr He. unfold apply_mutation.
  assert (bytes_eqb subject [] = false) as -> by (by apply bool_decide_eq_false).
  rewrite Hr, (proj2 (event_known_spec s event) He). eexists. split; [reflexivity|]. simpl. rewrite lookup_insert_eq.
  repeat split. intros t Ht. rewrite lookup_insert_ne; [done|]. by intros ?%(inj subject_key).
Qed.

Lemma about_snoc x evs e :
  about x (evs ++ [e]) = about x evs ++ (if bytes_eqb (me_subject e) x then [e] else []).
Proof. unfold about. rewrite List.filter_app. simpl. by destruct (bytes_eqb _ _). Qed.

Lemma get_frame s s' x :
  known_damage s' !! subject_key x = known_damage s !! subject_key x ->
  (subject_key x ∈ unavailable_coverage s' <-> subject_key x ∈ unavailable_coverage s) ->
  about x (events s') = about x (events s) ->
  current_generation s' !! subject_key x = current_generation s !! subject_key x ->
  get s' x = get s x.
Proof.
  intros Hd Hu Ha Hg. unfold get. rewrite Hd, Hg, !last_of_about, Ha.
  by rewrite (bool_decide_ext _ _ Hu).
Qed.

Lemma fresh_mutation_reads s subject kind value op event d :
  store_ok s ->
  subject <> [] -> receipts s !! op = None -> event ∉ map me_event_id (events s) ->
  let receipt := {| mr_operation_id := op; mr_event_id := event; mr_subject := subject;
                    mr_durability := d |} in
  exists s', apply_mutation s subject kind value op event d = (Ok receipt, s') /\
  get s' subject = match kind with
                   | Put => Present value event (Z.of_nat (length (about subject (events s))) + 1)
                   | Delete => Absent
                   end /\
  (forall t, t <> subject -> get s' t = get s t) /\
  forall kind' value' d', apply_mutation s' subject kind' value' op event d' = (Ok receipt, s').
Proof.
  intros Hok Hne Hr Hnin receipt.
  pose proof (apply_mutation_ok s subject kind value op event d Hok) as Hok'.
  destruct (fresh_mutation s subject kind value op event d Hne Hr Hnin)
    as (s'' & Hs'' & Hev & Hrc & Hd & Hu & Hg). rewrite Hs'' in Hok'. simpl in Hok'.
  exists s''. split; [done|]. split; [|split].
  + rewrite (get_unmarked s'' subject Hok').
    * rewrite Hev, about_snoc. simpl.
      assert (bytes_eqb subject subject = true) as -> by (by apply bool_decide_eq_true).
      rewrite last_snoc, length_app. simpl. destruct kind; [|done]. f_equal. lia.
    * split; [by rewrite Hd, lookup_delete_eq|]. rewrite Hu. set_solver.
  + intros t Ht. apply get_frame; [|rewrite Hu| |by apply Hg].
    * rewrite Hd. apply lookup_delete_ne. by intros ?%(inj subject_key).
    * split; [set_solver|]. intros Hin. apply elem_of_difference. split; [done|].
      by intros ?%elem_of_singleton%(inj subject_key).
    * rewrite Hev, about_snoc. simpl.
      assert (bytes_eqb subject t = false) as -> by (by apply bool_decide_eq_false).
      by rewrite app_nil_r.
  + intros kind' value' d'. unfold apply_mutation.
    assert (bytes_eqb subject [] = false) as -> by (by apply bool_decide_eq_false).
    rewrite Hrc. unfold bytes_eqb. simpl. by rewrite !bool_decide_true by done.
Qed.

(** Every mutation of a reachable store, on every branch: an empty subject
    and an operation id that is known with another event or subject are refused
    without effect; a retry returns the original receipt without effect; an
    event identity that is known already only records the receipt; and a fresh
    mutation is acknowledged, read back as the new value with the next
    generation (a delete as absence) whatever damage was recorded before,
    leaves the reads of every other subject unchanged, and can be retried. *)
Theorem mutation_semantics id cmds subject kind value op event d :
  let s := fold_left apply_command cmds (store_new id) in
  let receipt := {| mr_operation_id := op; mr_event_id := event; mr_subject := subject;
                    mr_durability := d |} in
  let '(r, s') := apply_mutation s subject kind value op event d in
  (subject = [] -> r = Err EmptySubject /\ s' = s) /\
  (forall old, subject <> [] -> receipts s !! op = Some old -> s' = s /\
     r = if bool_decide (mr_event_id old = event /\ mr_subject old = subject)
         then Ok old else Err OperationIdConflict) /\
  (subject <> [] -> receipts s !! op = None -> event ∈ map me_event_id (events s) ->
     r = Ok receipt /\ s' = with_receipts s (<[op := receipt]> (receipts s))) /\
  (subject <> [] -> receipts s !! op = None -> event ∉ map me_event_id (events s) ->
     r = Ok receipt /\
     get s' subject = match kind with
                      | Put => Present value event (Z.of_nat (length (about subject (events s))) + 1)
                      | Delete => Absent
                      end /\
     (forall t, t <> subject -> get s' t = get s t) /\
     forall kind' value' d',
       apply_mutation s' subject kind' value' op event d' = (Ok receipt, s')).
Proof.
  intros s receipt.
  assert (Hok : store_ok s) by apply run_ok, store_ok_new.
  destruct (apply_mutation s subject kind value op event d) as [r s'] eqn:Happ.
  split; [|split; [|split]].
  - intros ->. unfold apply_mutation in Happ. simpl in Happ. by simplify_eq.
  - intros old Hne Hr. unfold apply_mutation in Happ.
    assert (bytes_eqb subject [] = false) as Hn by (by apply bool_decide_eq_false).
    rewrite Hn, Hr in Happ.
    destruct (bytes_eqb (mr_event_id old) event) eqn:He, (bytes_eqb (mr_subject old) subject) eqn:Hs;
      simpl in Happ; injection Happ as <- <-; split; try done; symmetry;
      unfold bytes_eqb in He, Hs; rewrite ?bool_decide_eq_true, ?bool_decide_eq_false in He;
      rewrite ?bool_decide_eq_true, ?bool_decide_eq_false in Hs; case_bool_decide; naive_solver.
  - intros Hne Hr Hin. unfold apply_mutation in Happ.
    assert (bytes_eqb subject [] = false) as Hn by (by apply bool_decide_eq_false).
    destruct (existsb _ _) eqn:Hex in Happ; [by rewrite Hn, Hr in Happ; simplify_eq|].
    by apply event_known_spec in Hex.
  - intros Hne Hr Hnin.
    destruct (fresh_mutation_reads s subject kind value op event d Hok Hne Hr Hnin)
      as (s'' & Hs'' & Hread & Hother & Hretry). rewrite Happ in Hs''. by injection Hs'' as -> ->.
Qed.

(** ** Reopening *)

Definition durable_only (evs : list ModelEvent) : list ModelEvent :=
  List.filter (fun e => is_durable (me_durability e)) evs.

Lemma durable_twice evs : durable_only (durable_only evs) = durable_only evs.
Proof.
  unfold durable_only. induction evs as [|e evs IH]; simpl; [done|].
  destruct (is_durable _) eqn:He; simpl; [by rewrite He, IH|done].
Qed.

Lemma about_durable x evs : about x (durable_only evs) = durable_only (about x evs).
Proof.
  unfold about, durable_only. induction evs as [|e evs IH]; simpl; [done|].
  destruct (is_durable _) eqn:Hd, (bytes_eqb _ _) eqn:Hx; simpl; rewrite ?Hd, ?Hx, IH; done.
Qed.

Lemma last_durable evs e :
  list.last evs = Some e -> me_durability e = AckDurable -> list.last (durable_only evs) = Some e.
Proof.
  destruct evs as [|e' evs _] using rev_ind; [done|]. rewrite last_snoc. intros [= ->] Hd.
  unfold durable_only. rewrite List.filter_app. simpl. rewrite Hd. simpl. apply last_snoc.
Qed.

(** Reopening keeps exactly what was acknowledged as durable: the durable
    events in order and the durable receipts survive and nothing weaker does;
    a subject without marks reads as its last durable event, so a value whose
    latest event was durable is read unchanged; marks of damage and incomplete
    coverage survive; and reopening again changes nothing. *)
Theorem reopen_keeps_durable id cmds :
  let s := fold_left apply_command cmds (store_new id) in
  let s' := drop_nondurable_after_reopen s in
  events s' = durable_only (events s) /\
  (forall op r, receipts s' !! op = Some r <->
     receipts s !! op = Some r /\ mr_durability r = AckDurable) /\
  (forall x, unmarked s x ->
     get s' x = observed (list.last (durable_only (about x (events s))))
                  (Z.of_nat (length (durable_only (about x (events s)))))) /\
  (forall x e, unmarked s x -> list.last (about x (events s)) = Some e ->
     me_durability e = AckDurable -> me_kind e = Put ->
     exists g, get s' x = Present (me_value e) (me_event_id e) g) /\
  (forall x c, get s x = ObsUnavailable c -> get s' x = ObsUnavailable c) /\
  drop_nondurable_after_reopen s' = s'.
Proof.
  intros s s'. assert (Hok : store_ok s) by apply run_ok, store_ok_new.
  assert (Hget : forall x, unmarked s x ->
    get s' x = observed (list.last (durable_only (about x (events s))))
                  (Z.of_nat (length (durable_only (about x (events s)))))).
  { intros x Hx. rewrite (get_unmarked s' x (reopen_ok s Hok) Hx).
    change (events s') with (durable_only (events s)). by rewrite about_durable. }
  split; [done|]. split; [|split; [done|split; [|split]]].
  - intros op r. simpl. rewrite map_lookup_filter_Some. simpl.
    destruct (mr_durability r); naive_solver.
  - intros x e Hx Hl Hd Hk. rewrite Hget by done. rewrite (last_durable _ _ Hl Hd). simpl.
    rewrite Hk. eauto.
  - intros x c. unfold get. simpl. destruct (known_damage s !! _); [done|].
    case_bool_decide; [done|]. by repeat case_match.
  - unfold s', drop_nondurable_after_reopen. simpl. f_equal.
    + apply durable_twice.
    + f_equal. apply durable_twice.
    + rewrite map_filter_filter. apply map_filter_ext. naive_solver.
Qed.

(** ** Scans *)

Lemma elem_of_insert_subject x l y : y ∈ insert_subject x l <-> y = x \/ y ∈ l.
Proof.
  induction l as [|z l IH]; simpl; [set_solver|].
  destruct (bytes_cmp x z) eqn:Hc; [apply bytes_cmp_Eq in Hc as ->|..]; set_solver.
Qed.

Lemma insert_subject_sorted x l :
  StronglySorted bytes_lt l -> StronglySorted bytes_lt (insert_subject x l).
Proof.
  induction 1 as [|z l Hs IH Hf]; simpl; [by repeat constructor|].
  destruct (bytes_cmp x z) eqn:Hc.
  - by constructor.
  - constructor; [by constructor|]. constructor; [done|].
    eapply Forall_impl; [exact Hf|]. intros y. by apply bytes_lt_trans.
  - constructor; [done|]. rewrite Forall_forall in *. intros y [->|Hy]%elem_of_insert_subject.
    + by apply bytes_cmp_Gt.
    + by apply Hf.
Qed.

Lemma insert_all_spec xs l :
  StronglySorted bytes_lt l ->
  StronglySorted bytes_lt (insert_all xs l) /\ forall y, y ∈ insert_all xs l <-> y ∈ xs \/ y ∈ l.
Proof.
  revert l. induction xs as [|x xs IH]; intros l Hl; simpl; [set_solver|].
  destruct (IH _ (insert_subject_sorted x l Hl)) as [Hs He]. split; [done|].
  intros y. unfold insert_all in He. rewrite He, elem_of_insert_subject. set_solver.
Qed.

Definition marked (s : ModelStore) (x : list byte) : Prop :=
  is_Some (known_damage s !! subject_key x) \/ subject_key x ∈ unavailable_coverage s.

Lemma is_marked_spec s x : is_marked s x = true <-> marked s x.
Proof. unfold is_marked, marked. rewrite orb_true_iff, !bool_decide_eq_true. tauto. Qed.

Lemma elem_of_marked_keys s sk :
  sk ∈ marked_keys s <-> is_Some (known_damage s !! sk) \/ sk ∈ unavailable_coverage s.
Proof.
  unfold marked_keys. rewrite elem_of_app, elem_of_elements. f_equiv. split.
  - intros ([k c] & -> & H)%list_elem_of_fmap. apply elem_of_map_to_list in H. by exists c.
  - intros [c Hc]. apply elem_of_map_to_list in Hc.
    by apply (list_elem_of_fmap_2 fst) in Hc.
Qed.

Lemma elem_of_scan_subjects s x :
  store_ok s ->
  x ∈ scan_subjects s <-> (exists e, e ∈ events s /\ me_subject e = x) \/ marked s x.
Proof.
  intros Hok. unfold scan_subjects.
  destruct (insert_all_spec (map me_subject (events s)) []) as [H1 H2]; [constructor|].
  rewrite (proj2 (insert_all_spec _ _ H1)), H2, list_elem_of_omap. split.
  - intros [(sk & Hsk & Hdec)|[Hev|?%elem_of_nil]]; [| |done].
    + right. apply elem_of_marked_keys in Hsk as Hm. unfold marked.
      assert (exists y, sk = subject_key y) as [y ->].
      { destruct Hm as [[c Hc]|Hu]; [by apply (ok_damage s Hok) in Hc|by apply (ok_coverage s Hok)]. }
      unfold subject_key at 1 in Hdec. rewrite hex_decode_encode in Hdec. by simplify_eq.
    + left. apply list_elem_of_fmap in Hev as (e & -> & He). eauto.
  - intros [(e & He & <-)|Hm].
    + right. left. by apply list_elem_of_fmap_2.
    + left. exists (subject_key x). split; [by apply elem_of_marked_keys|].
      apply hex_decode_encode.
Qed.

Lemma scan_subjects_sorted s : StronglySorted bytes_lt (scan_subjects s).
Proof. apply insert_all_spec, insert_all_spec. constructor. Qed.

Lemma complete_iff s :
  store_ok s ->
  completeness (scan_keys s) = ScanComplete <-> known_damage s = ∅ /\ unavailable_coverage s = ∅.
Proof.
  intros Hok. unfold scan_keys. cbn [completeness].
  destruct (existsb (is_marked s) (scan_subjects s)) eqn:He.
  - split; [done|]. intros [Hd Hu]. apply existsb_exists in He as (x & _ & [[c Hc]|Hm]%is_marked_spec).
    + by rewrite Hd, lookup_empty in Hc.
    + rewrite Hu in Hm. set_solver.
  - split; [intros _|done].
    assert (Hnone : forall x, ~ marked s x).
    { intros x Hm. apply not_true_iff_false in He. apply He, existsb_exists. exists x.
      split; [apply list_elem_of_In, elem_of_scan_subjects; auto|by apply is_marked_spec]. }
    split.
    + apply map_eq. intros sk. rewrite lookup_empty.
      destruct (known_damage s !! sk) as [c|] eqn:Hc; [|done].
      destruct (ok_damage s Hok _ _ Hc) as [x ->]. destruct (Hnone x). left. by exists c.
    + apply set_eq. intros sk. split; [|set_solver]. intros Hsk.
      destruct (ok_coverage s Hok _ Hsk) as [x ->]. destruct (Hnone x). by right.
Qed.

(** A key scan of a reachable store is truthful: its rows are in strict
    subject order, they are exactly the subjects with an accepted event or a
    mark, each with its point read; it claims completeness exactly when nothing
    is marked damaged or uncovered; and under that claim every subject it does
    not list reads as absent and no listed one as unavailable. *)
Theorem scan_truthful id cmds :
  let s := fold_left apply_command cmds (store_new id) in
  let page := scan_keys s in
  StronglySorted bytes_lt (map row_subject (rows page)) /\
  (forall x, x ∈ map row_subject (rows page) <->
     (exists e, e ∈ events s /\ me_subject e = x) \/ marked s x) /\
  (forall row, row ∈ rows page -> row_observation row = get s (row_subject row)) /\
  (completeness page = ScanComplete <-> known_damage s = ∅ /\ unavailable_coverage s = ∅) /\
  (completeness page = ScanComplete -> forall x,
     (x ∉ map row_subject (rows page) -> get s x = Absent) /\
     forall c, get s x <> ObsUnavailable c).
Proof.
  intros s page. assert (Hok : store_ok s) by apply run_ok, store_ok_new.
  assert (Hrows : map row_subject (rows page) = scan_subjects s).
  { unfold page, scan_keys. cbn [rows]. rewrite map_map. simpl. apply map_id. }
  rewrite Hrows.
  split; [apply scan_subjects_sorted|]. split; [intros x; by apply elem_of_scan_subjects|].
  split; [|split].
  - intros row Hrow. apply list_elem_of_fmap in Hrow as (x & -> & _). done.
  - apply complete_iff; done.
  - intros Hc. apply (complete_iff s Hok) in Hc as [Hd Hu]. intros x.
    assert (Hx : unmarked s x) by (unfold unmarked; rewrite Hd, Hu, lookup_empty; set_solver).
    rewrite (get_unmarked s x Hok Hx). split; [|intros c; unfold observed; by repeat case_match].
    intros Hn. destruct (list.last (about x (events s))) as [e|] eqn:Hl; [|done].
    destruct Hn. apply elem_of_scan_subjects; [done|]. left. exists e.
    apply last_Some_elem_of, list_elem_of_In, filter_In in Hl as [He Hs].
    split; [by apply list_elem_of_In|]. by apply bool_decide_eq_true in Hs.
Qed.

(** ** Behaviours worth knowing *)

(** A read never reports a conflict. *)
Lemma get_never_conflicts s x ids : get s x <> Conflict ids.
Proof. unfold get. by repeat case_match. Qed.

Definition sample_subject : list byte := [Byte.x61].
Definition sample_event (b : byte) : Id16 := repeat b 16.

(** A put that is only in memory clears the damage mark; after reopening the
    damage has become the old value. *)
Example memory_put_launders_damage :
  let before := fold_left apply_command
    [CPutDurable sample_subject [Byte.x01] "op1" (sample_event Byte.x01);
     CDamage sample_subject "bitrot"] (store_new []) in
  let after := fold_left apply_command
    [CPutMemory sample_subject [Byte.x02] "op2" (sample_event Byte.x02); CReopen] before in
  get before sample_subject = ObsUnavailable "bitrot" /\
  get after sample_subject = Present [Byte.x01] (sample_event Byte.x01) 1.
Proof. vm_compute. done. Qed.

(** A durable receipt can name an event that is not durable: after reopening it
    is not backed by the history. *)
Example durable_receipt_without_event :
  let s := fold_left apply_command
    [CPutMemory sample_subject [Byte.x01] "op1" (sample_event Byte.x01);
     CPutDurable sample_subject [Byte.x02] "op2" (sample_event Byte.x01); CReopen] (store_new []) in
  events s = [] /\ option_map mr_durability (receipts s !! "op2") = Some AckDurable.
Proof. vm_compute. done. Qed.

(** Reusing an operation id with another value or kind is acknowledged with the
    original receipt. *)
Example retry_ignores_content :
  let s := fold_left apply_command
    [CPutDurable sample_subject [Byte.x01] "op1" (sample_event Byte.x01)] (store_new []) in
  let '(r, s') := delete_durable s sample_subject "op1" (sample_event Byte.x01) in
  is_ok r = true /\ get s' sample_subject = Present [Byte.x01] (sample_event Byte.x01) 1.
Proof. vm_compute. done. Qed.

(** Under incomplete coverage no generation, however old, is offered as complete. *)
Lemma last_complete_incomplete s x n :
  marked s x -> complete (last_complete s x n) = None.
Proof.
  intros Hm. unfold last_complete.
  assert (bool_decide (subject_key x ∈ unavailable_coverage s)
    || bool_decide (is_Some (known_damage s !! subject_key x)) = true) as ->
    by (by apply is_marked_spec).
  generalize (@nil HistoryEntry). generalize (rev (history s x)). induction n as [|n IH]; [done|].
  intros [|h l] p; simpl; [done|]. destruct (he_kind h); [|done]. apply IH.
Qed.
