(* ===== verification/AdaptiveWrite.v ===== *)
(** * The adaptive write path

    Model of the state machines under
    [crates/residiuum-store/src/adaptive_write]: the credit ledger
    ([credits.rs]), the ordered ready ring ([ordered_ready.rs]), the bounded
    queue ([queue.rs]), the reservation pipeline ([coordinator.rs]), the
    natural-versus-batch decision and the selection among batch sizes
    ([model.rs], [selector.rs]), the service estimator ([estimator.rs]), the
    scale controller ([controller.rs]) and the policy check ([policy.rs]).

    Each of these states lives behind one mutex: a method that takes the lock
    is one function on the state, and threads interleave whole calls.  Waiting
    on a condition variable is not modelled; a waiting call performs the same
    step as its non-blocking variant when it is woken.  Times are nanoseconds. *)
From S2P Require Import Prelude Frame.
Open Scope string_scope.
Open Scope list_scope.
Open Scope Z_scope.

Definition checked_mul (a b : Z) : option Z :=
  if a * b <=? U64_MAX then Some (a * b) else None.
Definition sat_mul (a b : Z) : Z := Z.min (a * b) U64_MAX.
(** [saturating_add] on [u32]. *)
Definition sat_add32 (a b : Z) : Z := Z.min (a + b) U32_MAX.

(** ** Credits *)

Module Credits.

Definition FRAME_FRAMING_OVERHEAD : Z := Z.of_nat (FRAME_PREFIX_LEN + FRAME_SUFFIX_LEN).
Definition ENVELOPE_FIXED_OVERHEAD : Z := 128.
Definition REQUEST_META_OVERHEAD : Z := 256.
Definition COMPLETION_SLOT_OVERHEAD : Z := 128.

Inductive CreditError : Type := EntriesExhausted | BytesExhausted | Overflow | Underflow.

Definition and_then (v : option Z) (k : Z) : option Z :=
  match v with Some v => checked_add v k | None => None end.

Definition mutation_credit (subject_len body_len : Z) : result CreditError Z :=
  match and_then (and_then (and_then (and_then (checked_add subject_len body_len)
          FRAME_FRAMING_OVERHEAD) ENVELOPE_FIXED_OVERHEAD) REQUEST_META_OVERHEAD)
          COMPLETION_SLOT_OVERHEAD with
  | Some v => Ok v
  | None => Err Overflow
  end.

Record t := {
  entry_limit : Z;
  byte_limit : Z;
  entries_used : Z;
  bytes_used : Z }.

Definition new (el bl : Z) : t :=
  {| entry_limit := el; byte_limit := bl; entries_used := 0; bytes_used := 0 |}.

Definition with_used (s : t) (e b : Z) : t :=
  {| entry_limit := entry_limit s; byte_limit := byte_limit s; entries_used := e;
     bytes_used := b |}.

Definition try_reserve (s : t) (entries bytes : Z) : result CreditError unit * t :=
  match checked_add (entries_used s) entries with
  | None => (Err Overflow, s)
  | Some next_entries =>
  match checked_add (bytes_used s) bytes with
  | None => (Err Overflow, s)
  | Some next_bytes =>
      if entry_limit s <? next_entries then (Err EntriesExhausted, s)
      else if byte_limit s <? next_bytes then (Err BytesExhausted, s)
      else (Ok tt, with_used s next_entries next_bytes)
  end
  end.

Definition release (s : t) (entries bytes : Z) : result CreditError unit * t :=
  if (entries_used s <? entries) || (bytes_used s <? bytes) then (Err Underflow, s)
  else (Ok tt, with_used s (entries_used s - entries) (bytes_used s - bytes)).

Definition entries_available (s : t) : Z := sat_sub (entry_limit s) (entries_used s).
Definition bytes_available (s : t) : Z := sat_sub (byte_limit s) (bytes_used s).

End Credits.

(** ** The ordered ready ring *)

Module ReadyRing.

Inductive ReadyError : Type := DuplicateTicket | BytesExhausted | Overflow.

Section Ring.
Context {T : Type}.

Record t := {
  next_expected : Z;
  ready : gmap Z (T * Z);
  bytes_held : Z;
  byte_limit : Z }.

Definition new (first_ticket limit : Z) : t :=
  {| next_expected := first_ticket; ready := ∅; bytes_held := 0; byte_limit := limit |}.

(** On failure the outcome is handed back with the error. *)
Definition push (s : t) (ticket : Z) (outcome : T) (bytes : Z)
  : result (ReadyError * T) unit * t :=
  match ready s !! ticket with
  | Some _ => (Err (DuplicateTicket, outcome), s)
  | None =>
  match checked_add (bytes_held s) bytes with
  | None => (Err (Overflow, outcome), s)
  | Some next_bytes =>
      if byte_limit s <? next_bytes then (Err (BytesExhausted, outcome), s)
      else (Ok tt, {| next_expected := next_expected s;
                      ready := <[ticket := (outcome, bytes)]> (ready s);
                      bytes_held := next_bytes; byte_limit := byte_limit s |})
  end
  end.

Definition try_pop_next (s : t) : option (Z * T) * t :=
  let key := next_expected s in
  match ready s !! key with
  | None => (None, s)
  | Some (outcome, bytes) =>
      (Some (key, outcome),
       {| next_expected := sat_add key 1; ready := delete key (ready s);
          bytes_held := sat_sub (bytes_held s) bytes; byte_limit := byte_limit s |})
  end.

Definition buffered_count (s : t) : nat := size (ready s).
Definition next_is_ready (s : t) : bool := bool_decide (is_Some (ready s !! next_expected s)).
End Ring.
Arguments t : clear implicits.
End ReadyRing.

(** ** The bounded queue *)

Module BoundedQueue.

Inductive QueueError : Type := Full | Shutdown.

Section Queue.
Context {T : Type}.

Record t := {
  items : list T;
  capacity : nat;
  is_shutdown : bool }.

Definition new (cap : nat) : t := {| items := []; capacity := cap; is_shutdown := false |}.

Definition try_push (q : t) (item : T) : result QueueError unit * t :=
  if is_shutdown q then (Err Shutdown, q)
  else if (capacity q <=? length (items q))%nat then (Err Full, q)
  else (Ok tt, {| items := items q ++ [item]; capacity := capacity q; is_shutdown := false |}).

Definition try_pop (q : t) : option T * t :=
  match items q with
  | [] => (None, q)
  | x :: rest => (Some x, {| items := rest; capacity := capacity q; is_shutdown := is_shutdown q |})
  end.

Definition shutdown (q : t) : t :=
  {| items := items q; capacity := capacity q; is_shutdown := true |}.
End Queue.
Arguments t : clear implicits.
End BoundedQueue.

(** ** The reservation pipeline *)

Module Pipeline.

Inductive ReservationPhase : Type := Cooking | Installing.
#[global] Instance phase_eq_dec : EqDecision ReservationPhase.
Proof. solve_decision. Defined.

Record InFlight := { fl_id : Z; phase : ReservationPhase }.

Inductive PipelineError : Type :=
| DepthExceeded (limit in_flight : nat)
| Sealing
| ShuttingDown
| UnknownReservation
| BadPhase (found expected : ReservationPhase)
| DrainTimeout (remaining : nat).

(** [next_id] is an atomic counter that wraps. *)
Record t := {
  depth_limit : nat;
  in_flight : list InFlight;
  sealing : bool;
  shutting_down : bool;
  next_id : Z }.

Definition new (limit : nat) : t :=
  {| depth_limit := Nat.min (Nat.max limit 1) 4; in_flight := []; sealing := false;
     shutting_down := false; next_id := 1 |}.
Definition depth_two : t := new 2.

Definition with_flight (s : t) (l : list InFlight) : t :=
  {| depth_limit := depth_limit s; in_flight := l; sealing := sealing s;
     shutting_down := shutting_down s; next_id := next_id s |}.

Definition try_begin_reservation (s : t) : result PipelineError Z * t :=
  if shutting_down s then (Err ShuttingDown, s)
  else if sealing s then (Err Sealing, s)
  else if (depth_limit s <=? length (in_flight s))%nat
  then (Err (DepthExceeded (depth_limit s) (length (in_flight s))), s)
  else (Ok (next_id s),
        {| depth_limit := depth_limit s;
           in_flight := in_flight s ++ [{| fl_id := next_id s; phase := Cooking |}];
           sealing := sealing s; shutting_down := shutting_down s;
           next_id := (next_id s + 1) mod 2 ^ 64 |}).

(** The first reservation with this id, with what is before and after it. *)
Fixpoint locate (id : Z) (l : list InFlight)
  : option (list InFlight * InFlight * list InFlight) :=
  match l with
  | [] => None
  | r :: rest =>
      if fl_id r =? id then Some ([], r, rest)
      else match locate id rest with
           | Some (before, x, after) => Some (r :: before, x, after)
           | None => None
           end
  end.

Definition note_cook_complete (s : t) (id : Z) : result PipelineError unit * t :=
  match locate id (in_flight s) with
  | None => (Err UnknownReservation, s)
  | Some (before, r, after) =>
      if negb (bool_decide (phase r = Cooking)) then (Err (BadPhase (phase r) Cooking), s)
      else (Ok tt, with_flight s (before ++ {| fl_id := fl_id r; phase := Installing |} :: after))
  end.

Definition note_install_complete (s : t) (id : Z) : result PipelineError unit * t :=
  match locate id (in_flight s) with
  | None => (Err UnknownReservation, s)
  | Some (before, r, after) =>
      if negb (bool_decide (phase r = Installing)) then (Err (BadPhase (phase r) Installing), s)
      else (Ok tt, with_flight s (before ++ after))
  end.

Definition abort_reservation (s : t) (id : Z) : result PipelineError unit * t :=
  match locate id (in_flight s) with
  | None => (Err UnknownReservation, s)
  | Some (before, _, after) => (Ok tt, with_flight s (before ++ after))
  end.

Definition set_sealing (s : t) (b : bool) : t :=
  {| depth_limit := depth_limit s; in_flight := in_flight s; sealing := b;
     shutting_down := shutting_down s; next_id := next_id s |}.
Definition begin_seal (s : t) : t := set_sealing s true.
Definition end_seal (s : t) : t := set_sealing s false.
Definition begin_shutdown (s : t) : t :=
  {| depth_limit := depth_limit s; in_flight := in_flight s; sealing := sealing s;
     shutting_down := true; next_id := next_id s |}.

Definition in_flight_ids (s : t) : list Z := map fl_id (in_flight s).

End Pipeline.

(** ** Natural versus batch ([model.rs]) *)

Inductive AwoPlan : Type := Natural | Batch.
#[global] Instance awo_plan_eq_dec : EqDecision AwoPlan.
Proof. solve_decision. Defined.

Definition DECISION_MARGIN_PPM_DEFAULT : Z := 100000.

Record GoldenDecisionInput := {
  queue_count : Z;
  natural_service_lower_ns : Z;
  batch_completion_upper_ns : Z;
  decision_margin_ppm : Z;
  evidence_warm : bool;
  evidence_stale : bool;
  compatible : bool;
  memory_ok : bool;
  earliest_deadline_ns : Z }.

Record Decision := { plan : AwoPlan; reason : string }.
Definition natural (r : string) : Decision := {| plan := Natural; reason := r |}.
Definition batch (r : string) : Decision := {| plan := Batch; reason := r |}.

(** Mean, tail and objective of [q] requests served one by one. *)
Definition natural_objective_ns (q service : Z) : option (Z * Z * Z) :=
  match checked_add q 1 with
  | None => None
  | Some q1 =>
  match checked_mul service q1 with
  | None => None
  | Some total =>
      let mean := total / 2 in
      match checked_mul service q with
      | None => None
      | Some tail =>
          match checked_add mean tail with
          | None => None
          | Some j => Some (mean, tail, j)
          end
      end
  end
  end.

(** The margin comparison, when the batch meets the deadline. *)
Definition compare_margin (batch_ns j_natural margin : Z) : Decision :=
  match checked_mul batch_ns 2 with
  | None => natural "natural_arithmetic_overflow"
  | Some j_batch =>
      if 1000000 <? margin then natural "natural_arithmetic_overflow"
      else match checked_mul j_batch 1000000 with
      | None => natural "natural_arithmetic_overflow"
      | Some lhs =>
      match checked_mul j_natural (1000000 - margin) with
      | None => natural "natural_arithmetic_overflow"
      | Some rhs =>
          if lhs <? rhs then batch "batch_existing_backlog"
          else if lhs =? rhs then natural "natural_tie"
          else natural "natural_no_positive_gain"
      end
      end
  end.

Definition decide_plan (i : GoldenDecisionInput) : Decision :=
  let q := queue_count i in
  if q =? 1 then natural "natural_single_request"
  else if negb (compatible i) then natural "natural_incompatible"
  else if negb (memory_ok i) then natural "natural_memory_bound"
  else if negb (evidence_warm i) then natural "natural_insufficient_evidence"
  else if evidence_stale i then natural "natural_stale_model"
  else match natural_objective_ns q (natural_service_lower_ns i) with
  | None => natural "natural_arithmetic_overflow"
  | Some (_, tail_natural, j_natural) =>
      let b := batch_completion_upper_ns i in
      let deadline := earliest_deadline_ns i in
      if deadline <? b then
        if tail_natural <=? deadline then natural "natural_deadline"
        else if b <? tail_natural then batch "batch_deadline_mitigation"
        else natural "natural_deadline_mitigation"
      else compare_margin b j_natural (decision_margin_ppm i)
  end.

(** ** Selection among batch sizes ([selector.rs]) *)

Definition CANDIDATE_POW2 : list Z := [1; 2; 4; 8; 16; 32; 64; 128; 256; 512; 1024].

Record CandidateBounds := {
  queued_count : Z;
  cb_entries_available : Z;
  maximum_batch_entries : Z;
  bytes_per_entry : Z;
  cb_bytes_available : Z;
  maximum_batch_bytes : Z;
  segment_room_entries : Z }.

Definition hard_limit (b : CandidateBounds) : Z :=
  Z.min (Z.min (Z.min (queued_count b) (cb_entries_available b)) (maximum_batch_entries b))
    (segment_room_entries b).

(** The loop over the powers of two; it breaks at the first one above [hard]. *)
Fixpoint pow2_loop (b : CandidateBounds) (hard : Z) (cs : list Z) : list Z :=
  match cs with
  | [] => []
  | c :: rest =>
      if hard <? c then []
      else
      let need := sat_mul (bytes_per_entry b) c in
      if (0 <? bytes_per_entry b)
         && ((cb_bytes_available b <? need) || (maximum_batch_bytes b <? need))
      then pow2_loop b hard rest
      else c :: pow2_loop b hard rest
  end.

(** [sort_unstable] on integers. *)
Fixpoint insert_z (x : Z) (l : list Z) : list Z :=
  match l with
  | [] => [x]
  | y :: rest => if x <=? y then x :: l else y :: insert_z x rest
  end.
Definition sort_z (l : list Z) : list Z := foldr insert_z [] l.

Definition candidate_entry_counts (b : CandidateBounds) : list Z :=
  let hard := hard_limit b in
  if hard =? 0 then [1]
  else
  let out := pow2_loop b hard CANDIDATE_POW2 in
  let out := if negb (bool_decide (1 ∈ out)) && (1 <=? hard) then 1 :: out else out in
  let q := Z.min (queued_count b) hard in
  let out :=
    if (1 <? q) && negb (bool_decide (q ∈ out)) then
      if (bytes_per_entry b =? 0)
         || (sat_mul (bytes_per_entry b) q <=? Z.min (cb_bytes_available b) (maximum_batch_bytes b))
      then sort_z (out ++ [q])
      else out
    else out in
  match out with [] => [1] | _ => out end.

Record Selection := { sel_plan : AwoPlan; entries : Z; sel_reason : string }.

(** The evidence that one call of [select_plan] passes to every decision. *)
Record Evidence := {
  service_lower : Z;
  margin : Z;
  warm : bool;
  stale : bool;
  compat : bool;
  deadline : Z }.

Definition decision_input (ev : Evidence) (n upper : Z) : GoldenDecisionInput := {|
  queue_count := n; natural_service_lower_ns := service_lower ev;
  batch_completion_upper_ns := upper; decision_margin_ppm := margin ev;
  evidence_warm := warm ev; evidence_stale := stale ev; compatible := compat ev;
  memory_ok := true; earliest_deadline_ns := deadline ev |}.

(** The search for the best winning batch: size, completion bound, reason. *)
Definition best_step (ev : Evidence) (upper : Z -> Z) (best : option (Z * Z * string)) (n : Z)
  : option (Z * Z * string) :=
  if n <=? 1 then best
  else
  let u := upper n in
  let d := decide_plan (decision_input ev n u) in
  match plan d with
  | Natural => best
  | Batch =>
      match best with
      | None => Some (n, u, reason d)
      | Some (bn, bj, _) =>
          if (u <? bj) || ((u =? bj) && (n <? bn)) then Some (n, u, reason d) else best
      end
  end.

(** [upper n] bounds the completion time of a batch of [n]. *)
Definition select_plan (b : CandidateBounds) (service_lower_ns ppm : Z)
    (is_warm is_stale is_compatible : bool) (deadline_ns : Z) (upper : Z -> Z) : Selection :=
  let m := if ppm =? 0 then DECISION_MARGIN_PPM_DEFAULT else ppm in
  let ev := {| service_lower := service_lower_ns; margin := m; warm := is_warm;
               stale := is_stale; compat := is_compatible; deadline := deadline_ns |} in
  if queued_count b <=? 1
  then {| sel_plan := Natural; entries := 1; sel_reason := "natural_single_request" |}
  else
  match fold_left (best_step ev upper) (candidate_entry_counts b) None with
  | Some (n, _, r) => {| sel_plan := Batch; entries := n; sel_reason := r |}
  | None =>
      let n := Z.max (Z.max (Z.min (queued_count b) (maximum_batch_entries b)) 1) 2 in
      let d := decide_plan (decision_input ev n (upper n)) in
      {| sel_plan := Natural; entries := 1; sel_reason := reason d |}
  end.

Definition collection_delay_ns (queued : Z) (is_warm predicts : bool) (max_delay : Z) : Z :=
  if 2 <=? queued then 0
  else if (queued =? 1) && is_warm && predicts then max_delay
  else 0.

(** ** The service estimator ([estimator.rs]) *)

Module Ewma.

Definition ALPHA_DENOMINATOR : Z := 8.
Definition DEVIATION_MULTIPLIER : Z := 3.

Record t := {
  mean_ns : Z;
  deviation_ns : Z;
  samples : Z;
  last_sample_at_ns : Z }.

Definition cold : t := {| mean_ns := 0; deviation_ns := 0; samples := 0; last_sample_at_ns := 0 |}.

(** [if v < 0 { 0 } else { v.min(u64::MAX) as u64 }]; division on [i128]
    truncates towards zero. *)
Definition clamp_u64 (v : Z) : Z := if v <? 0 then 0 else Z.min v U64_MAX.

Definition observe (e : t) (x now : Z) : t :=
  if samples e =? 0
  then {| mean_ns := x; deviation_ns := 0; samples := 1; last_sample_at_ns := now |}
  else
  let m := mean_ns e in
  let m' := m + Z.quot (x - m) ALPHA_DENOMINATOR in
  let abs_dev := Z.abs (x - m') in
  let d := deviation_ns e in
  let d' := d + Z.quot (abs_dev - d) ALPHA_DENOMINATOR in
  {| mean_ns := clamp_u64 m'; deviation_ns := clamp_u64 d';
     samples := sat_add32 (samples e) 1; last_sample_at_ns := now |}.

Definition lower_ns (e : t) : Z :=
  sat_sub (mean_ns e) (sat_mul (deviation_ns e) DEVIATION_MULTIPLIER).
Definition upper_ns (e : t) : Z :=
  sat_add (mean_ns e) (sat_mul (deviation_ns e) DEVIATION_MULTIPLIER).
Definition is_warm (e : t) (min_samples : Z) : bool := min_samples <=? samples e.
Definition is_stale (e : t) (now stale_after : Z) : bool :=
  if samples e =? 0 then true else stale_after <? sat_sub now (last_sample_at_ns e).
Definition is_usable (e : t) (now min_samples stale_after : Z) : bool :=
  is_warm e min_samples && negb (is_stale e now stale_after).

End Ewma.

(** [payload_bucket]; [63 - leading_zeros] is the binary logarithm. *)
Definition payload_bucket (payload_bytes cap : Z) : Z :=
  if payload_bytes =? 0 then 0
  else
  let pot := Z.shiftl 1 (Z.log2 payload_bytes) in
  let floor := if payload_bytes <? pot then Z.shiftr pot 1 else pot in
  let floor := Z.max floor 1 in
  if cap =? 0 then floor else Z.min floor cap.

(** ** The scale controller ([controller.rs]) *)

Module Controller.

Record ControllerPolicy := {
  interval_ns : Z;
  scale_up_consecutive : Z;
  scale_down_consecutive : Z;
  scale_up_utilization_ppm : Z;
  scale_down_utilization_ppm : Z;
  ready_queue_scale_down_ppm : Z;
  scale_up_dwell_ns : Z;
  scale_down_dwell_ns : Z;
  minimum_active_cookers : Z;
  maximum_cookers : Z }.

Definition machine_defaults (min_cookers max_cookers : Z) : ControllerPolicy := {|
  interval_ns := 100000000; scale_up_consecutive := 5; scale_down_consecutive := 20;
  scale_up_utilization_ppm := 800000; scale_down_utilization_ppm := 300000;
  ready_queue_scale_down_ppm := 750000; scale_up_dwell_ns := 500000000;
  scale_down_dwell_ns := 2000000000; minimum_active_cookers := Z.max min_cookers 1;
  maximum_cookers := Z.max max_cookers 1 |}.

Record ControllerSignals := {
  cook_queue_bytes_increased : bool;
  cooker_utilization_ppm : Z;
  writer_ready_increasing : bool;
  ready_queue_fill_ppm : Z;
  positive_marginal_throughput : bool;
  writer_saturated : bool;
  deadline_miss_from_cook : bool }.

Inductive ScaleDecision : Type := Hold | ScaleUp | ScaleDown.

Record t := {
  policy : ControllerPolicy;
  active_cookers : Z;
  up_streak : Z;
  down_streak : Z;
  last_scale_up_at_ns : option Z;
  last_scale_down_at_ns : option Z;
  last_eval_at_ns : option Z }.

(** [clamp] panics when its bounds are inverted. *)
Definition new (p : ControllerPolicy) (initial : Z) : option t :=
  if maximum_cookers p <? minimum_active_cookers p then None
  else Some {| policy := p;
               active_cookers := Z.min (Z.max initial (minimum_active_cookers p)) (maximum_cookers p);
               up_streak := 0; down_streak := 0; last_scale_up_at_ns := None;
               last_scale_down_at_ns := None; last_eval_at_ns := None |}.

Definition want_up (c : t) (s : ControllerSignals) : bool :=
  cook_queue_bytes_increased s
  && (scale_up_utilization_ppm (policy c) <=? cooker_utilization_ppm s)
  && negb (writer_ready_increasing s)
  && positive_marginal_throughput s
  && negb (writer_saturated s)
  && (active_cookers c <? maximum_cookers (policy c)).

Definition want_down (c : t) (s : ControllerSignals) : bool :=
  ((cooker_utilization_ppm s <=? scale_down_utilization_ppm (policy c))
   || (ready_queue_scale_down_ppm (policy c) <=? ready_queue_fill_ppm s))
  && negb (deadline_miss_from_cook s)
  && (minimum_active_cookers (policy c) <? active_cookers c).

(** [last] is more recent than [span] before [now]. *)
Definition within (last : option Z) (now span : Z) : bool :=
  match last with Some t => sat_sub now t <? span | None => false end.

Definition with_streaks (c : t) (now up down : Z) : t := {|
  policy := policy c; active_cookers := active_cookers c; up_streak := up; down_streak := down;
  last_scale_up_at_ns := last_scale_up_at_ns c; last_scale_down_at_ns := last_scale_down_at_ns c;
  last_eval_at_ns := Some now |}.

(** The streaks after looking at the signals of this interval. *)
Definition count_streaks (c : t) (s : ControllerSignals) (now : Z) : t :=
  if want_up c s then with_streaks c now (sat_add32 (up_streak c) 1) 0
  else if want_down c s then with_streaks c now 0 (sat_add32 (down_streak c) 1)
  else with_streaks c now 0 0.

Definition evaluate (c : t) (s : ControllerSignals) (now : Z) : ScaleDecision * t :=
  if within (last_eval_at_ns c) now (interval_ns (policy c)) then (Hold, c)
  else
  let c := count_streaks c s now in
  let p := policy c in
  if scale_up_consecutive p <=? up_streak c then
    if within (last_scale_up_at_ns c) now (scale_up_dwell_ns p) then (Hold, c)
    else if within (last_scale_down_at_ns c) now (scale_down_dwell_ns p) then (Hold, c)
    else (ScaleUp, {|
      policy := p; active_cookers := active_cookers c + 1; up_streak := 0;
      down_streak := down_streak c; last_scale_up_at_ns := Some now;
      last_scale_down_at_ns := last_scale_down_at_ns c; last_eval_at_ns := last_eval_at_ns c |})
  else if scale_down_consecutive p <=? down_streak c then
    if within (last_scale_down_at_ns c) now (scale_down_dwell_ns p) then (Hold, c)
    else if within (last_scale_up_at_ns c) now (scale_up_dwell_ns p) then (Hold, c)
    else (ScaleDown, {|
      policy := p; active_cookers := active_cookers c - 1; up_streak := up_streak c;
      down_streak := 0; last_scale_up_at_ns := last_scale_up_at_ns c;
      last_scale_down_at_ns := Some now; last_eval_at_ns := last_eval_at_ns c |})
  else (Hold, c).

End Controller.

(** ** The policy ([policy.rs]) *)

Module WritePolicy.

Inductive AdaptiveWriteMode : Type := Disabled | Static | Adaptive.

Record t := {
  mode : AdaptiveWriteMode;
  queue_byte_limit : Z;
  queue_entry_limit : Z;
  maximum_batch_bytes : Z;
  maximum_batch_entries : Z;
  maximum_collection_delay : Z;
  default_completion_deadline : Z;
  minimum_active_cookers : Z;
  maximum_cookers : Z;
  pipeline_depth_limit : Z;
  margin_ppm : Z;
  estimator_min_samples : Z;
  estimator_stale_after : Z }.

Inductive PolicyError : Type :=
| ZeroLimit | QueueSmallerThanBatch | BadPipelineDepth | TooManyCookers
| CollectionDelayTooLarge | DeadlineBeforeCollection | ActiveCookersOutOfRange.

(** [parallelism] is what [available_parallelism] reports, 1 when it fails. *)
Definition machine_defaults (parallelism : Z) : t := {|
  mode := Disabled; queue_byte_limit := 64 * 1024 * 1024; queue_entry_limit := 8192;
  maximum_batch_bytes := 16 * 1024 * 1024; maximum_batch_entries := 1024;
  maximum_collection_delay := 250000; default_completion_deadline := 30000000000;
  minimum_active_cookers := 1;
  maximum_cookers := Z.min (Z.max (sat_sub parallelism 1) 1) 16;
  pipeline_depth_limit := 2; margin_ppm := DECISION_MARGIN_PPM_DEFAULT;
  estimator_min_samples := 32; estimator_stale_after := 30000000000 |}.

Definition validate (p : t) : result PolicyError unit :=
  if (queue_byte_limit p =? 0) || (queue_entry_limit p =? 0) || (maximum_batch_bytes p =? 0)
     || (maximum_batch_entries p =? 0) || (maximum_cookers p =? 0)
  then Err ZeroLimit
  else if (queue_entry_limit p <? maximum_batch_entries p)
          || (queue_byte_limit p <? maximum_batch_bytes p)
  then Err QueueSmallerThanBatch
  else if negb ((1 <=? pipeline_depth_limit p) && (pipeline_depth_limit p <=? 4))
  then Err BadPipelineDepth
  else if 64 <? maximum_cookers p then Err TooManyCookers
  else if 10000000 <? maximum_collection_delay p then Err CollectionDelayTooLarge
  else if default_completion_deadline p <? maximum_collection_delay p
  then Err DeadlineBeforeCollection
  else if (minimum_active_cookers p =? 0) || (maximum_cookers p <? minimum_active_cookers p)
  then Err ActiveCookersOutOfRange
  else Ok tt.

End WritePolicy.
