(* ===== verification/AdaptiveWriteFacts.v ===== *)
(** * Facts about the adaptive write path

    The credit ledger never exceeds its limits and accounts for every grant;
    the ready ring delivers tickets in order and without gaps; the reservation
    pipeline keeps its depth and drains after a shutdown; estimates stay
    between the samples they summarise; a selected batch respects the bounds
    and pays for itself; the scale controller stays within its range. *)
From S2P Require Import Prelude AdaptiveWrite.
Open Scope string_scope.
Open Scope list_scope.
Open Scope Z_scope.

(** Closes the bounds of a concrete list of calls. *)
Ltac u64_bounds :=
  repeat (apply Forall_cons_2 || apply Forall_nil_2); simpl; unfold in_u64, U64_MAX;
  try done; lia.

(** ** Credits *)

Module CreditFacts.
Import Credits.

Inductive op : Type := Reserve (e b : Z) | Release (e b : Z).

Definition op_ok (o : op) : Prop :=
  match o with Reserve e b | Release e b => in_u64 e /\ in_u64 b end.
Definition step (s : t) (o : op) : result CreditError unit * t :=
  match o with Reserve e b => try_reserve s e b | Release e b => release s e b end.

(** What a successful call adds to the entries and bytes in use. *)
Definition effect (o : op) : Z * Z :=
  match o with Reserve e b => (e, b) | Release e b => (- e, - b) end.

(** A sequence of calls, with the sums of what the successful ones took. *)
Fixpoint run (s : t) (acc : Z * Z) (ops : list op) : t * (Z * Z) :=
  match ops with
  | [] => (s, acc)
  | o :: rest =>
      match step s o with
      | (Ok _, s') => run s' (acc.1 + (effect o).1, acc.2 + (effect o).2) rest
      | (Err _, s') => run s' acc rest
      end
  end.

Definition inv (s : t) : Prop :=
  in_u64 (entry_limit s) /\ in_u64 (byte_limit s)
  /\ 0 <= entries_used s <= entry_limit s /\ 0 <= bytes_used s <= byte_limit s.

Lemma try_reserve_ok s e b :
  inv s -> (try_reserve s e b).1 = Ok tt <->
  entries_used s + e <= entry_limit s /\ bytes_used s + b <= byte_limit s.
Proof.
  unfold inv, try_reserve, checked_add, in_u64. intros (? & ? & ? & ?).
  repeat case_match; boolify; simpl in *; simplify_eq; split; naive_solver lia.
Qed.

Lemma release_ok s e b :
  (release s e b).1 = Ok tt <-> e <= entries_used s /\ b <= bytes_used s.
Proof.
  unfold release. destruct (entries_used s <? e) eqn:?, (bytes_used s <? b) eqn:?;
    boolify; simpl; split; naive_solver lia.
Qed.

Lemma credit_step_inv s o : inv s -> op_ok o ->
  let '(r, s') := step s o in
  inv s' /\ entry_limit s' = entry_limit s /\ byte_limit s' = byte_limit s
  /\ match r with
     | Ok _ => entries_used s' = entries_used s + (effect o).1
               /\ bytes_used s' = bytes_used s + (effect o).2
     | Err _ => s' = s
     end.
Proof.
  unfold inv, in_u64. intros (? & ? & ? & ?). destruct o as [e b|e b]; simpl;
    unfold in_u64; intros [? ?]; unfold try_reserve, release, checked_add, in_u64;
    repeat case_match; simplify_eq; try (split_and!; done || lia);
    repeat (apply orb_false_iff in H3 as [? ?]); boolify; simpl; split_and!; lia.
Qed.

Lemma credit_run_inv ops : forall s acc,
  inv s -> Forall op_ok ops -> entries_used s = acc.1 -> bytes_used s = acc.2 ->
  let '(s', acc') := run s acc ops in
  inv s' /\ entry_limit s' = entry_limit s /\ byte_limit s' = byte_limit s
  /\ entries_used s' = acc'.1 /\ bytes_used s' = acc'.2.
Proof.
  induction ops as [|o ops IH]; intros s acc Hs Hops He Hb; simpl; [done|].
  apply Forall_cons in Hops as [Ho Hops].
  pose proof (credit_step_inv s o Hs Ho) as Hstep. destruct (step s o) as [[u|er] s'].
  - destruct Hstep as (Hs' & <- & <- & He' & Hb'). apply IH; simpl; auto; lia.
  - destruct Hstep as (Hs' & _ & _ & ->). by apply IH.
Qed.

(** C16. Over any sequence of reservations and releases on a fresh ledger, what
    is in use is exactly what was granted minus what was returned, never
    negative and never above either limit; a reservation is granted exactly
    when it fits both limits, a failing call changes nothing, and returning
    what is in use makes the whole capacity available again. *)
Theorem credit_ledger el bl ops :
  in_u64 el -> in_u64 bl -> Forall op_ok ops ->
  let '(s, (e, b)) := run (new el bl) (0, 0) ops in
  entries_used s = e /\ bytes_used s = b /\ 0 <= e <= el /\ 0 <= b <= bl
  /\ entries_available s = el - e /\ bytes_available s = bl - b
  /\ (forall e' b', (try_reserve s e' b').1 = Ok tt <-> e + e' <= el /\ b + b' <= bl)
  /\ (forall o err s', op_ok o -> step s o = (Err err, s') -> s' = s)
  /\ release s e b = (Ok tt, new el bl).
Proof.
  intros Hel Hbl Hops.
  assert (Hnew : inv (new el bl)) by (unfold inv, in_u64 in *; simpl; lia).
  pose proof (credit_run_inv ops (new el bl) (0, 0) Hnew Hops eq_refl eq_refl) as H.
  destruct (run _ _ ops) as [s [e b]]. simpl in H. destruct H as (Hs & Hle & Hlb & <- & <-).
  pose proof Hs as (_ & _ & He & Hb). rewrite Hle in He. rewrite Hlb in Hb.
  unfold entries_available, bytes_available, sat_sub. rewrite Hle, Hlb.
  split_and!; try done; try lia.
  - intros e' b'. rewrite (try_reserve_ok s e' b' Hs), Hle, Hlb. done.
  - intros o err s' Ho Hst. pose proof (credit_step_inv s o Hs Ho) as Hx. rewrite Hst in Hx. tauto.
  - unfold release, with_used, new. rewrite !Z.ltb_irrefl, !Z.sub_diag. simpl. by rewrite Hle, Hlb.
Qed.
Lemma credit_ledger_witness :
  run (new 2 1000) (0, 0) [Reserve 1 600; Reserve 1 600; Reserve 1 400; Release 1 600]
    = ({| entry_limit := 2; byte_limit := 1000; entries_used := 1; bytes_used := 400 |}, (1, 400))
  /\ 0 <= 1 <= 2.
Proof.
  set (ops := [Reserve 1 600; Reserve 1 600; Reserve 1 400; Release 1 600]).
  assert (Hrun : run (new 2 1000) (0, 0) ops
    = ({| entry_limit := 2; byte_limit := 1000; entries_used := 1; bytes_used := 400 |}, (1, 400)))
    by reflexivity.
  split; [exact Hrun|].
  assert (Hu : Forall op_ok ops) by u64_bounds.
  pose proof (credit_ledger 2 1000 ops ltac:(unfold in_u64, U64_MAX; lia)
    ltac:(unfold in_u64, U64_MAX; lia) Hu) as H.
  rewrite Hrun in H. destruct H as (_ & _ & He & _). exact He.
Defined.

(** The byte price of a mutation is the exact sum, or an overflow error. *)
Lemma mutation_credit_exact sl bl : 0 <= sl -> 0 <= bl ->
  let total := sl + bl + FRAME_FRAMING_OVERHEAD + 512 in
  mutation_credit sl bl = if total <=? U64_MAX then Ok total else Err Overflow.
Proof.
  intros ? ? total. unfold mutation_credit, and_then, checked_add, ENVELOPE_FIXED_OVERHEAD,
    REQUEST_META_OVERHEAD, COMPLETION_SLOT_OVERHEAD in *. subst total.
  assert (0 <= FRAME_FRAMING_OVERHEAD) by (vm_compute; discriminate).
  repeat case_match; boolify; simplify_eq; try done; try lia; f_equal; lia.
Qed.
End CreditFacts.

(** ** The ready ring *)

Module RingFacts.
Import ReadyRing.

Section Ring.
Context {T : Type}.

Inductive op : Type := Push (ticket : Z) (outcome : T) (bytes : Z) | Pop.

(** A sequence of calls with the outcomes delivered and the pushes accepted,
    both in order. *)
Definition step (st : t T * list (Z * T) * list (Z * T)) (o : op)
  : t T * list (Z * T) * list (Z * T) :=
  let '(s, popped, pushed) := st in
  match o with
  | Push k x b =>
      match push s k x b with
      | (Ok _, s') => (s', popped, pushed ++ [(k, x)])
      | (Err _, s') => (s', popped, pushed)
      end
  | Pop =>
      match try_pop_next s with
      | (Some d, s') => (s', popped ++ [d], pushed)
      | (None, s') => (s', popped, pushed)
      end
  end.
Definition run := fold_left step.

Definition op_ok (o : op) : Prop :=
  match o with Push k _ b => in_u64 k /\ in_u64 b | Pop => True end.

Definition held (m : gmap Z (T * Z)) : Z := map_fold (fun _ p acc => p.2 + acc) 0 m.

Lemma held_insert m k p : m !! k = None -> held (<[k := p]> m) = p.2 + held m.
Proof.
  intros Hk. unfold held. rewrite map_fold_insert_L; [done| |done]. intros. lia.
Qed.
Lemma held_delete m k p : m !! k = Some p -> held m = p.2 + held (delete k m).
Proof.
  intros Hk. unfold held. rewrite (map_fold_delete_L _ _ k p m); [done| |done]. intros. lia.
Qed.

(** [first]: the first ticket; the state, what was delivered, what was accepted. *)
Record inv (first limit : Z) (s : t T) (popped pushed : list (Z * T)) : Prop := {
  i_next : next_expected s = first + Z.of_nat (length popped);
  i_order : map fst popped = seqZ first (Z.of_nat (length popped));
  i_src : forall d, d ∈ popped -> d ∈ pushed;
  i_buf : forall k x b, ready s !! k = Some (x, b) -> (k, x) ∈ pushed /\ 0 <= b;
  i_kept : forall k x, (k, x) ∈ pushed -> (k, x) ∈ popped \/ exists b, ready s !! k = Some (x, b);
  i_held : bytes_held s = held (ready s);
  i_bound : 0 <= bytes_held s <= limit;
  i_limit : byte_limit s = limit }.

Lemma held_nonneg (m : gmap Z (T * Z)) :
  (forall k x b, m !! k = Some (x, b) -> 0 <= b) -> 0 <= held m.
Proof.
  induction m as [|k [x b] m Hk IH] using map_ind; intros Hm; [done|].
  rewrite held_insert by done. simpl.
  assert (0 <= b) by (eapply Hm, lookup_insert_eq).
  enough (0 <= held m) by lia. apply IH. intros k' x' b' Hk'.
  apply (Hm k' x'). rewrite lookup_insert_ne; [done|]. intros ->. congruence.
Qed.

Lemma push_inv first limit s popped pushed k x b :
  inv first limit s popped pushed -> in_u64 b ->
  match push s k x b with
  | (Ok _, s') => inv first limit s' popped (pushed ++ [(k, x)])
  | (Err _, s') => s' = s
  end.
Proof.
  intros [] [Hb _]. unfold push. destruct (ready s !! k) as [p|] eqn:Hk; [done|].
  destruct (checked_add (bytes_held s) b) as [nb|] eqn:Hc; [|done].
  unfold checked_add in Hc. destruct (_ <=? U64_MAX); simplify_eq.
  destruct (byte_limit s <? bytes_held s + b) eqn:Hl; [done|]. boolify.
  split; simpl; try done; try lia.
  - intros d Hd. apply elem_of_app. auto.
  - intros k' x' b' Hk'. destruct (decide (k' = k)) as [->|Hne].
    + rewrite lookup_insert_eq in Hk'. simplify_eq. set_solver.
    + rewrite lookup_insert_ne in Hk' by done. apply i_buf0 in Hk'. set_solver.
  - intros k' x' [Hin|Hin%list_elem_of_singleton]%elem_of_app.
    + destruct (i_kept0 _ _ Hin) as [?|[b' Hb']]; [by left|]. right. exists b'.
      rewrite lookup_insert_ne; [done|]. intros ->. congruence.
    + simplify_eq. right. exists b. apply lookup_insert_eq.
  - rewrite held_insert by done. simpl. lia.
Qed.

Lemma pop_inv first limit s popped pushed :
  inv first limit s popped pushed -> first + Z.of_nat (length popped) < U64_MAX ->
  match try_pop_next s with
  | (Some d, s') => inv first limit s' (popped ++ [d]) pushed
                    /\ d.1 = next_expected s /\ ready s' = delete (next_expected s) (ready s)
                    /\ next_expected s' = next_expected s + 1
  | (None, s') => s' = s /\ ready s !! next_expected s = None
  end.
Proof.
  intros [] Hmax. unfold try_pop_next.
  destruct (ready s !! next_expected s) as [[x b]|] eqn:Hk; [|done].
  assert (Hadd : sat_add (next_expected s) 1 = next_expected s + 1)
    by (unfold sat_add; lia).
  destruct (i_buf0 _ _ _ Hk) as [Hin Hb].
  pose proof (held_delete _ _ _ Hk) as Hheld. simpl in Hheld.
  assert (Hrest : 0 <= held (delete (next_expected s) (ready s))).
  { apply held_nonneg. intros k' x' b' Hk'. apply lookup_delete_Some in Hk' as [_ Hk'].
    by destruct (i_buf0 _ _ _ Hk'). }
  split; [|done]. split; simpl; try done.
  - rewrite length_app, Hadd. simpl. lia.
  - rewrite map_app, i_order0, length_app. simpl.
    rewrite Nat2Z.inj_add, seqZ_app by lia. f_equal. by rewrite i_next0.
  - intros d [Hd|Hd%list_elem_of_singleton]%elem_of_app; [auto|]. by subst.
  - intros k' x' b' Hk'. apply lookup_delete_Some in Hk' as [_ Hk']. eauto.
  - intros k' x' Hin'. rewrite elem_of_app.
    destruct (i_kept0 _ _ Hin') as [?|[b' Hb']]; [by left; left|].
    destruct (decide (k' = next_expected s)) as [->|Hne].
    + rewrite Hk in Hb'. simplify_eq. left. right. by apply list_elem_of_singleton.
    + right. exists b'. by rewrite lookup_delete_ne.
  - unfold sat_sub. lia.
  - unfold sat_sub. lia.
Qed.

Lemma ring_run_inv first limit ops : forall s popped pushed,
  inv first limit s popped pushed -> Forall op_ok ops ->
  first + Z.of_nat (length popped) + Z.of_nat (length ops) <= U64_MAX ->
  let '(s', popped', pushed') := run ops (s, popped, pushed) in
  inv first limit s' popped' pushed'
  /\ (length popped' <= length popped + length ops)%nat.
Proof.
  induction ops as [|o ops IH]; intros s popped pushed Hs Hops Hmax; [simpl; split; [done|lia]|].
  apply Forall_cons in Hops as [Ho Hops]. cbn [length] in Hmax.
  cbn [run fold_left]. destruct o as [k x b|]; simpl.
  - destruct Ho as [_ Hb]. pose proof (push_inv first limit s popped pushed k x b Hs Hb) as Hp.
    destruct (push s k x b) as [[u|e] s'];
      [specialize (IH _ _ _ Hp Hops ltac:(lia))
      |subst s'; specialize (IH _ _ _ Hs Hops ltac:(lia))];
      (destruct (run _ _) as [[? ?] ?]; destruct IH; split; [done|lia]).
  - pose proof (pop_inv first limit s popped pushed Hs ltac:(lia)) as Hp.
    destruct (try_pop_next s) as [[d|] s'].
    + destruct Hp as [Hp _]. specialize (IH _ _ _ Hp Hops).
      rewrite length_app in IH. simpl in IH. specialize (IH ltac:(lia)).
      destruct (run _ _) as [[? ?] ?]. destruct IH; split; [done|lia].
    + destruct Hp as [-> _]. specialize (IH _ _ _ Hs Hops ltac:(lia)).
      destruct (run _ _) as [[? ?] ?]. destruct IH; split; [done|lia].
Qed.

(** Popping [n] times delivers the next [n] tickets when all are buffered. *)
Lemma drain_ready first limit n : forall s popped pushed,
  inv first limit s popped pushed ->
  first + Z.of_nat (length popped) + Z.of_nat n < U64_MAX ->
  (forall k, next_expected s <= k < next_expected s + Z.of_nat n -> is_Some (ready s !! k)) ->
  let '(s', popped', _) := run (repeat Pop n) (s, popped, pushed) in
  length popped' = (length popped + n)%nat
  /\ map fst popped' = seqZ first (Z.of_nat (length popped')).
Proof.
  induction n as [|n IH]; intros s popped pushed Hs Hmax Hrdy.
  - simpl. rewrite Nat.add_0_r. split; [done|apply Hs].
  - cbn [repeat run fold_left step].
    pose proof (pop_inv first limit s popped pushed Hs ltac:(lia)) as Hp.
    destruct (try_pop_next s) as [[d|] s'].
    + destruct Hp as (Hp & _ & Hr & Hn). specialize (IH _ _ _ Hp).
      rewrite length_app in IH. cbn [length] in IH. specialize (IH ltac:(lia)).
      rewrite Hr, Hn in IH.
      assert (Hk : forall k, next_expected s + 1 <= k < next_expected s + 1 + Z.of_nat n ->
        is_Some (delete (next_expected s) (ready s) !! k)).
      { intros k Hk. rewrite lookup_delete_ne by lia. apply Hrdy. lia. }
      specialize (IH Hk). destruct (run _ _) as [[? ?] ?].
      destruct IH as [? ?]. split; [lia|done].
    + destruct Hp as [_ Hnone]. destruct (Hrdy (next_expected s) ltac:(lia)) as [? ?]. congruence.
Qed.

Lemma ring_new_inv first limit : 0 <= limit -> inv first limit (new first limit) [] [].
Proof.
  intros. split; simpl; try done; try lia; set_solver.
Qed.

(** An accepted ticket that is still due is buffered. *)
Lemma due_is_ready first limit s popped pushed k x :
  inv first limit s popped pushed -> (k, x) ∈ pushed -> next_expected s <= k ->
  is_Some (ready s !! k).
Proof.
  intros [] Hin Hk. destruct (i_kept0 _ _ Hin) as [Hp|[b ->]]; [|done].
  apply (list_elem_of_fmap_2 fst) in Hp.
  change (fst <$> popped) with (map fst popped) in Hp. rewrite i_order0 in Hp.
  simpl in Hp. apply elem_of_seqZ in Hp. lia.
Qed.

(** Whatever way pushes and pops of the ready ring interleave, the delivered
    tickets are the first one and its successors, in order and without gap or
    repetition, each with an outcome that was accepted for it; an accepted
    outcome is never lost, and the bytes held are those of the buffered
    outcomes, within the limit.  When an outcome has been accepted for each of
    the next [n] tickets, [n] pops deliver all of them. *)
Theorem ready_ring_delivery first limit (ops : list op) n :
  0 <= limit -> Forall op_ok ops ->
  first + Z.of_nat (length ops) + Z.of_nat n < U64_MAX ->
  let '(s, popped, pushed) := run ops (new first limit, [], []) in
  map fst popped = seqZ first (Z.of_nat (length popped))
  /\ (forall d, d ∈ popped -> d ∈ pushed)
  /\ (forall k x, (k, x) ∈ pushed -> (k, x) ∈ popped \/ exists b, ready s !! k = Some (x, b))
  /\ bytes_held s = held (ready s) /\ 0 <= bytes_held s <= limit
  /\ ((forall k, next_expected s <= k < next_expected s + Z.of_nat n ->
         exists x, (k, x) ∈ pushed) ->
      let '(_, popped', _) := run (repeat Pop n) (s, popped, pushed) in
      map fst popped' = seqZ first (Z.of_nat (length popped + n))).
Proof.
  intros Hl Hops Hmax.
  pose proof (ring_run_inv first limit ops _ _ _ (ring_new_inv first limit Hl) Hops) as H.
  cbn [length] in H. specialize (H ltac:(lia)).
  destruct (run ops _) as [[s popped] pushed]. destruct H as [Hs Hlen].
  pose proof Hs as []. split_and!; try done; try lia.
  intros Hdue. pose proof (drain_ready first limit n s popped pushed Hs ltac:(lia)) as Hd.
  destruct (run (repeat Pop n) _) as [[s' popped'] pushed'].
  destruct Hd as [Hlen' Hseq].
  - intros k Hk. destruct (Hdue k Hk) as [x Hx]. eapply due_is_ready; [done..|lia].
  - by rewrite Hseq, Hlen'.
Qed.
End Ring.

Lemma ready_ring_delivery_witness :
  let ops := [Push 8 "b" 10; Pop; Push 7 "a" 20; Push 9 "c" 5; Pop] in
  let '(_, popped, _) := run ops (new 7 100, [], []) in
  let '(_, popped', _) := run (ops ++ repeat Pop 2) (new 7 100, [], []) in
  popped = [(7, "a")] /\ map fst popped' = seqZ 7 3.
Proof.
  intros ops. split; [reflexivity|].
  assert (Hops : Forall op_ok ops) by u64_bounds.
  assert (Hl : 0 <= 100) by lia.
  assert (Hm : 7 + Z.of_nat (length ops) + Z.of_nat 2 < U64_MAX) by (vm_compute; reflexivity).
  pose proof (ready_ring_delivery 7 100 ops 2 Hl Hops Hm) as H.
  vm_compute in H. vm_compute. apply H. clear. intros k Hk.
  assert (Hc : k = 8 \/ k = 9) by (change (8 <= k < 10) in Hk; lia).
  destruct Hc as [->| ->]; eexists; [left|right; right; left].
Defined.

(** A ticket below the next expected one is accepted, is never delivered and
    holds its bytes until the ring is dropped. *)
Example stale_ticket_held :
  let '(s, popped, _) := run ([Push 7 "a" 20; Pop; Push 7 "again" 30] ++ repeat Pop 5)
                           (new 7 100, [], []) in
  popped = [(7, "a")] /\ bytes_held s = 30 /\ buffered_count s = 1%nat
  /\ next_is_ready s = false.
Proof. vm_compute. repeat split. Qed.
End RingFacts.

(** ** The bounded queue *)

Module QueueFacts.
Import BoundedQueue.

Section Queue.
Context {T : Type}.

Inductive op : Type := Push (x : T) | Pop | Close.

(** The queue, the items taken and the items accepted. *)
Definition step (st : t T * list T * list T) (o : op) : t T * list T * list T :=
  let '(q, out, acc) := st in
  match o with
  | Push x => match try_push q x with
              | (Ok _, q') => (q', out, acc ++ [x])
              | (Err _, q') => (q', out, acc)
              end
  | Pop => match try_pop q with
           | (Some x, q') => (q', out ++ [x], acc)
           | (None, q') => (q', out, acc)
           end
  | Close => (shutdown q, out, acc)
  end.

(** The queue is first in, first out, loses nothing and respects its capacity. *)
Lemma queue_fifo cap ops :
  let '(q, out, acc) := fold_left step ops (new cap, [], []) in
  acc = out ++ items q /\ (length (items q) <= cap)%nat /\ capacity q = cap.
Proof.
  set (P := fun st : t T * list T * list T => let '(q, out, acc) := st in
    acc = out ++ items q /\ (length (items q) <= cap)%nat /\ capacity q = cap).
  enough (H : forall st, P st -> P (fold_left step ops st)).
  { specialize (H (new cap, [], [])). destruct (fold_left _ _ _) as [[q out] acc].
    apply H. simpl. split_and!; [done|lia|done]. }
  induction ops as [|o ops IH]; [done|]. intros [[q out] acc] (-> & Hl & Hc). apply IH.
  destruct o as [x| |]; simpl.
  - unfold try_push. repeat case_match; simplify_eq; [done..|]. simpl.
    apply Nat.leb_gt in H1. rewrite length_app. simpl. split_and!; [by rewrite app_assoc|lia|done].
  - unfold try_pop. destruct (items q) as [|x rest] eqn:Hi; simpl; rewrite ?Hi; [done|].
    simpl in Hl. split_and!; [by rewrite <- app_assoc|lia|done].
  - done.
Qed.
End Queue.
End QueueFacts.

(** ** The reservation pipeline *)

Module PipelineFacts.
Import Pipeline.

Inductive op : Type :=
| Begin | CookDone (id : Z) | InstallDone (id : Z) | Aborted (id : Z) | Seal | Unseal | Shutdown.

Definition step (s : t) (o : op) : t :=
  match o with
  | Begin => (try_begin_reservation s).2
  | CookDone id => (note_cook_complete s id).2
  | InstallDone id => (note_install_complete s id).2
  | Aborted id => (abort_reservation s id).2
  | Seal => begin_seal s
  | Unseal => end_seal s
  | Shutdown => begin_shutdown s
  end.
Definition run (ops : list op) (s : t) : t := fold_left step ops s.

(** The calls that take one reservation to its end. *)
Definition completion (r : InFlight) : list op :=
  match phase r with
  | Cooking => [CookDone (fl_id r); InstallDone (fl_id r)]
  | Installing => [InstallDone (fl_id r)]
  end.

Record inv (s : t) : Prop := {
  i_depth : (1 <= depth_limit s <= 4)%nat;
  i_len : (length (in_flight s) <= depth_limit s)%nat;
  i_nodup : NoDup (in_flight_ids s);
  i_next : 1 <= next_id s;
  i_ids : forall id, id ∈ in_flight_ids s -> 1 <= id < next_id s }.

Lemma locate_Some id l before r after :
  locate id l = Some (before, r, after) -> l = before ++ r :: after /\ fl_id r = id.
Proof.
  revert before. induction l as [|x l IH]; intros before H; simpl in H; [done|].
  destruct (fl_id x =? id) eqn:Hx; [boolify; by simplify_eq|].
  destruct (locate id l) as [[[b' r'] a']|]; simplify_eq.
  destruct (IH b' eq_refl) as [-> Hr]. done.
Qed.

Lemma locate_split id before r after :
  id ∉ map fl_id before -> fl_id r = id ->
  locate id (before ++ r :: after) = Some (before, r, after).
Proof.
  intros Hnot <-. induction before as [|x before IH]; simpl.
  - by rewrite Z.eqb_refl.
  - simpl in Hnot. apply not_elem_of_cons in Hnot as [Hne Hnot].
    rewrite (proj2 (Z.eqb_neq (fl_id x) (fl_id r))) by congruence. by rewrite (IH Hnot).
Qed.

(** Changing the phase of one reservation or removing it keeps the invariant. *)
Lemma edit_inv s l :
  inv s -> sublist (map fl_id l) (in_flight_ids s) -> inv (with_flight s l).
Proof.
  intros [] Hsub. split; simpl; try done.
  - apply sublist_length in Hsub. unfold in_flight_ids in Hsub. rewrite !length_map in Hsub. lia.
  - by eapply sublist_NoDup.
  - intros id Hid. apply i_ids0. eapply elem_of_submseteq; [done|].
    by apply sublist_submseteq.
Qed.


Lemma begin_inv s :
  inv s -> next_id s + 1 < 2 ^ 64 ->
  inv (step s Begin) /\ next_id (step s Begin) <= next_id s + 1
  /\ depth_limit (step s Begin) = depth_limit s.
Proof.
  intros Hs Hmax. simpl. unfold try_begin_reservation.
  destruct (shutting_down s); [simpl; split_and!; [done|lia|done]|].
  destruct (sealing s); [simpl; split_and!; [done|lia|done]|].
  destruct (depth_limit s <=? length (in_flight s))%nat eqn:Hd;
    [simpl; split_and!; [done|lia|done]|].
  apply Nat.leb_gt in Hd. destruct Hs. cbn [snd next_id depth_limit].
  rewrite Z.mod_small by lia. split; [|split; [lia|done]].
  unfold in_flight_ids in *. split; unfold in_flight_ids; cbn [next_id in_flight depth_limit];
    rewrite ?map_app, ?length_app; cbn [map length fl_id]; try lia.
  - apply NoDup_app. split; [done|]. split; [|apply NoDup_singleton].
    intros id Hid ->%list_elem_of_singleton. specialize (i_ids0 _ Hid). lia.
  - intros id [Hid| ->%list_elem_of_singleton]%elem_of_app; [specialize (i_ids0 _ Hid)|]; lia.
Qed.

Ltac removed_sublist :=
  unfold in_flight_ids;
  match goal with Heq : in_flight _ = _ |- _ => rewrite Heq end;
  rewrite !map_app; apply sublist_app; [done|]; simpl; by repeat constructor.

Lemma pipe_step_inv s o :
  inv s -> next_id s + 1 < 2 ^ 64 ->
  inv (step s o) /\ next_id (step s o) <= next_id s + 1
  /\ depth_limit (step s o) = depth_limit s.
Proof.
  intros Hs Hmax. destruct o as [|id|id|id| | |]; [by apply begin_inv| | | | | |]; simpl;
    [unfold note_cook_complete|unfold note_install_complete|unfold abort_reservation| | |];
    [destruct (locate id (in_flight s)) as [[[before r] after]|] eqn:Hl;
       [apply locate_Some in Hl as [Hl Hid]|]..| | |];
    try (case_match); cbn [snd]; (split; [|split; [simpl; lia|done]]); try done;
    try (apply edit_inv; [done|]).
  - removed_sublist.
  - removed_sublist.
  - removed_sublist.
  - by destruct Hs.
  - by destruct Hs.
  - by destruct Hs.
Qed.

Lemma pipe_run_inv ops : forall s,
  inv s -> next_id s + Z.of_nat (length ops) < 2 ^ 64 ->
  inv (run ops s) /\ depth_limit (run ops s) = depth_limit s.
Proof.
  induction ops as [|o ops IH]; intros s Hs Hmax; [done|]. cbn [length] in Hmax.
  destruct (pipe_step_inv s o Hs ltac:(lia)) as (Hs' & Hn & Hd).
  simpl. rewrite <- Hd. apply IH; [done|lia].
Qed.

(** Completing a reservation removes it and nothing else. *)
Lemma completion_removes s r :
  inv s -> r ∈ in_flight s ->
  exists before after, in_flight s = before ++ r :: after
    /\ run (completion r) s = with_flight s (before ++ after).
Proof.
  intros [] Hr. apply list_elem_of_split in Hr as (before & after & Heq).
  exists before, after. split; [done|].
  assert (Hnot : fl_id r ∉ map fl_id before).
  { intros Hin. unfold in_flight_ids in i_nodup0. rewrite Heq, map_app in i_nodup0.
    apply NoDup_app in i_nodup0 as (_ & Hd & _). eapply Hd; [done|]. simpl. by left. }
  unfold completion. destruct (phase r) eqn:Hp; simpl.
  - unfold note_cook_complete. rewrite Heq, (locate_split _ _ r) by done. rewrite Hp. simpl.
    unfold note_install_complete. simpl.
    rewrite (locate_split _ before {| fl_id := fl_id r; phase := Installing |}) by done.
    reflexivity.
  - unfold note_install_complete. rewrite Heq, (locate_split _ _ r) by done. by rewrite Hp.
Qed.

Lemma drain order : forall s,
  inv s -> Permutation order (in_flight s) ->
  in_flight (run (flat_map completion order) s) = [].
Proof.
  induction order as [|r order IH]; intros s Hs Hp.
  - apply Permutation_nil in Hp. simpl. done.
  - assert (Hr : r ∈ in_flight s) by (rewrite <- Hp; left).
    destruct (completion_removes s r Hs Hr) as (before & after & Heq & Hrun).
    simpl. unfold run. rewrite fold_left_app. fold (run (completion r) s). rewrite Hrun.
    apply IH.
    + apply edit_inv; [done|]. removed_sublist.
    + simpl. rewrite Heq in Hp. by apply Permutation_cons_app_inv in Hp.
Qed.

(** After a shutdown nothing new starts. *)
Lemma shutdown_no_new ops : forall s,
  shutting_down s = true ->
  shutting_down (run ops s) = true
  /\ (length (in_flight (run ops s)) <= length (in_flight s))%nat.
Proof.
  induction ops as [|o ops IH]; intros s Hs; [simpl; auto with lia|].
  enough (shutting_down (step s o) = true
    /\ (length (in_flight (step s o)) <= length (in_flight s))%nat) as [Hs' Hl].
  { destruct (IH _ Hs') as [? ?]. simpl. split; [done|lia]. }
  destruct o as [|id|id|id| | |]; simpl;
    [unfold try_begin_reservation; rewrite Hs|unfold note_cook_complete
    |unfold note_install_complete|unfold abort_reservation| | |]; try (simpl; split; [done|lia]);
    (destruct (locate id (in_flight s)) as [[[before r] after]|] eqn:Hl;
       [apply locate_Some in Hl as [Hl Hid]|]); try case_match; cbn [snd];
    (split; [done|]); simpl; rewrite ?Hl, ?length_app; simpl; lia.
Qed.

Lemma pipe_new_inv limit : inv (new limit).
Proof. split; simpl; [lia|lia|constructor|lia|set_solver]. Qed.

Lemma shutdown_inv s : inv s -> inv (begin_shutdown s).
Proof. by intros []. Qed.

(** Whatever calls reach the pipeline, at most [depth_limit] (between 1 and 4)
    reservations are in flight, under distinct ids, and one begins exactly when
    neither a seal nor a shutdown is in progress and the depth allows it.  Once
    a shutdown begins no call makes the number in flight grow, and completing
    the reservations in flight, in any order, empties the pipeline. *)
Theorem pipeline_drains limit ops ops' order :
  Z.of_nat (length ops) < 2 ^ 64 - 1 ->
  let s := run ops (new limit) in
  Permutation order (in_flight s) ->
  depth_limit s = Nat.min (Nat.max limit 1) 4
  /\ (length (in_flight s) <= depth_limit s)%nat /\ NoDup (in_flight_ids s)
  /\ ((exists id s', try_begin_reservation s = (Ok id, s'))
      <-> shutting_down s = false /\ sealing s = false
          /\ (length (in_flight s) < depth_limit s)%nat)
  /\ (length (in_flight (run ops' (begin_shutdown s))) <= length (in_flight s))%nat
  /\ in_flight (run (flat_map completion order) (begin_shutdown s)) = [].
Proof.
  intros Hmax s Hp.
  destruct (pipe_run_inv ops (new limit) (pipe_new_inv limit)) as [Hs Hd]; [simpl; lia|]. fold s in Hs, Hd.
  split_and!; [done|apply Hs|apply Hs| |by apply (shutdown_no_new ops' (begin_shutdown s))
    |by apply drain; [apply shutdown_inv|]].
  unfold try_begin_reservation.
  destruct (shutting_down s), (sealing s), (depth_limit s <=? length (in_flight s))%nat eqn:Hl;
    (apply Nat.leb_le in Hl || apply Nat.leb_gt in Hl);
    split; [naive_solver lia|intros (? & ? & ?); done || lia || eauto ..].
Qed.
Lemma pipeline_drains_witness :
  let s := run [Begin; Begin; CookDone 1; Begin] (new 2) in
  in_flight_ids s = [1; 2]
  /\ in_flight (run (flat_map completion (rev (in_flight s))) (begin_shutdown s)) = [].
Proof.
  intros s. split; [reflexivity|].
  apply (pipeline_drains 2 [Begin; Begin; CookDone 1; Begin] [] (rev (in_flight s)));
    [vm_compute; reflexivity|symmetry; apply Permutation_rev].
Defined.
End PipelineFacts.

(** ** The service estimator *)

Module EwmaFacts.
Import Ewma.

Lemma quot_between d : 0 <= d -> 0 <= Z.quot d 8 <= d.
Proof.
  intros. rewrite Z.quot_div_nonneg by lia. split; [by apply Z.div_pos|].
  apply Z.div_le_upper_bound; lia.
Qed.

(** Moving an eighth of the way towards [x] stays between [m] and [x]. *)
Lemma step_between m x lo hi :
  lo <= m <= hi -> lo <= x <= hi -> lo <= m + Z.quot (x - m) 8 <= hi.
Proof.
  intros. destruct (Z.le_ge_cases m x).
  - pose proof (quot_between (x - m)). lia.
  - pose proof (quot_between (m - x)).
    replace (x - m) with (- (m - x)) by lia. rewrite Z.quot_opp_l by lia. lia.
Qed.

Definition observe_all (e : t) (l : list (Z * Z)) : t :=
  fold_left (fun e p => observe e p.1 p.2) l e.

Definition inv (lo hi : Z) (e : t) : Prop :=
  lo <= mean_ns e <= hi /\ 0 <= deviation_ns e <= hi - lo /\ 0 < samples e <= U32_MAX.

Lemma clamp_id v : 0 <= v <= U64_MAX -> clamp_u64 v = v.
Proof. unfold clamp_u64. intros. case_match; boolify; lia. Qed.

Lemma observe_inv lo hi e x now :
  0 <= lo -> hi <= U64_MAX -> lo <= x <= hi -> samples e = 0 \/ inv lo hi e ->
  inv lo hi (observe e x now) /\ samples (observe e x now) = sat_add32 (samples e) 1.
Proof.
  unfold inv, observe, ALPHA_DENOMINATOR, sat_add32. intros Hlo Hhi Hx He.
  destruct (samples e =? 0) eqn:Hz; boolify.
  { rewrite Hz. simpl. unfold U32_MAX. lia. }
  destruct He as [?|(Hm & Hd & Hs)]; [lia|]. cbv zeta.
  pose proof (step_between (mean_ns e) x lo hi Hm Hx) as Hm'.
  set (m' := mean_ns e + _) in *.
  pose proof (step_between (deviation_ns e) (Z.abs (x - m')) 0 (hi - lo) Hd ltac:(lia)) as Hd'.
  simpl. rewrite !clamp_id by lia. unfold U32_MAX. lia.
Qed.

Lemma observe_all_inv lo hi l : forall e,
  0 <= lo -> hi <= U64_MAX -> Forall (fun p => lo <= p.1 <= hi) l -> inv lo hi e ->
  inv lo hi (observe_all e l)
  /\ samples (observe_all e l) = Z.min (samples e + Z.of_nat (length l)) U32_MAX.
Proof.
  induction l as [|[x now] l IH]; intros e Hlo Hhi Hl He.
  { simpl. destruct He as (? & ? & ?). split; [by unfold inv|lia]. }
  apply Forall_cons in Hl as [Hx Hl].
  destruct (observe_inv lo hi e x now Hlo Hhi Hx ltac:(by right)) as [He' Hs'].
  destruct (IH _ Hlo Hhi Hl He') as [? Hs]. simpl. split; [done|].
  fold (observe_all (observe e x now) l). rewrite Hs, Hs'. unfold sat_add32. lia.
Qed.

(** After any samples between [lo] and [hi] the mean is between them and the
    deviation at most their distance, so the guards against negative and
    oversized intermediate values never act; the bounds used for decisions
    enclose the mean and are at most three deviations away from it, and a
    steady service time is estimated exactly. *)
Theorem estimator_within_samples lo hi l :
  0 <= lo -> hi <= U64_MAX -> l <> [] -> Forall (fun p => lo <= p.1 <= hi) l ->
  let e := observe_all cold l in
  lo <= mean_ns e <= hi /\ 0 <= deviation_ns e <= hi - lo
  /\ samples e = Z.min (Z.of_nat (length l)) U32_MAX
  /\ lower_ns e <= mean_ns e <= upper_ns e
  /\ lo - 3 * (hi - lo) <= lower_ns e /\ upper_ns e <= hi + 3 * (hi - lo)
  /\ (lo = hi -> lower_ns e = lo /\ upper_ns e = lo).
Proof.
  intros Hlo Hhi Hne Hl. destruct l as [|[x now] l]; [done|]. cbv zeta.
  apply Forall_cons in Hl as [Hx Hl].
  destruct (observe_inv lo hi cold x now Hlo Hhi Hx ltac:(by left)) as [He Hs].
  destruct (observe_all_inv lo hi l _ Hlo Hhi Hl He) as [(Hm & Hd & _) Hs'].
  simpl. fold (observe_all (observe cold x now) l). rewrite Hs', Hs.
  unfold lower_ns, upper_ns, sat_sub, sat_add, sat_mul, DEVIATION_MULTIPLIER, sat_add32.
  simpl. unfold U32_MAX. split_and!; lia.
Qed.
Lemma estimator_within_samples_witness :
  mean_ns (observe_all cold [(1000, 1); (1800, 2); (1000, 3)]) = 1088
  /\ 1000 <= mean_ns (observe_all cold [(1000, 1); (1800, 2); (1000, 3)]) <= 1800.
Proof.
  split; [reflexivity|].
  apply (estimator_within_samples 1000 1800 [(1000, 1); (1800, 2); (1000, 3)]);
    [lia|unfold U64_MAX; lia|done|u64_bounds].
Defined.

(** The bucket of a payload is the largest power of two not above it. *)
Lemma payload_bucket_floor p : 0 < p ->
  payload_bucket p 0 = 2 ^ Z.log2 p /\ payload_bucket p 0 <= p < 2 * payload_bucket p 0.
Proof.
  intros Hp. unfold payload_bucket. rewrite (proj2 (Z.eqb_neq p 0)) by lia. simpl.
  pose proof (Z.log2_spec p Hp) as Hspec. rewrite Z.pow_succ_r in Hspec by apply Z.log2_nonneg.
  rewrite Z.shiftl_1_l.
  rewrite (proj2 (Z.ltb_ge p _)) by lia. rewrite Z.max_l by lia. lia.
Qed.
End EwmaFacts.

(** ** Selection of a batch *)

Module SelectFacts.

(** What makes a batch of [q] worth taking: it meets the deadline and wins the
    margin, or it misses it by less than the requests one by one would. *)
Definition pays (i : GoldenDecisionInput) : Prop :=
  let q := queue_count i in
  let sv := natural_service_lower_ns i in
  let u := batch_completion_upper_ns i in
  (u <= earliest_deadline_ns i /\ decision_margin_ppm i <= 1000000
   /\ 2 * u * 1000000 < (sv * (q + 1) / 2 + sv * q) * (1000000 - decision_margin_ppm i))
  \/ earliest_deadline_ns i < u < sv * q.

Lemma natural_objective_exact q sv m tl j :
  natural_objective_ns q sv = Some (m, tl, j) ->
  m = sv * (q + 1) / 2 /\ tl = sv * q /\ j = m + tl.
Proof.
  unfold natural_objective_ns, checked_add, checked_mul. intros H.
  destruct (q + 1 <=? U64_MAX); [|done].
  destruct (sv * (q + 1) <=? U64_MAX); [|done].
  destruct (sv * q <=? U64_MAX); [|done].
  destruct (_ <=? U64_MAX) in H; [|done]. by simplify_eq.
Qed.

Lemma compare_margin_batch u j m :
  plan (compare_margin u j m) = Batch ->
  m <= 1000000 /\ u * 2 * 1000000 < j * (1000000 - m).
Proof.
  unfold compare_margin, checked_mul. intros H.
  destruct (u * 2 <=? U64_MAX); [|done].
  destruct (1000000 <? m) eqn:Hm; [done|].
  destruct (u * 2 * 1000000 <=? U64_MAX); [|done].
  destruct (j * (1000000 - m) <=? U64_MAX); [|done].
  destruct (u * 2 * 1000000 <? j * (1000000 - m)) eqn:Hlt; [boolify; lia|].
  by destruct (_ =? _) in H.
Qed.

Lemma decide_plan_batch i :
  plan (decide_plan i) = Batch ->
  evidence_warm i = true /\ evidence_stale i = false /\ compatible i = true
  /\ memory_ok i = true /\ queue_count i <> 1 /\ pays i.
Proof.
  unfold decide_plan, pays. cbv zeta. intros H.
  destruct (queue_count i =? 1) eqn:Hq; [done|].
  destruct (compatible i); [|done]. destruct (memory_ok i); [|done].
  destruct (evidence_warm i); [|done]. destruct (evidence_stale i); [done|].
  boolify. cbn [negb] in H. split_and!; try done.
  destruct (natural_objective_ns _ _) as [[[m tl] j]|] eqn:Hn; [|done].
  apply natural_objective_exact in Hn as (-> & -> & ->).
  destruct (earliest_deadline_ns i <? batch_completion_upper_ns i) eqn:Hd; boolify.
  - right. destruct (_ <=? earliest_deadline_ns i) in H; [done|].
    destruct (batch_completion_upper_ns i <? _) eqn:Hb; [|done]. boolify. lia.
  - left. apply compare_margin_batch in H. lia.
Qed.

(** *** Candidate sizes *)

(** A batch of [n] respects every hard limit. *)
Definition fits (b : CandidateBounds) (n : Z) : Prop :=
  n <= queued_count b /\ n <= cb_entries_available b /\ n <= maximum_batch_entries b
  /\ n <= segment_room_entries b
  /\ bytes_per_entry b * n <= cb_bytes_available b
  /\ bytes_per_entry b * n <= maximum_batch_bytes b.

Record bounds_ok (b : CandidateBounds) : Prop := {
  bk_avail : 0 <= cb_bytes_available b < U64_MAX;
  bk_max : 0 <= maximum_batch_bytes b < U64_MAX;
  bk_entry : 0 <= bytes_per_entry b }.

Lemma elem_of_insert_z x y l : x ∈ insert_z y l <-> x = y \/ x ∈ l.
Proof.
  induction l as [|z l IH]; simpl; [set_solver|].
  destruct (y <=? z); rewrite ?elem_of_cons, ?IH; set_solver.
Qed.
Lemma elem_of_sort_z x l : x ∈ sort_z l <-> x ∈ l.
Proof.
  unfold sort_z. induction l as [|z l IH]; simpl; [done|].
  rewrite elem_of_insert_z, IH, elem_of_cons. done.
Qed.

Lemma pow2_loop_elem b hard cs n : bounds_ok b -> n ∈ pow2_loop b hard cs ->
  n ∈ cs /\ n <= hard /\ bytes_per_entry b * n <= cb_bytes_available b
  /\ bytes_per_entry b * n <= maximum_batch_bytes b.
Proof.
  intros []. induction cs as [|c cs IH]; simpl; [set_solver|].
  destruct (hard <? c) eqn:Hc; [set_solver|].
  destruct (_ && _) eqn:Hskip.
  { intros Hn. destruct (IH Hn) as (? & ? & ?). set_solver. }
  intros [->|Hn]%elem_of_cons; [|destruct (IH Hn) as (? & ? & ?); set_solver].
  boolify. split; [set_solver|]. split; [lia|].
  apply andb_false_iff in Hskip as [Hz|Hs]; boolify.
  - replace (bytes_per_entry b) with 0 by lia. lia.
  - unfold sat_mul in *. lia.
Qed.

Lemma candidate_fits b n : bounds_ok b ->
  n ∈ candidate_entry_counts b -> n = 1 \/ (1 < n /\ fits b n).
Proof.
  intros Hb. unfold candidate_entry_counts.
  destruct (hard_limit b =? 0); [set_solver|]. cbv zeta.
  set (out1 := if _ && (1 <=? _) then _ else _).
  set (q := Z.min _ _). set (out2 := if (1 <? q) && _ then _ else out1).
  assert (Hloop : forall m, m ∈ pow2_loop b (hard_limit b) CANDIDATE_POW2 ->
    m = 1 \/ (1 < m /\ fits b m)).
  { intros m Hm. apply pow2_loop_elem in Hm as (Hin & Hle & Hbytes); [|done].
    destruct (decide (m = 1)) as [?|Hne]; [by left|right].
    assert (1 < m) by (unfold CANDIDATE_POW2 in Hin; rewrite !elem_of_cons in Hin; set_solver by lia).
    unfold hard_limit in Hle. unfold fits. lia. }
  assert (H1 : forall m, m ∈ out1 -> m = 1 \/ (1 < m /\ fits b m)).
  { intros m. subst out1. case_match; [intros [->|Hm]%elem_of_cons|intros Hm]; auto. }
  assert (H2 : forall m, m ∈ out2 -> m = 1 \/ (1 < m /\ fits b m)).
  { intros m. subst out2. destruct ((1 <? q) && _) eqn:Hq; [|auto]. boolify.
    destruct (_ || _) eqn:Hbytes; [|auto].
    rewrite elem_of_sort_z, elem_of_app, list_elem_of_singleton. intros [Hm| ->]; [auto|right].
    split; [done|]. destruct Hb. subst q. unfold fits, hard_limit in *.
    apply orb_true_iff in Hbytes as [Hz|Hs]; boolify; [rewrite Hz|unfold sat_mul in *]; lia. }
  destruct out2 as [|m out]; [set_solver|apply H2].
Qed.

(** *** The search *)

Section Search.
Context (ev : Evidence) (upper : Z -> Z).

Definition wins (n : Z) : Prop :=
  1 < n /\ plan (decide_plan (decision_input ev n (upper n))) = Batch.
(** [n] completes no later than [m], and is smaller when they tie. *)
Definition better (n m : Z) : Prop := upper n < upper m \/ (upper n = upper m /\ n <= m).

Definition best_of (seen : list Z) (r : option (Z * Z * string)) : Prop :=
  match r with
  | None => forall m, m ∈ seen -> ~ wins m
  | Some (n, u, why) =>
      n ∈ seen /\ wins n /\ u = upper n
      /\ why = reason (decide_plan (decision_input ev n (upper n)))
      /\ forall m, m ∈ seen -> wins m -> better n m
  end.

Lemma best_step_best seen r n :
  best_of seen r -> best_of (seen ++ [n]) (best_step ev upper r n).
Proof.
  intros Hr. unfold best_step.
  destruct (n <=? 1) eqn:Hn; boolify.
  { assert (Hno : ~ wins n) by (unfold wins; lia).
    destruct r as [[[bn bu] bw]|]; simpl in *; [destruct Hr as (? & ? & ? & ? & Hbest)|];
      [split_and!; [set_solver|done..|]|]; intros m [Hm| ->%list_elem_of_singleton]%elem_of_app;
      naive_solver. }
  destruct (plan _) eqn:Hp.
  { assert (Hno : ~ wins n) by (unfold wins; rewrite Hp; naive_solver).
    destruct r as [[[bn bu] bw]|]; simpl in *; [destruct Hr as (? & ? & ? & ? & Hbest)|];
      [split_and!; [set_solver|done..|]|]; intros m [Hm| ->%list_elem_of_singleton]%elem_of_app;
      naive_solver. }
  assert (Hw : wins n) by done.
  destruct r as [[[bn bu] bw]|]; simpl in *.
  - destruct Hr as (Hin & Hbw & -> & Hwhy & Hbest).
    destruct ((upper n <? upper bn) || _) eqn:Hc; simpl.
    + split_and!; [set_solver|done..|].
      intros m [Hm| ->%list_elem_of_singleton]%elem_of_app Hmw; unfold better in *; [|lia].
      specialize (Hbest m Hm Hmw). apply orb_true_iff in Hc as [Hc|Hc]; boolify; lia.
    + boolify. split_and!; [set_solver|done..|].
      intros m [Hm| ->%list_elem_of_singleton]%elem_of_app Hmw; unfold better in *; [auto|].
      apply andb_false_iff in H0 as [?|?]; boolify; lia.
  - split_and!; [set_solver|done..|].
    intros m [Hm| ->%list_elem_of_singleton]%elem_of_app Hmw; [by destruct (Hr m)|].
    unfold better. lia.
Qed.

Lemma search_best cs : forall seen r,
  best_of seen r -> best_of (seen ++ cs) (fold_left (best_step ev upper) cs r).
Proof.
  induction cs as [|n cs IH]; intros seen r Hr; simpl; [by rewrite app_nil_r|].
  rewrite cons_middle, app_assoc. apply IH. by apply best_step_best.
Qed.
End Search.

(** A selected batch has at least two entries and respects every limit on
    entries, segment room and bytes; the evidence is warm, fresh and
    compatible; it wins the margin within the deadline or misses the deadline
    by less than serving one by one would; and no other candidate that wins
    completes earlier.  When nothing is batched, no candidate wins. *)
Theorem select_plan_sound b sv ppm is_warm is_stale is_compatible dl upper :
  bounds_ok b ->
  let m := if ppm =? 0 then DECISION_MARGIN_PPM_DEFAULT else ppm in
  let ev := {| service_lower := sv; margin := m; warm := is_warm; stale := is_stale;
               compat := is_compatible; deadline := dl |} in
  let sel := select_plan b sv ppm is_warm is_stale is_compatible dl upper in
  match sel_plan sel with
  | Batch =>
      let n := entries sel in
      1 < n /\ fits b n /\ is_warm = true /\ is_stale = false /\ is_compatible = true
      /\ pays (decision_input ev n (upper n))
      /\ (forall k, k ∈ candidate_entry_counts b -> wins ev upper k -> better upper n k)
  | Natural =>
      entries sel = 1
      /\ (queued_count b <= 1
          \/ forall k, k ∈ candidate_entry_counts b -> ~ wins ev upper k)
  end.
Proof.
  intros Hb m ev. unfold select_plan. fold m. fold ev. cbv zeta.
  destruct (queued_count b <=? 1) eqn:Hq; [boolify; simpl; auto|].
  pose proof (search_best ev upper (candidate_entry_counts b) [] None ltac:(simpl; set_solver)) as H.
  simpl in H. destruct (fold_left _ _ None) as [[[n u] why]|]; simpl; [|auto].
  destruct H as (Hin & Hw & -> & -> & Hbest). pose proof Hw as [Hn Hp].
  apply decide_plan_batch in Hp as (? & ? & ? & _ & _ & Hpays).
  destruct (candidate_fits b n Hb Hin) as [->|[_ Hfit]]; [lia|]. done.
Qed.

Definition sample_bounds : CandidateBounds := {|
  queued_count := 6; cb_entries_available := 100; maximum_batch_entries := 1024;
  bytes_per_entry := 200; cb_bytes_available := 1000; maximum_batch_bytes := 16777216;
  segment_room_entries := 50 |}.

Lemma select_plan_sound_witness :
  let sel := select_plan sample_bounds 1000 0 true false true 1000000 (fun n => 2400 / n + 300) in
  sel_plan sel = Batch /\ entries sel = 4 /\ fits sample_bounds 4.
Proof.
  intros sel. split_and!; [reflexivity..|].
  assert (Hb : bounds_ok sample_bounds) by (split; simpl; unfold U64_MAX; lia).
  pose proof (select_plan_sound sample_bounds 1000 0 true false true 1000000
    (fun n => 2400 / n + 300) Hb) as H.
  cbv zeta in H.
  assert (Hsel : select_plan sample_bounds 1000 0 true false true 1000000
    (fun n => 2400 / n + 300)
    = {| sel_plan := Batch; entries := 4; sel_reason := "batch_existing_backlog" |})
    by reflexivity.
  rewrite Hsel in H. apply H.
Defined.

(** When no candidate wins, the reported reason is that of the whole queue,
    which need not be a candidate: here a natural plan carries a batch reason. *)
Example natural_plan_batch_reason :
  select_plan sample_bounds 1000 0 true false true 1000000
    (fun n => if n <? 5 then 1000000 else 0)
  = {| sel_plan := Natural; entries := 1; sel_reason := "batch_existing_backlog" |}.
Proof. reflexivity. Qed.
End SelectFacts.

(** ** The scale controller *)

Module ControllerFacts.
Import Controller.

Inductive verdict : Type := Up | Down | Neither.
Definition judge (c : t) (s : ControllerSignals) : verdict :=
  if want_up c s then Up else if want_down c s then Down else Neither.

(** The verdicts of the intervals evaluated so far, the latest first. *)
Definition note (c : t) (s : ControllerSignals) (now : Z) (hist : list verdict) : list verdict :=
  if within (last_eval_at_ns c) now (interval_ns (policy c)) then hist else judge c s :: hist.
Definition step (st : t * list verdict) (i : ControllerSignals * Z) : t * list verdict :=
  ((evaluate st.1 i.1 i.2).2, note st.1 i.1 i.2 st.2).
Definition run (st : t * list verdict) (l : list (ControllerSignals * Z)) : t * list verdict :=
  fold_left step l st.

(** The last [k] evaluated intervals all had verdict [v]. *)
Definition streak (v : verdict) (k : Z) (hist : list verdict) : Prop :=
  k <= Z.of_nat (length hist) /\ Forall (eq v) (take (Z.to_nat k) hist).

Record inv (p : ControllerPolicy) (c : t) (hist : list verdict) : Prop := {
  i_policy : policy c = p;
  i_range : minimum_active_cookers p <= active_cookers c <= maximum_cookers p;
  i_up : 0 <= up_streak c /\ streak Up (up_streak c) hist;
  i_down : 0 <= down_streak c /\ streak Down (down_streak c) hist }.

Lemma streak_le v k k' hist : k' <= k -> streak v k hist -> streak v k' hist.
Proof.
  intros Hle [Hlen Hall]. split; [lia|].
  replace (Z.to_nat k') with (Nat.min (Z.to_nat k') (Z.to_nat k)) by lia.
  rewrite <- take_take. by apply Forall_take.
Qed.
Lemma streak_cons v k hist : 0 <= k -> streak v k hist -> streak v (k + 1) (v :: hist).
Proof.
  intros Hk [Hlen Hall]. split; [simpl; lia|].
  replace (Z.to_nat (k + 1)) with (S (Z.to_nat k)) by lia. simpl. by constructor.
Qed.
Lemma streak_0 v hist : streak v 0 hist.
Proof. split; [lia|]. simpl. constructor. Qed.

Lemma count_streaks_inv p c s now hist :
  inv p c hist ->
  let c' := count_streaks c s now in
  inv p c' (judge c s :: hist)
  /\ active_cookers c' = active_cookers c
  /\ (0 < up_streak c' -> active_cookers c < maximum_cookers p)
  /\ (0 < down_streak c' -> minimum_active_cookers p < active_cookers c).
Proof.
  intros [Hpol Hr [Hu Hus] [Hd Hds]]. unfold count_streaks, judge.
  destruct (want_up c s) eqn:Hup.
  - unfold want_up in Hup. rewrite Hpol in Hup. boolify.
    assert (Hk : 0 <= sat_add32 (up_streak c) 1 <= up_streak c + 1)
      by (unfold sat_add32, U32_MAX; lia).
    split_and!; try done. split; simpl; try done.
    split; [lia|]. eapply streak_le; [apply Hk|by apply streak_cons].
  - destruct (want_down c s) eqn:Hdn.
    + unfold want_down in Hdn. rewrite Hpol in Hdn. boolify.
      assert (Hk : 0 <= sat_add32 (down_streak c) 1 <= down_streak c + 1)
        by (unfold sat_add32, U32_MAX; lia).
      split_and!; try done. split; simpl; try done.
      split; [lia|]. eapply streak_le; [apply Hk|by apply streak_cons].
    + by split_and!.
Qed.

(** What one evaluation may do. *)
Definition lawful (p : ControllerPolicy) (c : t) (now : Z) (hist : list verdict)
    (d : ScaleDecision) (c' : t) : Prop :=
  match d with
  | Hold => active_cookers c' = active_cookers c
  | ScaleUp =>
      active_cookers c' = active_cookers c + 1 /\ streak Up (scale_up_consecutive p) hist
      /\ within (last_scale_up_at_ns c) now (scale_up_dwell_ns p) = false
      /\ within (last_scale_down_at_ns c) now (scale_down_dwell_ns p) = false
      /\ last_scale_up_at_ns c' = Some now
  | ScaleDown =>
      active_cookers c' = active_cookers c - 1 /\ streak Down (scale_down_consecutive p) hist
      /\ within (last_scale_down_at_ns c) now (scale_down_dwell_ns p) = false
      /\ within (last_scale_up_at_ns c) now (scale_up_dwell_ns p) = false
      /\ last_scale_down_at_ns c' = Some now
  end.

Lemma count_streaks_stamps c s now :
  last_scale_up_at_ns (count_streaks c s now) = last_scale_up_at_ns c
  /\ last_scale_down_at_ns (count_streaks c s now) = last_scale_down_at_ns c.
Proof. unfold count_streaks. by repeat case_match. Qed.

Lemma evaluate_inv p c s now hist :
  1 <= scale_up_consecutive p -> 1 <= scale_down_consecutive p -> inv p c hist ->
  let '(d, c') := evaluate c s now in
  inv p c' (note c s now hist) /\ lawful p c now (note c s now hist) d c'.
Proof.
  intros Hcu Hcd Hi. unfold evaluate, note.
  destruct (within (last_eval_at_ns c) now _); [done|]. cbv zeta.
  destruct (count_streaks_inv p c s now hist Hi) as (Hi' & Ha & Hup & Hdn).
  destruct (count_streaks_stamps c s now) as [Hsu Hsd].
  set (c1 := count_streaks c s now) in *. set (h := judge c s :: hist) in *.
  pose proof Hi' as [Hpol Hr [Hu Hus] [Hd Hds]]. rewrite Hpol, Hsu, Hsd.
  destruct (scale_up_consecutive p <=? up_streak c1) eqn:Hcup; boolify.
  - destruct (within (last_scale_up_at_ns c) _ _) eqn:Hw1; [done|].
    destruct (within (last_scale_down_at_ns c) _ _) eqn:Hw2; [done|]. simpl.
    split; [|split_and!; [lia|by eapply streak_le|done..]].
    split; simpl; try done; lia.
  - destruct (scale_down_consecutive p <=? down_streak c1) eqn:Hcdn; boolify; [|done].
    destruct (within (last_scale_down_at_ns c) _ _) eqn:Hw1; [done|].
    destruct (within (last_scale_up_at_ns c) _ _) eqn:Hw2; [done|]. simpl.
    split; [|split_and!; [lia|by eapply streak_le|done..]].
    split; simpl; try done; lia.
Qed.

Lemma ctrl_run_inv p l : forall c hist,
  1 <= scale_up_consecutive p -> 1 <= scale_down_consecutive p -> inv p c hist ->
  let '(c', hist') := run (c, hist) l in inv p c' hist'.
Proof.
  induction l as [|[s now] l IH]; intros c hist Hcu Hcd Hi; [done|].
  pose proof (evaluate_inv p c s now hist Hcu Hcd Hi) as He.
  simpl. unfold step. simpl. destruct (evaluate c s now) as [d c']. destruct He as [He _].
  by apply IH.
Qed.

(** From its initial state, under any sequence of signals, the controller keeps
    the number of active cookers within the policy's range, changes it by at
    most one per evaluation, scales only after the required number of
    consecutive evaluated intervals all asked for it, and only when the dwell
    times since both the last scale-up and the last scale-down have passed. *)
Theorem controller_bounded p initial c0 l s now :
  1 <= scale_up_consecutive p -> 1 <= scale_down_consecutive p ->
  new p initial = Some c0 ->
  let '(c, hist) := run (c0, []) l in
  let '(d, c') := evaluate c s now in
  minimum_active_cookers p <= active_cookers c' <= maximum_cookers p
  /\ lawful p c now (note c s now hist) d c'.
Proof.
  intros Hcu Hcd Hnew. unfold new in Hnew.
  destruct (maximum_cookers p <? minimum_active_cookers p) eqn:Hm; [done|]. boolify.
  assert (Hi : inv p c0 []).
  { simplify_eq. split; simpl; try done; lia. }
  pose proof (ctrl_run_inv p l c0 [] Hcu Hcd Hi) as Hr. destruct (run (c0, []) l) as [c hist].
  pose proof (evaluate_inv p c s now hist Hcu Hcd Hr) as He.
  destruct (evaluate c s now) as [d c']. destruct He as [[_ Hrange _ _] Hlaw]. done.
Qed.

(** A busy interval, and the intervals at which it is observed. *)
Definition busy : ControllerSignals := {|
  cook_queue_bytes_increased := true; cooker_utilization_ppm := 900000;
  writer_ready_increasing := false; ready_queue_fill_ppm := 0;
  positive_marginal_throughput := true; writer_saturated := false;
  deadline_miss_from_cook := false |}.
Definition ticks (n : nat) : list (ControllerSignals * Z) :=
  map (fun i => (busy, 100000000 * Z.of_nat i)) (seq 0 n).

Lemma controller_bounded_witness :
  exists c0, new (machine_defaults 1 4) 1 = Some c0
  /\ (evaluate (run (c0, []) (ticks 4)).1 busy 400000000).1 = ScaleUp
  /\ 1 <= active_cookers (evaluate (run (c0, []) (ticks 4)).1 busy 400000000).2 <= 4.
Proof.
  eexists. split; [reflexivity|]. split; [reflexivity|].
  pose proof (controller_bounded (machine_defaults 1 4) 1 _ (ticks 4) busy 400000000
    ltac:(vm_compute; discriminate) ltac:(vm_compute; discriminate) eq_refl) as H.
  vm_compute in H. vm_compute. tauto.
Defined.

(** A policy that needs zero consecutive intervals passes the maximum. *)
Example zero_streak_exceeds_maximum :
  let p := {| interval_ns := 1; scale_up_consecutive := 0; scale_down_consecutive := 20;
              scale_up_utilization_ppm := 800000; scale_down_utilization_ppm := 300000;
              ready_queue_scale_down_ppm := 750000; scale_up_dwell_ns := 1;
              scale_down_dwell_ns := 1; minimum_active_cookers := 1; maximum_cookers := 2 |} in
  match new p 2 with
  | Some c => active_cookers (evaluate c busy 10).2 = 3
  | None => False
  end.
Proof. reflexivity. Qed.

(** The default policy keeps a minimum above the maximum, and [new] panics. *)
Example inverted_defaults_panic : new (machine_defaults 3 2) 1 = None.
Proof. reflexivity. Qed.
End ControllerFacts.

(** ** The policy *)

(** The machine's default policy is accepted on every machine. *)
Lemma machine_defaults_valid n : 0 <= n -> WritePolicy.validate (WritePolicy.machine_defaults n) = Ok tt.
Proof.
  intros Hn. unfold WritePolicy.validate, WritePolicy.machine_defaults. simpl.
  set (k := Z.min _ 16). assert (Hk : 1 <= k <= 16) by (unfold sat_sub in *; lia).
  rewrite (proj2 (Z.eqb_neq k 0)), (proj2 (Z.ltb_ge 64 k)), (proj2 (Z.ltb_ge k 1)) by lia.
  reflexivity.
Qed.
