(* ===== verification/AtomicLifecycle.v ===== *)
(** * The lifecycle of an Atomic

    Model of [crates/residiuum-atomics/src/lifecycle.rs] with the phases of
    [evidence.rs]: the transition function over prepare, member, decision and
    publication phases, and the exhaustive exploration [check_model] that the
    crate runs over a finite set of candidate events.

    The crate's exploration covers member counts 0 and 2.  The theorems cover
    every member count: an inductive invariant of all runs, and agreement of the
    exploration with it. *)
From S2P Require Import Prelude.
From stdpp Require Import pretty.
Open Scope string_scope.
Open Scope list_scope.
Open Scope Z_scope.

Inductive PreparePhase : Type := PrepareNone | Prepared.
Inductive MemberPhase : Type := Absent | Staged | DurableInvisible.
Inductive DecisionPhase : Type := DecisionNone | Committed | NotCommitted | Conflicting.
Inductive PublicationPhase : Type := Unpublished | Published.
#[global] Instance prepare_phase_eq_dec : EqDecision PreparePhase.
Proof. solve_decision. Defined.
#[global] Instance member_phase_eq_dec : EqDecision MemberPhase.
Proof. solve_decision. Defined.
#[global] Instance decision_phase_eq_dec : EqDecision DecisionPhase.
Proof. solve_decision. Defined.
#[global] Instance publication_phase_eq_dec : EqDecision PublicationPhase.
Proof. solve_decision. Defined.

Record AtomicLifecycle := {
  prepare : PreparePhase;
  members : MemberPhase;
  decision : DecisionPhase;
  publication : PublicationPhase }.
#[global] Instance atomic_lifecycle_eq_dec : EqDecision AtomicLifecycle.
Proof. solve_decision. Defined.

Definition lifecycle_empty : AtomicLifecycle :=
  {| prepare := PrepareNone; members := Absent; decision := DecisionNone;
     publication := Unpublished |}.

Definition ordinary_visible (s : AtomicLifecycle) : bool :=
  bool_decide (publication s = Published) && bool_decide (decision s = Committed).

Inductive LifecycleEvent : Type :=
| Prepare
| StageMembers (member_count : Z)
| StabilizeMembers (member_count : Z)
| DecideCommitted (member_count : Z)
| DecideNotCommitted
| DiscoverConflict
| Publish.

Inductive LifecycleError : Type := Illegal | TerminalDecision.
#[global] Instance lifecycle_error_eq_dec : EqDecision LifecycleError.
Proof. solve_decision. Defined.

Record LifecycleTrace := {
  state : AtomicLifecycle;
  durable_members : Z;
  named_members : Z;
  published_members : Z }.
#[global] Instance lifecycle_trace_eq_dec : EqDecision LifecycleTrace.
Proof. solve_decision. Defined.

Definition trace_empty : LifecycleTrace :=
  {| state := lifecycle_empty; durable_members := 0; named_members := 0; published_members := 0 |}.

Definition mk (p : PreparePhase) (m : MemberPhase) (d : DecisionPhase) (u : PublicationPhase)
    (durable named published : Z) : LifecycleTrace :=
  {| state := {| prepare := p; members := m; decision := d; publication := u |};
     durable_members := durable; named_members := named; published_members := published |}.

Definition apply (t : LifecycleTrace) (event : LifecycleEvent)
  : result LifecycleError LifecycleTrace :=
  let '{| prepare := p; members := m; decision := d; publication := u |} := state t in
  let durable := durable_members t in
  let named := named_members t in
  let published := published_members t in
  match event with
  | Prepare =>
      if negb (bool_decide (p = PrepareNone)) || negb (bool_decide (d = DecisionNone))
         || negb (bool_decide (u = Unpublished))
      then Err Illegal
      else Ok (mk Prepared m d u durable named published)
  | StageMembers member_count =>
      if negb (bool_decide (p = Prepared)) || negb (bool_decide (m = Absent))
         || negb (bool_decide (d = DecisionNone))
      then Err Illegal
      else Ok (mk p Staged d u member_count named published)
  | StabilizeMembers member_count =>
      if negb (bool_decide (m = Staged)) || negb (bool_decide (d = DecisionNone))
      then Err Illegal
      else if negb (member_count =? durable) then Err Illegal
      else Ok (mk p DurableInvisible d u durable named published)
  | DecideCommitted member_count =>
      match d with
      | DecisionNone =>
          if negb (bool_decide (p = Prepared)) then Err Illegal
          else
          let members_ready :=
            match m with
            | DurableInvisible => member_count =? durable
            | Absent => (member_count =? 0) && (durable =? 0)
            | Staged => false
            end in
          if negb members_ready then Err Illegal
          else Ok (mk p m Committed u durable member_count published)
      | Committed => Err TerminalDecision
      | NotCommitted => Ok (mk p m Conflicting Unpublished durable named published)
      | Conflicting => Err TerminalDecision
      end
  | DecideNotCommitted =>
      match d with
      | DecisionNone =>
          if negb (bool_decide (p = Prepared)) then Err Illegal
          else Ok (mk p m NotCommitted u durable named published)
      | NotCommitted => Err TerminalDecision
      | Committed => Ok (mk p m Conflicting Unpublished durable named published)
      | Conflicting => Err TerminalDecision
      end
  | DiscoverConflict =>
      match d with
      | Committed | NotCommitted => Ok (mk p m Conflicting Unpublished durable named published)
      | _ => Err Illegal
      end
  | Publish =>
      if negb (bool_decide (d = Committed)) || negb (bool_decide (u = Unpublished))
      then Err Illegal
      else
      let members_ready :=
        bool_decide (m = DurableInvisible) || (bool_decide (m = Absent) && (named =? 0)) in
      if negb members_ready then Err Illegal
      else if negb (named =? durable) then Err Illegal
      else Ok (mk p m d Published durable named durable)
  end.

(** ** Labels *)

Definition phase_label (p : PreparePhase) : string :=
  match p with PrepareNone => "prepare_none" | Prepared => "prepared" end.
Definition mem (m : MemberPhase) : string :=
  match m with
  | Absent => "members_absent" | Staged => "staged" | DurableInvisible => "durable_invisible"
  end.
Definition dec (d : DecisionPhase) : string :=
  match d with
  | DecisionNone => "decision_none" | Committed => "committed"
  | NotCommitted => "not_committed" | Conflicting => "conflicting"
  end.
Definition pubp (p : PublicationPhase) : string :=
  match p with Unpublished => "unpublished" | Published => "published" end.

Definition label (t : LifecycleTrace) : string :=
  (phase_label (prepare (state t)) +:+ "/" +:+ mem (members (state t)) +:+ "/"
   +:+ dec (decision (state t)) +:+ "/" +:+ pubp (publication (state t))
   +:+ "/d" +:+ pretty (durable_members t) +:+ "/n" +:+ pretty (named_members t)
   +:+ "/p" +:+ pretty (published_members t))%string.

(** ** The exploration *)

Definition CANDIDATES : list LifecycleEvent :=
  [Prepare; StageMembers 0; StageMembers 2; StabilizeMembers 0; StabilizeMembers 2;
   DecideCommitted 0; DecideCommitted 2; DecideNotCommitted; DiscoverConflict; Publish].

(** The inner loop: successors of [here] are counted and appended when new. *)
Definition expand (here : LifecycleTrace) (st : list LifecycleTrace * nat)
    (ev : LifecycleEvent) : list LifecycleTrace * nat :=
  let '(reachable, allowed) := st in
  match apply here ev with
  | Ok next =>
      (if bool_decide (next ∈ reachable) then reachable else reachable ++ [next], S allowed)
  | Err _ => st
  end.

(** [while i < reachable.len()]; the fuel bounds the number of turns. *)
Fixpoint explore (fuel i : nat) (reachable : list LifecycleTrace) (allowed : nat)
  : list LifecycleTrace * nat :=
  match fuel with
  | O => (reachable, allowed)
  | S f =>
      match reachable !! i with
      | None => (reachable, allowed)
      | Some here =>
          let '(r, a) := fold_left (expand here) CANDIDATES (reachable, allowed) in
          explore f (S i) r a
      end
  end.

Record ModelProofs := {
  published_implies_committed : bool;
  committed_publication_names_all_durable_members : bool;
  not_committed_never_published : bool;
  terminal_decisions_cannot_change : bool;
  conflicting_decisions_enter_degraded_status : bool;
  staged_material_never_ordinarily_visible : bool }.

Definition all_held (p : ModelProofs) : bool :=
  published_implies_committed p && committed_publication_names_all_durable_members p
  && not_committed_never_published p && terminal_decisions_cannot_change p
  && conflicting_decisions_enter_degraded_status p
  && staged_material_never_ordinarily_visible p.

Record ModelCheckReport := {
  reachable_state_count : nat;
  reachable_labels : list string;
  allowed_transitions : nat;
  proofs : ModelProofs }.

(** [labels.sort()]: byte order of strings. *)
Fixpoint insert_label (x : string) (l : list string) : list string :=
  match l with
  | [] => [x]
  | y :: rest =>
      match String.compare x y with Gt => y :: insert_label x rest | _ => x :: l end
  end.
Definition sort_labels (l : list string) : list string := foldr insert_label [] l.

Definition published_is_committed (s : LifecycleTrace) : bool :=
  negb (bool_decide (publication (state s) = Published))
  || bool_decide (decision (state s) = Committed).

Definition publication_names_durable (s : LifecycleTrace) : bool :=
  (negb (bool_decide (decision (state s) = Committed))
   || (named_members s =? durable_members s))
  && (negb (bool_decide (publication (state s) = Published))
      || ((published_members s =? named_members s)
          && (published_members s =? durable_members s))).

Definition uncommitted_is_unpublished (s : LifecycleTrace) : bool :=
  negb (bool_decide (decision (state s) = NotCommitted))
  || bool_decide (publication (state s) = Unpublished).

(** The retry of the decision a state has already taken. *)
Definition retry (s : LifecycleTrace) : option LifecycleEvent :=
  match decision (state s) with
  | Committed => Some (DecideCommitted (named_members s))
  | NotCommitted => Some DecideNotCommitted
  | Conflicting => Some (DecideCommitted 0)
  | DecisionNone => None
  end.
Definition retry_refused (s : LifecycleTrace) : bool :=
  match retry s with
  | Some ev => match apply s ev with Err TerminalDecision => true | _ => false end
  | None => true
  end.

Definition conflict_hidden (s : LifecycleTrace) : bool :=
  negb (bool_decide (decision (state s) = Conflicting) && ordinary_visible (state s)).
(** A committed state that learns of the opposite decision. *)
Definition contradicted (s : LifecycleTrace) : option LifecycleTrace :=
  if bool_decide (decision (state s) = Committed) then
    match apply s DecideNotCommitted with Ok next => Some next | Err _ => None end
  else None.
Definition contradiction_degrades (s : LifecycleTrace) : bool :=
  match contradicted s with
  | Some next => negb (negb (bool_decide (decision (state next) = Conflicting))
                       || ordinary_visible (state next))
  | None => true
  end.

Definition staged_hidden (s : LifecycleTrace) : bool :=
  negb (bool_decide (members (state s) = Staged)
        || bool_decide (members (state s) = DurableInvisible))
  || negb (ordinary_visible (state s)) || bool_decide (publication (state s) = Published).
Definition staged_never_visible (s : LifecycleTrace) : bool :=
  negb (bool_decide (members (state s) = Staged)) || negb (ordinary_visible (state s)).

Definition check_model (fuel : nat) : ModelCheckReport :=
  let '(reachable, allowed) := explore fuel 0 [trace_empty] 0 in
  let saw_terminal := existsb (fun s => match retry s with Some _ => true | None => false end)
                        reachable in
  let saw_conflict :=
    existsb (fun s => bool_decide (decision (state s) = Conflicting)
                      || match contradicted s with Some _ => true | None => false end) reachable in
  {| reachable_state_count := length reachable;
     reachable_labels := sort_labels (map label reachable);
     allowed_transitions := allowed;
     proofs := {|
       published_implies_committed := forallb published_is_committed reachable;
       committed_publication_names_all_durable_members :=
         forallb publication_names_durable reachable;
       not_committed_never_published := forallb uncommitted_is_unpublished reachable;
       terminal_decisions_cannot_change := forallb retry_refused reachable && saw_terminal;
       conflicting_decisions_enter_degraded_status :=
         forallb (fun s => conflict_hidden s && contradiction_degrades s) reachable
         && saw_conflict;
       staged_material_never_ordinarily_visible :=
         forallb staged_hidden reachable && forallb staged_never_visible reachable |} |}.

(** ** Runs *)

(** A sequence of attempted events; a refused event leaves the trace as it is. *)
Definition attempt (t : LifecycleTrace) (ev : LifecycleEvent) : LifecycleTrace :=
  match apply t ev with Ok t' => t' | Err _ => t end.
Definition run (events : list LifecycleEvent) (t : LifecycleTrace) : LifecycleTrace :=
  fold_left attempt events t.

Record trace_ok (t : LifecycleTrace) : Prop := {
  ok_published : publication (state t) = Published ->
    decision (state t) = Committed /\ published_members t = durable_members t;
  ok_committed : decision (state t) = Committed ->
    named_members t = durable_members t /\ members (state t) <> Staged;
  ok_undecided : decision (state t) = DecisionNone -> publication (state t) = Unpublished;
  ok_decided : decision (state t) <> DecisionNone -> prepare (state t) = Prepared }.

(** How far a decision is from its end: a decision never moves back. *)
Definition decision_rank (d : DecisionPhase) : nat :=
  match d with DecisionNone => 0 | Committed | NotCommitted => 1 | Conflicting => 2 end.

Lemma apply_trace_ok t ev t' : trace_ok t -> apply t ev = Ok t' -> trace_ok t'.
Proof.
  destruct t as [[p m d u] du na pu]. intros [H1 H2 H3 H4]. simpl in *.
  unfold apply; simpl. intros Hap.
  destruct ev; destruct p, m, d, u; simpl in *; try discriminate Hap;
    repeat case_match; try discriminate Hap; simplify_eq; boolify;
    (split; simpl; intros; try done; try (by destruct H1); try (by destruct H2); try lia);
    try (destruct H2 as [-> _]; done); try (split; [lia|done]); by apply H4.
Qed.

Lemma apply_decision_rank t ev t' :
  apply t ev = Ok t' ->
  decision (state t') = decision (state t)
  \/ (decision_rank (decision (state t)) < decision_rank (decision (state t')))%nat.
Proof.
  destruct t as [[p m d u] du na pu]. unfold apply; simpl. intros Hap.
  destruct ev; destruct p, m, d, u; simpl in *; try discriminate Hap;
    repeat case_match; try discriminate Hap; simplify_eq; simpl; auto with lia.
Qed.

Lemma run_trace_ok events : forall t, trace_ok t -> trace_ok (run events t).
Proof.
  induction events as [|ev events IH]; intros t Ht; simpl; [done|]. apply IH.
  unfold attempt. destruct (apply t ev) eqn:Hap; [by eapply apply_trace_ok|done].
Qed.

Lemma empty_trace_ok : trace_ok trace_empty.
Proof. by split. Qed.

(** C17. Whatever events are attempted, with whatever member counts, the six
    properties that the crate checks on its finite exploration hold: what is
    published was committed and names every durable member, a not-committed
    Atomic is never published, a repeated decision is refused, contradicting
    decisions degrade and hide it, and staged members are never visible.  Each
    accepted event keeps the decision or moves it strictly forward. *)
Theorem lifecycle_safe events :
  let t := run events trace_empty in
  published_is_committed t = true /\ publication_names_durable t = true
  /\ uncommitted_is_unpublished t = true /\ retry_refused t = true
  /\ conflict_hidden t = true /\ contradiction_degrades t = true
  /\ staged_hidden t = true /\ staged_never_visible t = true
  /\ (ordinary_visible (state t) = true -> published_members t = durable_members t)
  /\ (forall ev t', apply t ev = Ok t' ->
        decision (state t') = decision (state t)
        \/ (decision_rank (decision (state t)) < decision_rank (decision (state t')))%nat).
Proof.
  intros t. pose proof (run_trace_ok events _ empty_trace_ok) as [H1 H2 H3 H4].
  fold t in H1, H2, H3, H4. clearbody t.
  split_and!; [..|intros ev t'; apply apply_decision_rank];
    destruct t as [[p m d u] du na pu]; simpl in *;
    unfold published_is_committed, publication_names_durable, uncommitted_is_unpublished,
      retry_refused, retry, conflict_hidden, contradiction_degrades, contradicted, staged_hidden,
      staged_never_visible, ordinary_visible, apply; simpl;
    destruct d, u; simpl; try done; try (by destruct H1); try (by destruct m).
  - by destruct H2 as [-> _]; rewrite ?Z.eqb_refl.
  - destruct H1 as [_ ->]; [done|]. destruct H2 as [-> _]; [done|]. by rewrite Z.eqb_refl.
  - destruct m; [done| |done]. by destruct H2.
Qed.

(** *** The exploration is exhaustive *)

Definition explored : list LifecycleTrace := (explore 24 0 [trace_empty] 0).1.

(** Every accepted candidate event leads from an explored trace to one. *)
Definition closed (l : list LifecycleTrace) : bool :=
  forallb (fun t => forallb (fun ev => bool_decide (attempt t ev ∈ l)) CANDIDATES) l.

Lemma explored_closed : closed explored = true /\ trace_empty ∈ explored.
Proof. split; [vm_compute; reflexivity|]. apply (bool_decide_unpack _). vm_compute. exact I. Qed.

Lemma closed_step l t ev :
  closed l = true -> t ∈ l -> ev ∈ CANDIDATES -> attempt t ev ∈ l.
Proof.
  unfold closed. rewrite forallb_forall. intros Hc Ht Hev.
  specialize (Hc t (proj1 (list_elem_of_In _ _) Ht)). rewrite forallb_forall in Hc.
  specialize (Hc ev (proj1 (list_elem_of_In _ _) Hev)). by apply bool_decide_eq_true in Hc.
Qed.

(** The 24 traces found are all that any sequence of candidate events reaches,
    so the flags of the report speak about every such sequence. *)
Lemma exploration_exhaustive events :
  Forall (fun ev => ev ∈ CANDIDATES) events ->
  run events trace_empty ∈ explored
  /\ all_held (proofs (check_model 24)) = true
  /\ reachable_state_count (check_model 24) = 24%nat.
Proof.
  intros Hev. split; [|split; vm_compute; reflexivity].
  destruct explored_closed as [Hc Hin]. revert Hev Hin. generalize trace_empty.
  induction events as [|ev events IH]; intros t Hev Hin; [done|].
  apply Forall_cons in Hev as [He Hev]. simpl. apply IH; [done|]. by apply closed_step.
Qed.
