(* ===== verification/AtomicCbor.v ===== *)
(** * Errors and deterministic CBOR of the Atomic protocol

    Model of [crates/residiuum-atomics/src/error.rs], of the refusal and abort
    reasons of [outcome.rs], and of the crate's own deterministic CBOR codec
    [cbor.rs].  The cursor is its unread suffix, as in [Cbor.v].

    Decoding is bounded by a nesting depth of [MAX_CBOR_DEPTH], so the descent
    is structural on the levels that are left and takes no fuel. *)
From S2P Require Import Prelude Cbor.

Inductive CborError : Type :=
| Truncated
| TrailingBytes
| NotMap
| Indefinite
| NonShortest
| DuplicateKey
| UnsortedKeys
| NonUintKey
| Unsupported
| TagRejected
| DepthExceeded.

Inductive AtomicAbortReason : Type :=
| PreconditionConflict
| RuleRejected
| RecoveryAbort
| CoverageIncomplete.

Inductive AtomicRefuseReason : Type :=
| MalformedInput
| UnsupportedProfile
| ScopeUnavailable
| DuplicateTarget
| CrossHeapCollection
| StaleOrForeignCapability
| InvalidValue
| UnknownMutationKind
| UnsupportedPredicate
| LimitExceeded
| Deadline
| AuthorizationFailure
| CancelledBeforeAcceptance
| AtomicIdConflict.

Inductive AtomicsError : Type :=
| InvalidIdentity (what : string)
| EntropyUnavailable
| CborFailed (e : CborError)
| Refused (reason : AtomicRefuseReason).

Definition abort_wire_code (r : AtomicAbortReason) : Z :=
  match r with
  | PreconditionConflict => 1 | RuleRejected => 2 | RecoveryAbort => 3 | CoverageIncomplete => 4
  end.
Definition abort_from_wire_code (code : Z) : option AtomicAbortReason :=
  if code =? 1 then Some PreconditionConflict
  else if code =? 2 then Some RuleRejected
  else if code =? 3 then Some RecoveryAbort
  else if code =? 4 then Some CoverageIncomplete
  else None.

Module Acbor.

Definition MAX_CBOR_DEPTH : nat := 8.

Inductive Value : Type :=
| Uint (n : Z)
| Nint (n : Z)
| Bytes (b : list byte)
| Array (items : list Value)
| Map (entries : list (Z * Value)).

Abbreviation rest := (list byte).
Abbreviation res := (result AtomicsError).
Definition fail {A} (e : CborError) : res A := Err (CborFailed e).

(** ** The cursor *)

Definition take_n (n : Z) (r : rest) : res (list byte * rest) :=
  if Z.of_nat (length r) <? n then fail Truncated
  else Ok (take (Z.to_nat n) r, drop (Z.to_nat n) r).
Definition take_byte (r : rest) : res (Z * rest) :=
  match r with [] => fail Truncated | b :: r' => Ok (b2z b, r') end.

Definition read_head (r : rest) : res ((Z * Z) * rest) :=
  let? '(head, r1) := take_byte r in
  let major := Z.shiftr head 5 in
  let ai := Z.land head 0x1f in
  if ai <=? 23 then Ok ((major, ai), r1)
  else if ai =? 24 then
    let? '(b, r2) := take_byte r1 in
    if b <? 24 then fail NonShortest else Ok ((major, b), r2)
  else if ai =? 25 then
    let? '(raw, r2) := take_n 2 r1 in
    let v := be_val raw in
    if v <? 256 then fail NonShortest else Ok ((major, v), r2)
  else if ai =? 26 then
    let? '(raw, r2) := take_n 4 r1 in
    let v := be_val raw in
    if v <? 65536 then fail NonShortest else Ok ((major, v), r2)
  else if ai =? 27 then
    let? '(raw, r2) := take_n 8 r1 in
    let v := be_val raw in
    if v <? 0x100000000 then fail NonShortest else Ok ((major, v), r2)
  else if ai =? 31 then fail Indefinite
  else fail Unsupported.

Definition bound_len (arg min_item : Z) (r : rest) : res nat :=
  if Z.of_nat (length r) / Z.max min_item 1 <? arg then fail Truncated else Ok (Z.to_nat arg).

Definition read_map_len (r : rest) : res (nat * rest) :=
  let? '((major, arg), r1) := read_head r in
  if negb (major =? 5) then fail NotMap
  else let? n := bound_len arg 2 r1 in Ok (n, r1).

Definition read_uint (r : rest) : res (Z * rest) :=
  let? '((major, arg), r1) := read_head r in
  if negb (major =? 0) then fail NonUintKey else Ok (arg, r1).

(** The keys read so far: the encoding of the last one and all of them. *)
Abbreviation keys := (option (list byte) * list Z)%type.

(** One turn of the map loops: a duplicate or unsorted key is refused. *)
Definition read_entry (value : rest -> res (Value * rest)) (st : keys * rest)
  : res ((Z * Value) * (keys * rest)) :=
  let '((prev, seen), r) := st in
  let? '(k, r1) := read_uint r in
  let key_enc := take (length r - length r1) r in
  if existsb (Z.eqb k) seen then fail DuplicateKey
  else if match prev with Some p => bytes_leb key_enc p | None => false end
  then fail UnsortedKeys
  else
    let? '(v, r2) := value r1 in
    Ok ((k, v), ((Some key_enc, seen ++ [k]), r2)).

Definition read_entries (value : rest -> res (Value * rest)) (n : nat) (r : rest)
  : res (list (Z * Value) * rest) :=
  let? '(items, (_, r')) := collect_n n (read_entry value) ((None, []), r) in Ok (items, r').

(** [read_value(depth)] with [left = MAX_CBOR_DEPTH + 1 - depth] levels left;
    [read_canonical_map] is inlined. *)
Fixpoint read_value (left : nat) (r : rest) : res (Value * rest) :=
  match left with
  | O => fail DepthExceeded
  | S l =>
      match r with
      | [] => fail Truncated
      | head :: _ =>
          match Z.shiftr (b2z head) 5 with
          | 0 => let? '(n, r1) := read_uint r in Ok (Uint n, r1)
          | 1 => let? '((_, arg), r1) := read_head r in Ok (Nint arg, r1)
          | 2 =>
              let? '((_, arg), r1) := read_head r in
              let? '(b, r2) := take_n arg r1 in
              Ok (Bytes b, r2)
          | 4 =>
              let? '((_, arg), r1) := read_head r in
              let? n := bound_len arg 1 r1 in
              let? '(items, r2) := collect_n n (read_value l) r1 in
              Ok (Array items, r2)
          | 5 =>
              let? '(n, r1) := read_map_len r in
              let? '(items, r2) := read_entries (read_value l) n r1 in
              Ok (Map items, r2)
          | 6 => fail TagRejected
          | _ => fail Unsupported
          end
      end
  end.

(** [skip_map(0)]: its values are read at depth 0. *)
Definition skip_map (r : rest) : res rest :=
  let? '(n, r1) := read_map_len r in
  let? '(_, r2) := read_entries (read_value (S MAX_CBOR_DEPTH)) n r1 in
  Ok r2.

Definition validate_map (bs : list byte) : res unit :=
  let? r := skip_map bs in
  match r with [] => Ok tt | _ :: _ => fail TrailingBytes end.

(** One turn of the decoding loop; its values are read at depth 1. *)
Definition decode_entry (r : rest) : res ((Z * Value) * rest) :=
  let? '(k, r1) := read_uint r in
  let? '(v, r2) := read_value MAX_CBOR_DEPTH r1 in
  Ok ((k, v), r2).

Definition decode_map (bs : list byte) : res (list (Z * Value)) :=
  let? _ := validate_map bs in
  let? '(n, r) := read_map_len bs in
  let? '(out, r') := collect_n n decode_entry r in
  match r' with [] => Ok out | _ :: _ => fail TrailingBytes end.

(** ** The encoder *)

Definition write_type_arg (major arg : Z) : list byte :=
  let mt := Z.shiftl major 5 in
  if arg <=? 23 then [z2b (Z.lor mt arg)]
  else if arg <=? 0xff then [z2b (Z.lor mt 24); z2b arg]
  else if arg <=? 0xffff then z2b (Z.lor mt 25) :: be_bytes 2 arg
  else if arg <=? 0xffffffff then z2b (Z.lor mt 26) :: be_bytes 4 arg
  else z2b (Z.lor mt 27) :: be_bytes 8 arg.

(** The writing loop over sorted entries, whose values are already encoded. *)
Fixpoint write_entries (l : list (Z * res (list byte))) : res (list byte) :=
  match l with
  | [] => Ok []
  | (k, v) :: t =>
      let? bv := v in
      let? bt := write_entries t in
      Ok (write_type_arg 0 k ++ bv ++ bt)
  end.

Definition encode_sorted (sorted : list (Z * res (list byte))) : res (list byte) :=
  if adjacent_dup sorted then fail DuplicateKey
  else
    let? body := write_entries sorted in
    let out := write_type_arg 5 (Z.of_nat (length sorted)) ++ body in
    let? _ := validate_map out in
    Ok out.

Fixpoint write_items (l : list (res (list byte))) : res (list byte) :=
  match l with
  | [] => Ok []
  | v :: t => let? bv := v in let? bt := write_items t in Ok (bv ++ bt)
  end.

Fixpoint write_value (v : Value) : res (list byte) :=
  match v with
  | Uint n => Ok (write_type_arg 0 n)
  | Nint n => Ok (write_type_arg 1 n)
  | Bytes b => Ok (write_type_arg 2 (Z.of_nat (length b)) ++ b)
  | Array items =>
      let? body := write_items (map write_value items) in
      Ok (write_type_arg 4 (Z.of_nat (length items)) ++ body)
  | Map entries => encode_sorted (sort_by_key (map (fun e => (fst e, write_value (snd e))) entries))
  end.

(** Sorting looks at keys only, so the values may be encoded before or after. *)
Definition encode_map (entries : list (Z * Value)) : res (list byte) :=
  encode_sorted (sort_by_key (map (fun e => (fst e, write_value (snd e))) entries)).

Definition encode_value (v : Value) : res (list byte) := write_value v.

End Acbor.
