(* ===== verification/AtomicCborFacts.v ===== *)
(** * Correctness of the Atomic CBOR codec

    The codec of the Atomic crate reads and writes a sublanguage of the
    envelopes of [Cbor.v].  Heads, keys and lengths are those of the envelope
    cursor up to the error type, so its lemmas are reused; the descent is new
    because it checks map keys while decoding and bounds the nesting. *)
From S2P Require Import Prelude Cbor CborFacts AtomicCbor.
Import Acbor.

(** ** The envelope cursor up to the error type *)

Definition conv (e : CborEnvelopeError) : AtomicsError :=
  CborFailed match e with
  | Cbor.Truncated => Truncated | Cbor.TrailingBytes => TrailingBytes | Cbor.NotMap => NotMap
  | Cbor.Indefinite => Indefinite | Cbor.NonShortest => NonShortest
  | Cbor.DuplicateKey => DuplicateKey | Cbor.UnsortedKeys => UnsortedKeys
  | Cbor.NonUintKey => NonUintKey | Cbor.TagRejected => TagRejected | _ => Unsupported
  end.
Definition lift {A} (r : result CborEnvelopeError A) : res A :=
  match r with Ok a => Ok a | Err e => Err (conv e) end.

Lemma take_n_lift n r : take_n n r = lift (Cursor.take_n n r).
Proof. unfold take_n, Cursor.take_n. by case_match. Qed.
Lemma take_byte_lift r : take_byte r = lift (Cursor.take_byte r).
Proof. by destruct r. Qed.
Lemma read_head_lift r : read_head r = lift (Cursor.read_head r).
Proof.
  unfold read_head, Cursor.read_head. rewrite take_byte_lift.
  destruct (Cursor.take_byte r) as [[h r1]|]; [|done]. cbn [lift].
  rewrite take_byte_lift, !take_n_lift.
  destruct (Cursor.take_byte r1) as [[b r2]|], (Cursor.take_n 2 r1) as [[raw2 s2]|],
    (Cursor.take_n 4 r1) as [[raw4 s4]|], (Cursor.take_n 8 r1) as [[raw8 s8]|]; cbn [lift];
    repeat case_match; done.
Qed.
Lemma read_uint_lift r : read_uint r = lift (Cursor.read_uint r).
Proof.
  unfold read_uint, Cursor.read_uint. rewrite read_head_lift.
  destruct (Cursor.read_head r) as [[[m a] r1]|]; [|done]. simpl. by case_match.
Qed.
Lemma read_map_len_lift r : read_map_len r = lift (Cursor.read_map_len r).
Proof.
  unfold read_map_len, Cursor.read_map_len. rewrite read_head_lift.
  destruct (Cursor.read_head r) as [[[m a] r1]|]; [|done]. simpl. case_match; [done|].
  unfold bound_len, Cursor.bound_collection_len. by destruct (_ <? a).
Qed.
Lemma lift_Ok {A} (r : result CborEnvelopeError A) a : lift r = Ok a -> r = Ok a.
Proof. destruct r; simpl; congruence. Qed.

(** ** The reference encoding *)

(** A value as an envelope value. *)
Fixpoint inj (v : Value) : CborValue :=
  match v with
  | Uint n => Cbor.Uint n
  | Nint n => Cbor.Nint n
  | Bytes b => Cbor.Bytes b
  | Array items => Cbor.Array (map inj items)
  | Map es => Cbor.Map (map (fun e => (fst e, inj (snd e))) es)
  end.
Definition inj_entry (e : Z * Value) : Z * CborValue := (fst e, inj (snd e)).

Definition venc (v : Value) : list byte := enc (inj v).
Definition venc_entry (e : Z * Value) : list byte := enc_entry (inj_entry e).
Definition venc_map (es : list (Z * Value)) : list byte := enc_map (map inj_entry es).

Fixpoint depth (v : Value) : nat :=
  match v with
  | Uint _ | Nint _ | Bytes _ => 1
  | Array items => S (foldr (fun x m => Nat.max (depth x) m) 0%nat items)
  | Map es => S (foldr (fun e m => Nat.max (depth (snd e)) m) 0%nat es)
  end.

Lemma depth_le {A} (f : A -> nat) l n :
  (foldr (fun x m => Nat.max (f x) m) 0%nat l <= n)%nat <-> Forall (fun x => (f x <= n)%nat) l.
Proof.
  induction l as [|x l IH]; simpl; [split; [constructor|lia]|].
  rewrite Forall_cons, <- IH. lia.
Qed.

Lemma Value_ind_nested (P : Value -> Prop) :
  (forall n, P (Uint n)) -> (forall n, P (Nint n)) -> (forall b, P (Bytes b)) ->
  (forall items, Forall P items -> P (Array items)) ->
  (forall es, Forall (fun e => P (snd e)) es -> P (Map es)) -> forall v, P v.
Proof.
  intros HU HN HB HA HM. fix IH 1. intros [n|n|b|items|es].
  1-3: by clear IH.
  - apply HA. clear -IH. induction items as [|x t IHt]; constructor; [apply IH|apply IHt].
  - apply HM. clear -IH. induction es as [|x t IHt]; constructor; [apply IH|apply IHt].
Qed.

Lemma map_inj_entry es : map (fun e => (fst e, inj (snd e))) es = map inj_entry es.
Proof. done. Qed.
Lemma map_fst_inj es : map fst (map inj_entry es) = map fst es.
Proof. rewrite map_map. done. Qed.

(** ** Reading back *)

Lemma read_uint_back k r : in_u64 k -> read_uint (write_uint k ++ r) = Ok (k, r).
Proof. intros. rewrite read_uint_lift, read_uint_write; done. Qed.
Lemma read_head_back m a r : 0 <= m < 8 -> in_u64 a ->
  read_head (Cbor.write_type_arg m a ++ r) = Ok ((m, a), r).
Proof. intros. rewrite read_head_lift, read_head_write; done. Qed.
Lemma read_map_len_back n r : in_u64 (Z.of_nat n) -> (2 * n <= length r)%nat ->
  read_map_len (Cbor.write_type_arg 5 (Z.of_nat n) ++ r) = Ok (n, r).
Proof. intros. rewrite read_map_len_lift, read_map_len_write; done. Qed.

(** The first byte of an encoding tells its major type. *)
Lemma head_of m a r : 0 <= m < 8 -> in_u64 a ->
  exists b t, Cbor.write_type_arg m a ++ r = b :: t /\ Z.shiftr (b2z b) 5 = m.
Proof.
  intros Hm Ha. destruct (peek_head m a r Hm Ha) as (h & Hp & Hs).
  destruct (Cbor.write_type_arg m a ++ r) as [|b t]; [done|]. simplify_eq/=. eauto.
Qed.

Lemma entries_back value es : forall lo seen r,
  incr lo (map fst es) -> Forall (fun e => in_u64 (fst e)) es ->
  match lo with Some l => in_u64 l | None => True end ->
  (forall x, In x seen -> exists l, lo = Some l /\ x <= l) ->
  Forall (fun e => forall r, value (venc (snd e) ++ r) = Ok (snd e, r)) es ->
  exists st, collect_n (length es) (read_entry value)
      ((write_uint <$> lo, seen), concat (map venc_entry es) ++ r) = Ok (es, (st, r)).
Proof.
  induction es as [|[k v] es IH]; intros lo seen r Hincr Hu Hlo Hseen Hval.
  { by eexists. }
  destruct Hincr as [Hk Hincr]. apply Forall_cons in Hu as [Hku Hu], Hval as [Hv Hval].
  cbn [fst snd] in *.
  assert (Hstep : read_entry value
      ((write_uint <$> lo, seen), concat (map venc_entry ((k, v) :: es)) ++ r) =
      Ok ((k, v), ((Some (write_uint k), seen ++ [k]), concat (map venc_entry es) ++ r))).
  { cbn [map concat]. change (venc_entry (k, v)) with (write_uint k ++ venc v).
    rewrite <- !app_assoc. unfold read_entry. rewrite read_uint_back by done.
    rewrite (length_app (write_uint k)), Nat.add_sub, take_app_length.
    replace (existsb (Z.eqb k) seen) with false.
    2: { symmetry. apply not_true_iff_false. rewrite existsb_exists.
         intros (x & Hx & He). apply Z.eqb_eq in He. subst x.
         apply Hseen in Hx as (l & -> & ?). simpl in Hk. lia. }
    replace (match write_uint <$> lo with Some p => bytes_leb (write_uint k) p | None => false end)
      with false.
    2: { destruct lo as [l|]; simpl in *; [|done].
         rewrite write_uint_leb by done. symmetry. apply Z.leb_gt. lia. }
    by rewrite Hv. }
  cbn [length collect_n]. rewrite Hstep.
  destruct (IH (Some k) (seen ++ [k]) r) as [st Hst]; try done.
  { intros x Hx. exists k. split; [done|]. apply in_app_or in Hx as [Hx|[<-|[]]]; [|lia].
    apply Hseen in Hx as (l & -> & ?). simpl in Hk. lia. }
  change (write_uint <$> Some k) with (Some (write_uint k)) in Hst. rewrite Hst. eauto.
Qed.

Lemma read_entries_back value es r :
  incr None (map fst es) -> Forall (fun e => in_u64 (fst e)) es ->
  Forall (fun e => forall r, value (venc (snd e) ++ r) = Ok (snd e, r)) es ->
  read_entries value (length es) (concat (map venc_entry es) ++ r) = Ok (es, r).
Proof.
  intros Hi Hu Hv. unfold read_entries.
  destruct (entries_back value es None [] r) as [st Hst]; try done.
  change (write_uint <$> None) with (@None (list byte)) in Hst. by rewrite Hst.
Qed.

Lemma canonical_items items :
  canonical (inj (Array items)) ->
  in_u64 (Z.of_nat (length items)) /\ Forall (fun v => canonical (inj v)) items.
Proof.
  cbn [inj canonical]. rewrite length_map, foldr_and_Forall, Forall_map. done.
Qed.
Lemma canonical_entries es :
  canonical (inj (Map es)) <->
  in_u64 (Z.of_nat (length es)) /\ incr None (map fst es)
  /\ Forall (fun e => in_u64 (fst e) /\ canonical (inj (snd e))) es.
Proof.
  cbn [inj canonical]. rewrite length_map, map_map, foldr_and_Forall, Forall_map. done.
Qed.

Lemma venc_entry_length es : (2 * length es <= length (concat (map venc_entry es)))%nat.
Proof. apply concat_length_ge. intros. apply enc_entry_length. Qed.

Lemma venc_Map es :
  venc (Map es) = Cbor.write_type_arg 5 (Z.of_nat (length es)) ++ concat (map venc_entry es).
Proof. unfold venc. cbn [inj enc]. by rewrite length_map, map_map. Qed.
Lemma venc_Array items :
  venc (Array items)
  = Cbor.write_type_arg 4 (Z.of_nat (length items)) ++ concat (map venc items).
Proof. unfold venc. cbn [inj enc]. by rewrite length_map, map_map. Qed.

Lemma read_value_back v : canonical (inj v) -> forall left r, (depth v <= left)%nat ->
  read_value left (venc v ++ r) = Ok (v, r).
Proof.
  induction v as [n|n|b|items IH|es IH] using Value_ind_nested; intros Hc left r Hd;
    (destruct left as [|l]; [cbn [depth] in Hd; lia|]); cbn [depth] in Hd.
  - destruct (head_of 0 n r ltac:(lia) Hc) as (b & t & Heq & Hm).
    change (venc (Uint n)) with (Cbor.write_type_arg 0 n). cbn [read_value].
    rewrite Heq, Hm, <- Heq. change (Cbor.write_type_arg 0 n) with (write_uint n).
    by rewrite read_uint_back.
  - destruct (head_of 1 n r ltac:(lia) Hc) as (b & t & Heq & Hm).
    change (venc (Nint n)) with (Cbor.write_type_arg 1 n). cbn [read_value].
    rewrite Heq, Hm, <- Heq. by rewrite read_head_back by (done || lia).
  - change (venc (Bytes b)) with (Cbor.write_type_arg 2 (Z.of_nat (length b)) ++ b).
    rewrite <- app_assoc.
    destruct (head_of 2 (Z.of_nat (length b)) (b ++ r) ltac:(lia) Hc) as (h & t & Heq & Hm).
    cbn [read_value]. rewrite Heq, Hm, <- Heq. rewrite read_head_back by (done || lia).
    by rewrite take_n_lift, take_n_app.
  - apply canonical_items in Hc as [Hl Hc]. rewrite venc_Array, <- app_assoc.
    destruct (head_of 4 _ (concat (map venc items) ++ r) ltac:(lia) Hl) as (h & t & Heq & Hm).
    cbn [read_value]. rewrite Heq, Hm, <- Heq. rewrite read_head_back by (done || lia).
    unfold bound_len. rewrite (proj2 (Z.ltb_ge _ _)).
    2: { rewrite length_app, Z.div_1_r.
         assert (1 * length items <= length (concat (map venc items)))%nat
           by (apply concat_length_ge; intros; apply enc_length). lia. }
    rewrite Nat2Z.id, collect_n_concat; [done|].
    apply le_S_n, (depth_le depth) in Hd. rewrite Forall_forall in IH, Hc, Hd |- *.
    intros v Hv r'. by apply IH; [|apply Hc|apply Hd].
  - apply canonical_entries in Hc as (Hl & Hi & Hc). rewrite venc_Map, <- app_assoc.
    destruct (head_of 5 _ (concat (map venc_entry es) ++ r) ltac:(lia) Hl) as (h & t & Heq & Hm).
    cbn [read_value]. rewrite Heq, Hm, <- Heq.
    rewrite read_map_len_back; [|done|rewrite length_app; pose proof (venc_entry_length es); lia].
    apply le_S_n, (depth_le (fun e => depth (snd e))) in Hd.
    rewrite Forall_forall in IH, Hc, Hd.
    rewrite read_entries_back; [done|done| |]; apply Forall_forall; intros e He.
    + by apply Hc.
    + intros r'. by apply IH; [|apply Hc|apply Hd].
Qed.

(** ** Whatever is read is a reference encoding *)

Lemma entries_inv value (P : Value -> Prop) n : forall lo seen r es st r',
  (forall r v r', value r = Ok (v, r') -> P v /\ r = venc v ++ r') ->
  match lo with Some l => in_u64 l | None => True end ->
  collect_n n (read_entry value) ((write_uint <$> lo, seen), r) = Ok (es, (st, r')) ->
  length es = n /\ incr lo (map fst es)
  /\ Forall (fun e => in_u64 (fst e) /\ P (snd e)) es
  /\ r = concat (map venc_entry es) ++ r'.
Proof.
  induction n as [|n IH]; intros lo seen r es st r' Hval Hlo Hit.
  { simplify_eq/=. done. }
  cbn [collect_n] in Hit. destruct (read_entry value _) as [[[k v] [[pk sn] r2]]|] eqn:Hst; [|done].
  unfold read_entry in Hst. destruct (read_uint r) as [[k' r1]|] eqn:Hr; [|done].
  rewrite read_uint_lift in Hr. apply lift_Ok, read_uint_inv in Hr as [Hk ->].
  rewrite length_app, Nat.add_sub, take_app_length in Hst.
  destruct (existsb _ seen); [done|].
  destruct (match write_uint <$> lo with Some p => bytes_leb (write_uint k') p
            | None => false end) eqn:Hle; [done|].
  destruct (value r1) as [[v' r3]|] eqn:Hs; [|done]. simplify_eq.
  apply Hval in Hs as [Hv ->].
  destruct (collect_n n (read_entry value) _) as [[es' [st' r'']]|] eqn:Hc; [|done]. simplify_eq.
  change (Some (write_uint k)) with (write_uint <$> Some k) in Hc.
  apply IH in Hc as (<- & Hi & He & ->); [|done|done].
  split; [done|]. split.
  { split; [|done]. destruct lo as [l|]; [|done]. simpl in Hle |- *.
    rewrite write_uint_leb in Hle by done. by apply Z.leb_gt in Hle. }
  split; [by constructor|]. cbn [map concat].
  change (venc_entry (k, v)) with (write_uint k ++ venc v). by rewrite <- !app_assoc.
Qed.

Lemma read_entries_inv value (P : Value -> Prop) n r es r' :
  (forall r v r', value r = Ok (v, r') -> P v /\ r = venc v ++ r') ->
  read_entries value n r = Ok (es, r') ->
  length es = n /\ incr None (map fst es)
  /\ Forall (fun e => in_u64 (fst e) /\ P (snd e)) es
  /\ r = concat (map venc_entry es) ++ r'.
Proof.
  intros Hval. unfold read_entries.
  destruct (collect_n _ _ _) as [[items [st r1]]|] eqn:Hit; [|done]. intros [= <- <-].
  by apply (entries_inv value P n None [] r items st r1).
Qed.

Lemma read_value_inv left : forall r v r',
  read_value left r = Ok (v, r') ->
  canonical (inj v) /\ (depth v <= left)%nat /\ r = venc v ++ r'.
Proof.
  induction left as [|l IH]; intros r v r'; [done|]. cbn [read_value].
  destruct r as [|b t]; [done|].
  destruct (major_cases b) as [E|[E|[E|[E|[E|[E|[E|E]]]]]]]; rewrite E; try done.
  - destruct (read_uint (b :: t)) as [[n r1]|] eqn:Hh; [|done]. intros [= <- <-].
    rewrite read_uint_lift in Hh. apply lift_Ok, read_uint_inv in Hh as [Hn ->].
    split_and!; [done|simpl; lia|done].
  - destruct (read_head (b :: t)) as [[[mj a] r1]|] eqn:Hh; [|done]. intros [= <- <-].
    rewrite read_head_lift in Hh. apply lift_Ok, read_head_major in Hh as [Ha ->]. rewrite E.
    split_and!; [done|simpl; lia|done].
  - destruct (read_head (b :: t)) as [[[mj a] r1]|] eqn:Hh; [|done].
    rewrite read_head_lift in Hh. apply lift_Ok, read_head_major in Hh as [Ha ->]. rewrite E.
    destruct (take_n a r1) as [[d r2]|] eqn:Ht; [|done]. intros [= <- <-].
    rewrite take_n_lift in Ht. apply lift_Ok, take_n_inv in Ht as [-> Hl].
    unfold in_u64 in Ha. rewrite Z.max_r in Hl by lia. subst a.
    split_and!; [done|simpl; lia|]. unfold venc. simpl. by rewrite <- app_assoc.
  - destruct (read_head (b :: t)) as [[[mj a] r1]|] eqn:Hh; [|done].
    rewrite read_head_lift in Hh. apply lift_Ok, read_head_major in Hh as [Ha ->]. rewrite E.
    unfold bound_len. destruct (_ <? a); [done|].
    destruct (collect_n _ _ _) as [[items r2]|] eqn:Hc; [|done]. intros [= <- <-].
    apply (collect_n_inv _ (fun v => canonical (inj v) /\ (depth v <= l)%nat) venc)
      in Hc as (Hl & Hall & ->); [|naive_solver].
    unfold in_u64 in Ha. assert (a = Z.of_nat (length items)) as -> by lia.
    split_and!.
    + cbn [inj canonical]. rewrite length_map, foldr_and_Forall, Forall_map. split; [done|].
      eapply Forall_impl; [exact Hall|]. naive_solver.
    + cbn [depth]. apply le_n_S, (depth_le depth). eapply Forall_impl; [exact Hall|]. naive_solver.
    + by rewrite venc_Array, app_assoc.
  - destruct (read_map_len (b :: t)) as [[n r1]|] eqn:Hh; [|done].
    rewrite read_map_len_lift in Hh. apply lift_Ok, read_map_len_inv in Hh as [Hn ->].
    destruct (read_entries _ _ _) as [[es r2]|] eqn:Hc; [|done]. intros [= <- <-].
    apply (read_entries_inv _ (fun v => canonical (inj v) /\ (depth v <= l)%nat))
      in Hc as (<- & Hi & Hall & ->); [|naive_solver].
    split_and!.
    + apply canonical_entries. split_and!; [done..|].
      eapply Forall_impl; [exact Hall|]. naive_solver.
    + cbn [depth]. apply le_n_S, (depth_le (fun e => depth (snd e))).
      eapply Forall_impl; [exact Hall|]. naive_solver.
    + by rewrite venc_Map, app_assoc.
Qed.

(** ** The validator and the decoder *)

(** A canonical map whose values nest at most [d] levels. *)
Definition vcanonical (d : nat) (es : list (Z * Value)) : Prop :=
  in_u64 (Z.of_nat (length es)) /\ incr None (map fst es)
  /\ Forall (fun e => in_u64 (fst e) /\ canonical (inj (snd e)) /\ (depth (snd e) <= d)%nat) es.

Lemma venc_map_eq es :
  venc_map es = Cbor.write_type_arg 5 (Z.of_nat (length es)) ++ concat (map venc_entry es).
Proof. unfold venc_map, enc_map. by rewrite length_map, map_map. Qed.

Lemma validate_map_spec bs :
  validate_map bs = Ok tt <-> exists es, vcanonical 9 es /\ bs = venc_map es.
Proof.
  unfold validate_map, skip_map. split.
  - destruct (read_map_len bs) as [[n r1]|] eqn:Hn; [|done].
    rewrite read_map_len_lift in Hn. apply lift_Ok, read_map_len_inv in Hn as [Hn ->].
    destruct (read_entries _ _ _) as [[es r]|] eqn:Hc; [|done].
    apply (read_entries_inv _ (fun v => canonical (inj v) /\ (depth v <= 9)%nat))
      in Hc as (<- & Hi & Hall & ->); [|intros r0 v r0' H; by apply read_value_inv in H as (? & ? & ?)].
    destruct r; [|done]. intros _. exists es. split; [done|].
    by rewrite venc_map_eq, app_nil_r.
  - intros (es & (Hl & Hi & He) & ->). rewrite venc_map_eq.
    rewrite read_map_len_back; [|done|apply venc_entry_length].
    rewrite <- (app_nil_r (concat _)). rewrite read_entries_back; [done|done| |].
    + eapply Forall_impl; [exact He|]. naive_solver.
    + eapply Forall_impl; [exact He|]. intros e (_ & Hc & Hd) r. by apply read_value_back.
Qed.

Lemma decode_map_back es : vcanonical 8 es -> decode_map (venc_map es) = Ok es.
Proof.
  intros (Hl & Hi & He). unfold decode_map.
  rewrite (proj2 (validate_map_spec _)).
  2: { exists es. split; [|done]. split_and!; [done..|]. eapply Forall_impl; [exact He|].
       intros e (? & ? & ?). split_and!; [done..|lia]. }
  rewrite venc_map_eq. rewrite read_map_len_back; [|done|apply venc_entry_length].
  rewrite <- (app_nil_r (concat _)). rewrite collect_n_concat; [done|].
  eapply Forall_impl; [exact He|]. intros [k v] (Hk & Hc & Hd) r. unfold decode_entry.
  change (venc_entry (k, v)) with (write_uint k ++ venc v).
  rewrite <- app_assoc, read_uint_back by done. by rewrite read_value_back.
Qed.

(** Equal encodings of as many entries are the same entries. *)
Lemma venc_entries_inj d es es' :
  Forall (fun e => in_u64 (fst e) /\ canonical (inj (snd e)) /\ (depth (snd e) <= d)%nat) es ->
  Forall (fun e => in_u64 (fst e) /\ canonical (inj (snd e)) /\ (depth (snd e) <= d)%nat) es' ->
  length es = length es' -> concat (map venc_entry es) = concat (map venc_entry es') -> es = es'.
Proof.
  intros He He' Hlen Heq.
  set (item := fun r => let? '(k, r1) := read_uint r in
    let? '(v, r2) := read_value d r1 in Ok ((k, v), r2)).
  assert (Hitem : forall l, Forall (fun e => in_u64 (fst e) /\ canonical (inj (snd e))
    /\ (depth (snd e) <= d)%nat) l ->
    collect_n (length l) item (concat (map venc_entry l) ++ []) = Ok (l, [])).
  { intros l Hl. apply collect_n_concat. eapply Forall_impl; [exact Hl|].
    intros [k v] (Hk & Hc & Hd) r. subst item. cbn beta.
    change (venc_entry (k, v)) with (write_uint k ++ venc v).
    rewrite <- app_assoc, read_uint_back by done. by rewrite read_value_back. }
  pose proof (Hitem _ He) as H1. pose proof (Hitem _ He') as H2.
  rewrite Heq, Hlen, H2 in H1. congruence.
Qed.

Lemma decode_map_inv bs es : decode_map bs = Ok es -> vcanonical 8 es /\ bs = venc_map es.
Proof.
  unfold decode_map. destruct (validate_map bs) as [[]|] eqn:Hv; [|done].
  apply validate_map_spec in Hv as (es' & (Hl & Hi & He) & ->). rewrite venc_map_eq.
  rewrite read_map_len_back; [|done|apply venc_entry_length].
  destruct (collect_n _ _ _) as [[out r']|] eqn:Hc; [|done]. destruct r'; [|done]. intros [= <-].
  apply (collect_n_inv _ (fun e => in_u64 (fst e) /\ canonical (inj (snd e))
    /\ (depth (snd e) <= 8)%nat) venc_entry) in Hc as (Hlen & Hall & Heq).
  2: { intros r [k v] r'. unfold decode_entry.
       destruct (read_uint r) as [[k' r1]|] eqn:Hr; [|done].
       rewrite read_uint_lift in Hr. apply lift_Ok, read_uint_inv in Hr as [Hk ->].
       destruct (read_value _ r1) as [[v' r2]|] eqn:Hv; [|done]. intros [= <- <- <-].
       apply read_value_inv in Hv as (Hcv & Hd & ->). split; [done|].
       change (venc_entry (k', v')) with (write_uint k' ++ venc v'). by rewrite app_assoc. }
  rewrite app_nil_r in Heq.
  assert (es' = out) as ->.
  { apply (venc_entries_inj 9); [done| |by symmetry|done].
    eapply Forall_impl; [exact Hall|]. intros e (? & ? & ?). split_and!; [done..|lia]. }
  by split; [|rewrite venc_map_eq].
Qed.

(** ** The encoder *)

Lemma write_type_arg_same m a : write_type_arg m a = Cbor.write_type_arg m a.
Proof. done. Qed.

Fixpoint vcanon (v : Value) : Value :=
  match v with
  | Array items => Array (map vcanon items)
  | Map es => Map (sort_by_key (map (fun e => (fst e, vcanon (snd e))) es))
  | _ => v
  end.
Definition vcanon_entries (es : list (Z * Value)) : list (Z * Value) :=
  sort_by_key (map (fun e => (fst e, vcanon (snd e))) es).

Lemma inj_vcanon v : inj (vcanon v) = canon (inj v).
Proof.
  induction v as [n|n|b|items IH|es IH] using Value_ind_nested; simpl; try done.
  - f_equal. rewrite !map_map. by apply map_ext_Forall.
  - f_equal. rewrite map_map.
    rewrite <- (sort_by_key_map inj), map_map. f_equal. apply map_ext_Forall.
    eapply Forall_impl; [exact IH|]. intros e He. simpl. by rewrite He.
Qed.

Lemma foldr_max_perm {A} (f : A -> nat) l l' : l ≡ₚ l' ->
  foldr (fun x m => Nat.max (f x) m) 0%nat l = foldr (fun x m => Nat.max (f x) m) 0%nat l'.
Proof. induction 1; simpl; lia. Qed.

Lemma depth_vcanon v : depth (vcanon v) = depth v.
Proof.
  induction v as [n|n|b|items IH|es IH] using Value_ind_nested; simpl; try done; f_equal.
  - induction IH as [|x l Hx _ IHl]; simpl; [done|]. by rewrite Hx, IHl.
  - rewrite (foldr_max_perm (fun e => depth (snd e)) _ _ (sort_by_key_perm _)).
    induction IH as [|x l Hx _ IHl]; simpl; [done|]. by rewrite Hx, IHl.
Qed.

Lemma vwrite_entries_ok cs :
  write_entries (map (fun e => (fst e, Ok (venc (snd e)))) cs) = Ok (concat (map venc_entry cs)).
Proof.
  induction cs as [|[k v] cs IH]; [done|]. cbn [map write_entries fst snd]. rewrite IH.
  cbn [concat]. change (venc_entry (k, v)) with (write_type_arg 0 k ++ venc v).
  by rewrite app_assoc.
Qed.
Lemma vwrite_items_ok vs :
  write_items (map (fun v => Ok (venc v)) vs) = Ok (concat (map venc vs)).
Proof. induction vs as [|v vs IH]; simpl; [done|]. by rewrite IH. Qed.

Lemma encode_sorted_ok cs : vcanonical 9 cs ->
  encode_sorted (map (fun e => (fst e, Ok (venc (snd e)))) cs) = Ok (venc_map cs).
Proof.
  intros Hc. pose proof Hc as (_ & Hi & _). unfold encode_sorted.
  rewrite (adjacent_dup_incr None) by by rewrite map_map.
  rewrite vwrite_entries_ok, length_map, write_type_arg_same, <- venc_map_eq.
  by rewrite (proj2 (validate_map_spec _)) by eauto.
Qed.

(** Distinct keys and fitting lengths everywhere. *)
Definition vencodable (d : nat) (es : list (Z * Value)) : Prop :=
  in_u64 (Z.of_nat (length es)) /\ NoDup (map fst es)
  /\ Forall (fun e => in_u64 (fst e) /\ encodable (inj (snd e)) /\ (depth (snd e) <= d)%nat) es.

Lemma vcanon_entries_canonical d es :
  vencodable d es -> Forall (fun e => canonical (inj (vcanon (snd e)))) es ->
  vcanonical d (vcanon_entries es).
Proof.
  intros (Hl & Hd & He) Hc. unfold vcanonical, vcanon_entries.
  rewrite (sort_by_key_perm (map _ es)) at 1. rewrite length_map. split; [done|]. split.
  - apply sort_by_key_incr. by rewrite map_map.
  - rewrite sort_by_key_perm. apply Forall_map. rewrite Forall_forall in *.
    intros e Hin. simpl. rewrite depth_vcanon. destruct (He e Hin) as (? & ? & ?).
    split_and!; [done|by apply Hc|done].
Qed.

Lemma write_value_vcanon v : encodable (inj v) -> (depth v <= 9)%nat ->
  write_value v = Ok (venc (vcanon v)) /\ canonical (inj (vcanon v)).
Proof.
  intros He Hd. split; [|rewrite inj_vcanon; by apply write_value_canon].
  revert He Hd.
  induction v as [n|n|b|items IH|es IH] using Value_ind_nested; intros He Hd; try done.
  - cbn [inj encodable] in He. rewrite length_map, foldr_and_Forall, Forall_map in He.
    destruct He as [Hl He]. apply le_S_n, (depth_le depth) in Hd.
    cbn [write_value vcanon]. rewrite venc_Array, length_map.
    replace (map write_value items)
      with (map (fun v => @Ok AtomicsError _ (venc v)) (map vcanon items)).
    { by rewrite vwrite_items_ok. }
    rewrite map_map. apply map_ext_Forall. rewrite Forall_forall in *. intros v Hin.
    symmetry. apply IH; [done|by apply He|]. specialize (Hd v Hin). lia.
  - cbn [inj encodable] in He. rewrite length_map, map_map, foldr_and_Forall, Forall_map in He.
    destruct He as (Hl & Hnd & He). apply le_S_n, (depth_le (fun e => depth (snd e))) in Hd.
    cbn [write_value vcanon]. fold (vcanon_entries es). rewrite venc_Map, <- venc_map_eq.
    rewrite <- encode_sorted_ok.
    + f_equal. unfold vcanon_entries. rewrite <- (sort_by_key_map (fun v => Ok (venc v))). f_equal.
      rewrite map_map. apply map_ext_Forall. rewrite Forall_forall in *. intros e Hin. simpl.
      f_equal. apply IH; [done|by apply He|]. specialize (Hd e Hin). lia.
    + apply vcanon_entries_canonical.
      * split_and!; [done..|]. rewrite Forall_forall in *. intros e Hin.
        destruct (He e Hin). specialize (Hd e Hin). split_and!; [done..|lia].
      * rewrite Forall_forall in *. intros e Hin. rewrite inj_vcanon.
        apply write_value_canon. by apply He.
Qed.

Lemma encode_map_ok es : vencodable 9 es ->
  encode_map es = Ok (venc_map (vcanon_entries es)) /\ vcanonical 9 (vcanon_entries es).
Proof.
  intros Hes. pose proof Hes as (Hl & Hnd & He).
  assert (Hc : vcanonical 9 (vcanon_entries es)).
  { apply vcanon_entries_canonical; [done|]. eapply Forall_impl; [exact He|].
    intros e (_ & Hen & _). rewrite inj_vcanon. by apply write_value_canon. }
  split; [|done]. rewrite <- encode_sorted_ok by done. unfold encode_map, vcanon_entries.
  rewrite <- (sort_by_key_map (fun v => Ok (venc v))). do 2 f_equal.
  rewrite map_map. apply map_ext_Forall. eapply Forall_impl; [exact He|].
  intros e (_ & Hen & Hd). simpl. f_equal. by apply write_value_vcanon.
Qed.

(** Encoding and decoding are inverse up to the order of the entries. *)
Lemma acbor_roundtrip es : vencodable 8 es ->
  exists bs, encode_map es = Ok bs /\ decode_map bs = Ok (vcanon_entries es).
Proof.
  intros Hes. assert (Hes9 : vencodable 9 es).
  { destruct Hes as (? & ? & He). split_and!; [done..|]. eapply Forall_impl; [exact He|].
    intros e (? & ? & ?). split_and!; [done..|lia]. }
  destruct (encode_map_ok es Hes9) as [Hen _]. eexists. split; [exact Hen|].
  apply decode_map_back. apply vcanon_entries_canonical; [done|].
  destruct Hes as (_ & _ & He). eapply Forall_impl; [exact He|].
  intros e (_ & Hee & _). rewrite inj_vcanon. by apply write_value_canon.
Qed.

(** The encoder checks the nesting of a value one level above where the decoder
    starts to count: eight nested arrays encode and do not decode. *)
Example encode_decode_depth :
  match encode_map [(1, Nat.iter 8 (fun v => Array [v]) (Uint 0))] with
  | Ok bs => decode_map bs = Err (CborFailed DepthExceeded)
  | Err _ => False
  end.
Proof. vm_compute. reflexivity. Qed.
