(* ===== verification/AtomicKeys.v ===== *)
(** * Canonical keys and scalars of Atomic plans

    Model of the key types of [crates/residiuum-atomics/src/plan.rs], of the
    scalar encodings of [encoding.rs] and of the key order of [predicate.rs].

    Big integers come from the [num_bigint] crate.  The class [BigIntOps] names
    the two conversions the code calls, on [Z]; [BigIntLaws] states their
    documented behaviour. *)
From S2P Require Import Prelude Cbor AtomicCbor.
Import Acbor.

Inductive CanonicalKeyKind : Type := KString | KOpaque | KInteger | KDecimal.
#[global] Instance key_kind_eq_dec : EqDecision CanonicalKeyKind.
Proof. solve_decision. Defined.

Definition key_kind_wire_code (k : CanonicalKeyKind) : Z :=
  match k with KString => 1 | KOpaque => 2 | KInteger => 3 | KDecimal => 4 end.
Definition key_kind_from_wire_code (code : Z) : option CanonicalKeyKind :=
  if code =? 1 then Some KString
  else if code =? 2 then Some KOpaque
  else if code =? 3 then Some KInteger
  else if code =? 4 then Some KDecimal
  else None.

(** [KeyString] holds the UTF-8 bytes of a Rust [String]. *)
Inductive CanonicalKey : Type :=
| KeyString (s : list byte)
| KeyOpaque (b : list byte)
| KeyInteger (b : list byte)
| KeyDecimal (coefficient : list byte) (scale : Z).
#[global] Instance canonical_key_eq_dec : EqDecision CanonicalKey.
Proof. solve_decision. Defined.

Definition key_kind (k : CanonicalKey) : CanonicalKeyKind :=
  match k with
  | KeyString _ => KString | KeyOpaque _ => KOpaque
  | KeyInteger _ => KInteger | KeyDecimal _ _ => KDecimal
  end.

Definition I64_MIN : Z := - 2 ^ 63.
Definition I64_MAX : Z := 2 ^ 63 - 1.
Definition in_i64 (z : Z) : Prop := I64_MIN <= z <= I64_MAX.
Definition in_i128 (z : Z) : Prop := - 2 ^ 127 <= z < 2 ^ 127.
(** [x.to_be_bytes()] and [from_be_bytes] on [i64]. *)
Definition i64_be_bytes (z : Z) : list byte := be_bytes 8 (z mod 2 ^ 64).
Definition i64_from_be (bs : list byte) : Z :=
  let v := be_val bs in if v <? 2 ^ 63 then v else v - 2 ^ 64.

(** ** Signed integers *)

Definition invalid {A} : res A := Err (Refused InvalidValue).

(** A leading byte that only repeats the sign of the next one. *)
Definition redundant (b0 b1 : byte) : bool :=
  ((b2z b0 =? 0) && (b2z b1 <? 0x80)) || ((b2z b0 =? 0xff) && (0x80 <=? b2z b1)).

Fixpoint strip_redundant (bs : list byte) : list byte :=
  match bs with
  | b0 :: ((b1 :: _) as t) => if redundant b0 b1 then strip_redundant t else bs
  | _ => bs
  end.

(** [n] is an [i128]. *)
Definition encode_signed_integer (n : Z) : list byte :=
  if n =? 0 then [z2b 0] else strip_redundant (be_bytes 16 (n mod 2 ^ 128)).

Definition verify_signed_integer (bs : list byte) : res unit :=
  match bs with
  | [] => invalid
  | b0 :: b1 :: _ => if redundant b0 b1 then invalid else Ok tt
  | _ => Ok tt
  end.

Definition validate_canonical_key (k : CanonicalKey) : res unit :=
  match k with
  | KeyString _ | KeyOpaque _ => Ok tt
  | KeyInteger b => verify_signed_integer b
  | KeyDecimal c _ => verify_signed_integer c
  end.

Definition integer_bytes (bs : list byte) : res CanonicalKey :=
  let? _ := verify_signed_integer bs in Ok (KeyInteger bs).
Definition decimal_bytes (coefficient : list byte) (scale : Z) : res CanonicalKey :=
  let? _ := verify_signed_integer coefficient in Ok (KeyDecimal coefficient scale).
Definition key_integer (n : Z) : CanonicalKey := KeyInteger (encode_signed_integer n).
Definition key_decimal (coefficient scale : Z) : CanonicalKey :=
  KeyDecimal (encode_signed_integer coefficient) scale.

(** ** Byte forms of a key *)

Definition key_order_bytes (k : CanonicalKey) : list byte :=
  z2b (key_kind_wire_code (key_kind k)) ::
  match k with
  | KeyString s => s
  | KeyOpaque b | KeyInteger b => b
  | KeyDecimal c scale => i64_be_bytes scale ++ c
  end.

Definition subject_bytes (k : CanonicalKey) : list byte :=
  match k with
  | KeyString s => s
  | KeyOpaque b | KeyInteger b => b
  | KeyDecimal c scale => i64_be_bytes scale ++ c
  end.

Definition from_subject_bytes (kind : CanonicalKeyKind) (bs : list byte) : res CanonicalKey :=
  match kind with
  | KString => if utf8_valid bs then Ok (KeyString bs) else invalid
  | KOpaque => Ok (KeyOpaque bs)
  | KInteger => integer_bytes bs
  | KDecimal =>
      if (length bs <? 8)%nat then invalid
      else decimal_bytes (drop 8 bs) (i64_from_be (take 8 bs))
  end.

(** ** The order of keys *)

Class BigIntOps : Type := {
  from_signed_bytes_be : list byte -> Z;
  (** [magnitude().to_str_radix(10)] as ASCII bytes *)
  to_str_radix_10 : Z -> list byte }.

(** Two's complement, big-endian; the empty string is zero. *)
Definition signed_val (bs : list byte) : Z :=
  match bs with
  | [] => 0
  | b0 :: _ => if 0x80 <=? b2z b0 then be_val bs - 256 ^ Z.of_nat (length bs) else be_val bs
  end.

Definition is_digit (b : byte) : Prop := 48 <= b2z b <= 57.
Definition digits_val (ds : list byte) : Z := fold_left (fun v b => v * 10 + (b2z b - 48)) ds 0.

Class BigIntLaws (B : BigIntOps) : Prop := {
  signed_bytes_law bs : from_signed_bytes_be bs = signed_val bs;
  radix_digits m : Forall is_digit (to_str_radix_10 m);
  radix_value m : 0 < m -> digits_val (to_str_radix_10 m) = m;
  radix_leading m : 0 < m -> exists b t, to_str_radix_10 m = b :: t /\ b2z b <> 48 }.

Section Order.
Context {B : BigIntOps}.

Definition sign_rank (z : Z) : Z := if z <? 0 then 0 else if z =? 0 then 1 else 2.

(** The byte at [index], or the digit zero past the end. *)
Definition digit_at (ds : list byte) (index : nat) : Z :=
  match ds !! index with Some b => b2z b | None => 48 end.

(** [(0..length).map(..).find(|order| *order != Equal).unwrap_or(Equal)]. *)
Fixpoint first_difference (l r : list byte) (indices : list nat) : comparison :=
  match indices with
  | [] => Eq
  | i :: rest =>
      match digit_at l i ?= digit_at r i with Eq => first_difference l r rest | c => c end
  end.

Definition decimal_cmp (left : list byte) (left_scale : Z) (right : list byte) (right_scale : Z)
  : comparison :=
  let left := from_signed_bytes_be left in
  let right := from_signed_bytes_be right in
  match sign_rank left ?= sign_rank right with
  | Eq =>
      if left =? 0 then Eq
      else
      let left_digits := to_str_radix_10 (Z.abs left) in
      let right_digits := to_str_radix_10 (Z.abs right) in
      let left_exponent := Z.of_nat (length left_digits) - left_scale in
      let right_exponent := Z.of_nat (length right_digits) - right_scale in
      let magnitude :=
        match left_exponent ?= right_exponent with
        | Eq => first_difference left_digits right_digits
                  (seq 0 (Nat.max (length left_digits) (length right_digits)))
        | c => c
        end in
      if left <? 0 then CompOpp magnitude else magnitude
  | c => c
  end.

Definition malformed {A} : res A := Err (Refused MalformedInput).

Definition compare_canonical_keys (left right : CanonicalKey) : res comparison :=
  match left, right with
  | KeyString l, KeyString r => Ok (bytes_cmp l r)
  | KeyOpaque l, KeyOpaque r => Ok (bytes_cmp l r)
  | KeyInteger l, KeyInteger r => Ok (from_signed_bytes_be l ?= from_signed_bytes_be r)
  | KeyDecimal l ls, KeyDecimal r rs =>
      Ok match decimal_cmp l ls r rs with Eq => ls ?= rs | c => c end
  | _, _ => malformed
  end.

Definition key_in_range (key lower : CanonicalKey) (lower_inclusive : bool)
    (upper : CanonicalKey) (upper_inclusive : bool) : res bool :=
  let? lower_order := compare_canonical_keys key lower in
  let? upper_order := compare_canonical_keys key upper in
  Ok ((match lower_order with Gt => true | Eq => lower_inclusive | Lt => false end)
      && (match upper_order with Lt => true | Eq => upper_inclusive | Gt => false end)).
End Order.

(** ** A concrete instance, for evaluation *)

(** Decimal digits, most significant first; [fuel] bounds their number. *)
Fixpoint digits_of (fuel : nat) (m : Z) (acc : list byte) : list byte :=
  match fuel with
  | O => acc
  | S f => if m =? 0 then acc else digits_of f (m / 10) (z2b (48 + m mod 10) :: acc)
  end.
Definition sample_bigint : BigIntOps := {|
  from_signed_bytes_be := signed_val;
  to_str_radix_10 m := digits_of (S (Z.to_nat (Z.log2 m))) m [] |}.

(** * Facts about canonical keys

    Minimal two's-complement encodings are a bijection with the integers they
    denote; the order of keys is the mathematical order, decided for decimals
    on digit strings without ever aligning the scales; equal in the order means
    equal as keys. *)
From S2P Require Import CborFacts.
Import Acbor.

(** ** Big-endian values *)

Lemma le_val_app a b : le_val (a ++ b) = le_val a + 256 ^ Z.of_nat (length a) * le_val b.
Proof.
  induction a as [|x a IH]; cbn [app length].
  - change (le_val []) with 0. change (Z.of_nat 0) with 0. lia.
  - change (le_val (x :: a ++ b)) with (b2z x + 256 * le_val (a ++ b)).
    change (le_val (x :: a)) with (b2z x + 256 * le_val a).
    rewrite IH, Nat2Z.inj_succ, Z.pow_succ_r by lia. lia.
Qed.
Lemma be_val_cons b t : be_val (b :: t) = b2z b * 256 ^ Z.of_nat (length t) + be_val t.
Proof.
  unfold be_val. rewrite reverse_cons, le_val_app, length_reverse.
  change (le_val [b]) with (b2z b + 256 * 0). lia.
Qed.
Lemma be_val_inj a b : length a = length b -> be_val a = be_val b -> a = b.
Proof.
  intros Hl Hv. rewrite <- (be_bytes_val a (length a)), <- (be_bytes_val b (length a)) by done.
  by rewrite Hv.
Qed.

(** [128 * 256^k]: the half range of [k + 1] bytes. *)
Definition half (k : nat) : Z := 128 * 256 ^ Z.of_nat k.
Lemma half_pos k : 0 < half k.
Proof. unfold half. lia. Qed.
Lemma half_S k : half (S k) = 256 * half k.
Proof. unfold half. rewrite Nat2Z.inj_succ, Z.pow_succ_r by lia. lia. Qed.
Lemma half_mono k k' : (k <= k')%nat -> half k <= half k'.
Proof. intros. unfold half. pose proof (Z.pow_le_mono_r 256 (Z.of_nat k) (Z.of_nat k')). lia. Qed.

Lemma signed_val_cons b t :
  signed_val (b :: t)
  = (if 0x80 <=? b2z b then b2z b - 256 else b2z b) * 256 ^ Z.of_nat (length t) + be_val t.
Proof.
  unfold signed_val. rewrite be_val_cons. cbn [length].
  rewrite Nat2Z.inj_succ, Z.pow_succ_r by lia. case_match; lia.
Qed.

Lemma signed_val_range b t : - half (length t) <= signed_val (b :: t) < half (length t).
Proof.
  rewrite signed_val_cons. unfold half. pose proof (b2z_range b). pose proof (be_val_range t).
  case_match; boolify; nia.
Qed.

Lemma signed_val_redundant b0 b1 t :
  redundant b0 b1 = true -> signed_val (b0 :: b1 :: t) = signed_val (b1 :: t).
Proof.
  unfold redundant. intros H. rewrite !signed_val_cons, be_val_cons. cbn [length].
  rewrite Nat2Z.inj_succ, Z.pow_succ_r by lia.
  apply orb_true_iff in H as [H|H]; boolify.
  - rewrite H. rewrite (proj2 (Z.leb_gt 128 (b2z b1))) by lia. simpl. lia.
  - rewrite H. rewrite (proj2 (Z.leb_le 128 (b2z b1))) by lia. simpl. lia.
Qed.

(** A verified encoding of several bytes needs all of them. *)
Lemma verified_magnitude b0 b1 t :
  redundant b0 b1 = false ->
  signed_val (b0 :: b1 :: t) < - half (length t) \/ half (length t) <= signed_val (b0 :: b1 :: t).
Proof.
  unfold redundant. intros H. rewrite signed_val_cons, be_val_cons. cbn [length].
  rewrite Nat2Z.inj_succ, Z.pow_succ_r by lia. unfold half.
  pose proof (b2z_range b0). pose proof (b2z_range b1). pose proof (be_val_range t).
  apply orb_false_iff in H as [Ha Hb].
  apply andb_false_iff in Ha; apply andb_false_iff in Hb.
  case_match; boolify; destruct Ha, Hb; boolify; try lia; nia.
Qed.

Lemma verified_cases bs :
  verify_signed_integer bs = Ok tt ->
  exists b t, bs = b :: t /\ (t = [] \/ exists b1 t', t = b1 :: t' /\ redundant b b1 = false).
Proof.
  destruct bs as [|b [|b1 t]]; simpl; [done| |]; intros H.
  - exists b, []. auto.
  - destruct (redundant b b1) eqn:Hr; [done|]. exists b, (b1 :: t). naive_solver.
Qed.

Lemma verified_length bs bs' :
  verify_signed_integer bs = Ok tt -> verify_signed_integer bs' = Ok tt ->
  signed_val bs = signed_val bs' -> (length bs' <= length bs)%nat.
Proof.
  intros (b & t & -> & _)%verified_cases (b' & t' & -> & Ht')%verified_cases Hv.
  destruct Ht' as [->|(b1 & t1 & -> & Hr)]; [simpl; lia|].
  pose proof (signed_val_range b t) as Hrange. rewrite Hv in Hrange.
  pose proof (verified_magnitude _ _ t1 Hr) as Hmag.
  destruct (Nat.le_gt_cases (S (length t1)) (length t)) as [?|Hlt]; [simpl; lia|].
  pose proof (half_mono (length t) (length t1) ltac:(lia)). lia.
Qed.

(** An integer has one verified encoding. *)
Lemma verified_unique bs bs' :
  verify_signed_integer bs = Ok tt -> verify_signed_integer bs' = Ok tt ->
  signed_val bs = signed_val bs' -> bs = bs'.
Proof.
  intros H H' Hv. pose proof (verified_length _ _ H H' Hv).
  pose proof (verified_length _ _ H' H (eq_sym Hv)).
  assert (Hl : length bs = length bs') by lia.
  apply verified_cases in H as (b & t & -> & _). apply verified_cases in H' as (b' & t' & -> & _).
  apply be_val_inj; [done|]. simpl in Hl. unfold signed_val in Hv. cbn [length] in Hv.
  assert (Hlen : length t = length t') by lia. rewrite Hlen in Hv.
  pose proof (be_val_range (b :: t)). pose proof (be_val_range (b' :: t')).
  cbn [length] in *. rewrite Hlen in *. repeat case_match; lia.
Qed.

Lemma strip_verified bs : bs <> [] ->
  verify_signed_integer (strip_redundant bs) = Ok tt
  /\ signed_val (strip_redundant bs) = signed_val bs.
Proof.
  induction bs as [|b0 t IH]; [done|]. intros _. destruct t as [|b1 t]; [done|].
  cbn [strip_redundant]. destruct (redundant b0 b1) eqn:Hr.
  - rewrite signed_val_redundant by done. apply IH. done.
  - simpl. by rewrite Hr.
Qed.

Lemma signed_val_wide n : in_i128 n -> signed_val (be_bytes 16 (n mod 2 ^ 128)) = n.
Proof.
  intros Hn. unfold in_i128 in Hn. set (m := n mod 2 ^ 128).
  assert (Hm : 0 <= m < 2 ^ 128) by (apply Z.mod_pos_bound; lia).
  pose proof (length_be_bytes 16 m) as Hlen.
  pose proof (be_val_bytes_small 16 m ltac:(simpl; lia)) as Hval.
  destruct (be_bytes 16 m) as [|b t]; [done|].
  pose proof (signed_val_range b t) as Hr. pose proof (be_val_range (b :: t)) as Hb.
  rewrite Hval in Hb. simpl in Hlen. assert (length t = 15)%nat as Hlt by lia.
  rewrite Hlt in Hr. unfold half in Hr. change (128 * 256 ^ Z.of_nat 15) with (2 ^ 127) in Hr.
  assert (Hmod : signed_val (b :: t) = m \/ signed_val (b :: t) = m - 2 ^ 128).
  { unfold signed_val. rewrite Hval. cbn [length]. rewrite Hlt.
    change (256 ^ Z.of_nat 16) with (2 ^ 128). case_match; auto. }
  assert (Hnm : n = m \/ n = m - 2 ^ 128).
  { subst m. destruct (Z.le_gt_cases 0 n).
    - left. symmetry. apply Z.mod_small. lia.
    - right. rewrite <- (Z.mod_add n 1 (2 ^ 128)) by lia. rewrite Z.mod_small by lia. lia. }
  lia.
Qed.

(** The signed integer encoding is canonical: every [i128] encodes to bytes
    that verify and denote it, verified bytes of at most sixteen bytes are the
    encoding of the integer they denote, and no two verified byte strings of
    any length denote the same integer. *)
Theorem signed_integer_canonical :
  (forall n, in_i128 n ->
     verify_signed_integer (encode_signed_integer n) = Ok tt
     /\ signed_val (encode_signed_integer n) = n)
  /\ (forall bs, verify_signed_integer bs = Ok tt -> (length bs <= 16)%nat ->
        in_i128 (signed_val bs) /\ encode_signed_integer (signed_val bs) = bs)
  /\ (forall bs bs', verify_signed_integer bs = Ok tt -> verify_signed_integer bs' = Ok tt ->
        signed_val bs = signed_val bs' -> bs = bs').
Proof.
  assert (Henc : forall n, in_i128 n -> verify_signed_integer (encode_signed_integer n) = Ok tt
     /\ signed_val (encode_signed_integer n) = n).
  { intros n Hn. unfold encode_signed_integer. destruct (n =? 0) eqn:Hz; boolify.
    - subst n. split; reflexivity.
    - destruct (strip_verified (be_bytes 16 (n mod 2 ^ 128))) as [Hv Hs].
      { intros Hnil. pose proof (length_be_bytes 16 (n mod 2 ^ 128)). by rewrite Hnil in *. }
      split; [done|]. by rewrite Hs, signed_val_wide. }
  split; [exact Henc|]. split; [|exact verified_unique].
  intros bs Hv Hl. assert (Hin : in_i128 (signed_val bs)).
  { pose proof Hv as (b & t & -> & _)%verified_cases. simpl in Hl.
    pose proof (signed_val_range b t). pose proof (half_mono (length t) 15 ltac:(lia)) as Hh.
    unfold half in Hh at 2. change (128 * 256 ^ Z.of_nat 15) with (2 ^ 127) in Hh.
    unfold in_i128. lia. }
  split; [done|]. destruct (Henc _ Hin). by apply verified_unique.
Qed.

(** ** Decimal digits *)

Lemma digits_fold ds : forall v,
  fold_left (fun v b => v * 10 + (b2z b - 48)) ds v
  = v * 10 ^ Z.of_nat (length ds) + digits_val ds.
Proof.
  unfold digits_val. induction ds as [|b ds IH]; intros v; cbn [fold_left length].
  - change (Z.of_nat 0) with 0. lia.
  - rewrite IH, (IH (0 * 10 + (b2z b - 48))), Nat2Z.inj_succ, Z.pow_succ_r by lia. lia.
Qed.
Lemma digits_val_cons b ds :
  digits_val (b :: ds) = (b2z b - 48) * 10 ^ Z.of_nat (length ds) + digits_val ds.
Proof. unfold digits_val at 1. cbn [fold_left]. rewrite digits_fold. lia. Qed.

Lemma digits_val_range ds : Forall is_digit ds -> 0 <= digits_val ds < 10 ^ Z.of_nat (length ds).
Proof.
  induction 1 as [|b ds Hb _ IH]; [vm_compute; split; [discriminate|done]|].
  rewrite digits_val_cons. unfold is_digit in Hb. cbn [length].
  rewrite Nat2Z.inj_succ, Z.pow_succ_r by lia. nia.
Qed.
Lemma digits_val_leading b ds :
  Forall is_digit (b :: ds) -> b2z b <> 48 -> 10 ^ Z.of_nat (length ds) <= digits_val (b :: ds).
Proof.
  intros [Hb Hds]%Forall_cons Hne. rewrite digits_val_cons. unfold is_digit in Hb.
  pose proof (digits_val_range ds Hds). nia.
Qed.

(** The value of [n] digits from position [k], zeros past the end. *)
Fixpoint window (l : list byte) (k n : nat) : Z :=
  match n with
  | O => 0
  | S n' => (digit_at l k - 48) * 10 ^ Z.of_nat n' + window l (S k) n'
  end.

Lemma digit_at_range l k : Forall is_digit l -> 48 <= digit_at l k <= 57.
Proof.
  intros Hl. unfold digit_at. destruct (l !! k) as [b|] eqn:Hb; [|lia].
  rewrite Forall_lookup in Hl. by apply (Hl k b).
Qed.
Lemma window_range l n : forall k, Forall is_digit l -> 0 <= window l k n < 10 ^ Z.of_nat n.
Proof.
  induction n as [|n IH]; intros k Hl; [simpl; lia|]. cbn [window].
  pose proof (digit_at_range l k Hl). pose proof (IH (S k) Hl).
  rewrite Nat2Z.inj_succ, Z.pow_succ_r by lia. nia.
Qed.

Lemma first_difference_window l r n : forall k,
  Forall is_digit l -> Forall is_digit r ->
  first_difference l r (seq k n) = (window l k n ?= window r k n).
Proof.
  induction n as [|n IH]; intros k Hl Hr; [done|]. cbn [seq first_difference window].
  pose proof (window_range l n (S k) Hl). pose proof (window_range r n (S k) Hr).
  destruct (Z.compare_spec (digit_at l k) (digit_at r k)) as [He|Hlt|Hgt].
  - rewrite IH, He by done. destruct (Z.compare_spec (window l (S k) n) (window r (S k) n));
      symmetry; [apply Z.compare_eq_iff|apply Z.compare_lt_iff|apply Z.compare_gt_iff]; lia.
  - symmetry. apply Z.compare_lt_iff. nia.
  - symmetry. apply Z.compare_gt_iff. nia.
Qed.

Lemma window_digits l n : forall k, (length (drop k l) <= n)%nat ->
  window l k n = digits_val (drop k l) * 10 ^ (Z.of_nat n - Z.of_nat (length (drop k l))).
Proof.
  induction n as [|n IH]; intros k Hn; cbn [window].
  - destruct (drop k l) eqn:Hd; [done|simpl in Hn; lia].
  - destruct (l !! k) as [b|] eqn:Hb.
    + assert (Hd : drop k l = b :: drop (S k) l) by by apply drop_S.
      rewrite Hd in *. simpl in Hn. rewrite IH by lia. unfold digit_at. rewrite Hb.
      rewrite digits_val_cons. cbn [length].
      replace (Z.of_nat (S n) - Z.of_nat (S (length (drop (S k) l))))
        with (Z.of_nat n - Z.of_nat (length (drop (S k) l))) by lia.
      rewrite Z.mul_add_distr_r, <- Z.mul_assoc, <- Z.pow_add_r by lia.
      do 3 f_equal. lia.
    + apply lookup_ge_None in Hb. unfold digit_at.
      rewrite (proj2 (lookup_ge_None l k)) by done.
      rewrite IH by (rewrite length_drop; lia). rewrite !drop_ge by lia. unfold digits_val. simpl. lia.
Qed.

(** ** The order of decimals *)

Section Order.
Context {B : BigIntOps} {L : BigIntLaws B}.

(** The bounds that the number of digits gives. *)
Lemma radix_bounds m : 0 < m ->
  exists n, length (to_str_radix_10 m) = S n /\ 10 ^ Z.of_nat n <= m < 10 ^ Z.of_nat (S n).
Proof.
  intros Hm. destruct (radix_leading m Hm) as (b & t & Heq & Hne).
  pose proof (radix_digits m) as Hd. pose proof (radix_value m Hm) as Hv. rewrite Heq in *.
  exists (length t). split; [done|]. pose proof (digits_val_leading b t Hd Hne).
  pose proof (digits_val_range (b :: t) Hd) as [_ Hlt]. cbn [length] in Hlt. lia.
Qed.

Lemma scale_compare c x y : 0 < c -> (x * c ?= y * c) = (x ?= y).
Proof. intros. by rewrite <- Zmult_compare_compat_r by lia. Qed.

Lemma magnitude_order m1 s1 m2 s2 M :
  0 < m1 -> 0 < m2 -> s1 <= M -> s2 <= M ->
  let d1 := to_str_radix_10 m1 in
  let d2 := to_str_radix_10 m2 in
  match Z.of_nat (length d1) - s1 ?= Z.of_nat (length d2) - s2 with
  | Eq => first_difference d1 d2 (seq 0 (Nat.max (length d1) (length d2)))
  | c => c
  end = (m1 * 10 ^ (M - s1) ?= m2 * 10 ^ (M - s2)).
Proof.
  intros H1 H2 Hs1 Hs2 d1 d2.
  destruct (radix_bounds m1 H1) as (n1 & Hl1 & Hb1). destruct (radix_bounds m2 H2) as (n2 & Hl2 & Hb2).
  fold d1 in Hl1. fold d2 in Hl2.
  assert (P1 : 0 < 10 ^ (M - s1)) by lia. assert (P2 : 0 < 10 ^ (M - s2)) by lia.
  destruct (Z.compare_spec (Z.of_nat (length d1) - s1) (Z.of_nat (length d2) - s2)) as [He|Hlt|Hgt].
  - set (N := Nat.max (length d1) (length d2)).
    rewrite first_difference_window, !window_digits, !drop_0 by
      (rewrite ?drop_0; subst N; lia || apply radix_digits).
    subst d1 d2. rewrite !radix_value by done.
    set (l1 := length (to_str_radix_10 m1)) in *. set (l2 := length (to_str_radix_10 m2)) in *.
    rewrite <- (scale_compare (10 ^ (M - s1 + Z.of_nat l1)) (m1 * _)) by lia.
    rewrite <- (scale_compare (10 ^ Z.of_nat N) (m1 * 10 ^ (M - s1))) by lia.
    rewrite <- !Z.mul_assoc, <- !Z.pow_add_r by lia. f_equal; do 2 f_equal; lia.
  - symmetry. apply Z.compare_lt_iff.
    assert (Hp : 10 ^ Z.of_nat (S n1) * 10 ^ (M - s1) <= 10 ^ Z.of_nat n2 * 10 ^ (M - s2)).
    { rewrite <- !Z.pow_add_r by lia. apply Z.pow_le_mono_r; lia. }
    nia.
  - symmetry. apply Z.compare_gt_iff.
    assert (Hp : 10 ^ Z.of_nat (S n2) * 10 ^ (M - s2) <= 10 ^ Z.of_nat n1 * 10 ^ (M - s1)).
    { rewrite <- !Z.pow_add_r by lia. apply Z.pow_le_mono_r; lia. }
    nia.
Qed.

(** The comparison of decimals is that of the rationals they denote, brought to
    any common scale [M]. *)
Lemma decimal_cmp_exact l ls r rs M : ls <= M -> rs <= M ->
  decimal_cmp l ls r rs = (signed_val l * 10 ^ (M - ls) ?= signed_val r * 10 ^ (M - rs)).
Proof.
  intros Hl Hr. unfold decimal_cmp. rewrite !signed_bytes_law.
  generalize (signed_val l) (signed_val r). clear l r. intros x y. cbv zeta.
  assert (P1 : 0 < 10 ^ (M - ls)) by lia. assert (P2 : 0 < 10 ^ (M - rs)) by lia.
  unfold sign_rank. destruct (Z.ltb_spec x 0), (Z.ltb_spec y 0);
    destruct (Z.eqb_spec x 0), (Z.eqb_spec y 0); try lia; simpl Z.compare;
    try (symmetry; first [apply Z.compare_lt_iff; nia|apply Z.compare_gt_iff; nia]).
  - rewrite (magnitude_order (Z.abs x) ls (Z.abs y) rs M) by lia.
    rewrite !Z.abs_neq, !Z.mul_opp_l, Z.compare_opp by lia. by rewrite <- Z.compare_antisym.
  - by subst.
  - rewrite (magnitude_order (Z.abs x) ls (Z.abs y) rs M) by lia. by rewrite !Z.abs_eq by lia.
Qed.
End Order.

(** ** The order of keys *)

Section KeyOrder.
Context {B : BigIntOps} {L : BigIntLaws B}.

(** The comparison of two decimal keys, brought to a common scale. *)
Lemma decimal_key_order l ls r rs M : ls <= M -> rs <= M ->
  compare_canonical_keys (KeyDecimal l ls) (KeyDecimal r rs)
  = Ok match signed_val l * 10 ^ (M - ls) ?= signed_val r * 10 ^ (M - rs) with
       | Eq => ls ?= rs | c => c end.
Proof. intros. simpl. by rewrite (decimal_cmp_exact l ls r rs M). Qed.

Lemma compare_total k1 k2 : key_kind k1 = key_kind k2 ->
  exists c, compare_canonical_keys k1 k2 = Ok c
            /\ compare_canonical_keys k2 k1 = Ok (CompOpp c).
Proof.
  destruct k1 as [a|a|a|a s], k2 as [b|b|b|b s']; try done; intros _;
    [..|rewrite (decimal_key_order a s b s' (Z.max s s')), (decimal_key_order b s' a s (Z.max s s'))
          by lia]; eexists; (split; [reflexivity|]); simpl; f_equal.
  - apply bytes_cmp_antisym.
  - apply bytes_cmp_antisym.
  - apply Z.compare_antisym.
  - rewrite (Z.compare_antisym (signed_val a * _) (signed_val b * _)), (Z.compare_antisym s s').
    by destruct (_ ?= _).
Qed.

Lemma compare_Eq k1 k2 :
  validate_canonical_key k1 = Ok tt -> validate_canonical_key k2 = Ok tt ->
  compare_canonical_keys k1 k2 = Ok Eq -> k1 = k2.
Proof.
  destruct k1 as [a|a|a|a s], k2 as [b|b|b|b s']; try done; intros H1 H2;
    [..|rewrite (decimal_key_order a s b s' (Z.max s s')) by lia]; intros [= Hc].
  - by apply bytes_cmp_Eq in Hc as ->.
  - by apply bytes_cmp_Eq in Hc as ->.
  - rewrite !signed_bytes_law in Hc. apply Z.compare_eq_iff in Hc.
    f_equal. by apply verified_unique.
  - destruct (Z.compare_spec (signed_val a * 10 ^ (Z.max s s' - s))
      (signed_val b * 10 ^ (Z.max s s' - s'))) as [He|?|?]; try done.
    apply Z.compare_eq_iff in Hc as <-. apply Z.mul_cancel_r in He; [|lia].
    f_equal. by apply verified_unique.
Qed.

Lemma compare_trans k1 k2 k3 :
  compare_canonical_keys k1 k2 = Ok Lt -> compare_canonical_keys k2 k3 = Ok Lt ->
  compare_canonical_keys k1 k3 = Ok Lt.
Proof.
  destruct k1 as [a|a|a|a s], k2 as [b|b|b|b s'], k3 as [c|c|c|c s'']; try done;
    [..|set (M := Z.max s (Z.max s' s'')); rewrite (decimal_key_order a s b s' M),
        (decimal_key_order b s' c s'' M), (decimal_key_order a s c s'' M) by lia];
    intros [= H1] [= H2]; simpl; f_equal.
  - by eapply bytes_lt_trans.
  - by eapply bytes_lt_trans.
  - rewrite Z.compare_lt_iff in *. lia.
  - revert H1 H2. generalize (signed_val a * 10 ^ (M - s)) (signed_val b * 10 ^ (M - s'))
      (signed_val c * 10 ^ (M - s'')). intros x y z.
    destruct (Z.compare_spec x y), (Z.compare_spec y z), (Z.compare_spec x z);
      rewrite ?Z.compare_lt_iff; intros; try lia; done.
Qed.

(** C18. On canonical keys of one kind the comparison always answers and is a
    strict total order whose equality is equality of keys; keys of different
    kinds are refused.  Integers compare by value, and decimals by the rational
    they denote (shown at any common scale [M]) and then by scale, although the
    code only looks at digit strings and exponents. *)
Theorem canonical_key_order k1 k2 k3 :
  validate_canonical_key k1 = Ok tt -> validate_canonical_key k2 = Ok tt ->
  (key_kind k1 = key_kind k2 ->
     exists c, compare_canonical_keys k1 k2 = Ok c
               /\ compare_canonical_keys k2 k1 = Ok (CompOpp c) /\ (c = Eq <-> k1 = k2))
  /\ (key_kind k1 <> key_kind k2 -> compare_canonical_keys k1 k2 = Err (Refused MalformedInput))
  /\ (compare_canonical_keys k1 k2 = Ok Lt -> compare_canonical_keys k2 k3 = Ok Lt ->
        compare_canonical_keys k1 k3 = Ok Lt)
  /\ (forall l r, k1 = KeyInteger l -> k2 = KeyInteger r ->
        compare_canonical_keys k1 k2 = Ok (signed_val l ?= signed_val r))
  /\ (forall l ls r rs M, k1 = KeyDecimal l ls -> k2 = KeyDecimal r rs -> ls <= M -> rs <= M ->
        compare_canonical_keys k1 k2
        = Ok match signed_val l * 10 ^ (M - ls) ?= signed_val r * 10 ^ (M - rs) with
             | Eq => ls ?= rs | c => c end).
Proof.
  intros H1 H2. split_and!.
  - intros Hk. destruct (compare_total k1 k2 Hk) as (c & Hc & Hc'). exists c.
    split_and!; [done..|]. split; [intros ->; by apply compare_Eq|]. intros ->.
    rewrite Hc in Hc'. by destruct c.
  - intros Hk. by destruct k1, k2.
  - apply compare_trans.
  - intros l r -> ->. simpl. by rewrite !signed_bytes_law.
  - intros l ls r rs M -> -> ? ?. by apply decimal_key_order.
Qed.
End KeyOrder.

(** *** The sample instance satisfies the laws *)

Lemma digits_of_spec fuel : forall m acc, 0 < m -> m < 2 ^ Z.of_nat fuel ->
  exists b ds, digits_of fuel m acc = (b :: ds) ++ acc /\ b2z b <> 48
    /\ Forall is_digit (b :: ds) /\ digits_val (b :: ds) = m.
Proof.
  induction fuel as [|f IH]; intros m acc Hm Hf; [simpl in Hf; lia|].
  cbn [digits_of]. rewrite (proj2 (Z.eqb_neq m 0)) by lia.
  pose proof (Z.div_mod m 10 ltac:(lia)) as Hdm.
  pose proof (Z.mod_pos_bound m 10 ltac:(lia)) as Hmod.
  assert (Hd : b2z (z2b (48 + m mod 10)) = 48 + m mod 10) by (apply b2z_z2b_small; lia).
  destruct (Z.eq_dec (m / 10) 0) as [Hz|Hnz].
  - exists (z2b (48 + m mod 10)), []. rewrite Hz. split; [by destruct f|]. rewrite Hd.
    split_and!; [lia|repeat constructor; rewrite Hd; lia|].
    rewrite digits_val_cons, Hd. simpl. unfold digits_val. simpl. lia.
  - rewrite Nat2Z.inj_succ, Z.pow_succ_r in Hf by lia.
    assert (0 <= m / 10) by (apply Z.div_pos; lia).
    assert (m / 10 < 2 ^ Z.of_nat f) by (apply Z.div_lt_upper_bound; lia).
    destruct (IH (m / 10) (z2b (48 + m mod 10) :: acc)) as (b & ds & -> & Hb & Hall & Hv);
      [lia|done|].
    exists b, (ds ++ [z2b (48 + m mod 10)]). split; [simpl; by rewrite <- app_assoc|].
    split; [done|]. split.
    + rewrite app_comm_cons. apply Forall_app. split; [done|].
      repeat constructor; rewrite Hd; lia.
    + unfold digits_val. rewrite app_comm_cons, fold_left_app. fold (digits_val (b :: ds)).
      rewrite Hv. simpl. rewrite Hd. lia.
Qed.

#[global] Instance sample_bigint_laws : BigIntLaws sample_bigint.
Proof.
  assert (Hspec : forall m, 0 < m -> exists b ds, @to_str_radix_10 sample_bigint m = b :: ds
    /\ b2z b <> 48 /\ Forall is_digit (b :: ds) /\ digits_val (b :: ds) = m).
  { intros m Hm. cbn [to_str_radix_10 sample_bigint]. pose proof (Z.log2_spec m Hm) as [_ Hlt]. pose proof (Z.log2_nonneg m).
    destruct (digits_of_spec (S (Z.to_nat (Z.log2 m))) m []) as (b & ds & Heq & ?); [done| |].
    - by rewrite Nat2Z.inj_succ, Z2Nat.id.
    - rewrite Heq, app_nil_r. eauto. }
  split.
  - done.
  - intros m. destruct (Z.lt_ge_cases 0 m) as [Hm|Hm].
    + by destruct (Hspec m Hm) as (b & ds & -> & _ & ? & _).
    + cbn [to_str_radix_10 sample_bigint]. rewrite Z.log2_nonpos by lia. simpl. destruct (m =? 0) eqn:Hz; [constructor|].
      constructor; [|constructor]. unfold is_digit.
      pose proof (Z.mod_pos_bound m 10 ltac:(lia)). rewrite b2z_z2b_small by lia. lia.
  - intros m Hm. by destruct (Hspec m Hm) as (b & ds & -> & _ & _ & ?).
  - intros m Hm. destruct (Hspec m Hm) as (b & ds & -> & ? & _). eauto.
Qed.

(** 1.50 and 1.5 denote the same number; the scale breaks the tie. *)
Lemma canonical_key_order_witness :
  @compare_canonical_keys sample_bigint (key_decimal 15 1) (key_decimal 150 2) = Ok Lt
  /\ @compare_canonical_keys sample_bigint (key_decimal 15 1) (key_decimal 150 2)
     = Ok (match 15 * 10 ^ (2 - 1) ?= 150 * 10 ^ (2 - 2) with Eq => 1 ?= 2 | c => c end).
Proof.
  split; [reflexivity|].
  destruct (canonical_key_order (B := sample_bigint) (key_decimal 15 1) (key_decimal 150 2)
    (key_decimal 15 1) eq_refl eq_refl) as (_ & _ & _ & _ & Hdec).
  apply (Hdec (encode_signed_integer 15) 1 (encode_signed_integer 150) 2 2); done || lia.
Defined.
