(* ===== verification/AtomicPlan.v ===== *)
(** * Closed Atomic plans

    Model of the plan data of [crates/residiuum-atomics/src/plan.rs], the
    limits of [limits.rs], the compiled predicate payloads of [predicate.rs]
    and [encoding.rs], closing, encoding and decoding of plans in
    [canonical.rs], the accounting of [encode.rs] and the validator of
    [validate.rs].

    BLAKE3 is a third-party crate: the class [Blake3] holds the digest as a
    function of the bytes fed to the hasher. *)
From S2P Require Import Prelude Cbor AtomicCbor AtomicKeys.
Import Acbor.
Open Scope list_scope.
Open Scope Z_scope.

Class Blake3 : Type := blake3 : list byte -> list byte.
Class Blake3Laws (H : Blake3) : Prop := blake3_length bs : length (blake3 bs) = 32%nat.


Definition DOMAIN_ATOMIC_CONTENT : list byte := lit "RESIDIUUM-ATOMIC-CONTENT-V1".
Definition DOMAIN_RANGE_COVERAGE : list byte :=
  lit "RESIDIUUM-AUTHORITATIVE-PRIMARY-KEY-COVERAGE-V1".
Definition DOMAIN_RANGE_IDENTITY : list byte := lit "RESIDIUUM-ATOMIC-RANGE-IDENTITY-V1".
Definition DOMAIN_RANGE_RESULT : list byte := lit "RESIDIUUM-ATOMIC-RANGE-RESULT-V1".

(** ** Identities

    Identities are byte strings of fixed width; [from_bytes] refuses zero. *)

Definition zeros (n : nat) : list byte := replicate n (z2b 0).
Definition id_of (what : string) (n : nat) (bs : list byte) : res (list byte) :=
  if bool_decide (bs = zeros n) then Err (InvalidIdentity what) else Ok bs.
Definition AtomicId_from_bytes := id_of "AtomicId is zero" 32.
Definition HeapId_from_bytes := id_of "HeapId is zero" 16.
Definition CollectionId_from_bytes := id_of "CollectionId is zero" 16.
Definition VersionId_from_bytes := id_of "VersionId is zero" 16.

(** ** Limits *)

(** [construction_deadline] is a [Duration], in nanoseconds. *)
Record ResourceLimits := {
  caller_mutations : Z;
  total_generated_members : Z;
  canonical_plan_bytes : Z;
  total_proposed_value_bytes : Z;
  read_witnesses : Z;
  l_predicates : Z;
  affected_collections_limit : Z;
  l_active_rule_revisions : Z;
  construction_deadline : Z;
  emitted_violations : Z }.

Definition secs (n : Z) : Z := n * 1000000000.

Definition hard_key : ResourceLimits := {|
  caller_mutations := 1; total_generated_members := 32; canonical_plan_bytes := 256 * 1024;
  total_proposed_value_bytes := 4 * 1024 * 1024; read_witnesses := 64; l_predicates := 32;
  affected_collections_limit := 1; l_active_rule_revisions := 64;
  construction_deadline := secs 2; emitted_violations := 1024 |}.
Definition hard_local_heap : ResourceLimits := {|
  caller_mutations := 256; total_generated_members := 4096; canonical_plan_bytes := 1024 * 1024;
  total_proposed_value_bytes := 8 * 1024 * 1024; read_witnesses := 4096; l_predicates := 1024;
  affected_collections_limit := 64; l_active_rule_revisions := 1024;
  construction_deadline := secs 5; emitted_violations := 1024 |}.
Definition hard_partition : ResourceLimits := hard_local_heap.
Definition builder_defaults_local_heap : ResourceLimits := {|
  caller_mutations := 64; total_generated_members := 4096; canonical_plan_bytes := 512 * 1024;
  total_proposed_value_bytes := 4 * 1024 * 1024; read_witnesses := 4096; l_predicates := 1024;
  affected_collections_limit := 16; l_active_rule_revisions := 1024;
  construction_deadline := secs 5; emitted_violations := 1024 |}.

Definition is_within (a b : ResourceLimits) : bool :=
  (caller_mutations a <=? caller_mutations b)
  && (total_generated_members a <=? total_generated_members b)
  && (canonical_plan_bytes a <=? canonical_plan_bytes b)
  && (total_proposed_value_bytes a <=? total_proposed_value_bytes b)
  && (read_witnesses a <=? read_witnesses b)
  && (l_predicates a <=? l_predicates b)
  && (affected_collections_limit a <=? affected_collections_limit b)
  && (l_active_rule_revisions a <=? l_active_rule_revisions b)
  && (construction_deadline a <=? construction_deadline b)
  && (emitted_violations a <=? emitted_violations b).

(** ** Vocabulary *)

Inductive CoordinationScope : Type := ScopeKey | ScopeLocalHeap | ScopePartition.
Definition scope_wire_code (s : CoordinationScope) : Z :=
  match s with ScopeKey => 1 | ScopeLocalHeap => 2 | ScopePartition => 3 end.
Definition scope_from_wire_code (code : Z) : option CoordinationScope :=
  if code =? 1 then Some ScopeKey
  else if code =? 2 then Some ScopeLocalHeap
  else if code =? 3 then Some ScopePartition
  else None.
Definition hard_limits (s : CoordinationScope) : ResourceLimits :=
  match s with
  | ScopeKey => hard_key | ScopeLocalHeap => hard_local_heap | ScopePartition => hard_partition
  end.

(** [Unknown] is only built by [profile_from_wire_code]. *)
Inductive AtomicProfile : Type := LocalHeapV1 | UnknownProfile (code : Z).
Definition execution_supported (p : AtomicProfile) : bool :=
  match p with LocalHeapV1 => true | UnknownProfile _ => false end.
Definition execution_supports_scope (p : AtomicProfile) (s : CoordinationScope) : bool :=
  match p with
  | LocalHeapV1 => match s with ScopeKey | ScopeLocalHeap => true | ScopePartition => false end
  | UnknownProfile _ => false
  end.
Definition profile_wire_code (p : AtomicProfile) : Z :=
  match p with LocalHeapV1 => 1 | UnknownProfile code => code end.
Definition profile_from_wire_code (code : Z) : AtomicProfile :=
  if code =? 1 then LocalHeapV1 else UnknownProfile code.

Inductive MutationKind : Type := MCreate | MPut | MReplace | MDelete.
#[global] Instance mutation_kind_eq_dec : EqDecision MutationKind.
Proof. solve_decision. Defined.
Definition mutation_wire_code (k : MutationKind) : Z :=
  match k with MCreate => 1 | MPut => 2 | MReplace => 3 | MDelete => 4 end.
Definition mutation_from_wire_code (code : Z) : option MutationKind :=
  if code =? 1 then Some MCreate
  else if code =? 2 then Some MPut
  else if code =? 3 then Some MReplace
  else if code =? 4 then Some MDelete
  else None.

Inductive PredicateKind : Type :=
| AssertAbsent | AssertPresent | AssertVersion | ExactScalarEqualityK
| BoundedKeyRangeAbsence | BoundedKeyRangePresence | ActiveRuleRevisionEquality
| CollectionLifecycleStateK | HeapAuthorityRevision.
#[global] Instance predicate_kind_eq_dec : EqDecision PredicateKind.
Proof. solve_decision. Defined.
Definition is_public_builder_assert (k : PredicateKind) : bool :=
  match k with AssertAbsent | AssertPresent | AssertVersion => true | _ => false end.
Definition is_closed_plan_predicate (k : PredicateKind) : bool :=
  is_public_builder_assert k
  || match k with
     | ExactScalarEqualityK | BoundedKeyRangeAbsence | BoundedKeyRangePresence
     | ActiveRuleRevisionEquality | CollectionLifecycleStateK | HeapAuthorityRevision => true
     | _ => false
     end.
Definition predicate_wire_code (k : PredicateKind) : Z :=
  match k with
  | AssertAbsent => 1 | AssertPresent => 2 | AssertVersion => 3 | ExactScalarEqualityK => 4
  | BoundedKeyRangeAbsence => 5 | BoundedKeyRangePresence => 6
  | ActiveRuleRevisionEquality => 7 | CollectionLifecycleStateK => 8
  | HeapAuthorityRevision => 9
  end.
Definition predicate_from_wire_code (code : Z) : option PredicateKind :=
  if code =? 1 then Some AssertAbsent
  else if code =? 2 then Some AssertPresent
  else if code =? 3 then Some AssertVersion
  else if code =? 4 then Some ExactScalarEqualityK
  else if code =? 5 then Some BoundedKeyRangeAbsence
  else if code =? 6 then Some BoundedKeyRangePresence
  else if code =? 7 then Some ActiveRuleRevisionEquality
  else if code =? 8 then Some CollectionLifecycleStateK
  else if code =? 9 then Some HeapAuthorityRevision
  else None.

Record ReadWitness := {
  r_collection_id : list byte;
  r_key : CanonicalKey;
  observed_version : option (list byte);
  projection_hash : list byte }.

Record PlanMutation := {
  m_kind : MutationKind;
  m_collection_id : list byte;
  m_key : CanonicalKey;
  encoded_value : option (list byte);
  if_version : option (list byte) }.

Record PlanPredicate := {
  p_kind : PredicateKind;
  p_collection_id : option (list byte);
  p_key : option CanonicalKey;
  p_version : option (list byte);
  p_encoded : option (list byte) }.

Record AtomicPlanParts := {
  profile : AtomicProfile;
  atomic_id : list byte;
  heap_id : list byte;
  scope : CoordinationScope;
  read_frontier : option (list byte);
  reads : list ReadWitness;
  predicates : list PlanPredicate;
  mutations : list PlanMutation;
  active_rule_revisions : list (list byte);
  limits : ResourceLimits }.

(** The closed plan has the fields of the parts it was closed from. *)
Record AtomicPlan := from_closed { parts : AtomicPlanParts }.

(** ** Field access in decoded maps *)

Definition field (m : list (Z * Value)) (key : Z) : option Value :=
  match find (fun e => fst e =? key) m with Some (_, v) => Some v | None => None end.
Definition cbor_err {A} (e : CborError) : res A := Err (CborFailed e).

Definition as_map (v : Value) : res (list (Z * Value)) :=
  match v with Map m => Ok m | _ => cbor_err NotMap end.
Definition require_value (m : list (Z * Value)) (key : Z) : res Value :=
  match field m key with Some v => Ok v | None => malformed end.
Definition require_u64 (m : list (Z * Value)) (key : Z) : res Z :=
  let? v := require_value m key in
  match v with Uint n => Ok n | _ => cbor_err Unsupported end.
(** [uN::try_from(..)] with the maximum of the width. *)
Definition require_uint_max (max : Z) (m : list (Z * Value)) (key : Z) : res Z :=
  let? n := require_u64 m key in
  if n <=? max then Ok n else cbor_err Unsupported.
Definition require_u32 := require_uint_max U32_MAX.
Definition require_u16 := require_uint_max U16_MAX.
Definition require_u8 := require_uint_max U8_MAX.
Definition require_bytes (m : list (Z * Value)) (key : Z) : res (list byte) :=
  let? v := require_value m key in
  match v with Bytes b => Ok b | _ => cbor_err Unsupported end.
Definition require_array (m : list (Z * Value)) (key : Z) : res (list Value) :=
  let? v := require_value m key in
  match v with Array a => Ok a | _ => cbor_err Unsupported end.
Definition require_map (m : list (Z * Value)) (key : Z) : res (list (Z * Value)) :=
  let? v := require_value m key in as_map v.
(** [<[u8; N]>::try_from(b)]. *)
Definition fixed (n : nat) (b : list byte) : res (list byte) :=
  if (length b =? n)%nat then Ok b else malformed.
Definition require_bstr (n : nat) (m : list (Z * Value)) (key : Z) : res (list byte) :=
  let? b := require_bytes m key in fixed n b.
Definition optional_bytes (m : list (Z * Value)) (key : Z) : res (option (list byte)) :=
  match field m key with
  | None => Ok None
  | Some (Bytes b) => Ok (Some b)
  | Some _ => cbor_err Unsupported
  end.
Definition optional_bstr32 (m : list (Z * Value)) (key : Z) : res (option (list byte)) :=
  let? o := optional_bytes m key in
  match o with None => Ok None | Some b => let? b := fixed 32 b in Ok (Some b) end.
(** [optional_version] and [optional_collection]: 16 bytes, not zero. *)
Definition optional_id (from : list byte -> res (list byte)) (m : list (Z * Value)) (key : Z)
  : res (option (list byte)) :=
  let? o := optional_bytes m key in
  match o with
  | None => Ok None
  | Some b => let? b := fixed 16 b in let? id := from b in Ok (Some id)
  end.
Definition optional_version := optional_id VersionId_from_bytes.
Definition optional_collection := optional_id CollectionId_from_bytes.

Fixpoint refuse_unknown_keys (m : list (Z * Value)) (allowed : list Z) : res unit :=
  match m with
  | [] => Ok tt
  | (k, _) :: rest =>
      if existsb (Z.eqb k) allowed then refuse_unknown_keys rest allowed else malformed
  end.

(** [.iter().map(f).collect::<Result<Vec<_>, _>>()]. *)
Fixpoint traverse {A C} (f : A -> res C) (l : list A) : res (list C) :=
  match l with
  | [] => Ok []
  | x :: t => let? y := f x in let? ys := traverse f t in Ok (y :: ys)
  end.
Fixpoint for_each {A} (f : A -> res unit) (l : list A) : res unit :=
  match l with
  | [] => Ok tt
  | x :: t => let? _ := f x in for_each f t
  end.

(** ** Keys in CBOR *)

(** [n] is an [i64]; [!n] is [-n - 1]. *)
Definition encode_int (n : Z) : Value := if 0 <=? n then Uint n else Nint (- n - 1).
(** [mag.checked_neg()] and [checked_sub(1)] cannot fail once [mag] is an [i64]. *)
Definition decode_int (v : Value) : res Z :=
  match v with
  | Uint n => if n <=? I64_MAX then Ok n else cbor_err Unsupported
  | Nint n => if n <=? I64_MAX then Ok (- n - 1) else cbor_err Unsupported
  | _ => cbor_err Unsupported
  end.

Definition encode_key_map (k : CanonicalKey) : res (list (Z * Value)) :=
  let? _ := validate_canonical_key k in
  let payload :=
    match k with
    | KeyString s => s
    | KeyOpaque b | KeyInteger b => b
    | KeyDecimal c _ => c
    end in
  let entries := [(1, Uint (key_kind_wire_code (key_kind k))); (2, Bytes payload)] in
  Ok (entries ++ match k with KeyDecimal _ scale => [(3, encode_int scale)] | _ => [] end).

Definition refuse_scale_on_non_decimal (has_scale : bool) : res unit :=
  if has_scale then malformed else Ok tt.

Definition decode_key (v : Value) : res CanonicalKey :=
  let? m := as_map v in
  let? _ := refuse_unknown_keys m [1; 2; 3] in
  let? kind := require_u8 m 1 in
  let? payload := require_bytes m 2 in
  let has_scale := existsb (fun e => fst e =? 3) m in
  if kind =? 1 then
    let? _ := refuse_scale_on_non_decimal has_scale in
    if utf8_valid payload then Ok (KeyString payload) else invalid
  else if kind =? 2 then
    let? _ := refuse_scale_on_non_decimal has_scale in Ok (KeyOpaque payload)
  else if kind =? 3 then
    let? _ := refuse_scale_on_non_decimal has_scale in integer_bytes payload
  else if kind =? 4 then
    let? sv := require_value m 3 in
    let? scale := decode_int sv in
    decimal_bytes payload scale
  else invalid.

(** ** Compiled predicate payloads *)

Inductive ValueEncoding : Type := VBytes | VUtf8 | VInteger | VDecimal.
Definition value_encoding_wire_code (e : ValueEncoding) : Z :=
  match e with VBytes => 1 | VUtf8 => 2 | VInteger => 3 | VDecimal => 4 end.
Definition value_encoding_from_wire_code (code : Z) : option ValueEncoding :=
  if code =? 1 then Some VBytes
  else if code =? 2 then Some VUtf8
  else if code =? 3 then Some VInteger
  else if code =? 4 then Some VDecimal
  else None.

(** The decimal scale of [encoding.rs]: the same as [decode_int] up to the error. *)
Definition decode_int_value (v : Value) : res Z :=
  match v with
  | Uint n => if n <=? I64_MAX then Ok n else invalid
  | Nint n => if n <=? I64_MAX then Ok (- n - 1) else invalid
  | _ => invalid
  end.

Definition encode_decimal_value (coefficient scale : Z) : res (list byte) :=
  encode_map [(1, Uint (key_kind_wire_code KDecimal));
              (2, Bytes (encode_signed_integer coefficient)); (3, encode_int scale)].

Definition verify_decimal_value (bs : list byte) : res (list byte * Z) :=
  match decode_map bs with
  | Err _ => invalid
  | Ok m =>
      if negb (length m =? 3)%nat then invalid
      else match field m 1 with
      | Some (Uint kind) =>
          if negb (kind =? key_kind_wire_code KDecimal) then invalid
          else match field m 2 with
          | Some (Bytes coefficient) =>
              match field m 3 with
              | Some v =>
                  let? scale := decode_int_value v in
                  let? _ := verify_signed_integer coefficient in
                  Ok (coefficient, scale)
              | None => invalid
              end
          | _ => invalid
          end
      | _ => invalid
      end
  end.

Definition admit_bytes (e : ValueEncoding) (bs : list byte) : res unit :=
  match e with
  | VBytes => Ok tt
  | VUtf8 => if utf8_valid bs then Ok tt else invalid
  | VInteger => verify_signed_integer bs
  | VDecimal => let? _ := verify_decimal_value bs in Ok tt
  end.

(** Field access of [predicate.rs]: every failure is [MalformedInput]. *)
Definition pred_uint (m : list (Z * Value)) (key : Z) : res Z :=
  match field m key with Some (Uint n) => Ok n | _ => malformed end.
Definition pred_bytes (m : list (Z * Value)) (key : Z) : res (list byte) :=
  match field m key with Some (Bytes b) => Ok b | _ => malformed end.
Definition pred_fixed (n : nat) (m : list (Z * Value)) (key : Z) : res (list byte) :=
  let? b := pred_bytes m key in fixed n b.
Definition pred_bool (m : list (Z * Value)) (key : Z) : res bool :=
  let? n := pred_uint m key in
  if n =? 0 then Ok false else if n =? 1 then Ok true else malformed.
Definition pred_map (bs : list byte) : res (list (Z * Value)) :=
  match decode_map bs with Ok m => Ok m | Err _ => malformed end.
Definition pred_u32 (m : list (Z * Value)) (key : Z) : res Z :=
  let? n := pred_uint m key in if n <=? U32_MAX then Ok n else malformed.

Inductive CollectionLifecycleState : Type := LAbsent | LActive | LRetired.
#[global] Instance lifecycle_state_eq_dec : EqDecision CollectionLifecycleState.
Proof. solve_decision. Defined.
Definition lifecycle_wire_code (s : CollectionLifecycleState) : Z :=
  match s with LAbsent => 0 | LActive => 1 | LRetired => 2 end.
Definition lifecycle_from_wire_code (code : Z) : option CollectionLifecycleState :=
  if code =? 0 then Some LAbsent
  else if code =? 1 then Some LActive
  else if code =? 2 then Some LRetired
  else None.

Definition encode_collection_lifecycle_payload (expected : CollectionLifecycleState)
  : res (list byte) :=
  encode_map [(1, Uint 1); (2, Uint (lifecycle_wire_code expected))].
Definition decode_collection_lifecycle_payload (bs : list byte) : res CollectionLifecycleState :=
  let? m := pred_map bs in
  if negb (length m =? 2)%nat then malformed
  else
    let? profile := pred_uint m 1 in
    if negb (profile =? 1) then malformed
    else
      let? code := pred_uint m 2 in
      match lifecycle_from_wire_code code with Some s => Ok s | None => malformed end.

Record ExactScalarEquality := { es_encoding : ValueEncoding; es_expected : list byte }.
Definition exact_scalar_new (e : ValueEncoding) (expected : list byte)
  : res ExactScalarEquality :=
  let? _ := admit_bytes e expected in Ok {| es_encoding := e; es_expected := expected |}.
Definition exact_scalar_evaluate (p : ExactScalarEquality) (observed : option (list byte)) : bool :=
  bool_decide (observed = Some (es_expected p)).
Definition encode_exact_scalar_payload (p : ExactScalarEquality) : res (list byte) :=
  encode_map [(1, Uint 1); (2, Uint (value_encoding_wire_code (es_encoding p)));
              (3, Bytes (es_expected p))].
Definition decode_exact_scalar_payload (bs : list byte) : res ExactScalarEquality :=
  let? m := pred_map bs in
  if negb (length m =? 3)%nat then malformed
  else
    let? profile := pred_uint m 1 in
    if negb (profile =? 1) then malformed
    else
      let? code := pred_uint m 2 in
      match (if code <=? U8_MAX then value_encoding_from_wire_code code else None) with
      | None => malformed
      | Some e =>
          let? expected := pred_bytes m 3 in
          match exact_scalar_new e expected with Ok p => Ok p | Err _ => malformed end
      end.

Definition CANONICAL_KEY_ORDER_V1 : Z := 1.
Definition MAX_RANGE_RESULT_ENTRIES : Z := 4096.
Definition MAX_RANGE_EXAMINED : Z := 1000000.

Record RangeEntry := { re_key : CanonicalKey; re_version : list byte }.
Record BoundedKeyRange := {
  bk_collection_id : list byte;
  bk_key_kind : CanonicalKeyKind;
  bk_lower : CanonicalKey;
  bk_lower_inclusive : bool;
  bk_upper : CanonicalKey;
  bk_upper_inclusive : bool;
  examination_limit : Z;
  expected_count : Z;
  expected_result : list byte;
  bk_range_identity : list byte }.

Section Ranges.
Context {H : Blake3} {B : BigIntOps}.

Definition range_coverage_domain : list byte := blake3 DOMAIN_RANGE_COVERAGE.

Definition hash_key (k : CanonicalKey) : list byte :=
  let bs := key_order_bytes k in be_bytes 4 (as_u32 (Z.of_nat (length bs))) ++ bs.

Definition u8_of_bool (b : bool) : byte := z2b (if b then 1 else 0).

Definition range_identity (collection_id : list byte) (kind : CanonicalKeyKind)
    (lower : CanonicalKey) (lower_inclusive : bool) (upper : CanonicalKey)
    (upper_inclusive : bool) : list byte :=
  blake3 (DOMAIN_RANGE_IDENTITY ++ collection_id
    ++ [z2b (key_kind_wire_code kind); z2b CANONICAL_KEY_ORDER_V1]
    ++ hash_key lower ++ [u8_of_bool lower_inclusive]
    ++ hash_key upper ++ [u8_of_bool upper_inclusive] ++ range_coverage_domain).

Definition range_result_commitment (collection_id : list byte) (entries : list RangeEntry)
  : list byte :=
  blake3 (DOMAIN_RANGE_RESULT ++ collection_id
    ++ be_bytes 4 (as_u32 (Z.of_nat (length entries)))
    ++ concat (map (fun e => hash_key (re_key e) ++ re_version e) entries)).

(** [compare_canonical_keys(..).unwrap_or(Ordering::Equal)] on the entries. *)
Definition entry_cmp (a b : RangeEntry) : comparison :=
  match compare_canonical_keys (re_key a) (re_key b) with Ok c => c | Err _ => Eq end.

Definition bounds_ordered (bound_order : comparison) (li ui : bool) : bool :=
  match bound_order with Gt => false | Eq => li && ui | Lt => true end.

(** The check of the sorted entries: kind, range, strictly increasing. *)
Fixpoint check_entries (kind : CanonicalKeyKind) (lower : CanonicalKey) (li : bool)
    (upper : CanonicalKey) (ui : bool) (prev : option CanonicalKey) (l : list RangeEntry)
  : res unit :=
  match l with
  | [] => Ok tt
  | e :: rest =>
      if negb (bool_decide (key_kind (re_key e) = kind)) then malformed
      else
      let? inside := key_in_range (re_key e) lower li upper ui in
      if negb inside then malformed
      else
      let? above :=
        match prev with
        | None => Ok true
        | Some p =>
            let? c := compare_canonical_keys p (re_key e) in
            Ok match c with Lt => true | _ => false end
        end in
      if above then check_entries kind lower li upper ui (Some (re_key e)) rest else malformed
  end.

Definition range_observed (collection_id : list byte) (lower : CanonicalKey) (li : bool)
    (upper : CanonicalKey) (ui : bool) (limit : Z) (entries : list RangeEntry)
  : res BoundedKeyRange :=
  let kind := key_kind lower in
  if negb (bool_decide (key_kind upper = kind)) || (limit =? 0) || (MAX_RANGE_EXAMINED <? limit)
     || (MAX_RANGE_RESULT_ENTRIES <? Z.of_nat (length entries))
  then malformed
  else
  let? bound_order := compare_canonical_keys lower upper in
  if negb (bounds_ordered bound_order li ui) then malformed
  else
  let ordered := sort_by entry_cmp entries in
  let? _ := check_entries kind lower li upper ui None ordered in
  let count := Z.of_nat (length ordered) in
  if limit <? count then malformed
  else Ok {|
    bk_collection_id := collection_id; bk_key_kind := kind; bk_lower := lower;
    bk_lower_inclusive := li; bk_upper := upper; bk_upper_inclusive := ui;
    examination_limit := limit; expected_count := count;
    expected_result := range_result_commitment collection_id ordered;
    bk_range_identity := range_identity collection_id kind lower li upper ui |}.

Definition range_contains (r : BoundedKeyRange) (key : CanonicalKey) : res bool :=
  key_in_range key (bk_lower r) (bk_lower_inclusive r) (bk_upper r) (bk_upper_inclusive r).

Definition matches_entries (r : BoundedKeyRange) (entries : list RangeEntry) : bool :=
  if negb (Z.of_nat (length entries) =? expected_count r) then false
  else bool_decide (range_result_commitment (bk_collection_id r) (sort_by entry_cmp entries)
                    = expected_result r).

Definition encode_bounded_range_payload (r : BoundedKeyRange) : res (list byte) :=
  let? lower := encode_key_map (bk_lower r) in
  let? upper := encode_key_map (bk_upper r) in
  encode_map [
    (1, Uint 1); (2, Bytes (bk_collection_id r));
    (3, Uint (key_kind_wire_code (bk_key_kind r))); (4, Uint CANONICAL_KEY_ORDER_V1);
    (5, Map lower); (6, Uint (if bk_lower_inclusive r then 1 else 0));
    (7, Map upper); (8, Uint (if bk_upper_inclusive r then 1 else 0));
    (9, Bytes range_coverage_domain); (10, Uint (examination_limit r));
    (11, Uint (expected_count r)); (12, Bytes (expected_result r));
    (13, Bytes (bk_range_identity r))].

Definition decode_bounded_range_payload (bs : list byte) : res BoundedKeyRange :=
  let? m := pred_map bs in
  if negb (length m =? 13)%nat then malformed
  else
  let? prof := pred_uint m 1 in
  if negb (prof =? 1) then malformed
  else
  let? raw := pred_fixed 16 m 2 in
  let? collection_id := CollectionId_from_bytes raw in
  let? code := pred_uint m 3 in
  match (if code <=? U8_MAX then key_kind_from_wire_code code else None) with
  | None => malformed
  | Some kind =>
  let? order := pred_uint m 4 in
  if negb (order =? CANONICAL_KEY_ORDER_V1) then malformed
  else
  let? coverage := pred_fixed 32 m 9 in
  if negb (bool_decide (coverage = range_coverage_domain)) then malformed
  else
  let? lv := require_value m 5 in
  let? lower := decode_key lv in
  let? li := pred_bool m 6 in
  let? uv := require_value m 7 in
  let? upper := decode_key uv in
  let? ui := pred_bool m 8 in
  let? limit := pred_u32 m 10 in
  let? count := pred_u32 m 11 in
  let? result_hash := pred_fixed 32 m 12 in
  let? encoded_identity := pred_fixed 32 m 13 in
  if negb (bool_decide (key_kind lower = kind)) || negb (bool_decide (key_kind upper = kind))
     || (limit =? 0) || (MAX_RANGE_EXAMINED <? limit) || (MAX_RANGE_RESULT_ENTRIES <? count)
     || (limit <? count)
  then malformed
  else
  let? bound_order := compare_canonical_keys lower upper in
  if negb (bounds_ordered bound_order li ui) then malformed
  else
  let identity := range_identity collection_id kind lower li upper ui in
  if negb (bool_decide (encoded_identity = identity)) then malformed
  else Ok {|
    bk_collection_id := collection_id; bk_key_kind := kind; bk_lower := lower;
    bk_lower_inclusive := li; bk_upper := upper; bk_upper_inclusive := ui;
    examination_limit := limit; expected_count := count; expected_result := result_hash;
    bk_range_identity := identity |}
  end.
End Ranges.

(** ** Closing a plan *)

(** The orders of [canonical.rs] are lexicographic on tuples of byte strings; a
    [u8] component is a string of one byte. *)
Definition byte_key (code : Z) : list byte := [z2b code].

Definition target_order (heap : list byte) (m : PlanMutation) : list (list byte) :=
  [heap; m_collection_id m; key_order_bytes (m_key m); byte_key (mutation_wire_code (m_kind m))].
Definition optional_order (o : option (list byte)) : list byte :=
  match o with None => [z2b 0] | Some b => z2b 1 :: b end.
Definition read_order (heap : list byte) (r : ReadWitness) : list (list byte) :=
  [heap; r_collection_id r; key_order_bytes (r_key r); optional_order (observed_version r);
   projection_hash r].
Definition unwrap_or_default (o : option (list byte)) : list byte :=
  match o with Some b => b | None => [] end.
Definition pred_order (heap : list byte) (p : PlanPredicate) : list (list byte) :=
  [heap; unwrap_or_default (p_collection_id p);
   unwrap_or_default (key_order_bytes <$> p_key p); byte_key (predicate_wire_code (p_kind p));
   optional_order (p_version p); optional_order (p_encoded p)].
Definition by_order {A} (order : A -> list (list byte)) (x y : A) : comparison :=
  keys_cmp (order x) (order y).

(** The loops that refuse a repeated identity. *)
Fixpoint refuse_duplicates {A K} `{EqDecision K} (ident : A -> res K) (reason : AtomicRefuseReason)
    (seen : list K) (l : list A) : res unit :=
  match l with
  | [] => Ok tt
  | x :: rest =>
      let? k := ident x in
      if bool_decide (k ∈ seen) then Err (Refused reason)
      else refuse_duplicates ident reason (seen ++ [k]) rest
  end.

Definition refuse_duplicate_targets (l : list PlanMutation) : res unit :=
  refuse_duplicates (fun m => Ok (m_collection_id m, key_order_bytes (m_key m)))
    DuplicateTarget [] l.
Definition refuse_duplicate_reads (l : list ReadWitness) : res unit :=
  refuse_duplicates (fun r => Ok (r_collection_id r, key_order_bytes (r_key r)))
    MalformedInput [] l.

Definition validate_mutation_shape (m : PlanMutation) : res unit :=
  let value := match encoded_value m with Some _ => true | None => false end in
  let version := match if_version m with Some _ => true | None => false end in
  match m_kind m with
  | MCreate | MPut => if negb value || version then invalid else Ok tt
  | MReplace => if negb value || negb version then invalid else Ok tt
  | MDelete => if value || negb version then invalid else Ok tt
  end.

Definition some {A} (o : option A) : bool := match o with Some _ => true | None => false end.

(** [windows(2).any(|pair| pair[0] == pair[1])]. *)
Fixpoint adjacent_equal (l : list (list byte)) : bool :=
  match l with
  | x :: ((y :: _) as t) => bytes_eqb x y || adjacent_equal t
  | _ => false
  end.

Definition require_frontier_with_reads (p : AtomicPlanParts) : res unit :=
  if negb (match reads p with [] => true | _ => false end) && negb (some (read_frontier p))
  then malformed else Ok tt.

Definition validate_plan_keys (p : AtomicPlanParts) : res unit :=
  let? _ := for_each (fun m => validate_canonical_key (m_key m)) (mutations p) in
  let? _ := for_each (fun r => validate_canonical_key (r_key r)) (reads p) in
  for_each (fun q => match p_key q with Some k => validate_canonical_key k | None => Ok tt end)
    (predicates p).

Section Close.
Context {H : Blake3} {B : BigIntOps}.

Definition predicate_ident (p : PlanPredicate)
  : res (Z * option (list byte) * list byte) :=
  let? key :=
    match p_kind p with
    | BoundedKeyRangeAbsence | BoundedKeyRangePresence =>
        match p_encoded p with
        | None => malformed
        | Some bs => let? r := decode_bounded_range_payload bs in Ok (bk_range_identity r)
        end
    | ActiveRuleRevisionEquality =>
        match p_encoded p with None => malformed | Some bs => Ok bs end
    | _ => Ok (unwrap_or_default (key_order_bytes <$> p_key p))
    end in
  Ok (predicate_wire_code (p_kind p), p_collection_id p, key).

Definition refuse_duplicate_predicates (l : list PlanPredicate) : res unit :=
  refuse_duplicates predicate_ident MalformedInput [] l.

Definition predicate_shape_ok (p : PlanPredicate) : bool :=
  match p_kind p with
  | AssertAbsent | AssertPresent =>
      some (p_collection_id p) && some (p_key p) && negb (some (p_version p))
      && negb (some (p_encoded p))
  | AssertVersion =>
      some (p_collection_id p) && some (p_key p) && some (p_version p)
      && negb (some (p_encoded p))
  | HeapAuthorityRevision =>
      negb (some (p_collection_id p)) && negb (some (p_key p)) && negb (some (p_version p))
      && match p_encoded p with Some e => (length e =? 32)%nat | None => false end
  | ActiveRuleRevisionEquality =>
      negb (some (p_collection_id p)) && negb (some (p_key p)) && negb (some (p_version p))
      && match p_encoded p with
         | Some e => (length e =? 32)%nat && negb (bytes_eqb e (zeros 32))
         | None => false
         end
  | CollectionLifecycleStateK =>
      some (p_collection_id p) && negb (some (p_key p)) && negb (some (p_version p))
      && match p_encoded p with
         | Some e => is_ok (decode_collection_lifecycle_payload e)
         | None => false
         end
  | ExactScalarEqualityK =>
      some (p_collection_id p) && some (p_key p) && negb (some (p_version p))
      && match p_encoded p with Some e => is_ok (decode_exact_scalar_payload e) | None => false end
  | BoundedKeyRangeAbsence | BoundedKeyRangePresence =>
      some (p_collection_id p) && negb (some (p_key p)) && negb (some (p_version p))
      && match p_encoded p with
         | None => false
         | Some e =>
             match decode_bounded_range_payload e with
             | Err _ => false
             | Ok r =>
                 bool_decide (Some (bk_collection_id r) = p_collection_id p)
                 && match p_kind p with
                    | BoundedKeyRangeAbsence => expected_count r =? 0
                    | _ => 0 <? expected_count r
                    end
             end
         end
  end.
Definition validate_predicate_shape (p : PlanPredicate) : res unit :=
  if predicate_shape_ok p then Ok tt else malformed.

Definition with_sorted (p : AtomicPlanParts) : AtomicPlanParts := {|
  profile := profile p; atomic_id := atomic_id p; heap_id := heap_id p; scope := scope p;
  read_frontier := read_frontier p;
  reads := sort_by (by_order (read_order (heap_id p))) (reads p);
  predicates := sort_by (by_order (pred_order (heap_id p))) (predicates p);
  mutations := sort_by (by_order (target_order (heap_id p))) (mutations p);
  active_rule_revisions := sort_by bytes_cmp (active_rule_revisions p);
  limits := limits p |}.

Definition close_plan (p : AtomicPlanParts) : res AtomicPlan :=
  let? _ := refuse_duplicate_targets (mutations p) in
  let? _ := refuse_duplicate_reads (reads p) in
  let? _ := refuse_duplicate_predicates (predicates p) in
  let? _ := require_frontier_with_reads p in
  let q := with_sorted p in
  if bool_decide (zeros 32 ∈ active_rule_revisions q) || adjacent_equal (active_rule_revisions q)
  then malformed
  else
  let? _ := for_each validate_mutation_shape (mutations q) in
  let? _ := for_each validate_predicate_shape (predicates q) in
  let? _ := validate_plan_keys q in
  Ok (from_closed q).
End Close.

(** ** Encoding *)

Definition encode_read (r : ReadWitness) : res Value :=
  let? k := encode_key_map (r_key r) in
  Ok (Map ([(1, Bytes (r_collection_id r)); (2, Map k); (4, Bytes (projection_hash r))]
           ++ match observed_version r with Some v => [(3, Bytes v)] | None => [] end)).
Definition encode_mutation (m : PlanMutation) : res Value :=
  let? k := encode_key_map (m_key m) in
  Ok (Map ([(1, Uint (mutation_wire_code (m_kind m))); (2, Bytes (m_collection_id m)); (3, Map k)]
           ++ match encoded_value m with Some v => [(4, Bytes v)] | None => [] end
           ++ match if_version m with Some v => [(5, Bytes v)] | None => [] end)).
Definition encode_predicate (p : PlanPredicate) : res Value :=
  let? k := match p_key p with
            | Some k => let? km := encode_key_map k in Ok [(3, Map km)]
            | None => Ok []
            end in
  Ok (Map ([(1, Uint (predicate_wire_code (p_kind p)))]
           ++ match p_collection_id p with Some c => [(2, Bytes c)] | None => [] end
           ++ k
           ++ match p_version p with Some v => [(4, Bytes v)] | None => [] end
           ++ match p_encoded p with Some e => [(5, Bytes e)] | None => [] end)).

(** [as_millis], saturated to [u64]. *)
Definition deadline_millis (d : Z) : Z := Z.min (d / 1000000) U64_MAX.

Definition encode_limits (l : ResourceLimits) : list (Z * Value) :=
  [(1, Uint (caller_mutations l)); (2, Uint (total_generated_members l));
   (3, Uint (canonical_plan_bytes l)); (4, Uint (total_proposed_value_bytes l));
   (5, Uint (read_witnesses l)); (6, Uint (l_predicates l));
   (7, Uint (affected_collections_limit l)); (8, Uint (l_active_rule_revisions l));
   (9, Uint (deadline_millis (construction_deadline l))); (10, Uint (emitted_violations l))].

Definition plan_entries (plan : AtomicPlan) : res (list (Z * Value)) :=
  let p := parts plan in
  let? rs := traverse encode_read (reads p) in
  let? ps := traverse encode_predicate (predicates p) in
  let? ms := traverse encode_mutation (mutations p) in
  Ok ([(1, Uint (profile_wire_code (profile p))); (2, Bytes (atomic_id p));
       (3, Bytes (heap_id p)); (4, Uint (scope_wire_code (scope p)))]
      ++ match read_frontier p with Some f => [(5, Bytes f)] | None => [] end
      ++ [(6, Array rs); (7, Array ps); (8, Array ms);
          (9, Array (map Bytes (active_rule_revisions p))); (10, Map (encode_limits (limits p)))]).

Definition encode_canonical_plan (plan : AtomicPlan) : res (list byte) :=
  let? es := plan_entries plan in encode_map es.

Definition plan_content_root {H : Blake3} (plan : AtomicPlan) : res (list byte) :=
  let? bs := encode_canonical_plan plan in Ok (blake3 (DOMAIN_ATOMIC_CONTENT ++ bs)).

(** ** Decoding *)

Definition decode_read (v : Value) : res ReadWitness :=
  let? m := as_map v in
  let? _ := refuse_unknown_keys m [1; 2; 3; 4] in
  let? raw := require_bstr 16 m 1 in
  let? c := CollectionId_from_bytes raw in
  let? kv := require_value m 2 in
  let? k := decode_key kv in
  let? ver := optional_version m 3 in
  let? h := require_bstr 32 m 4 in
  Ok {| r_collection_id := c; r_key := k; observed_version := ver; projection_hash := h |}.

Definition decode_mutation (v : Value) : res PlanMutation :=
  let? m := as_map v in
  let? _ := refuse_unknown_keys m [1; 2; 3; 4; 5] in
  let? code := require_u8 m 1 in
  match mutation_from_wire_code code with
  | None => Err (Refused UnknownMutationKind)
  | Some kind =>
      let? raw := require_bstr 16 m 2 in
      let? c := CollectionId_from_bytes raw in
      let? kv := require_value m 3 in
      let? k := decode_key kv in
      let? value := optional_bytes m 4 in
      let? ver := optional_version m 5 in
      Ok {| m_kind := kind; m_collection_id := c; m_key := k; encoded_value := value;
            if_version := ver |}
  end.

Definition decode_predicate (v : Value) : res PlanPredicate :=
  let? m := as_map v in
  let? _ := refuse_unknown_keys m [1; 2; 3; 4; 5] in
  let? code := require_u8 m 1 in
  match predicate_from_wire_code code with
  | None => Err (Refused UnsupportedPredicate)
  | Some kind =>
      let? key := match field m 3 with
                  | Some kv => let? k := decode_key kv in Ok (Some k)
                  | None => Ok None
                  end in
      let? c := optional_collection m 2 in
      let? ver := optional_version m 4 in
      let? enc := optional_bytes m 5 in
      Ok {| p_kind := kind; p_collection_id := c; p_key := key; p_version := ver;
            p_encoded := enc |}
  end.

Definition decode_limits (m : list (Z * Value)) : res ResourceLimits :=
  let? _ := refuse_unknown_keys m [1; 2; 3; 4; 5; 6; 7; 8; 9; 10] in
  let? l1 := require_u32 m 1 in
  let? l2 := require_u32 m 2 in
  let? l3 := require_u32 m 3 in
  let? l4 := require_u32 m 4 in
  let? l5 := require_u32 m 5 in
  let? l6 := require_u32 m 6 in
  let? l7 := require_u32 m 7 in
  let? l8 := require_u32 m 8 in
  let? l9 := require_u64 m 9 in
  let? l10 := require_u32 m 10 in
  Ok {| caller_mutations := l1; total_generated_members := l2; canonical_plan_bytes := l3;
        total_proposed_value_bytes := l4; read_witnesses := l5; l_predicates := l6;
        affected_collections_limit := l7; l_active_rule_revisions := l8;
        construction_deadline := l9 * 1000000; emitted_violations := l10 |}.

Definition decode_rev (v : Value) : res (list byte) :=
  match v with
  | Bytes b => if (length b =? 32)%nat then Ok b else malformed
  | _ => malformed
  end.

Definition decode_canonical_plan {H : Blake3} {B : BigIntOps} (bs : list byte)
  : res AtomicPlan :=
  let? m := decode_map bs in
  let? prof := require_u16 m 1 in
  let? raw_id := require_bstr 32 m 2 in
  let? aid := AtomicId_from_bytes raw_id in
  let? raw_heap := require_bstr 16 m 3 in
  let? heap := HeapId_from_bytes raw_heap in
  let? code := require_u8 m 4 in
  match scope_from_wire_code code with
  | None => malformed
  | Some sc =>
      let? frontier := optional_bstr32 m 5 in
      let? rv := require_array m 6 in
      let? rs := traverse decode_read rv in
      let? pv := require_array m 7 in
      let? ps := traverse decode_predicate pv in
      let? mv := require_array m 8 in
      let? ms := traverse decode_mutation mv in
      let? av := require_array m 9 in
      let? revs := traverse decode_rev av in
      let? lm := require_map m 10 in
      let? lim := decode_limits lm in
      let? _ := refuse_unknown_keys m [1; 2; 3; 4; 5; 6; 7; 8; 9; 10] in
      close_plan {|
        profile := profile_from_wire_code prof; atomic_id := aid; heap_id := heap; scope := sc;
        read_frontier := frontier; reads := rs; predicates := ps; mutations := ms;
        active_rule_revisions := revs; limits := lim |}
  end.

(** ** Accounting and validation *)

Record PlanAccounting := {
  requested_members : Z;
  requested_value_bytes : Z;
  requested_plan_bytes : Z;
  worst_case_generated_members : Z;
  worst_case_generated_member_bytes : Z }.

Definition u32_len (n : Z) : res Z :=
  if n <=? U32_MAX then Ok n else Err (Refused LimitExceeded).

Fixpoint value_bytes (acc : Z) (l : list PlanMutation) : res Z :=
  match l with
  | [] => Ok acc
  | m :: rest =>
      match encoded_value m with
      | None => value_bytes acc rest
      | Some v =>
          let? n := u32_len (Z.of_nat (length v)) in
          if acc + n <=? U32_MAX then value_bytes (acc + n) rest
          else Err (Refused LimitExceeded)
      end
  end.

Definition account_closed_plan (plan : AtomicPlan) : res PlanAccounting :=
  let? members := u32_len (Z.of_nat (length (mutations (parts plan)))) in
  let? bytes := value_bytes 0 (mutations (parts plan)) in
  let? encoded := encode_canonical_plan plan in
  let? plan_bytes := u32_len (Z.of_nat (length encoded)) in
  Ok {| requested_members := members; requested_value_bytes := bytes;
        requested_plan_bytes := plan_bytes; worst_case_generated_members := members;
        worst_case_generated_member_bytes := bytes |}.

(** [ids.dedup()]. *)
Fixpoint dedup (l : list (list byte)) : list (list byte) :=
  match l with
  | x :: ((y :: _) as t) => if bytes_eqb x y then dedup t else x :: dedup t
  | _ => l
  end.

Definition affected_collections (plan : AtomicPlan) : res Z :=
  let p := parts plan in
  let ids := map m_collection_id (mutations p)
             ++ omap p_collection_id (predicates p)
             ++ map r_collection_id (reads p) in
  u32_len (Z.of_nat (length (dedup (sort_by bytes_cmp ids)))).

Definition check_applied_limits (plan : AtomicPlan) : res unit :=
  let p := parts plan in
  let l := limits p in
  let? acc := account_closed_plan plan in
  if (caller_mutations l <? requested_members acc)
     || (total_generated_members l <? worst_case_generated_members acc)
     || (canonical_plan_bytes l <? requested_plan_bytes acc)
     || (total_proposed_value_bytes l <? requested_value_bytes acc)
  then Err (Refused LimitExceeded)
  else
  let? n_reads := u32_len (Z.of_nat (length (reads p))) in
  if read_witnesses l <? n_reads then Err (Refused LimitExceeded)
  else
  let? n_preds := u32_len (Z.of_nat (length (predicates p))) in
  if l_predicates l <? n_preds then Err (Refused LimitExceeded)
  else
  let? n_revs := u32_len (Z.of_nat (length (active_rule_revisions p))) in
  if l_active_rule_revisions l <? n_revs then Err (Refused LimitExceeded)
  else
  let? n_colls := affected_collections plan in
  if affected_collections_limit l <? n_colls then Err (Refused LimitExceeded) else Ok tt.

Definition validate_closed_plan (plan : AtomicPlan) (bound_heap : list byte) : res unit :=
  let p := parts plan in
  if negb (execution_supported (profile p)) then Err (Refused UnsupportedProfile)
  else if negb (execution_supports_scope (profile p) (scope p))
  then Err (Refused ScopeUnavailable)
  else if negb (bytes_eqb (heap_id p) bound_heap) then Err (Refused CrossHeapCollection)
  else if existsb (fun q => negb (is_closed_plan_predicate (p_kind q))) (predicates p)
  then Err (Refused UnsupportedPredicate)
  else if negb (is_within (limits p) (hard_limits (scope p))) then Err (Refused LimitExceeded)
  else check_applied_limits plan.
