(* ===== verification/AtomicPlanFacts.v ===== *)
(** * Facts about closed Atomic plans

    Closing forgets the order in which a plan was assembled and nothing else, a
    closed plan is closed again unchanged, and the canonical encoding of a
    closed plan decodes to the plan, up to the milliseconds of its deadline. *)
From S2P Require Import Prelude Cbor CborFacts AtomicCbor AtomicCborFacts AtomicKeys AtomicPlan.
Import Acbor.
Open Scope list_scope.
Open Scope Z_scope.

(** ** Loops *)

Lemma for_each_Ok {A} (f : A -> res unit) l :
  for_each f l = Ok tt <-> Forall (fun x => f x = Ok tt) l.
Proof.
  induction l as [|x l IH]; simpl; [by split|]. rewrite Forall_cons, <- IH.
  destruct (f x) as [[]|e]; simpl; naive_solver.
Qed.

Lemma refuse_duplicates_Ok {A K} `{EqDecision K} (ident : A -> res K) reason l : forall seen,
  refuse_duplicates ident reason seen l = Ok tt
  <-> exists ks, Forall2 (fun x k => ident x = Ok k) l ks /\ NoDup ks
                 /\ (forall k, k ∈ ks -> k ∉ seen).
Proof.
  induction l as [|x l IH]; intros seen; simpl.
  { split; [intros _; exists []; split_and!; [constructor..|set_solver]|done]. }
  destruct (ident x) as [k|e] eqn:Hx; simpl.
  2: { split; [done|]. intros (ks & H & _). inversion H; congruence. }
  case_bool_decide as Hk.
  - split; [done|]. intros (ks & H & _ & Hd). inversion H as [|? k' ? ks' H1 H2]; subst.
    exfalso. apply (Hd k'); [left|]. by rewrite Hx in H1; injection H1 as <-.
  - rewrite IH. split; intros (ks & H2 & Hn & Hd).
    + exists (k :: ks). split_and!; [by constructor| |set_solver].
      constructor; [|done]. intros Hin. apply (Hd k Hin). set_solver.
    + inversion H2 as [|? k' ? ks' H3 H4]; subst. rewrite Hx in H3. injection H3 as <-.
      apply NoDup_cons in Hn as [Hnk Hn]. exists ks'. split_and!; [done..|]. set_solver.
Qed.

(** Identities are refused or accepted whatever the order. *)
Lemma refuse_duplicates_perm {A K} `{EqDecision K} (ident : A -> res K) reason l l' :
  l ≡ₚ l' -> refuse_duplicates ident reason [] l = Ok tt ->
  refuse_duplicates ident reason [] l' = Ok tt.
Proof.
  rewrite !refuse_duplicates_Ok. intros Hp (ks & H2 & Hn & _).
  destruct (Permutation_Forall2 Hp H2) as (ks' & Hp' & H2').
  exists ks'. split_and!; [done|by rewrite <- Hp'|set_solver].
Qed.

Lemma distinct_idents {A K} `{EqDecision K} (ident : A -> res K) reason l x y k :
  refuse_duplicates ident reason [] l = Ok tt ->
  x ∈ l -> y ∈ l -> ident x = Ok k -> ident y = Ok k -> x = y.
Proof.
  rewrite refuse_duplicates_Ok. intros (ks & H2 & Hn & _) Hx Hy Hkx Hky.
  apply list_elem_of_lookup in Hx as [i Hi], Hy as [j Hj].
  destruct (Forall2_lookup_l _ _ _ _ _ H2 Hi) as (k1 & Hk1 & E1).
  destruct (Forall2_lookup_l _ _ _ _ _ H2 Hj) as (k2 & Hk2 & E2).
  rewrite Hkx in E1. rewrite Hky in E2. simplify_eq.
  assert (i = j) as -> by (eapply NoDup_lookup; eauto). congruence.
Qed.

(** ** Sorting *)

Lemma not_gt_bytes x y z :
  not_gt bytes_cmp x y -> not_gt bytes_cmp y z -> not_gt bytes_cmp x z.
Proof.
  unfold not_gt. intros H1 H2. destruct (bytes_cmp x y) eqn:E1; [|clear H1|done].
  - by apply bytes_cmp_Eq in E1 as ->.
  - destruct (bytes_cmp y z) eqn:E2; [apply bytes_cmp_Eq in E2 as ->|clear H2|done].
    + by rewrite E1.
    + by rewrite (bytes_lt_trans x y z E1 E2).
Qed.
Section ByOrder.
Context {A : Type} (order : A -> list (list byte)).
Lemma by_order_anti x y : by_order order y x = CompOpp (by_order order x y).
Proof. apply keys_cmp_antisym. Qed.
Lemma by_order_trans x y z :
  not_gt (by_order order) x y -> not_gt (by_order order) y z -> not_gt (by_order order) x z.
Proof.
  unfold not_gt, by_order. intros H1 H2.
  destruct (keys_cmp (order x) (order y)) eqn:E1; [|clear H1|done].
  - by apply keys_cmp_Eq in E1 as ->.
  - destruct (keys_cmp (order y) (order z)) eqn:E2; [apply keys_cmp_Eq in E2 as <-|clear H2|done].
    + by rewrite E1.
    + by rewrite (keys_cmp_trans _ _ _ E1 E2).
Qed.
Lemma sort_by_perm_eq l l' :
  (forall x y, x ∈ l -> y ∈ l -> order x = order y -> x = y) -> l ≡ₚ l' ->
  sort_by (by_order order) l = sort_by (by_order order) l'.
Proof.
  intros Hinj. apply sort_by_order; [apply by_order_anti|apply by_order_trans|].
  intros x y Hx Hy He. apply Hinj; [done..|]. by apply keys_cmp_Eq.
Qed.
End ByOrder.

Lemma sort_bytes_perm_eq l l' : l ≡ₚ l' -> sort_by bytes_cmp l = sort_by bytes_cmp l'.
Proof.
  apply sort_by_order; [intros; apply bytes_cmp_antisym|apply not_gt_bytes|].
  intros x y _ _. by rewrite bytes_cmp_Eq.
Qed.

(** ** Closing *)

(** The same parts, assembled in any order. *)
Definition same_parts (p q : AtomicPlanParts) : Prop :=
  profile p = profile q /\ atomic_id p = atomic_id q /\ heap_id p = heap_id q
  /\ scope p = scope q /\ read_frontier p = read_frontier q /\ limits p = limits q
  /\ reads p ≡ₚ reads q /\ predicates p ≡ₚ predicates q /\ mutations p ≡ₚ mutations q
  /\ active_rule_revisions p ≡ₚ active_rule_revisions q.

#[global] Instance same_parts_equivalence : Equivalence same_parts.
Proof.
  unfold same_parts. split; intros ?; intros; destruct_and?; split_and!;
    solve [done | by symmetry | by etransitivity].
Qed.

Section Close.
Context {H : Blake3} {B : BigIntOps}.

Lemma with_sorted_same p : same_parts (with_sorted p) p.
Proof. unfold same_parts. split_and!; try done; apply sort_by_perm. Qed.

(** What closing checks before and after it sorts. *)
Definition distinct (p : AtomicPlanParts) : Prop :=
  refuse_duplicate_targets (mutations p) = Ok tt
  /\ refuse_duplicate_reads (reads p) = Ok tt
  /\ refuse_duplicate_predicates (predicates p) = Ok tt
  /\ require_frontier_with_reads p = Ok tt.
Definition sorted_ok (q : AtomicPlanParts) : Prop :=
  zeros 32 ∉ active_rule_revisions q /\ adjacent_equal (active_rule_revisions q) = false
  /\ Forall (fun m => validate_mutation_shape m = Ok tt) (mutations q)
  /\ Forall (fun r => validate_predicate_shape r = Ok tt) (predicates q)
  /\ validate_plan_keys q = Ok tt.

Lemma unit_Ok (r : res unit) (u : unit) : r = Ok u <-> r = Ok tt.
Proof. by destruct u. Qed.

Lemma close_plan_Ok p plan :
  close_plan p = Ok plan
  <-> distinct p /\ sorted_ok (with_sorted p) /\ plan = from_closed (with_sorted p).
Proof.
  unfold close_plan, distinct, sorted_ok.
  destruct (refuse_duplicate_targets _) as [[]|]; simpl; [|naive_solver].
  destruct (refuse_duplicate_reads _) as [[]|]; simpl; [|naive_solver].
  destruct (refuse_duplicate_predicates _) as [[]|]; simpl; [|naive_solver].
  destruct (require_frontier_with_reads _) as [[]|]; simpl; [|naive_solver].
  rewrite <- !for_each_Ok. case_bool_decide; simpl; [naive_solver|].
  destruct (adjacent_equal _); simpl; [naive_solver|].
  destruct (for_each validate_mutation_shape _) as [[]|]; simpl; [|naive_solver].
  destruct (for_each validate_predicate_shape _) as [[]|]; simpl; [|naive_solver].
  destruct (validate_plan_keys _) as [[]|]; simpl; [|naive_solver].
  naive_solver.
Qed.

Lemma distinct_same p q : same_parts p q -> distinct p -> distinct q.
Proof.
  intros (_ & _ & _ & _ & Hf & _ & Hr & Hp & Hm & _) (D1 & D2 & D3 & D4).
  split_and!; [by eapply refuse_duplicates_perm..|].
  revert D4. unfold require_frontier_with_reads. rewrite <- Hf.
  destruct (reads p) as [|r l]; [by rewrite (Permutation_nil Hr)|].
  destruct (reads q); [by apply symmetry, Permutation_nil in Hr|done].
Qed.

Lemma predicate_wire_inj k k' :
  byte_key (predicate_wire_code k) = byte_key (predicate_wire_code k') -> k = k'.
Proof. by destruct k, k'. Qed.
Lemma optional_order_inj o o' : optional_order o = optional_order o' -> o = o'.
Proof. destruct o, o'; simpl; intros [=]; congruence. Qed.
Lemma key_order_default o o' :
  unwrap_or_default (key_order_bytes <$> o) = unwrap_or_default (key_order_bytes <$> o') ->
  key_order_bytes <$> o = key_order_bytes <$> o'.
Proof. destruct o, o'; simpl; [congruence|done..]. Qed.

(** On well-shaped predicates the sort key determines the identity. *)
Lemma pred_order_ident heap x y :
  validate_predicate_shape x = Ok tt -> validate_predicate_shape y = Ok tt ->
  pred_order heap x = pred_order heap y -> predicate_ident x = predicate_ident y.
Proof.
  unfold pred_order. intros Hx Hy [= Hc Hk Hw Hv He].
  apply optional_order_inj in He. apply (f_equal (fun b => [b])), predicate_wire_inj in Hw.
  assert (Hcol : p_collection_id x = p_collection_id y).
  { revert Hx Hy. unfold validate_predicate_shape, predicate_shape_ok. rewrite <- Hw.
    destruct (p_kind x), (p_collection_id x), (p_collection_id y); simpl in *;
      try done; intros; f_equal; done. }
  unfold predicate_ident. by rewrite <- Hw, <- He, <- Hcol, <- Hk.
Qed.

(** The components of a sort key. *)
Lemma order_nth (a b : list (list byte)) n : a = b -> nth n a [] = nth n b [].
Proof. by intros ->. Qed.

Lemma with_sorted_eq p q :
  same_parts p q -> distinct p -> Forall (fun r => validate_predicate_shape r = Ok tt) (predicates p) ->
  with_sorted q = with_sorted p.
Proof.
  intros (H1 & H2 & H3 & H4 & H5 & H6 & Hr & Hp & Hm & Ha) (D1 & D2 & D3 & _) Hshape.
  rewrite Forall_forall in Hshape.
  unfold with_sorted. rewrite <- H1, <- H2, <- H3, <- H4, <- H5, <- H6. f_equal; symmetry.
  - apply sort_by_perm_eq; [|done]. intros x y Hx Hy Ho.
    eapply distinct_idents; [exact D2|done..|]. cbv beta. do 2 f_equal; symmetry;
      [apply (order_nth _ _ 1 Ho)|apply (order_nth _ _ 2 Ho)].
  - apply sort_by_perm_eq; [|done]. intros x y Hx Hy Ho.
    pose proof (pred_order_ident _ x y (Hshape x Hx) (Hshape y Hy) Ho) as Hi.
    destruct (predicate_ident x) as [k|e] eqn:Hk.
    + eapply distinct_idents; [exact D3|done..].
    + apply refuse_duplicates_Ok in D3 as (ks & D3 & _).
      apply list_elem_of_lookup in Hx as [i Hx].
      destruct (Forall2_lookup_l _ _ _ _ _ D3 Hx) as (? & _ & ?). congruence.
  - apply sort_by_perm_eq; [|done]. intros x y Hx Hy Ho.
    eapply distinct_idents; [exact D1|done..|]. cbv beta. do 2 f_equal; symmetry;
      [apply (order_nth _ _ 1 Ho)|apply (order_nth _ _ 2 Ho)].
  - by apply sort_bytes_perm_eq.
Qed.

Lemma close_plan_same p q plan : same_parts p q -> close_plan p = Ok plan -> close_plan q = Ok plan.
Proof.
  rewrite !close_plan_Ok. intros Hs (Hd & Hok & ->).
  rewrite (with_sorted_eq p q); [|done..|].
  - split_and!; [by apply (distinct_same p)|done..].
  - destruct Hok as (_ & _ & _ & Hp & _). cbn [predicates with_sorted] in Hp.
    by rewrite sort_by_perm in Hp.
Qed.
Lemma close_plan_self p plan :
  close_plan p = Ok plan -> same_parts p (parts plan) /\ close_plan (parts plan) = Ok plan.
Proof.
  intros Hp. assert (Hpl : same_parts p (parts plan)).
  { apply close_plan_Ok in Hp as (_ & _ & ->). symmetry. apply with_sorted_same. }
  split; [done|]. by apply (close_plan_same p).
Qed.

(** Closing a plan forgets the order in which its parts were assembled and
    nothing else: once some parts close to a plan, other parts close to the same
    plan exactly when they hold the same reads, predicates, mutations and rule
    revisions in some order and agree on everything else; the plan's own parts
    are among them, so closing a closed plan changes nothing. *)
Theorem close_plan_canonical p plan :
  close_plan p = Ok plan ->
  (forall q, close_plan q = Ok plan <-> same_parts p q)
  /\ close_plan (parts plan) = Ok plan.
Proof.
  intros Hp. destruct (close_plan_self _ _ Hp) as [Hpl Hself]. split; [|done]. intros q. split; [|intros; by apply (close_plan_same p)].
  intros Hq. apply close_plan_Ok in Hq as (_ & _ & ->). rewrite Hpl. apply with_sorted_same.
Qed.
End Close.

(** ** The canonical encoding *)

(** Values a Rust program can hold: the widths the model does not carry. *)
Definition fits (b : list byte) : Prop := in_u64 (Z.of_nat (length b)).
Definition is_id (n : nat) (b : list byte) : Prop := length b = n /\ b <> zeros n.
Definition opt {A} (P : A -> Prop) (o : option A) : Prop := match o with Some x => P x | None => True end.

Definition key_payload (k : CanonicalKey) : list byte :=
  match k with KeyString b | KeyOpaque b | KeyInteger b | KeyDecimal b _ => b end.
Definition key_typed (k : CanonicalKey) : Prop :=
  fits (key_payload k)
  /\ match k with
     | KeyString s => utf8_valid s = true | KeyDecimal _ s => in_i64 s | _ => True
     end.
Definition read_typed (r : ReadWitness) : Prop :=
  is_id 16 (r_collection_id r) /\ key_typed (r_key r) /\ opt (is_id 16) (observed_version r)
  /\ length (projection_hash r) = 32%nat.
Definition mutation_typed (m : PlanMutation) : Prop :=
  is_id 16 (m_collection_id m) /\ key_typed (m_key m) /\ opt fits (encoded_value m)
  /\ opt (is_id 16) (if_version m).
Definition predicate_typed (p : PlanPredicate) : Prop :=
  opt (is_id 16) (p_collection_id p) /\ opt key_typed (p_key p) /\ opt (is_id 16) (p_version p)
  /\ opt fits (p_encoded p).
Definition limits_typed (l : ResourceLimits) : Prop :=
  Forall in_u32 [caller_mutations l; total_generated_members l; canonical_plan_bytes l;
    total_proposed_value_bytes l; read_witnesses l; l_predicates l; affected_collections_limit l;
    l_active_rule_revisions l; emitted_violations l]
  /\ 0 <= construction_deadline l.
Definition profile_typed (p : AtomicProfile) : Prop :=
  match p with LocalHeapV1 => True | UnknownProfile c => 0 <= c <= U16_MAX /\ c <> 1 end.
Definition plan_typed (p : AtomicPlanParts) : Prop :=
  profile_typed (profile p) /\ is_id 32 (atomic_id p) /\ is_id 16 (heap_id p)
  /\ opt (fun f => length f = 32%nat) (read_frontier p)
  /\ (Forall read_typed (reads p) /\ in_u64 (Z.of_nat (length (reads p))))
  /\ (Forall predicate_typed (predicates p) /\ in_u64 (Z.of_nat (length (predicates p))))
  /\ (Forall mutation_typed (mutations p) /\ in_u64 (Z.of_nat (length (mutations p))))
  /\ (Forall (fun r => length r = 32%nat) (active_rule_revisions p)
      /\ in_u64 (Z.of_nat (length (active_rule_revisions p))))
  /\ limits_typed (limits p).

(** The deadline that survives encoding: whole milliseconds in a [u64]. *)
Definition truncate_limits (l : ResourceLimits) : ResourceLimits := {|
  caller_mutations := caller_mutations l;
  total_generated_members := total_generated_members l;
  canonical_plan_bytes := canonical_plan_bytes l;
  total_proposed_value_bytes := total_proposed_value_bytes l;
  read_witnesses := read_witnesses l; l_predicates := l_predicates l;
  affected_collections_limit := affected_collections_limit l;
  l_active_rule_revisions := l_active_rule_revisions l;
  construction_deadline := deadline_millis (construction_deadline l) * 1000000;
  emitted_violations := emitted_violations l |}.
Definition truncate_parts (p : AtomicPlanParts) : AtomicPlanParts := {|
  profile := profile p; atomic_id := atomic_id p; heap_id := heap_id p; scope := scope p;
  read_frontier := read_frontier p; reads := reads p; predicates := predicates p;
  mutations := mutations p; active_rule_revisions := active_rule_revisions p;
  limits := truncate_limits (limits p) |}.
Definition truncate_plan (plan : AtomicPlan) : AtomicPlan := from_closed (truncate_parts (parts plan)).

(** A value encodes within [d] levels and its canonical form decodes to [x]. *)
Definition codes {A} (d : nat) (decode : Value -> res A) (x : A) (v : Value) : Prop :=
  encodable (inj v) /\ (depth v <= d)%nat /\ decode (vcanon v) = Ok x.

Lemma id_of_ok what n b : is_id n b -> id_of what n b = Ok b.
Proof. intros [_ Hne]. unfold id_of. by rewrite bool_decide_false. Qed.
Lemma fixed_ok n b : length b = n -> fixed n b = Ok b.
Proof. intros <-. unfold fixed. by rewrite Nat.eqb_refl. Qed.
Lemma fits_small n b : (Z.of_nat n <= U64_MAX)%Z -> length b = n -> fits b.
Proof. intros ? <-. unfold fits, in_u64. lia. Qed.

Lemma encode_int_codes s : in_i64 s -> codes 1 decode_int s (encode_int s).
Proof.
  intros Hs. unfold in_i64, I64_MIN, I64_MAX in Hs. unfold codes, encode_int.
  case_match; boolify; simpl; unfold in_u64, U64_MAX, I64_MAX; (split; [lia|split; [lia|]]).
  - by rewrite (proj2 (Z.leb_le _ _)) by lia.
  - rewrite (proj2 (Z.leb_le _ _)) by lia. f_equal. lia.
Qed.

(** Concrete entry lists: evaluate the sort, the keys and the lookups. *)
Ltac in_range := unfold in_u64, U64_MAX; simpl; lia.
Ltac no_dup := apply (bool_decide_unpack (NoDup _)); vm_compute; exact I.

Lemma encode_key_codes k :
  key_typed k -> validate_canonical_key k = Ok tt ->
  exists es, encode_key_map k = Ok es /\ codes 2 decode_key k (Map es).
Proof.
  intros [Hf Ht] Hv. unfold encode_key_map. rewrite Hv. eexists. split; [reflexivity|].
  unfold codes. destruct k as [s|b|b|c s]; cbn [key_payload validate_canonical_key] in Hf, Hv.
  1-3: cbn; split_and!; try done; try in_range; try no_dup.
  - by rewrite Ht.
  - unfold integer_bytes. by rewrite Hv.
  - destruct (encode_int_codes s Ht) as (E1 & E2 & E3). revert E1 E2 E3.
    generalize (encode_int s). intros v E1 E2 E3.
    cbn -[Nat.le]. split_and!; try done; try in_range; [no_dup|].
    rewrite E3. unfold decimal_bytes. by rewrite Hv.
Qed.

Lemma id16_ok what b : is_id 16 b -> fixed 16 b = Ok b /\ id_of what 16 b = Ok b.
Proof. intros Hb. split; [apply fixed_ok, Hb|by apply id_of_ok]. Qed.

(** The three parts of [codes] for a map of concrete shape. *)
Ltac check_fields :=
  repeat match goal with
  | |- context [fixed 16 ?b] => rewrite (proj1 (id16_ok "" b ltac:(assumption)))
  | |- context [id_of ?w 16 ?b] => rewrite (proj2 (id16_ok w b ltac:(assumption)))
  | |- context [CollectionId_from_bytes ?b] => unfold CollectionId_from_bytes
  | |- context [VersionId_from_bytes ?b] => unfold VersionId_from_bytes
  | |- context [fixed ?n ?b] => rewrite (fixed_ok n b) by assumption
  | E : decode_key ?v = Ok _ |- context [decode_key ?v] => rewrite E
  end.
Ltac codes_map :=
  cbn -[Nat.le fixed id_of in_u64 zeros]; split_and!; try done; try in_range;
  match goal with
  | |- NoDup _ => no_dup
  | Hb : is_id 16 ?b |- in_u64 (Z.of_nat (length ?b)) => rewrite (proj1 Hb); in_range
  | |- _ => check_fields; reflexivity
  end.

Lemma encode_read_codes r :
  read_typed r -> validate_canonical_key (r_key r) = Ok tt ->
  exists v, encode_read r = Ok v /\ codes 3 decode_read r v.
Proof.
  intros (Hc & Hk & Hver & Hh) Hv. unfold encode_read.
  destruct (encode_key_codes _ Hk Hv) as (es & -> & E1 & E2 & E3).
  eexists. split; [reflexivity|]. unfold codes.
  destruct r as [c k [ver|] h]; cbn [r_collection_id r_key observed_version projection_hash opt] in *.
  all: revert E1 E2 E3; generalize (Map es); intros kv E1 E2 E3; codes_map.
Qed.

Lemma encode_mutation_codes m :
  mutation_typed m -> validate_canonical_key (m_key m) = Ok tt ->
  exists v, encode_mutation m = Ok v /\ codes 3 decode_mutation m v.
Proof.
  intros (Hc & Hk & Hval & Hver) Hv. unfold encode_mutation.
  destruct (encode_key_codes _ Hk Hv) as (es & -> & E1 & E2 & E3).
  eexists. split; [reflexivity|]. unfold codes. unfold fits in Hval.
  destruct m as [kind c k [val|] [ver|]];
    cbn [m_collection_id m_key m_kind encoded_value if_version opt] in *.
  all: revert E1 E2 E3; generalize (Map es); intros kv E1 E2 E3; destruct kind; codes_map.
Qed.

Lemma encode_predicate_codes p :
  predicate_typed p -> match p_key p with Some k => validate_canonical_key k | None => Ok tt end = Ok tt ->
  exists v, encode_predicate p = Ok v /\ codes 3 decode_predicate p v.
Proof.
  intros (Hc & Hk & Hver & Henc) Hv. unfold encode_predicate. unfold fits in Henc.
  destruct p as [kind c [k|] ver enc]; cbn [p_collection_id p_key p_kind p_version p_encoded opt] in *.
  - destruct (encode_key_codes _ Hk Hv) as (es & -> & E1 & E2 & E3).
    eexists. split; [reflexivity|]. unfold codes.
    revert E1 E2 E3; generalize (Map es); intros kv E1 E2 E3.
    destruct c, ver, enc, kind; cbn [opt] in *; codes_map.
  - eexists. split; [reflexivity|]. unfold codes.
    destruct c, ver, enc, kind; cbn [opt] in *; codes_map.
Qed.

(** Lists of values. *)
Definition list_codes {A} (d : nat) (decode : Value -> res A) (xs : list A) (vs : list Value) : Prop :=
  length vs = length xs /\ Forall (fun v => encodable (inj v) /\ (depth v <= d)%nat) vs
  /\ traverse decode (map vcanon vs) = Ok xs.

Lemma traverse_codes {A} d (encode : A -> res Value) decode xs :
  Forall (fun x => exists v, encode x = Ok v /\ codes d decode x v) xs ->
  exists vs, traverse encode xs = Ok vs /\ list_codes d decode xs vs.
Proof.
  induction 1 as [|x xs (v & Hv & E1 & E2 & E3) _ (vs & Hvs & Hl & Hf & Hd)]; simpl.
  - exists []. split; [done|]. by split_and!.
  - rewrite Hv, Hvs. eexists. split; [done|]. split_and!; [simpl; congruence|by constructor|].
    simpl. by rewrite E3, Hd.
Qed.

Lemma array_codes {A} d decode (xs : list A) vs :
  list_codes d decode xs vs -> in_u64 (Z.of_nat (length xs)) ->
  encodable (inj (Array vs)) /\ (depth (Array vs) <= S d)%nat.
Proof.
  intros (Hl & Hf & _) Hn. cbn [inj encodable depth]. rewrite length_map, Hl, foldr_and_Forall.
  split; [split; [done|]|].
  - rewrite Forall_map. eapply Forall_impl; [exact Hf|]. by intros v [? _].
  - apply le_n_S, (depth_le depth). eapply Forall_impl; [exact Hf|]. by intros v [_ ?].
Qed.

Lemma revisions_codes l : Forall (fun r => length r = 32%nat) l ->
  list_codes 1 decode_rev l (map Bytes l).
Proof.
  intros Hl. unfold list_codes. rewrite length_map, Forall_map, map_map. split_and!; [done| |].
  - eapply Forall_impl; [exact Hl|]. intros r Hr. cbn [inj encodable depth]. rewrite Hr.
    split; [in_range|lia].
  - induction Hl as [|r l Hr _ IH]; [done|]. cbn in *. by rewrite Hr, IH.
Qed.

Lemma limits_codes l : limits_typed l ->
  codes 2 (fun v => let? m := as_map v in decode_limits m) (truncate_limits l) (Map (encode_limits l)).
Proof.
  intros [Hu Hd]. rewrite !Forall_cons in Hu.
  destruct Hu as (H1 & H2 & H3 & H4 & H5 & H6 & H7 & H8 & H9 & _). unfold in_u32, U32_MAX in *.
  assert (Hm : 0 <= deadline_millis (construction_deadline l) <= U64_MAX).
  { unfold deadline_millis, U64_MAX. pose proof (Z.div_pos (construction_deadline l) 1000000). lia. }
  unfold codes. change (vcanon (Map (encode_limits l))) with (Map (encode_limits l)).
  unfold U64_MAX in Hm. unfold truncate_limits, encode_limits.
  revert Hm. generalize (deadline_millis (construction_deadline l)). intros d Hm.
  destruct l. cbn -[Nat.le in_u64 Z.leb]. unfold in_u64, U32_MAX, U64_MAX in *. cbn -[Nat.le Z.leb] in *.
  rewrite !(proj2 (Z.leb_le _ _)) by lia. split_and!; try done; try lia. no_dup.
Qed.

Section Codec.
Context {H : Blake3} {B : BigIntOps}.

Lemma close_truncate p plan :
  close_plan p = Ok plan -> close_plan (truncate_parts p) = Ok (truncate_plan plan).
Proof. rewrite !close_plan_Ok. intros (Hd & Hok & ->). by split_and!. Qed.

Lemma validate_plan_keys_Ok p : validate_plan_keys p = Ok tt ->
  (forall m, m ∈ mutations p -> validate_canonical_key (m_key m) = Ok tt)
  /\ (forall r, r ∈ reads p -> validate_canonical_key (r_key r) = Ok tt)
  /\ (forall q, q ∈ predicates p ->
       match p_key q with Some k => validate_canonical_key k | None => Ok tt end = Ok tt).
Proof.
  unfold validate_plan_keys. intros Hk.
  destruct (for_each _ (mutations p)) as [[]|] eqn:Km; [|done].
  destruct (for_each _ (reads p)) as [[]|] eqn:Kr; [|done].
  apply for_each_Ok in Km, Kr, Hk.
  split_and!; by apply Forall_forall.
Qed.

(** The entries of a plan once its lists are encoded. *)
Definition entries_of (p : AtomicPlanParts) (rs qs ms : list Value) : list (Z * Value) :=
  [(1, Uint (profile_wire_code (profile p))); (2, Bytes (atomic_id p));
   (3, Bytes (heap_id p)); (4, Uint (scope_wire_code (scope p)))]
  ++ match read_frontier p with Some f => [(5, Bytes f)] | None => [] end
  ++ [(6, Array rs); (7, Array qs); (8, Array ms);
      (9, Array (map Bytes (active_rule_revisions p))); (10, Map (encode_limits (limits p)))].

Lemma profile_code_range p : profile_typed p -> 0 <= profile_wire_code p <= U16_MAX.
Proof. destruct p; simpl; unfold U16_MAX; lia. Qed.
Lemma profile_code_back p : profile_typed p -> profile_from_wire_code (profile_wire_code p) = p.
Proof.
  destruct p as [|c]; [done|]. intros [_ Hc]. unfold profile_from_wire_code. simpl.
  by rewrite (proj2 (Z.eqb_neq c 1)).
Qed.

Lemma entries_encodable p rs qs ms :
  plan_typed p -> list_codes 3 decode_read (reads p) rs ->
  list_codes 3 decode_predicate (predicates p) qs ->
  list_codes 3 decode_mutation (mutations p) ms ->
  vencodable 8 (entries_of p rs qs ms).
Proof.
  intros (Tp & [Ti _] & [Th _] & Tf & [_ Nr] & [_ Nq] & [_ Nm] & [Ta Na] & Tl) Cr Cq Cm.
  pose proof (revisions_codes _ Ta) as Ca. pose proof (limits_codes _ Tl) as (L1 & L2 & _).
  destruct (array_codes _ _ _ _ Cr Nr) as [R1 R2], (array_codes _ _ _ _ Cq Nq) as [Q1 Q2],
    (array_codes _ _ _ _ Cm Nm) as [M1 M2], (array_codes _ _ _ _ Ca Na) as [A1 A2].
  pose proof (profile_code_range _ Tp) as Hp. unfold U16_MAX in Hp.
  assert (Hs : in_u64 (scope_wire_code (scope p))) by (destruct (scope p); in_range).
  revert R1 R2 Q1 Q2 M1 M2 A1 A2 L1 L2. unfold entries_of.
  generalize (Array rs) (Array qs) (Array ms) (Array (map Bytes (active_rule_revisions p)))
    (Map (encode_limits (limits p))). intros.
  split_and!; [destruct (read_frontier p); in_range|destruct (read_frontier p); no_dup|].
  assert (Hf : forall k v, in_u64 k -> encodable (inj v) -> (depth v <= 4)%nat ->
    in_u64 k /\ encodable (inj v) /\ (depth v <= 8)%nat) by (intros; split_and!; [done..|lia]).
  rewrite !Forall_app, !Forall_cons. cbn [fst snd].
  destruct (read_frontier p) as [f|]; cbn [opt] in Tf; rewrite ?Forall_cons, ?Forall_nil; cbn [fst snd];
    split_and!; try done; try apply Hf; try lia; try in_range; cbn [inj encodable];
    rewrite ?Ti, ?Th, ?Tf; try done; in_range.
Qed.

Lemma id32_ok what b : is_id 32 b -> fixed 32 b = Ok b /\ id_of what 32 b = Ok b.
Proof. intros Hb. split; [apply fixed_ok, Hb|by apply id_of_ok]. Qed.
Lemma scope_back s : scope_from_wire_code (scope_wire_code s) = Some s.
Proof. by destruct s. Qed.
Lemma scope_code_range s : scope_wire_code s <= U8_MAX.
Proof. by destruct s. Qed.

Lemma entries_decode p rs qs ms bs :
  plan_typed p -> list_codes 3 decode_read (reads p) rs ->
  list_codes 3 decode_predicate (predicates p) qs ->
  list_codes 3 decode_mutation (mutations p) ms ->
  decode_map bs = Ok (vcanon_entries (entries_of p rs qs ms)) ->
  decode_canonical_plan bs = close_plan (truncate_parts p).
Proof.
  intros (Tp & Ti & Th & Tf & _ & _ & _ & [Ta _] & Tl) (_ & _ & Cr) (_ & _ & Cq) (_ & _ & Cm) Hbs.
  destruct (revisions_codes _ Ta) as (_ & _ & Ca), (limits_codes _ Tl) as (_ & _ & L).
  pose proof (profile_code_range _ Tp) as [_ Hp].
  unfold decode_canonical_plan. rewrite Hbs. clear Hbs. unfold entries_of, truncate_parts.
  destruct p as [pr ai hi sc fr rd qd md ar li].
  cbn [profile atomic_id heap_id scope read_frontier reads predicates mutations active_rule_revisions
    limits] in *.
  revert Ca L. generalize (map Bytes ar) (Map (encode_limits li)). intros av lv Ca L.
  destruct fr as [f|]; cbn [opt] in Tf.
  all: cbn -[Nat.le fixed AtomicId_from_bytes HeapId_from_bytes zeros close_plan decode_limits
      scope_from_wire_code scope_wire_code profile_from_wire_code profile_wire_code U16_MAX U8_MAX].
  all: rewrite (proj2 (Z.leb_le _ _) Hp), (proj2 (Z.leb_le _ _) (scope_code_range sc)), scope_back.
  all: unfold AtomicId_from_bytes, HeapId_from_bytes.
  all: rewrite (proj1 (id32_ok "" ai Ti)), (proj2 (id32_ok _ ai Ti)), (proj1 (id16_ok "" hi Th)),
         (proj2 (id16_ok _ hi Th)), ?(fixed_ok 32 f) by done.
  all: rewrite Cr, Cq, Cm, Ca. all: destruct (as_map _) as [lm|]; [|done]; rewrite L.
  all: by rewrite profile_code_back.
Qed.

Lemma plan_entries_codes plan :
  plan_typed (parts plan) -> validate_plan_keys (parts plan) = Ok tt ->
  exists es, plan_entries plan = Ok es /\ vencodable 8 es
    /\ forall bs, decode_map bs = Ok (vcanon_entries es) ->
         decode_canonical_plan bs = close_plan (truncate_parts (parts plan)).
Proof.
  destruct plan as [p]. cbn [parts]. intros Tp Hkeys. pose proof Tp as
    (_ & _ & _ & _ & [Tr _] & [Tq _] & [Tm _] & _). rewrite Forall_forall in Tr.
  rewrite Forall_forall in Tq. rewrite Forall_forall in Tm.
  apply validate_plan_keys_Ok in Hkeys as (Km & Kr & Kq).
  destruct (traverse_codes 3 encode_read decode_read (reads p)) as (rs & Er & Cr).
  { apply Forall_forall. intros r Hin. apply encode_read_codes; auto. }
  destruct (traverse_codes 3 encode_predicate decode_predicate (predicates p)) as (qs & Eq & Cq).
  { apply Forall_forall. intros r Hin. apply encode_predicate_codes; auto. }
  destruct (traverse_codes 3 encode_mutation decode_mutation (mutations p)) as (ms & Em & Cm).
  { apply Forall_forall. intros r Hin. apply encode_mutation_codes; auto. }
  unfold plan_entries. cbn [parts]. rewrite Er, Eq, Em. eexists. split; [reflexivity|].
  split; [by apply entries_encodable|]. intros bs. by apply entries_decode.
Qed.

Lemma plan_typed_same p q : same_parts p q -> plan_typed p -> plan_typed q.
Proof.
  intros (H1 & H2 & H3 & _ & H5 & H6 & Hr & Hp & Hm & Ha). unfold plan_typed.
  by rewrite H1, H2, H3, H5, H6, Hr, Hp, Hm, Ha.
Qed.

Lemma encode_truncate plan : plan_typed (parts plan) ->
  encode_canonical_plan (truncate_plan plan) = encode_canonical_plan plan.
Proof.
  intros (_ & _ & _ & _ & _ & _ & _ & _ & [_ Hd]). destruct plan as [p]. cbn [parts] in Hd.
  unfold encode_canonical_plan, plan_entries, encode_limits, truncate_plan, truncate_parts, truncate_limits.
  cbn -[deadline_millis]. set (d := construction_deadline (limits p)) in *.
  replace (deadline_millis (deadline_millis d * 1000000)) with (deadline_millis d); [done|].
  unfold deadline_millis. rewrite Z.div_mul by lia. lia.
Qed.

Lemma truncate_exact plan :
  construction_deadline (limits (parts plan)) mod 1000000 = 0 ->
  construction_deadline (limits (parts plan)) <= U64_MAX * 1000000 -> truncate_plan plan = plan.
Proof.
  destruct plan as [[pr ai hi sc fr rd qd md ar [l1 l2 l3 l4 l5 l6 l7 l8 dl l10]]].
  cbn [parts limits construction_deadline]. intros Hm Hx.
  unfold truncate_plan, truncate_parts, truncate_limits. cbn -[deadline_millis Z.mul].
  do 3 f_equal. unfold deadline_millis, U64_MAX in *.
  pose proof (Z.div_mod dl 1000000). lia.
Qed.

Lemma plan_codec p plan : close_plan p = Ok plan -> plan_typed p ->
  exists bs, encode_canonical_plan plan = Ok bs
             /\ decode_canonical_plan bs = Ok (truncate_plan plan).
Proof.
  intros Hc Ht. pose proof (close_plan_self _ _ Hc) as [Hsame Hself].
  pose proof (plan_typed_same _ _ Hsame Ht) as Ht'.
  assert (Hk : validate_plan_keys (parts plan) = Ok tt).
  { by apply close_plan_Ok in Hc as (_ & (_ & _ & _ & _ & Hk) & ->). }
  destruct (plan_entries_codes plan Ht' Hk) as (es & He & Hv & Hd).
  destruct (acbor_roundtrip es Hv) as (bs & Hb & Hm).
  exists bs. unfold encode_canonical_plan. rewrite He. split; [done|].
  rewrite (Hd bs Hm). apply close_truncate, Hself.
Qed.

(** C19. The canonical encoding of a closed plan succeeds and decodes to the plan
    with its deadline cut to whole milliseconds, and two closed plans have the
    same encoding exactly when they agree up to that cut: the content root hashes
    everything else about a plan, and nothing but the plan. *)
Theorem plan_codec_faithful p plan :
  close_plan p = Ok plan -> plan_typed p ->
  exists bs, encode_canonical_plan plan = Ok bs
    /\ decode_canonical_plan bs = Ok (truncate_plan plan)
    /\ (construction_deadline (limits p) mod 1000000 = 0 ->
        construction_deadline (limits p) <= U64_MAX * 1000000 ->
        decode_canonical_plan bs = Ok plan)
    /\ forall p' plan', close_plan p' = Ok plan' -> plan_typed p' ->
         (encode_canonical_plan plan' = Ok bs <-> truncate_plan plan' = truncate_plan plan).
Proof.
  intros Hc Ht. destruct (plan_codec p plan Hc Ht) as (bs & He & Hd).
  destruct (close_plan_self _ _ Hc) as [Hs _]. pose proof (plan_typed_same _ _ Hs Ht) as Hpt.
  exists bs. split_and!; [done..| |].
  - intros Hm Hx. rewrite Hd. f_equal. apply truncate_exact; by destruct Hs as (_ & _ & _ & _ & _ & <- & _).
  - intros p' plan' Hc' Ht'. destruct (plan_codec p' plan' Hc' Ht') as (bs' & He' & Hd').
    destruct (close_plan_self _ _ Hc') as [Hs' _].
    split; intros Heq; [congruence|].
    rewrite <- (encode_truncate plan'), Heq, encode_truncate; [done..|].
    by apply (plan_typed_same p').
Qed.
End Codec.

(** ** A concrete plan *)

(** A stand-in digest: 32 bytes that depend on the length only. *)
Definition sample_blake3 : Blake3 := fun bs => be_bytes 32 (Z.of_nat (length bs)).
Lemma sample_blake3_laws : Blake3Laws sample_blake3.
Proof. intros bs. apply length_be_bytes. Qed.

Definition sample_id (n : nat) (z : Z) : list byte := be_bytes n z.
Definition sample_parts : AtomicPlanParts := {|
  profile := LocalHeapV1; atomic_id := sample_id 32 7; heap_id := sample_id 16 5;
  scope := ScopeLocalHeap; read_frontier := Some (sample_id 32 9);
  reads := [ {| r_collection_id := sample_id 16 2; r_key := key_decimal (-15) 2;
                observed_version := Some (sample_id 16 4); projection_hash := sample_id 32 0 |} ];
  predicates := [ {| p_kind := AssertVersion; p_collection_id := Some (sample_id 16 2);
                     p_key := Some (KeyString (lit "b")); p_version := Some (sample_id 16 8);
                     p_encoded := None |};
                  {| p_kind := AssertAbsent; p_collection_id := Some (sample_id 16 1);
                     p_key := Some (KeyString (lit "a")); p_version := None; p_encoded := None |} ];
  mutations := [ {| m_kind := MPut; m_collection_id := sample_id 16 2; m_key := KeyOpaque (lit "z");
                    encoded_value := Some (lit "v"); if_version := None |};
                 {| m_kind := MDelete; m_collection_id := sample_id 16 1; m_key := key_integer 300;
                    encoded_value := None; if_version := Some (sample_id 16 3) |} ];
  active_rule_revisions := [sample_id 32 2; sample_id 32 1];
  limits := builder_defaults_local_heap |}.

(** The same parts with every list in the other order. *)
Definition sample_parts_reversed : AtomicPlanParts := {|
  profile := LocalHeapV1; atomic_id := sample_id 32 7; heap_id := sample_id 16 5;
  scope := ScopeLocalHeap; read_frontier := Some (sample_id 32 9);
  reads := reverse (reads sample_parts); predicates := reverse (predicates sample_parts);
  mutations := reverse (mutations sample_parts);
  active_rule_revisions := reverse (active_rule_revisions sample_parts);
  limits := builder_defaults_local_heap |}.

Definition sample_plan : AtomicPlan := from_closed (with_sorted sample_parts).

Lemma sample_closes : @close_plan sample_blake3 sample_bigint sample_parts = Ok sample_plan.
Proof. vm_compute. reflexivity. Qed.

(** Membership in [is_id] and [in_u64] by evaluation. *)
Definition is_idb (n : nat) (b : list byte) : bool := (length b =? n)%nat && negb (bytes_eqb b (zeros n)).
Lemma is_idb_ok n b : is_idb n b = true -> is_id n b.
Proof.
  unfold is_idb. intros [Hl Hn]%andb_true_iff. split; [by apply Nat.eqb_eq|]. intros ->.
  unfold bytes_eqb in Hn. by rewrite bool_decide_true in Hn.
Qed.
Lemma in_u64b_ok z : ((0 <=? z) && (z <=? U64_MAX)) = true -> in_u64 z.
Proof. intros. boolify. by split. Qed.
Ltac eval_typed :=
  cbv [opt fits r_collection_id observed_version projection_hash r_key m_collection_id m_key
    encoded_value if_version p_collection_id p_key p_version p_encoded key_payload
    atomic_id heap_id read_frontier sample_parts key_decimal key_integer];
  lazymatch goal with
  | |- True => exact I
  | |- is_id _ _ => apply is_idb_ok; vm_compute; reflexivity
  | |- in_u64 _ => apply in_u64b_ok; vm_compute; reflexivity
  | |- in_i64 _ => by vm_compute
  | |- _ = _ => vm_compute; reflexivity
  end.

Lemma sample_typed : plan_typed sample_parts.
Proof.
  unfold plan_typed.
  refine (conj I (conj _ (conj _ (conj _ (conj (conj _ _) (conj (conj _ _)
    (conj (conj _ _) (conj (conj _ _) (conj _ _)))))))));
    try lazymatch goal with |- Forall _ _ => fail | |- 0 <= _ => done | _ => eval_typed end.
  - apply Forall_singleton. refine (conj _ (conj (conj _ _) (conj _ _))); eval_typed.
  - apply Forall_cons_2; [|apply Forall_singleton];
      (refine (conj _ (conj (conj _ _) (conj _ _))); eval_typed).
  - apply Forall_cons_2; [|apply Forall_singleton];
      (refine (conj _ (conj (conj _ _) (conj _ _))); eval_typed).
  - apply Forall_cons_2; [|apply Forall_singleton]; reflexivity.
  - by repeat constructor.
Qed.

Lemma close_plan_canonical_witness :
  @close_plan sample_blake3 sample_bigint sample_parts_reversed = Ok sample_plan
  /\ @close_plan sample_blake3 sample_bigint (parts sample_plan) = Ok sample_plan.
Proof.
  destruct (@close_plan_canonical sample_blake3 sample_bigint sample_parts sample_plan
              sample_closes) as [Hq Hs].
  split; [|exact Hs]. apply Hq. unfold same_parts.
  do 6 (split; [reflexivity|]). split_and!; apply Permutation_sym, reverse_Permutation.
Defined.

Lemma plan_codec_faithful_witness :
  exists bs, encode_canonical_plan sample_plan = Ok bs
    /\ @decode_canonical_plan sample_blake3 sample_bigint bs = Ok sample_plan.
Proof.
  destruct (@plan_codec_faithful sample_blake3 sample_bigint sample_parts sample_plan
              sample_closes sample_typed) as (bs & He & _ & Hd & _).
  exists bs. split; [exact He|]. apply Hd; [reflexivity|]. vm_compute. discriminate.
Defined.

(** Deadlines that differ by less than a millisecond have the same encoding. *)
Example deadline_fraction_lost :
  let plan d := from_closed {|
    profile := LocalHeapV1; atomic_id := sample_id 32 7; heap_id := sample_id 16 5;
    scope := ScopeKey; read_frontier := None; reads := []; predicates := []; mutations := [];
    active_rule_revisions := [];
    limits := {| caller_mutations := 1; total_generated_members := 1; canonical_plan_bytes := 1;
      total_proposed_value_bytes := 1; read_witnesses := 1; l_predicates := 1;
      affected_collections_limit := 1; l_active_rule_revisions := 1; construction_deadline := d;
      emitted_violations := 1 |} |} in
  plan 1500000 <> plan 1000000
  /\ encode_canonical_plan (plan 1500000) = encode_canonical_plan (plan 1000000).
Proof. split; [by intros [=]|reflexivity]. Qed.
