(* ===== verification/AtomicOracle.v ===== *)
(** * The serial Atomic oracle

    Model of [crates/residiuum-atomics/src/oracle.rs], the serial in-memory Heap
    that decides one closed plan at a time, and of the outcomes, receipts and
    status axes of [outcome.rs] it produces.

    The [BTreeMap]s are [gmap]s; a method on [&mut self] returns the new state
    with its result.  [next_position] is a [u64] the code increments once for
    every committed plan; it is a [Z] here, and only [mint_version] and
    [decision_hash] see its eight bytes. *)
From S2P Require Import Prelude Cbor AtomicCbor AtomicKeys AtomicPlan.
Import Acbor.
Open Scope list_scope.
Open Scope Z_scope.

Definition DOMAIN_ATOMIC_DECISION : list byte := lit "RESIDIUUM-ATOMIC-DECISION-V1".

(** ** Outcomes and status *)

Inductive LogicalStatus : Type :=
| LCommitted | LNotCommitted | UnknownCommit | ConflictingDecisionEvidence | NotFound.
Inductive MaterialStatus : Type :=
| Complete | Partial | Missing | Conflicting | MCoverageIncomplete.

Record AtomicMemberReceipt := {
  mr_collection_id : list byte;
  mr_key : list byte;
  before_version : option (list byte);
  after_version : option (list byte);
  event_id : list byte }.

Inductive Durability : Type := Durable.

Record AtomicReceipt := {
  rc_atomic_id : list byte;
  rc_heap_id : list byte;
  rc_content_root : list byte;
  commit_position : Z;
  durability : Durability;
  members : list AtomicMemberReceipt;
  rc_decision_hash : list byte;
  replayed : bool }.

Inductive AtomicOutcome : Type :=
| Committed (r : AtomicReceipt)
| NotCommitted (atomic_id : list byte) (reason : AtomicAbortReason)
| Unknown (atomic_id resolution : list byte).

Record AtomicStatus := {
  logical : LogicalStatus;
  material : MaterialStatus;
  st_content_root : option (list byte);
  receipt : option AtomicReceipt }.

Definition incomplete_coverage : AtomicStatus := {|
  logical := UnknownCommit; material := MCoverageIncomplete; st_content_root := None;
  receipt := None |}.
Definition not_found : AtomicStatus := {|
  logical := NotFound; material := Complete; st_content_root := None; receipt := None |}.
Definition receipt_permitted (l : LogicalStatus) (m : MaterialStatus) : bool :=
  match l with LCommitted => true | _ => false end
  && match m with Complete | Partial => true | _ => false end.
Definition with_committed_receipt (s : AtomicStatus) (r : AtomicReceipt) : option AtomicStatus :=
  if negb (receipt_permitted (logical s) (material s)) then None
  else Some {| logical := logical s; material := material s;
               st_content_root := st_content_root s; receipt := Some r |}.

(** ** State *)

Inductive OracleHistoryKind : Type :=
| HRefused | HReplayed | HIdConflict | HIssuedCommitted | HIssuedNotCommitted.

Record OracleHistoryRecord := {
  h_kind : OracleHistoryKind;
  h_atomic_id : list byte;
  h_content_root : option (list byte);
  h_commit_position : option Z;
  published : bool;
  refuse_reason : option AtomicRefuseReason;
  abort_reason : option AtomicAbortReason }.

Record OracleCell := { c_version : list byte; c_value : list byte }.

Inductive Issued : Type :=
| IssuedCommitted (r : AtomicReceipt)
| IssuedNotCommitted (reason : AtomicAbortReason).

Abbreviation slot := (list byte * list byte)%type.

Record SerialOracle := {
  o_heap_id : list byte;
  next_position : Z;
  cells : gmap slot OracleCell;
  collection_lifecycles : gmap (list byte) CollectionLifecycleState;
  issued : gmap (list byte) (list byte * Issued);
  history : list OracleHistoryRecord }.

Definition oracle_new (heap : list byte) : SerialOracle := {|
  o_heap_id := heap; next_position := 1; cells := ∅; collection_lifecycles := ∅; issued := ∅;
  history := [] |}.

Definition get (o : SerialOracle) (collection : list byte) (key : CanonicalKey)
  : option OracleCell := cells o !! (collection, key_order_bytes key).

Definition set_collection_lifecycle (o : SerialOracle) (collection : list byte)
    (s : CollectionLifecycleState) : SerialOracle := {|
  o_heap_id := o_heap_id o; next_position := next_position o; cells := cells o;
  collection_lifecycles := <[collection := s]> (collection_lifecycles o); issued := issued o;
  history := history o |}.

Definition status (o : SerialOracle) (id : list byte) : AtomicStatus :=
  match issued o !! id with
  | None => not_found
  | Some (root, IssuedCommitted r) => {|
      logical := LCommitted; material := Complete; st_content_root := Some root;
      receipt := Some r |}
  | Some (root, IssuedNotCommitted _) => {|
      logical := LNotCommitted; material := Complete; st_content_root := Some root;
      receipt := None |}
  end.

Definition push_history (o : SerialOracle) (h : OracleHistoryRecord) : SerialOracle := {|
  o_heap_id := o_heap_id o; next_position := next_position o; cells := cells o;
  collection_lifecycles := collection_lifecycles o; issued := issued o;
  history := history o ++ [h] |}.
Definition issue (o : SerialOracle) (id root : list byte) (i : Issued) : SerialOracle := {|
  o_heap_id := o_heap_id o; next_position := next_position o; cells := cells o;
  collection_lifecycles := collection_lifecycles o; issued := <[id := (root, i)]> (issued o);
  history := history o |}.

(** ** Validation against the current state *)

Definition conflict : option AtomicAbortReason := Some PreconditionConflict.

Definition version_matches (expected : option (list byte)) (cell : option OracleCell) : bool :=
  match expected, cell with
  | Some v, Some c => bytes_eqb (c_version c) v
  | _, _ => false
  end.

Definition check_predicate (o : SerialOracle) (p : PlanPredicate) : option AtomicAbortReason :=
  match p_kind p with
  | HeapAuthorityRevision => None
  | CollectionLifecycleStateK =>
      match p_collection_id p with
      | None => conflict
      | Some collection =>
          match p_encoded p with
          | None => conflict
          | Some bs =>
              match decode_collection_lifecycle_payload bs with
              | Err _ => conflict
              | Ok expected =>
                  let actual := default LActive (collection_lifecycles o !! collection) in
                  if bool_decide (actual = expected) then None else conflict
              end
          end
      end
  | kind =>
      match p_collection_id p, p_key p with
      | Some c, Some k =>
          let cell := get o c k in
          match kind with
          | AssertAbsent => if some cell then conflict else None
          | AssertPresent => if some cell then None else conflict
          | AssertVersion => if version_matches (p_version p) cell then None else conflict
          | _ => Some RuleRejected
          end
      | _, _ => conflict
      end
  end.

Definition check_read (o : SerialOracle) (w : ReadWitness) : option AtomicAbortReason :=
  match observed_version w, get o (r_collection_id w) (r_key w) with
  | None, None => None
  | Some v, Some c => if bytes_eqb (c_version c) v then None else conflict
  | _, _ => conflict
  end.

Definition check_mutation (o : SerialOracle) (m : PlanMutation) : option AtomicAbortReason :=
  let cell := get o (m_collection_id m) (m_key m) in
  match m_kind m with
  | MCreate => if some cell then conflict else None
  | MPut => None
  | MReplace | MDelete => if version_matches (if_version m) cell then None else conflict
  end.

Fixpoint first_reason {A} (check : A -> option AtomicAbortReason) (l : list A)
  : option AtomicAbortReason :=
  match l with
  | [] => None
  | x :: rest => match check x with Some r => Some r | None => first_reason check rest end
  end.

Definition validate_all (o : SerialOracle) (plan : AtomicPlan) : option AtomicAbortReason :=
  match first_reason (check_predicate o) (predicates (parts plan)) with
  | Some r => Some r
  | None =>
      match first_reason (check_read o) (reads (parts plan)) with
      | Some r => Some r
      | None => first_reason (check_mutation o) (mutations (parts plan))
      end
  end.

(** ** Publication *)

(** Eight bytes of position, four of ordinal, and a final one. *)
Definition mint_version (position ordinal : Z) : list byte :=
  be_bytes 8 position ++ be_bytes 4 ordinal ++ [z2b 0; z2b 0; z2b 0; z2b 1].

Definition decision_hash {H : Blake3} (id root : list byte) (position : Z) : list byte :=
  blake3 (DOMAIN_ATOMIC_DECISION ++ id ++ root ++ be_bytes 8 position).

(** One turn of the publication loop. *)
Definition publish_one (position ordinal : Z) (cs : gmap slot OracleCell) (m : PlanMutation)
  : gmap slot OracleCell * AtomicMemberReceipt :=
  let key_bytes := key_order_bytes (m_key m) in
  let s := (m_collection_id m, key_bytes) in
  let before := c_version <$> cs !! s in
  let '(cs', after) :=
    match m_kind m with
    | MDelete => (delete s cs, None)
    | MCreate | MPut | MReplace =>
        let version := mint_version position ordinal in
        (<[s := {| c_version := version; c_value := unwrap_or_default (encoded_value m) |}]> cs,
         Some version)
    end in
  (cs', {| mr_collection_id := m_collection_id m; mr_key := key_bytes; before_version := before;
           after_version := after; event_id := mint_version position (Z.lor 0x80000000 ordinal) |}).

Fixpoint publish (position : Z) (i : nat) (cs : gmap slot OracleCell) (l : list PlanMutation)
  : gmap slot OracleCell * list AtomicMemberReceipt :=
  match l with
  | [] => (cs, [])
  | m :: rest =>
      let '(cs1, r) := publish_one position (as_u32 (Z.of_nat i)) cs m in
      let '(cs2, rs) := publish position (S i) cs1 rest in
      (cs2, r :: rs)
  end.

(** ** Applying a plan *)

Section Apply.
Context {H : Blake3} {B : BigIntOps}.

Definition refuse (o : SerialOracle) (plan : AtomicPlan) (reason : AtomicRefuseReason)
  : SerialOracle * res AtomicOutcome :=
  (push_history o {| h_kind := HRefused; h_atomic_id := atomic_id (parts plan);
     h_content_root := None; h_commit_position := None; published := false;
     refuse_reason := Some reason; abort_reason := None |}, Err (Refused reason)).

Definition as_replay (r : AtomicReceipt) : AtomicReceipt := {|
  rc_atomic_id := rc_atomic_id r; rc_heap_id := rc_heap_id r;
  rc_content_root := rc_content_root r; commit_position := commit_position r;
  durability := durability r; members := members r; rc_decision_hash := rc_decision_hash r;
  replayed := true |}.

(** The plan's identity was issued before. *)
Definition apply_issued (o : SerialOracle) (plan : AtomicPlan) (root : list byte)
    (prev_root : list byte) (i : Issued) : SerialOracle * res AtomicOutcome :=
  let id := atomic_id (parts plan) in
  if bytes_eqb prev_root root then
    let outcome := match i with
                   | IssuedCommitted r => Committed (as_replay r)
                   | IssuedNotCommitted reason => NotCommitted id reason
                   end in
    (push_history o {| h_kind := HReplayed; h_atomic_id := id; h_content_root := Some root;
       h_commit_position := match i with IssuedCommitted r => Some (commit_position r) | _ => None end;
       published := match i with IssuedCommitted _ => true | _ => false end;
       refuse_reason := None;
       abort_reason := match i with IssuedNotCommitted reason => Some reason | _ => None end |},
     Ok outcome)
  else
    (push_history o {| h_kind := HIdConflict; h_atomic_id := id; h_content_root := Some root;
       h_commit_position := None; published := false; refuse_reason := Some AtomicIdConflict;
       abort_reason := None |}, Err (Refused AtomicIdConflict)).

Definition apply_abort (o : SerialOracle) (plan : AtomicPlan) (root : list byte)
    (reason : AtomicAbortReason) : SerialOracle * res AtomicOutcome :=
  let id := atomic_id (parts plan) in
  (push_history (issue o id root (IssuedNotCommitted reason))
     {| h_kind := HIssuedNotCommitted; h_atomic_id := id; h_content_root := Some root;
        h_commit_position := None; published := false; refuse_reason := None;
        abort_reason := Some reason |},
   Ok (NotCommitted id reason)).

Definition apply_commit (o : SerialOracle) (plan : AtomicPlan) (root : list byte)
  : SerialOracle * res AtomicOutcome :=
  let id := atomic_id (parts plan) in
  let position := next_position o in
  let '(cs, ms) := publish position 0 (cells o) (mutations (parts plan)) in
  let r := {| rc_atomic_id := id; rc_heap_id := o_heap_id o; rc_content_root := root;
              commit_position := position; durability := Durable; members := ms;
              rc_decision_hash := decision_hash id root position; replayed := false |} in
  let o1 := {| o_heap_id := o_heap_id o; next_position := position + 1; cells := cs;
               collection_lifecycles := collection_lifecycles o; issued := issued o;
               history := history o |} in
  (push_history (issue o1 id root (IssuedCommitted r))
     {| h_kind := HIssuedCommitted; h_atomic_id := id; h_content_root := Some root;
        h_commit_position := Some position; published := true; refuse_reason := None;
        abort_reason := None |},
   Ok (Committed r)).

Definition apply (o : SerialOracle) (plan : AtomicPlan) : SerialOracle * res AtomicOutcome :=
  match validate_closed_plan plan (o_heap_id o) with
  | Err (Refused reason) => refuse o plan reason
  | Err other => (o, Err other)
  | Ok _ =>
      match plan_content_root plan with
      | Err e => (o, Err e)
      | Ok root =>
          match issued o !! atomic_id (parts plan) with
          | Some (prev_root, i) => apply_issued o plan root prev_root i
          | None =>
              match validate_all o plan with
              | Some reason => apply_abort o plan root reason
              | None => apply_commit o plan root
              end
          end
      end
  end.
End Apply.
