(* ===== verification/AtomicOracleFacts.v ===== *)
(** * Facts about the serial Atomic oracle

    The oracle against its contract: a plan commits exactly when everything it
    relies on holds in the current cells, a commit updates all its targets at
    once, every other outcome leaves the cells alone, decisions are final, the
    cells are what the committed plans leave when run one after the other, and
    a version is never reused. *)
From S2P Require Import Prelude Cbor AtomicCbor AtomicKeys AtomicPlan AtomicPlanFacts AtomicOracle.
Import Acbor.
Open Scope list_scope.
Open Scope Z_scope.

(** ** The contract *)

Abbreviation Cells := (gmap slot OracleCell).
Abbreviation Lifecycles := (gmap (list byte) CollectionLifecycleState).

Definition mutation_slot (m : PlanMutation) : slot := (m_collection_id m, key_order_bytes (m_key m)).
Definition slot_version (cs : Cells) (c : list byte) (k : CanonicalKey) : option (list byte) :=
  c_version <$> cs !! (c, key_order_bytes k).

Definition mutation_allowed (cs : Cells) (m : PlanMutation) : Prop :=
  match m_kind m with
  | MCreate => slot_version cs (m_collection_id m) (m_key m) = None
  | MPut => True
  | MReplace | MDelete =>
      if_version m <> None /\ slot_version cs (m_collection_id m) (m_key m) = if_version m
  end.

Definition predicate_holds (L : Lifecycles) (cs : Cells) (p : PlanPredicate) : Prop :=
  match p_kind p with
  | HeapAuthorityRevision => True
  | CollectionLifecycleStateK =>
      exists c bs, p_collection_id p = Some c /\ p_encoded p = Some bs
        /\ decode_collection_lifecycle_payload bs = Ok (default LActive (L !! c))
  | AssertAbsent =>
      exists c k, p_collection_id p = Some c /\ p_key p = Some k /\ slot_version cs c k = None
  | AssertPresent =>
      exists c k, p_collection_id p = Some c /\ p_key p = Some k /\ slot_version cs c k <> None
  | AssertVersion =>
      exists c k v, p_collection_id p = Some c /\ p_key p = Some k /\ p_version p = Some v
        /\ slot_version cs c k = Some v
  | _ => False
  end.

(** Everything a plan relies on. *)
Definition admissible (L : Lifecycles) (cs : Cells) (plan : AtomicPlan) : Prop :=
  Forall (predicate_holds L cs) (predicates (parts plan))
  /\ Forall (fun w => slot_version cs (r_collection_id w) (r_key w) = observed_version w)
       (reads (parts plan))
  /\ Forall (mutation_allowed cs) (mutations (parts plan)).

(** What a plan writes at a slot: the cell it leaves there, or nothing. *)
Definition new_cell (position : Z) (i : nat) (m : PlanMutation) : option OracleCell :=
  match m_kind m with
  | MDelete => None
  | _ => Some {| c_version := mint_version position (as_u32 (Z.of_nat i));
                 c_value := unwrap_or_default (encoded_value m) |}
  end.
Fixpoint effect_at (position : Z) (i : nat) (l : list PlanMutation) (s : slot)
  : option (option OracleCell) :=
  match l with
  | [] => None
  | m :: rest =>
      if bool_decide (mutation_slot m = s) then Some (new_cell position i m)
      else effect_at position (S i) rest s
  end.

(** All targets change at once, and nothing else does. *)
Definition updates (position : Z) (i : nat) (cs : Cells) (l : list PlanMutation) (cs' : Cells) : Prop :=
  forall s, cs' !! s = match effect_at position i l s with Some c => c | None => cs !! s end.

(** ** Validation *)

Lemma some_spec {A} (o : option A) : some o = true <-> o <> None.
Proof. destruct o; simpl; naive_solver. Qed.

Lemma version_matches_spec e (cell : option OracleCell) :
  version_matches e cell = true <-> e <> None /\ c_version <$> cell = e.
Proof.
  destruct e as [v|], cell as [c|]; simpl; unfold bytes_eqb; rewrite ?bool_decide_eq_true;
    naive_solver.
Qed.

Lemma first_reason_None {A} (check : A -> option AtomicAbortReason) l :
  first_reason check l = None <-> Forall (fun x => check x = None) l.
Proof.
  induction l as [|x l IH]; simpl; [by split|]. rewrite Forall_cons, <- IH.
  destruct (check x); naive_solver.
Qed.

Lemma if_conflict (b : bool) : (if b then None else conflict) = None <-> b = true.
Proof. by destruct b. Qed.
Lemma if_conflict' (b : bool) : (if b then conflict else None) = None <-> b = false.
Proof. by destruct b. Qed.

Lemma check_mutation_None o m : check_mutation o m = None <-> mutation_allowed (cells o) m.
Proof.
  unfold check_mutation, mutation_allowed, slot_version, get.
  destruct (m_kind m); [rewrite if_conflict'|done|rewrite if_conflict, version_matches_spec; done..].
  destruct (cells o !! _); simpl; naive_solver.
Qed.
Lemma check_read_None o w :
  check_read o w = None <-> slot_version (cells o) (r_collection_id w) (r_key w) = observed_version w.
Proof.
  unfold check_read, slot_version, get.
  destruct (observed_version w), (cells o !! _); simpl; try naive_solver.
  unfold bytes_eqb. rewrite if_conflict, bool_decide_eq_true. naive_solver.
Qed.

(** An assertion needs a collection and a key. *)
Lemma with_target {A} (oc : option (list byte)) (ok : option A)
    (f : list byte -> A -> option AtomicAbortReason) (P : list byte -> A -> Prop) :
  (forall c k, f c k = None <-> P c k) ->
  match oc, ok with Some c, Some k => f c k | _, _ => conflict end = None
  <-> exists c k, oc = Some c /\ ok = Some k /\ P c k.
Proof.
  intros Hf. destruct oc as [c|], ok as [k|].
  - rewrite Hf. split; [eauto|]. by intros (? & ? & [= <-] & [= <-] & ?).
  - split; [done|]. by intros (? & ? & ? & ? & ?).
  - split; [done|]. by intros (? & ? & ? & ? & ?).
  - split; [done|]. by intros (? & ? & ? & ? & ?).
Qed.

Lemma check_predicate_None o p :
  check_predicate o p = None <-> predicate_holds (collection_lifecycles o) (cells o) p.
Proof.
  unfold check_predicate, predicate_holds, slot_version, get.
  destruct (p_kind p); try done.
  - apply with_target. intros c k. rewrite if_conflict'. by destruct (cells o !! _).
  - apply with_target. intros c k. rewrite if_conflict. by destruct (cells o !! _).
  - etransitivity; [apply (with_target _ _ _ (fun c k => exists v, p_version p = Some v
      /\ c_version <$> cells o !! (c, key_order_bytes k) = Some v))|].
    + intros c k. rewrite if_conflict, version_matches_spec.
      destruct (p_version p) as [v|]; (split; [intros [Hv He]; by eauto|]).
      * by intros (? & [= <-] & ->).
      * by intros (? & ? & _).
    + split; [intros (c & k & ? & ? & v & ? & ?); by exists c, k, v|].
      intros (c & k & v & ? & ? & ? & ?). exists c, k. eauto.
  - by destruct (p_collection_id p), (p_key p).
  - by destruct (p_collection_id p), (p_key p).
  - by destruct (p_collection_id p), (p_key p).
  - by destruct (p_collection_id p), (p_key p).
  - etransitivity; [|apply (with_target (p_collection_id p) (p_encoded p)
      (fun c bs => match decode_collection_lifecycle_payload bs with
                   | Err _ => conflict
                   | Ok expected =>
                       if bool_decide (default LActive (collection_lifecycles o !! c) = expected)
                       then None else conflict end)
      (fun c bs => decode_collection_lifecycle_payload bs
                   = Ok (default LActive (collection_lifecycles o !! c))))].
    + by destruct (p_collection_id p), (p_encoded p).
    + intros c bs. destruct (decode_collection_lifecycle_payload bs) as [e|]; [|done].
      rewrite if_conflict, bool_decide_eq_true. naive_solver.
Qed.

Lemma Forall_check {A} (check : A -> option AtomicAbortReason) (P : A -> Prop) l :
  (forall x, check x = None <-> P x) -> first_reason check l = None <-> Forall P l.
Proof.
  intros Hc. rewrite first_reason_None. split; intros Hl; (eapply Forall_impl; [exact Hl|]);
    intros x; apply Hc.
Qed.

Lemma validate_all_None o plan :
  validate_all o plan = None <-> admissible (collection_lifecycles o) (cells o) plan.
Proof.
  unfold validate_all, admissible.
  rewrite <- (Forall_check _ _ _ (check_predicate_None o)), <- (Forall_check _ _ _ (check_read_None o)),
    <- (Forall_check _ _ _ (check_mutation_None o)).
  destruct (first_reason (check_predicate o) _), (first_reason (check_read o) _); naive_solver.
Qed.

(** ** Acceptable plans *)

(** The bytes of all proposed values. *)
Definition value_total (l : list PlanMutation) : Z :=
  foldr (fun m n => match encoded_value m with Some v => Z.of_nat (length v) + n | None => n end) 0 l.
(** The collections that a plan names. *)
Definition named_collections (p : AtomicPlanParts) : list (list byte) :=
  map m_collection_id (mutations p) ++ omap p_collection_id (predicates p)
  ++ map r_collection_id (reads p).

(** The plans that a Heap decides: of its own, of a supported profile and scope, with
    closed-plan predicates only, under limits within the hard ones, and within its
    limits. *)
Record acceptable (plan : AtomicPlan) (heap : list byte) : Prop := {
  ac_profile : profile (parts plan) = LocalHeapV1;
  ac_scope : scope (parts plan) = ScopeKey \/ scope (parts plan) = ScopeLocalHeap;
  ac_heap : heap_id (parts plan) = heap;
  ac_closed : Forall (fun q => is_closed_plan_predicate (p_kind q) = true) (predicates (parts plan));
  ac_hard : is_within (limits (parts plan)) (hard_limits (scope (parts plan))) = true;
  ac_members : Z.of_nat (length (mutations (parts plan))) <= caller_mutations (limits (parts plan));
  ac_generated :
    Z.of_nat (length (mutations (parts plan))) <= total_generated_members (limits (parts plan));
  ac_values : value_total (mutations (parts plan)) <= total_proposed_value_bytes (limits (parts plan));
  ac_bytes : exists bs, encode_canonical_plan plan = Ok bs
    /\ Z.of_nat (length bs) <= canonical_plan_bytes (limits (parts plan));
  ac_reads : Z.of_nat (length (reads (parts plan))) <= read_witnesses (limits (parts plan));
  ac_predicates : Z.of_nat (length (predicates (parts plan))) <= l_predicates (limits (parts plan));
  ac_revisions : Z.of_nat (length (active_rule_revisions (parts plan)))
    <= l_active_rule_revisions (limits (parts plan));
  ac_collections : Z.of_nat (size (list_to_set (named_collections (parts plan)) : gset (list byte)))
    <= affected_collections_limit (limits (parts plan)) }.

Lemma u32_len_Ok n m : u32_len n = Ok m <-> n <= U32_MAX /\ m = n.
Proof. unfold u32_len. destruct (Z.leb_spec n U32_MAX); split; naive_solver lia. Qed.

Lemma value_total_nonneg l : 0 <= value_total l.
Proof. induction l as [|m l IH]; simpl; [lia|]. destruct (encoded_value m); lia. Qed.
Lemma value_bytes_Ok l : forall acc n, 0 <= acc <= U32_MAX ->
  value_bytes acc l = Ok n <-> n = acc + value_total l /\ n <= U32_MAX.
Proof.
  induction l as [|m l IH]; intros acc n Ha; cbn [value_bytes value_total foldr].
  { rewrite Z.add_0_r. split; [intros [= <-]; lia|]. by intros [-> _]. }
  fold (value_total l). pose proof (value_total_nonneg l) as Hl.
  destruct (encoded_value m) as [v|]; [|by apply IH].
  unfold u32_len. destruct (Z.leb_spec (Z.of_nat (length v)) U32_MAX); cbn.
  2: { split; [done|]. intros [-> ?]. lia. }
  destruct (Z.leb_spec (acc + Z.of_nat (length v)) U32_MAX).
  - rewrite IH by lia. rewrite Z.add_assoc. done.
  - split; [done|]. intros [-> ?]. lia.
Qed.

(** Sorting and dropping equal neighbours counts the distinct elements. *)
Lemma dedup_in x l : x ∈ dedup l <-> x ∈ l.
Proof.
  induction l as [|y [|z l] IH]; [done..|]. cbn [dedup]. unfold bytes_eqb in *. case_bool_decide as Hyz.
  - subst z. rewrite IH, !elem_of_cons. tauto.
  - rewrite elem_of_cons, IH, !elem_of_cons. tauto.
Qed.
Lemma dedup_nodup l : StronglySorted (not_gt bytes_cmp) l -> NoDup (dedup l).
Proof.
  induction l as [|y [|z l] IH]; intros Hs; [constructor|by apply NoDup_singleton|].
  apply StronglySorted_inv in Hs as [Hs Hy]. cbn [dedup]. unfold bytes_eqb in *.
  case_bool_decide as Hyz; [by apply IH|]. constructor; [|by apply IH].
  intros Hin. apply (dedup_in y (z :: l)) in Hin. apply StronglySorted_inv in Hs as [_ Hz].
  apply Forall_cons in Hy as [Hy _].
  apply elem_of_cons in Hin as [->|Hin]; [done|]. rewrite Forall_forall in Hz. specialize (Hz y Hin).
  unfold not_gt in *. rewrite bytes_cmp_antisym in Hz. apply Hyz, bytes_cmp_Eq.
  by destruct (bytes_cmp y z).
Qed.
Lemma dedup_size l :
  length (dedup (sort_by bytes_cmp l)) = size (list_to_set l : gset (list byte)).
Proof.
  rewrite <- (size_list_to_set (C := gset (list byte)) (dedup (sort_by bytes_cmp l))).
  - f_equal. apply set_eq. intros x. rewrite !elem_of_list_to_set. etrans; [apply dedup_in|]. by rewrite sort_by_perm.
  - apply dedup_nodup, sort_by_sorted; [intros; apply bytes_cmp_antisym|apply not_gt_bytes].
Qed.

Lemma within_u32 l s : is_within l (hard_limits s) = true ->
  caller_mutations l <= U32_MAX /\ total_proposed_value_bytes l <= U32_MAX
  /\ canonical_plan_bytes l <= U32_MAX /\ read_witnesses l <= U32_MAX /\ l_predicates l <= U32_MAX
  /\ l_active_rule_revisions l <= U32_MAX /\ affected_collections_limit l <= U32_MAX.
Proof.
  unfold is_within, U32_MAX. intros Hw. boolify.
  destruct s; cbn [hard_limits hard_partition hard_key hard_local_heap caller_mutations
    total_proposed_value_bytes canonical_plan_bytes read_witnesses l_predicates
    l_active_rule_revisions affected_collections_limit] in *; split_and!; lia.
Qed.

Lemma account_Ok plan acc :
  account_closed_plan plan = Ok acc ->
  requested_members acc = Z.of_nat (length (mutations (parts plan)))
  /\ worst_case_generated_members acc = Z.of_nat (length (mutations (parts plan)))
  /\ requested_value_bytes acc = value_total (mutations (parts plan))
  /\ exists bs, encode_canonical_plan plan = Ok bs /\ requested_plan_bytes acc = Z.of_nat (length bs).
Proof.
  unfold account_closed_plan.
  destruct (u32_len (Z.of_nat (length (mutations _)))) as [n|] eqn:Hn; [|done]. cbn.
  destruct (value_bytes 0 _) as [v|] eqn:Hv; [|done]. cbn.
  destruct (encode_canonical_plan plan) as [bs|] eqn:He; [|done]. cbn.
  destruct (u32_len (Z.of_nat (length bs))) as [k|] eqn:Hk; [|done]. cbn. intros [= <-].
  apply u32_len_Ok in Hn as [_ ->]. apply u32_len_Ok in Hk as [_ ->].
  apply value_bytes_Ok in Hv as [-> _]; [|unfold U32_MAX; lia]. split_and!; [done..|by exists bs].
Qed.
Lemma account_total plan bs :
  Z.of_nat (length (mutations (parts plan))) <= U32_MAX ->
  value_total (mutations (parts plan)) <= U32_MAX ->
  encode_canonical_plan plan = Ok bs -> Z.of_nat (length bs) <= U32_MAX ->
  exists acc, account_closed_plan plan = Ok acc.
Proof.
  intros H1 H2 H3 H4. unfold account_closed_plan.
  rewrite (proj2 (u32_len_Ok _ _) (conj H1 eq_refl)). cbn.
  rewrite (proj2 (value_bytes_Ok _ 0 _ ltac:(unfold U32_MAX; lia)) (conj eq_refl H2)). cbn.
  rewrite H3. cbn. rewrite (proj2 (u32_len_Ok _ _) (conj H4 eq_refl)). cbn. eauto.
Qed.

Lemma forallb_not_existsb {A} (f : A -> bool) l :
  existsb (fun x => negb (f x)) l = false <-> Forall (fun x => f x = true) l.
Proof.
  induction l as [|x l IH]; simpl; [done|]. rewrite orb_false_iff, negb_false_iff, IH.
  by rewrite Forall_cons.
Qed.

(** Validation accepts exactly the acceptable plans. *)
Lemma validated_plan plan heap : validate_closed_plan plan heap = Ok tt <-> acceptable plan heap.
Proof.
  unfold validate_closed_plan, check_applied_limits, affected_collections.
  fold (named_collections (parts plan)). rewrite dedup_size. split.
  - destruct (execution_supported _) eqn:H1; [|done]. destruct (execution_supports_scope _ _) eqn:H2; [|done].
    unfold bytes_eqb. case_bool_decide as H3; [|done]. destruct (existsb _ _) eqn:H4; [done|].
    destruct (is_within _ _) eqn:H5; [|done]. cbn [negb].
    destruct (account_closed_plan plan) as [acc|] eqn:Ha; [|done].
    apply account_Ok in Ha as (A1 & A2 & A3 & bs & He & A4). rewrite A1, A2, A3, A4. cbn.
    destruct (_ || _) eqn:Hl; [done|].
    destruct (u32_len (Z.of_nat (length (reads _)))) as [n1|] eqn:N1; [|done]. apply u32_len_Ok in N1 as [_ ->]. cbn.
    destruct (_ <? Z.of_nat (length (reads _))) eqn:L1; [done|].
    destruct (u32_len (Z.of_nat (length (predicates _)))) as [n1|] eqn:N1; [|done]. apply u32_len_Ok in N1 as [_ ->]. cbn.
    destruct (_ <? Z.of_nat (length (predicates _))) eqn:L2; [done|].
    destruct (u32_len (Z.of_nat (length (active_rule_revisions _)))) as [n1|] eqn:N1; [|done].
    apply u32_len_Ok in N1 as [_ ->]. cbn.
    destruct (_ <? Z.of_nat (length (active_rule_revisions _))) eqn:L3; [done|].
    destruct (u32_len (Z.of_nat (size _))) as [n1|] eqn:N1; [|done]. apply u32_len_Ok in N1 as [_ ->]. cbn.
    destruct (_ <? Z.of_nat (size _)) eqn:L4; [done|]. intros _. boolify.
    split; [..|exists bs; split; [done|lia]| | | |]; try lia; try done.
    + by destruct (profile _).
    + destruct (profile _), (scope _); try done; tauto.
    + by apply forallb_not_existsb.
  - intros [H1 H2 H3 H4 H5 L1 L2 L3 (bs & He & L4) L5 L6 L7 L8].
    destruct (within_u32 _ _ H5) as (U1 & U2 & U3 & U4 & U5 & U6 & U7).
    destruct (account_total plan bs) as [acc Ha]; [lia..|done|lia|].
    rewrite Ha. apply account_Ok in Ha as (A1 & A2 & A3 & bs' & He' & A4).
    assert (bs' = bs) as -> by congruence. rewrite A1, A2, A3, A4, H1. cbn [execution_supported negb].
    assert (execution_supports_scope LocalHeapV1 (scope (parts plan)) = true) as -> by (by destruct H2 as [-> | ->]).
    unfold bytes_eqb. rewrite bool_decide_true by done. rewrite (proj2 (forallb_not_existsb _ _) H4), H5.
    cbn [negb]. assert (Hlt : forall a b, b <= a -> (a <? b) = false) by (intros; by apply Z.ltb_ge).
    rewrite (Hlt _ _ L1), (Hlt _ _ L2), (Hlt _ _ L3), (Hlt _ _ L4). cbn [orb].
    rewrite (proj2 (u32_len_Ok _ _) (conj (Z.le_trans _ _ _ L5 U4) eq_refl)). cbn. rewrite (Hlt _ _ L5).
    rewrite (proj2 (u32_len_Ok _ _) (conj (Z.le_trans _ _ _ L6 U5) eq_refl)). cbn. rewrite (Hlt _ _ L6).
    rewrite (proj2 (u32_len_Ok _ _) (conj (Z.le_trans _ _ _ L7 U6) eq_refl)). cbn. rewrite (Hlt _ _ L7).
    rewrite (proj2 (u32_len_Ok _ _) (conj (Z.le_trans _ _ _ L8 U7) eq_refl)). cbn. by rewrite (Hlt _ _ L8).
Qed.

(** An acceptable plan has a content root. *)
Lemma acceptable_root `{Blake3} plan heap : acceptable plan heap -> exists root, plan_content_root plan = Ok root.
Proof. intros [_ _ _ _ _ _ _ _ (bs & He & _) _ _ _ _]. unfold plan_content_root. rewrite He. cbn. eauto. Qed.

(** ** Publication *)

Lemma publish_one_lookup position i cs m s :
  fst (publish_one position (as_u32 (Z.of_nat i)) cs m) !! s
  = if bool_decide (mutation_slot m = s) then new_cell position i m else cs !! s.
Proof.
  unfold publish_one, new_cell. fold (mutation_slot m).
  destruct (m_kind m); simpl; case_bool_decide as Hs; subst;
    by rewrite ?lookup_insert_eq, ?lookup_insert_ne, ?lookup_delete_eq, ?lookup_delete_ne by done.
Qed.

Lemma effect_at_None position i l s :
  effect_at position i l s = None <-> s ∉ map mutation_slot l.
Proof.
  revert i. induction l as [|m l IH]; intros i; simpl; [set_solver|].
  rewrite not_elem_of_cons, <- IH. case_bool_decide; naive_solver.
Qed.

Lemma publish_updates position l : forall i cs, NoDup (map mutation_slot l) ->
  updates position i cs l (fst (publish position i cs l)).
Proof.
  induction l as [|m l IH]; intros i cs Hn s; simpl; [done|].
  apply NoDup_cons in Hn as [Hm Hn].
  pose proof (publish_one_lookup position i cs m s) as H1.
  destruct (publish_one _ _ _ _) as [cs1 r]. specialize (IH (S i) cs1 Hn s).
  destruct (publish _ _ _ _) as [cs2 rs]. simpl in *. rewrite IH. case_bool_decide as Hs.
  - subst s. by rewrite (proj2 (effect_at_None _ _ _ _) Hm).
  - by rewrite H1.
Qed.

(** ** One plan *)

Section Oracle.
Context {H : Blake3} {B : BigIntOps}.

(** Plans are only made by closing parts. *)
Definition closed (plan : AtomicPlan) : Prop := exists p, close_plan p = Ok plan.

Lemma closed_slots plan : closed plan -> NoDup (map mutation_slot (mutations (parts plan))).
Proof.
  intros [p Hp]. destruct (close_plan_self _ _ Hp) as [_ Hself].
  apply close_plan_Ok in Hself as ((Hd & _) & _).
  apply refuse_duplicates_Ok in Hd as (ks & H2 & Hn & _).
  replace (map mutation_slot (mutations (parts plan))) with ks; [done|]. clear -H2.
  induction H2 as [|m k l ks Hk _ IH]; simpl; [done|]. injection Hk as <-. by rewrite IH.
Qed.

Lemma apply_issued_fst o plan root prev i :
  cells (fst (apply_issued o plan root prev i)) = cells o
  /\ issued (fst (apply_issued o plan root prev i)) = issued o
  /\ next_position (fst (apply_issued o plan root prev i)) = next_position o.
Proof. unfold apply_issued. by case_match. Qed.

Lemma apply_commit_parts o plan root :
  let o' := fst (apply_commit o plan root) in
  exists r, snd (apply_commit o plan root) = Ok (Committed r)
    /\ replayed r = false /\ commit_position r = next_position o
    /\ members r = snd (publish (next_position o) 0 (cells o) (mutations (parts plan)))
    /\ issued o' = <[atomic_id (parts plan) := (root, IssuedCommitted r)]> (issued o)
    /\ next_position o' = next_position o + 1
    /\ cells o' = fst (publish (next_position o) 0 (cells o) (mutations (parts plan)))
    /\ collection_lifecycles o' = collection_lifecycles o.
Proof. unfold apply_commit. destruct (publish _ _ _ _) as [cs ms]. simpl. eauto 10. Qed.

(** What the receipt of a member says. *)
Definition member_receipt (position : Z) (cs : Cells) (i : nat) (m : PlanMutation)
    (r : AtomicMemberReceipt) : Prop :=
  mr_collection_id r = m_collection_id m /\ mr_key r = key_order_bytes (m_key m)
  /\ before_version r = c_version <$> cs !! mutation_slot m
  /\ after_version r = c_version <$> new_cell position i m
  /\ event_id r = mint_version position (Z.lor 0x80000000 (as_u32 (Z.of_nat i))).

Lemma publish_members position l : forall i cs, NoDup (map mutation_slot l) ->
  length (snd (publish position i cs l)) = length l
  /\ forall k m r, l !! k = Some m -> snd (publish position i cs l) !! k = Some r ->
       member_receipt position cs (i + k) m r.
Proof.
  induction l as [|m0 l IH]; intros i cs Hn; simpl; [done|].
  apply NoDup_cons in Hn as [Hm Hn].
  pose proof (fun s => publish_one_lookup position i cs m0 s) as H1.
  destruct (publish_one _ _ cs m0) as [cs1 r0] eqn:Hp. destruct (IH (S i) cs1 Hn) as [Hl Hr].
  destruct (publish _ _ cs1 l) as [cs2 rs]. simpl in *. split; [congruence|].
  intros [|k] m r; simpl.
  - intros [= <-] [= <-]. rewrite Nat.add_0_r. unfold publish_one in Hp.
    destruct (m_kind m0) eqn:Hk; injection Hp as <- <-; unfold member_receipt, new_cell;
      rewrite Hk; by split_and!.
  - intros Hlk Hrk. rewrite Nat.add_succ_r. destruct (Hr k m r Hlk Hrk) as (? & ? & Hb & ?).
    split_and!; try tauto. rewrite Hb, H1, bool_decide_false; [done|].
    intros Heq. apply Hm. rewrite Heq. apply list_elem_of_fmap_2. by apply list_elem_of_lookup_2 in Hlk.
Qed.

(** What a state keeps when nothing was decided. *)
Definition undecided (o o' : SerialOracle) : Prop :=
  cells o' = cells o /\ issued o' = issued o /\ next_position o' = next_position o
  /\ collection_lifecycles o' = collection_lifecycles o /\ o_heap_id o' = o_heap_id o.

(** A new decision: the plan commits exactly when it is admissible. *)
Definition decided (o : SerialOracle) (plan : AtomicPlan) (root : list byte) (o' : SerialOracle)
    (result : res AtomicOutcome) : Prop :=
  let id := atomic_id (parts plan) in
  collection_lifecycles o' = collection_lifecycles o /\ o_heap_id o' = o_heap_id o
  /\ (admissible (collection_lifecycles o) (cells o) plan -> exists r,
        result = Ok (Committed r) /\ replayed r = false
        /\ updates (next_position o) 0 (cells o) (mutations (parts plan)) (cells o')
        /\ issued o' = <[id := (root, IssuedCommitted r)]> (issued o)
        /\ commit_position r = next_position o /\ next_position o' = next_position o + 1
        /\ length (members r) = length (mutations (parts plan))
        /\ forall k m rec, mutations (parts plan) !! k = Some m -> members r !! k = Some rec ->
             member_receipt (next_position o) (cells o) k m rec)
  /\ (~ admissible (collection_lifecycles o) (cells o) plan -> exists reason,
        result = Ok (NotCommitted id reason)
        /\ cells o' = cells o /\ next_position o' = next_position o
        /\ issued o' = <[id := (root, IssuedNotCommitted reason)]> (issued o)).

Lemma apply_refused o plan : ~ acceptable plan (o_heap_id o) ->
  undecided o (fst (apply o plan)) /\ exists e, snd (apply o plan) = Err e.
Proof.
  intros Hn. unfold apply. destruct (validate_closed_plan plan (o_heap_id o)) as [[]|[]] eqn:Hv;
    [by destruct (Hn (proj1 (validated_plan _ _) Hv))|..]; split; eauto; by split_and!.
Qed.
Lemma apply_issued_undecided o plan root prev i : undecided o (fst (apply_issued o plan root prev i)).
Proof. unfold apply_issued, undecided. by case_match. Qed.
Lemma apply_accepted o plan root :
  acceptable plan (o_heap_id o) -> plan_content_root plan = Ok root ->
  apply o plan = match issued o !! atomic_id (parts plan) with
                 | Some (prev, i) => apply_issued o plan root prev i
                 | None => match validate_all o plan with
                           | Some reason => apply_abort o plan root reason
                           | None => apply_commit o plan root
                           end
                 end.
Proof. intros Hv%validated_plan Hr. unfold apply. by rewrite Hv, Hr. Qed.
Lemma apply_decides o plan root :
  closed plan -> acceptable plan (o_heap_id o) -> plan_content_root plan = Ok root ->
  issued o !! atomic_id (parts plan) = None ->
  decided o plan root (fst (apply o plan)) (snd (apply o plan)).
Proof.
  intros Hc Hv Hr Hi. pose proof (closed_slots plan Hc) as Hn. rewrite (apply_accepted _ _ _ Hv Hr), Hi.
  destruct (validate_all o plan) as [reason|] eqn:Hva.
  - split_and!; [done|done| |intros _; by exists reason].
    intros Ha. apply validate_all_None in Ha. congruence.
  - destruct (apply_commit_parts o plan root) as (r & Hs & Hrep & Hp & Hm & Hi' & Hnx & Hcs & Hl).
    assert (Hh : o_heap_id (fst (apply_commit o plan root)) = o_heap_id o)
      by (unfold apply_commit; by destruct (publish _ _ _ _)).
    destruct (publish_members (next_position o) _ 0 (cells o) Hn) as [Hlen Hrec].
    split_and!; [done|done| |].
    + intros _. exists r. rewrite Hcs, Hm. split_and!; try done. by apply publish_updates.
    + intros Ha. destruct Ha. by apply validate_all_None.
Qed.

(** C20. Deciding one closed plan is all or nothing.  A plan that is not acceptable to
    this Heap is answered by an error and changes nothing; an acceptable one always has
    a content root and an answer.  When its identity is new, the plan commits exactly
    when every predicate, read and mutation precondition holds in the current cells and
    lifecycles: then every target takes its new cell at once, nothing else changes, the
    position is used up, and the receipt of each member names the version before and
    after; otherwise it is recorded as not committed and no cell changes.  When its
    identity was decided before, the same plan gets the recorded outcome again, another
    one is refused as a conflict, and nothing changes. *)
Theorem oracle_apply_atomic o plan :
  closed plan ->
  let o' := fst (apply o plan) in
  let result := snd (apply o plan) in
  let id := atomic_id (parts plan) in
  (~ acceptable plan (o_heap_id o) -> undecided o o' /\ exists e, result = Err e)
  /\ (acceptable plan (o_heap_id o) -> exists root, plan_content_root plan = Ok root /\
      match issued o !! id with
      | None => decided o plan root o' result
      | Some (prev, i) =>
          undecided o o'
          /\ (prev = root -> result = Ok match i with
                                         | IssuedCommitted r => Committed (as_replay r)
                                         | IssuedNotCommitted reason => NotCommitted id reason
                                         end)
          /\ (prev <> root -> result = Err (Refused AtomicIdConflict))
      end).
Proof.
  intros Hc. cbv zeta. split; [apply apply_refused|]. intros Ha.
  destruct (acceptable_root plan _ Ha) as [root Hr]. exists root. split; [done|].
  destruct (issued o !! _) as [[prev i]|] eqn:Hi; [|by apply apply_decides].
  rewrite (apply_accepted _ _ _ Ha Hr), Hi. split; [apply apply_issued_undecided|].
  unfold apply_issued, bytes_eqb. by case_bool_decide; destruct i.
Qed.

(** ** Sequences of operations *)

Inductive op : Type :=
| Submit (plan : AtomicPlan)
| SetLifecycle (collection : list byte) (s : CollectionLifecycleState).

Definition step (o : SerialOracle) (x : op) : SerialOracle :=
  match x with
  | Submit plan => fst (apply o plan)
  | SetLifecycle c s => set_collection_lifecycle o c s
  end.
Definition run (o : SerialOracle) (ops : list op) : SerialOracle := fold_left step ops o.

(** The plans that commit, in the order in which they do. *)
Definition commits (o : SerialOracle) (x : op) : list AtomicPlan :=
  match x with
  | Submit plan =>
      match snd (apply o plan) with
      | Ok (Committed r) => if replayed r then [] else [plan]
      | _ => []
      end
  | SetLifecycle _ _ => []
  end.
Fixpoint commit_log (o : SerialOracle) (ops : list op) : list AtomicPlan :=
  match ops with
  | [] => []
  | x :: rest => commits o x ++ commit_log (step o x) rest
  end.

Definition op_closed (x : op) : Prop := match x with Submit plan => closed plan | _ => True end.

(** The three ways a step can go. *)
Lemma step_cases o x : op_closed x ->
  (cells (step o x) = cells o /\ issued (step o x) = issued o
   /\ next_position (step o x) = next_position o /\ commits o x = []
   /\ match x with
      | Submit plan => collection_lifecycles (step o x) = collection_lifecycles o
          /\ (acceptable plan (o_heap_id o) -> is_Some (issued o !! atomic_id (parts plan)))
      | SetLifecycle c s => collection_lifecycles (step o x) = <[c := s]> (collection_lifecycles o)
      end)
  \/ (exists plan root reason, x = Submit plan /\ issued o !! atomic_id (parts plan) = None
      /\ acceptable plan (o_heap_id o) /\ ~ admissible (collection_lifecycles o) (cells o) plan
      /\ cells (step o x) = cells o /\ next_position (step o x) = next_position o
      /\ collection_lifecycles (step o x) = collection_lifecycles o
      /\ issued (step o x) = <[atomic_id (parts plan) := (root, IssuedNotCommitted reason)]> (issued o)
      /\ commits o x = [])
  \/ (exists plan root r, x = Submit plan /\ issued o !! atomic_id (parts plan) = None
      /\ acceptable plan (o_heap_id o)
      /\ plan_content_root plan = Ok root
      /\ admissible (collection_lifecycles o) (cells o) plan
      /\ updates (next_position o) 0 (cells o) (mutations (parts plan)) (cells (step o x))
      /\ next_position (step o x) = next_position o + 1 /\ commit_position r = next_position o
      /\ collection_lifecycles (step o x) = collection_lifecycles o
      /\ issued (step o x) = <[atomic_id (parts plan) := (root, IssuedCommitted r)]> (issued o)
      /\ commits o x = [plan]).
Proof.
  destruct x as [plan|c s]; [|left; done]. intros Hc. cbn [step commits op_closed] in *.
  assert (Hdec : acceptable plan (o_heap_id o) \/ ~ acceptable plan (o_heap_id o)).
  { rewrite <- validated_plan. destruct (validate_closed_plan _ _) as [[]|]; naive_solver. }
  destruct Hdec as [Ha|Ha].
  2: { left. destruct (apply_refused o plan Ha) as [(E1 & E2 & E3 & E4 & _) [e ->]]. split_and!; try done. }
  destruct (acceptable_root plan _ Ha) as [root Hr].
  destruct (issued o !! atomic_id (parts plan)) as [[prev i]|] eqn:Hi.
  - left. rewrite (apply_accepted _ _ _ Ha Hr), Hi.
    destruct (apply_issued_undecided o plan root prev i) as (E1 & E2 & E3 & E4 & _).
    split_and!; try done. unfold apply_issued. by destruct (bytes_eqb prev root), i.
  - right. destruct (apply_decides o plan root Hc Ha Hr Hi) as (E4 & _ & Hyes & Hno).
    assert (Hadm : admissible (collection_lifecycles o) (cells o) plan
                   \/ ~ admissible (collection_lifecycles o) (cells o) plan).
    { rewrite <- validate_all_None. destruct (validate_all o plan); naive_solver. }
    destruct Hadm as [Hva|Hva].
    + right. destruct (Hyes Hva) as (r & -> & -> & Hu & E2 & Hp & E3 & _). by exists plan, root, r.
    + left. destruct (Hno Hva) as (reason & -> & E1 & E3 & E2). by exists plan, root, reason.
Qed.

Lemma step_heap o x : o_heap_id (step o x) = o_heap_id o.
Proof.
  destruct x as [plan|c s]; [|done]. cbn [step]. unfold apply.
  destruct (validate_closed_plan _ _) as [[]|[]]; try done. destruct (plan_content_root plan); [|done].
  destruct (issued o !! _) as [[prev i]|]; [unfold apply_issued; by case_match|].
  destruct (validate_all o plan); [done|]. unfold apply_commit. by destruct (publish _ _ _ _).
Qed.
Lemma run_heap ops : forall o, o_heap_id (run o ops) = o_heap_id o.
Proof.
  induction ops as [|x ops IH]; intros o; [done|]. change (run o (x :: ops)) with (run (step o x) ops).
  by rewrite IH, step_heap.
Qed.

Lemma step_issued o x id d : issued o !! id = Some d -> issued (step o x) !! id = Some d.
Proof.
  intros Hd. destruct x as [plan|c s]; [|done]. cbn [step]. unfold apply.
  destruct (validate_closed_plan _ _) as [[]|[]]; try done.
  destruct (plan_content_root plan) as [root|]; [|done].
  destruct (issued o !! atomic_id (parts plan)) as [[prev i]|] eqn:Hi.
  - by destruct (apply_issued_fst o plan root prev i) as (_ & -> & _).
  - assert (Hne : atomic_id (parts plan) <> id) by congruence. destruct (validate_all o plan).
    + cbn. by rewrite lookup_insert_ne.
    + destruct (apply_commit_parts o plan root) as (r & _ & _ & _ & _ & -> & _).
      by rewrite lookup_insert_ne.
Qed.
Lemma run_issued ops : forall o id d, issued o !! id = Some d -> issued (run o ops) !! id = Some d.
Proof. induction ops as [|x ops IH]; intros o id d Hd; [done|]. by apply IH, step_issued. Qed.

(** ** Decisions are final *)

(** The outcome a later submission sees. *)
Definition replay_outcome (out : AtomicOutcome) : AtomicOutcome :=
  match out with Committed r => Committed (as_replay r) | _ => out end.

Lemma apply_again o plan out :
  snd (apply o plan) = Ok out ->
  validate_closed_plan plan (o_heap_id o) = Ok tt
  /\ exists root i, plan_content_root plan = Ok root
     /\ issued (fst (apply o plan)) !! atomic_id (parts plan) = Some (root, i)
     /\ forall o', snd (apply_issued o' plan root root i) = Ok (replay_outcome out).
Proof.
  unfold apply. destruct (validate_closed_plan _ _) as [[]|[]]; try done.
  destruct (plan_content_root plan) as [root|]; [|done].
  destruct (issued o !! _) as [[prev i]|] eqn:Hi.
  - destruct (apply_issued_fst o plan root prev i) as (_ & -> & _). rewrite Hi.
    unfold apply_issued, bytes_eqb. case_bool_decide as Hr; [|done]. subst prev. intros [= <-].
    split; [done|]. exists root, i. split_and!; try done. intros o'. rewrite bool_decide_true by done.
    by destruct i.
  - destruct (validate_all o plan) as [reason|].
    + intros [= <-]. split; [done|]. exists root, (IssuedNotCommitted reason).
      split_and!; [done|apply lookup_insert_eq|]. intros o'. unfold apply_issued, bytes_eqb.
      by rewrite bool_decide_true.
    + destruct (apply_commit_parts o plan root) as (r & -> & _ & _ & _ & -> & _). intros [= <-].
      split; [done|]. exists root, (IssuedCommitted r). split_and!; [done|apply lookup_insert_eq|].
      intros o'. unfold apply_issued, bytes_eqb. by rewrite bool_decide_true.
Qed.

(** A decision is final.  Once a plan has an outcome, whatever operations
    follow, submitting it again returns that outcome marked as a replay, the
    status of its identity stays the same, and submitting a different plan under
    its identity is refused as a conflict; neither submission changes a cell, a
    decision or the position. *)
Theorem oracle_decisions_final o plan out ops plan' root' :
  snd (apply o plan) = Ok out ->
  let o1 := fst (apply o plan) in
  let o2 := run o1 ops in
  let id := atomic_id (parts plan) in
  let same s := cells s = cells o2 /\ issued s = issued o2 /\ next_position s = next_position o2 in
  snd (apply o2 plan) = Ok (replay_outcome out) /\ same (fst (apply o2 plan))
  /\ status o2 id = status o1 id
  /\ (validate_closed_plan plan' (o_heap_id o) = Ok tt -> atomic_id (parts plan') = id ->
      plan_content_root plan' = Ok root' -> plan_content_root plan <> Ok root' ->
      snd (apply o2 plan') = Err (Refused AtomicIdConflict) /\ same (fst (apply o2 plan'))).
Proof.
  intros Hout. destruct (apply_again o plan out Hout) as (Hv & root & i & Hr & Hi & Hrep).
  pose proof (run_issued ops _ _ _ Hi) as Hi2.
  assert (Hh : o_heap_id (run (fst (apply o plan)) ops) = o_heap_id o).
  { rewrite run_heap. apply (step_heap o (Submit plan)). }
  cbv zeta. set (o1 := fst (apply o plan)) in *. set (o2 := run o1 ops) in *.
  assert (Ha : apply o2 plan = apply_issued o2 plan root root i)
    by (unfold apply; by rewrite Hh, Hv, Hr, Hi2).
  rewrite Ha. split; [apply Hrep|]. split; [apply apply_issued_fst|]. split.
  - unfold status. by rewrite Hi, Hi2.
  - intros Hv' Hid Hr' Hne. unfold apply. rewrite Hh, Hv', Hr', Hid, Hi2.
    split; [|apply apply_issued_fst]. unfold apply_issued, bytes_eqb.
    rewrite bool_decide_false; [done|congruence].
Qed.

(** ** Serial order *)

(** The contract of a serial Heap over a sequence of operations, as a machine of its own:
    the position, the lifecycles, the cells and the decided identities.  A lifecycle
    change is seen by the plans after it; an acceptable plan of a new identity commits
    exactly when it is admissible in the lifecycles and cells of its moment, and writes
    all its targets at once; other plans have no effect. *)
Inductive Serial (heap : list byte)
  : Z -> Lifecycles -> Cells -> gset (list byte) -> list op -> list AtomicPlan -> Lifecycles -> Cells -> Prop :=
| Serial_nil position L cs seen : Serial heap position L cs seen [] [] L cs
| Serial_lifecycle position L cs seen c s ops plans L' cs' :
    Serial heap position (<[c := s]> L) cs seen ops plans L' cs' ->
    Serial heap position L cs seen (SetLifecycle c s :: ops) plans L' cs'
| Serial_commit position L cs seen plan cs1 ops plans L' cs' :
    acceptable plan heap -> atomic_id (parts plan) ∉ seen -> admissible L cs plan ->
    updates position 0 cs (mutations (parts plan)) cs1 ->
    Serial heap (position + 1) L cs1 ({[atomic_id (parts plan)]} ∪ seen) ops plans L' cs' ->
    Serial heap position L cs seen (Submit plan :: ops) (plan :: plans) L' cs'
| Serial_abort position L cs seen plan ops plans L' cs' :
    acceptable plan heap -> atomic_id (parts plan) ∉ seen -> ~ admissible L cs plan ->
    Serial heap position L cs ({[atomic_id (parts plan)]} ∪ seen) ops plans L' cs' ->
    Serial heap position L cs seen (Submit plan :: ops) plans L' cs'
| Serial_ignored position L cs seen plan ops plans L' cs' :
    ~ acceptable plan heap \/ atomic_id (parts plan) ∈ seen ->
    Serial heap position L cs seen ops plans L' cs' ->
    Serial heap position L cs seen (Submit plan :: ops) plans L' cs'.

Lemma run_serial ops : forall o, Forall op_closed ops ->
  Serial (o_heap_id o) (next_position o) (collection_lifecycles o) (cells o) (dom (issued o)) ops
    (commit_log o ops) (collection_lifecycles (run o ops)) (cells (run o ops)).
Proof.
  induction ops as [|x ops IH]; intros o Hc; [constructor|].
  apply Forall_cons in Hc as [Hx Hc]. specialize (IH (step o x) Hc). rewrite step_heap in IH.
  change (run o (x :: ops)) with (run (step o x) ops). cbn [commit_log].
  destruct (step_cases o x Hx) as [(E1 & E2 & E3 & -> & E4)
    |[(p & root & rs & -> & Hn & Ha & Hadm & E1 & E3 & E4 & E2 & ->)
     |(p & root & r & -> & Hn & Ha & _ & Hadm & Hu & E3 & _ & E4 & E2 & ->)]].
  - rewrite E1, E2, E3 in IH. destruct x as [plan|c s].
    + destruct E4 as [E4 Hseen]. rewrite E4 in IH. apply Serial_ignored; [|exact IH].
      destruct (decide (atomic_id (parts plan) ∈ dom (issued o))) as [Hin|Hnot]; [by right|left].
      intros Ha. by apply Hnot, elem_of_dom, Hseen.
    + rewrite E4 in IH. by constructor.
  - rewrite E1, E2, E3, E4, dom_insert_L in IH. apply Serial_abort; [done| |done|exact IH].
    by apply not_elem_of_dom.
  - rewrite E2, E3, E4, dom_insert_L in IH.
    eapply Serial_commit; [done| |exact Hadm|exact Hu|exact IH]. by apply not_elem_of_dom.
Qed.

Lemma run_log ops : forall o, Forall op_closed ops ->
  next_position (run o ops) = next_position o + Z.of_nat (length (commit_log o ops))
  /\ (forall k p, commit_log o ops !! k = Some p ->
        issued o !! atomic_id (parts p) = None
        /\ exists root r, plan_content_root p = Ok root
           /\ issued (run o ops) !! atomic_id (parts p) = Some (root, IssuedCommitted r)
           /\ commit_position r = next_position o + Z.of_nat k)
  /\ NoDup (map (fun p => atomic_id (parts p)) (commit_log o ops))
  /\ (forall id root r, issued (run o ops) !! id = Some (root, IssuedCommitted r) ->
        issued o !! id = Some (root, IssuedCommitted r)
        \/ id ∈ map (fun p => atomic_id (parts p)) (commit_log o ops)).
Proof.
  induction ops as [|x ops IH]; intros o Hc.
  { cbn. split_and!; [lia|done|constructor|auto]. }
  apply Forall_cons in Hc as [Hx Hc].
  change (run o (x :: ops)) with (run (step o x) ops). cbn [commit_log].
  destruct (IH (step o x) Hc) as (I1 & I2 & I3 & I4).
  destruct (step_cases o x Hx) as [(_ & E2 & E3 & -> & _)
    |[(p & root & rs & _ & Hn & _ & _ & _ & E3 & _ & E2 & ->)
     |(p & root & r & -> & Hn & _ & Hroot & _ & _ & E3 & Hpos & _ & E2 & ->)]].
  - by rewrite E2, E3 in *.
  - rewrite E3 in *. split_and!; try done.
    + intros k q Hk. destruct (I2 k q Hk) as [Hq Hrest]. split; [|done].
      rewrite E2 in Hq. by apply lookup_insert_None in Hq as [? _].
    + intros id root' r' Hid. destruct (I4 id root' r' Hid) as [Hs|]; [|by right]. left.
      rewrite E2 in Hs. apply lookup_insert_Some in Hs as [[_ [=]]|[_ Hs]]. done.
  - assert (Hfin : issued (run (step o (Submit p)) ops) !! atomic_id (parts p)
        = Some (root, IssuedCommitted r)).
    { apply run_issued. rewrite E2. apply lookup_insert_eq. }
    rewrite E3 in *. cbn [app length map]. split_and!; [lia| | |].
    + intros [|k] q; cbn [lookup list_lookup].
      * intros [= <-]. split; [done|]. exists root, r. split_and!; [done..|lia].
      * intros Hk. destruct (I2 k q Hk) as (Hq & root' & r' & ? & ? & ?). split.
        { rewrite E2 in Hq. by apply lookup_insert_None in Hq as [? _]. }
        exists root', r'. split_and!; [done..|lia].
    + constructor; [|done]. intros Hin. apply list_elem_of_fmap in Hin as (q & Hq & Hin).
      apply list_elem_of_lookup in Hin as [k Hk]. destruct (I2 k q Hk) as [Hnone _].
      by rewrite <- Hq, E2, lookup_insert_eq in Hnone.
    + intros id root' r' Hid. destruct (I4 id root' r' Hid) as [Hs|]; [|by right; right].
      rewrite E2 in Hs. apply lookup_insert_Some in Hs as [[<- _]|[_ Hs]]; [right; left|by left].
Qed.

(** C21. The oracle is serializable.  Any sequence of submissions and lifecycle changes
    is a run of the serial machine from the empty Heap: the plans that commit are
    exactly the acceptable ones of a new identity whose preconditions hold in the cells
    and lifecycles of their moment, each writes all its targets at once, and the cells
    and lifecycles at the end are those of that run.  The committed plans take the
    positions 1, 2, 3, ... in that order, no identity commits twice, and the recorded
    committed decisions are exactly theirs. *)
Theorem oracle_serializable heap ops :
  Forall op_closed ops ->
  let o := run (oracle_new heap) ops in
  let plans := commit_log (oracle_new heap) ops in
  Serial heap 1 ∅ ∅ ∅ ops plans (collection_lifecycles o) (cells o)
  /\ next_position o = 1 + Z.of_nat (length plans)
  /\ NoDup (map (fun p => atomic_id (parts p)) plans)
  /\ (forall k p, plans !! k = Some p ->
        exists root r, plan_content_root p = Ok root
          /\ issued o !! atomic_id (parts p) = Some (root, IssuedCommitted r)
          /\ commit_position r = 1 + Z.of_nat k)
  /\ (forall id root r, issued o !! id = Some (root, IssuedCommitted r) ->
        id ∈ map (fun p => atomic_id (parts p)) plans).
Proof.
  intros Hc. cbv zeta. destruct (run_log ops (oracle_new heap) Hc) as (L1 & L2 & L3 & L4).
  split_and!; [by apply (run_serial ops (oracle_new heap))|done..| |].
  - intros k p Hk. by destruct (L2 k p Hk).
  - intros id root r Hid. by destruct (L4 id root r Hid).
Qed.

(** ** Versions *)

Lemma accepted_small plan heap :
  acceptable plan heap -> Z.of_nat (length (mutations (parts plan))) <= 256.
Proof.
  intros [_ _ _ _ Hw Hm _ _ _ _ _ _ _]. unfold is_within in Hw. boolify.
  destruct (scope (parts plan)); cbn [hard_limits hard_partition hard_key hard_local_heap
    caller_mutations] in *; lia.
Qed.

Lemma mint_version_inj p1 i1 p2 i2 :
  0 <= p1 < 2 ^ 64 -> 0 <= p2 < 2 ^ 64 -> 0 <= i1 < 2 ^ 32 -> 0 <= i2 < 2 ^ 32 ->
  mint_version p1 i1 = mint_version p2 i2 -> p1 = p2 /\ i1 = i2.
Proof.
  intros Hp1 Hp2 Hi1 Hi2 He. unfold mint_version in He.
  apply app_inj_1 in He as [E1 He]; [|by rewrite !length_be_bytes].
  apply app_inj_1 in He as [E2 _]; [|by rewrite !length_be_bytes].
  apply (f_equal be_val) in E1, E2. rewrite !be_val_bytes_small in E1, E2 by (simpl; lia). done.
Qed.

(** A version written by the plan at [position]: its ordinal is its index. *)
Definition minted_by (lo hi : Z) (c : OracleCell) : Prop :=
  exists position i, lo <= position < hi /\ 0 <= i < 2 ^ 32
    /\ c_version c = mint_version position i.

Lemma effect_at_Some position l s c : forall i, effect_at position i l s = Some (Some c) ->
  exists k m, l !! k = Some m /\ mutation_slot m = s
    /\ c_version c = mint_version position (as_u32 (Z.of_nat (i + k))).
Proof.
  induction l as [|m l IH]; intros i; simpl; [done|]. case_bool_decide as Hs.
  - intros [= Hc]. exists 0%nat, m. rewrite Nat.add_0_r. split_and!; [done..|].
    unfold new_cell in Hc. destruct (m_kind m); by inversion Hc.
  - intros Hc. destruct (IH (S i) Hc) as (k & m' & Hk & Hm & Hv). exists (S k), m'.
    by rewrite Nat.add_succ_r.
Qed.

(** A cell after a step was there, or was written by this step. *)
Lemma step_cell o x s c : op_closed x -> cells (step o x) !! s = Some c ->
  (cells o !! s = Some c)
  \/ (next_position (step o x) = next_position o + 1
      /\ exists plan k m, x = Submit plan /\ mutations (parts plan) !! k = Some m
         /\ mutation_slot m = s /\ Z.of_nat k < 256
         /\ c_version c = mint_version (next_position o) (Z.of_nat k)).
Proof.
  intros Hx Hc. destruct (step_cases o x Hx) as [(E1 & _)|[(p & root & rs & _ & _ & _ & _ & E1 & _)
    |(p & root & r & -> & _ & Hv & _ & _ & Hu & E3 & _)]]; [left; congruence..|].
  rewrite Hu in Hc. destruct (effect_at _ _ _ s) as [e|] eqn:He; [|by left]. subst e. right.
  split; [done|]. destruct (effect_at_Some _ _ _ _ _ He) as (k & m & Hk & Hm & Hver).
  exists p, k, m. pose proof (accepted_small p _ Hv). apply lookup_lt_Some in Hk as Hlt.
  split_and!; try done; [lia|]. rewrite Hver. f_equal. unfold as_u32. rewrite Z.mod_small; lia.
Qed.

Lemma step_position o x : op_closed x -> next_position o <= next_position (step o x).
Proof.
  intros Hx. destruct (step_cases o x Hx) as [(_ & _ & -> & _)|[(p & root & rs & _ & _ & _ & _ & _ & -> & _)
    |(p & root & r & _ & _ & _ & _ & _ & _ & -> & _)]]; lia.
Qed.
Lemma run_position ops : forall o, Forall op_closed ops -> next_position o <= next_position (run o ops).
Proof.
  induction ops as [|x ops IH]; intros o Hc; [done|]. change (run o (x :: ops)) with (run (step o x) ops).
  apply Forall_cons in Hc as [Hx Hc]. pose proof (step_position o x Hx). specialize (IH (step o x) Hc). lia.
Qed.

Lemma run_cell ops : forall o s c, Forall op_closed ops -> cells (run o ops) !! s = Some c ->
  cells o !! s = Some c \/ minted_by (next_position o) (next_position (run o ops)) c.
Proof.
  induction ops as [|x ops IH]; intros o s c Hcl Hc; [by left|].
  apply Forall_cons in Hcl as [Hx Hcl]. change (run o (x :: ops)) with (run (step o x) ops) in *.
  pose proof (step_position o x Hx). pose proof (run_position ops (step o x) Hcl).
  destruct (IH _ _ _ Hcl Hc) as [Hs|(p & i & Hp & Hi & Hv)].
  - destruct (step_cell o x s c Hx Hs) as [?|(E & plan & k & m & _ & _ & _ & Hk & Hv)]; [by left|].
    right. exists (next_position o), (Z.of_nat k). split_and!; [lia..|done].
  - right. exists p, i. split_and!; [lia..|done].
Qed.

Definition versions_ok (o : SerialOracle) : Prop :=
  0 <= next_position o
  /\ (forall s c, cells o !! s = Some c -> minted_by 0 (next_position o) c)
  /\ (forall s s' c c', cells o !! s = Some c -> cells o !! s' = Some c' ->
        c_version c = c_version c' -> s = s').

Lemma minted_apart lo hi c position i :
  minted_by lo hi c -> 0 <= lo -> hi <= position -> position < 2 ^ 64 -> 0 <= i < 2 ^ 32 ->
  c_version c <> mint_version position i.
Proof.
  intros (p & j & Hp & Hj & Hv) Hlo Hhi Hpos Hi He. rewrite Hv in He.
  apply mint_version_inj in He as [? _]; lia.
Qed.

Lemma step_versions o x : op_closed x -> next_position (step o x) <= 2 ^ 64 ->
  versions_ok o -> versions_ok (step o x).
Proof.
  intros Hx Hb (V1 & V2 & V3). pose proof (step_position o x Hx) as Hle. split; [lia|]. split.
  - intros s c Hc. destruct (step_cell o x s c Hx Hc) as [Ho|(E & plan & k & m & _ & _ & _ & Hk & Hv)].
    + destruct (V2 s c Ho) as (p & i & Hp & Hi & Hv). exists p, i. split_and!; [lia..|done].
    + exists (next_position o), (Z.of_nat k). split_and!; [lia..|done].
  - intros s s' c c' Hc Hc' Heq.
    destruct (step_cell o x s c Hx Hc) as [Ho|(E & plan & k & m & -> & Hm & <- & Hk & Hv)];
      destruct (step_cell o _ s' c' Hx Hc') as [Ho'|(E' & plan' & k' & m' & Hpl & Hm' & <- & Hk' & Hv')].
    + by eapply V3.
    + exfalso. apply (minted_apart _ _ _ (next_position o) (Z.of_nat k') (V2 _ _ Ho)); lia || congruence.
    + exfalso. apply (minted_apart _ _ _ (next_position o) (Z.of_nat k) (V2 _ _ Ho')); lia || congruence.
    + injection Hpl as <-. rewrite Hv, Hv' in Heq.
      apply mint_version_inj in Heq as [_ Heq]; [|lia..].
      assert (k = k') as <- by lia. by rewrite Hm in Hm'; injection Hm' as <-.
Qed.

Lemma run_versions ops : forall o, Forall op_closed ops -> next_position (run o ops) <= 2 ^ 64 ->
  versions_ok o -> versions_ok (run o ops).
Proof.
  induction ops as [|x ops IH]; intros o Hcl Hb Hv; [done|].
  apply Forall_cons in Hcl as [Hx Hcl]. change (run o (x :: ops)) with (run (step o x) ops) in *.
  pose proof (run_position ops (step o x) Hcl). apply IH; [done..|]. apply step_versions; [done|lia|done].
Qed.

(** A version is never reused.  A cell that carries, at some later time and
    at any slot, the version a cell carried before is that very cell, at the same
    slot with the same value: a plan that asserts or observed a version finds the
    value it saw.  The position counter must not have run through 2^64 commits. *)
Theorem oracle_versions_unique heap ops1 ops2 s s' c c' :
  Forall op_closed ops1 -> Forall op_closed ops2 ->
  let o1 := run (oracle_new heap) ops1 in
  let o2 := run o1 ops2 in
  next_position o2 <= 2 ^ 64 ->
  cells o1 !! s = Some c -> cells o2 !! s' = Some c' -> c_version c = c_version c' ->
  s = s' /\ c = c'.
Proof.
  intros Hc1 Hc2. cbv zeta. intros Hb Hs Hs' Heq.
  pose proof (run_position ops2 (run (oracle_new heap) ops1) Hc2) as Hle.
  assert (Hv : versions_ok (run (oracle_new heap) ops1)).
  { apply run_versions; [done|lia|]. split; [done|]. by split. }
  destruct Hv as (V1 & V2 & V3).
  destruct (run_cell ops2 _ s' c' Hc2 Hs') as [Ho|(p & i & Hp & Hi & Hv')].
  - assert (s = s') as <- by by eapply V3. split; [done|congruence].
  - exfalso. rewrite Hv' in Heq. eapply (minted_apart _ _ _ p i (V2 _ _ Hs)); [lia..|done].
Qed.
End Oracle.

(** ** Concrete runs *)

Definition sample_heap : list byte := sample_id 16 5.
Definition sample_atomic (id : Z) (ms : list PlanMutation) : AtomicPlan := from_closed {|
  profile := LocalHeapV1; atomic_id := sample_id 32 id; heap_id := sample_heap;
  scope := ScopeLocalHeap; read_frontier := None; reads := []; predicates := [];
  mutations := ms; active_rule_revisions := []; limits := builder_defaults_local_heap |}.
Definition sample_create (k v : string) : PlanMutation := {|
  m_kind := MCreate; m_collection_id := sample_id 16 1; m_key := KeyString (lit k);
  encoded_value := Some (lit v); if_version := None |}.
Definition sample_replace (k v : string) (position ordinal : Z) : PlanMutation := {|
  m_kind := MReplace; m_collection_id := sample_id 16 1; m_key := KeyString (lit k);
  encoded_value := Some (lit v); if_version := Some (mint_version position ordinal) |}.
Definition sample_first : AtomicPlan := sample_atomic 1 [sample_create "a" "x"; sample_create "b" "y"].
Definition sample_second : AtomicPlan := sample_atomic 2 [sample_replace "a" "z" 1 0].
Definition sample_stale : AtomicPlan := sample_atomic 3 [sample_replace "a" "w" 1 0].
Definition sample_other : AtomicPlan := sample_atomic 1 [sample_create "long key" "x"].

#[local] Existing Instance sample_blake3.
#[local] Existing Instance sample_bigint.

Definition sample_ops : list op := [Submit sample_first; Submit sample_second].
Definition sample_slot (k : string) : slot := (sample_id 16 1, key_order_bytes (KeyString (lit k))).
Definition sample_oracle : SerialOracle := run (oracle_new sample_heap) sample_ops.

Lemma sample_closed plan : close_plan (parts plan) = Ok plan -> closed plan.
Proof. by exists (parts plan). Qed.
Lemma sample_ops_closed : Forall op_closed sample_ops.
Proof.
  apply Forall_cons_2; [|apply Forall_singleton]; apply sample_closed; vm_compute; reflexivity.
Qed.

Lemma oracle_apply_atomic_witness :
  exists r, snd (apply (oracle_new sample_heap) sample_first) = Ok (Committed r)
    /\ cells (fst (apply (oracle_new sample_heap) sample_first)) !! sample_slot "b"
       = Some {| c_version := mint_version 1 1; c_value := lit "y" |}.
Proof.
  destruct (oracle_apply_atomic (oracle_new sample_heap) sample_first
    (sample_closed sample_first ltac:(vm_compute; reflexivity))) as [_ Hx].
  destruct Hx as (root & _ & _ & _ & Hyes & _).
  { apply validated_plan. vm_compute. reflexivity. }
  destruct Hyes as (r & Hr & _ & Hu & _).
  { apply validate_all_None. vm_compute. reflexivity. }
  exists r. split; [exact Hr|]. rewrite (Hu (sample_slot "b")). vm_compute. reflexivity.
Defined.

Lemma oracle_decisions_final_witness :
  snd (apply sample_oracle sample_second)
    = Ok (replay_outcome (match snd (apply (step (oracle_new sample_heap) (Submit sample_first))
            sample_second) with Ok out => out | Err _ => Unknown [] [] end))
  /\ snd (apply (run (fst (apply (oracle_new sample_heap) sample_first)) [Submit sample_second])
       sample_other) = Err (Refused AtomicIdConflict).
Proof.
  split.
  - destruct (snd (apply (step (oracle_new sample_heap) (Submit sample_first)) sample_second))
      as [out|e] eqn:Ho; [|vm_compute in Ho; discriminate Ho].
    destruct (oracle_decisions_final (step (oracle_new sample_heap) (Submit sample_first))
      sample_second out [] sample_other [] Ho) as [Hr _]. exact Hr.
  - destruct (snd (apply (oracle_new sample_heap) sample_first)) as [out|e] eqn:Ho;
      [|vm_compute in Ho; discriminate Ho].
    destruct (plan_content_root sample_other) as [root'|e] eqn:Hr;
      [|vm_compute in Hr; discriminate Hr].
    destruct (oracle_decisions_final (oracle_new sample_heap) sample_first out
      [Submit sample_second] sample_other root' Ho) as (_ & _ & _ & Hc).
    apply Hc; [vm_compute; reflexivity|reflexivity|exact Hr|].
    rewrite <- Hr. vm_compute. discriminate.
Defined.

(** A collection is retired after a plan that relies on its being active: the first
    commits, and a later one that relies on the same is not committed. *)
Definition lifecycle_plan (id : Z) (k : string) : AtomicPlan := from_closed {|
  profile := LocalHeapV1; atomic_id := sample_id 32 id; heap_id := sample_heap;
  scope := ScopeLocalHeap; read_frontier := None; reads := [];
  predicates := [{| p_kind := CollectionLifecycleStateK; p_collection_id := Some (sample_id 16 1);
                    p_key := None; p_version := None;
                    p_encoded := match encode_collection_lifecycle_payload LActive with
                                 | Ok bs => Some bs | Err _ => None end |}];
  mutations := [sample_create k "v"]; active_rule_revisions := [];
  limits := builder_defaults_local_heap |}.
Definition lifecycle_ops : list op :=
  [Submit (lifecycle_plan 1 "a"); SetLifecycle (sample_id 16 1) LRetired; Submit (lifecycle_plan 2 "b")].
Lemma lifecycle_ops_closed : Forall op_closed lifecycle_ops.
Proof.
  apply Forall_cons_2; [|apply Forall_cons_2; [done|apply Forall_singleton]];
    apply sample_closed; vm_compute; reflexivity.
Qed.
Lemma oracle_serializable_witness :
  let o := run (oracle_new sample_heap) lifecycle_ops in
  commit_log (oracle_new sample_heap) lifecycle_ops = [lifecycle_plan 1 "a"]
  /\ Serial sample_heap 1 ∅ ∅ ∅ lifecycle_ops [lifecycle_plan 1 "a"] (collection_lifecycles o) (cells o)
  /\ next_position o = 2.
Proof.
  destruct (oracle_serializable sample_heap lifecycle_ops lifecycle_ops_closed) as (Hs & Hn & _).
  assert (Hlog : commit_log (oracle_new sample_heap) lifecycle_ops = [lifecycle_plan 1 "a"])
    by (vm_compute; reflexivity).
  cbv zeta. rewrite Hlog in Hs, Hn. split; [exact Hlog|]. split; [exact Hs|exact Hn].
Defined.

Lemma oracle_versions_unique_witness :
  let c := {| c_version := mint_version 1 1; c_value := lit "y" |} in
  cells (run (oracle_new sample_heap) [Submit sample_first]) !! sample_slot "b" = Some c
  /\ forall s' c', cells sample_oracle !! s' = Some c' -> c_version c' = mint_version 1 1 ->
       s' = sample_slot "b" /\ c' = c.
Proof.
  assert (Hb : cells (run (oracle_new sample_heap) [Submit sample_first]) !! sample_slot "b"
    = Some {| c_version := mint_version 1 1; c_value := lit "y" |}) by (vm_compute; reflexivity).
  split; [exact Hb|]. intros s' c' Hc' Hv.
  pose proof sample_ops_closed as [H1 H2]%Forall_cons.
  destruct (oracle_versions_unique sample_heap [Submit sample_first] [Submit sample_second]
    (sample_slot "b") s' {| c_version := mint_version 1 1; c_value := lit "y" |} c' (Forall_cons_2 _ _ _ H1 (Forall_nil_2 _)) H2) as [Hs Hc].
  - vm_compute. discriminate.
  - exact Hb.
  - exact Hc'.
  - symmetry. exact Hv.
  - split; [symmetry; exact Hs|symmetry; exact Hc].
Defined.

(** A plan that read a version that is gone is not committed and changes nothing. *)
Example sample_stale_aborts :
  snd (apply sample_oracle sample_stale) = Ok (NotCommitted (sample_id 32 3) PreconditionConflict)
  /\ cells (fst (apply sample_oracle sample_stale)) !! sample_slot "a"
     = Some {| c_version := mint_version 2 0; c_value := lit "z" |}.
Proof. split; vm_compute; reflexivity. Qed.
