(* ===== verification/HydraSorted.v ===== *)
(** * Hydra: selection and the indexes over a sorted key array

    Model of [crates/residiuum-store/src/hydra]: the choice of a physical index
    for a sealed segment ([select.rs]), the Eytzinger layout ([eytzinger.rs]) and
    the learned indexes PGM and RadixSpline ([pgm.rs]).

    An index is compiled from the entries of a segment, sorted by key without
    duplicates.  Positions are [nat]; a position that the code stores as [u32]
    is a [Z] cut to 32 bits.  [keys[i]] is read with a default where the code
    would panic.  [f64] arithmetic is the [SpecFloat] semantics of binary64. *)
From S2P Require Import Prelude.
From Stdlib Require Import SpecFloat.
Open Scope list_scope.
Open Scope Z_scope.

(** A key with the offset of its frame. *)
Abbreviation Entry := (list byte * Z)%type.

Definition at_nat {A} (d : A) (l : list A) (i : nat) : A := nth i l d.
Definition idx32 (i : nat) : Z := as_u32 (Z.of_nat i).

(** ** Selection ([select.rs]) *)

Inductive IndexKind : Type := KEytzinger | KPgm | KRadixSpline | KCompressedRadix | KMphf.
#[global] Instance index_kind_eq_dec : EqDecision IndexKind.
Proof. solve_decision. Defined.
Definition index_kind_as_u8 (k : IndexKind) : Z :=
  match k with
  | KEytzinger => 1 | KPgm => 2 | KRadixSpline => 3 | KCompressedRadix => 4 | KMphf => 5
  end.
Definition index_kind_from_u8 (v : Z) : option IndexKind :=
  if v =? 1 then Some KEytzinger
  else if v =? 2 then Some KPgm
  else if v =? 3 then Some KRadixSpline
  else if v =? 4 then Some KCompressedRadix
  else if v =? 5 then Some KMphf
  else None.

Inductive KeyShape : Type :=
| ShapeEmpty | ShapeTiny | OrderedNumericDense | OrderedNumericSparse | OrderedBytes.

Record HydraBuildOptions := {
  point_only : bool;
  tiny_threshold : nat;
  pgm_epsilon : Z;
  spline_radix_bits : Z;
  force_kind : option IndexKind }.

Definition DEFAULT_TINY_THRESHOLD : nat := 64.
Definition default_options : HydraBuildOptions := {|
  point_only := false; tiny_threshold := DEFAULT_TINY_THRESHOLD; pgm_epsilon := 32;
  spline_radix_bits := 8; force_kind := None |}.

(** The first eight bytes of other widths, padded with zeros. *)
Definition be_u64 (key : list byte) : Z :=
  if (length key =? 8)%nat then be_val key
  else if (length key =? 4)%nat then be_val key
  else
    let n := Nat.min (length key) 8 in
    be_val (take n key ++ replicate (8 - n) (z2b 0)).

Definition is_fixed_width_numeric (sorted : list Entry) : bool :=
  match sorted with
  | [] => false
  | (k0, _) :: _ =>
      let w := length k0 in
      ((w =? 4)%nat || (w =? 8)%nat) && forallb (fun e => (length (fst e) =? w)%nat) sorted
  end.

Definition is_dense_numeric (sorted : list Entry) : bool :=
  let n := Z.of_nat (length sorted) in
  if n <? 2 then true
  else
    let first := be_u64 (fst (at_nat ([], 0) sorted 0)) in
    let last := be_u64 (fst (at_nat ([], 0) sorted (length sorted - 1))) in
    let span := sat_add (sat_sub last first) 1 in
    span <=? Z.min (n * 2) U64_MAX.

Definition classify_keys (sorted : list Entry) (threshold : nat) : KeyShape :=
  match sorted with
  | [] => ShapeEmpty
  | _ =>
      if (length sorted <=? threshold)%nat then ShapeTiny
      else if is_fixed_width_numeric sorted then
        if is_dense_numeric sorted then OrderedNumericDense else OrderedNumericSparse
      else OrderedBytes
  end.

Definition select_index_kind (sorted : list Entry) (opts : HydraBuildOptions) : IndexKind :=
  match force_kind opts with
  | Some k => k
  | None =>
      if point_only opts then KMphf
      else match classify_keys sorted (tiny_threshold opts) with
      | ShapeEmpty | ShapeTiny => KEytzinger
      | OrderedNumericDense => KRadixSpline
      | OrderedNumericSparse => KPgm
      | OrderedBytes => KCompressedRadix
      end
  end.

(** ** The searches the indexes share *)

(** [while lo < hi { mid; if test(mid) { lo = mid + 1 } else { hi = mid } }]. *)
Fixpoint partition_loop (fuel : nat) (test : nat -> bool) (lo hi : nat) : nat :=
  match fuel with
  | O => lo
  | S f =>
      if (lo <? hi)%nat then
        let mid := (lo + (hi - lo) / 2)%nat in
        if test mid then partition_loop f test (S mid) hi else partition_loop f test lo mid
      else lo
  end.

(** The first position with a key above [after]. *)
Definition scan_start (key_at : nat -> list byte) (n : nat) (after : option (list byte)) : nat :=
  match after with
  | None => O
  | Some a => partition_loop (S n) (fun mid => bytes_leb (key_at mid) a) 0 n
  end.

(** The binary search that stops at an equal key. *)
Fixpoint bsearch (fuel : nat) (keys : list (list byte)) (key : list byte) (a b : nat)
  : option nat :=
  match fuel with
  | O => None
  | S f =>
      if (a <? b)%nat then
        let mid := (a + (b - a) / 2)%nat in
        match bytes_cmp (at_nat [] keys mid) key with
        | Eq => Some mid
        | Lt => bsearch f keys key (S mid) b
        | Gt => bsearch f keys key a mid
        end
      else None
  end.

Definition scan_sorted (keys : list (list byte)) (offsets : list Z)
    (after : option (list byte)) (limit : nat) : list Entry :=
  if (limit =? 0)%nat || match keys with [] => true | _ => false end then []
  else
    let start := scan_start (at_nat [] keys) (length keys) after in
    take limit (combine (drop start keys) (drop start offsets)).

(** ** Eytzinger layout ([eytzinger.rs]) *)

Module Eytzinger.

Record t := { keys : list (list byte); offsets : list Z; sorted_to_eyt : list Z }.

(** The arrays under construction and the next sorted entry to place. *)
Record Work := {
  w_keys : list (list byte); w_offsets : list Z; w_sorted_to_eyt : list Z; next : nat }.

(** The in-order visit of the heap indices below [n]; [sorted[*next]] panics past
    the end, which is [None]. *)
Fixpoint inorder (fuel : nat) (sorted : list Entry) (n eyt : nat) (w : Work) : option Work :=
  match fuel with
  | O => None
  | S f =>
      if (n <=? eyt)%nat then Some w
      else
        match inorder f sorted n (2 * eyt + 1) w with
        | None => None
        | Some w1 =>
            match sorted !! next w1 with
            | None => None
            | Some (k, o) =>
                inorder f sorted n (2 * eyt + 2)
                  {| w_keys := <[eyt := k]> (w_keys w1); w_offsets := <[eyt := o]> (w_offsets w1);
                     w_sorted_to_eyt := <[next w1 := idx32 eyt]> (w_sorted_to_eyt w1);
                     next := S (next w1) |}
            end
        end
  end.

Definition build (sorted : list Entry) : option t :=
  let n := length sorted in
  match inorder (S n) sorted n 0
    {| w_keys := replicate n []; w_offsets := replicate n 0; w_sorted_to_eyt := replicate n 0;
       next := O |} with
  | None => None
  | Some w => Some {| keys := w_keys w; offsets := w_offsets w; sorted_to_eyt := w_sorted_to_eyt w |}
  end.

Definition len (i : t) : nat := length (keys i).

Fixpoint probe (fuel : nat) (x : t) (key : list byte) (i : nat) : option Z :=
  match fuel with
  | O => None
  | S f =>
      match keys x !! i with
      | None => None
      | Some k =>
          match bytes_cmp key k with
          | Eq => Some (at_nat 0 (offsets x) i)
          | Lt => probe f x key (2 * i + 1)
          | Gt => probe f x key (2 * i + 2)
          end
      end
  end.
Definition get (x : t) (key : list byte) : option Z := probe (S (len x)) x key 0.

(** The entry of sorted rank [s]. *)
Definition slot_of (x : t) (s : nat) : nat := Z.to_nat (at_nat 0 (sorted_to_eyt x) s).
Definition ranked (x : t) (s : nat) : Entry :=
  (at_nat [] (keys x) (slot_of x s), at_nat 0 (offsets x) (slot_of x s)).

Definition scan_after (x : t) (after : option (list byte)) (limit : nat) : list Entry :=
  if (limit =? 0)%nat || match keys x with [] => true | _ => false end then []
  else
    let n := length (keys x) in
    let start := scan_start (fun mid => fst (ranked x mid)) n after in
    take limit (map (ranked x) (seq start (n - start))).
End Eytzinger.

(** ** PGM ([pgm.rs]) *)

(** [z as i64] and [z as u64]. *)
Definition as_u64 (z : Z) : Z := z mod 2 ^ 64.
Definition as_i64 (z : Z) : Z := (z + 2 ^ 63) mod 2 ^ 64 - 2 ^ 63.
Definition clamp (z lo hi : Z) : Z := if z <? lo then lo else if hi <? z then hi else z.

Module Pgm.

Record ModelSeg := {
  key_lo : Z; slope_q32 : Z; intercept_q32 : Z; pos_lo : Z; pos_hi : Z }.
Record t := {
  keys : list (list byte); offsets : list Z; segments : list ModelSeg; epsilon : Z }.

Definition max_fit_error (ranks : list Z) (lo hi : nat) : Z :=
  if (hi - lo <=? 2)%nat then 0
  else
    let x0 := at_nat 0 ranks lo in
    let x1 := at_nat 0 ranks (hi - 1) in
    let y0 := Z.of_nat lo in
    let y1 := Z.of_nat (hi - 1) in
    let err i :=
      if x1 =? x0 then as_u64 (Z.abs (Z.of_nat i - y0))
      else
        let pred := y0 + Z.quot ((y1 - y0) * (at_nat 0 ranks i - x0)) (x1 - x0) in
        as_u64 (Z.abs (Z.of_nat i - pred)) in
    fold_left Z.max (map err (seq lo (hi - lo))) 0.

Definition make_seg (ranks : list Z) (lo hi : nat) : ModelSeg :=
  let k0 := at_nat 0 ranks lo in
  let k1 := at_nat 0 ranks (hi - 1) in
  let '(slope, intercept) :=
    if (k1 =? k0) || (hi - lo =? 1)%nat then (0, as_i64 (Z.shiftl (Z.of_nat lo) 32))
    else (as_i64 (Z.quot (Z.shiftl (Z.of_nat (hi - 1 - lo)) 32) (k1 - k0)),
          as_i64 (Z.shiftl (Z.of_nat lo) 32)) in
  {| key_lo := k0; slope_q32 := slope; intercept_q32 := intercept; pos_lo := idx32 lo;
     pos_hi := idx32 hi |}.

(** The inner loop grows a segment while the fit stays within [epsilon]. *)
Fixpoint grow (fuel : nat) (ranks : list Z) (eps : Z) (start stop : nat) : nat :=
  match fuel with
  | O => stop
  | S f =>
      if (stop <? length ranks)%nat && (max_fit_error ranks start (S stop) <=? eps)
      then grow f ranks eps start (S stop) else stop
  end.
Fixpoint segment_loop (fuel : nat) (ranks : list Z) (eps : Z) (start : nat) : list ModelSeg :=
  match fuel with
  | O => []
  | S f =>
      if (start <? length ranks)%nat then
        let stop := grow (length ranks) ranks eps start (S start) in
        make_seg ranks start stop :: segment_loop f ranks eps stop
      else []
  end.
Definition build_pgm_segments (ranks : list Z) (eps : Z) : list ModelSeg :=
  segment_loop (S (length ranks)) ranks eps 0.

Definition build (sorted : list Entry) (eps : Z) : t :=
  let ks := map fst sorted in
  let eps := Z.max eps 1 in
  {| keys := ks; offsets := map snd sorted;
     segments := build_pgm_segments (map be_u64 ks) eps; epsilon := eps |}.

Definition len (x : t) : nat := length (keys x).

(** [while lo + 1 < hi]: the last segment whose first key is not above [rank]. *)
Fixpoint seg_search (fuel : nat) (segs : list ModelSeg) (rank : Z) (lo hi : nat) : nat :=
  match fuel with
  | O => lo
  | S f =>
      if (S lo <? hi)%nat then
        let mid := (lo + (hi - lo) / 2)%nat in
        match segs !! mid with
        | Some s => if key_lo s <=? rank then seg_search f segs rank mid hi
                    else seg_search f segs rank lo mid
        | None => lo
        end
      else lo
  end.

Definition predict (x : t) (rank : Z) : Z :=
  match segments x !! seg_search (S (length (segments x))) (segments x) rank 0
                        (length (segments x)) with
  | None => 0
  | Some seg =>
      let n := Z.of_nat (length (keys x)) in
      let dx := sat_sub rank (key_lo seg) in
      let pred_q := intercept_q32 seg + slope_q32 seg * dx in
      let pred := clamp (Z.shiftr pred_q 32) 0 (sat_sub n 1) in
      let p_lo := pos_lo seg in
      let p_hi := Z.min (pos_hi seg) n in
      clamp pred p_lo (Z.max (sat_sub p_hi 1) p_lo)
  end.

(** [for i in lo..hi { if keys[i] == key { return } }]. *)
Fixpoint linear (keys : list (list byte)) (key : list byte) (idxs : list nat) : option nat :=
  match idxs with
  | [] => None
  | i :: rest => if bytes_eqb (at_nat [] keys i) key then Some i else linear keys key rest
  end.
Definition range (lo hi : nat) : list nat := seq lo (hi - lo).

Definition offset_at (x : t) (i : nat) : Z := at_nat 0 (offsets x) i.

Definition get (x : t) (key : list byte) : option Z :=
  let n := length (keys x) in
  if (n =? 0)%nat then None
  else
    let pred := predict x (be_u64 key) in
    let eps := epsilon x in
    let lo := Z.to_nat (sat_sub pred eps) in
    let hi := Nat.min (Z.to_nat (pred + eps + 1)) n in
    if (hi - lo <=? 8)%nat then
      match linear (keys x) key (range lo hi) with
      | Some i => Some (offset_at x i)
      | None =>
          let lo2 := (lo - Z.to_nat eps)%nat in
          let hi2 := Nat.min (hi + Z.to_nat eps) n in
          offset_at x <$> linear (keys x) key (range lo2 hi2)
      end
    else
      match bsearch (S n) (keys x) key lo hi with
      | Some i => Some (offset_at x i)
      | None => offset_at x <$> bsearch (S n) (keys x) key 0 n
      end.

Definition scan_after (x : t) (after : option (list byte)) (limit : nat) : list Entry :=
  scan_sorted (keys x) (offsets x) after limit.
End Pgm.

(** ** RadixSpline ([pgm.rs]) *)

(** [f64]: conversions, and the roundings the code applies. *)
Definition f64_of (z : Z) : spec_float := binary_normalize 53 1024 z 0 false.
Definition f64_add := SFadd 53 1024.
Definition f64_mul := SFmul 53 1024.
Definition f64_div := SFdiv 53 1024.
Definition f64_sqrt := SFsqrt 53 1024.

Definition I64_MAXZ : Z := 2 ^ 63 - 1.
(** A finite value as a quotient, rounded by [f] on its magnitude; casts saturate. *)
Definition f64_to (f : Z -> Z -> Z) (lo hi : Z) (x : spec_float) : Z :=
  match x with
  | S754_finite s m e =>
      let mag := f (if 0 <=? e then Z.pos m * 2 ^ e else Z.pos m) (if 0 <=? e then 1 else 2 ^ (- e)) in
      clamp (if s then - mag else mag) lo hi
  | S754_infinity s => if s then lo else hi
  | S754_zero _ | S754_nan => 0
  end.
(** [x as usize] and [x.round() as isize]. *)
Definition f64_as_usize : spec_float -> Z := f64_to Z.div 0 U64_MAX.
Definition f64_round_isize : spec_float -> Z :=
  f64_to (fun a b => (2 * a + b) / (2 * b)) (- 2 ^ 63) I64_MAXZ.

Module Spline.

Record t := {
  keys : list (list byte);
  offsets : list Z;
  knot_pos : list Z;
  knot_rank : list Z;
  radix_table : list Z;
  radix_bits : Z;
  min_rank : Z;
  max_rank : Z }.

Definition radix_bucket (rank min_rank span radix_bits : Z) : Z :=
  let table_size := Z.shiftl 1 radix_bits in
  let rel := sat_sub rank min_rank in
  Z.min (as_u64 (rel * table_size / (span + 1))) (table_size - 1).

(** The positions of the knots. *)
Fixpoint knot_loop (fuel n step p : nat) : list nat :=
  match fuel with
  | O => []
  | S f =>
      if (p <? n)%nat then
        if (S p =? n)%nat then [p]
        else
          let q := Nat.min (p + step) (n - 1) in
          let q := if (q =? p)%nat && (S q <? n)%nat then S q else q in
          p :: knot_loop f n step q
      else []
  end.
Definition knots (n step : nat) : list nat :=
  let ps := knot_loop (S n) n step 0 in
  match last ps with
  | Some q => if (q =? n - 1)%nat then ps else ps ++ [(n - 1)%nat]
  | None => ps
  end.

(** [while k + 1 < knots && bucket(k) < b { k += 1 }]. *)
Fixpoint advance (fuel : nat) (bucket : nat -> Z) (nk : nat) (b : Z) (k : nat) : nat :=
  match fuel with
  | O => k
  | S f => if (S k <? nk)%nat && (bucket k <? b) then advance f bucket nk b (S k) else k
  end.
Fixpoint fill_table (bucket : nat -> Z) (nk : nat) (bs : list nat) (k : nat) : list Z :=
  match bs with
  | [] => []
  | b :: rest =>
      let k' := advance nk bucket nk (Z.of_nat b) k in
      idx32 k' :: fill_table bucket nk rest k'
  end.

Definition build (sorted : list Entry) (bits : Z) : t :=
  let ks := map fst sorted in
  let ranks := map be_u64 ks in
  let bits := clamp bits 4 16 in
  let n := length sorted in
  if (n =? 0)%nat then
    {| keys := ks; offsets := map snd sorted; knot_pos := []; knot_rank := []; radix_table := [];
       radix_bits := bits; min_rank := 0; max_rank := 0 |}
  else
    let lo := at_nat 0 ranks 0 in
    let hi := at_nat 0 ranks (n - 1) in
    let step := Z.to_nat (clamp (f64_as_usize (f64_sqrt (f64_of (Z.of_nat n)))) 16 256) in
    let ps := knots n step in
    let kr := map (at_nat 0 ranks) ps in
    let span := Z.max (sat_sub hi lo) 1 in
    {| keys := ks; offsets := map snd sorted; knot_pos := map idx32 ps; knot_rank := kr;
       radix_table := fill_table (fun k => radix_bucket (at_nat 0 kr k) lo span bits) (length kr)
                        (seq 0 (Z.to_nat (Z.shiftl 1 bits))) 0;
       radix_bits := bits; min_rank := lo; max_rank := hi |}.

Definition len (x : t) : nat := length (keys x).

(** Walk the knots until the rank is bracketed. *)
Fixpoint walk_knots (fuel : nat) (ranks : list Z) (rank : Z) (ki : nat) : nat :=
  match fuel with
  | O => ki
  | S f =>
      if (S ki <? length ranks)%nat && (at_nat 0 ranks (S ki) <? rank)
      then walk_knots f ranks rank (S ki) else ki
  end.

(** [p0 + (rank - r0) / (r1 - r0) * (p1 - p0)] in [f64], rounded. *)
Definition interpolate (rank r0 r1 p0 p1 : Z) : Z :=
  let t := f64_div (f64_of (sat_sub rank r0)) (f64_of (r1 - r0)) in
  f64_round_isize (f64_add (f64_of p0) (f64_mul t (f64_of (p1 - p0)))).

Definition predict_range (x : t) (rank : Z) : nat * nat :=
  let n := length (keys x) in
  if (length (knot_pos x) <? 2)%nat then (O, n)
  else
    let span := Z.max (sat_sub (max_rank x) (min_rank x)) 1 in
    let bucket := radix_bucket rank (min_rank x) span (radix_bits x) in
    let slot := Z.to_nat (Z.min bucket (Z.of_nat (length (radix_table x)) - 1)) in
    let ki := walk_knots (length (knot_rank x)) (knot_rank x) rank
                (Z.to_nat (at_nat 0 (radix_table x) slot)) in
    if (length (knot_rank x) <=? S ki)%nat then
      let p := Z.to_nat (at_nat 0 (knot_pos x) ki) in
      ((p - 1)%nat, Nat.min (p + 2) n)
    else
      let r0 := at_nat 0 (knot_rank x) ki in
      let r1 := at_nat 0 (knot_rank x) (S ki) in
      let p0 := at_nat 0 (knot_pos x) ki in
      let p1 := at_nat 0 (knot_pos x) (S ki) in
      if r1 =? r0 then (Z.to_nat p0, Nat.min (Z.to_nat (p1 + 1)) n)
      else
        let pred := interpolate rank r0 r1 p0 p1 in
        let pad := Z.max ((p1 - p0) / 4) 2 in
        let lo := Z.to_nat (Z.max (as_i64 (pred - pad)) 0) in
        let hi := Z.to_nat (Z.min (as_u64 (pred + pad + 1)) (Z.of_nat n)) in
        (lo, hi).

Definition get (x : t) (key : list byte) : option Z :=
  let n := length (keys x) in
  if (n =? 0)%nat then None
  else
    let '(lo, hi) := predict_range x (be_u64 key) in
    match bsearch (S n) (keys x) key lo (Nat.min hi n) with
    | Some i => Some (at_nat 0 (offsets x) i)
    | None => at_nat 0 (offsets x) <$> bsearch (S n) (keys x) key 0 n
    end.

Definition scan_after (x : t) (after : option (list byte)) (limit : nat) : list Entry :=
  scan_sorted (keys x) (offsets x) after limit.
End Spline.
