(* ===== verification/HydraSortedFacts.v ===== *)
(** * Facts about the indexes over a sorted key array

    Each index answers point lookups and ordered scans as the sorted entries it
    was compiled from: [find_key] and [entries_after] are the reference. *)
From S2P Require Import Prelude HydraSorted.
Open Scope list_scope.
Open Scope Z_scope.

(** ** The reference *)

Definition find_key (sorted : list Entry) (key : list byte) : option Z :=
  match List.find (fun e => bytes_eqb (fst e) key) sorted with
  | Some (_, o) => Some o
  | None => None
  end.
Definition is_after (after : option (list byte)) (e : Entry) : bool :=
  match after with None => true | Some a => negb (bytes_leb (fst e) a) end.
Definition entries_after (sorted : list Entry) (after : option (list byte)) (limit : nat)
  : list Entry := take limit (List.filter (is_after after) sorted).

(** Sorted by key, without duplicates. *)
Definition ascending (sorted : list Entry) : Prop := StronglySorted bytes_lt (map fst sorted).

(** What every ordered index promises. *)
Class OrderedIndex {I : Type} (get : I -> list byte -> option Z)
    (scan_after : I -> option (list byte) -> nat -> list Entry) (x : I) (sorted : list Entry) : Prop := {
  index_get key : get x key = find_key sorted key;
  index_scan after limit : scan_after x after limit = entries_after sorted after limit }.

Lemma bytes_cmp_refl a : bytes_cmp a a = Eq.
Proof. by apply bytes_cmp_Eq. Qed.
Lemma bytes_lt_irrefl a : ~ bytes_lt a a.
Proof. unfold bytes_lt. by rewrite bytes_cmp_refl. Qed.

Lemma ascending_lookup sorted i j a b : ascending sorted -> (i < j)%nat ->
  map fst sorted !! i = Some a -> map fst sorted !! j = Some b -> bytes_lt a b.
Proof.
  unfold ascending. intros Hs Hij Ha Hb.
  rewrite <- (take_drop_middle _ _ _ Ha) in Hs. apply StronglySorted_app_1_r in Hs.
  apply StronglySorted_inv in Hs as [_ Hall]. rewrite Forall_forall in Hall. apply Hall.
  apply list_elem_of_lookup. exists (j - S i)%nat. rewrite lookup_drop.
  by replace (S i + (j - S i))%nat with j by lia.
Qed.

Lemma find_key_at sorted i key o : ascending sorted -> sorted !! i = Some (key, o) ->
  find_key sorted key = Some o.
Proof.
  unfold find_key, ascending. revert i. induction sorted as [|[k o'] l IH]; intros i Hs Hi; [done|].
  simpl in *. apply StronglySorted_inv in Hs as [Hs Hall]. unfold bytes_eqb at 1.
  destruct i as [|i]; simpl in Hi.
  - injection Hi as -> ->. by rewrite bool_decide_true.
  - rewrite bool_decide_false; [by apply (IH i)|]. intros ->.
    rewrite Forall_forall in Hall. apply (bytes_lt_irrefl key), Hall.
    apply list_elem_of_lookup. exists i. by rewrite list_lookup_fmap, Hi.
Qed.
Lemma find_key_absent sorted key : key ∉ map fst sorted -> find_key sorted key = None.
Proof.
  unfold find_key. induction sorted as [|[k o] l IH]; simpl; [done|]. intros Hn.
  apply not_elem_of_cons in Hn as [Hne Hn]. unfold bytes_eqb at 1.
  rewrite bool_decide_false by congruence. by apply IH.
Qed.

Lemma at_nat_lookup {A} (d : A) l i x : l !! i = Some x -> at_nat d l i = x.
Proof. unfold at_nat. revert i. induction l as [|y l IH]; intros [|i]; simpl; try done; [congruence|apply IH]. Qed.
Lemma at_nat_default {A} (d : A) l i : (length l <= i)%nat -> at_nat d l i = d.
Proof. apply nth_overflow. Qed.

(** ** The searches *)

Section Search.
Context (test : nat -> bool) (n : nat).
Context (Hmono : forall i j, (i <= j < n)%nat -> test j = true -> test i = true).

Lemma partition_loop_spec fuel : forall lo hi, (hi - lo < fuel)%nat -> (lo <= hi <= n)%nat ->
  (forall i, (i < lo)%nat -> test i = true) -> (forall i, (hi <= i < n)%nat -> test i = false) ->
  let p := partition_loop fuel test lo hi in
  (p <= n)%nat /\ (forall i, (i < p)%nat -> test i = true)
  /\ (forall i, (p <= i < n)%nat -> test i = false).
Proof.
  induction fuel as [|f IH]; intros lo hi Hf Hb Hlo Hhi; [lia|]. cbn [partition_loop].
  destruct (Nat.ltb_spec lo hi) as [Hlt|Hge].
  - set (mid := (lo + (hi - lo) / 2)%nat).
    assert (Hmid : (lo <= mid < hi)%nat).
    { unfold mid. pose proof (Nat.div_lt (hi - lo) 2). lia. }
    destruct (test mid) eqn:Ht.
    + apply IH; [lia|lia| |done]. intros i Hi. apply (Hmono i mid); [lia|done].
    + apply IH; [lia|lia|done|]. intros i Hi. destruct (test i) eqn:Hti; [|done].
      rewrite (Hmono mid i) in Ht; [done|lia|done].
  - replace hi with lo in * by lia. split_and!; [lia|done..].
Qed.
End Search.

Lemma filter_partition {A} (p : A -> bool) l k : (k <= length l)%nat ->
  (forall i x, (i < k)%nat -> l !! i = Some x -> p x = false) ->
  (forall i x, (k <= i)%nat -> l !! i = Some x -> p x = true) -> List.filter p l = drop k l.
Proof.
  revert k. induction l as [|x l IH]; intros k Hk Hlo Hhi; [by destruct k|]. simpl.
  destruct k as [|k].
  - rewrite (Hhi 0%nat x) by done. rewrite (IH O); [done|lia|intros; lia|].
    intros i y _ Hy. by apply (Hhi (S i)); [lia|].
  - rewrite (Hlo 0%nat x) by (done || lia). simpl in Hk. apply IH; [lia| |].
    + intros i y Hi Hy. by apply (Hlo (S i)); [lia|].
    + intros i y Hi Hy. by apply (Hhi (S i)); [lia|].
Qed.

Lemma leb_trans_lt a b c : bytes_lt a b -> bytes_leb b c = true -> bytes_leb a c = true.
Proof.
  unfold bytes_leb. intros Hab Hbc. destruct (bytes_cmp b c) eqn:E; try done.
  - apply bytes_cmp_Eq in E as ->. by rewrite Hab.
  - by rewrite (bytes_lt_trans a b c Hab E).
Qed.

(** The start of a scan is the first entry above [after]. *)
Lemma scan_start_spec sorted key_at after : ascending sorted ->
  (forall i e, sorted !! i = Some e -> key_at i = fst e) ->
  drop (scan_start key_at (length sorted) after) sorted = List.filter (is_after after) sorted
  /\ (scan_start key_at (length sorted) after <= length sorted)%nat.
Proof.
  intros Hs Hk. destruct after as [a|]; cbn [scan_start].
  - set (test := fun mid => bytes_leb (key_at mid) a).
    destruct (partition_loop_spec test (length sorted)) with
      (fuel := S (length sorted)) (lo := 0%nat) (hi := length sorted) as (Hp & Hlo & Hhi); [|lia|lia|lia|lia|].
    { intros i j Hij Ht. destruct (decide (i = j)) as [->|Hne]; [done|].
      destruct (lookup_lt_is_Some_2 sorted i) as [ei Hi]; [lia|].
      destruct (lookup_lt_is_Some_2 sorted j) as [ej Hj]; [lia|].
      unfold test in *. rewrite (Hk _ _ Hi). rewrite (Hk _ _ Hj) in Ht.
      eapply leb_trans_lt; [|exact Ht]. eapply (ascending_lookup sorted i j); [done|lia|..];
        rewrite list_lookup_fmap; by rewrite ?Hi, ?Hj. }
    split; [|done]. symmetry. apply filter_partition; [done|..]; intros i e Hi He; cbn [is_after];
      rewrite <- (Hk _ _ He); change (bytes_leb (key_at i) a) with (test i).
    + by rewrite Hlo.
    + apply lookup_lt_Some in He. by rewrite Hhi by lia.
  - split; [|lia]. rewrite drop_0. symmetry. clear Hs Hk. induction sorted as [|e l IH]; simpl; congruence.
Qed.

Lemma bsearch_spec sorted key fuel : ascending sorted ->
  forall a b, (b - a < fuel)%nat -> (b <= length sorted)%nat ->
  match bsearch fuel (map fst sorted) key a b with
  | Some i => map fst sorted !! i = Some key
  | None => forall i, (a <= i < b)%nat -> map fst sorted !! i <> Some key
  end.
Proof.
  intros Hs. induction fuel as [|f IH]; intros a b Hf Hb; [lia|]. cbn [bsearch].
  destruct (Nat.ltb_spec a b) as [Hlt|Hge]; [|intros; lia].
  set (mid := (a + (b - a) / 2)%nat).
  assert (Hmid : (a <= mid < b)%nat).
  { unfold mid. pose proof (Nat.div_lt (b - a) 2). lia. }
  destruct (lookup_lt_is_Some_2 (map fst sorted) mid) as [k Hk]; [rewrite length_map; lia|].
  rewrite (at_nat_lookup _ _ _ _ Hk). destruct (bytes_cmp k key) eqn:Hc.
  - apply bytes_cmp_Eq in Hc as ->. done.
  - specialize (IH (S mid) b ltac:(lia) Hb). destruct (bsearch _ _ _ _ _); [done|].
    intros i Hi Heq. destruct (decide (i <= mid)%nat); [|apply (IH i); [lia|done]].
    destruct (decide (i = mid)) as [->|].
    { rewrite Hk in Heq. injection Heq as ->. by rewrite bytes_cmp_refl in Hc. }
    pose proof (ascending_lookup sorted i mid key k Hs ltac:(lia) Heq Hk) as H1.
    apply (bytes_lt_irrefl key). by apply (bytes_lt_trans _ k).
  - specialize (IH a mid ltac:(lia) ltac:(lia)). destruct (bsearch _ _ _ _ _); [done|].
    intros i Hi Heq. destruct (decide (i < mid)%nat); [apply (IH i); [lia|done]|].
    destruct (decide (i = mid)) as [->|].
    { rewrite Hk in Heq. injection Heq as ->. by rewrite bytes_cmp_refl in Hc. }
    pose proof (ascending_lookup sorted mid i k key Hs ltac:(lia) Hk Heq) as H1.
    apply bytes_cmp_Gt in Hc. apply (bytes_lt_irrefl key). by apply (bytes_lt_trans _ k).
Qed.

Lemma found_at sorted i key : ascending sorted -> map fst sorted !! i = Some key ->
  find_key sorted key = Some (at_nat 0 (map snd sorted) i).
Proof.
  intros Hs Hi. rewrite list_lookup_fmap in Hi. destruct (sorted !! i) as [[k o]|] eqn:He; [|done].
  injection Hi as ->. rewrite (find_key_at sorted i key o Hs He). f_equal. symmetry.
  apply at_nat_lookup. by rewrite list_lookup_fmap, He.
Qed.

(** A search of a window, followed by one of the whole array. *)
Lemma bsearch_full sorted key : ascending sorted ->
  at_nat 0 (map snd sorted) <$> bsearch (S (length sorted)) (map fst sorted) key 0 (length sorted)
  = find_key sorted key.
Proof.
  intros Hs. pose proof (bsearch_spec sorted key (S (length sorted)) Hs 0 (length sorted)
    ltac:(lia) ltac:(lia)) as H. destruct (bsearch _ _ _ _ _) as [i|]; simpl.
  - symmetry. by apply found_at.
  - symmetry. apply find_key_absent. intros Hin. apply list_elem_of_lookup in Hin as [i Hi].
    pose proof (lookup_lt_Some _ _ _ Hi) as Hl. rewrite length_map in Hl. apply (H i); [lia|done].
Qed.
Lemma bsearch_window sorted key a b : ascending sorted -> (b <= length sorted)%nat ->
  match bsearch (S (length sorted)) (map fst sorted) key a b with
  | Some i => Some (at_nat 0 (map snd sorted) i)
  | None => at_nat 0 (map snd sorted)
              <$> bsearch (S (length sorted)) (map fst sorted) key 0 (length sorted)
  end = find_key sorted key.
Proof.
  intros Hs Hb. pose proof (bsearch_spec sorted key (S (length sorted)) Hs a b ltac:(lia) Hb) as H.
  destruct (bsearch _ _ _ a b) as [i|]; [symmetry; by apply found_at|by apply bsearch_full].
Qed.

Lemma combine_fst_snd {A C} (l : list (A * C)) : combine (map fst l) (map snd l) = l.
Proof. induction l as [|[a c] l IH]; simpl; congruence. Qed.

Lemma scan_sorted_spec sorted after limit : ascending sorted ->
  scan_sorted (map fst sorted) (map snd sorted) after limit = entries_after sorted after limit.
Proof.
  intros Hs. unfold scan_sorted, entries_after. destruct limit as [|limit]; [done|].
  destruct sorted as [|e l] eqn:Hl; [done|]. rewrite <- Hl in *. cbn [Nat.eqb orb].
  assert (Hm : match map fst sorted with [] => true | _ => false end = false) by by rewrite Hl.
  rewrite Hm, length_map.
  destruct (scan_start_spec sorted (at_nat [] (map fst sorted)) after Hs) as [<- _].
  { intros i e' He. apply at_nat_lookup. by rewrite list_lookup_fmap, He. }
  f_equal. rewrite !skipn_map. apply combine_fst_snd.
Qed.

(** ** RadixSpline *)

Lemma spline_fields sorted bits :
  Spline.keys (Spline.build sorted bits) = map fst sorted
  /\ Spline.offsets (Spline.build sorted bits) = map snd sorted.
Proof. unfold Spline.build. by case_match. Qed.

(** Whatever the spline predicts, the answer is exact. *)
#[global] Instance spline_exact sorted bits : ascending sorted ->
  OrderedIndex Spline.get Spline.scan_after (Spline.build sorted bits) sorted.
Proof.
  intros Hs. destruct (spline_fields sorted bits) as [Hk Ho]. split.
  - intros key. unfold Spline.get. destruct (Spline.predict_range _ _) as [lo hi].
    rewrite Hk, Ho, length_map. destruct (Nat.eqb_spec (length sorted) 0) as [Hz|_].
    + by apply nil_length_inv in Hz as ->.
    + apply bsearch_window; [done|lia].
  - intros after limit. unfold Spline.scan_after. rewrite Hk, Ho. by apply scan_sorted_spec.
Qed.

(** ** PGM *)

Lemma grow_range fuel ranks eps start : forall stop,
  (stop <= Nat.max stop (length ranks))%nat ->
  (stop <= Pgm.grow fuel ranks eps start stop <= Nat.max stop (length ranks))%nat.
Proof.
  induction fuel as [|f IH]; intros stop H; simpl; [lia|].
  destruct (Nat.ltb_spec stop (length ranks)); simpl; [|lia].
  destruct (_ <=? eps); [|lia]. specialize (IH (S stop) ltac:(lia)). lia.
Qed.

Lemma segments_inside fuel ranks eps : forall start seg, seg ∈ Pgm.segment_loop fuel ranks eps start ->
  exists lo hi, seg = Pgm.make_seg ranks lo hi /\ (lo < hi <= length ranks)%nat.
Proof.
  induction fuel as [|f IH]; intros start seg; simpl; [set_solver|].
  destruct (Nat.ltb_spec start (length ranks)); [|set_solver].
  pose proof (grow_range (length ranks) ranks eps start (S start) ltac:(lia)).
  intros [->|Hin]%elem_of_cons; [|by apply IH in Hin].
  eexists start, _. split; [done|]. lia.
Qed.

Lemma idx32_small i : Z.of_nat i <= U32_MAX -> idx32 i = Z.of_nat i.
Proof. intros. unfold idx32, as_u32, U32_MAX in *. rewrite Z.mod_small; lia. Qed.
Lemma clamp_range z lo hi : lo <= hi -> lo <= clamp z lo hi <= hi.
Proof. intros. unfold clamp. repeat case_match; boolify; lia. Qed.

Lemma predict_range sorted eps rank : sorted <> [] -> Z.of_nat (length sorted) <= U32_MAX ->
  0 <= Pgm.predict (Pgm.build sorted eps) rank <= Z.of_nat (length sorted) - 1.
Proof.
  intros Hne Hn. assert (Hpos : (0 < length sorted)%nat) by (destruct sorted; [done|simpl; lia]).
  unfold Pgm.predict. destruct (_ !! _) as [seg|] eqn:Hseg; [|lia].
  apply list_elem_of_lookup_2 in Hseg. cbn [Pgm.segments Pgm.build Pgm.keys] in *.
  apply segments_inside in Hseg as (lo & hi & -> & Hlh). rewrite !length_map in *.
  unfold Pgm.make_seg. destruct (if _ || _ then _ else _) as [slope icpt].
  cbn [Pgm.pos_lo Pgm.pos_hi Pgm.intercept_q32 Pgm.slope_q32 Pgm.key_lo].
  rewrite !idx32_small by lia. unfold sat_sub.
  match goal with |- context [clamp ?z ?l ?h] =>
    match z with clamp _ _ _ => pose proof (clamp_range z l h) end end. lia.
Qed.

Lemma linear_spec keys key idxs :
  match Pgm.linear keys key idxs with
  | Some i => i ∈ idxs /\ at_nat [] keys i = key
  | None => forall i, i ∈ idxs -> at_nat [] keys i <> key
  end.
Proof.
  induction idxs as [|j idxs IH]; simpl; [set_solver|]. unfold bytes_eqb.
  case_bool_decide as Hj; [split; [left|done]|].
  destruct (Pgm.linear _ _ _); [split; [right|]; apply IH|].
  intros i [->|Hin]%elem_of_cons; [done|by apply IH].
Qed.

(** A linear search that finds something finds the key. *)
Lemma linear_found sorted key lo hi i : ascending sorted -> (hi <= length sorted)%nat ->
  Pgm.linear (map fst sorted) key (Pgm.range lo hi) = Some i ->
  find_key sorted key = Some (at_nat 0 (map snd sorted) i).
Proof.
  intros Hs Hhi Hl. pose proof (linear_spec (map fst sorted) key (Pgm.range lo hi)) as H.
  rewrite Hl in H. destruct H as [Hin Hk]. apply elem_of_seq in Hin.
  destruct (lookup_lt_is_Some_2 (map fst sorted) i) as [k Hi]; [rewrite length_map; lia|].
  rewrite (at_nat_lookup _ _ _ _ Hi) in Hk. subst k. by apply found_at.
Qed.
Lemma linear_all sorted key lo hi : (lo = 0)%nat -> (hi = length sorted)%nat ->
  Pgm.linear (map fst sorted) key (Pgm.range lo hi) = None -> find_key sorted key = None.
Proof.
  intros -> -> Hl. pose proof (linear_spec (map fst sorted) key (Pgm.range 0 (length sorted))) as H.
  rewrite Hl in H. apply find_key_absent. intros Hin. apply list_elem_of_lookup in Hin as [i Hi].
  pose proof (lookup_lt_Some _ _ _ Hi) as Hlt. rewrite length_map in Hlt.
  apply (H i); [apply elem_of_seq; lia|]. by apply at_nat_lookup.
Qed.

(** With an error bound of eight or more a small window is the whole array, and
    a large one has the full search behind it. *)
#[global] Instance pgm_exact sorted eps : ascending sorted -> 8 <= eps ->
  Z.of_nat (length sorted) <= U32_MAX ->
  OrderedIndex Pgm.get Pgm.scan_after (Pgm.build sorted eps) sorted.
Proof.
  intros Hs He Hn. split.
  2: { intros after limit. by apply scan_sorted_spec. }
  intros key. unfold Pgm.get.
  change (Pgm.keys (Pgm.build sorted eps)) with (map fst sorted). rewrite length_map.
  destruct (Nat.eqb_spec (length sorted) 0) as [Hz|Hz].
  { by apply nil_length_inv in Hz as ->. }
  pose proof (predict_range sorted eps (be_u64 key) ltac:(by intros ->) Hn) as Hp.
  set (pred := Pgm.predict _ _) in *.
  change (Pgm.epsilon (Pgm.build sorted eps)) with (Z.max eps 1).
  replace (Z.max eps 1) with eps by lia.
  change (Pgm.offset_at (Pgm.build sorted eps)) with (at_nat 0 (map snd sorted)).
  set (lo := Z.to_nat (sat_sub pred eps)). set (hi := Nat.min (Z.to_nat (pred + eps + 1)) (length sorted)).
  destruct (Nat.leb_spec (hi - lo) 8) as [Hw|Hw].
  - assert (Hlo : lo = 0%nat) by (unfold lo, hi, sat_sub in *; lia).
    assert (Hhi : hi = length sorted) by (unfold lo, hi, sat_sub in *; lia).
    destruct (Pgm.linear _ _ (Pgm.range lo hi)) as [i|] eqn:Hl.
    + symmetry. apply (linear_found sorted key lo hi); [done|lia|done].
    + rewrite (linear_all sorted key lo hi Hlo Hhi Hl).
      replace (Pgm.range _ _) with (Pgm.range lo hi); [by rewrite Hl|].
      unfold Pgm.range. rewrite Hlo, Hhi. f_equal; lia.
  - apply bsearch_window; [done|unfold hi; lia].
Qed.

(** Whatever the error bound, an answer is right: it is only ever one of the key itself. *)
Lemma pgm_sound sorted eps key o : ascending sorted ->
  Pgm.get (Pgm.build sorted eps) key = Some o -> find_key sorted key = Some o.
Proof.
  intros Hs. unfold Pgm.get.
  change (Pgm.keys (Pgm.build sorted eps)) with (map fst sorted). rewrite length_map.
  destruct (_ =? 0)%nat; [done|].
  change (Pgm.offset_at (Pgm.build sorted eps)) with (at_nat 0 (map snd sorted)).
  set (pred := Pgm.predict _ _). set (e := Pgm.epsilon _).
  set (lo := Z.to_nat (sat_sub pred e)). set (hi := Nat.min (Z.to_nat (pred + e + 1)) (length sorted)).
  destruct (_ <=? 8)%nat.
  - destruct (Pgm.linear _ _ (Pgm.range lo hi)) as [i|] eqn:Hl.
    + intros [= <-]. apply (linear_found sorted key lo hi); [done|lia|done].
    + intros (i & Hl2 & ->)%fmap_Some. eapply linear_found; [done| |exact Hl2]. lia.
  - intros Hg. rewrite <- Hg. symmetry. apply bsearch_window; [done|unfold hi; lia].
Qed.

(** With a small error bound the truncated slope of the model loses keys: forty
    keys 2^40 apart make one segment of slope zero, and the last key is not
    found. *)
Example pgm_small_epsilon_misses :
  let sorted := map (fun i => (be_bytes 8 (Z.of_nat i * 2 ^ 40), Z.of_nat i)) (seq 0 40) in
  find_key sorted (be_bytes 8 (39 * 2 ^ 40)) = Some 39
  /\ Pgm.get (Pgm.build sorted 1) (be_bytes 8 (39 * 2 ^ 40)) = None.
Proof. split; vm_compute; reflexivity. Qed.

(** ** Eytzinger layout *)

Module EytzingerFacts.
Import Eytzinger.

(** The heap indices of the subtree at [e], in order. *)
Fixpoint slots (fuel n e : nat) : list nat :=
  match fuel with
  | O => []
  | S f => if (n <=? e)%nat then [] else slots f n (2 * e + 1) ++ [e] ++ slots f n (2 * e + 2)
  end.

(** [i] is [e] or one of its descendants: [e + 1] is a binary prefix of [i + 1]. *)
Definition below (e i : nat) : Prop := exists k, (S i / 2 ^ k = S e)%nat.

Lemma below_root i : below 0 i.
Proof.
  exists (Nat.log2 (S i)). pose proof (Nat.log2_spec (S i) ltac:(lia)) as [H1 H2].
  symmetry. apply (Nat.div_unique _ _ 1 (S i - 2 ^ Nat.log2 (S i))%nat); simpl in *; lia.
Qed.
Lemma below_cases e i : below e i <-> i = e \/ below (2 * e + 1) i \/ below (2 * e + 2) i.
Proof.
  assert (Hp : forall k, (S i / 2 ^ S k = S i / 2 ^ k / 2)%nat).
  { intros k. rewrite Nat.Div0.div_div. f_equal. simpl. lia. }
  split.
  - intros [[|k] Hk]; [left; rewrite Nat.pow_0_r, Nat.div_1_r in Hk; lia|right].
    rewrite Hp in Hk. pose proof (Nat.div_mod_eq (S i / 2 ^ k) 2) as Hd.
    pose proof (Nat.mod_upper_bound (S i / 2 ^ k) 2 ltac:(lia)).
    destruct (decide ((S i / 2 ^ k) mod 2 = 0)%nat); [left|right]; exists k; lia.
  - intros [->|[[k Hk]|[k Hk]]]; [exists 0%nat; by rewrite Nat.pow_0_r, Nat.div_1_r|..]; exists (S k);
      rewrite Hp, Hk.
    + symmetry. apply (Nat.div_unique _ _ _ 0%nat); lia.
    + symmetry. apply (Nat.div_unique _ _ _ 1%nat); lia.
Qed.

Lemma below_deeper a b k k' i : (k <= k')%nat -> (S i / 2 ^ k = S a)%nat -> (S i / 2 ^ k' = S b)%nat ->
  (S b <= S a)%nat /\ (k < k' -> 2 * S b <= S a)%nat.
Proof.
  intros Hk Ha Hb. replace k' with (k + (k' - k))%nat in Hb by lia.
  rewrite Nat.pow_add_r, <- Nat.Div0.div_div, Ha in Hb. rewrite <- Hb. split.
  - apply Nat.Div0.div_le_upper_bound. pose proof (Nat.pow_nonzero 2 (k' - k)). nia.
  - intros Hlt. replace (k' - k)%nat with (S (k' - k - 1)) in * by lia.
    rewrite Nat.pow_succ_r' in *. rewrite <- Nat.Div0.div_div in *.
    pose proof (Nat.div_mod_eq (S a) 2).
    assert (S a / 2 / 2 ^ (k' - k - 1) <= S a / 2)%nat; [|lia].
    apply Nat.Div0.div_le_upper_bound. pose proof (Nat.pow_nonzero 2 (k' - k - 1)). nia.
Qed.
Lemma below_self e : ~ below (2 * e + 1) e /\ ~ below (2 * e + 2) e.
Proof.
  split; intros [k Hk]; (destruct (below_deeper e _ 0 k e ltac:(lia) ltac:(by rewrite Nat.pow_0_r, Nat.div_1_r) Hk)); lia.
Qed.
Lemma below_disjoint e i : below (2 * e + 1) i -> below (2 * e + 2) i -> False.
Proof.
  intros [k Hk] [k' Hk']. destruct (Nat.lt_trichotomy k k') as [Hlt|[->|Hlt]].
  - destruct (below_deeper _ _ k k' i ltac:(lia) Hk Hk'). lia.
  - lia.
  - destruct (below_deeper _ _ k' k i ltac:(lia) Hk' Hk) as [_ H]. specialize (H Hlt). lia.
Qed.

Lemma slots_elem fuel n : forall e i, (n - e < fuel)%nat -> i ∈ slots fuel n e <-> (i < n)%nat /\ below e i.
Proof.
  induction fuel as [|f IH]; intros e i Hf; [lia|]. cbn [slots].
  destruct (Nat.leb_spec n e) as [Hn|Hn].
  - split; [set_solver|]. intros [Hi [k Hk]].
    assert (S i / 2 ^ k <= S i)%nat; [|lia]. apply Nat.Div0.div_le_upper_bound.
    pose proof (Nat.pow_nonzero 2 k). nia.
  - rewrite !elem_of_app, list_elem_of_singleton, !IH by lia. rewrite (below_cases e i).
    split; [intros [[? ?]|[->|[? ?]]]; auto|]. intros [? [->|[?|?]]]; auto.
Qed.
Lemma slots_NoDup fuel n : forall e, (n - e < fuel)%nat -> NoDup (slots fuel n e).
Proof.
  induction fuel as [|f IH]; intros e Hf; [lia|]. cbn [slots].
  destruct (Nat.leb_spec n e) as [Hn|Hn]; [constructor|].
  destruct (below_self e) as [N1 N2]. apply NoDup_app. split_and!; [apply IH; lia| |].
  - intros i Hi. rewrite slots_elem in Hi by lia. destruct Hi as [_ Hb]. simpl.
    rewrite not_elem_of_cons, slots_elem by lia. split; [by intros ->|].
    intros [_ Hb']. by apply (below_disjoint e i).
  - apply NoDup_cons. split; [|apply IH; lia]. rewrite slots_elem by lia. by intros [_ Hb].
Qed.
Lemma slots_perm n : slots (S n) n 0 ≡ₚ seq 0 n.
Proof.
  apply NoDup_Permutation; [apply slots_NoDup; lia|apply NoDup_seq|]. intros i.
  rewrite slots_elem, elem_of_seq by lia. split; [lia|]. intros ?. split; [lia|apply below_root].
Qed.

(** Placing the sorted entries one by one into a list of slots. *)
Definition place (sorted : list Entry) (w : Work) (e : nat) : option Work :=
  match sorted !! next w with
  | None => None
  | Some (k, o) => Some {|
      w_keys := <[e := k]> (w_keys w); w_offsets := <[e := o]> (w_offsets w);
      w_sorted_to_eyt := <[next w := idx32 e]> (w_sorted_to_eyt w); next := S (next w) |}
  end.
Fixpoint place_all (sorted : list Entry) (l : list nat) (w : Work) : option Work :=
  match l with
  | [] => Some w
  | e :: rest => match place sorted w e with None => None | Some w1 => place_all sorted rest w1 end
  end.
Lemma place_all_app sorted l1 l2 w :
  place_all sorted (l1 ++ l2) w
  = match place_all sorted l1 w with None => None | Some w1 => place_all sorted l2 w1 end.
Proof. revert w. induction l1 as [|e l1 IH]; intros w; simpl; [done|]. by destruct (place _ _ _). Qed.

Lemma inorder_places sorted n fuel : forall e w, (n - e < fuel)%nat ->
  inorder fuel sorted n e w = place_all sorted (slots fuel n e) w.
Proof.
  induction fuel as [|f IH]; intros e w Hf; [lia|]. cbn [inorder slots].
  destruct (Nat.leb_spec n e) as [Hn|Hn]; [done|].
  rewrite place_all_app, IH by lia. destruct (place_all _ _ w) as [w1|]; [|done].
  cbn [app place_all]. unfold place. destruct (sorted !! next w1) as [[k o]|]; [|done].
  apply IH. lia.
Qed.

Lemma place_all_spec sorted n l : forall w,
  length (w_keys w) = n -> length (w_offsets w) = n -> length (w_sorted_to_eyt w) = length sorted ->
  NoDup l -> Forall (fun e => (e < n)%nat) l -> (next w + length l <= length sorted)%nat ->
  exists w', place_all sorted l w = Some w' /\ length (w_keys w') = n /\ length (w_offsets w') = n
    /\ length (w_sorted_to_eyt w') = length sorted
    /\ (forall j e, l !! j = Some e -> exists k o, sorted !! (next w + j)%nat = Some (k, o)
          /\ w_keys w' !! e = Some k /\ w_offsets w' !! e = Some o
          /\ w_sorted_to_eyt w' !! (next w + j)%nat = Some (idx32 e))
    /\ (forall e, e ∉ l -> w_keys w' !! e = w_keys w !! e /\ w_offsets w' !! e = w_offsets w !! e)
    /\ (forall r, (r < next w)%nat -> w_sorted_to_eyt w' !! r = w_sorted_to_eyt w !! r).
Proof.
  induction l as [|e l IH]; intros w Hk Ho He Hn Hf Hl; simpl in *.
  { exists w. split_and!; try done. }
  apply NoDup_cons in Hn as [Hne Hn]. apply Forall_cons in Hf as [Hen Hf].
  unfold place. destruct (sorted !! next w) as [[k o]|] eqn:Hs;
    [|apply lookup_ge_None in Hs; lia].
  edestruct (IH {| w_keys := <[e := k]> (w_keys w); w_offsets := <[e := o]> (w_offsets w);
      w_sorted_to_eyt := <[next w := idx32 e]> (w_sorted_to_eyt w); next := S (next w) |})
    as (w' & Hw & K & O & E & Hin & Hout & Hlo);
    [cbn; rewrite ?length_insert; done || lia..|].
  cbn [w_keys w_offsets w_sorted_to_eyt next] in *.
  exists w'. split_and!; try done.
  - intros [|j] e'; simpl.
    + intros [= <-]. rewrite Nat.add_0_r. destruct (Hout e Hne) as [H1 H2]. exists k, o.
      rewrite H1, H2, Hlo by lia. rewrite !list_lookup_insert_eq by lia. done.
    + intros Hj. destruct (Hin j e' Hj) as (k' & o' & H1 & H2 & H3 & H4). exists k', o'.
      replace (next w + S j)%nat with (S (next w + j)) by lia. done.
  - intros e' He'. apply not_elem_of_cons in He' as [Hne' He']. destruct (Hout e' He') as [H1 H2].
    rewrite H1, H2. by rewrite !list_lookup_insert_ne by done.
  - intros r Hr. rewrite Hlo by lia. by rewrite list_lookup_insert_ne by lia.
Qed.

(** The entry stored at a heap index. *)
Definition slot_entry (x : t) (i : nat) : Entry := (at_nat [] (keys x) i, at_nat 0 (offsets x) i).

Lemma build_spec sorted : Z.of_nat (length sorted) <= U32_MAX ->
  exists x, build sorted = Some x /\ length (keys x) = length sorted
    /\ map (slot_entry x) (slots (S (length sorted)) (length sorted) 0) = sorted
    /\ (forall s e, sorted !! s = Some e -> ranked x s = e).
Proof.
  intros Hb. set (n := length sorted). unfold build. fold n. rewrite inorder_places by lia.
  pose proof (slots_perm n) as Hp. pose proof (Permutation_length Hp) as Hlen. rewrite length_seq in Hlen.
  destruct (place_all_spec sorted n (slots (S n) n 0)
    {| w_keys := replicate n []; w_offsets := replicate n 0; w_sorted_to_eyt := replicate n 0;
       next := O |}) as (w & Hw & K & _ & _ & Hin & _).
  1-3: apply length_replicate.
  { apply slots_NoDup. lia. }
  { apply Forall_forall. intros i Hi. rewrite Hp, elem_of_seq in Hi. lia. }
  { cbn [next]. lia. }
  rewrite Hw. eexists. split; [done|]. cbn [next Nat.add] in Hin. split; [done|]. split.
  - apply list_eq_same_length with (n := n); [done|by rewrite length_map|].
    intros j a b Hj Ha Hbj. rewrite list_lookup_fmap in Ha.
    destruct (slots (S n) n 0 !! j) as [e|] eqn:He; [|done]. injection Ha as <-.
    destruct (Hin j e He) as (k & o & H1 & H2 & H3 & _). unfold slot_entry. cbn [keys offsets].
    rewrite (at_nat_lookup _ _ _ _ H2), (at_nat_lookup _ _ _ _ H3). congruence.
  - intros s en Hs. pose proof (lookup_lt_Some _ _ _ Hs) as Hlt. fold n in Hlt.
    destruct (lookup_lt_is_Some_2 (slots (S n) n 0) s) as [e He]; [lia|].
    destruct (Hin s e He) as (k & o & H1 & H2 & H3 & H4). unfold ranked, slot_of.
    cbn [keys offsets sorted_to_eyt].
    rewrite (at_nat_lookup _ _ _ _ H4).
    assert (Hen : (e < n)%nat).
    { apply list_elem_of_lookup_2 in He. rewrite Hp, elem_of_seq in He. lia. }
    rewrite idx32_small, Nat2Z.id by lia.
    rewrite (at_nat_lookup _ _ _ _ H2), (at_nat_lookup _ _ _ _ H3). congruence.
Qed.

Lemma find_key_app A B key :
  find_key (A ++ B) key = match find_key A key with Some o => Some o | None => find_key B key end.
Proof.
  unfold find_key. induction A as [|[k o] A IH]; simpl; [done|]. by destruct (bytes_eqb k key).
Qed.

Lemma find_key_split A c B key : ascending (A ++ c :: B) ->
  find_key (A ++ c :: B) key
  = match bytes_cmp key (fst c) with
    | Eq => Some (snd c) | Lt => find_key A key | Gt => find_key B key end.
Proof.
  intros Hs. destruct (bytes_cmp key (fst c)) eqn:Hc.
  - apply bytes_cmp_Eq in Hc. apply (find_key_at _ (length A)); [done|].
    rewrite list_lookup_middle by done. rewrite Hc. by destruct c.
  - rewrite find_key_app. destruct (find_key A key) as [o|] eqn:Hf; [done|].
    unfold ascending in Hs. rewrite map_app in Hs. apply StronglySorted_app_1_r in Hs. simpl in Hs.
    apply StronglySorted_inv in Hs as [_ Hall]. apply find_key_absent. simpl.
    apply not_elem_of_cons. split; [intros ->; by rewrite bytes_cmp_refl in Hc|].
    intros Hin. rewrite Forall_forall in Hall.
    apply (bytes_lt_irrefl key). eapply bytes_lt_trans; [exact Hc|by apply Hall].
  - rewrite find_key_app, (find_key_absent A).
    + unfold find_key at 1. simpl. unfold bytes_eqb at 1.
      by rewrite bool_decide_false by (intros Heq; by rewrite Heq, bytes_cmp_refl in Hc).
    + intros Hin. unfold ascending in Hs. rewrite map_app in Hs.
      pose proof (StronglySorted_app_1_elem_of _ _ _ key (fst c) Hs Hin ltac:(left)) as Hlt.
      apply bytes_cmp_Gt in Hc. apply (bytes_lt_irrefl key). by eapply bytes_lt_trans.
Qed.

Lemma probe_spec x n fuel key : length (keys x) = n -> forall e, (n - e < fuel)%nat ->
  ascending (map (slot_entry x) (slots fuel n e)) ->
  probe fuel x key e = find_key (map (slot_entry x) (slots fuel n e)) key.
Proof.
  intros Hn. induction fuel as [|f IH]; intros e Hf Ha; [lia|]. cbn [probe slots] in *.
  destruct (Nat.leb_spec n e) as [He|He].
  - by rewrite lookup_ge_None_2 by lia.
  - destruct (lookup_lt_is_Some_2 (keys x) e) as [k Hk]; [lia|]. rewrite Hk.
    rewrite map_app in *. cbn [app map] in *. rewrite find_key_split by done.
    unfold ascending in Ha. rewrite map_app in Ha.
    change (fst (slot_entry x e)) with (at_nat [] (keys x) e).
    rewrite (at_nat_lookup _ _ _ _ Hk). destruct (bytes_cmp key k); [done|..].
    + apply IH; [lia|]. by apply StronglySorted_app_1_l in Ha.
    + apply IH; [lia|]. apply StronglySorted_app_1_r in Ha. simpl in Ha.
      by apply StronglySorted_inv in Ha as [Ha _].
Qed.

(** Building never panics, and the layout answers as the sorted entries. *)
Lemma eytzinger_exact sorted : ascending sorted -> Z.of_nat (length sorted) <= U32_MAX ->
  exists x, build sorted = Some x /\ OrderedIndex get scan_after x sorted.
Proof.
  intros Hs Hb. destruct (build_spec sorted Hb) as (x & Hx & Hl & Hm & Hr).
  exists x. split; [done|]. split.
  - intros key. unfold get, len. rewrite Hl.
    rewrite (probe_spec x (length sorted)); [by rewrite Hm|done|lia|by rewrite Hm].
  - intros after limit. unfold scan_after, entries_after. rewrite Hl.
    destruct limit as [|limit]; [done|]. cbn [Nat.eqb orb].
    destruct (scan_start_spec sorted (fun mid => fst (ranked x mid)) after Hs) as [Hd Hle].
    { intros i e He. by rewrite (Hr i e He). }
    destruct (keys x) as [|k ks] eqn:Hkx.
    { apply symmetry, nil_length_inv in Hl as ->. done. }
    f_equal. rewrite <- Hd. set (start := scan_start _ _ _) in *.
    apply list_eq_same_length with (n := (length sorted - start)%nat);
      [by rewrite length_drop|by rewrite length_map, length_seq|].
    intros j a b Hj Ha Hbj. rewrite lookup_drop in Hbj. rewrite list_lookup_fmap, lookup_seq_lt in Ha by done.
    injection Ha as <-. by apply Hr.
Qed.
End EytzingerFacts.
