(* ===== verification/HydraRadix.v ===== *)
(** * Hydra: the path-compressed radix tree

    Model of [crates/residiuum-store/src/hydra/radix.rs].  The nodes live in an
    arena ([Vec<Node>], root at 0) and refer to each other by [u32] index;
    [insert] updates the arena in place, splitting a node where a key leaves its
    compressed prefix.  An index out of range, where the code would panic, is
    [None]. *)
From S2P Require Import Prelude HydraSorted.
Open Scope list_scope.
Open Scope Z_scope.

Module Radix.

Record Edge := { e_byte : byte; e_child : Z }.
Record Node := { prefix : list byte; leaf : option Z; edges : list Edge }.
Record Leaf := { lf_key : list byte; lf_offset : Z }.
Record t := { nodes : list Node; leaves : list Leaf }.

Fixpoint common_prefix (a b : list byte) : nat :=
  match a, b with
  | x :: a', y :: b' => if bool_decide (x = y) then S (common_prefix a' b') else O
  | _, _ => O
  end.

(** [edges.binary_search_by_key(&b, |e| e.byte)] on sorted edges: the position
    of the edge, or the place to insert it. *)
Fixpoint find_edge (es : list Edge) (b : byte) (i : nat) : nat + nat :=
  match es with
  | [] => inr i
  | e :: rest =>
      match b2z (e_byte e) ?= b2z b with
      | Eq => inl i
      | Lt => find_edge rest b (S i)
      | Gt => inr i
      end
  end.

(** The node is cut after [common] bytes of its prefix; a new child takes over
    the rest, its leaf and its edges. *)
Definition split_node (ns : list Node) (ni : nat) (nd : Node) (common : nat) : list Node :=
  let child := {| prefix := drop (S common) (prefix nd); leaf := leaf nd; edges := edges nd |} in
  let parent := {| prefix := take common (prefix nd); leaf := None;
                   edges := [ {| e_byte := at_nat (z2b 0) (prefix nd) common;
                                 e_child := idx32 (length ns) |} ] |} in
  <[ni := parent]> (ns ++ [child]).

Definition add_child (ns : list Node) (ni : nat) (nd : Node) (ins : nat) (b : byte)
    (rest : list byte) (leaf_idx : Z) : list Node :=
  let child := {| prefix := rest; leaf := Some leaf_idx; edges := [] |} in
  let edge := {| e_byte := b; e_child := idx32 (length ns) |} in
  <[ni := {| prefix := prefix nd; leaf := leaf nd;
             edges := take ins (edges nd) ++ edge :: drop ins (edges nd) |}]> (ns ++ [child]).

Definition set_leaf (ns : list Node) (ni : nat) (nd : Node) (leaf_idx : Z) : list Node :=
  <[ni := {| prefix := prefix nd; leaf := Some leaf_idx; edges := edges nd |}]> ns.

Fixpoint insert_loop (fuel : nat) (ns : list Node) (key : list byte) (leaf_idx : Z)
    (ni depth : nat) : option (list Node) :=
  match fuel with
  | O => None
  | S f =>
      match ns !! ni with
      | None => None
      | Some nd =>
          let common := common_prefix (prefix nd) (drop depth key) in
          let ns1 := if (common <? length (prefix nd))%nat then split_node ns ni nd common else ns in
          match ns1 !! ni with
          | None => None
          | Some nd1 =>
              let depth1 := (depth + length (prefix nd1))%nat in
              if (depth1 =? length key)%nat then Some (set_leaf ns1 ni nd1 leaf_idx)
              else match key !! depth1 with
              | None => None
              | Some b =>
                  match find_edge (edges nd1) b 0 with
                  | inl ei =>
                      match edges nd1 !! ei with
                      | None => None
                      | Some e => insert_loop f ns1 key leaf_idx (Z.to_nat (e_child e)) (S depth1)
                      end
                  | inr ins => Some (add_child ns1 ni nd1 ins b (drop (S depth1) key) leaf_idx)
                  end
              end
          end
      end
  end.

Definition insert (ns : list Node) (key : list byte) (leaf_idx : Z) : option (list Node) :=
  insert_loop (S (length key)) ns key leaf_idx 0 0.

Fixpoint insert_all (ls : list Leaf) (i : nat) (ns : list Node) : option (list Node) :=
  match ls with
  | [] => Some ns
  | l :: rest =>
      match insert ns (lf_key l) (idx32 i) with
      | None => None
      | Some ns1 => insert_all rest (S i) ns1
      end
  end.

Definition build (sorted : list Entry) : option t :=
  match sorted with
  | [] => Some {| nodes := []; leaves := [] |}
  | _ =>
      let ls := map (fun e => {| lf_key := fst e; lf_offset := snd e |}) sorted in
      match insert_all ls 0 [ {| prefix := []; leaf := None; edges := [] |} ] with
      | None => None
      | Some ns => Some {| nodes := ns; leaves := ls |}
      end
  end.

Definition len (x : t) : nat := length (leaves x).

(** The offset of the leaf at a node, if its key is the one looked for. *)
Definition leaf_offset (x : t) (nd : Node) (key : list byte) : option Z :=
  match leaf nd with
  | None => None
  | Some li =>
      match leaves x !! Z.to_nat li with
      | None => None
      | Some l => if bytes_eqb (lf_key l) key then Some (lf_offset l) else None
      end
  end.

Fixpoint get_loop (fuel : nat) (x : t) (key : list byte) (ni depth : nat) : option Z :=
  match fuel with
  | O => None
  | S f =>
      match nodes x !! ni with
      | None => None
      | Some nd =>
          if (length key <? depth + length (prefix nd))%nat then None
          else if negb (bytes_eqb (take (length (prefix nd)) (drop depth key)) (prefix nd)) then None
          else
            let depth1 := (depth + length (prefix nd))%nat in
            if (depth1 =? length key)%nat then leaf_offset x nd key
            else match find_edge (edges nd) (at_nat (z2b 0) key depth1) 0 with
            | inl ei =>
                match edges nd !! ei with
                | None => None
                | Some e => get_loop f x key (Z.to_nat (e_child e)) (S depth1)
                end
            | inr _ => None
            end
      end
  end.
Definition get (x : t) (key : list byte) : option Z :=
  match nodes x with [] => None | _ => get_loop (S (length key)) x key 0 0 end.

Definition scan_after (x : t) (after : option (list byte)) (limit : nat) : list Entry :=
  if (limit =? 0)%nat || match leaves x with [] => true | _ => false end then []
  else
    let start := scan_start (fun i => lf_key (at_nat {| lf_key := []; lf_offset := 0 |} (leaves x) i))
                   (length (leaves x)) after in
    map (fun l => (lf_key l, lf_offset l)) (take limit (drop start (leaves x))).
End Radix.

(** * Facts about the radix tree

    The arena is a tree: every node is reached by one byte string.  Inserting a
    key changes the leaf of that key and of no other, so the index answers as
    the sorted entries it was built from. *)
From S2P Require Import HydraSortedFacts.
Import Radix.
Open Scope list_scope.
Open Scope Z_scope.

(** ** Edges *)

Definition edge_lt (e e' : Edge) : Prop := b2z (e_byte e) < b2z (e_byte e').

Lemma find_edge_spec es b : StronglySorted edge_lt es -> forall i,
  match find_edge es b i with
  | inl k => exists e, (i <= k)%nat /\ es !! (k - i)%nat = Some e /\ e_byte e = b
  | inr k => (i <= k <= i + length es)%nat
             /\ (forall j e, (j < k - i)%nat -> es !! j = Some e -> b2z (e_byte e) < b2z b)
             /\ (forall j e, (k - i <= j)%nat -> es !! j = Some e -> b2z b < b2z (e_byte e))
  end.
Proof.
  induction 1 as [|e es Hs IH Hall]; intros i; simpl.
  { split_and!; [lia..|done|done]. }
  destruct (Z.compare_spec (b2z (e_byte e)) (b2z b)) as [He|Hlt|Hgt].
  - exists e. rewrite Nat.sub_diag. split_and!; [lia|done|by apply b2z_inj].
  - specialize (IH (S i)). destruct (find_edge es b (S i)) as [k|k].
    + destruct IH as (e' & Hk & Hl & Hb). exists e'. split_and!; [lia| |done].
      by replace (k - i)%nat with (S (k - S i)) by lia.
    + destruct IH as (Hk & Hlo & Hhi). split_and!; [lia..| |].
      * intros [|j] e' Hj; simpl; [by intros [= <-]|]. apply Hlo. lia.
      * intros [|j] e' Hj; simpl; [lia|]. apply Hhi. lia.
  - split_and!; [lia..|intros; lia|]. intros [|j] e' _; simpl; [by intros [= <-]|].
    intros Hj. rewrite Forall_forall in Hall. apply list_elem_of_lookup_2 in Hj.
    specialize (Hall e' Hj). unfold edge_lt in Hall. lia.
Qed.

Lemma sorted_index es i j (e e' : Edge) : StronglySorted edge_lt es ->
  es !! i = Some e -> es !! j = Some e' -> e_byte e = e_byte e' -> e = e'.
Proof.
  intros Hs Hi Hj Hb.
  assert (Hlt : forall i j a b, (i < j)%nat -> es !! i = Some a -> es !! j = Some b -> edge_lt a b).
  { clear -Hs. intros i j a b Hij Ha Hb. rewrite <- (take_drop_middle _ _ _ Ha) in Hs.
    apply StronglySorted_app_1_r, StronglySorted_inv in Hs as [_ Hall].
    rewrite Forall_forall in Hall. apply Hall, list_elem_of_lookup. exists (j - S i)%nat.
    rewrite lookup_drop. by replace (S i + (j - S i))%nat with j by lia. }
  destruct (Nat.lt_trichotomy i j) as [H|[->|H]].
  - specialize (Hlt _ _ _ _ H Hi Hj). unfold edge_lt in Hlt. rewrite Hb in Hlt. lia.
  - congruence.
  - specialize (Hlt _ _ _ _ H Hj Hi). unfold edge_lt in Hlt. rewrite Hb in Hlt. lia.
Qed.

(** A present edge is found. *)
Lemma find_edge_present es e : StronglySorted edge_lt es -> e ∈ es ->
  exists k, find_edge es (e_byte e) 0 = inl k /\ es !! k = Some e.
Proof.
  intros Hs He. apply list_elem_of_lookup in He as [j Hj].
  pose proof (find_edge_spec es (e_byte e) Hs 0) as H.
  destruct (find_edge es (e_byte e) 0) as [k|k].
  - destruct H as (e' & _ & Hk & Hb). rewrite Nat.sub_0_r in Hk. exists k. split; [done|].
    by rewrite Hk, (sorted_index es k j e' e Hs Hk Hj Hb).
  - destruct H as (_ & Hlo & Hhi). destruct (decide (j < k - 0)%nat) as [Hlt|Hge].
    + specialize (Hlo j e Hlt Hj). lia.
    + specialize (Hhi j e ltac:(lia) Hj). lia.
Qed.

Lemma insert_edge_sorted es b c k : StronglySorted edge_lt es -> find_edge es b 0 = inr k ->
  StronglySorted edge_lt (take k es ++ {| e_byte := b; e_child := c |} :: drop k es).
Proof.
  intros Hs Hk. pose proof (find_edge_spec es b Hs 0) as H. rewrite Hk in H.
  destruct H as (Hr & Hlo & Hhi). rewrite Nat.sub_0_r in *.
  rewrite <- (take_drop k es) in Hs. apply StronglySorted_app in Hs as (Hcross & Ht & Hd).
  apply StronglySorted_app_2; [|done|].
  - intros x y Hx Hy. apply elem_of_cons in Hy as [->|Hy]; [|by apply Hcross].
    apply list_elem_of_lookup in Hx as [j Hx]. apply lookup_take_Some in Hx as [Hx Hj].
    by apply (Hlo j).
  - constructor; [done|]. apply Forall_forall. intros y Hy.
    apply list_elem_of_lookup in Hy as [j Hy]. rewrite lookup_drop in Hy.
    apply (Hhi (k + j)%nat); [lia|done].
Qed.

(** ** Paths through the arena *)

(** [A] is the string of bytes read before the prefix of node [m]. *)
Inductive path (ns : list Node) : nat -> list byte -> Prop :=
| path_root : path ns 0 []
| path_edge ni A nd e : path ns ni A -> ns !! ni = Some nd -> e ∈ edges nd ->
    path ns (Z.to_nat (e_child e)) (A ++ prefix nd ++ [e_byte e]).

Record wf (ns : list Node) : Prop := {
  wf_root : (0 < length ns)%nat;
  wf_edges ni nd : ns !! ni = Some nd -> StronglySorted edge_lt (edges nd);
  wf_child ni nd e : ns !! ni = Some nd -> e ∈ edges nd -> (Z.to_nat (e_child e) < length ns)%nat;
  wf_unique ni A A' : path ns ni A -> path ns ni A' -> A = A' }.

(** The key of a node, and the leaf it holds for it. *)
Definition holds (ns : list Node) (key : list byte) (i : Z) : Prop :=
  exists ni A nd, path ns ni A /\ ns !! ni = Some nd /\ leaf nd = Some i /\ key = A ++ prefix nd.

(** The node at which a lookup ends. *)
Fixpoint locate (fuel : nat) (ns : list Node) (key : list byte) (ni depth : nat) : option nat :=
  match fuel with
  | O => None
  | S f =>
      match ns !! ni with
      | None => None
      | Some nd =>
          if (length key <? depth + length (prefix nd))%nat then None
          else if negb (bytes_eqb (take (length (prefix nd)) (drop depth key)) (prefix nd)) then None
          else
            let depth1 := (depth + length (prefix nd))%nat in
            if (depth1 =? length key)%nat then Some ni
            else match find_edge (edges nd) (at_nat (z2b 0) key depth1) 0 with
            | inl ei =>
                match edges nd !! ei with
                | None => None
                | Some e => locate f ns key (Z.to_nat (e_child e)) (S depth1)
                end
            | inr _ => None
            end
      end
  end.

Lemma get_loop_locate x key fuel : forall ni depth,
  get_loop fuel x key ni depth
  = match locate fuel (nodes x) key ni depth with
    | Some nj => match nodes x !! nj with Some nd => leaf_offset x nd key | None => None end
    | None => None
    end.
Proof.
  induction fuel as [|f IH]; intros ni depth; [done|]. cbn [get_loop locate].
  destruct (nodes x !! ni) as [nd|] eqn:Hn; [|done]. case_match; [done|]. case_match; [done|].
  case_match; [by rewrite Hn|]. destruct (find_edge _ _ _) as [ei|]; [|done].
  destruct (edges nd !! ei); [apply IH|done].
Qed.

(** A lookup follows the path of the node it is about. *)
Lemma locate_step fuel ns A nd rest ni e : wf ns -> ns !! ni = Some nd -> e ∈ edges nd ->
  locate (S fuel) ns (A ++ prefix nd ++ e_byte e :: rest) ni (length A)
  = locate fuel ns (A ++ prefix nd ++ e_byte e :: rest) (Z.to_nat (e_child e))
      (length (A ++ prefix nd ++ [e_byte e])).
Proof.
  intros Hw Hn He. cbn [locate]. rewrite Hn. rewrite !length_app. cbn [length].
  destruct (Nat.ltb_spec (length A + (length (prefix nd) + S (length rest))) (length A + length (prefix nd)));
    [lia|].
  rewrite drop_app_length, take_app_length. unfold bytes_eqb. rewrite bool_decide_true by done.
  cbn [negb]. destruct (Nat.eqb_spec (length A + length (prefix nd))
    (length A + (length (prefix nd) + S (length rest)))); [lia|].
  rewrite (at_nat_lookup _ _ _ (e_byte e)).
  - destruct (find_edge_present (edges nd) e (wf_edges _ Hw _ _ Hn) He) as (k & -> & Hk). rewrite Hk.
    f_equal. lia.
  - rewrite app_assoc, lookup_app_r; rewrite length_app; [|lia].
    by rewrite Nat.sub_diag.
Qed.
Lemma locate_here fuel ns A nd ni : ns !! ni = Some nd ->
  locate (S fuel) ns (A ++ prefix nd) ni (length A) = Some ni.
Proof.
  intros Hn. cbn [locate]. rewrite Hn, length_app.
  destruct (Nat.ltb_spec (length A + length (prefix nd)) (length A + length (prefix nd))); [lia|].
  rewrite drop_app_length, firstn_all. unfold bytes_eqb. rewrite bool_decide_true by done.
  cbn [negb]. by rewrite Nat.eqb_refl.
Qed.

Lemma locate_along ns m A : wf ns -> path ns m A -> forall fuel rest,
  (length A <= fuel)%nat -> exists f, (fuel - length A <= f)%nat /\
  locate fuel ns (A ++ rest) 0 0 = locate f ns (A ++ rest) m (length A).
Proof.
  intros Hw Hp. induction Hp as [|ni A nd e Hp IH Hn He]; intros fuel rest Hf.
  - exists fuel. split; [simpl; lia|done].
  - rewrite !length_app in *. cbn [length] in *.
    destruct (IH fuel (prefix nd ++ e_byte e :: rest) ltac:(lia)) as (f & Hf' & Heq).
    destruct f as [|f]; [lia|]. exists f. split; [lia|].
    rewrite <- !app_assoc. cbn [app]. rewrite Heq, (locate_step f ns A nd rest ni e) by done.
    f_equal. rewrite !length_app. cbn [length]. lia.
Qed.

Lemma locate_node ns m A nd : wf ns -> path ns m A -> ns !! m = Some nd ->
  locate (S (length (A ++ prefix nd))) ns (A ++ prefix nd) 0 0 = Some m.
Proof.
  intros Hw Hp Hn. rewrite length_app.
  destruct (locate_along ns m A Hw Hp (S (length A + length (prefix nd))) (prefix nd) ltac:(lia))
    as (f & Hf & ->).
  destruct f as [|f]; [lia|]. by apply locate_here.
Qed.

(** Two nodes do not share a key. *)
Lemma node_unique ns m m' A A' nd nd' : wf ns ->
  path ns m A -> path ns m' A' -> ns !! m = Some nd -> ns !! m' = Some nd' ->
  A ++ prefix nd = A' ++ prefix nd' -> m = m'.
Proof.
  intros Hw Hp Hp' Hn Hn' He. pose proof (locate_node ns m A nd Hw Hp Hn) as H1.
  pose proof (locate_node ns m' A' nd' Hw Hp' Hn') as H2. rewrite He in H1. congruence.
Qed.

(** A lookup that ends, ends at a node with the key. *)
Lemma locate_sound ns key fuel : wf ns -> forall ni A rest nj,
  path ns ni A -> key = A ++ rest -> locate fuel ns key ni (length A) = Some nj ->
  exists B nd, path ns nj B /\ ns !! nj = Some nd /\ key = B ++ prefix nd.
Proof.
  intros Hw. induction fuel as [|f IH]; intros ni A rest nj Hp -> Hl; [done|]. cbn [locate] in Hl.
  destruct (ns !! ni) as [nd|] eqn:Hn; [|done].
  destruct (Nat.ltb_spec (length (A ++ rest)) (length A + length (prefix nd))) as [|Hle]; [done|].
  rewrite drop_app_length in Hl. unfold bytes_eqb in Hl.
  destruct (decide (take (length (prefix nd)) rest = prefix nd)) as [Ht|Ht];
    [rewrite bool_decide_true in Hl by done|by rewrite bool_decide_false in Hl by done].
  cbn [negb] in Hl. rewrite length_app in Hle.
  assert (Hrest : rest = prefix nd ++ drop (length (prefix nd)) rest).
  { rewrite <- Ht at 1. by rewrite take_drop. }
  destruct (Nat.eqb_spec (length A + length (prefix nd)) (length (A ++ rest))) as [He|He].
  - injection Hl as <-. exists A, nd. split_and!; [done..|]. rewrite length_app in He.
    f_equal. rewrite Hrest, drop_ge, app_nil_r; [done|lia].
  - destruct (find_edge _ _ _) as [ei|] eqn:Hfe; [|done]. destruct (edges nd !! ei) as [e|] eqn:Hei; [|done].
    pose proof (find_edge_spec (edges nd) (at_nat (z2b 0) (A ++ rest) (length A + length (prefix nd)))
      (wf_edges _ Hw _ _ Hn) 0) as Hs. rewrite Hfe in Hs. destruct Hs as (e' & _ & Hei' & Hb).
    rewrite Nat.sub_0_r, Hei in Hei'. injection Hei' as <-.
    rewrite length_app in He. destruct (drop (length (prefix nd)) rest) as [|b r] eqn:Hd.
    { apply (f_equal length) in Hd. rewrite length_drop in Hd. simpl in Hd. lia. }
    assert (Hbyte : e_byte e = b).
    { rewrite Hb. apply at_nat_lookup. rewrite Hrest, app_assoc, lookup_app_r; rewrite length_app; [|lia].
      by rewrite Nat.sub_diag. }
    eapply (IH (Z.to_nat (e_child e)) (A ++ prefix nd ++ [e_byte e]) r); [|..].
    + eapply path_edge; [done..|]. by apply list_elem_of_lookup_2 in Hei.
    + rewrite Hrest, Hbyte, <- !app_assoc. done.
    + rewrite <- Hl. f_equal. rewrite !length_app. simpl. lia.
Qed.

(** ** Updates of the arena *)

Lemma path_lookup ns ni A : wf ns -> path ns ni A -> exists nd, ns !! ni = Some nd.
Proof.
  intros Hw Hp. apply lookup_lt_is_Some_2. destruct Hp as [|ni A nd e _ Hn He].
  - apply wf_root, Hw.
  - by eapply wf_child.
Qed.

(** A pushed node and a changed one. *)
Section Push.
Context (ns : list Node) (ni : nat) (parent child : Node).
Context (Hni : (ni < length ns)%nat).
Lemma push_parent : <[ni := parent]> (ns ++ [child]) !! ni = Some parent.
Proof. apply list_lookup_insert_eq. rewrite length_app. lia. Qed.
Lemma push_child : <[ni := parent]> (ns ++ [child]) !! length ns = Some child.
Proof. rewrite list_lookup_insert_ne by lia. by apply list_lookup_middle. Qed.
Lemma push_other m nd : m <> ni -> <[ni := parent]> (ns ++ [child]) !! m = Some nd ->
  (m = length ns /\ nd = child) \/ ((m < length ns)%nat /\ ns !! m = Some nd).
Proof.
  intros Hm. rewrite list_lookup_insert_ne by done. intros Hl.
  apply lookup_snoc_Some in Hl as [[? ?]|[? ?]]; auto.
Qed.
Lemma push_old m nd : m <> ni -> ns !! m = Some nd ->
  <[ni := parent]> (ns ++ [child]) !! m = Some nd.
Proof. intros Hm Hl. rewrite list_lookup_insert_ne by done. by apply lookup_app_l_Some. Qed.
Lemma push_length : length (<[ni := parent]> (ns ++ [child])) = S (length ns).
Proof. rewrite length_insert, length_app. simpl. lia. Qed.
End Push.

Section Split.
Context (ns : list Node) (ni : nat) (nd : Node) (common : nat).
Context (Hw : wf ns) (Hn : ns !! ni = Some nd) (Hc : (common < length (prefix nd))%nat).
Context (Hlen : Z.of_nat (length ns) <= U32_MAX).
Abbreviation ns' := (split_node ns ni nd common).
Abbreviation sb := (at_nat (z2b 0) (prefix nd) common).

Lemma split_prefix : prefix nd = take common (prefix nd) ++ sb :: drop (S common) (prefix nd).
Proof.
  destruct (lookup_lt_is_Some_2 (prefix nd) common Hc) as [b Hb].
  rewrite (at_nat_lookup _ _ _ _ Hb). by rewrite take_drop_middle.
Qed.
Lemma split_lt : (ni < length ns)%nat.
Proof. by apply lookup_lt_Some in Hn. Qed.
Lemma child_index (n : nat) : Z.of_nat n <= U32_MAX -> Z.to_nat (idx32 n) = n.
Proof. intros. rewrite idx32_small by done. apply Nat2Z.id. Qed.

Lemma split_path m C : path ns' m C ->
  (m = length ns /\ exists A, path ns ni A /\ C = A ++ take common (prefix nd) ++ [sb])
  \/ (m <> length ns /\ path ns m C).
Proof.
  pose proof split_lt as Hlt. pose proof (wf_root _ Hw) as Hroot.
  induction 1 as [|p P nd' e _ IH Hp He]; [right; split; [lia|constructor]|].
  destruct (decide (p = ni)) as [->|Hne].
  - unfold split_node in Hp. rewrite push_parent in Hp by done. injection Hp as <-.
    cbn [edges prefix] in *. apply list_elem_of_singleton in He as ->. cbn [e_child e_byte].
    rewrite child_index by done. left. split; [done|]. destruct IH as [[? _]|[_ IH]]; [lia|]. by exists P.
  - apply push_other in Hp as [[-> ->]|[Hplt Hp]]; [..|done].
    + destruct IH as [[_ (A & HA & ->)]|[? _]]; [|done]. cbn [edges prefix] in *. right.
      pose proof (wf_child _ Hw _ _ _ Hn He) as Hch. split; [lia|].
      rewrite <- !app_assoc. cbn [app]. pose proof (path_edge ns ni A nd e HA Hn He) as Hedge.
      rewrite split_prefix, <- app_assoc in Hedge at 1. done.
    + destruct IH as [[? _]|[_ IH]]; [lia|]. right.
      pose proof (wf_child _ Hw _ _ _ Hp He). split; [lia|by econstructor].
Qed.

Lemma split_child_path A : path ns' ni A -> path ns' (length ns) (A ++ take common (prefix nd) ++ [sb]).
Proof.
  intros HA. pose proof split_lt. rewrite <- (child_index (length ns) Hlen) at 1.
  apply (path_edge _ _ _ _ {| e_byte := sb; e_child := idx32 (length ns) |} HA (push_parent _ _ _ _ split_lt)).
  by left.
Qed.
Lemma split_path_back m C : path ns m C -> path ns' m C.
Proof.
  induction 1 as [|p P nd' e _ IH Hp He]; [constructor|].
  destruct (decide (p = ni)) as [->|Hne]; [|eapply path_edge; [exact IH|by apply push_old|done]].
  rewrite Hn in Hp. injection Hp as <-. pose proof (split_child_path P IH) as Hch.
  rewrite split_prefix, <- app_assoc. cbn [app].
  pose proof (path_edge _ _ _ _ e Hch (push_child _ _ _ _ split_lt) He) as Hedge.
  cbn [prefix] in Hedge. by rewrite <- !app_assoc in Hedge.
Qed.

Lemma split_wf : wf ns'.
Proof.
  pose proof split_lt as Hlt. split.
  - unfold split_node. rewrite push_length by done. lia.
  - intros m nd' Hm. destruct (decide (m = ni)) as [->|Hne].
    + unfold split_node in Hm. rewrite push_parent in Hm by done. injection Hm as <-. by repeat constructor.
    + apply push_other in Hm as [[-> ->]|[_ Hm]]; [..|done].
      * apply (wf_edges _ Hw _ _ Hn).
      * apply (wf_edges _ Hw _ _ Hm).
  - intros m nd' e Hm He. unfold split_node. rewrite push_length by done.
    destruct (decide (m = ni)) as [->|Hne].
    + unfold split_node in Hm. rewrite push_parent in Hm by done. injection Hm as <-.
      apply list_elem_of_singleton in He as ->. cbn [e_child]. rewrite child_index by done. lia.
    + apply push_other in Hm as [[-> ->]|[_ Hm]]; [..|done].
      * pose proof (wf_child _ Hw _ _ _ Hn He). lia.
      * pose proof (wf_child _ Hw _ _ _ Hm He). lia.
  - intros m A A' HA HA'.
    destruct (split_path m A HA) as [[-> (A1 & H1 & ->)]|[Hm H1]],
      (split_path _ A' HA') as [[Hm' (A2 & H2 & ->)]|[Hm' H2]]; try done.
    + by rewrite (wf_unique _ Hw _ _ _ H1 H2).
    + by apply (wf_unique _ Hw m).
Qed.

Lemma split_holds k j : holds ns' k j <-> holds ns k j.
Proof.
  pose proof split_lt as Hlt. split.
  - intros (m & A & nd' & HA & Hm & Hl & ->). destruct (decide (m = ni)) as [->|Hne].
    { unfold split_node in Hm. rewrite push_parent in Hm by done. by injection Hm as <-. }
    apply push_other in Hm as [[-> ->]|[Hmlt Hm]]; [..|done].
    + destruct (split_path _ _ HA) as [[_ (A1 & H1 & ->)]|[? _]]; [|done].
      exists ni, A1, nd. split_and!; [done..|]. cbn [prefix]. rewrite <- !app_assoc. cbn [app].
      by rewrite <- split_prefix.
    + destruct (split_path _ _ HA) as [[? _]|[_ H1]]; [lia|]. by exists m, A, nd'.
  - intros (m & A & nd' & HA & Hm & Hl & ->). destruct (decide (m = ni)) as [->|Hne].
    + rewrite Hn in Hm. injection Hm as <-.
      eexists _, _, _. split; [apply split_child_path, split_path_back, HA|].
      split; [by apply push_child|]. split; [done|]. cbn [prefix].
      rewrite <- !app_assoc. cbn [app]. by rewrite <- split_prefix.
    + exists m, A, nd'. split_and!; [by apply split_path_back|by apply push_old|done..].
Qed.
End Split.

(** What an insertion achieves. *)
Definition inserted (ns : list Node) (key : list byte) (i : Z) (ns1 : list Node) : Prop :=
  wf ns1 /\ (length ns1 <= S (length ns))%nat
  /\ forall k j, holds ns1 k j <-> (k = key /\ j = i) \/ (k <> key /\ holds ns k j).

Section SetLeaf.
Context (ns : list Node) (ni : nat) (nd : Node) (A : list byte) (i : Z).
Context (Hw : wf ns) (Hn : ns !! ni = Some nd) (HA : path ns ni A).
Abbreviation ns' := (set_leaf ns ni nd i).
Abbreviation nd' := {| prefix := prefix nd; leaf := Some i; edges := edges nd |}.

Lemma set_leaf_at : ns' !! ni = Some nd'.
Proof. apply list_lookup_insert_eq. by apply lookup_lt_Some in Hn. Qed.
Lemma set_leaf_other m : m <> ni -> ns' !! m = ns !! m.
Proof. intros. unfold set_leaf. by rewrite list_lookup_insert_ne. Qed.
Lemma set_leaf_path m C : path ns' m C <-> path ns m C.
Proof.
  split; (induction 1 as [|p P x e _ IH Hp He]; [apply path_root|]).
  - destruct (decide (p = ni)) as [->|Hne].
    + rewrite set_leaf_at in Hp. injection Hp as <-. apply (path_edge ns ni P nd e IH Hn He).
    + rewrite set_leaf_other in Hp by done. apply (path_edge ns p P x e IH Hp He).
  - destruct (decide (p = ni)) as [->|Hne].
    + rewrite Hn in Hp. injection Hp as <-. apply (path_edge ns' ni P nd' e IH set_leaf_at He).
    + apply (path_edge ns' p P x e IH); [by rewrite set_leaf_other|done].
Qed.
Lemma set_leaf_nodes m x : ns' !! m = Some x -> exists y, ns !! m = Some y /\ prefix y = prefix x
  /\ edges y = edges x.
Proof.
  destruct (decide (m = ni)) as [->|Hne]; [|rewrite set_leaf_other by done; eauto].
  rewrite set_leaf_at. intros [= <-]. eauto.
Qed.

Lemma set_leaf_inserted : inserted ns (A ++ prefix nd) i ns'.
Proof.
  assert (Hl : length ns' = length ns) by apply length_insert. split; [|split; [lia|]].
  - split; rewrite ?Hl.
    + apply Hw.
    + intros m x Hm. destruct (set_leaf_nodes m x Hm) as (y & Hy & _ & <-). by eapply wf_edges.
    + intros m x e Hm He. destruct (set_leaf_nodes m x Hm) as (y & Hy & _ & Hye).
      rewrite <- Hye in He. by eapply wf_child.
    + intros m C C'. rewrite !set_leaf_path. apply Hw.
  - intros k j. split.
    + intros (m & C & x & HC & Hm & Hlf & ->). rewrite set_leaf_path in HC.
      destruct (decide (m = ni)) as [->|Hne].
      * rewrite set_leaf_at in Hm. injection Hm as <-. injection Hlf as ->. left.
        by rewrite (wf_unique _ Hw _ _ _ HC HA).
      * rewrite set_leaf_other in Hm by done. right. split; [|by exists m, C, x].
        intros Heq. apply Hne. by apply (node_unique ns m ni C A x nd).
    + intros [[-> ->]|[Hk (m & C & x & HC & Hm & Hlf & ->)]].
      * exists ni, A, nd'. rewrite set_leaf_path. split_and!; [done|apply set_leaf_at|done..].
      * destruct (decide (m = ni)) as [->|Hne].
        { rewrite Hn in Hm. injection Hm as <-. by rewrite (wf_unique _ Hw _ _ _ HC HA) in Hk. }
        exists m, C, x. rewrite set_leaf_path, set_leaf_other by done. done.
Qed.
End SetLeaf.

Section AddChild.
Context (ns : list Node) (ni : nat) (nd : Node) (A : list byte) (b : byte) (rest : list byte).
Context (ins : nat) (i : Z).
Context (Hw : wf ns) (Hn : ns !! ni = Some nd) (HA : path ns ni A).
Context (Hins : find_edge (edges nd) b 0 = inr ins) (Hlen : Z.of_nat (length ns) <= U32_MAX).
Abbreviation ns' := (add_child ns ni nd ins b rest i).
Abbreviation key := (A ++ prefix nd ++ b :: rest).
Abbreviation edge := {| e_byte := b; e_child := idx32 (length ns) |}.

Lemma add_lt : (ni < length ns)%nat.
Proof. by apply lookup_lt_Some in Hn. Qed.
Lemma add_edges e :
  e ∈ take ins (edges nd) ++ edge :: drop ins (edges nd) <-> e = edge \/ e ∈ edges nd.
Proof.
  rewrite elem_of_app, elem_of_cons. rewrite <- (take_drop ins (edges nd)) at 3.
  rewrite elem_of_app. tauto.
Qed.

Lemma add_path m C : path ns' m C ->
  (m = length ns /\ C = A ++ prefix nd ++ [b]) \/ (m <> length ns /\ path ns m C).
Proof.
  pose proof add_lt as Hlt. pose proof (wf_root _ Hw) as Hroot.
  induction 1 as [|p P x e _ IH Hp He]; [right; split; [lia|constructor]|].
  destruct (decide (p = ni)) as [->|Hne].
  - unfold add_child in Hp. rewrite push_parent in Hp by done. injection Hp as <-.
    cbn [edges prefix] in *. destruct IH as [[? _]|[_ IH]]; [lia|].
    apply add_edges in He as [->|He].
    + cbn [e_child e_byte]. rewrite child_index by done. left.
      by rewrite (wf_unique _ Hw _ _ _ IH HA).
    + right. pose proof (wf_child _ Hw _ _ _ Hn He). split; [lia|]. by eapply path_edge.
  - apply push_other in Hp as [[-> ->]|[Hplt Hp]]; [..|done]; [by apply elem_of_nil in He|].
    destruct IH as [[? _]|[_ IH]]; [lia|]. right.
    pose proof (wf_child _ Hw _ _ _ Hp He). split; [lia|by econstructor].
Qed.
Lemma add_path_back m C : path ns m C -> path ns' m C.
Proof.
  induction 1 as [|p P x e _ IH Hp He]; [constructor|].
  destruct (decide (p = ni)) as [->|Hne]; [|eapply path_edge; [exact IH|by apply push_old|done]].
  rewrite Hn in Hp. injection Hp as <-.
  apply (path_edge _ _ _ _ e IH (push_parent _ _ _ _ add_lt)). cbn [edges]. apply add_edges. by right.
Qed.
Lemma add_path_child : path ns' (length ns) (A ++ prefix nd ++ [b]).
Proof.
  rewrite <- (child_index (length ns) Hlen) at 1.
  apply (path_edge _ _ _ _ edge (add_path_back _ _ HA) (push_parent _ _ _ _ add_lt)).
  cbn [edges]. apply add_edges. by left.
Qed.

Lemma add_wf : wf ns'.
Proof.
  pose proof add_lt as Hlt. split.
  - unfold add_child. rewrite push_length by done. lia.
  - intros m x Hm. destruct (decide (m = ni)) as [->|Hne].
    + unfold add_child in Hm. rewrite push_parent in Hm by done. injection Hm as <-.
      apply insert_edge_sorted; [|done]. by eapply wf_edges.
    + apply push_other in Hm as [[-> ->]|[_ Hm]]; [constructor|by eapply wf_edges|done].
  - intros m x e Hm He. unfold add_child. rewrite push_length by done.
    destruct (decide (m = ni)) as [->|Hne].
    + unfold add_child in Hm. rewrite push_parent in Hm by done. injection Hm as <-.
      apply add_edges in He as [->|He]; [cbn [e_child]; rewrite child_index by done; lia|].
      pose proof (wf_child _ Hw _ _ _ Hn He). lia.
    + apply push_other in Hm as [[-> ->]|[_ Hm]]; [by apply elem_of_nil in He| |done].
      pose proof (wf_child _ Hw _ _ _ Hm He). lia.
  - intros m C C' HC HC'.
    destruct (add_path m C HC) as [[-> ->]|[Hm H1]], (add_path _ C' HC') as [[Hm' ->]|[Hm' H2]]; try done.
    by apply (wf_unique _ Hw m).
Qed.

(** Before, a lookup of the key dies at the missing edge. *)
Lemma add_fresh j : ~ holds ns key j.
Proof.
  intros (m & C & x & HC & Hm & _ & Hk). pose proof (locate_node ns m C x Hw HC Hm) as Hl.
  rewrite <- Hk in Hl. rewrite !length_app in Hl. cbn [length] in Hl.
  destruct (locate_along ns ni A Hw HA (S (length A + (length (prefix nd) + S (length rest))))
    (prefix nd ++ b :: rest) ltac:(lia)) as (f & Hf & Heq).
  rewrite Heq in Hl. destruct f as [|f]; [lia|]. cbn [locate] in Hl. rewrite Hn in Hl.
  rewrite !length_app in Hl. cbn [length] in Hl.
  destruct (Nat.ltb_spec (length A + (length (prefix nd) + S (length rest)))
    (length A + length (prefix nd))); [done|].
  rewrite drop_app_length, take_app_length in Hl. unfold bytes_eqb in Hl.
  rewrite bool_decide_true in Hl by done. cbn [negb] in Hl.
  destruct (Nat.eqb_spec (length A + length (prefix nd))
    (length A + (length (prefix nd) + S (length rest)))); [lia|].
  rewrite (at_nat_lookup _ _ _ b), Hins in Hl; [done|].
  rewrite app_assoc, lookup_app_r; rewrite length_app; [|lia]. by rewrite Nat.sub_diag.
Qed.

Lemma add_inserted : inserted ns key i ns'.
Proof.
  pose proof add_lt as Hlt. split; [apply add_wf|]. split; [unfold add_child; by rewrite push_length|].
  intros k j. split.
  - intros (m & C & x & HC & Hm & Hlf & ->).
    assert (Hold : forall y, m <> length ns -> ns !! m = Some y -> leaf y = Some j -> prefix y = prefix x ->
      (C ++ prefix x = key /\ j = i) \/ (C ++ prefix x <> key /\ holds ns (C ++ prefix x) j)).
    { intros y Hmn Hy Hyl Hyp. destruct (add_path m C HC) as [[? _]|[_ H1]]; [done|]. right.
      assert (Hh : holds ns (C ++ prefix x) j) by (exists m, C, y; by rewrite Hyp).
      split; [|done]. intros Heq. rewrite Heq in Hh. by apply add_fresh in Hh. }
    destruct (decide (m = ni)) as [->|Hne].
    + unfold add_child in Hm. rewrite push_parent in Hm by done. injection Hm as <-.
      apply (Hold nd); [lia|done..].
    + apply push_other in Hm as [[-> ->]|[Hmlt Hm]]; [..|done].
      * destruct (add_path _ _ HC) as [[_ ->]|[? _]]; [|done]. injection Hlf as ->. left.
        cbn [prefix]. rewrite <- !app_assoc. done.
      * apply (Hold x); [lia|done..].
  - intros [[-> ->]|[Hk (m & C & x & HC & Hm & Hlf & ->)]].
    + eexists _, _, _. split; [apply add_path_child|]. split; [by apply push_child|].
      split; [done|]. cbn [prefix]. by rewrite <- !app_assoc.
    + destruct (decide (m = ni)) as [->|Hne].
      * rewrite Hn in Hm. injection Hm as <-. eexists _, _, _.
        split; [apply add_path_back, HC|]. split; [by apply push_parent|]. done.
      * exists m, C, x. split_and!; [by apply add_path_back|by apply push_old|done..].
Qed.
End AddChild.

(** ** Insertion *)

Lemma common_prefix_spec a b :
  let c := common_prefix a b in
  (c <= length a)%nat /\ (c <= length b)%nat /\ take c a = take c b
  /\ ((c < length a)%nat -> forall y, b !! c = Some y -> a !! c <> Some y).
Proof.
  revert b. induction a as [|x a IH]; intros [|y b]; simpl; try (split_and!; [lia|lia|done|done || lia]).
  case_bool_decide as Hxy; simpl.
  - subst y. destruct (IH b) as (H1 & H2 & H3 & H4). split_and!; [lia|lia|by rewrite H3|].
    intros Hc. apply H4. lia.
  - split_and!; [lia|lia|done|]. intros _ z [= <-]. congruence.
Qed.

Definition insert_ok (ns : list Node) (key : list byte) (i : Z) (ns1 : list Node) : Prop :=
  wf ns1 /\ (length ns1 <= 2 + length ns)%nat
  /\ forall k j, holds ns1 k j <-> (k = key /\ j = i) \/ (k <> key /\ holds ns k j).

Lemma inserted_ok ns key i ns1 : inserted ns key i ns1 -> insert_ok ns key i ns1.
Proof. intros (Hw & Hl & Hh). split_and!; [done|lia|done]. Qed.
Lemma inserted_split ns ni nd common key i ns1 : wf ns -> ns !! ni = Some nd ->
  (common < length (prefix nd))%nat -> Z.of_nat (length ns) <= U32_MAX ->
  inserted (split_node ns ni nd common) key i ns1 -> insert_ok ns key i ns1.
Proof.
  intros Hw Hn Hc Hlen (Hw1 & Hl & Hh). split; [done|]. split.
  - unfold split_node in Hl. rewrite push_length in Hl; [lia|]. by apply lookup_lt_Some in Hn.
  - intros k j. by rewrite Hh, (split_holds ns ni nd common).
Qed.

(** A key that leaves the prefix of a node ends in the same round. *)
Lemma insert_split ns ni nd A rest i : wf ns -> ns !! ni = Some nd -> path ns ni A ->
  Z.of_nat (length ns) + 1 <= U32_MAX ->
  let common := common_prefix (prefix nd) rest in
  (common < length (prefix nd))%nat ->
  exists ns1, insert_ok ns (A ++ rest) i ns1 /\ forall f,
    insert_loop (S f) ns (A ++ rest) i ni (length A) = Some ns1.
Proof.
  intros Hw Hn HA Hlen common Hc. destruct (common_prefix_spec (prefix nd) rest) as (_ & Hcr & Ht & Hdiff).
  fold common in Hcr, Ht, Hdiff. specialize (Hdiff Hc).
  set (ns1 := split_node ns ni nd common).
  assert (Hlt : (ni < length ns)%nat) by by apply lookup_lt_Some in Hn.
  set (parent := {| prefix := take common (prefix nd); leaf := None;
    edges := [ {| e_byte := at_nat (z2b 0) (prefix nd) common; e_child := idx32 (length ns) |} ] |}).
  assert (Hp : ns1 !! ni = Some parent) by by apply push_parent.
  assert (Hw1 : wf ns1) by (apply split_wf; done || lia).
  assert (HA1 : path ns1 ni A) by (apply split_path_back; done || lia).
  assert (Hl1 : Z.of_nat (length ns1) <= U32_MAX).
  { unfold ns1, split_node. rewrite push_length by done. lia. }
  assert (Hlp : length (prefix parent) = common) by (simpl; rewrite length_take; lia).
  assert (Hloop : forall f, insert_loop (S f) ns (A ++ rest) i ni (length A)
    = if (length A + common =? length (A ++ rest))%nat then Some (set_leaf ns1 ni parent i)
      else match (A ++ rest) !! (length A + common)%nat with
           | None => None
           | Some b => match find_edge (edges parent) b 0 with
                       | inl ei => match edges parent !! ei with
                                   | None => None
                                   | Some e => insert_loop f ns1 (A ++ rest) i (Z.to_nat (e_child e))
                                                 (S (length A + common))
                                   end
                       | inr ins => Some (add_child ns1 ni parent ins b
                                            (drop (S (length A + common)) (A ++ rest)) i)
                       end
           end).
  { intros f. cbn [insert_loop]. rewrite Hn, drop_app_length. fold common.
    rewrite (proj2 (Nat.ltb_lt _ _) Hc). fold ns1. by rewrite Hp, Hlp. }
  destruct (decide (common = length rest)) as [He|He].
  - exists (set_leaf ns1 ni parent i). split.
    + apply (inserted_split ns ni nd common); try done; [lia|].
      pose proof (set_leaf_inserted ns1 ni parent A i Hw1 Hp HA1) as Hi.
      simpl in Hi. rewrite Ht, He, firstn_all in Hi. done.
    + intros f. rewrite Hloop, length_app, He, Nat.eqb_refl. done.
  - destruct (lookup_lt_is_Some_2 rest common ltac:(lia)) as [b Hb].
    destruct (lookup_lt_is_Some_2 (prefix nd) common Hc) as [sb Hsb].
    assert (Hfe : exists ins, find_edge (edges parent) b 0 = inr ins).
    { cbn [parent edges find_edge e_byte]. rewrite (at_nat_lookup _ _ _ _ Hsb).
      destruct (Z.compare_spec (b2z sb) (b2z b)) as [Heq|_|_]; [|eauto|eauto].
      exfalso. apply b2z_inj in Heq as ->. by apply (Hdiff b). }
    destruct Hfe as [ins Hins]. exists (add_child ns1 ni parent ins b (drop (S common) rest) i). split.
    + apply (inserted_split ns ni nd common); try done; [lia|].
      replace (A ++ rest) with (A ++ prefix parent ++ b :: drop (S common) rest).
      { by apply add_inserted. }
      f_equal. cbn [parent prefix]. rewrite Ht. by apply take_drop_middle.
    + intros f. rewrite Hloop, length_app.
      destruct (Nat.eqb_spec (length A + common) (length A + length rest)); [lia|].
      rewrite lookup_app_r by lia. replace (length A + common - length A)%nat with common by lia.
      rewrite Hb, Hins. do 2 f_equal. rewrite drop_app_ge by lia. f_equal. lia.
Qed.

Lemma insert_loop_ok key i fuel : forall ns ni A rest, wf ns -> path ns ni A -> key = A ++ rest ->
  (length rest < fuel)%nat -> Z.of_nat (length ns) + 1 <= U32_MAX ->
  exists ns1, insert_loop fuel ns key i ni (length A) = Some ns1 /\ insert_ok ns key i ns1.
Proof.
  induction fuel as [|f IH]; intros ns ni A rest Hw HA -> Hf Hlen; [lia|].
  destruct (path_lookup ns ni A Hw HA) as [nd Hn].
  destruct (common_prefix_spec (prefix nd) rest) as (Hcp & Hcr & Ht & _).
  destruct (decide (common_prefix (prefix nd) rest < length (prefix nd))%nat) as [Hc|Hc].
  { destruct (insert_split ns ni nd A rest i Hw Hn HA Hlen Hc) as (ns1 & Hok & Hl).
    exists ns1. split; [apply Hl|done]. }
  assert (Hceq : common_prefix (prefix nd) rest = length (prefix nd)) by lia.
  rewrite Hceq, firstn_all in Ht. cbn [insert_loop]. rewrite Hn, drop_app_length, Hceq, Nat.ltb_irrefl, Hn.
  assert (Hrest : rest = prefix nd ++ drop (length (prefix nd)) rest).
  { rewrite Ht at 1. by rewrite take_drop. }
  rewrite length_app. destruct (Nat.eqb_spec (length A + length (prefix nd)) (length A + length rest)) as [He|He].
  - eexists. split; [done|]. apply inserted_ok. rewrite Hrest, drop_ge, app_nil_r by lia.
    by apply set_leaf_inserted.
  - rewrite lookup_app_r by lia.
    replace (length A + length (prefix nd) - length A)%nat with (length (prefix nd)) by lia.
    destruct (lookup_lt_is_Some_2 rest (length (prefix nd)) ltac:(lia)) as [b Hb]. rewrite Hb.
    assert (Hsplit : rest = prefix nd ++ b :: drop (S (length (prefix nd))) rest).
    { rewrite Hrest at 1. f_equal. by apply drop_S. }
    pose proof (find_edge_spec (edges nd) b (wf_edges _ Hw _ _ Hn) 0) as Hfe.
    destruct (find_edge (edges nd) b 0) as [ei|ins] eqn:Hins.
    + destruct Hfe as (e & _ & Hei & Hbe). rewrite Nat.sub_0_r in Hei. rewrite Hei.
      destruct (IH ns (Z.to_nat (e_child e)) (A ++ prefix nd ++ [b]) (drop (S (length (prefix nd))) rest))
        as (ns1 & Hl & Hok); try done.
      * rewrite <- Hbe. eapply path_edge; [done..|]. by apply list_elem_of_lookup_2 in Hei.
      * rewrite <- !app_assoc. cbn [app]. by rewrite <- Hsplit.
      * rewrite length_drop. lia.
      * exists ns1. split; [|done]. rewrite <- Hl. f_equal. rewrite !length_app. simpl. lia.
    + eexists. split; [done|]. apply inserted_ok.
      replace (drop (S (length A + length (prefix nd))) (A ++ rest)) with (drop (S (length (prefix nd))) rest)
        by (rewrite drop_app_ge by lia; f_equal; lia).
      rewrite Hsplit at 1. apply add_inserted; done || lia.
Qed.

(** ** The whole index *)

Definition first_leaves (ls : list Leaf) (n : nat) (k : list byte) (j : Z) : Prop :=
  exists m l, (m < n)%nat /\ ls !! m = Some l /\ lf_key l = k /\ j = Z.of_nat m.

Lemma insert_all_ok (ls : list Leaf) : NoDup (map lf_key ls) ->
  2 * Z.of_nat (length ls) + 2 <= U32_MAX ->
  forall rest n ns, drop n ls = rest -> (n + length rest = length ls)%nat -> wf ns ->
  (length ns <= 1 + 2 * n)%nat -> (forall k j, holds ns k j <-> first_leaves ls n k j) ->
  exists ns1, insert_all rest n ns = Some ns1 /\ wf ns1
    /\ (forall k j, holds ns1 k j <-> first_leaves ls (length ls) k j).
Proof.
  intros Hnd Hb. induction rest as [|l rest IH]; intros n ns Hd Hn Hw Hl Hh; cbn [insert_all length] in *.
  { exists ns. split_and!; try done. intros k j. rewrite Hh. by replace n with (length ls) by lia. }
  assert (Hln : ls !! n = Some l).
  { rewrite <- (Nat.add_0_r n), <- lookup_drop, Hd. done. }
  rewrite idx32_small by lia. unfold insert.
  destruct (insert_loop_ok (lf_key l) (Z.of_nat n) (S (length (lf_key l))) ns 0 [] (lf_key l))
    as (ns1 & Hi & Hw1 & Hl1 & Hh1); [done|constructor|done|lia|lia|].
  cbn [length] in Hi. rewrite Hi.
  apply IH; [|lia|done|lia|].
  - replace (S n) with (n + 1)%nat by lia. rewrite <- drop_drop, Hd. done.
  - intros k j. rewrite Hh1, Hh. split.
    + intros [[-> ->]|[Hk (m & l' & Hm & Hlm & ? & ?)]]; [exists n, l|exists m, l']; split_and!; done || lia.
    + intros (m & l' & Hm & Hlm & Hk & ->). destruct (decide (m = n)) as [->|Hne].
      * left. rewrite Hln in Hlm. injection Hlm as <-. done.
      * right. split; [|exists m, l'; split_and!; done || lia]. intros Heq. apply Hne.
        eapply (NoDup_lookup (map lf_key ls)); [done|..]; rewrite list_lookup_fmap;
          [by rewrite Hlm; simpl; rewrite Hk|by rewrite Hln; simpl; rewrite Heq].
Qed.

Lemma root_wf : wf [ {| prefix := []; leaf := None; edges := [] |} ].
Proof.
  assert (Hp : forall m A, path [ {| prefix := []; leaf := None; edges := [] |} ] m A -> A = []).
  { intros m A [|ni A' nd e _ Hn He]; [done|]. destruct ni as [|[|ni]]; [|done..].
    injection Hn as <-. by apply elem_of_nil in He. }
  split; [simpl; lia|..].
  - intros [|[|ni]] nd; [|done..]. intros [= <-]. constructor.
  - intros [|[|ni]] nd e; [|done..]. intros [= <-] He. by apply elem_of_nil in He.
  - intros ni A A' HA HA'. by rewrite (Hp _ _ HA), (Hp _ _ HA').
Qed.
Lemma root_holds k j : ~ holds [ {| prefix := []; leaf := None; edges := [] |} ] k j.
Proof. intros ([|[|ni]] & A & nd & _ & Hn & Hl & _); [|done..]. by injection Hn as <-. Qed.

Definition leaves_of (sorted : list Entry) : list Leaf :=
  map (fun e => {| lf_key := fst e; lf_offset := snd e |}) sorted.
Lemma leaves_keys sorted : map lf_key (leaves_of sorted) = map fst sorted.
Proof. unfold leaves_of. by rewrite map_map. Qed.

Lemma ascending_NoDup sorted : ascending sorted -> NoDup (map fst sorted).
Proof.
  unfold ascending. induction 1 as [|k l _ IH Hall]; constructor; [|done].
  intros Hin. rewrite Forall_forall in Hall. by apply (bytes_lt_irrefl k), Hall.
Qed.

Lemma build_nodes sorted : ascending sorted -> 2 * Z.of_nat (length sorted) + 2 <= U32_MAX ->
  sorted <> [] -> exists ns, build sorted = Some {| nodes := ns; leaves := leaves_of sorted |}
    /\ wf ns /\ forall k j, holds ns k j <-> first_leaves (leaves_of sorted) (length sorted) k j.
Proof.
  intros Hs Hb Hne. assert (Hl : length (leaves_of sorted) = length sorted) by apply length_map.
  destruct (insert_all_ok (leaves_of sorted)) with (rest := leaves_of sorted) (n := 0%nat)
    (ns := [ {| prefix := []; leaf := None; edges := [] |} ]) as (ns & Hi & Hw & Hh);
    [by rewrite leaves_keys; apply ascending_NoDup|by rewrite Hl|done|lia|apply root_wf|simpl; lia|..].
  { intros k j. split; [intros H; by apply root_holds in H|]. intros (m & l & ? & _). lia. }
  exists ns. unfold build. fold (leaves_of sorted). rewrite Hi. rewrite Hl in Hh.
  split; [by destruct sorted|done].
Qed.

Lemma leaf_lookup sorted m l : leaves_of sorted !! m = Some l ->
  sorted !! m = Some (lf_key l, lf_offset l).
Proof.
  unfold leaves_of. rewrite list_lookup_fmap. destruct (sorted !! m) as [[k o]|]; [|done].
  by intros [= <-].
Qed.

(** Lookups: only the leaf with the key answers, and its node is reached. *)
Lemma radix_get sorted ns key : ascending sorted -> wf ns ->
  (forall k j, holds ns k j <-> first_leaves (leaves_of sorted) (length sorted) k j) ->
  get {| nodes := ns; leaves := leaves_of sorted |} key = find_key sorted key.
Proof.
  intros Hs Hw Hh.
  unfold get. cbn [nodes].
  assert (Hnil : ns <> []) by (intros ->; pose proof (wf_root _ Hw); simpl in *; lia).
  destruct ns as [|nd0 ns0] eqn:Hns; [done|]. rewrite <- Hns in *. clear Hns nd0 ns0.
  rewrite get_loop_locate. cbn [nodes]. destruct (find_key sorted key) as [o|] eqn:Hf.
  + unfold find_key in Hf. destruct (List.find _ sorted) as [[k o']|] eqn:Hfind; [|done].
    injection Hf as ->. apply List.find_some in Hfind as [Hin Hk].
    unfold bytes_eqb in Hk. apply bool_decide_eq_true in Hk. cbn in Hk. subst k.
    apply list_elem_of_In, list_elem_of_lookup in Hin as [m Hm].
    assert (Hlm : leaves_of sorted !! m = Some {| lf_key := key; lf_offset := o |}).
    { unfold leaves_of. by rewrite list_lookup_fmap, Hm. }
    assert (Hhold : holds ns key (Z.of_nat m)).
    { apply Hh. eexists m, _. split_and!; [by apply lookup_lt_Some in Hm|exact Hlm|done..]. }
    destruct Hhold as (ni & A & nd & HA & Hni & Hleaf & ->).
    rewrite (locate_node ns ni A nd Hw HA Hni), Hni. unfold leaf_offset. rewrite Hleaf. cbn [leaves].
    rewrite Nat2Z.id, Hlm. cbn. unfold bytes_eqb. by rewrite bool_decide_true.
  + destruct (locate _ _ _ _ _) as [nj|]; [|done]. destruct (ns !! nj) as [nd|]; [|done].
    unfold leaf_offset. destruct (leaf nd) as [li|]; [|done]. cbn [leaves].
    destruct (leaves_of sorted !! Z.to_nat li) as [l|] eqn:Hl; [|done].
    unfold bytes_eqb. case_bool_decide as Hk; [|done]. apply leaf_lookup in Hl.
    rewrite Hk in Hl. rewrite (find_key_at _ _ _ _ Hs Hl) in Hf. done.
Qed.

Lemma radix_scan sorted ns after limit : ascending sorted -> sorted <> [] ->
  scan_after {| nodes := ns; leaves := leaves_of sorted |} after limit
  = entries_after sorted after limit.
Proof.
  intros Hs Hne.
  unfold scan_after, entries_after. cbn [leaves].
  destruct limit as [|limit]; [done|]. cbn [Nat.eqb orb].
  assert (Hl : length (leaves_of sorted) = length sorted) by apply length_map. rewrite Hl.
  assert (Hnil : match leaves_of sorted with [] => true | _ => false end = false)
    by by destruct sorted. rewrite Hnil. clear Hl Hnil.
  set (key_at := fun i => lf_key (at_nat {| lf_key := []; lf_offset := 0 |} (leaves_of sorted) i)).
  destruct (scan_start_spec sorted key_at after Hs) as [<- _].
  { intros i [k o] He. unfold key_at. rewrite (at_nat_lookup _ _ i {| lf_key := k; lf_offset := o |}); [done|].
    unfold leaves_of. by rewrite list_lookup_fmap, He. }
  unfold leaves_of. rewrite skipn_map, firstn_map, map_map. cbn [lf_key lf_offset].
  rewrite (map_ext _ id) by by intros []. apply map_id.
Qed.

(** Building never panics, and the tree answers as the sorted entries. *)
Lemma radix_exact sorted : ascending sorted -> 2 * Z.of_nat (length sorted) + 2 <= U32_MAX ->
  exists x, build sorted = Some x /\ OrderedIndex get scan_after x sorted.
Proof.
  intros Hs Hb. destruct (decide (sorted = [])) as [->|Hne].
  { exists {| nodes := []; leaves := [] |}. split; [done|]. split; [done|].
    intros after limit. unfold scan_after, entries_after. cbn. by destruct limit, after. }
  destruct (build_nodes sorted Hs Hb Hne) as (ns & Hbuild & Hw & Hh).
  eexists. split; [done|]. split; [intros; by apply radix_get|intros; by apply radix_scan].
Qed.
