(* ===== verification/HydraMphf.v ===== *)
(** * Hydra: the perfect hash table for point lookups

    Model of [crates/residiuum-store/src/hydra/mphf.rs].  Keys are grouped into
    buckets by one hash; the buckets, largest first, look for a displacement that
    sends their keys to free slots of the table.  A slot keeps a fingerprint and an
    offset, not the key.  [u64] arithmetic wraps; a panic of the construction is
    [None]. *)
From S2P Require Import Prelude HydraSorted.
From Stdlib Require Import SpecFloat.
Open Scope list_scope.
Open Scope Z_scope.

Module Mphf.

Definition EMPTY_DISP : Z := U32_MAX.
Definition BASE_SALT : Z := 0xD160D160D160D160.
Definition GOLDEN : Z := 0x9E3779B97F4A7C15.

Definition wmul (a b : Z) : Z := as_u64 (a * b).

Record t := {
  displacements : list Z; fingerprints : list Z; offsets : list Z; occupied : list byte;
  n_keys : Z; n_buckets : Z; table_size : Z; salt : Z }.

(** ** Hashes *)

Definition hash_bytes (key : list byte) (seed : Z) : Z :=
  fold_left (fun h b => wmul (Z.lxor h (b2z b)) 0x100000001b3) key
    (Z.lxor seed 0xcbf29ce484222325).

Definition mix (x : Z) : Z :=
  let x := wmul (Z.lxor x (Z.shiftr x 30)) 0xbf58476d1ce4e5b9 in
  let x := wmul (Z.lxor x (Z.shiftr x 27)) 0x94d049bb133111eb in
  Z.lxor x (Z.shiftr x 31).

Definition h0 (key : list byte) (salt : Z) : Z :=
  mix (hash_bytes key (Z.lxor salt 0xA5A5A5A5A5A5A5A5)).
Definition h1 (key : list byte) (salt d : Z) : Z :=
  mix (hash_bytes key (Z.lxor salt (wmul d GOLDEN))).
Definition fingerprint (key : list byte) (salt : Z) : Z :=
  mix (hash_bytes key (Z.lxor salt 0xC0FFEE00D15C0001)).

(** The fingerprint as it is stored: zero becomes one. *)
Definition stored_fp (key : list byte) (salt : Z) : Z :=
  let fp := fingerprint key salt in if fp =? 0 then 1 else fp.

Definition next_pow2 (n : Z) : Z := 2 ^ Z.log2_up n.

(** ** The occupancy bitmap *)

Definition get_bit (bits : list byte) (i : nat) : bool :=
  negb (Z.land (b2z (at_nat (z2b 0) bits (i / 8))) (Z.shiftl 1 (Z.of_nat (i mod 8))) =? 0).
Definition set_bit (bits : list byte) (i : nat) : list byte :=
  <[(i / 8)%nat := z2b (Z.lor (b2z (at_nat (z2b 0) bits (i / 8)))
                          (Z.shiftl 1 (Z.of_nat (i mod 8))))]> bits.

(** ** Construction *)

(** 0.85 in binary64. *)
Definition f64_085 : spec_float := S754_finite false 7656119366529843 (-53).
Definition f64_ceil_usize : spec_float -> Z := f64_to (fun a b => (a + b - 1) / b) 0 U64_MAX.

Definition salt_for (n : nat) : Z := Z.lxor BASE_SALT (wmul (Z.of_nat n) GOLDEN).
Definition buckets_for (n : nat) : nat := Nat.max ((n + 3) / 4) 1.
Definition size_for (n : nat) : Z :=
  next_pow2 (Z.max (Z.max (f64_ceil_usize (f64_div (f64_of (Z.of_nat n)) f64_085))
                          (Z.of_nat n + 1)) 8).

(** The arrays under construction. *)
Record Table := {
  disp : list Z; fps : list Z; offs : list Z; occ : list byte }.

Section Build.
Context (sorted : list Entry) (slt : Z) (nb : nat) (ts : Z).

Definition key_of (i : nat) : list byte := fst (at_nat ([], 0) sorted i).
Definition off_of (i : nat) : Z := snd (at_nat ([], 0) sorted i).
Definition bucket_of (key : list byte) : nat := Z.to_nat (h0 key slt mod Z.of_nat nb).
Definition slot_for (key : list byte) (d : Z) : nat := Z.to_nat (h1 key slt d mod ts).

(** The indices of the keys of bucket [b], in order of arrival. *)
Definition bucket (b : nat) : list nat :=
  List.filter (fun i => (bucket_of (key_of i) =? b)%nat) (seq 0 (length sorted)).

Definition order : list nat :=
  sort_by (fun a b => (length (bucket b) ?= length (bucket a))%nat) (seq 0 nb).

(** The slots of a bucket under displacement [d], if all are free and distinct. *)
Fixpoint try_slots (bits : list byte) (d : Z) (kis : list nat) (slots : list nat)
  : option (list nat) :=
  match kis with
  | [] => Some slots
  | ki :: rest =>
      let slot := slot_for (key_of ki) d in
      if get_bit bits slot || existsb (Nat.eqb slot) slots then None
      else try_slots bits d rest (slots ++ [slot])
  end.

Inductive Found : Type := Placed (d : Z) (slots : list nat) | GaveUp.

(** One turn of the displacement loop; [None] goes on to the next [d]. *)
Definition try_disp (bits : list byte) (kis : list nat) (d : Z) : option Found :=
  match try_slots bits d kis [] with
  | Some slots => Some (Placed d slots)
  | None =>
      if (10000 <? d) && (length kis =? 1)%nat then None
      else if 100000 <? d then Some GaveUp
      else None
  end.

(** [for d in from .. from + count] until [step] leaves the loop. *)
Fixpoint search {A} (step : Z -> option A) (count : positive) (from : Z) : option A :=
  match count with
  | xH => step from
  | xO q =>
      match search step q from with
      | Some a => Some a
      | None => search step q (from + Zpos q)
      end
  | xI q =>
      match search step q from with
      | Some a => Some a
      | None =>
          match search step q (from + Zpos q) with
          | Some a => Some a
          | None => step (from + Zpos q + Zpos q)
          end
      end
  end.
Definition DISP_COUNT : positive := 4294967295.

Definition put_key (tb : Table) (ki slot : nat) : Table :=
  {| disp := disp tb; fps := <[slot := stored_fp (key_of ki) slt]> (fps tb);
     offs := <[slot := off_of ki]> (offs tb); occ := set_bit (occ tb) slot |}.
Fixpoint put_keys (tb : Table) (kis slots : list nat) : Table :=
  match kis, slots with
  | ki :: kis', s :: slots' => put_keys (put_key tb ki s) kis' slots'
  | _, _ => tb
  end.

Definition place_bucket (tb : Table) (b : nat) : option Table :=
  match bucket b with
  | [] => Some tb
  | kis =>
      match search (try_disp (occ tb) kis) DISP_COUNT 0 with
      | Some (Placed d slots) =>
          Some (put_keys {| disp := <[b := d]> (disp tb); fps := fps tb; offs := offs tb;
                            occ := occ tb |} kis slots)
      | Some GaveUp | None => None
      end
  end.
Fixpoint place_all (tb : Table) (bs : list nat) : option Table :=
  match bs with
  | [] => Some tb
  | b :: rest =>
      match place_bucket tb b with Some tb' => place_all tb' rest | None => None end
  end.
End Build.

Definition empty_table (nb : nat) (ts : Z) : Table :=
  {| disp := replicate nb EMPTY_DISP; fps := replicate (Z.to_nat ts) 0;
     offs := replicate (Z.to_nat ts) 0; occ := replicate (Z.to_nat ((ts + 7) / 8)) (z2b 0) |}.

Definition build (sorted : list Entry) : option t :=
  let n := length sorted in
  if (n =? 0)%nat then
    Some {| displacements := []; fingerprints := []; offsets := []; occupied := []; n_keys := 0;
            n_buckets := 0; table_size := 0; salt := BASE_SALT |}
  else
    let slt := salt_for n in
    let nb := buckets_for n in
    let ts := size_for n in
    match place_all sorted slt nb ts (empty_table nb ts) (order sorted slt nb) with
    | None => None
    | Some tb =>
        Some {| displacements := disp tb; fingerprints := fps tb; offsets := offs tb;
                occupied := occ tb; n_keys := idx32 n; n_buckets := idx32 nb;
                table_size := as_u32 ts; salt := slt |}
    end.

(** ** Lookup *)

Definition len (x : t) : nat := Z.to_nat (n_keys x).

Definition get (x : t) (key : list byte) : option Z :=
  if n_keys x =? 0 then None
  else
    let d := at_nat 0 (displacements x) (Z.to_nat (h0 key (salt x) mod n_buckets x)) in
    if d =? EMPTY_DISP then None
    else
      let slot := Z.to_nat (h1 key (salt x) d mod table_size x) in
      if negb (get_bit (occupied x) slot) then None
      else if negb (at_nat 0 (fingerprints x) slot =? stored_fp key (salt x)) then None
      else Some (at_nat 0 (offsets x) slot).
End Mphf.

(** * Facts about the perfect hash table

    A table that was built answers every key it holds with its offset; it answers
    another key only when that key has the stored fingerprint of a key it holds. *)
From S2P Require Import HydraSortedFacts.
Open Scope list_scope.
Open Scope Z_scope.

Module MphfFacts.
Import Mphf.

(** ** Bits *)

Lemma b2z_lor_bit b k : 0 <= k < 8 -> b2z (z2b (Z.lor (b2z b) (Z.shiftl 1 k))) = Z.lor (b2z b) (Z.shiftl 1 k).
Proof.
  intros Hk. apply b2z_z2b_small. pose proof (b2z_range b).
  assert (0 <= Z.shiftl 1 k < 2 ^ 8).
  { rewrite Z.shiftl_mul_pow2 by lia. rewrite Z.mul_1_l. split; [lia|]. apply Z.pow_lt_mono_r; lia. }
  split; [apply Z.lor_nonneg; lia|]. change 256 with (2 ^ 8).
  assert (Hlog : forall x, 0 <= x < 2 ^ 8 -> Z.log2 x < 8).
  { intros x Hx. destruct (Z.eq_dec x 0) as [->|]; [done|]. apply Z.log2_lt_pow2; lia. }
  assert (0 <= Z.lor (b2z b) (Z.shiftl 1 k)) by (apply Z.lor_nonneg; lia).
  destruct (Z.eq_dec (Z.lor (b2z b) (Z.shiftl 1 k)) 0) as [->|]; [lia|].
  apply Z.log2_lt_pow2; [lia|]. rewrite Z.log2_lor by lia. apply Z.max_lub_lt; apply Hlog; lia.
Qed.

Lemma land_bit x k : 0 <= k -> negb (Z.land x (Z.shiftl 1 k) =? 0) = Z.testbit x k.
Proof.
  intros Hk. rewrite Z.shiftl_1_l. destruct (Z.testbit x k) eqn:E.
  - apply negb_true_iff, Z.eqb_neq. intros H0.
    assert (Z.testbit (Z.land x (2 ^ k)) k = true) as H1.
    { by rewrite Z.land_spec, E, Z.pow2_bits_true by lia. }
    by rewrite H0, Z.bits_0 in H1.
  - apply negb_false_iff, Z.eqb_eq. apply Z.bits_inj'. intros n Hn.
    rewrite Z.land_spec, Z.bits_0, Z.pow2_bits_eqb by lia.
    destruct (Z.eqb_spec k n) as [->|]; [by rewrite E|by rewrite andb_false_r].
Qed.

Lemma get_bit_testbit bits i :
  get_bit bits i = Z.testbit (b2z (at_nat (z2b 0) bits (i / 8))) (Z.of_nat (i mod 8)).
Proof. unfold get_bit. apply land_bit. lia. Qed.

Lemma length_set_bit bits i : length (set_bit bits i) = length bits.
Proof. apply length_insert. Qed.

Lemma at_nat_insert {A} (d : A) l i j x : (i < length l)%nat ->
  at_nat d (<[i := x]> l) j = if (j =? i)%nat then x else at_nat d l j.
Proof.
  intros Hi. destruct (Nat.eqb_spec j i) as [->|Hne].
  - apply at_nat_lookup. by apply list_lookup_insert_eq.
  - unfold at_nat. rewrite !nth_lookup. by rewrite list_lookup_insert_ne by lia.
Qed.

Lemma get_set_bit bits i j : (i / 8 < length bits)%nat ->
  get_bit (set_bit bits i) j = (j =? i)%nat || get_bit bits j.
Proof.
  intros Hi. rewrite !get_bit_testbit. unfold set_bit. rewrite at_nat_insert by done.
  pose proof (Nat.mod_upper_bound i 8). pose proof (Nat.mod_upper_bound j 8).
  destruct (Nat.eqb_spec (j / 8) (i / 8)) as [Hq|Hq].
  - rewrite b2z_lor_bit by lia. rewrite Z.lor_spec, Z.shiftl_1_l, Z.pow2_bits_eqb by lia. rewrite Hq.
    destruct (Nat.eqb_spec j i) as [->|Hne]; [rewrite Z.eqb_refl; apply orb_true_r|].
    assert (i mod 8 <> j mod 8)%nat.
    { intros Hm. apply Hne. rewrite (Nat.div_mod_eq i 8), (Nat.div_mod_eq j 8). lia. }
    rewrite (proj2 (Z.eqb_neq _ _)) by lia. by rewrite orb_false_r.
  - destruct (Nat.eqb_spec j i) as [->|]; [done|done].
Qed.

(** ** The displacement search *)

Lemma search_sound {A} (step : Z -> option A) count : forall from a,
  search step count from = Some a ->
  exists d, from <= d < from + Zpos count /\ step d = Some a.
Proof.
  induction count as [q IH|q IH|]; intros from a; cbn [search].
  - destruct (search step q from) eqn:E1.
    + intros [= ->]. destruct (IH _ _ E1) as (d & ? & ?). exists d. split; [lia|done].
    + destruct (search step q (from + Zpos q)) eqn:E2.
      * intros [= ->]. destruct (IH _ _ E2) as (d & ? & ?). exists d. split; [lia|done].
      * intros H. eexists. split; [|exact H]. lia.
  - destruct (search step q from) eqn:E1.
    + intros [= ->]. destruct (IH _ _ E1) as (d & ? & ?). exists d. split; [lia|done].
    + intros E2. destruct (IH _ _ E2) as (d & ? & ?). exists d. split; [lia|done].
  - intros H. exists from. split; [lia|done].
Qed.

(** ** The table under construction *)

Section Table.
Context (sorted : list Entry) (slt : Z) (nb : nat) (ts : Z).
Context (Hts : 0 < ts).

Abbreviation key_of := (key_of sorted).
Abbreviation off_of := (off_of sorted).
Abbreviation slot_for := (slot_for slt ts).
Abbreviation bucket := (bucket sorted slt nb).

(** The arrays have room for every slot. *)
Definition sized (tb : Table) : Prop :=
  length (disp tb) = nb /\ length (fps tb) = Z.to_nat ts /\ length (offs tb) = Z.to_nat ts
  /\ (Z.to_nat ts <= 8 * length (occ tb))%nat.

(** Slot [s] keeps key [ki]. *)
Definition slot_view (tb : Table) (s : nat) : bool * Z * Z :=
  (get_bit (occ tb) s, at_nat 0 (fps tb) s, at_nat 0 (offs tb) s).
Definition keeps (tb : Table) (s ki : nat) : Prop :=
  slot_view tb s = (true, stored_fp (key_of ki) slt, off_of ki).

Definition settled (tb : Table) (b : nat) : Prop :=
  bucket b <> [] ->
  exists d, disp tb !! b = Some d /\ d <> EMPTY_DISP
    /\ forall ki, ki ∈ bucket b -> keeps tb (slot_for (key_of ki) d) ki.

Record inv (tb : Table) (done : list nat) : Prop := {
  inv_sized : sized tb;
  inv_settled b : b ∈ done -> settled tb b;
  inv_kept s : (s < Z.to_nat ts)%nat -> get_bit (occ tb) s = true ->
    exists ki, (ki < length sorted)%nat /\ keeps tb s ki }.

Lemma slot_for_lt key d : (slot_for key d < Z.to_nat ts)%nat.
Proof. unfold Mphf.slot_for. pose proof (Z.mod_pos_bound (h1 key slt d) ts Hts). lia. Qed.

Lemma put_key_keeps tb ki s : sized tb -> (s < Z.to_nat ts)%nat ->
  sized (put_key sorted slt tb ki s) /\ keeps (put_key sorted slt tb ki s) s ki
  /\ forall s', s' <> s -> slot_view (put_key sorted slt tb ki s) s' = slot_view tb s'.
Proof.
  intros (Hd & Hf & Ho & Hb) Hs.
  assert (Hdiv : (s / 8 < length (occ tb))%nat) by (apply Nat.Div0.div_lt_upper_bound; lia).
  unfold sized, keeps, slot_view, put_key; cbn [disp fps offs occ]. rewrite length_set_bit, !length_insert.
  rewrite !get_set_bit by done. rewrite !at_nat_insert by lia. rewrite Nat.eqb_refl.
  split_and!; [done..|]. intros s' Hne. rewrite get_set_bit, !at_nat_insert by (done || lia).
  by rewrite (proj2 (Nat.eqb_neq s' s) Hne).
Qed.

Lemma put_keys_keeps kis : forall slots tb, sized tb -> length kis = length slots -> NoDup slots ->
  Forall (fun s => s < Z.to_nat ts)%nat slots ->
  let tb' := put_keys sorted slt tb kis slots in
  sized tb' /\ disp tb' = disp tb
  /\ Forall2 (fun ki s => keeps tb' s ki) kis slots
  /\ forall s, s ∉ slots -> slot_view tb' s = slot_view tb s.
Proof.
  induction kis as [|ki kis IH]; intros [|s slots] tb Hsz Hlen Hnd Hlt; try done; cbn [put_keys].
  apply NoDup_cons in Hnd as [Hni Hnd]. apply Forall_cons in Hlt as [Hs Hlt].
  destruct (put_key_keeps tb ki s Hsz Hs) as (Hsz1 & Hk1 & Hr1).
  simpl in Hlen. destruct (IH slots (put_key sorted slt tb ki s)) as (Hsz2 & Hd2 & Hk2 & Hr2);
    [done|lia|done|done|].
  split_and!; [done|done| |].
  - constructor; [|done]. unfold keeps. by rewrite Hr2.
  - intros s' Hn. apply not_elem_of_cons in Hn as [Hne Hn]. rewrite Hr2 by done. by apply Hr1.
Qed.

Lemma try_slots_spec bits d kis : forall acc slots, try_slots sorted slt ts bits d kis acc = Some slots ->
  NoDup acc ->
  slots = acc ++ map (fun ki => slot_for (key_of ki) d) kis /\ NoDup slots
  /\ forall ki, ki ∈ kis -> get_bit bits (slot_for (key_of ki) d) = false.
Proof.
  induction kis as [|ki kis IH]; intros acc slots; cbn [try_slots].
  - intros [= <-] Hnd. rewrite app_nil_r. split_and!; [done|done|]. by intros ki ?%not_elem_of_nil.
  - destruct (get_bit bits _) eqn:Hb; [done|]. cbn [orb].
    destruct (existsb _ acc) eqn:He; [done|]. intros Hrun Hnd.
    assert (Hni : slot_for (key_of ki) d ∉ acc).
    { intros Hin. rewrite <- not_true_iff_false in He. apply He, existsb_exists.
      exists (slot_for (key_of ki) d). split; [by apply list_elem_of_In|]. apply Nat.eqb_refl. }
    destruct (IH _ _ Hrun) as (Heq & Hnd' & Hfree).
    { apply NoDup_app. split_and!; [done| |apply NoDup_singleton].
      intros x Hx ->%list_elem_of_singleton. done. }
    split_and!; [by rewrite Heq, <- app_assoc|done|].
    intros k [->|Hk]%elem_of_cons; [done|by apply Hfree].
Qed.

Lemma bucket_lt b ki : ki ∈ bucket b -> (ki < length sorted)%nat.
Proof.
  unfold Mphf.bucket. rewrite list_elem_of_In, filter_In. intros [Hin _]. apply in_seq in Hin. lia.
Qed.

(** A displacement that leaves the loop with a placement sends the keys of the
    bucket to free, distinct slots. *)
Lemma found_slots bits kis d slots :
  search (try_disp sorted slt ts bits kis) DISP_COUNT 0 = Some (Placed d slots) ->
  d <> EMPTY_DISP /\ slots = map (fun ki => slot_for (key_of ki) d) kis /\ NoDup slots
  /\ forall ki, ki ∈ kis -> get_bit bits (slot_for (key_of ki) d) = false.
Proof.
  intros (d' & Hr & Hstep)%search_sound. unfold try_disp in Hstep.
  destruct (try_slots _ _ _ _ _ _ _) as [slots'|] eqn:Ht; [|by repeat case_match].
  injection Hstep as -> ->. apply try_slots_spec in Ht as (-> & Hnd & Hfree); [|apply NoDup_nil_2].
  split_and!; [|done..]. unfold EMPTY_DISP, U32_MAX, DISP_COUNT in *. lia.
Qed.

Lemma place_bucket_inv tb b tb' bs : inv tb bs -> (b < nb)%nat -> b ∉ bs ->
  place_bucket sorted slt nb ts tb b = Some tb' -> inv tb' (b :: bs).
Proof.
  intros [Hsz Hset Hkept] Hb Hnb Hp. unfold place_bucket in Hp.
  destruct (bucket b) as [|k0 kis0] eqn:Hbk.
  { injection Hp as <-. split; [done| |done]. intros b' [->|Hin]%elem_of_cons; [|by apply Hset].
    intros Hne. by rewrite Hbk in Hne. }
  destruct (search _ _ _) as [[d slots|]|] eqn:Hs; try done.
  rewrite <- Hbk in *. apply (inj Some) in Hp as <-. apply found_slots in Hs as (Hd & Hslots & Hnd & Hfree).
  set (tb0 := {| disp := <[b := d]> (disp tb); fps := fps tb; offs := offs tb; occ := occ tb |}).
  assert (Hsz0 : sized tb0).
  { destruct Hsz as (? & ?). split; [|done]. unfold tb0. cbn [disp]. by rewrite length_insert. }
  destruct (put_keys_keeps (bucket b) slots tb0 Hsz0) as (Hsz1 & Hd1 & Hk1 & Hr1); [|done| |].
  { by rewrite Hslots, length_map. }
  { rewrite Hslots. apply Forall_fmap, Forall_forall. intros; apply slot_for_lt. }
  set (tb1 := put_keys sorted slt tb0 (bucket b) slots) in *. split; [done| |].
  - intros b' [->|Hin]%elem_of_cons; intros Hne.
    + exists d. split_and!; [|done|].
      { rewrite Hd1. apply list_lookup_insert_eq. destruct Hsz as [-> _]. done. }
      intros ki Hki. apply list_elem_of_lookup in Hki as [i Hi].
      eapply Forall2_lookup_l in Hk1 as (s & Hsi & Hks); [|exact Hi].
      rewrite Hslots, list_lookup_fmap, Hi in Hsi. injection Hsi as <-. done.
    + destruct (Hset b' Hin Hne) as (d' & Hd' & Hne' & Hall). exists d'. split_and!; [|done|].
      { rewrite Hd1. unfold tb0. cbn [disp]. rewrite list_lookup_insert_ne; [done|]. by intros ->. }
      intros ki Hki. specialize (Hall ki Hki). unfold keeps in *. rewrite Hr1; [done|].
      rewrite Hslots. intros (kj & Heq & Hj)%list_elem_of_fmap. specialize (Hfree _ Hj).
      rewrite <- Heq in Hfree. unfold slot_view in Hall. congruence.
  - intros s Hs Hocc. destruct (decide (s ∈ slots)) as [Hin|Hn].
    + apply list_elem_of_lookup in Hin as [i Hi].
      eapply Forall2_lookup_r in Hk1 as (ki & Hki & Hks); [|exact Hi]. exists ki. split; [|done].
      apply (bucket_lt b). apply list_elem_of_lookup. eauto.
    + unfold keeps. rewrite Hr1 by done. apply Hkept; [done|]. specialize (Hr1 s Hn).
      apply (f_equal (fun v => fst (fst v))) in Hr1. unfold slot_view in Hr1. cbn [fst] in Hr1.
      by rewrite <- Hocc, Hr1.
Qed.

Lemma place_all_inv bs : forall tb tb' prev, inv tb prev -> Forall (fun b => b < nb)%nat bs ->
  NoDup bs -> (forall b, b ∈ bs -> b ∉ prev) ->
  place_all sorted slt nb ts tb bs = Some tb' ->
  inv tb' (reverse bs ++ prev).
Proof.
  induction bs as [|b bs IH]; intros tb tb' prev Hi Hlt Hnd Hdisj; cbn [place_all].
  - by intros [= <-].
  - destruct (place_bucket _ _ _ _ tb b) as [tb1|] eqn:Hp; [|done]. intros Hrun.
    apply Forall_cons in Hlt as [Hb Hlt]. apply NoDup_cons in Hnd as [Hni Hnd].
    rewrite reverse_cons, <- app_assoc. apply (IH tb1 tb'); [|done|done| |done].
    + eapply place_bucket_inv; [done|done| |done]. apply Hdisj. by left.
    + intros b' Hb' [->|Hp']%elem_of_cons; [done|]. by apply (Hdisj b'); [right|].
Qed.

Lemma empty_table_inv : inv (empty_table nb ts) [].
Proof.
  split.
  - unfold sized, empty_table. cbn [disp fps offs occ]. rewrite !length_replicate.
    split_and!; [done..|]. pose proof (Z.div_mod (ts + 7) 8). pose proof (Z.mod_pos_bound (ts + 7) 8). lia.
  - by intros b ?%not_elem_of_nil.
  - intros s _. rewrite get_bit_testbit. unfold at_nat, empty_table. cbn [occ].
    rewrite nth_lookup. destruct (replicate _ _ !! _) as [b|] eqn:E.
    + apply lookup_replicate in E as [-> _]. simpl. by rewrite Z.testbit_0_l.
    + simpl. by rewrite Z.testbit_0_l.
Qed.

Lemma order_perm : order sorted slt nb ≡ₚ seq 0 nb.
Proof. apply sort_by_perm. Qed.

Lemma placed_table tb : place_all sorted slt nb ts (empty_table nb ts) (order sorted slt nb) = Some tb ->
  inv tb (seq 0 nb).
Proof.
  intros Hrun. eapply place_all_inv in Hrun; [|apply empty_table_inv|..].
  - destruct Hrun as [H1 H2 H3]. split; [done| |done]. intros b Hb. apply H2.
    rewrite app_nil_r. rewrite elem_of_reverse. by rewrite order_perm.
  - rewrite order_perm. apply Forall_forall. intros b Hb%list_elem_of_In%in_seq. lia.
  - rewrite order_perm. apply NoDup_ListNoDup, seq_NoDup.
  - by intros b _ ?%not_elem_of_nil.
Qed.
End Table.

(** ** The finished table *)

Lemma next_pow2_ge n : 1 <= n -> n <= next_pow2 n.
Proof.
  intros Hn. unfold next_pow2. destruct (Z.eq_dec n 1) as [->|]; [done|].
  apply Z.log2_up_spec. lia.
Qed.
Lemma size_for_gt n : Z.of_nat n < size_for n.
Proof. unfold size_for. eapply Z.lt_le_trans; [|apply next_pow2_ge; lia]. lia. Qed.
Lemma buckets_for_bounds n : (0 < buckets_for n <= S n)%nat.
Proof. unfold buckets_for. pose proof (Nat.Div0.div_mod (n + 3) 4). lia. Qed.

(** What a table that was built is made of: every lookup goes through the bucket
    of the key to a slot of the table. *)
Lemma built_lookup sorted x : build sorted = Some x -> size_for (length sorted) <= U32_MAX ->
  sorted <> [] ->
  let slt := salt_for (length sorted) in
  let nb := buckets_for (length sorted) in
  let ts := size_for (length sorted) in
  exists tb, inv sorted slt nb ts tb (seq 0 nb)
  /\ forall key, get x key =
       let d := at_nat 0 (disp tb) (bucket_of slt nb key) in
       if d =? EMPTY_DISP then None
       else let '(bit, fp, o) := slot_view tb (slot_for slt ts key d) in
         if negb bit then None else if negb (fp =? stored_fp key slt) then None else Some o.
Proof.
  intros Hb Hts Hne slt nb ts. unfold build in Hb.
  pose proof (size_for_gt (length sorted)). pose proof (buckets_for_bounds (length sorted)).
  destruct (Nat.eqb_spec (length sorted) 0) as [E|E]; [by apply length_zero_iff_nil in E|].
  destruct (place_all _ _ _ _ _ _) as [tb|] eqn:Hp; [|done]. apply (inj Some) in Hb as <-.
  exists tb. split; [apply placed_table; [lia|done]|]. intros key. unfold get.
  cbn [n_keys n_buckets table_size displacements fingerprints offsets occupied salt].
  unfold idx32, as_u32. unfold U32_MAX in Hts. rewrite (Z.mod_small (Z.of_nat (length sorted))) by lia.
  rewrite (Z.mod_small (Z.of_nat (buckets_for _))) by lia. rewrite (Z.mod_small (size_for _)) by lia.
  rewrite (proj2 (Z.eqb_neq _ _)) by lia. unfold bucket_of, slot_for, slot_view. fold slt nb ts. cbv zeta.
  by repeat case_match.
Qed.

Lemma bucket_of_lt slt nb key : (0 < nb)%nat -> (bucket_of slt nb key < nb)%nat.
Proof. intros Hnb. unfold bucket_of. pose proof (Z.mod_pos_bound (h0 key slt) (Z.of_nat nb)). lia. Qed.

Lemma mphf_get_present sorted x key o : build sorted = Some x ->
  size_for (length sorted) <= U32_MAX -> (key, o) ∈ sorted -> get x key = Some o.
Proof.
  intros Hb Hts Hin. assert (Hne : sorted <> []) by (by intros ->; apply not_elem_of_nil in Hin).
  destruct (built_lookup sorted x Hb Hts Hne) as (tb & [Hsz Hset Hkept] & ->).
  apply list_elem_of_lookup in Hin as [i Hi]. pose proof (lookup_lt_Some _ _ _ Hi) as Hlt.
  set (nb := buckets_for (length sorted)) in *. set (slt := salt_for (length sorted)) in *.
  assert (Hk : key_of sorted i = key /\ off_of sorted i = o).
  { unfold key_of, off_of. by rewrite (at_nat_lookup _ _ _ _ Hi). }
  destruct Hk as [Hk Ho]. assert (Hbl : (bucket_of slt nb key < nb)%nat).
  { apply bucket_of_lt. pose proof (buckets_for_bounds (length sorted)). unfold nb. lia. }
  assert (Hib : i ∈ bucket sorted slt nb (bucket_of slt nb key)).
  { apply list_elem_of_In, filter_In. split; [apply in_seq; lia|]. by rewrite Hk, Nat.eqb_refl. }
  destruct (Hset (bucket_of slt nb key)) as (d & Hd & Hnd & Hall).
  { apply list_elem_of_In, in_seq. lia. }
  { intros E. rewrite E in Hib. by apply not_elem_of_nil in Hib. }
  cbv zeta. rewrite (at_nat_lookup _ _ _ _ Hd). rewrite (proj2 (Z.eqb_neq _ _) Hnd).
  specialize (Hall i Hib). unfold keeps in Hall. rewrite Hk, Ho in Hall. rewrite Hall. cbn [negb].
  by rewrite Z.eqb_refl.
Qed.

Lemma mphf_get_sound sorted x key o : build sorted = Some x ->
  size_for (length sorted) <= U32_MAX -> get x key = Some o ->
  exists k, (k, o) ∈ sorted
  /\ stored_fp k (salt_for (length sorted)) = stored_fp key (salt_for (length sorted)).
Proof.
  intros Hb Hts Hg. assert (Hne : sorted <> []) by (by intros ->; injection Hb as <-).
  destruct (built_lookup sorted x Hb Hts Hne) as (tb & [Hsz Hset Hkept] & Hget).
  rewrite Hget in Hg. cbv zeta in Hg. clear Hget. case_match; [done|].
  set (s := slot_for _ _ key _) in Hg.
  destruct (slot_view tb s) as [[bit fp] o'] eqn:Hv. destruct bit; [|done]. cbn [negb] in Hg.
  destruct (Z.eqb_spec fp (stored_fp key (salt_for (length sorted)))) as [Hfp|]; [|done].
  cbn [negb] in Hg. injection Hg as ->. destruct (Hkept s) as (ki & Hki & Hks).
  { apply slot_for_lt. pose proof (size_for_gt (length sorted)). lia. }
  { unfold slot_view in Hv. congruence. }
  unfold keeps in Hks. rewrite Hv in Hks. injection Hks as Hf Ho.
  exists (key_of sorted ki). split; [|congruence]. destruct (lookup_lt_is_Some_2 sorted ki Hki) as [e He].
  apply list_elem_of_lookup. exists ki. rewrite He. unfold key_of, off_of in *.
  rewrite (at_nat_lookup _ _ _ _ He) in *. subst. by destruct e.
Qed.
End MphfFacts.
