(* ===== verification/Hydra.v ===== *)
(** * Hydra: the index of a segment and its file

    Model of [crates/residiuum-store/src/hydra/mod.rs]: the five index kinds behind
    one interface, construction from unsorted records, parallel construction of
    many segments, and the binary form of the sidecar files with the body codecs
    of [eytzinger.rs], [pgm.rs], [radix.rs] and [mphf.rs].

    A panic of the code is a value: [None] for construction, [DecodePanic] for the
    decoder.  [Vec::with_capacity] panics when the bytes it asks for exceed
    [isize::MAX].  A read position is the list of bytes that are left. *)
From S2P Require Import Prelude HydraSorted HydraRadix HydraMphf.
Open Scope list_scope.
Open Scope Z_scope.

Record SegmentRecord := { r_key : list byte; r_offset : Z }.

Inductive HydraIndex : Type :=
| IEytzinger (i : Eytzinger.t)
| IPgm (i : Pgm.t)
| IRadixSpline (i : Spline.t)
| ICompressedRadix (i : Radix.t)
| IMphf (i : Mphf.t).

Module Hydra.

Definition kind (x : HydraIndex) : IndexKind :=
  match x with
  | IEytzinger _ => KEytzinger | IPgm _ => KPgm | IRadixSpline _ => KRadixSpline
  | ICompressedRadix _ => KCompressedRadix | IMphf _ => KMphf
  end.
Definition len (x : HydraIndex) : nat :=
  match x with
  | IEytzinger i => Eytzinger.len i | IPgm i => Pgm.len i | IRadixSpline i => Spline.len i
  | ICompressedRadix i => Radix.len i | IMphf i => Mphf.len i
  end.
Definition is_empty (x : HydraIndex) : bool := (len x =? 0)%nat.
Definition get (x : HydraIndex) (key : list byte) : option Z :=
  match x with
  | IEytzinger i => Eytzinger.get i key | IPgm i => Pgm.get i key
  | IRadixSpline i => Spline.get i key | ICompressedRadix i => Radix.get i key
  | IMphf i => Mphf.get i key
  end.
Definition scan_after (x : HydraIndex) (after : option (list byte)) (limit : nat) : list Entry :=
  match x with
  | IEytzinger i => Eytzinger.scan_after i after limit | IPgm i => Pgm.scan_after i after limit
  | IRadixSpline i => Spline.scan_after i after limit
  | ICompressedRadix i => Radix.scan_after i after limit
  | IMphf _ => []
  end.

(** ** Construction *)

(** [BTreeMap::insert], the map as its entries in key order. *)
Fixpoint btree_insert (k : list byte) (v : Z) (m : list Entry) : list Entry :=
  match m with
  | [] => [(k, v)]
  | (k', v') :: rest =>
      match bytes_cmp k k' with
      | Lt => (k, v) :: m
      | Eq => (k, v) :: rest
      | Gt => (k', v') :: btree_insert k v rest
      end
  end.

Definition sort_unique (records : list SegmentRecord) : list Entry :=
  fold_left (fun m r => btree_insert (r_key r) (r_offset r) m) records [].

Definition build_sorted (sorted : list Entry) (opts : HydraBuildOptions) : option HydraIndex :=
  match select_index_kind sorted opts with
  | KEytzinger => IEytzinger <$> Eytzinger.build sorted
  | KPgm => Some (IPgm (Pgm.build sorted (pgm_epsilon opts)))
  | KRadixSpline => Some (IRadixSpline (Spline.build sorted (spline_radix_bits opts)))
  | KCompressedRadix => ICompressedRadix <$> Radix.build sorted
  | KMphf => IMphf <$> Mphf.build sorted
  end.

Definition build (records : list SegmentRecord) (opts : HydraBuildOptions) : option HydraIndex :=
  build_sorted (sort_unique records) opts.

(** ** Parallel construction

    The workers of [build_many] share a counter and a vector of results.  A turn
    of a worker is two steps: [fetch_add] claims a batch, and storing the index
    under the lock. *)

Inductive Worker : Type := Idle | Building (i : nat) | Finished.
#[global] Instance worker_eq_dec : EqDecision Worker.
Proof. solve_decision. Defined.
Record Pool := { next : nat; workers : list Worker; out : list (option HydraIndex) }.

Section BuildMany.
Context (batches : list (list SegmentRecord)) (opts : HydraBuildOptions).

Definition start (threads : nat) : Pool :=
  {| next := 0; workers := replicate threads Idle; out := replicate (length batches) None |}.

Definition claim (p : Pool) (w : nat) : Pool :=
  {| next := S (next p);
     workers := <[w := if (length batches <=? next p)%nat then Finished else Building (next p)]>
                  (workers p);
     out := out p |}.
Definition store (p : Pool) (w i : nat) (idx : HydraIndex) : Pool :=
  {| next := next p; workers := <[w := Idle]> (workers p); out := <[i := Some idx]> (out p) |}.

Inductive pool_step : Pool -> Pool -> Prop :=
| step_claim p w : workers p !! w = Some Idle -> pool_step p (claim p w)
| step_store p w i batch idx : workers p !! w = Some (Building i) -> batches !! i = Some batch ->
    build batch opts = Some idx -> pool_step p (store p w i idx).

(** The scope joins its workers; the results are in batch order. *)
Definition joined (p : Pool) : Prop := Forall (eq Finished) (workers p).
Definition collect (p : Pool) : option (list HydraIndex) := mapM id (out p).

(** The sequential path, for one thread or one batch. *)
Definition build_each : option (list HydraIndex) := mapM (fun b => build b opts) batches.
End BuildMany.

(** ** File form *)

Definition MAGIC : list byte := map z2b [82; 72; 89; 68; 82; 65; 48; 49].
Definition VERSION : Z := 1.

(** Reading. *)
Inductive DecodeError : Type := Unusable | DecodePanic.

Definition read_le (n : nat) (bs : list byte) : result DecodeError (Z * list byte) :=
  if (length bs <? n)%nat then Err Unusable else Ok (le_val (take n bs), drop n bs).
Definition read_bytes (n : nat) (bs : list byte) : result DecodeError (list byte * list byte) :=
  if (length bs <? n)%nat then Err Unusable else Ok (take n bs, drop n bs).

Definition ISIZE_MAX : Z := 2 ^ 63 - 1.
Definition with_capacity (n elem : Z) : result DecodeError unit :=
  if ISIZE_MAX <? n * elem then Err DecodePanic else Ok tt.

(** [for _ in 0..n]: a turn reads at least one byte, so no run takes more turns
    than there are bytes. *)
Fixpoint read_items {A} (fuel : nat) (item : list byte -> result DecodeError (A * list byte))
    (n : Z) (bs : list byte) : result DecodeError (list A * list byte) :=
  if n <=? 0 then Ok ([], bs)
  else match fuel with
  | O => Err Unusable
  | S f =>
      let? '(a, bs1) := item bs in
      let? '(l, bs2) := read_items f item (n - 1) bs1 in
      Ok (a :: l, bs2)
  end.
Definition read_many {A} (item : list byte -> result DecodeError (A * list byte)) (n : Z)
    (bs : list byte) : result DecodeError (list A * list byte) :=
  read_items (length bs) item n bs.

(** Keys and offsets: [encode_kv], [decode_kv] and the loops like them. *)
Definition key_len (k : list byte) : Z :=
  if Z.of_nat (length k) <=? U16_MAX then Z.of_nat (length k) else U16_MAX.
Definition encode_entry (e : Entry) : list byte :=
  le_bytes 2 (key_len (fst e)) ++ take (Z.to_nat (key_len (fst e))) (fst e) ++ le_bytes 8 (snd e).
Definition decode_entry (bs : list byte) : result DecodeError (Entry * list byte) :=
  let? '(kl, bs1) := read_le 2 bs in
  if (length bs1 <? Z.to_nat kl + 8)%nat then Err Unusable
  else
    let? '(k, bs2) := read_bytes (Z.to_nat kl) bs1 in
    let? '(o, bs3) := read_le 8 bs2 in
    Ok ((k, o), bs3).
Definition encode_kv (keys : list (list byte)) (offsets : list Z) : list byte :=
  le_bytes 8 (Z.of_nat (length keys)) ++ concat (map encode_entry (combine keys offsets)).
Definition decode_kv (bs : list byte)
  : result DecodeError (list (list byte) * list Z * list byte) :=
  let? '(n, bs1) := read_le 8 bs in
  let? _ := with_capacity n 24 in
  let? _ := with_capacity n 8 in
  let? '(es, bs2) := read_many decode_entry n bs1 in
  Ok (map fst es, map snd es, bs2).

Definition encode_all (w : nat) (l : list Z) : list byte := concat (map (le_bytes w) l).

Definition encode_eytzinger (i : Eytzinger.t) : list byte :=
  encode_kv (Eytzinger.keys i) (Eytzinger.offsets i)
  ++ encode_all 4 (Eytzinger.sorted_to_eyt i).
Definition decode_eytzinger (bs : list byte) : result DecodeError Eytzinger.t :=
  let? '(ks, os, bs1) := decode_kv bs in
  let? _ := with_capacity (Z.of_nat (length ks)) 4 in
  let? '(ranks, _) := read_many (read_le 4) (Z.of_nat (length ks)) bs1 in
  Ok {| Eytzinger.keys := ks; Eytzinger.offsets := os; Eytzinger.sorted_to_eyt := ranks |}.

(** [i64::to_le_bytes] writes the two's complement. *)
Definition encode_seg (s : Pgm.ModelSeg) : list byte :=
  le_bytes 8 (Pgm.key_lo s) ++ le_bytes 8 (Pgm.slope_q32 s) ++ le_bytes 8 (Pgm.intercept_q32 s)
  ++ le_bytes 4 (Pgm.pos_lo s) ++ le_bytes 4 (Pgm.pos_hi s).
Definition decode_seg (bs : list byte) : result DecodeError (Pgm.ModelSeg * list byte) :=
  if (length bs <? 32)%nat then Err Unusable
  else
    let? '(k, bs1) := read_le 8 bs in
    let? '(s, bs2) := read_le 8 bs1 in
    let? '(i, bs3) := read_le 8 bs2 in
    let? '(lo, bs4) := read_le 4 bs3 in
    let? '(hi, bs5) := read_le 4 bs4 in
    Ok ({| Pgm.key_lo := k; Pgm.slope_q32 := as_i64 s; Pgm.intercept_q32 := as_i64 i;
           Pgm.pos_lo := lo; Pgm.pos_hi := hi |}, bs5).
Definition encode_pgm (i : Pgm.t) : list byte :=
  le_bytes 4 (Pgm.epsilon i) ++ encode_kv (Pgm.keys i) (Pgm.offsets i)
  ++ le_bytes 4 (Z.of_nat (length (Pgm.segments i)))
  ++ concat (map encode_seg (Pgm.segments i)).
Definition decode_pgm (bs : list byte) : result DecodeError Pgm.t :=
  let? '(eps, bs1) := read_le 4 bs in
  let? '(ks, os, bs2) := decode_kv bs1 in
  let? '(nseg, bs3) := read_le 4 bs2 in
  let? '(segs, _) := read_many decode_seg nseg bs3 in
  Ok {| Pgm.keys := ks; Pgm.offsets := os; Pgm.segments := segs; Pgm.epsilon := eps |}.

Definition encode_knot (e : Z * Z) : list byte := le_bytes 4 (fst e) ++ le_bytes 8 (snd e).
Definition decode_knot (bs : list byte) : result DecodeError ((Z * Z) * list byte) :=
  if (length bs <? 12)%nat then Err Unusable
  else
    let? '(p, bs1) := read_le 4 bs in
    let? '(r, bs2) := read_le 8 bs1 in
    Ok ((p, r), bs2).
Definition encode_rs (i : Spline.t) : list byte :=
  z2b (Spline.radix_bits i) :: le_bytes 8 (Spline.min_rank i) ++ le_bytes 8 (Spline.max_rank i)
  ++ encode_kv (Spline.keys i) (Spline.offsets i)
  ++ le_bytes 4 (Z.of_nat (length (Spline.knot_pos i)))
  ++ concat (map encode_knot (combine (Spline.knot_pos i) (Spline.knot_rank i)))
  ++ le_bytes 4 (Z.of_nat (length (Spline.radix_table i)))
  ++ encode_all 4 (Spline.radix_table i).
Definition decode_rs (bs : list byte) : result DecodeError Spline.t :=
  if (length bs <? 17)%nat then Err Unusable
  else
    let? '(bits, bs0) := read_le 1 bs in
    let? '(lo, bs1) := read_le 8 bs0 in
    let? '(hi, bs2) := read_le 8 bs1 in
    let? '(ks, os, bs3) := decode_kv bs2 in
    let? '(nk, bs4) := read_le 4 bs3 in
    let? '(knots, bs5) := read_many decode_knot nk bs4 in
    let? '(nt, bs6) := read_le 4 bs5 in
    let? '(table, _) := read_many (read_le 4) nt bs6 in
    Ok {| Spline.keys := ks; Spline.offsets := os; Spline.knot_pos := map fst knots;
          Spline.knot_rank := map snd knots; Spline.radix_table := table;
          Spline.radix_bits := bits; Spline.min_rank := lo; Spline.max_rank := hi |}.

(** Only the leaves are written; the tree is built again. *)
Definition encode_radix (i : Radix.t) : list byte :=
  le_bytes 8 (Z.of_nat (length (Radix.leaves i)))
  ++ concat (map (fun l => encode_entry (Radix.lf_key l, Radix.lf_offset l)) (Radix.leaves i)).
Definition decode_radix (bs : list byte) : result DecodeError Radix.t :=
  let? '(n, bs1) := read_le 8 bs in
  let? _ := with_capacity n 32 in
  let? '(es, _) := read_many decode_entry n bs1 in
  match Radix.build es with Some i => Ok i | None => Err DecodePanic end.

Definition encode_mphf (i : Mphf.t) : list byte :=
  le_bytes 4 (Mphf.n_keys i) ++ le_bytes 4 (Mphf.n_buckets i) ++ le_bytes 4 (Mphf.table_size i)
  ++ le_bytes 8 (Mphf.salt i)
  ++ encode_all 4 (Mphf.displacements i) ++ encode_all 8 (Mphf.fingerprints i)
  ++ encode_all 8 (Mphf.offsets i)
  ++ le_bytes 4 (Z.of_nat (length (Mphf.occupied i))) ++ Mphf.occupied i.
Definition decode_mphf (bs : list byte) : result DecodeError Mphf.t :=
  if (length bs <? 20)%nat then Err Unusable
  else
    let? '(nk, bs1) := read_le 4 bs in
    let? '(nb, bs2) := read_le 4 bs1 in
    let? '(ts, bs3) := read_le 4 bs2 in
    let? '(slt, bs4) := read_le 8 bs3 in
    let? '(ds, bs5) := read_many (read_le 4) nb bs4 in
    let? '(fs, bs6) := read_many (read_le 8) ts bs5 in
    let? '(os, bs7) := read_many (read_le 8) ts bs6 in
    let? '(ol, bs8) := read_le 4 bs7 in
    let? '(occ, _) := read_bytes (Z.to_nat ol) bs8 in
    Ok {| Mphf.displacements := ds; Mphf.fingerprints := fs; Mphf.offsets := os;
          Mphf.occupied := occ; Mphf.n_keys := nk; Mphf.n_buckets := nb; Mphf.table_size := ts;
          Mphf.salt := slt |}.

Definition encode_body (x : HydraIndex) : list byte :=
  match x with
  | IEytzinger i => encode_eytzinger i | IPgm i => encode_pgm i | IRadixSpline i => encode_rs i
  | ICompressedRadix i => encode_radix i | IMphf i => encode_mphf i
  end.
Definition encode (store_id segment_id : list byte) (x : HydraIndex) : list byte :=
  MAGIC ++ le_bytes 4 VERSION ++ store_id ++ segment_id
  ++ [z2b (index_kind_as_u8 (kind x))] ++ encode_body x.

Definition decode_body (k : IndexKind) (body : list byte) : result DecodeError HydraIndex :=
  match k with
  | KEytzinger => let? i := decode_eytzinger body in Ok (IEytzinger i)
  | KPgm => let? i := decode_pgm body in Ok (IPgm i)
  | KRadixSpline => let? i := decode_rs body in Ok (IRadixSpline i)
  | KCompressedRadix => let? i := decode_radix body in Ok (ICompressedRadix i)
  | KMphf => let? i := decode_mphf body in Ok (IMphf i)
  end.
Definition decode (bytes store_id segment_id : list byte) : result DecodeError HydraIndex :=
  if (length bytes <? 45)%nat then Err Unusable
  else if negb (bytes_eqb (slice 0 8 bytes) MAGIC) then Err Unusable
  else if negb (le_val (slice 8 12 bytes) =? VERSION) then Err Unusable
  else if negb (bytes_eqb (slice 12 28 bytes) store_id) then Err Unusable
  else if negb (bytes_eqb (slice 28 44 bytes) segment_id) then Err Unusable
  else match index_kind_from_u8 (b2z (at_nat (z2b 0) bytes 44)) with
  | None => Err Unusable
  | Some k => decode_body k (drop 45 bytes)
  end.
End Hydra.
