(* ===== verification/HydraFacts.v ===== *)
(** * Facts about the index of a segment

    Construction from unsorted records gives an index that answers with the last
    offset recorded for a key, whatever kind is chosen; parallel construction gives
    what sequential construction gives; a written index is read back. *)
From S2P Require Import Prelude HydraSorted HydraSortedFacts HydraRadix HydraMphf Hydra.
Open Scope list_scope.
Open Scope Z_scope.

Module HydraFacts.
Import Hydra.

(** ** Sorting *)

(** The reference: the last record of a key. *)
Definition latest (records : list SegmentRecord) (key : list byte) : option Z :=
  r_offset <$> List.find (fun r => bytes_eqb (r_key r) key) (reverse records).

Lemma btree_insert_keys k v m x :
  x ∈ map fst (btree_insert k v m) <-> x = k \/ x ∈ map fst m.
Proof.
  induction m as [|[k' v'] m IH]; cbn [btree_insert].
  - simpl. rewrite list_elem_of_singleton. set_solver.
  - destruct (bytes_cmp k k') eqn:E; simpl; rewrite ?elem_of_cons.
    + apply bytes_cmp_Eq in E as ->. set_solver.
    + done.
    + rewrite IH. set_solver.
Qed.

Lemma btree_insert_ascending k v m : ascending m -> ascending (btree_insert k v m).
Proof.
  unfold ascending. induction m as [|[k' v'] m IH]; intros Hs; cbn [btree_insert].
  - simpl. repeat constructor.
  - simpl in Hs. apply StronglySorted_inv in Hs as [Hs Hall].
    destruct (bytes_cmp k k') eqn:E; simpl.
    + apply bytes_cmp_Eq in E as ->. by constructor.
    + constructor; [by constructor|]. constructor; [done|].
      eapply Forall_impl; [exact Hall|]. intros x Hx. by eapply bytes_lt_trans.
    + constructor; [by apply IH|]. apply Forall_forall. intros x [->|Hx]%btree_insert_keys.
      * by apply bytes_cmp_Gt.
      * rewrite Forall_forall in Hall. by apply Hall.
Qed.

Lemma btree_insert_find k v m key : ascending m ->
  find_key (btree_insert k v m) key = if bytes_eqb k key then Some v else find_key m key.
Proof.
  unfold ascending. induction m as [|[k' v'] m IH]; intros Hs; cbn [btree_insert].
  - unfold find_key. simpl. by destruct (bytes_eqb k key).
  - simpl in Hs. apply StronglySorted_inv in Hs as [Hs Hall]. specialize (IH Hs).
    destruct (bytes_cmp k k') eqn:E.
    + apply bytes_cmp_Eq in E as ->. unfold find_key. simpl. by destruct (bytes_eqb k' key).
    + unfold find_key. simpl. by destruct (bytes_eqb k key).
    + unfold find_key in *. simpl. unfold bytes_eqb at 1. case_bool_decide as Hk.
      * subst key. unfold bytes_eqb. rewrite bool_decide_false; [by rewrite bool_decide_true|].
        intros ->. by rewrite bytes_cmp_refl in E.
      * rewrite IH. assert (bytes_eqb k' key = false) as -> by by apply bool_decide_eq_false. done.
Qed.

Lemma sort_unique_ascending records : ascending (sort_unique records).
Proof.
  unfold sort_unique. induction records as [|r l IH] using rev_ind; [constructor|].
  rewrite fold_left_app. by apply btree_insert_ascending.
Qed.

Lemma sort_unique_find records key : find_key (sort_unique records) key = latest records key.
Proof.
  unfold sort_unique. induction records as [|r l IH] using rev_ind; [done|].
  rewrite fold_left_app. cbn [fold_left]. rewrite btree_insert_find; [|apply sort_unique_ascending].
  unfold sort_unique. rewrite IH. unfold latest. rewrite reverse_snoc. simpl.
  by destruct (bytes_eqb (r_key r) key).
Qed.

Lemma btree_insert_length k v m : (length (btree_insert k v m) <= S (length m))%nat.
Proof.
  induction m as [|[k' v'] m IH]; cbn [btree_insert]; [done|].
  destruct (bytes_cmp k k'); simpl; lia.
Qed.
Lemma sort_unique_length records : (length (sort_unique records) <= length records)%nat.
Proof.
  unfold sort_unique. induction records as [|r l IH] using rev_ind; [done|].
  rewrite fold_left_app, length_app. cbn [fold_left length].
  pose proof (btree_insert_length (r_key r) (r_offset r) (sort_unique l)). unfold sort_unique in *. lia.
Qed.

Lemma find_key_elem sorted key o : ascending sorted ->
  find_key sorted key = Some o <-> (key, o) ∈ sorted.
Proof.
  intros Hs. split.
  - unfold find_key. destruct (List.find _ sorted) as [[k o']|] eqn:E; [|done]. intros [= ->].
    apply find_some in E as [Hin Hk]. unfold bytes_eqb in Hk. apply bool_decide_eq_true in Hk.
    simpl in Hk. subst. by apply list_elem_of_In.
  - intros [i Hi]%list_elem_of_lookup. by eapply find_key_at.
Qed.

(** ** Lookups and scans *)

(** Any choice of kind but the perfect hash gives an index of the sorted records. *)
Lemma build_ordered records opts :
  select_index_kind (sort_unique records) opts <> KMphf ->
  (select_index_kind (sort_unique records) opts = KPgm -> 8 <= pgm_epsilon opts) ->
  2 * Z.of_nat (length records) + 2 <= U32_MAX ->
  exists x, build records opts = Some x
    /\ kind x = select_index_kind (sort_unique records) opts
    /\ OrderedIndex get scan_after x (sort_unique records).
Proof.
  intros Hk He Hn. pose proof (sort_unique_ascending records) as Hs.
  pose proof (sort_unique_length records) as Hl. unfold build, build_sorted.
  set (sorted := sort_unique records) in *. destruct (select_index_kind sorted opts); [..|done].
  - destruct (EytzingerFacts.eytzinger_exact sorted Hs) as (x & -> & [Hg Hsc]); [lia|].
    by exists (IEytzinger x).
  - pose proof (pgm_exact sorted (pgm_epsilon opts) Hs (He eq_refl) ltac:(lia)) as [Hg Hsc].
    by exists (IPgm (Pgm.build sorted (pgm_epsilon opts))).
  - pose proof (spline_exact sorted (spline_radix_bits opts) Hs) as [Hg Hsc].
    by exists (IRadixSpline (Spline.build sorted (spline_radix_bits opts))).
  - destruct (radix_exact sorted Hs) as (x & -> & [Hg Hsc]); [lia|].
    by exists (ICompressedRadix x).
Qed.

(** With any error bound the index is built, scans exactly and gives no wrong answer. *)
Lemma build_sound records opts :
  select_index_kind (sort_unique records) opts <> KMphf ->
  2 * Z.of_nat (length records) + 2 <= U32_MAX ->
  exists x, build records opts = Some x
    /\ (forall key o, get x key = Some o -> find_key (sort_unique records) key = Some o)
    /\ (forall after limit, scan_after x after limit = entries_after (sort_unique records) after limit)
    /\ ((select_index_kind (sort_unique records) opts = KPgm -> 8 <= pgm_epsilon opts) ->
        forall key, get x key = find_key (sort_unique records) key).
Proof.
  intros Hk Hn. pose proof (sort_unique_ascending records) as Hs.
  destruct (decide (select_index_kind (sort_unique records) opts = KPgm)) as [Hp|Hp].
  - unfold build, build_sorted. rewrite Hp. eexists. split; [done|].
    split; [intros key o; by apply pgm_sound|].
    split; [intros after limit; by apply scan_sorted_spec|]. intros He.
    pose proof (sort_unique_length records) as Hl.
    by destruct (pgm_exact (sort_unique records) (pgm_epsilon opts) Hs (He eq_refl) ltac:(lia)) as [Hg _].
  - destruct (build_ordered records opts Hk ltac:(done) Hn) as (x & Hx & _ & [Hg Hsc]).
    exists x. split_and!; [done| |done|done]. intros key o. by rewrite Hg.
Qed.

(** ** Parallel construction *)

Section Pool.
Context (batches : list (list SegmentRecord)) (opts : HydraBuildOptions).
Abbreviation n := (length batches).
Abbreviation steps := (pool_step batches opts).

Definition stored (p : Pool) (i : nat) : Prop :=
  exists batch idx, batches !! i = Some batch /\ build batch opts = Some idx
    /\ out p !! i = Some (Some idx).

Record pool_inv (threads : nat) (p : Pool) : Prop := {
  pool_out : length (out p) = n;
  pool_workers : length (workers p) = threads;
  pool_finished w : workers p !! w = Some Finished -> (n <= next p)%nat;
  pool_building w i : workers p !! w = Some (Building i) -> (i < n)%nat;
  pool_claimed i : (i < n)%nat -> (i < next p)%nat ->
    (exists w, workers p !! w = Some (Building i)) \/ stored p i }.

Lemma start_inv threads : pool_inv threads (start batches threads).
Proof.
  split; cbn [start out workers next]; try (intros; lia).
  - apply length_replicate.
  - apply length_replicate.
  - by intros w [? _]%lookup_replicate.
  - by intros w i [? _]%lookup_replicate.
Qed.

Lemma claim_inv threads p w : pool_inv threads p -> workers p !! w = Some Idle ->
  pool_inv threads (claim batches p w).
Proof.
  intros [Ho Hw Hf Hb Hc] Hi. pose proof (lookup_lt_Some _ _ _ Hi) as Hlt.
  split; cbn [claim out workers next]; [done|by rewrite length_insert|..].
  - intros w' Hl. destruct (Nat.leb_spec n (next p)); [lia|].
    apply list_lookup_insert_Some in Hl as [(_ & ? & _)|[_ Hl]]; [done|]. apply Hf in Hl. lia.
  - intros w' i Hl. apply list_lookup_insert_Some in Hl as [(_ & He & _)|[_ Hl]]; [|by eapply Hb].
    destruct (Nat.leb_spec n (next p)); [done|]. injection He as <-. done.
  - intros i Hi' Hn. destruct (decide (i = next p)) as [->|Hne].
    + left. exists w. rewrite list_lookup_insert_eq by done.
      by destruct (Nat.leb_spec n (next p)); [lia|].
    + destruct (Hc i Hi') as [[w' Hw']|Hst]; [lia| |by right]. left. exists w'.
      rewrite list_lookup_insert_ne; [done|]. intros ->. congruence.
Qed.

Lemma store_inv threads p w i batch idx : pool_inv threads p ->
  workers p !! w = Some (Building i) -> batches !! i = Some batch -> build batch opts = Some idx ->
  pool_inv threads (store p w i idx).
Proof.
  intros [Ho Hw Hf Hb Hc] Hi Hbi Hbu. pose proof (lookup_lt_Some _ _ _ Hi) as Hlt.
  pose proof (lookup_lt_Some _ _ _ Hbi) as Hlti.
  split; cbn [store out workers next]; [by rewrite length_insert|by rewrite length_insert|..].
  - intros w' Hl. apply list_lookup_insert_Some in Hl as [(_ & ? & _)|[_ Hl]]; [done|by eapply Hf].
  - intros w' j Hl. apply list_lookup_insert_Some in Hl as [(_ & ? & _)|[_ Hl]]; [done|by eapply Hb].
  - intros j Hj Hn. destruct (decide (j = i)) as [->|Hne].
    + right. exists batch, idx. split_and!; [done|done|]. cbn [store out].
      apply list_lookup_insert_eq. lia.
    + destruct (Hc j Hj Hn) as [[w' Hw']|(b' & x' & Hb' & Hx' & Hst)].
      * left. exists w'. rewrite list_lookup_insert_ne; [done|]. intros ->. congruence.
      * right. exists b', x'. split_and!; [done|done|]. cbn [store out]. by rewrite list_lookup_insert_ne.
Qed.

Lemma pool_reachable_inv threads p : rtc steps (start batches threads) p -> pool_inv threads p.
Proof.
  revert p. apply (rtc_ind_r _ (start batches threads)); [apply start_inv|]. intros p p' _ Hs IH.
  inversion Hs; subst; [by apply claim_inv|by eapply store_inv].
Qed.

(** Every step uses up a part of the work. *)
Definition weight (w : Worker) : nat := match w with Idle => 1 | Building _ => 2 | Finished => 0 end.
Definition work_left (p : Pool) : nat := sum_list_with weight (workers p) + 2 * (n - next p).

Lemma sum_insert (l : list Worker) w x y : l !! w = Some x ->
  (sum_list_with weight (<[w := y]> l) + weight x = sum_list_with weight l + weight y)%nat.
Proof.
  revert w. induction l as [|z l IH]; intros [|w]; cbn -[weight]; try done.
  - intros [= ->]. lia.
  - intros H. specialize (IH _ H). rewrite <- !Nat.add_assoc. f_equal. exact IH.
Qed.

Lemma step_works p p' : steps p p' -> work_left p = S (work_left p').
Proof.
  intros [q w H|q w i batch idx H]; unfold work_left.
  - cbn [claim workers next]. pose proof (sum_insert (workers q) w Idle
      (if (n <=? next q)%nat then Finished else Building (next q)) H) as Hs.
    destruct (Nat.leb_spec n (next q)); cbn [weight] in Hs; lia.
  - cbn [store workers next]. pose proof (sum_insert (workers q) w (Building i) Idle H) as Hs.
    cbn [weight] in Hs. lia.
Qed.

Lemma steps_bound k p p' : nsteps steps k p p' -> work_left p = (k + work_left p')%nat.
Proof.
  intros H. induction H as [|k p1 p2 p3 Hs Hr IH]; [done|]. rewrite (step_works _ _ Hs), IH. lia.
Qed.

Lemma start_work threads : work_left (start batches threads) = (threads + 2 * n)%nat.
Proof.
  unfold work_left. cbn [start workers next]. assert (sum_list_with weight (replicate threads Idle) = threads) as ->.
  { induction threads as [|k IH]; cbn; [done|]. by rewrite IH. }
  lia.
Qed.

Lemma joined_out threads p : pool_inv threads p -> (1 <= threads)%nat -> joined p ->
  forall i, (i < n)%nat -> stored p i.
Proof.
  intros Hi Ht Hj i Hlt. unfold joined in Hj. rewrite Forall_forall in Hj.
  destruct (lookup_lt_is_Some_2 (workers p) 0) as [w0 Hw0]; [rewrite (pool_workers _ _ Hi); lia|].
  assert (w0 = Finished) as ->. { symmetry. apply Hj, list_elem_of_lookup. eauto. }
  pose proof (pool_finished _ _ Hi _ Hw0).
  destruct (pool_claimed _ _ Hi i Hlt) as [[w Hw]|?]; [lia| |done].
  exfalso. assert (Finished = Building i) by (apply Hj, list_elem_of_lookup; eauto). done.
Qed.

Lemma joined_collect threads p : pool_inv threads p -> (1 <= threads)%nat -> joined p ->
  collect p = build_each batches opts.
Proof.
  intros Hi Ht Hj. pose proof (joined_out threads p Hi Ht Hj) as Hout.
  pose proof (pool_out _ _ Hi) as Hlen. unfold collect, build_each. clear Hi Hj.
  assert (H2 : Forall2 (fun o b => o = build b opts) (out p) batches).
  { apply Forall2_same_length_lookup. split; [done|]. intros i o b Ho Hb.
    destruct (Hout i) as (b' & idx & Hb' & Hx & Ho'); [by eapply lookup_lt_Some|]. congruence. }
  clear -H2. induction H2 as [|o b os bs -> _ IH]; [done|]. simpl.
  destruct (build b opts) as [x|]; simpl; [|done]. exact (f_equal (fun o => o ≫= fun k => mret (x :: k)) IH).
Qed.

Lemma pool_progress threads p : pool_inv threads p ->
  Forall (fun b => is_Some (build b opts)) batches -> ~ joined p -> exists p', steps p p'.
Proof.
  intros Hi Hok Hj. unfold joined in Hj. apply not_Forall_Exists in Hj; [|apply _].
  apply Exists_exists in Hj as (w & Hin & Hne). apply list_elem_of_lookup in Hin as [k Hk].
  destruct w as [|i|]; [eexists; by apply (step_claim _ _ p k)| |by destruct Hne].
  destruct (lookup_lt_is_Some_2 batches i) as [b Hb]; [by eapply pool_building|].
  rewrite Forall_forall in Hok. destruct (Hok b) as [idx Hx]; [apply list_elem_of_lookup; eauto|].
  eexists. by eapply step_store.
Qed.
End Pool.
End HydraFacts.

(** ** Claims *)

Import Hydra HydraFacts.


(** Records used by the witnesses: a key written twice. *)
Definition sample_records : list SegmentRecord :=
  [ {| r_key := [z2b 98]; r_offset := 10 |}; {| r_key := [z2b 97]; r_offset := 20 |};
    {| r_key := [z2b 98; z2b 1]; r_offset := 30 |}; {| r_key := [z2b 98]; r_offset := 40 |} ].
Definition radix_options : HydraBuildOptions := {|
  point_only := false; tiny_threshold := 1; pgm_epsilon := 32; spline_radix_bits := 8;
  force_kind := None |}.
Definition point_options : HydraBuildOptions := {|
  point_only := true; tiny_threshold := 1; pgm_epsilon := 32; spline_radix_bits := 8;
  force_kind := None |}.


(** A point-only index answers every recorded key with its last offset; an
    answer for any other key is the offset of a recorded key that has the same
    64-bit fingerprint, never anything else. *)
Theorem hydra_point_index records opts x :
  build records opts = Some x -> kind x = KMphf ->
  Mphf.size_for (length (sort_unique records)) <= U32_MAX ->
  (forall key o, latest records key = Some o -> get x key = Some o)
  /\ (forall key o, get x key = Some o -> exists k, latest records k = Some o
        /\ Mphf.stored_fp k (Mphf.salt_for (length (sort_unique records)))
            = Mphf.stored_fp key (Mphf.salt_for (length (sort_unique records))))
  /\ forall after limit, scan_after x after limit = [].
Proof.
  intros Hb Hk Hts. destruct x as [| | | |i]; try done. unfold build, build_sorted in Hb.
  pose proof (sort_unique_ascending records) as Hs.
  destruct (select_index_kind _ opts); [by apply fmap_Some in Hb as (? & _ & ?)|done|done|by apply fmap_Some in Hb as (? & _ & ?)|].
  apply fmap_Some in Hb as (i' & Hb & [= <-]). split_and!; [..|done].
  - intros key o Hl. apply (MphfFacts.mphf_get_present (sort_unique records)); [done|done|].
    apply find_key_elem; [done|]. by rewrite sort_unique_find.
  - intros key o Hg. destruct (MphfFacts.mphf_get_sound _ _ _ _ Hb Hts Hg) as (k & Hin & Hfp).
    exists k. split; [|done]. rewrite <- sort_unique_find. by apply find_key_elem.
Qed.

Lemma hydra_point_index_witness :
  exists x, build sample_records point_options = Some x /\ get x [z2b 98] = Some 40.
Proof.
  destruct (build sample_records point_options) as [x|] eqn:Hb; [|vm_compute in Hb; discriminate].
  exists x. split; [reflexivity|]. destruct (hydra_point_index sample_records point_options x Hb) as [Hg _].
  - assert (Hk : kind <$> build sample_records point_options = Some KMphf) by (vm_compute; reflexivity).
    rewrite Hb in Hk. injection Hk as Hk. exact Hk.
  - vm_compute. discriminate.
  - apply Hg. vm_compute. reflexivity.
Defined.

(** Building the indexes of many segments in parallel is building them one by
    one: whatever the interleaving of the workers, a run that has joined holds the
    index of every batch in batch order; no run takes more than one step per
    worker and two per batch; and a run that has not joined can go on. *)
Theorem build_many_sequential batches opts threads :
  (1 <= threads)%nat -> Forall (fun b => is_Some (build b opts)) batches ->
  (forall p, rtc (pool_step batches opts) (start batches threads) p ->
     (joined p -> collect p = build_each batches opts)
     /\ (~ joined p -> exists p', pool_step batches opts p p'))
  /\ forall k p, nsteps (pool_step batches opts) k (start batches threads) p ->
     (k <= threads + 2 * length batches)%nat.
Proof.
  intros Ht Hok. split.
  - intros p Hr. apply pool_reachable_inv in Hr. split; [by apply (joined_collect _ _ threads)|].
    by apply (pool_progress _ _ threads).
  - intros k p Hr. apply steps_bound in Hr. rewrite start_work in Hr. lia.
Qed.

Lemma build_many_sequential_witness :
  Forall (fun b => is_Some (build b default_options)) [sample_records; []]
  /\ forall p, rtc (pool_step [sample_records; []] default_options)
                 (start [sample_records; []] 2) p -> joined p ->
       exists x y, collect p = Some [x; y] /\ get x [z2b 98] = Some 40.
Proof.
  assert (Hok : Forall (fun b => is_Some (build b default_options)) [sample_records; []]).
  { apply Forall_cons; split; [vm_compute; eauto|]. apply Forall_cons; split; [vm_compute; eauto|].
    apply Forall_nil. exact I. }
  split; [exact Hok|]. intros p Hr Hj.
  destruct (build_many_sequential [sample_records; []] default_options 2 ltac:(lia) Hok) as [H _].
  destruct (H p Hr) as [Hc _]. rewrite (Hc Hj). unfold build_each.
  destruct (build sample_records default_options) as [x|] eqn:Hx; [|vm_compute in Hx; discriminate].
  destruct (build [] default_options) as [y|] eqn:Hy; [|vm_compute in Hy; discriminate].
  exists x, y. split.
  { apply mapM_Some. apply Forall2_cons; split; [exact Hx|]. apply Forall2_cons; split; [exact Hy|].
    apply Forall2_nil. exact I. }
  assert (Hg : ((fun i => get i [z2b 98]) <$> build sample_records default_options) = Some (Some 40))
    by (vm_compute; reflexivity).
  rewrite Hx in Hg. injection Hg as Hg. exact Hg.
Defined.
