(* ===== verification/HydraCodecFacts.v ===== *)
(** * Facts about the index files

    An index that was built is read back from its file as it was. *)
From S2P Require Import Prelude HydraSorted HydraSortedFacts HydraRadix HydraMphf Hydra HydraFacts.
Open Scope list_scope.
Open Scope Z_scope.

Module HydraCodecFacts.
Import Hydra HydraFacts.

(** ** Reading what was written *)

Lemma read_le_app n z r : 0 <= z < 256 ^ Z.of_nat n -> read_le n (le_bytes n z ++ r) = Ok (z, r).
Proof.
  intros Hz. unfold read_le. rewrite length_app, length_le_bytes.
  rewrite (proj2 (Nat.ltb_ge _ _)) by lia.
  rewrite take_app_length', drop_app_length' by (by rewrite length_le_bytes). by rewrite le_val_bytes_small.
Qed.
Lemma read_bytes_app n b r : length b = n -> read_bytes n (b ++ r) = Ok (b, r).
Proof.
  intros <-. unfold read_bytes. rewrite length_app, (proj2 (Nat.ltb_ge _ _)) by lia.
  by rewrite take_app_length, drop_app_length.
Qed.

Section Many.
Context {A : Type} (item : list byte -> result DecodeError (A * list byte)) (enc : A -> list byte).

Lemma read_items_app l : forall fuel r, (forall a r, a ∈ l -> item (enc a ++ r) = Ok (a, r)) ->
  (length l <= fuel)%nat ->
  read_items fuel item (Z.of_nat (length l)) (concat (map enc l) ++ r) = Ok (l, r).
Proof.
  induction l as [|a l IH]; intros fuel r Hi Hf; [by destruct fuel|].
  destruct fuel as [|fuel]; [simpl in Hf; lia|]. cbn [read_items length map concat].
  rewrite (proj2 (Z.leb_gt _ _)) by lia. rewrite <- app_assoc, Hi by set_solver.
  replace (Z.of_nat (S (length l)) - 1) with (Z.of_nat (length l)) by lia.
  rewrite IH; [done|set_solver|simpl in Hf; lia].
Qed.

Lemma read_many_app l r n : (forall a r, a ∈ l -> item (enc a ++ r) = Ok (a, r)) ->
  (forall a, (1 <= length (enc a))%nat) -> n = Z.of_nat (length l) ->
  read_many item n (concat (map enc l) ++ r) = Ok (l, r).
Proof.
  intros Hi Hne ->. apply read_items_app; [done|]. rewrite length_app.
  assert (length l <= length (concat (map enc l)))%nat; [|lia].
  clear Hi. induction l as [|a l IH]; [done|]. cbn [map concat length]. rewrite length_app.
  specialize (Hne a). lia.
Qed.
End Many.

Definition le_fits (w : nat) (z : Z) : Prop := 0 <= z < 256 ^ Z.of_nat w.

Lemma read_all_app w l r n : (1 <= w)%nat -> Forall (le_fits w) l -> n = Z.of_nat (length l) ->
  read_many (read_le w) n (encode_all w l ++ r) = Ok (l, r).
Proof.
  intros Hw Hl Hn. apply read_many_app; [|intros; by rewrite length_le_bytes|done].
  intros a r' Ha. apply read_le_app. rewrite Forall_forall in Hl. by apply Hl.
Qed.

(** ** Entries *)

Definition entry_fits (e : Entry) : Prop := Z.of_nat (length (fst e)) <= U16_MAX /\ in_u64 (snd e).

Lemma decode_entry_app e r : entry_fits e -> decode_entry (encode_entry e ++ r) = Ok (e, r).
Proof.
  destruct e as [k o]. intros [Hk Ho]. unfold encode_entry, decode_entry, key_len. cbn [fst snd] in *.
  rewrite (proj2 (Z.leb_le _ _)) by done. rewrite Nat2Z.id, firstn_all, <- !app_assoc.
  rewrite read_le_app by (unfold U16_MAX in *; simpl; lia). rewrite Nat2Z.id.
  rewrite !length_app, length_le_bytes, (proj2 (Nat.ltb_ge _ _)) by lia.
  rewrite read_bytes_app by done.
  by rewrite read_le_app by (unfold in_u64, U64_MAX in *; simpl; lia).
Qed.
Lemma encode_entry_nonempty e : (1 <= length (encode_entry e))%nat.
Proof. unfold encode_entry. rewrite !length_app, !length_le_bytes. lia. Qed.

Lemma with_capacity_ok n elem : n * elem <= ISIZE_MAX -> with_capacity n elem = Ok tt.
Proof. intros H. unfold with_capacity. by rewrite (proj2 (Z.ltb_ge _ _)). Qed.

Lemma combine_split {A B} (ks : list A) (os : list B) : length ks = length os ->
  map fst (combine ks os) = ks /\ map snd (combine ks os) = os.
Proof.
  revert os. induction ks as [|k ks IH]; intros [|o os] H; try done. simpl.
  destruct (IH os) as [-> ->]; [simpl in H; lia|]. done.
Qed.

Definition key_fits (k : list byte) : Prop := Z.of_nat (length k) <= U16_MAX.

Lemma combine_fits ks os : Forall key_fits ks -> Forall in_u64 os -> Forall entry_fits (combine ks os).
Proof.
  intros Hk Ho. apply Forall_forall. intros [k o] Hin%list_elem_of_In. rewrite Forall_forall in Hk. rewrite Forall_forall in Ho.
  split; [apply Hk|apply Ho]; apply list_elem_of_In; [by eapply in_combine_l|by eapply in_combine_r].
Qed.

Lemma decode_kv_app ks os r : length ks = length os -> Forall key_fits ks -> Forall in_u64 os ->
  Z.of_nat (length ks) <= U32_MAX ->
  decode_kv (encode_kv ks os ++ r) = Ok (ks, os, r).
Proof.
  intros Hl Hk Ho Hn. unfold encode_kv, decode_kv. rewrite <- app_assoc.
  unfold U32_MAX in Hn. rewrite read_le_app by (simpl; lia).
  rewrite !with_capacity_ok by (unfold ISIZE_MAX; lia).
  pose proof (combine_fits ks os Hk Ho) as Hf. destruct (combine_split ks os Hl) as [Hfst Hsnd].
  rewrite (read_many_app decode_entry encode_entry (combine ks os));
    [by rewrite Hfst, Hsnd| |apply encode_entry_nonempty|rewrite length_combine; lia].
  intros e r' He. apply decode_entry_app. rewrite Forall_forall in Hf. by apply Hf.
Qed.

Lemma in_u32_fits z : in_u32 z -> le_fits 4 z.
Proof. unfold in_u32, le_fits, U32_MAX. simpl. lia. Qed.
Lemma in_u64_fits z : in_u64 z -> le_fits 8 z.
Proof. unfold in_u64, le_fits, U64_MAX. simpl. lia. Qed.
Lemma idx32_in_u32 i : in_u32 (idx32 i).
Proof.
  unfold idx32, as_u32, in_u32, U32_MAX. pose proof (Z.mod_pos_bound (Z.of_nat i) (2 ^ 32)). lia.
Qed.
Lemma as_i64_round z : - 2 ^ 63 <= z < 2 ^ 63 -> as_i64 (z mod 2 ^ 64) = z.
Proof.
  intros Hz. unfold as_i64. rewrite Zplus_mod_idemp_l. rewrite Z.mod_small; lia.
Qed.

(** ** Eytzinger *)

Record eyt_fits (i : Eytzinger.t) : Prop := {
  eyt_offsets : length (Eytzinger.keys i) = length (Eytzinger.offsets i);
  eyt_ranks : length (Eytzinger.keys i) = length (Eytzinger.sorted_to_eyt i);
  eyt_count : Z.of_nat (length (Eytzinger.keys i)) <= U32_MAX;
  eyt_keys_fit : Forall key_fits (Eytzinger.keys i);
  eyt_offsets_fit : Forall in_u64 (Eytzinger.offsets i);
  eyt_ranks_fit : Forall in_u32 (Eytzinger.sorted_to_eyt i) }.

Lemma eyt_roundtrip i : eyt_fits i -> decode_eytzinger (encode_eytzinger i) = Ok i.
Proof.
  intros [Ho Hr Hn Hkf Hof Hrf]. unfold encode_eytzinger, decode_eytzinger.
  rewrite decode_kv_app by done. unfold U32_MAX in Hn.
  rewrite with_capacity_ok by (unfold ISIZE_MAX; lia).
  rewrite <- (app_nil_r (encode_all 4 _)).
  rewrite read_all_app; [by destruct i|lia| |by rewrite Hr]. eapply Forall_impl; [exact Hrf|apply in_u32_fits].
Qed.

Lemma inorder_fits sorted n fuel : Forall entry_fits sorted -> Z.of_nat n <= U32_MAX ->
  forall e w w', Eytzinger.inorder fuel sorted n e w = Some w' ->
  let mk w := {| Eytzinger.keys := Eytzinger.w_keys w; Eytzinger.offsets := Eytzinger.w_offsets w;
                 Eytzinger.sorted_to_eyt := Eytzinger.w_sorted_to_eyt w |} in
  eyt_fits (mk w) -> eyt_fits (mk w').
Proof.
  intros Hs Hn. cbv zeta. induction fuel as [|f IH]; intros e w w'; cbn [Eytzinger.inorder]; [done|].
  destruct (n <=? e)%nat; [by intros [= <-]|].
  destruct (Eytzinger.inorder f sorted n (2 * e + 1) w) as [w1|] eqn:H1; [|done].
  destruct (sorted !! Eytzinger.next w1) as [[k o]|] eqn:Hk; [|done]. intros H2 Hw.
  apply IH in H1; [|done]. eapply IH; [exact H2|]. destruct H1 as [Ho Hr Hc Hkf Hof Hrf].
  rewrite Forall_forall in Hs. destruct (Hs (k, o)) as [Hk1 Ho1]; [apply list_elem_of_lookup; eauto|].
  split; cbn [Eytzinger.keys Eytzinger.offsets Eytzinger.sorted_to_eyt Eytzinger.w_keys
    Eytzinger.w_offsets Eytzinger.w_sorted_to_eyt] in *; rewrite ?length_insert; try done;
    apply Forall_insert; (done || apply idx32_in_u32).
Qed.

Lemma eyt_built sorted i : Forall entry_fits sorted -> Z.of_nat (length sorted) <= U32_MAX ->
  Eytzinger.build sorted = Some i -> eyt_fits i.
Proof.
  intros Hs Hn. unfold Eytzinger.build. destruct (Eytzinger.inorder _ _ _ _ _) as [w|] eqn:Hw; [|done].
  intros [= <-]. eapply inorder_fits in Hw; [exact Hw|done|done|].
  split; cbn [Eytzinger.keys Eytzinger.offsets Eytzinger.sorted_to_eyt Eytzinger.w_keys
    Eytzinger.w_offsets Eytzinger.w_sorted_to_eyt]; rewrite ?length_replicate; try done;
    apply Forall_replicate; done.
Qed.

(** ** PGM *)

Record seg_fits (s : Pgm.ModelSeg) : Prop := {
  seg_key : in_u64 (Pgm.key_lo s);
  seg_slope : - 2 ^ 63 <= Pgm.slope_q32 s < 2 ^ 63;
  seg_intercept : - 2 ^ 63 <= Pgm.intercept_q32 s < 2 ^ 63;
  seg_lo : in_u32 (Pgm.pos_lo s);
  seg_hi : in_u32 (Pgm.pos_hi s) }.

Lemma le_bytes_mod n z : le_bytes n (z mod 256 ^ Z.of_nat n) = le_bytes n z.
Proof.
  rewrite <- (le_val_bytes n z). rewrite <- (length_le_bytes n z) at 1. apply le_bytes_val.
Qed.

Lemma decode_seg_app s r : seg_fits s -> decode_seg (encode_seg s ++ r) = Ok (s, r).
Proof.
  intros [Hk Hs Hi Hl Hh]. unfold encode_seg, decode_seg.
  rewrite !length_app, !length_le_bytes. rewrite (proj2 (Nat.ltb_ge _ _)) by lia.
  rewrite <- (le_bytes_mod 8 (Pgm.slope_q32 s)), <- (le_bytes_mod 8 (Pgm.intercept_q32 s)).
  change (256 ^ Z.of_nat 8) with (2 ^ 64). rewrite <- !app_assoc.
  rewrite read_le_app by (apply in_u64_fits; done).
  rewrite read_le_app by (apply Z.mod_pos_bound; done).
  rewrite read_le_app by (apply Z.mod_pos_bound; done).
  rewrite !read_le_app by (apply in_u32_fits; done). rewrite !as_i64_round by done. by destruct s.
Qed.

Record pgm_fits (i : Pgm.t) : Prop := {
  pgm_offsets : length (Pgm.keys i) = length (Pgm.offsets i);
  pgm_count : Z.of_nat (length (Pgm.keys i)) <= U32_MAX;
  pgm_seg_count : Z.of_nat (length (Pgm.segments i)) <= U32_MAX;
  pgm_eps : in_u32 (Pgm.epsilon i);
  pgm_keys_fit : Forall key_fits (Pgm.keys i);
  pgm_offsets_fit : Forall in_u64 (Pgm.offsets i);
  pgm_segs_fit : Forall seg_fits (Pgm.segments i) }.

Lemma pgm_roundtrip i : pgm_fits i -> decode_pgm (encode_pgm i) = Ok i.
Proof.
  intros [Ho Hn Hc He Hkf Hof Hsf]. unfold encode_pgm, decode_pgm.
  rewrite read_le_app by (by apply in_u32_fits). rewrite decode_kv_app by done.
  rewrite read_le_app by (apply in_u32_fits; unfold in_u32; lia).
  rewrite <- (app_nil_r (concat _)). rewrite (read_many_app decode_seg encode_seg); [by destruct i|..|done].
  - intros s r Hs. apply decode_seg_app. rewrite Forall_forall in Hsf. by apply Hsf.
  - intros s. unfold encode_seg. rewrite !length_app, !length_le_bytes. lia.
Qed.

Lemma be_u64_in_u64 k : in_u64 (be_u64 k).
Proof.
  unfold be_u64, in_u64, U64_MAX. destruct (Nat.eqb_spec (length k) 8) as [E8|].
  { pose proof (be_val_range k). rewrite E8 in *. simpl in *. lia. }
  destruct (Nat.eqb_spec (length k) 4) as [E4|].
  { pose proof (be_val_range k). rewrite E4 in *. simpl in *. lia. }
  cbv zeta. set (b := take _ _ ++ _). pose proof (be_val_range b) as Hb.
  assert (length b = 8%nat) as E.
  { unfold b. rewrite length_app, length_take, length_replicate. lia. }
  rewrite E in Hb. simpl in Hb. lia.
Qed.
Lemma ranks_in_u64 ks i : in_u64 (at_nat 0 (map be_u64 ks) i).
Proof.
  unfold at_nat. rewrite nth_lookup, list_lookup_fmap. destruct (ks !! i); simpl; [apply be_u64_in_u64|done].
Qed.
Lemma as_i64_range z : - 2 ^ 63 <= as_i64 z < 2 ^ 63.
Proof. unfold as_i64. pose proof (Z.mod_pos_bound (z + 2 ^ 63) (2 ^ 64)). lia. Qed.

Lemma make_seg_fits ks lo hi : seg_fits (Pgm.make_seg (map be_u64 ks) lo hi).
Proof.
  unfold Pgm.make_seg. destruct (_ || _); split; cbn [Pgm.key_lo Pgm.slope_q32 Pgm.intercept_q32 Pgm.pos_lo Pgm.pos_hi];
    try apply ranks_in_u64; try apply as_i64_range; try apply idx32_in_u32; lia.
Qed.

Lemma segment_loop_fits ks eps fuel : forall start,
  Forall seg_fits (Pgm.segment_loop fuel (map be_u64 ks) eps start)
  /\ (length (Pgm.segment_loop fuel (map be_u64 ks) eps start) <= fuel)%nat.
Proof.
  induction fuel as [|f IH]; intros start; cbn [Pgm.segment_loop]; [split; [constructor|done]|].
  destruct (_ <? _)%nat; [|split; [constructor|simpl; lia]].
  destruct (IH (Pgm.grow (length (map be_u64 ks)) (map be_u64 ks) eps start (S start))) as [Hf Hl].
  split; [constructor; [apply make_seg_fits|done]|cbn [length]; lia].
Qed.

Lemma sorted_fits sorted : Forall entry_fits sorted ->
  Forall key_fits (map fst sorted) /\ Forall in_u64 (map snd sorted).
Proof.
  intros H. split; apply Forall_fmap; (eapply Forall_impl; [exact H|]); by intros [k o] [Hk Ho].
Qed.

Lemma pgm_built sorted eps : Forall entry_fits sorted -> Z.of_nat (length sorted) < U32_MAX ->
  in_u32 eps -> pgm_fits (Pgm.build sorted eps).
Proof.
  intros Hs Hn He. destruct (sorted_fits sorted Hs) as [Hk Ho].
  destruct (segment_loop_fits (map fst sorted) (Z.max eps 1) (S (length (map be_u64 (map fst sorted)))) 0)
    as [Hsf Hsl]. rewrite !length_map in Hsl.
  split; cbn [Pgm.build Pgm.keys Pgm.offsets Pgm.segments Pgm.epsilon]; try done.
  - by rewrite !length_map.
  - rewrite length_map. lia.
  - unfold Pgm.build_pgm_segments. rewrite !length_map. lia.
  - unfold in_u32, U32_MAX in *. lia.
Qed.

(** ** RadixSpline *)

Record rs_fits (i : Spline.t) : Prop := {
  rs_offsets : length (Spline.keys i) = length (Spline.offsets i);
  rs_knots : length (Spline.knot_pos i) = length (Spline.knot_rank i);
  rs_count : Z.of_nat (length (Spline.keys i)) <= U32_MAX;
  rs_knot_count : Z.of_nat (length (Spline.knot_pos i)) <= U32_MAX;
  rs_table_count : Z.of_nat (length (Spline.radix_table i)) <= U32_MAX;
  rs_bits : in_u8 (Spline.radix_bits i);
  rs_min : in_u64 (Spline.min_rank i);
  rs_max : in_u64 (Spline.max_rank i);
  rs_keys_fit : Forall key_fits (Spline.keys i);
  rs_offsets_fit : Forall in_u64 (Spline.offsets i);
  rs_pos_fit : Forall in_u32 (Spline.knot_pos i);
  rs_rank_fit : Forall in_u64 (Spline.knot_rank i);
  rs_table_fit : Forall in_u32 (Spline.radix_table i) }.

Lemma decode_knot_app p q r : in_u32 p -> in_u64 q ->
  decode_knot (encode_knot (p, q) ++ r) = Ok ((p, q), r).
Proof.
  intros Hp Hq. unfold encode_knot, decode_knot. cbn [fst snd].
  rewrite !length_app, !length_le_bytes, (proj2 (Nat.ltb_ge _ _)) by lia. rewrite <- app_assoc.
  rewrite read_le_app by (by apply in_u32_fits). by rewrite read_le_app by (by apply in_u64_fits).
Qed.

Lemma rs_roundtrip i : rs_fits i -> decode_rs (encode_rs i) = Ok i.
Proof.
  intros []. unfold encode_rs, decode_rs.
  change (z2b (Spline.radix_bits i) :: ?l) with (le_bytes 1 (Spline.radix_bits i) ++ l).
  rewrite !length_app, !length_le_bytes, (proj2 (Nat.ltb_ge _ _)) by lia.
  rewrite read_le_app by (unfold in_u8, U8_MAX in *; simpl; lia).
  rewrite !read_le_app by (by apply in_u64_fits). rewrite decode_kv_app by done.
  rewrite read_le_app by (apply in_u32_fits; unfold in_u32; lia).
  destruct (combine_split (Spline.knot_pos i) (Spline.knot_rank i)) as [Hfst Hsnd]; [done|].
  rewrite (read_many_app decode_knot encode_knot).
  - rewrite read_le_app by (apply in_u32_fits; unfold in_u32; lia).
    rewrite <- (app_nil_r (encode_all 4 _)). rewrite read_all_app; [|lia| |done].
    + rewrite Hfst, Hsnd. by destruct i.
    + eapply Forall_impl; [eassumption|apply in_u32_fits].
  - intros [p q] r Hin%list_elem_of_In. rewrite Forall_forall in rs_pos_fit0.
    rewrite Forall_forall in rs_rank_fit0. apply decode_knot_app.
    + apply rs_pos_fit0, list_elem_of_In. by eapply in_combine_l.
    + apply rs_rank_fit0, list_elem_of_In. by eapply in_combine_r.
  - intros [p q]. unfold encode_knot. rewrite length_app, !length_le_bytes. lia.
  - rewrite length_combine. lia.
Qed.

Lemma knots_length n step : (length (Spline.knots n step) <= S (S n))%nat.
Proof.
  assert (H : forall fuel p, (length (Spline.knot_loop fuel n step p) <= fuel)%nat).
  { induction fuel as [|f IH]; intros p; cbn [Spline.knot_loop]; [done|].
    destruct (p <? n)%nat; [|simpl; lia]. destruct (_ =? _)%nat; simpl; [lia|].
    apply le_n_S, IH. }
  unfold Spline.knots. specialize (H (S n) 0%nat). destruct (last _); [destruct (_ =? _)%nat|]; try lia.
  rewrite length_app. cbn [length]. lia.
Qed.

Lemma fill_table_fits bucket nk bs k :
  Forall in_u32 (Spline.fill_table bucket nk bs k) /\ length (Spline.fill_table bucket nk bs k) = length bs.
Proof.
  revert k. induction bs as [|b bs IH]; intros k; cbn [Spline.fill_table]; [split; [constructor|done]|].
  destruct (IH (Spline.advance nk bucket nk (Z.of_nat b) k)) as [Hf Hl].
  split; [constructor; [apply idx32_in_u32|done]|simpl; by rewrite Hl].
Qed.

Lemma rs_built sorted bits : Forall entry_fits sorted -> Z.of_nat (length sorted) + 2 <= U32_MAX ->
  rs_fits (Spline.build sorted bits).
Proof.
  intros Hs Hn. destruct (sorted_fits sorted Hs) as [Hk Ho]. unfold Spline.build.
  assert (Hc : 4 <= clamp bits 4 16 <= 16) by (unfold clamp; repeat case_match; lia).
  destruct (length sorted =? 0)%nat; split;
    cbn [Spline.keys Spline.offsets Spline.knot_pos Spline.knot_rank Spline.radix_table
         Spline.radix_bits Spline.min_rank Spline.max_rank]; try done; rewrite ?length_map;
    try (unfold in_u8, U8_MAX; lia); try apply ranks_in_u64; try (apply Forall_fmap, Forall_forall; intros x _).
  - pose proof (knots_length (length sorted)
      (Z.to_nat (clamp (f64_as_usize (f64_sqrt (f64_of (Z.of_nat (length sorted))))) 16 256))). lia.
  - rewrite (proj2 (fill_table_fits _ _ _ _)), length_seq. rewrite Z.shiftl_1_l, Z2Nat.id by lia.
    transitivity (2 ^ 16); [apply Z.pow_le_mono_r; lia|done].
  - apply idx32_in_u32.
  - apply ranks_in_u64.
  - apply fill_table_fits.
Qed.

(** ** Compressed radix *)

Lemma radix_roundtrip sorted i : Forall entry_fits sorted -> Z.of_nat (length sorted) <= U32_MAX ->
  Radix.build sorted = Some i -> decode_radix (encode_radix i) = Ok i.
Proof.
  intros Hs Hn Hb. assert (Hl : Radix.leaves i
    = map (fun e => {| Radix.lf_key := fst e; Radix.lf_offset := snd e |}) sorted).
  { unfold Radix.build in Hb. destruct sorted; [by injection Hb as <-|]. by case_match; simplify_eq. }
  unfold encode_radix, decode_radix. rewrite Hl, length_map, map_map. unfold U32_MAX in Hn.
  rewrite read_le_app by (simpl; lia). rewrite with_capacity_ok by (unfold ISIZE_MAX; lia).
  rewrite <- (app_nil_r (concat _)).
  rewrite (map_ext _ encode_entry) by (by intros [k o]).
  rewrite (read_many_app decode_entry encode_entry sorted); [by rewrite Hb| |apply encode_entry_nonempty|done].
  intros e r He. apply decode_entry_app. rewrite Forall_forall in Hs. by apply Hs.
Qed.

(** ** Perfect hash *)

Record mphf_fits (i : Mphf.t) : Prop := {
  mp_buckets : Mphf.n_buckets i = Z.of_nat (length (Mphf.displacements i));
  mp_fps : Mphf.table_size i = Z.of_nat (length (Mphf.fingerprints i));
  mp_offs : Mphf.table_size i = Z.of_nat (length (Mphf.offsets i));
  mp_occ : Z.of_nat (length (Mphf.occupied i)) <= U32_MAX;
  mp_keys_fit : in_u32 (Mphf.n_keys i);
  mp_buckets_fit : in_u32 (Mphf.n_buckets i);
  mp_size_fit : in_u32 (Mphf.table_size i);
  mp_salt_fit : in_u64 (Mphf.salt i);
  mp_disp_fit : Forall in_u32 (Mphf.displacements i);
  mp_fps_fit : Forall in_u64 (Mphf.fingerprints i);
  mp_offs_fit : Forall in_u64 (Mphf.offsets i) }.

Lemma mphf_roundtrip i : mphf_fits i -> decode_mphf (encode_mphf i) = Ok i.
Proof.
  intros []. unfold encode_mphf, decode_mphf.
  rewrite !length_app, !length_le_bytes, (proj2 (Nat.ltb_ge _ _)) by lia.
  rewrite !read_le_app by (by apply in_u32_fits). rewrite read_le_app by (by apply in_u64_fits).
  rewrite read_all_app; [|lia|by eapply Forall_impl; [|apply in_u32_fits]|done].
  rewrite read_all_app; [|lia|by eapply Forall_impl; [|apply in_u64_fits]|done].
  rewrite read_all_app; [|lia|by eapply Forall_impl; [|apply in_u64_fits]|done].
  rewrite read_le_app by (apply in_u32_fits; unfold in_u32; lia). rewrite Nat2Z.id.
  rewrite <- (app_nil_r (Mphf.occupied i)) at 2. rewrite read_bytes_app by done. by destruct i.
Qed.

Lemma lxor_in_u64 a b : in_u64 a -> in_u64 b -> in_u64 (Z.lxor a b).
Proof.
  unfold in_u64. change U64_MAX with (2 ^ 64 - 1). intros Ha Hb.
  assert (H0 : 0 <= Z.lxor a b) by (apply Z.lxor_nonneg; lia). split; [done|].
  destruct (Z.eq_dec (Z.lxor a b) 0) as [->|]; [lia|].
  enough (Z.lxor a b < 2 ^ 64) by lia. apply Z.log2_lt_pow2; [lia|].
  eapply Z.le_lt_trans; [apply Z.log2_lxor; lia|]. apply Z.max_lub_lt.
  - destruct (Z.eq_dec a 0) as [->|]; [done|]. apply Z.log2_lt_pow2; lia.
  - destruct (Z.eq_dec b 0) as [->|]; [done|]. apply Z.log2_lt_pow2; lia.
Qed.
Lemma wmul_in_u64 a b : in_u64 (Mphf.wmul a b).
Proof.
  unfold Mphf.wmul, as_u64, in_u64, U64_MAX. pose proof (Z.mod_pos_bound (a * b) (2 ^ 64)). lia.
Qed.
Lemma shiftr_in_u64 a k : 0 <= k -> in_u64 a -> in_u64 (Z.shiftr a k).
Proof.
  unfold in_u64. intros Hk Ha. rewrite Z.shiftr_div_pow2 by done.
  pose proof (Z.pow_pos_nonneg 2 k). split; [apply Z.div_pos; lia|].
  apply Z.div_le_upper_bound; [lia|]. unfold U64_MAX in *. nia.
Qed.
Lemma mix_in_u64 x : in_u64 (Mphf.mix x).
Proof.
  unfold Mphf.mix. cbv zeta. apply lxor_in_u64; [apply wmul_in_u64|].
  apply shiftr_in_u64; [lia|apply wmul_in_u64].
Qed.
Lemma stored_fp_in_u64 k slt : in_u64 (Mphf.stored_fp k slt).
Proof. unfold Mphf.stored_fp. cbv zeta. case_match; [done|apply mix_in_u64]. Qed.
Lemma salt_for_in_u64 n : in_u64 (Mphf.salt_for n).
Proof. apply lxor_in_u64; [done|apply wmul_in_u64]. Qed.

Section Place.
Context (sorted : list Entry) (slt : Z) (nb : nat) (ts : Z) (Hs : Forall entry_fits sorted).

Record table_fits (ocl : nat) (tb : Mphf.Table) : Prop := {
  tf_disp : Forall in_u32 (Mphf.disp tb);
  tf_fps : Forall in_u64 (Mphf.fps tb);
  tf_offs : Forall in_u64 (Mphf.offs tb);
  tf_occ : length (Mphf.occ tb) = ocl }.

Lemma off_of_fits i : in_u64 (Mphf.off_of sorted i).
Proof.
  unfold Mphf.off_of, at_nat. rewrite nth_lookup. destruct (sorted !! i) as [e|] eqn:E; [|done].
  rewrite Forall_forall in Hs. apply Hs, list_elem_of_lookup. eauto.
Qed.

Lemma put_keys_fits ocl kis : forall slots tb, table_fits ocl tb ->
  table_fits ocl (Mphf.put_keys sorted slt tb kis slots).
Proof.
  induction kis as [|ki kis IH]; intros [|s slots] tb Ht; cbn [Mphf.put_keys]; try done.
  apply IH. destruct Ht. split; cbn [Mphf.put_key Mphf.disp Mphf.fps Mphf.offs Mphf.occ]; [done|..].
  - apply Forall_insert; [done|apply stored_fp_in_u64].
  - apply Forall_insert; [done|apply off_of_fits].
  - by rewrite MphfFacts.length_set_bit.
Qed.

Lemma place_all_fits ocl bs : forall tb tb', table_fits ocl tb ->
  Mphf.place_all sorted slt nb ts tb bs = Some tb' -> table_fits ocl tb'.
Proof.
  induction bs as [|b bs IH]; intros tb tb' Ht; cbn [Mphf.place_all]; [by intros [= <-]|].
  destruct (Mphf.place_bucket _ _ _ _ tb b) as [tb1|] eqn:Hp; [|done]. apply IH.
  unfold Mphf.place_bucket in Hp. destruct (Mphf.bucket _ _ _ b) as [|k0 kis0]; [by injection Hp as <-|].
  destruct (Mphf.search _ _ _) as [[d slots|]|] eqn:Hsr; try done. apply (inj Some) in Hp as <-.
  apply put_keys_fits. destruct Ht. split; cbn [Mphf.disp Mphf.fps Mphf.offs Mphf.occ]; try done.
  apply Forall_insert; [done|]. apply MphfFacts.search_sound in Hsr as (d' & Hr & Hst).
  unfold Mphf.try_disp in Hst. repeat case_match; simplify_eq. unfold in_u32, U32_MAX, Mphf.DISP_COUNT in *. lia.
Qed.
End Place.

Lemma empty_table_fits nb ts : table_fits (Z.to_nat ((ts + 7) / 8)) (Mphf.empty_table nb ts).
Proof.
  split; cbn [Mphf.empty_table Mphf.disp Mphf.fps Mphf.offs Mphf.occ];
    [by apply Forall_replicate..|apply length_replicate].
Qed.

Lemma mphf_built sorted i : Forall entry_fits sorted -> Mphf.size_for (length sorted) <= U32_MAX ->
  Mphf.build sorted = Some i -> mphf_fits i.
Proof.
  intros Hs Hts. unfold Mphf.build. destruct (Nat.eqb_spec (length sorted) 0) as [|Hne].
  { intros [= <-]. by split. }
  pose proof (MphfFacts.size_for_gt (length sorted)) as Hgt.
  pose proof (MphfFacts.buckets_for_bounds (length sorted)) as Hbb.
  destruct (Mphf.place_all _ _ _ _ _ _) as [tb|] eqn:Hp; [|done]. intros [= <-].
  pose proof (place_all_fits _ _ _ _ Hs _ _ _ _ (empty_table_fits _ _) Hp) as [Hd Hf Ho Hc].
  apply MphfFacts.placed_table in Hp as [(Ld & Lf & Lo & _) _ _]; [|lia].
  unfold idx32, as_u32, U32_MAX in *.
  split; cbn [Mphf.n_buckets Mphf.n_keys Mphf.table_size Mphf.salt Mphf.displacements
    Mphf.fingerprints Mphf.offsets Mphf.occupied]; try done; rewrite ?Z.mod_small by lia;
    rewrite ?Ld, ?Lf, ?Lo; try lia; try (unfold in_u32, U32_MAX; lia).
  - rewrite Hc. assert ((Mphf.size_for (length sorted) + 7) / 8 <= 4294967295); [|unfold U32_MAX; lia].
    apply Z.div_le_upper_bound; lia.
  - apply salt_for_in_u64.
Qed.

(** ** Files *)

Lemma kind_code k : index_kind_from_u8 (b2z (z2b (index_kind_as_u8 k))) = Some k.
Proof. by destruct k. Qed.

Lemma decode_header sid seg k body : length sid = 16%nat -> length seg = 16%nat ->
  decode (MAGIC ++ le_bytes 4 VERSION ++ sid ++ seg ++ [z2b (index_kind_as_u8 k)] ++ body) sid seg
  = decode_body k body.
Proof.
  intros Hsid Hseg. set (whole := MAGIC ++ _). unfold decode.
  assert (Hlen : length whole = (45 + length body)%nat).
  { unfold whole. rewrite !length_app, length_le_bytes, Hsid, Hseg. done. }
  rewrite Hlen, (proj2 (Nat.ltb_ge _ _)) by lia.
  assert (Hcut : forall a b p q, whole = p ++ q -> length p = a -> slice a b whole = take (b - a) q).
  { intros a b p q -> <-. unfold slice. by rewrite drop_app_length. }
  rewrite (Hcut 0%nat 8%nat [] whole) by done. unfold whole at 1. rewrite take_app_length' by done.
  rewrite (Hcut 8%nat 12%nat MAGIC _ eq_refl eq_refl). rewrite take_app_length' by (by rewrite length_le_bytes).
  rewrite (Hcut 12%nat 28%nat (MAGIC ++ le_bytes 4 VERSION) (sid ++ seg ++ [z2b (index_kind_as_u8 k)] ++ body));
    [|by unfold whole; rewrite <- app_assoc|by rewrite length_app, length_le_bytes].
  rewrite take_app_length' by (by rewrite Hsid).
  rewrite (Hcut 28%nat 44%nat (MAGIC ++ le_bytes 4 VERSION ++ sid) (seg ++ [z2b (index_kind_as_u8 k)] ++ body));
    [|by unfold whole; rewrite <- !app_assoc|by rewrite !length_app, length_le_bytes, Hsid].
  rewrite take_app_length' by (by rewrite Hseg). unfold bytes_eqb. rewrite !bool_decide_true by done.
  rewrite le_val_bytes_small by done. cbn [negb].
  assert (Hw : whole = (MAGIC ++ le_bytes 4 VERSION ++ sid ++ seg) ++ z2b (index_kind_as_u8 k) :: body).
  { unfold whole. by rewrite <- !app_assoc. }
  assert (Hl : length (MAGIC ++ le_bytes 4 VERSION ++ sid ++ seg) = 44%nat).
  { by rewrite !length_app, length_le_bytes, Hsid, Hseg. }
  assert (at_nat (z2b 0) whole 44 = z2b (index_kind_as_u8 k)) as ->.
  { apply at_nat_lookup. rewrite Hw. by apply list_lookup_middle. }
  rewrite kind_code. change (VERSION =? VERSION) with true. cbn [negb]. f_equal.
  rewrite Hw, cons_middle, app_assoc. apply drop_app_length'. rewrite length_app, Hl. done.
Qed.

Lemma body_roundtrip sorted opts x : Forall entry_fits sorted -> Z.of_nat (length sorted) + 2 <= U32_MAX ->
  in_u32 (pgm_epsilon opts) -> Mphf.size_for (length sorted) <= U32_MAX ->
  build_sorted sorted opts = Some x -> decode_body (kind x) (encode_body x) = Ok x.
Proof.
  intros Hs Hn He Hts Hb. unfold build_sorted in Hb. destruct (select_index_kind sorted opts).
  - apply fmap_Some in Hb as (i & Hb & ->). cbn [kind decode_body encode_body].
    rewrite eyt_roundtrip; [done|]. eapply eyt_built; [done| |done]. lia.
  - injection Hb as <-. cbn [kind decode_body encode_body].
    rewrite pgm_roundtrip; [done|]. apply pgm_built; [done|lia|done].
  - injection Hb as <-. cbn [kind decode_body encode_body].
    rewrite rs_roundtrip; [done|]. by apply rs_built.
  - apply fmap_Some in Hb as (i & Hb & ->). cbn [kind decode_body encode_body].
    rewrite (radix_roundtrip sorted); [done|done|lia|done].
  - apply fmap_Some in Hb as (i & Hb & ->). cbn [kind decode_body encode_body].
    rewrite mphf_roundtrip; [done|]. by eapply mphf_built.
Qed.

Definition record_fits (r : SegmentRecord) : Prop := entry_fits (r_key r, r_offset r).

Lemma sort_unique_fits records : Forall record_fits records -> Forall entry_fits (sort_unique records).
Proof.
  intros Hr. apply Forall_forall. intros [k o] Hin. apply find_key_elem in Hin; [|apply sort_unique_ascending].
  rewrite sort_unique_find in Hin. unfold latest in Hin. apply fmap_Some in Hin as (r & Hf & ->).
  apply find_some in Hf as [Hin Hk]. unfold bytes_eqb in Hk. apply bool_decide_eq_true in Hk as <-.
  rewrite Forall_forall in Hr. apply (Hr r), elem_of_reverse, list_elem_of_In. exact Hin.
Qed.
End HydraCodecFacts.

(** ** Claims *)

Import Hydra HydraFacts HydraCodecFacts.

(** An index file is read back as the index that was written, for all five
    kinds, for the store and segment it was written for, when keys have at most 65535
    bytes and the counts fit their fields. *)
Theorem hydra_file_roundtrip records opts x sid seg :
  build records opts = Some x -> length sid = 16%nat -> length seg = 16%nat ->
  Forall record_fits records -> in_u32 (pgm_epsilon opts) ->
  Z.of_nat (length records) + 2 <= U32_MAX ->
  Mphf.size_for (length (sort_unique records)) <= U32_MAX ->
  decode (encode sid seg x) sid seg = Ok x.
Proof.
  intros Hb Hsid Hseg Hr He Hn Hts. unfold encode. rewrite decode_header by done.
  eapply body_roundtrip; [by apply sort_unique_fits| |done|done|exact Hb].
  pose proof (sort_unique_length records). lia.
Qed.

Lemma hydra_file_roundtrip_witness :
  exists x, build sample_records point_options = Some x
  /\ decode (encode (replicate 16 (z2b 1)) (replicate 16 (z2b 2)) x)
       (replicate 16 (z2b 1)) (replicate 16 (z2b 2)) = Ok x.
Proof.
  destruct (build sample_records point_options) as [x|] eqn:Hb; [|vm_compute in Hb; discriminate].
  exists x. split; [reflexivity|].
  apply (hydra_file_roundtrip sample_records point_options x _ _ Hb); [reflexivity|reflexivity| | | |];
    [|split; vm_compute; discriminate|vm_compute; discriminate|vm_compute; discriminate].
  repeat (apply Forall_cons; split; [split; [|split]; vm_compute; discriminate|]). apply Forall_nil. exact I.
Defined.

(** A file whose entry count is out of proportion makes the reader panic while it
    reserves memory, although unusable files are meant to be passed over. *)
Example decode_reserves_unchecked :
  decode (MAGIC ++ le_bytes 4 VERSION ++ replicate 16 (z2b 1) ++ replicate 16 (z2b 2)
          ++ [z2b 1] ++ le_bytes 8 (2 ^ 60)) (replicate 16 (z2b 1)) (replicate 16 (z2b 2))
  = Err DecodePanic.
Proof. vm_compute. reflexivity. Qed.
