(* ===== verification/HeapFrames.v ===== *)
(** * Ownership of frames

    Model of the format crate's [envelope_keys.rs], [ownership.rs],
    [subject_v2.rs], [admit.rs] and [events.rs]: which heap a frame belongs to,
    whether it is admitted into a mounted heap, and how frames that carry one
    event identifier relate.

    Identities are byte strings; where the code has an array type their length
    is checked when they are read. *)
From S2P Require Import Prelude Cbor Frame.
Open Scope list_scope.
Open Scope Z_scope.

(** ** Envelope keys ([envelope_keys.rs]) *)

Definition ENV_HEAP_ID : Z := 31.
Definition ENV_COLLECTION_ID : Z := 32.
Definition ENV_STREAM_ID : Z := 33.
Definition ENV_OWNERSHIP_PROFILE : Z := 34.
Definition ENV_SOURCE_HEAP_ID : Z := 35.
Definition ENV_SOURCE_OBJECT_ID : Z := 36.
Definition ENV_ATOMIC_ID : Z := 37.
Definition ENV_ATOMIC_ORDINAL : Z := 38.
Definition ENV_ATOMIC_CONTENT_ROOT : Z := 39.
Definition ENV_ATOMIC_COMMIT_POSITION : Z := 40.
Definition ENV_OPERATION_ID : Z := 41.
Definition ENV_OPERATION_CONTENT_HASH : Z := 42.

Definition is_atomic_extension_key (key : Z) : bool :=
  (ENV_ATOMIC_ID <=? key) && (key <=? ENV_ATOMIC_COMMIT_POSITION).
Definition is_ownership_key (key : Z) : bool :=
  (ENV_HEAP_ID <=? key) && (key <=? ENV_SOURCE_OBJECT_ID).

(** ** Ownership ([ownership.rs]) *)

Definition OWNERSHIP_PROFILE_V1 : Z := 1.

Inductive OwnershipEvidence : Type :=
| Known (heap_id : list byte) (profile : Z) (collection_id stream_id : option (list byte))
| UnknownOwner.

Inductive OwnershipError : Type :=
| OEnvelope (e : CborEnvelopeError)
| OConflict
| OUnknownKey (key : Z)
| OBadProfile
| OBadLength.

#[global] Instance OwnershipEvidence_eq_dec : EqDecision OwnershipEvidence.
Proof. solve_decision. Defined.
#[global] Instance OwnershipError_eq_dec : EqDecision OwnershipError.
Proof. solve_decision. Defined.

Definition expect_b16 (v : CborValue) : result OwnershipError (list byte) :=
  match v with
  | Bytes b => if (length b =? 16)%nat then Ok b else Err OBadLength
  | _ => Err OBadLength
  end.

(** The fields collected while walking the envelope. *)
Record OwnerFields := {
  of_heap : option (list byte);
  of_profile : option Z;
  of_collection : option (list byte);
  of_stream : option (list byte) }.
Definition no_fields : OwnerFields :=
  {| of_heap := None; of_profile := None; of_collection := None; of_stream := None |}.

Definition take_field (f : OwnerFields) (e : Z * CborValue) : result OwnershipError OwnerFields :=
  let '(k, v) := e in
  if (1 <=? k) && (k <=? 30) then Ok f
  else if k =? ENV_HEAP_ID then
    let? b := expect_b16 v in
    Ok {| of_heap := Some b; of_profile := of_profile f; of_collection := of_collection f;
          of_stream := of_stream f |}
  else if k =? ENV_COLLECTION_ID then
    let? b := expect_b16 v in
    Ok {| of_heap := of_heap f; of_profile := of_profile f; of_collection := Some b;
          of_stream := of_stream f |}
  else if k =? ENV_STREAM_ID then
    let? b := expect_b16 v in
    Ok {| of_heap := of_heap f; of_profile := of_profile f; of_collection := of_collection f;
          of_stream := Some b |}
  else if k =? ENV_OWNERSHIP_PROFILE then
    match v with
    | Uint u => Ok {| of_heap := of_heap f; of_profile := Some u;
                      of_collection := of_collection f; of_stream := of_stream f |}
    | _ => Err OBadLength
    end
  else if (k =? ENV_SOURCE_HEAP_ID) || (k =? ENV_SOURCE_OBJECT_ID) then Ok f
  else if is_atomic_extension_key k then Ok f
  else if (k =? ENV_OPERATION_ID) || (k =? ENV_OPERATION_CONTENT_HASH) then Ok f
  else Err (OUnknownKey k).

Fixpoint take_fields (f : OwnerFields) (es : list (Z * CborValue))
  : result OwnershipError OwnerFields :=
  match es with
  | [] => Ok f
  | e :: rest => let? f' := take_field f e in take_fields f' rest
  end.

Definition parse_ownership_envelope (bytes : list byte) : result OwnershipError OwnershipEvidence :=
  if bytes_eqb bytes EMPTY_ENVELOPE then Ok UnknownOwner
  else
    match decode_deterministic_uint_map bytes with
    | Err e => Err (OEnvelope e)
    | Ok es =>
        let? f := take_fields no_fields es in
        match of_heap f, of_profile f with
        | Some heap_id, Some profile =>
            if negb (profile =? OWNERSHIP_PROFILE_V1) then Err OBadProfile
            else Ok (Known heap_id profile (of_collection f) (of_stream f))
        | _, _ => Ok UnknownOwner
        end
    end.

Definition encode_heap_binding_envelope (heap_id : list byte) : result CborEnvelopeError (list byte) :=
  encode_deterministic_uint_map
    [(ENV_HEAP_ID, Bytes heap_id); (ENV_OWNERSHIP_PROFILE, Uint OWNERSHIP_PROFILE_V1)].
Definition encode_collection_binding_envelope (heap_id collection_id : list byte)
  : result CborEnvelopeError (list byte) :=
  encode_deterministic_uint_map
    [(ENV_HEAP_ID, Bytes heap_id); (ENV_COLLECTION_ID, Bytes collection_id);
     (ENV_OWNERSHIP_PROFILE, Uint OWNERSHIP_PROFILE_V1)].
Definition encode_stream_binding_envelope (heap_id stream_id : list byte)
  : result CborEnvelopeError (list byte) :=
  encode_deterministic_uint_map
    [(ENV_HEAP_ID, Bytes heap_id); (ENV_STREAM_ID, Bytes stream_id);
     (ENV_OWNERSHIP_PROFILE, Uint OWNERSHIP_PROFILE_V1)].

(** [a.is_some() && b.is_some() && a != b]. *)
Definition ids_disagree (a b : option (list byte)) : bool :=
  match a, b with Some x, Some y => negb (bytes_eqb x y) | _, _ => false end.
Definition id_or (a b : option (list byte)) : option (list byte) :=
  match a with Some _ => a | None => b end.

Definition agree_ownership (a b : OwnershipEvidence) : result OwnershipError OwnershipEvidence :=
  match a, b with
  | Known h1 p1 c1 s1, Known h2 p2 c2 s2 =>
      if negb (bytes_eqb h1 h2) then Err OConflict
      else if ids_disagree c1 c2 then Err OConflict
      else if ids_disagree s1 s2 then Err OConflict
      else Ok (Known h1 (Z.max p1 p2) (id_or c1 c2) (id_or s1 s2))
  | Known _ _ _ _, UnknownOwner => Ok a
  | UnknownOwner, Known _ _ _ _ => Ok b
  | UnknownOwner, UnknownOwner => Ok UnknownOwner
  end.

(** ** Subjects ([subject_v2.rs]) *)

Inductive SubjectObjectKind : Type := HeapMetadata | SCollection | SStream.
Inductive SubjectV2Error : Type :=
| InvalidLength | WrongVersion | InvalidObjectKind | KeyTooLong | NonZeroMetadataObjectId.
#[global] Instance SubjectObjectKind_eq_dec : EqDecision SubjectObjectKind.
Proof. solve_decision. Defined.
#[global] Instance SubjectV2Error_eq_dec : EqDecision SubjectV2Error.
Proof. solve_decision. Defined.

Definition object_kind_as_u8 (k : SubjectObjectKind) : Z :=
  match k with HeapMetadata => 0 | SCollection => 1 | SStream => 2 end.
Definition object_kind_from_u8 (v : Z) : result SubjectV2Error SubjectObjectKind :=
  if v =? 0 then Ok HeapMetadata
  else if v =? 1 then Ok SCollection
  else if v =? 2 then Ok SStream
  else Err InvalidObjectKind.

Record SubjectV2 := {
  sv_heap_id : list byte; sv_kind : SubjectObjectKind; sv_object_id : list byte;
  sv_key : list byte }.

Definition SUBJECT_HEADER_LEN : nat := 36.
Definition ZERO_ID : list byte := replicate 16 (z2b 0).
Definition metadata_id_ok (kind : SubjectObjectKind) (object_id : list byte) : bool :=
  negb (bool_decide (kind = HeapMetadata)) || bytes_eqb object_id ZERO_ID.

Definition encode_subject_v2 (heap_id : list byte) (kind : SubjectObjectKind)
    (object_id key : list byte) : result SubjectV2Error (list byte) :=
  if (2048 <? length key)%nat then Err KeyTooLong
  else if negb (metadata_id_ok kind object_id) then Err NonZeroMetadataObjectId
  else Ok (z2b 2 :: heap_id ++ z2b (object_kind_as_u8 kind) :: object_id
           ++ be_bytes 2 (Z.of_nat (length key)) ++ key).

Definition byte_at (bytes : list byte) (i : nat) : Z := b2z (nth i bytes (z2b 0)).

Definition decode_subject_v2 (bytes : list byte) : result SubjectV2Error SubjectV2 :=
  if (length bytes <? SUBJECT_HEADER_LEN)%nat then Err InvalidLength
  else if negb (byte_at bytes 0 =? 2) then Err WrongVersion
  else
    let? kind := object_kind_from_u8 (byte_at bytes 17) in
    let object_id := slice 18 34 bytes in
    let key_len := Z.to_nat (be_val (slice 34 36 bytes)) in
    if negb (length bytes =? SUBJECT_HEADER_LEN + key_len)%nat then Err InvalidLength
    else if (2048 <? key_len)%nat then Err KeyTooLong
    else if negb (metadata_id_ok kind object_id) then Err NonZeroMetadataObjectId
    else Ok {| sv_heap_id := slice 1 17 bytes; sv_kind := kind; sv_object_id := object_id;
               sv_key := drop SUBJECT_HEADER_LEN bytes |}.

(** ** Admission ([admit.rs]) *)

Inductive AdmitDecision : Type :=
| Admit (ownership : OwnershipEvidence)
| RejectUnknown
| RejectConflict
| RejectWrongHeap (claimed : list byte)
| RejectSubjectMismatch
| RejectMalformed.

Inductive AdmitError : Type :=
| AOwnership (e : OwnershipError)
| ASubject (e : SubjectV2Error).

Definition reject_of (e : OwnershipError) : AdmitDecision :=
  match e with OConflict => RejectConflict | _ => RejectMalformed end.

(** The ids that the agreed ownership must have for the object of the subject. *)
Definition subject_fits (s : SubjectV2) (collection_id stream_id : option (list byte)) : bool :=
  match sv_kind s with
  | HeapMetadata =>
      match collection_id, stream_id with None, None => true | _, _ => false end
  | SCollection => bool_decide (collection_id = Some (sv_object_id s))
  | SStream => bool_decide (stream_id = Some (sv_object_id s))
  end.

Definition admit_subject (bound_heap : list byte) (agreed : OwnershipEvidence)
    (subject : list byte) : option AdmitDecision :=
  match decode_subject_v2 subject with
  | Err _ => Some RejectMalformed
  | Ok s =>
      if negb (bytes_eqb (sv_heap_id s) bound_heap) then Some (RejectWrongHeap (sv_heap_id s))
      else match agreed with
      | UnknownOwner => None
      | Known h _ c st =>
          if negb (bytes_eqb h (sv_heap_id s)) then Some RejectSubjectMismatch
          else if subject_fits s c st then None else Some RejectSubjectMismatch
      end
  end.

Definition admit_agreed (bound_heap : list byte) (agreed : OwnershipEvidence)
    (subject : option (list byte)) : AdmitDecision :=
  match agreed with
  | UnknownOwner => RejectUnknown
  | Known h _ _ _ =>
      if negb (bytes_eqb h bound_heap) then RejectWrongHeap h
      else match subject with
      | None => Admit agreed
      | Some subj =>
          match admit_subject bound_heap agreed subj with
          | Some d => d
          | None => Admit agreed
          end
      end
  end.

Definition admit_frame_to_heap (bound_heap segment_descriptor_envelope frame_envelope : list byte)
    (subject : option (list byte)) : AdmitDecision :=
  match parse_ownership_envelope segment_descriptor_envelope with
  | Err e => reject_of e
  | Ok seg =>
      match parse_ownership_envelope frame_envelope with
      | Err e => reject_of e
      | Ok frame =>
          match agree_ownership seg frame with
          | Err e => reject_of e
          | Ok agreed => admit_agreed bound_heap agreed subject
          end
      end
  end.

Definition salvage_admit_frame (frame_envelope subject : list byte)
  : result AdmitError OwnershipEvidence :=
  match parse_ownership_envelope frame_envelope with
  | Err e => Err (AOwnership e)
  | Ok frame =>
      match decode_subject_v2 subject with
      | Err e => Err (ASubject e)
      | Ok s =>
          match frame with
          | Known h _ _ _ =>
              if bytes_eqb h (sv_heap_id s) then Ok frame else Err (AOwnership OConflict)
          | UnknownOwner => Ok UnknownOwner
          end
      end
  end.

(** ** Event identifiers ([events.rs]) *)

Inductive EventIdOutcome : Type :=
| Unique (offset : Z) (frame : DecodedFrame)
| Replicas (offsets : list Z) (frame : DecodedFrame)
| Conflicting (occurrences : list (Z * DecodedFrame)).

Definition frame_event_id (f : DecodedFrame) : list byte := event_id (df_header f).
Definition outcome_event_id (o : EventIdOutcome) : list byte :=
  match o with
  | Unique _ f | Replicas _ f => frame_event_id f
  | Conflicting occ =>
      match occ with (_, f) :: _ => frame_event_id f | [] => [] end
  end.
Definition is_conflicting (o : EventIdOutcome) : bool :=
  match o with Conflicting _ => true | _ => false end.

Definition content_key (f : DecodedFrame) : list byte * list byte := (df_envelope f, df_body f).

(** [by_id.entry(id).or_default().push(x)], the map as its entries in key order. *)
Fixpoint group_push (id : list byte) (x : Z * DecodedFrame)
    (m : list (list byte * list (Z * DecodedFrame))) : list (list byte * list (Z * DecodedFrame)) :=
  match m with
  | [] => [(id, [x])]
  | (id', g) :: rest =>
      match bytes_cmp id id' with
      | Lt => (id, [x]) :: m
      | Eq => (id', g ++ [x]) :: rest
      | Gt => (id', g) :: group_push id x rest
      end
  end.

Definition classify_occurrences (group : list (Z * DecodedFrame)) : option EventIdOutcome :=
  match sort_by (fun a b => fst a ?= fst b) group with
  | [] => None
  | [(offset, frame)] => Some (Unique offset frame)
  | ((_, frame) :: _) as g =>
      if forallb (fun x => bool_decide (content_key (snd x) = content_key frame)) g
      then Some (Replicas (map fst g) frame)
      else Some (Conflicting g)
  end.

Definition group_by_event_id (frames : list (Z * DecodedFrame)) : list EventIdOutcome :=
  omap (fun e => classify_occurrences (snd e))
    (fold_left (fun m x => group_push (frame_event_id (snd x)) x m) frames []).
