(* ===== verification/HeapFramesFacts.v ===== *)
(** * Facts about the ownership of frames

    Ownership written by the encoders is read back; a frame is admitted into a
    heap exactly when everything that names an owner names that heap; frames are
    grouped by event identifier independently of their order. *)
From S2P Require Import Prelude Cbor CborFacts Frame HeapFrames.
Open Scope list_scope.
Open Scope Z_scope.

(** ** Ownership envelopes *)

Definition id16 (b : list byte) : Prop := length b = 16%nat.

Lemma expect_b16_ok b : id16 b -> expect_b16 (Bytes b) = Ok b.
Proof. intros H. unfold expect_b16, id16 in *. by rewrite H. Qed.
Lemma expect_b16_inv v b : expect_b16 v = Ok b -> v = Bytes b /\ id16 b.
Proof.
  unfold expect_b16, id16. destruct v as [| |b'| | | | |]; try done.
  destruct (Nat.eqb_spec (length b') 16); [|done]. by intros [= ->].
Qed.

Lemma id16_canonical b : id16 b -> canonical (Bytes b).
Proof. unfold id16. simpl. intros ->. done. Qed.

(** Decoding tells the entries of an envelope; the empty one has none. *)
Lemma parse_decoded bs es : decode_deterministic_uint_map bs = Ok es -> es <> [] ->
  parse_ownership_envelope bs
  = (let? f := take_fields no_fields es in
     match of_heap f, of_profile f with
     | Some heap_id, Some profile =>
         if negb (profile =? OWNERSHIP_PROFILE_V1) then Err OBadProfile
         else Ok (Known heap_id profile (of_collection f) (of_stream f))
     | _, _ => Ok UnknownOwner
     end).
Proof.
  intros Hd Hne. unfold parse_ownership_envelope. rewrite Hd. unfold bytes_eqb.
  case_bool_decide as He; [|done]. subst bs. vm_compute in Hd. congruence.
Qed.

Lemma binding_parses es o : canonical_map es -> es <> [] ->
  (let? f := take_fields no_fields es in
   match of_heap f, of_profile f with
   | Some heap_id, Some profile =>
       if negb (profile =? OWNERSHIP_PROFILE_V1) then Err OBadProfile
       else Ok (Known heap_id profile (of_collection f) (of_stream f))
   | _, _ => Ok UnknownOwner
   end) = Ok o ->
  exists bs, encode_deterministic_uint_map es = Ok bs /\ parse_ownership_envelope bs = Ok o.
Proof.
  intros Hc Hne Ho. destruct (canonical_roundtrip es Hc) as (bs & He & Hd).
  exists bs. split; [done|]. by rewrite (parse_decoded bs es Hd Hne).
Qed.

Ltac canonical_entries :=
  split; [done|]; split; [by repeat split|];
  repeat (apply Forall_cons; split; [split; [done|]; first [by apply id16_canonical|done]|]);
  apply Forall_nil; done.

Lemma heap_binding_parses h : id16 h ->
  exists bs, encode_heap_binding_envelope h = Ok bs /\ parse_ownership_envelope bs = Ok (Known h 1 None None).
Proof.
  intros Hh. apply binding_parses; [canonical_entries|done|].
  cbn -[expect_b16]. by rewrite expect_b16_ok.
Qed.
Lemma collection_binding_parses h c : id16 h -> id16 c ->
  exists bs, encode_collection_binding_envelope h c = Ok bs
    /\ parse_ownership_envelope bs = Ok (Known h 1 (Some c) None).
Proof.
  intros Hh Hc. apply binding_parses; [canonical_entries|done|].
  cbn -[expect_b16]. by rewrite !expect_b16_ok by done.
Qed.
Lemma stream_binding_parses h s : id16 h -> id16 s ->
  exists bs, encode_stream_binding_envelope h s = Ok bs
    /\ parse_ownership_envelope bs = Ok (Known h 1 None (Some s)).
Proof.
  intros Hh Hc. apply binding_parses; [canonical_entries|done|].
  cbn -[expect_b16]. by rewrite !expect_b16_ok by done.
Qed.

Lemma parse_profile bs h p c s : parse_ownership_envelope bs = Ok (Known h p c s) -> p = 1.
Proof.
  unfold parse_ownership_envelope. case_match; [done|]. case_match; [|done].
  destruct (take_fields _ _) as [f|]; [|done]. destruct (of_heap f), (of_profile f); try done.
  destruct (Z.eqb_spec z OWNERSHIP_PROFILE_V1) as [->|]; [|done]. by intros [= <- <- <- <-].
Qed.

(** ** Agreement *)

Definition claimed_heap (o : OwnershipEvidence) : option (list byte) :=
  match o with Known h _ _ _ => Some h | UnknownOwner => None end.
Definition claimed_collection (o : OwnershipEvidence) : option (list byte) :=
  match o with Known _ _ c _ => c | UnknownOwner => None end.
Definition claimed_stream (o : OwnershipEvidence) : option (list byte) :=
  match o with Known _ _ _ s => s | UnknownOwner => None end.

(** Two optional claims do not contradict each other. *)
Definition consistent (a b : option (list byte)) : Prop :=
  forall x y, a = Some x -> b = Some y -> x = y.

Lemma ids_disagree_false a b : ids_disagree a b = false <-> consistent a b.
Proof.
  unfold ids_disagree, consistent. destruct a as [x|], b as [y|]; try (split; naive_solver).
  rewrite negb_false_iff. unfold bytes_eqb. rewrite bool_decide_eq_true. naive_solver.
Qed.

Definition one_profile (o : OwnershipEvidence) : Prop :=
  match o with Known _ p _ _ => p = 1 | UnknownOwner => True end.

(** Agreement merges two claims exactly when they are consistent. *)
Lemma agree_exact a b h c s : one_profile a -> one_profile b ->
  agree_ownership a b = Ok (Known h 1 c s) <->
  id_or (claimed_heap a) (claimed_heap b) = Some h
  /\ consistent (claimed_heap a) (claimed_heap b)
  /\ consistent (claimed_collection a) (claimed_collection b)
  /\ consistent (claimed_stream a) (claimed_stream b)
  /\ c = id_or (claimed_collection a) (claimed_collection b)
  /\ s = id_or (claimed_stream a) (claimed_stream b).
Proof.
  intros Ha Hb. destruct a as [h1 p1 c1 s1|], b as [h2 p2 c2 s2|]; simpl in *; subst.
  - unfold bytes_eqb. case_bool_decide as Hh; simpl.
    + subst. destruct (ids_disagree c1 c2) eqn:Hc.
      { split; [done|]. intros (_ & _ & H & _). apply ids_disagree_false in H. congruence. }
      destruct (ids_disagree s1 s2) eqn:Hs.
      { split; [done|]. intros (_ & _ & _ & H & _). apply ids_disagree_false in H. congruence. }
      apply ids_disagree_false in Hc, Hs. change (Z.max 1 1) with 1. split.
      * intros [= <- <- <-]. split_and!; try done. intros x y. congruence.
      * intros (Hh & _ & _ & _ & -> & ->). simpl in Hh. congruence.
    + split; [done|]. intros (_ & H & _). exfalso. apply Hh. by apply H.
  - split; [intros [= <- <- <-]; split_and!; try done; by destruct c1, s1|].
    intros (Hh & _ & _ & _ & -> & ->). simpl in Hh. by destruct c1, s1; simplify_eq.
  - split; [intros [= <- <- <-]; split_and!; done|].
    intros (Hh & _ & _ & _ & -> & ->). simpl in Hh. by simplify_eq.
  - split; [done|]. by intros (? & _).
Qed.

(** ** Subjects *)

Lemma object_kind_code k : object_kind_from_u8 (b2z (z2b (object_kind_as_u8 k))) = Ok k.
Proof. by destruct k. Qed.

Lemma slice_app {A} (p q r : list A) a b : length p = a -> length q = (b - a)%nat ->
  slice a b (p ++ q ++ r) = q.
Proof.
  intros <- Hq. unfold slice. rewrite drop_app_length. by apply take_app_length'.
Qed.

(** A subject within its limits is written and read back. *)
Lemma subject_roundtrip heap kind object key : id16 heap -> id16 object ->
  (length key <= 2048)%nat -> metadata_id_ok kind object = true ->
  exists bs, encode_subject_v2 heap kind object key = Ok bs
  /\ decode_subject_v2 bs
     = Ok {| sv_heap_id := heap; sv_kind := kind; sv_object_id := object; sv_key := key |}.
Proof.
  unfold id16. intros Hh Ho Hk Hm. unfold encode_subject_v2. rewrite (proj2 (Nat.ltb_ge _ _)) by done.
  rewrite Hm. simpl. eexists. split; [done|].
  set (klen := be_bytes 2 (Z.of_nat (length key))).
  assert (Hl2 : length klen = 2%nat) by apply length_be_bytes.
  set (whole := z2b 2 :: heap ++ _).
  set (tag := [z2b (object_kind_as_u8 kind)]).
  assert (Hw : whole = [z2b 2] ++ heap ++ tag ++ object ++ klen ++ key) by done.
  assert (Hlen : length whole = (36 + length key)%nat).
  { rewrite Hw, !length_app. unfold tag. cbn [length]. lia. }
  unfold decode_subject_v2, SUBJECT_HEADER_LEN. rewrite Hlen, (proj2 (Nat.ltb_ge _ _)) by lia.
  change (byte_at whole 0 =? 2) with true. cbn [negb].
  assert (H17 : byte_at whole 17 = b2z (z2b (object_kind_as_u8 kind))).
  { unfold byte_at, whole. simpl. rewrite app_nth2 by lia. by rewrite Hh. }
  rewrite H17, object_kind_code.
  assert (S1 : slice 1 17 whole = heap) by (rewrite Hw; by apply slice_app).
  assert (S2 : slice 18 34 whole = object).
  { rewrite Hw, (app_assoc _ heap), (app_assoc _ tag). apply slice_app; [rewrite !length_app; cbn [length tag]; lia|lia]. }
  assert (S3 : slice 34 36 whole = klen).
  { rewrite Hw, (app_assoc _ heap), (app_assoc _ tag), (app_assoc _ object).
    apply slice_app; [rewrite !length_app; cbn [length tag]; lia|lia]. }
  rewrite S1, S2, S3. unfold klen. rewrite be_val_bytes_small by (simpl; lia). rewrite Nat2Z.id.
  rewrite Nat.eqb_refl. cbn [negb]. rewrite (proj2 (Nat.ltb_ge _ _)) by done. rewrite Hm. cbn [negb].
  do 2 f_equal. rewrite Hw, !app_assoc. apply drop_app_length'. rewrite !length_app, Hl2. cbn [length tag]. lia.
Qed.

(** ** Admission *)

Lemma parse_one_profile bs o : parse_ownership_envelope bs = Ok o -> one_profile o.
Proof. destruct o; [apply parse_profile|done]. Qed.

Lemma agree_one_profile a b o : one_profile a -> one_profile b -> agree_ownership a b = Ok o ->
  one_profile o.
Proof.
  destruct a as [h1 p1 c1 s1|], b as [h2 p2 c2 s2|]; simpl; intros Ha Hb;
    repeat case_match; intros [= <-]; simpl; subst; done.
Qed.

(** What a subject must say for a frame owned by [bound] with these ids. *)
Definition subject_agrees (bound : list byte) (c s : option (list byte))
    (subject : option (list byte)) : Prop :=
  forall subj, subject = Some subj -> exists sv, decode_subject_v2 subj = Ok sv
    /\ sv_heap_id sv = bound /\ subject_fits sv c s = true.

Lemma admit_agreed_exact bound agreed subject o : one_profile agreed ->
  admit_agreed bound agreed subject = Admit o <->
  agreed = o /\ exists c s, o = Known bound 1 c s /\ subject_agrees bound c s subject.
Proof.
  intros Hp. unfold admit_agreed, subject_agrees. destruct agreed as [h p c s|]; simpl in *;
    [subst p|by split; [done|intros [<- (? & ? & ? & _)]]].
  destruct (bytes_eqb h bound) eqn:Hh; unfold bytes_eqb in Hh; simpl.
  2: { apply bool_decide_eq_false in Hh. split; [done|]. intros [<- (? & ? & [= ?] & _)]. done. }
  apply bool_decide_eq_true in Hh as ->. destruct subject as [subj|].
  2: { split; [|by intros [<- _]]. intros [= <-]. split; [done|]. by exists c, s. }
  unfold admit_subject. destruct (decode_subject_v2 subj) as [sv|] eqn:Hd.
  2: { split; [done|]. intros [_ (? & ? & _ & Hs)]. destruct (Hs subj eq_refl) as (sv & ? & _). congruence. }
  unfold bytes_eqb. case_bool_decide as Hs; simpl.
  2: { split; [done|]. intros [_ (? & ? & _ & H)]. destruct (H subj eq_refl) as (sv' & ? & ? & _). congruence. }
  rewrite bool_decide_true by done. simpl. destruct (subject_fits sv c s) eqn:Hf.
  - split; [|by intros [<- _]]. intros [= <-]. split; [done|]. exists c, s. split; [done|].
    intros ? [= <-]. by exists sv.
  - split; [done|]. intros [<- (c' & s' & [= <- <-] & H)]. destruct (H subj eq_refl) as (sv' & ? & _ & ?). congruence.
Qed.

(** ** Event identifiers *)

Definition frames_of (id : list byte) (frames : list (Z * DecodedFrame)) : list (Z * DecodedFrame) :=
  List.filter (fun x => bytes_eqb (frame_event_id (snd x)) id) frames.
Definition frame_groups (frames : list (Z * DecodedFrame)) : list (list byte * list (Z * DecodedFrame)) :=
  fold_left (fun m x => group_push (frame_event_id (snd x)) x m) frames [].

Lemma group_push_keys id x m k : k ∈ map fst (group_push id x m) <-> k = id \/ k ∈ map fst m.
Proof.
  induction m as [|[k' g] m IH]; cbn [group_push].
  - simpl. rewrite list_elem_of_singleton. set_solver.
  - destruct (bytes_cmp id k') eqn:E; simpl; rewrite ?elem_of_cons; [|done|rewrite IH; set_solver].
    apply bytes_cmp_Eq in E as ->. set_solver.
Qed.

Lemma group_push_sorted id x m : StronglySorted bytes_lt (map fst m) ->
  StronglySorted bytes_lt (map fst (group_push id x m)).
Proof.
  induction m as [|[k' g] m IH]; intros Hs; cbn [group_push]; [simpl; repeat constructor|].
  simpl in Hs. apply StronglySorted_inv in Hs as [Hs Hall].
  destruct (bytes_cmp id k') eqn:E; simpl.
  - by constructor.
  - constructor; [by constructor|]. constructor; [done|].
    eapply Forall_impl; [exact Hall|]. intros y Hy. by eapply bytes_lt_trans.
  - constructor; [by apply IH|]. apply Forall_forall. intros y [->|Hy]%group_push_keys.
    + by apply bytes_cmp_Gt.
    + rewrite Forall_forall in Hall. by apply Hall.
Qed.

Lemma group_push_elem id x m k g : StronglySorted bytes_lt (map fst m) ->
  (k, g) ∈ group_push id x m <->
  (k <> id /\ (k, g) ∈ m)
  \/ (k = id /\ exists g0, g = g0 ++ [x] /\ ((id, g0) ∈ m \/ (id ∉ map fst m /\ g0 = []))).
Proof.
  induction m as [|[k' g'] m IH]; intros Hs; cbn [group_push].
  - rewrite list_elem_of_singleton. split.
    + intros [= -> ->]. right. split; [done|]. exists []. set_solver.
    + intros [[_ ?%not_elem_of_nil]|(-> & g0 & -> & [?%not_elem_of_nil|[_ ->]])]; done.
  - simpl in Hs. apply StronglySorted_inv in Hs as [Hs Hall]. specialize (IH Hs).
    rewrite Forall_forall in Hall.
    assert (Hirr : forall a, bytes_lt a a -> False).
    { intros a H. unfold bytes_lt in H. by rewrite (proj2 (bytes_cmp_Eq a a) eq_refl) in H. }
    destruct (bytes_cmp id k') eqn:E.
    + apply bytes_cmp_Eq in E as ->. setoid_rewrite elem_of_cons. split.
      * intros [[= -> ->]|Hin]; [right; split; [done|]; exists g'; set_solver|].
        left. split; [|by right]. intros ->. apply (Hirr k'), Hall. apply list_elem_of_fmap. by exists (k', g).
      * intros [[Hne [[= -> ->]|Hin]]|(-> & g0 & -> & [[Heq|Hin]|[Hn _]])]; try done; [by right|..].
        { left. congruence. }
        { exfalso. apply (Hirr k'), Hall. apply list_elem_of_fmap. by exists (k', g0). }
        { exfalso. apply Hn. simpl. by left. }
    + assert (Hnin : id ∉ map fst ((k', g') :: m)).
      { simpl. intros [->|Hin]%elem_of_cons; [by apply (Hirr k')|].
        apply (Hirr id). eapply bytes_lt_trans; [exact E|]. by apply Hall. }
      rewrite (elem_of_cons ((k', g') :: m) (k, g) (id, [x])). split.
      * intros [[= -> ->]|Hin]; [right; split; [done|]; exists []; auto|].
        left. split; [|done]. intros ->. apply Hnin. apply list_elem_of_fmap. by exists (id, g).
      * intros [[Hne Hin]|(-> & g0 & -> & [Hin|[_ ->]])]; [by right| |by left].
        exfalso. apply Hnin. apply list_elem_of_fmap. by exists (id, g0).
    + assert (Hne' : k' <> id) by (intros ->; by rewrite (proj2 (bytes_cmp_Eq id id) eq_refl) in E).
      rewrite elem_of_cons, IH. simpl. setoid_rewrite elem_of_cons.
      split.
      * intros [[= -> ->]|[[Hne Hin]|(-> & g0 & -> & [Hin|[Hn ->]])]]; [left; auto|left; auto|right..].
        { split; [done|]. exists g0. auto. }
        { split; [done|]. exists []. split; [done|]. right. split; [|done]. naive_solver. }
      * intros [[Hne [Heq|Hin]]|(-> & g0 & -> & [[Heq|Hin]|[Hn ->]])];
          [by left|by right; left|by injection Heq|right; right..].
        { split; [done|]. exists g0. auto. }
        { split; [done|]. exists []. split; [done|]. right. split; [tauto|done]. }
Qed.

Lemma frame_groups_sorted frames : StronglySorted bytes_lt (map fst (frame_groups frames)).
Proof.
  unfold frame_groups. induction frames as [|x l IH] using rev_ind; [constructor|].
  rewrite fold_left_app. by apply group_push_sorted.
Qed.

(** The groups are the frames of each identifier, in order of arrival. *)
Lemma frame_groups_elem frames k g :
  (k, g) ∈ frame_groups frames <-> g = frames_of k frames /\ g <> [].
Proof.
  revert k g. induction frames as [|x l IH] using rev_ind; intros k g.
  { unfold frame_groups, frames_of. simpl. rewrite elem_of_nil. naive_solver. }
  assert (Hkeys : forall k, k ∈ map fst (frame_groups l) <-> frames_of k l <> []).
  { intros k'. rewrite list_elem_of_fmap. split.
    - intros ([k2 g2] & -> & Hin). apply IH in Hin as [-> ?]. done.
    - intros Hne. exists (k', frames_of k' l). split; [done|]. by apply IH. }
  unfold frame_groups. rewrite fold_left_app. cbn [fold_left]. fold (frame_groups l).
  rewrite group_push_elem by apply frame_groups_sorted.
  assert (Hf : frames_of k (l ++ [x])
               = frames_of k l ++ if bool_decide (frame_event_id (snd x) = k) then [x] else []).
  { unfold frames_of. rewrite List.filter_app. simpl. unfold bytes_eqb. by case_bool_decide. }
  rewrite Hf. case_bool_decide as Hk.
  - subst k. split.
    + intros [[? _]|(_ & g0 & -> & [[-> _]%IH|[Hn ->]])]; [done|..]; (split; [|by intros [_ ?]%app_eq_nil]).
      * done.
      * rewrite Hkeys in Hn. apply dec_stable in Hn. by rewrite Hn.
    + intros [-> _]. right. split; [done|]. eexists. split; [done|].
      destruct (decide (frames_of (frame_event_id (snd x)) l = [])) as [E|E].
      * right. rewrite Hkeys, E. split; [by intros []|done].
      * left. by apply IH.
  - rewrite app_nil_r. split; [intros [[_ H%IH]|[-> _]]; done|]. intros H. left. split; [congruence|by apply IH].
Qed.

Definition by_offset (a b : Z * DecodedFrame) : comparison := fst a ?= fst b.

Lemma by_offset_anti x y : by_offset y x = CompOpp (by_offset x y).
Proof. unfold by_offset. apply Z.compare_antisym. Qed.
Lemma by_offset_trans x y z : not_gt by_offset x y -> not_gt by_offset y z -> not_gt by_offset x z.
Proof. exact (Z.le_trans (fst x) (fst y) (fst z)). Qed.

(** How an outcome accounts for the frames of its identifier. *)
Definition accounts_for (g : list (Z * DecodedFrame)) (o : EventIdOutcome) : Prop :=
  match o with
  | Unique offset f => g = [(offset, f)]
  | Replicas offsets f =>
      (2 <= length g)%nat /\ offsets ≡ₚ map fst g /\ StronglySorted Z.le offsets
      /\ f ∈ map snd g /\ Forall (fun x => content_key (snd x) = content_key f) g
  | Conflicting occ =>
      occ ≡ₚ g /\ StronglySorted Z.le (map fst occ)
      /\ exists x y, x ∈ g /\ y ∈ g /\ content_key (snd x) <> content_key (snd y)
  end.

Lemma sorted_offsets g : StronglySorted Z.le (map fst (sort_by by_offset g)).
Proof.
  pose proof (sort_by_sorted by_offset by_offset_anti by_offset_trans g) as H.
  induction H as [|x l Hl IH Hx]; simpl; constructor; [done|]. apply Forall_fmap.
  eapply Forall_impl; [exact Hx|]. intros y Hy. unfold not_gt, by_offset in Hy. simpl.
  destruct (Z.compare_spec (fst x) (fst y)); [lia|lia|done].
Qed.

Lemma classify_accounts g : g <> [] ->
  exists o, classify_occurrences g = Some o /\ accounts_for g o.
Proof.
  intros Hne. unfold classify_occurrences. change (fun a b => fst a ?= fst b) with by_offset.
  pose proof (sort_by_perm by_offset g) as Hp. pose proof (sorted_offsets g) as Hs.
  destruct (sort_by by_offset g) as [|[o1 f1] [|x2 rest]] eqn:E.
  - by apply Permutation_nil_l in Hp.
  - eexists. split; [done|]. simpl. by apply Permutation_singleton_l in Hp.
  - cbv iota beta. match goal with |- context [forallb ?f ?l] => destruct (forallb f l) eqn:Hall end;
      set (all := (o1, f1) :: x2 :: rest) in *; eexists; (split; [done|]).
    + unfold accounts_for. split_and!; [rewrite <- Hp; unfold all; simpl; lia|exact (Permutation_map fst Hp)|done| |].
      * rewrite <- Hp. simpl. by left.
      * rewrite <- Hp. apply Forall_forall. intros x Hx%list_elem_of_In. rewrite forallb_forall in Hall.
        apply Hall in Hx. by apply bool_decide_eq_true in Hx.
    + split; [done|]. split; [done|]. apply not_true_iff_false in Hall. rewrite forallb_forall in Hall.
      assert (Hex : Exists (fun x => content_key (snd x) <> content_key f1) all).
      { apply not_Forall_Exists; [apply _|]. intros Hf. apply Hall. intros x Hx%list_elem_of_In.
        rewrite Forall_forall in Hf. apply bool_decide_eq_true. by apply Hf. }
      apply Exists_exists in Hex as (x & Hx & Hc). exists x, (o1, f1). rewrite <- Hp.
      split_and!; [done|unfold all; by left|done].
Qed.

Lemma accounts_id id g o : Forall (fun x => frame_event_id (snd x) = id) g -> accounts_for g o ->
  outcome_event_id o = id.
Proof.
  intros Hg Ha. rewrite Forall_forall in Hg. destruct o as [off f|offs f|occ]; simpl in *.
  - subst g. apply (Hg (off, f)). by left.
  - destruct Ha as (_ & _ & _ & Hf & _). apply list_elem_of_fmap in Hf as (x & -> & Hx). by apply Hg.
  - destruct Ha as (Hp & _ & x & _ & Hx & _). destruct occ as [|[o f] occ].
    + apply Permutation_nil_l in Hp. subst. by apply not_elem_of_nil in Hx.
    + apply (Hg (o, f)). rewrite <- Hp. by left.
Qed.

Lemma frames_of_id id frames : Forall (fun x => frame_event_id (snd x) = id) (frames_of id frames).
Proof.
  apply Forall_forall. intros x Hx%list_elem_of_In. unfold frames_of in Hx. apply filter_In in Hx as [_ Hx].
  unfold bytes_eqb in Hx. by apply bool_decide_eq_true in Hx.
Qed.

(** Two lists of groups with the same elements up to the order inside a group
    classify alike. *)
Definition normal (e : list byte * list (Z * DecodedFrame)) : list byte * list (Z * DecodedFrame) :=
  (fst e, sort_by by_offset (snd e)).

Lemma sorted_by_fst {B} (l : list (list byte * B)) : StronglySorted bytes_lt (map fst l) ->
  StronglySorted (fun a b => bytes_lt (fst a) (fst b)) l.
Proof.
  induction l as [|x l IH]; simpl; intros Hs; [constructor|]. apply StronglySorted_inv in Hs as [Hs Hall].
  constructor; [by apply IH|]. exact (proj1 (Forall_fmap fst (bytes_lt (fst x)) l) Hall).
Qed.

Lemma frames_of_perm k frames frames' : frames ≡ₚ frames' -> frames_of k frames ≡ₚ frames_of k frames'.
Proof.
  intros Hp. unfold frames_of. induction Hp as [|x l l' _ IH|x y l|l1 l2 l3 _ IH1 _ IH2]; simpl.
  - done.
  - case_match; [by constructor|done].
  - repeat case_match; try done. constructor.
  - by etrans.
Qed.

Lemma normal_frames k frames frames' : NoDup (map fst frames) -> frames ≡ₚ frames' ->
  sort_by by_offset (frames_of k frames) = sort_by by_offset (frames_of k frames').
Proof.
  intros Hnd Hp. apply (sort_by_order _ by_offset_anti by_offset_trans); [|by apply frames_of_perm].
  assert (Hsub : forall x, x ∈ frames_of k frames -> x ∈ frames).
  { intros x Hx%list_elem_of_In. unfold frames_of in Hx. apply filter_In in Hx as [Hx _]. by apply list_elem_of_In. }
  intros [ox fx] [oy fy] Hx%Hsub Hy%Hsub Hc. unfold by_offset in Hc. apply Z.compare_eq in Hc. simpl in Hc. subst oy.
  apply list_elem_of_lookup in Hx as [i Hi]. apply list_elem_of_lookup in Hy as [j Hj].
  assert (i = j) as ->; [|congruence]. eapply (NoDup_lookup (map fst frames)); [done|..];
    rewrite list_lookup_fmap; by rewrite ?Hi, ?Hj.
Qed.

Lemma normal_elem_1 frames frames' k g : NoDup (map fst frames) -> frames ≡ₚ frames' ->
  (k, g) ∈ map normal (frame_groups frames) -> (k, g) ∈ map normal (frame_groups frames').
Proof.
  intros Hnd Hp ([k1 g1] & [= -> ->] & Hin)%list_elem_of_fmap. apply frame_groups_elem in Hin as [-> Hne].
  apply list_elem_of_fmap. exists (k1, frames_of k1 frames'). unfold normal. simpl.
  split; [by rewrite (normal_frames k1 frames frames')|]. apply frame_groups_elem. split; [done|].
  intros E. apply Hne. apply Permutation_nil_r. rewrite <- E. by apply frames_of_perm.
Qed.
Lemma normal_elem frames frames' k g : NoDup (map fst frames) -> frames ≡ₚ frames' ->
  (k, g) ∈ map normal (frame_groups frames) <-> (k, g) ∈ map normal (frame_groups frames').
Proof.
  intros Hnd Hp. split; apply normal_elem_1; [done|done| |done]. by rewrite <- Hp.
Qed.

Lemma normal_groups frames frames' : NoDup (map fst frames) -> frames ≡ₚ frames' ->
  map normal (frame_groups frames) = map normal (frame_groups frames').
Proof.
  intros Hnd Hp. assert (Hfst : forall fs, map fst (map normal (frame_groups fs)) = map fst (frame_groups fs)).
  { intros fs. rewrite map_map. done. }
  assert (Hdup : forall fs, NoDup (map normal (frame_groups fs))).
  { intros fs. apply (NoDup_fmap_1 fst). change (fst <$> map normal (frame_groups fs)) with (map fst (map normal (frame_groups fs))).
    rewrite Hfst. pose proof (frame_groups_sorted fs) as H. induction H as [|x l Hl IH Hx]; constructor; [|done].
    intros Hin. rewrite Forall_forall in Hx. specialize (Hx x Hin). unfold bytes_lt in Hx.
    by rewrite (proj2 (bytes_cmp_Eq x x) eq_refl) in Hx. }
  assert (Hsort : forall fs, StronglySorted (fun a b => bytes_lt (fst a) (fst b)) (map normal (frame_groups fs))).
  { intros fs. apply sorted_by_fst. rewrite Hfst. apply frame_groups_sorted. }
  apply (StronglySorted_unique_strong (fun a b => bytes_lt (fst a) (fst b))); [|done|done|].
  - intros a b _ _ Hab Hba. exfalso. pose proof (bytes_lt_trans _ _ _ Hab Hba) as H. unfold bytes_lt in H.
    by rewrite (proj2 (bytes_cmp_Eq _ _) eq_refl) in H.
  - apply NoDup_Permutation; [done..|]. intros [k g]. apply normal_elem; [done|done].
Qed.

Lemma classify_normal g : classify_occurrences (sort_by by_offset g) = classify_occurrences g.
Proof.
  unfold classify_occurrences. change (fun a b => fst a ?= fst b) with by_offset.
  by rewrite (sort_by_id by_offset (sort_by by_offset g)) by (apply sort_by_sorted; [apply by_offset_anti|apply by_offset_trans]).
Qed.

Lemma group_by_normal frames :
  group_by_event_id frames = omap (fun e => classify_occurrences (snd e)) (map normal (frame_groups frames)).
Proof.
  unfold group_by_event_id. fold (frame_groups frames). induction (frame_groups frames) as [|[k g] l IH]; [done|].
  simpl. rewrite classify_normal. destruct (classify_occurrences g); [f_equal|]; exact IH.
Qed.

Lemma groups_outcomes frames : exists os, group_by_event_id frames = os
  /\ Forall2 (fun e o => accounts_for (snd e) o /\ outcome_event_id o = fst e) (frame_groups frames) os.
Proof.
  eexists. split; [done|]. unfold group_by_event_id. fold (frame_groups frames).
  assert (Hall : Forall (fun e => snd e = frames_of (fst e) frames /\ snd e <> []) (frame_groups frames)).
  { apply Forall_forall. intros [k g] Hin. by apply frame_groups_elem in Hin. }
  induction Hall as [|[k g] l [Hg Hne] _ IH]; [constructor|]. simpl in *.
  destruct (classify_accounts g Hne) as (o & -> & Ha). constructor; [|exact IH].
  split; [done|]. eapply accounts_id; [|exact Ha]. rewrite Hg. apply frames_of_id.
Qed.

(** ** Claims *)

(** A frame is admitted into a mounted heap exactly when the segment and the
    frame envelope are well formed, at least one of them names an owner, whatever
    they name is the bound heap and the same collection and stream, and the
    subject, where there is one, is a subject of the bound heap for exactly that
    object. *)
Theorem admission_exact bound seg frame subject o :
  admit_frame_to_heap bound seg frame subject = Admit o <->
  exists a b c s,
    parse_ownership_envelope seg = Ok a /\ parse_ownership_envelope frame = Ok b
    /\ id_or (claimed_heap a) (claimed_heap b) = Some bound
    /\ consistent (claimed_heap a) (claimed_heap b)
    /\ consistent (claimed_collection a) (claimed_collection b)
    /\ consistent (claimed_stream a) (claimed_stream b)
    /\ c = id_or (claimed_collection a) (claimed_collection b)
    /\ s = id_or (claimed_stream a) (claimed_stream b)
    /\ o = Known bound 1 c s /\ subject_agrees bound c s subject.
Proof.
  unfold admit_frame_to_heap. destruct (parse_ownership_envelope seg) as [a|e] eqn:Ha.
  2: { split; [by destruct e|]. by intros (? & ? & ? & ? & ? & _). }
  destruct (parse_ownership_envelope frame) as [b|e] eqn:Hb.
  2: { split; [by destruct e|]. by intros (? & ? & ? & ? & ? & ? & _). }
  pose proof (parse_one_profile _ _ Ha) as Pa. pose proof (parse_one_profile _ _ Hb) as Pb. split.
  - destruct (agree_ownership a b) as [agreed|e] eqn:Hag; [|by destruct e].
    intros (-> & c & s & -> & Hs)%admit_agreed_exact; [|exact (agree_one_profile a b agreed Pa Pb Hag)].
    exists a, b, c, s. pose proof (proj1 (agree_exact a b bound c s Pa Pb) Hag) as (? & ? & ? & ? & ? & ?).
    split_and!; done.
  - intros (a' & b' & c & s & [= <-] & [= <-] & H1 & H2 & H3 & H4 & H5 & H6 & -> & Hs).
    rewrite (proj2 (agree_exact a b bound c s Pa Pb)) by done.
    apply admit_agreed_exact; [done|]. split; [done|]. by exists c, s.
Qed.

(** Frames are grouped by event identifier without losing or choosing any:
    the groups come in ascending order of identifier, one for every identifier
    that occurs and for no other; each accounts for all frames of its identifier
    -- the single one, the offsets of several with one content, or all of them
    when two contents differ; and with distinct offsets the order in which the
    frames were met does not matter. *)
Theorem event_groups_exact frames :
  StronglySorted bytes_lt (map outcome_event_id (group_by_event_id frames))
  /\ (forall id, id ∈ map outcome_event_id (group_by_event_id frames)
        <-> id ∈ map (fun x => frame_event_id (snd x)) frames)
  /\ Forall (fun o => accounts_for (frames_of (outcome_event_id o) frames) o) (group_by_event_id frames)
  /\ (NoDup (map fst frames) -> forall frames', frames ≡ₚ frames' ->
        group_by_event_id frames' = group_by_event_id frames).
Proof.
  destruct (groups_outcomes frames) as (os & Hos & Hall). rewrite Hos.
  assert (Hids : map outcome_event_id os = map fst (frame_groups frames)).
  { clear Hos. induction Hall as [|e o l l' [_ Ho] _ IH]; [done|]. simpl. by rewrite Ho, IH. }
  split_and!.
  - rewrite Hids. apply frame_groups_sorted.
  - intros id. rewrite Hids, !list_elem_of_fmap. split.
    + intros ([k g] & -> & Hin). apply frame_groups_elem in Hin as [-> Hne]. simpl.
      destruct (frames_of k frames) as [|x l] eqn:E; [done|]. exists x.
      pose proof (frames_of_id k frames) as Hid. rewrite E in Hid. apply Forall_cons in Hid as [Hk _].
      split; [by rewrite Hk|]. assert (Hx : x ∈ frames_of k frames) by (rewrite E; by left).
      apply list_elem_of_In in Hx. unfold frames_of in Hx. apply filter_In in Hx as [Hx _]. by apply list_elem_of_In.
    + intros (x & -> & Hx). exists (frame_event_id (snd x), frames_of (frame_event_id (snd x)) frames).
      split; [done|]. apply frame_groups_elem. split; [done|]. intros E.
      assert (Hin : x ∈ frames_of (frame_event_id (snd x)) frames); [|by rewrite E in Hin; apply not_elem_of_nil in Hin].
      apply list_elem_of_In. unfold frames_of. apply filter_In. split; [by apply list_elem_of_In|].
      unfold bytes_eqb. by apply bool_decide_eq_true.
  - apply Forall_forall. intros o [i Hi]%list_elem_of_lookup.
    eapply Forall2_lookup_r in Hall as ([k g] & Hk & Ha & Ho); [|exact Hi]. simpl in *. rewrite Ho.
    apply list_elem_of_lookup_2 in Hk. apply frame_groups_elem in Hk as [<- _]. done.
  - intros Hnd frames' Hp. rewrite <- Hos, !group_by_normal. by rewrite (normal_groups frames frames').
Qed.

Definition sample_heap (n : Z) : list byte := replicate 16 (z2b n).
Definition sample_frame (kind : Z) : DecodedFrame := {|
  df_header := {| wire_major := z2b 1; wire_minor := z2b 0; frame_kind := z2b kind; flags := z2b 0;
                  envelope_len := 1; body_len := 1; logical_len := 1; writer_sequence := 7;
                  event_id := sample_heap 9 |};
  df_envelope := EMPTY_ENVELOPE; df_body := [z2b 5]; df_body_hash := []; df_frame_len := 1 |}.

(** A collection frame of heap 1 is admitted there and nowhere else. *)
Example admission_separates :
  match encode_collection_binding_envelope (sample_heap 1) (sample_heap 3),
        encode_subject_v2 (sample_heap 1) SCollection (sample_heap 3) [z2b 107] with
  | Ok env, Ok subj =>
      admit_frame_to_heap (sample_heap 1) EMPTY_ENVELOPE env (Some subj)
        = Admit (Known (sample_heap 1) 1 (Some (sample_heap 3)) None)
      /\ admit_frame_to_heap (sample_heap 2) EMPTY_ENVELOPE env (Some subj)
         = RejectWrongHeap (sample_heap 1)
  | _, _ => False
  end.
Proof. vm_compute. split; reflexivity. Qed.

(** Frames of different kinds count as replicas of one another: only the envelope
    and the body are compared. *)
Example kinds_not_compared :
  group_by_event_id [(0, sample_frame 3); (100, sample_frame 5)]
  = [Replicas [0; 100] (sample_frame 3)].
Proof. vm_compute. reflexivity. Qed.
