(* ===== verification/Descriptors.v ===== *)
(** * Heap, collection and stream descriptors

    Model of [crates/residiuum-format/src/descriptors.rs]: the CBOR bodies of
    descriptors and their validation.  Names are UTF-8 byte strings. *)
From S2P Require Import Prelude Cbor Frame.
Open Scope list_scope.
Open Scope Z_scope.

Definition HEAP_DESCRIPTOR_PROFILE : list byte := lit "residiuum-heap-v1".
Definition MAX_DESCRIPTOR : Z := 65536.

(** What the message of an [Invalid] error names. *)
Inductive DescriptorField : Type :=
| FHeapState | FObjectState | FNameLength | FNameControl | FUint | FText | FBstr16 | FBstr32
| FTooManyAliases | FAliasesUnsorted | FDuplicateAlias | FAliases | FSequence | FSeq1Predecessor
| FSeq1Aliases | FFieldCount | FUnknownKey | FVersion | FProfile | FOrigin | FHeap | FCreation
| FCreatedAt | FPred | FState | FName | FSeq1Shape | FObject | FOptions | FHeader | FSequenceShape.
Inductive DescriptorError : Type :=
| DCbor (e : CborEnvelopeError)
| DInvalid (what : DescriptorField)
| DTooLarge.

Inductive HeapDescriptorState : Type := HActive | HReadOnly | HSuspended | HRetired | HPurging | HPurged.
Definition heap_state_code (s : HeapDescriptorState) : Z :=
  match s with
  | HActive => 1 | HReadOnly => 2 | HSuspended => 3 | HRetired => 4 | HPurging => 5 | HPurged => 6
  end.
Definition heap_state_from_u64 (v : Z) : result DescriptorError HeapDescriptorState :=
  if v =? 1 then Ok HActive else if v =? 2 then Ok HReadOnly else if v =? 3 then Ok HSuspended
  else if v =? 4 then Ok HRetired else if v =? 5 then Ok HPurging else if v =? 6 then Ok HPurged
  else Err (DInvalid FHeapState).

Inductive ObjectDescriptorState : Type := OActive | ORetired.
Definition object_state_code (s : ObjectDescriptorState) : Z :=
  match s with OActive => 1 | ORetired => 2 end.
Definition object_state_from_u64 (v : Z) : result DescriptorError ObjectDescriptorState :=
  if v =? 1 then Ok OActive else if v =? 2 then Ok ORetired else Err (DInvalid FObjectState).

Record HeapDescriptor := {
  hd_origin : list byte; hd_heap_id : list byte; hd_creation : list byte; hd_created_at : Z;
  hd_predecessor : option (list byte); hd_sequence : Z; hd_state : HeapDescriptorState;
  hd_name : list byte; hd_aliases : list (list byte) }.
Record ObjectDescriptor := {
  od_heap_id : list byte; od_object_id : list byte; od_creation : list byte; od_created_at : Z;
  od_predecessor : option (list byte); od_sequence : Z; od_name : list byte;
  od_aliases : list (list byte); od_state : ObjectDescriptorState }.

(** ** Fields *)

Definition validate_name (b : list byte) : result DescriptorError unit :=
  if (length b =? 0)%nat || (255 <? length b)%nat then Err (DInvalid FNameLength)
  else if existsb (fun c => (b2z c =? 0) || (b2z c <? 32)) b then Err (DInvalid FNameControl)
  else Ok tt.
Fixpoint validate_names (l : list (list byte)) : result DescriptorError unit :=
  match l with
  | [] => Ok tt
  | a :: rest => let? _ := validate_name a in validate_names rest
  end.

Definition expect_uint (v : CborValue) : result DescriptorError Z :=
  match v with Uint u => Ok u | _ => Err (DInvalid FUint) end.
Definition expect_text (v : CborValue) : result DescriptorError (list byte) :=
  match v with Text s => Ok s | _ => Err (DInvalid FText) end.
Definition expect_id (n : nat) (what : DescriptorField) (v : CborValue)
  : result DescriptorError (list byte) :=
  match v with
  | Bytes b => if (length b =? n)%nat then Ok b else Err (DInvalid what)
  | _ => Err (DInvalid what)
  end.
Definition expect_b16 := expect_id 16 FBstr16.
Definition expect_b32 := expect_id 32 FBstr32.
Definition expect_pred (v : CborValue) : result DescriptorError (option (list byte)) :=
  match v with Null => Ok None | other => let? h := expect_b32 other in Ok (Some h) end.

Fixpoint alias_texts (items : list CborValue) : result DescriptorError (list (list byte)) :=
  match items with
  | [] => Ok []
  | item :: rest =>
      let? s := expect_text item in
      let? _ := validate_name s in
      let? out := alias_texts rest in
      Ok (s :: out)
  end.
Fixpoint has_adjacent_equal (l : list (list byte)) : bool :=
  match l with
  | x :: ((y :: _) as t) => bytes_eqb x y || has_adjacent_equal t
  | _ => false
  end.
Definition expect_aliases (v : CborValue) : result DescriptorError (list (list byte)) :=
  match v with
  | Array items =>
      if (64 <? length items)%nat then Err (DInvalid FTooManyAliases)
      else
        let? out := alias_texts items in
        if negb (bool_decide (sort_by bytes_cmp out = out)) then Err (DInvalid FAliasesUnsorted)
        else if has_adjacent_equal out then Err (DInvalid FDuplicateAlias)
        else Ok out
  | _ => Err (DInvalid FAliases)
  end.

Definition encode_pred (p : option (list byte)) : CborValue :=
  match p with None => Null | Some h => Bytes h end.
Definition encode_aliases (l : list (list byte)) : CborValue := Array (map Text l).

Definition is_some {A} (o : option A) : bool := match o with Some _ => true | None => false end.

(** The entries, checked for size once encoded. *)
Definition encode_entries (es : list (Z * CborValue)) : result DescriptorError (list byte) :=
  match encode_deterministic_uint_map es with
  | Err e => Err (DCbor e)
  | Ok out => if MAX_DESCRIPTOR <? Z.of_nat (length out) then Err DTooLarge else Ok out
  end.
Definition decode_entries (bytes : list byte) (count : nat)
  : result DescriptorError (list (Z * CborValue)) :=
  if MAX_DESCRIPTOR <? Z.of_nat (length bytes) then Err DTooLarge
  else match decode_deterministic_uint_map bytes with
  | Err e => Err (DCbor e)
  | Ok es => if negb (length es =? count)%nat then Err (DInvalid FFieldCount) else Ok es
  end.

(** ** Heap descriptors *)

Definition heap_entries (d : HeapDescriptor) : list (Z * CborValue) :=
  [(1, Uint 1); (2, Bytes (hd_origin d)); (3, Bytes (hd_heap_id d)); (4, Bytes (hd_creation d));
   (5, Uint (hd_created_at d)); (6, Text HEAP_DESCRIPTOR_PROFILE);
   (7, encode_pred (hd_predecessor d)); (8, Uint (hd_sequence d));
   (9, Uint (heap_state_code (hd_state d))); (10, Text (hd_name d));
   (11, encode_aliases (hd_aliases d))].

Definition encode_heap_descriptor (d : HeapDescriptor) : result DescriptorError (list byte) :=
  let? _ := validate_name (hd_name d) in
  if hd_sequence d =? 0 then Err (DInvalid FSequence)
  else if (hd_sequence d =? 1) && is_some (hd_predecessor d) then Err (DInvalid FSeq1Predecessor)
  else if (hd_sequence d =? 1) && negb (length (hd_aliases d) =? 0)%nat
  then Err (DInvalid FSeq1Aliases)
  else
    let? _ := validate_names (hd_aliases d) in
    encode_entries (heap_entries d).

(** The locals of the decoder's loop. *)
Record HeapFields := {
  hf_version : option Z; hf_origin : option (list byte); hf_heap : option (list byte);
  hf_creation : option (list byte); hf_created_at : option Z; hf_profile : option (list byte);
  hf_pred : option (option (list byte)); hf_sequence : option Z;
  hf_state : option HeapDescriptorState; hf_name : option (list byte);
  hf_aliases : option (list (list byte)) }.
Definition no_heap_fields : HeapFields :=
  Build_HeapFields None None None None None None None None None None None.

Definition heap_field (f : HeapFields) (e : Z * CborValue) : result DescriptorError HeapFields :=
  let '(k, v) := e in
  match f with
  | Build_HeapFields a1 a2 a3 a4 a5 a6 a7 a8 a9 a10 a11 =>
      if k =? 1 then let? x := expect_uint v in
        Ok (Build_HeapFields (Some x) a2 a3 a4 a5 a6 a7 a8 a9 a10 a11)
      else if k =? 2 then let? x := expect_b16 v in
        Ok (Build_HeapFields a1 (Some x) a3 a4 a5 a6 a7 a8 a9 a10 a11)
      else if k =? 3 then let? x := expect_b16 v in
        Ok (Build_HeapFields a1 a2 (Some x) a4 a5 a6 a7 a8 a9 a10 a11)
      else if k =? 4 then let? x := expect_b16 v in
        Ok (Build_HeapFields a1 a2 a3 (Some x) a5 a6 a7 a8 a9 a10 a11)
      else if k =? 5 then let? x := expect_uint v in
        Ok (Build_HeapFields a1 a2 a3 a4 (Some x) a6 a7 a8 a9 a10 a11)
      else if k =? 6 then let? x := expect_text v in
        Ok (Build_HeapFields a1 a2 a3 a4 a5 (Some x) a7 a8 a9 a10 a11)
      else if k =? 7 then let? x := expect_pred v in
        Ok (Build_HeapFields a1 a2 a3 a4 a5 a6 (Some x) a8 a9 a10 a11)
      else if k =? 8 then let? x := expect_uint v in
        Ok (Build_HeapFields a1 a2 a3 a4 a5 a6 a7 (Some x) a9 a10 a11)
      else if k =? 9 then let? u := expect_uint v in let? x := heap_state_from_u64 u in
        Ok (Build_HeapFields a1 a2 a3 a4 a5 a6 a7 a8 (Some x) a10 a11)
      else if k =? 10 then let? x := expect_text v in
        Ok (Build_HeapFields a1 a2 a3 a4 a5 a6 a7 a8 a9 (Some x) a11)
      else if k =? 11 then let? x := expect_aliases v in
        Ok (Build_HeapFields a1 a2 a3 a4 a5 a6 a7 a8 a9 a10 (Some x))
      else Err (DInvalid FUnknownKey)
  end.
Fixpoint heap_fields (f : HeapFields) (es : list (Z * CborValue)) : result DescriptorError HeapFields :=
  match es with
  | [] => Ok f
  | e :: rest => let? f' := heap_field f e in heap_fields f' rest
  end.

Definition ok_or {A} (o : option A) (what : DescriptorField) : result DescriptorError A :=
  match o with Some a => Ok a | None => Err (DInvalid what) end.

Definition heap_of_fields (f : HeapFields) : result DescriptorError HeapDescriptor :=
  if negb (bool_decide (hf_version f = Some 1)) then Err (DInvalid FVersion)
  else if negb (bool_decide (hf_profile f = Some HEAP_DESCRIPTOR_PROFILE)) then Err (DInvalid FProfile)
  else
    let? origin := ok_or (hf_origin f) FOrigin in
    let? heap := ok_or (hf_heap f) FHeap in
    let? creation := ok_or (hf_creation f) FCreation in
    let? created_at := ok_or (hf_created_at f) FCreatedAt in
    let? pred := ok_or (hf_pred f) FPred in
    let? sequence := ok_or (hf_sequence f) FSequence in
    let? state := ok_or (hf_state f) FState in
    let? name := ok_or (hf_name f) FName in
    let? aliases := ok_or (hf_aliases f) FAliases in
    let? _ := validate_name name in
    if sequence =? 0 then Err (DInvalid FSequence)
    else if (sequence =? 1) && (is_some pred || negb (length aliases =? 0)%nat)
    then Err (DInvalid FSeq1Shape)
    else Ok {| hd_origin := origin; hd_heap_id := heap; hd_creation := creation;
               hd_created_at := created_at; hd_predecessor := pred; hd_sequence := sequence;
               hd_state := state; hd_name := name; hd_aliases := aliases |}.

Definition decode_heap_descriptor (bytes : list byte) : result DescriptorError HeapDescriptor :=
  let? es := decode_entries bytes 11 in
  let? f := heap_fields no_heap_fields es in
  heap_of_fields f.

(** ** Collection and stream descriptors *)

Definition object_entries (d : ObjectDescriptor) : list (Z * CborValue) :=
  [(1, Uint 1); (2, Bytes (od_heap_id d)); (3, Bytes (od_object_id d)); (4, Bytes (od_creation d));
   (5, Uint (od_created_at d)); (6, Text HEAP_DESCRIPTOR_PROFILE);
   (7, encode_pred (od_predecessor d)); (8, Uint (od_sequence d)); (9, Text (od_name d));
   (10, encode_aliases (od_aliases d)); (11, Uint (object_state_code (od_state d))); (12, Map [])].

Definition encode_object_descriptor (d : ObjectDescriptor) : result DescriptorError (list byte) :=
  let? _ := validate_name (od_name d) in
  if od_sequence d =? 0 then Err (DInvalid FSequence)
  else if (od_sequence d =? 1) && is_some (od_predecessor d) then Err (DInvalid FSeq1Predecessor)
  else
    let? _ := validate_names (od_aliases d) in
    encode_entries (object_entries d).

Record ObjectFields := {
  bf_version : option Z; bf_heap : option (list byte); bf_object : option (list byte);
  bf_creation : option (list byte); bf_created_at : option Z; bf_profile : option (list byte);
  bf_pred : option (option (list byte)); bf_sequence : option Z; bf_name : option (list byte);
  bf_aliases : option (list (list byte)); bf_state : option ObjectDescriptorState;
  bf_options_ok : bool }.
Definition no_object_fields : ObjectFields :=
  Build_ObjectFields None None None None None None None None None None None false.

Definition object_field (f : ObjectFields) (e : Z * CborValue) : result DescriptorError ObjectFields :=
  let '(k, v) := e in
  match f with
  | Build_ObjectFields a1 a2 a3 a4 a5 a6 a7 a8 a9 a10 a11 a12 =>
      if k =? 1 then let? x := expect_uint v in
        Ok (Build_ObjectFields (Some x) a2 a3 a4 a5 a6 a7 a8 a9 a10 a11 a12)
      else if k =? 2 then let? x := expect_b16 v in
        Ok (Build_ObjectFields a1 (Some x) a3 a4 a5 a6 a7 a8 a9 a10 a11 a12)
      else if k =? 3 then let? x := expect_b16 v in
        Ok (Build_ObjectFields a1 a2 (Some x) a4 a5 a6 a7 a8 a9 a10 a11 a12)
      else if k =? 4 then let? x := expect_b16 v in
        Ok (Build_ObjectFields a1 a2 a3 (Some x) a5 a6 a7 a8 a9 a10 a11 a12)
      else if k =? 5 then let? x := expect_uint v in
        Ok (Build_ObjectFields a1 a2 a3 a4 (Some x) a6 a7 a8 a9 a10 a11 a12)
      else if k =? 6 then let? x := expect_text v in
        Ok (Build_ObjectFields a1 a2 a3 a4 a5 (Some x) a7 a8 a9 a10 a11 a12)
      else if k =? 7 then let? x := expect_pred v in
        Ok (Build_ObjectFields a1 a2 a3 a4 a5 a6 (Some x) a8 a9 a10 a11 a12)
      else if k =? 8 then let? x := expect_uint v in
        Ok (Build_ObjectFields a1 a2 a3 a4 a5 a6 a7 (Some x) a9 a10 a11 a12)
      else if k =? 9 then let? x := expect_text v in
        Ok (Build_ObjectFields a1 a2 a3 a4 a5 a6 a7 a8 (Some x) a10 a11 a12)
      else if k =? 10 then let? x := expect_aliases v in
        Ok (Build_ObjectFields a1 a2 a3 a4 a5 a6 a7 a8 a9 (Some x) a11 a12)
      else if k =? 11 then let? u := expect_uint v in let? x := object_state_from_u64 u in
        Ok (Build_ObjectFields a1 a2 a3 a4 a5 a6 a7 a8 a9 a10 (Some x) a12)
      else if k =? 12 then
        match v with
        | Map [] => Ok (Build_ObjectFields a1 a2 a3 a4 a5 a6 a7 a8 a9 a10 a11 true)
        | _ => Err (DInvalid FOptions)
        end
      else Err (DInvalid FUnknownKey)
  end.
Fixpoint object_fields (f : ObjectFields) (es : list (Z * CborValue))
  : result DescriptorError ObjectFields :=
  match es with
  | [] => Ok f
  | e :: rest => let? f' := object_field f e in object_fields f' rest
  end.

Definition object_of_fields (f : ObjectFields) : result DescriptorError ObjectDescriptor :=
  if negb (bool_decide (bf_version f = Some 1))
     || negb (bool_decide (bf_profile f = Some HEAP_DESCRIPTOR_PROFILE)) || negb (bf_options_ok f)
  then Err (DInvalid FHeader)
  else
    let? heap := ok_or (bf_heap f) FHeap in
    let? object := ok_or (bf_object f) FObject in
    let? creation := ok_or (bf_creation f) FCreation in
    let? created_at := ok_or (bf_created_at f) FCreatedAt in
    let? pred := ok_or (bf_pred f) FPred in
    let? sequence := ok_or (bf_sequence f) FSequence in
    let? name := ok_or (bf_name f) FName in
    let? aliases := ok_or (bf_aliases f) FAliases in
    let? state := ok_or (bf_state f) FState in
    let? _ := validate_name name in
    if (sequence =? 0) || ((sequence =? 1) && is_some pred) then Err (DInvalid FSequenceShape)
    else Ok {| od_heap_id := heap; od_object_id := object; od_creation := creation;
               od_created_at := created_at; od_predecessor := pred; od_sequence := sequence;
               od_name := name; od_aliases := aliases; od_state := state |}.

Definition decode_object_descriptor (bytes : list byte) : result DescriptorError ObjectDescriptor :=
  let? es := decode_entries bytes 12 in
  let? f := object_fields no_object_fields es in
  object_of_fields f.

(** The hash that names a descriptor, in a domain of its own. *)
Definition descriptor_hash {I : IntegrityPrims} (body : list byte) : list byte :=
  hasher_finalize (hasher_update (hasher_update (hasher_update hasher_new
    (lit "RESIDIUUM-HEAP-DESCRIPTOR-V1")) [z2b 0]) body).
