(* ===== verification/DescriptorsFacts.v ===== *)
(** * Facts about descriptors

    Descriptors of the right shape are written and read back; what is read has the
    right shape and is the only thing that encodes to those bytes. *)
From S2P Require Import Prelude Cbor CborFacts Descriptors.
Open Scope list_scope.
Open Scope Z_scope.

(** ** Shapes *)

Definition name_ok (b : list byte) : Prop :=
  (1 <= length b <= 255)%nat /\ Forall (fun c => 32 <= b2z c) b.
Definition text_ok (b : list byte) : Prop := name_ok b /\ utf8_valid b = true.
Definition id_ok (n : nat) (b : list byte) : Prop := length b = n.

Record aliases_ok (l : list (list byte)) : Prop := {
  al_count : (length l <= 64)%nat;
  al_names : Forall text_ok l;
  al_sorted : StronglySorted bytes_lt l }.

Record heap_ok (d : HeapDescriptor) : Prop := {
  hk_origin : id_ok 16 (hd_origin d);
  hk_heap : id_ok 16 (hd_heap_id d);
  hk_creation : id_ok 16 (hd_creation d);
  hk_created : in_u64 (hd_created_at d);
  hk_pred h : hd_predecessor d = Some h -> id_ok 32 h;
  hk_sequence : in_u64 (hd_sequence d) /\ 1 <= hd_sequence d;
  hk_name : text_ok (hd_name d);
  hk_aliases : aliases_ok (hd_aliases d);
  hk_first : hd_sequence d = 1 -> hd_predecessor d = None /\ hd_aliases d = [] }.

Record object_ok (d : ObjectDescriptor) : Prop := {
  ok_heap : id_ok 16 (od_heap_id d);
  ok_object : id_ok 16 (od_object_id d);
  ok_creation : id_ok 16 (od_creation d);
  ok_created : in_u64 (od_created_at d);
  ok_pred h : od_predecessor d = Some h -> id_ok 32 h;
  ok_sequence : in_u64 (od_sequence d) /\ 1 <= od_sequence d;
  ok_name : text_ok (od_name d);
  ok_aliases : aliases_ok (od_aliases d);
  ok_first : od_sequence d = 1 -> od_predecessor d = None }.

(** ** Fields *)

Lemma validate_name_ok b : validate_name b = Ok tt <-> name_ok b.
Proof.
  unfold validate_name, name_ok. destruct (Nat.eqb_spec (length b) 0); simpl; [split; [done|lia]|].
  destruct (Nat.ltb_spec 255 (length b)); simpl; [split; [done|lia]|].
  destruct (existsb _ b) eqn:He.
  - split; [done|]. intros [_ Hf]. apply existsb_exists in He as (c & Hc%list_elem_of_In & Hb).
    rewrite Forall_forall in Hf. specialize (Hf c Hc). boolify. lia.
  - split; [|done]. intros _. split; [lia|]. apply Forall_forall. intros c Hc%list_elem_of_In.
    apply not_true_iff_false in He. destruct (Z.le_gt_cases 32 (b2z c)); [done|]. exfalso. apply He.
    apply existsb_exists. exists c. split; [done|]. apply orb_true_iff. right. by apply Z.ltb_lt.
Qed.
Lemma validate_names_ok l : Forall name_ok l -> validate_names l = Ok tt.
Proof.
  induction 1 as [|b l Hb _ IH]; [done|]. cbn [validate_names].
  apply validate_name_ok in Hb as ->. done.
Qed.

Lemma expect_id_ok n w b : id_ok n b -> expect_id n w (Bytes b) = Ok b.
Proof. unfold expect_id, id_ok. intros <-. by rewrite Nat.eqb_refl. Qed.
Lemma expect_id_inv n w v b : expect_id n w v = Ok b -> v = Bytes b /\ id_ok n b.
Proof.
  unfold expect_id, id_ok. destruct v as [| |b'| | | | |]; try done.
  destruct (Nat.eqb_spec (length b') n); [|done]. by intros [= ->].
Qed.
Lemma expect_uint_inv v u : expect_uint v = Ok u -> v = Uint u.
Proof. destruct v; try done. by intros [= ->]. Qed.
Lemma expect_text_inv v s : expect_text v = Ok s -> v = Text s.
Proof. destruct v; try done. by intros [= ->]. Qed.

Lemma expect_pred_ok p : (forall h, p = Some h -> id_ok 32 h) -> expect_pred (encode_pred p) = Ok p.
Proof.
  intros H. destruct p as [h|]; [|done]. unfold expect_pred, encode_pred, expect_b32.
  by rewrite expect_id_ok by by apply H.
Qed.
Lemma expect_pred_inv v p : expect_pred v = Ok p -> v = encode_pred p /\ forall h, p = Some h -> id_ok 32 h.
Proof.
  unfold expect_pred. destruct v as [n|n|b|s|l|es|b|]; try done.
  - unfold expect_b32. destruct (expect_id _ _ _) as [h|] eqn:He; [|done]. intros [= <-].
    apply expect_id_inv in He as [[= ->] Hh]. split; [done|]. by intros ? [= <-].
  - by intros [= <-].
Qed.

Lemma alias_texts_ok l : Forall name_ok l -> alias_texts (map Text l) = Ok l.
Proof.
  induction 1 as [|b l Hb _ IH]; [done|]. cbn [map alias_texts expect_text].
  apply validate_name_ok in Hb as ->. by rewrite IH.
Qed.
Lemma alias_texts_inv items : forall l, alias_texts items = Ok l -> items = map Text l /\ Forall name_ok l.
Proof.
  induction items as [|v items IH]; intros l; cbn [alias_texts]; [by intros [= <-]|].
  destruct (expect_text v) as [s|] eqn:Hs; [|done]. apply expect_text_inv in Hs as ->.
  destruct (validate_name s) as [[]|] eqn:Hn; [|done]. apply validate_name_ok in Hn.
  destruct (alias_texts items) as [out|]; [|done]. intros [= <-].
  destruct (IH out eq_refl) as [-> Hf]. split; [done|by constructor].
Qed.

Lemma bytes_not_gt_trans x y z : not_gt bytes_cmp x y -> not_gt bytes_cmp y z -> not_gt bytes_cmp x z.
Proof.
  unfold not_gt. intros Hxy Hyz Hxz. apply bytes_cmp_Gt in Hxz.
  destruct (bytes_cmp x y) eqn:E1; [|destruct (bytes_cmp y z) eqn:E2|done]; [|..|done].
  - apply bytes_cmp_Eq in E1 as ->. apply Hyz. rewrite bytes_cmp_antisym. unfold bytes_lt in Hxz. by rewrite Hxz.
  - apply bytes_cmp_Eq in E2 as ->. unfold bytes_lt in Hxz. rewrite bytes_cmp_antisym, E1 in Hxz. done.
  - pose proof (bytes_lt_trans _ _ _ E1 E2) as H. unfold bytes_lt in *. rewrite bytes_cmp_antisym, H in Hxz. done.
Qed.

(** Sorted without adjacent duplicates is strictly ascending. *)
Lemma strictly_ascending l :
  StronglySorted bytes_lt l <-> sort_by bytes_cmp l = l /\ has_adjacent_equal l = false.
Proof.
  pose proof (sort_by_sorted bytes_cmp (fun x y => bytes_cmp_antisym x y) bytes_not_gt_trans l) as Hss.
  split.
  - intros Hs. split.
    + apply sort_by_id. induction Hs as [|x l _ IH Hx]; constructor; [|].
      * apply IH. apply sort_by_sorted; [intros; apply bytes_cmp_antisym|apply bytes_not_gt_trans].
      * eapply Forall_impl; [exact Hx|]. unfold bytes_lt, not_gt. congruence.
    + clear Hss. induction Hs as [|x l _ IH Hx]; [done|]. destruct l as [|y l]; [done|].
      change (bytes_eqb x y || has_adjacent_equal (y :: l) = false). rewrite IH. apply Forall_cons in Hx as [Hx _]. unfold bytes_eqb.
      rewrite bool_decide_false; [done|]. intros ->. unfold bytes_lt in Hx.
      by rewrite (proj2 (bytes_cmp_Eq y y) eq_refl) in Hx.
  - intros [Hsort Hadj]. rewrite Hsort in Hss. clear Hsort. induction Hss as [|x l Hl IH Hx]; [constructor|].
    destruct l as [|y l]; [repeat constructor|]. change (bytes_eqb x y || has_adjacent_equal (y :: l) = false) in Hadj.
    apply orb_false_iff in Hadj as [Hxy Hadj]. specialize (IH Hadj). constructor; [done|].
    assert (Hlt : bytes_lt x y).
    { apply Forall_cons in Hx as [Hx _]. unfold not_gt, bytes_lt in *. unfold bytes_eqb in Hxy.
      apply bool_decide_eq_false in Hxy. destruct (bytes_cmp x y) eqn:E; [|done|done].
      by apply bytes_cmp_Eq in E. }
    constructor; [done|]. apply StronglySorted_inv in IH as [_ Hy].
    eapply Forall_impl; [exact Hy|]. intros z Hz. by eapply bytes_lt_trans.
Qed.

Lemma expect_aliases_ok l : aliases_ok l -> expect_aliases (encode_aliases l) = Ok l.
Proof.
  intros [Hc Hn Hs]. unfold expect_aliases, encode_aliases. rewrite length_map, (proj2 (Nat.ltb_ge _ _)) by done.
  rewrite alias_texts_ok by (eapply Forall_impl; [exact Hn|]; by intros b [? _]).
  apply strictly_ascending in Hs as [Hs Ha]. rewrite bool_decide_true by done. by rewrite Ha.
Qed.
Lemma expect_aliases_inv v l : expect_aliases v = Ok l -> canonical v ->
  v = encode_aliases l /\ aliases_ok l.
Proof.
  unfold expect_aliases. destruct v as [| | | |items| | |]; try done.
  destruct (Nat.ltb_spec 64 (length items)); [done|].
  destruct (alias_texts items) as [out|] eqn:Ht; [|done]. apply alias_texts_inv in Ht as [-> Hn].
  case_bool_decide as Hs; [|done]. cbn [negb]. destruct (has_adjacent_equal out) eqn:Ha; [done|].
  intros [= <-] [_ Hc]. split; [done|]. apply foldr_and_Forall in Hc. rewrite length_map in *.
  split; [done| |by apply strictly_ascending]. apply Forall_forall. intros b Hb.
  rewrite Forall_forall in Hn. rewrite Forall_forall in Hc.
  split; [by apply Hn|]. specialize (Hc (Text b) (list_elem_of_fmap_2 _ _ _ Hb)). apply Hc.
Qed.

(** ** Keys *)

Lemma incr_bound ks : forall k m, incr (Some k) ks -> Forall (fun x => x <= m) ks -> k <= m ->
  k + Z.of_nat (length ks) <= m.
Proof.
  induction ks as [|x ks IH]; intros k m; simpl; [lia|]. intros [Hx Hi] [Hm Hf]%Forall_cons _.
  specialize (IH x m Hi Hf Hm). lia.
Qed.
Lemma incr_exact ks : forall a, incr (Some a) ks -> Forall (fun x => x <= a + Z.of_nat (length ks)) ks ->
  ks = map (fun i => a + Z.of_nat i) (seq 1 (length ks)).
Proof.
  induction ks as [|k ks IH]; intros a; [done|]. cbn [incr length below]. intros [Hk Hi] [Hm Hf]%Forall_cons.
  pose proof (incr_bound ks k _ Hi Hf Hm). assert (k = a + 1) as -> by lia.
  cbn [seq map]. f_equal. rewrite (IH (a + 1) Hi) at 1.
  - rewrite <- (seq_shift _ 1), map_map. apply map_ext. intros i. lia.
  - eapply Forall_impl; [exact Hf|]. intros x Hx. simpl in Hx. lia.
Qed.

(** Canonical entries with keys from 1 to [n], as many, have exactly these keys. *)
Lemma canonical_keys es n : canonical_map es -> length es = n ->
  Forall (fun e => 1 <= fst e <= Z.of_nat n) es -> map fst es = map Z.of_nat (seq 1 n).
Proof.
  intros (_ & Hi & _) Hl Hf. rewrite (map_ext Z.of_nat (fun i => 0 + Z.of_nat i)) by (intros; lia).
  rewrite <- Hl. rewrite <- (length_map fst es). apply incr_exact.
  - destruct es as [|[k v] es]; [done|]. simpl in *. split; [|apply Hi].
    apply Forall_cons in Hf as [Hf _]. simpl in Hf. lia.
  - rewrite length_map, Hl. apply Forall_fmap. eapply Forall_impl; [exact Hf|]. intros e He. unfold compose. simpl in He. lia.
Qed.

Lemma heap_field_key f e f' : heap_field f e = Ok f' -> 1 <= fst e <= 11.
Proof.
  destruct e as [k v], f. unfold heap_field. cbn [fst].
  repeat (match goal with |- context [k =? ?n] => destruct (Z.eqb_spec k n); [lia|] end). done.
Qed.
Lemma heap_fields_keys es : forall f f', heap_fields f es = Ok f' -> Forall (fun e => 1 <= fst e <= 11) es.
Proof.
  induction es as [|e es IH]; intros f f'; [constructor|]. cbn [heap_fields].
  destruct (heap_field f e) as [f1|] eqn:He; [|done]. intros Hr. constructor; [by eapply heap_field_key|by eapply IH].
Qed.
Lemma object_field_key f e f' : object_field f e = Ok f' -> 1 <= fst e <= 12.
Proof.
  destruct e as [k v], f. unfold object_field. cbn [fst].
  repeat (match goal with |- context [k =? ?n] => destruct (Z.eqb_spec k n); [lia|] end). done.
Qed.
Lemma object_fields_keys es : forall f f', object_fields f es = Ok f' -> Forall (fun e => 1 <= fst e <= 12) es.
Proof.
  induction es as [|e es IH]; intros f f'; [constructor|]. cbn [object_fields].
  destruct (object_field f e) as [f1|] eqn:He; [|done]. intros Hr. constructor; [by eapply object_field_key|by eapply IH].
Qed.

(** ** Canonical entries *)

Lemma text_canonical b : text_ok b -> canonical (Text b).
Proof.
  intros [[Hl _] Hu]. simpl. split; [|done]. unfold in_u64, U64_MAX. lia.
Qed.
Lemma bytes_canonical b n : id_ok n b -> (n <= 32)%nat -> canonical (Bytes b).
Proof. unfold id_ok. intros <- Hn. simpl. unfold in_u64, U64_MAX. lia. Qed.
Lemma pred_canonical p : (forall h, p = Some h -> id_ok 32 h) -> canonical (encode_pred p).
Proof. destruct p as [h|]; intros H; [|done]. apply (bytes_canonical h 32); [by apply H|lia]. Qed.
Lemma aliases_canonical l : aliases_ok l -> canonical (encode_aliases l).
Proof.
  intros [Hc Hn _]. simpl. rewrite length_map. split; [unfold in_u64, U64_MAX; lia|].
  apply foldr_and_Forall, Forall_fmap. eapply Forall_impl; [exact Hn|]. intros b Hb. by apply text_canonical.
Qed.

(** A head takes at most nine bytes. *)
Lemma head_length m a : (length (write_type_arg m a) <= 9)%nat.
Proof. unfold write_type_arg. repeat case_match; simpl; rewrite ?length_be_bytes; lia. Qed.

Lemma aliases_length l : aliases_ok l -> (length (enc (encode_aliases l)) <= 9 + 64 * 264)%nat.
Proof.
  intros [Hc Hn _]. cbn [encode_aliases enc]. rewrite length_app.
  pose proof (head_length 4 (Z.of_nat (length (map Text l)))). enough (length (concat (map enc (map Text l))) <= length l * 264)%nat by lia.
  clear Hc H. induction Hn as [|b l [[Hb _] _] _ IH]; [simpl; lia|]. cbn [map concat enc length]. rewrite !length_app.
  pose proof (head_length 3 (Z.of_nat (length b))). lia.
Qed.

(** ** Heap descriptors *)

Ltac canonical_fields state :=
  repeat (apply Forall_cons; split; [split; [done|]; cbn [snd]|]); [..|by apply Forall_nil];
  first [done | by apply (bytes_canonical _ 16); [|lia] | by apply pred_canonical
        | by apply text_canonical | by apply aliases_canonical | by destruct state].

Lemma heap_canonical d : heap_ok d -> canonical_map (heap_entries d).
Proof.
  intros [? ? ? ? ? [? _] ? ? ?]. split; [done|]. split; [by repeat split|]. unfold heap_entries.
  canonical_fields (hd_state d).
Qed.

(** The encoded size of an entry. *)
Definition entry_size (v : CborValue) : nat := (9 + length (enc v))%nat.
Lemma enc_map_length es : (length (enc_map es) <= 9 + sum_list_with (fun e => entry_size (snd e)) es)%nat.
Proof.
  unfold enc_map. rewrite length_app. pose proof (head_length 5 (Z.of_nat (length es))).
  enough (length (concat (map enc_entry es)) <= sum_list_with (fun e => entry_size (snd e)) es)%nat by lia.
  clear H. induction es as [|e es IH]; [done|]. cbn [map concat sum_list_with]. rewrite length_app.
  unfold enc_entry at 1, write_uint, entry_size at 1. rewrite length_app. pose proof (head_length 0 (fst e)). lia.
Qed.
Lemma bytes_size b n : id_ok n b -> (entry_size (Bytes b) <= 18 + n)%nat.
Proof.
  unfold id_ok, entry_size. intros <-. cbn [enc]. rewrite length_app.
  pose proof (head_length 2 (Z.of_nat (length b))). lia.
Qed.
Lemma uint_size n : (entry_size (Uint n) <= 18)%nat.
Proof. unfold entry_size. cbn [enc]. pose proof (head_length 0 n). lia. Qed.
Lemma text_size b : text_ok b -> (entry_size (Text b) <= 18 + 255)%nat.
Proof.
  intros [[Hl _] _]. unfold entry_size. cbn [enc]. rewrite length_app.
  pose proof (head_length 3 (Z.of_nat (length b))). lia.
Qed.
Lemma pred_size p : (forall h, p = Some h -> id_ok 32 h) -> (entry_size (encode_pred p) <= 18 + 32)%nat.
Proof. destruct p as [h|]; intros H; [apply bytes_size; by apply H|]. unfold entry_size. simpl. lia. Qed.
Lemma aliases_size l : aliases_ok l -> (entry_size (encode_aliases l) <= 18 + 64 * 264)%nat.
Proof. intros Hl. unfold entry_size. pose proof (aliases_length l Hl). lia. Qed.

Lemma profile_size : (entry_size (Text HEAP_DESCRIPTOR_PROFILE) <= 100)%nat.
Proof. vm_compute. lia. Qed.

Lemma heap_length d : heap_ok d -> Z.of_nat (length (enc_map (heap_entries d))) <= MAX_DESCRIPTOR.
Proof.
  intros []. pose proof (enc_map_length (heap_entries d)) as H. unfold heap_entries in *.
  cbn [sum_list_with snd] in H.
  pose proof (uint_size 1). pose proof (bytes_size _ _ hk_origin0). pose proof (bytes_size _ _ hk_heap0).
  pose proof (bytes_size _ _ hk_creation0). pose proof (uint_size (hd_created_at d)).
  pose proof profile_size. pose proof (pred_size _ hk_pred0). pose proof (uint_size (hd_sequence d)).
  pose proof (uint_size (heap_state_code (hd_state d))). pose proof (text_size _ hk_name0).
  pose proof (aliases_size _ hk_aliases0). unfold MAX_DESCRIPTOR. lia.
Qed.

Lemma encode_entries_ok es : canonical_map es -> Z.of_nat (length (enc_map es)) <= MAX_DESCRIPTOR ->
  encode_entries es = Ok (enc_map es).
Proof.
  intros Hc Hl. unfold encode_entries. rewrite canonical_map_encode by done. by rewrite (proj2 (Z.ltb_ge _ _)).
Qed.
Lemma decode_entries_ok es n : canonical_map es -> length es = n ->
  Z.of_nat (length (enc_map es)) <= MAX_DESCRIPTOR -> decode_entries (enc_map es) n = Ok es.
Proof.
  intros Hc Hn Hl. unfold decode_entries. rewrite (proj2 (Z.ltb_ge _ _)) by done.
  rewrite decode_enc by done. by rewrite Hn, Nat.eqb_refl.
Qed.
Lemma decode_entries_inv bs n es : decode_entries bs n = Ok es ->
  canonical_map es /\ length es = n /\ bs = enc_map es /\ Z.of_nat (length bs) <= MAX_DESCRIPTOR.
Proof.
  unfold decode_entries. destruct (Z.ltb_spec MAX_DESCRIPTOR (Z.of_nat (length bs))); [done|].
  destruct (decode_deterministic_uint_map bs) as [es'|] eqn:Hd; [|done].
  destruct (Nat.eqb_spec (length es') n); [|done]. cbn [negb]. intros [= <-].
  apply decode_canonical in Hd as (? & ? & _). split_and!; done.
Qed.

Lemma heap_state_code_ok s : heap_state_from_u64 (heap_state_code s) = Ok s.
Proof. by destruct s. Qed.
Lemma heap_state_inv u s : heap_state_from_u64 u = Ok s -> u = heap_state_code s.
Proof.
  unfold heap_state_from_u64.
  repeat (match goal with |- context [u =? ?n] => destruct (Z.eqb_spec u n); [by intros [= <-]|] end). done.
Qed.

Lemma is_some_none {A} (o : option A) : is_some o = false <-> o = None.
Proof. by destruct o. Qed.

Lemma heap_roundtrip d : heap_ok d ->
  encode_heap_descriptor d = Ok (enc_map (heap_entries d))
  /\ decode_heap_descriptor (enc_map (heap_entries d)) = Ok d.
Proof.
  intros Hd. pose proof (heap_canonical d Hd) as Hc. pose proof (heap_length d Hd) as Hl.
  destruct Hd as [Hor Hhe Hcr Hca Hpr [Hse Hse1] Hna Hal Hfi].
  pose proof (proj2 (validate_name_ok _) (proj1 Hna)) as Hvn. split.
  - unfold encode_heap_descriptor. rewrite Hvn. rewrite (proj2 (Z.eqb_neq _ _)) by lia.
    rewrite validate_names_ok by (eapply Forall_impl; [apply Hal|]; by intros b [? _]).
    rewrite encode_entries_ok by done. destruct (Z.eqb_spec (hd_sequence d) 1) as [H1|]; [|done].
    by destruct (Hfi H1) as [-> ->].
  - unfold decode_heap_descriptor. rewrite decode_entries_ok by done.
    unfold heap_entries. cbn -[expect_b16 expect_pred expect_aliases heap_state_from_u64 encode_pred encode_aliases HEAP_DESCRIPTOR_PROFILE].
    unfold expect_b16. rewrite !expect_id_ok by done. rewrite expect_pred_ok by done.
    rewrite expect_aliases_ok by done. rewrite heap_state_code_ok.
    unfold heap_of_fields. cbn [hf_version hf_profile hf_origin hf_heap hf_creation hf_created_at hf_pred hf_sequence hf_state hf_name hf_aliases ok_or].
    rewrite !bool_decide_true by done. cbn [negb]. rewrite Hvn. rewrite (proj2 (Z.eqb_neq _ _)) by lia.
    destruct (Z.eqb_spec (hd_sequence d) 1) as [H1|]; [|by destruct d].
    destruct d; simpl in *. destruct (Hfi H1) as [-> ->]. done.
Qed.

(** Eleven or twelve entries with the keys from one on. *)
Lemma keys_11 (es : list (Z * CborValue)) : map fst es = map Z.of_nat (seq 1 11) ->
  exists v1 v2 v3 v4 v5 v6 v7 v8 v9 v10 v11,
    es = [(1, v1); (2, v2); (3, v3); (4, v4); (5, v5); (6, v6); (7, v7); (8, v8); (9, v9); (10, v10); (11, v11)].
Proof.
  intros H. do 11 (destruct es as [|[? ?] es]; [done|]). destruct es; [|done]. simpl in H.
  injection H as -> -> -> -> -> -> -> -> -> -> ->. by repeat eexists.
Qed.

Lemma heap_decode_fields es f : canonical_map es -> length es = 11%nat ->
  heap_fields no_heap_fields es = Ok f ->
  exists ver or he cr ca pr pf se st na al,
    f = Build_HeapFields (Some ver) (Some or) (Some he) (Some cr) (Some ca) (Some pr) (Some pf) (Some se)
          (Some st) (Some na) (Some al)
    /\ es = [(1, Uint ver); (2, Bytes or); (3, Bytes he); (4, Bytes cr); (5, Uint ca); (6, Text pr);
             (7, encode_pred pf); (8, Uint se); (9, Uint (heap_state_code st)); (10, Text na);
             (11, encode_aliases al)]
    /\ id_ok 16 or /\ id_ok 16 he /\ id_ok 16 cr /\ (forall h, pf = Some h -> id_ok 32 h) /\ aliases_ok al.
Proof.
  intros Hc Hl Hf. pose proof (canonical_keys es 11 Hc Hl (heap_fields_keys _ _ _ Hf)) as Hk.
  apply keys_11 in Hk as (v1 & v2 & v3 & v4 & v5 & v6 & v7 & v8 & v9 & v10 & v11 & ->).
  destruct Hc as (_ & _ & Hcan). cbn -[expect_uint expect_text expect_b16 expect_pred expect_aliases heap_state_from_u64] in Hf.
  destruct (expect_uint v1) as [ver|] eqn:E1; [|done]. destruct (expect_b16 v2) as [or|] eqn:E2; [|done].
  destruct (expect_b16 v3) as [he|] eqn:E3; [|done]. destruct (expect_b16 v4) as [cr|] eqn:E4; [|done].
  destruct (expect_uint v5) as [ca|] eqn:E5; [|done]. destruct (expect_text v6) as [pr|] eqn:E6; [|done].
  destruct (expect_pred v7) as [pf|] eqn:E7; [|done]. destruct (expect_uint v8) as [se|] eqn:E8; [|done].
  destruct (expect_uint v9) as [u|] eqn:E9; [|done]. destruct (heap_state_from_u64 u) as [st|] eqn:E9'; [|done].
  destruct (expect_text v10) as [na|] eqn:E10; [|done]. destruct (expect_aliases v11) as [al|] eqn:E11; [|done].
  injection Hf as <-.
  apply expect_uint_inv in E1 as ->. apply expect_id_inv in E2 as [-> H2]. apply expect_id_inv in E3 as [-> H3].
  apply expect_id_inv in E4 as [-> H4]. apply expect_uint_inv in E5 as ->. apply expect_text_inv in E6 as ->.
  apply expect_pred_inv in E7 as [-> H7]. apply expect_uint_inv in E8 as ->. apply expect_uint_inv in E9 as ->.
  apply heap_state_inv in E9' as ->. apply expect_text_inv in E10 as ->.
  apply expect_aliases_inv in E11 as [-> H11].
  2: { rewrite Forall_forall in Hcan. apply (Hcan (11, v11)). set_solver. }
  exists ver, or, he, cr, ca, pr, pf, se, st, na, al. split_and!; done.
Qed.

Lemma heap_decode_inv bs d : decode_heap_descriptor bs = Ok d ->
  heap_ok d /\ bs = enc_map (heap_entries d).
Proof.
  unfold decode_heap_descriptor. destruct (decode_entries bs 11) as [es|] eqn:Hd; [|done].
  apply decode_entries_inv in Hd as (Hc & Hl & -> & _).
  destruct (heap_fields no_heap_fields es) as [f|] eqn:Hf; [|done].
  apply (heap_decode_fields es f Hc Hl) in Hf
    as (ver & or & he & cr & ca & pr & pf & se & st & na & al & -> & -> & H2 & H3 & H4 & H7 & H11).
  unfold heap_of_fields. cbn [hf_version hf_profile hf_origin hf_heap hf_creation hf_created_at hf_pred hf_sequence hf_state hf_name hf_aliases ok_or].
  case_bool_decide as Hv; [|done]. case_bool_decide as Hp; [|done]. cbn [negb].
  injection Hv as ->. apply (inj Some) in Hp as ->.
  destruct (validate_name na) as [[]|] eqn:Hn; [|done]. apply validate_name_ok in Hn.
  destruct (Z.eqb_spec se 0); [done|]. destruct ((se =? 1) && _) eqn:H1; [done|]. intros [= <-].
  split; [|done]. destruct Hc as (_ & _ & Hcan). rewrite Forall_forall in Hcan.
  pose proof (Hcan (5, Uint ca) ltac:(set_solver)) as [_ Hca]. pose proof (Hcan (8, Uint se) ltac:(set_solver)) as [_ Hse].
  pose proof (Hcan (10, Text na) ltac:(set_solver)) as [_ [_ Hna]].
  split; cbn [hd_origin hd_heap_id hd_creation hd_created_at hd_predecessor hd_sequence hd_state hd_name hd_aliases]; try done.
  - split; [done|]. simpl in Hse. unfold in_u64 in Hse. lia.
  - intros ->. simpl in H1. apply orb_false_iff in H1 as [Hs Ha]. apply is_some_none in Hs as ->.
    split; [done|]. apply negb_false_iff, Nat.eqb_eq, nil_length_inv in Ha. done.
Qed.

(** ** Object descriptors *)

Lemma object_canonical d : object_ok d -> canonical_map (object_entries d).
Proof.
  intros [? ? ? ? ? [? _] ? ? ?]. split; [done|]. split; [by repeat split|]. unfold object_entries.
  canonical_fields (od_state d).
Qed.

Lemma object_length d : object_ok d -> Z.of_nat (length (enc_map (object_entries d))) <= MAX_DESCRIPTOR.
Proof.
  intros []. pose proof (enc_map_length (object_entries d)) as H. unfold object_entries in *.
  cbn [sum_list_with snd] in H.
  pose proof (uint_size 1). pose proof (bytes_size _ _ ok_heap0). pose proof (bytes_size _ _ ok_object0).
  pose proof (bytes_size _ _ ok_creation0). pose proof (uint_size (od_created_at d)).
  pose proof profile_size. pose proof (pred_size _ ok_pred0). pose proof (uint_size (od_sequence d)).
  pose proof (uint_size (object_state_code (od_state d))). pose proof (text_size _ ok_name0).
  pose proof (aliases_size _ ok_aliases0). assert (entry_size (Map []) = 10%nat) by done.
  unfold MAX_DESCRIPTOR. lia.
Qed.

Lemma object_state_code_ok s : object_state_from_u64 (object_state_code s) = Ok s.
Proof. by destruct s. Qed.
Lemma object_state_inv u s : object_state_from_u64 u = Ok s -> u = object_state_code s.
Proof.
  unfold object_state_from_u64.
  repeat (match goal with |- context [u =? ?n] => destruct (Z.eqb_spec u n); [by intros [= <-]|] end). done.
Qed.

Lemma object_roundtrip d : object_ok d ->
  encode_object_descriptor d = Ok (enc_map (object_entries d))
  /\ decode_object_descriptor (enc_map (object_entries d)) = Ok d.
Proof.
  intros Hd. pose proof (object_canonical d Hd) as Hc. pose proof (object_length d Hd) as Hl.
  destruct Hd as [Hhe Hob Hcr Hca Hpr [Hse Hse1] Hna Hal Hfi].
  pose proof (proj2 (validate_name_ok _) (proj1 Hna)) as Hvn. split.
  - unfold encode_object_descriptor. rewrite Hvn. rewrite (proj2 (Z.eqb_neq _ _)) by lia.
    rewrite validate_names_ok by (eapply Forall_impl; [apply Hal|]; by intros b [? _]).
    rewrite encode_entries_ok by done. destruct (Z.eqb_spec (od_sequence d) 1) as [H1|]; [|done].
    by rewrite (Hfi H1).
  - unfold decode_object_descriptor. rewrite decode_entries_ok by done.
    unfold object_entries. cbn -[expect_b16 expect_pred expect_aliases object_state_from_u64 encode_pred encode_aliases HEAP_DESCRIPTOR_PROFILE].
    unfold expect_b16. rewrite !expect_id_ok by done. rewrite expect_pred_ok by done.
    rewrite expect_aliases_ok by done. rewrite object_state_code_ok.
    unfold object_of_fields. cbn [bf_version bf_profile bf_heap bf_object bf_creation bf_created_at bf_pred bf_sequence bf_name bf_aliases bf_state bf_options_ok ok_or].
    rewrite !bool_decide_true by done. cbn [negb orb]. rewrite Hvn. rewrite (proj2 (Z.eqb_neq _ _)) by lia.
    destruct (Z.eqb_spec (od_sequence d) 1) as [H1|]; [|by destruct d].
    destruct d; simpl in *. rewrite (Hfi H1). done.
Qed.

Lemma keys_12 (es : list (Z * CborValue)) : map fst es = map Z.of_nat (seq 1 12) ->
  exists v1 v2 v3 v4 v5 v6 v7 v8 v9 v10 v11 v12,
    es = [(1, v1); (2, v2); (3, v3); (4, v4); (5, v5); (6, v6); (7, v7); (8, v8); (9, v9); (10, v10);
          (11, v11); (12, v12)].
Proof.
  intros H. do 12 (destruct es as [|[? ?] es]; [done|]). destruct es; [|done]. simpl in H.
  injection H as -> -> -> -> -> -> -> -> -> -> -> ->. by repeat eexists.
Qed.

Lemma object_decode_fields es f : canonical_map es -> length es = 12%nat ->
  object_fields no_object_fields es = Ok f ->
  exists ver he ob cr ca pr pf se na al st,
    f = Build_ObjectFields (Some ver) (Some he) (Some ob) (Some cr) (Some ca) (Some pr) (Some pf) (Some se)
          (Some na) (Some al) (Some st) true
    /\ es = [(1, Uint ver); (2, Bytes he); (3, Bytes ob); (4, Bytes cr); (5, Uint ca); (6, Text pr);
             (7, encode_pred pf); (8, Uint se); (9, Text na); (10, encode_aliases al);
             (11, Uint (object_state_code st)); (12, Map [])]
    /\ id_ok 16 he /\ id_ok 16 ob /\ id_ok 16 cr /\ (forall h, pf = Some h -> id_ok 32 h) /\ aliases_ok al.
Proof.
  intros Hc Hl Hf. pose proof (canonical_keys es 12 Hc Hl (object_fields_keys _ _ _ Hf)) as Hk.
  apply keys_12 in Hk as (v1 & v2 & v3 & v4 & v5 & v6 & v7 & v8 & v9 & v10 & v11 & v12 & ->).
  destruct Hc as (_ & _ & Hcan). cbn -[expect_uint expect_text expect_b16 expect_pred expect_aliases object_state_from_u64] in Hf.
  destruct (expect_uint v1) as [ver|] eqn:E1; [|done]. destruct (expect_b16 v2) as [he|] eqn:E2; [|done].
  destruct (expect_b16 v3) as [ob|] eqn:E3; [|done]. destruct (expect_b16 v4) as [cr|] eqn:E4; [|done].
  destruct (expect_uint v5) as [ca|] eqn:E5; [|done]. destruct (expect_text v6) as [pr|] eqn:E6; [|done].
  destruct (expect_pred v7) as [pf|] eqn:E7; [|done]. destruct (expect_uint v8) as [se|] eqn:E8; [|done].
  destruct (expect_text v9) as [na|] eqn:E9; [|done]. destruct (expect_aliases v10) as [al|] eqn:E10; [|done].
  destruct (expect_uint v11) as [u|] eqn:E11; [|done]. destruct (object_state_from_u64 u) as [st|] eqn:E11'; [|done].
  destruct v12 as [| | | | |[|]| |]; try done. injection Hf as <-.
  apply expect_uint_inv in E1 as ->. apply expect_id_inv in E2 as [-> H2]. apply expect_id_inv in E3 as [-> H3].
  apply expect_id_inv in E4 as [-> H4]. apply expect_uint_inv in E5 as ->. apply expect_text_inv in E6 as ->.
  apply expect_pred_inv in E7 as [-> H7]. apply expect_uint_inv in E8 as ->. apply expect_text_inv in E9 as ->.
  apply expect_uint_inv in E11 as ->. apply object_state_inv in E11' as ->.
  apply expect_aliases_inv in E10 as [-> H10].
  2: { rewrite Forall_forall in Hcan. apply (Hcan (10, v10)). set_solver. }
  exists ver, he, ob, cr, ca, pr, pf, se, na, al, st. split_and!; done.
Qed.

Lemma object_decode_inv bs d : decode_object_descriptor bs = Ok d ->
  object_ok d /\ bs = enc_map (object_entries d).
Proof.
  unfold decode_object_descriptor. destruct (decode_entries bs 12) as [es|] eqn:Hd; [|done].
  apply decode_entries_inv in Hd as (Hc & Hl & -> & _).
  destruct (object_fields no_object_fields es) as [f|] eqn:Hf; [|done].
  apply (object_decode_fields es f Hc Hl) in Hf
    as (ver & he & ob & cr & ca & pr & pf & se & na & al & st & -> & -> & H2 & H3 & H4 & H7 & H10).
  unfold object_of_fields. cbn [bf_version bf_profile bf_heap bf_object bf_creation bf_created_at bf_pred bf_sequence bf_name bf_aliases bf_state bf_options_ok ok_or].
  case_bool_decide as Hv; [|done]. case_bool_decide as Hp; [|done]. cbn [negb orb].
  injection Hv as ->. apply (inj Some) in Hp as ->.
  destruct (validate_name na) as [[]|] eqn:Hn; [|done]. apply validate_name_ok in Hn.
  destruct ((se =? 0) || _) eqn:H1; [done|]. intros [= <-]. apply orb_false_iff in H1 as [H0 H1].
  apply Z.eqb_neq in H0. split; [|done]. destruct Hc as (_ & _ & Hcan). rewrite Forall_forall in Hcan.
  pose proof (Hcan (5, Uint ca) ltac:(set_solver)) as [_ Hca]. pose proof (Hcan (8, Uint se) ltac:(set_solver)) as [_ Hse].
  pose proof (Hcan (9, Text na) ltac:(set_solver)) as [_ [_ Hna]].
  split; cbn [od_heap_id od_object_id od_creation od_created_at od_predecessor od_sequence od_state od_name od_aliases]; try done.
  - split; [done|]. simpl in Hse. unfold in_u64 in Hse. lia.
  - intros ->. simpl in H1. by apply is_some_none in H1.
Qed.

(** ** Claims *)

(** A descriptor that decodes is well formed -- identities of 16 bytes, a
    32-byte predecessor hash where there is one, a name of 1 to 255 UTF-8 bytes
    without control characters, at most 64 aliases of that kind in strictly
    ascending order, a sequence from 1 on, and at sequence 1 no predecessor (nor
    aliases for a heap) -- and encodes to exactly the bytes it was read from; and
    every well-formed descriptor is read back from its encoding. *)
Theorem descriptor_codec_exact :
  (forall bs d, decode_heap_descriptor bs = Ok d <-> heap_ok d /\ encode_heap_descriptor d = Ok bs)
  /\ (forall bs d, decode_object_descriptor bs = Ok d <-> object_ok d /\ encode_object_descriptor d = Ok bs)
  /\ (forall d, heap_ok d -> exists bs, encode_heap_descriptor d = Ok bs)
  /\ (forall d, object_ok d -> exists bs, encode_object_descriptor d = Ok bs).
Proof.
  split_and!.
  - intros bs d. split.
    + intros [Hd ->]%heap_decode_inv. split; [done|by apply heap_roundtrip].
    + intros [Hd He]. destruct (heap_roundtrip d Hd) as [He' Hr]. rewrite He in He'. by injection He' as ->.
  - intros bs d. split.
    + intros [Hd ->]%object_decode_inv. split; [done|by apply object_roundtrip].
    + intros [Hd He]. destruct (object_roundtrip d Hd) as [He' Hr]. rewrite He in He'. by injection He' as ->.
  - intros d Hd. eexists. by apply heap_roundtrip.
  - intros d Hd. eexists. by apply object_roundtrip.
Qed.

Definition sample_descriptor (aliases : list (list byte)) : HeapDescriptor := {|
  hd_origin := replicate 16 (z2b 1); hd_heap_id := replicate 16 (z2b 2);
  hd_creation := replicate 16 (z2b 3); hd_created_at := 1700000000;
  hd_predecessor := Some (replicate 32 (z2b 4)); hd_sequence := 2; hd_state := HReadOnly;
  hd_name := lit "ledger"; hd_aliases := aliases |}.

(** The encoder accepts aliases in any order and the decoder does not. *)
Example unsorted_aliases_unreadable :
  match encode_heap_descriptor (sample_descriptor [lit "b"; lit "a"]) with
  | Ok bs => decode_heap_descriptor bs = Err (DInvalid FAliasesUnsorted)
  | Err _ => False
  end
  /\ match encode_heap_descriptor (sample_descriptor [lit "a"; lit "b"]) with
     | Ok bs => decode_heap_descriptor bs = Ok (sample_descriptor [lit "a"; lit "b"])
     | Err _ => False
     end.
Proof. split; vm_compute; reflexivity. Qed.
