(* ===== verification/ItemEnvelope.v ===== *)
(** * Item envelopes

    Model of [crates/residiuum-store/src/envelope.rs], the envelope of put and
    delete events, and of [records_from_segment_bytes] of [hydra/mod.rs], which
    collects the subjects of a sealed segment. *)
From S2P Require Import Prelude Cbor Frame Scan HeapFrames Hydra.
Open Scope list_scope.
Open Scope Z_scope.

Definition MAX_SUBJECT_LEN : nat := 4096.

Inductive EventKind : Type := Put | Delete.
#[global] Instance EventKind_eq_dec : EqDecision EventKind.
Proof. solve_decision. Defined.
Definition event_kind_from_u8 (v : Z) : option EventKind :=
  if v =? 1 then Some Put else if v =? 2 then Some Delete else None.
Definition event_kind_as_u8 (k : EventKind) : Z := match k with Put => 1 | Delete => 2 end.

Record ItemEnvelope := {
  ie_store_id : list byte; ie_segment_id : list byte; ie_item_id : list byte;
  ie_event_kind : EventKind; ie_created_ns : Z; ie_subject : list byte;
  ie_operation_id : option (list byte); ie_operation_content_hash : option (list byte) }.

Inductive ItemEncodeError : Type := SubjectTooLong | OperationIncomplete | CborEncodeFailed.

Definition bstr (n : nat) (b : list byte) : option (list byte) :=
  if (length b =? n)%nat then Some b else None.
Definition bstr16 := bstr 16.
Definition bstr32 := bstr 32.

Definition item_entries (env : ItemEnvelope) : list (Z * CborValue) :=
  [(1, Bytes (ie_item_id env)); (2, Uint (event_kind_as_u8 (ie_event_kind env)));
   (3, Bytes (ie_store_id env)); (4, Bytes (ie_segment_id env)); (5, Uint (ie_created_ns env));
   (6, Bytes (ie_subject env))]
  ++ match ie_operation_id env, ie_operation_content_hash env with
     | Some op, Some h => [(ENV_OPERATION_ID, Bytes op); (ENV_OPERATION_CONTENT_HASH, Bytes h)]
     | _, _ => []
     end.

Definition encode_item_envelope (env : ItemEnvelope) : result ItemEncodeError (list byte) :=
  if (MAX_SUBJECT_LEN <? length (ie_subject env))%nat then Err SubjectTooLong
  else match ie_operation_id env, ie_operation_content_hash env with
  | Some _, None | None, Some _ => Err OperationIncomplete
  | _, _ =>
      match encode_deterministic_uint_map (item_entries env) with
      | Ok bs => Ok bs
      | Err _ => Err CborEncodeFailed
      end
  end.

(** The locals of the decoder's loop. *)
Record ItemFields := {
  if_item : option (list byte); if_kind : option EventKind; if_store : option (list byte);
  if_segment : option (list byte); if_created : option Z; if_subject : option (list byte);
  if_31 : option (list byte); if_32 : option (list byte);
  if_41 : option (list byte); if_42 : option (list byte) }.
Definition no_item_fields : ItemFields :=
  Build_ItemFields None None None None None None None None None None.

Definition as_bytes (v : CborValue) : option (list byte) :=
  match v with Bytes b => Some b | _ => None end.
Definition as_uint (v : CborValue) : option Z := match v with Uint n => Some n | _ => None end.

Definition item_field (f : ItemFields) (e : Z * CborValue) : option ItemFields :=
  let '(k, v) := e in
  match f with
  | Build_ItemFields i kd st sg cr sb r31 r32 r41 r42 =>
      if k =? 1 then b ← as_bytes v; x ← bstr16 b;
        Some (Build_ItemFields (Some x) kd st sg cr sb r31 r32 r41 r42)
      else if k =? 2 then n ← as_uint v;
        if U8_MAX <? n then None
        else Some (Build_ItemFields i (event_kind_from_u8 n) st sg cr sb r31 r32 r41 r42)
      else if k =? 3 then b ← as_bytes v; x ← bstr16 b;
        Some (Build_ItemFields i kd (Some x) sg cr sb r31 r32 r41 r42)
      else if k =? 4 then b ← as_bytes v; x ← bstr16 b;
        Some (Build_ItemFields i kd st (Some x) cr sb r31 r32 r41 r42)
      else if k =? 5 then n ← as_uint v;
        Some (Build_ItemFields i kd st sg (Some n) sb r31 r32 r41 r42)
      else if k =? 6 then b ← as_bytes v;
        if (MAX_SUBJECT_LEN <? length b)%nat then None
        else Some (Build_ItemFields i kd st sg cr (Some b) r31 r32 r41 r42)
      else if k =? 31 then b ← as_bytes v;
        Some (Build_ItemFields i kd st sg cr sb (Some b) r32 r41 r42)
      else if k =? 32 then b ← as_bytes v;
        Some (Build_ItemFields i kd st sg cr sb r31 (Some b) r41 r42)
      else if k =? ENV_OPERATION_ID then b ← as_bytes v;
        Some (Build_ItemFields i kd st sg cr sb r31 r32 (Some b) r42)
      else if k =? ENV_OPERATION_CONTENT_HASH then b ← as_bytes v;
        Some (Build_ItemFields i kd st sg cr sb r31 r32 r41 (Some b))
      else Some f
  end.
Fixpoint item_fields (f : ItemFields) (es : list (Z * CborValue)) : option ItemFields :=
  match es with
  | [] => Some f
  | e :: rest => f' ← item_field f e; item_fields f' rest
  end.

Definition classify_operation_identity (r31 r32 r41 r42 : option (list byte))
  : option (option (list byte) * option (list byte)) :=
  match r41, r42 with
  | None, None =>
      match r31, r32 with
      | Some id_bytes, Some hash_bytes =>
          if (length hash_bytes =? 32)%nat
          then id ← bstr16 id_bytes; h ← bstr32 hash_bytes; Some (Some id, Some h)
          else Some (None, None)
      | _, _ => Some (None, None)
      end
  | _, _ => r41 ← r41; id ← bstr16 r41; r42 ← r42; h ← bstr32 r42; Some (Some id, Some h)
  end.

Definition decode_item_envelope (bytes : list byte) : option ItemEnvelope :=
  match decode_deterministic_uint_map bytes with
  | Err _ => None
  | Ok es =>
      f ← item_fields no_item_fields es;
      ops ← classify_operation_identity (if_31 f) (if_32 f) (if_41 f) (if_42 f);
      store ← if_store f;
      segment ← if_segment f;
      item ← if_item f;
      kind ← if_kind f;
      Some {| ie_store_id := store; ie_segment_id := segment; ie_item_id := item;
              ie_event_kind := kind; ie_created_ns := default 0 (if_created f);
              ie_subject := default [] (if_subject f);
              ie_operation_id := fst ops; ie_operation_content_hash := snd ops |}
  end.

(** ** The records of a segment *)

Section Records.
Context {I : IntegrityPrims}.

(** The subject of a verified frame with its offset, for item events only. *)
Definition item_record (x : nat * DecodedFrame) : option SegmentRecord :=
  if bool_decide (known_kind (df_header (snd x)) = Some ItemEvent) then
    env ← decode_item_envelope (df_envelope (snd x));
    Some {| r_key := ie_subject env; r_offset := Z.of_nat (fst x) |}
  else None.

Definition records_from_segment_bytes (bytes : list byte) (limits : SafetyLimits)
  : list SegmentRecord :=
  map (fun e => {| r_key := fst e; r_offset := snd e |})
    (Hydra.sort_unique (omap item_record (verified_frames (scan_forward bytes limits)))).
End Records.

(** * Facts about item envelopes and the records of a segment

    The item envelope codec refuses exactly what it documents and reads back
    everything else; the subjects collected from a segment carry the offset of
    their last verified item frame, so that an index built over them answers
    for the segment. *)
From S2P Require Import CborFacts ScanFacts HeapFramesFacts HydraSorted HydraFacts.
Open Scope list_scope.
Open Scope Z_scope.

(** ** The envelope codec *)

(** What the field types of [ItemEnvelope] guarantee. *)
Definition item_typed (env : ItemEnvelope) : Prop :=
  id16 (ie_store_id env) /\ id16 (ie_segment_id env) /\ id16 (ie_item_id env)
  /\ in_u64 (ie_created_ns env)
  /\ match ie_operation_id env with Some op => id16 op | None => True end
  /\ match ie_operation_content_hash env with Some h => length h = 32%nat | None => True end.

Lemma bstr_ok n b : length b = n -> bstr n b = Some b.
Proof. intros H. unfold bstr. by rewrite H, Nat.eqb_refl. Qed.

Lemma event_kind_roundtrip k : event_kind_from_u8 (event_kind_as_u8 k) = Some k.
Proof. by destruct k. Qed.

Lemma item_bytes_canonical b n : (length b <= n)%nat -> (n <= 4096)%nat -> canonical (Bytes b).
Proof. intros H1 H2. simpl. unfold in_u64, U64_MAX. lia. Qed.

Lemma item_entries_canonical env : item_typed env ->
  (length (ie_subject env) <= MAX_SUBJECT_LEN)%nat -> canonical_map (item_entries env).
Proof.
  intros (H1 & H2 & H3 & H4 & H5 & H6) Hs. unfold item_entries.
  assert (Hk : canonical (Uint (event_kind_as_u8 (ie_event_kind env)))) by by destruct (ie_event_kind env).
  destruct (ie_operation_id env) as [op|], (ie_operation_content_hash env) as [h|];
    (split; [done|]; split; [by repeat split|]; cbn [app];
     repeat (apply Forall_cons; split; [split; [done|]; cbn [snd]; first
       [by apply id16_canonical|exact Hk|exact H4|eapply item_bytes_canonical; [exact Hs|done]
       |eapply item_bytes_canonical; [by rewrite H6|lia]]|]); apply Forall_nil; done).
Qed.

Lemma item_fields_read env bs : item_typed env ->
  (length (ie_subject env) <= MAX_SUBJECT_LEN)%nat ->
  decode_deterministic_uint_map bs = Ok (item_entries env) ->
  (is_Some (ie_operation_id env) <-> is_Some (ie_operation_content_hash env)) ->
  decode_item_envelope bs = Some env.
Proof.
  intros (H1 & H2 & H3 & H4 & H5 & H6) Hs Hd Hop.
  assert (H7 : (MAX_SUBJECT_LEN <? length (ie_subject env))%nat = false) by by apply Nat.ltb_ge.
  assert (H8 : (U8_MAX <? event_kind_as_u8 (ie_event_kind env)) = false) by by destruct (ie_event_kind env).
  unfold decode_item_envelope. rewrite Hd.
  destruct env as [st sg it k cr sb op h]. cbn [ie_store_id ie_segment_id ie_item_id ie_event_kind
    ie_created_ns ie_subject ie_operation_id ie_operation_content_hash] in *.
  unfold item_entries. cbn -[bstr16 bstr32 event_kind_from_u8 event_kind_as_u8 Z.ltb Nat.ltb U8_MAX MAX_SUBJECT_LEN].
  unfold bstr16, bstr32.
  destruct op as [op|], h as [h|];
    [|by destruct (proj1 Hop (mk_is_Some _ _ eq_refl))|by destruct (proj2 Hop (mk_is_Some _ _ eq_refl))|];
    cbn -[bstr event_kind_from_u8 event_kind_as_u8 Z.ltb Nat.ltb U8_MAX MAX_SUBJECT_LEN];
    repeat (first [progress unfold bstr16, bstr32|rewrite H7|rewrite H8|rewrite event_kind_roundtrip|rewrite bstr_ok by done];
      cbn -[bstr event_kind_from_u8 event_kind_as_u8 Z.ltb Nat.ltb U8_MAX MAX_SUBJECT_LEN]); done.
Qed.

(** What decodes is typed. *)
Definition opt_len (n : nat) (o : option (list byte)) : Prop :=
  match o with Some b => length b = n | None => True end.
Definition fields_typed (f : ItemFields) : Prop :=
  opt_len 16 (if_item f) /\ opt_len 16 (if_store f) /\ opt_len 16 (if_segment f)
  /\ match if_created f with Some n => in_u64 n | None => True end.

Lemma bstr_Some n b x : bstr n b = Some x -> length x = n.
Proof. unfold bstr. destruct (Nat.eqb_spec (length b) n); [|done]. by intros [= <-]. Qed.

Lemma item_field_typed f e f' : canonical_entry e -> fields_typed f -> item_field f e = Some f' -> fields_typed f'.
Proof.
  intros [_ Hv] (H1 & H2 & H3 & H4). destruct e as [k v], f as [i kd st sg cr sb r31 r32 r41 r42].
  unfold item_field, as_bytes, as_uint, bstr16. cbn [if_item if_store if_segment if_created] in *.
  repeat (case_match; subst; cbn [mbind option_bind]; try done);
    try (destruct (bstr 16 b) as [x|] eqn:E; [|done]; apply bstr_Some in E; cbn [mbind option_bind]);
    intros [= <-]; split_and!; done.
Qed.
Lemma item_fields_typed es f f' : Forall canonical_entry es -> fields_typed f -> item_fields f es = Some f' ->
  fields_typed f'.
Proof.
  intros Hes. revert f. induction Hes as [|e es He Hes IH]; intros f Hf; cbn [item_fields]; [by intros [= <-]|].
  destruct (item_field f e) as [f1|] eqn:E; [|done]. apply IH. by eapply item_field_typed.
Qed.
Lemma classify_typed r31 r32 r41 r42 a b : classify_operation_identity r31 r32 r41 r42 = Some (a, b) ->
  opt_len 16 a /\ opt_len 32 b.
Proof.
  unfold classify_operation_identity, bstr16, bstr32.
  assert (H : forall x y, (id ← bstr 16 x; h ← bstr 32 y; Some (Some id, Some h)) = Some (a, b) -> opt_len 16 a /\ opt_len 32 b).
  { intros x y. destruct (bstr 16 x) as [i|] eqn:E1; [|done]. cbn [mbind option_bind].
    destruct (bstr 32 y) as [h|] eqn:E2; [|done]. intros [= <- <-]. by apply bstr_Some in E1, E2. }
  destruct r41 as [x|], r42 as [y|]; cbn [mbind option_bind]; [by apply H|by destruct (bstr 16 x)|done|].
  destruct r31 as [x|], r32 as [y|]; try (by intros [= <- <-]). destruct (_ =? _)%nat; [by apply H|by intros [= <- <-]].
Qed.
Lemma decoded_item_typed bs env : decode_item_envelope bs = Some env -> item_typed env.
Proof.
  unfold decode_item_envelope. destruct (decode_deterministic_uint_map bs) as [es|] eqn:Hd; [|done].
  apply decode_canonical in Hd as [(_ & _ & Hes) _].
  destruct (item_fields no_item_fields es) as [f|] eqn:Hf; [|done]. cbn [mbind option_bind].
  apply item_fields_typed in Hf as (H1 & H2 & H3 & H4); [|done|done].
  destruct (classify_operation_identity _ _ _ _) as [[a b]|] eqn:Hc; [|done]. apply classify_typed in Hc as [H5 H6].
  cbn [mbind option_bind]. destruct (if_store f); [|done]. cbn [mbind option_bind].
  destruct (if_segment f); [|done]. cbn [mbind option_bind]. destruct (if_item f); [|done]. cbn [mbind option_bind].
  destruct (if_kind f); [|done]. intros [= <-]. split_and!; cbn; [done..| |done|done]. by destruct (if_created f).
Qed.

(** ** The records of a segment *)
Import Hydra HydraFacts.

Lemma tiles_frames_sorted a b rs : tiles a b rs ->
  Forall (fun x => a <= fst x)%nat (omap region_frame rs)
  /\ StronglySorted (fun x y => fst x < fst y)%nat (omap region_frame rs).
Proof.
  revert a. induction rs as [|r rs IH]; intros a; [split; constructor|].
  intros (Ha & He & Ht). destruct (IH _ Ht) as [Hf Hs]. cbn [omap list_omap].
  assert (Hf' : Forall (fun x : nat * DecodedFrame => region_end r <= fst x)%nat (omap region_frame rs)) by done.
  destruct r as [rg f|rg h]; cbn [region_frame] in *.
  - change (region_start (VerifiedFrame rg f)) with (range_start rg) in Ha. split.
    + constructor; [cbn; lia|]. eapply Forall_impl; [exact Hf'|]. intros x; cbn; lia.
    + constructor; [done|]. eapply Forall_impl; [exact Hf'|]. intros x; cbn; lia.
  - split; [|done]. eapply Forall_impl; [exact Hf'|]. intros x; cbn; lia.
Qed.

Lemma latest_Some records key o : StronglySorted (fun r r' => r_offset r < r_offset r') records ->
  latest records key = Some o <->
  (exists r, r ∈ records /\ r_key r = key /\ r_offset r = o)
  /\ forall r, r ∈ records -> r_key r = key -> r_offset r <= o.
Proof.
  unfold latest. induction records as [|r l IH] using rev_ind; intros Hs.
  { split; [done|]. intros [(r & Hr & _) _]. by apply not_elem_of_nil in Hr. }
  apply StronglySorted_app in Hs as (Hlt & Hl & _). rewrite reverse_snoc. cbn [List.find].
  unfold bytes_eqb at 1. case_bool_decide as Hk.
  - split.
    + intros [= <-]. split.
      { exists r. split; [set_solver|done]. }
      intros r' [Hr'| ->%list_elem_of_singleton]%elem_of_app _; [|lia].
      specialize (Hlt r' r Hr' ltac:(set_solver)). lia.
    + intros [(r' & Hr' & Hk' & <-) Hmax]. cbn. f_equal. specialize (Hmax r ltac:(set_solver) Hk).
      apply elem_of_app in Hr' as [Hr'| ->%list_elem_of_singleton]; [|done].
      specialize (Hlt r' r Hr' ltac:(set_solver)). lia.
  - rewrite (IH Hl). split; (intros [(r' & Hr' & Hk' & Ho) Hmax]; split).
    + exists r'. split; [set_solver|done].
    + intros x [Hx| ->%list_elem_of_singleton]%elem_of_app Hkx; [by apply Hmax|done].
    + exists r'. apply elem_of_app in Hr' as [Hr'| ->%list_elem_of_singleton]; [|done]. done.
    + intros x Hx. apply Hmax. set_solver.
Qed.

Lemma latest_elem records key o : latest records key = Some o ->
  {| r_key := key; r_offset := o |} ∈ records.
Proof.
  unfold latest. intros ([k o'] & Hf & ->)%fmap_Some. apply find_some in Hf as [Hin Hk].
  apply bool_decide_eq_true in Hk as <-. by apply elem_of_reverse, list_elem_of_In.
Qed.
Lemma elem_latest records key o : {| r_key := key; r_offset := o |} ∈ records ->
  exists o', latest records key = Some o'.
Proof.
  intros Hin. unfold latest. destruct (List.find _ _) as [r|] eqn:E; [by eexists|].
  eapply find_none in E; [|by apply list_elem_of_In, elem_of_reverse, Hin].
  by apply bool_decide_eq_false in E.
Qed.

Section Records.
Context {I : IntegrityPrims} {L : IntegrityLaws I}.
Variables (bytes : list byte) (limits : SafetyLimits).

(** A frame that the scan reports at [q] is an item event of subject [key]. *)
Definition subject_at (q : Z) (key : list byte) : Prop :=
  exists n f env, q = Z.of_nat n /\ (n, f) ∈ verified_frames (scan_forward bytes limits)
    /\ known_kind (df_header f) = Some ItemEvent
    /\ decode_item_envelope (df_envelope f) = Some env /\ ie_subject env = key.
Definition last_item (key : list byte) (q : Z) : Prop :=
  subject_at q key /\ forall q', subject_at q' key -> q' <= q.

Definition item_records : list SegmentRecord :=
  omap item_record (verified_frames (scan_forward bytes limits)).

Lemma item_record_Some x r : item_record x = Some r <->
  known_kind (df_header (snd x)) = Some ItemEvent /\ exists env,
    decode_item_envelope (df_envelope (snd x)) = Some env
    /\ r = {| r_key := ie_subject env; r_offset := Z.of_nat (fst x) |}.
Proof.
  unfold item_record. case_bool_decide as Hk; [|split; [done|by intros [? _]]].
  rewrite bind_Some. split.
  - intros (env & Hd & [= <-]). eauto.
  - intros (_ & env & Hd & ->). eauto.
Qed.

Lemma item_records_sorted : StronglySorted (fun r r' => r_offset r < r_offset r') item_records.
Proof.
  destruct (scan_forward_spec bytes limits) as [Ht _]. apply tiles_frames_sorted in Ht as [_ Hs].
  unfold item_records, verified_frames.
  induction Hs as [|x l Hs IH Hx]; [constructor|]. cbn [omap list_omap].
  destruct (item_record x) as [r|] eqn:Hr; [|exact IH]. constructor; [exact IH|].
  apply item_record_Some in Hr as (_ & env & _ & ->). apply Forall_forall. intros r' Hr'.
  apply list_elem_of_omap in Hr' as (y & Hy & (_ & env' & _ & ->)%item_record_Some).
  rewrite Forall_forall in Hx. specialize (Hx y Hy). cbn in *. lia.
Qed.

Lemma elem_of_item_records key q :
  subject_at q key <-> exists r, r ∈ item_records /\ r_key r = key /\ r_offset r = q.
Proof.
  unfold subject_at, item_records. split.
  - intros (n & f & env & -> & Hin & Hk & Hd & <-).
    exists {| r_key := ie_subject env; r_offset := Z.of_nat n |}. split; [|done].
    apply list_elem_of_omap. exists (n, f). split; [done|]. apply item_record_Some. split; [done|]. by exists env.
  - intros (r & ([n f] & Hin & (Hk & env & Hd & ->)%item_record_Some)%list_elem_of_omap & <- & <-).
    by exists n, f, env.
Qed.

Lemma last_item_latest key q : latest item_records key = Some q <-> last_item key q.
Proof.
  rewrite (latest_Some _ _ _ item_records_sorted). unfold last_item.
  rewrite <- elem_of_item_records. f_equiv. split.
  - intros H q' (r & Hr & Hk & <-)%elem_of_item_records. by apply H.
  - intros H r Hr Hk. apply H, elem_of_item_records. by exists r.
Qed.

Lemma records_elem key q :
  {| r_key := key; r_offset := q |} ∈ records_from_segment_bytes bytes limits <-> last_item key q.
Proof.
  rewrite <- last_item_latest, <- sort_unique_find, find_key_elem by apply sort_unique_ascending.
  unfold records_from_segment_bytes. change (omap item_record _) with item_records.
  rewrite (list_elem_of_fmap (fun e => {| r_key := fst e; r_offset := snd e |})). split.
  - by intros ([k o] & [= -> ->] & Hin).
  - intros Hin. by exists (key, q).
Qed.

(** Building an index over the records answers with them. *)
Lemma records_latest key o :
  latest (records_from_segment_bytes bytes limits) key = Some o <-> last_item key o.
Proof.
  split.
  - intros Hl. apply records_elem. by apply latest_elem.
  - intros Hi. pose proof Hi as Hi'. apply records_elem, elem_latest in Hi as (o' & Hl). rewrite Hl.
    apply latest_elem, records_elem, last_item_latest in Hl. apply last_item_latest in Hi'. congruence.
Qed.
End Records.

(** The item envelope codec is exact: an envelope whose subject is within the
    limit and that names an operation with both its id and its content hash, or
    with neither, is written and read back unchanged; the two other cases are the
    two refusals, and writing never fails otherwise. *)
Theorem item_envelope_exact env : item_typed env ->
  match encode_item_envelope env with
  | Ok bs => decode_item_envelope bs = Some env
  | Err SubjectTooLong => (4096 < length (ie_subject env))%nat
  | Err OperationIncomplete =>
      ~ (is_Some (ie_operation_id env) <-> is_Some (ie_operation_content_hash env))
  | Err CborEncodeFailed => False
  end.
Proof.
  intros Ht. unfold encode_item_envelope. destruct (Nat.ltb_spec MAX_SUBJECT_LEN (length (ie_subject env))) as [Hs|Hs].
  { exact Hs. }
  destruct (canonical_roundtrip _ (item_entries_canonical env Ht Hs)) as (bs & He & Hd). rewrite He.
  pose proof (item_fields_read env bs Ht Hs Hd) as Hr.
  destruct (ie_operation_id env), (ie_operation_content_hash env); try (by apply Hr; split; intros ?; eauto);
    intros [H1 H2]; [by destruct H1; eauto|by destruct H2; eauto].
Qed.

(** The records collected from the bytes of a segment are exactly the subjects
    of its verified item frames, each once and with the offset of the last such
    frame; any index that keeps keys in order, built over them, answers a lookup
    with that offset and with nothing else. *)
Theorem segment_records_exact {I : IntegrityPrims} {L : IntegrityLaws I} bytes limits opts :
  let records := records_from_segment_bytes bytes limits in
  select_index_kind (sort_unique records) opts <> KMphf -> 8 <= pgm_epsilon opts ->
  2 * Z.of_nat (length records) + 2 <= U32_MAX ->
  (forall key q, {| r_key := key; r_offset := q |} ∈ records <-> last_item bytes limits key q)
  /\ exists x, build records opts = Some x
     /\ forall key q, get x key = Some q <-> last_item bytes limits key q.
Proof.
  intros records Hk He Hn. split; [intros key q; apply records_elem|].
  destruct (build_ordered records opts Hk (fun _ => He) Hn) as (x & Hx & _ & [Hg _]).
  exists x. split; [done|]. intros key q. rewrite Hg, sort_unique_find. apply records_latest.
Qed.

(** ** Witnesses *)

Definition sample_item (k : EventKind) : ItemEnvelope := {|
  ie_store_id := repeat (z2b 1) 16; ie_segment_id := repeat (z2b 2) 16; ie_item_id := repeat (z2b 3) 16;
  ie_event_kind := k; ie_created_ns := 99; ie_subject := map z2b [117; 49];
  ie_operation_id := Some (repeat (z2b 4) 16); ie_operation_content_hash := Some (repeat (z2b 5) 32) |}.

Lemma item_envelope_exact_witness : exists bs,
  encode_item_envelope (sample_item Put) = Ok bs /\ decode_item_envelope bs = Some (sample_item Put).
Proof.
  pose proof (item_envelope_exact (sample_item Put)) as H.
  destruct (encode_item_envelope (sample_item Put)) as [bs|e] eqn:E; [|vm_compute in E; discriminate].
  exists bs. split; [reflexivity|]. apply H. repeat split; vm_compute; congruence.
Defined.

(** Two events of one subject, a put and then its deletion. *)
Definition item_image (k : EventKind) : list byte :=
  match encode_item_envelope (sample_item k) with
  | Ok env => image {| fp_header := new_draft ItemEvent (Z.of_nat (length env)) 0 sample_event_id;
                     fp_envelope := env; fp_body := [] |}
  | Err _ => []
  end.
Definition two_items : list byte := item_image Put ++ item_image Delete.

Lemma segment_records_exact_witness : exists q,
  0 < q /\ records_from_segment_bytes two_items draft_defaults
  = [{| r_key := map z2b [117; 49]; r_offset := q |}]
  /\ last_item two_items draft_defaults (map z2b [117; 49]) q.
Proof.
  exists (Z.of_nat (length (item_image Put))).
  assert (E : records_from_segment_bytes two_items draft_defaults
    = [{| r_key := map z2b [117; 49]; r_offset := Z.of_nat (length (item_image Put)) |}])
    by (vm_compute; reflexivity).
  destruct (segment_records_exact two_items draft_defaults default_options) as [H _].
  - rewrite E. vm_compute. discriminate.
  - vm_compute. discriminate.
  - rewrite E. vm_compute. discriminate.
  - split; [vm_compute; reflexivity|]. split; [exact E|]. apply H. rewrite E. left.
Defined.
