(* ===== verification/AtomicFile.v ===== *)
(** * Atomic replacement of control documents

    Model of [crates/residiuum-store/src/atomic_file.rs] over a file system
    whose directory operations reach the medium in order but not at once, and
    whose file contents are safe only once synced. *)
From S2P Require Import Prelude.
Open Scope list_scope.
Open Scope Z_scope.

(** ** The file system *)

Abbreviation Name := (list byte).

Record Inode := { data : list byte; synced : bool }.
Abbreviation Dir := (gmap Name nat).

Inductive DirOp : Type :=
| DLink (n : Name) (i : nat)
| DRename (a b : Name)
| DUnlink (n : Name).

Definition apply_op (d : Dir) (op : DirOp) : Dir :=
  match op with
  | DLink n i => <[n := i]> d
  | DRename a b => match d !! a with Some i => <[b := i]> (delete a d) | None => d end
  | DUnlink n => delete n d
  end.

(** The files, the directory as it is on the medium, and the directory
    operations that have not been synced. *)
Record Fs := { inodes : list Inode; durable : Dir; pending : list DirOp }.

Definition current (f : Fs) : Dir := fold_left apply_op (pending f) (durable f).

(** A crash keeps a prefix of the unsynced directory operations and makes the
    contents of unsynced files arbitrary. *)
Definition survives (i j : Inode) : Prop :=
  synced j = true /\ (synced i = true -> data j = data i).
Inductive crash : Fs -> Fs -> Prop :=
| crash_intro f ins k : Forall2 survives (inodes f) ins ->
    crash f {| inodes := ins; pending := [];
               durable := fold_left apply_op (take k (pending f)) (durable f) |}.

(** ** System calls

    Every call may fail; a write that fails may have written a part.  The faults
    to come are a list, one for each call; without faults calls succeed. *)

Inductive IoFault : Type := Works | Fails (written : nat).
Record Machine := { fs : Fs; faults : list IoFault }.

Definition Io (A : Type) : Type := Machine -> option A * Machine.

#[global] Instance Io_ret : MRet Io := fun A a m => (Some a, m).
#[global] Instance Io_bind : MBind Io := fun A B k c m =>
  match c m with
  | (Some a, m') => k a m'
  | (None, m') => (None, m')
  end.

Definition next_fault (m : Machine) : IoFault * list IoFault :=
  match faults m with [] => (Works, []) | x :: r => (x, r) end.

(** A call that changes the file system by [ok], or fails having changed it by
    [failed] of the number of bytes written. *)
Definition call {A} (ok : Fs -> option (A * Fs)) (failed : nat -> Fs -> Fs) : Io A := fun m =>
  match next_fault m with
  | (Fails n, r) => (None, {| fs := failed n (fs m); faults := r |})
  | (Works, r) =>
      match ok (fs m) with
      | Some (a, f) => (Some a, {| fs := f; faults := r |})
      | None => (None, {| fs := fs m; faults := r |})
      end
  end.
Definition simple_call {A} (ok : Fs -> option (A * Fs)) : Io A := call ok (fun _ f => f).

(** [let _ = c] and [c.is_ok()]: the error is dropped. *)
Definition attempt {A} (c : Io A) : Io unit := fun m => (Some tt, snd (c m)).

(** [failpoint::hit]. *)
Definition hit : Io unit := simple_call (fun f => Some (tt, f)).

Definition push_op (f : Fs) (op : DirOp) : Fs :=
  {| inodes := inodes f; durable := durable f; pending := pending f ++ [op] |}.
Definition set_inode (f : Fs) (i : nat) (x : Inode) : Fs :=
  {| inodes := <[i := x]> (inodes f); durable := durable f; pending := pending f |}.

Definition is_file (n : Name) : Io bool := fun m =>
  (Some (bool_decide (is_Some (current (fs m) !! n))), m).
Definition remove_file (n : Name) : Io unit := simple_call (fun f =>
  match current f !! n with Some _ => Some (tt, push_op f (DUnlink n)) | None => None end).
Definition rename (a b : Name) : Io unit := simple_call (fun f =>
  match current f !! a with Some _ => Some (tt, push_op f (DRename a b)) | None => None end).
Definition create_new (n : Name) : Io nat := simple_call (fun f =>
  match current f !! n with
  | Some _ => None
  | None =>
      let i := length (inodes f) in
      Some (i, push_op {| inodes := inodes f ++ [{| data := []; synced := false |}];
                          durable := durable f; pending := pending f |} (DLink n i))
  end).
Definition append_data (i : nat) (bs : list byte) (f : Fs) : Fs :=
  match inodes f !! i with
  | Some x => set_inode f i {| data := data x ++ bs; synced := false |}
  | None => f
  end.
Definition write_all (i : nat) (bs : list byte) : Io unit :=
  call (fun f => Some (tt, append_data i bs f)) (fun n f => append_data i (take n bs) f).
Definition sync_all (i : nat) : Io unit := simple_call (fun f =>
  match inodes f !! i with
  | Some x => Some (tt, set_inode f i {| data := data x; synced := true |})
  | None => None
  end).
Definition sync_dir : Io unit := simple_call (fun f =>
  Some (tt, {| inodes := inodes f; durable := current f; pending := [] |})).

Definition read_file (f : Fs) (n : Name) : option (list byte) :=
  i ← current f !! n; data <$> inodes f !! i.

(** ** The protocol *)

Definition PREV_SUFFIX : Name := lit ".prev".
Definition previous_path (path : Name) : Name := path ++ PREV_SUFFIX.

(** Decimal digits of a non-negative number. *)
Fixpoint digits (fuel : nat) (n : Z) (acc : list byte) : list byte :=
  match fuel with
  | O => acc
  | S fuel' =>
      let acc := z2b (48 + n mod 10) :: acc in
      if n <? 10 then acc else digits fuel' (n / 10) acc
  end.
Definition decimal (n : Z) : list byte := digits 40 n [].

(** The name in the directory of [path]; the process and the clock are inputs. *)
Definition temp_path_for (pid nanos : Z) (path : Name) : Name :=
  lit "." ++ path ++ lit "." ++ decimal pid ++ lit "." ++ decimal nanos ++ lit ".tmp".

Definition promote_previous (path : Name) : Io unit :=
  present ← is_file path;
  if present : bool then
    attempt (remove_file (previous_path path)) ≫= fun _ => rename path (previous_path path)
  else mret tt.

Definition write_atomic_with (pid nanos : Z) (path : Name) (bytes : list byte)
    (keep_previous : bool) : Io unit :=
  let tmp := temp_path_for pid nanos path in
  attempt (remove_file tmp) ≫= fun _ =>
  hit ≫= fun _ =>
  create_new tmp ≫= fun i =>
  write_all i bytes ≫= fun _ =>
  hit ≫= fun _ =>
  sync_all i ≫= fun _ =>
  hit ≫= fun _ =>
  hit ≫= fun _ =>
  (if keep_previous then promote_previous path else mret tt) ≫= fun _ =>
  hit ≫= fun _ =>
  rename tmp path ≫= fun _ =>
  hit ≫= fun _ =>
  hit ≫= fun _ =>
  sync_dir ≫= fun _ =>
  hit ≫= fun _ =>
  hit.

Definition write_atomic (pid nanos : Z) (path : Name) (bytes : list byte) : Io unit :=
  write_atomic_with pid nanos path bytes false.
Definition write_atomic_keep_previous (pid nanos : Z) (path : Name) (bytes : list byte) : Io unit :=
  write_atomic_with pid nanos path bytes true.

Definition write_atomic_if_changed (pid nanos : Z) (path : Name) (bytes : list byte) : Io bool := fun m =>
  if bool_decide (read_file (fs m) path = Some bytes) then (Some false, m)
  else (write_atomic pid nanos path bytes ≫= fun _ => mret true) m.

(** The bytes and whether they come from the previous generation. *)
Definition read_with_previous (f : Fs) (path : Name) : option (list byte * bool) :=
  match read_file f path with
  | Some b => Some (b, false)
  | None => b ← read_file f (previous_path path); Some (b, true)
  end.

Inductive ControlError : Type := CorruptControl (path : Name).
Definition recover_previous_or_corrupt (f : Fs) (path : Name)
  : result ControlError (option (list byte)) :=
  match read_file f (previous_path path) with
  | Some b => Ok (Some b)
  | None => Err (CorruptControl path)
  end.
