(* ===== verification/AtomicFileFacts.v ===== *)
(** * Facts about atomic replacement

    A control document is a register that survives crashes: after a write that
    reported success it holds that value, and otherwise the last acknowledged
    value or one that was being written. *)
From S2P Require Import Prelude AtomicFile.
Open Scope list_scope.
Open Scope Z_scope.

(** ** Names *)

Lemma previous_ne path : previous_path path <> path.
Proof. unfold previous_path. intros H%(f_equal length). rewrite length_app in H. cbn in H. lia. Qed.
Lemma temp_ne_path pid nanos path : temp_path_for pid nanos path <> path.
Proof.
  unfold temp_path_for. intros H%(f_equal length). rewrite !length_app in H. cbn in H. lia.
Qed.
Lemma temp_ne_previous pid nanos path : temp_path_for pid nanos path <> previous_path path.
Proof.
  unfold temp_path_for, previous_path. intros H%(f_equal last). rewrite !app_assoc in H.
  assert (Hl : forall (a : list byte) s c, last (lit s) = Some c -> last (a ++ lit s) = Some c).
  { intros a s c Hs. by rewrite last_app, Hs. }
  rewrite (Hl _ ".tmp"%string (z2b 112) eq_refl) in H.
  assert (Hv : last (path ++ PREV_SUFFIX) = Some (z2b 118)) by by apply (Hl _ ".prev"%string).
  rewrite Hv in H. by vm_compute in H.
Qed.

(** ** The directories a crash can leave *)

Fixpoint possible (d : Dir) (ops : list DirOp) : list Dir :=
  d :: match ops with [] => [] | op :: r => possible (apply_op d op) r end.

Lemma possible_snoc d ops op :
  possible d (ops ++ [op]) = possible d ops ++ [apply_op (fold_left apply_op ops d) op].
Proof. revert d. induction ops as [|o r IH]; intros d; cbn; [done|]. by rewrite IH. Qed.
Lemma possible_take d ops k : fold_left apply_op (take k ops) d ∈ possible d ops.
Proof.
  revert d k. induction ops as [|o r IH]; intros d [|k]; cbn [take fold_left possible]; [left..|].
  right. apply IH.
Qed.
Lemma possible_last d ops : fold_left apply_op ops d ∈ possible d ops.
Proof. pose proof (possible_take d ops (length ops)) as H. by rewrite firstn_all in H. Qed.

(** ** Triples *)

Definition triple {A} (P : Fs -> Prop) (c : Io A) (Q : A -> Fs -> Prop) (E : Fs -> Prop) : Prop :=
  forall m, P (fs m) ->
  match c m with
  | (Some a, m') => Q a (fs m')
  | (None, m') => E (fs m')
  end.

Section Triples.
Context {A B : Type}.
Implicit Types (P : Fs -> Prop) (E : Fs -> Prop).

Lemma triple_ret (a : A) (Q : A -> Fs -> Prop) E : triple (Q a) (mret a) Q E.
Proof. by intros m. Qed.
Lemma triple_bind P (c : Io A) (k : A -> Io B) R (Q : B -> Fs -> Prop) E :
  triple P c R E -> (forall a, triple (R a) (k a) Q E) -> triple P (c ≫= k) Q E.
Proof.
  intros Hc Hk m HP. specialize (Hc m HP). unfold mbind, Io_bind.
  destruct (c m) as [[a|] m']; [|done]. by apply Hk.
Qed.
Lemma triple_call P (ok : Fs -> option (A * Fs)) failed (Q : A -> Fs -> Prop) E :
  (forall f, P f -> match ok f with Some (a, f') => Q a f' | None => E f end) ->
  (forall f n, P f -> E (failed n f)) ->
  triple P (call ok failed) Q E.
Proof.
  intros Ho Hf m HP. unfold call. destruct (next_fault m) as [[|n] r]; [|by apply Hf].
  specialize (Ho _ HP). by destruct (ok (fs m)) as [[a f']|].
Qed.
Lemma triple_simple P (ok : Fs -> option (A * Fs)) (Q : A -> Fs -> Prop) E :
  (forall f, P f -> E f) ->
  (forall f, P f -> match ok f with Some (a, f') => Q a f' | None => True end) ->
  triple P (simple_call ok) Q E.
Proof.
  intros HE Ho. apply triple_call; [|by eauto]. intros f HP. specialize (Ho f HP).
  destruct (ok f) as [[a f']|]; [done|]. by apply HE.
Qed.
Lemma triple_attempt P (c : Io A) (Q : Fs -> Prop) E :
  triple P c (fun _ => Q) Q -> triple P (attempt c) (fun _ => Q) E.
Proof.
  intros Hc m HP. specialize (Hc m HP). unfold attempt. by destruct (c m) as [[a|] m'].
Qed.
End Triples.

Lemma triple_hit P (E : Fs -> Prop) : (forall f, P f -> E f) -> triple P hit (fun _ => P) E.
Proof. intros H. by apply triple_simple. Qed.

(** ** The invariant *)

Section Register.
Variable path : Name.
(** Whether readers fall back to the previous generation. *)
Variable fallback : bool.
Abbreviation prev := (previous_path path).

(** What a reader finds in a directory. *)
Definition content (ins : list Inode) (d : Dir) : option (list byte) :=
  match d !! path with
  | Some i => data <$> ins !! i
  | None => if fallback then i ← d !! prev; data <$> ins !! i else None
  end.

Definition safe_refs (ins : list Inode) (d : Dir) : Prop :=
  forall n i, (n = path \/ n = prev) -> d !! n = Some i ->
  exists x, ins !! i = Some x /\ synced x = true.

Definition good (ins : list Inode) (allowed : list (option (list byte))) (d : Dir) : Prop :=
  safe_refs ins d /\ content ins d ∈ allowed.

Definition reg_inv (allowed : list (option (list byte))) (f : Fs) : Prop :=
  Forall (good (inodes f) allowed) (possible (durable f) (pending f)).

Lemma reg_inv_current allowed f : reg_inv allowed f -> good (inodes f) allowed (current f).
Proof. intros H. by eapply Forall_forall in H; [|apply possible_last]. Qed.

Lemma reg_inv_weaken allowed v f : reg_inv allowed f -> reg_inv (v :: allowed) f.
Proof.
  intros Hi. eapply Forall_impl; [exact Hi|]. intros d [Hs Hc]. split; [done|]. by apply list_elem_of_further.
Qed.

(** Files whose contents are safe do not change. *)
Definition frozen (ins ins' : list Inode) : Prop :=
  forall i x, ins !! i = Some x -> synced x = true -> ins' !! i = Some x.

Lemma content_frozen ins ins' d : frozen ins ins' -> safe_refs ins d -> content ins' d = content ins d.
Proof.
  intros Hf Hs. unfold content. destruct (d !! path) as [i|] eqn:Hp.
  - destruct (Hs path i (or_introl eq_refl) Hp) as (x & Hx & Hsy). by rewrite (Hf _ _ Hx Hsy), Hx.
  - destruct fallback; [|done]. destruct (d !! prev) as [i|] eqn:Hq; [|done]. cbn.
    destruct (Hs prev i (or_intror eq_refl) Hq) as (x & Hx & Hsy). by rewrite (Hf _ _ Hx Hsy), Hx.
Qed.
Lemma good_frozen ins ins' allowed d : frozen ins ins' -> good ins allowed d -> good ins' allowed d.
Proof.
  intros Hf [Hs Hc]. split; [|by rewrite (content_frozen ins)].
  intros n i Hn Hi. destruct (Hs n i Hn Hi) as (x & Hx & Hsy). eauto.
Qed.
Lemma reg_inv_frozen allowed f ins : frozen (inodes f) ins -> reg_inv allowed f ->
  reg_inv allowed {| inodes := ins; durable := durable f; pending := pending f |}.
Proof. intros Hf Hi. eapply Forall_impl; [exact Hi|]. intros d. by apply good_frozen. Qed.

Lemma reg_inv_push allowed f op : reg_inv allowed f ->
  good (inodes f) allowed (apply_op (current f) op) -> reg_inv allowed (push_op f op).
Proof.
  unfold reg_inv, push_op. cbn. intros Hi Hg. rewrite possible_snoc, Forall_app. split; [done|].
  by apply Forall_singleton.
Qed.

(** A directory with the same two entries is as good. *)
Lemma good_same ins allowed d d' : d' !! path = d !! path -> d' !! prev = d !! prev ->
  good ins allowed d -> good ins allowed d'.
Proof.
  intros H1 H2 [Hs Hc]. split.
  - intros n i [-> | ->]; [rewrite H1|rewrite H2]; apply Hs; tauto.
  - unfold content in *. by rewrite H1, H2.
Qed.

Lemma crash_good allowed f f' : reg_inv allowed f -> crash f f' -> reg_inv [content (inodes f') (current f')] f'
  /\ content (inodes f') (current f') ∈ allowed.
Proof.
  intros Hi Hc. destruct Hc as [f ins k Hins]. cbn.
  eapply Forall_forall in Hi; [|apply (possible_take _ _ k)]. destruct Hi as [Hs Ha].
  assert (Hf : frozen (inodes f) ins).
  { intros i x Hx Hsy. eapply Forall2_lookup_l in Hins as (y & Hy & H1 & H2); [|exact Hx].
    rewrite Hy. specialize (H2 Hsy). destruct x, y; cbn in *. by subst. }
  rewrite (content_frozen (inodes f)) by done. split; [|done].
  unfold reg_inv. cbn. apply Forall_singleton. apply (good_frozen (inodes f)); [done|].
  split; [done|]. apply list_elem_of_singleton. reflexivity.
Qed.

(** ** The write protocol *)

Section Write.
Variables (pid nanos : Z) (bytes : list byte) (allowed : list (option (list byte))).
Abbreviation tmp := (temp_path_for pid nanos path).
Abbreviation after := (Some bytes :: allowed).

(** The temporary file has inode [i], which holds [x]. *)
Definition staged (i : nat) (x : Inode) (f : Fs) : Prop :=
  reg_inv after f /\ current f !! tmp = Some i /\ inodes f !! i = Some x.

Lemma tmp_path_ne : tmp <> path. Proof. apply temp_ne_path. Qed.
Lemma tmp_prev_ne : tmp <> prev. Proof. apply temp_ne_previous. Qed.
Lemma prev_path_ne : prev <> path. Proof. apply previous_ne. Qed.

Lemma current_push f op : current (push_op f op) = apply_op (current f) op.
Proof. unfold current, push_op. cbn. by rewrite fold_left_app. Qed.
Lemma inodes_push f op : inodes (push_op f op) = inodes f.
Proof. done. Qed.
Lemma current_set f i x : current (set_inode f i x) = current f.
Proof. done. Qed.

(** Removing the temporary name does not matter. *)
Lemma remove_tmp_spec : triple (reg_inv after) (remove_file tmp) (fun _ => reg_inv after) (reg_inv after).
Proof.
  apply triple_simple; [done|]. intros f Hi. destruct (current f !! tmp); [|done].
  apply reg_inv_push; [done|]. apply (good_same _ _ (current f)); [| |by apply reg_inv_current].
  - apply lookup_delete_ne, tmp_path_ne.
  - apply lookup_delete_ne, tmp_prev_ne.
Qed.

Lemma create_spec : triple (reg_inv after) (create_new tmp)
  (fun i => staged i {| data := []; synced := false |}) (reg_inv after).
Proof.
  apply triple_simple; [done|]. intros f Hi. destruct (current f !! tmp) eqn:Ht; [done|].
  set (ins := inodes f ++ _).
  assert (Hf : frozen (inodes f) ins).
  { intros i x Hx _. unfold ins. by apply lookup_app_l_Some. }
  pose proof (reg_inv_frozen _ _ _ Hf Hi) as Hi'. split; [|split].
  - apply reg_inv_push; [done|]. apply (good_same _ _ (current f)).
    + apply lookup_insert_ne, tmp_path_ne.
    + apply lookup_insert_ne, tmp_prev_ne.
    + by apply (reg_inv_current _ _ Hi').
  - rewrite current_push. apply lookup_insert_eq.
  - cbn. unfold ins. by rewrite lookup_app_r, Nat.sub_diag by lia.
Qed.

(** Writing to a file that is not safe yet leaves the safe ones alone. *)
Lemma set_staged i x y f : staged i x f -> synced x = false -> staged i y (set_inode f i y).
Proof.
  intros (Hi & Ht & Hx) Hsy. split; [|split].
  - apply reg_inv_frozen; [|done]. intros j z Hz Hsz. rewrite list_lookup_insert_ne; [done|].
    intros ->. congruence.
  - by rewrite current_set.
  - cbn. apply list_lookup_insert_eq. by eapply lookup_lt_Some.
Qed.

Lemma write_spec i : triple (staged i {| data := []; synced := false |}) (write_all i bytes)
  (fun _ => staged i {| data := bytes; synced := false |}) (reg_inv after).
Proof.
  apply triple_call; intros f; [|intros n]; intros Hs; unfold append_data; destruct Hs as (Hi & Ht & Hx);
    rewrite Hx; [by apply (set_staged i {| data := []; synced := false |})|].
  by eapply (set_staged i {| data := []; synced := false |}).
Qed.

Lemma sync_spec i : triple (staged i {| data := bytes; synced := false |}) (sync_all i)
  (fun _ => staged i {| data := bytes; synced := true |}) (reg_inv after).
Proof.
  apply triple_simple; [by intros f []|]. intros f Hs. pose proof Hs as (_ & _ & Hx). rewrite Hx.
  by apply (set_staged i {| data := bytes; synced := false |}).
Qed.

(** Promotion keeps what a reader finds. *)
Abbreviation ready i := (staged i {| data := bytes; synced := true |}).

Lemma good_unlink_prev ins a d : is_Some (d !! path) -> good ins a d -> good ins a (delete prev d).
Proof.
  intros [j Hj] [Hs Hc]. split.
  - intros n i Hn Hi. apply lookup_delete_Some in Hi as [_ Hi]. by apply (Hs n).
  - unfold content in *. rewrite lookup_delete_ne by apply prev_path_ne. by rewrite Hj in *.
Qed.
Lemma good_promote ins a d j : fallback = true -> d !! path = Some j -> good ins a d ->
  good ins a (<[prev := j]> (delete path d)).
Proof.
  intros Hfb Hj [Hs Hc]. split.
  - intros n i Hn Hi. destruct (decide (n = prev)) as [->|Hne].
    + rewrite lookup_insert_eq in Hi. injection Hi as <-. apply (Hs path); [by left|done].
    + rewrite lookup_insert_ne, lookup_delete_Some in Hi by done. by destruct Hn, Hi.
  - unfold content in *. rewrite Hj in Hc. rewrite lookup_insert_ne by apply prev_path_ne.
    by rewrite lookup_delete_eq, Hfb, lookup_insert_eq.
Qed.

Lemma promote_spec i : fallback = true ->
  triple (ready i) (promote_previous path) (fun _ => ready i) (reg_inv after).
Proof.
  intros Hfb. apply (triple_bind _ _ _ (fun b f => ready i f /\ (b = true -> is_Some (current f !! path)))).
  { intros m Hm. cbn. split; [done|]. by intros ?%bool_decide_eq_true. }
  intros [|]; [|intros m [Hm _]; exact Hm].
  apply (triple_bind _ _ _ (fun _ f => ready i f /\ is_Some (current f !! path))).
  - apply triple_attempt, triple_simple; [by intros f [? H]; split; [|apply H]|].
    intros f [(Hi & Ht & Hx) Hp]. specialize (Hp eq_refl). destruct (current f !! prev); [|done].
    split; [split; [|split; [|done]]|].
    + apply reg_inv_push; [done|]. apply good_unlink_prev; [done|by apply reg_inv_current].
    + rewrite current_push. cbn. rewrite lookup_delete_ne; [done|]. apply not_eq_sym, tmp_prev_ne.
    + rewrite current_push. cbn. by rewrite lookup_delete_ne by apply prev_path_ne.
  - intros _. apply triple_simple; [by intros f [[] _]|]. intros f [(Hi & Ht & Hx) [j Hj]].
    rewrite Hj. split; [|split; [|done]].
    + apply reg_inv_push; [done|]. cbn. rewrite Hj. by apply good_promote; [| |apply reg_inv_current].
    + rewrite current_push. cbn. rewrite Hj, lookup_insert_ne by apply not_eq_sym, tmp_prev_ne.
      rewrite lookup_delete_ne; [done|]. apply not_eq_sym, tmp_path_ne.
Qed.

(** The new content is published. *)
Definition published (f : Fs) : Prop :=
  reg_inv after f /\ content (inodes f) (current f) = Some bytes.

Lemma publish_spec i : triple (ready i) (rename tmp path) (fun _ => published) (reg_inv after).
Proof.
  apply triple_simple; [by intros f []|]. intros f (Hi & Ht & Hx). rewrite Ht.
  pose proof (reg_inv_current _ _ Hi) as [Hs _].
  assert (Hc : content (inodes f) (<[path := i]> (delete tmp (current f))) = Some bytes).
  { unfold content. by rewrite lookup_insert_eq, Hx. }
  split; [|rewrite current_push; unfold apply_op; rewrite Ht; exact Hc].
  apply reg_inv_push; [done|]. unfold apply_op. rewrite Ht.
  split; [|by rewrite Hc; left].
  intros n j Hn Hj. destruct (decide (n = path)) as [->|Hne].
  - rewrite lookup_insert_eq in Hj. injection Hj as <-. by exists {| data := bytes; synced := true |}.
  - rewrite lookup_insert_ne, lookup_delete_Some in Hj by done. apply (Hs n); tauto.
Qed.

Definition settled (f : Fs) : Prop := reg_inv [Some bytes] f.

Lemma sync_dir_spec : triple published sync_dir (fun _ => settled) (reg_inv after).
Proof.
  apply triple_simple; [by intros f []|]. intros f [Hi Hc]. unfold settled, reg_inv. cbn.
  apply Forall_singleton. pose proof (reg_inv_current _ _ Hi) as [Hs _]. split; [done|].
  apply list_elem_of_singleton. exact Hc.
Qed.

Lemma settled_after f : settled f -> reg_inv after f.
Proof.
  intros H. eapply Forall_impl; [exact H|]. intros d [Hs Hc]. split; [done|].
  apply list_elem_of_singleton in Hc. rewrite Hc. left.
Qed.

Lemma write_atomic_spec keep : (keep = true -> fallback = true) ->
  triple (reg_inv after) (write_atomic_with pid nanos path bytes keep) (fun _ => settled) (reg_inv after).
Proof.
  intros Hk. unfold write_atomic_with.
  eapply triple_bind; [apply triple_attempt, remove_tmp_spec|intros ?].
  eapply triple_bind; [by apply triple_hit|intros ?].
  eapply triple_bind; [apply create_spec|intros i].
  eapply triple_bind; [apply write_spec|intros ?].
  eapply triple_bind; [apply triple_hit; by intros f []|intros ?].
  eapply triple_bind; [apply sync_spec|intros ?].
  eapply triple_bind; [apply triple_hit; by intros f []|intros ?].
  eapply triple_bind; [apply triple_hit; by intros f []|intros ?].
  eapply (triple_bind _ _ _ (fun _ => ready i)).
  { destruct keep; [by apply promote_spec, Hk|]. by intros m. }
  intros ?. eapply triple_bind; [apply triple_hit; by intros f []|intros ?].
  eapply triple_bind; [apply publish_spec|intros ?].
  eapply triple_bind; [apply triple_hit; by intros f []|intros ?].
  eapply triple_bind; [apply triple_hit; by intros f []|intros ?].
  eapply triple_bind; [apply sync_dir_spec|intros ?].
  eapply triple_bind; [apply triple_hit, settled_after|intros ?]. apply triple_hit, settled_after.
Qed.
End Write.

(** ** The document as a register *)

Definition document (f : Fs) : option (list byte) :=
  if fallback then fst <$> read_with_previous f path else read_file f path.

(** The file system with the values that the document may have. *)
Inductive reg_step : Fs * list (option (list byte)) -> Fs * list (option (list byte)) -> Prop :=
| step_written f allowed pid nanos bytes keep faults m : (keep = true -> fallback = true) ->
    write_atomic_with pid nanos path bytes keep {| fs := f; faults := faults |} = (Some tt, m) ->
    reg_step (f, allowed) (fs m, [Some bytes])
| step_failed f allowed pid nanos bytes keep faults m : (keep = true -> fallback = true) ->
    write_atomic_with pid nanos path bytes keep {| fs := f; faults := faults |} = (None, m) ->
    reg_step (f, allowed) (fs m, Some bytes :: allowed)
| step_crashed f allowed f' : crash f f' ->
    reg_step (f, allowed) (f', [document f']).

(** No operation is pending and the document is synced. *)
Definition at_rest (f : Fs) : Prop := pending f = [] /\ safe_refs (inodes f) (current f).

Lemma document_content allowed f : reg_inv allowed f -> document f = content (inodes f) (current f).
Proof.
  intros [Hs _]%reg_inv_current. unfold document, read_with_previous, content, read_file.
  destruct (current f !! path) as [i|] eqn:Hp; cbn.
  - destruct (Hs path i (or_introl eq_refl) Hp) as (x & -> & _). by destruct fallback.
  - destruct fallback; [|done]. destruct (current f !! prev) as [i|]; cbn; [|done]. by destruct (inodes f !! i).
Qed.

Lemma reg_step_inv s s' : reg_step s s' -> reg_inv (snd s) (fst s) -> reg_inv (snd s') (fst s').
Proof.
  intros [f a pid nanos b keep fl m Hk Hw|f a pid nanos b keep fl m Hk Hw|f a f' Hc] Hi; cbn in *.
  - pose proof (write_atomic_spec pid nanos b a keep Hk {| fs := f; faults := fl |}
      (reg_inv_weaken _ _ _ Hi)) as H. by rewrite Hw in H.
  - pose proof (write_atomic_spec pid nanos b a keep Hk {| fs := f; faults := fl |}
      (reg_inv_weaken _ _ _ Hi)) as H. by rewrite Hw in H.
  - destruct (crash_good _ _ _ Hi Hc) as [Hi' _]. by rewrite (document_content _ _ Hi').
Qed.

Lemma at_rest_inv f : at_rest f -> reg_inv [document f] f.
Proof.
  intros [Hp Hs].
  assert (Hi : reg_inv [content (inodes f) (current f)] f).
  { unfold reg_inv. unfold current in *. rewrite Hp in *. cbn in *. apply Forall_singleton.
    split; [done|]. apply list_elem_of_singleton. reflexivity. }
  by rewrite (document_content _ _ Hi).
Qed.
End Register.

(** ** Without faults a write succeeds *)

Definition total {A} (P : Fs -> Prop) (c : Io A) (Q : A -> Fs -> Prop) : Prop :=
  forall f, P f -> exists a f', c {| fs := f; faults := [] |} = (Some a, {| fs := f'; faults := [] |}) /\ Q a f'.

Lemma total_bind {A B} P (c : Io A) (k : A -> Io B) R (Q : B -> Fs -> Prop) :
  total P c R -> (forall a, total (R a) (k a) Q) -> total P (c ≫= k) Q.
Proof.
  intros Hc Hk f HP. destruct (Hc f HP) as (a & f' & E & HR). destruct (Hk a f' HR) as (b & f'' & E' & HQ).
  exists b, f''. unfold mbind, Io_bind. by rewrite E.
Qed.
Lemma total_call {A} P (ok : Fs -> option (A * Fs)) failed (Q : A -> Fs -> Prop) :
  (forall f, P f -> exists a f', ok f = Some (a, f') /\ Q a f') -> total P (call ok failed) Q.
Proof.
  intros H f HP. destruct (H f HP) as (a & f' & E & HQ). exists a, f'. unfold call. cbn. by rewrite E.
Qed.
Lemma total_hit P : total P hit (fun _ => P).
Proof. apply total_call. eauto. Qed.

(** The temporary file is there, with the inode it was created with. *)
Definition has_tmp (tmp : Name) (i : nat) (f : Fs) : Prop :=
  current f !! tmp = Some i /\ is_Some (inodes f !! i).

Lemma total_remove_tmp tmp :
  total (fun _ => True) (attempt (remove_file tmp)) (fun _ f => current f !! tmp = None).
Proof.
  intros f _. exists tt. unfold attempt, remove_file, simple_call, call. cbn.
  destruct (current f !! tmp) eqn:E; cbn; eexists; (split; [reflexivity|]); [|done].
  rewrite current_push. apply lookup_delete_eq.
Qed.
Lemma total_create tmp : total (fun f => current f !! tmp = None) (create_new tmp) (has_tmp tmp).
Proof.
  apply total_call. intros f Hf. rewrite Hf. do 2 eexists. split; [reflexivity|]. split.
  - rewrite current_push. apply lookup_insert_eq.
  - cbn. rewrite lookup_app_r, Nat.sub_diag by lia. by eexists.
Qed.
Lemma has_tmp_set tmp i x f : has_tmp tmp i f -> has_tmp tmp i (set_inode f i x).
Proof.
  intros [Ht [y Hy]]. split; [by rewrite current_set|]. cbn.
  rewrite list_lookup_insert_eq by by eapply lookup_lt_Some. by eexists.
Qed.
Lemma total_write tmp i bs : total (has_tmp tmp i) (write_all i bs) (fun _ => has_tmp tmp i).
Proof.
  apply total_call. intros f Hf. do 2 eexists. split; [reflexivity|]. unfold append_data.
  case_match; [by apply has_tmp_set|done].
Qed.
Lemma total_sync tmp i : total (has_tmp tmp i) (sync_all i) (fun _ => has_tmp tmp i).
Proof.
  apply total_call. intros f Hf. pose proof Hf as [_ [x Hx]]. rewrite Hx. do 2 eexists.
  split; [reflexivity|]. by apply has_tmp_set.
Qed.
Lemma total_promote path pid nanos i : let tmp := temp_path_for pid nanos path in
  total (has_tmp tmp i) (promote_previous path) (fun _ => has_tmp tmp i).
Proof.
  intros tmp f Hf. unfold promote_previous, mbind, Io_bind, is_file. cbn [fs].
  case_bool_decide as Hp; [|by exists tt, f]. destruct Hp as [j Hj], Hf as [Ht Hx].
  unfold attempt, remove_file, rename, simple_call, call. cbn [next_fault faults fs].
  pose proof (temp_ne_path pid nanos path) as H1. pose proof (temp_ne_previous pid nanos path) as H2.
  pose proof (previous_ne path) as H3. fold tmp in H1, H2.
  destruct (current f !! previous_path path) eqn:E; cbn [snd fs faults next_fault].
  - rewrite current_push. cbn [apply_op]. rewrite lookup_delete_ne, Hj by done. do 2 eexists.
    split; [reflexivity|]. split; [|done]. rewrite !current_push. cbn [apply_op].
    rewrite lookup_delete_ne, Hj by done. rewrite lookup_insert_ne by done.
    by rewrite !lookup_delete_ne by done.
  - rewrite Hj. do 2 eexists. split; [reflexivity|]. split; [|done]. rewrite current_push. cbn [apply_op].
    rewrite Hj. rewrite lookup_insert_ne by done. by rewrite lookup_delete_ne by done.
Qed.
Lemma write_atomic_total path pid nanos bytes keep :
  total (fun _ => True) (write_atomic_with pid nanos path bytes keep) (fun _ _ => True).
Proof.
  unfold write_atomic_with. set (tmp := temp_path_for _ _ _).
  eapply total_bind; [apply total_remove_tmp|intros ?].
  eapply total_bind; [apply total_hit|intros ?].
  eapply total_bind; [apply total_create|intros i].
  eapply total_bind; [apply total_write|intros ?].
  eapply total_bind; [apply total_hit|intros ?].
  eapply total_bind; [apply total_sync|intros ?].
  eapply total_bind; [apply total_hit|intros ?].
  eapply total_bind; [apply total_hit|intros ?].
  eapply (total_bind _ _ _ (fun _ => has_tmp tmp i)).
  { destruct keep; [apply total_promote|]. intros f Hf. by exists tt, f. }
  intros ?. eapply total_bind; [apply total_hit|intros ?].
  eapply (total_bind _ _ _ (fun _ _ => True)).
  { apply total_call. intros f [Ht _]. rewrite Ht. eauto. }
  intros ?. eapply total_bind; [apply total_hit|intros ?]. eapply total_bind; [apply total_hit|intros ?].
  eapply (total_bind _ _ _ (fun _ _ => True)); [apply total_call; eauto|].
  intros ?. eapply total_bind; [apply total_hit|intros ?]. apply total_hit.
Qed.

(** C23. A control document is a register that survives crashes.  Through any
    sequence of writes (keeping the previous generation or, where readers do not fall back
    to it, not), each of which
    may fail at any of its system calls, and of crashes that lose a suffix of
    the unsynced directory operations and scramble unsynced files, the document
    read back, before or after one more crash, is the value of the last write
    that reported success, or of a write that failed after it, or what the last
    crash left; it is never torn, mixed or missing.  A write that meets no fault
    reports success. *)
Theorem atomic_file_register path fallback f0 f allowed :
  at_rest path f0 ->
  rtc (reg_step path fallback) (f0, [document path fallback f0]) (f, allowed) ->
  document path fallback f ∈ allowed
  /\ (forall f', crash f f' -> document path fallback f' ∈ allowed)
  /\ forall pid nanos bytes keep,
       fst (write_atomic_with pid nanos path bytes keep {| fs := f; faults := [] |}) = Some tt.
Proof.
  intros Hr Hs.
  assert (Hi : reg_inv path fallback allowed f).
  { assert (H : forall s s', rtc (reg_step path fallback) s s' ->
      reg_inv path fallback (snd s) (fst s) -> reg_inv path fallback (snd s') (fst s')).
    { intros s s'. induction 1 as [|s1 s2 s3 H12 _ IH]; [done|]. intros H. by apply IH, (reg_step_inv path fallback s1). }
    apply (H _ _ Hs). by apply at_rest_inv. }
  split; [|split].
  - rewrite (document_content path fallback allowed f Hi). apply (reg_inv_current path), Hi.
  - intros f' Hc. destruct (crash_good _ _ _ _ _ Hi Hc) as [Hi' Ha].
    by rewrite (document_content path fallback _ f' Hi').
  - intros pid nanos bytes keep.
    destruct (write_atomic_total path pid nanos bytes keep f Logic.I) as ([] & f' & -> & _). done.
Qed.

(** ** Witness and example *)

Definition empty_fs : Fs := {| inodes := []; durable := ∅; pending := [] |}.
Definition sample_doc : Name := lit "meta".
Definition written (keep : bool) (bs : string) (fl : list IoFault) (f : Fs) : Fs :=
  fs (snd (write_atomic_with 7 9 sample_doc (lit bs) keep {| fs := f; faults := fl |})).
(** The second write stops before its last rename. *)
Definition two_writes : Fs :=
  written true "two" (repeat Works 11 ++ [Fails 0]) (written true "one" [] empty_fs).

Lemma atomic_file_register_witness :
  document sample_doc true two_writes = Some (lit "one")
  /\ forall f', crash two_writes f' -> document sample_doc true f' ∈ [Some (lit "two"); Some (lit "one")].
Proof.
  destruct (atomic_file_register sample_doc true empty_fs two_writes [Some (lit "two"); Some (lit "one")]) as (_ & H & _).
  - split; [reflexivity|]. intros n i _ Hi. vm_compute in Hi. discriminate.
  - eapply rtc_l; [|apply rtc_once].
    + apply (step_written _ _ _ _ 7 9 (lit "one") true [] (snd (write_atomic_with 7 9 sample_doc (lit "one") true {| fs := empty_fs; faults := [] |}))); [done|].
      vm_compute. reflexivity.
    + apply (step_failed _ _ (written true "one" [] empty_fs) [Some (lit "one")] 7 9 (lit "two") true (repeat Works 11 ++ [Fails 0])); [done|].
      vm_compute. reflexivity.
  - split; [vm_compute; reflexivity|exact H].
Defined.

(** After a write that failed at the directory sync, writing the same bytes
    again if they changed does nothing and reports success, and a crash loses
    them. *)
Example if_changed_not_durable :
  let f := written false "one" (repeat Works 10 ++ [Fails 0]) empty_fs in
  let r := write_atomic_if_changed 7 10 sample_doc (lit "one") {| fs := f; faults := [] |} in
  fst r = Some false /\ exists f', crash (fs (snd r)) f' /\ document sample_doc true f' = None.
Proof.
  intros f r. split; [vm_compute; reflexivity|].
  exists {| inodes := inodes (fs (snd r)); durable := ∅; pending := [] |}. split; [|vm_compute; reflexivity].
  assert (Hr : fs (snd r) = f) by (vm_compute; reflexivity). rewrite Hr.
  apply (crash_intro f (inodes f) 0). vm_compute. repeat constructor.
Qed.
