(* ===== verification/SegmentIds.v ===== *)
(** * Identifiers and the allocation of segment ids

    Model of [crates/residiuum-store/src/ids.rs], the names of [layout.rs] and
    [segment_allocator.rs].  The durable high-water mark is a document of
    [AtomicFile]; directories are the names they list. *)
From S2P Require Import Prelude Cbor Frame Scan Segment AtomicFile.
Open Scope list_scope.
Open Scope Z_scope.

(** ** Random identities ([ids.rs]) *)

Definition ID_LEN : nat := 16.
Definition RANDOM_POOL_LEN : nat := 4096.

Record RandomPool := { pool_buf : list byte; pool_off : nat; pool_end : nat }.
Definition empty_pool : RandomPool :=
  {| pool_buf := replicate RANDOM_POOL_LEN (z2b 0); pool_off := 0; pool_end := 0 |}.

(** The answers of the operating system's generator, one for each request. *)
Definition Entropy : Type := list (option (list byte)).

Definition fill_from_os (p : RandomPool) (os : Entropy) : option RandomPool * Entropy :=
  match os with
  | Some bs :: os' =>
      (Some {| pool_buf := bs; pool_off := 0; pool_end := RANDOM_POOL_LEN |}, os')
  | None :: os' => (None, os')
  | [] => (None, [])
  end.

(** The loop that fills [n] more bytes; the pool is also what is left on failure. *)
Fixpoint pool_take (fuel : nat) (p : RandomPool) (os : Entropy) (n : nat)
  : option (list byte) * RandomPool * Entropy :=
  match fuel with
  | O => (None, p, os)
  | S fuel' =>
      if (n =? 0)%nat then (Some [], p, os)
      else
        let '(p1, os1) := if (pool_end p <=? pool_off p)%nat then fill_from_os p os else (Some p, os) in
        match p1 with
        | None => (None, p, os1)
        | Some p1 =>
            let k := Nat.min n (pool_end p1 - pool_off p1) in
            let out := slice (pool_off p1) (pool_off p1 + k) (pool_buf p1) in
            let p2 := {| pool_buf := pool_buf p1; pool_off := pool_off p1 + k; pool_end := pool_end p1 |} in
            match pool_take fuel' p2 os1 (n - k) with
            | (Some rest, p3, os3) => (Some (out ++ rest), p3, os3)
            | (None, p3, os3) => (None, p3, os3)
            end
        end
  end.
Definition fill_random (p : RandomPool) (os : Entropy) (n : nat)
  : option (list byte) * RandomPool * Entropy := pool_take (S n) p os n.

Definition zero_id : list byte := replicate ID_LEN (z2b 0).
Definition random_id (p : RandomPool) (os : Entropy) : option (list byte) * RandomPool * Entropy :=
  match fill_random p os ID_LEN with
  | (None, p, os) => (None, p, os)
  | (Some id, p, os) =>
      if bytes_eqb id zero_id then
        match fill_random p os ID_LEN with
        | (None, p, os) => (None, p, os)
        | (Some id, p, os) => if bytes_eqb id zero_id then (None, p, os) else (Some id, p, os)
        end
      else (Some id, p, os)
  end.

(** ** Segment and item identities *)

Definition xor_byte (a b : byte) : byte := z2b (Z.lxor (b2z a) (b2z b)).
Definition mint_sortable_segment_id (seq : Z) (store_id : list byte) : list byte :=
  let s := le_bytes 8 seq in s ++ zip_with xor_byte (take 8 store_id) s.
Definition segment_seq_from_id (segment_id : list byte) : Z := le_val (take 8 segment_id).

Definition subject_item_id {I : IntegrityPrims} (subject : list byte) : list byte :=
  take ID_LEN (blake3_hash subject).

(** ** Names ([layout.rs]) *)

Definition hex_digit (n : Z) : byte := z2b (if n <? 10 then 48 + n else 87 + n).
Definition hex_byte (b : byte) : list byte := [hex_digit (b2z b / 16); hex_digit (b2z b mod 16)].
Definition hex16 (id : list byte) : list byte := concat (map hex_byte id).

(** [char::to_digit(16)]. *)
Definition to_digit (c : byte) : option Z :=
  let n := b2z c in
  if (48 <=? n) && (n <=? 57) then Some (n - 48)
  else if (97 <=? n) && (n <=? 102) then Some (n - 87)
  else if (65 <=? n) && (n <=? 70) then Some (n - 55)
  else None.
(** [u8::from_str_radix] of two bytes: a sign [+] may come first. *)
Definition u8_from_hex (a b : byte) : option Z :=
  if b2z a =? 43 then to_digit b
  else x ← to_digit a; y ← to_digit b; Some (16 * x + y).

(** Slicing a string panics inside a character. *)
Definition char_boundary (s : list byte) (i : nat) : bool :=
  match s !! i with
  | None => true
  | Some c => negb ((128 <=? b2z c) && (b2z c <=? 191))
  end.

Inductive Parsed : Type := Id (id : list byte) | NotId | Panics.

Fixpoint unhex_loop (s : list byte) (i n : nat) : Parsed :=
  match n with
  | O => Id []
  | S n' =>
      if negb (char_boundary s (2 * i) && char_boundary s (2 * i + 2)) then Panics
      else match s !! (2 * i)%nat, s !! (2 * i + 1)%nat with
      | Some a, Some b =>
          match u8_from_hex a b with
          | None => NotId
          | Some v =>
              match unhex_loop s (S i) n' with
              | Id rest => Id (z2b v :: rest)
              | r => r
              end
          end
      | _, _ => Panics
      end
  end.
Definition unhex16 (s : list byte) : Parsed :=
  if negb (length s =? 32)%nat then NotId else unhex_loop s 0 16.

(** The part before the last dot and the part after it; a name that has no dot,
    or only one in front, is all stem. *)
Fixpoint split_dot (s : list byte) : option (list byte * list byte) :=
  match s with
  | [] => None
  | c :: r =>
      match split_dot r with
      | Some (a, b) => Some (c :: a, b)
      | None => if b2z c =? 46 then Some ([], r) else None
      end
  end.
Definition file_stem (s : list byte) : list byte :=
  match split_dot s with Some ((_ :: _) as a, _) => a | _ => s end.
Definition extension (s : list byte) : option (list byte) :=
  match split_dot s with Some (_ :: _, b) => Some b | _ => None end.

Definition segment_id_from_filename (name : list byte) : Parsed :=
  let stem := file_stem name in
  if utf8_valid stem then unhex16 stem else NotId.

(** The files of a directory that exists, or nothing. *)
Definition list_residiuum_files (dir : option (list Name)) : list Name :=
  match dir with
  | None => []
  | Some names => sort_by bytes_cmp (List.filter (fun n => bool_decide (extension n = Some (lit "residiuum"))) names)
  end.

(** ** The high-water document ([segment_allocator.rs]) *)

Definition SEGMENT_SEQ_FILE : Name := lit "segment_seq.v1".
Definition MAGIC : list byte := lit "SEGSEQ01".
Definition SEGMENT_ID_LEASE : Z := 64.

Inductive AllocError : Type :=
| Truncated | BadMagic | StoreMismatch | ActiveUnrecoverable | CorruptNoMedia | Exhausted
| IoFailed | Panicked.
(** [StoreError::CorruptMeta]. *)
Definition is_corrupt_meta (e : AllocError) : bool :=
  match e with IoFailed | Panicked => false | _ => true end.

Definition decode_segment_seq_file (bytes : list byte) : result AllocError (list byte * Z) :=
  if (length bytes <? 8 + 16 + 8)%nat then Err Truncated
  else if negb (bytes_eqb (take 8 bytes) MAGIC) then Err BadMagic
  else Ok (slice 8 24 bytes, le_val (slice 24 32 bytes)).
Definition encode_segment_seq_file (store_id : list byte) (reserved_thru : Z) : list byte :=
  MAGIC ++ store_id ++ le_bytes 8 reserved_thru.

Definition persist_reserved_thru (pid nanos : Z) (store_id : list byte) (reserved_thru : Z) : Io unit :=
  hit ≫= fun _ =>
  write_atomic pid nanos SEGMENT_SEQ_FILE (encode_segment_seq_file store_id reserved_thru) ≫= fun _ =>
  sync_dir ≫= fun _ =>
  hit.

Definition load_reserved_thru (f : Fs) (store_id : list byte) : result AllocError (option Z) :=
  match read_file f SEGMENT_SEQ_FILE with
  | None => Ok None
  | Some bytes =>
      let? p := decode_segment_seq_file bytes in
      if negb (bytes_eqb (fst p) store_id) then Err StoreMismatch else Ok (Some (snd p))
  end.

(** ** What the media show *)

(** The directories of the store and the contents of the active segments. *)
Record Media := {
  segments_dir : option (list Name); pending_dir : option (list Name);
  shadow_dir : option (list Name); chimera_dir : option (list Name);
  seg_dir : option (list Name); actives : list (list byte) }.

Definition bump (max : Z) (p : Parsed) : result AllocError Z :=
  match p with
  | Id id => Ok (Z.max max (segment_seq_from_id id))
  | NotId => Ok max
  | Panics => Err Panicked
  end.
Fixpoint bump_all (parse : Name -> Parsed) (max : Z) (names : list Name) : result AllocError Z :=
  match names with
  | [] => Ok max
  | n :: r => let? max' := bump max (parse n) in bump_all parse max' r
  end.

Definition strip_suffix (suffix s : list byte) : option (list byte) :=
  if (length suffix <=? length s)%nat && bytes_eqb (drop (length s - length suffix) s) suffix
  then Some (take (length s - length suffix) s) else None.

(** [{hex}.rsh] or [{hex}.rsh.dual.tmp]. *)
Definition shadow_id (name : Name) : Parsed :=
  let name := if utf8_valid name then name else [] in
  unhex16 match strip_suffix (lit ".rsh.dual.tmp") name with
          | Some s => s
          | None => default [] (strip_suffix (lit ".rsh") name)
          end.
(** The first 32 bytes of the stem where it has as many. *)
Definition sidecar_id (name : Name) : Parsed :=
  let stem := file_stem name in
  if negb (utf8_valid stem) then NotId
  else if (32 <=? length stem)%nat then
    if char_boundary stem 32 then unhex16 (take 32 stem) else Panics
  else unhex16 stem.

Section Alloc.
Context {I : IntegrityPrims}.
Variables (store_id : list byte) (limits : SafetyLimits).

Fixpoint active_regions (accept_foreign : bool) (foreign : option (list byte))
    (rs : list ScanRegion) : option (list byte) :=
  match rs with
  | [] => foreign
  | VerifiedFrame _ frame :: rest =>
      if bool_decide (known_kind (df_header frame) = Some SegmentDescriptor) then
        match decode_descriptor_body (df_body frame) with
        | Some (ids, _, _) =>
            if bytes_eqb (Segment.store_id ids) store_id then Some (Segment.segment_id ids)
            else active_regions accept_foreign
                   (if accept_foreign then match foreign with None => Some (Segment.segment_id ids) | _ => foreign end
                    else foreign) rest
        | None => active_regions accept_foreign foreign rest
        end
      else active_regions accept_foreign foreign rest
  | Hole _ _ :: rest => active_regions accept_foreign foreign rest
  end.
Definition active_segment_id_from_file (bytes : list byte) (accept_foreign : bool) : option (list byte) :=
  match bytes with
  | [] => None
  | _ => active_regions accept_foreign None (regions (scan_forward bytes limits))
  end.

Fixpoint bump_actives (accept_foreign : bool) (max : Z) (files : list (list byte)) : result AllocError Z :=
  match files with
  | [] => Ok max
  | bytes :: rest =>
      match active_segment_id_from_file bytes accept_foreign with
      | Some id => bump_actives accept_foreign (Z.max max (segment_seq_from_id id)) rest
      | None =>
          if (0 <? length bytes)%nat then Err ActiveUnrecoverable
          else bump_actives accept_foreign max rest
      end
  end.

Definition scan_media_max_seq_with_policy (media : Media) (accept_foreign : bool) : result AllocError Z :=
  let? m := bump_all segment_id_from_filename 0 (list_residiuum_files (segments_dir media)) in
  let? m := bump_all segment_id_from_filename m (list_residiuum_files (pending_dir media)) in
  let? m := bump_all shadow_id m (default [] (shadow_dir media)) in
  let? m := bump_all sidecar_id m (default [] (chimera_dir media)) in
  let? m := bump_all sidecar_id m (default [] (seg_dir media)) in
  bump_actives accept_foreign m (actives media).
Definition scan_media_max_seq (media : Media) : result AllocError Z :=
  scan_media_max_seq_with_policy media false.

(** ** Opening and issuing *)

(** What the durable document says at open, and whether open refuses. *)
Definition durable_at_open (f : Fs) (media_max : Z) : result AllocError (option Z) :=
  match load_reserved_thru f store_id with
  | Ok v => Ok v
  | Err e =>
      if is_corrupt_meta e then
        if (media_max =? 0)
           && match read_file f SEGMENT_SEQ_FILE with Some bs => (0 <? length bs)%nat | None => false end
        then Err CorruptNoMedia else Ok None
      else Err e
  end.

Definition reconstruct_from (pid nanos : Z) (media_max : Z) : Io (result AllocError Z) := fun m =>
  match durable_at_open (fs m) media_max with
  | Err e => (Some (Err e), m)
  | Ok durable =>
      let reserved := match durable with Some d => Z.max d media_max | None => media_max end in
      ((if bool_decide (durable = Some reserved) then mret tt
        else persist_reserved_thru pid nanos store_id reserved) ≫= fun _ =>
       hit ≫= fun _ => mret (Ok reserved)) m
  end.
Definition reconstruct_reserved_thru_with_policy (pid nanos : Z) (media : Media)
    (accept_foreign : bool) : Io (result AllocError Z) :=
  hit ≫= fun _ =>
  match scan_media_max_seq_with_policy media accept_foreign with
  | Err e => mret (Err e)
  | Ok media_max => reconstruct_from pid nanos media_max
  end.
Definition reconstruct_reserved_thru (pid nanos : Z) (media : Media) : Io (result AllocError Z) :=
  reconstruct_reserved_thru_with_policy pid nanos media false.

(** [segment_seq] and [segment_seq_reserved_thru] of an open store. *)
Record Lease := { issued_thru : Z; reserved_thru : Z }.

Definition note_in_memory_high_water (l : Lease) (observed_seq : Z) : Lease :=
  {| issued_thru := Z.max (issued_thru l) observed_seq; reserved_thru := reserved_thru l |}.

(** The counters are what is left also when an error is returned. *)
Definition issue_next (l : Lease) (m : Machine) : result AllocError (list byte) * Lease * Machine :=
  let l' := {| issued_thru := sat_add (issued_thru l) 1; reserved_thru := reserved_thru l |} in
  match hit m with
  | (None, m') => (Err IoFailed, l', m')
  | (Some _, m') => (Ok (mint_sortable_segment_id (issued_thru l') store_id), l', m')
  end.
Definition next_segment_id_from_lease (pid nanos : Z) (l : Lease) (m : Machine)
  : result AllocError (list byte) * Lease * Machine :=
  if reserved_thru l <=? issued_thru l then
    let lease_end := sat_add (issued_thru l) SEGMENT_ID_LEASE in
    if lease_end =? issued_thru l then (Err Exhausted, l, m)
    else match persist_reserved_thru pid nanos store_id lease_end m with
    | (None, m') => (Err IoFailed, l, m')
    | (Some _, m') => issue_next {| issued_thru := issued_thru l; reserved_thru := lease_end |} m'
    end
  else issue_next l m.

(** [Store::open] takes both counters from the reconstruction. *)
Definition open_lease (reserved : Z) : Lease := {| issued_thru := reserved; reserved_thru := reserved |}.
End Alloc.
