(* ===== verification/SegmentIdsFacts.v ===== *)
(** * Facts about identifiers and segment allocation

    Random identities use every byte of the generator once; names round-trip;
    a segment id is never issued twice, through failures, restarts and crashes. *)
From S2P Require Import Prelude Cbor CborFacts Frame FrameFacts Scan ScanFacts Segment SegmentFacts AtomicFile AtomicFileFacts SegmentIds.
Open Scope list_scope.
Open Scope Z_scope.

(** ** Random identities *)

(** The bytes that are still to be handed out. *)
Definition stream (p : RandomPool) (os : Entropy) : list byte :=
  slice (pool_off p) (pool_end p) (pool_buf p) ++ concat (omap id os).
Definition pool_ok (p : RandomPool) : Prop :=
  (pool_off p <= pool_end p)%nat /\ (pool_end p <= length (pool_buf p))%nat.
Definition entropy_ok (os : Entropy) : Prop :=
  Forall (fun r => match r with Some bs => length bs = RANDOM_POOL_LEN | None => True end) os.

Lemma pool_take_spec fuel p os n out p' os' :
  pool_ok p -> entropy_ok os -> pool_take fuel p os n = (Some out, p', os') ->
  pool_ok p' /\ entropy_ok os' /\ length out = n /\ stream p os = out ++ stream p' os'.
Proof.
  revert p os n out. induction fuel as [|fuel IH]; intros p os n out Hp Hos; cbn [pool_take]; [done|].
  destruct (Nat.eqb_spec n 0) as [->|Hn]; [by intros [= <- <- <-]|].
  destruct (if (pool_end p <=? pool_off p)%nat then _ else _) as [[p1|] os1] eqn:E1; [|done].
  assert (H1 : pool_ok p1 /\ entropy_ok os1 /\ (pool_off p1 < pool_end p1)%nat /\ stream p os = stream p1 os1).
  { destruct (Nat.leb_spec (pool_end p) (pool_off p)) as [Hle|Hlt].
    - unfold fill_from_os in E1. destruct os as [|[bs|] os2]; [done| |done].
      injection E1 as <- <-. apply Forall_cons in Hos as [Hl Hos].
      split; [split; cbn; [lia|by rewrite Hl]|]. split; [done|]. split; [cbn; unfold RANDOM_POOL_LEN; lia|].
      unfold stream. cbn [omap list_omap id pool_off pool_end pool_buf concat].
      unfold slice at 1. replace (pool_end p - pool_off p)%nat with 0%nat by lia. cbn [take app].
      rewrite <- Hl. unfold slice. rewrite Nat.sub_0_r, drop_0, firstn_all. done.
    - by injection E1 as <- <-. }
  destruct H1 as (Hp1 & Hos1 & Hlt & ->). set (k := Nat.min n _).
  destruct (pool_take fuel _ _ _) as [[[rest|] p3] os3] eqn:Et; [|done]. intros [= <- <- <-].
  apply IH in Et as (Hp3 & Hos3 & Hl & Hst); [|split; cbn; destruct Hp1; lia|done].
  split; [done|]. split; [done|]. destruct Hp1 as [Ha Hb]. split.
  { rewrite length_app, Hl. unfold slice. rewrite length_take, length_drop. lia. }
  unfold stream in *. cbn [pool_off pool_end pool_buf] in Hst. rewrite <- app_assoc, <- Hst, app_assoc.
  f_equal. symmetry. apply slice_cat; lia.
Qed.

Lemma pool_take_total fuel p os n : pool_ok p -> entropy_ok os -> (n < fuel)%nat ->
  (n <= length (stream p os))%nat -> Forall is_Some os ->
  exists out p' os', pool_take fuel p os n = (Some out, p', os').
Proof.
  revert p os n. induction fuel as [|fuel IH]; intros p os n Hp Hos Hf Hn Hs; [lia|]. cbn [pool_take].
  destruct (Nat.eqb_spec n 0) as [->|Hn0]; [eauto|].
  set (b := if (pool_end p <=? pool_off p)%nat then _ else _).
  assert (H1 : exists p1 os1, b = (Some p1, os1) /\ pool_ok p1 /\ entropy_ok os1 /\ Forall is_Some os1
    /\ (pool_off p1 < pool_end p1)%nat /\ length (stream p os) = length (stream p1 os1)).
  { unfold b. destruct (Nat.leb_spec (pool_end p) (pool_off p)) as [Hle|Hlt]; [|by exists p, os].
    unfold stream in *. rewrite length_app in *. unfold slice at 1 in Hn. unfold slice at 1.
    replace (pool_end p - pool_off p)%nat with 0%nat in * by lia.
    rewrite take_0 in Hn |- *. cbn [length] in Hn |- *.
    destruct os as [|[bs|] os2]; cbn in Hn; [lia| |by apply Forall_cons in Hs as [[? ?] _]].
    apply Forall_cons in Hos as [Hl Hos]. apply Forall_cons in Hs as [_ Hs].
    eexists _, _. split; [reflexivity|]. split; [split; cbn; [lia|by rewrite Hl]|].
    split_and!; [done|done|cbn; unfold RANDOM_POOL_LEN; lia|]. cbn [omap list_omap id concat pool_off pool_end pool_buf].
    rewrite !length_app. unfold slice. rewrite drop_0, Nat.sub_0_r, length_take. rewrite Hl. lia. }
  destruct H1 as (p1 & os1 & -> & Hp1 & Hos1 & Hs1 & Hlt & Hst). rewrite Hst in Hn. set (k := Nat.min n _).
  destruct Hp1 as [Ha Hb].
  destruct (IH {| pool_buf := pool_buf p1; pool_off := pool_off p1 + k; pool_end := pool_end p1 |} os1 (n - k)%nat)
    as (out & p' & os' & ->); [split; cbn; lia|done|lia| |done|by eexists _, _, _].
  unfold stream in *. rewrite length_app in *. cbn [pool_off pool_end pool_buf].
  unfold slice in *. rewrite length_take, length_drop in *. lia.
Qed.

(** Random identities are not zero and are cut from the generator's stream in
    order, each byte used once; they are only refused where the generator fails
    or gives zeros twice. *)
Lemma random_id_spec p os id p' os' : pool_ok p -> entropy_ok os ->
  random_id p os = (Some id, p', os') ->
  length id = ID_LEN /\ id <> zero_id /\ pool_ok p' /\ entropy_ok os'
  /\ exists skipped, (skipped = [] \/ skipped = zero_id) /\ stream p os = skipped ++ id ++ stream p' os'.
Proof.
  intros Hp Hos. unfold random_id, fill_random.
  destruct (pool_take _ p os ID_LEN) as [[[i1|] p1] os1] eqn:E1; [|done].
  apply pool_take_spec in E1 as (Hp1 & Ho1 & Hl1 & Hs1); [|done..].
  unfold bytes_eqb. case_bool_decide as Hz.
  - destruct (pool_take _ p1 os1 ID_LEN) as [[[i2|] p2] os2] eqn:E2; [|done].
    apply pool_take_spec in E2 as (Hp2 & Ho2 & Hl2 & Hs2); [|done..].
    case_bool_decide as Hz2; [done|]. intros [= <- <- <-]. split_and!; [done..|].
    exists zero_id. split; [by right|]. by rewrite Hs1, Hz, Hs2.
  - intros [= <- <- <-]. split_and!; [done..|]. exists []. split; [by left|done].
Qed.

(** ** Segment ids and their names *)

Definition id_ok (b : list byte) : Prop := length b = 16%nat.

Lemma mint_seq seq store : in_u64 seq -> segment_seq_from_id (mint_sortable_segment_id seq store) = seq.
Proof.
  intros H. unfold segment_seq_from_id, mint_sortable_segment_id.
  rewrite take_app_length' by by rewrite length_le_bytes. apply le_val_bytes_small. unfold in_u64, U64_MAX in H. lia.
Qed.
Lemma seq_range id : in_u64 (segment_seq_from_id id).
Proof.
  unfold segment_seq_from_id, in_u64, U64_MAX. pose proof (le_val_range (take 8 id)) as H.
  assert (256 ^ Z.of_nat (length (take 8 id)) <= 256 ^ 8); [|lia].
  apply Z.pow_le_mono_r; [lia|]. rewrite length_take. lia.
Qed.
Lemma mint_length seq store : id_ok store -> id_ok (mint_sortable_segment_id seq store).
Proof.
  unfold id_ok, mint_sortable_segment_id. intros H.
  rewrite length_app, length_zip_with, length_le_bytes, length_take. lia.
Qed.

Lemma hex_pair b : u8_from_hex (hex_digit (b2z b / 16)) (hex_digit (b2z b mod 16)) = Some (b2z b)
  /\ char_boundary [hex_digit (b2z b / 16)] 0 = true.
Proof. by destruct b; vm_compute. Qed.

Lemma hex_ascii id : Forall (fun c => b2z c < 128) (hex16 id).
Proof.
  unfold hex16. induction id as [|b id IH]; [constructor|]. cbn [map concat].
  apply Forall_app. split; [|done]. by destruct b; repeat constructor.
Qed.
Lemma ascii_boundary s i : Forall (fun c => b2z c < 128) s -> char_boundary s i = true.
Proof.
  intros H. unfold char_boundary. destruct (s !! i) as [c|] eqn:E; [|done].
  eapply Forall_lookup_1 in H; [|exact E]. by rewrite (proj2 (Z.leb_gt _ _)).
Qed.
Lemma hex16_lookup id i b : id !! i = Some b ->
  hex16 id !! (2 * i)%nat = Some (hex_digit (b2z b / 16))
  /\ hex16 id !! (2 * i + 1)%nat = Some (hex_digit (b2z b mod 16)).
Proof.
  revert i. induction id as [|x id IH]; intros i; [done|]. destruct i as [|i]; cbn [lookup list_lookup].
  { by intros [= ->]. }
  intros H%IH. unfold hex16 in *. cbn [map concat].
  replace (2 * S i)%nat with (S (S (2 * i))) by lia. replace (S (S (2 * i)) + 1)%nat with (S (S (2 * i + 1))) by lia.
  done.
Qed.
Lemma unhex_loop_hex id k : (k <= length id)%nat ->
  unhex_loop (hex16 id) (length id - k) k = Id (drop (length id - k) id).
Proof.
  induction k as [|k IH]; intros Hk.
  { cbn [unhex_loop]. by rewrite Nat.sub_0_r, drop_all. }
  cbn [unhex_loop]. rewrite !ascii_boundary by apply hex_ascii. cbn [andb negb].
  destruct (lookup_lt_is_Some_2 id (length id - S k)) as [b Hb]; [lia|].
  destruct (hex16_lookup id _ b Hb) as [-> ->]. rewrite (proj1 (hex_pair b)).
  replace (S (length id - S k)) with (length id - k)%nat by lia. rewrite IH by lia.
  rewrite z2b_b2z. f_equal. rewrite (drop_S id b (length id - S k)) by done. do 2 f_equal. lia.
Qed.
Lemma length_hex16 id : length (hex16 id) = (2 * length id)%nat.
Proof. unfold hex16. induction id as [|b l IH]; [done|]. cbn [map concat]. rewrite length_app, IH. cbn. lia. Qed.
Lemma unhex_hex id : id_ok id -> unhex16 (hex16 id) = Id id.
Proof.
  intros H. unfold unhex16.
  assert (Hl : length (hex16 id) = 32%nat) by by rewrite length_hex16, H.
  rewrite Hl. cbn [Nat.eqb negb]. pose proof (unhex_loop_hex id 16 ltac:(rewrite H; lia)) as E.
  rewrite H in E. exact E.
Qed.

(** ** The high-water document *)

Lemma seq_file_roundtrip store n : id_ok store -> in_u64 n ->
  decode_segment_seq_file (encode_segment_seq_file store n) = Ok (store, n).
Proof.
  intros Hs Hn. unfold decode_segment_seq_file, encode_segment_seq_file.
  assert (Hl : length (MAGIC ++ store ++ le_bytes 8 n) = 32%nat).
  { rewrite !length_app, length_le_bytes, Hs. reflexivity. }
  rewrite Hl. cbn [Nat.ltb Nat.leb].
  rewrite take_app_length' by reflexivity. unfold bytes_eqb. rewrite bool_decide_eq_true_2 by done. cbn [negb].
  do 2 f_equal.
  - rewrite (slice_app_skip MAGIC _ 8 24 8) by (reflexivity || lia). by apply slice_app_here.
  - rewrite (slice_app_skip MAGIC _ 24 32 8) by (reflexivity || lia). rewrite (slice_app_skip store _ (24 - 8) (32 - 8) 16) by (done || lia).
    rewrite slice_all by by rewrite length_le_bytes. apply le_val_bytes_small. unfold in_u64, U64_MAX in Hn. lia.
Qed.

Lemma decode_range bs s n : decode_segment_seq_file bs = Ok (s, n) -> in_u64 n.
Proof.
  unfold decode_segment_seq_file. destruct (length bs <? _)%nat; [done|]. destruct (negb _); [done|].
  intros [= _ <-]. unfold in_u64, U64_MAX. pose proof (le_val_range (slice 24 32 bs)) as Hr.
  assert (256 ^ Z.of_nat (length (slice 24 32 bs)) <= 256 ^ 8); [|lia].
  apply Z.pow_le_mono_r; [lia|]. unfold slice. rewrite length_take, length_drop. lia.
Qed.

Section Alloc.
Context {I : IntegrityPrims}.
Variables (store : list byte) (limits : SafetyLimits) (Hstore : id_ok store).

(** The mark that a document of this store holds. *)
Definition mark (v : option (list byte)) : option Z :=
  match v with
  | Some bs =>
      match decode_segment_seq_file bs with
      | Ok (s, n) => if bytes_eqb s store then Some n else None
      | Err _ => None
      end
  | None => None
  end.
Definition below (minted : list (list byte)) (n : Z) : Prop :=
  Forall (fun id => segment_seq_from_id id <= n) minted.
(** Every issued id is at most the mark; without a mark none was issued. *)
Definition covers (minted : list (list byte)) (v : option (list byte)) : Prop :=
  minted = [] \/ exists n, mark v = Some n /\ below minted n.
Definition at_least (r : Z) (v : option (list byte)) : Prop := exists n, mark v = Some n /\ r <= n.

Definition doc_inv (minted : list (list byte)) (l : option Lease) (f : Fs) : Prop :=
  exists allowed, reg_inv SEGMENT_SEQ_FILE false allowed f /\ Forall (covers minted) allowed
  /\ forall l', l = Some l' -> issued_thru l' < reserved_thru l' -> Forall (at_least (reserved_thru l')) allowed.

Lemma mark_encode n : in_u64 n -> mark (Some (encode_segment_seq_file store n)) = Some n.
Proof.
  intros H. unfold mark. rewrite seq_file_roundtrip by done. unfold bytes_eqb. by rewrite bool_decide_eq_true_2.
Qed.
Lemma covers_encode minted n : in_u64 n -> below minted n ->
  covers minted (Some (encode_segment_seq_file store n)).
Proof. intros Hn Hb. right. exists n. split; [by apply mark_encode|done]. Qed.

(** A persisted mark is the document; a failed one may be. *)
Lemma persist_spec pid nanos n allowed : triple
  (reg_inv SEGMENT_SEQ_FILE false (Some (encode_segment_seq_file store n) :: allowed))
  (persist_reserved_thru pid nanos store n)
  (fun _ => reg_inv SEGMENT_SEQ_FILE false [Some (encode_segment_seq_file store n)])
  (reg_inv SEGMENT_SEQ_FILE false (Some (encode_segment_seq_file store n) :: allowed)).
Proof.
  unfold persist_reserved_thru, write_atomic. generalize (encode_segment_seq_file store n) as b. intros b.
  generalize SEGMENT_SEQ_FILE as path. intros path.
  eapply triple_bind; [apply triple_hit; intros f H; exact H|intros ?].
  eapply triple_bind; [apply write_atomic_spec; discriminate|intros ?].
  eapply (triple_bind _ _ _ (fun _ => settled path false b)).
  - apply triple_simple; [by apply settled_after|]. intros f Hf. unfold settled, reg_inv. cbn.
    apply Forall_singleton. by apply reg_inv_current in Hf.
  - intros ?. apply triple_hit, settled_after.
Qed.

Lemma persist_doc pid nanos minted l n m r m' :
  doc_inv minted l (fs m) -> in_u64 n -> below minted n ->
  (forall l', l = Some l' -> issued_thru l' < reserved_thru l' -> False) ->
  persist_reserved_thru pid nanos store n m = (r, m') ->
  doc_inv minted l (fs m')
  /\ (r = Some tt -> forall l', reserved_thru l' = n -> doc_inv minted (Some l') (fs m')).
Proof.
  intros (allowed & Hi & Hc & Hl) Hn Hb Hlt E.
  pose proof (persist_spec pid nanos n allowed m (reg_inv_weaken _ _ _ _ _ Hi)) as H. rewrite E in H.
  pose proof (covers_encode minted n Hn Hb) as Hcn. destruct r as [[]|].
  - split.
    + exists [Some (encode_segment_seq_file store n)]. split; [done|]. split; [by apply Forall_singleton|].
      intros l' Hl' Hlt'. destruct (Hlt l' Hl' Hlt').
    + intros _ l' <-. exists [Some (encode_segment_seq_file store (reserved_thru l'))]. split; [done|].
      split; [by apply Forall_singleton|]. intros ? [= <-] _. apply Forall_singleton.
      eexists. split; [by apply mark_encode|lia].
  - split; [|done]. exists (Some (encode_segment_seq_file store n) :: allowed).
    split; [done|]. split; [by constructor|]. intros l' Hl' Hlt'. destruct (Hlt l' Hl' Hlt').
Qed.

Lemma hit_doc minted l m r m' : doc_inv minted l (fs m) -> hit m = (r, m') -> doc_inv minted l (fs m').
Proof.
  intros Hd E. pose proof (triple_hit (doc_inv minted l) (doc_inv minted l) (fun _ H => H) m Hd) as H.
  rewrite E in H. by destruct r.
Qed.

(** ** The allocator as a machine *)

(** The disk, the counters of the running process, the media it was opened over
    and whether it was opened to accept foreign ones, the ids issued so far. *)
Record AllocState := {
  a_fs : Fs; a_lease : option Lease; a_media : Media; a_foreign : bool; a_minted : list (list byte) }.

(** A process opens the store over any media, issues ids, observes ids on media
    and stops; the power may fail at any time. *)
Inductive alloc_step : AllocState -> AllocState -> Prop :=
| alloc_open s pid nanos media accept_foreign fl r m :
    reconstruct_reserved_thru_with_policy store limits pid nanos media accept_foreign
      {| fs := a_fs s; faults := fl |} = (r, m) ->
    alloc_step s {|
      a_fs := fs m;
      a_lease := match r with Some (Ok n) => Some (open_lease n) | _ => None end;
      a_media := media; a_foreign := accept_foreign; a_minted := a_minted s |}
| alloc_mint s pid nanos fl l r l' m : a_lease s = Some l ->
    next_segment_id_from_lease store pid nanos l {| fs := a_fs s; faults := fl |} = (r, l', m) ->
    alloc_step s {| a_fs := fs m; a_lease := Some l'; a_media := a_media s; a_foreign := a_foreign s;
      a_minted := match r with Ok id => a_minted s ++ [id] | Err _ => a_minted s end |}
| alloc_observe s l id : a_lease s = Some l ->
    alloc_step s {| a_fs := a_fs s; a_media := a_media s; a_foreign := a_foreign s; a_minted := a_minted s;
      a_lease := Some (note_in_memory_high_water l (segment_seq_from_id id)) |}
| alloc_stop s :
    alloc_step s {| a_fs := a_fs s; a_lease := None; a_media := a_media s; a_foreign := a_foreign s; a_minted := a_minted s |}
| alloc_crash s f' : crash (a_fs s) f' ->
    alloc_step s {| a_fs := f'; a_lease := None; a_media := a_media s; a_foreign := a_foreign s; a_minted := a_minted s |}.

(** The counters are at least [floor], the maximum the scan of the media found. *)
Definition scanned (s : AllocState) (floor : Z) : Prop :=
  scan_media_max_seq_with_policy store limits (a_media s) (a_foreign s) = Ok floor.

Record alloc_inv (s : AllocState) : Prop := {
  ai_doc : doc_inv (a_minted s) (a_lease s) (a_fs s);
  ai_lease l : a_lease s = Some l -> in_u64 (issued_thru l) /\ in_u64 (reserved_thru l)
    /\ below (a_minted s) (issued_thru l) /\ exists floor, scanned s floor /\ floor <= issued_thru l;
  ai_sorted : StronglySorted (fun a b => segment_seq_from_id a < segment_seq_from_id b) (a_minted s) }.

(** ** Opening *)

Lemma bump_range max p n : in_u64 max -> bump max p = Ok n -> in_u64 n.
Proof.
  intros H. destruct p as [id| |]; cbn; [|by intros [= <-]|done]. intros [= <-].
  pose proof (seq_range id). unfold in_u64 in *. lia.
Qed.
Lemma bump_all_range parse names max n : in_u64 max -> bump_all parse max names = Ok n -> in_u64 n.
Proof.
  revert max. induction names as [|x names IH]; intros max H; cbn [bump_all]; [by intros [= <-]|].
  destruct (bump max (parse x)) as [max'|] eqn:E; [|done]. apply IH. by eapply bump_range.
Qed.
Lemma bump_actives_range af files max n : in_u64 max ->
  bump_actives store limits af max files = Ok n -> in_u64 n.
Proof.
  revert max. induction files as [|x files IH]; intros max H; cbn [bump_actives]; [by intros [= <-]|].
  destruct (active_segment_id_from_file _ _ _ _) as [id|].
  - apply IH. pose proof (seq_range id). unfold in_u64 in *. lia.
  - destruct (0 <? length x)%nat; [done|]. by apply IH.
Qed.
Lemma scan_range media af n : scan_media_max_seq_with_policy store limits media af = Ok n -> in_u64 n.
Proof.
  unfold scan_media_max_seq_with_policy. intros H.
  assert (H0 : in_u64 0) by done. repeat match type of H with
  | match bump_all ?p ?m ?l with _ => _ end = _ =>
      let E := fresh in destruct (bump_all p m l) eqn:E; [|discriminate H];
      eapply bump_all_range in E; [|eassumption]
  end.
  by eapply bump_actives_range in H.
Qed.

Lemma open_reserved minted l f media_max d : doc_inv minted l f -> in_u64 media_max ->
  durable_at_open store f media_max = Ok d ->
  let reserved := match d with Some d => Z.max d media_max | None => media_max end in
  in_u64 reserved /\ below minted reserved /\ media_max <= reserved.
Proof.
  intros (allowed & Hi & Hc & _) Hm Hd.
  pose proof (document_content _ _ _ _ Hi) as Hdoc. unfold document in Hdoc.
  pose proof (reg_inv_current _ _ _ _ Hi) as [_ Hin]. rewrite <- Hdoc in Hin.
  eapply Forall_forall in Hc; [|exact Hin]. clear Hdoc Hin Hi.
  assert (Hnil : forall n, minted = [] -> below minted n) by by intros n ->; constructor.
  unfold durable_at_open, load_reserved_thru in Hd. unfold covers, mark in Hc.
  destruct (read_file f SEGMENT_SEQ_FILE) as [bs|].
  - destruct (decode_segment_seq_file bs) as [[s n]|e] eqn:E; cbn in Hd.
    + pose proof (decode_range _ _ _ E) as Hn.
      destruct (bytes_eqb s store); cbn in Hd.
      * injection Hd as <-. cbn. split; [unfold in_u64 in *; lia|]. split; [|lia].
        destruct Hc as [Hc|(n' & [= <-] & Hc)]; [by apply Hnil|]. eapply Forall_impl; [exact Hc|]. cbn. lia.
      * destruct Hc as [Hc|(n' & ? & _)]; [|done]. case_match; [done|]. injection Hd as <-. cbn.
        split; [done|]. split; [by apply Hnil|lia].
    + destruct Hc as [Hc|(n' & ? & _)]; [|done].
      destruct (is_corrupt_meta e); [|done]. case_match; [done|]. injection Hd as <-. cbn.
      split; [done|]. split; [by apply Hnil|lia].
  - injection Hd as <-. cbn. destruct Hc as [Hc|(n' & ? & _)]; [|done]. split; [done|]. split; [by apply Hnil|lia].
Qed.

Lemma doc_inv_no_lease minted l f : doc_inv minted l f -> doc_inv minted None f.
Proof. intros (a & Hi & Hc & _). by exists a. Qed.
Lemma doc_inv_open minted f n : doc_inv minted None f -> doc_inv minted (Some (open_lease n)) f.
Proof. intros (a & Hi & Hc & _). exists a. split_and!; [done..|]. intros l' [= <-]. cbn. lia. Qed.

Lemma open_spec minted pid nanos media af m r m' : doc_inv minted None (fs m) ->
  reconstruct_reserved_thru_with_policy store limits pid nanos media af m = (r, m') ->
  doc_inv minted None (fs m')
  /\ forall n, r = Some (Ok n) -> in_u64 n /\ below minted n
     /\ exists mx, scan_media_max_seq_with_policy store limits media af = Ok mx /\ mx <= n.
Proof.
  intros Hd. unfold reconstruct_reserved_thru_with_policy, mbind at 1, Io_bind at 1.
  destruct (hit m) as [[[]|] m1] eqn:E1; [|by intros [= <- <-]; split; [eapply hit_doc|]].
  apply (hit_doc _ _ _ _ _ Hd) in E1 as Hd1. clear Hd E1.
  destruct (scan_media_max_seq_with_policy store limits media af) as [mx|e] eqn:Es; [|by intros [= <- <-]].
  apply scan_range in Es as Hmx. unfold reconstruct_from.
  destruct (durable_at_open store (fs m1) mx) as [d|e] eqn:Ed; [|by intros [= <- <-]].
  destruct (open_reserved _ _ _ _ _ Hd1 Hmx Ed) as (Hr & Hb & Hle). cbn zeta in Hr, Hb, Hle.
  set (reserved := match d with Some d => _ | None => _ end) in *.
  unfold mbind, Io_bind. intros H.
  destruct ((if bool_decide (d = Some reserved) then mret tt
             else persist_reserved_thru pid nanos store reserved : Io unit) m1) as [[[]|] m2] eqn:E2.
  - assert (Hd2 : doc_inv minted None (fs m2)).
    { destruct (bool_decide (d = Some reserved)); [by injection E2 as <-|].
      by apply (persist_doc pid nanos minted None reserved m1 (Some tt) m2). }
    destruct (hit m2) as [[[]|] m3] eqn:E3; apply (hit_doc _ _ _ _ _ Hd2) in E3; injection H as <- <-; [|done].
    split; [done|]. intros n [= <-]. eauto.
  - injection H as <- <-. split; [|done]. destruct (bool_decide (d = Some reserved)); [done|].
    by apply (persist_doc pid nanos minted None reserved m1 None m2).
Qed.

(** ** Issuing *)

Lemma covers_snoc minted id v n : mark v = Some n -> below minted n -> segment_seq_from_id id <= n ->
  covers (minted ++ [id]) v.
Proof. intros Hm Hb Hid. right. exists n. split; [done|]. apply Forall_app. split; [done|]. by apply Forall_singleton. Qed.

Lemma below_mono minted a b : a <= b -> below minted a -> below minted b.
Proof. intros H Hb. eapply Forall_impl; [exact Hb|]. cbn. lia. Qed.

Lemma below_snoc minted a id : below minted a -> segment_seq_from_id id = a + 1 ->
  below (minted ++ [id]) (a + 1).
Proof.
  intros Hb Hid. apply Forall_app. split; [by apply (below_mono _ a); [lia|]|]. apply Forall_singleton. lia.
Qed.

(** The invariant with the counters [l] and the ids [minted]. *)
Definition lease_inv (minted : list (list byte)) (floor : Z) (l : Lease) (f : Fs) : Prop :=
  doc_inv minted (Some l) f /\ in_u64 (issued_thru l) /\ in_u64 (reserved_thru l)
  /\ below minted (issued_thru l) /\ floor <= issued_thru l.

(** What issuing from the counters [l] leaves. *)
Definition issued_ok (minted : list (list byte)) (floor : Z) (l : Lease)
    (x : result AllocError (list byte) * Lease * Machine) : Prop :=
  let '(r, l', m') := x in
  match r with
  | Ok id => segment_seq_from_id id = issued_thru l + 1 /\ lease_inv (minted ++ [id]) floor l' (fs m')
  | Err _ => lease_inv minted floor l' (fs m')
  end.

(** One id from a lease with room. *)
Lemma issue_spec minted floor l m : lease_inv minted floor l (fs m) ->
  issued_thru l < reserved_thru l -> issued_ok minted floor l (issue_next store l m).
Proof.
  intros (Hd & Hi & Hr & Hb & Hf) Hlt. unfold issue_next, issued_ok.
  assert (Hs : sat_add (issued_thru l) 1 = issued_thru l + 1) by (unfold sat_add, in_u64 in *; lia).
  assert (Hs' : in_u64 (issued_thru l + 1)) by (unfold in_u64 in *; lia).
  cbn [issued_thru]. rewrite Hs. set (id := mint_sortable_segment_id _ _).
  assert (Hseq : segment_seq_from_id id = issued_thru l + 1) by by apply mint_seq.
  destruct (hit m) as [rh m'] eqn:E. apply (hit_doc _ _ _ _ _ Hd) in E as (a & Hreg & Hc & Hal).
  specialize (Hal l eq_refl Hlt).
  assert (Hc' : Forall (covers (minted ++ [id])) a).
  { apply Forall_forall. intros v Hv. rewrite Forall_forall in Hal. destruct (Hal v Hv) as (n & Hn & Hle).
    apply (covers_snoc _ _ _ n); [done|by apply (below_mono _ (issued_thru l)); [lia|]|lia]. }
  destruct rh as [[]|]; [split; [exact Hseq|]|];
    (split; [exists a; split_and!; [done|done|by intros ? [= <-]]|]; cbn [issued_thru reserved_thru]; split_and!; [done|done| |lia]).
  - by apply below_snoc.
  - by apply (below_mono _ (issued_thru l)); [lia|].
Qed.

Lemma mint_spec pid nanos minted floor l m : lease_inv minted floor l (fs m) ->
  issued_ok minted floor l (next_segment_id_from_lease store pid nanos l m).
Proof.
  intros Hl. pose proof Hl as (Hd & Hi & Hr & Hb & Hf). unfold next_segment_id_from_lease.
  destruct (Z.leb_spec (reserved_thru l) (issued_thru l)) as [Hle|Hlt]; [|by apply issue_spec].
  assert (He : in_u64 (sat_add (issued_thru l) SEGMENT_ID_LEASE) /\ issued_thru l <= sat_add (issued_thru l) SEGMENT_ID_LEASE)
    by (unfold sat_add, in_u64, SEGMENT_ID_LEASE, U64_MAX in *; lia).
  revert He. generalize (sat_add (issued_thru l) SEGMENT_ID_LEASE) as e. intros e [He1 He2].
  destruct (Z.eqb_spec e (issued_thru l)) as [He|He]; [exact Hl|].
  destruct (persist_reserved_thru pid nanos store e m) as [r1 m1] eqn:Ep.
  apply (persist_doc _ _ minted (Some l)) in Ep as [Hd1 Hok];
    [|done|done|by apply (below_mono _ (issued_thru l))|by intros ? [= <-]; lia].
  destruct r1 as [[]|]; [|by split].
  assert (He' : issued_thru l < e) by lia.
  set (l1 := {| issued_thru := issued_thru l; reserved_thru := e |}).
  apply (issue_spec minted floor l1); [|exact He']. split; [by apply Hok|]. by split_and!.
Qed.

Lemma alloc_lease s l : alloc_inv s -> a_lease s = Some l ->
  exists floor, scanned s floor /\ lease_inv (a_minted s) floor l (a_fs s).
Proof.
  intros [Hd Hl _] E. destruct (Hl l E) as (H1 & H2 & H3 & floor & Hf & H4).
  exists floor. split; [done|]. split; [by rewrite <- E|by split_and!].
Qed.

Lemma sorted_snoc minted id n : below minted n -> segment_seq_from_id id = n + 1 ->
  StronglySorted (fun a b => segment_seq_from_id a < segment_seq_from_id b) minted ->
  StronglySorted (fun a b => segment_seq_from_id a < segment_seq_from_id b) (minted ++ [id]).
Proof.
  intros Hb Hid Hs. apply StronglySorted_app. split_and!; [|done|by repeat constructor].
  intros a b Ha ->%list_elem_of_singleton. eapply Forall_forall in Hb; [|exact Ha]. cbn in Hb. lia.
Qed.

Lemma alloc_step_inv s s' : alloc_step s s' -> alloc_inv s -> alloc_inv s'.
Proof.
  intros Hs Hi. destruct Hs as [s pid nanos media af fl r m E|s pid nanos fl l r l' m El E|s l id El|s|s f' Hc].
  - destruct Hi as [Hd _ Hso]. apply doc_inv_no_lease in Hd.
    destruct (open_spec _ _ _ _ _ {| fs := a_fs s; faults := fl |} _ _ Hd E) as [Hd' Hok]. split; cbn; [| |done].
    + destruct r as [[n|]|]; [by apply doc_inv_open|done..].
    + intros l. destruct r as [[n|]|]; [|done..]. intros [= <-].
      destruct (Hok n eq_refl) as (H1 & H2 & mx & H3 & H4). split_and!; [done..|]. by exists mx.
  - destruct (alloc_lease _ _ Hi El) as (floor & Hfl & Hinv).
    pose proof (mint_spec pid nanos _ floor l {| fs := a_fs s; faults := fl |} Hinv) as H.
    rewrite E in H. unfold issued_ok in H.
    destruct r as [id|e]; [destruct H as [Hseq H]|]; destruct H as (Hd' & H1 & H2 & H3 & H4); split; cbn;
      [done|intros ? [= <-]; split_and!; [done..|by exists floor]| |done|intros ? [= <-]; split_and!; [done..|by exists floor]|by destruct Hi].
    apply (sorted_snoc _ _ (issued_thru l)); [by destruct Hinv as (_ & _ & _ & ? & _)|done|by destruct Hi].
  - destruct (alloc_lease _ _ Hi El) as (floor & Hfl & (a & Hreg & Hc & Hal) & H1 & H2 & H3 & H4). pose proof (seq_range id) as Hq.
    split; cbn; [| |by destruct Hi].
    + exists a. split_and!; [done..|]. intros ? [= <-]. cbn. intros Hlt. apply (Hal l); [done|lia].
    + intros ? [= <-]. cbn. split_and!; [unfold in_u64 in *; lia|done|by apply (below_mono _ (issued_thru l)); [lia|]|].
      exists floor. split; [exact Hfl|lia].
  - destruct Hi as [Hd _ Hso]. split; cbn; [by eapply doc_inv_no_lease|done|done].
  - destruct Hi as [(a & Hreg & Hcv & _) _ Hso]. destruct (crash_good _ _ _ _ _ Hreg Hc) as [Hreg' Hin].
    split; cbn; [|done|done]. eexists. split; [exact Hreg'|]. split; [|done]. apply Forall_singleton.
    rewrite Forall_forall in Hcv. by apply Hcv.
Qed.

(** No directory and no active file. *)
Definition bare : Media :=
  {| segments_dir := None; pending_dir := None; shadow_dir := None; chimera_dir := None;
     seg_dir := None; actives := [] |}.
Definition alloc_start (f : Fs) : AllocState :=
  {| a_fs := f; a_lease := None; a_media := bare; a_foreign := false; a_minted := [] |}.

Lemma alloc_start_inv f : at_rest SEGMENT_SEQ_FILE f -> alloc_inv (alloc_start f).
Proof.
  intros Hr. split; cbn; [|done|constructor]. exists [document SEGMENT_SEQ_FILE false f].
  split; [by apply at_rest_inv|]. split; [apply Forall_singleton; by left|done].
Qed.
End Alloc.

(** ** What the scan of the media covers *)

Lemma bump_all_above parse names max n : bump_all parse max names = Ok n ->
  max <= n /\ forall name id, name ∈ names -> parse name = Id id -> segment_seq_from_id id <= n.
Proof.
  revert max. induction names as [|x names IH]; intros max; cbn [bump_all].
  { intros [= <-]. split; [lia|]. by intros ? ? ?%not_elem_of_nil. }
  destruct (bump max (parse x)) as [max'|] eqn:E; [|done]. intros [Hm Ha]%IH.
  assert (Hx : max <= max' /\ forall id, parse x = Id id -> segment_seq_from_id id <= max').
  { unfold bump in E. destruct (parse x) as [id| |]; try done; injection E as <-; (split; [lia|]); intros i; [|done].
    intros [= <-]. lia. }
  split; [lia|]. intros name id [-> |Hin]%elem_of_cons Hp; [|by apply (Ha name)].
  pose proof (proj2 Hx id Hp). lia.
Qed.
Lemma bump_actives_above {I : IntegrityPrims} store limits af files max n :
  bump_actives store limits af max files = Ok n ->
  max <= n /\ forall bs id, bs ∈ files -> active_segment_id_from_file store limits bs af = Some id ->
    segment_seq_from_id id <= n.
Proof.
  revert max. induction files as [|x files IH]; intros max; cbn [bump_actives].
  { intros [= <-]. split; [lia|]. by intros ? ? ?%not_elem_of_nil. }
  destruct (active_segment_id_from_file _ _ _ _) as [i|] eqn:E.
  - intros [Hm Ha]%IH. split; [lia|]. intros bs id [-> |Hin]%elem_of_cons Hp; [|by apply (Ha bs)].
    rewrite E in Hp. injection Hp as <-. lia.
  - destruct (0 <? length x)%nat; [done|]. intros [Hm Ha]%IH. split; [lia|].
    intros bs id [-> |Hin]%elem_of_cons Hp; [by rewrite E in Hp|by apply (Ha bs)].
Qed.

(** The ids the scan reads from the names and from the active files. *)
Definition media_id {I : IntegrityPrims} store limits af (media : Media) (id : list byte) : Prop :=
  (exists name, name ∈ list_residiuum_files (segments_dir media) ++ list_residiuum_files (pending_dir media)
     /\ segment_id_from_filename name = Id id)
  \/ (exists name, name ∈ default [] (shadow_dir media) /\ shadow_id name = Id id)
  \/ (exists name, name ∈ default [] (chimera_dir media) ++ default [] (seg_dir media) /\ sidecar_id name = Id id)
  \/ exists bs, bs ∈ actives media /\ active_segment_id_from_file store limits bs af = Some id.

Lemma scan_above {I : IntegrityPrims} store limits media af n id :
  scan_media_max_seq_with_policy store limits media af = Ok n -> media_id store limits af media id ->
  segment_seq_from_id id <= n.
Proof.
  unfold scan_media_max_seq_with_policy. intros H Hid.
  repeat match type of H with
  | match bump_all ?p ?m ?l with _ => _ end = _ =>
      let E := fresh "E" in destruct (bump_all p m l) eqn:E; [|discriminate H]; apply bump_all_above in E as [? ?]
  end.
  apply bump_actives_above in H as [? ?].
  destruct Hid as [(name & [Hn|Hn]%elem_of_app & Hp)|[(name & Hn & Hp)|[(name & [Hn|Hn]%elem_of_app & Hp)|(name & Hn & Hp)]]];
    match goal with Ha : forall _ _, _ ∈ ?l -> _ -> _, Hn : _ ∈ ?l |- _ => pose proof (Ha _ _ Hn Hp); lia end.
Qed.

(** ** The names that stand for a segment *)

Definition ascii (s : list byte) : Prop := Forall (fun c => b2z c <= 127) s.
Definition no_dot (s : list byte) : Prop := Forall (fun c => b2z c <> 46) s.

Lemma hex16_chars id : ascii (hex16 id) /\ no_dot (hex16 id).
Proof.
  unfold hex16, ascii, no_dot. induction id as [|b id [IH1 IH2]]; [by split; constructor|]. cbn [map concat].
  split; apply Forall_app; split; try done; by destruct b; repeat constructor.
Qed.

Lemma split_dot_none s : no_dot s -> split_dot s = None.
Proof.
  induction 1 as [|c s Hc Hs IH]; [done|]. cbn [split_dot]. rewrite IH. by rewrite (proj2 (Z.eqb_neq _ _)).
Qed.
Lemma split_dot_app a s : no_dot a ->
  split_dot (a ++ s) = match split_dot s with Some (x, y) => Some (a ++ x, y) | None => None end.
Proof.
  induction 1 as [|c a Hc Ha IH]; cbn [app split_dot]; [by destruct (split_dot s) as [[]|]|].
  rewrite IH. destruct (split_dot s) as [[]|]; [done|]. by rewrite (proj2 (Z.eqb_neq _ _)).
Qed.
Lemma split_dot_prefix s x y : split_dot s = Some (x, y) -> exists r, s = x ++ r.
Proof.
  revert x. induction s as [|c s IH]; intros x; cbn [split_dot]; [done|].
  destruct (split_dot s) as [[a b]|]; [|by case_match; [intros [= <- <-]; exists (c :: s)|]].
  intros [= <- <-]. destruct (IH a eq_refl) as [r ->]. by exists r.
Qed.

Lemma hex_stem id x : id_ok id -> exists y r, file_stem (hex16 id ++ x) = hex16 id ++ y /\ x = y ++ r.
Proof.
  intros Hid. unfold file_stem. rewrite split_dot_app by apply hex16_chars.
  destruct (split_dot x) as [[a b]|] eqn:E; [|by exists x, []; rewrite app_nil_r].
  apply split_dot_prefix in E as [r ->]. exists a, r. split; [|done].
  pose proof (length_hex16 id) as Hl. rewrite Hid in Hl. by destruct (hex16 id).
Qed.
Lemma sidecar_name id x : id_ok id -> ascii x -> sidecar_id (hex16 id ++ x) = Id id.
Proof.
  intros Hid Hx. unfold sidecar_id. destruct (hex_stem id x Hid) as (y & r & -> & ->).
  apply Forall_app in Hx as [Hy _]. destruct (hex16_chars id) as [Ha _].
  assert (Hs : ascii (hex16 id ++ y)) by by apply Forall_app. rewrite utf8_ascii by exact Hs. cbn [negb].
  assert (Hl : length (hex16 id) = 32%nat) by by rewrite length_hex16, Hid.
  rewrite (proj2 (Nat.leb_le _ _)) by (rewrite length_app; lia).
  rewrite ascii_boundary by (eapply Forall_impl; [exact Hs|]; cbn; lia).
  rewrite take_app_length' by done. by apply unhex_hex.
Qed.

Lemma residiuum_parts id : id_ok id ->
  file_stem (hex16 id ++ lit ".residiuum") = hex16 id
  /\ extension (hex16 id ++ lit ".residiuum") = Some (lit "residiuum").
Proof.
  intros Hid. unfold file_stem, extension. rewrite split_dot_app by apply hex16_chars.
  assert (E : split_dot (lit ".residiuum") = Some ([], lit "residiuum")) by reflexivity. rewrite E, app_nil_r.
  pose proof (length_hex16 id) as Hl. rewrite Hid in Hl. by destruct (hex16 id).
Qed.
Lemma segment_file id dir : id_ok id -> hex16 id ++ lit ".residiuum" ∈ default [] dir ->
  hex16 id ++ lit ".residiuum" ∈ list_residiuum_files dir
  /\ segment_id_from_filename (hex16 id ++ lit ".residiuum") = Id id.
Proof.
  intros Hid Hin. destruct (residiuum_parts id Hid) as [Hs He]. split.
  - destruct dir as [names|]; [|by apply not_elem_of_nil in Hin]. cbn [list_residiuum_files]. rewrite sort_by_perm.
    apply list_elem_of_In, filter_In. split; [by apply list_elem_of_In|]. by apply bool_decide_eq_true_2.
  - unfold segment_id_from_filename. rewrite Hs, utf8_ascii by apply hex16_chars. by apply unhex_hex.
Qed.

Lemma strip_suffix_app x s : strip_suffix s (x ++ s) = Some x.
Proof.
  unfold strip_suffix. rewrite length_app. rewrite (proj2 (Nat.leb_le _ _)) by lia.
  replace (length x + length s - length s)%nat with (length x) by lia.
  rewrite drop_app_length, take_app_length. unfold bytes_eqb. by rewrite bool_decide_eq_true_2.
Qed.
Lemma shadow_name id x : id_ok id -> x = lit ".rsh" \/ x = lit ".rsh.dual.tmp" -> shadow_id (hex16 id ++ x) = Id id.
Proof.
  intros Hid Hx. unfold shadow_id. destruct (hex16_chars id) as [Ha _].
  rewrite utf8_ascii by (apply Forall_app; split; [done|]; destruct Hx as [-> | ->]; repeat (constructor; [by vm_compute|]); constructor).
  destruct Hx as [-> | ->]; [|by rewrite strip_suffix_app, unhex_hex].
  destruct (strip_suffix (lit ".rsh.dual.tmp") _) as [y|] eqn:E; [exfalso|by rewrite strip_suffix_app; apply unhex_hex].
  unfold strip_suffix in E. rewrite length_app, length_hex16, Hid in E.
  change (length (lit ".rsh.dual.tmp")) with 13%nat in E. change (length (lit ".rsh")) with 4%nat in E. cbn in E.
  destruct (bytes_eqb _ _) eqn:Eb; [|done]. unfold bytes_eqb in Eb. apply bool_decide_eq_true in Eb.
  apply (f_equal last) in Eb. rewrite drop_app_le in Eb by (rewrite length_hex16, Hid; lia).
  by rewrite last_app in Eb.
Qed.

(** An active file that starts with the descriptor of a segment of the store. *)
Definition active_of {I : IntegrityPrims} (store : list byte) (limits : SafetyLimits) (id bs : list byte) : Prop :=
  exists d tail created l,
    bs = image d ++ tail /\ good_frame limits d /\ known_kind (fp_header d) = Some SegmentDescriptor
    /\ fp_body d = encode_descriptor_body {| Segment.store_id := store; Segment.segment_id := id |} created l
    /\ in_u64 created /\ wf_limits l.

Lemma active_found {I : IntegrityPrims} {L : IntegrityLaws I} store limits af id bs : id_ok store -> id_ok id ->
  active_of store limits id bs -> active_segment_id_from_file store limits bs af = Some id.
Proof.
  intros Hst Hid (d & tail & c & l & -> & Hg & Hk & Hb & Hc & Hl).
  destruct (image_length limits d Hg) as [Hn Hn']. unfold active_segment_id_from_file.
  destruct (image d ++ tail) as [|x0 xs] eqn:Ebs; [apply (f_equal length) in Ebs; rewrite length_app in Ebs; cbn in Ebs; lia|].
  rewrite <- Ebs. unfold scan_forward. cbn [regions]. set (n := length (image d ++ tail)).
  assert (Hln : (120 <= n)%nat) by (unfold n; rewrite length_app; lia).
  cbn [forward_loop]. rewrite (proj2 (Nat.leb_le _ _)) by (unfold FRAME_PREFIX_LEN; lia).
  pose proof (find_start_magic_clean limits [] d tail Hg) as Hm. cbn [app length] in Hm. rewrite Hm.
  rewrite Nat.ltb_irrefl. unfold try_candidate. rewrite drop_0, image_verifies by done.
  set (r0 := VerifiedFrame _ _).
  destruct (forward_loop_spec (image d ++ tail) limits n [r0] (0 + Z.to_nat (frame_size (fp_envelope d) (fp_body d))))
    as (rest & Hrest & _ & _).
  { by intros ? [= <-]. }
  { rewrite <- Hn, Nat2Z.id, length_app. lia. }
  { rewrite <- Hn, Nat2Z.id. fold n. lia. }
  cbn [app]. rewrite Hrest. unfold r0. cbn [app active_regions df_header df_body].
  rewrite bool_decide_eq_true_2 by done. rewrite Hb.
  rewrite (proj1 (descriptor_roundtrip _ c l (Build_wf_ids (Build_SegmentId store id) Hst Hid) Hl Hc)). cbn [Segment.store_id Segment.segment_id].
  unfold bytes_eqb. by rewrite bool_decide_eq_true_2.
Qed.

(** A segment has left a trace on the media: a sealed or pending file, a shadow,
    a sidecar, or an active file that starts with its descriptor. *)
Inductive on_media {I : IntegrityPrims} (store : list byte) (limits : SafetyLimits) (media : Media) (id : list byte) : Prop :=
| on_sealed : hex16 id ++ lit ".residiuum" ∈ default [] (segments_dir media) -> on_media store limits media id
| on_pending : hex16 id ++ lit ".residiuum" ∈ default [] (pending_dir media) -> on_media store limits media id
| on_shadow x : x = lit ".rsh" \/ x = lit ".rsh.dual.tmp" ->
    hex16 id ++ x ∈ default [] (shadow_dir media) -> on_media store limits media id
| on_sidecar x : ascii x -> hex16 id ++ x ∈ default [] (chimera_dir media) ++ default [] (seg_dir media) ->
    on_media store limits media id
| on_active bs : active_of store limits id bs -> bs ∈ actives media -> on_media store limits media id.

Lemma on_media_found {I : IntegrityPrims} {L : IntegrityLaws I} store limits af media id : id_ok store -> id_ok id ->
  on_media store limits media id -> media_id store limits af media id.
Proof.
  intros Hst Hid [Hin|Hin|x Hx Hin|x Hx Hin|bs Ha Hin].
  - left. eexists. rewrite elem_of_app. destruct (segment_file id _ Hid Hin). eauto.
  - left. eexists. rewrite elem_of_app. destruct (segment_file id _ Hid Hin). eauto.
  - right; left. eexists. split; [exact Hin|]. by apply shadow_name.
  - right; right; left. eexists. split; [exact Hin|]. by apply sidecar_name.
  - right; right; right. exists bs. split; [done|]. by apply active_found.
Qed.

(** C24. A segment id is never issued twice.  A store may be opened over any media,
    issue ids, observe others, fail at any system call, be stopped, reopened, or
    lose power with its unsynced state: the ids issued so far have strictly
    increasing sequence numbers, and the next one is above all of them and above
    the id of every segment that had left a trace when the store was opened: a
    file of its name among the sealed or the pending ones, a shadow or the
    temporary file of one, a sidecar of either index, or an active file that
    starts with the descriptor of a segment of this store. *)
Theorem segment_ids_unique {I : IntegrityPrims} {L : IntegrityLaws I} store limits f s :
  id_ok store -> at_rest SEGMENT_SEQ_FILE f ->
  rtc (alloc_step store limits) (alloc_start f) s ->
  StronglySorted (fun a b => segment_seq_from_id a < segment_seq_from_id b) (a_minted s)
  /\ NoDup (a_minted s)
  /\ forall l pid nanos m id l' m', a_lease s = Some l -> fs m = a_fs s ->
     next_segment_id_from_lease store pid nanos l m = (Ok id, l', m') ->
     (forall old, id_ok old -> on_media store limits (a_media s) old ->
        segment_seq_from_id old < segment_seq_from_id id)
     /\ Forall (fun old => segment_seq_from_id old < segment_seq_from_id id) (a_minted s).
Proof.
  intros Hst Hr Hs.
  assert (Hi : alloc_inv store limits s).
  { revert s Hs. apply (rtc_ind_r _ (alloc_start f)); [by apply alloc_start_inv|].
    intros s s' _ Hstep Hi. by eapply alloc_step_inv. }
  split; [by destruct Hi|]. split.
  - destruct Hi as [_ _ Hso]. induction Hso as [|x l Hl IH Hx]; constructor; [|done].
    intros Hin. eapply Forall_forall in Hx; [|exact Hin]. lia.
  - intros l pid nanos m id l' m' El Hm E. destruct (alloc_lease _ _ _ _ Hi El) as (floor & Hfl & Hinv).
    rewrite <- Hm in Hinv.
    pose proof (mint_spec store Hst pid nanos _ floor l m Hinv) as H. rewrite E in H.
    destruct H as [-> _], Hinv as (_ & _ & _ & H3 & H4). split.
    + intros old Ho Hon. pose proof (scan_above _ _ _ _ _ old Hfl ltac:(by apply on_media_found)). lia.
    + eapply Forall_impl; [exact H3|]. cbn. lia.
Qed.

(** ** Witness and examples *)

Definition sample_store : list byte := map z2b (seqZ 1 16).
Definition numbered (seq : Z) : list byte := mint_sortable_segment_id seq sample_store.
(** A sealed segment, the temporary file of a shadow, and a sidecar. *)
Definition some_media : Media :=
  {| segments_dir := Some [hex16 (numbered 5) ++ lit ".residiuum"]; pending_dir := None;
     shadow_dir := Some [hex16 (numbered 9) ++ lit ".rsh.dual.tmp"]; chimera_dir := None;
     seg_dir := Some [hex16 (numbered 7) ++ lit ".hydra"]; actives := [] |}.
Definition blank_fs : Fs := {| inodes := []; durable := ∅; pending := [] |}.
Definition opened : AllocState :=
  let r := reconstruct_reserved_thru_with_policy sample_store draft_defaults 7 1 some_media false
             {| fs := blank_fs; faults := [] |} in
  {| a_fs := fs (snd r); a_lease := Some (open_lease 9); a_media := some_media; a_foreign := false; a_minted := [] |}.

Lemma segment_ids_unique_witness : exists id l' m',
  next_segment_id_from_lease sample_store 7 2 (open_lease 9) {| fs := a_fs opened; faults := [] |} = (Ok id, l', m')
  /\ segment_seq_from_id (numbered 9) < segment_seq_from_id id.
Proof.
  eexists _, _, _. split; [vm_compute; reflexivity|].
  eapply (segment_ids_unique sample_store draft_defaults blank_fs opened) with
    (pid := 7) (nanos := 2) (m := {| fs := a_fs opened; faults := [] |}).
  - reflexivity.
  - split; [reflexivity|]. intros n i _ Hi. vm_compute in Hi. discriminate.
  - apply rtc_once.
    pose proof (alloc_open sample_store draft_defaults (alloc_start blank_fs) 7 1 some_media false [] _ _ (surjective_pairing _)) as H.
    match type of H with alloc_step _ _ _ ?s => assert (E : s = opened) by (vm_compute; reflexivity) end.
    rewrite E in H. exact H.
  - reflexivity.
  - reflexivity.
  - vm_compute. reflexivity.
  - reflexivity.
  - apply (on_shadow _ _ _ _ (lit ".rsh.dual.tmp")); [by right|]. cbn. apply list_elem_of_singleton. reflexivity.
Defined.

(** A mark of another store, or an unreadable one, is dropped as soon as one id
    is visible on the media: the store restarts from the media. *)
Definition fs_with_mark (bs : list byte) : Fs :=
  {| inodes := [{| data := bs; synced := true |}]; durable := {[SEGMENT_SEQ_FILE := 0%nat]}; pending := [] |}.
Definition media_with (name : list byte) : Media :=
  {| segments_dir := Some [name]; pending_dir := None; shadow_dir := None; chimera_dir := None;
     seg_dir := None; actives := [] |}.
Definition segment_name (seq : Z) : list byte := hex16 (numbered seq) ++ lit ".residiuum".

Example foreign_mark_dropped :
  let f := fs_with_mark (encode_segment_seq_file (repeat (z2b 9) 16) 100) in
  load_reserved_thru f sample_store = Err StoreMismatch
  /\ fst (reconstruct_reserved_thru sample_store draft_defaults 7 1 (media_with (segment_name 5))
            {| fs := f; faults := [] |}) = Some (Ok 5).
Proof. vm_compute. split; reflexivity. Qed.

Example corrupt_mark_dropped :
  let f := fs_with_mark (take 31 (encode_segment_seq_file sample_store 100)) in
  fst (reconstruct_reserved_thru sample_store draft_defaults 7 1 (media_with (segment_name 5))
         {| fs := f; faults := [] |}) = Some (Ok 5).
Proof. vm_compute. reflexivity. Qed.

(** A stray file whose stem has 32 bytes with a character across an even offset
    makes the scan panic; a sign is taken as a digit. *)
Example stray_name_panics :
  scan_media_max_seq sample_store draft_defaults
    (media_with (lit "0" ++ map z2b [195; 169] ++ repeat (z2b 48) 29 ++ lit ".residiuum")) = Err Panicked.
Proof. vm_compute. reflexivity. Qed.
Example sign_is_digit :
  unhex16 (lit "+f" ++ repeat (z2b 48) 30) = unhex16 (lit "0f" ++ repeat (z2b 48) 30).
Proof. vm_compute. reflexivity. Qed.
