(* ===== verification/WriteDedup.v ===== *)
(** * Idempotent operations

    Model of [crates/residiuum-store/src/write_dedup.rs], the ledger of accepted
    client operations, and of its use in [store.rs]: resolution of a retry,
    recording, and reconciliation with the media after an unclean session.
    The table is a finite map; files are their bytes. *)
From S2P Require Import Prelude Cbor Frame Scan AtomicFile ItemEnvelope SegmentIds.
Open Scope list_scope.
Open Scope Z_scope.

Inductive DurabilityMode : Type := Memory | Buffered | Durable.
#[global] Instance DurabilityMode_eq_dec : EqDecision DurabilityMode.
Proof. solve_decision. Defined.

(** ** Records *)

Record DedupRecord := {
  dr_content_hash : list byte; dr_store_id : list byte; dr_segment_id : list byte;
  dr_item_id : list byte; dr_event_id : list byte; dr_event_kind : EventKind;
  dr_durability : DurabilityMode; dr_offset : Z }.
Abbreviation WriteDedupTable := (gmap (list byte) DedupRecord).

Definition DEDUP_MAGIC : list byte := lit "RDED0001".
Definition DEDUP_VERSION : Z := 1.
Definition JOURNAL_MAGIC : list byte := lit "RDEJ0001".
Definition JOURNAL_VERSION : Z := 1.
Definition JOURNAL_HEADER_LEN : nat := 12.
Definition JOURNAL_PAYLOAD_LEN : nat := 106.
Definition JOURNAL_RECORD_LEN : nat := 16 + JOURNAL_PAYLOAD_LEN + 32.

Definition event_kind_byte (k : EventKind) : byte := z2b match k with Put => 1 | Delete => 2 end.
Definition event_kind_from_byte (b : byte) : option EventKind :=
  if b2z b =? 1 then Some Put else if b2z b =? 2 then Some Delete else None.
Definition durability_byte (d : DurabilityMode) : byte :=
  z2b match d with Memory => 1 | Buffered => 2 | Durable => 3 end.
Definition durability_from_byte (b : byte) : option DurabilityMode :=
  if b2z b =? 1 then Some Memory else if b2z b =? 2 then Some Buffered
  else if b2z b =? 3 then Some Durable else None.

Definition encode_record_payload (r : DedupRecord) : list byte :=
  dr_content_hash r ++ dr_store_id r ++ dr_segment_id r ++ dr_item_id r ++ dr_event_id r
  ++ [event_kind_byte (dr_event_kind r); durability_byte (dr_durability r)] ++ le_bytes 8 (dr_offset r).

Definition decode_record_payload (bytes : list byte) : option DedupRecord :=
  if negb (length bytes =? JOURNAL_PAYLOAD_LEN)%nat then None
  else
    k ← bytes !! 96%nat; kind ← event_kind_from_byte k;
    d ← bytes !! 97%nat; durability ← durability_from_byte d;
    Some {| dr_content_hash := slice 0 32 bytes; dr_store_id := slice 32 48 bytes;
            dr_segment_id := slice 48 64 bytes; dr_item_id := slice 64 80 bytes;
            dr_event_id := slice 80 96 bytes; dr_event_kind := kind; dr_durability := durability;
            dr_offset := le_val (slice 98 106 bytes) |}.

Section Codec.
Context {I : IntegrityPrims}.

(** The identity of a mutation's content: the fields separated by zero bytes. *)
Definition content_identity (op collection key payload : list byte) : list byte :=
  hasher_finalize (fold_left hasher_update
    [op; [z2b 0]; collection; [z2b 0]; key; [z2b 0]; payload] hasher_new).

Definition encode_journal_record (operation_id : list byte) (r : DedupRecord) : list byte :=
  let out := operation_id ++ encode_record_payload r in out ++ blake3_hash out.

(** The loop of the replay: the table and the bytes it stopped at. *)
Fixpoint replay_records (fuel : nat) (rest : list byte) (t : WriteDedupTable)
  : WriteDedupTable * list byte :=
  match fuel with
  | O => (t, rest)
  | S fuel' =>
      if (length rest <? JOURNAL_RECORD_LEN)%nat then (t, rest)
      else
        let payload_end := (16 + JOURNAL_PAYLOAD_LEN)%nat in
        let record := take JOURNAL_RECORD_LEN rest in
        if negb (bytes_eqb (blake3_hash (take payload_end record)) (drop payload_end record)) then (t, rest)
        else match decode_record_payload (slice 16 payload_end record) with
        | None => (t, rest)
        | Some d => replay_records fuel' (drop JOURNAL_RECORD_LEN rest) (<[take 16 record := d]> t)
        end
  end.
Definition replay_journal (bytes : list byte) (t : WriteDedupTable) : WriteDedupTable * bool :=
  if (length bytes <? JOURNAL_HEADER_LEN)%nat || negb (bytes_eqb (take 8 bytes) JOURNAL_MAGIC)
     || negb (le_val (slice 8 12 bytes) =? JOURNAL_VERSION)
  then (t, false)
  else
    let '(t', rest) := replay_records (length bytes) (drop JOURNAL_HEADER_LEN bytes) t in
    (t', (length rest =? 0)%nat).

Definition journal_header : list byte := JOURNAL_MAGIC ++ le_bytes 4 JOURNAL_VERSION.
Definition encode_records (rs : list (list byte * DedupRecord)) : list byte :=
  concat (map (fun e => encode_journal_record (fst e) (snd e)) rs).

(** ** The checkpoint *)

Definition sorted_entries (t : WriteDedupTable) : list (list byte * DedupRecord) :=
  sort_by (fun a b => bytes_cmp (fst a) (fst b)) (map_to_list t).
Definition encode_table (t : WriteDedupTable) : list byte :=
  let out := DEDUP_MAGIC ++ le_bytes 4 DEDUP_VERSION ++ le_bytes 4 (Z.of_nat (size t))
    ++ concat (map (fun e => fst e ++ encode_record_payload (snd e)) (sorted_entries t)) in
  out ++ blake3_hash out.

(** [n] entries from the bytes at the cursor; the last 32 bytes are the digest. *)
Fixpoint decode_entries (n : nat) (bytes : list byte) (cursor : nat) (m : WriteDedupTable)
  : option (WriteDedupTable * nat) :=
  match n with
  | O => Some (m, cursor)
  | S n' =>
      if (length bytes - 32 <? cursor + 122)%nat then None
      else
        r ← decode_record_payload (slice (cursor + 16) (cursor + 122) bytes);
        decode_entries n' bytes (cursor + 122) (<[slice cursor (cursor + 16) bytes := r]> m)
  end.
Definition decode_table (bytes : list byte) : option WriteDedupTable :=
  if (length bytes <? 8 + 4 + 4 + 32)%nat then None
  else if negb (bytes_eqb (take 8 bytes) DEDUP_MAGIC) then None
  else if negb (le_val (slice 8 12 bytes) =? DEDUP_VERSION) then None
  else
    e ← decode_entries (Z.to_nat (le_val (slice 12 16 bytes))) bytes 16 ∅;
    let '(m, cursor) := e in
    if negb (cursor + 32 =? length bytes)%nat then None
    else if negb (bytes_eqb (hasher_finalize (hasher_update hasher_new (take cursor bytes)))
                   (slice cursor (cursor + 32) bytes)) then None
    else Some m.
End Codec.

(** ** The session marker *)

Inductive WriteDedupSession : Type := Clean | DirtyLegacy | DirtySince (floor : Z).

(** [str::lines]. *)
Fixpoint lines_from (line : list byte) (s : list byte) : list (list byte) :=
  match s with
  | [] => match line with [] => [] | _ => [reverse line] end
  | c :: r =>
      if b2z c =? 10 then
        reverse (match line with x :: l => if b2z x =? 13 then l else line | [] => [] end) :: lines_from [] r
      else lines_from (c :: line) r
  end.
Definition lines (s : list byte) : list (list byte) := lines_from [] s.

(** [str::parse::<u64>]. *)
Fixpoint parse_digits (acc : Z) (s : list byte) : option Z :=
  match s with
  | [] => Some acc
  | c :: r =>
      if (48 <=? b2z c) && (b2z c <=? 57) then
        let n := 10 * acc + (b2z c - 48) in if U64_MAX <? n then None else parse_digits n r
      else None
  end.
Definition parse_u64 (s : list byte) : option Z :=
  let s := match s with c :: ((_ :: _) as r) => if b2z c =? 43 then r else s | _ => s end in
  match s with [] => None | _ => parse_digits 0 s end.

Definition load_write_dedup_session (marker : option (list byte)) (journal_len : Z) : WriteDedupSession :=
  match marker with
  | None => DirtyLegacy
  | Some text =>
      if negb (utf8_valid text) then DirtyLegacy
      else match lines text with
      | first :: rest =>
          if bytes_eqb first (lit "dirty_since") then
            match rest with
            | v :: rest' =>
                match parse_u64 v with
                | Some floor => match rest' with [] => DirtySince floor | _ => DirtyLegacy end
                | None => DirtyLegacy
                end
            | [] => DirtyLegacy
            end
          else if bytes_eqb first (lit "dirty") then DirtyLegacy
          else if bytes_eqb first (lit "clean") then
            match rest with
            | v :: rest' =>
                match parse_u64 v with
                | Some expected =>
                    match rest' with
                    | [] => if journal_len =? expected then Clean else DirtyLegacy
                    | _ => DirtyLegacy
                    end
                | None => DirtyLegacy
                end
            | [] => DirtyLegacy
            end
          else DirtyLegacy
      | [] => DirtyLegacy
      end
  end.
Definition dirty_since_marker (floor : Z) : list byte :=
  lit "dirty_since" ++ [z2b 10] ++ decimal floor ++ [z2b 10].
Definition clean_marker (journal_len : Z) : list byte :=
  lit "clean" ++ [z2b 10] ++ decimal journal_len ++ [z2b 10].

(** ** The files of the ledger *)

(** The bytes of each file as a reopening reads them; of the journal the first
    [lf_synced] bytes are stable. *)
Record LedgerFiles := {
  lf_checkpoint : option (list byte); lf_previous : option (list byte);
  lf_journal : option (list byte); lf_synced : nat; lf_session : option (list byte) }.

(** What an atomic replacement that fails leaves ([AtomicFile]). *)
Inductive Replace : Type := Replaced | FailedOld | FailedNew.
Definition replaced_ok (r : Replace) : bool := match r with Replaced => true | _ => false end.
Definition replaced_new (r : Replace) : bool := match r with FailedOld => false | _ => true end.

Definition with_journal (f : LedgerFiles) (j : option (list byte)) (n : nat) : LedgerFiles :=
  {| lf_checkpoint := lf_checkpoint f; lf_previous := lf_previous f; lf_journal := j; lf_synced := n;
     lf_session := lf_session f |}.
Definition with_session (f : LedgerFiles) (s : list byte) : LedgerFiles :=
  {| lf_checkpoint := lf_checkpoint f; lf_previous := lf_previous f; lf_journal := lf_journal f;
     lf_synced := lf_synced f; lf_session := Some s |}.
Definition with_checkpoint (f : LedgerFiles) (c : list byte) : LedgerFiles :=
  {| lf_checkpoint := Some c;
     lf_previous := match lf_checkpoint f with Some old => Some old | None => lf_previous f end;
     lf_journal := lf_journal f; lf_synced := lf_synced f; lf_session := lf_session f |}.

Definition journal_bytes (f : LedgerFiles) : list byte := default [] (lf_journal f).
Definition journal_len (f : LedgerFiles) : Z := Z.of_nat (length (journal_bytes f)).

Section Files.
Context {I : IntegrityPrims}.
(** The order in which a [HashMap] is iterated. *)
Variable iteration : WriteDedupTable -> list (list byte * DedupRecord).

Definition load_write_dedup_checkpoint (f : LedgerFiles) : WriteDedupTable :=
  match lf_checkpoint f ≫= decode_table with
  | Some t => t
  | None => default ∅ (lf_previous f ≫= decode_table)
  end.
Definition load_write_dedup_checked (f : LedgerFiles) : WriteDedupTable * bool :=
  let t := load_write_dedup_checkpoint f in
  match lf_journal f with
  | Some bytes => replay_journal bytes t
  | None => (t, true)
  end.

Definition append_write_dedup_batch_inner (f : LedgerFiles) (records : list (list byte * DedupRecord))
    (sync : bool) (fault : IoFault) : bool * LedgerFiles :=
  match records with
  | [] => (true, f)
  | _ =>
      let cohort := (if (length (journal_bytes f) =? 0)%nat then journal_header else [])
                    ++ encode_records records in
      match fault with
      | Fails n => (false, with_journal f (Some (journal_bytes f ++ take n cohort)) (lf_synced f))
      | Works =>
          let j := journal_bytes f ++ cohort in
          (true, with_journal f (Some j) (if sync then length j else lf_synced f))
      end
  end.
Definition append_write_dedup_batch (f : LedgerFiles) (records : list (list byte * DedupRecord)) :=
  append_write_dedup_batch_inner f records true.
Definition append_write_dedup (f : LedgerFiles) (operation_id : list byte) (r : DedupRecord) :=
  append_write_dedup_batch f [(operation_id, r)].

Definition sync_write_dedup_journal (f : LedgerFiles) (ok : bool) : bool * LedgerFiles :=
  if ok then (true, with_journal f (lf_journal f) (length (journal_bytes f))) else (false, f).
Definition save_write_dedup (f : LedgerFiles) (t : WriteDedupTable) (r : Replace) : bool * LedgerFiles :=
  (replaced_ok r, if replaced_new r then with_checkpoint f (encode_table t) else f).
Definition rewrite_write_dedup_journal (f : LedgerFiles) (t : WriteDedupTable) (r : Replace)
  : bool * LedgerFiles :=
  let bytes := journal_header ++ encode_records (iteration t) in
  (replaced_ok r, if replaced_new r then with_journal f (Some bytes) (length bytes) else f).
Definition mark_write_dedup_session_dirty_since (f : LedgerFiles) (floor : Z) (r : Replace)
  : bool * LedgerFiles :=
  (replaced_ok r, if replaced_new r then with_session f (dirty_since_marker floor) else f).
Definition mark_write_dedup_session_clean (f : LedgerFiles) (r : Replace) : bool * LedgerFiles :=
  (replaced_ok r, if replaced_new r then with_session f (clean_marker (journal_len f)) else f).
End Files.

(** ** The ledger in the store ([store.rs]) *)

Record WriteReceipt := {
  wr_store_id : list byte; wr_segment_id : list byte; wr_item_id : list byte;
  wr_event_id : list byte; wr_event_kind : EventKind; wr_durability : DurabilityMode; wr_offset : Z }.

Inductive DedupError : Type :=
| OperationIdentityConflict | LedgerIo | PutRefused | AdaptiveWriterPoisoned.

(** The segments, with the sequence number their name shows, the active
    writers and the allocator's counter. *)
Record MediaView := {
  mv_segments : list (option Z * list byte); mv_active_seqs : list Z; mv_segment_seq : Z }.

Record Ledger := {
  lg_table : WriteDedupTable; lg_recovery_required : bool; lg_floor : Z; lg_complete : bool;
  lg_files : LedgerFiles }.
Definition set_files (l : Ledger) (f : LedgerFiles) : Ledger :=
  {| lg_table := lg_table l; lg_recovery_required := lg_recovery_required l; lg_floor := lg_floor l;
     lg_complete := lg_complete l; lg_files := f |}.

Definition receipt_of (r : DedupRecord) : WriteReceipt :=
  {| wr_store_id := dr_store_id r; wr_segment_id := dr_segment_id r; wr_item_id := dr_item_id r;
     wr_event_id := dr_event_id r; wr_event_kind := dr_event_kind r; wr_durability := dr_durability r;
     wr_offset := dr_offset r |}.
Definition resolve_write_dedup (t : WriteDedupTable) (operation_id content_hash : list byte)
  : result DedupError (option WriteReceipt) :=
  match t !! operation_id with
  | None => Ok None
  | Some rec =>
      if bytes_eqb (dr_content_hash rec) content_hash then Ok (Some (receipt_of rec))
      else Err OperationIdentityConflict
  end.

Definition current_active_floor_seq (mv : MediaView) : Z :=
  match mv_active_seqs mv with
  | [] => sat_add (mv_segment_seq mv) 1
  | s :: l => fold_left Z.min l s
  end.

Section Ledger.
Context {I : IntegrityPrims}.
Variables (iteration : WriteDedupTable -> list (list byte * DedupRecord)).
Variables (store_id : list byte) (limits : SafetyLimits).

(** The decision that a frame carries. *)
Definition frame_operation (x : nat * DecodedFrame) : option (list byte * DedupRecord) :=
  let '(offset, frame) := x in
  if negb (bool_decide (known_kind (df_header frame) = Some ItemEvent)) then None
  else
    env ← decode_item_envelope (df_envelope frame);
    if negb (bytes_eqb (ie_store_id env) store_id) then None
    else
      operation_id ← ie_operation_id env; content_hash ← ie_operation_content_hash env;
      Some (operation_id,
        {| dr_content_hash := content_hash; dr_store_id := store_id; dr_segment_id := ie_segment_id env;
           dr_item_id := ie_item_id env; dr_event_id := event_id (df_header frame);
           dr_event_kind := ie_event_kind env; dr_durability := Durable; dr_offset := Z.of_nat offset |}).
Definition segment_operations (bytes : list byte) : list (list byte * DedupRecord) :=
  omap frame_operation (verified_frames (scan_forward bytes limits)).

(** The loop over the decisions of a segment; what it has collected stays also
    when it stops at a conflict. *)
Fixpoint reconcile_operations (ops : list (list byte * DedupRecord)) (t : WriteDedupTable)
    (recovered : list (list byte * DedupRecord))
  : bool * WriteDedupTable * list (list byte * DedupRecord) :=
  match ops with
  | [] => (true, t, recovered)
  | (op, rec) :: rest =>
      match t !! op with
      | Some old =>
          if bytes_eqb (dr_content_hash old) (dr_content_hash rec)
          then reconcile_operations rest t recovered else (false, t, recovered)
      | None => reconcile_operations rest (<[op := rec]> t) (recovered ++ [(op, rec)])
      end
  end.

(** A segment whose name shows a number below the floor is skipped. *)
Definition below_floor (floor : Z) (name : option Z) : bool :=
  match name with Some s => (0 <? floor) && (s <? floor) | None => false end.

(** The loop over the segments; [reads] tells which reads succeed. *)
Fixpoint reconcile_segments (floor : Z) (segments : list (option Z * list byte)) (reads : list bool)
    (t : WriteDedupTable) (recovered : list (list byte * DedupRecord))
  : option DedupError * WriteDedupTable * list (list byte * DedupRecord) :=
  match segments with
  | [] => (None, t, recovered)
  | (name, bytes) :: rest =>
      if below_floor floor name then reconcile_segments floor rest reads t recovered
      else match reads with
      | false :: _ => (Some LedgerIo, t, recovered)
      | _ =>
          match reconcile_operations (segment_operations bytes) t recovered with
          | (true, t', recovered') => reconcile_segments floor rest (tail reads) t' recovered'
          | (false, t', recovered') => (Some OperationIdentityConflict, t', recovered')
          end
      end
  end.

(** The faults of one reconciliation. *)
Record Faults := {
  f_reads : list bool; f_append : IoFault; f_save : Replace; f_rewrite : Replace;
  f_sync : bool; f_mark : Replace }.
Definition no_faults : Faults :=
  {| f_reads := []; f_append := Works; f_save := Replaced; f_rewrite := Replaced; f_sync := true;
     f_mark := Replaced |}.

Definition reconcile_write_dedup_from_media (mv : MediaView) (x : Faults) (l : Ledger)
  : option DedupError * Ledger :=
  match reconcile_segments (lg_floor l) (mv_segments mv) (f_reads x) (lg_table l) [] with
  | (Some e, t, _) =>
      (Some e, {| lg_table := t; lg_recovery_required := lg_recovery_required l; lg_floor := lg_floor l;
                  lg_complete := lg_complete l; lg_files := lg_files l |})
  | (None, t, recovered) =>
      let '(ok, files) :=
        if lg_complete l then append_write_dedup_batch (lg_files l) recovered (f_append x)
        else
          let '(ok1, f1) := save_write_dedup (lg_files l) t (f_save x) in
          if ok1 then rewrite_write_dedup_journal iteration f1 t (f_rewrite x) else (false, f1) in
      (if ok then None else Some LedgerIo,
       {| lg_table := t; lg_recovery_required := lg_recovery_required l; lg_floor := lg_floor l;
          lg_complete := if ok then true else lg_complete l; lg_files := files |})
  end.

Definition checkpoint_write_dedup_recovery_floor (mv : MediaView) (x : Faults) (l : Ledger)
  : option DedupError * Ledger :=
  let '(ok1, f1) := sync_write_dedup_journal (lg_files l) (f_sync x) in
  if negb ok1 then (Some LedgerIo, set_files l f1)
  else
    let floor := current_active_floor_seq mv in
    let '(ok2, f2) := mark_write_dedup_session_dirty_since f1 floor (f_mark x) in
    if negb ok2 then (Some LedgerIo, set_files l f2)
    else (None, {| lg_table := lg_table l; lg_recovery_required := lg_recovery_required l;
                   lg_floor := floor; lg_complete := lg_complete l; lg_files := f2 |}).

Definition ensure_write_dedup_reconciled (mv : MediaView) (x : Faults) (l : Ledger)
  : option DedupError * Ledger :=
  if lg_recovery_required l then
    match reconcile_write_dedup_from_media mv x l with
    | (Some e, l') => (Some e, l')
    | (None, l') =>
        checkpoint_write_dedup_recovery_floor mv x
          {| lg_table := lg_table l'; lg_recovery_required := false; lg_floor := lg_floor l';
             lg_complete := lg_complete l'; lg_files := lg_files l' |}
    end
  else (None, l).

Definition record_of (content_hash : list byte) (r : WriteReceipt) : DedupRecord :=
  {| dr_content_hash := content_hash; dr_store_id := wr_store_id r; dr_segment_id := wr_segment_id r;
     dr_item_id := wr_item_id r; dr_event_id := wr_event_id r; dr_event_kind := wr_event_kind r;
     dr_durability := wr_durability r; dr_offset := wr_offset r |}.
Definition record_write_dedup (mv : MediaView) (x : Faults) (operation_id content_hash : list byte)
    (receipt : WriteReceipt) (l : Ledger) : option DedupError * Ledger :=
  let record := record_of content_hash receipt in
  match append_write_dedup (lg_files l) operation_id record (f_append x) with
  | (false, f1) =>
      (Some LedgerIo, {| lg_table := lg_table l; lg_recovery_required := true; lg_floor := lg_floor l;
                         lg_complete := false; lg_files := f1 |})
  | (true, f1) =>
      let l1 := {| lg_table := <[operation_id := record]> (lg_table l);
                   lg_recovery_required := lg_recovery_required l; lg_floor := lg_floor l;
                   lg_complete := lg_complete l; lg_files := f1 |} in
      if lg_floor l1 <? current_active_floor_seq mv
      then checkpoint_write_dedup_recovery_floor mv x l1 else (None, l1)
  end.

(** Opening: the ledger as loaded, and the marker of a live writer; [false] when
    the marker could not be written and the store does not open. *)
Definition open_ledger (mv : MediaView) (mark : Replace) (f : LedgerFiles) : bool * Ledger :=
  let session := load_write_dedup_session (lf_session f) (journal_len f) in
  let '(t, complete) := load_write_dedup_checked f in
  let required := match session with Clean => negb complete | _ => true end in
  let floor := match session with
               | DirtySince s => if complete then s else 0
               | Clean => if complete then current_active_floor_seq mv else 0
               | DirtyLegacy => 0
               end in
  let '(ok, f') := mark_write_dedup_session_dirty_since f floor mark in
  (ok, {| lg_table := t; lg_recovery_required := required; lg_floor := floor;
          lg_complete := complete; lg_files := f' |}).

(** An open store: its ledger, and whether a write of it had an uncertain end. *)
Record Process := { p_ledger : Ledger; awo_writer_poisoned : bool }.

(** The part of an orderly close that concerns the ledger: what refuses it, and
    its end.  The sealing of the written segments in between changes the media
    without adding operations and is not part of this function. *)
Definition close_ledger (x : Faults) (p : Process) : bool * Ledger :=
  let l := p_ledger p in
  if awo_writer_poisoned p then (false, l)
  else if lg_recovery_required l then (false, l)
  else match sync_write_dedup_journal (lg_files l) (f_sync x) with
  | (false, f1) => (false, set_files l f1)
  | (true, f1) =>
      let '(ok, f2) := mark_write_dedup_session_clean f1 (f_mark x) in (ok, set_files l f2)
  end.

(** What the append of an event does: it succeeds, is refused before a frame is
    built, or fails after that, when the event may be on the media or not. *)
Inductive PutOutcome : Type :=
| PutDone (receipt : WriteReceipt) (media : MediaView)
| PutRefusal (e : DedupError)
| PutFailed (e : DedupError) (media : MediaView).

(** The append is a parameter; an uncertain end poisons the writer. *)
Definition put_with_identity (put : MediaView -> PutOutcome) (mv : MediaView) (poisoned : bool)
  : result DedupError WriteReceipt * MediaView * bool :=
  if poisoned then (Err AdaptiveWriterPoisoned, mv, true)
  else match put mv with
  | PutDone receipt mv' => (Ok receipt, mv', false)
  | PutRefusal e => (Err e, mv, false)
  | PutFailed e mv' => (Err e, mv', true)
  end.

(** An idempotent put. *)
Definition put_subject_bytes_with_operation (put : MediaView -> PutOutcome)
    (operation_id content_hash : list byte) (x : Faults) (mv : MediaView) (p : Process)
  : result DedupError (WriteReceipt * bool) * MediaView * Process :=
  let process l := {| p_ledger := l; awo_writer_poisoned := awo_writer_poisoned p |} in
  match ensure_write_dedup_reconciled mv x (p_ledger p) with
  | (Some e, l1) => (Err e, mv, process l1)
  | (None, l1) =>
      match resolve_write_dedup (lg_table l1) operation_id content_hash with
      | Err e => (Err e, mv, process l1)
      | Ok (Some receipt) => (Ok (receipt, true), mv, process l1)
      | Ok None =>
          match put_with_identity put mv (awo_writer_poisoned p) with
          | (Err e, mv', poisoned) => (Err e, mv', {| p_ledger := l1; awo_writer_poisoned := poisoned |})
          | (Ok receipt, mv', poisoned) =>
              let '(e, l2) := record_write_dedup mv' x operation_id content_hash receipt l1 in
              (match e with Some e => Err e | None => Ok (receipt, false) end, mv',
               {| p_ledger := l2; awo_writer_poisoned := poisoned |})
          end
      end
  end.
End Ledger.
