(* ===== verification/WriteDedupFacts.v ===== *)
(** * Facts about the ledger of operations

    Records, the journal, the checkpoint and the session marker round-trip; a
    journal cut off anywhere yields exactly its whole records; and a client
    operation is executed at most once, through failures, crashes and
    reopenings. *)
From S2P Require Import Prelude Cbor CborFacts Frame FrameFacts Scan ScanFacts AtomicFile ItemEnvelope HeapFramesFacts SegmentIds WriteDedup.
Open Scope list_scope.
Open Scope Z_scope.

(** ** Records *)

Record record_typed (r : DedupRecord) : Prop := {
  rt_hash : length (dr_content_hash r) = 32%nat; rt_store : length (dr_store_id r) = 16%nat;
  rt_segment : length (dr_segment_id r) = 16%nat; rt_item : length (dr_item_id r) = 16%nat;
  rt_event : length (dr_event_id r) = 16%nat; rt_offset : in_u64 (dr_offset r) }.

Lemma event_kind_byte_roundtrip k : event_kind_from_byte (event_kind_byte k) = Some k.
Proof. by destruct k. Qed.
Lemma durability_byte_roundtrip d : durability_from_byte (durability_byte d) = Some d.
Proof. by destruct d. Qed.

Lemma payload_length r : record_typed r -> length (encode_record_payload r) = JOURNAL_PAYLOAD_LEN.
Proof.
  intros []. unfold encode_record_payload. rewrite !length_app, length_le_bytes.
  rewrite rt_hash0, rt_store0, rt_segment0, rt_item0, rt_event0. reflexivity.
Qed.

Ltac skip_to x k := rewrite (slice_app_skip x _ _ _ k) by (done || lia); cbn [Nat.sub].

Lemma payload_roundtrip r : record_typed r -> decode_record_payload (encode_record_payload r) = Some r.
Proof.
  intros Hr. unfold decode_record_payload. rewrite payload_length by done. cbn [Nat.eqb negb JOURNAL_PAYLOAD_LEN].
  destruct Hr as [H1 H2 H3 H4 H5 H6]. unfold encode_record_payload.
  assert (Hl : forall i, (dr_content_hash r ++ dr_store_id r ++ dr_segment_id r ++ dr_item_id r ++ dr_event_id r
      ++ [event_kind_byte (dr_event_kind r); durability_byte (dr_durability r)] ++ le_bytes 8 (dr_offset r))
      !! (96 + i)%nat = ([event_kind_byte (dr_event_kind r); durability_byte (dr_durability r)]
                         ++ le_bytes 8 (dr_offset r)) !! i).
  { intros i. rewrite !app_assoc. rewrite <- (app_assoc _ [_; _]). rewrite lookup_app_r; [f_equal|];
      rewrite !length_app; lia. }
  pose proof (eq_trans (Hl 0%nat) (eq_refl (Some (event_kind_byte (dr_event_kind r))))) as Hk0.
  pose proof (eq_trans (Hl 1%nat) (eq_refl (Some (durability_byte (dr_durability r))))) as Hk1.
  change (96 + 0)%nat with 96%nat in Hk0. change (96 + 1)%nat with 97%nat in Hk1. rewrite Hk0, Hk1.
  cbn [mbind option_bind].
  rewrite event_kind_byte_roundtrip. cbn [mbind option_bind]. rewrite durability_byte_roundtrip. cbn [mbind option_bind].
  rewrite slice_app_here by done.
  skip_to (dr_content_hash r) 32%nat. rewrite slice_app_here by done.
  skip_to (dr_content_hash r) 32%nat. skip_to (dr_store_id r) 16%nat. rewrite slice_app_here by done.
  skip_to (dr_content_hash r) 32%nat. skip_to (dr_store_id r) 16%nat. skip_to (dr_segment_id r) 16%nat.
  rewrite slice_app_here by done.
  skip_to (dr_content_hash r) 32%nat. skip_to (dr_store_id r) 16%nat. skip_to (dr_segment_id r) 16%nat.
  skip_to (dr_item_id r) 16%nat. rewrite slice_app_here by done.
  skip_to (dr_content_hash r) 32%nat. skip_to (dr_store_id r) 16%nat. skip_to (dr_segment_id r) 16%nat.
  skip_to (dr_item_id r) 16%nat. skip_to (dr_event_id r) 16%nat.
  rewrite (slice_app_skip [_; _] _ _ _ 2) by (done || lia). cbn [Nat.sub].
  rewrite slice_all by by rewrite length_le_bytes.
  rewrite le_val_bytes_small by (unfold in_u64, U64_MAX in H6; lia). by destruct r.
Qed.

(** ** The journal *)

Section Journal.
Context {I : IntegrityPrims} {L : IntegrityLaws I}.

Definition entry_typed (e : list byte * DedupRecord) : Prop :=
  length (fst e) = 16%nat /\ record_typed (snd e).

Lemma journal_record_length e : entry_typed e ->
  length (encode_journal_record (fst e) (snd e)) = JOURNAL_RECORD_LEN.
Proof.
  intros [H1 H2]. unfold encode_journal_record. rewrite !length_app, H1, payload_length, blake3_hash_len by done.
  reflexivity.
Qed.

(** The table after the entries, in order. *)
Definition apply_entries (rs : list (list byte * DedupRecord)) (t : WriteDedupTable) : WriteDedupTable :=
  fold_left (fun t e => <[fst e := snd e]> t) rs t.

Lemma replay_one fuel e rest t : entry_typed e ->
  replay_records (S fuel) (encode_journal_record (fst e) (snd e) ++ rest) t
  = replay_records fuel rest (<[fst e := snd e]> t).
Proof.
  intros He. pose proof (journal_record_length e He) as Hl. destruct He as [H1 H2]. cbn [replay_records].
  rewrite length_app, Hl. rewrite (proj2 (Nat.ltb_ge _ _)) by lia.
  rewrite take_app_length', drop_app_length' by done. unfold encode_journal_record.
  assert (Hp : length (fst e ++ encode_record_payload (snd e)) = (16 + JOURNAL_PAYLOAD_LEN)%nat)
    by (rewrite length_app, payload_length, H1 by done; done).
  rewrite take_app_length', drop_app_length' by (rewrite Hp; reflexivity). unfold bytes_eqb. rewrite bool_decide_eq_true_2 by done.
  cbn [negb]. rewrite <- app_assoc. rewrite (slice_app_skip (fst e) _ 16 _ 16) by done.
  change (16 - 16)%nat with 0%nat. rewrite slice_app_here by (rewrite payload_length by done; reflexivity).
  rewrite payload_roundtrip by done. by rewrite take_app_length' by done.
Qed.

(** A journal cut off after [k] bytes of its records. *)
Definition whole (k : nat) : nat := (k / JOURNAL_RECORD_LEN)%nat.

Lemma replay_cut fuel rs k t : Forall entry_typed rs -> (whole k < fuel)%nat ->
  exists rest, replay_records fuel (take k (encode_records rs)) t = (apply_entries (take (whole k) rs) t, rest)
  /\ (rest = [] <-> (k = whole k * JOURNAL_RECORD_LEN)%nat \/ (length rs * JOURNAL_RECORD_LEN <= k)%nat).
Proof.
  intros Hrs. revert fuel k t. induction Hrs as [|e rs He Hrs IH]; intros fuel k t Hf.
  { destruct fuel as [|fuel]; [lia|]. exists []. unfold encode_records. cbn [map concat]. rewrite take_nil.
    assert (E : take (whole k) (@nil (list byte * DedupRecord)) = []) by by destruct (whole k).
    rewrite E. split; [done|]. split; [intros _; right; cbn; lia|done]. }
  destruct fuel as [|fuel]; [lia|]. unfold encode_records. cbn [map concat].
  fold (encode_records rs). pose proof (journal_record_length e He) as Hl.
  assert (Hpos : (0 < JOURNAL_RECORD_LEN)%nat) by (unfold JOURNAL_RECORD_LEN; lia).
  destruct (Nat.lt_ge_cases k JOURNAL_RECORD_LEN) as [Hk|Hk].
  - assert (Hw : whole k = 0%nat) by by apply Nat.div_small. rewrite Hw.
    cbn [replay_records]. rewrite length_take, length_app, Hl. rewrite (proj2 (Nat.ltb_lt _ _)) by lia.
    eexists. split; [reflexivity|]. split.
    + intros E%(f_equal length). rewrite length_take, length_app, Hl in E. cbn in E. left. lia.
    + intros [->|Hge]; [done|]. cbn [length] in Hge. lia.
  - assert (Hw : whole k = S (whole (k - JOURNAL_RECORD_LEN))).
    { unfold whole. replace k with (k - JOURNAL_RECORD_LEN + 1 * JOURNAL_RECORD_LEN)%nat at 1 by lia.
      rewrite Nat.div_add by lia. lia. }
    rewrite Hw. rewrite take_app, Hl, take_ge by lia. rewrite replay_one by done.
    destruct (IH fuel (k - JOURNAL_RECORD_LEN)%nat (<[fst e := snd e]> t)) as (rest & -> & Hr); [lia|].
    exists rest. split; [done|]. rewrite Hr. cbn [length]. lia.
Qed.

Lemma encode_records_length rs : Forall entry_typed rs ->
  length (encode_records rs) = (length rs * JOURNAL_RECORD_LEN)%nat.
Proof.
  unfold encode_records. induction 1 as [|e rs He Hrs IH]; [done|]. cbn [map concat length].
  rewrite length_app, IH, journal_record_length by done. reflexivity.
Qed.
Lemma encode_records_app rs rs' : encode_records (rs ++ rs') = encode_records rs ++ encode_records rs'.
Proof. unfold encode_records. by rewrite map_app, concat_app. Qed.
Lemma encode_records_take rs m : Forall entry_typed rs -> (m <= length rs)%nat ->
  take (m * JOURNAL_RECORD_LEN) (encode_records rs) = encode_records (take m rs).
Proof.
  intros Hrs Hm. rewrite <- (take_drop m rs) at 1. rewrite encode_records_app. apply take_app_length'.
  rewrite encode_records_length, length_take, Nat.min_l by (done || by apply Forall_take). reflexivity.
Qed.

Definition journal_of (rs : list (list byte * DedupRecord)) : list byte := journal_header ++ encode_records rs.
(** The records that lie wholly in the bytes of a journal that was cut off. *)
Definition kept (j : list byte) (rs : list (list byte * DedupRecord)) : list (list byte * DedupRecord) :=
  take (whole (length j - JOURNAL_HEADER_LEN)) rs.

Lemma journal_header_length : length journal_header = JOURNAL_HEADER_LEN.
Proof. reflexivity. Qed.

Lemma replay_prefix j rs t : Forall entry_typed rs -> j `prefix_of` journal_of rs ->
  if (length j <? JOURNAL_HEADER_LEN)%nat then replay_journal j t = (t, false)
  else exists c, replay_journal j t = (apply_entries (kept j rs) t, c)
    /\ (c = true <-> j = journal_of (kept j rs)).
Proof.
  intros Hrs Hp. unfold replay_journal.
  destruct (Nat.ltb_spec (length j) JOURNAL_HEADER_LEN) as [Hl|Hl]; [done|]. cbn [orb].
  destruct Hp as [z Hz]. assert (Hj : exists k, j = journal_header ++ take k (encode_records rs)
    /\ (k = length j - JOURNAL_HEADER_LEN)%nat /\ (k <= length (encode_records rs))%nat).
  { exists (length j - JOURNAL_HEADER_LEN)%nat. unfold journal_of in Hz.
    assert (Ht : take (length j) (journal_header ++ encode_records rs) = j) by by rewrite Hz, take_app_length.
    split_and!; [|done|].
    - rewrite take_app, journal_header_length in Ht. rewrite (take_ge journal_header) in Ht by done. done.
    - apply (f_equal length) in Hz. rewrite !length_app, journal_header_length in Hz. lia. }
  destruct Hj as (k & Ej & Hk & Hle). unfold kept. rewrite <- Hk.
  assert (H8 : take 8 j = JOURNAL_MAGIC) by (rewrite Ej; reflexivity).
  assert (Hv : le_val (slice 8 12 j) = JOURNAL_VERSION) by (rewrite Ej; reflexivity).
  rewrite H8, Hv. unfold bytes_eqb. rewrite bool_decide_eq_true_2 by done. cbn [negb orb Z.eqb Pos.eqb JOURNAL_VERSION].
  assert (Hd : drop JOURNAL_HEADER_LEN j = take k (encode_records rs)) by by rewrite Ej, drop_app_length'.
  rewrite Hd. pose proof (Nat.Div0.div_le_upper_bound k JOURNAL_RECORD_LEN k) as Hwk.
  assert (Hw : (whole k <= k)%nat) by (apply Hwk; unfold JOURNAL_RECORD_LEN; lia).
  destruct (replay_cut (length j) rs k t Hrs) as (rest & -> & Hr); [unfold JOURNAL_HEADER_LEN in *; lia|].
  exists (length rest =? 0)%nat. split; [done|]. rewrite Nat.eqb_eq, length_zero_iff_nil, Hr.
  rewrite encode_records_length in Hle by done. pose proof (Nat.Div0.mul_div_le k JOURNAL_RECORD_LEN) as Hmd.
  assert (Hwl : (whole k <= length rs)%nat).
  { unfold whole. apply Nat.Div0.div_le_upper_bound. lia. }
  rewrite Ej at 1. unfold journal_of. rewrite <- encode_records_take by done. split.
  - intros [E|E]; do 2 f_equal; [done|]. apply Nat.le_antisymm; [|unfold whole; lia].
    assert (k = length rs * JOURNAL_RECORD_LEN)%nat as -> by lia. unfold whole.
    rewrite Nat.div_mul by (unfold JOURNAL_RECORD_LEN; lia). done.
  - intros E%app_inv_head%(f_equal length). rewrite !length_take, encode_records_length in E by done.
    left. unfold whole in *. lia.
Qed.

(** ** The checkpoint *)

Lemma apply_entries_union es t : NoDup (map fst es) -> apply_entries es t = list_to_map es ∪ t.
Proof.
  revert t. induction es as [|[k r] es IH]; intros t; cbn [map apply_entries fold_left fst snd].
  { intros _. by rewrite list_to_map_nil, (left_id_L ∅ (∪)). }
  intros [Hk Hd]%NoDup_cons. fold (apply_entries es (<[k := r]> t)). rewrite IH by done. rewrite list_to_map_cons.
  rewrite <- insert_union_r; [by rewrite insert_union_l|]. by apply not_elem_of_list_to_map_1.
Qed.

Lemma apply_entries_dom es t k : k ∈ dom (apply_entries es t) <-> k ∈ dom t \/ k ∈ map fst es.
Proof.
  revert t. induction es as [|[k' r] es IH]; intros t; cbn [map apply_entries fold_left fst snd].
  { rewrite elem_of_nil. tauto. }
  fold (apply_entries es (<[k' := r]> t)). rewrite IH, dom_insert, elem_of_union, elem_of_singleton, elem_of_cons. tauto.
Qed.

Lemma sorted_entries_perm t : sorted_entries t ≡ₚ map_to_list t.
Proof. apply sort_by_perm. Qed.
Lemma sorted_entries_table t : apply_entries (sorted_entries t) ∅ = t.
Proof.
  assert (Hd : NoDup (map fst (sorted_entries t))).
  { rewrite (Permutation_map fst (sorted_entries_perm t)). apply NoDup_fst_map_to_list. }
  rewrite apply_entries_union, (right_id_L ∅ (∪)) by done.
  rewrite (list_to_map_proper _ (map_to_list t)); [apply list_to_map_to_list|exact Hd|apply sorted_entries_perm].
Qed.

Definition table_typed (t : WriteDedupTable) : Prop := map_Forall (fun k r => entry_typed (k, r)) t.

Lemma decode_entries_concat es pre post m : Forall entry_typed es -> (32 <= length post)%nat ->
  decode_entries (length es)
    (pre ++ concat (map (fun e => fst e ++ encode_record_payload (snd e)) es) ++ post) (length pre) m
  = Some (apply_entries es m, (length pre + 122 * length es)%nat).
Proof.
  intros Hes Hp. revert pre m. induction Hes as [|e es [H1 H2] Hes IH]; intros pre m.
  { cbn. do 2 f_equal. lia. }
  pose proof (payload_length _ H2) as Hl. change JOURNAL_PAYLOAD_LEN with 106%nat in Hl.
  cbn [length map concat decode_entries]. set (rest := concat (map _ es)).
  rewrite (proj2 (Nat.ltb_ge _ _)) by (rewrite !length_app, H1, Hl; lia).
  rewrite <- !app_assoc.
  rewrite (slice_app_skip pre _ (length pre + 16) _ (length pre)) by lia.
  replace (length pre + 16 - length pre)%nat with 16%nat by lia.
  replace (length pre + 122 - length pre)%nat with 122%nat by lia.
  rewrite (slice_app_skip (fst e) _ 16 122 16) by (done || lia). change (16 - 16)%nat with 0%nat. change (122 - 16)%nat with 106%nat.
  rewrite slice_app_here by done. rewrite payload_roundtrip by done. cbn [mbind option_bind].
  rewrite (slice_app_skip pre _ (length pre) _ (length pre)) by lia.
  rewrite Nat.sub_diag. replace (length pre + 16 - length pre)%nat with 16%nat by lia. rewrite slice_app_here by done.
  specialize (IH (pre ++ fst e ++ encode_record_payload (snd e)) (<[fst e := snd e]> m)).
  rewrite !length_app, H1, Hl in IH. rewrite <- !app_assoc in IH. fold rest in IH.
  replace (length pre + (16 + 106))%nat with (length pre + 122)%nat in IH by lia. rewrite IH. do 2 f_equal. lia.
Qed.

Lemma table_roundtrip t : table_typed t -> Z.of_nat (size t) <= U32_MAX ->
  decode_table (encode_table t) = Some t.
Proof.
  intros Ht Hs. unfold decode_table, encode_table.
  assert (Hes : Forall entry_typed (sorted_entries t)).
  { rewrite sorted_entries_perm. apply Forall_forall. intros [k r] Hin. apply elem_of_map_to_list in Hin.
    by apply (Ht k r). }
  assert (Hlen : length (sorted_entries t) = size t).
  { rewrite (Permutation_length (sorted_entries_perm t)). apply length_map_to_list. }
  set (pre := DEDUP_MAGIC ++ le_bytes 4 DEDUP_VERSION ++ le_bytes 4 (Z.of_nat (size t))).
  set (body := concat _).
  replace (DEDUP_MAGIC ++ le_bytes 4 DEDUP_VERSION ++ le_bytes 4 (Z.of_nat (size t)) ++ body)
    with (pre ++ body) by (unfold pre; by rewrite <- !app_assoc).
  set (h := blake3_hash (pre ++ body)).
  assert (Hh : length h = 32%nat) by apply blake3_hash_len.
  assert (Hpre : length pre = 16%nat) by (unfold pre; rewrite !length_app, !length_le_bytes; reflexivity).
  rewrite <- app_assoc. rewrite (proj2 (Nat.ltb_ge _ _)) by (rewrite !length_app, Hpre, Hh; lia).
  assert (H8 : take 8 (pre ++ body ++ h) = DEDUP_MAGIC) by reflexivity.
  assert (Hv : le_val (slice 8 12 (pre ++ body ++ h)) = DEDUP_VERSION) by reflexivity.
  assert (Hn : le_val (slice 12 16 (pre ++ body ++ h)) = Z.of_nat (size t)).
  { unfold pre. rewrite <- !app_assoc. rewrite (slice_app_skip DEDUP_MAGIC _ 12 16 8) by (done || lia).
    rewrite (slice_app_skip (le_bytes 4 DEDUP_VERSION) _ (12 - 8) (16 - 8) 4) by (rewrite ?length_le_bytes; lia).
    rewrite slice_app_here by apply length_le_bytes. apply le_val_bytes_small. unfold U32_MAX in Hs. lia. }
  rewrite H8, Hv, Hn. unfold bytes_eqb. rewrite bool_decide_eq_true_2 by done. cbn [negb Z.eqb Pos.eqb DEDUP_VERSION].
  rewrite Nat2Z.id, <- Hlen. pose proof (decode_entries_concat _ pre h ∅ Hes ltac:(lia)) as Hde.
  fold body in Hde. rewrite Hpre in Hde. rewrite Hde. cbn [mbind option_bind].
  assert (Hb : length body = (122 * length (sorted_entries t))%nat).
  { unfold body. clear -Hes. induction Hes as [|e es [H1 H2] Hes IH]; [done|]. cbn [map concat length].
    rewrite !length_app, H1, payload_length, IH by done. change JOURNAL_PAYLOAD_LEN with 106%nat. lia. }
  rewrite !length_app, Hpre, Hb, Hh. rewrite (proj2 (Nat.eqb_eq _ _)) by lia. cbn [negb].
  assert (Hc : (16 + 122 * length (sorted_entries t))%nat = length (pre ++ body)) by (rewrite length_app; lia).
  rewrite Hc, app_assoc, take_app_length. rewrite (slice_app_skip (pre ++ body) h _ _ (length (pre ++ body))) by lia.
  rewrite Nat.sub_diag. replace (length (pre ++ body) + 32 - length (pre ++ body))%nat with 32%nat by lia.
  rewrite slice_all by done. pose proof (hasher_spec [pre ++ body]) as Hhl. cbn [fold_left concat] in Hhl. rewrite app_nil_r in Hhl.
  rewrite Hhl. rewrite bool_decide_eq_true_2 by done. cbn [negb]. by rewrite sorted_entries_table.
Qed.
End Journal.

(** ** The session marker *)

Definition is_digit (c : byte) : Prop := 48 <= b2z c <= 57.
Definition val (a : Z) (ds : list byte) : Z := fold_left (fun a c => 10 * a + (b2z c - 48)) ds a.

Lemma val_ge a ds : Forall is_digit ds -> 0 <= a -> a <= val a ds.
Proof.
  intros Hd. revert a. induction Hd as [|c ds Hc Hd IH]; intros a Ha; [done|]. cbn [val fold_left].
  fold (val (10 * a + (b2z c - 48)) ds). unfold is_digit in Hc. specialize (IH (10 * a + (b2z c - 48))). lia.
Qed.
Lemma parse_val a ds : Forall is_digit ds -> 0 <= a -> val a ds <= U64_MAX -> parse_digits a ds = Some (val a ds).
Proof.
  intros Hd. revert a. induction Hd as [|c ds Hc Hd IH]; intros a Ha Hv; [done|]. cbn [parse_digits val fold_left] in *.
  pose proof Hc as Hc'. unfold is_digit in Hc. fold (val (10 * a + (b2z c - 48)) ds) in *.
  pose proof (val_ge (10 * a + (b2z c - 48)) ds Hd ltac:(lia)).
  rewrite !(proj2 (Z.leb_le _ _)) by lia. cbn [andb]. rewrite (proj2 (Z.ltb_ge _ _)) by lia. apply IH; lia.
Qed.

Lemma digit_byte n : 0 <= n < 10 -> b2z (z2b (48 + n)) = 48 + n.
Proof. intros H. apply b2z_z2b_small. lia. Qed.

Lemma digits_spec fuel n acc : (0 < fuel)%nat -> 0 <= n < 10 ^ Z.of_nat fuel ->
  exists ds, digits fuel n acc = ds ++ acc /\ ds <> [] /\ Forall is_digit ds /\ val 0 ds = n.
Proof.
  revert n acc. induction fuel as [|fuel IH]; intros n acc Hf Hn; [lia|]. cbn [digits].
  pose proof (Z.mod_pos_bound n 10 ltac:(lia)) as Hm. pose proof (Z.div_mod n 10 ltac:(lia)) as Hdm.
  assert (Hc : is_digit (z2b (48 + n mod 10))) by (unfold is_digit; rewrite digit_byte; lia).
  destruct (Z.ltb_spec n 10) as [Hlt|Hge].
  - exists [z2b (48 + n mod 10)]. split_and!; [done|done|by constructor|]. cbn [val fold_left].
    rewrite digit_byte by lia. rewrite Z.mod_small by lia. lia.
  - destruct fuel as [|fuel]; [cbn in Hn; lia|].
    destruct (IH (n / 10) (z2b (48 + n mod 10) :: acc)) as (ds & -> & Hne & Hd & Hv); [lia| |].
    { split; [apply Z.div_pos; lia|]. apply Z.div_lt_upper_bound; [lia|].
      rewrite (Nat2Z.inj_succ (S fuel)), Z.pow_succ_r in Hn by lia. lia. }
    exists (ds ++ [z2b (48 + n mod 10)]). split_and!.
    + by rewrite <- app_assoc.
    + by destruct ds.
    + apply Forall_app. split; [done|by constructor].
    + unfold val in *. rewrite fold_left_app, Hv. cbn [fold_left]. rewrite digit_byte by lia. lia.
Qed.
Lemma decimal_spec n : in_u64 n -> exists ds, decimal n = ds /\ ds <> [] /\ Forall is_digit ds /\ parse_u64 ds = Some n.
Proof.
  intros Hn. destruct (digits_spec 40 n []) as (ds & Hds & Hne & Hd & Hv); [lia|unfold in_u64, U64_MAX in Hn; lia|].
  exists ds. rewrite app_nil_r in Hds. split_and!; [done..|]. unfold parse_u64.
  assert (Hp : parse_digits 0 ds = Some n) by (rewrite parse_val, Hv; unfold in_u64 in Hn; [done|done|lia|lia]).
  destruct ds as [|c [|c' ds]]; [done|done|]. apply Forall_cons in Hd as [Hc _]. unfold is_digit in Hc.
  rewrite (proj2 (Z.eqb_neq _ _)) by lia. done.
Qed.

Lemma lines_from_plain l acc rest : Forall (fun c => b2z c <> 10) l ->
  lines_from acc (l ++ rest) = lines_from (reverse l ++ acc) rest.
Proof.
  intros Hl. revert acc. induction Hl as [|c l Hc Hl IH]; intros acc; [done|]. cbn [app lines_from].
  rewrite (proj2 (Z.eqb_neq _ _)) by done. rewrite IH, reverse_cons, <- app_assoc. done.
Qed.
Lemma lines_line l rest : Forall (fun c => b2z c <> 10 /\ b2z c <> 13) l ->
  lines (l ++ z2b 10 :: rest) = l :: lines rest.
Proof.
  intros Hl. unfold lines. rewrite lines_from_plain.
  2:{ eapply Forall_impl; [exact Hl|]. by intros c []. }
  rewrite app_nil_r. cbn [lines_from]. rewrite b2z_z2b_small by lia. cbn [Z.eqb Pos.eqb].
  destruct (reverse l) as [|x r] eqn:E; f_equal.
  - apply (f_equal reverse) in E. by rewrite reverse_involutive in E.
  - assert (Hx : x ∈ l) by (apply elem_of_reverse; rewrite E; left).
    eapply Forall_forall in Hl as [_ H13]; [|exact Hx]. rewrite (proj2 (Z.eqb_neq _ _)) by done.
    rewrite <- E. apply reverse_involutive.
Qed.

Lemma digits_plain ds : Forall is_digit ds ->
  Forall (fun c => b2z c <> 10 /\ b2z c <> 13) ds /\ Forall (fun c => b2z c <= 127) ds.
Proof. intros H. split; (eapply Forall_impl; [exact H|]); intros c; unfold is_digit; lia. Qed.

Lemma marker_lines word n : in_u64 n -> Forall (fun c => b2z c <= 127 /\ b2z c <> 10 /\ b2z c <> 13) word ->
  utf8_valid (word ++ [z2b 10] ++ decimal n ++ [z2b 10]) = true
  /\ lines (word ++ [z2b 10] ++ decimal n ++ [z2b 10]) = [word; decimal n].
Proof.
  intros Hn Hw. destruct (decimal_spec n Hn) as (ds & -> & Hne & Hd & _). destruct (digits_plain ds Hd) as [Hp Ha].
  assert (Hten : b2z (z2b 10) <= 127) by (rewrite b2z_z2b_small; lia). split.
  - apply utf8_ascii. rewrite !Forall_app, !Forall_singleton. split_and!; [|done|done|done].
    eapply Forall_impl; [exact Hw|]. by intros c [].
  - cbn [app]. rewrite lines_line.
    2:{ eapply Forall_impl; [exact Hw|]. by intros c []. }
    rewrite lines_line by done. done.
Qed.

Lemma dirty_since_session n len : in_u64 n ->
  load_write_dedup_session (Some (dirty_since_marker n)) len = DirtySince n.
Proof.
  intros Hn. unfold load_write_dedup_session, dirty_since_marker.
  destruct (marker_lines (lit "dirty_since") n Hn) as [-> ->]; [repeat constructor; vm_compute; congruence|].
  cbn [negb]. unfold bytes_eqb. rewrite bool_decide_eq_true_2 by done.
  by destruct (decimal_spec n Hn) as (ds & -> & _ & _ & ->).
Qed.
Lemma clean_session n len : in_u64 n ->
  load_write_dedup_session (Some (clean_marker n)) len = if len =? n then Clean else DirtyLegacy.
Proof.
  intros Hn. unfold load_write_dedup_session, clean_marker.
  destruct (marker_lines (lit "clean") n Hn) as [-> ->]; [repeat constructor; vm_compute; congruence|].
  cbn [negb]. unfold bytes_eqb. rewrite !bool_decide_eq_false_2 by done. rewrite bool_decide_eq_true_2 by done.
  by destruct (decimal_spec n Hn) as (ds & -> & _ & _ & ->).
Qed.
