(* ===== verification/OperationOnce.v ===== *)
(** * A client operation is executed at most once

    The ledger of [WriteDedup] as a machine: processes open a store, execute
    idempotent puts, close or stop, media change, and power fails.  As long as a
    process whose reconciliation failed executes nothing more, no operation
    leaves two events on the media. *)
From S2P Require Import Prelude Cbor Frame FrameFacts Scan ScanFacts AtomicFile ItemEnvelope HeapFramesFacts SegmentIds WriteDedup WriteDedupFacts.
Open Scope list_scope.
Open Scope Z_scope.

Section Once.
Context {I : IntegrityPrims} {L : IntegrityLaws I}.
Variables (iteration : WriteDedupTable -> list (list byte * DedupRecord)).
Variables (store : list byte) (limits : SafetyLimits).
Hypothesis iteration_perm : forall t, iteration t ≡ₚ map_to_list t.
Hypothesis store_len : length store = 16%nat.

Implicit Types (f : LedgerFiles) (l : Ledger) (mv : MediaView) (t : WriteDedupTable).

(** ** Operations on the media *)

Definition ops_of (segments : list (option Z * list byte)) : list (list byte * DedupRecord) :=
  concat (map (fun s => segment_operations store limits (snd s)) segments).
Definition all_ops mv : list (list byte * DedupRecord) := ops_of (mv_segments mv).
(** Those of the segments that have a name with a number below [floor]. *)
Definition named_below (floor : Z) (name : option Z) : bool :=
  match name with Some s => s <? floor | None => false end.
Definition old_ops mv (floor : Z) : list (list byte * DedupRecord) :=
  ops_of (List.filter (fun s => named_below floor (fst s)) (mv_segments mv)).

Definition covered (ops : list (list byte * DedupRecord)) t : Prop :=
  forall e, e ∈ ops -> fst e ∈ dom t.

(** Segments are as long as files can be, and numbers are unsigned. *)
Definition media_fits mv : Prop :=
  Forall (fun s => Z.of_nat (length (snd s)) <= U64_MAX) (mv_segments mv)
  /\ Forall (fun s => match fst s with Some n => 0 <= n | None => True end) (mv_segments mv)
  /\ in_u64 (current_active_floor_seq mv).

Lemma frame_operation_typed bytes x e : Z.of_nat (length bytes) <= U64_MAX ->
  x ∈ verified_frames (scan_forward bytes limits) -> frame_operation store x = Some e -> entry_typed e.
Proof.
  intros Hb Hx. destruct x as [q fr]. unfold frame_operation.
  destruct (negb _); [done|]. destruct (decode_item_envelope _) as [env|] eqn:Hd; [|done]. cbn [mbind option_bind].
  destruct (negb _) eqn:Hst; [done|].
  destruct (ie_operation_id env) as [op|] eqn:Hop; [|done]. cbn [mbind option_bind].
  destruct (ie_operation_content_hash env) as [h|] eqn:Hh; [|done]. intros [= <-].
  destruct (decoded_item_typed _ _ Hd) as (H1 & H2 & H3 & H4 & H5 & H6). rewrite Hop in H5. rewrite Hh in H6.
  apply list_elem_of_omap in Hx as (r & Hr & Hrf). destruct (scan_forward_spec bytes limits) as [_ Hok].
  rewrite Forall_forall in Hok. specialize (Hok r Hr). destruct r as [rg g|]; [|done]. injection Hrf as <- <-.
  destruct Hok as [Hat _]. destruct (frame_at_facts _ _ _ _ Hat) as (_ & _ & Hq).
  split; [done|]. split; cbn; [done|done|done|done| |unfold in_u64; lia].
  unfold frame_at in Hat. apply verify_inv in Hat as (r1 & r2 & tl & _ & _ & He & _). by apply ef_event_id in He.
Qed.

Lemma segment_operations_typed bytes : Z.of_nat (length bytes) <= U64_MAX ->
  Forall entry_typed (segment_operations store limits bytes).
Proof.
  intros Hb. apply Forall_forall. intros e (x & Hx & He)%list_elem_of_omap. by eapply frame_operation_typed.
Qed.

(** ** Reconciliation collects what it reads *)

Lemma reconcile_operations_spec ops t rec b t' rec' : Forall entry_typed ops ->
  reconcile_operations ops t rec = (b, t', rec') ->
  exists new, rec' = rec ++ new /\ t' = apply_entries new t /\ Forall entry_typed new
    /\ (b = true -> covered ops t').
Proof.
  intros Hops. revert t rec. induction Hops as [|[op r] ops He Hops IH]; intros t rec; cbn [reconcile_operations].
  { intros [= <- <- <-]. exists []. rewrite app_nil_r. split_and!; [done..|constructor|].
    intros _ e He. by apply elem_of_nil in He. }
  destruct (t !! op) as [old|] eqn:Ht.
  - destruct (bytes_eqb _ _).
    2:{ intros [= <- <- <-]. exists []. rewrite app_nil_r. by split_and!; [..|constructor|]. }
    intros (new & -> & -> & Hn & Hc)%IH. exists new. split_and!; [done..|].
    intros Hb e [-> |Hin]%elem_of_cons; [|by apply Hc]. apply apply_entries_dom. left. by apply elem_of_dom.
  - intros (new & -> & -> & Hn & Hc)%IH. exists ((op, r) :: new). split_and!; [by rewrite <- app_assoc|done|by constructor|].
    intros Hb e [-> |Hin]%elem_of_cons; [|by apply Hc]. apply apply_entries_dom. left. rewrite dom_insert. set_solver.
Qed.

Lemma covered_mono ops t t' : dom t ⊆ dom t' -> covered ops t -> covered ops t'.
Proof. intros Hs Hc e He. by apply Hs, Hc. Qed.
Lemma apply_entries_grows es t : dom t ⊆ dom (apply_entries es t).
Proof. intros k Hk. apply apply_entries_dom. by left. Qed.
Lemma apply_entries_app a b t : apply_entries (a ++ b) t = apply_entries b (apply_entries a t).
Proof. unfold apply_entries. by rewrite fold_left_app. Qed.

Lemma reconcile_segments_spec floor segments reads t rec e t' rec' :
  Forall (fun s => Z.of_nat (length (snd s)) <= U64_MAX) segments ->
  reconcile_segments store limits floor segments reads t rec = (e, t', rec') ->
  exists new, rec' = rec ++ new /\ t' = apply_entries new t /\ Forall entry_typed new
    /\ (e = None -> covered (ops_of (List.filter (fun s => negb (below_floor floor (fst s))) segments)) t').
Proof.
  intros Hs. revert reads t rec. induction Hs as [|[name bytes] segs Hb Hs IH]; intros reads t rec; cbn [reconcile_segments].
  { intros [= <- <- <-]. exists []. rewrite app_nil_r. split_and!; [done..|constructor|].
    intros _ x Hx. by apply elem_of_nil in Hx. }
  cbn [List.filter fst]. destruct (below_floor floor name); cbn [negb]; [apply IH|].
  assert (Hgo : match reconcile_operations (segment_operations store limits bytes) t rec with
    | (true, t', recovered') => reconcile_segments store limits floor segs (tail reads) t' recovered'
    | (false, t', recovered') => (Some OperationIdentityConflict, t', recovered')
    end = (e, t', rec') -> exists new, rec' = rec ++ new /\ t' = apply_entries new t /\ Forall entry_typed new
    /\ (e = None -> covered (ops_of ((name, bytes) :: List.filter (fun s => negb (below_floor floor (fst s))) segs)) t')).
  { destruct (reconcile_operations _ t rec) as [[b t1] rec1] eqn:E.
    apply reconcile_operations_spec in E as (n1 & -> & -> & Hn1 & Hc1); [|by apply segment_operations_typed].
    destruct b; [|by intros [= <- <- <-]; exists n1]. specialize (Hc1 eq_refl).
    intros (n2 & -> & -> & Hn2 & Hc2)%IH. exists (n1 ++ n2).
    split_and!; [by rewrite app_assoc|by rewrite apply_entries_app|by apply Forall_app|].
    intros He x Hx. unfold ops_of in Hx. cbn [map concat snd] in Hx. apply elem_of_app in Hx as [Hx|Hx]; [|by apply Hc2].
    apply apply_entries_grows. by apply Hc1. }
  destruct reads as [|[|] reads]; [exact Hgo|exact Hgo|]. intros [= <- <- <-]. exists []. rewrite app_nil_r.
  by split_and!; [..|constructor|].
Qed.

Lemma ops_split floor segments e : e ∈ ops_of segments ->
  e ∈ ops_of (List.filter (fun s => below_floor floor (fst s)) segments)
  \/ e ∈ ops_of (List.filter (fun s => negb (below_floor floor (fst s))) segments).
Proof.
  unfold ops_of. induction segments as [|s segs IH]; [by left|]. cbn [map concat List.filter].
  intros [He|He]%elem_of_app.
  - destruct (below_floor floor (fst s)); cbn [negb map concat]; [left|right]; apply elem_of_app; by left.
  - apply IH in He as [He|He]; destruct (below_floor floor (fst s)); cbn [negb map concat]; rewrite ?elem_of_app; tauto.
Qed.

Lemma skipped_old mv floor e :
  e ∈ ops_of (List.filter (fun s => below_floor floor (fst s)) (mv_segments mv)) -> e ∈ old_ops mv floor.
Proof.
  unfold old_ops, ops_of. induction (mv_segments mv) as [|[name b] segs IH]; [done|]. cbn [List.filter fst].
  assert (Hn : below_floor floor name = true -> named_below floor name = true).
  { destruct name as [n|]; [|done]. cbn. by intros [_ ?]%andb_true_iff. }
  destruct (below_floor floor name).
  - rewrite (Hn eq_refl). cbn [map concat]. rewrite !elem_of_app. intros [?|?]; [by left|right; by apply IH].
  - intros H%IH. destruct (named_below floor name); [|done]. cbn [map concat]. apply elem_of_app. by right.
Qed.

(** ** Loading *)

Definition load f : WriteDedupTable := fst (load_write_dedup_checked f).

(** The journal is cut off from a well formed one. *)
Definition journal_from f (rs : list (list byte * DedupRecord)) : Prop :=
  Forall entry_typed rs /\ journal_bytes f `prefix_of` journal_of rs.
(** It can be appended to. *)
Definition journal_whole f (rs : list (list byte * DedupRecord)) : Prop :=
  Forall entry_typed rs /\ (journal_bytes f = journal_of rs \/ journal_bytes f = [] /\ rs = []).

Lemma whole_from f rs : journal_whole f rs -> journal_from f rs.
Proof. intros [Ht H]. split; [done|]. destruct H as [-> |[-> _]]; [done|apply prefix_nil]. Qed.

Lemma prefix_short j rs : j `prefix_of` journal_of rs -> (length j < JOURNAL_HEADER_LEN)%nat -> kept j rs = [].
Proof. intros _ H. unfold kept. by replace (length j - JOURNAL_HEADER_LEN)%nat with 0%nat by lia. Qed.

(** Loading gives the checkpoint and the records that are whole. *)
Lemma load_spec f rs : journal_from f rs ->
  load f = apply_entries (kept (journal_bytes f) rs) (load_write_dedup_checkpoint f)
  /\ (snd (load_write_dedup_checked f) = true -> journal_whole f (kept (journal_bytes f) rs)).
Proof.
  intros [Ht Hp]. unfold load, load_write_dedup_checked, journal_whole, journal_bytes in *.
  assert (Hk : Forall entry_typed (kept (default [] (lf_journal f)) rs)) by by apply Forall_take.
  destruct (lf_journal f) as [j|]; cbn [default from_option fst snd id] in *.
  - pose proof (replay_prefix j rs (load_write_dedup_checkpoint f) Ht Hp) as H.
    destruct (Nat.ltb_spec (length j) JOURNAL_HEADER_LEN) as [Hl|Hl].
    + rewrite H, prefix_short by done. done.
    + destruct H as (c & -> & Hc). cbn. split; [done|]. intros ->. split; [done|]. left. by apply Hc.
  - rewrite prefix_short by (done || cbn; unfold JOURNAL_HEADER_LEN; lia). split; [done|]. intros _. split; [done|]. by right.
Qed.

(** What a crash leaves at least, and what it may leave. *)
Definition cut (k : nat) f : LedgerFiles :=
  with_journal f (take k <$> lf_journal f) (length (take k (journal_bytes f))).
Definition stable f : LedgerFiles := cut (lf_synced f) f.

Lemma cut_bytes k f : journal_bytes (cut k f) = take k (journal_bytes f).
Proof. unfold journal_bytes, cut. cbn. destruct (lf_journal f); [done|]. cbn. by rewrite take_nil. Qed.
Lemma cut_from k f rs : journal_from f rs -> journal_from (cut k f) rs.
Proof.
  intros [Ht Hp]. split; [done|]. rewrite cut_bytes. etrans; [|exact Hp]. apply prefix_take.
Qed.

Lemma kept_dom j j' rs t t' : j `prefix_of` j' -> dom t ⊆ dom t' ->
  dom (apply_entries (kept j rs) t) ⊆ dom (apply_entries (kept j' rs) t').
Proof.
  intros Hp Hd k Hk. apply apply_entries_dom in Hk as [Hk|Hk]; apply apply_entries_dom; [left; by apply Hd|right].
  unfold kept in *. apply prefix_length in Hp.
  assert (Hw : (whole (length j - JOURNAL_HEADER_LEN) <= whole (length j' - JOURNAL_HEADER_LEN))%nat).
  { unfold whole. apply Nat.Div0.div_le_mono. lia. }
  apply list_elem_of_fmap in Hk as (e & -> & He). apply list_elem_of_fmap. exists e. split; [done|].
  rewrite <- (take_drop (whole (length j - JOURNAL_HEADER_LEN)) (take _ rs)), take_take, Nat.min_l by done.
  apply elem_of_app. by left.
Qed.

(** Files whose journal was extended load at least as much. *)
Lemma load_mono f f' rs : journal_from f' rs -> journal_bytes f `prefix_of` journal_bytes f' ->
  dom (load_write_dedup_checkpoint f) ⊆ dom (load_write_dedup_checkpoint f') ->
  dom (load f) ⊆ dom (load f').
Proof.
  intros Hf' Hp Hc. assert (Hf : journal_from f rs) by (destruct Hf' as [? ?]; split; [done|by etrans]).
  rewrite (proj1 (load_spec f rs Hf)), (proj1 (load_spec f' rs Hf')). by apply kept_dom.
Qed.
Lemma prefix_take_of (l j : list byte) n : l `prefix_of` j -> (length l <= n)%nat -> l `prefix_of` take n j.
Proof.
  intros [z ->] Hl. rewrite take_app, take_ge by done. by eexists.
Qed.
Lemma stable_mono f f' rs : journal_from f' rs -> journal_bytes f `prefix_of` journal_bytes f' ->
  (lf_synced f <= lf_synced f')%nat ->
  dom (load_write_dedup_checkpoint f) ⊆ dom (load_write_dedup_checkpoint f') ->
  dom (load (stable f)) ⊆ dom (load (stable f')).
Proof.
  intros Hf' Hp Hs Hc. apply (load_mono _ _ rs); [by apply cut_from| |done]. unfold stable. rewrite !cut_bytes.
  apply prefix_take_of; [|rewrite length_take; lia]. etrans; [apply prefix_take|done].
Qed.
Lemma stable_load f rs : journal_from f rs -> dom (load (stable f)) ⊆ dom (load f).
Proof.
  intros Hf. apply (load_mono _ _ rs); [done| |done]. unfold stable. rewrite cut_bytes. apply prefix_take.
Qed.
(** A synced journal is as stable as it is. *)
Lemma synced_stable f rs : journal_from f rs -> lf_synced f = length (journal_bytes f) ->
  dom (load f) ⊆ dom (load (stable f)).
Proof.
  intros Hf Hs. apply (load_mono _ _ rs); [by apply cut_from| |done]. unfold stable.
  rewrite cut_bytes, Hs, firstn_all. done.
Qed.

(** ** The invariants *)

Definition dirty_ok mv f : Prop := exists s, in_u64 s /\ lf_session f = Some (dirty_since_marker s)
  /\ s <= current_active_floor_seq mv /\ covered (old_ops mv s) (load (stable f)).
Definition clean_ok mv f : Prop := lf_session f = Some (clean_marker (journal_len f)) /\ in_u64 (journal_len f)
  /\ covered (all_ops mv) (load (stable f)).

Record files_ok f : Prop := {
  fi_journal : exists rs, journal_from f rs;
  fi_synced : (lf_synced f <= length (journal_bytes f))%nat;
  fi_checkpoint : table_typed (load_write_dedup_checkpoint f) }.

Definition session_ok mv f : Prop :=
  lf_session f = None \/ dirty_ok mv f \/ clean_ok mv f /\ lf_synced f = length (journal_bytes f).

(** A running process. *)
Record proc_inv mv l : Prop := {
  pi_files : files_ok (lg_files l);
  pi_session : dirty_ok mv (lg_files l);
  pi_typed : table_typed (lg_table l);
  pi_checkpoint : dom (load_write_dedup_checkpoint (lg_files l)) ⊆ dom (lg_table l);
  pi_complete : lg_complete l = true ->
    (exists rs, journal_whole (lg_files l) rs) /\ dom (lg_table l) ⊆ dom (load (lg_files l));
  pi_floor : lg_floor l <= current_active_floor_seq mv /\ covered (old_ops mv (lg_floor l)) (lg_table l) }.

(** Its table has every operation of the media. *)
Definition ready mv l : Prop := lg_complete l = true /\ covered (all_ops mv) (lg_table l).

(** ** The journal grows *)

Lemma append_spec f rs new sync fault ok f' : journal_whole f rs -> Forall entry_typed new ->
  (lf_synced f <= length (journal_bytes f))%nat ->
  append_write_dedup_batch_inner f new sync fault = (ok, f') ->
  journal_from f' (rs ++ new) /\ journal_bytes f `prefix_of` journal_bytes f'
  /\ (lf_synced f <= lf_synced f')%nat /\ (lf_synced f' <= length (journal_bytes f'))%nat
  /\ lf_session f' = lf_session f /\ load_write_dedup_checkpoint f' = load_write_dedup_checkpoint f
  /\ (ok = true -> journal_whole f' (rs ++ new)).
Proof.
  intros Hw Hn Hs. unfold append_write_dedup_batch_inner. destruct new as [|e new].
  { intros [= <- <-]. rewrite app_nil_r. split_and!; [by apply whole_from|done..]. }
  remember (e :: new) as es eqn:Ees. clear Ees.
  set (cohort := (if (length (journal_bytes f) =? 0)%nat then journal_header else []) ++ encode_records es).
  assert (Hj : journal_bytes f ++ cohort = journal_of (rs ++ es)).
  { unfold cohort, journal_of. rewrite encode_records_app. destruct Hw as [_ [-> |[-> ->]]]; [|done].
    unfold journal_of. rewrite length_app, journal_header_length. cbn [Nat.add Nat.eqb JOURNAL_HEADER_LEN app].
    by rewrite <- app_assoc. }
  assert (Hts : Forall entry_typed (rs ++ es)) by (apply Forall_app; split; [by destruct Hw|done]).
  destruct fault as [|n]; intros [= <- <-]; unfold with_journal, journal_bytes at 2 3 4 5; cbn [lf_journal lf_synced default from_option id].
  - unfold journal_from, journal_whole, journal_bytes in *. cbn [lf_journal default from_option id]. rewrite Hj.
    split_and!; [done|done|exists cohort; by rewrite Hj| |destruct sync; rewrite <- Hj; [done|rewrite length_app; lia]|done|done|by split; [|left]].
    destruct sync; [rewrite <- Hj, length_app|]; lia.
  - unfold journal_from, journal_whole, journal_bytes in *. cbn [lf_journal default from_option id].
    split_and!; [done| |by eexists|done|rewrite length_app; lia|done|done|done].
    exists (drop n cohort). rewrite <- app_assoc, take_drop. done.
Qed.

Lemma kept_all rs : Forall entry_typed rs -> kept (journal_of rs) rs = rs.
Proof.
  intros H. unfold kept, journal_of. rewrite length_app, journal_header_length, encode_records_length by done.
  rewrite Nat.add_comm, Nat.add_sub. unfold whole. rewrite Nat.div_mul by (unfold JOURNAL_RECORD_LEN; lia). apply firstn_all.
Qed.
Lemma load_whole f rs : journal_whole f rs -> load f = apply_entries rs (load_write_dedup_checkpoint f).
Proof.
  intros Hw. rewrite (proj1 (load_spec f rs (whole_from _ _ Hw))). destruct Hw as [Ht [-> |[-> ->]]]; [by rewrite kept_all|].
  unfold kept. by rewrite take_nil.
Qed.

Lemma apply_entries_typed es t : Forall entry_typed es -> table_typed t -> table_typed (apply_entries es t).
Proof.
  intros Hes. revert t. induction Hes as [|[k r] es He Hes IH]; intros t Ht; [done|]. cbn [apply_entries fold_left fst snd].
  apply IH. by apply map_Forall_insert_2.
Qed.

(** Appending keeps the marker good. *)
Lemma dirty_grows mv f f' rs : dirty_ok mv f -> journal_from f' rs -> journal_bytes f `prefix_of` journal_bytes f' ->
  (lf_synced f <= lf_synced f')%nat -> lf_session f' = lf_session f ->
  dom (load_write_dedup_checkpoint f) ⊆ dom (load_write_dedup_checkpoint f') -> dirty_ok mv f'.
Proof.
  intros (s & Hs & He & Hle & Hc) Hj Hp Hsy Hse Hcp. exists s. split_and!; [done|by rewrite Hse|done|].
  eapply covered_mono; [|exact Hc]. by eapply stable_mono.
Qed.
Lemma covered_old mv s t : covered (all_ops mv) t -> covered (old_ops mv s) t.
Proof.
  intros Hc e Hin. apply Hc. unfold old_ops, all_ops, ops_of in *.
  apply list_elem_of_In, in_concat in Hin as (x & Hx & Hin). apply list_elem_of_In, in_concat. exists x. split; [|done].
  apply in_map_iff in Hx as (sg & <- & Hsg). apply filter_In in Hsg as [Hsg _]. apply in_map_iff. by exists sg.
Qed.
Lemma dirty_covered mv f s : in_u64 s -> lf_session f = Some (dirty_since_marker s) ->
  s <= current_active_floor_seq mv -> covered (all_ops mv) (load (stable f)) -> dirty_ok mv f.
Proof.
  intros Hs He Hle Hc. exists s. split_and!; [done..|]. by apply covered_old.
Qed.

(** ** Replacing the checkpoint and the journal *)

Lemma save_spec mv f t r ok f1 : files_ok f -> dirty_ok mv f -> table_typed t -> Z.of_nat (size t) <= U32_MAX ->
  dom (load_write_dedup_checkpoint f) ⊆ dom t ->
  save_write_dedup f t r = (ok, f1) ->
  files_ok f1 /\ dirty_ok mv f1 /\ dom (load_write_dedup_checkpoint f1) ⊆ dom t.
Proof.
  intros Hf Hd Ht Hsz Hsub. pose proof Hf as [[rs Hj] Hsy Hcp]. unfold save_write_dedup. intros [= _ <-].
  destruct (replaced_new r); [|by split_and!].
  assert (Hc : load_write_dedup_checkpoint (with_checkpoint f (encode_table t)) = t).
  { unfold load_write_dedup_checkpoint. cbn [with_checkpoint lf_checkpoint mbind option_bind]. by rewrite table_roundtrip. }
  split_and!; [split; [by exists rs|done|by rewrite Hc]| |by rewrite Hc].
  apply (dirty_grows mv f _ rs); [done|done|done|done|done|by rewrite Hc].
Qed.

Lemma rewrite_spec mv f t r ok f1 : files_ok f -> dirty_ok mv f -> table_typed t ->
  covered (all_ops mv) t -> dom (load_write_dedup_checkpoint f) ⊆ dom t ->
  rewrite_write_dedup_journal iteration f t r = (ok, f1) ->
  files_ok f1 /\ dirty_ok mv f1 /\ dom (load_write_dedup_checkpoint f1) ⊆ dom t
  /\ (ok = true -> (exists rs, journal_whole f1 rs) /\ dom t ⊆ dom (load f1)).
Proof.
  intros Hf Hd Ht Hc Hsub. unfold rewrite_write_dedup_journal. intros [= <- <-].
  destruct r; cbn [replaced_new replaced_ok]; [|by split_and!|].
  all: set (f1 := with_journal _ _ _).
  all: assert (Hes : Forall entry_typed (iteration t))
    by (rewrite iteration_perm; apply Forall_forall; intros [k r] Hin; apply elem_of_map_to_list in Hin; by apply (Ht k r)).
  all: assert (Hw : journal_whole f1 (iteration t)) by (split; [done|by left]).
  all: assert (Hl : dom t ⊆ dom (load f1)).
  all: try (rewrite (load_whole f1 _ Hw); intros k Hk; apply apply_entries_dom; right; rewrite iteration_perm;
    apply elem_of_dom in Hk as [r Hr]; apply list_elem_of_fmap; exists (k, r); split; [done|by apply elem_of_map_to_list]).
  all: assert (Hst : dom (load f1) ⊆ dom (load (stable f1))) by (eapply synced_stable; [by apply whole_from|done]).
  all: destruct Hf as [_ _ Hcp], Hd as (s & Hs & He & Hle & _).
  all: split_and!; [split; [by exists (iteration t); apply whole_from|done|done]| |done|]; try done.
  all: try (by intros _; split; [exists (iteration t)|]).
  all: apply (dirty_covered mv f1 s); [done..|]; eapply covered_mono; [|exact Hc]; by etrans.
Qed.

(** ** Reconciliation *)

Lemma reconcile_spec mv x l r l' : media_fits mv -> proc_inv mv l -> Z.of_nat (size (lg_table l')) <= U32_MAX ->
  reconcile_write_dedup_from_media iteration store limits mv x l = (r, l') ->
  (r <> None -> lg_complete l = false) ->
  proc_inv mv l' /\ (r = None -> ready mv l').
Proof.
  intros [Hfit _] [Hf Hse Hty Hcp Hco [Hfl Hold]] Hsz. unfold reconcile_write_dedup_from_media.
  destruct (reconcile_segments _ _ _ _ _ _ _) as [[e t] rec] eqn:E.
  apply reconcile_segments_spec in E as (new & -> & -> & Hn & Hcov); [|done]. cbn [app].
  pose proof (apply_entries_grows new (lg_table l)) as Hgrow.
  pose proof (apply_entries_typed new _ Hn Hty) as Hty'.
  destruct e as [e|].
  { intros [= <- <-] Hr. specialize (Hr ltac:(done)). split; [|done].
    split; cbn; [done|done|done|by etrans|by rewrite Hr|]. split; [done|by apply (covered_mono _ (lg_table l))]. }
  assert (Hall : covered (all_ops mv) (apply_entries new (lg_table l))).
  { intros o Ho. apply (ops_split (lg_floor l)) in Ho as [Ho|Ho]; [apply Hgrow, Hold; by apply skipped_old|by apply Hcov]. }
  destruct (lg_complete l) eqn:Hcl.
  - destruct (append_write_dedup_batch _ _ _) as [ok f1] eqn:Ea. intros [= <- <-] Hr.
    destruct ok; [|by specialize (Hr ltac:(done))]. destruct (Hco eq_refl) as [[rs Hw] Hsub].
    apply (append_spec _ rs) in Ea as (Hj & Hp & Hs1 & Hs2 & Hse' & Hcp' & Hok); [|done|done|by destruct Hf].
    specialize (Hok eq_refl). destruct Hf as [_ _ Hcpt]. split; [|by split].
    split; cbn; [split; [by eexists|done|by rewrite Hcp']| |done|by rewrite Hcp'; etrans| |].
    + eapply dirty_grows; [exact Hse|exact Hj|done..|by rewrite Hcp'].
    + intros _. split; [by eexists|]. rewrite (load_whole _ _ Hok), apply_entries_app, Hcp', <- (load_whole _ _ Hw).
      intros k Hk. apply apply_entries_dom in Hk as [Hk|Hk]; apply apply_entries_dom; [left; by apply Hsub|by right].
    + split; [done|by apply (covered_mono _ (lg_table l))].
  - destruct (save_write_dedup _ _ _) as [ok1 f1] eqn:Es.
    assert (Hcp1 : dom (load_write_dedup_checkpoint (lg_files l)) ⊆ dom (apply_entries new (lg_table l))) by by etrans.
    destruct ok1.
    + destruct (rewrite_write_dedup_journal _ _ _ _) as [ok2 f2] eqn:Er. intros [= <- <-] _. cbn [lg_table] in Hsz.
      apply (save_spec mv) in Es as (Hf1 & Hd1 & Hc1); [|done..].
      apply (rewrite_spec mv) in Er as (Hf2 & Hd2 & Hc2 & Hok); [|done..]. split; [|by destruct ok2; [intros _; split|]].
      split; cbn; [done|done|done|done| |split; [done|by apply (covered_mono _ (lg_table l))]]. destruct ok2; [by intros _; apply Hok|done].
    + intros [= <- <-] _. cbn [lg_table] in Hsz. apply (save_spec mv) in Es as (Hf1 & Hd1 & Hc1); [|done..]. split; [|done].
      split; cbn; [done|done|done|done|done|split; [done|by apply (covered_mono _ (lg_table l))]].
Qed.

Lemma checkpoint_spec mv x l r l' : media_fits mv -> proc_inv mv l -> ready mv l ->
  checkpoint_write_dedup_recovery_floor mv x l = (r, l') ->
  proc_inv mv l' /\ ready mv l' /\ lg_table l' = lg_table l /\ lg_recovery_required l' = lg_recovery_required l.
Proof.
  intros (_ & _ & Hcaf) Hp [Hcl Hall]. pose proof Hp as [[[rs0 Hj] Hsy Hcpt] Hse Hty Hcp Hco [Hfl Hold]].
  destruct (Hco Hcl) as [[rs Hw] Hsub].
  unfold checkpoint_write_dedup_recovery_floor, sync_write_dedup_journal.
  destruct (f_sync x); cbn [negb].
  2:{ intros [= <- <-]. split_and!; [|by split|done|done]. by split; cbn; [split; [by eexists|..]|..|split]. }
  set (f1 := with_journal (lg_files l) _ _).
  assert (Hst : dom (load f1) ⊆ dom (load (stable f1))) by by eapply (synced_stable f1 rs); [apply whole_from|].
  assert (Hc1 : covered (all_ops mv) (load (stable f1))).
  { eapply covered_mono; [|exact Hall]. by etrans. }
  destruct Hse as (s & Hs & He & Hle & _). unfold mark_write_dedup_session_dirty_since.
  assert (Hfiles : forall y, files_ok (if y : bool then with_session f1 (dirty_since_marker (current_active_floor_seq mv)) else f1)
    /\ dirty_ok mv (if y then with_session f1 (dirty_since_marker (current_active_floor_seq mv)) else f1)).
  { intros [|]; (split; [split; [by exists rs0|done|done]|]).
    - by apply (dirty_covered mv _ (current_active_floor_seq mv)).
    - by apply (dirty_covered mv _ s). }
  destruct (f_mark x); cbn [replaced_ok replaced_new negb].
  - destruct (Hfiles true) as [H1 H2]. intros [= <- <-]. split_and!; [|by split|done|done].
    split; cbn; [done|done|done|done|by intros _; split; [exists rs|]|]. split; [done|by apply covered_old].
  - destruct (Hfiles false) as [H1 H2]. intros [= <- <-]. split_and!; [|by split|done|done].
    split; cbn; [done|done|done|done|by intros _; split; [exists rs|]|]. by split.
  - destruct (Hfiles true) as [H1 H2]. intros [= <- <-]. split_and!; [|by split|done|done].
    split; cbn; [done|done|done|done|by intros _; split; [exists rs|]|]. by split.
Qed.

(** A process whose reconciliation failed over a whole journal must restart. *)
Definition must_restart mv x l : bool :=
  lg_recovery_required l && lg_complete l
  && match fst (reconcile_write_dedup_from_media iteration store limits mv x l) with Some _ => true | None => false end.

Lemma proc_inv_required mv l b : proc_inv mv l ->
  proc_inv mv {| lg_table := lg_table l; lg_recovery_required := b; lg_floor := lg_floor l;
                 lg_complete := lg_complete l; lg_files := lg_files l |}.
Proof. by intros [? ? ? ? ? ?]. Qed.

Lemma ensure_spec mv x l r l' : media_fits mv -> proc_inv mv l ->
  (lg_recovery_required l = false -> ready mv l) -> must_restart mv x l = false ->
  Z.of_nat (size (lg_table l')) <= U32_MAX ->
  ensure_write_dedup_reconciled iteration store limits mv x l = (r, l') ->
  proc_inv mv l' /\ (lg_recovery_required l' = false -> ready mv l')
  /\ (r = None -> lg_recovery_required l' = false).
Proof.
  intros Hm Hp Hr Hmr Hsz. unfold ensure_write_dedup_reconciled, must_restart in *.
  destruct (lg_recovery_required l) eqn:Hrq; [|by intros [= <- <-]; split_and!; [|intros _; apply Hr|]].
  destruct (reconcile_write_dedup_from_media iteration store limits mv x l) as [e l1] eqn:E. cbn [fst andb] in Hmr.
  assert (Hrq1 : lg_recovery_required l1 = true).
  { revert E. unfold reconcile_write_dedup_from_media. destruct (reconcile_segments _ _ _ _ _ _ _) as [[[?|] ?] ?].
    - by intros [= _ <-].
    - destruct (if lg_complete l then _ else _) as [? ?]. by intros [= _ <-]. }
  assert (Hc : e <> None -> lg_complete l = false) by (intros He; destruct e; [by destruct (lg_complete l)|done]).
  destruct e as [e|].
  - intros [= <- <-]. destruct (reconcile_spec mv x l (Some e) l1 Hm Hp Hsz E Hc) as [Hp1 _].
    split; [done|]. split; [by rewrite Hrq1|done].
  - intros Hk. set (l2 := {| lg_table := lg_table l1; lg_recovery_required := false |}) in Hk.
    assert (Hsz1 : lg_table l' = lg_table l1).
    { revert Hk. unfold checkpoint_write_dedup_recovery_floor, sync_write_dedup_journal, mark_write_dedup_session_dirty_since.
      destruct (f_sync x); cbn [negb]; [|by intros [= _ <-]]. destruct (f_mark x); cbn [replaced_ok negb]; by intros [= _ <-]. }
    rewrite Hsz1 in Hsz. destruct (reconcile_spec mv x l None l1 Hm Hp Hsz E Hc) as [Hp1 Hrd].
    specialize (Hrd eq_refl). apply (checkpoint_spec mv x l2) in Hk as (Hp2 & Hr2 & _ & Hf2);
      [|done|by apply (proc_inv_required mv l1)|exact Hrd].
    split; [done|]. split; [done|]. intros _. exact Hf2.
Qed.

(** ** Media *)

(** Media change: segments below the active ones gain no operation. *)
Definition media_ok mv mv' : Prop := media_fits mv' /\ current_active_floor_seq mv <= current_active_floor_seq mv'
  /\ forall s, s <= current_active_floor_seq mv -> forall e, e ∈ old_ops mv' s -> fst e ∈ map fst (old_ops mv s).

Lemma covered_media mv mv' s t : media_ok mv mv' -> s <= current_active_floor_seq mv ->
  covered (old_ops mv s) t -> covered (old_ops mv' s) t.
Proof.
  intros (_ & _ & Hm) Hs Hc e He. specialize (Hm s Hs e He).
  apply list_elem_of_fmap in Hm as (e' & -> & He'). by apply Hc.
Qed.
Lemma dirty_media mv mv' f : media_ok mv mv' -> dirty_ok mv f -> dirty_ok mv' f.
Proof.
  intros Hm (s & Hs & He & Hle & Hc). exists s. split_and!; [done|done|destruct Hm; lia|]. by eapply covered_media.
Qed.
Lemma proc_media mv mv' l : media_ok mv mv' -> proc_inv mv l -> proc_inv mv' l.
Proof.
  intros Hm [H1 H2 H3 H4 H5 [H6 H7]]. split; [done|by eapply dirty_media|done|done|done|].
  split; [destruct Hm; lia|by eapply covered_media].
Qed.

(** ** Recording *)

Lemma record_spec mv x op hash receipt l r l' : media_fits mv -> proc_inv mv l -> lg_complete l = true ->
  lg_recovery_required l = false -> entry_typed (op, record_of hash receipt) ->
  covered (all_ops mv) (<[op := record_of hash receipt]> (lg_table l)) ->
  record_write_dedup mv x op hash receipt l = (r, l') ->
  proc_inv mv l' /\ (lg_recovery_required l' = false -> ready mv l').
Proof.
  intros Hm Hp Hcl Hrq Hty Hall. pose proof Hp as [Hf Hse Htt Hcp Hco [Hfl Hold]]. destruct (Hco Hcl) as [[rs Hw] Hsub].
  unfold record_write_dedup, append_write_dedup, append_write_dedup_batch.
  destruct (append_write_dedup_batch_inner _ _ _ _) as [ok f1] eqn:Ea.
  apply (append_spec _ rs) in Ea as (Hj & Hpr & Hs1 & Hs2 & Hse' & Hcp' & Hok); [|done|by apply Forall_singleton|by destruct Hf].
  assert (Hf1 : files_ok f1) by (destruct Hf; split; [by eexists|done|by rewrite Hcp']).
  assert (Hd1 : dirty_ok mv f1) by (eapply dirty_grows; [exact Hse|exact Hj|done..|by rewrite Hcp']).
  assert (Hgrow : dom (lg_table l) ⊆ dom (<[op := record_of hash receipt]> (lg_table l))) by (rewrite dom_insert; set_solver).
  destruct ok.
  - specialize (Hok eq_refl). set (l1 := {| lg_table := _; lg_files := f1 |}).
    assert (Hp1 : proc_inv mv l1).
    { split; cbn; [done|done|by apply map_Forall_insert_2|by rewrite Hcp'; etrans| |].
      - intros _. split; [by eexists|]. rewrite (load_whole _ _ Hok), apply_entries_app, Hcp', <- (load_whole _ _ Hw).
        intros k Hk. apply apply_entries_dom. rewrite dom_insert in Hk. cbn. set_solver.
      - split; [done|by apply (covered_mono _ (lg_table l))]. }
    assert (Hr1 : ready mv l1) by by split. destruct (_ <? _).
    + intros Hk. apply checkpoint_spec in Hk as (H1 & H2 & _ & _); [|done..]. by split.
    + by intros [= <- <-].
  - intros [= <- <-]. split; [|done]. split; cbn; [done|done|done|by rewrite Hcp'|done|by split].
Qed.

(** ** Opening, closing and crashing *)

Lemma old_ops_zero mv : media_fits mv -> old_ops mv 0 = [].
Proof.
  intros (_ & Hn & _). unfold old_ops. induction Hn as [|[[s|] b] segs Hs _ IH]; [done| |exact IH].
  cbn [List.filter fst named_below]. rewrite (proj2 (Z.ltb_ge _ _)) by done. exact IH.
Qed.

Lemma load_typed f rs : journal_from f rs -> table_typed (load_write_dedup_checkpoint f) -> table_typed (load f).
Proof.
  intros Hj Hc. rewrite (proj1 (load_spec f rs Hj)). apply apply_entries_typed; [|done].
  destruct Hj as [Ht _]. by apply Forall_take.
Qed.

(** The floor an opening starts from, and what it may skip. *)
Lemma open_floor mv f : media_fits mv -> files_ok f -> session_ok mv f ->
  let complete := snd (load_write_dedup_checked f) in
  let session := load_write_dedup_session (lf_session f) (journal_len f) in
  let floor := match session with
               | DirtySince s => if complete then s else 0
               | Clean => if complete then current_active_floor_seq mv else 0
               | DirtyLegacy => 0 end in
  in_u64 floor /\ floor <= current_active_floor_seq mv /\ covered (old_ops mv floor) (load (stable f))
  /\ (session = Clean -> complete = true -> covered (all_ops mv) (load f)).
Proof.
  intros Hm [[rs Hj] Hsy Hcp] Hs. pose proof Hm as (_ & _ & Hcaf). cbn zeta.
  assert (Hz : in_u64 0 /\ 0 <= current_active_floor_seq mv /\ covered (old_ops mv 0) (load (stable f))).
  { rewrite old_ops_zero by done. split_and!; [done|unfold in_u64 in Hcaf; lia|]. by intros e ?%elem_of_nil. }
  destruct Hz as (Hz1 & Hz2 & Hz3). destruct Hs as [-> |[(s & Hs & -> & Hle & Hc)|[(-> & Hlen & Hc) Hsync]]].
  - cbn [load_write_dedup_session]. by split_and!.
  - rewrite dirty_since_session by done. destruct (snd _); [|by split_and!]. by split_and!.
  - rewrite clean_session, Z.eqb_refl by done.
    assert (Hall : covered (all_ops mv) (load f)) by (eapply covered_mono; [by apply (stable_load f rs)|done]).
    destruct (snd _); [|by split_and!]. split_and!; [done|done|by apply covered_old|done].
Qed.

Lemma ledger_open_spec mv mark f ok l : media_fits mv -> files_ok f -> session_ok mv f ->
  open_ledger mv mark f = (ok, l) ->
  files_ok (lg_files l) /\ session_ok mv (lg_files l)
  /\ (ok = true -> proc_inv mv l /\ (lg_recovery_required l = false -> ready mv l)).
Proof.
  intros Hm Hf Hs. destruct (open_floor mv f Hm Hf Hs) as (Hu & Hle & Hc & Hcl). cbn zeta in *.
  unfold open_ledger. destruct (load_write_dedup_checked f) as [t complete] eqn:El.
  assert (Ht : load f = t) by (unfold load; by rewrite El). cbn [snd] in *.
  set (session := load_write_dedup_session _ _) in *. 
  set (floor := match session with Clean => if complete then current_active_floor_seq mv else 0
    | DirtyLegacy => 0 | DirtySince s => if complete then s else 0 end) in *.
  pose proof Hf as [[rs Hj] Hsy Hcp]. unfold mark_write_dedup_session_dirty_since.
  set (f' := with_session f (dirty_since_marker floor)).
  assert (Hf' : files_ok f') by (split; [by exists rs|done|done]).
  assert (Hd' : dirty_ok mv f') by by exists floor.
  assert (Hp : proc_inv mv {| lg_table := t; lg_floor := floor; lg_complete := complete; lg_files := f';
      lg_recovery_required := match session with Clean => negb complete | _ => true end |}).
  { split; cbn; [done|done| | | |].
    - rewrite <- Ht. by apply (load_typed f rs).
    - rewrite <- Ht. rewrite (proj1 (load_spec f rs Hj)). apply apply_entries_grows.
    - intros ->. split; [|by rewrite <- Ht]. destruct (load_spec f rs Hj) as [_ Hw]. rewrite El in Hw.
      eexists. by apply Hw.
    - split; [done|]. eapply covered_mono; [|exact Hc]. rewrite <- Ht. by apply (stable_load f rs). }
  destruct mark; cbn [replaced_ok replaced_new]; intros [= <- <-]; cbn [lg_files];
    [|by split_and!|by split_and!; [|right; left|]].
  split_and!; [done|right; by left|]. intros _. split; [done|]. cbn. destruct session; try done.
  intros Hn%negb_false_iff. split; [done|]. cbn. rewrite <- Ht. by apply Hcl.
Qed.

(** Once nothing is left to reconcile, a writer that is not poisoned is ready. *)
Definition settled_ok mv (p : Process) : Prop :=
  (lg_recovery_required (p_ledger p) = false -> awo_writer_poisoned p = false -> ready mv (p_ledger p))
  /\ (awo_writer_poisoned p = true -> lg_recovery_required (p_ledger p) = false).

Lemma close_spec mv x p ok l' : proc_inv mv (p_ledger p) -> settled_ok mv p ->
  in_u64 (journal_len (lg_files (p_ledger p))) -> close_ledger x p = (ok, l') ->
  files_ok (lg_files l') /\ session_ok mv (lg_files l').
Proof.
  destruct p as [l poisoned]. unfold settled_ok. cbn [p_ledger awo_writer_poisoned]. intros Hp [Hr _] Hlen. pose proof Hp as [[[rs Hj] Hsy Hcp] Hse _ _ Hco _]. unfold close_ledger, sync_write_dedup_journal.
  assert (Hsame : files_ok (lg_files l) /\ session_ok mv (lg_files l)) by (split; [by destruct Hp|right; by left]).
  cbn [p_ledger awo_writer_poisoned]. destruct poisoned; [by intros [= <- <-]|].
  destruct (lg_recovery_required l); [by intros [= <- <-]|]. destruct (f_sync x); [|by intros [= <- <-]].
  destruct (Hr eq_refl eq_refl) as [Hcl Hall]. destruct (Hco Hcl) as [[rs' Hw] Hsub].
  set (f1 := with_journal (lg_files l) _ _). unfold mark_write_dedup_session_clean.
  assert (Hst : dom (load f1) ⊆ dom (load (stable f1))) by by eapply (synced_stable f1 rs'); [apply whole_from|].
  assert (Hc1 : covered (all_ops mv) (load (stable f1))).
  { eapply covered_mono; [|exact Hall]. by etrans. }
  assert (Hf1 : files_ok f1) by (split; [by exists rs|done|done]).
  intros [= <- <-]. destruct (replaced_new (f_mark x)); cbn [lg_files set_files].
  - split; [split; [by exists rs|done|done]|]. right. right. by split.
  - split; [done|]. right. left. destruct Hse as (s & Hs & He & Hle & _). by apply (dirty_covered mv f1 s).
Qed.

Lemma crash_spec mv f k : files_ok f -> session_ok mv f -> (lf_synced f <= k)%nat ->
  files_ok (cut k f) /\ session_ok mv (cut k f).
Proof.
  intros [[rs Hj] Hsy Hcp] Hs Hk.
  assert (Hdom : dom (load (stable f)) ⊆ dom (load (stable (cut k f)))).
  { apply (load_mono _ _ rs); [by do 2 apply cut_from| |done]. unfold stable at 2. rewrite cut_bytes. cbn [lf_synced cut with_journal].
    rewrite cut_bytes, firstn_all. unfold stable. rewrite cut_bytes.
    apply prefix_take_of; [apply prefix_take|rewrite length_take; lia]. }
  split; [split; [by exists rs; apply cut_from|by rewrite cut_bytes|done]|].
  destruct Hs as [Hs|[(s & Hs & He & Hle & Hc)|[(He & Hlen & Hc) Hsync]]]; [by left|right; left|right; right].
  - exists s. split_and!; [done..|]. by eapply covered_mono.
  - assert (Hb : journal_bytes (cut k f) = journal_bytes f) by (rewrite cut_bytes; apply take_ge; lia).
    assert (Hl : journal_len (cut k f) = journal_len f) by (unfold journal_len; by rewrite Hb).
    split; [split_and!; [by rewrite Hl|by rewrite Hl|by eapply covered_mono]|].
    cbn [lf_synced cut with_journal]. by rewrite cut_bytes.
Qed.

Lemma session_media mv mv' f : media_ok mv mv' -> (forall e, e ∈ all_ops mv' -> fst e ∈ map fst (all_ops mv)) ->
  session_ok mv f -> session_ok mv' f.
Proof.
  intros Hm Ha [Hs|[Hd|[(He & Hlen & Hc) Hsync]]]; [by left|right; left; by eapply dirty_media|right; right].
  split; [|done]. split_and!; [done|done|]. intros e Hin. specialize (Ha e Hin).
  apply list_elem_of_fmap in Ha as (e' & -> & He'). by apply Hc.
Qed.

(** ** The machine *)

(** The media, the files of the ledger, the open store, and whether a
    reconciliation of that store has failed over an intact journal. *)
Record World := { w_mv : MediaView; w_files : LedgerFiles; w_proc : option Process; w_failed : bool }.

(** What the append of an event may do: it adds an event of the operation to an
    active segment; a write in memory mode, or one that fails, may add none. *)
Definition appended mv (op : list byte) mv' : Prop :=
  media_ok mv mv' /\ (all_ops mv' ≡ₚ all_ops mv \/ exists rec, all_ops mv' ≡ₚ (op, rec) :: all_ops mv).
Definition put_ok mv (op hash : list byte) (put : MediaView -> PutOutcome) : Prop :=
  match put mv with
  | PutDone receipt mv' => appended mv op mv' /\ entry_typed (op, record_of hash receipt)
  | PutRefusal _ => True
  | PutFailed _ mv' => appended mv op mv'
  end.

Inductive Event : Type := EOpen | EPut (op : list byte) | EMedia | EClose | EStop | ECrash.

Inductive once_step : World -> Event -> World -> Prop :=
| once_open w mark ok l : w_proc w = None -> open_ledger (w_mv w) mark (w_files w) = (ok, l) ->
    once_step w EOpen {| w_mv := w_mv w; w_files := lg_files l; w_failed := false;
      w_proc := if ok then Some {| p_ledger := l; awo_writer_poisoned := false |} else None |}
| once_put w p put op hash x r mv' p' : w_proc w = Some p -> put_ok (w_mv w) op hash put ->
    put_subject_bytes_with_operation iteration store limits put op hash x (w_mv w) p = (r, mv', p') ->
    Z.of_nat (size (lg_table (p_ledger p'))) <= U32_MAX ->
    once_step w (EPut op) {| w_mv := mv'; w_files := lg_files (p_ledger p'); w_proc := Some p';
      w_failed := w_failed w || must_restart (w_mv w) x (p_ledger p) |}
| once_media w mv' : media_ok (w_mv w) mv' -> map fst (all_ops mv') ⊆+ map fst (all_ops (w_mv w)) ->
    once_step w EMedia {| w_mv := mv'; w_files := w_files w; w_proc := w_proc w; w_failed := w_failed w |}
| once_close w p x ok l' : w_proc w = Some p -> in_u64 (journal_len (lg_files (p_ledger p))) ->
    close_ledger x p = (ok, l') ->
    once_step w EClose {| w_mv := w_mv w; w_files := lg_files l'; w_proc := None; w_failed := false |}
| once_stop w :
    once_step w EStop {| w_mv := w_mv w; w_files := w_files w; w_proc := None; w_failed := false |}
| once_crash w k : (lf_synced (w_files w) <= k)%nat ->
    once_step w ECrash {| w_mv := w_mv w; w_files := cut k (w_files w); w_proc := None; w_failed := false |}.

(** A step that is not a put by a store whose reconciliation has failed: such a
    store is closed, stopped or crashes before the next operation. *)
Definition careful_step (w w' : World) : Prop :=
  exists e, once_step w e w' /\ match e with EPut _ => w_failed w = false | _ => True end.

Record once_inv (w : World) : Prop := {
  oi_media : media_fits (w_mv w);
  oi_once : NoDup (map fst (all_ops (w_mv w)));
  oi_files : files_ok (w_files w);
  oi_session : session_ok (w_mv w) (w_files w);
  oi_proc p : w_proc w = Some p -> w_failed w = false ->
    w_files w = lg_files (p_ledger p) /\ proc_inv (w_mv w) (p_ledger p) /\ settled_ok (w_mv w) p;
  oi_failed p : w_proc w = Some p -> w_failed w = true ->
    w_files w = lg_files (p_ledger p) /\ lg_recovery_required (p_ledger p) = true }.

Lemma proc_files mv l : proc_inv mv l -> files_ok (lg_files l) /\ session_ok mv (lg_files l).
Proof. intros Hp. split; [by destruct Hp|]. right. left. by destruct Hp. Qed.

(** A reconciliation that fails leaves the files good. *)
Lemma restart_files mv x l : media_fits mv -> proc_inv mv l -> must_restart mv x l = true ->
  exists e l', ensure_write_dedup_reconciled iteration store limits mv x l = (Some e, l')
  /\ files_ok (lg_files l') /\ dirty_ok mv (lg_files l') /\ lg_recovery_required l' = true.
Proof.
  intros [Hfit _] [Hf Hse Hty Hcp Hco _]. unfold must_restart, ensure_write_dedup_reconciled.
  destruct (lg_recovery_required l) eqn:Hrq; [|done]. destruct (lg_complete l) eqn:Hcl; [|done]. cbn [andb].
  destruct (reconcile_write_dedup_from_media _ _ _ _ _ _) as [[e|] l1] eqn:E; [|done]. intros _.
  exists e, l1. split; [done|]. revert E. unfold reconcile_write_dedup_from_media.
  destruct (reconcile_segments _ _ _ _ _ _ _) as [[e' t] rec] eqn:Es.
  apply reconcile_segments_spec in Es as (new & -> & -> & Hn & _); [|done]. cbn [app].
  destruct e' as [e'|]; [by intros [= <- <-]|]. rewrite Hcl.
  destruct (append_write_dedup_batch _ _ _) as [ok f1] eqn:Ea. intros [= _ <-]. cbn [lg_files].
  destruct (Hco eq_refl) as [[rs Hw] _].
  destruct Hf as [_ Hsy Hcpt].
  destruct (append_spec _ rs _ _ _ _ _ Hw Hn Hsy Ea) as (Hj & Hp & Hs1 & Hs2 & Hse' & Hcp' & _).
  split; [split; [by eexists|done|by rewrite Hcp']|]. split; [|done].
  eapply dirty_grows; [exact Hse|exact Hj|done..|by rewrite Hcp'].
Qed.

Lemma checkpoint_table mv x l : lg_table (snd (checkpoint_write_dedup_recovery_floor mv x l)) = lg_table l.
Proof.
  unfold checkpoint_write_dedup_recovery_floor, sync_write_dedup_journal, mark_write_dedup_session_dirty_since.
  destruct (f_sync x); cbn [negb]; [|done]. by destruct (f_mark x).
Qed.

(** The table only grows, so intermediate sizes are bounded by the last. *)
Lemma record_grows mv x op hash receipt l :
  dom (lg_table l) ⊆ dom (lg_table (snd (record_write_dedup mv x op hash receipt l))).
Proof.
  unfold record_write_dedup. destruct (append_write_dedup _ _ _ _) as [[|] f1]; [|done].
  destruct (_ <? _); rewrite ?checkpoint_table; cbn [snd lg_table]; rewrite dom_insert; set_solver.
Qed.
Lemma put_sizes put op hash x mv p r mv' p' :
  put_subject_bytes_with_operation iteration store limits put op hash x mv p = (r, mv', p') ->
  dom (lg_table (snd (ensure_write_dedup_reconciled iteration store limits mv x (p_ledger p))))
    ⊆ dom (lg_table (p_ledger p')).
Proof.
  unfold put_subject_bytes_with_operation. destruct (ensure_write_dedup_reconciled _ _ _ _ _ _) as [[e|] l1]; cbn [snd].
  { by intros [= _ _ <-]. }
  destruct (resolve_write_dedup _ _ _) as [[receipt|]|e]; [by intros [= _ _ <-]| |by intros [= _ _ <-]].
  destruct (put_with_identity _ _ _) as [[[receipt|e] mv1] b]; [|by intros [= _ _ <-]].
  pose proof (record_grows mv1 x op hash receipt l1) as Hg.
  destruct (record_write_dedup _ _ _ _ _ _) as [o l2]. by intros [= _ _ <-].
Qed.

Lemma size_le t t' : dom t ⊆ dom t' -> Z.of_nat (size t) <= Z.of_nat (size t').
Proof. intros H. rewrite <- !size_dom. apply inj_le. by apply subseteq_size. Qed.

(** An append by a writer that is ready leaves no second event. *)
Lemma appended_once mv op mv' t : appended mv op mv' -> covered (all_ops mv) t -> t !! op = None ->
  NoDup (map fst (all_ops mv)) ->
  NoDup (map fst (all_ops mv')) /\ forall r, covered (all_ops mv') (<[op := r]> t).
Proof.
  intros [_ Ha] Hc Hop Hnd. assert (Hfresh : op ∉ map fst (all_ops mv)).
  { intros (e & -> & He)%list_elem_of_fmap. apply Hc, elem_of_dom in He as [? He]. congruence. }
  split.
  - destruct Ha as [Hp|[rec Hp]]; rewrite (Permutation_map fst Hp); [done|]. by apply NoDup_cons.
  - intros r e He. rewrite dom_insert. destruct Ha as [Hp|[rec Hp]]; rewrite Hp in He.
    + apply Hc in He. set_solver.
    + apply elem_of_cons in He as [-> |He]; [cbn; set_solver|]. apply Hc in He. set_solver.
Qed.

(** What a put leaves. *)
Definition after_put mv' (p' : Process) : Prop :=
  media_fits mv' /\ NoDup (map fst (all_ops mv')) /\ proc_inv mv' (p_ledger p') /\ settled_ok mv' p'.

Lemma put_step_inv mv p put op hash x r mv' p' :
  media_fits mv -> NoDup (map fst (all_ops mv)) -> proc_inv mv (p_ledger p) -> settled_ok mv p ->
  must_restart mv x (p_ledger p) = false -> put_ok mv op hash put ->
  Z.of_nat (size (lg_table (p_ledger p'))) <= U32_MAX ->
  put_subject_bytes_with_operation iteration store limits put op hash x mv p = (r, mv', p') -> after_put mv' p'.
Proof.
  destruct p as [l poisoned]. intros Hm Hnd Hp Hr Hmr Hput Hsz E.
  pose proof (put_sizes _ _ _ _ _ _ _ _ _ E) as Hd. revert E Hp Hr Hmr Hd. unfold put_subject_bytes_with_operation.
  cbn [p_ledger awo_writer_poisoned]. unfold settled_ok. cbn [p_ledger awo_writer_poisoned].
  destruct (ensure_write_dedup_reconciled iteration store limits mv x l) as [e l1] eqn:Ee. cbn [snd].
  intros E Hp [Hr Hpo] Hmr Hd%size_le. destruct poisoned.
  { specialize (Hpo eq_refl). unfold ensure_write_dedup_reconciled in Ee. rewrite Hpo in Ee. injection Ee as <- <-.
    assert (Hend : after_put mv {| p_ledger := l; awo_writer_poisoned := true |})
      by (split; [done|]; split; [done|]; split; [done|]; by split).
    destruct (resolve_write_dedup _ _ _) as [[?|]|?]; cbn [put_with_identity] in E; by injection E as _ <- <-. }
  destruct (ensure_spec mv x l e l1 Hm Hp ltac:(auto) Hmr ltac:(lia) Ee) as (Hp1 & Hr1 & Hrq).
  assert (Hsame : after_put mv {| p_ledger := l1; awo_writer_poisoned := false |})
    by (split; [done|]; split; [done|]; split; [done|]; split; [by intros ? _; apply Hr1|done]).
  destruct e as [e|]; [by injection E as _ <- <-|]. specialize (Hrq eq_refl). destruct (Hr1 Hrq) as [Hcl Hall].
  unfold resolve_write_dedup in E. destruct (lg_table l1 !! op) as [rec|] eqn:Hop.
  { destruct (bytes_eqb _ _); by injection E as _ <- <-. }
  unfold put_with_identity, put_ok in E, Hput. destruct (put mv) as [receipt mv1|e|e mv1]; [|by injection E as _ <- <-|].
  - destruct Hput as [Hap Hty]. destruct (appended_once _ _ _ _ Hap Hall Hop Hnd) as [Hnd1 Hcov]. destruct Hap as [Hmo _].
    destruct (record_write_dedup mv1 x op hash receipt l1) as [o l2] eqn:Er. injection E as _ <- <-.
    destruct (record_spec mv1 x op hash receipt l1 o l2 (proj1 Hmo) (proc_media _ _ _ Hmo Hp1) Hcl Hrq Hty (Hcov _) Er) as [Hp3 Hr3].
    split; [by destruct Hmo|]. split; [done|]. split; [done|]. split; [by intros ? _; apply Hr3|done].
  - destruct (appended_once _ _ _ _ Hput Hall Hop Hnd) as [Hnd1 _]. destruct Hput as [Hmo _]. injection E as _ <- <-.
    split; [by destruct Hmo|]. split; [done|]. split; [by eapply proc_media|]. by split.
Qed.

(** Operations leave the media: no process loses track. *)
Lemma settled_media mv mv' p : (forall e, e ∈ all_ops mv' -> fst e ∈ map fst (all_ops mv)) ->
  settled_ok mv p -> settled_ok mv' p.
Proof.
  intros Hin [Hr Hpo]. split; [|done]. intros Hrq Hnp. destruct (Hr Hrq Hnp) as [Hcl Hall]. split; [done|].
  intros e (e' & -> & He')%Hin%list_elem_of_fmap. by apply Hall.
Qed.

Lemma once_media_inv w mv' : media_ok (w_mv w) mv' -> map fst (all_ops mv') ⊆+ map fst (all_ops (w_mv w)) ->
  once_inv w -> once_inv {| w_mv := mv'; w_files := w_files w; w_proc := w_proc w; w_failed := w_failed w |}.
Proof.
  intros Hmo Hsub [Hm Hnd Hf Hse Hpr Hfa].
  assert (Hin : forall e, e ∈ all_ops mv' -> fst e ∈ map fst (all_ops (w_mv w))).
  { intros e He. eapply elem_of_submseteq; [|exact Hsub]. apply list_elem_of_fmap. by exists e. }
  split; cbn; [by destruct Hmo| |done|by eapply session_media| |done].
  - apply submseteq_Permutation in Hsub as [k Hk]. rewrite Hk in Hnd. by apply NoDup_app in Hnd as [? _].
  - intros p Hp Hfl. destruct (Hpr p Hp Hfl) as (H1 & H2 & H3). split_and!; [done|by eapply proc_media|].
    by eapply settled_media.
Qed.

Lemma once_step_inv w w' : careful_step w w' -> once_inv w -> once_inv w'.
Proof.
  intros (ev & Hs & Hcare) Hi. pose proof Hi as [Hm Hnd Hf Hse Hpr Hfa].
  destruct Hs as [w mark ok l Hn E|w p put op hash x r mv' p' El Hput E Hsz|w mv' Hmo Hsub|w p x ok l' El Hlen E|w|w k Hk];
    cbn [w_mv w_files w_proc w_failed] in *.
  - destruct (ledger_open_spec _ _ _ _ _ Hm Hf Hse E) as (Hf' & Hs' & Hok). split; cbn; [done..| |done].
    intros p Hp _. destruct ok; [|done]. injection Hp as <-. destruct (Hok eq_refl) as [H1 H2].
    split_and!; [done|done|]. split; [by intros ? _; apply H2|done].
  - rewrite Hcare. destruct (Hpr p El Hcare) as (_ & Hp & Hr). destruct (must_restart (w_mv w) x (p_ledger p)) eqn:Hmr; cbn [orb].
    + destruct (restart_files _ _ _ Hm Hp Hmr) as (e & l1 & Ee & Hf1 & Hd1 & Hrq1).
      unfold put_subject_bytes_with_operation in E. rewrite Ee in E. injection E as _ <- <-.
      split; cbn; [done|done|done|right; by left|done|by intros ? [= <-]].
    + destruct (put_step_inv _ _ _ _ _ _ _ _ _ Hm Hnd Hp Hr Hmr Hput Hsz E) as (H1 & H2 & H3 & H4).
      destruct (proc_files _ _ H3) as [H5 H6]. split; cbn; [done..| |done]. by intros ? [= <-].
  - by apply once_media_inv.
  - destruct (w_failed w) eqn:Hfl.
    + destruct (Hfa p El eq_refl) as [Hfi Hrq]. unfold close_ledger in E. rewrite Hrq in E.
      assert (l' = p_ledger p) as -> by (by destruct (awo_writer_poisoned p); injection E).
      rewrite <- Hfi. by split.
    + destruct (Hpr p El eq_refl) as (_ & Hp & Hr). destruct (close_spec _ _ _ _ _ Hp Hr Hlen E) as [H1 H2]. by split.
  - by split.
  - destruct (crash_spec _ _ _ Hf Hse Hk) as [H1 H2]. by split.
Qed.

(** A store that has no ledger yet. *)
Definition fresh_files : LedgerFiles :=
  {| lf_checkpoint := None; lf_previous := None; lf_journal := None; lf_synced := 0; lf_session := None |}.
Definition fresh_world mv : World := {| w_mv := mv; w_files := fresh_files; w_proc := None; w_failed := false |}.

Lemma fresh_inv mv : media_fits mv -> NoDup (map fst (all_ops mv)) -> once_inv (fresh_world mv).
Proof.
  intros Hm Hnd. split; cbn; [done|done| |by left|done|done]. split; [|cbn; lia|].
  - exists []. split; [constructor|]. apply prefix_nil.
  - apply map_Forall_empty.
Qed.

Lemma ledger_reachable_inv mv w : media_fits mv -> NoDup (map fst (all_ops mv)) ->
  rtc careful_step (fresh_world mv) w -> once_inv w.
Proof.
  intros Hm Hnd. revert w. apply (rtc_ind_r _ (fresh_world mv)); [by apply fresh_inv|].
  intros w w' _ Hs Hi. by eapply once_step_inv.
Qed.

(** An operation that is on the media is not executed again. *)
Lemma retry_no_effect w p put op hash x r mv' p' : once_inv w -> w_proc w = Some p -> w_failed w = false ->
  Z.of_nat (size (lg_table (p_ledger p'))) <= U32_MAX -> op ∈ map fst (all_ops (w_mv w)) ->
  put_subject_bytes_with_operation iteration store limits put op hash x (w_mv w) p = (r, mv', p') ->
  mv' = w_mv w.
Proof.
  destruct p as [l poisoned]. intros [Hm Hnd Hf Hse Hpr _] El Hfl Hsz Hin E. destruct (Hpr _ El Hfl) as (_ & Hp & [Hr Hpo]).
  pose proof (put_sizes _ _ _ _ _ _ _ _ _ E) as Hd. revert E Hd. unfold put_subject_bytes_with_operation.
  cbn [p_ledger awo_writer_poisoned] in *. destruct poisoned.
  { destruct (ensure_write_dedup_reconciled _ _ _ _ _ _) as [[e|] l1]; [by intros [= _ <- _]|].
    destruct (resolve_write_dedup _ _ _) as [[?|]|?]; cbn [put_with_identity]; by intros [= _ <- _]. }
  destruct (must_restart (w_mv w) x l) eqn:Hmr.
  { destruct (restart_files _ _ _ Hm Hp Hmr) as (e & l1 & -> & _). by intros [= _ <- _]. }
  destruct (ensure_write_dedup_reconciled iteration store limits (w_mv w) x l) as [e l1] eqn:Ee. cbn [snd].
  intros E Hd%size_le. destruct (ensure_spec _ x l e l1 Hm Hp ltac:(auto) Hmr ltac:(lia) Ee) as (_ & Hr1 & Hrq).
  destruct e as [e|]; [by injection E as _ <- _|]. destruct (Hr1 (Hrq eq_refl)) as [_ Hall].
  apply list_elem_of_fmap in Hin as (e & -> & He). apply Hall, elem_of_dom in He as [rec He].
  revert E. unfold resolve_write_dedup. rewrite He. destruct (bytes_eqb _ _); by intros [= _ <- _].
Qed.
End Once.

(** C25. A client operation is executed at most once.  Through any sequence of
    openings, idempotent puts, media changes, closings, stops and crashes -- where
    every read, append, sync and replacement of the ledger may fail, a put may
    fail with or without its event on the media, and a crash cuts the journal
    anywhere after its synced part -- no operation id has two events on the media,
    and a put of an operation that has an event leaves the media as they are.
    This holds of the runs in which a store whose reconciliation with the media
    has failed over an intact journal executes no further operation before it is
    closed, stopped or crashes ([careful_step]), and while the ledger has at most
    2^32 - 1 records; [failed_reconciliation_forgets] shows that the code, which
    does not stop such a store, needs the first condition. *)
Theorem operations_once {I : IntegrityPrims} {L : IntegrityLaws I} iteration store limits mv w :
  (forall t, iteration t ≡ₚ map_to_list t) -> length store = 16%nat -> media_fits mv ->
  NoDup (map fst (all_ops store limits mv)) ->
  rtc (careful_step iteration store limits) (fresh_world mv) w ->
  NoDup (map fst (all_ops store limits (w_mv w)))
  /\ forall p put op hash x r mv' p', w_proc w = Some p -> w_failed w = false ->
     Z.of_nat (size (lg_table (p_ledger p'))) <= U32_MAX -> op ∈ map fst (all_ops store limits (w_mv w)) ->
     put_subject_bytes_with_operation iteration store limits put op hash x (w_mv w) p = (r, mv', p') ->
     mv' = w_mv w.
Proof.
  intros Hit Hst Hm Hnd Hs. pose proof (ledger_reachable_inv iteration store limits Hit Hst mv w Hm Hnd Hs) as Hi.
  split; [by destruct Hi|]. intros. by eapply retry_no_effect.
Qed.

(** ** Witness and example *)

Definition sample_store : list byte := repeat (z2b 1) 16.
Definition sample_op : list byte := repeat (z2b 4) 16.
Definition sample_hash : list byte := repeat (z2b 5) 32.
Definition no_events : MediaView := {| mv_segments := []; mv_active_seqs := [5]; mv_segment_seq := 5 |}.
(** The active segment with one put of the operation. *)
Definition one_event : MediaView :=
  {| mv_segments := [(None, item_image Put)]; mv_active_seqs := [5]; mv_segment_seq := 5 |}.
Definition sample_receipt : WriteReceipt :=
  {| wr_store_id := sample_store; wr_segment_id := repeat (z2b 2) 16; wr_item_id := repeat (z2b 3) 16;
     wr_event_id := sample_event_id; wr_event_kind := Put; wr_durability := Durable; wr_offset := 0 |}.
(** The event is on the media but its append is reported as failed. *)
Definition sample_put (mv : MediaView) : PutOutcome := PutFailed LedgerIo one_event.

Definition w0 : World := fresh_world no_events.
Definition p1 : Process :=
  {| p_ledger := snd (open_ledger no_events Replaced fresh_files); awo_writer_poisoned := false |}.
Definition w1 : World :=
  {| w_mv := no_events; w_files := lg_files (p_ledger p1); w_proc := Some p1; w_failed := false |}.
Definition w2 : World :=
  let '(_, mv, p) := put_subject_bytes_with_operation map_to_list sample_store draft_defaults sample_put
                       sample_op sample_hash no_faults no_events p1 in
  {| w_mv := mv; w_files := lg_files (p_ledger p); w_proc := Some p; w_failed := false |}.
(** The store stops and is opened again. *)
Definition w3 : World := {| w_mv := w_mv w2; w_files := w_files w2; w_proc := None; w_failed := false |}.
Definition p4 : Process :=
  {| p_ledger := snd (open_ledger (w_mv w3) Replaced (w_files w3)); awo_writer_poisoned := false |}.
Definition w4 : World :=
  {| w_mv := w_mv w3; w_files := lg_files (p_ledger p4); w_proc := Some p4; w_failed := false |}.

Lemma sample_put_ok : put_ok sample_store draft_defaults no_events sample_op sample_hash sample_put.
Proof.
  split.
  - split; [split_and!; [repeat constructor; vm_compute; congruence|repeat constructor|vm_compute; split; congruence]|].
    split; [vm_compute; congruence|]. intros s _ e He. exfalso. revert He. unfold old_ops, ops_of. cbn. apply not_elem_of_nil.
  - right. destruct (all_ops sample_store draft_defaults one_event) as [|[op rec] [|? ?]] eqn:E; vm_compute in E; try discriminate.
    injection E as <- <-. eexists. vm_compute. reflexivity.
Qed.

Definition retried : result DedupError (WriteReceipt * bool) * MediaView * Process :=
  put_subject_bytes_with_operation map_to_list sample_store draft_defaults sample_put
    sample_op sample_hash no_faults (w_mv w4) p4.

Lemma operations_once_witness :
  map fst (all_ops sample_store draft_defaults (w_mv w4)) = [sample_op] /\ snd (fst retried) = w_mv w4.
Proof.
  split; [vm_compute; reflexivity|].
  apply (operations_once map_to_list sample_store draft_defaults no_events w4) with
    (p := p4) (put := sample_put) (op := sample_op) (hash := sample_hash) (x := no_faults)
    (r := fst (fst retried)) (p' := snd retried).
  - reflexivity.
  - reflexivity.
  - split_and!; [constructor|constructor|vm_compute; split; congruence].
  - constructor.
  - eapply rtc_l; [|eapply rtc_l; [|eapply rtc_l; [|apply rtc_once]]].
    + exists EOpen. split; [|exact Logic.I].
      apply (once_open map_to_list sample_store draft_defaults w0 Replaced true (p_ledger p1)); [reflexivity|vm_compute; reflexivity].
    + exists (EPut sample_op). split; [|reflexivity].
      pose proof (once_put map_to_list sample_store draft_defaults w1 p1 sample_put sample_op sample_hash no_faults _ _ _ eq_refl
        sample_put_ok (eq_trans (surjective_pairing _) (f_equal (fun p => (p, _)) (surjective_pairing _)))) as H.
      match type of H with _ -> once_step _ _ _ _ _ ?s => assert (E : s = w2) by (vm_compute; reflexivity) end.
      rewrite E in H. apply H. vm_compute. congruence.
    + exists EStop. split; [|exact Logic.I]. apply (once_stop map_to_list sample_store draft_defaults w2).
    + exists EOpen. split; [|exact Logic.I].
      apply (once_open map_to_list sample_store draft_defaults w3 Replaced true (p_ledger p4)); [reflexivity|vm_compute; reflexivity].
  - reflexivity.
  - reflexivity.
  - apply Z.leb_le. vm_compute. reflexivity.
  - vm_compute. left.
  - unfold retried. destruct (put_subject_bytes_with_operation _ _ _ _ _ _ _ _ _) as [[? ?] ?]. reflexivity.
Defined.

(** The restart is needed.  A reconciliation that reads the segment of an
    operation and then fails on another segment keeps the operation in its table
    but not for its journal; the next one succeeds without journaling it and
    raises the floor; after a crash the operation is not known any more. *)
Definition two_segments : MediaView :=
  {| mv_segments := [(Some 1, item_image Put); (Some 2, [])]; mv_active_seqs := [5]; mv_segment_seq := 5 |}.
Definition read_fails : Faults :=
  {| f_reads := [true; false]; f_append := Works; f_save := Replaced; f_rewrite := Replaced;
     f_sync := true; f_mark := Replaced |}.

Example failed_reconciliation_forgets :
  let ensure := ensure_write_dedup_reconciled map_to_list sample_store draft_defaults in
  let l0 := snd (open_ledger two_segments Replaced fresh_files) in
  let '(e1, l1) := ensure two_segments read_fails l0 in
  let '(e2, l2) := ensure two_segments no_faults l1 in
  let l3 := snd (open_ledger two_segments Replaced (stable (lg_files l2))) in
  let '(e3, l4) := ensure two_segments no_faults l3 in
  (e1, e2, e3) = (Some LedgerIo, None, None)
  /\ map fst (all_ops sample_store draft_defaults two_segments) = [sample_op]
  /\ resolve_write_dedup (lg_table l4) sample_op sample_hash = Ok None.
Proof. vm_compute. split_and!; reflexivity. Qed.

(** Fields that hold zero bytes are not separated: different requests have one
    content identity. *)
Example content_identity_ambiguous :
  content_identity (lit "put") (lit "a" ++ [z2b 0]) (lit "b") []
  = content_identity (lit "put") (lit "a") ([z2b 0] ++ lit "b") [].
Proof. vm_compute. reflexivity. Qed.
