(* ===== verification/SdaNumber.v ===== *)
(** * The numbers of the data algebra: [sda-core/src/number.rs]

    A [char] is its Unicode scalar value and a [String] is the list of its
    characters.  The character classes of the standard library are the class
    [CharClass], with their ASCII part in [CharLaws].  Big integers are [Z];
    their text form and [BigRational] come from the crates [num_bigint] and
    [num_rational] and are the class [BigNum], with [BigNumLaws] stating what
    they document.  [sample_chars] and [sample_bignum] are concrete instances. *)
From S2P Require Import Prelude.

Abbreviation char := (Z).
Abbreviation text := (list Z).

(** A string literal of the source, as characters. *)
Definition chars (s : string) : text :=
  map (fun a => Z.of_N (Ascii.N_of_ascii a)) (String.list_ascii_of_string s).

Definition is_ascii_digit (c : char) : bool := (48 <=? c) && (c <=? 57).
Definition to_ascii_lowercase (c : char) : char :=
  if (65 <=? c) && (c <=? 90) then c + 32 else c.
(** [c.to_digit(16)] *)
Definition to_digit16 (c : char) : option Z :=
  if is_ascii_digit c then Some (c - 48)
  else if (97 <=? c) && (c <=? 102) then Some (c - 87)
  else if (65 <=? c) && (c <=? 70) then Some (c - 55)
  else None.
(** [c.len_utf8()], and [s.len()] for a string. *)
Definition len_utf8 (c : char) : Z :=
  if c <? 0x80 then 1 else if c <? 0x800 then 2 else if c <? 0x10000 then 3 else 4.
Definition str_len (s : text) : Z := foldr (fun c n => len_utf8 c + n) 0 s.

(** Rust's [char::is_whitespace], [is_alphabetic] and [is_alphanumeric]. *)
Class CharClass : Type := {
  is_whitespace : char -> bool;
  is_alphabetic : char -> bool;
  is_alphanumeric : char -> bool }.

Definition ascii_letter (c : char) : bool :=
  ((65 <=? c) && (c <=? 90)) || ((97 <=? c) && (c <=? 122)).
Definition ascii_space (c : char) : bool := ((9 <=? c) && (c <=? 13)) || (c =? 32).

Class CharLaws (C : CharClass) : Prop := {
  space_ascii c : 0 <= c < 128 -> is_whitespace c = ascii_space c;
  alphabetic_ascii c : 0 <= c < 128 -> is_alphabetic c = ascii_letter c;
  alphanumeric_ascii c :
    0 <= c < 128 -> is_alphanumeric c = ascii_letter c || is_ascii_digit c;
  (** A character has at most one of the two categories. *)
  alphanumeric_not_space c : is_alphanumeric c = true -> is_whitespace c = false;
  alphabetic_alphanumeric c : is_alphabetic c = true -> is_alphanumeric c = true }.

(** [BigRational] by its accessors [numer()] and [denom()]. *)
Record Ratio : Type := { numer : Z; denom : Z }.
#[global] Instance Ratio_eq_dec : EqDecision Ratio.
Proof. solve_decision. Defined.

Class BigNum : Type := {
  (** [BigInt::from_str] and [BigInt::to_string] *)
  big_from_str : text -> option Z;
  big_to_string : Z -> text;
  ratio_new : Z -> Z -> Ratio;
  ratio_add : Ratio -> Ratio -> Ratio;
  ratio_sub : Ratio -> Ratio -> Ratio;
  ratio_mul : Ratio -> Ratio -> Ratio;
  ratio_div : Ratio -> Ratio -> Ratio;
  ratio_neg : Ratio -> Ratio;
  ratio_cmp : Ratio -> Ratio -> comparison }.

Definition digits_val (ds : text) : Z := fold_left (fun v c => v * 10 + (c - 48)) ds 0.

(** A [Ratio] is in lowest terms with a positive denominator. *)
Definition ratio_ok (r : Ratio) : Prop := 0 < denom r /\ Z.gcd (numer r) (denom r) = 1.

Class BigNumLaws (B : BigNum) : Prop := {
  from_str_digits ds :
    ds <> [] -> forallb is_ascii_digit ds = true -> big_from_str ds = Some (digits_val ds);
  from_str_minus ds :
    ds <> [] -> forallb is_ascii_digit ds = true ->
    big_from_str (45 :: ds) = Some (- digits_val ds);
  to_string_digits z :
    0 <= z -> big_to_string z <> [] /\ forallb is_ascii_digit (big_to_string z) = true /\
              digits_val (big_to_string z) = z;
  to_string_minus z : z < 0 -> big_to_string z = 45 :: big_to_string (- z);
  new_ok n d : d <> 0 -> ratio_ok (ratio_new n d);
  new_value n d : d <> 0 -> numer (ratio_new n d) * d = n * denom (ratio_new n d);
  add_spec a b : ratio_ok a -> ratio_ok b ->
    ratio_add a b = ratio_new (numer a * denom b + numer b * denom a) (denom a * denom b);
  sub_spec a b : ratio_ok a -> ratio_ok b ->
    ratio_sub a b = ratio_new (numer a * denom b - numer b * denom a) (denom a * denom b);
  mul_spec a b : ratio_ok a -> ratio_ok b ->
    ratio_mul a b = ratio_new (numer a * numer b) (denom a * denom b);
  div_spec a b : ratio_ok a -> ratio_ok b -> numer b <> 0 ->
    ratio_div a b = ratio_new (numer a * denom b) (denom a * numer b);
  neg_spec a : ratio_ok a -> ratio_neg a = {| numer := - numer a; denom := denom a |};
  cmp_spec a b : ratio_ok a -> ratio_ok b ->
    ratio_cmp a b = (numer a * denom b ?= numer b * denom a) }.

Inductive ParseNumError : Type := InvalidFormat | InvalidDigits | ZeroDenominator.

(** [s.split_once(p)] *)
Fixpoint split_once (p : char -> bool) (s : text) : option (text * text) :=
  match s with
  | [] => None
  | c :: t =>
      if p c then Some ([], t)
      else match split_once p t with Some (a, b) => Some (c :: a, b) | None => None end
  end.

Definition I64_MIN : Z := - 2 ^ 63.
Definition I64_MAX : Z := 2 ^ 63 - 1.
(** Two's complement of [i64] arithmetic in release builds. *)
Definition wrap_i64 (z : Z) : Z := (z + 2 ^ 63) mod 2 ^ 64 - 2 ^ 63.

(** [s.parse::<i64>().ok()] *)
Definition parse_i64 (s : text) : option Z :=
  let '(sign, ds) :=
    match s with
    | 45 :: t => (-1, t)
    | 43 :: t => (1, t)
    | _ => (1, s)
    end in
  if negb (bool_decide (ds = [])) && forallb is_ascii_digit ds then
    let v := sign * digits_val ds in
    if (I64_MIN <=? v) && (v <=? I64_MAX) then Some v else None
  else None.

Module ExactNum.
Section Ops.
Context {C : CharClass} {B : BigNum}.

Fixpoint trim_start (s : text) : text :=
  match s with
  | c :: t => if is_whitespace c then trim_start t else s
  | [] => []
  end.
Definition trim_end (s : text) : text := reverse (trim_start (reverse s)).
Definition trim (s : text) : text := trim_end (trim_start s).

Definition pow10 (exp : Z) : Z := 10 ^ exp.

Definition parse_literal (src : text) : result ParseNumError Ratio :=
  let src := trim src in
  if bool_decide (src = []) then Err InvalidFormat
  else
  let '(sign, unsigned) :=
    match src with
    | 45 :: rest => (-1, rest)
    | 43 :: rest => (1, rest)
    | _ => (1, src)
    end in
  let? '(mantissa, exponent) :=
    match split_once (fun c => (c =? 101) || (c =? 69)) unsigned with
    | Some (mantissa, exponent) =>
        match parse_i64 exponent with
        | Some parsed_exp => Ok (mantissa, parsed_exp)
        | None => Err InvalidFormat
        end
    | None => Ok (unsigned, 0)
    end in
  let '(int_part, frac_part) :=
    match split_once (fun c => c =? 46) mantissa with
    | Some (int_part, frac_part) => (int_part, frac_part)
    | None => (mantissa, [])
    end in
  if bool_decide (int_part = []) && bool_decide (frac_part = []) then Err InvalidFormat
  else if negb (forallb is_ascii_digit int_part) || negb (forallb is_ascii_digit frac_part)
  then Err InvalidDigits
  else
  let digits := int_part ++ frac_part in
  let? numerator :=
    if bool_decide (digits = []) then Ok 0
    else match big_from_str digits with Some n => Ok n | None => Err InvalidDigits end in
  let scale := wrap_i64 (str_len frac_part - exponent) in
  let '(numerator, denominator) :=
    if scale <=? 0 then (numerator * pow10 (as_u32 (wrap_i64 (- scale))), 1)
    else (numerator, pow10 (as_u32 scale)) in
  let numerator := if sign <? 0 then - numerator else numerator in
  Ok (ratio_new numerator denominator).

Definition parse_canonical (src : text) : result ParseNumError Ratio :=
  match split_once (fun c => c =? 47) src with
  | Some (numerator, denominator) =>
      match big_from_str numerator with
      | None => Err InvalidDigits
      | Some numerator =>
          match big_from_str denominator with
          | None => Err InvalidDigits
          | Some denominator =>
              if denominator =? 0 then Err ZeroDenominator
              else Ok (ratio_new numerator denominator)
          end
      end
  | None => parse_literal src
  end.

Definition from_usize (value : Z) : Ratio := {| numer := value; denom := 1 |}.
Definition is_zero (x : Ratio) : bool := numer x =? 0.
Definition eqb (a b : Ratio) : bool := match ratio_cmp a b with Eq => true | _ => false end.
Definition ltb (a b : Ratio) : bool := match ratio_cmp a b with Lt => true | _ => false end.
Definition leb (a b : Ratio) : bool := match ratio_cmp a b with Gt => false | _ => true end.

(** [while d % p == 0 { d /= p; count += 1 }], at most [fuel] turns. *)
Fixpoint strip_factor (fuel : nat) (p d count : Z) : Z * Z :=
  match fuel with
  | O => (d, count)
  | S fuel => if Z.rem d p =? 0 then strip_factor fuel p (Z.quot d p) (count + 1) else (d, count)
  end.
Definition strip_fuel (d : Z) : nat := S (Z.to_nat (Z.log2 d)).

Definition finite_decimal_string (x : Ratio) : option text :=
  let numerator := numer x in
  if denom x =? 1 then Some (big_to_string numerator)
  else
  let '(denominator, twos) := strip_factor (strip_fuel (denom x)) 2 (denom x) 0 in
  let '(denominator, fives) := strip_factor (strip_fuel denominator) 5 denominator 0 in
  if negb (denominator =? 1) then None
  else
  let scale := Z.max twos fives in
  let adjusted := Z.abs numerator in
  let adjusted := if scale >? twos then adjusted * 5 ^ (scale - twos) else adjusted in
  let adjusted := if scale >? fives then adjusted * 2 ^ (scale - fives) else adjusted in
  let digits := big_to_string adjusted in
  let sign := if numerator <? 0 then [45] else [] in
  if scale =? 0 then Some (sign ++ digits)
  else
  let scale := Z.to_nat scale in
  if (length digits <=? scale)%nat then
    Some (sign ++ chars "0." ++ repeat 48 (scale - length digits)%nat ++ digits)
  else
    let split := (length digits - scale)%nat in
    Some (sign ++ take split digits ++ [46] ++ drop split digits).

Definition canonical_string (x : Ratio) : text :=
  match finite_decimal_string x with
  | Some decimal => decimal
  | None => big_to_string (numer x) ++ [47] ++ big_to_string (denom x)
  end.
End Ops.
End ExactNum.

(** ** Concrete instances *)

#[global] Instance sample_chars : CharClass := {|
  is_whitespace := ascii_space;
  is_alphabetic := ascii_letter;
  is_alphanumeric := fun c => ascii_letter c || is_ascii_digit c |}.

(** The decimal digits of a non-negative number, most significant first. *)
Fixpoint decimal_digits (fuel : nat) (z : Z) (acc : text) : text :=
  match fuel with
  | O => acc
  | S fuel =>
      if z <? 10 then (48 + z) :: acc
      else decimal_digits fuel (z / 10) ((48 + z mod 10) :: acc)
  end.
Definition sample_to_string (z : Z) : text :=
  let abs := decimal_digits (S (Z.to_nat (Z.log2 (Z.abs z)))) (Z.abs z) [] in
  if z <? 0 then 45 :: abs else abs.
Definition sample_from_str (s : text) : option Z :=
  let '(sign, ds) := match s with 45 :: t => (-1, t) | _ => (1, s) end in
  if negb (bool_decide (ds = [])) && forallb is_ascii_digit ds
  then Some (sign * digits_val ds) else None.
Definition reduce (n d : Z) : Ratio :=
  let g := Z.gcd n d in
  {| numer := Z.sgn d * (n / g); denom := Z.abs d / g |}.

#[global] Instance sample_bignum : BigNum := {|
  big_from_str := sample_from_str;
  big_to_string := sample_to_string;
  ratio_new := reduce;
  ratio_add a b := reduce (numer a * denom b + numer b * denom a) (denom a * denom b);
  ratio_sub a b := reduce (numer a * denom b - numer b * denom a) (denom a * denom b);
  ratio_mul a b := reduce (numer a * numer b) (denom a * denom b);
  ratio_div a b := reduce (numer a * denom b) (denom a * numer b);
  ratio_neg a := {| numer := - numer a; denom := denom a |};
  ratio_cmp a b := numer a * denom b ?= numer b * denom a |}.
