(* ===== verification/SdaLexer.v ===== *)
(** * The lexer of the data algebra: [sda-core/src/lexer.rs]

    The position of the loop is kept together with the characters that are left,
    so that [chars[pos]] is the head of the list. *)
From S2P Require Import Prelude SdaNumber.

Inductive TokenKind : Type :=
| KLet | KYield | KNull | KTrue | KFalse | KBytes | KSeq | KSet | KBag | KMap | KProd | KBagKV
| KSome | KNone | KOk | KFail
| KUnion | KInter | KDiff | KBUnion | KBDiff | KIn | KAnd | KOr | KNot
| KArrow | KFatArrow | KPipe | KEq | KNeq | KLt | KLe | KGt | KGe
| KPlus | KMinus | KStar | KSlash | KConcat
| KLParen | KRParen | KLBrack | KRBrack | KLBrace | KRBrace
| KQMark | KBang | KColon | KComma | KSemi | KBar | KSelL | KSelR
| KIdent (name : text) | KStr (s : text) | KNum (n : Ratio) | KPlaceholder | KEof.

#[global] Instance TokenKind_eq_dec : EqDecision TokenKind.
Proof. solve_decision. Defined.

Record Token : Type := { kind : TokenKind; pos : Z }.

Inductive LexError : Type :=
| UnexpectedChar (c : char) (pos : Z)
| UnterminatedString (pos : Z)
| InvalidNumber (literal : text) (pos : Z) (source : ParseNumError).

(** [while pos < chars.len() && p(chars[pos]) { pos += 1 }]: what was passed and
    what is left. *)
Fixpoint span (p : char -> bool) (cs : text) : text * text :=
  match cs with
  | c :: t => if p c then let '(a, b) := span p t in (c :: a, b) else ([], cs)
  | [] => ([], [])
  end.

(** The characters of a number: digits and dots, then an exponent. *)
Definition scan_number (cs : text) : text * text :=
  let '(mantissa, cs) := span (fun c => is_ascii_digit c || (c =? 46)) cs in
  match cs with
  | e :: cs' =>
      if (e =? 101) || (e =? 69) then
        let '(sign, cs'') :=
          match cs' with
          | s :: r => if (s =? 43) || (s =? 45) then ([s], r) else ([], cs')
          | [] => ([], [])
          end in
        let '(exponent, cs''') := span is_ascii_digit cs'' in
        (mantissa ++ e :: sign ++ exponent, cs''')
      else (mantissa, cs)
  | [] => (mantissa, [])
  end.

(** The body of a string literal; [None] when the input ends first. *)
Fixpoint scan_string (cs : text) : option (text * text) :=
  match cs with
  | [] => None
  | 34 :: t => Some ([], t)
  | 92 :: t =>
      match t with
      | [] => None
      | c :: t' =>
          match scan_string t' with
          | None => None
          | Some (s, rest) =>
              let out :=
                if c =? 110 then [10]
                else if c =? 116 then [9]
                else if c =? 114 then [13]
                else if c =? 34 then [34]
                else if c =? 92 then [92]
                else [92; c] in
              Some (out ++ s, rest)
          end
      end
  | c :: t => match scan_string t with Some (s, rest) => Some (c :: s, rest) | None => None end
  end.

Definition keywords : list (text * TokenKind) :=
  [ (chars "let", KLet); (chars "yield", KYield); (chars "null", KNull); (chars "true", KTrue);
    (chars "false", KFalse); (chars "bytes", KBytes); (chars "seq", KSeq); (chars "set", KSet);
    (chars "bag", KBag); (chars "map", KMap); (chars "prod", KProd); (chars "bagkv", KBagKV);
    (chars "some", KSome); (chars "none", KNone); (chars "ok", KOk); (chars "fail", KFail);
    (chars "union", KUnion); (chars "inter", KInter); (chars "diff", KDiff);
    (chars "bunion", KBUnion); (chars "bdiff", KBDiff); (chars "in", KIn); (chars "and", KAnd);
    (chars "or", KOr); (chars "not", KNot) ].

Fixpoint keyword_of (table : list (text * TokenKind)) (s : text) : option TokenKind :=
  match table with
  | [] => None
  | (k, v) :: rest => if bool_decide (k = s) then Some v else keyword_of rest s
  end.

Definition ident_kind (ident : text) : TokenKind :=
  match keyword_of keywords (map to_ascii_lowercase ident) with
  | Some k => k
  | None => KIdent ident
  end.

(** Tokens of one character: the Unicode operators, then the ASCII ones. *)
Definition symbol1 (c : char) : option TokenKind :=
  if c =? 0x2192 then Some KArrow else if c =? 0x21A6 then Some KFatArrow
  else if c =? 0x2208 then Some KIn else if c =? 0x2227 then Some KAnd
  else if c =? 0x2228 then Some KOr else if c =? 0xAC then Some KNot
  else if c =? 0x27E8 then Some KSelL else if c =? 0x27E9 then Some KSelR
  else if c =? 0x2223 then Some KBar else if c =? 0x222A then Some KUnion
  else if c =? 0x2229 then Some KInter else if c =? 92 then Some KDiff
  else if c =? 0x228E then Some KBUnion else if c =? 0x2296 then Some KBDiff
  else if c =? 0x2260 then Some KNeq else if c =? 0x2264 then Some KLe
  else if c =? 0x2265 then Some KGe else if c =? 0x2022 then Some KPlaceholder
  else if c =? 45 then Some KMinus else if c =? 61 then Some KEq
  else if c =? 33 then Some KBang else if c =? 60 then Some KLt
  else if c =? 62 then Some KGt else if c =? 124 then Some KBar
  else if c =? 43 then Some KPlus else if c =? 42 then Some KStar
  else if c =? 47 then Some KSlash else if c =? 40 then Some KLParen
  else if c =? 41 then Some KRParen else if c =? 91 then Some KLBrack
  else if c =? 93 then Some KRBrack else if c =? 123 then Some KLBrace
  else if c =? 125 then Some KRBrace else if c =? 63 then Some KQMark
  else if c =? 58 then Some KColon else if c =? 44 then Some KComma
  else if c =? 59 then Some KSemi else None.
(** Tokens of two characters: [-> => != <= >= |> ++]. *)
Definition symbol2 (c d : char) : option TokenKind :=
  if (c =? 45) && (d =? 62) then Some KArrow
  else if (c =? 61) && (d =? 62) then Some KFatArrow
  else if (c =? 33) && (d =? 61) then Some KNeq
  else if (c =? 60) && (d =? 61) then Some KLe
  else if (c =? 62) && (d =? 61) then Some KGe
  else if (c =? 124) && (d =? 62) then Some KPipe
  else if (c =? 43) && (d =? 43) then Some KConcat
  else None.

Definition scan_symbol (cs : text) : option (TokenKind * nat) :=
  match cs with
  | [] => None
  | c :: t =>
      let one := match symbol1 c with Some k => Some (k, 1%nat) | None => None end in
      match t with
      | d :: _ => match symbol2 c d with Some k => Some (k, 2%nat) | None => one end
      | [] => one
      end
  end.

Section Lex.
Context {C : CharClass} {B : BigNum}.

Definition is_word_char (c : char) : bool := is_alphanumeric c || (c =? 95).

(** One turn of the loop at [chars[pos..] = cs]: a token or nothing, and the
    number of characters passed. *)
Definition lex_step (start : Z) (cs : text) : result LexError (option TokenKind * text) :=
  match cs with
  | [] => Ok (None, [])
  | ch :: t =>
      if is_whitespace ch then Ok (None, t)
      else if (ch =? 59) && match t with d :: _ => d =? 59 | [] => false end then
        Ok (None, snd (span (fun c => negb (c =? 10)) cs))
      else if is_ascii_digit ch
              || ((ch =? 46) && match t with d :: _ => is_ascii_digit d | [] => false end) then
        let '(num_str, rest) := scan_number cs in
        match ExactNum.parse_literal num_str with
        | Ok n => Ok (Some (KNum n), rest)
        | Err source => Err (InvalidNumber num_str start source)
        end
      else if ch =? 34 then
        match scan_string t with
        | Some (s, rest) => Ok (Some (KStr s), rest)
        | None => Err (UnterminatedString start)
        end
      else if is_alphabetic ch || (ch =? 95) then
        if (ch =? 95) && match t with d :: _ => negb (is_word_char d) | [] => true end then
          Ok (Some KPlaceholder, t)
        else
          let '(ident, rest) := span is_word_char cs in
          Ok (Some (ident_kind ident), rest)
      else
        match scan_symbol cs with
        | Some (k, n) => Ok (Some k, drop n cs)
        | None => Err (UnexpectedChar ch start)
        end
  end.

Inductive LexFault : Type := LexFuel | LexErr (e : LexError).

(** The loop from [chars[start..] = cs]; [total] is [chars.len()]. *)
Fixpoint lex_from (fuel : nat) (total : Z) (cs : text) : result LexFault (list Token) :=
  match cs with
  | [] => Ok [{| kind := KEof; pos := total |}]
  | _ :: _ =>
      match fuel with
      | O => Err LexFuel
      | S fuel =>
          let start := total - Z.of_nat (length cs) in
          match lex_step start cs with
          | Err e => Err (LexErr e)
          | Ok (tok, rest) =>
              let? tokens := lex_from fuel total rest in
              Ok (match tok with
                  | Some k => {| kind := k; pos := start |} :: tokens
                  | None => tokens
                  end)
          end
      end
  end.

Definition lex (src : text) : result LexFault (list Token) :=
  lex_from (length src) (Z.of_nat (length src)) src.
End Lex.
