(* ===== verification/SdaParser.v ===== *)
(** * Syntax and parser of the data algebra: [sda-core/src/ast.rs], [parser.rs]

    The parser's [tokens] and [pos] are kept as the tokens from [pos] on, which
    are never empty: [advance] stays on the last token.  The functions of the
    descent take the recursive calls they make as the record [Descent], and
    [descend] ties the knot with a bound on the nesting. *)
From S2P Require Import Prelude SdaNumber SdaLexer.

Inductive BinOpKind : Type :=
| Add | Sub | Mul | Div | Concat | EqOp | Neq | LtOp | Le | GtOp | Ge | And | Or
| Union | Inter | Diff | BUnion | BDiff | In_.
Inductive UnOpKind : Type := Neg | Not.
Inductive SelectMode : Type := Plain | Optional | Required.

Inductive Expr : Type :=
| ENull | EBool (b : bool) | ENum (n : Ratio) | EStr (s : text) | EBytes (b : list byte)
| EIdent (name : text) | EPlaceholder
| ESeq (items : list Expr) | ESet (items : list Expr) | EBag (items : list Expr)
| EMap (entries : list (text * Expr)) | EProd (fields : list (text * Expr))
| EBagKV (entries : list (text * Expr))
| ESome (e : Expr) | ENone | EOk (e : Expr) | EFail (code msg : Expr)
| EBinOp (op : BinOpKind) (l r : Expr) | EUnOp (op : UnOpKind) (e : Expr)
| EPipe (l r : Expr) | ELambda (param : text) (body : Expr)
| ECall (f : Expr) (args : list Expr) | ESelect (e : Expr) (field : text) (mode : SelectMode)
| EEnrich (fields : list (text * Expr))
| EComprehension (yield_expr : option Expr) (binding : text) (collection : Expr)
    (pred : option Expr).

Inductive SourceKind : Type := Index | MultiIndex | Dataset.
Inductive Stmt : Type :=
| SLet (name : text) (e : Expr)
| SExpr (e : Expr)
| SSource (name : text) (k : SourceKind) (type_params : list text).
Record Program : Type := { stmts : list Stmt }.

#[global] Instance BinOpKind_eq_dec : EqDecision BinOpKind.
Proof. solve_decision. Defined.

(** What a parser expected: a token, whose debug text the code keeps, or a
    phrase. *)
Inductive Wanted : Type := WantKind (k : TokenKind) | WantText (s : string).

Inductive ParseError : Type :=
| Unexpected (k : TokenKind) (pos : Z)
| Expected (w : Wanted) (k : TokenKind) (pos : Z)
| SelectorNotStatic
| DuplicateLabelInSelector
| ReservedPlaceholder
| InvalidMapKey
| InvalidBagkvKey
| InvalidBytesLiteral (literal : text) (pos : Z) (reason : string).

(** A parse either answers, or would index out of bounds, or exceeds the bound of
    the model. *)
Inductive ParseFault : Type := ParseErr (e : ParseError) | OutOfBounds | ParseFuel.
Abbreviation tokens := (list Token).
Abbreviation parser A := (tokens -> result ParseFault (A * tokens)).

Definition peek (ts : tokens) : result ParseFault TokenKind :=
  match ts with t :: _ => Ok (kind t) | [] => Err OutOfBounds end.
Definition peek_pos (ts : tokens) : result ParseFault Z :=
  match ts with t :: _ => Ok (pos t) | [] => Err OutOfBounds end.
Definition peek_next (ts : tokens) : TokenKind :=
  match ts with _ :: t :: _ => kind t | _ => KEof end.
Definition advance (ts : tokens) : result ParseFault tokens :=
  match ts with
  | [] => Err OutOfBounds
  | [t] => Ok [t]
  | _ :: rest => Ok rest
  end.
(** [*self.peek() == k] *)
Definition at_kind (k : TokenKind) (ts : tokens) : result ParseFault bool :=
  let? token := peek ts in Ok (bool_decide (token = k)).

Definition expect (expected : TokenKind) : parser unit := fun ts =>
  let? token := peek ts in
  let? p := peek_pos ts in
  if bool_decide (token = expected) then let? ts := advance ts in Ok (tt, ts)
  else Err (ParseErr (Expected (WantKind expected) token p)).

Definition expect_ident : parser text := fun ts =>
  let? token := peek ts in
  let? p := peek_pos ts in
  match token with
  | KIdent name => let? ts := advance ts in Ok (name, ts)
  | _ => Err (ParseErr (Expected (WantText "identifier") token p))
  end.

Definition expected_generator_expr_error {A} (ts : tokens) : result ParseFault A :=
  let? token := peek ts in
  let? p := peek_pos ts in
  Err (ParseErr (Expected (WantText "generator expression `name in collection`") token p)).

(** ** Base-16 literals *)
Fixpoint hex_pairs (cs : text) : result string (list byte) :=
  match cs with
  | hi :: lo :: rest =>
      match to_digit16 hi with
      | None => Err "expected base16 digits only"%string
      | Some h =>
          match to_digit16 lo with
          | None => Err "expected base16 digits only"%string
          | Some l => let? out := hex_pairs rest in Ok (z2b (Z.lor (Z.shiftl h 4) l) :: out)
          end
      end
  | _ => Ok []
  end.
Definition parse_bytes_literal (src : text) : result string (list byte) :=
  if negb (str_len src mod 2 =? 0) then Err "expected even-length base16 string"%string
  else hex_pairs src.

(** ** Lists *)
(** [while *self.peek() == Comma { self.advance(); out.push(item()?) }] *)
Fixpoint comma_loop {A} (fuel : nat) (item : parser A) (ts : tokens)
  : result ParseFault (list A * tokens) :=
  match fuel with
  | O => Err ParseFuel
  | S fuel =>
      let? c := at_kind KComma ts in
      if c then
        let? ts := advance ts in
        let? '(x, ts) := item ts in
        let? '(xs, ts) := comma_loop fuel item ts in
        Ok (x :: xs, ts)
      else Ok ([], ts)
  end.
(** The same with [if *self.peek() == close { break }] after the comma. *)
Fixpoint comma_loop_trailing {A} (fuel : nat) (close : TokenKind) (item : parser A) (ts : tokens)
  : result ParseFault (list A * tokens) :=
  match fuel with
  | O => Err ParseFuel
  | S fuel =>
      let? c := at_kind KComma ts in
      if c then
        let? ts := advance ts in
        let? stop := at_kind close ts in
        if stop then Ok ([], ts)
        else
          let? '(x, ts) := item ts in
          let? '(xs, ts) := comma_loop_trailing fuel close item ts in
          Ok (x :: xs, ts)
      else Ok ([], ts)
  end.
(** A list after its opening token, with its closing token. *)
Definition items_trailing {A} (close : TokenKind) (item : parser A) : parser (list A) := fun ts =>
  let? empty := at_kind close ts in
  let? '(xs, ts) :=
    if empty then Ok ([], ts)
    else
      let? '(x, ts) := item ts in
      let? '(xs, ts) := comma_loop_trailing (length ts) close item ts in
      Ok (x :: xs, ts) in
  let? '(_, ts) := expect close ts in
  Ok (xs, ts).
Definition items_plain {A} (close : TokenKind) (item : parser A) : parser (list A) := fun ts =>
  let? empty := at_kind close ts in
  let? '(xs, ts) :=
    if empty then Ok ([], ts)
    else
      let? '(x, ts) := item ts in
      let? '(xs, ts) := comma_loop (length ts) item ts in
      Ok (x :: xs, ts) in
  let? '(_, ts) := expect close ts in
  Ok (xs, ts).

(** ** The descent *)
Record Descent : Type := { parse_expr : parser Expr; parse_setish_rec : parser Expr }.

Definition decompose_generator_expr (e : Expr) : option (text * Expr) :=
  match e with
  | EBinOp In_ (EIdent name) rhs => Some (name, rhs)
  | _ => None
  end.

(** The labels up to a closing brace, or [None] at any other token. *)
Fixpoint labels_to_brace (ts : tokens) : option (list text) :=
  match ts with
  | [] => None
  | t :: rest =>
      match kind t with
      | KIdent name => option_map (cons name) (labels_to_brace rest)
      | KStr s => option_map (cons s) (labels_to_brace rest)
      | KRBrace => Some []
      | _ => None
      end
  end.
Fixpoint has_duplicate (ls : list text) : bool :=
  match ls with
  | [] => false
  | l :: rest => bool_decide (l ∈ rest) || has_duplicate rest
  end.
Definition detect_static_selector_error (ts : tokens) : option ParseError :=
  match labels_to_brace ts with
  | None | Some [] => None
  | Some labels =>
      if has_duplicate labels then Some DuplicateLabelInSelector else Some SelectorNotStatic
  end.

Definition is_selector_access (ts : tokens) : bool :=
  match ts with
  | _ :: next :: after :: _ =>
      match kind next with
      | KIdent _ | KStr _ => bool_decide (kind after = KGt)
      | _ => false
      end
  | _ => false
  end.

Section Descend.
Context (rec : Descent).

Definition parse_map_entry : parser (text * Expr) := fun ts =>
  let? token := peek ts in
  match token with
  | KStr s =>
      let? ts := advance ts in
      let? '(_, ts) := expect KArrow ts in
      let? '(value, ts) := parse_expr rec ts in
      Ok ((s, value), ts)
  | _ => Err (ParseErr InvalidMapKey)
  end.

Definition parse_bagkv_entry : parser (text * Expr) := fun ts =>
  let? token := peek ts in
  let? '(key, ts) :=
    match token with
    | KStr s => let? ts := advance ts in Ok (s, ts)
    | KIdent name => let? ts := advance ts in Ok (name, ts)
    | _ => Err (ParseErr InvalidBagkvKey)
    end in
  let? '(_, ts) := expect KArrow ts in
  let? '(value, ts) := parse_expr rec ts in
  Ok ((key, value), ts).

Definition parse_prod_field : parser (text * Expr) := fun ts =>
  let? '(name, ts) := expect_ident ts in
  let? '(_, ts) := expect KColon ts in
  let? '(value, ts) := parse_expr rec ts in
  Ok ((name, value), ts).

Definition parse_expr_list (close : TokenKind) : parser (list Expr) :=
  items_trailing close (parse_expr rec).

Definition parse_generator_expr : parser (text * Expr) := fun ts =>
  let? '(expr, ts) := parse_expr rec ts in
  match decompose_generator_expr expr with
  | Some g => Ok (g, ts)
  | None => expected_generator_expr_error ts
  end.

(** [if *self.peek() == Bar { Some(self.parse_expr()?) } else { None }] and the
    closing brace. *)
Definition parse_pred : parser (option Expr) := fun ts =>
  let? bar := at_kind KBar ts in
  let? '(pred, ts) :=
    if bar then
      let? ts := advance ts in
      let? '(e, ts) := parse_expr rec ts in
      Ok (Some e, ts)
    else Ok (None, ts) in
  let? '(_, ts) := expect KRBrace ts in
  Ok (pred, ts).

Definition parse_comprehension : parser Expr := fun ts =>
  let? y := at_kind KYield ts in
  if y then
    let? ts := advance ts in
    let? '(yield_expr, ts) := parse_expr rec ts in
    let? '(_, ts) := expect KBar ts in
    let? '((binding, collection), ts) := parse_generator_expr ts in
    let? '(pred, ts) := parse_pred ts in
    Ok (EComprehension (Some yield_expr) binding collection pred, ts)
  else
    let? '(first_expr, ts) := parse_expr rec ts in
    match decompose_generator_expr first_expr with
    | Some (binding, collection) =>
        let? '(pred, ts) := parse_pred ts in
        Ok (EComprehension None binding collection pred, ts)
    | None =>
        match first_expr with
        | EBinOp In_ _ _ => expected_generator_expr_error ts
        | _ =>
            let? '(_, ts) := expect KBar ts in
            let? '((binding, collection), ts) := parse_generator_expr ts in
            let? '(pred, ts) := parse_pred ts in
            Ok (EComprehension (Some first_expr) binding collection pred, ts)
        end
    end.

(** [TokenKind (expr)], after the name. *)
Definition parse_parenthesised : parser Expr := fun ts =>
  let? '(_, ts) := expect KLParen ts in
  let? '(e, ts) := parse_expr rec ts in
  let? '(_, ts) := expect KRParen ts in
  Ok (e, ts).

Definition parse_bytes (p : Z) : parser Expr := fun ts =>
  let? '(_, ts) := expect KLParen ts in
  let? token := peek ts in
  let? '(literal, ts) :=
    match token with
    | KStr s => let? ts := advance ts in Ok (s, ts)
    | token =>
        let? p := peek_pos ts in
        Err (ParseErr (Expected (WantText "string literal") token p))
    end in
  let? '(_, ts) := expect KRParen ts in
  match parse_bytes_literal literal with
  | Ok bytes => Ok (EBytes bytes, ts)
  | Err reason => Err (ParseErr (InvalidBytesLiteral literal p reason))
  end.

Definition parse_primary : parser Expr := fun ts =>
  let? token := peek ts in
  let? p := peek_pos ts in
  match token with
  | KNull => let? ts := advance ts in Ok (ENull, ts)
  | KTrue => let? ts := advance ts in Ok (EBool true, ts)
  | KFalse => let? ts := advance ts in Ok (EBool false, ts)
  | KNum n => let? ts := advance ts in Ok (ENum n, ts)
  | KStr s => let? ts := advance ts in Ok (EStr s, ts)
  | KBytes => let? ts := advance ts in parse_bytes p ts
  | KPlaceholder =>
      if bool_decide (peek_next ts = KFatArrow) then Err (ParseErr ReservedPlaceholder)
      else let? ts := advance ts in Ok (EPlaceholder, ts)
  | KIdent name =>
      if bool_decide (peek_next ts = KFatArrow) then
        let? ts := advance ts in
        let? ts := advance ts in
        let? '(body, ts) := parse_expr rec ts in
        Ok (ELambda name body, ts)
      else let? ts := advance ts in Ok (EIdent name, ts)
  | KLParen =>
      let? ts := advance ts in
      let? '(e, ts) := parse_expr rec ts in
      let? '(_, ts) := expect KRParen ts in
      Ok (e, ts)
  | KSeq =>
      let? ts := advance ts in
      let? '(_, ts) := expect KLBrack ts in
      let? '(items, ts) := parse_expr_list KRBrack ts in
      Ok (ESeq items, ts)
  | KSet =>
      let? ts := advance ts in
      let? '(_, ts) := expect KLBrace ts in
      let? '(items, ts) := parse_expr_list KRBrace ts in
      Ok (ESet items, ts)
  | KBag =>
      let? ts := advance ts in
      let? '(_, ts) := expect KLBrace ts in
      let? '(items, ts) := parse_expr_list KRBrace ts in
      Ok (EBag items, ts)
  | KMap =>
      let? ts := advance ts in
      let? '(_, ts) := expect KLBrace ts in
      let? '(entries, ts) := items_trailing KRBrace parse_map_entry ts in
      Ok (EMap entries, ts)
  | KProd =>
      let? ts := advance ts in
      let? '(_, ts) := expect KLBrace ts in
      let? '(fields, ts) := items_trailing KRBrace parse_prod_field ts in
      Ok (EProd fields, ts)
  | KBagKV =>
      let? ts := advance ts in
      let? '(_, ts) := expect KLBrace ts in
      let? '(entries, ts) := items_trailing KRBrace parse_bagkv_entry ts in
      Ok (EBagKV entries, ts)
  | KSome =>
      let? ts := advance ts in
      let? '(e, ts) := parse_parenthesised ts in
      Ok (ESome e, ts)
  | KNone => let? ts := advance ts in Ok (ENone, ts)
  | KOk =>
      let? ts := advance ts in
      let? '(e, ts) := parse_parenthesised ts in
      Ok (EOk e, ts)
  | KFail =>
      let? ts := advance ts in
      let? '(_, ts) := expect KLParen ts in
      let? '(code, ts) := parse_expr rec ts in
      let? '(_, ts) := expect KComma ts in
      let? '(msg, ts) := parse_expr rec ts in
      let? '(_, ts) := expect KRParen ts in
      Ok (EFail code msg, ts)
  | KLBrace =>
      let? ts := advance ts in
      match detect_static_selector_error ts with
      | Some err => Err (ParseErr err)
      | None => parse_comprehension ts
      end
  | token => Err (ParseErr (Unexpected token p))
  end.

(** The sugar after a name: [one?(..)], [one!(..)], [enrich {..}], [refine {..}]. *)
Definition parse_sugar (expr : Expr) : parser Expr := fun ts =>
  match expr with
  | EIdent name =>
      let? token := peek ts in
      if bool_decide (name = chars "one")
         && match token with KQMark | KBang => true | _ => false end
         && bool_decide (peek_next ts = KLParen) then
        let enr_name := match token with KQMark => chars "one?" | _ => chars "one!" end in
        let? ts := advance ts in
        let? ts := advance ts in
        let? '(args, ts) := items_plain KRParen (parse_expr rec) ts in
        Ok (ECall (EIdent enr_name) args, ts)
      else if bool_decide (name = chars "enrich") && bool_decide (token = KLBrace) then
        let? ts := advance ts in
        let? '(fields, ts) := items_trailing KRBrace parse_prod_field ts in
        Ok (EEnrich fields, ts)
      else if bool_decide (name = chars "refine") && bool_decide (token = KLBrace) then
        let? ts := advance ts in
        parse_comprehension ts
      else Ok (expr, ts)
  | _ => Ok (expr, ts)
  end.

(** A selector after its opening token, its closing token and its suffix. *)
Definition parse_selector (expr : Expr) (close : TokenKind) : parser Expr := fun ts =>
  let? token := peek ts in
  let? '(selector, ts) :=
    match token with
    | KIdent name => let? ts := advance ts in Ok (name, ts)
    | KStr s => let? ts := advance ts in Ok (s, ts)
    | token =>
        let? p := peek_pos ts in
        Err (ParseErr (Expected (WantText "selector") token p))
    end in
  let? '(_, ts) := expect close ts in
  let? token := peek ts in
  match token with
  | KQMark => let? ts := advance ts in Ok (ESelect expr selector Optional, ts)
  | KBang => let? ts := advance ts in Ok (ESelect expr selector Required, ts)
  | _ => Ok (ESelect expr selector Plain, ts)
  end.

(** One turn of the postfix loop; [None] when it breaks. *)
Definition postfix_step (expr : Expr) (ts : tokens) : result ParseFault (option (Expr * tokens)) :=
  let? token := peek ts in
  match token with
  | KLt =>
      if is_selector_access ts then
        let? ts := advance ts in
        let? r := parse_selector expr KGt ts in Ok (Some r)
      else Ok None
  | KSelL =>
      let? ts := advance ts in
      let? r := parse_selector expr KSelR ts in Ok (Some r)
  | KLParen =>
      let? ts := advance ts in
      let? '(args, ts) := items_plain KRParen (parse_expr rec) ts in
      Ok (Some (ECall expr args, ts))
  | KLBrack =>
      let? ts := advance ts in
      let? '(k_r, ts) := parse_setish_rec rec ts in
      let? '(_, ts) := expect KEq ts in
      let? '(k_l, ts) := parse_setish_rec rec ts in
      let? '(_, ts) := expect KRBrack ts in
      Ok (Some (EComprehension None (chars "r") expr (Some (EBinOp EqOp k_r k_l)), ts))
  | _ => Ok None
  end.
Fixpoint postfix_loop (fuel : nat) (expr : Expr) (ts : tokens)
  : result ParseFault (Expr * tokens) :=
  match fuel with
  | O => Err ParseFuel
  | S fuel =>
      let? r := postfix_step expr ts in
      match r with
      | Some (expr, ts) => postfix_loop fuel expr ts
      | None => Ok (expr, ts)
      end
  end.

Definition parse_postfix : parser Expr := fun ts =>
  let? '(expr, ts) := parse_primary ts in
  let? '(expr, ts) := parse_sugar expr ts in
  postfix_loop (length ts) expr ts.

Fixpoint parse_unary_n (fuel : nat) (ts : tokens) : result ParseFault (Expr * tokens) :=
  match fuel with
  | O => Err ParseFuel
  | S fuel =>
      let? m := at_kind KMinus ts in
      if m then
        let? ts := advance ts in
        let? '(e, ts) := parse_unary_n fuel ts in
        Ok (EUnOp Neg e, ts)
      else parse_postfix ts
  end.
Definition parse_unary : parser Expr := fun ts => parse_unary_n (length ts) ts.

(** A level of left-associative operators:
    [loop { if let Some(op) = .. { advance; rhs = next()?; lhs = build(lhs, rhs) } else { break } }]. *)
Fixpoint left_loop (fuel : nat) (op : TokenKind -> option (Expr -> Expr -> Expr))
    (next : parser Expr) (lhs : Expr) (ts : tokens) : result ParseFault (Expr * tokens) :=
  match fuel with
  | O => Err ParseFuel
  | S fuel =>
      let? token := peek ts in
      match op token with
      | Some build =>
          let? ts := advance ts in
          let? '(rhs, ts) := next ts in
          left_loop fuel op next (build lhs rhs) ts
      | None => Ok (lhs, ts)
      end
  end.
Definition left_level (op : TokenKind -> option (Expr -> Expr -> Expr)) (next : parser Expr)
  : parser Expr := fun ts =>
  let? '(lhs, ts) := next ts in
  left_loop (length ts) op next lhs ts.

Definition mul_op (k : TokenKind) : option (Expr -> Expr -> Expr) :=
  match k with KStar => Some (EBinOp Mul) | KSlash => Some (EBinOp Div) | _ => None end.
Definition add_op (k : TokenKind) : option (Expr -> Expr -> Expr) :=
  match k with
  | KPlus => Some (EBinOp Add) | KMinus => Some (EBinOp Sub) | KConcat => Some (EBinOp Concat)
  | _ => None
  end.
Definition setish_op (k : TokenKind) : option (Expr -> Expr -> Expr) :=
  match k with
  | KUnion => Some (EBinOp Union) | KInter => Some (EBinOp Inter) | KDiff => Some (EBinOp Diff)
  | KBUnion => Some (EBinOp BUnion) | KBDiff => Some (EBinOp BDiff) | KIn => Some (EBinOp In_)
  | _ => None
  end.
Definition cmp_op (k : TokenKind) : option BinOpKind :=
  match k with
  | KEq => Some EqOp | KNeq => Some Neq | KLt => Some LtOp | KLe => Some Le
  | KGt => Some GtOp | KGe => Some Ge
  | _ => None
  end.
Definition and_op (k : TokenKind) : option (Expr -> Expr -> Expr) :=
  match k with KAnd => Some (EBinOp And) | _ => None end.
Definition or_op (k : TokenKind) : option (Expr -> Expr -> Expr) :=
  match k with KOr => Some (EBinOp Or) | _ => None end.
Definition pipe_op (k : TokenKind) : option (Expr -> Expr -> Expr) :=
  match k with KPipe => Some EPipe | _ => None end.

Definition parse_mul : parser Expr := left_level mul_op parse_unary.
Definition parse_add : parser Expr := left_level add_op parse_mul.
Definition parse_setish : parser Expr := left_level setish_op parse_add.
Definition parse_cmp : parser Expr := fun ts =>
  let? '(lhs, ts) := parse_setish ts in
  let? token := peek ts in
  match cmp_op token with
  | Some op =>
      let? ts := advance ts in
      let? '(rhs, ts) := parse_setish ts in
      Ok (EBinOp op lhs rhs, ts)
  | None => Ok (lhs, ts)
  end.
Fixpoint parse_not_n (fuel : nat) (ts : tokens) : result ParseFault (Expr * tokens) :=
  match fuel with
  | O => Err ParseFuel
  | S fuel =>
      let? n := at_kind KNot ts in
      if n then
        let? ts := advance ts in
        let? '(e, ts) := parse_not_n fuel ts in
        Ok (EUnOp Not e, ts)
      else parse_cmp ts
  end.
Definition parse_not : parser Expr := fun ts => parse_not_n (length ts) ts.
Definition parse_and : parser Expr := left_level and_op parse_not.
Definition parse_or : parser Expr := left_level or_op parse_and.
Definition parse_pipe : parser Expr := left_level pipe_op parse_or.
End Descend.

(** The knot: [fuel] bounds the nesting of [parse_expr] and of the keyed sugar. *)
Fixpoint descend (fuel : nat) : Descent :=
  match fuel with
  | O => {| parse_expr := fun _ => Err ParseFuel; parse_setish_rec := fun _ => Err ParseFuel |}
  | S fuel =>
      let rec := descend fuel in
      {| parse_expr := parse_pipe rec; parse_setish_rec := parse_setish rec |}
  end.
Definition parse_expr_top : parser Expr := fun ts => parse_expr (descend (length ts)) ts.

(** ** Statements *)
Definition parse_source_decl : parser Stmt := fun ts =>
  let? ts := advance ts in
  let? '(name, ts) := expect_ident ts in
  let? '(_, ts) := expect KColon ts in
  let? '(kind_name, ts) := expect_ident ts in
  let? p := peek_pos ts in
  let? k :=
    if bool_decide (kind_name = chars "Index") then Ok Index
    else if bool_decide (kind_name = chars "MultiIndex") then Ok MultiIndex
    else if bool_decide (kind_name = chars "Dataset") then Ok Dataset
    else Err (ParseErr (Expected (WantText "Index, MultiIndex, or Dataset") (KIdent kind_name) p)) in
  let? bracket := at_kind KLBrack ts in
  let? '(type_params, ts) :=
    if bracket then let? ts := advance ts in items_trailing KRBrack expect_ident ts
    else Ok ([], ts) in
  let? '(_, ts) := expect KSemi ts in
  Ok (SSource name k type_params, ts).

Definition parse_stmt : parser Stmt := fun ts =>
  let? token := peek ts in
  if bool_decide (token = KLet) then
    let? ts := advance ts in
    let? placeholder := at_kind KPlaceholder ts in
    if placeholder then Err (ParseErr ReservedPlaceholder)
    else
      let? '(name, ts) := expect_ident ts in
      let? '(_, ts) := expect KEq ts in
      let? '(expr, ts) := parse_expr_top ts in
      let? '(_, ts) := expect KSemi ts in
      Ok (SLet name expr, ts)
  else if bool_decide (token = KIdent (chars "source")) then parse_source_decl ts
  else
    let? '(expr, ts) := parse_expr_top ts in
    let? '(_, ts) := expect KSemi ts in
    Ok (SExpr expr, ts).

Fixpoint parse_program_n (fuel : nat) (ts : tokens) : result ParseFault Program :=
  match fuel with
  | O => Err ParseFuel
  | S fuel =>
      let? eof := at_kind KEof ts in
      if eof then Ok {| stmts := [] |}
      else
        let? '(s, ts) := parse_stmt ts in
        let? p := parse_program_n fuel ts in
        Ok {| stmts := s :: stmts p |}
  end.
Definition parse (ts : tokens) : result ParseFault Program := parse_program_n (length ts) ts.

Inductive SdaError : Type := SdaLex (e : LexFault) | SdaParse (e : ParseFault).

Section Source.
Context {C : CharClass} {B : BigNum}.

Definition parse_source (expr : text) : result SdaError Program :=
  let trimmed := ExactNum.trim_end expr in
  let normalized := if bool_decide (last trimmed = Some 59) then trimmed else trimmed ++ [59] in
  match lex normalized with
  | Err e => Err (SdaLex e)
  | Ok ts => match parse ts with Ok p => Ok p | Err e => Err (SdaParse e) end
  end.
End Source.
