(* ===== verification/SdaFormat.v ===== *)
(** * The formatter of the data algebra: [sda-core/src/format.rs] *)
From S2P Require Import Prelude SdaNumber SdaLexer SdaParser.

(** [items.join(sep)] *)
Fixpoint join (sep : text) (items : list text) : text :=
  match items with
  | [] => []
  | [s] => s
  | s :: rest => s ++ sep ++ join sep rest
  end.

Definition format_string_char (ch : char) : text :=
  if ch =? 92 then [92; 92]
  else if ch =? 34 then [92; 34]
  else if ch =? 10 then [92; 110]
  else if ch =? 13 then [92; 114]
  else if ch =? 9 then [92; 116]
  else [ch].
Definition format_string (value : text) : text :=
  [34] ++ concat (map format_string_char value) ++ [34].

(** A nibble as [{:x}] prints it. *)
Definition hex_digit (n : Z) : char := if n <? 10 then 48 + n else 87 + n.
Definition encode_base16 (bytes : list byte) : text :=
  concat (map (fun b => [hex_digit (b2z b / 16); hex_digit (b2z b mod 16)]) bytes).

Definition format_binop (op : BinOpKind) : text :=
  chars match op with
        | Add => "+" | Sub => "-" | Mul => "*" | Div => "/" | Concat => "++"
        | EqOp => "=" | Neq => "!=" | LtOp => "<" | Le => "<=" | GtOp => ">" | Ge => ">="
        | And => "and" | Or => "or" | Union => "union" | Inter => "inter" | Diff => "diff"
        | BUnion => "bunion" | BDiff => "bdiff" | In_ => "in"
        end.

Definition binop_precedence (op : BinOpKind) : Z :=
  match op with
  | Or => 2
  | And => 3
  | EqOp | Neq | LtOp | Le | GtOp | Ge => 4
  | Union | Inter | Diff | BUnion | BDiff | In_ => 5
  | Add | Sub | Concat => 6
  | Mul | Div => 7
  end.
Definition precedence (expr : Expr) : Z :=
  match expr with
  | EPipe _ _ => 1
  | EBinOp op _ _ => binop_precedence op
  | EUnOp _ _ => 8
  | ECall _ _ | ESelect _ _ _ => 9
  | ELambda _ _ => 1
  | _ => 10
  end.

Definition is_right_sensitive_binary (op : BinOpKind) : bool :=
  match op with Sub | Div | In_ => true | _ => false end.

Definition wrap_if_needed (rendered : text) (prec min_prec : Z) : text :=
  if prec <? min_prec then [40] ++ rendered ++ [41] else rendered.

Definition mode_suffix (mode : SelectMode) : text :=
  match mode with Plain => [] | Optional => [63] | Required => [33] end.

Section Format.
Context {C : CharClass} {B : BigNum}.

Definition is_identifier (value : text) : bool :=
  match value with
  | ch :: rest =>
      (is_alphabetic ch || (ch =? 95)) && forallb (fun c => is_alphanumeric c || (c =? 95)) rest
  | [] => false
  end.
Definition format_selector_key (key : text) : text :=
  if is_identifier key then key else format_string key.

Fixpoint format_expr (expr : Expr) (min_prec : Z) : text :=
  let fields (l : list (text * Expr)) :=
    join (chars ", ") (map (fun '(name, value) => name ++ chars ": " ++ format_expr value 0) l) in
  let delimited (prefix : text) (l : list Expr) (suffix : text) :=
    prefix ++ join (chars ", ") (map (fun item => format_expr item 0) l) ++ suffix in
  match expr with
  | ENull => chars "null"
  | EBool true => chars "true"
  | EBool false => chars "false"
  | ENum value => ExactNum.canonical_string value
  | EStr value => format_string value
  | EBytes bytes => chars "Bytes(" ++ format_string (encode_base16 bytes) ++ chars ")"
  | EIdent name => name
  | EPlaceholder => chars "_"
  | ESeq items => delimited (chars "Seq[") items (chars "]")
  | ESet items => delimited (chars "Set{") items (chars "}")
  | EBag items => delimited (chars "Bag{") items (chars "}")
  | EMap entries =>
      chars "Map{" ++
      join (chars ", ")
        (map (fun '(key, value) => format_string key ++ chars " -> " ++ format_expr value 0)
           entries) ++ chars "}"
  | EProd l => chars "Prod{" ++ fields l ++ chars "}"
  | EBagKV entries =>
      chars "BagKV{" ++
      join (chars ", ")
        (map (fun '(key, value) => format_selector_key key ++ chars " -> " ++ format_expr value 0)
           entries) ++ chars "}"
  | ESome value => chars "Some(" ++ format_expr value 0 ++ chars ")"
  | ENone => chars "None"
  | EOk value => chars "Ok(" ++ format_expr value 0 ++ chars ")"
  | EFail code msg =>
      chars "Fail(" ++ format_expr code 0 ++ chars ", " ++ format_expr msg 0 ++ chars ")"
  | EBinOp op lhs rhs =>
      let prec := precedence expr in
      let left := format_expr lhs prec in
      let right_prec := if is_right_sensitive_binary op then prec + 1 else prec in
      let right := format_expr rhs right_prec in
      wrap_if_needed (left ++ chars " " ++ format_binop op ++ chars " " ++ right) prec min_prec
  | EUnOp op inner =>
      let prec := precedence expr in
      let operand := format_expr inner prec in
      let rendered :=
        match op with Neg => chars "-" ++ operand | Not => chars "not " ++ operand end in
      wrap_if_needed rendered prec min_prec
  | EPipe lhs rhs =>
      let prec := precedence expr in
      wrap_if_needed (format_expr lhs prec ++ chars " |> " ++ format_expr rhs (prec + 1))
        prec min_prec
  | ELambda param body =>
      let prec := precedence expr in
      wrap_if_needed (param ++ chars " => " ++ format_expr body prec) prec min_prec
  | ECall callee args =>
      let prec := precedence expr in
      wrap_if_needed (format_expr callee prec ++ delimited (chars "(") args (chars ")"))
        prec min_prec
  | EEnrich l => chars "enrich {" ++ fields l ++ chars "}"
  | ESelect target selector mode =>
      let prec := precedence expr in
      wrap_if_needed
        (format_expr target prec ++ chars "<" ++ format_string selector ++ chars ">" ++
         mode_suffix mode)
        prec min_prec
  | EComprehension yield_expr binding collection pred =>
      chars "{" ++
      match yield_expr with
      | Some y => chars " yield " ++ format_expr y 0 ++ chars " | "
      | None => chars " "
      end ++
      binding ++ chars " in " ++ format_expr collection 0 ++
      match pred with Some p => chars " | " ++ format_expr p 0 | None => [] end ++
      chars " }"
  end.

Definition source_kind_name (k : SourceKind) : text :=
  chars match k with Index => "Index" | MultiIndex => "MultiIndex" | Dataset => "Dataset" end.

Definition format_stmt (stmt : Stmt) : text :=
  match stmt with
  | SLet name expr => chars "let " ++ name ++ chars " = " ++ format_expr expr 0 ++ [59; 10]
  | SExpr expr => format_expr expr 0 ++ [59; 10]
  | SSource name k type_params =>
      chars "source " ++ name ++ chars " : " ++ source_kind_name k ++
      (if bool_decide (type_params = []) then []
       else chars "[" ++ join (chars ", ") type_params ++ chars "]") ++ [59; 10]
  end.
Definition format_program (program : Program) : text := concat (map format_stmt (stmts program)).

Definition format_source (expr : text) : result SdaError text :=
  let? p := parse_source expr in Ok (format_program p).
End Format.
