(* ===== verification/SdaValue.v ===== *)
(** * Values of the data algebra and their equality: [sda-core/src/lib.rs]

    An environment is the list of its bindings, the latest first: the code only
    inserts into a [HashMap] and looks names up. *)
From S2P Require Import Prelude SdaNumber SdaLexer SdaParser.

Inductive Value : Type :=
| VNull | VBool (b : bool) | VNum (n : Ratio) | VStr (s : text) | VBytes (b : list byte)
| VSeq (items : list Value) | VSet (items : list Value) | VBag (items : list Value)
| VMap (entries : list (text * Value)) | VProd (fields : list (text * Value))
| VBagKV (pairs : list (Value * Value)) | VBind (k v : Value)
| VSome (v : Value) | VNone | VOk (v : Value) | VFail (code msg : text)
| VLambda (param : text) (body : Expr) (env : list (text * Value)).

Abbreviation Env := (list (text * Value)).

(** The first entry with a key: [iter().find(|(k, _)| k == key)]. *)
Fixpoint assoc {A} (key : text) (l : list (text * A)) : option A :=
  match l with
  | [] => None
  | (k, v) :: rest => if bool_decide (k = key) then Some v else assoc key rest
  end.
Definition has_key {A} (key : text) (l : list (text * A)) : bool :=
  existsb (fun '(k, _) => bool_decide (k = key)) l.

Definition env_get (name : text) (env : Env) : option Value := assoc name env.
Definition env_insert (name : text) (v : Value) (env : Env) : Env := (name, v) :: env.

(** The element-wise comparisons, over the comparison of elements. *)
Section Compare.
Context {A B : Type} (eq : A -> B -> bool).

Fixpoint seq_equal (lhs : list A) (rhs : list B) : bool :=
  match lhs, rhs with
  | [], [] => true
  | x :: lhs, y :: rhs => eq x y && seq_equal lhs rhs
  | _, _ => false
  end.

Definition set_equal (lhs : list A) (rhs : list B) : bool :=
  (length lhs =? length rhs)%nat && forallb (fun x => existsb (eq x) rhs) lhs.

(** The first element of [rhs] that is not marked and equal to [x], marked. *)
Fixpoint mark_first (x : A) (rhs : list (bool * B)) : option (list (bool * B)) :=
  match rhs with
  | [] => None
  | (matched, y) :: rest =>
      if negb matched && eq x y then Some ((true, y) :: rest)
      else match mark_first x rest with
           | Some rest => Some ((matched, y) :: rest)
           | None => None
           end
  end.
Fixpoint mark_all (lhs : list A) (rhs : list (bool * B)) : bool :=
  match lhs with
  | [] => true
  | x :: lhs =>
      match mark_first x rhs with Some rhs => mark_all lhs rhs | None => false end
  end.
Definition multiset_equal (lhs : list A) (rhs : list B) : bool :=
  (length lhs =? length rhs)%nat && mark_all lhs (map (pair false) rhs).
End Compare.

Definition kv_extensional_equal {A B} (eq : A -> B -> bool) (lhs : list (text * A))
    (rhs : list (text * B)) : bool :=
  (length lhs =? length rhs)%nat
  && forallb (fun '(key, x) =>
       match assoc key rhs with Some y => eq x y | None => false end) lhs.

Section Equality.
Context {B : BigNum}.

(** [impl PartialEq for Value] *)
Fixpoint value_eq (x y : Value) : bool :=
  match x, y with
  | VNull, VNull => true
  | VBool a, VBool b => Bool.eqb a b
  | VNum a, VNum b => ExactNum.eqb a b
  | VStr a, VStr b => bool_decide (a = b)
  | VBytes a, VBytes b => bytes_eqb a b
  | VSeq a, VSeq b => seq_equal value_eq a b
  | VSet a, VSet b => set_equal value_eq a b
  | VBag a, VBag b => multiset_equal value_eq a b
  | VMap a, VMap b => kv_extensional_equal value_eq a b
  | VProd a, VProd b => kv_extensional_equal value_eq a b
  | VBagKV a, VBagKV b =>
      multiset_equal (fun '(k1, v1) '(k2, v2) => value_eq k1 k2 && value_eq v1 v2) a b
  | VBind k1 v1, VBind k2 v2 => value_eq k1 k2 && value_eq v1 v2
  | VSome a, VSome b => value_eq a b
  | VNone, VNone => true
  | VOk a, VOk b => value_eq a b
  | VFail c1 m1, VFail c2 m2 => bool_decide (c1 = c2) && bool_decide (m1 = m2)
  | _, _ => false
  end.

(** [ensure_comparable(value).is_ok()] *)
Fixpoint comparable (value : Value) : bool :=
  match value with
  | VNull | VBool _ | VNum _ | VStr _ | VBytes _ | VNone | VFail _ _ => true
  | VSeq items | VSet items | VBag items => forallb comparable items
  | VMap entries | VProd entries => forallb (fun '(_, v) => comparable v) entries
  | VBagKV pairs => forallb (fun '(k, v) => comparable k && comparable v) pairs
  | VBind k v => comparable k && comparable v
  | VSome inner | VOk inner => comparable inner
  | VLambda _ _ _ => false
  end.

(** [items.iter().any(|existing| values_equal(existing, &value))] *)
Definition contains (items : list Value) (value : Value) : bool :=
  existsb (fun existing => value_eq existing value) items.
(** [if !contains { values.push(value) }] *)
Definition push_unique (items : list Value) (value : Value) : list Value :=
  if contains items value then items else items ++ [value].
End Equality.

(** The order of [String]: UTF-8 bytes order as their code points. *)
Fixpoint text_cmp (a b : text) : comparison :=
  match a, b with
  | [], [] => Eq
  | [], _ :: _ => Lt
  | _ :: _, [] => Gt
  | x :: a', y :: b' => match x ?= y with Eq => text_cmp a' b' | c => c end
  end.

(** Induction over the values inside a value; closures are leaves. *)
Section Induction.
Context (P : Value -> Prop).
Context (Hnull : P VNull) (Hbool : forall b, P (VBool b)) (Hnum : forall n, P (VNum n))
  (Hstr : forall s, P (VStr s)) (Hbytes : forall b, P (VBytes b))
  (Hseq : forall l, Forall P l -> P (VSeq l)) (Hset : forall l, Forall P l -> P (VSet l))
  (Hbag : forall l, Forall P l -> P (VBag l))
  (Hmap : forall l, Forall (fun p => P (snd p)) l -> P (VMap l))
  (Hprod : forall l, Forall (fun p => P (snd p)) l -> P (VProd l))
  (Hbagkv : forall l, Forall (fun p => P (fst p) /\ P (snd p)) l -> P (VBagKV l))
  (Hbind : forall k v, P k -> P v -> P (VBind k v))
  (Hsome : forall v, P v -> P (VSome v)) (Hnone : P VNone)
  (Hok : forall v, P v -> P (VOk v)) (Hfail : forall c m, P (VFail c m))
  (Hlambda : forall p b e, P (VLambda p b e)).

Fixpoint Value_nested_ind (v : Value) : P v :=
  let list_ind := fix go (l : list Value) : Forall P l :=
    match l with [] => Forall_nil_2 _ | x :: l => Forall_cons_2 _ _ _ (Value_nested_ind x) (go l) end in
  let kv_ind := fix go (l : list (text * Value)) : Forall (fun p => P (snd p)) l :=
    match l with
    | [] => Forall_nil_2 _
    | x :: l => Forall_cons_2 _ _ _ (Value_nested_ind (snd x)) (go l)
    end in
  match v with
  | VNull => Hnull | VBool b => Hbool b | VNum n => Hnum n | VStr s => Hstr s
  | VBytes b => Hbytes b
  | VSeq l => Hseq l (list_ind l) | VSet l => Hset l (list_ind l) | VBag l => Hbag l (list_ind l)
  | VMap l => Hmap l (kv_ind l) | VProd l => Hprod l (kv_ind l)
  | VBagKV l => Hbagkv l
      ((fix go (l : list (Value * Value)) : Forall (fun p => P (fst p) /\ P (snd p)) l :=
          match l with
          | [] => Forall_nil_2 _
          | x :: l => Forall_cons_2 _ _ _
              (conj (Value_nested_ind (fst x)) (Value_nested_ind (snd x))) (go l)
          end) l)
  | VBind k v => Hbind k v (Value_nested_ind k) (Value_nested_ind v)
  | VSome v => Hsome v (Value_nested_ind v) | VNone => Hnone
  | VOk v => Hok v (Value_nested_ind v) | VFail c m => Hfail c m
  | VLambda p b e => Hlambda p b e
  end.
End Induction.
