(* ===== verification/SdaValueFacts.v ===== *)
(** * Facts about values: equality is the extensional equality of the algebra

    [veq] states when two values are the same data: sequences by position, sets by
    members, bags up to a permutation, records by their bindings.  On well-formed
    data the comparison of the code decides it. *)
From S2P Require Import Prelude SdaNumber SdaLexer SdaParser SdaValue.

(** ** Association lists *)
Lemma assoc_elem {A} key (l : list (text * A)) v : assoc key l = Some v -> (key, v) ∈ l.
Proof.
  induction l as [|[k x] l IH]; simpl; [done|]. case_bool_decide; [|by right; auto].
  intros [= ->]. subst. by left.
Qed.
Lemma assoc_keys {A} key (l : list (text * A)) : is_Some (assoc key l) <-> key ∈ l.*1.
Proof.
  induction l as [|[k x] l IH]; simpl.
  - split; [by intros [??]|by intros ?%elem_of_nil].
  - rewrite elem_of_cons, <- IH. case_bool_decide; naive_solver.
Qed.
Lemma assoc_none {A} key (l : list (text * A)) : assoc key l = None <-> key ∉ l.*1.
Proof. rewrite <- assoc_keys, <- eq_None_not_Some. done. Qed.
Lemma assoc_unique {A} key (l : list (text * A)) v :
  NoDup l.*1 -> (key, v) ∈ l -> assoc key l = Some v.
Proof.
  induction l as [|[k x] l IH]; simpl; [by intros _ ?%elem_of_nil|].
  intros [Hn Hd]%NoDup_cons [Heq|Hin]%elem_of_cons.
  - simplify_eq. by rewrite bool_decide_true.
  - rewrite bool_decide_false; [by auto|]. intros ->. apply Hn.
    by apply (list_elem_of_fmap_2 fst _ (key, v)).
Qed.
Lemma assoc_app {A} key (l1 l2 : list (text * A)) :
  assoc key (l1 ++ l2) = match assoc key l1 with Some v => Some v | None => assoc key l2 end.
Proof. induction l1 as [|[k x] l1 IH]; simpl; [done|]. by case_bool_decide. Qed.
Lemma has_key_spec {A} key (l : list (text * A)) : has_key key l = true <-> key ∈ l.*1.
Proof.
  unfold has_key. induction l as [|[k x] l IH]; simpl.
  - split; [done|by intros ?%elem_of_nil].
  - rewrite elem_of_cons, orb_true_iff, IH, bool_decide_eq_true. naive_solver.
Qed.
Lemma has_key_false {A} key (l : list (text * A)) : has_key key l = false <-> key ∉ l.*1.
Proof. rewrite <- has_key_spec. destruct (has_key key l); naive_solver. Qed.

(** ** Two lists without repetitions, up to a partial equivalence *)
Section Pigeonhole.
Context {A : Type} (R : A -> A -> Prop).

Fixpoint apart (l : list A) : Prop :=
  match l with [] => True | x :: l => Forall (fun y => ~ R x y) l /\ apart l end.
Definition covers (a b : list A) : Prop := forall x, x ∈ a -> exists y, y ∈ b /\ R x y.

(** A matching of two lists, element by element up to a permutation. *)
Definition matching (a b : list A) : Prop := exists b', b' ≡ₚ b /\ Forall2 R a b'.

Lemma matching_sym a b : (forall x y, x ∈ a -> R x y -> R y x) -> matching a b -> matching b a.
Proof.
  intros Ha (b' & Hp & Hf).
  assert (Forall2 R b' a) as Hg.
  { clear Hp. induction Hf as [|x y a b' Hxy Hf IH]; constructor;
      [apply Ha; [by left|done]|apply IH; intros; apply Ha; [by right|done]]. }
  destruct (Permutation_Forall2 Hp Hg) as (a' & Ha' & Hf').
  exists a'. split; [by symmetry|done].
Qed.
Lemma matching_trans a b c :
  (forall x y z, x ∈ a -> R x y -> R y z -> R x z) -> matching a b -> matching b c -> matching a c.
Proof.
  intros Ha (b' & Hp & Hf) (c' & Hq & Hg). symmetry in Hp.
  destruct (Permutation_Forall2 Hp Hg) as (c2 & Hc & Hg').
  exists c2. split; [by rewrite <- Hc|]. clear - Hf Hg' Ha.
  revert c2 Hg'. induction Hf as [|x y a b' Hxy Hf IH]; intros c2 Hg; inversion Hg; subst;
    constructor; [eapply Ha; [by left|done..]|].
  apply IH; [|done]. intros x' y' z' ?. apply Ha. by right.
Qed.
Lemma matching_length a b : matching a b -> length a = length b.
Proof. intros (b' & Hp & Hf). rewrite (Forall2_length _ _ _ Hf). by rewrite Hp. Qed.

Context (Hsym : Symmetric R) (Htrans : Transitive R).

(** Remove the first of [a] and its mate from [b]. *)
Lemma covers_remove x a b1 y b2 :
  Forall (fun z => ~ R x z) a -> R x y -> covers a (b1 ++ y :: b2) -> covers a (b1 ++ b2).
Proof.
  intros Hx Hxy Hc z Hz. destruct (Hc z Hz) as (w & Hw & Hzw).
  exists w. split; [|done]. apply elem_of_app in Hw as [Hw|[->|Hw]%elem_of_cons];
    [apply elem_of_app; by left| |apply elem_of_app; by right].
  rewrite Forall_forall in Hx. destruct (Hx z Hz). by trans y.
Qed.
Lemma covers_length a b : apart a -> covers a b -> (length a <= length b)%nat.
Proof.
  revert b. induction a as [|x a IH]; intros b Ha Hc; simpl; [lia|].
  destruct Ha as [Hx Ha]. destruct (Hc x) as (y & Hy & Hxy); [by left|].
  apply list_elem_of_split in Hy as (b1 & b2 & ->). rewrite length_app. simpl.
  assert (length a <= length (b1 ++ b2))%nat; [|rewrite length_app in *; lia].
  apply IH; [done|]. eapply covers_remove; [exact Hx|exact Hxy|].
  intros z Hz. apply Hc. by right.
Qed.
Lemma covers_back a b : apart a -> covers a b -> length a = length b -> covers b a.
Proof.
  revert b. induction a as [|x a IH]; intros b Ha Hc Hl z Hz.
  - destruct b; [by apply elem_of_nil in Hz|done].
  - destruct Ha as [Hx Ha]. destruct (Hc x) as (y & Hy & Hxy); [by left|].
    apply list_elem_of_split in Hy as (b1 & b2 & ->).
    assert (z = y \/ z ∈ b1 ++ b2) as [->|Hz'] by set_solver.
    { exists x. split; [by left|by symmetry]. }
    destruct (IH (b1 ++ b2) Ha) with (x := z) as (w & Hw & Hzw); [| |done|].
    + eapply covers_remove; [exact Hx|exact Hxy|]. intros v Hv. apply Hc. by right.
    + rewrite length_app in *. simpl in *. lia.
    + exists w. split; [by right|done].
Qed.
End Pigeonhole.

(** ** Extensional equality *)
Definition pair_rel {A} (R : A -> A -> Prop) (p q : A * A) : Prop :=
  R (fst p) (fst q) /\ R (snd p) (snd q).

Inductive veq : Value -> Value -> Prop :=
| veq_null : veq VNull VNull
| veq_bool b : veq (VBool b) (VBool b)
| veq_num n : veq (VNum n) (VNum n)
| veq_str s : veq (VStr s) (VStr s)
| veq_bytes b : veq (VBytes b) (VBytes b)
| veq_seq a b : Forall2 veq a b -> veq (VSeq a) (VSeq b)
| veq_set a b : covers veq a b -> covers veq b a -> veq (VSet a) (VSet b)
| veq_bag a b : matching veq a b -> veq (VBag a) (VBag b)
| veq_map a b : (forall key, option_Forall2 veq (assoc key a) (assoc key b)) ->
    veq (VMap a) (VMap b)
| veq_prod a b : (forall key, option_Forall2 veq (assoc key a) (assoc key b)) ->
    veq (VProd a) (VProd b)
| veq_bagkv a b : matching (pair_rel veq) a b -> veq (VBagKV a) (VBagKV b)
| veq_bind k v k' v' : veq k k' -> veq v v' -> veq (VBind k v) (VBind k' v')
| veq_some v v' : veq v v' -> veq (VSome v) (VSome v')
| veq_none : veq VNone VNone
| veq_ok v v' : veq v v' -> veq (VOk v) (VOk v')
| veq_fail c m : veq (VFail c m) (VFail c m).

Lemma Forall2_sym_on {A} (R : A -> A -> Prop) a b :
  (forall x y, x ∈ a -> R x y -> R y x) -> Forall2 R a b -> Forall2 R b a.
Proof.
  intros Ha. induction 1 as [|x y a b Hxy Hf IH]; constructor; [apply Ha; [by left|done]|].
  apply IH. intros. apply Ha; [by right|done].
Qed.
Lemma Forall2_trans_on {A} (R : A -> A -> Prop) a b c :
  (forall x y z, x ∈ a -> R x y -> R y z -> R x z) -> Forall2 R a b -> Forall2 R b c -> Forall2 R a c.
Proof.
  intros Ha Hf. revert c. induction Hf as [|x y a b Hxy Hf IH]; intros c Hg; inversion Hg; subst;
    constructor; [eapply Ha; [by left|done..]|].
  apply IH; [|done]. intros x' y' z' ?. apply Ha. by right.
Qed.
(** Entries of a record by an induction hypothesis on its entries. *)
Lemma assoc_Forall {A} (P : A -> Prop) key (l : list (text * A)) v :
  Forall (fun p => P (snd p)) l -> assoc key l = Some v -> P v.
Proof. intros Hl Hk%assoc_elem. rewrite Forall_forall in Hl. by apply (Hl (key, v)). Qed.

Lemma assoc_rel_sym {A} (R : A -> A -> Prop) (a b : list (text * A)) :
  Forall (fun p => forall y, R (snd p) y -> R y (snd p)) a ->
  (forall key, option_Forall2 R (assoc key a) (assoc key b)) ->
  forall key, option_Forall2 R (assoc key b) (assoc key a).
Proof.
  intros Ha Hk key. specialize (Hk key). inversion Hk as [x y Hxy Ea Eb|Ea Eb]; constructor.
  by eapply (assoc_Forall (fun x => forall y, R x y -> R y x)); [done|symmetry; exact Ea|].
Qed.
Lemma assoc_rel_trans {A} (R : A -> A -> Prop) (a b c : list (text * A)) :
  Forall (fun p => forall y z, R (snd p) y -> R y z -> R (snd p) z) a ->
  (forall key, option_Forall2 R (assoc key a) (assoc key b)) ->
  (forall key, option_Forall2 R (assoc key b) (assoc key c)) ->
  forall key, option_Forall2 R (assoc key a) (assoc key c).
Proof.
  intros Ha Hk Hl key. specialize (Hk key). specialize (Hl key).
  inversion Hk as [x y Hxy Ea Eb|Ea Eb]; rewrite <- Eb in Hl; inversion Hl; constructor.
  eapply (assoc_Forall (fun x => forall y z, R x y -> R y z -> R x z)); [done|by symmetry|done..].
Qed.

#[global] Instance veq_sym : Symmetric veq.
Proof.
  intros x. induction x as [| | | | |l IH|l IH|l IH|l IH|l IH|l IH| | | | | |] using Value_nested_ind;
    intros y Hy; inversion Hy; subst; try (constructor; by auto); constructor.
  - rewrite Forall_forall in IH. eapply Forall2_sym_on; [|done]. naive_solver.
  - rewrite Forall_forall in IH. eapply matching_sym; [|done]. naive_solver.
  - by apply assoc_rel_sym.
  - by apply assoc_rel_sym.
  - rewrite Forall_forall in IH. eapply matching_sym; [|done].
    intros p q Hp [??]. destruct (IH _ Hp). split; auto.
Qed.

#[global] Instance pair_rel_sym {A} (R : A -> A -> Prop) : Symmetric R -> Symmetric (pair_rel R).
Proof. intros HR p q [??]. by split; symmetry. Qed.
#[global] Instance pair_rel_trans {A} (R : A -> A -> Prop) :
  Transitive R -> Transitive (pair_rel R).
Proof. intros HR p q r [??] [??]. split; by etrans. Qed.

#[global] Instance veq_trans : Transitive veq.
Proof.
  intros x. induction x as [| | | | |l IH|l IH|l IH|l IH|l IH|l IH| | | | | |] using Value_nested_ind;
    intros y z Hy Hz; inversion Hy; subst; inversion Hz; subst; try done;
    try (constructor; by eauto); constructor.
  - rewrite Forall_forall in IH. eapply Forall2_trans_on; [|done..]. naive_solver.
  - rewrite Forall_forall in IH. intros x Hx. destruct (H0 x Hx) as (y & Hy' & Hxy).
    destruct (H2 y Hy') as (w & Hw & Hyw). eauto.
  - rewrite Forall_forall in IH. intros w Hw. destruct (H3 w Hw) as (y & Hy' & Hwy).
    destruct (H1 y Hy') as (x & Hx & Hyx). exists x. split; [done|]. symmetry.
    eapply IH; [done|by symmetry|by symmetry].
  - rewrite Forall_forall in IH. eapply matching_trans; [|done..]. naive_solver.
  - by eapply assoc_rel_trans.
  - by eapply assoc_rel_trans.
  - rewrite Forall_forall in IH. eapply matching_trans; [|done..].
    intros p q r Hp [??] [??]. destruct (IH _ Hp). split; eauto.
Qed.

(** ** Well-formed data

    Numbers are in lowest terms, sets have no two equal members and records no
    repeated key; closures are well formed when what they hold is. *)
Section WellFormed.
Context {B : BigNum}.

(** No repeated key in a record literal, and numbers in lowest terms. *)
Inductive good_expr : Expr -> Prop :=
| ge_null : good_expr ENull
| ge_bool b : good_expr (EBool b)
| ge_num n : ratio_ok n -> good_expr (ENum n)
| ge_str s : good_expr (EStr s)
| ge_bytes b : good_expr (EBytes b)
| ge_ident n : good_expr (EIdent n)
| ge_placeholder : good_expr EPlaceholder
| ge_seq l : Forall good_expr l -> good_expr (ESeq l)
| ge_set l : Forall good_expr l -> good_expr (ESet l)
| ge_bag l : Forall good_expr l -> good_expr (EBag l)
| ge_map l : NoDup l.*1 -> Forall (fun p => good_expr (snd p)) l -> good_expr (EMap l)
| ge_prod l : NoDup l.*1 -> Forall (fun p => good_expr (snd p)) l -> good_expr (EProd l)
| ge_bagkv l : Forall (fun p => good_expr (snd p)) l -> good_expr (EBagKV l)
| ge_some e : good_expr e -> good_expr (ESome e)
| ge_none : good_expr ENone
| ge_ok e : good_expr e -> good_expr (EOk e)
| ge_fail c m : good_expr c -> good_expr m -> good_expr (EFail c m)
| ge_binop op l r : good_expr l -> good_expr r -> good_expr (EBinOp op l r)
| ge_unop op e : good_expr e -> good_expr (EUnOp op e)
| ge_pipe l r : good_expr l -> good_expr r -> good_expr (EPipe l r)
| ge_lambda p b : good_expr b -> good_expr (ELambda p b)
| ge_call f l : good_expr f -> Forall good_expr l -> good_expr (ECall f l)
| ge_select e f m : good_expr e -> good_expr (ESelect e f m)
| ge_enrich l : Forall (fun p => good_expr (snd p)) l -> good_expr (EEnrich l)
| ge_comprehension y b c p :
    (forall e, y = Some e -> good_expr e) -> good_expr c -> (forall e, p = Some e -> good_expr e) ->
    good_expr (EComprehension y b c p).

(** No two members are equal. *)
Definition distinct : list Value -> Prop := apart (fun x y => value_eq x y = true).

Inductive good : Value -> Prop :=
| good_null : good VNull
| good_bool b : good (VBool b)
| good_num n : ratio_ok n -> good (VNum n)
| good_str s : good (VStr s)
| good_bytes b : good (VBytes b)
| good_seq l : Forall good l -> good (VSeq l)
| good_set l : Forall good l -> Forall (fun x => comparable x = true) l -> distinct l -> good (VSet l)
| good_bag l : Forall good l -> good (VBag l)
| good_map l : NoDup l.*1 -> Forall (fun p => good (snd p)) l -> good (VMap l)
| good_prod l : NoDup l.*1 -> Forall (fun p => good (snd p)) l -> good (VProd l)
| good_bagkv l : Forall (fun p => good (fst p) /\ good (snd p)) l -> good (VBagKV l)
| good_bind k v : good k -> good v -> good (VBind k v)
| good_some v : good v -> good (VSome v)
| good_none : good VNone
| good_ok v : good v -> good (VOk v)
| good_fail c m : good (VFail c m)
| good_lambda p b e : good_expr b -> Forall (fun p => good (snd p)) e -> good (VLambda p b e).

(** Comparable data: well formed and without closures. *)
Definition data (v : Value) : Prop := good v /\ comparable v = true.

Lemma data_list_seq l : data (VSeq l) -> Forall data l.
Proof.
  intros [Hg Hc]. inversion Hg; subst. simpl in Hc. rewrite forallb_forall in Hc.
  rewrite Forall_forall in *. intros x Hx. split; [auto|]. apply Hc. by apply list_elem_of_In.
Qed.
Lemma data_list_bag l : data (VBag l) -> Forall data l.
Proof.
  intros [Hg Hc]. inversion Hg; subst. simpl in Hc. rewrite forallb_forall in Hc.
  rewrite Forall_forall in *. intros x Hx. split; [auto|]. apply Hc. by apply list_elem_of_In.
Qed.
Lemma data_list_set l : data (VSet l) -> Forall data l /\ distinct l.
Proof.
  intros [Hg Hc]. inversion Hg; subst. split; [|done].
  rewrite Forall_forall in *. intros x Hx. split; auto.
Qed.
Lemma data_entries l : Forall (fun p : text * Value => good (snd p)) l ->
  forallb (fun '(_, v) => comparable v) l = true -> Forall (fun p => data (snd p)) l.
Proof.
  intros Hg Hc. rewrite forallb_forall in Hc. rewrite Forall_forall in *. intros [k v] Hx.
  split; [by apply (Hg (k, v))|]. by apply (Hc (k, v)), list_elem_of_In.
Qed.
Lemma data_map l : data (VMap l) -> NoDup l.*1 /\ Forall (fun p => data (snd p)) l.
Proof. intros [Hg Hc]. inversion Hg; subst. split; [done|]. by apply data_entries. Qed.
Lemma data_prod l : data (VProd l) -> NoDup l.*1 /\ Forall (fun p => data (snd p)) l.
Proof. intros [Hg Hc]. inversion Hg; subst. split; [done|]. by apply data_entries. Qed.
Lemma data_bagkv l : data (VBagKV l) -> Forall (fun p => data (fst p) /\ data (snd p)) l.
Proof.
  intros [Hg Hc]. inversion Hg; subst. simpl in Hc. rewrite forallb_forall in Hc.
  rewrite Forall_forall in *. intros [k v] Hx. destruct (H0 _ Hx) as [Hgk Hgv].
  apply list_elem_of_In in Hx. specialize (Hc _ Hx). simpl in *. boolify. by repeat split.
Qed.
Lemma data_bind k v : data (VBind k v) -> data k /\ data v.
Proof. intros [Hg Hc]. inversion Hg; subst. simpl in Hc. boolify. by repeat split. Qed.
Lemma data_some v : data (VSome v) -> data v.
Proof. intros [Hg Hc]. inversion Hg; subst. by split. Qed.
Lemma data_ok v : data (VOk v) -> data v.
Proof. intros [Hg Hc]. inversion Hg; subst. by split. Qed.
End WellFormed.

(** ** The comparisons of lists decide their relations *)
Section ListComparisons.
Context {A : Type} (eq : A -> A -> bool) (R : A -> A -> Prop).
Context (Hsym : Symmetric R) (Htrans : Transitive R).
Definition decides (a b : list A) : Prop := forall x y, x ∈ a -> y ∈ b -> eq x y = true <-> R x y.

Lemma seq_equal_spec a b : decides a b -> seq_equal eq a b = true <-> Forall2 R a b.
Proof.
  revert b. induction a as [|x a IH]; intros [|y b] Hd; simpl.
  - split; [constructor|done].
  - split; [done|by inversion 1].
  - split; [done|by inversion 1].
  - assert (decides a b) as Hab by (intros x' y' ??; apply Hd; by right).
    rewrite andb_true_iff, (IH _ Hab), (Hd x y) by by left.
    split; [intros [??]; by constructor|by inversion 1].
Qed.

Lemma existsb_covers a b :
  decides a b -> forallb (fun x => existsb (eq x) b) a = true <-> covers R a b.
Proof.
  intros Hd. rewrite forallb_forall. split.
  - intros H x Hx. apply list_elem_of_In in Hx as Hi. apply H, existsb_exists in Hi as (y & Hy & E).
    apply list_elem_of_In in Hy. exists y. split; [done|]. by apply Hd.
  - intros H x Hx. apply list_elem_of_In in Hx. destruct (H x Hx) as (y & Hy & E).
    apply existsb_exists. exists y. split; [by apply list_elem_of_In|]. by apply Hd.
Qed.
Lemma set_equal_spec a b :
  decides a b -> apart R a -> apart R b ->
  set_equal eq a b = true <-> covers R a b /\ covers R b a.
Proof.
  intros Hd Ha Hb. unfold set_equal. rewrite andb_true_iff, Nat.eqb_eq, existsb_covers by done.
  split; [intros [Hl Hc]; split; [done|by eapply covers_back]|].
  intros [Hab Hba]. split; [|done].
  pose proof (covers_length _ _ _ _ _ Ha Hab). pose proof (covers_length _ _ _ _ _ Hb Hba). lia.
Qed.

Lemma matching_cons x y a b : R x y -> matching R a b -> matching R (x :: a) (y :: b).
Proof. intros Hxy (b' & Hp & Hf). exists (y :: b'). split; [by rewrite Hp|by constructor]. Qed.
Lemma matching_perm a b b' : b ≡ₚ b' -> matching R a b -> matching R a b'.
Proof. intros Hp (c & Hc & Hf). exists c. split; [by rewrite Hc|done]. Qed.
Lemma matching_inv x a b :
  matching R (x :: a) b -> exists y m, b ≡ₚ y :: m /\ R x y /\ matching R a m.
Proof.
  intros (b' & Hp & Hf). inversion Hf as [|? y ? m Hxy Hf']; subst.
  exists y, m. split; [by symmetry|]. split; [done|]. by exists m.
Qed.
Lemma matching_replace a y z m : R y z -> matching R a (y :: m) -> matching R a (z :: m).
Proof.
  intros Hyz (b' & Hp & Hf). assert (y ∈ b') as Hy by (rewrite Hp; by left).
  apply list_elem_of_split in Hy as (b1 & b2 & ->).
  rewrite <- Permutation_middle in Hp. apply Permutation_cons_inv in Hp.
  exists (b1 ++ z :: b2). split; [by rewrite <- Permutation_middle, Hp|].
  apply Forall2_app_inv_r in Hf as (a1 & a2 & H1 & H2 & ->).
  inversion H2 as [|x ? a2' ? Hxy H2']; subst.
  apply Forall2_app; [done|]. constructor; [by trans y|done].
Qed.

(** The elements that are not marked yet. *)
Fixpoint unmarked (r : list (bool * A)) : list A :=
  match r with
  | [] => []
  | (m, y) :: r => if m : bool then unmarked r else y :: unmarked r
  end.
Lemma unmarked_start b : unmarked (map (pair false) b) = b.
Proof. induction b as [|y b IH]; [done|]. simpl. by rewrite IH. Qed.
Lemma mark_first_some x r r' :
  mark_first eq x r = Some r' -> exists y, unmarked r ≡ₚ y :: unmarked r' /\ eq x y = true.
Proof.
  revert r'. induction r as [|[m y] r IH]; intros r' H; simpl in H; [done|].
  destruct (negb m && eq x y) eqn:E.
  - simplify_eq. boolify. subst m. exists y. by split.
  - destruct (mark_first eq x r) as [r1|] eqn:E1; [|done]. simplify_eq.
    destruct (IH _ eq_refl) as (z & Hp & Hz). exists z. split; [|done].
    destruct m; simpl; rewrite Hp; [done|]. by rewrite Permutation_swap.
Qed.
Lemma mark_first_none x r y : mark_first eq x r = None -> y ∈ unmarked r -> eq x y = false.
Proof.
  induction r as [|[m z] r IH]; simpl; [by intros _ ?%elem_of_nil|].
  destruct (negb m && eq x z) eqn:E; [done|].
  destruct (mark_first eq x r); [done|]. intros _ Hy.
  destruct m; simpl in *; [by auto|]. apply elem_of_cons in Hy as [->|Hy]; [done|by auto].
Qed.
Lemma mark_all_spec a r :
  decides a (unmarked r) -> length a = length (unmarked r) ->
  mark_all eq a r = true <-> matching R a (unmarked r).
Proof.
  revert r. induction a as [|x a IH]; intros r Hd Hl; simpl.
  { destruct (unmarked r); [|done]. split; [|done]. intros _. by exists []. }
  destruct (mark_first eq x r) as [r'|] eqn:E.
  - apply mark_first_some in E as (y & Hp & Hxy).
    assert (R x y) as HR. { apply Hd; [by left| |done]. rewrite Hp. by left. }
    rewrite IH; [| |by rewrite Hp in Hl; simpl in Hl; lia].
    2:{ intros x' y' Hx' Hy'. apply Hd; [by right|]. rewrite Hp. by right. }
    split; [intros; eapply matching_perm; [by symmetry|]; by apply matching_cons|].
    intros (z & m & Hz & Hxz & Hm)%matching_inv. rewrite Hp in Hz.
    assert (y ∈ z :: m) as [->|Hy]%elem_of_cons by (rewrite <- Hz; by left).
    { apply Permutation_cons_inv in Hz. by eapply matching_perm. }
    apply list_elem_of_split in Hy as (m1 & m2 & ->).
    assert (z :: m1 ++ m2 ≡ₚ unmarked r') as Hr.
    { apply (Permutation_cons_inv (a := y)). rewrite Hz, <- Permutation_middle.
      by rewrite Permutation_swap. }
    eapply matching_perm; [exact Hr|]. apply (matching_replace _ y); [by trans x|].
    eapply matching_perm; [|exact Hm]. by rewrite <- Permutation_middle.
  - split; [done|]. intros (z & m & Hz & Hxz & Hm)%matching_inv.
    assert (z ∈ unmarked r) as Hin by (rewrite Hz; by left).
    apply Hd in Hxz; [|by left|done]. by rewrite (mark_first_none _ _ _ E Hin) in Hxz.
Qed.
Lemma multiset_equal_spec a b :
  decides a b -> multiset_equal eq a b = true <-> matching R a b.
Proof.
  intros Hd. unfold multiset_equal. rewrite andb_true_iff, Nat.eqb_eq.
  pose proof (mark_all_spec a (map (pair false) b)) as H. rewrite unmarked_start in H.
  split; [intros [Hl Hm]; by apply H|]. intros Hm. pose proof (matching_length _ _ _ Hm).
  split; [done|by apply H].
Qed.

Lemma kv_equal_spec (a b : list (text * A)) :
  decides a.*2 b.*2 -> NoDup a.*1 -> NoDup b.*1 ->
  kv_extensional_equal eq a b = true <->
  (forall key, option_Forall2 R (assoc key a) (assoc key b)).
Proof.
  intros Hd Ha Hb. unfold kv_extensional_equal. rewrite andb_true_iff, Nat.eqb_eq, forallb_forall.
  assert (forall k x y, (k, x) ∈ a -> assoc k b = Some y -> eq x y = true <-> R x y) as Hd'.
  { intros k x y Hx Hy%assoc_elem. apply Hd; apply list_elem_of_fmap;
      [by exists (k, x)|by exists (k, y)]. }
  split.
  - intros [Hl Hall] key. destruct (assoc key a) as [x|] eqn:Ea.
    + pose proof (assoc_elem _ _ _ Ea) as Hx. pose proof Hx as Hi. apply list_elem_of_In in Hi.
      specialize (Hall _ Hi). simpl in Hall. destruct (assoc key b) as [y|] eqn:Eb; [|done].
      constructor. by eapply Hd'.
    + rewrite assoc_none in Ea. destruct (assoc key b) as [y|] eqn:Eb; [|constructor].
      assert (a.*1 ⊆ b.*1) as Hsub.
      { intros k ([? x] & -> & Hx)%list_elem_of_fmap. apply list_elem_of_In in Hx.
        specialize (Hall _ Hx). simpl in Hall. apply assoc_keys. by destruct (assoc _ b). }
      destruct Ea. rewrite (submseteq_length_Permutation a.*1 b.*1).
      * apply assoc_keys. by rewrite Eb.
      * by apply NoDup_submseteq.
      * rewrite !length_fmap. lia.
  - intros H. assert (a.*1 ≡ₚ b.*1) as Hp.
    { apply NoDup_Permutation; [done..|]. intros k. rewrite <- !assoc_keys.
      specialize (H k). inversion H; naive_solver. }
    split; [by rewrite <- (length_fmap fst a), Hp, length_fmap|].
    intros [k x] Hx. apply list_elem_of_In in Hx. specialize (H k).
    rewrite (assoc_unique _ _ _ Ha Hx) in H. inversion H as [? y Hxy E1 E2|]. subst.
    eapply Hd'; eauto.
Qed.
End ListComparisons.

(** ** Equality of values *)
Fixpoint height (v : Value) : nat :=
  let all (l : list Value) := foldr (fun x n => max (height x) n) 0%nat l in
  match v with
  | VSeq l | VSet l | VBag l => S (all l)
  | VMap l | VProd l => S (foldr (fun p n => max (height (snd p)) n) 0%nat l)
  | VBagKV l => S (foldr (fun p n => max (max (height (fst p)) (height (snd p))) n) 0%nat l)
  | VBind k v => S (max (height k) (height v))
  | VSome v | VOk v => S (height v)
  | _ => 1%nat
  end.
Lemma foldr_max_elem {A} (f : A -> nat) l n x :
  (foldr (fun x n => max (f x) n) 0%nat l <= n)%nat -> x ∈ l -> (f x <= n)%nat.
Proof.
  intros Hn. induction 1 as [x l|x y l _ IH]; simpl in *; [lia|]. apply IH. lia.
Qed.

Section Equality.
Context {B : BigNum} {L : BigNumLaws B}.

(** Two reduced fractions with the same value are the same. *)
Lemma ratio_unique a b :
  ratio_ok a -> ratio_ok b -> numer a * denom b = numer b * denom a -> a = b.
Proof.
  destruct a as [n d], b as [n' d']. intros [Hd Hg] [Hd' Hg'] H. simpl in *.
  assert (d' = d) as ->; [|f_equal; nia].
  apply Z.divide_antisym_nonneg; [lia..| |].
  - apply (Z.gauss d' n' d); [exists n; nia|]. by rewrite Z.gcd_comm.
  - apply (Z.gauss d n d'); [exists n'; nia|]. by rewrite Z.gcd_comm.
Qed.
Lemma num_eqb_spec a b : ratio_ok a -> ratio_ok b -> ExactNum.eqb a b = true <-> a = b.
Proof.
  intros Ha Hb. unfold ExactNum.eqb. rewrite cmp_spec by done.
  destruct (Z.compare_spec (numer a * denom b) (numer b * denom a)) as [H|H|H].
  - split; [|done]. intros _. by apply ratio_unique.
  - split; [done|]. intros ->. lia.
  - split; [done|]. intros ->. lia.
Qed.

Lemma apart_impl {A} (R R' : A -> A -> Prop) l :
  (forall x y, x ∈ l -> y ∈ l -> R' x y -> R x y) -> apart R l -> apart R' l.
Proof.
  induction l as [|x l IH]; simpl; [done|]. intros Hi [Hx Hl]. split.
  - rewrite Forall_forall in *. intros y Hy HR. apply (Hx y Hy). apply Hi; [by left|by right|done].
  - apply IH; [|done]. intros. apply Hi; [by right..|done].
Qed.

Lemma value_eq_bounded n x y :
  (height x <= n)%nat -> (height y <= n)%nat -> data x -> data y ->
  value_eq x y = true <-> veq x y.
Proof.
  revert x y. induction n as [|n IH]; intros x y Hx Hy Dx Dy; [destruct x; simpl in Hx; lia|].
  assert (forall l m, Forall data l -> Forall data m ->
    (foldr (fun x n => max (height x) n) 0%nat l <= n)%nat ->
    (foldr (fun x n => max (height x) n) 0%nat m <= n)%nat -> decides value_eq veq l m) as Hd.
  { intros l m Hl Hm Hnl Hnm a b Ha Hb. rewrite Forall_forall in Hl, Hm.
    apply IH; [by apply (foldr_max_elem height l)|by apply (foldr_max_elem height m)|auto|auto]. }
  assert (forall l m : list (text * Value), Forall (fun p => data (snd p)) l ->
    Forall (fun p => data (snd p)) m ->
    (foldr (fun p n => max (height (snd p)) n) 0%nat l <= n)%nat ->
    (foldr (fun p n => max (height (snd p)) n) 0%nat m <= n)%nat ->
    decides value_eq veq l.*2 m.*2) as Hkv.
  { intros l m Hl Hm Hnl Hnm a b (p & -> & Hp)%list_elem_of_fmap (q & -> & Hq)%list_elem_of_fmap.
    rewrite Forall_forall in Hl, Hm.
    apply IH; [by apply (foldr_max_elem (fun p => height (snd p)) l)
              |by apply (foldr_max_elem (fun p => height (snd p)) m)|auto|auto]. }
  destruct x, y; try (split; [done|by inversion 1]); simpl in Hx, Hy; simpl value_eq.
  - split; [constructor|done].
  - split; [intros ->%Bool.eqb_prop; constructor|inversion 1; by apply Bool.eqb_true_iff].
  - destruct Dx as [Gx _], Dy as [Gy _]. inversion Gx; inversion Gy; subst.
    rewrite num_eqb_spec by done. split; [intros ->; constructor|by inversion 1].
  - rewrite bool_decide_eq_true. split; [intros ->; constructor|by inversion 1].
  - unfold bytes_eqb. rewrite bool_decide_eq_true. split; [intros ->; constructor|by inversion 1].
  - rewrite (seq_equal_spec value_eq veq).
    + split; [by constructor|by inversion 1].
    + apply Hd; [by apply data_list_seq..|lia|lia].
  - apply data_list_set in Dx as [Dx Ax], Dy as [Dy Ay].
    rewrite (set_equal_spec value_eq veq veq_sym veq_trans).
    + split; [intros [??]; by constructor|by inversion 1].
    + apply Hd; [done..|lia|lia].
    + eapply apart_impl; [|exact Ax]. intros x y ???. by apply (Hd items items); try done; lia.
    + eapply apart_impl; [|exact Ay]. intros x y ???. by apply (Hd items0 items0); try done; lia.
  - rewrite (multiset_equal_spec value_eq veq veq_sym veq_trans).
    + split; [by constructor|by inversion 1].
    + apply Hd; [by apply data_list_bag..|lia|lia].
  - apply data_map in Dx as [Nx Dx], Dy as [Ny Dy].
    rewrite (kv_equal_spec value_eq veq) by (done || by apply Hkv; try done; lia).
    split; [by constructor|by inversion 1].
  - apply data_prod in Dx as [Nx Dx], Dy as [Ny Dy].
    rewrite (kv_equal_spec value_eq veq) by (done || by apply Hkv; try done; lia).
    split; [by constructor|by inversion 1].
  - apply data_bagkv in Dx, Dy. rewrite Forall_forall in Dx, Dy.
    rewrite (multiset_equal_spec _ (pair_rel veq) _ _).
    + split; [by constructor|by inversion 1].
    + intros [k v] [k' v'] Hp Hq. destruct (Dx _ Hp), (Dy _ Hq).
      pose proof (foldr_max_elem (fun p => max (height p.1) (height p.2)) pairs n) as Hb1.
      pose proof (foldr_max_elem (fun p => max (height p.1) (height p.2)) pairs0 n) as Hb2.
      apply Hb1 in Hp; [|lia]. apply Hb2 in Hq; [|lia]. simpl in *. rewrite andb_true_iff, !IH by (done || lia). done.
  - apply data_bind in Dx as [??], Dy as [??]. rewrite andb_true_iff, !IH by (done || lia).
    split; [intros [??]; by constructor|by inversion 1].
  - apply data_some in Dx, Dy. rewrite IH by (done || lia). split; [by constructor|by inversion 1].
  - split; [constructor|done].
  - apply data_ok in Dx, Dy. rewrite IH by (done || lia). split; [by constructor|by inversion 1].
  - rewrite andb_true_iff, !bool_decide_eq_true. split; [intros [-> ->]; constructor|by inversion 1].
Qed.

Lemma value_eq_spec x y : data x -> data y -> value_eq x y = true <-> veq x y.
Proof. apply (value_eq_bounded (max (height x) (height y))); lia. Qed.

Lemma assoc_rel_refl {A} (R : A -> A -> Prop) (a : list (text * A)) :
  Forall (fun p => R (snd p) (snd p)) a -> forall key, option_Forall2 R (assoc key a) (assoc key a).
Proof.
  intros Ha key. destruct (assoc key a) eqn:E; constructor.
  by eapply (assoc_Forall (fun x => R x x)).
Qed.
Lemma Forall_mp {A} (P Q : A -> Prop) l : Forall (fun x => P x -> Q x) l -> Forall P l -> Forall Q l.
Proof. intros HPQ HP. rewrite Forall_forall in *. auto. Qed.
Lemma veq_refl x : data x -> veq x x.
Proof.
  induction x as [| | | | |l IH|l IH|l IH|l IH|l IH|l IH|k v IHk IHv|v IH| |v IH| |p b e]
    using Value_nested_ind; intros Dx; try constructor.
  - apply data_list_seq in Dx. apply Forall_Forall2_diag. exact (Forall_mp _ _ _ IH Dx).
  - apply data_list_set in Dx as [Dx _]. apply (Forall_mp _ _ _ IH) in Dx.
    rewrite Forall_forall in Dx. intros y Hy. eauto.
  - apply data_list_set in Dx as [Dx _]. apply (Forall_mp _ _ _ IH) in Dx.
    rewrite Forall_forall in Dx. intros y Hy. eauto.
  - apply data_list_bag in Dx. exists l. split; [done|]. apply Forall_Forall2_diag.
    exact (Forall_mp _ _ _ IH Dx).
  - apply data_map in Dx as [_ Dx]. apply assoc_rel_refl. exact (Forall_mp _ _ _ IH Dx).
  - apply data_prod in Dx as [_ Dx]. apply assoc_rel_refl. exact (Forall_mp _ _ _ IH Dx).
  - apply data_bagkv in Dx. exists l. split; [done|]. apply Forall_Forall2_diag.
    eapply Forall_mp; [|exact Dx]. eapply Forall_impl; [exact IH|]. intros [k v] [??] [??].
    split; auto.
  - apply data_bind in Dx as [??]. auto.
  - apply data_bind in Dx as [??]. auto.
  - apply data_some in Dx. auto.
  - apply data_ok in Dx. auto.
  - by destruct Dx.
Qed.

(** C26. On well-formed data the comparison [==] of values is the extensional
    equality of the algebra: sequences by position, sets by their members, bags up
    to a permutation, records by their bindings, and through every nesting; and it
    is an equivalence, as the specification of the language demands. *)
Theorem equality_extensional (x y z : Value) :
  data x -> data y -> data z ->
  (value_eq x y = true <-> veq x y) /\
  value_eq x x = true /\
  value_eq x y = value_eq y x /\
  (value_eq x y = true -> value_eq y z = true -> value_eq x z = true).
Proof.
  intros Dx Dy Dz. split; [by apply value_eq_spec|].
  split; [by apply value_eq_spec, veq_refl|]. split.
  - apply eq_true_iff_eq. rewrite !value_eq_spec by done. split; apply veq_sym.
  - rewrite !value_eq_spec by done. apply veq_trans.
Qed.
End Equality.
