(* ===== verification/SdaNumberFacts.v ===== *)
(** * Facts about the numbers of the data algebra

    The concrete instances meet the laws, and the text of a number is read back as
    the same number exactly when its denominator is a power of ten or has a factor
    other than two and five. *)
From S2P Require Import Prelude SdaNumber SdaLexer SdaParser SdaValue SdaValueFacts.
Import ExactNum.

(** ** Decimal digits *)
Lemma digits_val_acc ds v :
  fold_left (fun v c => v * 10 + (c - 48)) ds v = v * 10 ^ Z.of_nat (length ds) + digits_val ds.
Proof.
  unfold digits_val. revert v. induction ds as [|c ds IH]; intros v; [simpl; lia|].
  cbn [fold_left length]. rewrite IH, (IH (0 * 10 + _)), Nat2Z.inj_succ, Z.pow_succ_r by lia. lia.
Qed.
Lemma digits_val_app a b : digits_val (a ++ b) = digits_val a * 10 ^ Z.of_nat (length b) + digits_val b.
Proof. unfold digits_val at 1. rewrite fold_left_app, digits_val_acc. done. Qed.
Lemma ds_val_cons c ds : digits_val (c :: ds) = (c - 48) * 10 ^ Z.of_nat (length ds) + digits_val ds.
Proof. unfold digits_val at 1. cbn [fold_left]. rewrite digits_val_acc. lia. Qed.
Lemma digits_val_zeros n ds : digits_val (repeat 48 n ++ ds) = digits_val ds.
Proof. induction n as [|n IH]; [done|]. cbn [repeat app]. rewrite ds_val_cons, IH. lia. Qed.
Lemma is_digit_range c : is_ascii_digit c = true <-> 48 <= c <= 57.
Proof. unfold is_ascii_digit. rewrite andb_true_iff. lia. Qed.

Lemma decimal_digits_spec fuel z acc :
  0 <= z < 2 ^ Z.of_nat fuel -> (0 < fuel)%nat -> forallb is_ascii_digit acc = true ->
  decimal_digits fuel z acc <> [] /\
  forallb is_ascii_digit (decimal_digits fuel z acc) = true /\
  digits_val (decimal_digits fuel z acc) = z * 10 ^ Z.of_nat (length acc) + digits_val acc.
Proof.
  revert z acc. induction fuel as [|fuel IH]; intros z acc Hz Hf Ha; [lia|].
  cbn [decimal_digits]. destruct (z <? 10) eqn:E; boolify.
  - split; [done|]. split; [cbn; rewrite Ha, andb_true_r; apply is_digit_range; lia|].
    rewrite ds_val_cons. lia.
  - rewrite Nat2Z.inj_succ, Z.pow_succ_r in Hz by lia.
    pose proof (Z.div_mod z 10 ltac:(lia)). pose proof (Z.mod_pos_bound z 10 ltac:(lia)).
    destruct (IH (z / 10) ((48 + z mod 10) :: acc)) as (H1 & H2 & H3).
    + lia.
    + destruct fuel; [simpl in Hz; lia|lia].
    + cbn. rewrite Ha, andb_true_r. apply is_digit_range. lia.
    + split; [done|]. split; [done|]. rewrite H3, ds_val_cons. cbn [length].
      rewrite Nat2Z.inj_succ, Z.pow_succ_r by lia. nia.
Qed.
Lemma sample_to_string_spec z :
  0 <= z -> sample_to_string z <> [] /\ forallb is_ascii_digit (sample_to_string z) = true /\
            digits_val (sample_to_string z) = z.
Proof.
  intros Hz. unfold sample_to_string. rewrite (proj2 (Z.ltb_ge z 0)) by lia. rewrite Z.abs_eq by lia.
  destruct (decimal_digits_spec (S (Z.to_nat (Z.log2 z))) z []) as (H1 & H2 & H3); [|lia|done|].
  - rewrite Nat2Z.inj_succ, Z2Nat.id by apply Z.log2_nonneg.
    destruct (Z.eq_dec z 0) as [->|]; [cbn; lia|]. pose proof (Z.log2_spec z). lia.
  - split; [done|]. split; [done|]. rewrite H3. cbn. lia.
Qed.

(** A number that starts with a digit has no sign. *)
Lemma plain_head {A} ds (f : text -> A) d :
  forallb is_ascii_digit ds = true -> match ds with 45 :: t => f t | _ => d end = d.
Proof.
  intros Hd. destruct ds as [|c ds]; [done|]. cbn in Hd. apply andb_true_iff in Hd as [Hc _].
  apply is_digit_range in Hc. assert (c <> 45) by lia.
  destruct c as [|c|c]; [done| |done]. by repeat (destruct c as [c|c|]; try done).
Qed.

(** ** The concrete instances meet the laws *)
Lemma reduce_ok n d : d <> 0 -> ratio_ok (reduce n d).
Proof.
  intros Hd. unfold reduce, ratio_ok. cbn [numer denom].
  assert (0 < Z.gcd n d) as Hg.
  { pose proof (Z.gcd_nonneg n d). destruct (Z.eq_dec (Z.gcd n d) 0) as [E|]; [|lia].
    by apply Z.gcd_eq_0_r in E. }
  destruct (Z.gcd_divide_l n d) as [n' Hn], (Z.gcd_divide_r n d) as [d' Hd'].
  set (g := Z.gcd n d) in *. assert (Z.gcd n' d' = 1) as Hco.
  { assert (g * Z.gcd n' d' = g * 1); [|nia].
    rewrite <- Z.gcd_mul_mono_l_nonneg by lia. unfold g at 1 2. rewrite (Z.mul_comm _ n'), (Z.mul_comm _ d').
    fold g. rewrite <- Hn, <- Hd'. unfold g. lia. }
  replace (Z.abs d) with (Z.abs d' * g) by (rewrite Hd', Z.abs_mul, (Z.abs_eq g); lia).
  replace n with (n' * g) by lia. rewrite !Z.div_mul by lia. split; [nia|].
  rewrite Z.gcd_abs_r. destruct (Z.sgn_spec d) as [[? ->]|[[? ->]|[? ->]]]; [|lia|].
  - by rewrite Z.mul_1_l.
  - replace (-1 * n') with (- n') by lia. by rewrite Z.gcd_opp_l.
Qed.
Lemma reduce_value n d : d <> 0 -> numer (reduce n d) * d = n * denom (reduce n d).
Proof.
  intros Hd. unfold reduce. cbn [numer denom].
  destruct (Z.gcd_divide_l n d) as [n' Hn], (Z.gcd_divide_r n d) as [d' Hd'].
  set (g := Z.gcd n d) in *. assert (g <> 0) by nia.
  assert (n / g = n') as -> by (rewrite Hn; by apply Z.div_mul).
  assert (0 < g) by (pose proof (Z.gcd_nonneg n d); lia).
  assert (Z.abs d / g = Z.abs d') as ->.
  { rewrite Hd', Z.abs_mul, (Z.abs_eq g) by lia. by apply Z.div_mul. }
  destruct (Z.sgn_spec d) as [[? E]|[[? E]|[? E]]]; rewrite E; nia.
Qed.
#[global] Instance sample_bignum_laws : BigNumLaws sample_bignum.
Proof.
  split; try done.
  - intros ds Hn Hd. cbn -[digits_val]. unfold sample_from_str.
    rewrite (plain_head ds (fun t => (-1, t)) (1, ds)) by done.
    rewrite bool_decide_false, Hd by done. cbn -[digits_val]. f_equal; lia.
  - intros ds Hn Hd. cbn -[digits_val]. rewrite bool_decide_false, Hd by done.
    cbn -[digits_val]. f_equal; lia.
  - apply sample_to_string_spec.
  - intros z Hz. cbn. unfold sample_to_string. rewrite (proj2 (Z.ltb_lt z 0)) by lia.
    rewrite (proj2 (Z.ltb_ge (- z) 0)) by lia. by rewrite Z.abs_opp.
  - apply reduce_ok.
  - apply reduce_value.
Qed.
#[global] Instance sample_char_laws : CharLaws sample_chars.
Proof.
  split; try done.
  - cbn. unfold ascii_letter, is_ascii_digit, ascii_space. intros c H.
    apply orb_false_iff. rewrite orb_true_iff in H. rewrite orb_true_iff in H.
    rewrite !andb_true_iff in H. rewrite andb_false_iff. split; [destruct (Z.leb_spec 9 c); [right|by left]|]; lia.
  - cbn. intros c ->. done.
Qed.

(** ** Reading a number back *)
Lemma split_once_none p s : forallb (fun c => negb (p c)) s = true -> split_once p s = None.
Proof.
  induction s as [|c s IH]; cbn; [done|]. intros [Hc Hs]%andb_true_iff.
  apply negb_true_iff in Hc. by rewrite Hc, IH.
Qed.
Lemma split_once_some p a c b :
  forallb (fun c => negb (p c)) a = true -> p c = true -> split_once p (a ++ c :: b) = Some (a, b).
Proof.
  intros Ha Hc. induction a as [|x a IH]; cbn in *; [by rewrite Hc|].
  apply andb_true_iff in Ha as [Hx Ha]. apply negb_true_iff in Hx. by rewrite Hx, IH.
Qed.
Lemma forallb_weaken {A} (p q : A -> bool) l :
  (forall x, p x = true -> q x = true) -> forallb p l = true -> forallb q l = true.
Proof. rewrite !forallb_forall. auto. Qed.
Lemma str_len_digits ds : forallb is_ascii_digit ds = true -> str_len ds = Z.of_nat (length ds).
Proof.
  induction ds as [|c ds IH]; [done|]. cbn [forallb]. intros [Hc Hd]%andb_true_iff.
  apply is_digit_range in Hc. cbn [str_len foldr]. fold (str_len ds). rewrite IH by done.
  unfold len_utf8. rewrite (proj2 (Z.ltb_lt c 128)) by lia. cbn [length]. lia.
Qed.

Section Texts.
Context {C : CharClass} {CL : CharLaws C} {B : BigNum} {L : BigNumLaws B}.

Lemma trim_start_id s : forallb (fun c => negb (is_whitespace c)) s = true -> trim_start s = s.
Proof. destruct s as [|c s]; cbn; [done|]. intros [->%negb_true_iff _]%andb_true_iff. done. Qed.
Lemma forallb_reverse {A} (p : A -> bool) l : forallb p (reverse l) = forallb p l.
Proof.
  apply eq_true_iff_eq. rewrite !forallb_forall. setoid_rewrite <- list_elem_of_In.
  by setoid_rewrite elem_of_reverse.
Qed.
Lemma trim_id s : forallb (fun c => negb (is_whitespace c)) s = true -> trim s = s.
Proof.
  intros H. unfold trim, trim_end. rewrite (trim_start_id s) by done.
  rewrite trim_start_id by by rewrite forallb_reverse. apply reverse_involutive.
Qed.
Lemma digit_not_space c : 33 <= c < 128 -> negb (is_whitespace c) = true.
Proof.
  intros Hc. rewrite space_ascii by lia. unfold ascii_space.
  rewrite (proj2 (Z.leb_gt c 13)), (proj2 (Z.eqb_neq c 32)) by lia. by rewrite andb_false_r.
Qed.

(** The text of a decimal: a sign, digits, and perhaps a point and digits. *)
Definition decimal_text (neg : bool) (int_part : text) (frac : option text) : text :=
  (if neg then [45] else []) ++ int_part ++ match frac with Some f => 46 :: f | None => [] end.
Definition frac_digits (frac : option text) : text := match frac with Some f => f | None => [] end.

Lemma decimal_not p neg int_part frac :
  forallb is_ascii_digit int_part = true -> forallb is_ascii_digit (frac_digits frac) = true ->
  (forall c, 48 <= c <= 57 -> p c = true) -> p 45 = true -> p 46 = true ->
  forallb p (decimal_text neg int_part frac) = true.
Proof.
  intros Hi Hf Hd H1 H2. assert (forall ds, forallb is_ascii_digit ds = true -> forallb p ds = true).
  { intros ds. apply forallb_weaken. intros c Hc%is_digit_range. by apply Hd. }
  unfold decimal_text. rewrite !forallb_app. rewrite (H _ Hi).
  destruct neg, frac as [f|]; cbn in *; rewrite ?H1, ?H2, ?(H _ Hf); done.
Qed.

Lemma parse_decimal neg int_part frac :
  int_part <> [] -> forallb is_ascii_digit int_part = true ->
  forallb is_ascii_digit (frac_digits frac) = true -> Z.of_nat (length (frac_digits frac)) < 2 ^ 32 ->
  parse_literal (decimal_text neg int_part frac) =
  Ok (ratio_new ((if neg then -1 else 1) * digits_val (int_part ++ frac_digits frac))
        (10 ^ Z.of_nat (length (frac_digits frac)))).
Proof.
  intros Hn Hi Hf Hs. unfold parse_literal.
  rewrite trim_id.
  2:{ apply decimal_not; [done..| | |]; intros; apply digit_not_space; lia. }
  rewrite bool_decide_false.
  2:{ unfold decimal_text. destruct neg, int_part; done. }
  set (unsigned := decimal_text false int_part frac).
  assert (match decimal_text neg int_part frac with
          | 45 :: rest => (-1, rest) | 43 :: rest => (1, rest)
          | _ => (1, decimal_text neg int_part frac) end = (if neg then -1 else 1, unsigned)) as ->.
  { destruct neg; [done|]. unfold unsigned, decimal_text. cbn [app].
    destruct int_part as [|c ds]; [done|]. cbn in Hi. apply andb_true_iff in Hi as [Hc%is_digit_range _].
    cbn [app]. destruct c as [|c|c]; [done| |done].
    repeat (destruct c as [c|c|]; try done); lia. }
  rewrite (split_once_none _ unsigned).
  2:{ apply decimal_not; [done..| | |]; intros; try done. apply negb_true_iff, orb_false_iff. lia. }
  assert (match split_once (fun c => c =? 46) unsigned with
          | Some (a, b) => (a, b) | None => (unsigned, []) end = (int_part, frac_digits frac)) as ->.
  { unfold unsigned, decimal_text. cbn [app].
    assert (forallb (fun c => negb (c =? 46)) int_part = true).
    { eapply forallb_weaken; [|exact Hi]. intros c Hc%is_digit_range. lia. }
    destruct frac as [f|]; [by rewrite split_once_some|].
    rewrite app_nil_r, split_once_none by done. done. }
  rewrite (bool_decide_false (int_part = [])), Hi, Hf by done. cbn [andb negb orb].
  rewrite bool_decide_false by by destruct int_part.
  rewrite from_str_digits; [|by destruct int_part|by rewrite forallb_app, Hi, Hf].
  rewrite str_len_digits, Z.sub_0_r by done.
  set (k := Z.of_nat (length (frac_digits frac))) in *. assert (0 <= k) by lia.
  assert (wrap_i64 k = k) as ->.
  { unfold wrap_i64. rewrite Z.mod_small; lia. }
  set (v := digits_val _). destruct (k <=? 0) eqn:E; boolify.
  - assert (k = 0) as -> by lia. change (pow10 (as_u32 (wrap_i64 (- 0)))) with 1.
    rewrite Z.pow_0_r, Z.mul_1_r. destruct neg; f_equal; cbn; f_equal; lia.
  - unfold pow10, as_u32. rewrite Z.mod_small by lia. destruct neg; f_equal; cbn; f_equal; lia.
Qed.

Lemma strip_factor_spec fuel p d count :
  2 <= p -> 0 < d < 2 ^ Z.of_nat fuel ->
  exists k d', strip_factor fuel p d count = (d', count + k) /\ 0 <= k /\ d = p ^ k * d' /\
               0 < d' /\ d' mod p <> 0.
Proof.
  revert d count. induction fuel as [|fuel IH]; intros d count Hp Hd; [simpl in Hd; lia|].
  cbn [strip_factor]. rewrite Z.rem_mod_nonneg by lia. destruct (d mod p =? 0) eqn:E; boolify.
  - rewrite Z.quot_div_nonneg by lia. rewrite Nat2Z.inj_succ, Z.pow_succ_r in Hd by lia.
    pose proof (Z.div_mod d p ltac:(lia)) as Hdm. rewrite E, Z.add_0_r in Hdm.
    destruct (IH (d / p) (count + 1) Hp) as (k & d' & -> & Hk & Hv & Hd' & Hn); [nia|].
    exists (k + 1), d'. split; [f_equal; lia|]. split; [lia|]. split; [|done].
    rewrite Z.pow_add_r, Z.pow_1_r by lia. nia.
  - exists 0, d. split; [f_equal; lia|]. repeat split; lia.
Qed.
Lemma strip_fuel_enough d : 0 < d -> d < 2 ^ Z.of_nat (strip_fuel d).
Proof.
  intros Hd. unfold strip_fuel. rewrite Nat2Z.inj_succ, Z2Nat.id by apply Z.log2_nonneg.
  by apply Z.log2_spec.
Qed.
(** The power of a factor in a number is determined. *)
Lemma factor_unique p a b x y :
  2 <= p -> 0 <= a -> 0 <= b -> p ^ a * x = p ^ b * y -> x mod p <> 0 -> y mod p <> 0 ->
  a = b /\ x = y.
Proof.
  assert (forall a b x y, 2 <= p -> 0 <= a < b -> p ^ a * x = p ^ b * y -> x mod p = 0) as H.
  { clear. intros a b x y Hp Hab H. assert (0 < p ^ a) by (apply Z.pow_pos_nonneg; lia).
    replace b with (a + (1 + (b - a - 1))) in H by lia.
    rewrite !Z.pow_add_r, Z.pow_1_r in H by lia.
    assert (x = p * (p ^ (b - a - 1) * y)) as -> by nia. by rewrite Z.mul_comm, Z_mod_mult. }
  intros Hp Ha Hb E Hx Hy. assert (0 < p ^ a) by (apply Z.pow_pos_nonneg; lia).
  destruct (Z.lt_trichotomy a b) as [|[->|]].
  - by destruct Hx; eapply (H a b).
  - split; [done|]. nia.
  - by destruct Hy; eapply (H b a); [| |symmetry].
Qed.

(** The digits that follow the point, and those before it. *)
Lemma split_digits digits scale :
  forallb is_ascii_digit digits = true -> digits <> [] -> (0 < scale)%nat ->
  exists int_part frac,
    (if (length digits <=? scale)%nat
     then chars "0." ++ repeat 48 (scale - length digits)%nat ++ digits
     else take (length digits - scale)%nat digits ++ [46] ++ drop (length digits - scale)%nat digits)
    = int_part ++ 46 :: frac /\
    int_part <> [] /\ forallb is_ascii_digit int_part = true /\ forallb is_ascii_digit frac = true /\
    length frac = scale /\ digits_val (int_part ++ frac) = digits_val digits.
Proof.
  intros Hd Hn Hs. destruct (length digits <=? scale)%nat eqn:E.
  - apply Nat.leb_le in E. exists [48], (repeat 48 (scale - length digits) ++ digits).
    split; [done|]. split; [done|]. split; [done|]. rewrite forallb_app, Hd, andb_true_r.
    split; [by apply forallb_forall; intros c ->%repeat_spec|].
    rewrite length_app, repeat_length. split; [lia|].
    cbn [app]. rewrite ds_val_cons, digits_val_zeros. lia.
  - apply Nat.leb_gt in E. eexists _, _. split; [reflexivity|].
    rewrite <- (take_drop (length digits - scale) digits), forallb_app in Hd.
    apply andb_true_iff in Hd as [H1 H2]. split.
    { intros E0%(f_equal length). rewrite length_take in E0. simpl in E0. lia. }
    split; [done|]. split; [done|]. rewrite length_drop. split; [lia|]. by rewrite take_drop.
Qed.

(** Both loops on [2^t * 5^f * c]. *)
Lemma pow5_odd f : 0 <= f -> (5 ^ f) mod 2 = 1.
Proof.
  intros Hf. rewrite Zmod_odd. destruct (Z.eq_dec f 0) as [->|]; [done|]. by rewrite Z.odd_pow by lia.
Qed.
Lemma strip_both d t f c :
  0 <= t -> 0 <= f -> 0 < c -> c mod 2 <> 0 -> c mod 5 <> 0 -> d = 2 ^ t * (5 ^ f * c) ->
  strip_factor (strip_fuel d) 2 d 0 = (5 ^ f * c, t) /\
  strip_factor (strip_fuel (5 ^ f * c)) 5 (5 ^ f * c) 0 = (c, f).
Proof.
  intros Ht Hf Hc H2 H5 Hd.
  assert (0 < 2 ^ t) by (apply Z.pow_pos_nonneg; lia).
  assert (0 < 5 ^ f) by (apply Z.pow_pos_nonneg; lia). split.
  - assert (0 < d) by nia.
    destruct (strip_factor_spec (strip_fuel d) 2 d 0) as (t' & d1 & -> & Ht' & E1 & Hd1 & Hn1);
      [lia|split; [lia|by apply strip_fuel_enough]|].
    rewrite Hd in E1. apply factor_unique in E1 as [<- <-]; [by rewrite Z.add_0_l|lia..| |done].
    rewrite Z.mul_mod, pow5_odd, Z.mul_1_l, Z.mod_mod by lia. done.
  - destruct (strip_factor_spec (strip_fuel (5 ^ f * c)) 5 (5 ^ f * c) 0)
      as (f' & d2 & -> & Hf' & E2 & Hd2 & Hn2); [lia|split; [nia|apply strip_fuel_enough; nia]|].
    apply factor_unique in E2 as [<- <-]; [by rewrite Z.add_0_l|lia..|done|done].
Qed.

(** The printed decimal of a fraction whose denominator is [2^t * 5^f]. *)
Definition printed_numerator (x : Ratio) (t f : Z) : Z :=
  Z.abs (numer x) * 5 ^ (Z.max t f - t) * 2 ^ (Z.max t f - f).
Lemma finite_decimal_shape x t f :
  ratio_ok x -> 0 <= t -> 0 <= f -> denom x = 2 ^ t * 5 ^ f -> 0 < Z.max t f ->
  exists int_part frac,
    finite_decimal_string x = Some (decimal_text (numer x <? 0) int_part (Some frac)) /\
    int_part <> [] /\ forallb is_ascii_digit int_part = true /\ forallb is_ascii_digit frac = true /\
    Z.of_nat (length frac) = Z.max t f /\ digits_val (int_part ++ frac) = printed_numerator x t f.
Proof.
  intros [Hd Hg] Ht Hf Ed Hm. unfold finite_decimal_string.
  assert (0 < 2 ^ t) by (apply Z.pow_pos_nonneg; lia).
  assert (0 < 5 ^ f) by (apply Z.pow_pos_nonneg; lia).
  assert (1 < denom x).
  { destruct (Z.eq_dec t 0) as [->|].
    - pose proof (Z.pow_gt_1 5 f). lia.
    - pose proof (Z.pow_gt_1 2 t). nia. }
  rewrite (proj2 (Z.eqb_neq (denom x) 1)) by lia.
  destruct (strip_both (denom x) t f 1) as [-> ->]; [lia..|done|done|lia|]. cbn [negb Z.eqb Pos.eqb].
  set (adj := if Z.max t f >? f then _ else _).
  assert (adj = printed_numerator x t f) as ->.
  { unfold adj, printed_numerator. destruct (Z.max t f >? t) eqn:Et, (Z.max t f >? f) eqn:Ef;
      rewrite ?Z.gtb_lt, ?Z.gtb_ltb, ?Z.ltb_ge in *;
      repeat match goal with |- context [?b ^ (?m - ?n)] => 
        lazymatch goal with H : m <= n |- _ => replace (m - n) with 0 by lia; rewrite (Z.pow_0_r b) end end; lia. }
  assert (0 <= printed_numerator x t f) as Hp.
  { unfold printed_numerator. repeat apply Z.mul_nonneg_nonneg; try lia; apply Z.pow_nonneg; lia. }
  destruct (to_string_digits _ Hp) as (D1 & D2 & D3).
  rewrite (proj2 (Z.eqb_neq (Z.max t f) 0)) by lia.
  destruct (split_digits _ (Z.to_nat (Z.max t f)) D2 D1) as (i & fr & E & I1 & I2 & I3 & I4 & I5); [lia|].
  exists i, fr. split; [|split; [done|split; [done|split; [done|split; [lia|congruence]]]]].
  unfold decimal_text. destruct (_ <=? _)%nat; rewrite <- E; by destruct (numer x <? 0).
Qed.

Lemma ratio_new_self x : ratio_ok x -> ratio_new (numer x) (denom x) = x.
Proof.
  intros Hx. assert (denom x <> 0) by (destruct Hx; lia). apply ratio_unique; [by apply new_ok|done|].
  by apply new_value.
Qed.
Lemma ratio_new_eq x n d : ratio_ok x -> d <> 0 -> ratio_new n d = x <-> n * denom x = numer x * d.
Proof.
  intros Hx Hd. split.
  - intros <-. by rewrite new_value.
  - intros E. apply ratio_unique; [by apply new_ok|done|]. pose proof (new_value n d Hd) as Hv.
    apply (Z.mul_reg_r _ _ d Hd). set (r := ratio_new n d) in *.
    transitivity (numer r * d * denom x); [ring|]. rewrite Hv.
    transitivity (n * denom x * denom r); [ring|]. rewrite E. ring.
Qed.

(** An integer as the code prints it. *)
Lemma big_text n :
  exists int_part, big_to_string n = decimal_text (n <? 0) int_part None /\ int_part <> [] /\
    forallb is_ascii_digit int_part = true /\ digits_val int_part = Z.abs n.
Proof.
  destruct (n <? 0) eqn:E; boolify.
  - rewrite to_string_minus by done. destruct (to_string_digits (- n)) as (H1 & H2 & H3); [lia|].
    exists (big_to_string (- n)). unfold decimal_text. rewrite app_nil_r. repeat split; [done|done|lia].
  - destruct (to_string_digits n) as (H1 & H2 & H3); [lia|].
    exists (big_to_string n). unfold decimal_text. rewrite app_nil_r. repeat split; [done|done|lia].
Qed.
Lemma big_text_back n : big_from_str (big_to_string n) = Some n.
Proof.
  destruct (big_text n) as (ds & -> & H1 & H2 & H3). unfold decimal_text. rewrite app_nil_r.
  destruct (n <? 0) eqn:E; boolify; cbn [app].
  - rewrite from_str_minus by done. f_equal. lia.
  - rewrite from_str_digits by done. f_equal. lia.
Qed.
Lemma no_slash neg int_part frac :
  forallb is_ascii_digit int_part = true -> forallb is_ascii_digit (frac_digits frac) = true ->
  forallb (fun c => negb (c =? 47)) (decimal_text neg int_part frac) = true.
Proof. intros. apply decimal_not; [done..| |done|done]. intros. lia. Qed.
Lemma parse_canonical_decimal neg int_part frac :
  forallb is_ascii_digit int_part = true -> forallb is_ascii_digit (frac_digits frac) = true ->
  parse_canonical (decimal_text neg int_part frac) = parse_literal (decimal_text neg int_part frac).
Proof. intros. unfold parse_canonical. by rewrite split_once_none by by apply no_slash. Qed.

Lemma integer_text x : ratio_ok x -> denom x = 1 -> parse_canonical (canonical_string x) = Ok x.
Proof.
  intros Hx Hd. unfold canonical_string, finite_decimal_string. rewrite Hd. cbn [Z.eqb Pos.eqb].
  destruct (big_text (numer x)) as (ds & -> & H1 & H2 & H3).
  rewrite parse_canonical_decimal, parse_decimal by done. cbn [frac_digits length].
  rewrite app_nil_r, H3. f_equal. apply ratio_new_eq; [done|done|].
  destruct (numer x <? 0) eqn:E; boolify; cbn; lia.
Qed.
Lemma fraction_text x t f c :
  ratio_ok x -> 0 <= t -> 0 <= f -> 0 < c -> c mod 2 <> 0 -> c mod 5 <> 0 ->
  denom x = 2 ^ t * (5 ^ f * c) -> c <> 1 -> parse_canonical (canonical_string x) = Ok x.
Proof.
  intros Hx Ht Hf Hc H2 H5 Hd Hc1. unfold canonical_string, finite_decimal_string.
  assert (0 < 2 ^ t) by (apply Z.pow_pos_nonneg; lia).
  assert (0 < 5 ^ f) by (apply Z.pow_pos_nonneg; lia).
  rewrite (proj2 (Z.eqb_neq (denom x) 1)) by nia.
  destruct (strip_both (denom x) t f c) as [-> ->]; [lia..|done|done|done|].
  rewrite (proj2 (Z.eqb_neq c 1)) by done. cbn [negb]. unfold parse_canonical. cbn [app].
  destruct (big_text (numer x)) as (ds & E & D1 & D2 & D3).
  rewrite split_once_some; [|by rewrite E; apply no_slash|done]. rewrite !big_text_back.
  destruct Hx as [Hx1 Hx2]. rewrite (proj2 (Z.eqb_neq (denom x) 0)) by lia.
  f_equal. by apply ratio_new_self.
Qed.
Lemma decimal_printed x t f :
  ratio_ok x -> 0 <= t -> 0 <= f -> denom x = 2 ^ t * 5 ^ f -> 0 < Z.max t f < 2 ^ 32 ->
  parse_canonical (canonical_string x) =
  Ok (ratio_new ((if numer x <? 0 then -1 else 1) * printed_numerator x t f) (10 ^ Z.max t f)).
Proof.
  intros Hx Ht Hf Hd Hm.
  destruct (finite_decimal_shape x t f) as (i & fr & E & I1 & I2 & I3 & I4 & I5); [done..|lia|].
  unfold canonical_string. rewrite E, parse_canonical_decimal, parse_decimal by (done || cbn; lia).
  cbn [frac_digits]. by rewrite I4, I5.
Qed.
(** The printed decimal has the value of the fraction only when the two and the
    five have the same power. *)
Lemma printed_exact x t f :
  numer x <> 0 -> 0 <= t -> 0 <= f ->
  printed_numerator x t f * (2 ^ t * 5 ^ f) = Z.abs (numer x) * 10 ^ Z.max t f <-> t = f.
Proof.
  intros Hn Ht Hf. unfold printed_numerator. set (m := Z.max t f). set (a := Z.abs (numer x)).
  replace (10 ^ m) with (2 ^ m * 5 ^ m) by (rewrite <- Z.pow_mul_l; done).
  replace (a * 5 ^ (m - t) * 2 ^ (m - f) * (2 ^ t * 5 ^ f))
    with (a * (2 ^ (m - f + t) * 5 ^ (m - t + f))) by (rewrite !Z.pow_add_r by lia; lia).
  split.
  - intros E. assert (2 ^ (m - f + t) * 5 ^ (m - t + f) = 2 ^ m * 5 ^ m) as E2 by nia.
    apply factor_unique in E2 as [E2 _]; [lia|lia..| |]; rewrite pow5_odd by lia; lia.
  - intros ->. do 3 f_equal; lia.
Qed.

(** The canonical text of a number is read back as the number exactly when
    its denominator has a prime factor other than two and five, or as many twos as
    fives; in every other case the printed decimal is a different number. *)
Theorem number_text_exact (x : Ratio) (t f c : Z) :
  ratio_ok x -> 0 <= t < 2 ^ 32 -> 0 <= f < 2 ^ 32 ->
  0 < c -> c mod 2 <> 0 -> c mod 5 <> 0 -> denom x = 2 ^ t * (5 ^ f * c) ->
  parse_canonical (canonical_string x) = Ok x <-> c <> 1 \/ t = f.
Proof.
  intros Hx Ht Hf Hc H2 H5 Hd. destruct (Z.eq_dec c 1) as [->|Hc1].
  2:{ split; [by left|]. intros _. eapply (fraction_text x t f c); done || lia. }
  rewrite Z.mul_1_r in Hd. destruct (Z.eq_dec (Z.max t f) 0) as [E0|E0].
  { assert (t = 0) as -> by lia. assert (f = 0) as -> by lia.
    split; [by right|]. intros _. by apply integer_text. }
  rewrite (decimal_printed x t f) by (done || lia).
  assert (10 ^ Z.max t f <> 0) by (apply Z.pow_nonzero; lia).
  assert (numer x <> 0) as Hn.
  { intros En. destruct Hx as [H0 Hg]. rewrite En, Z.gcd_0_l, Z.abs_eq in Hg by lia.
    destruct (Z.eq_dec t 0) as [->|]; [pose proof (Z.pow_gt_1 5 f); lia|].
    pose proof (Z.pow_gt_1 2 t). assert (0 < 5 ^ f) by (apply Z.pow_pos_nonneg; lia). nia. }
  transitivity (printed_numerator x t f * (2 ^ t * 5 ^ f) = Z.abs (numer x) * 10 ^ Z.max t f).
  2:{ rewrite printed_exact by (done || lia). naive_solver. }
  set (y := ratio_new _ _). transitivity (y = x); [split; [by intros [= ->]|by intros ->]|].
  unfold y. rewrite ratio_new_eq, <- Hd by done.
  destruct (numer x <? 0) eqn:E; boolify; [rewrite Z.abs_neq by lia|rewrite Z.abs_eq by lia]; lia.
Qed.
End Texts.

Lemma number_text_exact_witness :
  parse_canonical (canonical_string {| numer := 3; denom := 10 |}) = Ok {| numer := 3; denom := 10 |}.
Proof. apply (number_text_exact _ 1 1 1); try done. by right. Defined.

(** One half is printed as [0.2], and one fifth as [0.5]. *)
Example half_prints_as_fifth :
  canonical_string {| numer := 1; denom := 2 |} = chars "0.2" /\
  canonical_string {| numer := 1; denom := 5 |} = chars "0.5".
Proof. by vm_compute. Qed.
(** An exponent of 2^32 is taken for zero. *)
Example exponent_truncated :
  parse_literal (chars "1e4294967296") = Ok {| numer := 1; denom := 1 |}.
Proof. by vm_compute. Qed.

Lemma equality_extensional_witness :
  let x := VSet [VStr [1]; VBag [VBool true; VNull]] in
  let y := VSet [VBag [VNull; VBool true]; VStr [1]] in
  data x /\ data y /\ (value_eq x y = true <-> veq x y) /\ value_eq x y = true.
Proof.
  assert (data (VSet [VStr [1]; VBag [VBool true; VNull]])) as Hx.
  { split; [|done]. repeat constructor; done. }
  assert (data (VSet [VBag [VNull; VBool true]; VStr [1]])) as Hy.
  { split; [|done]. repeat constructor; done. }
  split; [exact Hx|]. split; [exact Hy|]. split; [|by vm_compute].
  exact (proj1 (equality_extensional _ _ VNull Hx Hy (conj good_null eq_refl))).
Defined.
