(* ===== verification/SdaEval.v ===== *)
(** * Evaluation of the data algebra: [sda-core/src/eval.rs], [stdlib.rs]

    [eval_expr] recurses on closures that programs build, so it has no structural
    measure: its first argument bounds the depth of the calls, which is the depth
    of the stack of the code.  The functions it calls take the evaluator as an
    argument.  The debug text of a value, which [Fail] uses for a code or a
    message that is not a string, is derived code: the class [DebugText]. *)
From S2P Require Import Prelude SdaNumber SdaLexer SdaParser SdaValue.

Inductive EvalError : Type :=
| UnboundVar (s : text) | TypeError (s : text) | MissingKey (s : text) | WrongShape (s : text)
| DuplicateKey (s : text) | NotCallable (s : text) | ArityMismatch (expected got : Z).
Inductive EvalFault : Type := EvalErr (e : EvalError) | EvalFuel.
Abbreviation evaluated := (result EvalFault Value).

Class DebugText : Type := { debug_value : Value -> text }.

Definition fail_value (code msg : string) : Value := VFail (chars code) (chars msg).
Definition wrong_shape_value : Value := fail_value "t_sda_wrong_shape" "wrong shape".
Definition div_by_zero_value : Value := fail_value "t_sda_div_by_zero" "division by zero".
Definition unbound_name_value : Value := fail_value "t_sda_unbound_name" "unbound name".
Definition unbound_placeholder_value : Value :=
  fail_value "t_sda_unbound_placeholder" "unbound placeholder".
Definition not_callable_value : Value := fail_value "t_sda_not_callable" "not callable".
Definition arity_mismatch_value : Value := fail_value "t_sda_arity_mismatch" "arity mismatch".
Definition missing_key_value : Value := fail_value "t_sda_missing_key" "missing key".
Definition duplicate_key_value : Value := fail_value "t_sda_duplicate_key" "duplicate key".
Definition unknown_field_value : Value := fail_value "t_sda_unknown_field" "unknown field".
Definition enr_wrong_shape_value : Value := fail_value "t_enr_wrong_shape" "wrong shape".
Definition enr_duplicate_value : Value := fail_value "t_enr_duplicate" "duplicate match".
Definition enr_missing_value : Value := fail_value "t_enr_missing" "missing match".
Definition enr_unordered_value : Value := fail_value "t_enr_unordered_policy" "unordered policy".
Definition enr_invalid_key_value : Value := fail_value "t_enr_invalid_key" "invalid key".
Definition field_collision_value : Value := fail_value "t_enr_field_collision" "field collision".

(** ** Records *)
Inductive RecordKind : Type := RProd | RMap.
Definition record_of (k : RecordKind) (fields : list (text * Value)) : Value :=
  match k with RProd => VProd fields | RMap => VMap fields end.

(** The loop of [merge_record_fields]; [None] is the collision. *)
Fixpoint append_fields (out fields : list (text * Value)) : option (list (text * Value)) :=
  match fields with
  | [] => Some out
  | (key, value) :: rest =>
      if has_key key out then None else append_fields (out ++ [(key, value)]) rest
  end.
Definition merge_record_fields (lhs rhs : list (text * Value)) (k : RecordKind) : Value :=
  match append_fields lhs rhs with
  | Some out => record_of k out
  | None => field_collision_value
  end.

(** ** Selection *)
Definition eval_select (obj : Value) (field : text) (mode : SelectMode) : Value :=
  let optional found := match found with Some v => VSome v | None => VNone end in
  let required found := match found with Some v => VOk v | None => missing_key_value end in
  match obj with
  | VMap entries =>
      let found := assoc field entries in
      match mode with
      | Plain => wrong_shape_value
      | Optional => optional found
      | Required => required found
      end
  | VProd fields =>
      match mode with
      | Plain => match assoc field fields with Some v => v | None => unknown_field_value end
      | Optional | Required => wrong_shape_value
      end
  | VBind key value =>
      let found :=
        if bool_decide (field = chars "key") then Some key
        else if bool_decide (field = chars "val") then Some value
        else None in
      match mode with
      | Plain => match found with Some v => v | None => VNull end
      | Optional => optional found
      | Required => required found
      end
  | VBagKV entries =>
      let matches :=
        List.filter (fun '(k, _) =>
          match k with VStr s => bool_decide (s = field) | _ => false end) entries in
      match mode with
      | Plain => wrong_shape_value
      | Optional =>
          match matches with [] => VNone | [(_, v)] => VSome v | _ => VNone end
      | Required =>
          match matches with
          | [] => missing_key_value
          | [(_, v)] => VOk v
          | _ => duplicate_key_value
          end
      end
  | _ => wrong_shape_value
  end.

Section Operators.
Context {B : BigNum}.

(** [a.into_iter().filter(..)] with [remaining.remove(idx)] on the first match. *)
Fixpoint remove_first (x : Value) (remaining : list Value) : option (list Value) :=
  match remaining with
  | [] => None
  | y :: rest =>
      if value_eq x y then Some rest
      else match remove_first x rest with Some rest => Some (y :: rest) | None => None end
  end.
Fixpoint bag_difference (a remaining : list Value) : list Value :=
  match a with
  | [] => []
  | x :: a =>
      match remove_first x remaining with
      | Some remaining => bag_difference a remaining
      | None => x :: bag_difference a remaining
      end
  end.

(** [x in items] on a sequence, set or bag. *)
Definition member (items : list Value) (lhs : Value) : Value :=
  if negb (comparable lhs) then wrong_shape_value
  else if negb (forallb comparable items) then wrong_shape_value
  else VBool (existsb (fun x => value_eq x lhs) items).
Definition key_member (entries : list (text * Value)) (lhs : Value) : Value :=
  match lhs with VStr key => VBool (has_key key entries) | _ => wrong_shape_value end.

Definition compare_values (num : Ratio -> Ratio -> bool) (str : comparison -> bool)
    (lhs rhs : Value) : Value :=
  match lhs, rhs with
  | VNum a, VNum b => VBool (num a b)
  | VStr a, VStr b => VBool (str (text_cmp a b))
  | _, _ => wrong_shape_value
  end.

Definition eval_binop (op : BinOpKind) (lhs rhs : Value) : Value :=
  match op with
  | Add =>
      match lhs, rhs with
      | VNum a, VNum b => VNum (ratio_add a b)
      | VProd l, VProd r => merge_record_fields l r RProd
      | VMap l, VMap r => merge_record_fields l r RMap
      | VProd l, VMap r => merge_record_fields l r RProd
      | VMap l, VProd r => merge_record_fields l r RMap
      | _, _ => wrong_shape_value
      end
  | Sub =>
      match lhs, rhs with VNum a, VNum b => VNum (ratio_sub a b) | _, _ => wrong_shape_value end
  | Mul =>
      match lhs, rhs with VNum a, VNum b => VNum (ratio_mul a b) | _, _ => wrong_shape_value end
  | Div =>
      match lhs, rhs with
      | VNum a, VNum b => if ExactNum.is_zero b then div_by_zero_value else VNum (ratio_div a b)
      | _, _ => wrong_shape_value
      end
  | Concat =>
      match lhs, rhs with
      | VStr a, VStr b => VStr (a ++ b)
      | VSeq a, VSeq b => VSeq (a ++ b)
      | _, _ => wrong_shape_value
      end
  | EqOp =>
      if negb (comparable lhs) || negb (comparable rhs) then wrong_shape_value
      else VBool (value_eq lhs rhs)
  | Neq =>
      if negb (comparable lhs) || negb (comparable rhs) then wrong_shape_value
      else VBool (negb (value_eq lhs rhs))
  | LtOp => compare_values ExactNum.ltb (fun c => match c with Lt => true | _ => false end) lhs rhs
  | Le => compare_values ExactNum.leb (fun c => match c with Gt => false | _ => true end) lhs rhs
  | GtOp => compare_values (fun a b => negb (ExactNum.leb a b))
              (fun c => match c with Gt => true | _ => false end) lhs rhs
  | Ge => compare_values (fun a b => negb (ExactNum.ltb a b))
            (fun c => match c with Lt => false | _ => true end) lhs rhs
  | And =>
      match lhs, rhs with VBool a, VBool b => VBool (a && b) | _, _ => wrong_shape_value end
  | Or =>
      match lhs, rhs with VBool a, VBool b => VBool (a || b) | _, _ => wrong_shape_value end
  | Union =>
      match lhs, rhs with
      | VSet a, VSet b => VSet (fold_left push_unique b a)
      | _, _ => wrong_shape_value
      end
  | Inter =>
      match lhs, rhs with
      | VSet a, VSet b => VSet (List.filter (fun x => existsb (value_eq x) b) a)
      | _, _ => wrong_shape_value
      end
  | Diff =>
      match lhs, rhs with
      | VSet a, VSet b => VSet (List.filter (fun x => negb (existsb (value_eq x) b)) a)
      | _, _ => wrong_shape_value
      end
  | BUnion =>
      match lhs, rhs with VBag a, VBag b => VBag (a ++ b) | _, _ => wrong_shape_value end
  | BDiff =>
      match lhs, rhs with
      | VBag a, VBag b => VBag (bag_difference a b)
      | _, _ => wrong_shape_value
      end
  | In_ =>
      match rhs with
      | VSeq items | VSet items | VBag items => member items lhs
      | VMap entries | VProd entries => key_member entries lhs
      | _ => wrong_shape_value
      end
  end.

Definition eval_unop (op : UnOpKind) (value : Value) : Value :=
  match op, value with
  | Neg, VNum n => VNum (ratio_neg n)
  | Not, VBool b => VBool (negb b)
  | _, _ => wrong_shape_value
  end.
End Operators.

(** ** The standard functions *)
Inductive MergePolicy : Type := MergeFail | MergeLeft | MergeRight.

(** [out[pos].1 = value] at the first entry with the key. *)
Fixpoint set_field (key : text) (value : Value) (out : list (text * Value))
  : list (text * Value) :=
  match out with
  | [] => []
  | (k, v) :: rest =>
      if bool_decide (k = key) then (k, value) :: rest else (k, v) :: set_field key value rest
  end.
Fixpoint merge_fields (policy : MergePolicy) (out fields : list (text * Value))
  : option (list (text * Value)) :=
  match fields with
  | [] => Some out
  | (key, value) :: rest =>
      if has_key key out then
        match policy with
        | MergeFail => None
        | MergeLeft => merge_fields policy out rest
        | MergeRight => merge_fields policy (set_field key value out) rest
        end
      else merge_fields policy (out ++ [(key, value)]) rest
  end.
Definition merge_kv (lhs rhs : list (text * Value)) (k : RecordKind) (policy : MergePolicy)
  : Value :=
  match merge_fields policy lhs rhs with
  | Some out => record_of k out
  | None => field_collision_value
  end.

Inductive Builtin : Type :=
| TypeOf | Keys | Values | Count | NormalizeUnique | Bind | AsBagKV
| MapOpt | BindOpt | OrElseOpt | MapRes | BindRes | OrElseRes
| GetPath | StartsWith | StrContains
| OneOpt | OneReq | Only | First | Last | Merge (policy : MergePolicy) | AsBag.

Definition builtins : list (text * Builtin) :=
  [ (chars "typeOf", TypeOf); (chars "keys", Keys); (chars "values", Values);
    (chars "count", Count); (chars "normalizeUnique", NormalizeUnique); (chars "Bind", Bind);
    (chars "asBagKV", AsBagKV); (chars "mapOpt", MapOpt); (chars "bindOpt", BindOpt);
    (chars "orElseOpt", OrElseOpt); (chars "mapRes", MapRes); (chars "bindRes", BindRes);
    (chars "orElseRes", OrElseRes); (chars "getPath", GetPath);
    (chars "startsWith", StartsWith); (chars "strContains", StrContains);
    (chars "one?", OneOpt); (chars "oneOpt", OneOpt); (chars "one!", OneReq);
    (chars "oneReq", OneReq); (chars "only", Only); (chars "first", First);
    (chars "last", Last); (chars "merge", Merge MergeFail); (chars "mergeFail", Merge MergeFail);
    (chars "mergeLeft", Merge MergeLeft); (chars "mergeRight", Merge MergeRight);
    (chars "asBag", AsBag); (chars "matchBag", AsBag) ].

Definition type_of (v : Value) : string :=
  match v with
  | VNull => "null" | VBool _ => "bool" | VNum _ => "num" | VStr _ => "str" | VBytes _ => "bytes"
  | VSeq _ => "seq" | VSet _ => "set" | VBag _ => "bag" | VMap _ => "map" | VProd _ => "prod"
  | VBagKV _ => "bagkv" | VBind _ _ => "bind" | VSome _ => "some" | VNone => "none"
  | VOk _ => "ok" | VFail _ _ => "fail" | VLambda _ _ _ => "fn"
  end.

Definition match_items (v : Value) : option (list Value) :=
  match v with VBag items | VSeq items | VSet items => Some items | _ => None end.

(** The loop of [normalizeUnique]. *)
Fixpoint normalize_pairs (map : list (text * Value)) (pairs : list (Value * Value)) : Value :=
  match pairs with
  | [] => VOk (VMap map)
  | (VStr key, v) :: rest =>
      if has_key key map then duplicate_key_value else normalize_pairs (map ++ [(key, v)]) rest
  | _ :: _ => wrong_shape_value
  end.
(** The loop of [asBagKV]. *)
Fixpoint bag_pairs (pairs : list (Value * Value)) (items : list Value) : Value :=
  match items with
  | [] => VOk (VBagKV pairs)
  | VBind (VStr s) v :: rest => bag_pairs (pairs ++ [(VStr s, v)]) rest
  | _ :: _ => wrong_shape_value
  end.
(** The loop of [getPath]. *)
Fixpoint walk_path (cur : Value) (segments : list Value) : Value :=
  match segments with
  | [] => VSome cur
  | VStr key :: rest =>
      match cur with
      | VMap entries => match assoc key entries with Some v => walk_path v rest | None => VNone end
      | _ => VNone
      end
  | _ :: _ => wrong_shape_value
  end.

Fixpoint starts_with (hay prefix : text) : bool :=
  match prefix, hay with
  | [], _ => true
  | p :: prefix, h :: hay => (p =? h) && starts_with hay prefix
  | _ :: _, [] => false
  end.
Fixpoint str_contains (hay needle : text) : bool :=
  starts_with hay needle || match hay with [] => false | _ :: hay => str_contains hay needle end.

Definition key_order (a b : text * Value) : comparison := text_cmp (fst a) (fst b).
Definition check_arity (args : list Value) (expected : nat) : result EvalFault unit :=
  if (length args =? expected)%nat then Ok tt
  else Err (EvalErr (ArityMismatch (Z.of_nat expected) (Z.of_nat (length args)))).
Definition builtin_arity (b : Builtin) : nat :=
  match b with
  | Count | Bind | MapOpt | BindOpt | OrElseOpt | MapRes | BindRes | OrElseRes
  | GetPath | StartsWith | StrContains | Merge _ => 2
  | _ => 1
  end.

Section Evaluate.
Context {B : BigNum} {D : DebugText}.
Context (ev : Expr -> Env -> evaluated).

Definition apply_lambda (func : Value) (args : list Value) : evaluated :=
  match func with
  | VLambda param body captured_env =>
      match args with
      | [arg] => ev body (env_insert param arg captured_env)
      | _ => Ok arity_mismatch_value
      end
  | _ => Ok not_callable_value
  end.

Definition call_builtin1 (b : Builtin) (v : Value) : evaluated :=
  match b with
  | TypeOf => Ok (VStr (chars (type_of v)))
  | Keys =>
      match v with
      | VMap entries => Ok (VSet (map (fun '(k, _) => VStr k) entries))
      | _ => Ok wrong_shape_value
      end
  | Values =>
      match v with
      | VMap entries => Ok (VSeq (map snd (sort_by key_order entries)))
      | _ => Ok wrong_shape_value
      end
  | NormalizeUnique =>
      match v with VBagKV pairs => Ok (normalize_pairs [] pairs) | _ => Ok wrong_shape_value end
  | AsBagKV =>
      match v with VBag items => Ok (bag_pairs [] items) | _ => Ok wrong_shape_value end
  | OneOpt =>
      match match_items v with
      | None => Ok enr_wrong_shape_value
      | Some [] => Ok VNone
      | Some [x] => Ok (VSome x)
      | Some _ => Ok enr_duplicate_value
      end
  | OneReq | Only =>
      match match_items v with
      | None => Ok enr_wrong_shape_value
      | Some [] => Ok enr_missing_value
      | Some [x] => Ok x
      | Some _ => Ok enr_duplicate_value
      end
  | First =>
      match v with
      | VSeq items => Ok (match items with x :: _ => VSome x | [] => VNone end)
      | VBag _ | VSet _ => Ok enr_unordered_value
      | _ => Ok enr_wrong_shape_value
      end
  | Last =>
      match v with
      | VSeq items => Ok (match last items with Some x => VSome x | None => VNone end)
      | VBag _ | VSet _ => Ok enr_unordered_value
      | _ => Ok enr_wrong_shape_value
      end
  | AsBag =>
      match match_items v with Some items => Ok (VBag items) | None => Ok enr_wrong_shape_value end
  | _ => Ok wrong_shape_value
  end.

Definition call_builtin2 (b : Builtin) (x y : Value) : evaluated :=
  match b with
  | Count =>
      if negb (comparable x) then Ok wrong_shape_value
      else match y with
           | VBag items =>
               if negb (forallb comparable items) then Ok wrong_shape_value
               else Ok (VNum (ExactNum.from_usize
                         (Z.of_nat (length (List.filter (fun v => value_eq v x) items)))))
           | _ => Ok wrong_shape_value
           end
  | Bind => Ok (VBind x y)
  | MapOpt =>
      match x with
      | VSome inner => let? result := apply_lambda y [inner] in Ok (VSome result)
      | VNone => Ok VNone
      | _ => Ok wrong_shape_value
      end
  | BindOpt =>
      match x with
      | VSome inner =>
          let? result := apply_lambda y [inner] in
          match result with VSome _ | VNone => Ok result | _ => Ok wrong_shape_value end
      | VNone => Ok VNone
      | _ => Ok wrong_shape_value
      end
  | OrElseOpt =>
      match x with VSome inner => Ok (VSome inner) | VNone => Ok y | _ => Ok wrong_shape_value end
  | MapRes =>
      match x with
      | VOk inner => let? result := apply_lambda y [inner] in Ok (VOk result)
      | VFail c m => Ok (VFail c m)
      | _ => Ok wrong_shape_value
      end
  | BindRes =>
      match x with
      | VOk inner =>
          let? result := apply_lambda y [inner] in
          match result with VOk _ | VFail _ _ => Ok result | _ => Ok wrong_shape_value end
      | VFail c m => Ok (VFail c m)
      | _ => Ok wrong_shape_value
      end
  | OrElseRes =>
      match x with VOk inner => Ok (VOk inner) | VFail _ _ => Ok y | _ => Ok wrong_shape_value end
  | GetPath =>
      match y with VSeq segments => Ok (walk_path x segments) | _ => Ok wrong_shape_value end
  | StartsWith =>
      match x, y with
      | VStr h, VStr p => Ok (VBool (starts_with h p))
      | _, _ => Ok wrong_shape_value
      end
  | StrContains =>
      match x, y with
      | VStr h, VStr n => Ok (VBool (str_contains h n))
      | _, _ => Ok wrong_shape_value
      end
  | Merge policy =>
      match x, y with
      | VProd l, VProd r => Ok (merge_kv l r RProd policy)
      | VMap l, VMap r => Ok (merge_kv l r RMap policy)
      | VProd l, VMap r => Ok (merge_kv l r RProd policy)
      | VMap l, VProd r => Ok (merge_kv l r RMap policy)
      | _, _ => Ok enr_wrong_shape_value
      end
  | _ => Ok wrong_shape_value
  end.

Definition call_stdlib (name : text) (args : list Value) : option evaluated :=
  match assoc name builtins with
  | None => None
  | Some b =>
      Some (let? _ := check_arity args (builtin_arity b) in
            match args with
            | [v] => call_builtin1 b v
            | [x; y] => call_builtin2 b x y
            | _ => Err (EvalErr (ArityMismatch (Z.of_nat (builtin_arity b)) 0))
            end)
  end.

(** ** Expressions *)
(** [items.iter().map(..).collect::<Result<Vec<_>, _>>()] *)
Fixpoint eval_list (items : list Expr) (env : Env) : result EvalFault (list Value) :=
  match items with
  | [] => Ok []
  | e :: rest =>
      let? v := ev e env in
      let? vs := eval_list rest env in
      Ok (v :: vs)
  end.
Fixpoint eval_fields (fields : list (text * Expr)) (env : Env)
  : result EvalFault (list (text * Value)) :=
  match fields with
  | [] => Ok []
  | (k, e) :: rest =>
      let? v := ev e env in
      let? vs := eval_fields rest env in
      Ok ((k, v) :: vs)
  end.
(** The set literal; [None] when an element is not comparable. *)
Fixpoint eval_set (values : list Value) (items : list Expr) (env : Env)
  : result EvalFault (option (list Value)) :=
  match items with
  | [] => Ok (Some values)
  | e :: rest =>
      let? v := ev e env in
      if negb (comparable v) then Ok None else eval_set (push_unique values v) rest env
  end.

Inductive Carrier : Type := CSeq | CSet | CBag.
(** The final match of a comprehension and of [enrich]. *)
Fixpoint dedup (values results : list Value) : option (list Value) :=
  match results with
  | [] => Some values
  | v :: rest => if negb (comparable v) then None else dedup (push_unique values v) rest
  end.
Definition carry (c : Carrier) (results : list Value) : Value :=
  match c with
  | CSeq => VSeq results
  | CBag => VBag results
  | CSet => match dedup [] results with Some vs => VSet vs | None => wrong_shape_value end
  end.

Definition comprehension_items (v : Value) : option (list Value * Carrier) :=
  match v with
  | VSeq items => Some (items, CSeq)
  | VSet items => Some (items, CSet)
  | VBag items => Some (items, CBag)
  | VBagKV entries => Some (map (fun '(k, v) => VBind k v) entries, CBag)
  | _ => None
  end.

(** The loop of a comprehension; [None] when a predicate is not a boolean. *)
Fixpoint eval_rows (yield_expr pred : option Expr) (binding : text) (items : list Value)
    (env : Env) : result EvalFault (option (list Value)) :=
  match items with
  | [] => Ok (Some [])
  | item :: rest =>
      let child_env := env_insert binding item env in
      let? keep :=
        match pred with
        | None => Ok (VBool true)
        | Some p => ev p child_env
        end in
      match keep with
      | VBool false => eval_rows yield_expr pred binding rest env
      | VBool true =>
          let? result := match yield_expr with Some y => ev y child_env | None => Ok item end in
          let? results := eval_rows yield_expr pred binding rest env in
          Ok (option_map (cons result) results)
      | _ => Ok None
      end
  end.

(** The loop of [Match]; [None] on a key that is not comparable. *)
Fixpoint match_rows (l : Value) (kl kr : Expr) (items : list Value) (env : Env)
  : result EvalFault (option (list Value)) :=
  match items with
  | [] => Ok (Some [])
  | r :: rest =>
      let child := env_insert (chars "r") r (env_insert (chars "l") l env) in
      let? k_l := ev kl child in
      let? k_r := ev kr child in
      if negb (comparable k_l) || negb (comparable k_r) then Ok None
      else
        let? matched := match_rows l kl kr rest env in
        Ok (option_map (fun m => if value_eq k_l k_r then r :: m else m) matched)
  end.
Definition eval_enr_match (args : list Expr) (env : Env) : evaluated :=
  match args with
  | [l; r; kl; kr] =>
      let? left_val := ev l env in
      let? right_coll := ev r env in
      match match_items right_coll with
      | None => Ok enr_wrong_shape_value
      | Some items =>
          let? matched := match_rows left_val kl kr items env in
          Ok (match matched with Some m => VBag m | None => enr_invalid_key_value end)
      end
  | _ => Ok arity_mismatch_value
  end.

Fixpoint enrich_rows (fields : list (text * Expr)) (items : list Value) (env : Env)
  : result EvalFault (list Value) :=
  match items with
  | [] => Ok []
  | item :: rest =>
      let? attach := eval_fields fields (env_insert (chars "l") item env) in
      let attached :=
        match item with
        | VMap entries => merge_record_fields entries attach RMap
        | VProd entries => merge_record_fields entries attach RProd
        | _ => enr_wrong_shape_value
        end in
      let? results := enrich_rows fields rest env in
      Ok (attached :: results)
  end.
Definition eval_enr_enrich (fields : list (text * Expr)) (env : Env) : evaluated :=
  match env_get (chars "_") env with
  | None => Ok unbound_placeholder_value
  | Some left_val =>
      match left_val with
      | VSeq items => let? rows := enrich_rows fields items env in Ok (carry CSeq rows)
      | VSet items => let? rows := enrich_rows fields items env in Ok (carry CSet rows)
      | VBag items => let? rows := enrich_rows fields items env in Ok (carry CBag rows)
      | _ => Ok enr_wrong_shape_value
      end
  end.

Definition fail_text (v : Value) : text := match v with VStr s => s | other => debug_value other end.

Definition eval_call (func_expr : Expr) (args : list Expr) (env : Env) : evaluated :=
  match func_expr with
  | EIdent name =>
      if bool_decide (name = chars "Match") then eval_enr_match args env
      else
        let? arg_vals := eval_list args env in
        match call_stdlib name arg_vals with
        | Some (Err (EvalErr (ArityMismatch _ _))) => Ok arity_mismatch_value
        | Some other => other
        | None =>
            match env_get name env with
            | Some func => apply_lambda func arg_vals
            | None => Ok unbound_name_value
            end
        end
  | _ =>
      let? arg_vals := eval_list args env in
      let? func := ev func_expr env in
      apply_lambda func arg_vals
  end.

Definition eval_body (expr : Expr) (env : Env) : evaluated :=
  match expr with
  | ENull => Ok VNull
  | EBool b => Ok (VBool b)
  | ENum n => Ok (VNum n)
  | EStr s => Ok (VStr s)
  | EBytes bytes => Ok (VBytes bytes)
  | EPlaceholder =>
      Ok (match env_get (chars "_") env with Some v => v | None => unbound_placeholder_value end)
  | EIdent name => Ok (match env_get name env with Some v => v | None => unbound_name_value end)
  | ESeq items => let? vs := eval_list items env in Ok (VSeq vs)
  | ESet items =>
      let? vs := eval_set [] items env in
      Ok (match vs with Some vs => VSet vs | None => wrong_shape_value end)
  | EBag items => let? vs := eval_list items env in Ok (VBag vs)
  | EMap entries => let? vs := eval_fields entries env in Ok (VMap vs)
  | EProd fields => let? vs := eval_fields fields env in Ok (VProd vs)
  | EBagKV entries =>
      let? vs := eval_fields entries env in Ok (VBagKV (map (fun '(k, v) => (VStr k, v)) vs))
  | ESome inner => let? v := ev inner env in Ok (VSome v)
  | ENone => Ok VNone
  | EOk inner => let? v := ev inner env in Ok (VOk v)
  | EFail code msg =>
      let? c := ev code env in
      let? m := ev msg env in
      Ok (VFail (fail_text c) (fail_text m))
  | ELambda param body => Ok (VLambda param body env)
  | ECall func_expr args => eval_call func_expr args env
  | EEnrich fields => eval_enr_enrich fields env
  | EPipe lhs rhs =>
      let? v := ev lhs env in
      ev rhs (env_insert (chars "_") v env)
  | ESelect obj field mode => let? v := ev obj env in Ok (eval_select v field mode)
  | EUnOp op e => let? v := ev e env in Ok (eval_unop op v)
  | EBinOp op l r =>
      let? lhs := ev l env in
      let? rhs := ev r env in
      Ok (eval_binop op lhs rhs)
  | EComprehension yield_expr binding collection pred =>
      let? coll_val := ev collection env in
      match comprehension_items coll_val with
      | None => Ok wrong_shape_value
      | Some (items, carrier) =>
          let? results := eval_rows yield_expr pred binding items env in
          Ok (match results with Some rs => carry carrier rs | None => wrong_shape_value end)
      end
  end.
End Evaluate.

Section Programs.
Context {B : BigNum} {D : DebugText}.

Fixpoint eval_expr (fuel : nat) (expr : Expr) (env : Env) : evaluated :=
  match fuel with
  | O => Err EvalFuel
  | S fuel => eval_body (eval_expr fuel) expr env
  end.

Fixpoint eval_stmts (fuel : nat) (last : option Value) (stmts : list Stmt) (env : Env)
  : result EvalFault (option Value * Env) :=
  match stmts with
  | [] => Ok (last, env)
  | SLet name expr :: rest =>
      let? v := eval_expr fuel expr env in
      eval_stmts fuel None rest (env_insert name v env)
  | SExpr expr :: rest =>
      let? v := eval_expr fuel expr env in
      eval_stmts fuel (Some v) rest env
  | SSource _ _ _ :: rest => eval_stmts fuel None rest env
  end.
Definition eval_program (fuel : nat) (p : Program) (env : Env)
  : result EvalFault (option Value * Env) := eval_stmts fuel None (stmts p) env.

(** [Program::eval_bindings] *)
Definition eval_bindings (fuel : nat) (p : Program) (bindings : list (text * Value)) : evaluated :=
  let? '(r, _) :=
    eval_program fuel p (fold_left (fun env '(name, v) => env_insert name v env) bindings []) in
  Ok (match r with Some v => v | None => VNull end).
End Programs.
