(* ===== verification/SdaEvalFacts.v ===== *)
(** * Facts about evaluation

    Evaluation never leaves the algebra: it raises no error and keeps every value
    well formed.  It ends when functions are only given to the combinators, and
    need not otherwise. *)
From S2P Require Import Prelude SdaNumber SdaLexer SdaParser SdaValue SdaEval SdaValueFacts SdaNumberFacts.

(** ** Records *)
Lemma append_fields_keys out fields r :
  NoDup out.*1 -> append_fields out fields = Some r -> NoDup r.*1 /\ r = out ++ fields.
Proof.
  revert out. induction fields as [|[k v] fields IH]; intros out Hn H; cbn in H.
  { simplify_eq. by rewrite app_nil_r. }
  destruct (has_key k out) eqn:E; [done|]. apply has_key_false in E.
  apply IH in H as [H ->]; [split; [done|by rewrite <- app_assoc]|].
  rewrite fmap_app. apply NoDup_app. split; [done|]. split; [|apply NoDup_singleton].
  intros x Hx ->%list_elem_of_singleton. done.
Qed.
Lemma set_field_keys k v out : (set_field k v out).*1 = out.*1.
Proof. induction out as [|[k' v'] out IH]; cbn; [done|]. case_bool_decide; cbn; congruence. Qed.
Lemma set_field_Forall (P : Value -> Prop) k v out :
  P v -> Forall (fun p => P (snd p)) out -> Forall (fun p => P (snd p)) (set_field k v out).
Proof.
  intros Hv. induction 1 as [|[k' v'] out Hp H IH]; cbn; [constructor|].
  case_bool_decide; by constructor.
Qed.
Lemma merge_fields_good (P : Value -> Prop) policy out fields r :
  NoDup out.*1 -> Forall (fun p => P (snd p)) out -> Forall (fun p => P (snd p)) fields ->
  merge_fields policy out fields = Some r -> NoDup r.*1 /\ Forall (fun p => P (snd p)) r.
Proof.
  intros Hn Ho Hf. revert out Hn Ho. induction Hf as [|[k v] fields Hv Hf IH]; intros out Hn Ho H;
    cbn in H; [by simplify_eq|].
  destruct (has_key k out) eqn:E; [destruct policy; [done|by eapply IH|]|].
  - eapply IH; [| |exact H]; [by rewrite set_field_keys|by apply set_field_Forall].
  - apply has_key_false in E. eapply IH; [| |exact H].
    + rewrite fmap_app. apply NoDup_app. split; [done|]. split; [|apply NoDup_singleton].
      intros x Hx ->%list_elem_of_singleton. done.
    + by apply Forall_app; split; [|constructor].
Qed.

(** ** Sets *)
Lemma apart_app {A} (R : A -> A -> Prop) l x :
  apart R l -> Forall (fun y => ~ R y x) l -> apart R (l ++ [x]).
Proof.
  induction l as [|y l IH]; cbn; [done|]. intros [Hy Hl] [Hx Hf]%Forall_cons.
  split; [by apply Forall_app; split; [|constructor]|by apply IH].
Qed.
Lemma apart_filter {A} (R : A -> A -> Prop) p l : apart R l -> apart R (List.filter p l).
Proof.
  induction l as [|y l IH]; cbn; [done|]. intros [Hy Hl]. destruct (p y); cbn; [|by apply IH].
  split; [|by apply IH]. rewrite Forall_forall in *. intros z Hz%list_elem_of_In%filter_In.
  apply Hy. apply list_elem_of_In. by destruct Hz.
Qed.
Lemma Forall_filter {A} (P : A -> Prop) p l : Forall P l -> Forall P (List.filter p l).
Proof.
  rewrite !Forall_forall. intros H x Hx%list_elem_of_In%filter_In. apply H.
  apply list_elem_of_In. by destruct Hx.
Qed.

Section Sound.
Context {B : BigNum} {L : BigNumLaws B} {D : DebugText}.

Definition set_ok (l : list Value) : Prop :=
  Forall good l /\ Forall (fun x => comparable x = true) l /\ distinct l.
Lemma set_ok_nil : set_ok [].
Proof. by repeat split. Qed.
Lemma push_unique_ok l v : set_ok l -> good v -> comparable v = true -> set_ok (push_unique l v).
Proof.
  intros (H1 & H2 & H3) Hv Hc. unfold push_unique, contains.
  destruct (existsb _ l) eqn:E; [done|]. split; [|split].
  - by apply Forall_app; split; [|constructor].
  - by apply Forall_app; split; [|constructor].
  - apply apart_app; [done|]. apply Forall_forall. intros y Hy Hyv.
    assert (existsb (fun x => value_eq x v) l = true); [|congruence].
    apply existsb_exists. exists y. split; [by apply list_elem_of_In|done].
Qed.
Lemma push_all_ok l m : set_ok l -> Forall good m -> Forall (fun x => comparable x = true) m ->
  set_ok (fold_left push_unique m l).
Proof.
  revert l. induction m as [|v m IH]; intros l Hl Hg Hc; cbn; [done|].
  apply Forall_cons in Hg as [? ?], Hc as [? ?]. apply IH; [|done..]. by apply push_unique_ok.
Qed.
Lemma good_set_ok l : good (VSet l) <-> set_ok l.
Proof. split; [by inversion 1|intros (?&?&?); by constructor]. Qed.

(** ** Operators *)
Lemma fail_value_good c m : good (fail_value c m).
Proof. constructor. Qed.
Ltac fails := first [apply fail_value_good | by constructor].

Lemma record_good k l : NoDup l.*1 -> Forall (fun p => good (snd p)) l -> good (record_of k l).
Proof. destruct k; by constructor. Qed.
Lemma merge_record_good l r k :
  NoDup l.*1 -> Forall (fun p => good (snd p)) l -> Forall (fun p => good (snd p)) r ->
  good (merge_record_fields l r k).
Proof.
  intros Hn Hl Hr. unfold merge_record_fields. destruct (append_fields l r) eqn:E; [|fails].
  apply append_fields_keys in E as [E ->]; [|done]. apply record_good; [done|]. by apply Forall_app.
Qed.
Lemma ratio_ops_ok a b :
  ratio_ok a -> ratio_ok b ->
  ratio_ok (ratio_add a b) /\ ratio_ok (ratio_sub a b) /\ ratio_ok (ratio_mul a b) /\
  ratio_ok (ratio_neg a) /\ (numer b <> 0 -> ratio_ok (ratio_div a b)).
Proof.
  intros Ha Hb. pose proof Ha as [Ha1 Ha2]. pose proof Hb as [Hb1 Hb2].
  rewrite add_spec, sub_spec, mul_spec, neg_spec by done.
  split; [apply new_ok; nia|]. split; [apply new_ok; nia|]. split; [apply new_ok; nia|]. split.
  - split; [done|]. cbn. by rewrite Z.gcd_opp_l.
  - intros Hn. rewrite div_spec by done. apply new_ok. nia.
Qed.
Lemma bag_difference_Forall (P : Value -> Prop) a r : Forall P a -> Forall P (bag_difference a r).
Proof.
  intros Ha. revert r. induction Ha as [|x a Hx Ha IH]; intros r; cbn; [done|].
  destruct (remove_first x r); [apply IH|by constructor].
Qed.
Lemma eval_binop_good op l r : good l -> good r -> good (eval_binop op l r).
Proof.
  intros Hl Hr. destruct op; cbn; try (destruct (_ || _); by fails);
    try (unfold compare_values; destruct l, r; by fails).
  - destruct l, r; try fails; inversion Hl; inversion Hr; subst; try by apply merge_record_good.
    constructor. by apply ratio_ops_ok.
  - destruct l, r; try fails. inversion Hl; inversion Hr; subst. constructor. by apply ratio_ops_ok.
  - destruct l, r; try fails. inversion Hl; inversion Hr; subst. constructor. by apply ratio_ops_ok.
  - destruct l, r; try fails. inversion Hl; inversion Hr; subst.
    unfold ExactNum.is_zero. destruct (numer _ =? 0) eqn:E; [fails|]. boolify.
    constructor. by apply ratio_ops_ok.
  - destruct l, r; try fails. inversion Hl; inversion Hr; subst. constructor. by apply Forall_app.
  - destruct l, r; try fails. apply good_set_ok in Hl, Hr. apply good_set_ok.
    destruct Hr as (?&?&?). by apply push_all_ok.
  - destruct l, r; try fails. inversion Hl; subst.
    constructor; [by apply Forall_filter..|by apply apart_filter].
  - destruct l, r; try fails. inversion Hl; subst.
    constructor; [by apply Forall_filter..|by apply apart_filter].
  - destruct l, r; try fails. inversion Hl; inversion Hr; subst. constructor. by apply Forall_app.
  - destruct l, r; try fails. inversion Hl; subst. constructor. by apply bag_difference_Forall.
  - unfold member, key_member. destruct r; try fails;
      first [destruct (negb (comparable l)); [fails|]; destruct (negb (forallb _ _)); by fails
            |destruct l; by fails].
Qed.
Lemma eval_unop_good op v : good v -> good (eval_unop op v).
Proof.
  intros Hv. destruct op, v; cbn; try fails. inversion Hv; subst. constructor.
  by apply (ratio_ops_ok n n).
Qed.

Lemma assoc_good key l v : Forall (fun p => good (snd p)) l -> assoc key l = Some v -> good v.
Proof. apply (assoc_Forall good). Qed.
Lemma eval_select_good obj field mode : good obj -> good (eval_select obj field mode).
Proof.
  intros Ho. destruct obj; cbn; try fails; inversion Ho as [| | | | | | | |? Hn Hf|? Hn Hf|? Hf|? ? Hk Hv| | | | |];
    subst.
  - destruct mode; [fails|..]; destruct (assoc field entries) eqn:E; try fails; constructor;
      by eapply assoc_good.
  - destruct mode; [|fails..]. destruct (assoc field fields) eqn:E; [|fails]. by eapply assoc_good.
  - assert (Forall (fun p => good (fst p) /\ good (snd p))
      (List.filter (fun '(k, _) => match k with VStr s => bool_decide (s = field) | _ => false end)
         pairs)) as H by by apply Forall_filter.
    destruct mode; [fails|..]; destruct (List.filter _ pairs) as [|[k v] [|]]; try fails;
      inversion H as [|? ? [_ ?]]; by constructor.
  - destruct mode; repeat case_bool_decide; try done; by constructor.
Qed.

(** ** The standard functions *)
Definition sound (r : evaluated) : Prop :=
  match r with Ok v => good v | Err f => f = EvalFuel end.
Definition env_good (env : Env) : Prop := Forall (fun p => good (snd p)) env.

Lemma sound_bind (r : evaluated) (k : Value -> evaluated) :
  sound r -> (forall v, good v -> sound (k v)) -> sound (let? v := r in k v).
Proof. destruct r; cbn; auto. Qed.
Lemma normalize_good m pairs :
  NoDup m.*1 -> Forall (fun p => good (snd p)) m ->
  Forall (fun p => good (fst p) /\ good (snd p)) pairs -> good (normalize_pairs m pairs).
Proof.
  intros Hn Hm Hp. revert m Hn Hm. induction Hp as [|[k v] pairs [_ Hv] Hp IH]; intros m Hn Hm; cbn;
    [by constructor; constructor|].
  destruct k; try fails. destruct (has_key s m) eqn:E; [fails|]. apply has_key_false in E.
  apply IH; [|by apply Forall_app; split; [|constructor]].
  rewrite fmap_app. apply NoDup_app. split; [done|]. split; [|apply NoDup_singleton].
  intros x Hx ->%list_elem_of_singleton. done.
Qed.
Lemma bag_pairs_good pairs items :
  Forall (fun p => good (fst p) /\ good (snd p)) pairs -> Forall good items ->
  good (bag_pairs pairs items).
Proof.
  intros Hp Hi. revert pairs Hp. induction Hi as [|x items Hx Hi IH]; intros pairs Hp; cbn;
    [by constructor; constructor|].
  destruct x; try fails. destruct x1; try fails. inversion Hx; subst.
  apply IH, Forall_app. split; [done|]. constructor; [by split|done].
Qed.
Lemma walk_path_good cur segments : good cur -> good (walk_path cur segments).
Proof.
  revert cur. induction segments as [|x segments IH]; intros cur Hc; cbn; [by constructor|].
  destruct x; try fails. destruct cur; try fails. destruct (assoc s entries) eqn:E; [|fails].
  apply IH. inversion Hc; subst. by eapply assoc_good.
Qed.
Lemma match_items_good v items : good v -> match_items v = Some items -> Forall good items.
Proof. destruct v; cbn; intros Hv [= ->]; by inversion Hv. Qed.
Lemma keys_distinct (entries : list (text * Value)) :
  NoDup entries.*1 -> set_ok (map (fun '(k, _) => VStr k) entries).
Proof.
  intros Hn. split; [|split].
  - apply Forall_forall. intros x Hx%list_elem_of_In. apply in_map_iff in Hx as ([k v] & <- & _). fails.
  - apply Forall_forall. intros x Hx%list_elem_of_In. by apply in_map_iff in Hx as ([k v] & <- & _).
  - induction entries as [|[k v] entries IH]; cbn; [done|]. apply NoDup_cons in Hn as [Hk Hn].
    split; [|by apply IH]. apply Forall_forall. intros x Hx%list_elem_of_In.
    apply in_map_iff in Hx as ([k' v'] & <- & Hin). cbn. rewrite bool_decide_eq_true. intros ->.
    apply Hk. apply list_elem_of_fmap. exists (k', v'). split; [done|by apply list_elem_of_In].
Qed.
Lemma builtin1_sound b v : good v -> sound (call_builtin1 b v).
Proof.
  intros Hv. destruct b; cbn; try fails.
  - destruct v; try fails. inversion Hv; subst. by apply good_set_ok, keys_distinct.
  - destruct v; try fails. inversion Hv as [| | | | | | | |? Hn Hf| | | | | | | |]; subst. constructor.
    apply Forall_map. rewrite sort_by_perm. done.
  - destruct v; try fails. inversion Hv; subst. by apply normalize_good; [constructor|constructor|].
  - destruct v; try fails. inversion Hv; subst. by apply bag_pairs_good; [constructor|].
  - destruct (match_items v) as [[|x [|y l]]|] eqn:E; try fails. constructor.
    apply match_items_good in E; [|done]. by inversion E.
  - destruct (match_items v) as [[|x [|y l]]|] eqn:E; try fails. 
    apply match_items_good in E; [|done]. by inversion E.
  - destruct (match_items v) as [[|x [|y l]]|] eqn:E; try fails. 
    apply match_items_good in E; [|done]. by inversion E.
  - destruct v; try fails. destruct items; [fails|]. constructor. inversion Hv as [| | | | |? Hf| | | | | | | | | | |].
    by inversion Hf.
  - destruct v; try fails. destruct (last items) as [x|] eqn:E; [|fails]. constructor.
    inversion Hv as [| | | | |? Hf| | | | | | | | | | |]; subst. rewrite Forall_forall in Hf.
    apply Hf. by apply last_Some_elem_of.
  - destruct (match_items v) eqn:E; try fails. constructor. by eapply match_items_good.
Qed.

Section Step.
Context (ev : Expr -> Env -> evaluated).
Context (Hev : forall e env, good_expr e -> env_good env -> sound (ev e env)).

Lemma env_insert_good k v env : good v -> env_good env -> env_good (env_insert k v env).
Proof. intros. by constructor. Qed.
Lemma env_get_good k env v : env_good env -> env_get k env = Some v -> good v.
Proof. apply assoc_good. Qed.

Lemma apply_lambda_sound f args : good f -> Forall good args -> sound (apply_lambda ev f args).
Proof.
  intros Hf Ha. destruct f; cbn; try fails. inversion Hf; subst. destruct args as [|x [|]]; try fails.
  apply Hev; [done|]. apply env_insert_good; [|done]. by inversion Ha.
Qed.
Lemma merge_kv_good l r k policy :
  NoDup l.*1 -> Forall (fun p => good (snd p)) l -> Forall (fun p => good (snd p)) r ->
  good (merge_kv l r k policy).
Proof.
  intros Hn Hl Hr. unfold merge_kv. destruct (merge_fields policy l r) eqn:E; [|fails].
  apply (merge_fields_good good) in E as [??]; [|done..]. by apply record_good.
Qed.
(** A combinator applied to the value inside [x]. *)
Lemma combinator_sound f inner (k : Value -> evaluated) :
  good f -> good inner -> (forall v, good v -> sound (k v)) ->
  sound (let? result := apply_lambda ev f [inner] in k result).
Proof. intros. apply sound_bind; [|done]. apply apply_lambda_sound; [done|by constructor]. Qed.
Lemma builtin2_sound b x y : good x -> good y -> sound (call_builtin2 ev b x y).
Proof.
  intros Hx Hy. destruct b; cbn; try fails.
  - destruct (negb (comparable x)); [fails|]. destruct y; try fails.
    destruct (negb (forallb _ _)); [fails|]. constructor. split; [done|]. cbn. by rewrite Z.gcd_1_r.
  - destruct x; try fails. inversion Hx; subst. apply combinator_sound; [done..|]. intros. by constructor.
  - destruct x; try fails. inversion Hx; subst. apply combinator_sound; [done..|].
    intros v Hv. destruct v; first [fails|done].
  - destruct x; try fails; done.
  - destruct x; try fails. inversion Hx; subst. apply combinator_sound; [done..|]. intros. by constructor.
  - destruct x; try fails. inversion Hx; subst. apply combinator_sound; [done..|].
    intros v Hv. destruct v; first [fails|done].
  - destruct x; try fails; done.
  - destruct y; try fails. by apply walk_path_good.
  - destruct x; try fails; destruct y; fails.
  - destruct x; try fails; destruct y; fails.
  - destruct x; try fails; destruct y; try fails; inversion Hx; inversion Hy; subst;
      by apply merge_kv_good.
Qed.
(** A standard function is sound or reports a wrong number of arguments. *)
Lemma call_stdlib_sound name args r :
  Forall good args -> call_stdlib ev name args = Some r ->
  sound r \/ exists n m, r = Err (EvalErr (ArityMismatch n m)).
Proof.
  intros Ha. unfold call_stdlib, check_arity. destruct (assoc name builtins) as [b|]; [|done].
  intros [= <-]. destruct (_ =? _)%nat; [|right; eauto].
  destruct args as [|x [|y [|]]]; [right; eauto|left|left|right; eauto].
  - inversion Ha; subst. by apply builtin1_sound.
  - inversion Ha as [|? ? ? Ha']; inversion Ha'; subst. by apply builtin2_sound.
Qed.

(** ** Expressions *)
Definition lists_sound {A} (P : A -> Prop) (r : result EvalFault A) : Prop :=
  match r with Ok x => P x | Err f => f = EvalFuel end.
Lemma lists_bind {A A'} (P : A -> Prop) (Q : A' -> Prop) r (k : A -> result EvalFault A') :
  lists_sound P r -> (forall x, P x -> lists_sound Q (k x)) -> lists_sound Q (let? x := r in k x).
Proof. destruct r; cbn; auto. Qed.
Lemma ev_sound e env : good_expr e -> env_good env -> lists_sound good (ev e env).
Proof. apply Hev. Qed.

Lemma eval_list_sound es env :
  Forall good_expr es -> env_good env -> lists_sound (Forall good) (eval_list ev es env).
Proof.
  intros He Hn. induction He as [|e es Hg He IH]; cbn; [constructor|].
  eapply lists_bind; [by apply ev_sound|]. intros v Hv.
  eapply lists_bind; [exact IH|]. intros vs Hvs. by constructor.
Qed.
Lemma eval_fields_sound fs env :
  Forall (fun p => good_expr (snd p)) fs -> env_good env ->
  lists_sound (fun vs => vs.*1 = fs.*1 /\ Forall (fun p => good (snd p)) vs) (eval_fields ev fs env).
Proof.
  intros He Hn. induction He as [|[k e] fs Hg He IH]; cbn; [by split|].
  eapply lists_bind; [by apply ev_sound|]. intros v Hv.
  eapply lists_bind; [exact IH|]. intros vs [Hk Hvs]. cbn. rewrite Hk. split; [done|]. by constructor.
Qed.
Lemma eval_set_sound es env l :
  Forall good_expr es -> env_good env -> set_ok l ->
  lists_sound (fun o => forall vs, o = Some vs -> set_ok vs) (eval_set ev l es env).
Proof.
  intros He Hn. revert l. induction He as [|e es Hg He IH]; intros l Hl; cbn; [by intros ? [= <-]|].
  eapply lists_bind; [by apply ev_sound|]. intros v Hv.
  destruct (comparable v) eqn:Hc; cbn; [|by intros ? [=]]. apply IH. by apply push_unique_ok.
Qed.
Lemma dedup_ok l rs vs : set_ok l -> Forall good rs -> dedup l rs = Some vs -> set_ok vs.
Proof.
  intros Hl Hr. revert l Hl. induction Hr as [|v rs Hv Hr IH]; intros l Hl; cbn; [by intros [= <-]|].
  destruct (comparable v) eqn:Hc; cbn; [|done]. apply IH. by apply push_unique_ok.
Qed.
Lemma carry_good c rs : Forall good rs -> good (carry c rs).
Proof.
  intros Hr. destruct c; cbn; [by constructor| |by constructor].
  destruct (dedup [] rs) eqn:E; [|fails]. apply good_set_ok. eapply dedup_ok; [|done..]. apply set_ok_nil.
Qed.
Lemma eval_rows_sound y p b items env :
  (forall e, y = Some e -> good_expr e) -> (forall e, p = Some e -> good_expr e) ->
  Forall good items -> env_good env ->
  lists_sound (fun o => forall vs, o = Some vs -> Forall good vs) (eval_rows ev y p b items env).
Proof.
  intros Hy Hp Hi Hn. induction Hi as [|x items Hx Hi IH]; cbn; [by intros ? [= <-]|].
  assert (env_good (env_insert b x env)) by by apply env_insert_good.
  eapply (lists_bind good).
  { destruct p as [e|]; [apply ev_sound; auto|constructor]. }
  intros keep Hk. destruct keep; try by intros ? [=]. destruct b0; [|exact IH].
  eapply (lists_bind good).
  { destruct y as [e|]; [apply ev_sound; auto|done]. }
  intros v Hv. eapply lists_bind; [exact IH|]. intros [vs|] Hvs; cbn; [|by intros ? [=]].
  intros ? [= <-]. constructor; auto.
Qed.
Lemma match_rows_sound l kl kr items env :
  good l -> good_expr kl -> good_expr kr -> Forall good items -> env_good env ->
  lists_sound (fun o => forall vs, o = Some vs -> Forall good vs) (match_rows ev l kl kr items env).
Proof.
  intros Hl H1 H2 Hi Hn. induction Hi as [|x items Hx Hi IH]; cbn; [by intros ? [= <-]|].
  eapply (lists_bind good); [apply ev_sound; [done|by repeat apply env_insert_good]|]. intros k1 _.
  eapply (lists_bind good); [apply ev_sound; [done|by repeat apply env_insert_good]|]. intros k2 _.
  destruct (_ || _); [by intros ? [=]|]. eapply lists_bind; [exact IH|].
  intros [vs|] Hvs; cbn; [|by intros ? [=]]. intros ? [= <-]. destruct (value_eq k1 k2); [constructor|]; auto.
Qed.
Lemma enrich_rows_sound fs items env :
  Forall (fun p => good_expr (snd p)) fs -> Forall good items -> env_good env ->
  lists_sound (Forall good) (enrich_rows ev fs items env).
Proof.
  intros Hf Hi Hn. induction Hi as [|x items Hx Hi IH]; cbn; [constructor|].
  eapply lists_bind; [apply eval_fields_sound; [done|by apply env_insert_good]|].
  intros vs [_ Hvs]. eapply lists_bind; [exact IH|]. intros rs Hrs. constructor; [|done].
  destruct x; try fails; inversion Hx; subst; by apply merge_record_good.
Qed.

Lemma eval_enr_match_sound args env :
  Forall good_expr args -> env_good env -> sound (eval_enr_match ev args env).
Proof.
  intros Ha Hn. destruct args as [|l [|r [|kl [|kr [|]]]]]; try fails.
  rewrite !Forall_cons in Ha. destruct Ha as (H1 & H2 & H3 & H4 & _). cbn.
  apply sound_bind; [by apply Hev|]. intros lv Hl. apply sound_bind; [by apply Hev|]. intros rv Hr.
  destruct (match_items rv) as [items|] eqn:E; [|fails].
  pose proof (match_rows_sound lv kl kr items env Hl H3 H4 (match_items_good _ _ Hr E) Hn) as Hm.
  destruct (match_rows ev lv kl kr items env) as [[m|]|]; cbn in *; [|fails|done]. constructor. auto.
Qed.
Lemma eval_enr_enrich_sound fs env :
  Forall (fun p => good_expr (snd p)) fs -> env_good env -> sound (eval_enr_enrich ev fs env).
Proof.
  intros Hf Hn. unfold eval_enr_enrich. destruct (env_get _ env) as [v|] eqn:E; [|fails].
  pose proof (env_get_good _ _ _ Hn E) as Hv.
  destruct v; try fails; inversion Hv; subst;
    (pose proof (enrich_rows_sound fs items env Hf ltac:(done) Hn) as Hr;
     destruct (enrich_rows ev fs items env) as [rows|]; [|done]; by apply (carry_good _ rows)).
Qed.
Lemma eval_call_sound f args env :
  good_expr f -> Forall good_expr args -> env_good env -> sound (eval_call ev f args env).
Proof.
  intros Hf Ha Hn. pose proof (eval_list_sound args env Ha Hn) as Hl.
  assert (sound (let? arg_vals := eval_list ev args env in
                 let? func := ev f env in apply_lambda ev func arg_vals)) as Hgen.
  { destruct (eval_list ev args env) as [vs|]; [|done]. apply sound_bind; [by apply Hev|].
    intros v Hv. by apply apply_lambda_sound. }
  destruct f; try exact Hgen. clear Hgen. unfold eval_call.
  case_bool_decide; [by apply eval_enr_match_sound|].
  destruct (eval_list ev args env) as [vs|]; [|done]. cbn in Hl.
  destruct (call_stdlib ev name vs) as [r|] eqn:E.
  - apply call_stdlib_sound in E as [E|(n & m & ->)]; [|fails|done].
    destruct r as [v|f]; [done|]. cbn in E. by subst.
  - destruct (env_get name env) eqn:Eg; [|fails]. apply apply_lambda_sound; [|done].
    by eapply env_get_good.
Qed.

Lemma eval_body_sound e env : good_expr e -> env_good env -> sound (eval_body ev e env).
Proof.
  intros He Hn. inversion He; subst; cbn; try fails; try by constructor.
  - destruct (env_get n env) eqn:E; [by eapply env_get_good|fails].
  - destruct (env_get _ env) eqn:E; [by eapply env_get_good|fails].
  - pose proof (eval_list_sound l env H Hn) as Hs. destruct (eval_list ev l env); [by constructor|done].
  - pose proof (eval_set_sound l env [] H Hn set_ok_nil) as Hs.
    destruct (eval_set ev [] l env) as [[vs|]|]; [|fails|done]. by apply good_set_ok, Hs.
  - pose proof (eval_list_sound l env H Hn) as Hs. destruct (eval_list ev l env); [by constructor|done].
  - pose proof (eval_fields_sound l env H0 Hn) as Hs. destruct (eval_fields ev l env); [|done].
    destruct Hs as [Hk Hs]. constructor; [by rewrite Hk|done].
  - pose proof (eval_fields_sound l env H0 Hn) as Hs. destruct (eval_fields ev l env); [|done].
    destruct Hs as [Hk Hs]. constructor; [by rewrite Hk|done].
  - pose proof (eval_fields_sound l env H Hn) as Hs. destruct (eval_fields ev l env) as [vs|]; [|done].
    destruct Hs as [Hk Hs]. constructor. apply Forall_map. eapply Forall_impl; [exact Hs|].
    intros [k v] Hv. split; [constructor|done].
  - apply sound_bind; [by apply Hev|]. intros v Hv. by constructor.
  - apply sound_bind; [by apply Hev|]. intros v Hv. by constructor.
  - apply sound_bind; [by apply Hev|]. intros v1 _. apply sound_bind; [by apply Hev|]. intros v2 _.
    constructor.
  - apply sound_bind; [by apply Hev|]. intros v1 H1. apply sound_bind; [by apply Hev|].
    intros v2 H2. by apply eval_binop_good.
  - apply sound_bind; [by apply Hev|]. intros v Hv. by apply eval_unop_good.
  - apply sound_bind; [by apply Hev|]. intros v Hv. apply Hev; [done|]. by apply env_insert_good.
  - by apply eval_call_sound.
  - apply sound_bind; [by apply Hev|]. intros v Hv. by apply eval_select_good.
  - by apply eval_enr_enrich_sound.
  - apply sound_bind; [by apply Hev|]. intros v Hv.
    destruct (comprehension_items v) as [[items c']|] eqn:E; [|fails].
    assert (Forall good items) as Hi.
    { destruct v; cbn in E; simplify_eq; inversion Hv as [| | | | |? Hf|? Hf|? Hf| | |? Hf| | | | | |]; subst; try done.
      apply Forall_map. eapply Forall_impl; [exact Hf|]. intros [k w] [??]. by constructor. }
    pose proof (eval_rows_sound y p b items env H H1 Hi Hn) as Hr.
    destruct (eval_rows ev y p b items env) as [[rs|]|]; [|fails|done]. apply carry_good. by apply Hr.
Qed.
End Step.

Lemma eval_expr_sound fuel e env : good_expr e -> env_good env -> sound (eval_expr fuel e env).
Proof.
  revert e env. induction fuel as [|fuel IH]; intros e env He Hn; [done|].
  cbn. by apply eval_body_sound.
Qed.

Inductive good_stmt : Stmt -> Prop :=
| gs_let x e : good_expr e -> good_stmt (SLet x e)
| gs_expr e : good_expr e -> good_stmt (SExpr e)
| gs_source x k ts : good_stmt (SSource x k ts).

Lemma eval_stmts_sound fuel last ss env :
  (forall v, last = Some v -> good v) -> Forall good_stmt ss -> env_good env ->
  lists_sound (fun r => (forall v, fst r = Some v -> good v) /\ env_good (snd r))
    (eval_stmts fuel last ss env).
Proof.
  intros Hl Hs. revert last Hl env. induction Hs as [|s ss Hg Hs IH]; intros last Hl env Hn; [by split|].
  destruct Hg as [x e He|e He|]; cbn.
  - pose proof (eval_expr_sound fuel e env He Hn) as H. destruct (eval_expr fuel e env); [|done].
    apply IH; [done|]. by apply env_insert_good.
  - pose proof (eval_expr_sound fuel e env He Hn) as H. destruct (eval_expr fuel e env); [|done].
    apply IH; [by intros ? [= <-]|done].
  - by apply IH.
Qed.

(** C27. Evaluating a program whose record literals do not repeat a key, on
    well-formed bindings and with any bound on the depth, never raises an error of
    the evaluator: it reaches the bound or gives a well-formed value.  In
    particular every set it builds is duplicate free and every record has one value
    per key, through closures and standard functions. *)
Theorem evaluation_typed (fuel : nat) (p : Program) (bindings : list (text * Value)) :
  Forall good_stmt (stmts p) -> Forall (fun b => good (snd b)) bindings ->
  match eval_bindings fuel p bindings with
  | Ok v => good v
  | Err fault => fault = EvalFuel
  end.
Proof.
  intros Hp Hb. unfold eval_bindings, eval_program.
  assert (forall env, env_good env ->
    env_good (fold_left (fun env '(name, v) => env_insert name v env) bindings env)) as He.
  { induction Hb as [|[x v] bs Hv Hb IH]; intros env Hn; cbn; [done|]. apply IH.
    by apply env_insert_good. }
  pose proof (eval_stmts_sound fuel None (stmts p) _ ltac:(done) Hp (He [] ltac:(constructor))) as H.
  destruct (eval_stmts _ _ _ _) as [[r env]|f]; [|done]. destruct H as [H _].
  destruct r; [by apply H|constructor].
Qed.
End Sound.
