(* ===== verification/SdaTermination.v ===== *)
(** * Termination of evaluation

    A program whose functions are only given to the four combinators ends, under
    bindings without functions, within as many nested calls as its expressions are
    deep.  A function applied to itself does not. *)
From S2P Require Import Prelude SdaNumber SdaLexer SdaParser SdaValue SdaEval SdaValueFacts SdaNumberFacts SdaEvalFacts.

Definition combinators : list text := map chars ["mapOpt"; "bindOpt"; "mapRes"; "bindRes"].

(** Functions appear only as the second argument of a combinator. *)
Inductive plain : Expr -> Prop :=
| pl_null : plain ENull
| pl_bool b : plain (EBool b)
| pl_num n : plain (ENum n)
| pl_str s : plain (EStr s)
| pl_bytes b : plain (EBytes b)
| pl_ident n : plain (EIdent n)
| pl_placeholder : plain EPlaceholder
| pl_seq l : Forall plain l -> plain (ESeq l)
| pl_set l : Forall plain l -> plain (ESet l)
| pl_bag l : Forall plain l -> plain (EBag l)
| pl_map l : Forall (fun p => plain (snd p)) l -> plain (EMap l)
| pl_prod l : Forall (fun p => plain (snd p)) l -> plain (EProd l)
| pl_bagkv l : Forall (fun p => plain (snd p)) l -> plain (EBagKV l)
| pl_some e : plain e -> plain (ESome e)
| pl_none : plain ENone
| pl_ok e : plain e -> plain (EOk e)
| pl_fail c m : plain c -> plain m -> plain (EFail c m)
| pl_binop op l r : plain l -> plain r -> plain (EBinOp op l r)
| pl_unop op e : plain e -> plain (EUnOp op e)
| pl_pipe l r : plain l -> plain r -> plain (EPipe l r)
| pl_call f l : plain f -> Forall plain l -> plain (ECall f l)
| pl_combinator name x param body :
    name ∈ combinators -> plain x -> plain body ->
    plain (ECall (EIdent name) [x; ELambda param body])
| pl_select e f m : plain e -> plain (ESelect e f m)
| pl_enrich l : Forall (fun p => plain (snd p)) l -> plain (EEnrich l)
| pl_comprehension y b c p :
    (forall e, y = Some e -> plain e) -> plain c -> (forall e, p = Some e -> plain e) ->
    plain (EComprehension y b c p).

(** The nesting of an expression. *)
Fixpoint depth (e : Expr) : nat :=
  let all (l : list Expr) := foldr (fun x n => max (depth x) n) 0%nat l in
  let kvs (l : list (text * Expr)) := foldr (fun p n => max (depth (snd p)) n) 0%nat l in
  let opt (o : option Expr) := match o with Some e => depth e | None => 0%nat end in
  match e with
  | ESeq l | ESet l | EBag l => S (all l)
  | EMap l | EProd l | EBagKV l | EEnrich l => S (kvs l)
  | ESome e | EOk e | EUnOp _ e | ELambda _ e | ESelect e _ _ => S (depth e)
  | EFail a b | EBinOp _ a b | EPipe a b => S (max (depth a) (depth b))
  | ECall f l => S (max (depth f) (all l))
  | EComprehension y _ c p => S (max (opt y) (max (depth c) (opt p)))
  | _ => 1%nat
  end.

(** ** Values without functions are closed under the operations *)
Definition flat (v : Value) : Prop := comparable v = true.
Lemma flat_list (l : list Value) : forallb comparable l = true <-> Forall flat l.
Proof. rewrite forallb_forall, Forall_forall. by setoid_rewrite <- list_elem_of_In. Qed.
Lemma flat_fields (l : list (text * Value)) :
  forallb (fun '(_, v) => comparable v) l = true <-> Forall (fun p => flat (snd p)) l.
Proof.
  rewrite forallb_forall, Forall_forall. setoid_rewrite <- list_elem_of_In.
  split; intros H; [intros [k v] ?; by apply (H (k, v))|intros [k v] ?; by apply (H (k, v))].
Qed.
Lemma flat_pairs (l : list (Value * Value)) :
  forallb (fun '(k, v) => comparable k && comparable v) l = true <->
  Forall (fun p => flat (fst p) /\ flat (snd p)) l.
Proof.
  rewrite forallb_forall, Forall_forall. setoid_rewrite <- list_elem_of_In.
  split; intros H [k v] Hx; specialize (H (k, v) Hx); cbn in *; by apply andb_true_iff.
Qed.
Ltac flatten := unfold flat in *; cbn [comparable] in *; fold flat in *;
  rewrite ?flat_list, ?flat_fields, ?flat_pairs in *.

Lemma append_fields_app out fields r : append_fields out fields = Some r -> r = out ++ fields.
Proof.
  revert out. induction fields as [|[k v] fields IH]; intros out H; cbn in H.
  - simplify_eq. by rewrite app_nil_r.
  - destruct (has_key k out); [done|]. apply IH in H as ->. by rewrite <- app_assoc.
Qed.
Lemma merge_record_flat l r k :
  Forall (fun p => flat (snd p)) l -> Forall (fun p => flat (snd p)) r ->
  flat (merge_record_fields l r k).
Proof.
  intros Hl Hr. unfold merge_record_fields. destruct (append_fields l r) eqn:E; [|done].
  apply append_fields_app in E as ->. destruct k; apply flat_fields, Forall_app; done.
Qed.
Lemma merge_fields_flat policy out fields r :
  Forall (fun p => flat (snd p)) out -> Forall (fun p => flat (snd p)) fields ->
  merge_fields policy out fields = Some r -> Forall (fun p => flat (snd p)) r.
Proof.
  intros Ho Hf. revert out Ho. induction Hf as [|[k v] fields Hv Hf IH]; intros out Ho H;
    cbn in H; [by simplify_eq|].
  destruct (has_key k out); [destruct policy; [done|by eapply IH|]|].
  - eapply IH; [|exact H]. by apply (set_field_Forall flat).
  - eapply IH; [|exact H]. by apply Forall_app; split; [|constructor].
Qed.
Lemma merge_kv_flat l r k policy :
  Forall (fun p => flat (snd p)) l -> Forall (fun p => flat (snd p)) r ->
  flat (merge_kv l r k policy).
Proof.
  intros Hl Hr. unfold merge_kv. destruct (merge_fields policy l r) eqn:E; [|done].
  apply merge_fields_flat in E; [|done..]. by destruct k; apply flat_fields.
Qed.

Section Flat.
Context {B : BigNum} {D : DebugText}.

Lemma push_unique_flat l v : Forall flat l -> flat v -> Forall flat (push_unique l v).
Proof. intros. unfold push_unique. destruct (contains l v); [done|]. by apply Forall_app; split; [|constructor]. Qed.
Lemma push_all_flat l m : Forall flat l -> Forall flat m -> Forall flat (fold_left push_unique m l).
Proof.
  intros Hl Hm. revert l Hl. induction Hm; intros; cbn; [done|]. apply IHHm. by apply push_unique_flat.
Qed.
Lemma eval_binop_flat op l r : flat l -> flat r -> flat (eval_binop op l r).
Proof.
  intros Hl Hr. destruct op; cbn; try (by destruct (_ || _)); try (by destruct l, r);
    try (unfold compare_values; by destruct l, r).
  - destruct l, r; try done; flatten; by apply merge_record_flat.
  - destruct l, r; try done. by destruct (ExactNum.is_zero _).
  - destruct l, r; try done. flatten. by apply Forall_app.
  - destruct l, r; try done. flatten. by apply push_all_flat.
  - destruct l, r; try done. flatten. by apply Forall_filter.
  - destruct l, r; try done. flatten. by apply Forall_filter.
  - destruct l, r; try done. flatten. by apply Forall_app.
  - destruct l, r; try done. flatten. by apply bag_difference_Forall.
  - unfold member, key_member. destruct r; try done;
      first [destruct (negb (comparable l)); [done|]; by destruct (negb (forallb _ _))|by destruct l].
Qed.
Lemma eval_select_flat obj field mode : flat obj -> flat (eval_select obj field mode).
Proof.
  intros Ho. destruct obj; cbn; try done; flatten.
  - destruct mode; [done|..]; destruct (assoc field entries) eqn:E; try done;
      by apply (assoc_Forall flat) in E.
  - destruct mode; try done. destruct (assoc field fields) eqn:E; [|done].
    by apply (assoc_Forall flat) in E.
  - eapply (Forall_filter _ (fun '(k, _) =>
      match k with VStr s => bool_decide (s = field) | _ => false end)) in Ho.
    destruct mode; [done|..]; destruct (List.filter _ pairs) as [|[k v] [|]]; try done;
      inversion Ho as [|? ? [_ ?]]; by cbn.
  - apply andb_true_iff in Ho as [H1 H2]. destruct mode; repeat case_bool_decide; done.
Qed.
Lemma eval_unop_flat op v : flat v -> flat (eval_unop op v).
Proof. by destruct op, v. Qed.
Lemma match_items_flat v items : flat v -> match_items v = Some items -> Forall flat items.
Proof. destruct v; cbn; intros Hv [= ->]; by flatten. Qed.
Lemma normalize_flat m pairs :
  Forall (fun p => flat (snd p)) m -> Forall (fun p => flat (fst p) /\ flat (snd p)) pairs ->
  flat (normalize_pairs m pairs).
Proof.
  intros Hm Hp. revert m Hm. induction Hp as [|[k v] pairs [_ Hv] Hp IH]; intros m Hm; cbn;
    [by apply flat_fields|].
  destruct k; try done. destruct (has_key s m); [done|]. apply IH. by apply Forall_app; split; [|constructor].
Qed.
Lemma bag_pairs_flat pairs items :
  Forall (fun p => flat (fst p) /\ flat (snd p)) pairs -> Forall flat items -> flat (bag_pairs pairs items).
Proof.
  intros Hp Hi. revert pairs Hp. induction Hi as [|x items Hx Hi IH]; intros pairs Hp; cbn;
    [by apply flat_pairs|].
  destruct x; try done. destruct x1; try done. apply IH, Forall_app. split; [done|].
  by constructor; [split|].
Qed.
Lemma walk_path_flat cur segments : flat cur -> flat (walk_path cur segments).
Proof.
  revert cur. induction segments as [|x segments IH]; intros cur Hc; cbn; [done|].
  destruct x; try done. destruct cur; try done. destruct (assoc s entries) eqn:E; [|done].
  apply IH. flatten. by apply (assoc_Forall flat) in E.
Qed.

(** ** Every call gives a value *)
Definition gives {A} (P : A -> Prop) (r : result EvalFault A) : Prop :=
  match r with Ok x => P x | Err _ => False end.
Lemma gives_bind {A A'} (P : A -> Prop) (Q : A' -> Prop) r (k : A -> result EvalFault A') :
  gives P r -> (forall x, P x -> gives Q (k x)) -> gives Q (let? x := r in k x).
Proof. destruct r; cbn; [auto|done]. Qed.
Definition env_flat (env : Env) : Prop := Forall (fun p => flat (snd p)) env.
Lemma env_insert_flat k v env : flat v -> env_flat env -> env_flat (env_insert k v env).
Proof. intros. by constructor. Qed.
Lemma env_get_flat k env v : env_flat env -> env_get k env = Some v -> flat v.
Proof. apply (assoc_Forall flat). Qed.

Lemma builtin1_flat b v : flat v -> gives flat (call_builtin1 b v).
Proof.
  intros Hv. destruct b; cbn; try done.
  - destruct v; try done. apply flat_list, Forall_map, Forall_forall. by intros [k x] _.
  - destruct v; try done. apply flat_fields in Hv. apply flat_list, Forall_map. by rewrite sort_by_perm.
  - destruct v; try done. flatten. by apply normalize_flat; [constructor|].
  - destruct v; try done. flatten. by apply bag_pairs_flat; [constructor|].
  - destruct (match_items v) as [[|x [|y l]]|] eqn:E; try done.
    apply match_items_flat in E; [|done]. by inversion E.
  - destruct (match_items v) as [[|x [|y l]]|] eqn:E; try done.
    apply match_items_flat in E; [|done]. by inversion E.
  - destruct (match_items v) as [[|x [|y l]]|] eqn:E; try done.
    apply match_items_flat in E; [|done]. by inversion E.
  - destruct v; try done. destruct items; [done|]. flatten. by inversion Hv.
  - destruct v; try done. destruct (last items) as [x|] eqn:E; [|done]. flatten.
    rewrite Forall_forall in Hv. apply (Hv x). by apply last_Some_elem_of.
  - destruct (match_items v) eqn:E; try done. apply flat_list. by eapply match_items_flat.
Qed.
(** A function applied in a standard function gives a value without functions. *)
Definition applies ev (f : Value) : Prop := forall v, flat v -> gives flat (apply_lambda ev f [v]).
Lemma flat_applies ev f : flat f -> applies ev f.
Proof. by destruct f. Qed.
Lemma builtin2_flat ev b x y :
  flat x -> flat y \/ b ∈ [MapOpt; BindOpt; MapRes; BindRes] -> applies ev y ->
  gives flat (call_builtin2 ev b x y).
Proof.
  intros Hx Hy Ha. destruct b; cbn; try done;
    try (destruct Hy as [Hy|Hy]; [|by repeat (apply elem_of_cons in Hy as [?|Hy]; [done|]);
         apply elem_of_nil in Hy]).
  - destruct (negb (comparable x)); [done|]. destruct y; try done. by destruct (negb (forallb _ _)).
  - by apply andb_true_iff.
  - destruct x; try done. eapply gives_bind; [by apply Ha|]. done.
  - destruct x; try done. eapply gives_bind; [by apply Ha|]. intros v Hv. by destruct v.
  - destruct x; done.
  - destruct x; try done. eapply gives_bind; [by apply Ha|]. done.
  - destruct x; try done. eapply gives_bind; [by apply Ha|]. intros v Hv. by destruct v.
  - destruct x; done.
  - destruct y; try done. by apply walk_path_flat.
  - destruct x; try done; by destruct y.
  - destruct x; try done; by destruct y.
  - destruct x; try done; destruct y; try done; flatten; by apply merge_kv_flat.
Qed.

Section Step.
Context (ev : Expr -> Env -> evaluated) (n : nat).
Context (Hev : forall e env, plain e -> (depth e <= n)%nat -> env_flat env -> gives flat (ev e env)).

Lemma eval_list_flat es env :
  Forall plain es -> (foldr (fun x n => max (depth x) n) 0 es <= n)%nat -> env_flat env ->
  gives (Forall flat) (eval_list ev es env).
Proof.
  intros He Hd Hn. induction He as [|e es Hg He IH]; cbn in *; [constructor|].
  eapply gives_bind; [apply Hev; [done|lia|done]|]. intros v Hv.
  eapply gives_bind; [apply IH; lia|]. intros vs Hvs. by constructor.
Qed.
Lemma eval_fields_flat fs env :
  Forall (fun p => plain (snd p)) fs -> (foldr (fun p n => max (depth (snd p)) n) 0 fs <= n)%nat ->
  env_flat env -> gives (Forall (fun p => flat (snd p))) (eval_fields ev fs env).
Proof.
  intros He Hd Hn. induction He as [|[k e] fs Hg He IH]; cbn in *; [constructor|].
  eapply gives_bind; [apply Hev; [done|lia|done]|]. intros v Hv.
  eapply gives_bind; [apply IH; lia|]. intros vs Hvs. by constructor.
Qed.
Lemma eval_set_flat es env l :
  Forall plain es -> (foldr (fun x n => max (depth x) n) 0 es <= n)%nat -> env_flat env ->
  Forall flat l -> gives (fun o => forall vs, o = Some vs -> Forall flat vs) (eval_set ev l es env).
Proof.
  intros He Hd Hn. revert l. induction He as [|e es Hg He IH]; intros l Hl; cbn in *; [by intros ? [= <-]|].
  eapply gives_bind; [apply Hev; [done|lia|done]|]. intros v Hv.
  destruct (negb (comparable v)); [by intros ? [=]|]. apply IH; [lia|]. by apply push_unique_flat.
Qed.
Lemma dedup_flat l rs vs : Forall flat l -> Forall flat rs -> dedup l rs = Some vs -> Forall flat vs.
Proof.
  intros Hl Hr. revert l Hl. induction Hr as [|v rs Hv Hr IH]; intros l Hl; cbn; [by intros [= <-]|].
  destruct (negb (comparable v)); [done|]. apply IH. by apply push_unique_flat.
Qed.
Lemma carry_flat c rs : Forall flat rs -> flat (carry c rs).
Proof.
  intros Hr. destruct c; cbn; [by apply flat_list| |by apply flat_list].
  destruct (dedup [] rs) eqn:E; [|done]. apply flat_list. by eapply dedup_flat; [constructor|..].
Qed.
Lemma eval_rows_flat y p b items env :
  (forall e, y = Some e -> plain e /\ (depth e <= n)%nat) ->
  (forall e, p = Some e -> plain e /\ (depth e <= n)%nat) ->
  Forall flat items -> env_flat env ->
  gives (fun o => forall vs, o = Some vs -> Forall flat vs) (eval_rows ev y p b items env).
Proof.
  intros Hy Hp Hi Hn. induction Hi as [|x items Hx Hi IH]; cbn; [by intros ? [= <-]|].
  assert (env_flat (env_insert b x env)) by by apply env_insert_flat.
  eapply (gives_bind flat).
  { destruct p as [e|]; [destruct (Hp e); auto|done]. }
  intros keep Hk. destruct keep; try by intros ? [=]. destruct b0; [|exact IH].
  eapply (gives_bind flat).
  { destruct y as [e|]; [destruct (Hy e); auto|done]. }
  intros v Hv. eapply gives_bind; [exact IH|]. intros [vs|] Hvs; cbn; [|by intros ? [=]].
  intros ? [= <-]. constructor; auto.
Qed.
Lemma match_rows_flat l kl kr items env :
  flat l -> plain kl -> plain kr -> (depth kl <= n)%nat -> (depth kr <= n)%nat ->
  Forall flat items -> env_flat env ->
  gives (fun o => forall vs, o = Some vs -> Forall flat vs) (match_rows ev l kl kr items env).
Proof.
  intros Hl H1 H2 D1 D2 Hi Hn. induction Hi as [|x items Hx Hi IH]; cbn; [by intros ? [= <-]|].
  eapply (gives_bind flat); [apply Hev; [done..|by repeat apply env_insert_flat]|]. intros k1 _.
  eapply (gives_bind flat); [apply Hev; [done..|by repeat apply env_insert_flat]|]. intros k2 _.
  destruct (_ || _); [by intros ? [=]|]. eapply gives_bind; [exact IH|].
  intros [vs|] Hvs; cbn; [|by intros ? [=]]. intros ? [= <-]. destruct (value_eq k1 k2); [constructor|]; auto.
Qed.
Lemma enrich_rows_flat fs items env :
  Forall (fun p => plain (snd p)) fs -> (foldr (fun p n => max (depth (snd p)) n) 0 fs <= n)%nat ->
  Forall flat items -> env_flat env -> gives (Forall flat) (enrich_rows ev fs items env).
Proof.
  intros Hf Hd Hi Hn. induction Hi as [|x items Hx Hi IH]; cbn; [constructor|].
  eapply gives_bind; [apply eval_fields_flat; [done..|by apply env_insert_flat]|].
  intros vs Hvs. eapply gives_bind; [exact IH|]. intros rs Hrs. constructor; [|done].
  destruct x; try done; flatten; by apply merge_record_flat.
Qed.

Lemma eval_enr_match_flat args env :
  Forall plain args -> (foldr (fun x n => max (depth x) n) 0 args <= n)%nat -> env_flat env ->
  gives flat (eval_enr_match ev args env).
Proof.
  intros Ha Hd Hn. destruct args as [|l [|r [|kl [|kr [|]]]]]; try done.
  rewrite !Forall_cons in Ha. destruct Ha as (H1 & H2 & H3 & H4 & _). cbn in Hd |- *.
  eapply gives_bind; [apply Hev; [done|lia|done]|]. intros lv Hl.
  eapply gives_bind; [apply Hev; [done|lia|done]|]. intros rv Hr.
  destruct (match_items rv) as [items|] eqn:E; [|done].
  pose proof (match_rows_flat lv kl kr items env Hl H3 H4 ltac:(lia) ltac:(lia)
    (match_items_flat _ _ Hr E) Hn) as Hm.
  destruct (match_rows ev lv kl kr items env) as [[m|]|]; cbn in *; [|done|done].
  apply flat_list. auto.
Qed.
Lemma eval_enr_enrich_flat fs env :
  Forall (fun p => plain (snd p)) fs -> (foldr (fun p n => max (depth (snd p)) n) 0 fs <= n)%nat ->
  env_flat env -> gives flat (eval_enr_enrich ev fs env).
Proof.
  intros Hf Hd Hn. unfold eval_enr_enrich. destruct (env_get _ env) as [v|] eqn:E; [|done].
  pose proof (env_get_flat _ _ _ Hn E) as Hv.
  destruct v; try done; apply flat_list in Hv;
    (pose proof (enrich_rows_flat fs items env Hf Hd Hv Hn) as Hr;
     destruct (enrich_rows ev fs items env) as [rows|]; [|done]; by apply (carry_flat _ rows)).
Qed.
(** A standard function on values without functions. *)
Lemma call_stdlib_flat name args :
  Forall flat args ->
  match call_stdlib ev name args with
  | Some (Err (EvalErr (ArityMismatch _ _))) | None => True
  | Some r => gives flat r
  end.
Proof.
  intros Ha. unfold call_stdlib, check_arity. destruct (assoc name builtins) as [b|]; [|done].
  destruct (_ =? _)%nat; [|done]. destruct args as [|x [|y [|]]]; try done.
  - apply Forall_cons in Ha as [Hx _]. apply (builtin1_flat b) in Hx.
    destruct (call_builtin1 b x); [done|by cbn in Hx].
  - rewrite !Forall_cons in Ha. destruct Ha as (Hx & Hy & _).
    pose proof (builtin2_flat ev b x y Hx (or_introl Hy) (flat_applies ev y Hy)) as H.
    destruct (call_builtin2 ev b x y); [done|by cbn in H].
Qed.
Lemma eval_call_flat f args env :
  plain f -> Forall plain args -> (depth f <= n)%nat ->
  (foldr (fun x n => max (depth x) n) 0 args <= n)%nat -> env_flat env ->
  gives flat (eval_call ev f args env).
Proof.
  intros Hf Ha Df Da Hn. pose proof (eval_list_flat args env Ha Da Hn) as Hl.
  assert (forall v vs, flat v -> gives flat (apply_lambda ev v vs)) as Happ by by intros [].
  assert (gives flat (let? arg_vals := eval_list ev args env in
                      let? func := ev f env in apply_lambda ev func arg_vals)) as Hgen.
  { destruct (eval_list ev args env) as [vs|]; [|done].
    eapply gives_bind; [by apply Hev|]. intros v Hv. by apply Happ. }
  destruct f; try exact Hgen. clear Hgen. unfold eval_call.
  case_bool_decide; [by apply eval_enr_match_flat|].
  destruct (eval_list ev args env) as [vs|]; [|done]. cbn in Hl.
  pose proof (call_stdlib_flat name vs Hl) as Hs.
  destruct (call_stdlib ev name vs) as [[v|[[]|]]|]; try done.
  destruct (env_get name env) eqn:Eg; [|done]. apply Happ. by eapply env_get_flat.
Qed.
Lemma combinator_flat name x param body env :
  name ∈ combinators -> plain x -> plain body -> (depth x <= n)%nat -> (S (depth body) <= n)%nat ->
  env_flat env -> (forall env', ev (ELambda param body) env' = Ok (VLambda param body env')) ->
  gives flat (eval_call ev (EIdent name) [x; ELambda param body] env).
Proof.
  intros Hc Hx Hb Dx Db Hn Hlam.
  assert (exists b, assoc name builtins = Some b /\ b ∈ [MapOpt; BindOpt; MapRes; BindRes] /\
    builtin_arity b = 2%nat /\ name <> chars "Match") as (b & Eb & Hin & Har & Hm).
  { unfold combinators in Hc. cbn [map] in Hc.
    repeat (apply elem_of_cons in Hc as [->|Hc];
      [eexists; split; [by vm_compute|]; split; [set_solver|by split]|]).
    by apply elem_of_nil in Hc. }
  unfold eval_call. rewrite bool_decide_false by done. cbn [eval_list].
  pose proof (Hev x env Hx Dx Hn) as Hv. destruct (ev x env) as [v|]; [|done]. cbn in Hv.
  rewrite Hlam. unfold call_stdlib, check_arity. rewrite Eb, Har. cbn [length Nat.eqb].
  pose proof (builtin2_flat ev b v (VLambda param body env) Hv (or_intror Hin)) as H.
  destruct (call_builtin2 ev b v _) as [r|f]; [apply H|destruct H];
    intros w Hw; apply Hev; try done; try lia; by apply env_insert_flat.
Qed.
Lemma eval_body_flat e env :
  plain e -> (depth e <= S n)%nat -> env_flat env ->
  (forall p b env', (0 < n)%nat -> ev (ELambda p b) env' = Ok (VLambda p b env')) ->
  gives flat (eval_body ev e env).
Proof.
  intros He Hd Hn Hlam. inversion He; subst; cbn in Hd |- *; try done.
  - destruct (env_get _ env) eqn:E; [by eapply env_get_flat|done].
  - destruct (env_get _ env) eqn:E; [by eapply env_get_flat|done].
  - eapply gives_bind; [apply eval_list_flat; [done|lia|done]|]. intros vs Hvs. by apply flat_list.
  - eapply gives_bind; [apply eval_set_flat; [done|lia|done|constructor]|].
    intros [vs|] Hvs; [|done]. apply flat_list. auto.
  - eapply gives_bind; [apply eval_list_flat; [done|lia|done]|]. intros vs Hvs. by apply flat_list.
  - eapply gives_bind; [apply eval_fields_flat; [done|lia|done]|]. intros vs Hvs. by apply flat_fields.
  - eapply gives_bind; [apply eval_fields_flat; [done|lia|done]|]. intros vs Hvs. by apply flat_fields.
  - eapply gives_bind; [apply eval_fields_flat; [done|lia|done]|]. intros vs Hvs.
    apply flat_pairs, Forall_map. eapply Forall_impl; [exact Hvs|]. by intros [k v].
  - eapply gives_bind; [apply Hev; [done|lia|done]|]. done.
  - eapply gives_bind; [apply Hev; [done|lia|done]|]. done.
  - eapply gives_bind; [apply Hev; [done|lia|done]|]. intros v1 _.
    eapply gives_bind; [apply Hev; [done|lia|done]|]. done.
  - eapply gives_bind; [apply Hev; [done|lia|done]|]. intros v1 H1.
    eapply gives_bind; [apply Hev; [done|lia|done]|]. intros v2 H2. by apply eval_binop_flat.
  - eapply gives_bind; [apply Hev; [done|lia|done]|]. intros v Hv. by apply eval_unop_flat.
  - eapply gives_bind; [apply Hev; [done|lia|done]|]. intros v Hv.
    apply Hev; [done|lia|by apply env_insert_flat].
  - apply eval_call_flat; [done|done|lia|lia|done].
  - apply combinator_flat; [done..|lia|lia|done|]. intros. apply Hlam. lia.
  - eapply gives_bind; [apply Hev; [done|lia|done]|]. intros v Hv. by apply eval_select_flat.
  - apply eval_enr_enrich_flat; [done|lia|done].
  - eapply gives_bind; [apply Hev; [done|lia|done]|]. intros v Hv.
    destruct (comprehension_items v) as [[items c']|] eqn:E; [|done].
    assert (Forall flat items) as Hi.
    { destruct v; cbn in E; simplify_eq; flatten; try done.
      apply Forall_map. eapply Forall_impl; [exact Hv|]. intros [k w] [??]. by apply andb_true_iff. }
    assert (forall o : option Expr, (match o with Some e => depth e | None => 0%nat end <= n)%nat ->
      (forall e, o = Some e -> plain e) -> forall e, o = Some e -> plain e /\ (depth e <= n)%nat) as Ho.
    { intros o Hd' Hp' e' ->. auto. }
    pose proof (eval_rows_flat y p b items env (Ho y ltac:(lia) H) (Ho p ltac:(lia) H1) Hi Hn) as Hr.
    destruct (eval_rows ev y p b items env) as [[rs|]|]; [|done|done]. apply carry_flat. by apply Hr.
Qed.
End Step.

(** C28. Every expression whose functions are only given to [mapOpt], [bindOpt],
    [mapRes] and [bindRes] evaluates to a value under any bindings that hold no
    function, with no more nested calls than the expression is deep; and the value
    holds no function either.  A bound function can be called by name, and then
    evaluation need not end ([self_call_loops]). *)
Theorem combinator_programs_end (fuel : nat) (e : Expr) (env : Env) :
  plain e -> (depth e <= fuel)%nat -> Forall (fun b => comparable (snd b) = true) env ->
  exists v, eval_expr fuel e env = Ok v /\ comparable v = true.
Proof.
  intros He Hd Hn. assert (gives flat (eval_expr fuel e env)) as H.
  { revert e env He Hd Hn. induction fuel as [|fuel IH]; intros e env He Hd Hn; [destruct e; cbn in Hd; lia|].
    cbn. apply (eval_body_flat _ fuel); [done..|]. intros p b env' Hf. by destruct fuel; [lia|]. }
  destruct (eval_expr fuel e env) as [v|]; [by exists v|done].
Qed.

(** A function applied to itself never ends. *)
Definition self_apply : Expr := ELambda (chars "x") (ECall (EIdent (chars "x")) [EIdent (chars "x")]).
Definition omega : Expr := ECall self_apply [self_apply].
Lemma self_call_loops fuel env env0 :
  env_get (chars "x") env =
    Some (VLambda (chars "x") (ECall (EIdent (chars "x")) [EIdent (chars "x")]) env0) ->
  eval_expr fuel (ECall (EIdent (chars "x")) [EIdent (chars "x")]) env = Err EvalFuel.
Proof.
  assert (forall ev args, call_stdlib ev (chars "x") args = None) as Hs by done.
  revert env env0. induction fuel as [|fuel IH]; intros env env0 He; [done|].
  cbn [eval_expr eval_body]. unfold eval_call. rewrite bool_decide_false by done. cbn [eval_list].
  destruct fuel as [|fuel]; [done|]. cbn [eval_expr eval_body]. rewrite Hs, He.
  cbn [apply_lambda]. by apply (IH _ env0).
Qed.
(** The evaluator has no bound of its own: there is a program whose evaluation
    exceeds every depth. *)
Theorem omega_diverges fuel env : eval_expr fuel omega env = Err EvalFuel.
Proof.
  destruct fuel as [|[|fuel]]; [done|done|].
  exact (self_call_loops (S fuel) (env_insert (chars "x") _ env) env eq_refl).
Qed.
End Flat.

(** ** Concrete programs *)
#[global] Instance sample_debug : DebugText := {| debug_value := fun _ => chars "value" |}.
Definition half_price : Expr :=
  ECall (EIdent (chars "mapOpt"))
    [ESelect (EIdent (chars "input")) (chars "price") Optional;
     ELambda (chars "p") (EBinOp Div (EIdent (chars "p")) (ENum {| numer := 2; denom := 1 |}))].
Definition order : Env := [(chars "input", VMap [(chars "price", VNum {| numer := 9; denom := 1 |})])].
Lemma combinator_programs_end_witness :
  (exists v, eval_expr (depth half_price) half_price order = Ok v /\ comparable v = true) /\
  eval_expr (depth half_price) half_price order = Ok (VSome (VNum {| numer := 9; denom := 2 |})).
Proof.
  split; [|by vm_compute]. apply combinator_programs_end; [|done|by repeat constructor].
  apply pl_combinator; [by vm_compute; left|by repeat constructor|by repeat constructor].
Defined.
Definition set_program : Program := {| stmts :=
  [SLet (chars "s") (ESet [ENum {| numer := 1; denom := 1 |}; ENum {| numer := 1; denom := 1 |}]);
   SExpr (EBinOp Union (EIdent (chars "s")) (EIdent (chars "t")))] |}.
Lemma evaluation_typed_witness :
  match eval_bindings 9 set_program [(chars "t", VSet [VStr (chars "a")])] with
  | Ok v => good v
  | Err fault => fault = EvalFuel
  end /\
  eval_bindings 9 set_program [(chars "t", VSet [VStr (chars "a")])] =
    Ok (VSet [VNum {| numer := 1; denom := 1 |}; VStr (chars "a")]).
Proof. split; [apply (evaluation_typed 9)|by vm_compute]; by repeat constructor. Defined.

(** A record literal that repeats a key gives [keys] a set with a repeated member,
    and equality with that set depends on the side. *)
Definition repeated_keys : Expr :=
  ECall (EIdent (chars "keys"))
    [EMap [(chars "a", EBool true); (chars "a", EBool false)]].
Definition two_names : Expr := ESet [EStr (chars "a"); EStr (chars "b")].
Example equality_not_symmetric :
  eval_expr 9 (EBinOp EqOp repeated_keys two_names) [] = Ok (VBool true) /\
  eval_expr 9 (EBinOp EqOp two_names repeated_keys) [] = Ok (VBool false).
Proof. by vm_compute. Qed.
