(* ===== verification/SdaParseFacts.v ===== *)
(** * Reading a program always ends

    Every character sequence is either parsed or refused with an error of the
    lexer or of the parser: the loops end, the descent is no deeper than the
    program is long, and no index is out of bounds. *)
From S2P Require Import Prelude SdaNumber SdaLexer SdaParser SdaNumberFacts.

(** ** The lexer *)
Lemma span_length p cs a b : span p cs = (a, b) -> (length b <= length cs)%nat.
Proof.
  revert a b. induction cs as [|c cs IH]; intros a b; cbn; [by intros [= <- <-]|].
  destruct (p c); [|by intros [= <- <-]]. destruct (span p cs) as [a' b'].
  intros [= <- <-]. specialize (IH _ _ eq_refl). cbn. lia.
Qed.
Lemma span_progress p c cs a b : p c = true -> span p (c :: cs) = (a, b) -> (length b <= length cs)%nat.
Proof.
  intros Hp. cbn. rewrite Hp. destruct (span p cs) as [a' b'] eqn:E. intros [= <- <-].
  by eapply span_length.
Qed.
Definition unescape (c : char) : text :=
  if c =? 110 then [10] else if c =? 116 then [9] else if c =? 114 then [13]
  else if c =? 34 then [34] else if c =? 92 then [92] else [92; c].
Lemma scan_string_cons c t :
  scan_string (c :: t) =
  if c =? 34 then Some ([], t)
  else if c =? 92 then
    match t with
    | [] => None
    | e :: t' =>
        match scan_string t' with
        | None => None
        | Some (s, rest) => Some (unescape e ++ s, rest)
        end
    end
  else match scan_string t with Some (s, rest) => Some (c :: s, rest) | None => None end.
Proof. destruct c as [|c|c]; [done| |done]. by repeat (destruct c as [c|c|]; try done). Qed.
Lemma scan_string_length cs s rest : scan_string cs = Some (s, rest) -> (length rest < length cs)%nat.
Proof.
  remember (length cs) as n eqn:Hn. revert cs Hn s rest.
  induction n as [n IH] using lt_wf_ind. intros cs -> s rest H.
  destruct cs as [|c t]; [done|]. rewrite scan_string_cons in H. cbn [length].
  destruct (c =? 34); [simplify_eq; lia|]. destruct (c =? 92).
  - destruct t as [|e t']; [done|]. destruct (scan_string t') as [[s' r']|] eqn:E'; [|done].
    simplify_eq. pose proof (IH (length t') ltac:(cbn; lia) t' eq_refl _ _ E'). cbn. lia.
  - destruct (scan_string t) as [[s' r']|] eqn:E'; [|done]. simplify_eq.
    pose proof (IH (length t) ltac:(cbn; lia) t eq_refl _ _ E'). lia.
Qed.
Lemma scan_number_progress c cs a b :
  is_ascii_digit c || (c =? 46) = true -> scan_number (c :: cs) = (a, b) ->
  (length b <= length cs)%nat.
Proof.
  intros Hc. unfold scan_number. destruct (span _ (c :: cs)) as [m r] eqn:E.
  apply span_progress in E; [|done]. destruct r as [|e r']; [by intros [= <- <-]|].
  destruct ((e =? 101) || (e =? 69)); [|by intros [= <- <-]].
  destruct (match r' with s :: r => _ | [] => _ end) as [sg r''] eqn:E2.
  assert (length r'' <= length r')%nat.
  { destruct r' as [|s r1]; [by simplify_eq|]. destruct ((s =? 43) || (s =? 45)); injection E2 as <- <-; cbn; lia. }
  destruct (span is_ascii_digit r'') as [x y] eqn:E3. apply span_length in E3.
  intros [= <- <-]. cbn in E. lia.
Qed.

Section Lexing.
Context {C : CharClass} {CL : CharLaws C} {B : BigNum}.

Lemma lex_step_progress start c cs k rest :
  lex_step start (c :: cs) = Ok (k, rest) -> (length rest <= length cs)%nat.
Proof.
  unfold lex_step. destruct (is_whitespace c); [by intros [= <- <-]|].
  destruct ((c =? 59) && _) eqn:E1.
  { apply andb_true_iff in E1 as [->%Z.eqb_eq _].
    destruct (span (fun c => negb (c =? 10)) (59 :: cs)) as [a b] eqn:E.
    intros [= <- <-]. by eapply span_progress; [|exact E]. }
  destruct (is_ascii_digit c || _) eqn:E2.
  { destruct (scan_number (c :: cs)) as [a b] eqn:E. destruct (ExactNum.parse_literal a); [|done].
    intros [= <- <-]. eapply scan_number_progress; [|exact E].
    apply orb_true_iff in E2 as [->|E2]; [done|]. apply andb_true_iff in E2 as [-> _]. apply orb_true_r. }
  destruct (c =? 34).
  { destruct (scan_string cs) as [[s r]|] eqn:E; [|done]. intros [= <- <-].
    apply scan_string_length in E. lia. }
  destruct (is_alphabetic c || (c =? 95)) eqn:E3.
  { destruct ((c =? 95) && _); [by intros [= <- <-]|].
    destruct (span is_word_char (c :: cs)) as [a b] eqn:E. intros [= <- <-].
    eapply span_progress; [|exact E]. unfold is_word_char.
    apply orb_true_iff in E3 as [E3| ->]; [|apply orb_true_r].
    by rewrite alphabetic_alphanumeric. }
  unfold scan_symbol. destruct cs as [|d cs].
  - destruct (symbol1 c); [|done]. by intros [= <- <-].
  - destruct (symbol2 c d); [intros [= <- <-]; rewrite length_drop; cbn; lia|].
    destruct (symbol1 c); [|done]. by intros [= <- <-].
Qed.
Definition ends_eof (ts : tokens) : Prop := option_map kind (last ts) = Some KEof.

Lemma lex_from_ends fuel total cs :
  (length cs <= fuel)%nat ->
  match lex_from fuel total cs with
  | Ok ts => ends_eof ts
  | Err LexFuel => False
  | Err (LexErr _) => True
  end.
Proof.
  revert cs. induction fuel as [|fuel IH]; intros [|c cs] Hl; cbn [lex_from length] in *; [done|lia|done|].
  destruct (lex_step _ (c :: cs)) as [[k rest]|e] eqn:E; [|done].
  apply lex_step_progress in E. specialize (IH rest ltac:(lia)).
  destruct (lex_from fuel total rest) as [ts|e]; [|done].
  destruct k as [k|]; [|done]. unfold ends_eof in *. destruct ts; done.
Qed.
End Lexing.

(** ** The parser *)
(** A parser that answers leaves a proper rest, at least [n] tokens shorter. *)
Definition shrinks {A} (n : nat) (ts : tokens) (r : result ParseFault (A * tokens)) : Prop :=
  match r with
  | Ok (_, ts') => ends_eof ts' /\ (length ts' + n <= length ts)%nat
  | Err (ParseErr _) => True
  | Err _ => False
  end.
Lemma ends_cons t ts : ends_eof (t :: ts) -> kind t <> KEof -> ends_eof ts.
Proof. unfold ends_eof. destruct ts; [cbn; congruence|done]. Qed.
Lemma ends_nonempty ts : ends_eof ts -> exists t ts', ts = t :: ts'.
Proof. destruct ts; [done|eauto]. Qed.

(** One parser after another. *)
Lemma shrinks_bind {A A'} n m ts (r : result ParseFault (A * tokens))
    (k : A -> tokens -> result ParseFault (A' * tokens)) :
  shrinks n ts r ->
  (forall x ts', ends_eof ts' -> (length ts' + n <= length ts)%nat ->
    shrinks (m - n) ts' (k x ts')) ->
  shrinks m ts (let? '(x, ts') := r in k x ts').
Proof.
  destruct r as [[x ts']|[]]; cbn; try done. intros [He Hl] Hk. specialize (Hk x ts' He Hl).
  destruct (k x ts') as [[y ts'']|[]]; cbn in *; try done. split; [by destruct Hk|lia].
Qed.
Lemma shrinks_ret {A} ts ts' n (x : A) :
  ends_eof ts' -> (length ts' + n <= length ts)%nat -> shrinks n ts (Ok (x, ts')).
Proof. done. Qed.
Lemma shrinks_peek {A} n ts (k : TokenKind -> result ParseFault (A * tokens)) :
  ends_eof ts -> (forall t ts', ts = t :: ts' -> shrinks n ts (k (kind t))) ->
  shrinks n ts (let? token := peek ts in k token).
Proof. intros (t & ts' & ->)%ends_nonempty Hk. cbn. by eapply Hk. Qed.
Lemma shrinks_pos {A} n ts (k : Z -> result ParseFault (A * tokens)) :
  ends_eof ts -> (forall p, shrinks n ts (k p)) -> shrinks n ts (let? p := peek_pos ts in k p).
Proof. intros (t & ts' & ->)%ends_nonempty Hk. apply Hk. Qed.
Lemma shrinks_advance {A} n t ts (k : tokens -> result ParseFault (A * tokens)) :
  ends_eof (t :: ts) -> kind t <> KEof -> (ends_eof ts -> shrinks (n - 1) ts (k ts)) ->
  shrinks n (t :: ts) (let? ts' := advance (t :: ts) in k ts').
Proof.
  intros He Hk H. pose proof (ends_cons _ _ He Hk) as He'. specialize (H He').
  destruct (ends_nonempty _ He') as (t' & ts' & ->). cbn.
  destruct (k (t' :: ts')) as [[y ts'']|[]]; cbn in *; try done. split; [by destruct H|lia].
Qed.
Lemma advance_ok t ts : ends_eof (t :: ts) -> kind t <> KEof -> advance (t :: ts) = Ok ts /\ ends_eof ts.
Proof.
  intros He Hk. pose proof (ends_cons _ _ He Hk) as He'.
  destruct (ends_nonempty _ He') as (t' & ts' & ->). done.
Qed.
Lemma shrinks_at {A} n kd ts (k : bool -> result ParseFault (A * tokens)) :
  ends_eof ts ->
  (forall t ts', ts = t :: ts' -> kind t = kd -> shrinks n ts (k true)) -> shrinks n ts (k false) ->
  shrinks n ts (let? b := at_kind kd ts in k b).
Proof.
  intros (t & ts' & ->)%ends_nonempty H1 H2. cbn. case_bool_decide; [by eapply H1|done].
Qed.
Lemma expect_shrinks kd ts : kd <> KEof -> ends_eof ts -> shrinks 1 ts (expect kd ts).
Proof.
  intros Hk He. destruct (ends_nonempty _ He) as (t & ts' & ->). unfold expect. cbn [peek peek_pos].
  case_bool_decide as E; [|done]. apply shrinks_advance; [done|congruence|]. intros. by apply shrinks_ret; [|lia].
Qed.
Lemma expect_ident_shrinks ts : ends_eof ts -> shrinks 1 ts (expect_ident ts).
Proof.
  intros He. destruct (ends_nonempty _ He) as (t & ts' & ->). unfold expect_ident. cbn [peek peek_pos].
  destruct (kind t) eqn:E; try done. apply shrinks_advance; [done|congruence|]. intros. by apply shrinks_ret; [|lia].
Qed.
Lemma generator_error_shrinks {A} n ts :
  ends_eof ts -> shrinks n ts (expected_generator_expr_error (A := A * tokens) ts).
Proof. by intros (t & ts' & ->)%ends_nonempty. Qed.
Lemma shrinks_weaken {A} n m ts (r : result ParseFault (A * tokens)) :
  (m <= n)%nat -> shrinks n ts r -> shrinks m ts r.
Proof. intros Hm. destruct r as [[x ts']|[]]; cbn; try done. intros [??]. split; [done|lia]. Qed.

(** A parser shrinks every proper input of at most [bound] tokens. *)
Definition total {A} (n bound : nat) (p : parser A) : Prop :=
  forall ts, ends_eof ts -> (length ts <= bound)%nat -> shrinks n ts (p ts).

(** ** Lists *)
Lemma comma_loop_shrinks {A} bound (item : parser A) fuel ts :
  total 1 bound item -> ends_eof ts -> (length ts <= fuel)%nat -> (length ts <= S bound)%nat ->
  shrinks 0 ts (comma_loop fuel item ts).
Proof.
  intros Hi. revert ts. induction fuel as [|fuel IH]; intros ts He Hf Hb;
    [destruct (ends_nonempty _ He) as (? & ? & ->); cbn in Hf; lia|].
  cbn [comma_loop]. apply shrinks_at; [done| |by apply shrinks_ret; [|lia]].
  intros t ts' -> Hk. cbn in Hf, Hb. apply shrinks_advance; [done|congruence|]. intros He'.
  eapply (shrinks_bind 1); [apply Hi; [done|lia]|]. intros x ts'' He'' Hl''.
  eapply (shrinks_bind 0); [apply IH; [done|lia..]|]. intros xs ts3 He3 Hl3. apply shrinks_ret; [done|lia].
Qed.
Lemma comma_trailing_shrinks {A} bound close (item : parser A) fuel ts :
  total 1 bound item -> ends_eof ts -> (length ts <= fuel)%nat -> (length ts <= S bound)%nat ->
  shrinks 0 ts (comma_loop_trailing fuel close item ts).
Proof.
  intros Hi. revert ts. induction fuel as [|fuel IH]; intros ts He Hf Hb;
    [destruct (ends_nonempty _ He) as (? & ? & ->); cbn in Hf; lia|].
  cbn [comma_loop_trailing]. apply shrinks_at; [done| |by apply shrinks_ret; [|lia]].
  intros t ts' -> Hk. cbn in Hf, Hb. apply shrinks_advance; [done|congruence|]. intros He'.
  apply shrinks_at; [done|intros; by apply shrinks_ret; [|lia]|].
  eapply (shrinks_bind 1); [apply Hi; [done|lia]|]. intros x ts'' He'' Hl''.
  eapply (shrinks_bind 0); [apply IH; [done|lia..]|]. intros xs ts3 He3 Hl3. apply shrinks_ret; [done|lia].
Qed.
Lemma items_trailing_total {A} bound close (item : parser A) :
  close <> KEof -> total 1 bound item -> total 1 bound (items_trailing close item).
Proof.
  intros Hc Hi ts He Hl. unfold items_trailing.
  apply shrinks_at; [done|..].
  - intros t ts' -> Hk. cbn [fst snd]. eapply (shrinks_bind 1); [by apply expect_shrinks|].
    intros. by apply shrinks_ret; [|lia].
  - eapply (shrinks_bind 0).
    + eapply (shrinks_bind 1); [by apply Hi|]. intros x ts' He' Hl'.
      eapply (shrinks_bind 0); [apply (comma_trailing_shrinks bound); [done|done|done|lia]|].
      intros. by apply shrinks_ret; [|lia].
    + intros xs ts' He' Hl'. eapply (shrinks_bind 1); [by apply expect_shrinks|].
      intros. by apply shrinks_ret; [|lia].
Qed.
Lemma items_plain_total {A} bound close (item : parser A) :
  close <> KEof -> total 1 bound item -> total 1 bound (items_plain close item).
Proof.
  intros Hc Hi ts He Hl. unfold items_plain.
  apply shrinks_at; [done|..].
  - intros t ts' -> Hk. cbn [fst snd]. eapply (shrinks_bind 1); [by apply expect_shrinks|].
    intros. by apply shrinks_ret; [|lia].
  - eapply (shrinks_bind 0).
    + eapply (shrinks_bind 1); [by apply Hi|]. intros x ts' He' Hl'.
      eapply (shrinks_bind 0); [apply (comma_loop_shrinks bound); [done|done|done|lia]|].
      intros. by apply shrinks_ret; [|lia].
    + intros xs ts' He' Hl'. eapply (shrinks_bind 1); [by apply expect_shrinks|].
      intros. by apply shrinks_ret; [|lia].
Qed.

(** Run a parser to its end. *)
Ltac step :=
  lazymatch goal with
  | |- shrinks _ _ (Err (ParseErr _)) => exact I
  | |- shrinks _ _ (Ok _) => apply shrinks_ret; [done|cbn [length] in *; lia]
  | |- shrinks _ _ (expected_generator_expr_error _) => by apply generator_error_shrinks
  | |- shrinks _ _ (match expect _ _ with _ => _ end) =>
      eapply (shrinks_bind 1); [by apply expect_shrinks|]; intros
  | |- shrinks _ _ (match expect_ident _ with _ => _ end) =>
      eapply (shrinks_bind 1); [by apply expect_ident_shrinks|]; intros
  | |- shrinks _ _ (match advance (_ :: _) with _ => _ end) =>
      apply shrinks_advance; [done|congruence|]; intros
  | |- shrinks _ _ (match at_kind _ _ with _ => _ end) =>
      apply shrinks_at; [done|intros ? ? -> ?|]
  | |- shrinks _ _ (match peek_pos _ with _ => _ end) =>
      apply shrinks_pos; [done|]; intros
  | |- shrinks _ _ (match peek ?ts with _ => _ end) =>
      apply shrinks_peek; [done|intros ? ? ->]
  end.

Lemma total_le {A} n b b' (p : parser A) : (b' <= b)%nat -> total n b p -> total n b' p.
Proof. intros Hb Hp ts He Hl. apply Hp; [done|lia]. Qed.

Section Descend.
Context (rec : Descent) (bound : nat).
Context (Hexpr : total 1 bound (parse_expr rec)) (Hsetish : total 1 bound (parse_setish_rec rec)).

Ltac sub H := eapply (shrinks_bind 1); [apply H; [done|cbn [length] in *; lia]|]; intros.

Lemma map_entry_total : total 1 (S bound) (parse_map_entry rec).
Proof.
  intros ts He Hl. unfold parse_map_entry. step. destruct (kind t) eqn:E; try exact I.
  step. step. sub Hexpr. step.
Qed.
Lemma bagkv_entry_total : total 1 (S bound) (parse_bagkv_entry rec).
Proof.
  intros ts He Hl. unfold parse_bagkv_entry. step. eapply (shrinks_bind 1).
  { destruct (kind t) eqn:E; try exact I; step; step. }
  intros. step. sub Hexpr. step.
Qed.
Lemma prod_field_total : total 1 (S bound) (parse_prod_field rec).
Proof. intros ts He Hl. unfold parse_prod_field. step. step. sub Hexpr. step. Qed.
Lemma generator_total : total 1 bound (parse_generator_expr rec).
Proof.
  intros ts He Hl. unfold parse_generator_expr. sub Hexpr. destruct (decompose_generator_expr _); step.
Qed.
Lemma pred_total : total 1 (S bound) (parse_pred rec).
Proof.
  intros ts He Hl. unfold parse_pred. step.
  - eapply (shrinks_bind 0).
    + step. sub Hexpr. step.
    + intros. step. step.
  - cbn [fst snd]. step. step.
Qed.
Lemma comprehension_total : total 1 bound (parse_comprehension rec).
Proof.
  intros ts He Hl. unfold parse_comprehension. step.
  - step. sub Hexpr. step.
    eapply (shrinks_bind 1); [apply generator_total; [done|cbn [length] in *; lia]|]. intros [??] ???.
    eapply (shrinks_bind 1); [apply pred_total; [done|cbn [length] in *; lia]|]. intros. step.
  - sub Hexpr. destruct (decompose_generator_expr x) as [[??]|].
    + eapply (shrinks_bind 1); [apply pred_total; [done|lia]|]. intros. step.
    + assert (shrinks (1 - 1) ts'
        (let? '(_, ts) := expect KBar ts' in
         let? '((binding, collection), ts) := parse_generator_expr rec ts in
         let? '(pred, ts) := parse_pred rec ts in
         Ok (EComprehension (Some x) binding collection pred, ts))) as Hg.
      { step. eapply (shrinks_bind 1); [apply generator_total; [done|lia]|]. intros [??] ???.
        eapply (shrinks_bind 1); [apply pred_total; [done|lia]|]. intros. step. }
      destruct x; try exact Hg. destruct op; try exact Hg. step.
Qed.
Lemma parenthesised_total : total 1 (S bound) (parse_parenthesised rec).
Proof. intros ts He Hl. unfold parse_parenthesised. step. sub Hexpr. step. step. Qed.
Lemma bytes_total p : total 1 (S bound) (parse_bytes p).
Proof.
  intros ts He Hl. unfold parse_bytes. step. step. eapply (shrinks_bind 1).
  { destruct (kind t) eqn:E; first [step; exact I|step; step]. }
  intros. step. destruct (parse_bytes_literal x0); step.
Qed.
Lemma primary_total : total 1 (S bound) (parse_primary rec).
Proof.
  intros ts He Hl. unfold parse_primary. step. step.
  destruct (kind t) eqn:E; try exact I; cbn [length] in Hl;
    try (apply shrinks_advance; [done|congruence|]; intros He').
  all: try step.
  - apply (shrinks_weaken 1); [lia|]. apply bytes_total; [done|lia].
  - sub (items_trailing_total bound KRBrack (parse_expr rec) ltac:(done) Hexpr). step.
  - sub (items_trailing_total bound KRBrace (parse_expr rec) ltac:(done) Hexpr). step.
  - sub (items_trailing_total bound KRBrace (parse_expr rec) ltac:(done) Hexpr). step.
  - sub (items_trailing_total bound KRBrace _ ltac:(done) (total_le _ _ _ _ (Nat.le_succ_diag_r bound) map_entry_total)).
    step.
  - sub (items_trailing_total bound KRBrace _ ltac:(done) (total_le _ _ _ _ (Nat.le_succ_diag_r bound) prod_field_total)).
    step.
  - sub (items_trailing_total bound KRBrace _ ltac:(done) (total_le _ _ _ _ (Nat.le_succ_diag_r bound) bagkv_entry_total)).
    step.
  - sub parenthesised_total. step.
  - sub parenthesised_total. step.
  - sub Hexpr. step. sub Hexpr. step. step.
  - sub Hexpr. step. step.
  - destruct (detect_static_selector_error ts'); [exact I|].
    apply (shrinks_weaken 1); [lia|]. apply comprehension_total; [done|lia].
  - case_bool_decide as Hn; [|step; step]. destruct ts' as [|t2 ts2]; [done|]. step.
    apply shrinks_advance; [done|cbn in Hn; congruence|]. intros He2. cbn [length] in Hl. sub Hexpr. step.
  - case_bool_decide; [exact I|]. step. step.
Qed.
Lemma sugar_total e : total 0 (S bound) (parse_sugar rec e).
Proof.
  intros ts He Hl. unfold parse_sugar.
  destruct e; try (by apply shrinks_ret; [|lia]). step.
  destruct (bool_decide (name = chars "one") && _ && _) eqn:E1.
  { apply andb_true_iff in E1 as [[_ E1]%andb_true_iff E2]. apply bool_decide_eq_true in E2.
    destruct ts' as [|t2 ts2]; [done|]. cbn in E2. cbn [length] in Hl.
    apply shrinks_advance; [done|destruct (kind t); congruence|]. intros. step.
    sub (items_plain_total bound KRParen (parse_expr rec) ltac:(done) Hexpr). step. }
  destruct (bool_decide (name = chars "enrich") && _) eqn:E2.
  { apply andb_true_iff in E2 as [_ E2]. apply bool_decide_eq_true in E2. cbn [length] in Hl. step.
    sub (items_trailing_total bound KRBrace _ ltac:(done) (total_le _ _ _ _ (Nat.le_succ_diag_r bound) prod_field_total)).
    step. }
  destruct (bool_decide (name = chars "refine") && _) eqn:E3; [|step].
  apply andb_true_iff in E3 as [_ E3]. apply bool_decide_eq_true in E3. cbn [length] in Hl. step.
  apply (shrinks_weaken 1); [lia|]. apply comprehension_total; [done|lia].
Qed.
Lemma selector_total e close : close <> KEof -> total 1 (S bound) (parse_selector e close).
Proof.
  intros Hc ts He Hl. unfold parse_selector. step. eapply (shrinks_bind 1).
  { destruct (kind t) eqn:E; first [step; exact I|step; step]. }
  intros. step. step. destruct (kind t0) eqn:E; try step; step.
Qed.
Lemma postfix_step_total e ts :
  ends_eof ts -> (length ts <= S bound)%nat ->
  match postfix_step rec e ts with
  | Ok None => True
  | Ok (Some (_, ts')) => ends_eof ts' /\ (length ts' + 1 <= length ts)%nat
  | Err (ParseErr _) => True
  | Err _ => False
  end.
Proof.
  intros He Hl.
  destruct (ends_nonempty _ He) as (t & ts' & ->). unfold postfix_step. cbn [peek]. cbn [length] in Hl.
  destruct (kind t) eqn:E; try exact I;
    destruct (advance_ok t ts' He ltac:(congruence)) as [-> He'].
  - destruct (is_selector_access _); [|exact I].
    pose proof (selector_total e KGt ltac:(done) ts' He' ltac:(lia)) as H.
    destruct (parse_selector e KGt ts') as [[??]|[]]; try done. cbn in *. split; [apply H|]. lia.
  - pose proof (items_plain_total bound KRParen (parse_expr rec) ltac:(done) Hexpr ts' He' ltac:(lia)) as H.
    destruct (items_plain _ _ _) as [[??]|[]]; try done. cbn in *. split; [apply H|]. lia.
  - assert (shrinks 1 ts' (let? '(k_r, ts) := parse_setish_rec rec ts' in
      let? '(_, ts) := expect KEq ts in
      let? '(k_l, ts) := parse_setish_rec rec ts in
      let? '(_, ts) := expect KRBrack ts in Ok ((k_r, k_l), ts))) as H.
    { sub Hsetish. step. sub Hsetish. step. step. }
    repeat (let Ex := fresh "Ex" in
            match type of H with context [match ?x with _ => _ end] => destruct x as [[??]|[]] eqn:Ex end;
            try done).
    cbn in *. split; [apply H|]. lia.
  - pose proof (selector_total e KSelR ltac:(done) ts' He' ltac:(lia)) as H.
    destruct (parse_selector e KSelR ts') as [[??]|[]]; try done. cbn in *. split; [apply H|]. lia.
Qed.
Lemma postfix_loop_total fuel e ts :
  ends_eof ts -> (length ts <= fuel)%nat -> (length ts <= S bound)%nat ->
  shrinks 0 ts (postfix_loop rec fuel e ts).
Proof.
  revert e ts. induction fuel as [|fuel IH]; intros e ts He Hf Hl;
    [destruct (ends_nonempty _ He) as (? & ? & ->); cbn in Hf; lia|].
  cbn [postfix_loop]. pose proof (postfix_step_total e ts He Hl) as H.
  destruct (postfix_step rec e ts) as [[[e' ts']|]|[]]; try done; [|step].
  destruct H as [He' Hl']. specialize (IH e' ts' He' ltac:(lia) ltac:(lia)).
  destruct (postfix_loop rec fuel e' ts') as [[??]|[]]; cbn in *; try done. split; [by apply IH|lia].
Qed.
Lemma postfix_total : total 1 (S bound) (parse_postfix rec).
Proof.
  intros ts He Hl. unfold parse_postfix. sub primary_total.
  eapply (shrinks_bind 0); [apply sugar_total; [done|lia]|]. intros.
  apply postfix_loop_total; [done|lia|lia].
Qed.
Lemma unary_total : total 1 (S bound) (parse_unary rec).
Proof.
  intros ts He Hl. unfold parse_unary.
  assert (forall fuel ts, ends_eof ts -> (length ts <= fuel)%nat -> (length ts <= S bound)%nat ->
    shrinks 1 ts (parse_unary_n rec fuel ts)) as H; [|by apply H].
  clear ts He Hl. induction fuel as [|fuel IH]; intros ts He Hf Hl;
    [destruct (ends_nonempty _ He) as (? & ? & ->); cbn in Hf; lia|].
  cbn [parse_unary_n]. step; [|by apply postfix_total]. cbn [length] in *. step.
  eapply (shrinks_bind 1); [apply IH; [done|lia|lia]|]. intros. step.
Qed.

(** A level of left-associative operators. *)
Lemma left_loop_total op next fuel lhs ts :
  op KEof = None -> total 1 (S bound) next ->
  ends_eof ts -> (length ts <= fuel)%nat -> (length ts <= S bound)%nat ->
  shrinks 0 ts (left_loop fuel op next lhs ts).
Proof.
  intros Ho Hn. revert lhs ts. induction fuel as [|fuel IH]; intros lhs ts He Hf Hl;
    [destruct (ends_nonempty _ He) as (? & ? & ->); cbn in Hf; lia|].
  cbn [left_loop]. step. cbn [length] in *. destruct (op (kind t)) as [build|] eqn:E; [|step].
  step. eapply (shrinks_bind 1); [apply Hn; [done|lia]|]. intros. apply IH; [done|lia|lia].
Qed.
Lemma left_level_total op next :
  op KEof = None -> total 1 (S bound) next -> total 1 (S bound) (left_level op next).
Proof.
  intros Ho Hn ts He Hl. unfold left_level. sub Hn. by apply left_loop_total; [..|lia].
Qed.
Lemma setish_total : total 1 (S bound) (parse_setish rec).
Proof. by apply left_level_total; [|apply left_level_total; [|apply left_level_total; [|apply unary_total]]]. Qed.
Lemma cmp_total : total 1 (S bound) (parse_cmp rec).
Proof.
  intros ts He Hl. unfold parse_cmp. sub setish_total. step.
  destruct (cmp_op (kind t)) eqn:E; [|step]. cbn [length] in *.
  apply shrinks_advance; [done|intros Ek; by rewrite Ek in E|]. intros. sub setish_total. step.
Qed.
Lemma not_total : total 1 (S bound) (parse_not rec).
Proof.
  intros ts He Hl. unfold parse_not.
  assert (forall fuel ts, ends_eof ts -> (length ts <= fuel)%nat -> (length ts <= S bound)%nat ->
    shrinks 1 ts (parse_not_n rec fuel ts)) as H; [|by apply H].
  clear ts He Hl. induction fuel as [|fuel IH]; intros ts He Hf Hl;
    [destruct (ends_nonempty _ He) as (? & ? & ->); cbn in Hf; lia|].
  cbn [parse_not_n]. step; [|by apply cmp_total]. cbn [length] in *. step.
  eapply (shrinks_bind 1); [apply IH; [done|lia|lia]|]. intros. step.
Qed.
Lemma pipe_total : total 1 (S bound) (parse_pipe rec).
Proof. by apply left_level_total; [|apply left_level_total; [|apply left_level_total; [|apply not_total]]]. Qed.
End Descend.

Lemma descend_total fuel :
  total 1 fuel (parse_expr (descend fuel)) /\ total 1 fuel (parse_setish_rec (descend fuel)).
Proof.
  induction fuel as [|fuel [IH1 IH2]].
  - split; intros ts He Hl; destruct (ends_nonempty _ He) as (? & ? & ->); cbn in Hl; lia.
  - split; [by apply pipe_total|by apply setish_total].
Qed.
Lemma expr_top_shrinks ts : ends_eof ts -> shrinks 1 ts (parse_expr_top ts).
Proof. intros He. by apply descend_total. Qed.

(** ** Programs *)
Lemma stmt_shrinks ts : ends_eof ts -> shrinks 1 ts (parse_stmt ts).
Proof.
  intros He. unfold parse_stmt. step. case_bool_decide as E1.
  { step. step; [exact I|]. step. step.
    eapply (shrinks_bind 1); [by apply expr_top_shrinks|]. intros. step. step. }
  case_bool_decide as E2.
  { unfold parse_source_decl. step. step. step. step. step.
    destruct (if bool_decide _ then _ else _) as [k|e] eqn:E; [|by repeat (case_bool_decide; try done); simplify_eq].
    step.
    - eapply (shrinks_bind 0).
      + step. eapply (shrinks_weaken 1); [lia|].
        apply (items_trailing_total (length ts'3)); [done| |done|done].
        intros ts2 He2 Hl2. by apply expect_ident_shrinks.
      + intros. step. step.
    - cbn [fst snd]. step. step. }
  eapply (shrinks_bind 1); [by apply expr_top_shrinks|]. intros. step. step.
Qed.
Lemma program_total fuel ts :
  ends_eof ts -> (length ts <= fuel)%nat ->
  match parse_program_n fuel ts with
  | Ok _ | Err (ParseErr _) => True
  | Err _ => False
  end.
Proof.
  revert ts. induction fuel as [|fuel IH]; intros ts He Hf;
    [destruct (ends_nonempty _ He) as (? & ? & ->); cbn in Hf; lia|].
  destruct (ends_nonempty _ He) as (t & ts' & ->). cbn [parse_program_n at_kind peek].
  case_bool_decide; [done|]. pose proof (stmt_shrinks _ He) as Hs.
  destruct (parse_stmt (t :: ts')) as [[s ts2]|[]]; cbn in Hs; try done. destruct Hs as [He2 Hl2].
  specialize (IH ts2 He2 ltac:(cbn in *; lia)). by destruct (parse_program_n fuel ts2) as [|[]].
Qed.

Section Source.
Context {C : CharClass} {CL : CharLaws C} {B : BigNum}.

(** C30. Every text is parsed to a program or refused with an error that the lexer
    or the parser states: no loop and no descent outlasts the text, and the parser
    never reads past its tokens. *)
Theorem parse_source_total (src : text) :
  match parse_source src with
  | Ok _ => True
  | Err (SdaLex (LexErr _)) => True
  | Err (SdaParse (ParseErr _)) => True
  | Err _ => False
  end.
Proof.
  unfold parse_source, lex. set (s := if bool_decide _ then _ else _).
  pose proof (lex_from_ends (length s) (Z.of_nat (length s)) s (Nat.le_refl _)) as H.
  destruct (lex_from _ _ _) as [ts|[]]; try done. unfold parse.
  pose proof (program_total (length ts) ts H (Nat.le_refl _)) as Hp.
  by destruct (parse_program_n (length ts) ts) as [|[]].
Qed.
End Source.

Lemma parse_source_total_witness :
  CharLaws sample_chars /\
  match parse_source (B := sample_bignum) (chars "{ x.a | x in rows | x.a > 1 }") with
  | Ok _ => True
  | Err (SdaLex (LexErr _)) => True
  | Err (SdaParse (ParseErr _)) => True
  | Err _ => False
  end.
Proof. split; [apply sample_char_laws|]. apply (parse_source_total (C := sample_chars)). Defined.
