(* ===== verification/SdaJson.v ===== *)
(** * The JSON bridge of the data algebra: [sda-core/src/lib.rs], [number.rs]

    [serde_json] is not part of the repository.  Its numbers and the text of its
    scalars are the class [SerdeJson]; an object is the list of its entries in key
    order, as its [BTreeMap] keeps them.  [from_json] recurses into values it has
    looked up, so it takes a bound on the nesting; [JsonPanic] is an [expect] that
    fails. *)
From S2P Require Import Prelude SdaNumber SdaLexer SdaParser SdaFormat SdaValue SdaEval.

Inductive Json (N : Type) : Type :=
| JNull | JBool (b : bool) | JNumber (n : N) | JString (s : text)
| JArray (items : list (Json N)) | JObject (entries : list (text * Json N)).
Arguments JNull {N}.
Arguments JBool {N} b.
Arguments JNumber {N} n.
Arguments JString {N} s.
Arguments JArray {N} items.
Arguments JObject {N} entries.

Class SerdeJson : Type := {
  number : Type;
  (** [Number::from_str(s).ok()] and [n.to_string()] *)
  number_from_str : text -> option number;
  number_to_string : number -> text;
  (** [serde_json::to_string] of a scalar *)
  scalar_to_string : Json number -> text }.
Abbreviation json := (Json number).

(** [map.insert(k, v)] *)
Fixpoint object_insert {A} (key : text) (v : A) (entries : list (text * A)) : list (text * A) :=
  match entries with
  | [] => [(key, v)]
  | (k, x) :: rest =>
      match text_cmp key k with
      | Lt => (key, v) :: entries
      | Eq => (key, v) :: rest
      | Gt => (k, x) :: object_insert key v rest
      end
  end.
(** [entries.into_iter().collect::<Map<_, _>>()] *)
Definition object_collect {A} (entries : list (text * A)) : list (text * A) :=
  fold_left (fun m '(k, v) => object_insert k v m) entries [].

Definition reserved_tags : list text :=
  map chars ["map"; "num"; "bytes"; "set"; "bag"; "prod"; "bagkv"; "bind"; "some"; "none"; "ok";
             "fail"; "fn"].
Definition reserved_json_tag (tag : text) : bool := existsb (fun t => bool_decide (t = tag)) reserved_tags.

Inductive JsonFault : Type := JsonPanic | JsonFuel.

Section Bridge.
Context {C : CharClass} {B : BigNum} {S : SerdeJson}.

(** [json!({"$type": tag, k1: v1, ..})] *)
Definition tagged (tag : string) (entries : list (string * json)) : json :=
  JObject (object_collect
    ((chars "$type", JString (chars tag)) :: map (fun '(k, v) => (chars k, v)) entries)).

Definition to_json_value (x : Ratio) : json :=
  let wrapped := tagged "num" [("$value", JString (ExactNum.canonical_string x))]%string in
  match ExactNum.finite_decimal_string x with
  | Some decimal =>
      match number_from_str decimal with Some n => JNumber n | None => wrapped end
  | None => wrapped
  end.

Definition should_wrap_map (entries : list (text * json)) : bool :=
  match assoc (chars "$type") entries with
  | Some (JString tag) => reserved_json_tag tag
  | _ => false
  end.

Fixpoint canonical_json_text (value : json) : text :=
  match value with
  | JNull | JBool _ | JNumber _ | JString _ => scalar_to_string value
  | JArray items => [91] ++ join [44] (map canonical_json_text items) ++ [93]
  | JObject entries =>
      let rendered := map (fun '(k, v) => (k, canonical_json_text v)) entries in
      [123] ++
      join [44] (map (fun '(k, t) => scalar_to_string (JString k) ++ [58] ++ t)
                   (sort_by (fun a b => text_cmp (fst a) (fst b)) rendered)) ++ [125]
  end.
(** [rendered.sort_by_key(canonical_json_text)] *)
Definition sort_rendered (rendered : list json) : list json :=
  sort_by (fun a b => text_cmp (canonical_json_text a) (canonical_json_text b)) rendered.

(** [canonicalize_set_items] removes duplicates by their values, then converts;
    here each value is converted beside itself. *)
Definition push_unique_with (items : list (Value * json)) (x : Value * json)
  : list (Value * json) :=
  if contains (map fst items) (fst x) then items else items ++ [x].

Fixpoint to_json (v : Value) : json :=
  match v with
  | VNull => JNull
  | VBool b => JBool b
  | VNum n => to_json_value n
  | VStr s => JString s
  | VBytes bytes => tagged "bytes" [("$base16", JString (encode_base16 bytes))]%string
  | VSeq items => JArray (map to_json items)
  | VSet items =>
      let unique := fold_left push_unique_with (map (fun x => (x, to_json x)) items) [] in
      tagged "set" [("$items", JArray (sort_rendered (map snd unique)))]%string
  | VBag items => tagged "bag" [("$items", JArray (sort_rendered (map to_json items)))]%string
  | VMap entries =>
      let mapped :=
        sort_by (fun a b => text_cmp (fst a) (fst b)) (map (fun '(k, v) => (k, to_json v)) entries) in
      if should_wrap_map mapped then
        tagged "map" [("$entries", JObject (object_collect mapped))]%string
      else JObject (object_collect mapped)
  | VProd fields =>
      tagged "prod"
        [("$fields", JObject (object_collect (map (fun '(k, v) => (k, to_json v)) fields)))]%string
  | VBagKV pairs =>
      tagged "bagkv"
        [("$items",
          JArray (sort_rendered (map (fun '(k, v) => JArray [to_json k; to_json v]) pairs)))]%string
  | VBind k v => tagged "bind" [("$key", to_json k); ("$val", to_json v)]%string
  | VSome inner => tagged "some" [("$value", to_json inner)]%string
  | VNone => tagged "none" []
  | VOk inner => tagged "ok" [("$value", to_json inner)]%string
  | VFail code msg => tagged "fail" [("$code", JString code); ("$msg", JString msg)]%string
  | VLambda _ _ _ => tagged "fn" []
  end.

(** The body of [parse_bytes_literal], written again in [lib.rs]. *)
Definition decode_base16 (src : text) : result string (list byte) :=
  if negb (str_len src mod 2 =? 0) then Err "expected even-length base16 string"%string
  else hex_pairs src.

(** [value.as_str().unwrap_or("")] of an optional member *)
Definition member_text (m : option json) : text :=
  match m with Some (JString s) => s | _ => [] end.

Fixpoint map_result {E A A'} (f : A -> result E A') (l : list A) : result E (list A') :=
  match l with
  | [] => Ok []
  | x :: rest => let? y := f x in let? ys := map_result f rest in Ok (y :: ys)
  end.

Section Object.
Context (conv : json -> result JsonFault Value).

Definition conv_entry (e : text * json) : result JsonFault (text * Value) :=
  let? v := conv (snd e) in Ok (fst e, v).
Definition is_pair (item : json) : option (json * json) :=
  match item with JArray [a; b] => Some (a, b) | _ => None end.
Definition conv_pair (p : json * json) : result JsonFault (Value * Value) :=
  let? a := conv (fst p) in let? b := conv (snd p) in Ok (a, b).

(** The arms of the match on the tag: [None] falls through to a plain map. *)
Definition from_tagged (ty : text) (obj : list (text * json))
  : result JsonFault (option Value) :=
  let tag (s : string) := bool_decide (ty = chars s) in
  let get (s : string) := assoc (chars s) obj in
  if tag "bytes" then
    match get "$base16"%string with
    | Some (JString base16) =>
        match decode_base16 base16 with
        | Ok bytes => Ok (Some (VBytes bytes))
        | Err _ => Err JsonPanic
        end
    | _ => Ok None
    end
  else if tag "map" then
    match get "$entries"%string with
    | Some (JObject entries) =>
        let? vs := map_result conv_entry entries in Ok (Some (VMap vs))
    | _ => Ok None
    end
  else if tag "num" then
    match get "$value"%string with
    | Some (JString value) =>
        match ExactNum.parse_canonical value with
        | Ok n => Ok (Some (VNum n))
        | Err _ => Err JsonPanic
        end
    | _ => Ok None
    end
  else if tag "set" then
    match get "$items"%string with
    | Some (JArray items) => let? vs := map_result conv items in Ok (Some (VSet vs))
    | _ => Ok None
    end
  else if tag "bag" then
    match get "$items"%string with
    | Some (JArray items) => let? vs := map_result conv items in Ok (Some (VBag vs))
    | _ => Ok None
    end
  else if tag "prod" then
    match get "$fields"%string with
    | Some (JObject fields) => let? vs := map_result conv_entry fields in Ok (Some (VProd vs))
    | _ => Ok None
    end
  else if tag "bagkv" then
    match get "$items"%string with
    | Some (JArray items) =>
        let? pairs := map_result conv_pair (omap is_pair items) in Ok (Some (VBagKV pairs))
    | _ => Ok None
    end
  else if tag "bind" then
    match get "$key"%string, get "$val"%string with
    | Some k, Some v => let? k := conv k in let? v := conv v in Ok (Some (VBind k v))
    | _, _ => Ok None
    end
  else if tag "some" then
    match get "$value"%string with
    | Some inner => let? v := conv inner in Ok (Some (VSome v))
    | None => Ok None
    end
  else if tag "none" then Ok (Some VNone)
  else if tag "ok" then
    match get "$value"%string with
    | Some inner => let? v := conv inner in Ok (Some (VOk v))
    | None => Ok None
    end
  else if tag "fail" then
    Ok (Some (VFail (member_text (get "$code"%string)) (member_text (get "$msg"%string))))
  else Ok None.

Definition from_object (obj : list (text * json)) : result JsonFault Value :=
  let? special :=
    match assoc (chars "$type") obj with
    | Some (JString ty) => from_tagged ty obj
    | _ => Ok None
    end in
  match special with
  | Some v => Ok v
  | None => let? vs := map_result conv_entry obj in Ok (VMap vs)
  end.
End Object.

Fixpoint from_json (fuel : nat) (v : json) : result JsonFault Value :=
  match fuel with
  | O => Err JsonFuel
  | Datatypes.S fuel =>
      match v with
      | JNull => Ok VNull
      | JBool b => Ok (VBool b)
      | JNumber n =>
          match ExactNum.parse_literal (number_to_string n) with
          | Ok x => Ok (VNum x)
          | Err _ => Err JsonPanic
          end
      | JString s => Ok (VStr s)
      | JArray arr => let? vs := map_result (from_json fuel) arr in Ok (VSeq vs)
      | JObject obj => from_object (from_json fuel) obj
      end
  end.

(** [Program::run_json] and [run_with_input_binding]. *)
Inductive RunFault : Type :=
| RunSource (e : SdaError) | RunJson (e : JsonFault) | RunEval (e : EvalFault).
Definition run_json {D : DebugText} (depth fuel : nat) (p : Program) (binding_name : text)
    (input : json) : result RunFault json :=
  match from_json depth input with
  | Err e => Err (RunJson e)
  | Ok v =>
      match eval_bindings fuel p [(binding_name, v)] with
      | Ok result => Ok (to_json result)
      | Err e => Err (RunEval e)
      end
  end.
Definition run_with_input_binding {D : DebugText} (depth fuel : nat) (expr binding_name : text)
    (input : json) : result RunFault json :=
  match parse_source expr with
  | Ok p => run_json depth fuel p binding_name input
  | Err e => Err (RunSource e)
  end.
End Bridge.
