(* ===== verification/SdaPrint.v ===== *)
(** * Formatted programs, token by token

    [toks] is the sequence of tokens in the text of the formatter; [printable] says
    of which expressions the formatter keeps the structure.  Each restriction of
    [printable] excludes a text that is read back as something else, or not at
    all. *)
From S2P Require Import Prelude SdaNumber SdaLexer SdaParser SdaFormat.

(** ** Tokens of a formatted expression *)
Definition op_token (op : BinOpKind) : TokenKind :=
  match op with
  | Add => KPlus | Sub => KMinus | Mul => KStar | Div => KSlash | Concat => KConcat
  | EqOp => KEq | Neq => KNeq | LtOp => KLt | Le => KLe | GtOp => KGt | Ge => KGe
  | And => KAnd | Or => KOr | Union => KUnion | Inter => KInter | Diff => KDiff
  | BUnion => KBUnion | BDiff => KBDiff | In_ => KIn
  end.

Fixpoint tjoin (items : list (list TokenKind)) : list TokenKind :=
  match items with
  | [] => []
  | [s] => s
  | s :: rest => s ++ KComma :: tjoin rest
  end.
Definition wrap_tokens (rendered : list TokenKind) (prec min_prec : Z) : list TokenKind :=
  if prec <? min_prec then KLParen :: rendered ++ [KRParen] else rendered.
Definition mode_tokens (mode : SelectMode) : list TokenKind :=
  match mode with Plain => [] | Optional => [KQMark] | Required => [KBang] end.

Section Tokens.
Context {C : CharClass} {B : BigNum}.

Definition key_token (key : text) : TokenKind := if is_identifier key then KIdent key else KStr key.
(** The name of a call: [one?] and [one!] are two tokens. *)
Definition ident_tokens (name : text) : list TokenKind :=
  if bool_decide (name = chars "one?") then [KIdent (chars "one"); KQMark]
  else if bool_decide (name = chars "one!") then [KIdent (chars "one"); KBang]
  else [KIdent name].

Fixpoint toks (expr : Expr) (min_prec : Z) : list TokenKind :=
  let fields (l : list (text * Expr)) :=
    tjoin (map (fun '(name, value) => KIdent name :: KColon :: toks value 0) l) in
  let items (l : list Expr) := tjoin (map (fun item => toks item 0) l) in
  match expr with
  | ENull => [KNull]
  | EBool true => [KTrue]
  | EBool false => [KFalse]
  | ENum value => [KNum value]
  | EStr value => [KStr value]
  | EBytes bytes => [KBytes; KLParen; KStr (encode_base16 bytes); KRParen]
  | EIdent name => ident_tokens name
  | EPlaceholder => [KPlaceholder]
  | ESeq l => KSeq :: KLBrack :: items l ++ [KRBrack]
  | ESet l => KSet :: KLBrace :: items l ++ [KRBrace]
  | EBag l => KBag :: KLBrace :: items l ++ [KRBrace]
  | EMap l =>
      KMap :: KLBrace ::
      tjoin (map (fun '(key, value) => KStr key :: KArrow :: toks value 0) l) ++ [KRBrace]
  | EProd l => KProd :: KLBrace :: fields l ++ [KRBrace]
  | EBagKV l =>
      KBagKV :: KLBrace ::
      tjoin (map (fun '(key, value) => key_token key :: KArrow :: toks value 0) l) ++ [KRBrace]
  | ESome value => KSome :: KLParen :: toks value 0 ++ [KRParen]
  | ENone => [KNone]
  | EOk value => KOk :: KLParen :: toks value 0 ++ [KRParen]
  | EFail code msg => KFail :: KLParen :: toks code 0 ++ KComma :: toks msg 0 ++ [KRParen]
  | EBinOp op lhs rhs =>
      let prec := precedence expr in
      let right_prec := if is_right_sensitive_binary op then prec + 1 else prec in
      wrap_tokens (toks lhs prec ++ op_token op :: toks rhs right_prec) prec min_prec
  | EUnOp op inner =>
      let prec := precedence expr in
      wrap_tokens ((match op with Neg => KMinus | Not => KNot end) :: toks inner prec) prec min_prec
  | EPipe lhs rhs =>
      let prec := precedence expr in
      wrap_tokens (toks lhs prec ++ KPipe :: toks rhs (prec + 1)) prec min_prec
  | ELambda param body =>
      let prec := precedence expr in
      wrap_tokens (KIdent param :: KFatArrow :: toks body prec) prec min_prec
  | ECall callee args =>
      let prec := precedence expr in
      wrap_tokens (toks callee prec ++ KLParen :: items args ++ [KRParen]) prec min_prec
  | EEnrich l => KIdent (chars "enrich") :: KLBrace :: fields l ++ [KRBrace]
  | ESelect target selector mode =>
      let prec := precedence expr in
      wrap_tokens (toks target prec ++ KLt :: KStr selector :: KGt :: mode_tokens mode) prec min_prec
  | EComprehension yield_expr binding collection pred =>
      KLBrace ::
      match yield_expr with Some y => KYield :: toks y 0 ++ [KBar] | None => [] end ++
      KIdent binding :: KIn :: toks collection 0 ++
      match pred with Some p => KBar :: toks p 0 | None => [] end ++ [KRBrace]
  end.

Definition stmt_tokens (s : Stmt) : list TokenKind :=
  match s with
  | SLet name e => KLet :: KIdent name :: KEq :: toks e 0 ++ [KSemi]
  | SExpr e => toks e 0 ++ [KSemi]
  | SSource name k params =>
      KIdent (chars "source") :: KIdent name :: KColon :: KIdent (source_kind_name k) ::
      (if bool_decide (params = []) then []
       else KLBrack :: tjoin (map (fun p => [KIdent p]) params) ++ [KRBrack]) ++ [KSemi]
  end.

(** ** What the formatter preserves *)
(** A name the lexer reads as an identifier: not a keyword, not [_]. *)
Definition ident_ok (name : text) : Prop :=
  is_identifier name = true /\ name <> [95] /\ ident_kind name = KIdent name.
(** A literal the lexer can read: not negative, with a power of ten below. *)
Definition num_ok (n : Ratio) : Prop :=
  ratio_ok n /\ 0 <= numer n /\ exists k, 0 <= k < 2 ^ 32 /\ denom n = 10 ^ k.

(** The function of the grammar that reads an expression, from [parse_pipe] (1)
    to [parse_primary] (11); a function extends as far as it can and is read only
    where an expression ends with its context (0). *)
Definition op_level (op : BinOpKind) : nat :=
  match op with
  | Or => 2
  | And => 3
  | EqOp | Neq | LtOp | Le | GtOp | Ge => 5
  | Union | Inter | Diff | BUnion | BDiff | In_ => 6
  | Add | Sub | Concat => 7
  | Mul | Div => 8
  end.
Definition expr_level (e : Expr) : nat :=
  match e with
  | ELambda _ _ => 0
  | EPipe _ _ => 1
  | EBinOp op _ _ => op_level op
  | EUnOp Not _ => 4
  | EUnOp Neg _ => 9
  | ECall _ _ | ESelect _ _ _ | EEnrich _ => 10
  | _ => 11
  end.
(** An operand printed at [min_prec] where the grammar reads level [L]: it is in
    parentheses or at least of that level. *)
Definition slot (e : Expr) (min_prec : Z) (L : nat) : Prop :=
  precedence e < min_prec \/ (L <= expr_level e)%nat.
Definition left_level_of (op : BinOpKind) : nat :=
  match op with EqOp | Neq | LtOp | Le | GtOp | Ge => 6 | _ => op_level op end.
Definition right_prec_of (op : BinOpKind) : Z :=
  if is_right_sensitive_binary op then binop_precedence op + 1 else binop_precedence op.

Inductive printable : Expr -> Prop :=
| pr_null : printable ENull
| pr_bool b : printable (EBool b)
| pr_num n : num_ok n -> printable (ENum n)
| pr_str s : printable (EStr s)
| pr_bytes b : printable (EBytes b)
| pr_ident n : ident_ok n -> printable (EIdent n)
| pr_placeholder : printable EPlaceholder
| pr_seq l : Forall printable l -> printable (ESeq l)
| pr_set l : Forall printable l -> printable (ESet l)
| pr_bag l : Forall printable l -> printable (EBag l)
| pr_map l : Forall (fun p => printable (snd p)) l -> printable (EMap l)
| pr_prod l : Forall (fun p => ident_ok (fst p) /\ printable (snd p)) l -> printable (EProd l)
| pr_bagkv l :
    Forall (fun p => (is_identifier (fst p) = true -> ident_ok (fst p)) /\ printable (snd p)) l ->
    printable (EBagKV l)
| pr_some e : printable e -> printable (ESome e)
| pr_none : printable ENone
| pr_ok e : printable e -> printable (EOk e)
| pr_fail c m : printable c -> printable m -> printable (EFail c m)
| pr_binop op l r :
    printable l -> printable r -> slot l (binop_precedence op) (left_level_of op) ->
    slot r (right_prec_of op) (S (op_level op)) -> printable (EBinOp op l r)
| pr_neg e : printable e -> slot e 8 9 -> printable (EUnOp Neg e)
| pr_not e : printable e -> printable (EUnOp Not e)
| pr_pipe l r : printable l -> printable r -> slot l 1 1 -> printable (EPipe l r)
| pr_lambda p b : ident_ok p -> printable b -> printable (ELambda p b)
| pr_call f l : printable f -> slot f 9 10 -> Forall printable l -> printable (ECall f l)
| pr_one n l : n ∈ [chars "one?"; chars "one!"] -> Forall printable l -> printable (ECall (EIdent n) l)
| pr_select e s m : printable e -> slot e 9 10 -> printable (ESelect e s m)
| pr_enrich l : Forall (fun p => ident_ok (fst p) /\ printable (snd p)) l -> printable (EEnrich l)
| pr_comprehension y b c p :
    (forall e, y = Some e -> printable e) -> ident_ok b -> printable c ->
    (7 <= expr_level c)%nat -> (forall e, p = Some e -> printable e) ->
    printable (EComprehension y b c p).

Inductive printable_stmt : Stmt -> Prop :=
| ps_let x e : ident_ok x -> printable e -> printable_stmt (SLet x e)
| ps_expr e : printable e -> head (toks e 0) <> Some (KIdent (chars "source")) -> printable_stmt (SExpr e)
| ps_source x k ts : ident_ok x -> Forall ident_ok ts -> printable_stmt (SSource x k ts).
End Tokens.
