(* ===== verification/SdaReparse.v ===== *)
(** * The tokens of a printable expression are parsed to the expression *)
From S2P Require Import Prelude SdaNumber SdaLexer SdaParser SdaFormat SdaPrint.

Definition kinds (ts : tokens) : list TokenKind := map kind ts.

(** A parser reads [ks] up to [ks'] and answers [x], whatever the positions. *)
Definition yields {A} (p : parser A) (ks : list TokenKind) (x : A) (ks' : list TokenKind) : Prop :=
  forall ts, kinds ts = ks -> exists ts', p ts = Ok (x, ts') /\ kinds ts' = ks'.

Lemma kinds_cons ts k ks : kinds ts = k :: ks -> exists t ts', ts = t :: ts' /\ kind t = k /\ kinds ts' = ks.
Proof. destruct ts as [|t ts']; cbn; [done|]. intros [= <- <-]. eauto. Qed.
Lemma kinds_length ts ks : kinds ts = ks -> length ts = length ks.
Proof. intros <-. unfold kinds. by rewrite length_map. Qed.

(** ** Composition *)
Lemma yields_bind {A A'} (p : parser A) (q : A -> parser A') ks x ks1 y ks2 :
  yields p ks x ks1 -> yields (q x) ks1 y ks2 ->
  yields (fun ts => let? '(x, ts) := p ts in q x ts) ks y ks2.
Proof. intros Hp Hq ts H. destruct (Hp _ H) as (ts1 & -> & H1). by apply Hq. Qed.
Lemma yields_ret {A} (x : A) ks : yields (fun ts => Ok (x, ts)) ks x ks.
Proof. intros ts H. eauto. Qed.
Lemma yields_peek {A} (q : TokenKind -> parser A) k ks y ks2 :
  yields (q k) (k :: ks) y ks2 -> yields (fun ts => let? token := peek ts in q token ts) (k :: ks) y ks2.
Proof. intros Hq ts H. destruct (kinds_cons _ _ _ H) as (t & ts' & -> & <- & _). cbn [peek]. by apply Hq. Qed.
Lemma yields_pos {A} (q : Z -> parser A) k ks y ks2 :
  (forall p, yields (q p) (k :: ks) y ks2) ->
  yields (fun ts => let? p := peek_pos ts in q p ts) (k :: ks) y ks2.
Proof. intros Hq ts H. destruct (kinds_cons _ _ _ H) as (t & ts' & -> & <- & _). cbn [peek_pos]. by apply Hq. Qed.
Lemma yields_at {A} kd (q : bool -> parser A) k ks y ks2 :
  yields (q (bool_decide (k = kd))) (k :: ks) y ks2 ->
  yields (fun ts => let? b := at_kind kd ts in q b ts) (k :: ks) y ks2.
Proof. intros Hq ts H. destruct (kinds_cons _ _ _ H) as (t & ts' & -> & <- & _). cbn [at_kind peek]. by apply Hq. Qed.
Lemma yields_advance {A} (q : parser A) k k' ks y ks2 :
  yields q (k' :: ks) y ks2 ->
  yields (fun ts => let? ts := advance ts in q ts) (k :: k' :: ks) y ks2.
Proof.
  intros Hq ts H. destruct (kinds_cons _ _ _ H) as (t & ts' & -> & _ & H').
  pose proof (kinds_cons _ _ _ H') as (t' & ts'' & -> & _). cbn [advance]. by apply Hq.
Qed.
Lemma expect_yields k k' ks : yields (expect k) (k :: k' :: ks) tt (k' :: ks).
Proof.
  unfold expect. apply yields_peek, yields_pos. intros p. rewrite bool_decide_true by done.
  apply yields_advance, yields_ret.
Qed.
Lemma expect_ident_yields n k' ks : yields expect_ident (KIdent n :: k' :: ks) n (k' :: ks).
Proof. unfold expect_ident. apply yields_peek, yields_pos. intros p. apply yields_advance, yields_ret. Qed.

(** ** Lists *)
Lemma tjoin_cons x l : tjoin (x :: l) = x ++ concat (map (cons KComma) l).
Proof.
  revert x. induction l as [|y l IH]; intros x; [cbn; by rewrite app_nil_r|].
  change (tjoin (x :: y :: l)) with (x ++ KComma :: tjoin (y :: l)). by rewrite IH.
Qed.

(** An item of a list: its tokens do not start with the closing one, and it is
    read before a comma and before the end, in texts of at most [n] tokens. *)
Record item_reads {A} (item : parser A) (close : TokenKind) (n : nat) (p : list TokenKind * A) : Prop := {
  item_head : exists k0 ks0, fst p = k0 :: ks0 /\ k0 <> close;
  item_yields k r : k ∈ [KComma; close] -> (length (fst p ++ k :: r) <= n)%nat ->
    yields item (fst p ++ k :: r) (snd p) (k :: r) }.

Section Lists.
Context {A : Type} (item : parser A) (close : TokenKind) (n : nat).
Context (Hclose : close <> KComma).

Definition tail_tokens (l : list (list TokenKind * A)) (ks : list TokenKind) : list TokenKind :=
  concat (map (cons KComma) (map fst l)) ++ close :: ks.
Lemma tail_head l ks : exists k r, tail_tokens l ks = k :: r /\ k ∈ [KComma; close].
Proof. destruct l; [exists close, ks|eexists KComma, _]; (split; [done|set_solver]). Qed.
Lemma tail_tokens_cons kx (x : A) l ks : tail_tokens ((kx, x) :: l) ks = KComma :: kx ++ tail_tokens l ks.
Proof. unfold tail_tokens. cbn. by rewrite <- app_assoc. Qed.
Lemma item_then kx x l ks :
  item_reads item close n (kx, x) -> (length (kx ++ tail_tokens l ks) <= n)%nat ->
  yields item (kx ++ tail_tokens l ks) x (tail_tokens l ks).
Proof. intros [_ H] Hn. destruct (tail_head l ks) as (k & r & E & Hk). rewrite E in *. by apply H. Qed.

Lemma comma_loop_yields l fuel ks :
  Forall (item_reads item close n) l -> (length (tail_tokens l ks) <= fuel)%nat ->
  (length (tail_tokens l ks) <= n)%nat ->
  yields (comma_loop fuel item) (tail_tokens l ks) (map snd l) (close :: ks).
Proof.
  intros Hl. revert fuel. induction Hl as [|[kx x] l Hx Hl IH]; intros [|fuel] Hf Hn; try (exfalso; cbn in Hf; lia);
    cbn [comma_loop map snd].
  - apply yields_at. rewrite bool_decide_false by done. apply yields_ret.
  - rewrite tail_tokens_cons in *. cbn [length] in *. rewrite length_app in *. apply yields_at.
    rewrite bool_decide_true by done. destruct (item_head _ _ _ _ Hx) as (k0 & ks0 & E & _).
    cbn [fst] in E. subst kx. eapply yields_advance, yields_bind.
    { apply (item_then (k0 :: ks0)); [done|]. cbn [length app] in *. rewrite length_app. lia. }
    eapply yields_bind; [apply IH; lia|apply yields_ret].
Qed.
Lemma comma_loop_trailing_yields l fuel ks :
  Forall (item_reads item close n) l -> (length (tail_tokens l ks) <= fuel)%nat ->
  (length (tail_tokens l ks) <= n)%nat ->
  yields (comma_loop_trailing fuel close item) (tail_tokens l ks) (map snd l) (close :: ks).
Proof.
  intros Hl. revert fuel. induction Hl as [|[kx x] l Hx Hl IH]; intros [|fuel] Hf Hn; try (exfalso; cbn in Hf; lia);
    cbn [comma_loop_trailing map snd].
  - apply yields_at. rewrite bool_decide_false by done. apply yields_ret.
  - rewrite tail_tokens_cons in *. cbn [length] in *. rewrite length_app in *. apply yields_at.
    rewrite bool_decide_true by done. destruct (item_head _ _ _ _ Hx) as (k0 & ks0 & E & Hk0).
    cbn [fst] in E. subst kx. eapply yields_advance, yields_at. rewrite bool_decide_false by done.
    eapply yields_bind.
    { apply (item_then (k0 :: ks0)); [done|]. cbn [length app] in *. rewrite length_app. lia. }
    eapply yields_bind; [apply IH; lia|apply yields_ret].
Qed.

(** Both kinds of list read the items between their brackets. *)
Lemma items_yields (loop : nat -> parser (list A)) l k' ks :
  (forall l fuel ks, Forall (item_reads item close n) l -> (length (tail_tokens l ks) <= fuel)%nat ->
     (length (tail_tokens l ks) <= n)%nat -> yields (loop fuel) (tail_tokens l ks) (map snd l) (close :: ks)) ->
  Forall (item_reads item close n) l ->
  (length (tjoin (map fst l) ++ close :: k' :: ks) <= n)%nat ->
  yields (fun ts =>
    let? empty := at_kind close ts in
    let? '(xs, ts) :=
      if empty then Ok ([], ts)
      else let? '(x, ts) := item ts in
           let? '(xs, ts) := loop (length ts) ts in Ok (x :: xs, ts) in
    let? '(_, ts) := expect close ts in Ok (xs, ts))
    (tjoin (map fst l) ++ close :: k' :: ks) (map snd l) (k' :: ks).
Proof.
  intros Hloop Hl Hn. destruct Hl as [|[kx x] l Hx Hl].
  - cbn [map tjoin app]. apply yields_at. rewrite bool_decide_true by done.
    eapply yields_bind; [apply expect_yields|apply yields_ret].
  - cbn [map] in *. rewrite tjoin_cons, <- app_assoc in *. fold (tail_tokens l (k' :: ks)) in *.
    destruct (item_head _ _ _ _ Hx) as (k0 & ks0 & E & Hk0). cbn [fst snd] in *. subst kx.
    rewrite <- app_comm_cons. apply yields_at. rewrite bool_decide_false by done.
    eapply (yields_bind _ (fun xs ts => let? '(_, ts) := expect close ts in Ok (xs, ts))).
    + eapply yields_bind; [by apply (item_then (k0 :: ks0))|].
      eapply yields_bind; [|apply yields_ret].
      intros ts H. rewrite (kinds_length _ _ H). rewrite length_app in Hn. apply (Hloop l _ (k' :: ks)); [done|lia|lia|done].
    + eapply yields_bind; [apply expect_yields|apply yields_ret].
Qed.
Lemma items_trailing_yields l k' ks :
  Forall (item_reads item close n) l -> (length (tjoin (map fst l) ++ close :: k' :: ks) <= n)%nat ->
  yields (items_trailing close item) (tjoin (map fst l) ++ close :: k' :: ks) (map snd l) (k' :: ks).
Proof.
  apply (items_yields (fun fuel => comma_loop_trailing fuel close item)).
  intros. by apply comma_loop_trailing_yields.
Qed.
Lemma items_plain_yields l k' ks :
  Forall (item_reads item close n) l -> (length (tjoin (map fst l) ++ close :: k' :: ks) <= n)%nat ->
  yields (items_plain close item) (tjoin (map fst l) ++ close :: k' :: ks) (map snd l) (k' :: ks).
Proof. apply (items_yields (fun fuel => comma_loop fuel item)). intros. by apply comma_loop_yields. Qed.
End Lists.

(** ** Levels of the grammar *)
Definition lev (L f : nat) : parser Expr :=
  let rec := descend f in
  match L with
  | 0 | 1 => parse_pipe rec
  | 2 => parse_or rec
  | 3 => parse_and rec
  | 4 => parse_not rec
  | 5 => parse_cmp rec
  | 6 => parse_setish rec
  | 7 => parse_add rec
  | 8 => parse_mul rec
  | 9 => parse_unary rec
  | 10 => parse_postfix rec
  | _ => parse_primary rec
  end%nat.
Definition loop_op (L : nat) : TokenKind -> option (Expr -> Expr -> Expr) :=
  match L with
  | 1 => pipe_op | 2 => or_op | 3 => and_op | 6 => setish_op | 7 => add_op | 8 => mul_op
  | _ => fun _ => None
  end%nat.
Definition is_loop (L : nat) : bool :=
  match L with 1 | 2 | 3 | 6 | 7 | 8 => true | _ => false end%nat.

(** The level whose loop would go on with the tokens [ks]. *)
Definition sel_shape (ks : list TokenKind) : bool :=
  match ks with (KIdent _ | KStr _) :: KGt :: _ => true | _ => false end.
Definition level_of (ks : list TokenKind) : nat :=
  match ks with
  | [] => 0
  | KLt :: r => if sel_shape r then 10 else 5
  | k :: _ =>
      match k with
      | KPipe => 1
      | KOr => 2
      | KAnd => 3
      | KEq | KNeq | KLe | KGt | KGe => 5
      | KUnion | KInter | KDiff | KBUnion | KBDiff | KIn => 6
      | KPlus | KMinus | KConcat => 7
      | KStar | KSlash => 8
      | KLParen | KLBrack | KSelL => 10
      | KFatArrow | KQMark | KBang | KLBrace => 12
      | _ => 0
      end
  end%nat.

(** The parser of a level reads [ks] up to [ks'], in descents as deep as [ks] is
    long. *)
Definition Reads (L : nat) (ks : list TokenKind) (e : Expr) (ks' : list TokenKind) : Prop :=
  forall f, (length ks <= S f)%nat -> yields (lev L f) ks e ks'.
(** What the level makes of [lhs] when it stands before [ks]. *)
Definition Cont (L : nat) (lhs : Expr) (ks : list TokenKind) (e : Expr) (ks' : list TokenKind) : Prop :=
  if is_loop L then
    forall f fuel, (length ks <= S f)%nat -> (length ks <= fuel)%nat ->
      yields (left_loop fuel (loop_op L) (lev (S L) f) lhs) ks e ks'
  else if (L =? 10)%nat then
    forall f fuel, (length ks <= S f)%nat -> (length ks <= fuel)%nat ->
      yields (postfix_loop (descend f) fuel lhs) ks e ks'
  else e = lhs /\ ks' = ks /\ (L = 5%nat -> (level_of ks < 5)%nat).
(** The tokens [ks] are an operand [e] of level [L]. *)
Definition reads_at (L : nat) (ks : list TokenKind) (e : Expr) : Prop :=
  forall k r e2 ks2, (level_of (k :: r) <= L)%nat -> Cont L e (k :: r) e2 ks2 ->
    Reads L (ks ++ k :: r) e2 ks2.

Lemma lev_loop L f : is_loop L = true -> lev L f = left_level (loop_op L) (lev (S L) f).
Proof. do 9 (destruct L as [|L]; [done|]). done. Qed.
Lemma loop_op_None L k r :
  is_loop L = true -> (level_of (k :: r) < L)%nat -> loop_op L k = None.
Proof. do 9 (destruct L as [|L]; [destruct k; cbn; (done || lia)|]). done. Qed.
Lemma selector_kinds ts r : kinds ts = KLt :: r -> is_selector_access ts = sel_shape r.
Proof.
  intros (t & ts' & -> & Ht & H)%kinds_cons. subst r.
  destruct ts' as [|t1 [|t2 ts']]; cbn; [done|by destruct (kind t1)|].
  destruct (kind t1), (kind t2); done.
Qed.
Lemma postfix_stop rec e k r ts :
  kinds ts = k :: r -> (level_of (k :: r) < 10)%nat -> postfix_step rec e ts = Ok None.
Proof.
  intros H Hl. unfold postfix_step. destruct (kinds_cons _ _ _ H) as (t & ts' & E & <- & _).
  rewrite E at 1. cbn [peek]. destruct (kind t) eqn:Ht; cbn in Hl; try done; try lia.
  erewrite selector_kinds by exact H. destruct (sel_shape r); [lia|done].
Qed.
Lemma cont_stop L lhs k r : (level_of (k :: r) < L \/ L = 0)%nat -> Cont L lhs (k :: r) lhs (k :: r).
Proof.
  intros HL. unfold Cont. destruct (is_loop L) eqn:El; [|destruct (L =? 10)%nat eqn:E10].
  - intros f [|fuel] Hf Hn; [cbn in Hn; lia|]. cbn [left_loop]. apply yields_peek.
    rewrite (loop_op_None L k r) by (done || (destruct HL as [? | ->]; done)). apply yields_ret.
  - apply Nat.eqb_eq in E10 as ->. intros f [|fuel] Hf Hn; [cbn in Hn; lia|].
    intros ts H. cbn [postfix_loop]. erewrite postfix_stop by (done || lia). eauto.
  - split; [done|split; [done|lia]].
Qed.

(** One level down. *)
Lemma loop_reads L ks e ks1 e2 ks2 :
  is_loop L = true -> Reads (S L) ks e ks1 -> (length ks1 <= length ks)%nat ->
  Cont L e ks1 e2 ks2 -> Reads L ks e2 ks2.
Proof.
  intros HL Hr Hlen Hc f Hf. unfold Cont in Hc. rewrite HL in Hc. rewrite lev_loop by done. unfold left_level.
  eapply yields_bind; [by apply Hr|]. intros ts H. rewrite (kinds_length _ _ H). apply Hc; [lia|lia|done].
Qed.
Lemma loop_step L k build lhs rhs ks1 ks2 e ks3 :
  is_loop L = true -> loop_op L k = Some build -> ks1 <> [] ->
  Reads (S L) ks1 rhs ks2 -> (length ks2 <= length ks1)%nat ->
  Cont L (build lhs rhs) ks2 e ks3 -> Cont L lhs (k :: ks1) e ks3.
Proof.
  intros HL Hop Hne Hr Hlen Hc. unfold Cont in *. rewrite HL in *. intros f [|fuel] Hf Hn; cbn in Hf, Hn; [lia|].
  cbn [left_loop]. apply yields_peek. rewrite Hop. destruct ks1 as [|k1 ks1]; [done|].
  apply yields_advance. eapply yields_bind; [apply Hr; lia|]. apply Hc; lia.
Qed.
Lemma sugar_none rec e k r : (level_of (k :: r) <= 11)%nat -> yields (parse_sugar rec e) (k :: r) e (k :: r).
Proof.
  intros Hl. unfold parse_sugar. destruct e; try apply yields_ret. apply yields_peek.
  assert (match k with KQMark | KBang => true | _ => false end = false) as -> by (destruct k; cbn in Hl; (done || lia)).
  rewrite andb_false_r. cbn [andb].
  rewrite (bool_decide_false (k = KLBrace)), !andb_false_r by (intros ->; cbn in Hl; lia). apply yields_ret.
Qed.
Lemma not_reads ks e ks' :
  head ks <> Some KNot -> ks <> [] -> Reads 5 ks e ks' -> Reads 4 ks e ks'.
Proof.
  intros Hh Hne Hr f Hf ts H. destruct ks as [|k ks]; [done|]. cbn [lev]. unfold parse_not.
  rewrite (kinds_length _ _ H). cbn [length parse_not_n]. revert ts H. apply yields_at.
  rewrite bool_decide_false by (intros ->; by apply Hh). by apply Hr.
Qed.
Lemma unary_reads ks e ks' :
  head ks <> Some KMinus -> ks <> [] -> Reads 10 ks e ks' -> Reads 9 ks e ks'.
Proof.
  intros Hh Hne Hr f Hf ts H. destruct ks as [|k ks]; [done|]. cbn [lev]. unfold parse_unary.
  rewrite (kinds_length _ _ H). cbn [length parse_unary_n]. revert ts H. apply yields_at.
  rewrite bool_decide_false by (intros ->; by apply Hh). by apply Hr.
Qed.
Lemma cmp_reads ks e k r :
  (level_of (k :: r) < 5)%nat -> Reads 6 ks e (k :: r) -> Reads 5 ks e (k :: r).
Proof.
  intros Hl Hr f Hf. cbn [lev]. unfold parse_cmp. eapply yields_bind; [by apply (Hr f)|].
  apply yields_peek. assert (cmp_op k = None) as -> by (destruct k; cbn in Hl; try done; try lia; destruct sel_shape; lia).
  apply yields_ret.
Qed.
Lemma postfix_reads ks e k r e2 ks2 :
  (level_of (k :: r) <= 11)%nat -> (length (k :: r) <= length ks)%nat ->
  Reads 11 ks e (k :: r) -> Cont 10 e (k :: r) e2 ks2 -> Reads 10 ks e2 ks2.
Proof.
  intros Hl Hlen Hr Hc f Hf. cbn [lev]. unfold parse_postfix. eapply yields_bind; [by apply (Hr f)|].
  eapply yields_bind; [by apply sugar_none|]. intros ts H. rewrite (kinds_length _ _ H).
  apply Hc; [lia|lia|done].
Qed.

(** How the tokens of an operand of level [L] may start. *)
Record starts (L : nat) (ks : list TokenKind) : Prop := {
  starts_nonempty : ks <> [];
  starts_closer k : k ∈ [KRParen; KRBrack; KRBrace; KLet; KEof] -> head ks <> Some k;
  starts_not : (5 <= L)%nat -> head ks <> Some KNot;
  starts_minus : (10 <= L)%nat -> head ks <> Some KMinus }.
Lemma starts_le L L' ks : starts L ks -> (L' <= L)%nat -> starts L' ks.
Proof. intros [H0 H1 H2 H3] Hle. split; [done|done| |]; intros; [apply H2|apply H3]; lia. Qed.
Lemma starts_app L ks ks' : starts L ks -> starts L (ks ++ ks').
Proof. intros [H0 H1 H2 H3]. destruct ks as [|k ks]; [done|]. by split. Qed.

Lemma lower_before L ks e k r e2 ks2 :
  (L <= 10)%nat -> starts (S L) ks -> (level_of (k :: r) <= L)%nat ->
  Reads (S L) (ks ++ k :: r) e (k :: r) -> Cont L e (k :: r) e2 ks2 -> Reads L (ks ++ k :: r) e2 ks2.
Proof.
  intros HL [Hne _ Hs Hm] Hl R Hc.
  assert (length (k :: r) <= length (ks ++ k :: r))%nat by (rewrite length_app; lia).
  assert (head (ks ++ k :: r) = head ks) as Eh by (by destruct ks).
  assert (ks ++ k :: r <> []) by (by destruct ks).
  destruct (is_loop L) eqn:El; [by eapply loop_reads|].
  destruct (decide (L = 10%nat)) as [->|N]; [apply (postfix_reads _ e k r); [lia|done..]|].
  unfold Cont in Hc. rewrite El, (proj2 (Nat.eqb_neq _ _) N) in Hc. destruct Hc as (-> & -> & H5).
  assert (L = 0 \/ L = 4 \/ L = 5 \/ L = 9)%nat as [->|[->|[->| ->]]].
  { clear - HL El N. do 10 (destruct L as [|L]; [(done || lia)|]). lia. }
  - done.
  - apply not_reads; [rewrite Eh; apply Hs; lia|done|done].
  - apply cmp_reads; [by apply H5|done].
  - apply unary_reads; [rewrite Eh; apply Hm; lia|done|done].
Qed.
(** Before a token that continues no level. *)
Lemma lower_closed L ks e k r :
  (L <= 11)%nat -> starts 11 ks -> level_of (k :: r) = 0%nat ->
  Reads 11 (ks ++ k :: r) e (k :: r) -> Reads L (ks ++ k :: r) e (k :: r).
Proof.
  intros HL Hs H0 H. remember (11 - L)%nat as d eqn:Ed. revert L HL Ed.
  induction d as [|d IH]; intros L HL Ed; [by replace L with 11%nat by lia|].
  apply (lower_before _ _ e); [lia|apply (starts_le 11); [done|lia]|lia|apply IH; lia|apply cont_stop; lia].
Qed.
Lemma lower_one L ks e :
  (L <= 10)%nat -> starts (S L) ks -> reads_at (S L) ks e -> reads_at L ks e.
Proof.
  intros HL Hs H k r e2 ks2 Hl. apply lower_before; [done..|]. apply H; [lia|apply cont_stop; lia].
Qed.
Lemma lower L L' ks e :
  (L' <= L <= 11)%nat -> starts L ks -> reads_at L ks e -> reads_at L' ks e.
Proof.
  intros [HL HL11] Hs H. induction HL as [|L HL IH]; [done|].
  apply IH; [lia|apply (starts_le (S L)); [done|lia]|]. apply lower_one; [lia|done|done].
Qed.

(** * Printable expressions are read back from their tokens *)

Section Expr.
Context {C : CharClass} {B : BigNum}.

(** ** Operands *)
Lemma toks_prec e m :
  m <= 9 -> toks e m = if precedence e <? m then KLParen :: toks e 0 ++ [KRParen] else toks e 0.
Proof.
  intros Hm. destruct e; cbn [toks precedence]; unfold wrap_tokens;
    repeat match goal with
    | |- context [binop_precedence ?o <? 0] => destruct o; cbn [binop_precedence]
    end; cbn [Z.ltb Z.compare]; try (destruct (_ <? _) eqn:E; [boolify; lia|done]);
    try (by destruct (_ <? _)).
Qed.

Lemma starts_head L k ks :
  k ∉ [KRParen; KRBrack; KRBrace; KLet; KEof] -> k <> KNot -> (L < 10 \/ k <> KMinus)%nat -> starts L (k :: ks).
Proof.
  intros Hc Hn Hm. split; cbn; [done| |congruence|]; [intros k' Hk' [= ->]; done|].
  intros HL [= ->]. destruct Hm; [lia|done].
Qed.
Lemma starts_slot e m L :
  m <= 9 -> (L <= 11)%nat -> slot e m L -> starts (expr_level e) (toks e 0) -> starts L (toks e m).
Proof.
  intros Hm HL Hs H. rewrite toks_prec by done. destruct (precedence e <? m) eqn:E.
  - apply starts_head; [set_solver|done|by right].
  - apply (starts_le (expr_level e)); [done|]. destruct Hs; [boolify; lia|done].
Qed.
Lemma binop_prec_le op : binop_precedence op <= 7.
Proof. destruct op; cbn; lia. Qed.
Lemma right_prec_le op : right_prec_of op <= 8.
Proof. destruct op; cbn; lia. Qed.
Lemma op_level_le op : (op_level op <= left_level_of op /\ 2 <= op_level op <= 8 /\ left_level_of op <= 8)%nat.
Proof. destruct op; cbn; lia. Qed.

Lemma toks_binop op l r :
  toks (EBinOp op l r) 0 = toks l (binop_precedence op) ++ op_token op :: toks r (right_prec_of op).
Proof. by destruct op. Qed.
Lemma toks_pipe l r : toks (EPipe l r) 0 = toks l 1 ++ KPipe :: toks r 2.
Proof. done. Qed.
Lemma toks_call f l :
  toks (ECall f l) 0 = toks f 9 ++ KLParen :: tjoin (map (fun item => toks item 0) l) ++ [KRParen].
Proof. done. Qed.
Lemma toks_select e s m : toks (ESelect e s m) 0 = toks e 9 ++ KLt :: KStr s :: KGt :: mode_tokens m.
Proof. done. Qed.
Lemma printable_starts e : printable e -> starts (expr_level e) (toks e 0).
Proof.
  induction 1; try (cbn [toks wrap_tokens]; apply starts_head; [set_solver|done|by right]).
  - cbn. destruct b; (apply starts_head; [set_solver|done|by right]).
  - cbn [toks]. unfold ident_tokens. repeat case_bool_decide; (apply starts_head; [set_solver|done|by right]).
  - rewrite toks_binop. apply starts_app. pose proof (binop_prec_le op). pose proof (op_level_le op).
    apply (starts_le (left_level_of op)); [apply starts_slot; [lia|lia|done|done]|cbn; lia].
  - cbn. apply starts_head; [set_solver|done|left; lia].
  - cbn. split; [done| |lia|lia]. intros k Hk [= <-]. set_solver.
  - rewrite toks_pipe. apply starts_app, starts_slot; [lia|cbn; lia|done|done].
  - rewrite toks_call. apply starts_app, starts_slot; [lia|cbn; lia|done|done].
  - rewrite toks_call. apply starts_app. cbn [toks]. unfold ident_tokens.
    repeat case_bool_decide; (apply starts_head; [set_solver|done|by right]).
  - rewrite toks_select. apply starts_app, starts_slot; [lia|cbn; lia|done|done].
Qed.
(** An operand of a comparison never looks like a selector. *)
Lemma no_selector_slot e m L k r :
  m <= 9 -> slot e m L -> (6 <= L)%nat -> k <> KGt ->
  ((6 <= expr_level e)%nat -> sel_shape (toks e 0 ++ k :: r) = false) ->
  sel_shape (toks e m ++ k :: r) = false.
Proof.
  intros Hm Hs HL Hk H. rewrite toks_prec by done. destruct (precedence e <? m) eqn:E; [done|].
  apply H. destruct Hs; [boolify; lia|lia].
Qed.
Lemma no_selector e :
  printable e -> (6 <= expr_level e)%nat -> forall k r, k <> KGt -> sel_shape (toks e 0 ++ k :: r) = false.
Proof.
  induction 1; intros HL k0 r0 Hk; try (cbn in HL; lia); try done; try (by destruct k0).
  - by destruct b.
  - cbn [toks]. unfold ident_tokens. repeat case_bool_decide; cbn; (done || by destruct k0).
  - rewrite toks_binop, <- app_assoc. pose proof (binop_prec_le op). pose proof (op_level_le op). cbn in HL.
    assert (op_token op <> KGt) by (destruct op; cbn in HL; (done || lia)).
    apply (no_selector_slot _ _ (left_level_of op)); [lia|done|lia|done|].
    intros H'. by apply IHprintable1.
  - rewrite toks_call, <- app_assoc. apply (no_selector_slot _ _ 10); [lia|done|lia|done|].
    intros H'. by apply IHprintable.
  - rewrite toks_call. cbn [toks]. unfold ident_tokens. repeat case_bool_decide; done.
  - rewrite toks_select, <- app_assoc. apply (no_selector_slot _ _ 10); [lia|done|lia|done|].
    intros H'. by apply IHprintable.
Qed.

(** ** Parentheses and nested expressions *)
Lemma nested ks e k r f :
  reads_at 0 ks e -> level_of (k :: r) = 0%nat -> (length (ks ++ k :: r) <= f)%nat ->
  yields (parse_expr (descend f)) (ks ++ k :: r) e (k :: r).
Proof.
  intros H Hk Hf. destruct f as [|f]; [rewrite length_app in Hf; cbn in Hf; lia|]. apply (H k r e (k :: r)); [lia| |lia].
  apply cont_stop. by right.
Qed.
Lemma reads_primary ks e :
  (forall k r f, (level_of (k :: r) <= 11)%nat -> (length (ks ++ k :: r) <= S f)%nat ->
     yields (parse_primary (descend f)) (ks ++ k :: r) e (k :: r)) ->
  reads_at 11 ks e.
Proof. intros H k r e2 ks2 Hl (-> & -> & _) f Hf. by apply H. Qed.
Lemma paren_reads ks e : ks <> [] -> reads_at 0 ks e -> reads_at 11 (KLParen :: ks ++ [KRParen]) e.
Proof.
  intros Hne H. apply reads_primary. intros k r f Hl Hf. cbn [app] in *. rewrite <- app_assoc in *. cbn in Hf.
  unfold parse_primary. apply yields_peek, yields_pos. intros p. destruct ks as [|k0 ks]; [done|].
  apply yields_advance. eapply yields_bind; [apply (nested (k0 :: ks)); [done|done|lia]|].
  eapply yields_bind; [apply expect_yields|apply yields_ret].
Qed.
Lemma slot_reads e m L :
  m <= 9 -> (L <= 11)%nat -> slot e m L -> printable e -> reads_at (expr_level e) (toks e 0) e ->
  reads_at L (toks e m) e.
Proof.
  intros Hm HL Hs Hp H. assert (expr_level e <= 11)%nat by (destruct e as [| | | | | | | | | | | | | | | | |[]|[]| | | | | |]; cbn; lia).
  pose proof (printable_starts e Hp) as Hst.
  rewrite toks_prec by done. destruct (precedence e <? m) eqn:E.
  - apply (lower 11); [lia|apply starts_head; [set_solver|done|by right]|].
    apply paren_reads; [by destruct Hst|]. by apply (lower (expr_level e)); [lia|..].
  - apply (lower (expr_level e)); [|done|done]. split; [|done]. destruct Hs; [boolify; lia|done].
Qed.
Definition reread (e : Expr) : Prop := reads_at (expr_level e) (toks e 0) e.
Lemma reread_nested e : printable e -> reread e -> reads_at 0 (toks e 0) e.
Proof. intros Hp H. apply slot_reads; [lia|lia|right; lia|done|done]. Qed.

(** ** Operators *)
Lemma operand e m L k r :
  m <= 9 -> (L <= 11)%nat -> slot e m L -> printable e -> reread e -> (level_of (k :: r) < L)%nat ->
  Reads L (toks e m ++ k :: r) e (k :: r).
Proof. intros. apply (slot_reads e m L); [done..|lia|]. apply cont_stop. by left. Qed.
Lemma toks_nonempty e m k r : toks e m ++ k :: r <> [].
Proof. by destruct (toks e m). Qed.
Lemma tail_shorter e m (k : TokenKind) r : (length (k :: r) <= length (toks e m ++ k :: r))%nat.
Proof. rewrite length_app. lia. Qed.

Lemma binop_reread op l r :
  printable l -> printable r -> reread l -> reread r -> slot l (binop_precedence op) (left_level_of op) ->
  slot r (right_prec_of op) (S (op_level op)) -> reread (EBinOp op l r).
Proof.
  intros Pl Pr Rl Rr Sl Sr k r' e2 ks2 Hl Hc. rewrite toks_binop, <- app_assoc. cbn [expr_level app] in *.
  pose proof (binop_prec_le op). pose proof (right_prec_le op). pose proof (op_level_le op).
  assert (Reads (S (op_level op)) (toks r (right_prec_of op) ++ k :: r') r (k :: r')) as Hr
    by (apply operand; [lia|lia|done..|lia]).
  destruct (is_loop (op_level op)) eqn:El.
  - replace (left_level_of op) with (op_level op) in Sl by by destruct op.
    apply (slot_reads l (binop_precedence op)); [lia|lia|done..| |].
    + destruct op; cbn; (done || lia).
    + eapply loop_step; [done| |apply toks_nonempty|exact Hr|apply tail_shorter|exact Hc]. by destruct op.
  - assert (op_level op = 5 /\ left_level_of op = 6)%nat as [E5 E6] by by destruct op.
    rewrite E5, E6 in *. destruct Hc as (-> & -> & Hk). specialize (Hk eq_refl).
    assert (sel_shape (toks r (right_prec_of op) ++ k :: r') = false) as Hsel.
    { apply (no_selector_slot _ _ 6); [lia|done|lia| |intros; apply no_selector; [done|done|]];
        intros ->; cbn in Hk; lia. }
    assert (level_of (op_token op :: toks r (right_prec_of op) ++ k :: r') < 6)%nat
      by (destruct op; try discriminate; cbn [level_of op_token]; rewrite ?Hsel; lia).
    intros f Hf. cbn [lev]. unfold parse_cmp.
    eapply yields_bind; [apply (operand l (binop_precedence op) 6); [lia|lia|done..]|].
    apply yields_peek. replace (cmp_op (op_token op)) with (Some op) by by destruct op.
    rewrite length_app in Hf. cbn [length] in Hf.
    destruct (toks r (right_prec_of op) ++ k :: r') as [|k1 r1] eqn:Er; [by apply toks_nonempty in Er|].
    apply yields_advance. eapply yields_bind; [apply (Hr f); lia|apply yields_ret].
Qed.
Lemma pipe_reread l r :
  printable l -> printable r -> reread l -> reread r -> slot l 1 1 -> reread (EPipe l r).
Proof.
  intros Pl Pr Rl Rr Sl k r' e2 ks2 Hl Hc. rewrite toks_pipe, <- app_assoc. cbn [expr_level app] in *.
  assert (slot r 2 2).
  { unfold slot. destruct r as [| | | | | | | | | | | | | | | | |[]|[]| | | | | |]; cbn; lia. }
  apply (slot_reads l 1); [lia|lia|done..|]. 
  eapply loop_step; [done..|apply toks_nonempty| |apply tail_shorter|exact Hc].
  by apply operand; [lia|lia|..|lia].
Qed.
Lemma not_reread e : printable e -> reread e -> reread (EUnOp Not e).
Proof.
  intros Pe Re k r e2 ks2 Hl (-> & -> & _). cbn [expr_level] in *.
  change (toks (EUnOp Not e) 0) with (KNot :: toks e 8). cbn [app].
  assert (slot e 8 4) as Se.
  { unfold slot. destruct e as [| | | | | | | | | | | | | | | | |[]|[]| | | | | |]; cbn; lia. }
  assert (reads_at 4 (toks e 8) e) as H4 by (apply slot_reads; [lia|lia|done..]).
  intros f Hf ts H. cbn [lev]. unfold parse_not. rewrite (kinds_length _ _ H). cbn [length parse_not_n].
  revert ts H. apply yields_at. rewrite bool_decide_true by done.
  cbn [length] in Hf. destruct (toks e 8 ++ k :: r) as [|k1 r1] eqn:Er; [by apply toks_nonempty in Er|].
  apply yields_advance. eapply yields_bind; [|apply yields_ret]. rewrite <- Er in *.
  intros ts H. rewrite <- (kinds_length _ _ H). apply (H4 k r e (k :: r)); [done|by split|lia|done].
Qed.
Lemma neg_reread e : printable e -> slot e 8 9 -> reread e -> reread (EUnOp Neg e).
Proof.
  intros Pe Se Re k r e2 ks2 Hl (-> & -> & _). cbn [expr_level] in *.
  change (toks (EUnOp Neg e) 0) with (KMinus :: toks e 8). cbn [app].
  assert (reads_at 9 (toks e 8) e) as H4 by (apply slot_reads; [lia|lia|done..]).
  intros f Hf ts H. cbn [lev]. unfold parse_unary. rewrite (kinds_length _ _ H). cbn [length parse_unary_n].
  revert ts H. apply yields_at. rewrite bool_decide_true by done.
  cbn [length] in Hf. destruct (toks e 8 ++ k :: r) as [|k1 r1] eqn:Er; [by apply toks_nonempty in Er|].
  apply yields_advance. eapply yields_bind; [|apply yields_ret]. rewrite <- Er in *.
  intros ts H. rewrite <- (kinds_length _ _ H). apply (H4 k r e (k :: r)); [done|by split|lia|done].
Qed.
End Expr.

(** * Every form of a printable expression is read back *)
From S2P Require Import SdaNumberFacts.

(** ** Steps whose rest is not known to be a token *)
Lemma app_cons_nonempty {A} (l : list A) x r : l ++ x :: r <> [].
Proof. by destruct l. Qed.
Lemma advance_then {A} (q : parser A) k ks y ks2 :
  yields q ks y ks2 -> ks <> [] -> yields (fun ts => let? ts := advance ts in q ts) (k :: ks) y ks2.
Proof. intros Hq Hne. destruct ks; [done|]. by apply yields_advance. Qed.
Lemma expect_then k ks : ks <> [] -> yields (expect k) (k :: ks) tt ks.
Proof. intros Hne. destruct ks; [done|]. apply expect_yields. Qed.
Lemma peek_next_kinds ts k k' ks : kinds ts = k :: k' :: ks -> peek_next ts = k'.
Proof.
  intros (t & ts' & -> & _ & H)%kinds_cons. apply kinds_cons in H as (t' & ts'' & -> & <- & _). done.
Qed.

(** ** Entries *)
Section Entries.
Context {A : Type} (item : parser A) (tk : A -> list TokenKind) (close : TokenKind) (n : nat).
Context (Hclose : close <> KComma).

Lemma entries_fst l : map fst (map (fun a : A => (tk a, a)) l) = map tk l.
Proof. rewrite map_map. done. Qed.
Lemma entries_snd l : map snd (map (fun a : A => (tk a, a)) l) = l.
Proof. rewrite map_map. apply map_id. Qed.
Lemma entries_trailing l k r :
  Forall (fun a => item_reads item close n (tk a, a)) l ->
  (length (tjoin (map tk l) ++ close :: k :: r) <= n)%nat ->
  yields (items_trailing close item) (tjoin (map tk l) ++ close :: k :: r) l (k :: r).
Proof.
  intros Hl Hn. pose proof (items_trailing_yields item close n Hclose (map (fun a => (tk a, a)) l) k r) as H.
  rewrite entries_fst, entries_snd in H. apply H; [by apply Forall_map|done].
Qed.
Lemma entries_plain l k r :
  Forall (fun a => item_reads item close n (tk a, a)) l ->
  (length (tjoin (map tk l) ++ close :: k :: r) <= n)%nat ->
  yields (items_plain close item) (tjoin (map tk l) ++ close :: k :: r) l (k :: r).
Proof.
  intros Hl Hn. pose proof (items_plain_yields item close n Hclose (map (fun a => (tk a, a)) l) k r) as H.
  rewrite entries_fst, entries_snd in H. apply H; [by apply Forall_map|done].
Qed.
End Entries.

Section Forms.
Context {C : CharClass} {CL : CharLaws C} {B : BigNum}.

Definition readable (e : Expr) : Prop := printable e /\ reread e.
Lemma readable_nested e k r f :
  readable e -> level_of (k :: r) = 0%nat -> (length (toks e 0 ++ k :: r) <= f)%nat ->
  yields (parse_expr (descend f)) (toks e 0 ++ k :: r) e (k :: r).
Proof. intros [Hp Hr] Hk Hf. apply nested; [by apply reread_nested|done|done]. Qed.
Lemma comma_or_close close k r :
  close ∈ [KRParen; KRBrack; KRBrace] -> k ∈ [KComma; close] -> level_of (k :: r) = 0%nat.
Proof. set_solver. Qed.

(** The entries of the containers and the arguments of calls. *)
Lemma expr_item f close n e :
  close ∈ [KRParen; KRBrack; KRBrace] -> (n <= f)%nat -> readable e ->
  item_reads (parse_expr (descend f)) close n (toks e 0, e).
Proof.
  intros Hc Hn He. split; cbn [fst snd].
  - destruct He as [[Hne Hcl _ _]%printable_starts _]. destruct (toks e 0) as [|k0 ks0]; [done|].
    exists k0, ks0. split; [done|]. intros ->. apply (Hcl close); [set_solver|done].
  - intros k r Hk Hl. apply readable_nested; [done|by eapply comma_or_close|lia].
Qed.
(** An entry is a head, a separator and an expression. *)
Lemma entry_item {A} (item : parser A) f close n head (a : A) e :
  close ∈ [KRParen; KRBrack; KRBrace] -> (n <= f)%nat -> readable e -> 
  (exists k0 ks0, head = k0 :: ks0 /\ k0 <> close) ->
  (forall ks ks', ks <> [] -> (length ks <= f)%nat -> yields (parse_expr (descend f)) ks e ks' ->
     yields item (head ++ ks) a ks') ->
  item_reads item close n (head ++ toks e 0, a).
Proof.
  intros Hc Hn He (k0 & ks0 & -> & Hk0) H. split; cbn [fst snd]; [by exists k0, (ks0 ++ toks e 0)|].
  intros k r Hk Hl. rewrite <- app_assoc in *. rewrite length_app in Hl.
  apply H; [apply app_cons_nonempty|lia|]. apply readable_nested; [done|by eapply comma_or_close|lia].
Qed.
Lemma map_entry f n p :
  (n <= f)%nat -> readable (snd p) ->
  item_reads (parse_map_entry (descend f)) KRBrace n
    ((fun '(key, value) => KStr key :: KArrow :: toks value 0) p, p).
Proof.
  destruct p as [key e]. cbn [snd]. intros Hn He. apply (entry_item _ f _ _ [KStr key; KArrow]); [set_solver|done|done|by eexists _, _|].
  intros ks ks' Hne Hl H. cbn [app]. unfold parse_map_entry. apply yields_peek, yields_advance.
  eapply yields_bind; [by apply expect_then|]. eapply yields_bind; [exact H|apply yields_ret].
Qed.
Lemma field_entry f n p :
  (n <= f)%nat -> readable (snd p) ->
  item_reads (parse_prod_field (descend f)) KRBrace n
    ((fun '(name, value) => KIdent name :: KColon :: toks value 0) p, p).
Proof.
  destruct p as [key e]. cbn [snd]. intros Hn He. apply (entry_item _ f _ _ [KIdent key; KColon]); [set_solver|done|done|by eexists _, _|].
  intros ks ks' Hne Hl H. cbn [app]. unfold parse_prod_field.
  eapply yields_bind; [apply expect_ident_yields|].
  eapply yields_bind; [by apply expect_then|]. eapply yields_bind; [exact H|apply yields_ret].
Qed.
Lemma bagkv_entry f n p :
  (n <= f)%nat -> readable (snd p) ->
  item_reads (parse_bagkv_entry (descend f)) KRBrace n
    ((fun '(key, value) => key_token key :: KArrow :: toks value 0) p, p).
Proof.
  destruct p as [key e]. cbn [snd]. intros Hn He. 
  apply (entry_item _ f _ _ [key_token key; KArrow]); [set_solver|done|done| |].
  { eexists _, _. split; [done|]. unfold key_token. by destruct is_identifier. }
  intros ks ks' Hne Hl H. cbn [app]. unfold parse_bagkv_entry. apply yields_peek.
  eapply (yields_bind _ (fun key ts =>
    let? '(_, ts) := expect KArrow ts in
    let? '(value, ts) := parse_expr (descend f) ts in Ok ((key, value), ts))).
  - unfold key_token. destruct is_identifier; apply yields_advance, yields_ret.
  - eapply yields_bind; [by apply expect_then|]. eapply yields_bind; [exact H|apply yields_ret].
Qed.
(** ** Primary expressions *)
Ltac primary :=
  apply reads_primary; intros k r f Hk Hf; cbn [app length] in *; unfold parse_primary;
  apply yields_peek, yields_pos; intros q.
Lemma atom_reads k0 e :
  (forall f k r, yields (parse_primary (descend f)) (k0 :: k :: r) e (k :: r)) -> reads_at 11 [k0] e.
Proof. intros H. apply reads_primary. intros k r f Hl Hf. apply H. Qed.
Ltac atom := apply atom_reads; intros; unfold parse_primary; apply yields_peek, yields_pos; intros;
  apply yields_advance, yields_ret.
Lemma name_primary f n k r :
  k <> KFatArrow -> yields (parse_primary (descend f)) (KIdent n :: k :: r) (EIdent n) (k :: r).
Proof.
  intros Hk. unfold parse_primary. apply yields_peek, yields_pos. intros p ts H.
  rewrite (peek_next_kinds _ _ _ _ H), bool_decide_false by done. revert ts H. apply yields_advance, yields_ret.
Qed.
Lemma placeholder_reads : reads_at 11 [KPlaceholder] EPlaceholder.
Proof.
  primary. intros ts H. rewrite (peek_next_kinds _ _ _ _ H), bool_decide_false by (intros ->; cbn in Hk; lia).
  revert ts H. apply yields_advance, yields_ret.
Qed.

(** A container: its name, its brackets and its entries. *)
Lemma list_reads l :
  Forall readable l ->
  reads_at 11 (KSeq :: KLBrack :: tjoin (map (fun e => toks e 0) l) ++ [KRBrack]) (ESeq l) /\
  reads_at 11 (KSet :: KLBrace :: tjoin (map (fun e => toks e 0) l) ++ [KRBrace]) (ESet l) /\
  reads_at 11 (KBag :: KLBrace :: tjoin (map (fun e => toks e 0) l) ++ [KRBrace]) (EBag l).
Proof.
  intros Hl. split; [|split]; (primary; rewrite <- app_assoc in *; cbn [app] in *;
  apply yields_advance; eapply yields_bind; [apply expect_then, app_cons_nonempty|];
  eapply yields_bind; [|apply yields_ret]; unfold parse_expr_list;
  (eapply entries_trailing; [done| |]; [|apply le_n]);
  eapply Forall_impl; [exact Hl|]; intros; apply expr_item; [set_solver|lia|done]).
Qed.
Lemma record_reads l :
  Forall (fun p => readable (snd p)) l ->
  reads_at 11 (toks (EMap l) 0) (EMap l) /\ reads_at 11 (toks (EProd l) 0) (EProd l) /\
  reads_at 11 (toks (EBagKV l) 0) (EBagKV l).
Proof.
  intros Hl. split; [|split]; cbn [toks]; (primary; rewrite <- app_assoc in *; cbn [app] in *;
  apply yields_advance; eapply yields_bind; [apply expect_then, app_cons_nonempty|];
  eapply yields_bind; [|apply yields_ret];
  (eapply entries_trailing; [done| |]; [|apply le_n]);
  eapply Forall_impl; [exact Hl|]; intros; (apply map_entry || apply field_entry || apply bagkv_entry); [lia|done]).
Qed.
Lemma parenthesised_reads e k r f :
  readable e -> (length (toks e 0 ++ KRParen :: k :: r) <= f)%nat ->
  yields (parse_parenthesised (descend f)) (KLParen :: toks e 0 ++ KRParen :: k :: r) e (k :: r).
Proof.
  intros He Hf. unfold parse_parenthesised. eapply yields_bind; [apply expect_then, app_cons_nonempty|].
  eapply yields_bind; [by apply readable_nested|]. eapply yields_bind; [apply expect_yields|apply yields_ret].
Qed.
Lemma some_reads e : readable e -> reads_at 11 (toks (ESome e) 0) (ESome e) /\ reads_at 11 (toks (EOk e) 0) (EOk e).
Proof.
  intros He. split; cbn [toks]; (primary; rewrite <- app_assoc in *; cbn [app] in *;
    apply yields_advance; eapply yields_bind; [apply parenthesised_reads; [done|lia]|apply yields_ret]).
Qed.
Lemma fail_reads c m : readable c -> readable m -> reads_at 11 (toks (EFail c m) 0) (EFail c m).
Proof.
  intros Hc Hm. cbn [toks]. primary. rewrite <- app_assoc in *. cbn [app] in *. rewrite <- app_assoc in *. cbn [app] in *.
  apply yields_advance. eapply yields_bind; [apply expect_then, app_cons_nonempty|].
  eapply yields_bind; [apply readable_nested; [done|done|lia]|].
  eapply yields_bind; [apply expect_then, app_cons_nonempty|].
  rewrite length_app in Hf. cbn [length] in Hf.
  eapply yields_bind; [apply readable_nested; [done|done|lia]|].
  eapply yields_bind; [apply expect_yields|apply yields_ret].
Qed.
(** Base-16 literals. *)
Lemma to_digit_hex n : 0 <= n < 16 -> to_digit16 (hex_digit n) = Some n.
Proof.
  intros Hn. unfold hex_digit, to_digit16, is_ascii_digit. destruct (n <? 10) eqn:E; boolify.
  - rewrite (proj2 (Z.leb_le _ _)), (proj2 (Z.leb_le _ _)) by lia. cbn. f_equal. lia.
  - rewrite (proj2 (Z.leb_gt (87 + n) 57)), andb_false_r by lia.
    rewrite (proj2 (Z.leb_le _ _)), (proj2 (Z.leb_le _ _)) by lia. cbn. f_equal. lia.
Qed.
Lemma hex_digit_ascii n : 0 <= n < 16 -> len_utf8 (hex_digit n) = 1.
Proof.
  intros Hn. unfold hex_digit, len_utf8. destruct (n <? 10) eqn:E; boolify; rewrite (proj2 (Z.ltb_lt _ _)); lia.
Qed.
Lemma nibbles x : z2b (Z.lor (Z.shiftl (b2z x / 16) 4) (b2z x mod 16)) = x.
Proof. by destruct x. Qed.
Lemma bytes_literal b : parse_bytes_literal (encode_base16 b) = Ok b.
Proof.
  assert (str_len (encode_base16 b) mod 2 = 0 /\ hex_pairs (encode_base16 b) = Ok b) as [H1 H2].
  { unfold encode_base16. induction b as [|x b [IH1 IH2]]; [done|]. pose proof (b2z_range x) as Hx.
    assert (0 <= b2z x / 16 < 16) by (split; [apply Z.div_pos|apply Z.div_lt_upper_bound]; lia).
    assert (0 <= b2z x mod 16 < 16) by (apply Z.mod_pos_bound; lia).
    cbn [map concat app hex_pairs]. cbn [str_len foldr]. rewrite !to_digit_hex, !hex_digit_ascii, IH2 by done.
    split.
    - fold (str_len (concat (map (fun b => [hex_digit (b2z b / 16); hex_digit (b2z b mod 16)]) b))).
      rewrite Z.add_assoc, <- Zplus_mod_idemp_r, IH1. done.
    - by rewrite nibbles. }
  unfold parse_bytes_literal. by rewrite H1, H2.
Qed.
Lemma bytes_reads b : reads_at 11 (toks (EBytes b) 0) (EBytes b).
Proof.
  cbn [toks]. primary. apply yields_advance. unfold parse_bytes. eapply yields_bind; [apply expect_yields|].
  apply yields_peek. eapply (yields_bind _ (fun literal ts =>
    let? '(_, ts) := expect KRParen ts in
    match parse_bytes_literal literal with
    | Ok bytes => Ok (EBytes bytes, ts)
    | Err reason => Err (ParseErr (InvalidBytesLiteral literal q reason))
    end)); [apply yields_advance, yields_ret|].
  eapply yields_bind; [apply expect_yields|]. rewrite bytes_literal. apply yields_ret.
Qed.

(** ** Functions and calls *)
Lemma lambda_reads n b : readable b -> reads_at 0 (toks (ELambda n b) 0) (ELambda n b).
Proof.
  intros [Pb Rb] k r e2 ks2 Hk (-> & -> & _).
  assert (reads_at 0 (toks b 1) b) as H0 by (apply slot_reads; [lia|lia|right; lia|done..]).
  change (toks (ELambda n b) 0) with (KIdent n :: KFatArrow :: toks b 1).
  apply lower_closed; [lia|apply starts_head; [set_solver|done|by right]|lia|].
  intros f Hf. cbn [app length] in *. cbn [lev]. unfold parse_primary. apply yields_peek, yields_pos. intros p ts H.
  rewrite (peek_next_kinds _ _ _ _ H), bool_decide_true by done. revert ts H.
  apply yields_advance, advance_then; [|apply app_cons_nonempty].
  eapply yields_bind; [apply nested; [done|lia|lia]|apply yields_ret].
Qed.
Lemma args_yields l k r f :
  Forall readable l -> (length (tjoin (map (fun e => toks e 0) l) ++ KRParen :: k :: r) <= f)%nat ->
  yields (items_plain KRParen (parse_expr (descend f)))
    (tjoin (map (fun e => toks e 0) l) ++ KRParen :: k :: r) l (k :: r).
Proof.
  intros Hl Hf. eapply entries_plain; [done| |apply le_n].
  eapply Forall_impl; [exact Hl|]. intros. apply expr_item; [set_solver|lia|done].
Qed.
(** A turn of the postfix loop. *)
Lemma cont_postfix lhs k ks lhs' ks1 e2 ks2 :
  (forall f ts, (length (k :: ks) <= S f)%nat -> kinds ts = k :: ks ->
     exists ts', postfix_step (descend f) lhs ts = Ok (Some (lhs', ts')) /\ kinds ts' = ks1) ->
  (length ks1 <= length ks)%nat -> Cont 10 lhs' ks1 e2 ks2 -> Cont 10 lhs (k :: ks) e2 ks2.
Proof.
  intros H Hl Hc f [|fuel] Hf Hn ts Ht; cbn [length] in *; [lia|]. cbn [postfix_loop].
  destruct (H f ts ltac:(lia) Ht) as (ts' & -> & H'). apply Hc; [lia|lia|done].
Qed.
Lemma advance_kinds t ts : ts <> [] -> advance (t :: ts) = Ok ts.
Proof. by destruct ts. Qed.
Lemma kinds_nonempty ts ks : kinds ts = ks -> ks <> [] -> ts <> [].
Proof. intros <- H ->. done. Qed.

Lemma call_reread g l : readable g -> slot g 9 10 -> Forall readable l -> reread (ECall g l).
Proof.
  intros [Pg Rg] Sg Hl k r e2 ks2 Hk Hc. rewrite toks_call, <- app_assoc. cbn [expr_level app] in *.
  rewrite <- app_assoc. cbn [app]. apply (slot_reads g 9); [lia|lia|done..|].
  apply (cont_postfix _ _ _ (ECall g l) (k :: r)); [|rewrite length_app; cbn; lia|done].
  intros f ts Hf H. cbn [length] in Hf. unfold postfix_step.
  destruct (kinds_cons _ _ _ H) as (t & ts' & -> & Ht & H'). cbn [peek]. rewrite Ht.
  rewrite advance_kinds by (eapply kinds_nonempty; [done|apply app_cons_nonempty]).
  destruct (args_yields l k r f Hl ltac:(lia) _ H') as (ts1 & -> & H1). eauto.
Qed.
Lemma select_step e s m k r f ts :
  (level_of (k :: r) <= 10)%nat -> kinds ts = KLt :: KStr s :: KGt :: mode_tokens m ++ k :: r ->
  exists ts', postfix_step (descend f) e ts = Ok (Some (ESelect e s m, ts')) /\ kinds ts' = k :: r.
Proof.
  intros Hk H. unfold postfix_step. erewrite selector_kinds by exact H.
  destruct (kinds_cons _ _ _ H) as (t & ts' & -> & Ht & H'). cbn [peek sel_shape]. rewrite Ht.
  rewrite advance_kinds by (by eapply kinds_nonempty).
  assert (yields (parse_selector e KGt) (KStr s :: KGt :: mode_tokens m ++ k :: r) (ESelect e s m) (k :: r)) as Y.
  { unfold parse_selector. apply yields_peek. eapply (yields_bind _ (fun selector ts =>
      let? '(_, ts) := expect KGt ts in
      let? token := peek ts in
      match token with
      | KQMark => let? ts := advance ts in Ok (ESelect e selector Optional, ts)
      | KBang => let? ts := advance ts in Ok (ESelect e selector Required, ts)
      | _ => Ok (ESelect e selector Plain, ts)
      end)); [apply yields_advance, yields_ret|].
    eapply yields_bind; [apply expect_then, app_cons_nonempty|].
    destruct m; cbn [mode_tokens app]; apply yields_peek; [|apply yields_advance, yields_ret..].
    destruct k; try apply yields_ret; cbn in Hk; lia. }
  destruct (Y _ H') as (ts1 & -> & H1). eauto.
Qed.
Lemma select_reread e s m : readable e -> slot e 9 10 -> reread (ESelect e s m).
Proof.
  intros [Pe Re] Se k r e2 ks2 Hk Hc. rewrite toks_select, <- app_assoc. cbn [expr_level app] in *.
  apply (slot_reads e 9); [lia|lia|done..|].
  apply (cont_postfix _ _ _ (ESelect e s m) (k :: r)); [|cbn; rewrite length_app; cbn; lia|done].
  intros f ts Hf H. by apply select_step.
Qed.
(** ** The sugar after a name *)
Lemma sugar_reads n k0 ks e k r e2 ks2 :
  k0 <> KFatArrow -> (length (k :: r) <= length ks)%nat ->
  (forall f, (length ks <= f)%nat -> yields (parse_sugar (descend f) (EIdent n)) (k0 :: ks) e (k :: r)) ->
  Cont 10 e (k :: r) e2 ks2 -> Reads 10 (KIdent n :: k0 :: ks) e2 ks2.
Proof.
  intros Hk0 Hlen Hs Hc f Hf. cbn [lev length] in *. unfold parse_postfix.
  eapply yields_bind; [by apply name_primary|]. eapply yields_bind; [apply Hs; lia|].
  intros ts H. rewrite (kinds_length _ _ H). apply Hc; [cbn in *; lia|done|done].
Qed.
Lemma one_sugar f kq l k r :
  kq = KQMark \/ kq = KBang -> Forall readable l ->
  (length (tjoin (map (fun e => toks e 0) l) ++ KRParen :: k :: r) <= f)%nat ->
  yields (parse_sugar (descend f) (EIdent (chars "one")))
    (kq :: KLParen :: tjoin (map (fun e => toks e 0) l) ++ KRParen :: k :: r)
    (ECall (EIdent match kq with KQMark => chars "one?" | _ => chars "one!" end) l) (k :: r).
Proof.
  intros Hq Hl Hf. unfold parse_sugar. apply yields_peek. intros ts H.
  rewrite (peek_next_kinds _ _ _ _ H). rewrite (bool_decide_true (KLParen = KLParen)) by done.
  replace (bool_decide (chars "one" = chars "one")) with true by done.
  destruct Hq as [-> | ->]; cbn [andb]; revert ts H;
    (apply yields_advance, advance_then; [|apply app_cons_nonempty]);
    (eapply yields_bind; [by apply args_yields|apply yields_ret]).
Qed.
Lemma one_reread n l : n ∈ [chars "one?"; chars "one!"] -> Forall readable l -> reread (ECall (EIdent n) l).
Proof.
  intros Hn Hl k r e2 ks2 Hk Hc. rewrite toks_call, <- app_assoc. cbn [expr_level app toks] in *.
  rewrite <- app_assoc. cbn [app]. rewrite !elem_of_cons, elem_of_nil in Hn.
  destruct Hn as [-> |[-> |[]]];
    [change (ident_tokens (chars "one?")) with [KIdent (chars "one"); KQMark]
    |change (ident_tokens (chars "one!")) with [KIdent (chars "one"); KBang]]; cbn [app];
    (eapply sugar_reads; [done| | |exact Hc]; [cbn; rewrite length_app; cbn; lia|]);
    intros f Hf; cbn [length] in Hf; [apply (one_sugar f KQMark)|apply (one_sugar f KBang)]; (done || lia || auto).
Qed.
Lemma enrich_reread l : Forall (fun p => readable (snd p)) l -> reread (EEnrich l).
Proof.
  intros Hl k r e2 ks2 Hk Hc. cbn [toks expr_level app] in *. rewrite <- app_assoc. cbn [app].
  eapply sugar_reads; [done| | |exact Hc]; [rewrite length_app; cbn; lia|].
  intros f Hf. unfold parse_sugar. apply yields_peek.
  replace (bool_decide (chars "enrich" = chars "one")) with false by done.
  replace (bool_decide (chars "enrich" = chars "enrich")) with true by done.
  rewrite (bool_decide_true (KLBrace = KLBrace)) by done. cbn [andb].
  apply advance_then; [|apply app_cons_nonempty]. eapply yields_bind; [|apply yields_ret].
  eapply entries_trailing; [done| |apply le_n].
  eapply Forall_impl; [exact Hl|]. intros. apply field_entry; [lia|done].
Qed.

(** ** Comprehensions *)
Lemma ident_ok_tokens n : ident_ok n -> ident_tokens n = [KIdent n].
Proof.
  intros (Hi & _ & _). unfold ident_tokens.
  rewrite !bool_decide_false; [done| |]; intros ->;
    [change (chars "one!") with [111; 110; 101; 33] in Hi|change (chars "one?") with [111; 110; 101; 63] in Hi];
    cbn in Hi; [rewrite (alphanumeric_ascii 33) in Hi by lia|rewrite (alphanumeric_ascii 63) in Hi by lia];
    cbn in Hi; by rewrite !andb_false_r in Hi.
Qed.
Lemma ident_readable n : ident_ok n -> readable (EIdent n).
Proof.
  intros Hn. split; [by constructor|]. unfold reread. cbn [expr_level toks]. rewrite ident_ok_tokens by done.
  apply reads_primary. intros k r f Hk Hf. apply name_primary. intros ->. cbn in Hk. lia.
Qed.
Lemma generator_readable b c : ident_ok b -> readable c -> (7 <= expr_level c)%nat -> readable (EBinOp In_ (EIdent b) c).
Proof.
  intros Hb [Pc Rc] Hc. destruct (ident_readable b Hb) as [Pb Rb].
  assert (slot (EIdent b) 5 6) by (right; cbn; lia). assert (slot c 6 7) by by right.
  split; [by constructor|by apply binop_reread].
Qed.
Lemma generator_tokens b c :
  ident_ok b -> (7 <= expr_level c)%nat -> toks (EBinOp In_ (EIdent b) c) 0 = KIdent b :: KIn :: toks c 0.
Proof.
  intros Hb Hc. rewrite toks_binop. cbn [toks op_token]. rewrite ident_ok_tokens by done. cbn [app].
  rewrite (toks_prec c) by (cbn; lia). destruct (precedence c <? _) eqn:E; [|done]. boolify. exfalso.
  destruct c as [| | | | | | | | | | | | | | | | |[]|[]| | | | | |]; cbn in *; lia.
Qed.
Definition pred_tokens (p : option Expr) : list TokenKind :=
  match p with Some e => KBar :: toks e 0 | None => [] end.
Lemma pred_head p k r : exists k1 r1, pred_tokens p ++ KRBrace :: k :: r = k1 :: r1 /\ level_of (k1 :: r1) = 0%nat.
Proof. destruct p; by eexists _, _. Qed.
Lemma pred_yields p k r f :
  (forall e, p = Some e -> readable e) -> (length (pred_tokens p ++ KRBrace :: k :: r) <= f)%nat ->
  yields (parse_pred (descend f)) (pred_tokens p ++ KRBrace :: k :: r) p (k :: r).
Proof.
  intros Hp Hf. unfold parse_pred. destruct p as [e|]; cbn [pred_tokens app length] in *; apply yields_at.
  - rewrite bool_decide_true by done. eapply (yields_bind _ (fun pred ts =>
      let? '(_, ts) := expect KRBrace ts in Ok (pred, ts))).
    + apply advance_then; [|apply app_cons_nonempty].
      eapply yields_bind; [apply readable_nested; [by apply Hp|done|lia]|apply yields_ret].
    + eapply yields_bind; [apply expect_yields|apply yields_ret].
  - rewrite bool_decide_false by done. eapply yields_bind; [apply expect_yields|apply yields_ret].
Qed.
Lemma generator_yields b c k r f :
  ident_ok b -> readable c -> (7 <= expr_level c)%nat -> level_of (k :: r) = 0%nat ->
  (length (KIdent b :: KIn :: toks c 0 ++ k :: r) <= f)%nat ->
  yields (parse_expr (descend f)) (KIdent b :: KIn :: toks c 0 ++ k :: r) (EBinOp In_ (EIdent b) c) (k :: r).
Proof.
  intros Hb Hc H7 Hk Hf. pose proof (readable_nested _ k r f (generator_readable b c Hb Hc H7) Hk) as H.
  rewrite generator_tokens in H by done. by apply H.
Qed.
Lemma no_static_selector ts ks :
  (exists r, ks = KYield :: r) \/ (exists b r, ks = KIdent b :: KIn :: r) -> kinds ts = ks ->
  detect_static_selector_error ts = None.
Proof.
  unfold detect_static_selector_error. intros [(r & ->)|(b & r & ->)] (t & ts' & -> & Ht & H)%kinds_cons;
    cbn [labels_to_brace]; rewrite Ht; [done|].
  apply kinds_cons in H as (t' & ts'' & -> & Ht' & _). cbn [labels_to_brace]. by rewrite Ht'.
Qed.
Lemma comprehension_reads y b c p :
  (forall e, y = Some e -> readable e) -> ident_ok b -> readable c -> (7 <= expr_level c)%nat ->
  (forall e, p = Some e -> readable e) ->
  reads_at 11 (toks (EComprehension y b c p) 0) (EComprehension y b c p).
Proof.
  intros Hy Hb Hc H7 Hp. cbn [toks]. primary. fold (pred_tokens p) in *.
  assert (forall r, ((match y with Some y => KYield :: toks y 0 ++ [KBar] | None => [] end ++
     KIdent b :: KIn :: toks c 0 ++ pred_tokens p ++ [KRBrace]) ++ k :: r) =
    match y with Some y => KYield :: toks y 0 ++ [KBar] | None => [] end ++
     KIdent b :: KIn :: toks c 0 ++ pred_tokens p ++ KRBrace :: k :: r) as E.
  { intros r'. by rewrite <- app_assoc, <- !app_comm_cons, <- !app_assoc. }
  rewrite E in *. clear E. destruct (pred_head p k r) as (k1 & r1 & E1 & L1).
  apply advance_then; [|destruct y; done]. intros ts H.
  assert (detect_static_selector_error ts = None) as ->.
  { eapply no_static_selector; [|exact H]. destruct y; [left|right]; cbn; eauto. }
  revert ts H.
  unfold parse_comprehension. destruct y as [y|]; cbn [app length] in *; apply yields_at.
  - rewrite <- app_assoc in *. cbn [app] in *. rewrite bool_decide_true by done.
    rewrite length_app in Hf. cbn [length] in Hf.
    apply advance_then; [|apply app_cons_nonempty].
    eapply yields_bind; [apply readable_nested; [by apply Hy|done|rewrite length_app; cbn; lia]|].
    eapply yields_bind; [apply expect_yields|]. unfold parse_generator_expr.
    eapply (yields_bind _ (fun g ts =>
      let '(binding, collection) := g in
      let? '(pred, ts) := parse_pred (descend f) ts in
      Ok (EComprehension (Some y) binding collection pred, ts)) _ (b, c)).
    + rewrite E1 in *. eapply yields_bind; [apply generator_yields; [done..|cbn; lia]|]. apply yields_ret.
    + rewrite <- E1. rewrite !length_app in Hf. eapply yields_bind; [apply pred_yields; [done|rewrite length_app; lia]|apply yields_ret].
  - rewrite bool_decide_false by done.
    eapply yields_bind; [rewrite E1 in *; apply generator_yields; [done..|cbn; lia]|].
    rewrite <- E1. rewrite !length_app in Hf. cbn [decompose_generator_expr].
    eapply yields_bind; [apply pred_yields; [done|rewrite length_app; lia]|apply yields_ret].
Qed.
(** ** Every printable expression *)
Ltac each IH Hl := let x := fresh in let Hx := fresh in let IHl := fresh in
  induction Hl as [|x ? Hx ? IHl]; constructor; [apply IH; apply Hx|exact IHl].
Lemma printable_readable : forall e, printable e -> readable e.
Proof.
  fix IH 2. intros e He. split; [exact He|].
  destruct He as [|b|n Hn|s|b|n Hn| |l Hl|l Hl|l Hl|l Hl|l Hl|l Hl|e He| |e He|c m Hc Hm|op l r Hl Hr Sl Sr
    |e He Se|e He|l r Hl Hr Sl|p b Hp Hb|g l Hg Sg Hl|n l Hn Hl|e s m He Se|l Hl|y b c p Hy Hb Hc H7 Hp].
  - unfold reread. atom.
  - unfold reread. cbn [toks expr_level]. destruct b; atom.
  - unfold reread. atom.
  - unfold reread. atom.
  - apply bytes_reads.
  - by apply ident_readable.
  - apply placeholder_reads.
  - apply list_reads. each IH Hl.
  - apply list_reads. each IH Hl.
  - apply list_reads. each IH Hl.
  - apply record_reads. each IH Hl.
  - apply record_reads. each IH Hl.
  - apply record_reads. each IH Hl.
  - apply some_reads, IH, He.
  - unfold reread. atom.
  - apply some_reads, IH, He.
  - apply fail_reads; apply IH; assumption.
  - apply binop_reread; try assumption; apply IH; assumption.
  - apply neg_reread; try assumption. apply IH, He.
  - apply not_reread; try assumption. apply IH, He.
  - apply pipe_reread; try assumption; apply IH; assumption.
  - apply lambda_reads, IH, Hb.
  - apply call_reread; [apply IH, Hg|assumption|each IH Hl].
  - apply one_reread; [assumption|each IH Hl].
  - apply select_reread; [apply IH, He|assumption].
  - apply enrich_reread. each IH Hl.
  - apply comprehension_reads; [intros e E; apply IH, (Hy e E)|assumption|apply IH, Hc|assumption|].
    intros e E. apply IH, (Hp e E).
Qed.

(** ** Statements and programs *)
Lemma expr_top_yields e k r :
  printable e -> level_of (k :: r) = 0%nat -> yields parse_expr_top (toks e 0 ++ k :: r) e (k :: r).
Proof.
  intros He Hk ts H. unfold parse_expr_top. rewrite (kinds_length _ _ H).
  by apply readable_nested; [apply printable_readable|..].
Qed.
Lemma type_params_yields ts k r :
  ts <> [] -> yields (items_trailing KRBrack expect_ident)
    (tjoin (map (fun p => [KIdent p]) ts) ++ KRBrack :: k :: r) ts (k :: r).
Proof.
  intros Hne. eapply entries_trailing; [done| |apply le_n]. apply Forall_forall. intros x _. split; cbn [fst snd app].
  - by exists (KIdent x), [].
  - intros. apply expect_ident_yields.
Qed.
Lemma source_yields x kd ts k r :
  yields parse_source_decl (stmt_tokens (SSource x kd ts) ++ k :: r) (SSource x kd ts) (k :: r).
Proof.
  cbn [stmt_tokens app]. rewrite <- app_assoc. cbn [app]. unfold parse_source_decl. apply yields_advance.
  eapply yields_bind; [apply expect_ident_yields|]. eapply yields_bind; [apply expect_yields|].
  assert (exists k1 r1, (if bool_decide (ts = []) then []
     else KLBrack :: tjoin (map (fun p => [KIdent p]) ts) ++ [KRBrack]) ++ KSemi :: k :: r = k1 :: r1)
    as (k1 & r1 & E) by (case_bool_decide; by eexists _, _).
  rewrite E. eapply yields_bind; [apply expect_ident_yields|]. apply yields_pos. intros p.
  assert (forall q, (if bool_decide (source_kind_name kd = chars "Index") then Ok Index
     else if bool_decide (source_kind_name kd = chars "MultiIndex") then Ok MultiIndex
     else if bool_decide (source_kind_name kd = chars "Dataset") then Ok Dataset
     else q) = (Ok kd : result ParseFault SourceKind)) as Hkd by (by destruct kd).
  rewrite Hkd. apply yields_at. eapply (yields_bind _ (fun type_params ts =>
    let? '(_, ts) := expect KSemi ts in Ok (SSource x kd type_params, ts)) _ ts (KSemi :: k :: r)).
  - destruct (decide (ts = [])) as [Ht|Ht];
      [rewrite bool_decide_true in E by done|rewrite bool_decide_false in E by done];
      cbn [app] in E; injection E as <- <-.
    + subst ts. rewrite bool_decide_false by done. apply yields_ret.
    + rewrite bool_decide_true by done. cbn [app]. rewrite <- app_assoc.
      apply advance_then; [|apply app_cons_nonempty]. by apply type_params_yields.
  - eapply yields_bind; [apply expect_yields|apply yields_ret].
Qed.
Lemma stmt_yields s k r : printable_stmt s -> yields parse_stmt (stmt_tokens s ++ k :: r) s (k :: r).
Proof.
  unfold parse_stmt. intros [x e Hx He|e He Hs|x kd ts Hx Hts]; cbn [stmt_tokens].
  - cbn [app]. rewrite <- app_assoc. apply yields_peek. rewrite bool_decide_true by done. apply yields_advance.
    apply yields_at. rewrite bool_decide_false by done. eapply yields_bind; [apply expect_ident_yields|].
    eapply yields_bind; [apply expect_then, app_cons_nonempty|].
    eapply yields_bind; [by apply expr_top_yields|]. eapply yields_bind; [apply expect_yields|apply yields_ret].
  - rewrite <- app_assoc. cbn [app]. destruct (printable_starts e He) as [Hne Hcl _ _].
    assert (head (toks e 0) <> Some KLet) as Hlet by (apply Hcl; set_solver).
    destruct (toks e 0) as [|k0 ks0] eqn:E; [done|]. cbn [app]. apply yields_peek.
    rewrite !bool_decide_false by (intros ->; done). rewrite app_comm_cons, <- E.
    eapply yields_bind; [by apply expr_top_yields|]. eapply yields_bind; [apply expect_yields|apply yields_ret].
  - apply yields_peek. rewrite bool_decide_false, bool_decide_true by done. apply (source_yields x kd ts).
Qed.
Lemma stmt_head s k r : printable_stmt s -> exists k0 ks0, stmt_tokens s ++ k :: r = k0 :: ks0 /\ k0 <> KEof.
Proof.
  intros [x e Hx He|e He Hs|x kd ts Hx Hts]; cbn [stmt_tokens app]; [by eexists _, _| |by eexists _, _].
  destruct (printable_starts e He) as [Hne Hcl _ _]. destruct (toks e 0) as [|k0 ks0]; [done|].
  exists k0, ((ks0 ++ [KSemi]) ++ k :: r). split; [done|]. intros ->. apply (Hcl KEof); [set_solver|done].
Qed.
Definition program_tokens (p : Program) : list TokenKind := concat (map stmt_tokens (stmts p)) ++ [KEof].
Lemma program_reads fuel l ts :
  Forall printable_stmt l -> kinds ts = concat (map stmt_tokens l) ++ [KEof] -> (length ts <= fuel)%nat ->
  parse_program_n fuel ts = Ok {| stmts := l |}.
Proof.
  intros Hl. revert fuel ts. induction Hl as [|s l Hs Hl IH]; intros fuel ts H Hf.
  - destruct fuel; [rewrite (kinds_length _ _ H) in Hf; cbn in Hf; lia|]. cbn [parse_program_n].
    apply kinds_cons in H as (t & ts' & -> & Ht & _). cbn [at_kind peek]. by rewrite Ht.
  - cbn [map concat] in H. rewrite <- app_assoc in H.
    assert (exists k r, concat (map stmt_tokens l) ++ [KEof] = k :: r) as (k & r & E)
      by (destruct (concat _); by eexists _, _).
    rewrite E in H. destruct (stmt_head s k r Hs) as (k0 & ks0 & E0 & Hk0).
    pose proof (kinds_length _ _ H) as HL. rewrite length_app in HL.
    assert (length (stmt_tokens s) <> 0%nat) as Hs0.
    { destruct Hs as [| e He |]; cbn; try lia. rewrite length_app. cbn. lia. }
    destruct fuel as [|fuel]; [cbn in HL; lia|]. cbn [parse_program_n].
    destruct (stmt_yields s k r Hs ts H) as (ts' & E1 & H1). pose proof (kinds_length _ _ H1).
    rewrite E0 in H. destruct (kinds_cons _ _ _ H) as (t & ts0 & -> & Ht & _).
    cbn [at_kind peek]. rewrite Ht, bool_decide_false, E1 by done. rewrite (IH fuel ts'); [done|congruence|lia].
Qed.
Lemma parse_program_tokens p ts :
  Forall printable_stmt (stmts p) -> kinds ts = program_tokens p -> parse ts = Ok p.
Proof. intros Hp H. unfold parse. destruct p as [l]. by apply program_reads. Qed.
End Forms.
