(* ===== verification/SdaFormatFacts.v ===== *)
(** * The text of the formatter is read as its tokens *)
From S2P Require Import Prelude SdaNumber SdaLexer SdaParser SdaFormat SdaPrint SdaReparse SdaNumberFacts SdaParseFacts.
Import ExactNum.

Section Relex.
Context {C : CharClass} {CL : CharLaws C} {B : BigNum} {BL : BigNumLaws B}.

(** The lexer reads the text [cs] as the tokens [ks]. *)
Definition Lexes (cs : text) (ks : list TokenKind) : Prop :=
  forall fuel total, (length cs <= fuel)%nat ->
  exists ts, lex_from fuel total cs = Ok ts /\ kinds ts = ks.
Lemma lexes_nil : Lexes [] [KEof].
Proof. intros fuel total _. destruct fuel; by eexists. Qed.
Lemma lexes_step c cs o rest ks :
  (forall start, lex_step start (c :: cs) = Ok (o, rest)) -> (length rest <= length cs)%nat ->
  Lexes rest ks -> Lexes (c :: cs) (match o with Some k => k :: ks | None => ks end).
Proof.
  intros Hs Hl H [|fuel] total Hf; cbn in Hf; [lia|]. cbn [lex_from]. rewrite Hs.
  destruct (H fuel total ltac:(lia)) as (ts & -> & Hk). destruct o; eexists; (split; [done|]); by rewrite <- Hk.
Qed.

(** ** Characters *)
Definition boundary_chars : list char := [10; 32; 33; 40; 41; 44; 58; 59; 60; 63; 91; 93; 123; 125].
(** What may follow a name or a number. *)
Definition boundary (cs : text) : bool :=
  match cs with [] => true | c :: _ => bool_decide (c ∈ boundary_chars) end.
Lemma boundary_cases c : c ∈ boundary_chars -> 0 <= c < 128 /\ ascii_letter c || is_ascii_digit c = false /\ c <> 95 /\ c <> 46.
Proof. unfold boundary_chars. rewrite !elem_of_cons, elem_of_nil. intros H. repeat destruct H as [->|H]; done. Qed.
Lemma boundary_word cs : boundary cs = true -> span is_word_char cs = ([], cs).
Proof.
  destruct cs as [|c cs]; [done|]. cbn. intros (H0 & H1 & H2 & H3)%bool_decide_eq_true%boundary_cases.
  unfold is_word_char. rewrite alphanumeric_ascii, H1 by done. cbn. by rewrite (proj2 (Z.eqb_neq _ _) H2).
Qed.
Lemma not_alphabetic c : 0 <= c < 128 -> ascii_letter c = false -> is_alphabetic c = false.
Proof. intros. by rewrite alphabetic_ascii. Qed.

Lemma lexes_space cs ks : Lexes cs ks -> Lexes (32 :: cs) ks.
Proof.
  intros H. apply (lexes_step _ _ None cs); [|done|done]. intros. cbn [lex_step]. by rewrite space_ascii by lia.
Qed.
Lemma lexes_newline cs ks : Lexes cs ks -> Lexes (10 :: cs) ks.
Proof.
  intros H. apply (lexes_step _ _ None cs); [|done|done]. intros. cbn [lex_step]. by rewrite space_ascii by lia.
Qed.

(** ASCII punctuation other than quotes, dots and underscores. *)
Definition punctuation (c : char) : bool :=
  (33 <=? c) && (c <? 127) && negb (ascii_letter c) && negb (is_ascii_digit c)
  && negb (c =? 46) && negb (c =? 34) && negb (c =? 95).
Lemma punctuation_step start c cs :
  punctuation c = true -> (c = 59 -> match cs with d :: _ => d <> 59 | [] => True end) ->
  lex_step start (c :: cs) =
  match scan_symbol (c :: cs) with
  | Some (k, n) => Ok (Some k, drop n (c :: cs))
  | None => Err (UnexpectedChar c start)
  end.
Proof.
  unfold punctuation. rewrite !andb_true_iff, !negb_true_iff, Z.leb_le, Z.ltb_lt.
  intros [[[[[[H1 H2] H3] H4] H5] H6] H7] Hc. cbn [lex_step]. rewrite space_ascii by lia.
  rewrite not_alphabetic by (done || lia). rewrite H4, H5, H6, H7.
  assert (ascii_space c = false) as -> by (unfold ascii_space; apply orb_false_iff; split; lia).
  assert ((c =? 59) && match cs with d :: _ => d =? 59 | [] => false end = false) as ->; [|done].
  destruct (c =? 59) eqn:E; [|done]. boolify. specialize (Hc ltac:(lia)). destruct cs; [done|]. cbn. lia.
Qed.
Lemma lexes_symbol1 c k cs ks :
  punctuation c = true -> symbol1 c = Some k ->
  match cs with d :: _ => symbol2 c d = None /\ (c = 59 -> d <> 59) | [] => True end ->
  Lexes cs ks -> Lexes (c :: cs) (k :: ks).
Proof.
  intros Hp Hk Hd H. apply (lexes_step _ _ (Some k) cs); [|done|done]. intros start.
  rewrite punctuation_step; [|done|destruct cs; [done|apply Hd]]. cbn [scan_symbol]. rewrite Hk.
  destruct cs as [|d cs]; [done|]. by destruct Hd as [-> _].
Qed.
Lemma lexes_symbol2 c d k cs ks :
  punctuation c = true -> c <> 59 -> symbol2 c d = Some k -> Lexes cs ks -> Lexes (c :: d :: cs) (k :: ks).
Proof.
  intros Hp Hc Hk H. apply (lexes_step _ _ (Some k) cs); [|cbn; lia|done]. intros start.
  rewrite punctuation_step by done. cbn [scan_symbol]. by rewrite Hk.
Qed.

(** ** Words *)
Lemma span_word w cs : forallb is_word_char w = true -> boundary cs = true -> span is_word_char (w ++ cs) = (w, cs).
Proof.
  intros Hw Hb. induction w as [|c w IH]; cbn [app]; [by apply boundary_word|].
  cbn in Hw. apply andb_true_iff in Hw as [Hc Hw]. cbn [span]. by rewrite Hc, IH.
Qed.
Lemma alphabetic_not c x : is_alphabetic c = true -> 0 <= x < 128 -> ascii_letter x = false -> c <> x.
Proof. intros H Hx Hl ->. rewrite alphabetic_ascii, Hl in H by done. done. Qed.
Lemma word_start c : is_alphabetic c || (c =? 95) = true ->
  is_whitespace c = false /\ (c =? 59) = false /\ is_ascii_digit c = false /\ (c =? 46) = false /\ (c =? 34) = false.
Proof.
  intros H. destruct (is_alphabetic c) eqn:Ha; cbn in H.
  - split; [by apply alphanumeric_not_space, alphabetic_alphanumeric|].
    assert (forall x, 0 <= x < 128 -> ascii_letter x = false -> (c =? x) = false) as N.
    { intros x Hx Hl. apply Z.eqb_neq. by eapply alphabetic_not. }
    split; [by apply N|]. split; [|by split; apply N].
    destruct (is_ascii_digit c) eqn:Hd; [|done]. apply is_digit_range in Hd.
    rewrite alphabetic_ascii in Ha by lia. unfold ascii_letter in Ha. lia.
  - apply Z.eqb_eq in H as ->. rewrite space_ascii by lia. done.
Qed.
Lemma lexes_word w cs ks :
  is_identifier w = true -> w <> [95] -> boundary cs = true -> Lexes cs ks ->
  Lexes (w ++ cs) (ident_kind w :: ks).
Proof.
  intros Hi Hw Hb H. destruct w as [|c w]; [done|]. cbn in Hi. apply andb_true_iff in Hi as [Hc Hr].
  destruct (word_start c Hc) as (N1 & N2 & N3 & N4 & N5).
  assert (is_word_char c = true).
  { unfold is_word_char. destruct (is_alphabetic c) eqn:Ha; cbn in Hc; [by rewrite alphabetic_alphanumeric|].
    rewrite Hc. apply orb_true_r. }
  assert (forallb is_word_char (c :: w) = true) as Hall by (cbn; by rewrite H0).
  cbn [app]. apply (lexes_step _ _ (Some (ident_kind (c :: w))) cs); [|rewrite length_app; lia|done].
  intros start. cbn [lex_step]. rewrite N1, N2, N3, N4, N5, Hc. cbn [andb orb].
  replace ((c =? 95) && _) with false; [|symmetry].
  - change (c :: w ++ cs) with ((c :: w) ++ cs). by rewrite span_word.
  - destruct (c =? 95) eqn:E; [|done]. apply Z.eqb_eq in E as ->. destruct w as [|d w]; [done|].
    cbn in Hall. apply andb_true_iff in Hall as [_ [Hd _]%andb_true_iff]. cbn. by rewrite Hd.
Qed.
Lemma lexes_placeholder cs ks : boundary cs = true -> Lexes cs ks -> Lexes (95 :: cs) (KPlaceholder :: ks).
Proof.
  intros Hb H. destruct (word_start 95) as (N1 & N2 & N3 & N4 & N5); [apply orb_true_r|].
  apply (lexes_step _ _ (Some KPlaceholder) cs); [|lia|done]. intros start. cbn [lex_step].
  rewrite N1, orb_true_r. cbn. pose proof (boundary_word cs Hb) as Hs.
  destruct cs as [|d cs]; [done|]. cbn [span] in Hs. destruct (is_word_char d); [|done]. by destruct span.
Qed.
Lemma ascii_identifier w : w <> [] -> forallb ascii_letter w = true -> is_identifier w = true.
Proof.
  intros Hne Hw. assert (forall c, ascii_letter c = true -> is_alphabetic c = true) as Ha.
  { intros c Hc. rewrite alphabetic_ascii; [done|]. unfold ascii_letter in Hc. lia. }
  destruct w as [|c w]; [done|]. cbn in *. apply andb_true_iff in Hw as [Hc Hw]. rewrite Ha by done. cbn.
  eapply forallb_weaken; [|exact Hw]. intros d Hd. cbn. by rewrite alphabetic_alphanumeric by by apply Ha.
Qed.
Lemma lexes_keyword (s : string) cs ks :
  forallb ascii_letter (chars s) = true -> chars s <> [] -> boundary cs = true -> Lexes cs ks ->
  Lexes (chars s ++ cs) (ident_kind (chars s) :: ks).
Proof.
  intros Hs Hne Hb H. apply lexes_word; [by apply ascii_identifier| |done|done].
  intros E. rewrite E in Hs. done.
Qed.

(** ** Strings and numbers *)
Lemma scan_formatted v cs : scan_string (concat (map format_string_char v) ++ 34 :: cs) = Some (v, cs).
Proof.
  induction v as [|c v IH]; [done|]. cbn [map concat]. unfold format_string_char at 1.
  destruct (c =? 92) eqn:E1; [|destruct (c =? 34) eqn:E2; [|destruct (c =? 10) eqn:E3;
    [|destruct (c =? 13) eqn:E4; [|destruct (c =? 9) eqn:E5]]]];
    try (match goal with E : (c =? _) = true |- _ => apply Z.eqb_eq in E as -> end);
    cbn [app]; rewrite scan_string_cons; rewrite ?E1, ?E2; cbn; by rewrite IH.
Qed.
Lemma lexes_string v cs ks : Lexes cs ks -> Lexes (format_string v ++ cs) (KStr v :: ks).
Proof.
  intros H. unfold format_string. rewrite <- !app_assoc. cbn [app].
  apply (lexes_step _ _ (Some (KStr v)) cs); [|rewrite length_app; cbn; lia|done].
  intros start. cbn [lex_step]. rewrite space_ascii by lia. cbn. by rewrite scan_formatted.
Qed.

Lemma num_text n :
  num_ok n -> exists int_part frac, canonical_string n = decimal_text false int_part frac /\ int_part <> [] /\
    forallb is_ascii_digit int_part = true /\ forallb is_ascii_digit (frac_digits frac) = true /\
    parse_literal (canonical_string n) = Ok n.
Proof.
  intros (Hr & Hn & k & Hk & Hd). assert ((numer n <? 0) = false) as Hs by lia.
  destruct (decide (k = 0)) as [-> |Hk0].
  - pose proof (integer_text n Hr Hd) as Hp.
    assert (canonical_string n = big_to_string (numer n)) as E0.
    { unfold canonical_string, finite_decimal_string. by rewrite Hd. }
    destruct (big_text (numer n)) as (ds & E & D1 & D2 & D3). rewrite Hs in E. rewrite E0, E in *.
    exists ds, None. by rewrite parse_canonical_decimal in Hp.
  - assert (denom n = 2 ^ k * 5 ^ k) as Hd2 by (rewrite Hd, <- Z.pow_mul_l; done).
    destruct (finite_decimal_shape n k k) as (i & fr & E & I1 & I2 & I3 & I4 & I5); [done|lia|lia|done|lia|].
    rewrite Hs in E. pose proof (decimal_printed n k k Hr ltac:(lia) ltac:(lia) Hd2 ltac:(lia)) as Hp.
    unfold canonical_string in *. rewrite E in *. exists i, (Some fr). rewrite parse_canonical_decimal in Hp by done.
    do 4 (split; [done|]). rewrite Hp, Hs. f_equal. unfold printed_numerator.
    rewrite Z.max_id, Z.sub_diag, <- Hd, Z.abs_eq by lia. rewrite <- (ratio_new_self n) at 3 by done. f_equal. lia.
Qed.
Lemma span_decimal int_part frac cs :
  forallb is_ascii_digit int_part = true -> forallb is_ascii_digit (frac_digits frac) = true -> boundary cs = true ->
  scan_number (decimal_text false int_part frac ++ cs) = (decimal_text false int_part frac, cs).
Proof.
  intros Hi Hf Hb. unfold scan_number.
  assert (forallb (fun c => is_ascii_digit c || (c =? 46)) (decimal_text false int_part frac) = true) as Hall.
  { unfold decimal_text. cbn [app]. rewrite forallb_app. apply andb_true_iff. split.
    - eapply forallb_weaken; [|exact Hi]. intros c ->. done.
    - destruct frac; [|done]. cbn in *. eapply forallb_weaken; [|exact Hf]. intros c ->. done. }
  assert (span (fun c => is_ascii_digit c || (c =? 46)) (decimal_text false int_part frac ++ cs)
    = (decimal_text false int_part frac, cs)) as ->.
  { revert Hall. generalize (decimal_text false int_part frac). intros w Hw. induction w as [|c w IH]; cbn [app span].
    - destruct cs as [|c cs]; [done|]. cbn in Hb. apply bool_decide_eq_true, boundary_cases in Hb as (H0 & H1 & _ & H3).
      cbn. apply orb_false_iff in H1 as [_ H1]. rewrite H1, (proj2 (Z.eqb_neq c 46)) by done. done.
    - cbn in Hw. apply andb_true_iff in Hw as [-> Hw]. by rewrite IH. }
  destruct cs as [|c cs]; [done|]. cbn in Hb. apply bool_decide_eq_true in Hb.
  assert ((c =? 101) || (c =? 69) = false) as ->; [|done].
  apply boundary_cases in Hb as (_ & [H1 _]%orb_false_iff & _). unfold ascii_letter in H1. lia.
Qed.
Lemma lexes_number n cs ks : num_ok n -> boundary cs = true -> Lexes cs ks -> Lexes (canonical_string n ++ cs) (KNum n :: ks).
Proof.
  intros Hn Hb H. destruct (num_text n Hn) as (i & fr & E & I1 & I2 & I3 & I4). rewrite E in *.
  destruct (decimal_text false i fr ++ cs) as [|c t] eqn:Et; [by destruct i|].
  assert (is_ascii_digit c = true) as Hc.
  { destruct i as [|d i]; [done|]. cbn in Et, I2. injection Et as <- _. by apply andb_true_iff in I2 as [-> _]. }
  apply (lexes_step _ _ (Some (KNum n)) cs); [| |done].
  - intros start. cbn [lex_step]. pose proof Hc as Hr. apply is_digit_range in Hr. rewrite space_ascii by lia.
    rewrite <- Et, Hc, span_decimal, I4 by done.
    assert (ascii_space c = false) as -> by (unfold ascii_space; apply orb_false_iff; split; lia).
    rewrite (proj2 (Z.eqb_neq c 59)) by lia. done.
  - assert (length (decimal_text false i fr ++ cs) = S (length t)) as Hl by by rewrite Et.
    rewrite length_app in Hl. destruct i; [done|]. cbn in Hl. lia.
Qed.
End Relex.

(** * Formatting and reading back

    The text of the formatter is read as the program that was formatted, for every
    program in the fragment [printable]; outside of it the formatter changes the
    meaning of programs, as the examples at the end show. *)
From S2P Require Import SdaValue SdaEval SdaTermination.

Section Prints.
Context {C : CharClass} {CL : CharLaws C} {B : BigNum} {BL : BigNumLaws B}.

(** A text that is read as [ks] before any text, or before a boundary. *)
Definition frees (t : text) (ks : list TokenKind) : Prop :=
  forall rest kr, Lexes rest kr -> Lexes (t ++ rest) (ks ++ kr).
Definition prints (t : text) (ks : list TokenKind) : Prop :=
  forall rest kr, boundary rest = true -> Lexes rest kr -> Lexes (t ++ rest) (ks ++ kr).
Definition bounded (t : text) : Prop := forall rest, boundary (t ++ rest) = true.

Lemma frees_prints t ks : frees t ks -> prints t ks.
Proof. intros H rest kr _. apply H. Qed.
Lemma frees_app t1 t2 k1 k2 : frees t1 k1 -> frees t2 k2 -> frees (t1 ++ t2) (k1 ++ k2).
Proof. intros H1 H2 rest kr H. rewrite <- !app_assoc. by apply H1, H2. Qed.
Lemma free_then t1 t2 k1 k2 : frees t1 k1 -> prints t2 k2 -> prints (t1 ++ t2) (k1 ++ k2).
Proof. intros H1 H2 rest kr Hb H. rewrite <- !app_assoc. by apply H1, H2. Qed.
Lemma prints_then t1 t2 k1 k2 : prints t1 k1 -> bounded t2 -> prints t2 k2 -> prints (t1 ++ t2) (k1 ++ k2).
Proof. intros H1 Hb2 H2 rest kr Hb H. rewrite <- !app_assoc. by apply H1, H2. Qed.
Lemma prints_then_free t1 t2 k1 k2 : prints t1 k1 -> bounded t2 -> frees t2 k2 -> frees (t1 ++ t2) (k1 ++ k2).
Proof. intros H1 Hb2 H2 rest kr H. rewrite <- !app_assoc. by apply H1, H2. Qed.
Lemma bounded_app t1 t2 : bounded t1 -> bounded (t1 ++ t2).
Proof. intros H rest. rewrite <- app_assoc. apply H. Qed.
Lemma word_prints n : ident_ok n -> prints n [KIdent n].
Proof. intros (H1 & H2 & H3) rest kr Hb H. rewrite <- H3. by apply lexes_word. Qed.

(** ** Literals of the formatter *)
Ltac lits := repeat match goal with
  | |- context [chars ?s] => let v := eval vm_compute in (chars s) in change (chars s) with v end.
Ltac lex_literal := cbn [app];
  lazymatch goal with
  | H : Lexes ?r ?k |- Lexes ?r ?k => exact H
  | |- Lexes (32 :: _) _ => apply lexes_space; lex_literal
  | |- Lexes (10 :: _) _ => apply lexes_newline; lex_literal
  | |- Lexes (_ :: ?t) _ =>
      first
        [ apply lexes_symbol2; [reflexivity|discriminate|reflexivity|lex_literal]
        | apply lexes_symbol1; [reflexivity|reflexivity| |lex_literal];
          first [split; [reflexivity|discriminate]|destruct t; [exact I|split; [reflexivity|discriminate]]] ]
  end.
Tactic Notation "literal" :=
  let rest := fresh "rest" in let kr := fresh "kr" in let HL := fresh "HL" in
  intros rest kr HL; lits; lex_literal.
Tactic Notation "literal" constr(w) :=
  let rest := fresh "rest" in let kr := fresh "kr" in let HL := fresh "HL" in
  intros rest kr HL; lits; cbn [app]; repeat apply lexes_space; apply (lexes_keyword w); [reflexivity|discriminate|reflexivity|lex_literal].
Ltac bounded := let rest := fresh in intros rest; reflexivity.

Lemma op_literal op : frees (chars " " ++ format_binop op ++ chars " ") [op_token op].
Proof.
  destruct op; unfold format_binop; cbn [op_token]; first [literal | literal "and" | literal "or" | literal "union" | literal "inter" | literal "diff"
  | literal "bunion" | literal "bdiff" | literal "in"]. Qed.
Lemma lit_comma : frees (chars ", ") [KComma].
Proof. literal. Qed.
Lemma wrap_prints t ks p m : prints t ks -> prints (wrap_if_needed t p m) (wrap_tokens ks p m).
Proof.
  intros H. unfold wrap_if_needed, wrap_tokens. destruct (p <? m); [|done].
  apply (free_then [40] _ [KLParen]); [literal|]. apply prints_then; [done|bounded|]. apply frees_prints. literal.
Qed.
Lemma join_prints {A} (fmt : A -> text) (tk : A -> list TokenKind) l :
  Forall (fun a => prints (fmt a) (tk a)) l ->
  prints (join (chars ", ") (map fmt l)) (tjoin (map tk l)).
Proof.
  induction 1 as [|a l Ha Hl IH]; [by intros rest kr _ H|]. destruct l as [|b l]; [done|].
  change (join (chars ", ") (map fmt (a :: b :: l))) with (fmt a ++ chars ", " ++ join (chars ", ") (map fmt (b :: l))).
  change (tjoin (map tk (a :: b :: l))) with (tk a ++ [KComma] ++ tjoin (map tk (b :: l))).
  apply prints_then; [done|by apply bounded_app; bounded|]. by apply free_then; [apply lit_comma|].
Qed.
(** A text between two literals. *)
Lemma between o c t ko kc ks :
  frees o ko -> prints t ks -> bounded c -> frees c kc -> frees (o ++ t ++ c) (ko ++ ks ++ kc).
Proof. intros Ho Ht Hb Hc. apply frees_app; [done|]. by apply prints_then_free. Qed.

(** ** Forms *)
Definition printed (e : Expr) : Prop := forall m, prints (format_expr e m) (toks e m).
Lemma str_prints s : frees (format_string s) [KStr s].
Proof. intros rest kr H. by apply lexes_string. Qed.
Lemma key_prints key : (is_identifier key = true -> ident_ok key) -> prints (format_selector_key key) [key_token key].
Proof.
  intros H. unfold format_selector_key, key_token. destruct is_identifier; [by apply word_prints, H|].
  apply frees_prints, str_prints.
Qed.
Lemma atom_prints e :
  printable e -> match e with ENull | EBool _ | ENum _ | EStr _ | EBytes _ | EIdent _ | EPlaceholder | ENone => True | _ => False end ->
  printed e.
Proof.
  intros He Ha m. destruct He; try done; cbn [format_expr toks].
  - intros rest kr Hb HL. by apply (lexes_keyword "null").
  - destruct b; intros rest kr Hb HL; [by apply (lexes_keyword "true")|by apply (lexes_keyword "false")].
  - intros rest kr Hb HL. by apply lexes_number.
  - apply frees_prints, str_prints.
  - apply frees_prints, (between (chars "Bytes(") (chars ")") _ [KBytes; KLParen] [KRParen] [KStr _]);
      [literal "Bytes"|apply frees_prints, str_prints|bounded|literal].
  - rewrite ident_ok_tokens by done. by apply word_prints.
  - intros rest kr Hb HL. by apply lexes_placeholder.
  - intros rest kr Hb HL. by apply (lexes_keyword "None").
Qed.
Lemma list_prints l :
  Forall printed l -> printed (ESeq l) /\ printed (ESet l) /\ printed (EBag l).
Proof.
  intros Hl. assert (prints (join (chars ", ") (map (fun item => format_expr item 0) l)) (tjoin (map (fun item => toks item 0) l))) as H.
  { apply join_prints. eapply Forall_impl; [exact Hl|]. intros e He. apply He. }
  split; [|split]; intros m; cbn [format_expr toks]; apply frees_prints.
  - apply (between _ _ _ [KSeq; KLBrack]); [literal "Seq"|done|bounded|literal].
  - apply (between _ _ _ [KSet; KLBrace]); [literal "Set"|done|bounded|literal].
  - apply (between _ _ _ [KBag; KLBrace]); [literal "Bag"|done|bounded|literal].
Qed.
(** A key, a separator and a value. *)
Lemma pair_prints k sep e kk ks :
  prints k kk -> bounded sep -> frees sep ks -> printed e ->
  prints (k ++ sep ++ format_expr e 0) (kk ++ ks ++ toks e 0).
Proof. intros Hk Hb Hs He. apply prints_then; [done|by apply bounded_app|]. by apply free_then. Qed.
Lemma fields_prints l :
  Forall (fun p => ident_ok (fst p) /\ printed (snd p)) l ->
  prints (join (chars ", ") (map (fun '(name, value) => name ++ chars ": " ++ format_expr value 0) l))
    (tjoin (map (fun '(name, value) => KIdent name :: KColon :: toks value 0) l)).
Proof.
  intros Hl. apply join_prints. eapply Forall_impl; [exact Hl|]. intros [n e] [Hn He]. cbn [fst snd] in *.
  apply (pair_prints n (chars ": ") e [KIdent n] [KColon]); [by apply word_prints|bounded|literal|done].
Qed.
Lemma record_prints l :
  Forall (fun p => ident_ok (fst p) /\ printed (snd p)) l -> printed (EProd l) /\ printed (EEnrich l).
Proof.
  intros Hl%fields_prints. split; intros m; cbn [format_expr toks]; apply frees_prints.
  - apply (between _ _ _ [KProd; KLBrace]); [literal "Prod"|done|bounded|literal].
  - apply (between _ _ _ [KIdent (chars "enrich"); KLBrace]); [|done|bounded|literal].
    intros rest kr HL. change (chars "enrich {") with (chars "enrich" ++ [32; 123]). rewrite <- app_assoc.
    apply (lexes_keyword "enrich"); [reflexivity|discriminate|reflexivity|lex_literal].
Qed.
Lemma map_prints l : Forall (fun p => printed (snd p)) l -> printed (EMap l).
Proof.
  intros Hl m. cbn [format_expr toks]. apply frees_prints.
  apply (between _ _ _ [KMap; KLBrace]); [literal "Map"| |bounded|literal].
  apply join_prints. eapply Forall_impl; [exact Hl|]. intros [k e] He. cbn [snd] in *.
  apply (pair_prints _ (chars " -> ") e [KStr k] [KArrow]); [apply frees_prints, str_prints|bounded|literal|done].
Qed.
Lemma bagkv_prints l :
  Forall (fun p => (is_identifier (fst p) = true -> ident_ok (fst p)) /\ printed (snd p)) l -> printed (EBagKV l).
Proof.
  intros Hl m. cbn [format_expr toks]. apply frees_prints.
  apply (between _ _ _ [KBagKV; KLBrace]); [literal "BagKV"| |bounded|literal].
  apply join_prints. eapply Forall_impl; [exact Hl|]. intros [k e] [Hk He]. cbn [fst snd] in *.
  apply (pair_prints _ (chars " -> ") e [key_token k] [KArrow]); [by apply key_prints|bounded|literal|done].
Qed.
Lemma some_prints e : printed e -> printed (ESome e) /\ printed (EOk e).
Proof.
  intros He. split; intros m; cbn [format_expr toks]; apply frees_prints;
    [apply (between _ _ _ [KSome; KLParen]); [literal "Some"|apply He|bounded|literal]
    |apply (between _ _ _ [KOk; KLParen]); [literal "Ok"|apply He|bounded|literal]].
Qed.
Lemma fail_prints c e : printed c -> printed e -> printed (EFail c e).
Proof.
  intros Hc He m. cbn [format_expr toks]. apply frees_prints.
  apply (frees_app _ _ [KFail; KLParen]); [literal "Fail"|].
  apply prints_then_free; [apply Hc|apply bounded_app; bounded|].
  apply (between _ _ _ [KComma]); [literal|apply He|bounded|literal].
Qed.
Lemma binop_prints op l r : printed l -> printed r -> printed (EBinOp op l r).
Proof.
  intros Hl Hr m. cbn [format_expr toks]. apply wrap_prints.
  replace (format_expr l (precedence (EBinOp op l r)) ++ chars " " ++ format_binop op ++ chars " " ++
    format_expr r (if is_right_sensitive_binary op then precedence (EBinOp op l r) + 1 else precedence (EBinOp op l r)))
    with (format_expr l (precedence (EBinOp op l r)) ++ (chars " " ++ format_binop op ++ chars " ") ++
    format_expr r (if is_right_sensitive_binary op then precedence (EBinOp op l r) + 1 else precedence (EBinOp op l r)))
    by by rewrite <- !app_assoc.
  apply prints_then; [apply Hl|apply bounded_app; bounded|].
  apply (free_then _ _ [op_token op]); [apply op_literal|apply Hr].
Qed.
Lemma pipe_prints l r : printed l -> printed r -> printed (EPipe l r).
Proof.
  intros Hl Hr m. cbn [format_expr toks]. apply wrap_prints.
  apply prints_then; [apply Hl|apply bounded_app; bounded|].
  apply (free_then _ _ [KPipe]); [literal|apply Hr].
Qed.
Lemma lambda_prints n b : ident_ok n -> printed b -> printed (ELambda n b).
Proof.
  intros Hn Hb m. cbn [format_expr toks]. apply wrap_prints.
  apply (prints_then n _ [KIdent n]); [by apply word_prints|apply bounded_app; bounded|].
  apply (free_then _ _ [KFatArrow]); [literal|apply Hb].
Qed.
Lemma args_prints l :
  Forall printed l ->
  frees (chars "(" ++ join (chars ", ") (map (fun item => format_expr item 0) l) ++ chars ")")
    (KLParen :: tjoin (map (fun item => toks item 0) l) ++ [KRParen]).
Proof.
  intros Hl. apply (between _ _ _ [KLParen]); [literal| |bounded|literal].
  apply join_prints. eapply Forall_impl; [exact Hl|]. intros e He. apply He.
Qed.
Lemma call_prints f l : printed f -> Forall printed l -> printed (ECall f l).
Proof.
  intros Hf Hl m. cbn [format_expr toks]. apply wrap_prints.
  apply prints_then; [apply Hf|bounded|]. by apply frees_prints, args_prints.
Qed.
Lemma symbol_prints c k :
  punctuation c = true -> c <> 59 -> symbol1 c = Some k -> prints [c] [k].
Proof.
  intros Hp Hc Hk rest kr Hb HL. apply lexes_symbol1; [done|done| |done]. destruct rest as [|d rest]; [done|].
  split; [|done]. cbn in Hb. apply bool_decide_eq_true in Hb. unfold boundary_chars in Hb.
  rewrite !elem_of_cons, elem_of_nil in Hb. unfold symbol2.
  repeat destruct Hb as [-> |Hb]; cbn; rewrite ?andb_false_r; done.
Qed.
Lemma one_prints n l : n ∈ [chars "one?"; chars "one!"] -> Forall printed l -> printed (ECall (EIdent n) l).
Proof.
  intros Hn Hl. apply call_prints; [|done]. intros m. cbn [format_expr toks].
  rewrite !elem_of_cons, elem_of_nil in Hn. intros rest kr Hb HL.
  destruct Hn as [-> |[-> |[]]];
    [change (chars "one?" ++ rest) with (chars "one" ++ 63 :: rest)|change (chars "one!" ++ rest) with (chars "one" ++ 33 :: rest)];
    (apply (lexes_keyword "one"); [reflexivity|discriminate|reflexivity|]).
  - by apply (symbol_prints 63 KQMark).
  - by apply (symbol_prints 33 KBang).
Qed.
Lemma select_prints e s mode : printed e -> printed (ESelect e s mode).
Proof.
  intros He m. cbn [format_expr toks]. apply wrap_prints. apply prints_then; [apply He|bounded|].
  assert (prints [62] [KGt]) as Hg by (by apply symbol_prints).
  assert (prints (chars ">" ++ mode_suffix mode) (KGt :: mode_tokens mode)) as Hm.
  { destruct mode; [done| |];
      (apply (prints_then [62] _ [KGt]); [done|bounded|by apply symbol_prints]). }
  intros rest kr Hb HL. rewrite <- !app_assoc. change (chars "<") with [60]. cbn [app].
  apply lexes_symbol1; [done|done|by split|]. apply lexes_string. rewrite app_assoc. by apply Hm.
Qed.

(** The texts of expressions do not start with [>]. *)
Definition not_greater (t : text) : Prop := exists c t', t = c :: t' /\ c <> 62.
Lemma wrap_first t p m : not_greater t -> not_greater (wrap_if_needed t p m).
Proof. intros Ht. unfold wrap_if_needed. destruct (p <? m); [by eexists _, _|done]. Qed.
Lemma app_first t u : not_greater t -> not_greater (t ++ u).
Proof. intros (c & t' & -> & Hc). by eexists _, _. Qed.
Lemma ident_first n : is_identifier n = true -> not_greater n.
Proof.
  destruct n as [|c t]; [done|]. cbn. intros [Hc _]%andb_true_iff. exists c, t. split; [done|]. intros ->.
  rewrite alphabetic_ascii in Hc by lia. done.
Qed.
Lemma number_first n : num_ok n -> not_greater (ExactNum.canonical_string n).
Proof.
  intros (i & fr & -> & I1 & I2 & _)%num_text. destruct i as [|c i]; [done|]. eexists _, _. split; [done|].
  cbn in I2. apply andb_true_iff in I2 as [Hc%is_digit_range _]. lia.
Qed.
Lemma expr_first e : printable e -> forall m, not_greater (format_expr e m).
Proof.
  induction 1; intros min; try (by eexists _, _); cbn [format_expr]; try (apply wrap_first; try by apply app_first).
  - destruct b; by eexists _, _.
  - by apply number_first.
  - destruct H as [H _]. by apply ident_first.
  - by eexists _, _.
  - by eexists _, _.
  - apply app_first, ident_first. by destruct H.
  - apply app_first. rewrite !elem_of_cons, elem_of_nil in H. destruct H as [-> |[-> |[]]]; by eexists _, _.
Qed.
Lemma neg_prints e : printable e -> printed e -> printed (EUnOp Neg e).
Proof.
  intros Pe He m. cbn [format_expr toks]. apply wrap_prints. intros rest kr Hb HL.
  destruct (expr_first e Pe (precedence (EUnOp Neg e))) as (c & t & E & Hc). rewrite <- app_assoc.
  change (chars "-") with [45]. cbn [app]. apply lexes_symbol1; [done|done| |by apply He].
  rewrite E. cbn. unfold symbol2. cbn. rewrite (proj2 (Z.eqb_neq c 62)) by done. done.
Qed.
Lemma not_prints e : printed e -> printed (EUnOp Not e).
Proof.
  intros He m. cbn [format_expr toks]. apply wrap_prints.
  apply (free_then (chars "not ") _ [KNot]); [literal "not"|apply He].
Qed.
Lemma comprehension_prints y b c p :
  (forall e, y = Some e -> printed e) -> ident_ok b -> printed c -> (forall e, p = Some e -> printed e) ->
  printed (EComprehension y b c p).
Proof.
  intros Hy Hb Hc Hp m. cbn [format_expr toks]. apply frees_prints.
  apply (frees_app (chars "{") _ [KLBrace]); [literal|]. apply frees_app.
  - destruct y as [y|]; [|literal].
    apply (between (chars " yield ") (chars " | ") _ [KYield] [KBar]); [literal "yield"|by apply Hy|bounded|literal].
  - apply (prints_then_free b _ [KIdent b]); [by apply word_prints|apply bounded_app; bounded|].
    apply (frees_app (chars " in ") _ [KIn]); [literal "in"|].
    apply prints_then_free; [apply Hc|destruct p; [apply bounded_app|]; bounded|].
    destruct p as [p|]; [|literal].
    rewrite <- app_assoc. apply (between (chars " | ") (chars " }") _ [KBar] [KRBrace]); [literal|by apply Hp|bounded|literal].
Qed.

Ltac each IH Hl := let x := fresh in let Hx := fresh in let IHl := fresh in
  induction Hl as [|x ? Hx ? IHl]; constructor; [|exact IHl];
  first [exact (IH _ Hx)|destruct Hx as [? Hx]; split; [assumption|exact (IH _ Hx)]].
Lemma printable_printed : forall e, printable e -> printed e.
Proof.
  fix IH 2. intros e He. pose proof (atom_prints e He) as Ha.
  destruct He as [|b|n Hn|s|b|n Hn| |l Hl|l Hl|l Hl|l Hl|l Hl|l Hl|e He| |e He|c m Hc Hm|op l r Hl Hr Sl Sr
    |e He Se|e He|l r Hl Hr Sl|p b Hp Hb|g l Hg Sg Hl|n l Hn Hl|e s m He Se|l Hl|y b c p Hy Hb Hc H7 Hp];
    try exact (Ha I); clear Ha.
  - apply list_prints. each IH Hl.
  - apply list_prints. each IH Hl.
  - apply list_prints. each IH Hl.
  - apply map_prints. each IH Hl.
  - apply record_prints. each IH Hl.
  - apply bagkv_prints. each IH Hl.
  - apply some_prints, IH, He.
  - apply some_prints, IH, He.
  - apply fail_prints; apply IH; assumption.
  - apply binop_prints; apply IH; assumption.
  - apply neg_prints; [exact He|apply IH, He].
  - apply not_prints, IH, He.
  - apply pipe_prints; apply IH; assumption.
  - apply lambda_prints; [exact Hp|apply IH, Hb].
  - apply call_prints; [apply IH, Hg|each IH Hl].
  - apply one_prints; [exact Hn|each IH Hl].
  - apply select_prints, IH, He.
  - apply record_prints. each IH Hl.
  - apply comprehension_prints; [intros e E; apply IH, (Hy e E)|exact Hb|apply IH, Hc|].
    intros e E. apply IH, (Hp e E).
Qed.

(** ** Statements and programs *)
(** A statement without its semicolon. *)
Definition stmt_body (s : Stmt) : text :=
  match s with
  | SLet name e => chars "let " ++ name ++ chars " = " ++ format_expr e 0
  | SExpr e => format_expr e 0
  | SSource name k params =>
      chars "source " ++ name ++ chars " : " ++ source_kind_name k ++
      (if bool_decide (params = []) then [] else chars "[" ++ join (chars ", ") params ++ chars "]")
  end.
Lemma format_stmt_body s : format_stmt s = stmt_body s ++ [59; 10].
Proof. destruct s; cbn [format_stmt stmt_body]; by rewrite <- ?app_assoc. Qed.
Lemma kind_prints k : prints (source_kind_name k) [KIdent (source_kind_name k)].
Proof. destruct k; intros rest kr Hb HL; [by apply (lexes_keyword "Index")|by apply (lexes_keyword "MultiIndex")|by apply (lexes_keyword "Dataset")]. Qed.
Lemma params_prints ts :
  Forall ident_ok ts ->
  prints (if bool_decide (ts = []) then [] else chars "[" ++ join (chars ", ") ts ++ chars "]")
    (if bool_decide (ts = []) then [] else KLBrack :: tjoin (map (fun p => [KIdent p]) ts) ++ [KRBrack]).
Proof.
  intros Hts. case_bool_decide; [by intros rest kr _ HL|]. apply frees_prints.
  apply (between _ _ _ [KLBrack]); [literal| |bounded|literal].
  rewrite <- (map_id ts) at 1. apply join_prints. eapply Forall_impl; [exact Hts|]. apply word_prints.
Qed.
Lemma body_prints s :
  printable_stmt s -> exists ks, stmt_tokens s = ks ++ [KSemi] /\ prints (stmt_body s) ks.
Proof.
  intros [x e Hx He|e He _|x k ts Hx Hts]; cbn [stmt_tokens stmt_body].
  - exists (KLet :: KIdent x :: KEq :: toks e 0). split; [done|].
    apply (free_then _ _ [KLet]); [literal "let"|]. apply (pair_prints x (chars " = ") e [KIdent x] [KEq]);
      [by apply word_prints|bounded|literal|by apply printable_printed].
  - exists (toks e 0). split; [done|by apply printable_printed].
  - exists (KIdent (chars "source") :: KIdent x :: KColon :: KIdent (source_kind_name k) ::
      (if bool_decide (ts = []) then [] else KLBrack :: tjoin (map (fun p => [KIdent p]) ts) ++ [KRBrack])).
    split; [done|].
    apply (free_then (chars "source ") _ [KIdent (chars "source")]).
    { intros rest kr HL. change (chars "source " ++ rest) with (chars "source" ++ 32 :: rest).
      apply (lexes_keyword "source"); [reflexivity|discriminate|reflexivity|lex_literal]. }
    apply (prints_then x _ [KIdent x]); [by apply word_prints|apply bounded_app; bounded|].
    apply (free_then (chars " : ") _ [KColon]); [literal|].
    destruct (decide (ts = [])) as [-> |Ht].
    + rewrite bool_decide_true, app_nil_r by done. apply kind_prints.
    + pose proof (params_prints ts Hts) as Hp. rewrite bool_decide_false in * by done.
      apply (prints_then _ _ [KIdent (source_kind_name k)]); [apply kind_prints|bounded|exact Hp].
Qed.
Lemma stmt_lexes s rest kr :
  printable_stmt s -> match rest with c :: _ => c <> 59 | [] => True end -> Lexes rest kr ->
  Lexes (stmt_body s ++ 59 :: rest) (stmt_tokens s ++ kr).
Proof.
  intros (ks & -> & Hp)%body_prints Hr HL. rewrite <- app_assoc. apply Hp; [done|].
  apply (lexes_symbol1 59 KSemi); [done|done| |done]. destruct rest; [done|]. by split.
Qed.

(** The text of a program without its last line end. *)
Fixpoint trimmed (l : list Stmt) : text :=
  match l with
  | [] => []
  | s :: l' => stmt_body s ++ 59 :: match l' with [] => [] | _ => 10 :: trimmed l' end
  end.
Lemma trimmed_lexes l :
  l <> [] -> Forall printable_stmt l -> Lexes (trimmed l) (concat (map stmt_tokens l) ++ [KEof]).
Proof.
  intros Hne Hl. induction Hl as [|s l Hs Hl IH]; [done|]. cbn [trimmed map concat]. rewrite <- app_assoc.
  apply stmt_lexes; [done|by destruct l|]. destruct l as [|s' l]; [apply lexes_nil|].
  by apply lexes_newline, IH.
Qed.
Lemma trimmed_text l : l <> [] -> exists t, trimmed l = t ++ [59] /\ concat (map format_stmt l) = (t ++ [59]) ++ [10].
Proof.
  induction l as [|s l IH]; [done|]. intros _. cbn [trimmed map concat]. rewrite format_stmt_body, <- !app_assoc.
  destruct l as [|s' l]; [exists (stmt_body s); by rewrite <- ?app_assoc|].
  destruct IH as (t & Et & Ef); [done|]. exists (stmt_body s ++ 59 :: 10 :: t).
  rewrite Et, Ef. split; by rewrite <- ?app_assoc.
Qed.
Lemma trim_line t : ExactNum.trim_end ((t ++ [59]) ++ [10]) = t ++ [59].
Proof.
  unfold ExactNum.trim_end. rewrite !reverse_app, !reverse_singleton. cbn [app ExactNum.trim_start].
  rewrite !space_ascii by lia. cbn [ascii_space Z.leb Z.eqb Z.compare Pos.compare Pos.compare_cont Pos.eqb andb orb].
  by rewrite reverse_cons, reverse_involutive.
Qed.

(** C29. The text of the formatter is read back as the program that was formatted,
    and formatting it again does not change it, for every program of the printable
    fragment: all forms of expressions, where an operand is either in parentheses
    or of the level at which the grammar reads it. *)
Theorem format_reads_back (p : Program) :
  stmts p <> [] -> Forall printable_stmt (stmts p) ->
  parse_source (format_program p) = Ok p /\ format_source (format_program p) = Ok (format_program p).
Proof.
  intros Hne Hp. assert (parse_source (format_program p) = Ok p) as H.
  { unfold parse_source, format_program. destruct (trimmed_text _ Hne) as (t & Et & ->).
    rewrite trim_line, bool_decide_true by apply last_snoc. unfold lex.
    pose proof (trimmed_lexes _ Hne Hp) as HL. rewrite Et in HL.
    destruct (HL (length (t ++ [59])) (Z.of_nat (length (t ++ [59]))) (le_n _)) as (ts & -> & Hk).
    by rewrite (parse_program_tokens p). }
  split; [done|]. unfold format_source. by rewrite H.
Qed.
End Prints.

(** ** Examples *)
Definition sample_program : Program :=
  let one := {| numer := 1; denom := 1 |} in
  let three := {| numer := 3; denom := 1 |} in
  let field := ESelect (EIdent (chars "x")) (chars "a") Optional in
  let ok := ESelect (EIdent (chars "r")) (chars "ok") Required in
  {| stmts :=
       [ SLet (chars "f")
           (ELambda (chars "x") (EBinOp Add field (EBinOp Mul (ENum three) (EBinOp Sub (ENum three) (ENum one)))));
         SExpr (EPipe (EIdent (chars "rows"))
           (EComprehension (Some (ECall (EIdent (chars "f")) [EIdent (chars "r")])) (chars "r") EPlaceholder
              (Some (EUnOp Not (EBinOp EqOp ok ENull))))) ] |}.
Definition reread_source (s : string) : result SdaError (Program * result SdaError Program) :=
  let? p := parse_source (C := sample_chars) (B := sample_bignum) (chars s) in
  Ok (p, parse_source (C := sample_chars) (B := sample_bignum) (format_program p)).
Lemma format_reads_back_witness :
  (stmts sample_program <> [] /\ Forall printable_stmt (stmts sample_program)) /\
  (parse_source (format_program sample_program) = Ok sample_program /\
   format_source (format_program sample_program) = Ok (format_program sample_program)).
Proof.
  assert (stmts sample_program <> [] /\ Forall printable_stmt (stmts sample_program)) as [Hne Hp].
  { split; [done|]. assert (forall n, 0 <= n -> num_ok {| numer := n; denom := 1 |}) as Hnum.
    { intros n Hn. split; [split; [done|cbn; by rewrite Z.gcd_1_r]|]. split; [done|]. by exists 0. }
    assert (forall s, is_identifier (chars s) && negb (bool_decide (chars s = [95]))
      && bool_decide (ident_kind (chars s) = KIdent (chars s)) = true -> ident_ok (chars s)) as Hid.
    { intros s [[H1 H2]%andb_true_iff H3]%andb_true_iff. split; [done|].
      apply negb_true_iff, bool_decide_eq_false in H2. apply bool_decide_eq_true in H3. done. }
    repeat first [apply Hid; reflexivity|apply Hnum; lia|left; cbn; lia|right; cbn; lia|progress constructor
      |intros ? [= <-]|discriminate|cbn; lia]. }
  split; [done|]. by apply (format_reads_back sample_program).
Defined.

(** Sources whose formatted text is read as another program, and one whose
    formatted text is not a program. *)
Definition evaluated_source (s : string) : result SdaError (evaluated * option evaluated) :=
  let? '(p, again) := reread_source s in
  Ok (eval_bindings 9 p [], match again with Ok q => Some (eval_bindings 9 q []) | Err _ => None end).
Example formatting_changes_value :
  evaluated_source "Set{1} diff (Set{1} diff Set{1})" =
    Ok (Ok (VSet [VNum {| numer := 1; denom := 1 |}]), Some (Ok (VSet []))) /\
  evaluated_source "Set{1} union (Set{2} inter Set{3})" =
    Ok (Ok (VSet [VNum {| numer := 1; denom := 1 |}]), Some (Ok (VSet []))) /\
  evaluated_source "(1 = 1) = true" = Ok (Ok (VBool true), None).
Proof. by vm_compute. Qed.
