(* ===== verification/Cluster.v ===== *)
(** * Partitions, placement and coverage of a cluster

    Model of [modes.rs], [partition.rs], [directory.rs] and the coverage record of
    [coverage.rs] in [crates/residiuum-cluster/src].  Node and partition numbers,
    terms, epochs and log positions are [Z]; text is the list of its bytes.
    BLAKE3 is the operation of the class [Blake3].  A failing [assert!] is
    [None]. *)
From S2P Require Import Prelude AtomicFile AtomicPlan Raft.

Abbreviation PartitionId := Z.
Abbreviation PlacementEpoch := Z.
Abbreviation LogPosition := Z.

(** ** Modes *)

Inductive ConsistencyMode : Type := PartitionLinearizable | ConvergentAppend.
Inductive ReadMode : Type := Linearizable | Available | Salvage.
Inductive DeploymentProfile : Type := Development | DependableLocal.

#[global] Instance ConsistencyMode_eq_dec : EqDecision ConsistencyMode.
Proof. solve_decision. Defined.
#[global] Instance ReadMode_eq_dec : EqDecision ReadMode.
Proof. solve_decision. Defined.
#[global] Instance DeploymentProfile_eq_dec : EqDecision DeploymentProfile.
Proof. solve_decision. Defined.

Definition consistency_mode_as_str (m : ConsistencyMode) : list byte :=
  match m with
  | PartitionLinearizable => lit "partition-linearizable"
  | ConvergentAppend => lit "convergent-append"
  end.
Definition consistency_mode_parse (s : list byte) : option ConsistencyMode :=
  if bytes_eqb s (lit "partition-linearizable") then Some PartitionLinearizable
  else if bytes_eqb s (lit "convergent-append") then Some ConvergentAppend
  else None.
Definition read_mode_as_str (m : ReadMode) : list byte :=
  match m with
  | Linearizable => lit "linearizable" | Available => lit "available" | Salvage => lit "salvage"
  end.

Definition default_node_count (p : DeploymentProfile) : Z :=
  match p with Development => 1 | DependableLocal => 3 end.
Definition profile_write_quorum (p : DeploymentProfile) : Z := default_node_count p / 2 + 1.

(** ** Library routines on vectors *)

(** [v.dedup()]: drops consecutive repetitions. *)
Fixpoint dedup_ids (l : list Z) : list Z :=
  match l with
  | x :: ((y :: _) as t) => if x =? y then dedup_ids t else x :: dedup_ids t
  | _ => l
  end.

Definition sort_ids (l : list Z) : list Z := sort_by Z.compare l.
Definition sort_texts (l : list (list byte)) : list (list byte) := sort_by bytes_cmp l.

(** [v.binary_search_by_key(&k, key).ok()]: the search of the standard library,
    halving [size] until one candidate is left. *)
Fixpoint search_loop (fuel : nat) (cmp : nat -> comparison) (base size : nat) : nat :=
  match fuel with
  | O => base
  | S f =>
      if (size <=? 1)%nat then base
      else
        let half := (size / 2)%nat in
        let mid := (base + half)%nat in
        search_loop f cmp (match cmp mid with Gt => base | _ => mid end) (size - half)%nat
  end.
Definition binary_search (keys : list Z) (k : Z) : option nat :=
  let cmp i := nth i keys 0 ?= k in
  if (length keys =? 0)%nat then None
  else
    let i := search_loop (length keys) cmp 0 (length keys) in
    match cmp i with Eq => Some i | _ => None end.

(** ** The partition map *)

Definition HASH_PROFILE_BLAKE3_MOD : list byte := lit "blake3-mod-v1".
Definition DEFAULT_VIRTUAL_PARTITIONS : Z := 64.

Record PartitionMap := { virtual_partitions : Z; hash_profile : list byte }.

Definition partition_map_default : PartitionMap :=
  {| virtual_partitions := DEFAULT_VIRTUAL_PARTITIONS; hash_profile := HASH_PROFILE_BLAKE3_MOD |}.
Definition partition_map_new (n : Z) : option PartitionMap :=
  if 1 <=? n then Some {| virtual_partitions := n; hash_profile := HASH_PROFILE_BLAKE3_MOD |}
  else None.

Definition partition_of `{H : Blake3} (m : PartitionMap) (partition_key : list byte) : PartitionId :=
  le_val (take 8 (blake3 partition_key)) mod virtual_partitions m.

Definition all_partitions (m : PartitionMap) : list PartitionId :=
  Z.of_nat <$> seq 0 (Z.to_nat (virtual_partitions m)).

Definition default_partition_key (subject : list byte) : list byte := subject.

(** ** The partition directory *)

Module Directory.

Record PartitionAssignment := {
  partition : PartitionId;
  replicas : list NodeId;
  leader : NodeId;
  term : Term;
  placement_epoch : PlacementEpoch }.

Record PartitionDirectory := {
  map : PartitionMap;
  dir_epoch : PlacementEpoch;
  assignments : list PartitionAssignment }.

Definition balanced (m : PartitionMap) (node_count : Z) (epoch : PlacementEpoch)
    : option PartitionDirectory :=
  if 1 <=? node_count then
    let rs := Z.of_nat <$> seq 0 (Z.to_nat node_count) in
    Some {| map := m; dir_epoch := epoch;
            assignments :=
              (fun p => {| partition := p; replicas := rs; leader := p mod node_count; term := 1;
                           placement_epoch := epoch |}) <$> all_partitions m |}
  else None.

Definition position (d : PartitionDirectory) (p : PartitionId) : option nat :=
  binary_search (partition <$> assignments d) p.

Definition get (d : PartitionDirectory) (p : PartitionId) : option PartitionAssignment :=
  position d p ≫= fun i => assignments d !! i.

(** [if let Some(a) = self.get_mut(p) { f(a) }] *)
Definition get_mut (d : PartitionDirectory) (p : PartitionId)
    (f : PartitionAssignment -> PartitionAssignment) : PartitionDirectory :=
  match position d p with
  | Some i => {| map := map d; dir_epoch := dir_epoch d; assignments := alter f i (assignments d) |}
  | None => d
  end.

Definition leader_of (d : PartitionDirectory) (p : PartitionId) : option NodeId :=
  leader <$> get d p.

Definition set_leader (d : PartitionDirectory) (p : PartitionId) (n : NodeId) (t : Term)
    : PartitionDirectory :=
  get_mut d p (fun a => {| partition := partition a; replicas := replicas a; leader := n; term := t;
                           placement_epoch := placement_epoch a |}).

Definition partitions_led_by (d : PartitionDirectory) (n : NodeId) : list PartitionId :=
  partition <$> List.filter (fun a => leader a =? n) (assignments d).

Definition set_replicas (d : PartitionDirectory) (p : PartitionId) (rs : list NodeId)
    (epoch : PlacementEpoch) : option PartitionDirectory :=
  match rs with
  | [] => None
  | first :: _ =>
      let d' := get_mut d p (fun a =>
        {| partition := partition a; replicas := rs;
           leader := if bool_decide (leader a ∈ rs) then leader a else first;
           term := term a; placement_epoch := epoch |}) in
      Some {| map := map d'; dir_epoch := epoch; assignments := assignments d' |}
  end.
End Directory.

(** ** Coverage *)

Module Coverage.

Record PartitionFrontier := {
  f_partition : PartitionId;
  f_term : Term;
  f_position : LogPosition;
  served_by : option Z }.

Record Coverage := {
  requested : list PartitionId;
  completed : list PartitionId;
  unavailable : list PartitionId;
  frontiers : list PartitionFrontier;
  notes : list (list byte);
  read_mode : option (list byte);
  resource_limit_reached : bool;
  indexes_used : list (list byte);
  tiers_searched : list (list byte);
  tiers_excluded : list (list byte) }.

Definition for_partitions (parts : list PartitionId) : Coverage := {|
  requested := dedup_ids (sort_ids parts); completed := []; unavailable := []; frontiers := [];
  notes := []; read_mode := None; resource_limit_reached := false; indexes_used := [];
  tiers_searched := []; tiers_excluded := [] |}.

Definition single (p : PartitionId) : Coverage := for_partitions [p].

Definition with_marks (c : Coverage) (done missing : list PartitionId)
    (fs : list PartitionFrontier) : Coverage := {|
  requested := requested c; completed := done; unavailable := missing; frontiers := fs;
  notes := notes c; read_mode := read_mode c; resource_limit_reached := resource_limit_reached c;
  indexes_used := indexes_used c; tiers_searched := tiers_searched c;
  tiers_excluded := tiers_excluded c |}.

Definition push_sorted (p : PartitionId) (l : list PartitionId) : list PartitionId :=
  if bool_decide (p ∈ l) then l else sort_ids (l ++ [p]).

Definition frontier_cmp (a b : PartitionFrontier) : comparison := f_partition a ?= f_partition b.

Definition mark_completed (c : Coverage) (p : PartitionId) (t : Term) (pos : LogPosition)
    (by_ : option Z) : Coverage :=
  with_marks c (push_sorted p (completed c))
    (List.filter (fun q => negb (q =? p)) (unavailable c))
    (sort_by frontier_cmp
       (List.filter (fun f => negb (f_partition f =? p)) (frontiers c)
          ++ [{| f_partition := p; f_term := t; f_position := pos; served_by := by_ |}])).

Definition mark_unavailable (c : Coverage) (p : PartitionId) : Coverage :=
  with_marks c (List.filter (fun q => negb (q =? p)) (completed c))
    (push_sorted p (unavailable c))
    (List.filter (fun f => negb (f_partition f =? p)) (frontiers c)).

Definition is_complete (c : Coverage) : bool :=
  negb (resource_limit_reached c)
    && (length (unavailable c) =? 0)%nat
    && (length (tiers_excluded c) =? 0)%nat
    && forallb (fun p => bool_decide (p ∈ completed c)) (requested c).
Definition is_incomplete (c : Coverage) : bool := negb (is_complete c).

Definition with_texts (c : Coverage) (ns : list (list byte)) (rm : option (list byte))
    (limit : bool) (ix ts tx : list (list byte)) : Coverage := {|
  requested := requested c; completed := completed c; unavailable := unavailable c;
  frontiers := frontiers c; notes := ns; read_mode := rm; resource_limit_reached := limit;
  indexes_used := ix; tiers_searched := ts; tiers_excluded := tx |}.

Definition note (c : Coverage) (msg : list byte) : Coverage :=
  with_texts c (notes c ++ [msg]) (read_mode c) (resource_limit_reached c) (indexes_used c)
    (tiers_searched c) (tiers_excluded c).
Definition with_read_mode (c : Coverage) (m : ReadMode) : Coverage :=
  with_texts c (notes c) (Some (read_mode_as_str m)) (resource_limit_reached c) (indexes_used c)
    (tiers_searched c) (tiers_excluded c).
Definition mark_resource_limit (c : Coverage) (detail : list byte) : Coverage :=
  note (with_texts c (notes c) (read_mode c) true (indexes_used c) (tiers_searched c)
          (tiers_excluded c)) detail.

Definition add_name (n : list byte) (l : list (list byte)) : list (list byte) :=
  if bool_decide (n ∈ l) then l else sort_texts (l ++ [n]).
Definition use_index (c : Coverage) (n : list byte) : Coverage :=
  with_texts c (notes c) (read_mode c) (resource_limit_reached c) (add_name n (indexes_used c))
    (tiers_searched c) (tiers_excluded c).
Definition search_tier (c : Coverage) (n : list byte) : Coverage :=
  with_texts c (notes c) (read_mode c) (resource_limit_reached c) (indexes_used c)
    (add_name n (tiers_searched c)) (tiers_excluded c).
Definition exclude_tier (c : Coverage) (n : list byte) : Coverage :=
  with_texts c (notes c) (read_mode c) (resource_limit_reached c) (indexes_used c)
    (tiers_searched c) (add_name n (tiers_excluded c)).
End Coverage.

(** ** Rebalance jobs *)

Module Rebalance.

Inductive RebalancePhase : Type :=
| PlanCommitted | LearnersAdded | SegmentsCopied | LogCaughtUp | MembershipChanged
| EpochActivated | SafetyWindow | Reclaimed.

#[global] Instance RebalancePhase_eq_dec : EqDecision RebalancePhase.
Proof. solve_decision. Defined.

Definition phase_next (p : RebalancePhase) : option RebalancePhase :=
  match p with
  | PlanCommitted => Some LearnersAdded
  | LearnersAdded => Some SegmentsCopied
  | LogCaughtUp => Some MembershipChanged
  | SegmentsCopied => Some LogCaughtUp
  | MembershipChanged => Some EpochActivated
  | EpochActivated => Some SafetyWindow
  | SafetyWindow => Some Reclaimed
  | Reclaimed => None
  end.

Definition old_placement_authoritative (p : RebalancePhase) : bool :=
  match p with
  | PlanCommitted | LearnersAdded | SegmentsCopied | LogCaughtUp => true
  | _ => false
  end.
Definition is_joint (p : RebalancePhase) : bool :=
  match p with MembershipChanged => true | _ => false end.
Definition new_placement_authoritative (p : RebalancePhase) : bool :=
  match p with EpochActivated | SafetyWindow | Reclaimed => true | _ => false end.

Record RebalanceJob := {
  job_id : list byte;
  job_partition : PartitionId;
  old_replicas : list NodeId;
  new_replicas : list NodeId;
  destinations : list NodeId;
  removals : list NodeId;
  phase : RebalancePhase;
  plan_epoch : PlacementEpoch;
  activated_epoch : option PlacementEpoch;
  subjects_copied : Z;
  log_entries_streamed : Z;
  joint : bool }.

Definition plan (id : list byte) (p : PartitionId) (old new : list NodeId) (epoch : PlacementEpoch)
    : RebalanceJob := {|
  job_id := id; job_partition := p; old_replicas := old; new_replicas := new;
  destinations := sort_ids (List.filter (fun n => negb (bool_decide (n ∈ old))) new);
  removals := sort_ids (List.filter (fun n => negb (bool_decide (n ∈ new))) old);
  phase := PlanCommitted; plan_epoch := epoch; activated_epoch := None; subjects_copied := 0;
  log_entries_streamed := 0; joint := false |}.

Definition push_new (v : list NodeId) (n : NodeId) : list NodeId :=
  if bool_decide (n ∈ v) then v else v ++ [n].

Definition authoritative_voters (j : RebalanceJob) : list NodeId :=
  if old_placement_authoritative (phase j) then old_replicas j
  else if is_joint (phase j) || joint j then
    sort_ids (foldl push_new (old_replicas j) (new_replicas j))
  else new_replicas j.
End Rebalance.

(** * Facts on partition scopes, placement and coverage *)

(** ** Ascending scopes *)

Abbreviation asc := (StronglySorted Z.lt).

Lemma not_gt_compare x y : not_gt Z.compare x y <-> x <= y.
Proof. unfold not_gt. by rewrite Z.compare_le_iff. Qed.

Lemma sort_ids_sorted l : StronglySorted Z.le (sort_ids l).
Proof.
  assert (Hs : StronglySorted (not_gt Z.compare) (sort_ids l)); [apply sort_by_sorted|].
  - intros x y. apply Z.compare_antisym.
  - intros x y z. rewrite !not_gt_compare. lia.
  - induction Hs as [|x k Hk IH Hx]; constructor; [done|].
    eapply Forall_impl; [exact Hx|]. intros y. apply not_gt_compare.
Qed.
Lemma elem_of_sort_ids x l : x ∈ sort_ids l <-> x ∈ l.
Proof. unfold sort_ids. by rewrite sort_by_perm. Qed.

Lemma dedup_ids_cons y z t :
  dedup_ids (y :: z :: t) = if y =? z then dedup_ids (z :: t) else y :: dedup_ids (z :: t).
Proof. done. Qed.
Lemma elem_of_dedup_ids x l : x ∈ dedup_ids l <-> x ∈ l.
Proof.
  induction l as [|y [|z t] IH]; [done..|]. rewrite dedup_ids_cons.
  destruct (Z.eqb_spec y z) as [->|Hn].
  - rewrite IH, !elem_of_cons. tauto.
  - rewrite !(elem_of_cons _ _ y), IH. done.
Qed.
Lemma dedup_ids_asc l : StronglySorted Z.le l -> asc (dedup_ids l).
Proof.
  induction 1 as [|y l Hl IH Hy]; [constructor|].
  destruct l as [|z t]; [by repeat constructor|]. rewrite dedup_ids_cons.
  destruct (Z.eqb_spec y z) as [->|Hn]; [done|]. constructor; [done|].
  apply Forall_forall. intros w Hw. rewrite elem_of_dedup_ids in Hw.
  inversion_clear Hy as [|? ? Hyz Hyt]. inversion_clear Hl as [|? ? Ht Hz].
  apply elem_of_cons in Hw as [->|Hw]; [lia|]. rewrite Forall_forall in Hz. specialize (Hz _ Hw). lia.
Qed.

Lemma asc_NoDup l : asc l -> NoDup l.
Proof.
  induction 1 as [|x l Hl IH Hx]; constructor; [|done].
  intros Hin. rewrite Forall_forall in Hx. specialize (Hx _ Hin). lia.
Qed.

#[local] Instance Z_lt_antisymm : AntiSymm eq Z.lt.
Proof. intros x y ??. lia. Qed.

(** A scope is determined by its members. *)
Lemma asc_unique l l' : asc l -> asc l' -> (forall x, x ∈ l <-> x ∈ l') -> l = l'.
Proof.
  intros H1 H2 Hm. apply (StronglySorted_unique Z.lt); [done..|].
  apply NoDup_Permutation; [by apply asc_NoDup..|done].
Qed.

Definition scope (l : list Z) : list Z := dedup_ids (sort_ids l).
Lemma scope_asc l : asc (scope l).
Proof. apply dedup_ids_asc, sort_ids_sorted. Qed.
Lemma elem_of_scope x l : x ∈ scope l <-> x ∈ l.
Proof. unfold scope. by rewrite elem_of_dedup_ids, elem_of_sort_ids. Qed.
Lemma scope_id l : asc l -> scope l = l.
Proof. intros Hl. apply asc_unique; [apply scope_asc|done|intros x; apply elem_of_scope]. Qed.

Lemma all_partitions_asc m : asc (all_partitions m).
Proof.
  unfold all_partitions. generalize 0%nat.
  induction (Z.to_nat (virtual_partitions m)) as [|n IH]; intros k; simpl; constructor; [apply IH|].
  apply Forall_forall. intros x Hx. apply list_elem_of_fmap in Hx as (j & -> & Hj).
  apply elem_of_seq in Hj. lia.
Qed.
Lemma elem_of_all_partitions m p : p ∈ all_partitions m <-> 0 <= p < virtual_partitions m.
Proof.
  unfold all_partitions. rewrite list_elem_of_fmap. split.
  - intros (j & -> & Hj). apply elem_of_seq in Hj. lia.
  - intros Hp. exists (Z.to_nat p). rewrite elem_of_seq. lia.
Qed.

Lemma partition_of_range `{H : Blake3} m key :
  1 <= virtual_partitions m -> partition_of m key ∈ all_partitions m.
Proof. intros Hv. apply elem_of_all_partitions. unfold partition_of. apply Z.mod_pos_bound. lia. Qed.

(** ** The search *)

Lemma asc_lookup keys a b x y :
  asc keys -> (a < b)%nat -> keys !! a = Some x -> keys !! b = Some y -> x < y.
Proof.
  intros Hs. revert a b. induction Hs as [|k l Hl IH Hk]; intros [|a] [|b] Hab Ha Hb; try done; try lia.
  - simpl in *. simplify_eq. rewrite Forall_forall in Hk. apply Hk. by eapply list_elem_of_lookup_2.
  - simpl in *. eapply (IH a b); [lia|done..].
Qed.

Lemma search_loop_spec fuel keys k i base size :
  asc keys -> keys !! i = Some k -> (base <= i < base + size)%nat ->
  (base + size <= length keys)%nat -> (size <= fuel + 1)%nat ->
  search_loop fuel (fun j => nth j keys 0 ?= k) base size = i.
Proof.
  intros Hs Hi. revert base size.
  induction fuel as [|f IH]; intros base size Hb Hl Hf; cbn [search_loop]; [lia|].
  destruct (Nat.leb_spec size 1); [lia|].
  pose proof (Nat.div_lt size 2). assert (1 <= size / 2)%nat by (apply Nat.div_le_lower_bound; lia).
  pose proof (Nat.mul_div_le size 2).
  assert (Hm : (base + size / 2 < length keys)%nat) by lia.
  destruct (lookup_lt_is_Some_2 keys (base + size / 2) Hm) as [m Hmk].
  rewrite (nth_lookup_Some _ _ _ _ Hmk).
  assert (Hord : forall a b x y, (a < b)%nat -> keys !! a = Some x -> keys !! b = Some y -> x < y).
  { intros a b x y Hab Ha Hb'. by eapply asc_lookup. }
  destruct (Z.compare_spec m k) as [->|Hlt|Hgt]; apply IH; try lia.
  - destruct (decide (i = base + size / 2)%nat); [lia|].
    destruct (decide (i < base + size / 2)%nat) as [Hl'|Hl']; [|lia].
    specialize (Hord _ _ _ _ Hl' Hi Hmk). lia.
  - destruct (decide (i < base + size / 2)%nat) as [Hl'|Hl']; [|lia].
    specialize (Hord _ _ _ _ Hl' Hi Hmk). lia.
  - destruct (decide (base + size / 2 < i)%nat) as [Hl'|Hl'].
    + specialize (Hord _ _ _ _ Hl' Hmk Hi). lia.
    + destruct (decide (i = base + size / 2)%nat) as [->|]; [|lia]. simplify_eq. lia.
Qed.

Lemma binary_search_spec keys k i : asc keys -> binary_search keys k = Some i <-> keys !! i = Some k.
Proof.
  intros Hs. unfold binary_search. destruct (Nat.eqb_spec (length keys) 0) as [H0|H0].
  { split; [done|]. intros Hi. apply lookup_lt_Some in Hi. lia. }
  split.
  - destruct (_ ?= _) eqn:Hc; [|done..]. intros [= <-]. apply Z.compare_eq in Hc. revert Hc.
    set (j := search_loop _ _ _ _). intros Hc.
    assert (Hj : (j < length keys)%nat).
    { subst j. assert (Hg : forall f cmp b s, (0 < s)%nat ->
        (b <= search_loop f cmp b s < b + s)%nat).
      { clear. induction f as [|f IH]; intros cmp b s H0; cbn [search_loop]; [lia|].
        destruct (Nat.leb_spec s 1); [lia|].
        pose proof (Nat.div_lt s 2). assert (1 <= s / 2)%nat by (apply Nat.div_le_lower_bound; lia).
        destruct (cmp _).
        - specialize (IH cmp (b + s / 2)%nat (s - s / 2)%nat). lia.
        - specialize (IH cmp (b + s / 2)%nat (s - s / 2)%nat). lia.
        - specialize (IH cmp b (s - s / 2)%nat). lia. }
      specialize (Hg (length keys) (fun i => nth i keys 0 ?= k) 0%nat (length keys)). lia. }
    destruct (lookup_lt_is_Some_2 keys j Hj) as [m Hm].
    rewrite (nth_lookup_Some _ _ _ _ Hm) in Hc. congruence.
  - intros Hi. pose proof (lookup_lt_Some _ _ _ Hi).
    rewrite (search_loop_spec _ _ _ i) by (done || lia).
    by rewrite (nth_lookup_Some _ _ _ _ Hi), Z.compare_refl.
Qed.

(** ** Placement *)

Module DirectoryFacts.
Import Directory.

Definition dir_ok (d : PartitionDirectory) : Prop := asc (partition <$> assignments d).

Lemma position_spec d p i :
  dir_ok d -> position d p = Some i <-> exists a, assignments d !! i = Some a /\ partition a = p.
Proof.
  intros Hd. unfold position. rewrite binary_search_spec by done.
  rewrite list_lookup_fmap, fmap_Some. naive_solver.
Qed.

Lemma get_spec d p a : dir_ok d -> get d p = Some a <-> a ∈ assignments d /\ partition a = p.
Proof.
  intros Hd. unfold get. rewrite bind_Some. split.
  - intros (i & Hi & Ha). apply position_spec in Hi as (a' & Ha' & <-); [|done].
    simplify_eq. split; [by eapply list_elem_of_lookup_2|done].
  - intros [Ha Hp]. apply list_elem_of_lookup in Ha as [i Hi].
    exists i. rewrite position_spec by done. eauto.
Qed.

Lemma get_partition d p a : dir_ok d -> get d p = Some a -> partition a = p.
Proof. intros Hd Hg. by apply get_spec in Hg as [_ ?]. Qed.

Section GetMut.
Context (f : PartitionAssignment -> PartitionAssignment)
        (Hf : forall a, partition (f a) = partition a).

Lemma get_mut_keys d p : partition <$> assignments (get_mut d p f) = partition <$> assignments d.
Proof.
  unfold get_mut. destruct (position d p) as [i|]; [|done]. simpl.
  apply list_eq. intros j. rewrite !list_lookup_fmap.
  destruct (decide (i = j)) as [->|Hn].
  - rewrite list_lookup_alter_eq. destruct (assignments d !! j); [|done]. simpl. by rewrite Hf.
  - by rewrite list_lookup_alter_ne.
Qed.
Lemma get_mut_ok d p : dir_ok d -> dir_ok (get_mut d p f).
Proof. unfold dir_ok. by rewrite get_mut_keys. Qed.

Lemma get_get_mut d p q :
  get (get_mut d p f) q = if decide (q = p) then f <$> get d p else get d q.
Proof.
  unfold get at 1. unfold position. rewrite get_mut_keys. fold (position d q).
  unfold get_mut. destruct (position d p) as [i|] eqn:Hp; simpl.
  - destruct (decide (q = p)) as [->|Hn].
    + unfold get. rewrite Hp. simpl. by rewrite list_lookup_alter_eq.
    + unfold get. destruct (position d q) as [j|] eqn:Hq; [|done]. simpl.
      destruct (decide (i = j)) as [->|Hij]; [|by rewrite list_lookup_alter_ne].
      unfold position, binary_search in Hp, Hq. clear -Hp Hq Hn.
      destruct (_ =? 0)%nat; [done|].
      destruct (nth _ _ _ ?= p) eqn:H1; [|done..]. destruct (nth _ _ _ ?= q) eqn:H2; [|done..].
      apply Z.compare_eq in H1, H2. simplify_eq. congruence.
  - destruct (decide (q = p)) as [->|Hn]; [|done]. unfold get. by rewrite Hp.
Qed.
End GetMut.

Lemma set_leader_ok d p n t : dir_ok d -> dir_ok (set_leader d p n t).
Proof. by apply get_mut_ok. Qed.

(** [set_leader] changes the leader and term of one partition, and no other entry. *)
Lemma get_set_leader d p n t q :
  get (set_leader d p n t) q =
  if decide (q = p) then
    (fun a => {| partition := partition a; replicas := replicas a; leader := n; term := t;
                 placement_epoch := placement_epoch a |}) <$> get d p
  else get d q.
Proof. by apply get_get_mut. Qed.

Lemma balanced_ok m n e d : balanced m n e = Some d -> dir_ok d.
Proof.
  unfold balanced. destruct (1 <=? n); [|done]. intros [= <-]. unfold dir_ok; cbn [assignments].
  rewrite <- list_fmap_compose. simpl. unfold compose. simpl.
  rewrite list_fmap_id. apply all_partitions_asc.
Qed.
(** A fresh placement covers every partition. *)
Lemma balanced_covers m n e d p : balanced m n e = Some d -> p ∈ all_partitions m ->
  exists a, get d p = Some a /\ leader a = p mod n
            /\ replicas a = Z.of_nat <$> seq 0 (Z.to_nat n).
Proof.
  intros Hb Hp. pose proof (balanced_ok _ _ _ _ Hb) as Hd. revert Hb.
  unfold balanced. destruct (1 <=? n); [|done]. intros [= <-].
  eexists. split; [apply get_spec; [done|]|]; cbn [assignments].
  - split; [apply list_elem_of_fmap; by exists p|done].
  - done.
Qed.
End DirectoryFacts.

(** ** Coverage *)

Module CoverageFacts.
Import Coverage.

Record coverage_ok (c : Coverage) : Prop := {
  co_requested : asc (requested c);
  co_completed : asc (completed c);
  co_unavailable : asc (unavailable c);
  co_disjoint : forall p, p ∈ completed c -> p ∈ unavailable c -> False;
  co_frontiers : f_partition <$> frontiers c = completed c }.

Lemma for_partitions_ok l : coverage_ok (for_partitions l).
Proof. constructor; simpl; try (constructor || done). apply scope_asc. set_solver. Qed.

Lemma sort_ids_nodup_asc l : NoDup l -> asc (sort_ids l).
Proof.
  intros Hn. pose proof (sort_ids_sorted l) as Hs.
  assert (Hn' : NoDup (sort_ids l)) by (unfold sort_ids; by rewrite sort_by_perm).
  induction Hs as [|x k Hk IH Hx]; [constructor|]. apply NoDup_cons in Hn' as [Hx' Hn'].
  constructor; [by apply IH|]. rewrite Forall_forall in Hx |- *. intros y Hy.
  specialize (Hx _ Hy). assert (x <> y) by congruence. lia.
Qed.

Lemma elem_of_push_sorted q p l : q ∈ push_sorted p l <-> q = p \/ q ∈ l.
Proof.
  unfold push_sorted. case_bool_decide as Hp; [set_solver|].
  rewrite elem_of_sort_ids. set_solver.
Qed.
Lemma push_sorted_asc p l : asc l -> asc (push_sorted p l).
Proof.
  intros Hl. unfold push_sorted. case_bool_decide as Hp; [done|].
  apply sort_ids_nodup_asc. apply NoDup_app. split_and!; [by apply asc_NoDup| |apply NoDup_singleton].
  set_solver.
Qed.

Lemma elem_of_drop_id q p l :
  q ∈ List.filter (fun q => negb (q =? p)) l <-> q <> p /\ q ∈ l.
Proof.
  rewrite !list_elem_of_In, filter_In, negb_true_iff, Z.eqb_neq. tauto.
Qed.
Lemma filter_asc (g : Z -> bool) l : asc l -> asc (List.filter g l).
Proof.
  induction 1 as [|x l Hl IH Hx]; simpl; [constructor|]. destruct (g x); [|done].
  constructor; [done|]. rewrite Forall_forall in Hx |- *. intros y Hy. apply Hx.
  rewrite list_elem_of_In, filter_In in Hy. apply list_elem_of_In. tauto.
Qed.

Lemma frontier_parts_sort fs :
  f_partition <$> sort_by frontier_cmp fs = sort_ids (f_partition <$> fs).
Proof.
  unfold sort_ids, sort_by. induction fs as [|f fs IH]; [done|]. cbn. rewrite <- IH. clear IH.
  generalize (foldr (insert_by frontier_cmp) [] fs). intros l.
  induction l as [|g l IH]; [done|]. cbn. unfold frontier_cmp at 1.
  destruct (_ ?= _); [done..|]. cbn. by rewrite IH.
Qed.
Lemma frontier_parts_drop p fs :
  f_partition <$> List.filter (fun f => negb (f_partition f =? p)) fs
  = List.filter (fun q => negb (q =? p)) (f_partition <$> fs).
Proof.
  induction fs as [|f fs IH]; [done|]. cbn. destruct (negb _); cbn; by rewrite IH.
Qed.

Lemma mark_completed_ok c p t pos n : coverage_ok c -> coverage_ok (mark_completed c p t pos n).
Proof.
  intros [Hr Hc Hu Hd Hf]. constructor; cbn.
  - done.
  - by apply push_sorted_asc.
  - by apply filter_asc.
  - intros q. rewrite elem_of_push_sorted, elem_of_drop_id. naive_solver.
  - rewrite frontier_parts_sort, fmap_app, frontier_parts_drop, Hf. cbn.
    apply asc_unique.
    + apply sort_ids_nodup_asc, NoDup_app. split_and!.
      * by apply asc_NoDup, filter_asc.
      * intros x Hx. apply elem_of_drop_id in Hx. set_solver.
      * apply NoDup_singleton.
    + by apply push_sorted_asc.
    + intros x. rewrite elem_of_sort_ids, elem_of_app, elem_of_drop_id, elem_of_push_sorted.
      rewrite list_elem_of_singleton. destruct (decide (x = p)); naive_solver.
Qed.
Lemma mark_unavailable_ok c p : coverage_ok c -> coverage_ok (mark_unavailable c p).
Proof.
  intros [Hr Hc Hu Hd Hf]. constructor; cbn.
  - done.
  - by apply filter_asc.
  - by apply push_sorted_asc.
  - intros q. rewrite elem_of_push_sorted, elem_of_drop_id. naive_solver.
  - by rewrite frontier_parts_drop, Hf.
Qed.

(** Coverage is complete exactly when nothing was cut short and every requested
    partition was read. *)
Lemma is_complete_spec c :
  is_complete c = true <->
  resource_limit_reached c = false /\ unavailable c = [] /\ tiers_excluded c = []
  /\ forall p, p ∈ requested c -> p ∈ completed c.
Proof.
  unfold is_complete. rewrite !andb_true_iff, negb_true_iff, !Nat.eqb_eq, !length_zero_iff_nil.
  rewrite forallb_forall. setoid_rewrite <- list_elem_of_In.
  setoid_rewrite bool_decide_eq_true. tauto.
Qed.
End CoverageFacts.
