(* ===== verification/ClusterToken.v ===== *)
(** * Continuation tokens of distributed finds

    Model of the keyring of [crates/residiuum-store/src/token_keys.rs] and of the
    continuation codec of [crates/residiuum-cluster/src/coverage.rs].  Keyed
    BLAKE3 is the operation of the class [KeyedBlake3]; the fresh secret that a
    rotation draws from the operating system is an argument.  [usize] is 64 bits
    wide. *)
From S2P Require Import Prelude Cbor AtomicFile AtomicPlan Raft Cluster.

(** [blake3::keyed_hash(key, data)]; incremental [update]s hash the concatenation. *)
Class KeyedBlake3 : Type := keyed_hash : list byte -> list byte -> list byte.
Class KeyedBlake3Laws (K : KeyedBlake3) : Prop :=
  keyed_hash_length key bs : length (keyed_hash key bs) = 32%nat.

(** A field of a concatenation. *)
Lemma slice_part {A} (pre x post : list A) a b :
  length pre = a -> (a + length x)%nat = b -> slice a b (pre ++ x ++ post) = x.
Proof.
  intros <- <-. unfold slice. rewrite drop_app_length.
  replace (length pre + length x - length pre)%nat with (length x) by lia. by apply take_app_length'.
Qed.

(** ** The keyring *)

Module Keyring.

Definition TOKEN_SECRET_LEN : nat := 32.
Definition FILE_MAGIC : list byte := lit "RTK00001".
Definition FILE_VERSION : Z := 1.

Record TokenKeyGeneration := { generation_id : Z; secret : list byte }.

Record ContinuationKeyring := {
  active : TokenKeyGeneration;
  previous : option TokenKeyGeneration }.

Inductive KeyringError : Type := CorruptKeyring (what : string) | RandomFailed.

(** [fill_random] either fills the secret or fails. *)
Definition mint (id : Z) (random : option (list byte)) : result KeyringError TokenKeyGeneration :=
  match random with
  | Some s => Ok {| generation_id := id; secret := s |}
  | None => Err RandomFailed
  end.

Definition mint_new (random : option (list byte)) : result KeyringError ContinuationKeyring :=
  let? g := mint 1 random in
  Ok {| active := g; previous := None |}.

Section Mac.
Context `{K : KeyedBlake3}.

Definition mac_key (g : TokenKeyGeneration) (domain public_id : list byte) : list byte :=
  keyed_hash (secret g) (domain ++ [z2b 0] ++ public_id ++ le_bytes 4 (generation_id g)).

Definition active_generation_id (r : ContinuationKeyring) : Z := generation_id (active r).
Definition previous_generation_id (r : ContinuationKeyring) : option Z :=
  generation_id <$> previous r.
Definition active_mac_key (r : ContinuationKeyring) (domain public_id : list byte) : list byte :=
  mac_key (active r) domain public_id.

Definition mac_key_for (r : ContinuationKeyring) (gen : Z) (domain public_id : list byte)
    : option (list byte) :=
  if generation_id (active r) =? gen then Some (mac_key (active r) domain public_id)
  else match previous r with
       | Some p => if generation_id p =? gen then Some (mac_key p domain public_id) else None
       | None => None
       end.
End Mac.

Definition rotate (r : ContinuationKeyring) (random : option (list byte))
    : ContinuationKeyring * result KeyringError Z :=
  let next_id := Z.max (Z.min (generation_id (active r) + 1) U32_MAX) 1 in
  match mint next_id random with
  | Err e => (r, Err e)
  | Ok g => ({| active := g; previous := Some (active r) |}, Ok next_id)
  end.

Definition retire_previous (r : ContinuationKeyring) : ContinuationKeyring :=
  {| active := active r; previous := None |}.

Definition to_bytes (r : ContinuationKeyring) : list byte :=
  FILE_MAGIC ++ le_bytes 4 FILE_VERSION
    ++ le_bytes 4 (generation_id (active r)) ++ secret (active r)
    ++ match previous r with
       | None => [z2b 0]
       | Some p => z2b 1 :: le_bytes 4 (generation_id p) ++ secret p
       end.

Definition from_bytes (bs : list byte) : result KeyringError ContinuationKeyring :=
  if (length bs <? 8 + 4 + 4 + TOKEN_SECRET_LEN + 1)%nat then
    Err (CorruptKeyring "cursor token keyring truncated")
  else if negb (bytes_eqb (take 8 bs) FILE_MAGIC) then
    Err (CorruptKeyring "cursor token keyring magic mismatch")
  else if negb (le_val (slice 8 12 bs) =? FILE_VERSION) then
    Err (CorruptKeyring "cursor token keyring version unsupported")
  else
    let act := {| generation_id := le_val (slice 12 16 bs); secret := slice 16 48 bs |} in
    if b2z (nth 48 bs (z2b 0)) =? 0 then Ok {| active := act; previous := None |}
    else if (length bs <? 49 + 4 + TOKEN_SECRET_LEN)%nat then
      Err (CorruptKeyring "cursor token keyring previous truncated")
    else
      Ok {| active := act;
            previous := Some {| generation_id := le_val (slice 49 53 bs);
                                secret := slice 53 85 bs |} |}.

Definition generation_ok (g : TokenKeyGeneration) : Prop :=
  1 <= generation_id g <= U32_MAX /\ length (secret g) = TOKEN_SECRET_LEN.
Record keyring_ok (r : ContinuationKeyring) : Prop := {
  ko_active : generation_ok (active r);
  ko_previous : forall p, previous r = Some p ->
    generation_ok p /\ generation_id p <= generation_id (active r) }.

Lemma rotate_ok r s :
  keyring_ok r -> length s = TOKEN_SECRET_LEN -> keyring_ok (fst (rotate r (Some s))).
Proof.
  intros [Ha _] Hs. unfold generation_ok in *. unfold rotate; simpl.
  constructor; simpl.
  - unfold generation_ok; simpl. unfold U32_MAX in *. lia.
  - intros p [= <-]. split; [done|]. unfold U32_MAX in *. lia.
Qed.

(** The file of a keyring reads back as the keyring. *)
Lemma keyring_roundtrip r : keyring_ok r -> from_bytes (to_bytes r) = Ok r.
Proof.
  intros [[Ha Hsa] Hp]. destruct r as [[ai asec] prev]; cbn in Ha, Hsa, Hp.
  unfold TOKEN_SECRET_LEN in *.
  assert (Hai : le_val (le_bytes 4 ai) = ai) by (apply le_val_bytes_small; unfold U32_MAX in Ha; lia).
  unfold from_bytes, to_bytes; cbn [active previous generation_id secret].
  set (h := FILE_MAGIC). set (v := le_bytes 4 FILE_VERSION).
  assert (Hh : length h = 8%nat) by done. assert (Hv : length v = 4%nat) by done.
  set (tl := match prev with Some _ => _ | None => _ end).
  assert (Hl : (1 <= length tl)%nat) by (subst tl; destruct prev; cbn [length]; lia).
  rewrite (proj2 (Nat.ltb_ge _ _))
    by (rewrite !length_app, Hh, Hv, length_le_bytes, Hsa; unfold TOKEN_SECRET_LEN; lia).
  rewrite take_app_length' by done. replace (bytes_eqb h FILE_MAGIC) with true by done.
  rewrite (slice_part h v) by done. replace (le_val v =? FILE_VERSION) with true by done.
  cbn [negb].
  rewrite (app_assoc h v), (slice_part (h ++ v)) by done.
  rewrite (app_assoc (h ++ v)), (slice_part ((h ++ v) ++ _)) by (rewrite ?length_app; simpl; lia).
  rewrite app_assoc, Hai.
  set (pre := ((h ++ v) ++ le_bytes 4 ai) ++ asec).
  assert (Hpre : length pre = 48%nat).
  { subst pre. rewrite !length_app, length_le_bytes, Hsa, Hh, Hv. done. }
  rewrite app_nth2 by lia. rewrite Hpre, Nat.sub_diag.
  subst tl. destruct prev as [[pi psec]|]; [|done]. cbn [nth].
  destruct (Hp _ eq_refl) as [[Hpi Hps] _]; cbn in Hpi, Hps. unfold TOKEN_SECRET_LEN in *.
  replace (b2z (z2b 1) =? 0) with false by done.
  cbn [generation_id secret].
  rewrite (proj2 (Nat.ltb_ge _ _))
    by (rewrite length_app; cbn [length]; rewrite length_app, length_le_bytes, Hps, Hpre; lia).
  rewrite (cons_middle (z2b 1)), app_assoc.
  rewrite (slice_part (pre ++ [_])) by (rewrite ?length_app, ?Hpre; done).
  rewrite app_assoc, <- (app_nil_r (_ ++ psec)), <- app_assoc.
  rewrite slice_part by (rewrite ?length_app, ?Hpre, ?Hps; done).
  do 4 f_equal. apply le_val_bytes_small. unfold U32_MAX in Hpi. lia.
Qed.
End Keyring.

(** ** The continuation codec *)

Module Token.
Import Keyring.

Inductive ContinuationError : Type := ContinuationInvalid (what : string).
Abbreviation invalid what := (Err (ContinuationInvalid what)).

Definition MAC_DOMAIN : list byte := lit "residiuum-query-continuation-v2-mac" ++ [z2b 0].
Definition TOKEN_MAGIC : list byte := lit "RQRY0002".
Definition MAC_LEN : nat := 16.
Definition MAX_TOKEN_BYTES : Z := 16384.
Definition MAX_SUBJECT_IN_TOKEN : Z := 4096.
Definition MAX_PARTITIONS_IN_TOKEN : Z := 4096.
Definition MAX_FIND_PAGE_SIZE : Z := 4096.

Record QueryContinuation := {
  query_id : list byte;
  after_subject : list byte;
  page_size : Z;
  prefix : option (list byte);
  partitions : list PartitionId;
  read_mode : ReadMode;
  remaining_limit : option Z;
  remaining_max_docs : option Z }.

Definition opt_usize_le (v : option Z) : list byte :=
  match v with None => le_bytes 8 U64_MAX | Some n => le_bytes 8 n end.

Definition read_u32 (buf : list byte) (o : nat) : result ContinuationError (Z * nat) :=
  if (length buf <? o + 4)%nat then invalid "token truncated at u32"
  else Ok (le_val (slice o (o + 4) buf), (o + 4)%nat).

Definition read_opt_usize (buf : list byte) (o : nat) : result ContinuationError (option Z * nat) :=
  if (length buf <? o + 8)%nat then invalid "token truncated at u64"
  else
    let raw := le_val (slice o (o + 8) buf) in
    Ok (if raw =? U64_MAX then None else Some raw, (o + 8)%nat).

Definition read_mode_byte (m : ReadMode) : byte :=
  match m with Linearizable => z2b 1 | Available => z2b 2 | Salvage => z2b 3 end.
Definition read_mode_from_byte (b : byte) : result ContinuationError ReadMode :=
  match b2z b with
  | 1 => Ok Linearizable
  | 2 => Ok Available
  | 3 => Ok Salvage
  | _ => invalid "unknown read_mode in continuation"
  end.

(** Folds the bitwise differences; equal lengths are required first. *)
Fixpoint fold_diff (diff : Z) (a b : list byte) : Z :=
  match a, b with
  | x :: a', y :: b' => fold_diff (Z.lor diff (Z.lxor (b2z x) (b2z y))) a' b'
  | _, _ => diff
  end.
Definition constant_time_eq (a b : list byte) : bool :=
  (length a =? length b)%nat && (fold_diff 0 a b =? 0).

Section Codec.
Context `{K : KeyedBlake3}.

Definition body (cid : list byte) (r : ContinuationKeyring) (c : QueryContinuation) : list byte :=
  let pfx := default [] (prefix c) in
  TOKEN_MAGIC ++ cid ++ le_bytes 4 (active_generation_id r)
    ++ le_bytes 4 (as_u32 (Z.of_nat (length (query_id c)))) ++ query_id c
    ++ le_bytes 4 (as_u32 (Z.of_nat (length (after_subject c)))) ++ after_subject c
    ++ le_bytes 4 (as_u32 (page_size c))
    ++ le_bytes 4 (as_u32 (Z.of_nat (length pfx))) ++ pfx
    ++ le_bytes 4 (as_u32 (Z.of_nat (length (partitions c))))
    ++ mjoin (le_bytes 4 <$> partitions c)
    ++ [read_mode_byte (read_mode c)]
    ++ opt_usize_le (remaining_limit c) ++ opt_usize_le (remaining_max_docs c).

Definition encode (c : QueryContinuation) (cid : list byte) (r : ContinuationKeyring)
    : result ContinuationError (list byte) :=
  if MAX_SUBJECT_IN_TOKEN <? Z.of_nat (length (after_subject c)) then
    invalid "after_subject exceeds token budget"
  else if MAX_PARTITIONS_IN_TOKEN <? Z.of_nat (length (partitions c)) then
    invalid "partition scope exceeds token budget"
  else if (page_size c =? 0) || (MAX_FIND_PAGE_SIZE <? page_size c) then
    invalid "page_size out of range"
  else
    let b := body cid r c in
    if MAX_TOKEN_BYTES <? Z.of_nat (length b + MAC_LEN) then
      invalid "continuation token would exceed size budget"
    else
      Ok (b ++ take MAC_LEN (keyed_hash (active_mac_key r MAC_DOMAIN cid) b)).

(** A length-prefixed text: its length, the bounds check, the UTF-8 check. *)
Definition read_text (buf : list byte) (o : nat) (truncated not_utf8 : string)
    : result ContinuationError (list byte * nat) :=
  let? '(n, o1) := read_u32 buf o in
  let len := Z.to_nat n in
  if (length buf <? o1 + len)%nat then invalid truncated
  else
    let s := slice o1 (o1 + len) buf in
    if utf8_valid s then Ok (s, (o1 + len)%nat) else invalid not_utf8.

Definition read_page_size (buf : list byte) (o : nat) : result ContinuationError (Z * nat) :=
  let? '(n, o1) := read_u32 buf o in
  if (n =? 0) || (MAX_FIND_PAGE_SIZE <? n) then invalid "page_size invalid" else Ok (n, o1).

Definition read_partitions (buf : list byte) (o : nat)
    : result ContinuationError (list PartitionId * nat) :=
  let? '(n, o1) := read_u32 buf o in
  if (MAX_PARTITIONS_IN_TOKEN <? n) || (length buf <? o1 + Z.to_nat n * 4 + 1 + 8 + 8)%nat then
    invalid "partition list truncated or too large"
  else
    let? '(ids, o2) := collect_n (Z.to_nat n) (read_u32 buf) o1 in
    Ok (dedup_ids (sort_ids ids), o2).

Definition read_mode_at (buf : list byte) (o : nat) : result ContinuationError (ReadMode * nat) :=
  if (length buf <=? o)%nat then invalid "token missing read_mode"
  else let? m := read_mode_from_byte (nth o buf (z2b 0)) in Ok (m, (o + 1)%nat).

(** The fields behind the authenticated header. *)
Definition read_fields (payload : list byte) : result ContinuationError QueryContinuation :=
  let? '(qid, o1) := read_text payload 28 "query_id truncated" "query_id not utf-8" in
  let? '(after, o2) := read_text payload o1 "after_subject truncated" "after_subject not utf-8" in
  let? '(size, o3) := read_page_size payload o2 in
  let? '(pfx, o4) := read_text payload o3 "prefix truncated" "prefix not utf-8" in
  let? '(parts, o5) := read_partitions payload o4 in
  let? '(mode, o6) := read_mode_at payload o5 in
  let? '(limit, o7) := read_opt_usize payload o6 in
  let? '(docs, o8) := read_opt_usize payload o7 in
  if negb (o8 =? length payload)%nat then invalid "token trailing bytes"
  else
    Ok {| query_id := qid; after_subject := after; page_size := size;
          prefix := match pfx with [] => None | _ => Some pfx end;
          partitions := parts; read_mode := mode; remaining_limit := limit;
          remaining_max_docs := docs |}.

Definition decode (cid : list byte) (r : ContinuationKeyring) (token : list byte)
    : result ContinuationError QueryContinuation :=
  if (Z.of_nat (length token) <? 8 + 16 + 4 + 4 + 4 + 4 + 4 + 1 + 8 + 8 + Z.of_nat MAC_LEN)
     || (MAX_TOKEN_BYTES <? Z.of_nat (length token)) then
    invalid "continuation token length out of range"
  else
    let payload := take (length token - MAC_LEN) token in
    let mac := drop (length token - MAC_LEN) token in
    if negb (bytes_eqb (take 8 payload) TOKEN_MAGIC) then
      invalid "continuation token magic/version mismatch (need residiuum-query-continuation-v2)"
    else if negb (bytes_eqb (slice 8 24 payload) cid) then
      invalid "continuation token cluster_id mismatch"
    else
      match mac_key_for r (le_val (slice 24 28 payload)) MAC_DOMAIN cid with
      | None => invalid "continuation token key generation retired or unknown"
      | Some key =>
          if negb (constant_time_eq mac (take MAC_LEN (keyed_hash key payload))) then
            invalid "continuation token MAC mismatch (tampered, forged, or wrong cluster)"
          else read_fields payload
      end.
End Codec.
End Token.

(** * Continuation tokens read back

    A token is accepted under the keyring that issued it and under the next
    generation, and by no later one; what it decodes to is the continuation it
    was made from. *)
Import Keyring Token.

(** ** Reading at an offset *)

(** The bytes of [buf] from offset [o] on are [s]. *)
Definition at_offset (buf : list byte) (o : nat) (s : list byte) : Prop :=
  exists pre, buf = pre ++ s /\ length pre = o.

Lemma at_field buf o x s :
  at_offset buf o (x ++ s) ->
  at_offset buf (o + length x) s /\ slice o (o + length x) buf = x
  /\ (o + length x + length s = length buf)%nat.
Proof.
  intros (pre & -> & <-). split_and!.
  - exists (pre ++ x). rewrite length_app, <- app_assoc. done.
  - by apply slice_part.
  - rewrite !length_app. lia.
Qed.

Lemma read_u32_at buf o v s :
  0 <= v < 2 ^ 32 -> at_offset buf o (le_bytes 4 v ++ s) ->
  read_u32 buf o = Ok (v, (o + 4)%nat) /\ at_offset buf (o + 4) s.
Proof.
  intros Hv Ha. apply at_field in Ha as (Ha & Hs & Hl). rewrite length_le_bytes in *.
  unfold read_u32. rewrite (proj2 (Nat.ltb_ge _ _)) by lia. rewrite Hs.
  rewrite le_val_bytes_small by done. done.
Qed.

Lemma read_text_at buf o x s e1 e2 :
  utf8_valid x = true -> Z.of_nat (length x) < 2 ^ 32 ->
  at_offset buf o (le_bytes 4 (as_u32 (Z.of_nat (length x))) ++ x ++ s) ->
  exists o', read_text buf o e1 e2 = Ok (x, o') /\ at_offset buf o' s.
Proof.
  intros Hu Hx Ha. unfold as_u32 in Ha. rewrite Z.mod_small in Ha by lia.
  apply read_u32_at in Ha as [Hr Ha]; [|lia]. unfold read_text. rewrite Hr, Nat2Z.id.
  apply at_field in Ha as (Ha & Hs & Hl).
  rewrite (proj2 (Nat.ltb_ge _ _)) by lia. rewrite Hs, Hu. eauto.
Qed.

Lemma read_page_size_at buf o n s :
  1 <= n <= MAX_FIND_PAGE_SIZE -> at_offset buf o (le_bytes 4 (as_u32 n) ++ s) ->
  exists o', read_page_size buf o = Ok (n, o') /\ at_offset buf o' s.
Proof.
  intros Hn Ha. unfold MAX_FIND_PAGE_SIZE in *. unfold as_u32 in Ha. rewrite Z.mod_small in Ha by lia.
  apply read_u32_at in Ha as [Hr Ha]; [|lia]. unfold read_page_size, MAX_FIND_PAGE_SIZE. rewrite Hr.
  rewrite (proj2 (Z.eqb_neq _ _)) by lia. rewrite (proj2 (Z.ltb_ge _ _)) by lia. eauto.
Qed.

Lemma ids_cons x l : mjoin (le_bytes 4 <$> (x :: l)) = le_bytes 4 x ++ mjoin (le_bytes 4 <$> l).
Proof. done. Qed.
Lemma length_ids l : length (mjoin (le_bytes 4 <$> l)) = (length l * 4)%nat.
Proof.
  induction l as [|x l IH]; [done|]. rewrite ids_cons, length_app, length_le_bytes, IH. simpl. lia.
Qed.

Lemma collect_ids_at buf l o s :
  Forall in_u32 l -> at_offset buf o (mjoin (le_bytes 4 <$> l) ++ s) ->
  exists o', collect_n (length l) (read_u32 buf) o = Ok (l, o') /\ at_offset buf o' s.
Proof.
  intros Hl. revert o. induction Hl as [|x l Hx Hl IH]; intros o Ha; [simpl in *; eauto|].
  rewrite ids_cons, <- app_assoc in Ha.
  apply read_u32_at in Ha as [Hr Ha]; [|unfold in_u32, U32_MAX in Hx; lia].
  destruct (IH _ Ha) as (o' & Hc & Ho). exists o'. cbn [length collect_n]. by rewrite Hr, Hc.
Qed.

Lemma read_partitions_at buf o l s :
  Forall in_u32 l -> asc l -> Z.of_nat (length l) <= MAX_PARTITIONS_IN_TOKEN ->
  (1 + 8 + 8 <= length s)%nat ->
  at_offset buf o (le_bytes 4 (as_u32 (Z.of_nat (length l))) ++ mjoin (le_bytes 4 <$> l) ++ s) ->
  exists o', read_partitions buf o = Ok (l, o') /\ at_offset buf o' s.
Proof.
  intros Hu Hl Hn Hs Ha. unfold MAX_PARTITIONS_IN_TOKEN in Hn. unfold as_u32 in Ha.
  rewrite Z.mod_small in Ha by lia. apply read_u32_at in Ha as [Hr Ha]; [|lia].
  unfold read_partitions, MAX_PARTITIONS_IN_TOKEN. rewrite Hr, Nat2Z.id.
  pose proof (length_ids l) as Hj.
  pose proof (at_field _ _ _ _ Ha) as (_ & _ & Hlen). rewrite Hj in Hlen.
  rewrite (proj2 (Z.ltb_ge _ _)) by lia. rewrite (proj2 (Nat.ltb_ge _ _)) by lia. cbn [orb].
  destruct (collect_ids_at _ _ _ _ Hu Ha) as (o' & -> & Ho). exists o'.
  fold (scope l). by rewrite scope_id.
Qed.

Lemma read_mode_at_at buf o m s :
  at_offset buf o (read_mode_byte m :: s) ->
  read_mode_at buf o = Ok (m, (o + 1)%nat) /\ at_offset buf (o + 1) s.
Proof.
  intros Ha. change (_ :: s) with ([read_mode_byte m] ++ s) in Ha.
  destruct Ha as (pre & -> & <-). unfold read_mode_at.
  rewrite (proj2 (Nat.leb_gt _ _)) by (rewrite !length_app; simpl; lia).
  rewrite app_nth2, Nat.sub_diag by lia. split; [by destruct m|].
  exists (pre ++ [read_mode_byte m]). by rewrite <- app_assoc, length_app.
Qed.

Definition budget_ok (v : option Z) : Prop := forall n, v = Some n -> 0 <= n < U64_MAX.

Lemma read_opt_usize_at buf o v s :
  budget_ok v -> at_offset buf o (opt_usize_le v ++ s) ->
  read_opt_usize buf o = Ok (v, (o + 8)%nat) /\ at_offset buf (o + 8) s.
Proof.
  intros Hv Ha. apply at_field in Ha as (Ha & Hs & Hl).
  assert (Hlen : length (opt_usize_le v) = 8%nat) by (destruct v; apply length_le_bytes).
  rewrite Hlen in *. unfold read_opt_usize.
  rewrite (proj2 (Nat.ltb_ge _ _)) by lia. rewrite Hs. split; [|done]. destruct v as [n|]; simpl.
  - specialize (Hv n eq_refl). unfold U64_MAX in Hv. rewrite le_val_bytes_small by lia.
    rewrite (proj2 (Z.eqb_neq _ _)); [done|]. unfold U64_MAX. lia.
  - done.
Qed.

(** ** The continuations a cluster issues *)

Record continuation_ok (c : QueryContinuation) : Prop := {
  ok_query : utf8_valid (query_id c) = true;
  ok_after : utf8_valid (after_subject c) = true;
  ok_prefix : forall p, prefix c = Some p -> utf8_valid p = true /\ p <> [];
  ok_partitions : asc (partitions c);
  ok_u32 : Forall in_u32 (partitions c);
  ok_page : 0 <= page_size c;
  ok_limit : budget_ok (remaining_limit c);
  ok_docs : budget_ok (remaining_max_docs c) }.

Lemma constant_time_eq_refl x : constant_time_eq x x = true.
Proof.
  unfold constant_time_eq. rewrite Nat.eqb_refl. cbn [andb].
  assert (H : fold_diff 0 x x = 0); [|by rewrite H].
  induction x as [|b x IH]; [done|]. cbn [fold_diff]. by rewrite Z.lxor_nilpotent, Z.lor_0_l.
Qed.

(** The token's bytes behind the 28-byte header. *)
Definition fields (c : QueryContinuation) : list byte :=
  le_bytes 4 (as_u32 (Z.of_nat (length (query_id c)))) ++ query_id c
    ++ le_bytes 4 (as_u32 (Z.of_nat (length (after_subject c)))) ++ after_subject c
    ++ le_bytes 4 (as_u32 (page_size c))
    ++ le_bytes 4 (as_u32 (Z.of_nat (length (default [] (prefix c))))) ++ default [] (prefix c)
    ++ le_bytes 4 (as_u32 (Z.of_nat (length (partitions c))))
    ++ mjoin (le_bytes 4 <$> partitions c)
    ++ read_mode_byte (read_mode c)
    :: opt_usize_le (remaining_limit c) ++ opt_usize_le (remaining_max_docs c).

Section Tokens.
Context `{K : KeyedBlake3} `{KL : !KeyedBlake3Laws K}.

(** What [encode] has checked when it returns a token. *)
Lemma encode_checked c cid r tok :
  encode c cid r = Ok tok ->
  Z.of_nat (length (after_subject c)) <= MAX_SUBJECT_IN_TOKEN
  /\ Z.of_nat (length (partitions c)) <= MAX_PARTITIONS_IN_TOKEN
  /\ page_size c <> 0 /\ page_size c <= MAX_FIND_PAGE_SIZE
  /\ Z.of_nat (length (body cid r c) + MAC_LEN) <= MAX_TOKEN_BYTES
  /\ tok = body cid r c ++ take MAC_LEN (keyed_hash (active_mac_key r MAC_DOMAIN cid) (body cid r c)).
Proof.
  unfold encode. intros He. run He. boolify. simplify_eq. split_and!; done.
Qed.

Lemma read_fields_body c cid r :
  continuation_ok c -> length cid = 16%nat ->
  Z.of_nat (length (body cid r c) + MAC_LEN) <= MAX_TOKEN_BYTES ->
  Z.of_nat (length (partitions c)) <= MAX_PARTITIONS_IN_TOKEN ->
  page_size c <> 0 -> page_size c <= MAX_FIND_PAGE_SIZE ->
  read_fields (body cid r c) = Ok c.
Proof.
  intros [Hq Ha Hp Hs Hu Hg Hli Hdo] Hcid Hlen Hn Hp0 Hpm.
  unfold MAX_TOKEN_BYTES, MAC_LEN in Hlen.
  set (payload := body cid r c). fold payload in Hlen.
  assert (Hb : exists hd, length hd = 28%nat /\ payload = hd ++ fields c).
  { exists (TOKEN_MAGIC ++ cid ++ le_bytes 4 (active_generation_id r)). split.
    - rewrite !length_app, length_le_bytes, Hcid. done.
    - unfold payload, body, fields. by rewrite <- !app_assoc. }
  destruct Hb as (hd & Hhd & Hb).
  assert (Hsz : Z.of_nat (length (query_id c) + length (after_subject c)
                          + length (default [] (prefix c))) < 2 ^ 32).
  { rewrite Hb in Hlen. unfold fields in Hlen. rewrite !length_app in Hlen. lia. }
  assert (Hat : at_offset payload 28 (fields c)) by (by exists hd).
  clearbody payload. clear hd Hhd Hb. unfold read_fields, fields in *.
  eapply read_text_at in Hat as (o1 & -> & Hat); [|done|lia].
  eapply read_text_at in Hat as (o2 & -> & Hat); [|done|lia].
  apply read_page_size_at in Hat as (o3 & -> & Hat); [|lia].
  eapply read_text_at in Hat as (o4 & -> & Hat); [| |lia].
  2: { destruct (prefix c) as [p|] eqn:Hpc; [by destruct (Hp p eq_refl)|done]. }
  apply read_partitions_at in Hat as (o5 & -> & Hat); [|done..|].
  2: { cbn [length]. rewrite length_app.
       destruct (remaining_limit c), (remaining_max_docs c); cbn [opt_usize_le];
       rewrite !length_le_bytes; lia. }
  apply read_mode_at_at in Hat as [-> Hat].
  apply read_opt_usize_at in Hat as [-> Hat]; [|done].
  rewrite <- (app_nil_r (opt_usize_le _)) in Hat.
  apply read_opt_usize_at in Hat as [-> Hat]; [|done].
  destruct Hat as (pre & -> & <-). rewrite app_nil_r, Nat.eqb_refl. cbn [negb].
  f_equal. destruct c as [q a g [[|b p]|] ps m li do]; try done. by destruct (Hp _ eq_refl).
Qed.

(** The token's frame: what [decode] finds before it looks at the fields. *)
Lemma decode_frame c cid r r' tok :
  keyring_ok r -> length cid = 16%nat -> encode c cid r = Ok tok ->
  decode cid r' tok =
  match mac_key_for r' (active_generation_id r) MAC_DOMAIN cid with
  | None => invalid "continuation token key generation retired or unknown"
  | Some key =>
      if negb (constant_time_eq
                 (take MAC_LEN (keyed_hash (active_mac_key r MAC_DOMAIN cid) (body cid r c)))
                 (take MAC_LEN (keyed_hash key (body cid r c)))) then
        invalid "continuation token MAC mismatch (tampered, forged, or wrong cluster)"
      else read_fields (body cid r c)
  end.
Proof.
  intros [[Hg _] _] Hcid He. apply encode_checked in He as (_ & _ & _ & _ & Hlen & ->).
  set (tag := take MAC_LEN _).
  assert (Htag : length tag = MAC_LEN) by (subst tag; rewrite length_take, KL; done).
  unfold decode. rewrite length_app, Htag, Nat.add_sub, take_app_length, drop_app_length.
  rewrite (proj2 (Z.ltb_ge (MAX_TOKEN_BYTES) _)) by lia.
  set (b := body cid r c) in *.
  assert (Hb : exists tl, b = TOKEN_MAGIC ++ cid ++ le_bytes 4 (active_generation_id r) ++ tl
                          /\ (37 <= length tl)%nat).
  { exists (fields c). split; [done|]. unfold fields. rewrite !length_app. cbn [length].
    rewrite !length_app, !length_le_bytes.
    destruct (remaining_limit c), (remaining_max_docs c); cbn [opt_usize_le];
      rewrite !length_le_bytes; lia. }
  destruct Hb as (tl & Hb & Htl).
  assert (Hbl : (65 <= length b)%nat).
  { rewrite Hb, !length_app, length_le_bytes, Hcid. simpl. lia. }
  rewrite (proj2 (Z.ltb_ge _ _)) by (unfold MAC_LEN; lia). cbn [orb].
  assert (H1 : take 8 b = TOKEN_MAGIC) by (by rewrite Hb).
  assert (H2 : slice 8 24 b = cid) by (rewrite Hb; apply slice_part; [done|lia]).
  assert (H3 : slice 24 28 b = le_bytes 4 (active_generation_id r)).
  { rewrite Hb, app_assoc. apply slice_part; rewrite ?length_app, ?length_le_bytes, ?Hcid; done. }
  rewrite H1, H2, H3. unfold bytes_eqb. rewrite !bool_decide_eq_true_2 by done. cbn [negb].
  rewrite le_val_bytes_small; [done|]. unfold active_generation_id, U32_MAX in *. lia.
Qed.

(** A keyring that still knows the issuing generation's key accepts the token. *)
Lemma decode_issued c cid r r' tok :
  keyring_ok r -> continuation_ok c -> length cid = 16%nat -> encode c cid r = Ok tok ->
  mac_key_for r' (active_generation_id r) MAC_DOMAIN cid = Some (active_mac_key r MAC_DOMAIN cid) ->
  decode cid r' tok = Ok c.
Proof.
  intros Hr Hc Hcid He Hk. rewrite (decode_frame c cid r r') by done. rewrite Hk.
  rewrite constant_time_eq_refl. cbn [negb].
  apply encode_checked in He as (_ & ? & ? & ? & ? & _). by apply read_fields_body.
Qed.

(** Subjects of at most 4096 bytes and scopes of moderate size fit into a token. *)
Lemma encode_succeeds c cid r :
  length cid = 16%nat -> length (query_id c) = 18%nat ->
  Z.of_nat (length (after_subject c)) <= 4096 -> 1 <= page_size c <= 4096 ->
  Z.of_nat (length (default [] (prefix c))) + 4 * Z.of_nat (length (partitions c)) <= 12000 ->
  exists tok, encode c cid r = Ok tok.
Proof.
  intros Hcid Hq Ha Hp Hfit. unfold encode.
  unfold MAX_SUBJECT_IN_TOKEN, MAX_PARTITIONS_IN_TOKEN, MAX_FIND_PAGE_SIZE, MAX_TOKEN_BYTES, MAC_LEN.
  rewrite !(proj2 (Z.ltb_ge _ _)) by lia. rewrite (proj2 (Z.eqb_neq _ _)) by lia. cbn [orb].
  rewrite (proj2 (Z.ltb_ge _ _)); [by eauto|].
  unfold body. rewrite !length_app, !length_le_bytes, length_ids, Hcid, Hq.
  assert (Hb : forall v, length (opt_usize_le v) = 8%nat) by (intros []; apply length_le_bytes).
  rewrite !Hb. change (length TOKEN_MAGIC) with 8%nat. cbn [length]. lia.
Qed.

Definition rotated (r : ContinuationKeyring) (s : list byte) : ContinuationKeyring :=
  fst (rotate r (Some s)).
Definition retired : result ContinuationError QueryContinuation :=
  invalid "continuation token key generation retired or unknown".

(** C34. A continuation token lives through exactly one rotation of the keys: a
    token issued under a keyring decodes, to the very continuation it was made
    from, under that keyring and under the keyring after one rotation; after a
    second rotation, or once the previous generation is retired, it is refused
    as retired. *)
Theorem token_lives_one_rotation c cid r tok s1 s2 :
  keyring_ok r -> continuation_ok c -> length cid = 16%nat ->
  generation_id (active r) + 2 <= U32_MAX ->
  encode c cid r = Ok tok ->
  decode cid r tok = Ok c
  /\ decode cid (rotated r s1) tok = Ok c
  /\ decode cid (rotated (rotated r s1) s2) tok = retired
  /\ decode cid (retire_previous (rotated r s1)) tok = retired.
Proof.
  intros Hr Hc Hcid Hgen He. pose proof (proj1 (ko_active _ Hr)) as Hpos.
  split_and!.
  - eapply decode_issued; [done..|]. unfold mac_key_for, active_generation_id.
    by rewrite Z.eqb_refl.
  - eapply decode_issued; [done..|]. unfold mac_key_for, active_generation_id. simpl.
    rewrite (proj2 (Z.eqb_neq _ _)) by lia. by rewrite Z.eqb_refl.
  - rewrite (decode_frame c cid r) by done. unfold mac_key_for, active_generation_id. simpl.
    rewrite (proj2 (Z.eqb_neq _ _)) by lia. by rewrite (proj2 (Z.eqb_neq _ _)) by lia.
  - rewrite (decode_frame c cid r) by done. unfold mac_key_for, active_generation_id. simpl.
    by rewrite (proj2 (Z.eqb_neq _ _)) by lia.
Qed.
End Tokens.

(** ** A concrete token *)

Definition sample_keyed : KeyedBlake3 := fun key bs => be_bytes 32 (le_val (key ++ bs)).
Definition sample_ring : ContinuationKeyring :=
  {| active := {| generation_id := 1; secret := repeat (z2b 7) 32 |}; previous := None |}.
Definition sample_cid : list byte := repeat (z2b 9) 16.
Definition sample_continuation : QueryContinuation :=
  {| query_id := lit "q-0000000000000001"; after_subject := lit "users/bob"; page_size := 2;
     prefix := Some (lit "users/"); partitions := [0; 3]; read_mode := Available;
     remaining_limit := Some 5; remaining_max_docs := None |}.
Definition sample_token : list byte :=
  match encode (K := sample_keyed) sample_continuation sample_cid sample_ring with
  | Ok t => t | Err _ => []
  end.

Lemma sample_ring_ok : keyring_ok sample_ring.
Proof. constructor; [split; [vm_compute; split; discriminate|done]|done]. Qed.
Lemma sample_continuation_ok : continuation_ok sample_continuation.
Proof.
  constructor; try done.
  - by intros p [= <-].
  - repeat constructor.
  - repeat constructor; done.
  - intros n [= <-]. done.
Qed.

(** The hypotheses of [token_lives_one_rotation] hold of a concrete token. *)
Lemma token_lives_one_rotation_witness :
  length sample_token = 122%nat
  /\ decode (K := sample_keyed) sample_cid (rotated sample_ring (repeat (z2b 8) 32)) sample_token
     = Ok sample_continuation.
Proof.
  split; [vm_compute; reflexivity|].
  refine (proj1 (proj2 (token_lives_one_rotation (K := sample_keyed) (KL := fun _ _ => _)
    sample_continuation sample_cid sample_ring sample_token (repeat (z2b 8) 32) []
    sample_ring_ok sample_continuation_ok _ _ _))).
  - apply length_be_bytes.
  - reflexivity.
  - vm_compute. discriminate.
  - vm_compute. reflexivity.
Defined.
