(* ===== verification/ClusterScan.v ===== *)
(** * Distributed reads of a cluster

    Model of the read paths of [crates/residiuum-cluster/src/cluster.rs]: the
    cluster handle, leader election on demand, [get], [scan_with] and the paged
    find.  A node's embedded store is seen through the interface [NodeStore]; the
    standard library's [DefaultHasher] is the operation of [QueryHasher].  Every
    operation on [&mut self] returns the handle next to its result, also where it
    fails. *)
From S2P Require Import Prelude Cbor AtomicFile AtomicPlan Raft Cluster ClusterToken.

(** ** The interface of a node's store *)

(** The outcomes the cluster tells apart: incomplete and contradictory payloads, and
    any other error. *)
Inductive StoreError : Type := PayloadPartial | PayloadConflict | StoreFailure (code : string).

Class NodeStore (S : Type) : Type := {
  (** the keys of [store.live_entries()], in the order of the index *)
  live_keys : S -> list (list byte);
  (** [store.get(subject)] *)
  store_get : S -> list byte -> result StoreError (option (list byte)) }.

(** The primary index is a [BTreeMap] keyed by subject bytes. *)
Class NodeStoreLaws (S : Type) `{N : NodeStore S} : Prop :=
  live_keys_sorted (s : S) : StronglySorted bytes_lt (live_keys s).

Inductive ClusterError : Type :=
| Store (e : StoreError)
| PartitionUnavailable (partition : PartitionId) (reason : string)
| NoLeader (partition : PartitionId)
| ConsistencyViolation (what : string)
| ContinuationInvalid (what : string)
| DurabilityUnavailable (what : list byte)
| ReplicationRejected (what : list byte)
| CorruptMeta (what : string)
| Rebalance (what : list byte)
| Io.

(** [DefaultHasher] over the scope, the prefix and the limit of a find. *)
Class QueryHasher : Type := query_hash : list PartitionId -> list byte -> Z -> Z.

(** [format!("{:016x}", n)] *)
Definition hex_char (d : Z) : byte := if d <? 10 then z2b (48 + d) else z2b (87 + d).
Definition hex16 (n : Z) : list byte :=
  (fun i => hex_char (Z.land (Z.shiftr n (4 * (15 - Z.of_nat i))) 15)) <$> seq 0 16.

Definition make_query_id `{QueryHasher} (parts : list PartitionId) (prefix : option (list byte))
    (limit : option Z) : list byte :=
  lit "q-" ++ hex16 (query_hash parts (default [] prefix) (default U64_MAX limit)).

Module Reads.
Import Coverage.

Section Cluster.
Context {S : Type} `{N : NodeStore S} `{H : Blake3} `{K : KeyedBlake3} `{Q : QueryHasher}.
(** Whether a peer's hard state reaches its durable store, per partition. *)
Context (save : PartitionId -> NodeId -> RaftPeer -> bool).

Record Cluster := {
  cluster_id : list byte;
  profile : DeploymentProfile;
  consistency_mode : ConsistencyMode;
  partition_map : PartitionMap;
  directory : Directory.PartitionDirectory;
  expected_node_count : Z;
  nodes : gmap Z S;
  offline : list Z;
  missing_nodes : list Z;
  raft : gmap Z PartitionRaft;
  convergent_pos : gmap Z Z;
  rebalance_jobs : gmap Z Rebalance.RebalanceJob;
  token_keyring : Keyring.ContinuationKeyring }.

Definition with_parts (c : Cluster) (d : Directory.PartitionDirectory) (ns : gmap Z S)
    (off : list Z) (r : gmap Z PartitionRaft) : Cluster := {|
  cluster_id := cluster_id c; profile := profile c; consistency_mode := consistency_mode c;
  partition_map := partition_map c; directory := d; expected_node_count := expected_node_count c;
  nodes := ns; offline := off; missing_nodes := missing_nodes c; raft := r;
  convergent_pos := convergent_pos c; rebalance_jobs := rebalance_jobs c;
  token_keyring := token_keyring c |}.

Definition online_node_count (c : Cluster) : Z := as_u32 (Z.of_nat (size (nodes c))).
Definition online_nodes (c : Cluster) : list NodeId := sort_ids (fst <$> map_to_list (nodes c)).
Definition is_online (c : Cluster) (n : NodeId) : bool := bool_decide (is_Some (nodes c !! n)).
Definition replicated_durability_available (c : Cluster) : bool :=
  negb (bool_decide (profile c = Development)) && (2 <=? online_node_count c).
Definition partition_for_subject (c : Cluster) (subject : list byte) : PartitionId :=
  partition_of (partition_map c) (default_partition_key subject).

(** [mark_offline]: the handle is dropped and leadership held by the node ends. *)
Definition demote (n : NodeId) (g : PartitionRaft) : PartitionRaft :=
  match current_leader g with
  | Some (l, _) => if l =? n then upd g n (fun p => set_role p Follower) else g
  | None => g
  end.
Definition mark_offline (c : Cluster) (n : NodeId) : Cluster :=
  with_parts c (directory c) (delete n (nodes c))
    (if bool_decide (n ∈ offline c) then offline c else sort_ids (offline c ++ [n]))
    (demote n <$> raft c).

(** [mark_online]: [opened] is the outcome of [Store::open] on the node's path. *)
Definition mark_online (c : Cluster) (n : NodeId) (opened : result StoreError S)
    : Cluster * result ClusterError unit :=
  let off := List.filter (fun x => negb (x =? n)) (offline c) in
  if is_online c n then (with_parts c (directory c) (nodes c) off (raft c), Ok tt)
  else match opened with
       | Ok s => (with_parts c (directory c) (<[n := s]> (nodes c)) off (raft c), Ok tt)
       | Err e => (with_parts c (directory c) (nodes c) off (raft c), Err (Store e))
       end.

(** ** Leader election on demand *)

Definition elect_failure (p : PartitionId) (e : ElectError) : ClusterError :=
  match e with
  | NotAVoter => NoLeader p
  | HigherTerm _ => PartitionUnavailable p "election observed higher term"
  | _ => PartitionUnavailable p "no leader elected (quorum unavailable)"
  end.

Definition ensure_partition_leader (c : Cluster) (p : PartitionId)
    : Cluster * result ClusterError (NodeId * Term) :=
  match raft c !! p with
  | None => (c, Err (NoLeader p))
  | Some g =>
      let preferred := Directory.leader <$> Directory.get (directory c) p in
      let '(g', r) := ensure_leader_preferring (save p) g (online_nodes c) preferred in
      match r with
      | Err e => (with_parts c (directory c) (nodes c) (offline c) (<[p := g']> (raft c)),
                  Err (elect_failure p e))
      | Ok (l, t) =>
          (with_parts c (Directory.set_leader (directory c) p l t) (nodes c) (offline c)
             (<[p := g']> (raft c)),
           Ok (l, t))
      end
  end.

Definition commit_position (c : Cluster) (p : PartitionId) : LogPosition :=
  match raft c !! p with Some g => max_commit_index g | None => 0 end.
(** Term and position reported for a read that no leader vouches for. *)
Definition observed_frontier (c : Cluster) (p : PartitionId) (fallback : Term) : Term * LogPosition :=
  match raft c !! p with
  | Some g => (match current_leader g with Some (_, t) => t | None => fallback end,
               max_commit_index g)
  | None => (fallback, 0)
  end.

(** ** Point reads *)

Record GetResult := { value : option (list byte); get_coverage : Coverage; absence_proven : bool }.

Definition DEV_NOTE : list byte := lit "development profile: replicated durability unavailable".

Definition add_new (order : list NodeId) (n : NodeId) : list NodeId :=
  if bool_decide (n ∈ order) then order else order ++ [n].

Definition replica_order (c : Cluster) (p : PartitionId) (a : Directory.PartitionAssignment)
    : list NodeId :=
  let order := match raft c !! p ≫= current_leader with Some (l, _) => [l] | None => [] end in
  foldl add_new (order ++ [Directory.leader a]) (Directory.replicas a).

Fixpoint get_from (c : Cluster) (p : PartitionId) (subject : list byte) (cov : Coverage)
    (order : list NodeId) : result ClusterError GetResult :=
  match order with
  | [] => Ok {| value := None; get_coverage := mark_unavailable cov p; absence_proven := false |}
  | n :: rest =>
      match nodes c !! n with
      | None => get_from c p subject cov rest
      | Some s =>
          match store_get s subject with
          | Ok v =>
              let '(t, pos) := observed_frontier c p 0 in
              Ok {| value := v; get_coverage := mark_completed cov p t pos (Some n);
                    absence_proven := false |}
          | Err e => Err (Store e)
          end
      end
  end.

Definition get_linearizable (c : Cluster) (p : PartitionId) (subject : list byte) (cov : Coverage)
    : Cluster * result ClusterError GetResult :=
  if bool_decide (consistency_mode c = ConvergentAppend) then
    (c, Err (ConsistencyViolation
               "linearizable reads are not available in convergent-append mode"))
  else
    match ensure_partition_leader c p with
    | (c', Err e) => (c', Err e)
    | (c', Ok (l, t)) =>
        match nodes c' !! l with
        | None => (c', Err (PartitionUnavailable p "leader handle missing"))
        | Some s =>
            match store_get s subject with
            | Err e => (c', Err (Store e))
            | Ok v =>
                (c', Ok {| value := v;
                           get_coverage := mark_completed cov p t (commit_position c' p) (Some l);
                           absence_proven := true |})
            end
        end
    end.

Definition get (c : Cluster) (subject : list byte) (mode : ReadMode)
    : Cluster * result ClusterError GetResult :=
  let p := partition_for_subject c subject in
  let cov0 := single p in
  let cov1 := if negb (replicated_durability_available c) then note cov0 DEV_NOTE else cov0 in
  let cov := if bool_decide (consistency_mode c = ConvergentAppend)
             then note cov1 (lit "convergent-append: not linearizable") else cov1 in
  match Directory.get (directory c) p with
  | None => (c, Ok {| value := None; get_coverage := mark_unavailable cov p;
                      absence_proven := false |})
  | Some a =>
      match mode with
      | Linearizable => get_linearizable c p subject cov
      | Available | Salvage => (c, get_from c p subject cov (replica_order c p a))
      end
  end.

(** ** Collecting one partition *)

(** [entries], [seen] and [docs_scanned], threaded through the partitions. *)
Record Gather := {
  entries : list (list byte * list byte);
  seen : gset (list byte);
  docs_scanned : Z }.

Definition starts_with (s p : list byte) : bool := bytes_eqb (take (length p) s) p.

(** The filters that come before a subject counts as examined. *)
Definition in_scope (c : Cluster) (p : PartitionId) (prefix after : option (list byte))
    (subject : list byte) : bool :=
  utf8_valid subject
    && (partition_for_subject c subject =? p)
    && (match prefix with Some q => starts_with subject q | None => true end)
    && (match after with Some a => negb (bytes_leb subject a) | None => true end).

Definition over_budget (docs : Z) (max_docs : option Z) : bool :=
  match max_docs with Some m => m <? docs | None => false end.

Fixpoint collect_keys (c : Cluster) (s : S) (p : PartitionId) (prefix after : option (list byte))
    (max_docs : option Z) (keys : list (list byte)) (g : Gather)
    : result ClusterError (bool * Gather) :=
  match keys with
  | [] => Ok (false, g)
  | k :: rest =>
      if negb (in_scope c p prefix after k) then collect_keys c s p prefix after max_docs rest g
      else if bool_decide (k ∈ seen g) then collect_keys c s p prefix after max_docs rest g
      else
        let docs := docs_scanned g + 1 in
        let g1 := {| entries := entries g; seen := {[k]} ∪ seen g; docs_scanned := docs |} in
        if over_budget docs max_docs then Ok (true, g1)
        else
          match store_get s k with
          | Ok (Some v) =>
              collect_keys c s p prefix after max_docs rest
                {| entries := entries g1 ++ [(k, v)]; seen := seen g1; docs_scanned := docs |}
          | Ok None | Err PayloadPartial => collect_keys c s p prefix after max_docs rest g1
          | Err e => Err (Store e)
          end
  end.

Definition collect_partition_entries (c : Cluster) (s : S) (p : PartitionId)
    (prefix after : option (list byte)) (max_docs : option Z) (g : Gather)
    : result ClusterError (bool * Gather) :=
  collect_keys c s p prefix after max_docs (live_keys s) g.

Inductive ContactOutcome : Type :=
| Served (t : Term) (pos : LogPosition) (n : NodeId)
| BudgetExhausted (t : Term) (pos : LogPosition) (n : NodeId)
| Unavailable.

Definition outcome (hit : bool) (t : Term) (pos : LogPosition) (n : NodeId) : ContactOutcome :=
  if hit then BudgetExhausted t pos n else Served t pos n.

(** The first replica that is online serves the partition. *)
Fixpoint contact_replicas (c : Cluster) (p : PartitionId) (a : Directory.PartitionAssignment)
    (prefix after : option (list byte)) (max_docs : option Z) (rs : list NodeId) (g : Gather)
    : result ClusterError (ContactOutcome * Gather) :=
  match rs with
  | [] => Ok (Unavailable, g)
  | r :: rest =>
      match nodes c !! r with
      | None => contact_replicas c p a prefix after max_docs rest g
      | Some s =>
          let? '(hit, g') := collect_partition_entries c s p prefix after max_docs g in
          let '(t, pos) := observed_frontier c p (Directory.term a) in
          Ok (outcome hit t pos r, g')
      end
  end.

Definition contact_partition (c : Cluster) (p : PartitionId) (a : Directory.PartitionAssignment)
    (mode : ReadMode) (prefix after : option (list byte)) (max_docs : option Z) (g : Gather)
    : Cluster * result ClusterError (ContactOutcome * Gather) :=
  let fallback c := (c, contact_replicas c p a prefix after max_docs (Directory.replicas a) g) in
  if bool_decide (mode = Linearizable) && negb (bool_decide (consistency_mode c = ConvergentAppend))
  then
    match ensure_partition_leader c p with
    | (c', Ok (l, t)) =>
        match nodes c' !! l with
        | Some s =>
            (c', let? '(hit, g') := collect_partition_entries c' s p prefix after max_docs g in
                 Ok (outcome hit t (commit_position c' p) l, g'))
        | None => fallback c'
        end
    | (c', Err _) => fallback c'
    end
  else fallback c.

(** ** The scan over the visited partitions *)

Record Walk := {
  coverage : Coverage;
  rows : list (list byte * list byte);
  w_seen : gset (list byte);
  w_docs : Z;
  budget_stopped : bool }.

Definition visit_stopped (w : Walk) (p : PartitionId) : Walk :=
  if bool_decide (p ∈ completed (coverage w)) || bool_decide (p ∈ unavailable (coverage w)) then w
  else {| coverage := note (coverage w) (lit "partition " ++ decimal p
                                           ++ lit " not examined (resource budget)");
          rows := rows w; w_seen := w_seen w; w_docs := w_docs w;
          budget_stopped := budget_stopped w |}.

Definition visit_unassigned (w : Walk) (p : PartitionId) : Walk :=
  {| coverage := mark_unavailable (coverage w) p; rows := rows w; w_seen := w_seen w;
     w_docs := w_docs w; budget_stopped := budget_stopped w |}.

Definition visit_outcome (w : Walk) (p : PartitionId) (o : ContactOutcome) (g : Gather) : Walk :=
  match o with
  | Served t pos n =>
      {| coverage := mark_completed (coverage w) p t pos (Some n); rows := rows w ++ entries g;
         w_seen := seen g; w_docs := docs_scanned g; budget_stopped := budget_stopped w |}
  | BudgetExhausted t pos n =>
      {| coverage := mark_resource_limit (mark_completed (coverage w) p t pos (Some n))
                       (lit "max_docs_scanned budget reached after " ++ decimal (docs_scanned g)
                          ++ lit " subjects");
         rows := rows w ++ entries g; w_seen := seen g; w_docs := docs_scanned g;
         budget_stopped := true |}
  | Unavailable =>
      {| coverage := mark_unavailable (coverage w) p; rows := rows w; w_seen := seen g;
         w_docs := docs_scanned g; budget_stopped := budget_stopped w |}
  end.

Fixpoint visit_all (c : Cluster) (mode : ReadMode) (prefix after : option (list byte))
    (max_docs : option Z) (visit : list PartitionId) (w : Walk)
    : Cluster * result ClusterError Walk :=
  match visit with
  | [] => (c, Ok w)
  | p :: rest =>
      if budget_stopped w then visit_all c mode prefix after max_docs rest (visit_stopped w p)
      else
        match Directory.get (directory c) p with
        | None => visit_all c mode prefix after max_docs rest (visit_unassigned w p)
        | Some a =>
            match contact_partition c p a mode prefix after max_docs
                    {| entries := []; seen := w_seen w; docs_scanned := w_docs w |} with
            | (c', Err e) => (c', Err e)
            | (c', Ok (o, g)) =>
                visit_all c' mode prefix after max_docs rest (visit_outcome w p o g)
            end
        end
  end.

(** ** Options and results *)

Record ScanOptions := {
  subject_prefix : option (list byte);
  limit : option Z;
  max_docs_scanned : option Z;
  scan_partitions : option (list PartitionId);
  scan_read_mode : ReadMode;
  page_size : option Z;
  continuation : option (list byte);
  visit_order : option (list PartitionId);
  after_subject : option (list byte) }.

Definition scan_defaults : ScanOptions := {|
  subject_prefix := None; limit := None; max_docs_scanned := None; scan_partitions := None;
  scan_read_mode := Linearizable; page_size := None; continuation := None; visit_order := None;
  after_subject := None |}.

Record FindResult := {
  find_entries : list (list byte * list byte);
  find_coverage : Coverage;
  query_id : list byte;
  truncated : bool;
  has_more : bool;
  next_token : option (list byte) }.

Definition lift_token {A} (r : result Token.ContinuationError A) : result ClusterError A :=
  match r with
  | Ok a => Ok a
  | Err (Token.ContinuationInvalid what) => Err (ContinuationInvalid what)
  end.

Definition or_else {A} (a b : option A) : option A :=
  match a with Some _ => a | None => b end.

Definition row_cmp (a b : list byte * list byte) : comparison := bytes_cmp a.1 b.1.
Definition MAX_PAGE : Z := Token.MAX_FIND_PAGE_SIZE.
Definition clamp_page (n : Z) : Z := Z.max 1 (Z.min n MAX_PAGE).

(** The query a call resolves to: from its continuation where it has one, else from
    its options. *)
Record Query := {
  q_mode : ReadMode;
  q_prefix : option (list byte);
  q_after : option (list byte);
  q_page : option Z;
  q_limit : option Z;
  q_max_docs : option Z;
  q_requested : list PartitionId;
  q_id : list byte }.

Definition resolve (c : Cluster) (o : ScanOptions) (cont : option Token.QueryContinuation) : Query :=
  let prefix := or_else (cont ≫= Token.prefix) (subject_prefix o) in
  let lim := or_else (cont ≫= Token.remaining_limit) (limit o) in
  let requested :=
    match cont with
    | Some k => Token.partitions k
    | None => match scan_partitions o with
              | Some ps => dedup_ids (sort_ids ps)
              | None => all_partitions (partition_map c)
              end
    end in {|
  q_mode := match cont with Some k => Token.read_mode k | None => scan_read_mode o end;
  q_prefix := prefix;
  q_after := or_else (Token.after_subject <$> cont) (after_subject o);
  q_page := clamp_page <$> or_else (Token.page_size <$> cont) (page_size o);
  q_limit := lim;
  q_max_docs := or_else (cont ≫= Token.remaining_max_docs) (max_docs_scanned o);
  q_requested := requested;
  q_id := match cont with
          | Some k => Token.query_id k
          | None => make_query_id requested prefix lim
          end |}.

Definition start_coverage (c : Cluster) (q : Query) (resumed : bool) : Coverage :=
  let cov := search_tier (use_index (with_read_mode (for_partitions (q_requested q)) (q_mode q))
                            (lit "primary-scan")) (lit "hot") in
  let cov1 := if negb (replicated_durability_available c) then note cov DEV_NOTE else cov in
  if resumed then note cov1 (lit "resumed via continuation (query_id=" ++ q_id q ++ lit ")")
  else cov1.

Definition sat_sub_opt (l : option Z) (n : Z) : option Z := (fun x => sat_sub x n) <$> l.

(** The page cut from the merged rows. *)
Definition paginate (c : Cluster) (q : Query) (cov : Coverage)
    (all : list (list byte * list byte)) (docs : Z) : result ClusterError FindResult :=
  let answer rows cov cut more token :=
    {| find_entries := rows; find_coverage := cov; query_id := q_id q; truncated := cut;
       has_more := more; next_token := token |} in
  match q_page q with
  | Some ps =>
      let cap := match q_limit q with Some l => Z.min l ps | None => ps end in
      if cap <? Z.of_nat (length all) then
        let page := take (Z.to_nat cap) all in
        let cov' := note cov (lit "page truncated to " ++ decimal cap ++ lit " (page_size="
                                ++ decimal ps ++ lit ")") in
        match last page with
        | None => Ok (answer page cov' true true None)
        | Some (k, _) =>
            let rest := sat_sub_opt (q_limit q) (Z.of_nat (length page)) in
            if bool_decide (rest = Some 0) then Ok (answer page cov' true false None)
            else
              let next := {|
                Token.query_id := q_id q; Token.after_subject := k; Token.page_size := ps;
                Token.prefix := q_prefix q; Token.partitions := q_requested q;
                Token.read_mode := q_mode q; Token.remaining_limit := rest;
                Token.remaining_max_docs := sat_sub_opt (q_max_docs q) docs |} in
              let? token := lift_token (Token.encode next (cluster_id c) (token_keyring c)) in
              Ok (answer page cov' true true (Some token))
        end
      else Ok (answer all cov false false None)
  | None =>
      match q_limit q with
      | Some l =>
          if l <? Z.of_nat (length all) then
            Ok (answer (take (Z.to_nat l) all)
                  (note cov (lit "result truncated to limit " ++ decimal l)) true false None)
          else Ok (answer all cov false false None)
      | None => Ok (answer all cov false false None)
      end
  end.

Definition visit_of (q : Query) (o : ScanOptions) : result ClusterError (list PartitionId) :=
  match visit_order o with
  | Some order =>
      if bool_decide (dedup_ids (sort_ids order) = q_requested q) then Ok order
      else Err (ConsistencyViolation "visit_order must be a permutation of the partition scope")
  | None => Ok (q_requested q)
  end.

Definition scan_with (c : Cluster) (o : ScanOptions) : Cluster * result ClusterError FindResult :=
  let cont := match continuation o with
              | Some tok =>
                  let? k := lift_token (Token.decode (cluster_id c) (token_keyring c) tok) in
                  Ok (Some k)
              | None => Ok None
              end in
  match cont with
  | Err e => (c, Err e)
  | Ok cont =>
      let q := resolve c o cont in
      match visit_of q o with
      | Err e => (c, Err e)
      | Ok visit =>
          let w0 := {| coverage := start_coverage c q (bool_decide (is_Some cont)); rows := [];
                       w_seen := ∅; w_docs := 0; budget_stopped := false |} in
          match visit_all c (q_mode q) (q_prefix q) (q_after q) (q_max_docs q) visit w0 with
          | (c', Err e) => (c', Err e)
          | (c', Ok w) =>
              (c', paginate c' q (coverage w) (sort_by row_cmp (rows w)) (w_docs w))
          end
      end
  end.

Definition find (c : Cluster) (o : ScanOptions) := scan_with c o.

Definition scan_all (c : Cluster)
    : Cluster * result ClusterError (list (list byte * list byte) * Coverage) :=
  match scan_with c scan_defaults with
  | (c', Ok f) => (c', Ok (find_entries f, find_coverage f))
  | (c', Err e) => (c', Err e)
  end.

Definition DEFAULT_FIND_PAGE_SIZE : Z := 64.

Definition scan_page (c : Cluster) (o : ScanOptions) : Cluster * result ClusterError FindResult :=
  let size := match page_size o, continuation o with
              | None, None => Some DEFAULT_FIND_PAGE_SIZE
              | ps, _ => ps
              end in
  scan_with c {|
    subject_prefix := subject_prefix o; limit := limit o; max_docs_scanned := max_docs_scanned o;
    scan_partitions := scan_partitions o; scan_read_mode := scan_read_mode o; page_size := size;
    continuation := continuation o; visit_order := visit_order o;
    after_subject := after_subject o |}.
End Cluster.
#[global] Arguments Cluster S : clear implicits.
End Reads.
