(* ===== verification/ClusterScanFacts.v ===== *)
(** * What a distributed scan returns

    The scan is compared with its reference: the rows of the first online replica
    of every requested partition, in subject order.  Paging through continuations
    cuts exactly that sequence. *)
From S2P Require Import Prelude Cbor AtomicFile AtomicPlan Raft Cluster ClusterToken ClusterScan.
Import Reads.

(** ** Filters *)

Lemma filter_twice {A} (f g : A -> bool) l :
  List.filter f (List.filter g l) = List.filter (fun x => g x && f x) l.
Proof. induction l as [|x l IH]; [done|]. simpl. destruct (g x); simpl; by rewrite IH. Qed.
Lemma filter_none {A} (f : A -> bool) l : (forall x, x ∈ l -> f x = false) -> List.filter f l = [].
Proof.
  induction l as [|x l IH]; intros Hf; [done|]. simpl. rewrite Hf by (by left).
  apply IH. intros y Hy. apply Hf. by right.
Qed.

(** ** Rows in subject order *)

Abbreviation row := (list byte * list byte)%type.
Definition row_lt (a b : row) : Prop := bytes_lt a.1 b.1.

Lemma subject_cmp_refl k : bytes_cmp k k = Eq.
Proof. by apply bytes_cmp_Eq. Qed.
Lemma subject_lt_irrefl k : ~ bytes_lt k k.
Proof. unfold bytes_lt. by rewrite subject_cmp_refl. Qed.
Lemma bytes_leb_false a b : bytes_leb a b = false <-> bytes_lt b a.
Proof.
  unfold bytes_leb, bytes_lt. rewrite (bytes_cmp_antisym a b). by destruct (bytes_cmp a b).
Qed.

Lemma row_cmp_antisym a b : row_cmp b a = CompOpp (row_cmp a b).
Proof. apply bytes_cmp_antisym. Qed.
Lemma row_cmp_trans x y z : not_gt row_cmp x y -> not_gt row_cmp y z -> not_gt row_cmp x z.
Proof.
  unfold not_gt, row_cmp. intros H1 H2.
  destruct (bytes_cmp x.1 y.1) eqn:E1; [|clear H1|done].
  - apply bytes_cmp_Eq in E1 as ->. done.
  - destruct (bytes_cmp y.1 z.1) eqn:E2; [| |done].
    + apply bytes_cmp_Eq in E2 as <-. by rewrite E1.
    + by rewrite (bytes_lt_trans _ _ _ E1 E2 : bytes_cmp _ _ = Lt).
Qed.

Lemma NoDup_key (l : list row) x y :
  NoDup (l.*1) -> x ∈ l -> y ∈ l -> x.1 = y.1 -> x = y.
Proof.
  induction l as [|z l IH]; [by intros _ ?%not_elem_of_nil|].
  intros Hn Hx Hy Hxy. cbn [fmap list_fmap] in Hn. apply NoDup_cons in Hn as [Hz Hn].
  assert (Hz' : forall u, u ∈ l -> u.1 <> z.1)
    by (intros u Hu He; apply Hz; rewrite <- He; by apply list_elem_of_fmap_2).
  apply elem_of_cons in Hx as [->|Hx]; apply elem_of_cons in Hy as [->|Hy].
  - done.
  - by edestruct Hz'.
  - by edestruct Hz'.
  - by apply IH.
Qed.

Lemma sort_rows_strict (l : list row) : NoDup (l.*1) -> StronglySorted row_lt (sort_by row_cmp l).
Proof.
  intros Hn. pose proof (sort_by_sorted row_cmp row_cmp_antisym row_cmp_trans l) as Hs.
  assert (Hn' : NoDup ((sort_by row_cmp l).*1)) by (by rewrite sort_by_perm).
  induction Hs as [|x k Hk IH Hx]; [constructor|]. cbn [fmap list_fmap] in Hn'.
  apply NoDup_cons in Hn' as [Hx' Hn']. constructor; [by apply IH|].
  rewrite Forall_forall in Hx |- *. intros y Hy. specialize (Hx _ Hy).
  unfold row_lt, bytes_lt. unfold not_gt, row_cmp in Hx.
  destruct (bytes_cmp x.1 y.1) eqn:E; [|done..].
  apply bytes_cmp_Eq in E. destruct Hx'. rewrite E. by apply list_elem_of_fmap_2.
Qed.
Lemma sort_rows_perm (l l' : list row) : NoDup (l.*1) -> l ≡ₚ l' -> sort_by row_cmp l = sort_by row_cmp l'.
Proof.
  intros Hn Hp. apply sort_by_order; [apply row_cmp_antisym|apply row_cmp_trans| |done].
  intros x y Hx Hy E. eapply NoDup_key; [done..|]. by apply bytes_cmp_Eq.
Qed.

#[local] Instance row_lt_antisymm : AntiSymm eq row_lt.
Proof. intros a b H1 H2. destruct (subject_lt_irrefl a.1). by eapply bytes_lt_trans. Qed.

Lemma strict_rows_NoDup (l : list row) : StronglySorted row_lt l -> NoDup l.
Proof.
  induction 1 as [|x l Hl IH Hx]; constructor; [|done]. intros Hin.
  rewrite Forall_forall in Hx. apply (subject_lt_irrefl x.1), (Hx _ Hin).
Qed.
Lemma strict_rows_unique (l l' : list row) :
  StronglySorted row_lt l -> StronglySorted row_lt l' -> (forall r, r ∈ l <-> r ∈ l') -> l = l'.
Proof.
  intros H1 H2 Hm. apply (StronglySorted_unique row_lt); [done..|].
  apply NoDup_Permutation; [by apply strict_rows_NoDup..|done].
Qed.

(** The rows behind a key of a sorted list are what is left after it. *)
Lemma rows_after (l : list row) n k v :
  StronglySorted row_lt l -> last (take n l) = Some (k, v) ->
  List.filter (fun r => negb (bytes_leb r.1 k)) l = drop n l.
Proof.
  intros Hs. revert n. induction Hs as [|x l Hl IH Hx]; intros n Hlast; [by rewrite take_nil in Hlast|].
  destruct n as [|n]; [done|]. cbn [take] in Hlast. cbn [drop List.filter].
  assert (Hrest : forall y, y ∈ l -> bytes_lt x.1 y.1) by (by rewrite Forall_forall in Hx).
  destruct (take n l) as [|y l'] eqn:Ht.
  - cbn in Hlast. simplify_eq. cbn [fst].
    assert (Hkk : bytes_leb k k = true) by (unfold bytes_leb; by rewrite subject_cmp_refl).
    rewrite Hkk. cbn [negb].
    assert (drop n l = l) as ->.
    { rewrite <- (take_drop n l) at 2. by rewrite Ht. }
    clear -Hrest. induction l as [|y l IH]; [done|]. cbn [List.filter].
    rewrite (proj2 (bytes_leb_false y.1 k)) by (apply Hrest; by left). cbn [negb]. f_equal.
    apply IH. intros z Hz. apply Hrest. by right.
  - rewrite last_cons_cons, <- Ht in Hlast. rewrite (IH _ Hlast).
    assert (Hxk : bytes_leb x.1 k = true).
    { assert (Hin : (k, v) ∈ l).
      { apply last_Some_elem_of in Hlast. rewrite <- (take_drop n l), elem_of_app. by left. }
      unfold bytes_leb. by rewrite (Hrest _ Hin : bytes_cmp x.1 k = Lt). }
    by rewrite Hxk.
Qed.

Section ScanFacts.
Context {S : Type} `{N : NodeStore S} `{NL : !NodeStoreLaws S}.
Context `{H : Blake3} `{K : KeyedBlake3} `{KL : !KeyedBlake3Laws K} `{Q : QueryHasher}.
Context (save : PartitionId -> NodeId -> RaftPeer -> bool).

Implicit Types (c : Cluster S) (k : list byte) (r : list byte * list byte).

(** ** The reference *)

Fixpoint first_online c (rs : list NodeId) : option S :=
  match rs with
  | [] => None
  | n :: rest => match nodes c !! n with Some s => Some s | None => first_online c rest end
  end.
Definition serving c (p : PartitionId) : option S :=
  Directory.get (directory c) p ≫= fun a => first_online c (Directory.replicas a).

Definition row_of (s : S) k : option (list byte * list byte) :=
  match store_get s k with Ok (Some v) => Some (k, v) | _ => None end.

Definition partition_rows c (prefix after : option (list byte)) (p : PartitionId)
    : list (list byte * list byte) :=
  match serving c p with
  | Some s => omap (row_of s) (List.filter (in_scope c p prefix after) (live_keys s))
  | None => []
  end.

Definition expected c (parts : list PartitionId) (prefix after : option (list byte)) :=
  sort_by row_cmp (parts ≫= partition_rows c prefix after).

(** Every subject in scope can be read, or is a partial payload. *)
Definition readable c (parts : list PartitionId) (prefix after : option (list byte)) : Prop :=
  forall p s k e, p ∈ parts -> serving c p = Some s -> k ∈ live_keys s ->
    in_scope c p prefix after k = true -> store_get s k = Err e -> e = PayloadPartial.

(** The read contacts replicas without an election. *)
Definition plain c (mode : ReadMode) : Prop :=
  mode <> Linearizable \/ consistency_mode c = ConvergentAppend.

(** ** One partition *)

Lemma live_keys_NoDup (s : S) : NoDup (live_keys s).
Proof.
  pose proof (live_keys_sorted s) as Hs. induction Hs as [|k l Hl IH Hk]; constructor; [|done].
  intros Hin. rewrite Forall_forall in Hk. specialize (Hk _ Hin). unfold bytes_lt in Hk.
  by rewrite (proj2 (bytes_cmp_Eq k k) eq_refl) in Hk.
Qed.

Definition fresh (g : gset (list byte)) (keys : list (list byte)) : list (list byte) :=
  List.filter (fun k => negb (bool_decide (k ∈ g))) keys.

Lemma fresh_add g k keys : k ∉ keys -> fresh ({[k]} ∪ g) keys = fresh g keys.
Proof.
  intros Hk. unfold fresh. apply filter_ext_in. intros x Hx. apply list_elem_of_In in Hx.
  f_equal. apply bool_decide_ext. assert (x <> k) by congruence.
  rewrite elem_of_union, elem_of_singleton. tauto.
Qed.

Ltac seen_case Hs k :=
  intros x; rewrite Hs, ?elem_of_union, ?elem_of_singleton, elem_of_cons;
  destruct (decide (x = k)) as [->|]; intuition congruence.
Ltac collect_next IH Hr g' Hc He Hs :=
  match goal with
  | |- context [collect_keys _ _ _ _ _ _ _ ?g1] => destruct (IH g1 Hr) as (g' & Hc & He & Hs)
  end.

Lemma collect_keys_spec c s p prefix after keys g :
  NoDup keys ->
  (forall k e, k ∈ keys -> in_scope c p prefix after k = true -> store_get s k = Err e ->
     e = PayloadPartial) ->
  exists g', collect_keys c s p prefix after None keys g = Ok (false, g')
    /\ entries g' = entries g ++ omap (row_of s) (List.filter (in_scope c p prefix after)
                                                   (fresh (seen g) keys))
    /\ forall k, k ∈ seen g' <-> k ∈ seen g \/ (k ∈ keys /\ in_scope c p prefix after k = true).
Proof.
  intros Hn. revert g. induction Hn as [|k keys Hk Hn IH]; intros g Hr.
  { exists g. cbn. rewrite app_nil_r. split_and!; [done..|]. intros k. split; [tauto|]. intros [?|[?%not_elem_of_nil _]]; done. }
  assert (Hr' : forall x e, x ∈ keys -> in_scope c p prefix after x = true ->
    store_get s x = Err e -> e = PayloadPartial) by (intros; eapply Hr; eauto; by right).
  cbn [collect_keys fresh List.filter].
  destruct (in_scope c p prefix after k) eqn:Hsc; cbn [negb].
  2: { destruct (IH g Hr') as (g' & Hc & He & Hs). exists g'. split; [done|]. split.
       - rewrite He. fold (fresh (seen g) keys). destruct (negb _); cbn [List.filter]; by rewrite ?Hsc.
       - seen_case Hs k. }
  case_bool_decide as Hseen; cbn [negb].
  { destruct (IH g Hr') as (g' & Hc & He & Hs). exists g'. split_and!; [done..|].
    seen_case Hs k. }
  cbn [over_budget]. cbn [List.filter]. rewrite Hsc. cbn [omap list_omap]. unfold row_of at 1.
  destruct (store_get s k) as [[v|]|e] eqn:Hg.
  - collect_next IH Hr' g' Hc He Hs.
    exists g'. split; [done|]. cbn [entries seen] in He, Hs. split.
    + rewrite He, fresh_add by done. by rewrite <- app_assoc.
    + seen_case Hs k.
  - collect_next IH Hr' g' Hc He Hs.
    exists g'. split; [done|]. cbn [entries seen] in He, Hs. split.
    + by rewrite He, fresh_add.
    + seen_case Hs k.
  - assert (e = PayloadPartial) as -> by (apply (Hr k); [by left|done..]).
    collect_next IH Hr' g' Hc He Hs.
    exists g'. split; [done|]. cbn [entries seen] in He, Hs. split.
    + by rewrite He, fresh_add.
    + seen_case Hs k.
Qed.

Lemma contact_replicas_spec c p a prefix after rs g :
  (forall s k e, first_online c rs = Some s -> k ∈ live_keys s ->
     in_scope c p prefix after k = true -> store_get s k = Err e -> e = PayloadPartial) ->
  match first_online c rs with
  | None => contact_replicas c p a prefix after None rs g = Ok (Unavailable, g)
  | Some s =>
      exists t pos n g', contact_replicas c p a prefix after None rs g = Ok (Served t pos n, g')
        /\ entries g' = entries g ++ omap (row_of s) (List.filter (in_scope c p prefix after)
                                                       (fresh (seen g) (live_keys s)))
        /\ forall k, k ∈ seen g' <->
             k ∈ seen g \/ (k ∈ live_keys s /\ in_scope c p prefix after k = true)
  end.
Proof.
  induction rs as [|n rs IH]; intros Hr; [done|]. cbn [first_online contact_replicas] in *.
  destruct (nodes c !! n) as [s|]; [|by apply IH].
  destruct (collect_keys_spec c s p prefix after (live_keys s) g) as (g' & Hc & He & Hs);
    [apply live_keys_NoDup|by intros; eapply Hr|].
  unfold collect_partition_entries. rewrite Hc. destruct (observed_frontier _ _ _) as [t pos].
  exists t, pos, n, g'. done.
Qed.

Lemma contact_plain c mode p a prefix after md g :
  plain c mode ->
  contact_partition save c p a mode prefix after md g
  = (c, contact_replicas c p a prefix after md (Directory.replicas a) g).
Proof.
  intros [Hm|Hc]; unfold contact_partition.
  - by rewrite (bool_decide_eq_false_2 (mode = _)) by done.
  - by rewrite (bool_decide_eq_true_2 (consistency_mode c = _)), andb_false_r by done.
Qed.

(** ** The walk over the partitions *)

Section Walk.
Context c (mode : ReadMode) (prefix after : option (list byte)) (Hplain : plain c mode).

Definition scoped (p : PartitionId) k : Prop :=
  exists s, serving c p = Some s /\ k ∈ live_keys s /\ in_scope c p prefix after k = true.

Lemma scoped_partition p k : scoped p k -> partition_for_subject c k = p.
Proof. intros (s & _ & _ & Hi). unfold in_scope in Hi. boolify. done. Qed.

Record walk_ok (V : list PartitionId) (w : Walk) : Prop := {
  wo_nodup : NoDup V;
  wo_rows : rows w ≡ₚ V ≫= partition_rows c prefix after;
  wo_seen : forall k, k ∈ w_seen w <-> exists p, p ∈ V /\ scoped p k;
  wo_running : budget_stopped w = false;
  wo_cov : CoverageFacts.coverage_ok (coverage w);
  wo_completed : forall p, p ∈ Coverage.completed (coverage w) <-> p ∈ V /\ is_Some (serving c p);
  wo_unavailable : forall p, p ∈ Coverage.unavailable (coverage w) <-> p ∈ V /\ serving c p = None }.

(** What a visit leaves alone in the coverage. *)
Definition same_scope (a b : Coverage.Coverage) : Prop :=
  Coverage.requested a = Coverage.requested b
  /\ Coverage.resource_limit_reached a = Coverage.resource_limit_reached b
  /\ Coverage.tiers_excluded a = Coverage.tiers_excluded b.

Definition add_visit (V : list PartitionId) (p : PartitionId) : list PartitionId :=
  if bool_decide (p ∈ V) then V else p :: V.

Lemma elem_of_add_visit V p q : q ∈ add_visit V p <-> q = p \/ q ∈ V.
Proof. unfold add_visit. case_bool_decide; rewrite ?elem_of_cons; intuition congruence. Qed.

(** A first visit finds all of the partition's rows, a repeated one none. *)
Lemma fresh_rows V w p s :
  walk_ok V w -> serving c p = Some s ->
  omap (row_of s) (List.filter (in_scope c p prefix after) (fresh (w_seen w) (live_keys s)))
  = if bool_decide (p ∈ V) then [] else partition_rows c prefix after p.
Proof.
  intros Hw Hs. unfold partition_rows. rewrite Hs. case_bool_decide as Hp.
  - unfold fresh. rewrite filter_twice, filter_none; [done|]. intros k Hk.
    destruct (in_scope c p prefix after k) eqn:Hi; [|by rewrite andb_false_r].
    rewrite andb_true_r. apply negb_false_iff, bool_decide_eq_true, (wo_seen _ _ Hw).
    exists p. split; [done|]. by exists s.
  - f_equal. unfold fresh. rewrite filter_twice. apply filter_ext_in. intros k Hk.
    destruct (in_scope c p prefix after k) eqn:Hi; [|by rewrite andb_false_r].
    rewrite andb_true_r. apply negb_true_iff, bool_decide_eq_false. rewrite (wo_seen _ _ Hw).
    intros (q & Hq & Hsc). apply scoped_partition in Hsc. subst q. apply Hp.
    unfold in_scope in Hi. boolify. congruence.
Qed.

Lemma add_visit_NoDup V p : NoDup V -> NoDup (add_visit V p).
Proof. intros. unfold add_visit. case_bool_decide; [done|by constructor]. Qed.

Lemma walk_unavailable V w w' p :
  walk_ok V w -> serving c p = None -> rows w' = rows w -> w_seen w' = w_seen w ->
  budget_stopped w' = budget_stopped w ->
  coverage w' = Coverage.mark_unavailable (coverage w) p -> walk_ok (add_visit V p) w'.
Proof.
  intros [Hn Hr Hs Hb Hc Hco Hun] Hp Er Es Eb Ec. constructor.
  - by apply add_visit_NoDup.
  - rewrite Er, Hr. unfold add_visit. case_bool_decide; [done|]. rewrite bind_cons.
    unfold partition_rows at 2. by rewrite Hp.
  - intros k. rewrite Es, Hs. setoid_rewrite elem_of_add_visit.
    split; [intros (q & ? & ?); by eauto|].
    intros (q & [->|Hq] & Hsc); [|by eauto]. destruct Hsc as (s & Hs' & _). congruence.
  - congruence.
  - rewrite Ec. by apply CoverageFacts.mark_unavailable_ok.
  - intros q. rewrite Ec. cbn [Coverage.mark_unavailable Coverage.with_marks Coverage.completed].
    rewrite CoverageFacts.elem_of_drop_id, Hco, elem_of_add_visit.
    destruct (decide (q = p)) as [->|]; [|tauto]. rewrite Hp. split; [tauto|]. by intros [_ [? [=]]].
  - intros q. rewrite Ec. cbn [Coverage.mark_unavailable Coverage.with_marks Coverage.unavailable].
    rewrite CoverageFacts.elem_of_push_sorted, Hun, elem_of_add_visit.
    destruct (decide (q = p)) as [->|]; tauto.
Qed.

Lemma walk_served V w w' p s t pos n :
  walk_ok V w -> serving c p = Some s ->
  rows w' = rows w ++ omap (row_of s) (List.filter (in_scope c p prefix after)
                                         (fresh (w_seen w) (live_keys s))) ->
  (forall k, k ∈ w_seen w' <->
     k ∈ w_seen w \/ (k ∈ live_keys s /\ in_scope c p prefix after k = true)) ->
  budget_stopped w' = budget_stopped w ->
  coverage w' = Coverage.mark_completed (coverage w) p t pos n -> walk_ok (add_visit V p) w'.
Proof.
  intros Hw Hp Er Es Eb Ec. pose proof (fresh_rows _ _ _ _ Hw Hp) as Hf.
  destruct Hw as [Hn Hr Hs Hb Hc Hco Hun]. constructor.
  - by apply add_visit_NoDup.
  - rewrite Er, Hf, Hr. unfold add_visit. case_bool_decide; [by rewrite app_nil_r|].
    by rewrite bind_cons, Permutation_app_comm.
  - intros k. rewrite Es, Hs. setoid_rewrite elem_of_add_visit. split.
    + intros [(q & Hq & Hsc)|[Hk Hi]]; [by eauto|]. exists p. split; [by left|]. by exists s.
    + intros (q & [->|Hq] & Hsc); [|by eauto]. right. destruct Hsc as (s' & Hs' & ? & ?).
      simplify_eq. done.
  - congruence.
  - rewrite Ec. by apply CoverageFacts.mark_completed_ok.
  - intros q. rewrite Ec. cbn [Coverage.mark_completed Coverage.with_marks Coverage.completed].
    rewrite CoverageFacts.elem_of_push_sorted, Hco, elem_of_add_visit.
    destruct (decide (q = p)) as [->|]; [|tauto]. rewrite Hp. split; [by eauto|tauto].
  - intros q. rewrite Ec. cbn [Coverage.mark_completed Coverage.with_marks Coverage.unavailable].
    rewrite CoverageFacts.elem_of_drop_id, Hun, elem_of_add_visit.
    destruct (decide (q = p)) as [->|]; [|tauto]. rewrite Hp. split; [tauto|]. by intros [_ [=]].
Qed.

Lemma visit_all_spec visit V w :
  walk_ok V w -> readable c visit prefix after ->
  exists w', visit_all save c mode prefix after None visit w = (c, Ok w')
    /\ walk_ok (foldl add_visit V visit) w' /\ same_scope (coverage w') (coverage w).
Proof.
  revert V w. induction visit as [|p visit IH]; intros V w Hw Hr; [by exists w|].
  assert (Hr' : readable c visit prefix after) by (intros q s k e Hq; apply Hr; by right).
  assert (Hrp := fun s k e => Hr p s k e (list_elem_of_here _ _)).
  cbn [visit_all foldl]. rewrite (wo_running _ _ Hw).
  destruct (Directory.get (directory c) p) as [a|] eqn:Hd.
  2: { destruct (IH (add_visit V p) (visit_unassigned w p)) as (w' & Hv & Hok & Hsc);
         [eapply walk_unavailable; try done; unfold serving; by rewrite Hd|done|].
       exists w'. done. }
  rewrite contact_plain by done.
  assert (Hserv : serving c p = first_online c (Directory.replicas a)) by (unfold serving; by rewrite Hd).
  rewrite Hserv in Hrp.
  pose proof (contact_replicas_spec c p a prefix after (Directory.replicas a)
    {| entries := []; seen := w_seen w; docs_scanned := w_docs w |} Hrp) as Hcr.
  destruct (first_online c (Directory.replicas a)) as [s|] eqn:Hfo.
  - destruct Hcr as (t & pos & n & g' & -> & He & Hse).
    destruct (IH (add_visit V p) (visit_outcome w p (Served t pos n) g')) as (w' & Hv & Hok & Hsc);
      [|done|by exists w'].
    eapply walk_served; [done|done| |done|done|done]. cbn [visit_outcome rows]. by rewrite He.
  - rewrite Hcr.
    match goal with
    | |- context [visit_outcome w p Unavailable ?g] =>
        destruct (IH (add_visit V p) (visit_outcome w p Unavailable g)) as (w' & Hv & Hok & Hsc)
    end; [by eapply walk_unavailable|done|by exists w'].
Qed.
End Walk.

(** ** The reference in order *)

Lemma elem_of_partition_rows c prefix after p r :
  r ∈ partition_rows c prefix after p <->
  exists s, serving c p = Some s /\ r.1 ∈ live_keys s /\ in_scope c p prefix after r.1 = true
            /\ store_get s r.1 = Ok (Some r.2).
Proof.
  unfold partition_rows. destruct (serving c p) as [s|].
  2: { split; [by intros ?%not_elem_of_nil|by intros (? & ? & _)]. }
  rewrite list_elem_of_omap. split.
  - intros (k & Hk & Hr). rewrite list_elem_of_In, filter_In, <- list_elem_of_In in Hk.
    unfold row_of in Hr. destruct (store_get s k) as [[v|]|] eqn:Hg; simplify_eq.
    exists s. by destruct Hk.
  - intros (s' & [= <-] & Hk & Hi & Hg). exists r.1.
    rewrite list_elem_of_In, filter_In, <- list_elem_of_In. unfold row_of. rewrite Hg. by destruct r.
Qed.

Lemma omap_row_key (s : S) l k : k ∈ (omap (row_of s) l).*1 -> k ∈ l.
Proof.
  intros (r & -> & Hr)%list_elem_of_fmap. apply list_elem_of_omap in Hr as (x & Hx & Hr).
  unfold row_of in Hr. destruct (store_get s x) as [[v|]|]; by simplify_eq.
Qed.
Lemma omap_row_NoDup (s : S) l : NoDup l -> NoDup ((omap (row_of s) l).*1).
Proof.
  induction 1 as [|k l Hk Hl IH]; [constructor|]. cbn [omap list_omap].
  destruct (row_of s k) as [r|] eqn:Hr; [|done]. cbn [fmap list_fmap]. constructor; [|done].
  unfold row_of in Hr. destruct (store_get s k) as [[v|]|]; simplify_eq. cbn [fst].
  intros Hin. by apply omap_row_key in Hin.
Qed.
Lemma filter_bool_NoDup {A} (f : A -> bool) (l : list A) : NoDup l -> NoDup (List.filter f l).
Proof.
  induction 1 as [|x l Hx Hl IH]; simpl; [constructor|]. destruct (f x); [|done].
  constructor; [|done]. rewrite list_elem_of_In, filter_In, <- list_elem_of_In. tauto.
Qed.

Lemma partition_rows_partition c prefix after p r :
  r ∈ partition_rows c prefix after p -> partition_for_subject c r.1 = p.
Proof.
  intros (s & _ & _ & Hi & _)%elem_of_partition_rows. unfold in_scope in Hi. by boolify.
Qed.

Lemma rows_NoDup c prefix after parts :
  NoDup parts -> NoDup ((parts ≫= partition_rows c prefix after).*1).
Proof.
  induction 1 as [|p parts Hp Hn IH]; [constructor|]. rewrite bind_cons, fmap_app.
  apply NoDup_app. split_and!; [| |done].
  - unfold partition_rows. destruct (serving c p); [|constructor].
    apply omap_row_NoDup, filter_bool_NoDup, live_keys_NoDup.
  - intros k (r & -> & Hr)%list_elem_of_fmap (r' & Hk & Hr')%list_elem_of_fmap.
    apply list_elem_of_bind in Hr' as (q & Hq & Hqp).
    apply partition_rows_partition in Hr, Hq. congruence.
Qed.

Lemma expected_sorted c parts prefix after :
  NoDup parts -> StronglySorted row_lt (expected c parts prefix after).
Proof. intros Hn. by apply sort_rows_strict, rows_NoDup. Qed.
Lemma elem_of_expected c parts prefix after r :
  r ∈ expected c parts prefix after <->
  exists p, p ∈ parts /\ r ∈ partition_rows c prefix after p.
Proof.
  unfold expected. rewrite sort_by_perm, list_elem_of_bind. split; intros (p & ? & ?); eauto.
Qed.
Lemma expected_perm c parts parts' prefix after :
  NoDup parts -> parts ≡ₚ parts' -> expected c parts prefix after = expected c parts' prefix after.
Proof. intros Hn Hp. apply sort_rows_perm; [by apply rows_NoDup|]. by rewrite Hp. Qed.

(** Moving the lower bound forward drops the rows up to it. *)
Lemma in_scope_after c p prefix after k x :
  (forall a, after = Some a -> bytes_lt a k) ->
  in_scope c p prefix (Some k) x = in_scope c p prefix after x && negb (bytes_leb x k).
Proof.
  intros Hak. unfold in_scope. destruct after as [a|]; [|by rewrite andb_true_r].
  rewrite <- !andb_assoc. do 3 f_equal.
  destruct (bytes_leb x k) eqn:Hx; [by rewrite andb_false_r|]. cbn [negb]. rewrite andb_true_r.
  symmetry. apply negb_true_iff, bytes_leb_false. apply bytes_leb_false in Hx.
  eapply bytes_lt_trans; [by apply Hak|done].
Qed.
Lemma filter_bool_sorted (f : row -> bool) l :
  StronglySorted row_lt l -> StronglySorted row_lt (List.filter f l).
Proof.
  induction 1 as [|x l Hl IH Hx]; simpl; [constructor|]. destruct (f x); [|done].
  constructor; [done|]. rewrite Forall_forall in Hx |- *. intros y Hy. apply Hx.
  rewrite list_elem_of_In, filter_In in Hy. apply list_elem_of_In. tauto.
Qed.
Lemma expected_after c parts prefix after k :
  NoDup parts -> (forall a, after = Some a -> bytes_lt a k) ->
  expected c parts prefix (Some k)
  = List.filter (fun r => negb (bytes_leb r.1 k)) (expected c parts prefix after).
Proof.
  intros Hn Hak. apply strict_rows_unique.
  - by apply expected_sorted.
  - by apply filter_bool_sorted, expected_sorted.
  - intros r. rewrite (list_elem_of_In (List.filter _ _)), filter_In, <- list_elem_of_In.
    rewrite !elem_of_expected. setoid_rewrite elem_of_partition_rows.
    setoid_rewrite (in_scope_after c _ prefix after k); [|done].
    split.
    + intros (p & Hp & s & ? & ? & [? ?]%andb_true_iff & ?). split; [|done].
      exists p. split; [done|]. by exists s.
    + intros [(p & Hp & s & ? & ? & ? & ?) ?]. exists p. split; [done|]. exists s.
      by rewrite andb_true_iff.
Qed.

(** ** The scan *)

(** The continuation a call resumes from. *)
Definition resumes c (o : ScanOptions) (cont : option Token.QueryContinuation) : Prop :=
  match continuation o with
  | None => cont = None
  | Some tok => exists t, cont = Some t
                          /\ Token.decode (cluster_id c) (token_keyring c) tok = Ok t
  end.

Record scan_coverage c (parts : list PartitionId) (cov : Coverage.Coverage) : Prop := {
  sc_ok : CoverageFacts.coverage_ok cov;
  sc_requested : Coverage.requested cov = parts;
  sc_limit : Coverage.resource_limit_reached cov = false;
  sc_tiers : Coverage.tiers_excluded cov = [];
  sc_completed : forall p, p ∈ Coverage.completed cov <-> p ∈ parts /\ is_Some (serving c p);
  sc_unavailable : forall p, p ∈ Coverage.unavailable cov <-> p ∈ parts /\ serving c p = None }.

Lemma scan_coverage_note c parts cov msg :
  scan_coverage c parts cov -> scan_coverage c parts (Coverage.note cov msg).
Proof. intros [[] ? ? ? ? ?]. constructor; [by constructor|done..]. Qed.

(** Coverage is complete exactly when every requested partition has an online replica. *)
Lemma scan_coverage_complete c parts cov :
  scan_coverage c parts cov ->
  Coverage.is_complete cov = true <-> forall p, p ∈ parts -> is_Some (serving c p).
Proof.
  intros [Hok Hr Hl Ht Hc Hu]. rewrite CoverageFacts.is_complete_spec, Hr, Hl, Ht. split.
  - intros (_ & _ & _ & Hp) p Hin. by apply Hc, Hp.
  - intros Hp. split_and!; [done| |done|].
    + destruct (Coverage.unavailable cov) as [|p l]; [done|].
      destruct (proj1 (Hu p)) as [Hin Hn]; [by left|].
      destruct (Hp _ Hin) as [? ?]. congruence.
    + intros p Hin. apply Hc. split; [done|by apply Hp].
Qed.

Lemma start_walk_ok c q resumed prefix after :
  walk_ok c prefix after []
    {| coverage := start_coverage c q resumed; rows := []; w_seen := ∅; w_docs := 0;
       budget_stopped := false |}.
Proof.
  constructor; cbn [rows w_seen budget_stopped coverage].
  - constructor.
  - done.
  - intros k. split; [by intros ?%not_elem_of_empty|by intros (? & ?%not_elem_of_nil & _)].
  - done.
  - pose proof (CoverageFacts.for_partitions_ok (q_requested q)) as [].
    unfold start_coverage. destruct (negb _), resumed; by constructor.
  - intros p. unfold start_coverage. destruct (negb _), resumed; cbn;
      by (split; [intros ?%not_elem_of_nil|intros [?%not_elem_of_nil _]]).
  - intros p. unfold start_coverage. destruct (negb _), resumed; cbn;
      by (split; [intros ?%not_elem_of_nil|intros [?%not_elem_of_nil _]]).
Qed.

Lemma foldl_add_visit_elem visit V p : p ∈ foldl add_visit V visit <-> p ∈ V \/ p ∈ visit.
Proof.
  revert V. induction visit as [|q visit IH]; intros V; cbn [foldl].
  - split; [tauto|]. intros [?|?%not_elem_of_nil]; done.
  - rewrite IH, elem_of_add_visit, elem_of_cons. tauto.
Qed.

Lemma visit_of_elem (q : Query) o visit :
  visit_of q o = Ok visit -> forall p, p ∈ visit <-> p ∈ q_requested q.
Proof.
  unfold visit_of. intros Hv p. destruct (visit_order o) as [order|]; [|by simplify_eq].
  case_bool_decide as Ho; simplify_eq. rewrite <- Ho. symmetry. apply (elem_of_scope p visit).
Qed.

Lemma scan_with_spec c o cont visit :
  let q := resolve c o cont in
  resumes c o cont -> asc (q_requested q) -> visit_of q o = Ok visit -> plain c (q_mode q) ->
  q_max_docs q = None -> readable c (q_requested q) (q_prefix q) (q_after q) ->
  exists cov docs,
    scan_with save c o
    = (c, paginate c q cov (expected c (q_requested q) (q_prefix q) (q_after q)) docs)
    /\ scan_coverage c (q_requested q) cov.
Proof.
  intros q Hres Hasc Hvisit Hplain Hmd Hread.
  pose proof (visit_of_elem _ _ _ Hvisit) as Hmem.
  assert (Hread' : readable c visit (q_prefix q) (q_after q)).
  { intros p s k e Hp. apply Hread. by apply Hmem. }
  assert (Hd : forall A (f : option Token.QueryContinuation -> A) (g : ClusterError -> A),
    match (match continuation o with
           | Some tok => let? k := lift_token (Token.decode (cluster_id c) (token_keyring c) tok) in
                         Ok (Some k)
           | None => Ok None
           end) with Err e => g e | Ok x => f x end = f cont).
  { intros A f g. unfold resumes in Hres. destruct (continuation o) as [tok|].
    - destruct Hres as (k & -> & ->). done.
    - by rewrite Hres. }
  unfold scan_with. rewrite Hd. fold q. rewrite Hvisit, Hmd.
  destruct (visit_all_spec c (q_mode q) (q_prefix q) (q_after q) Hplain visit []
    {| coverage := start_coverage c q (bool_decide (is_Some cont)); rows := []; w_seen := ∅;
       w_docs := 0; budget_stopped := false |}) as (w & Hv & Hw & Hreq & Hlim & Htier);
    [apply start_walk_ok|done|].
  rewrite Hv. exists (coverage w), (w_docs w).
  assert (HV : forall p, p ∈ foldl add_visit [] visit <-> p ∈ q_requested q).
  { intros p. rewrite foldl_add_visit_elem, Hmem. split; [|tauto].
    intros [?%not_elem_of_nil|?]; done. }
  split.
  - do 2 f_equal. unfold expected. symmetry. apply sort_rows_perm.
    + by apply rows_NoDup, asc_NoDup.
    + rewrite (wo_rows _ _ _ _ _ Hw). apply bind_Permutation.
      apply NoDup_Permutation; [by apply asc_NoDup|apply (wo_nodup _ _ _ _ _ Hw)|].
      intros p. symmetry. apply HV.
  - pose proof Hw as [_ _ _ _ Hok Hco Hun].
    constructor; [done| | | |intros p; by rewrite Hco, HV|intros p; by rewrite Hun, HV].
    + rewrite Hreq. unfold start_coverage. transitivity (scope (q_requested q)); [|by apply scope_id].
      by destruct (negb _), (bool_decide _).
    + rewrite Hlim. unfold start_coverage. by destruct (negb _), (bool_decide _).
    + rewrite Htier. unfold start_coverage. by destruct (negb _), (bool_decide _).
Qed.
End ScanFacts.
