(* ===== verification/ClusterPaging.v ===== *)
(** * One-shot scans and paged finds agree

    The claims about distributed reads: a scan returns exactly the readable
    subjects of its scope and says truthfully which partitions it covered, and
    following continuation tokens from page to page returns the same rows, each
    once and in the same order. *)
From S2P Require Import Prelude Cbor CborFacts AtomicFile AtomicPlan Raft Cluster ClusterToken ClusterScan WriteDedupFacts ClusterScanFacts.
Import Reads.

(** ** Query identities are short ASCII texts *)

Lemma hex_char_ascii d : 0 <= d < 16 -> b2z (hex_char d) <= 127.
Proof.
  intros Hd. unfold hex_char. destruct (Z.ltb_spec d 10); rewrite b2z_z2b_small; lia.
Qed.
Lemma query_id_ok `{Q : QueryHasher} parts prefix limit :
  let q := make_query_id parts prefix limit in
  length q = 18%nat /\ utf8_valid q = true.
Proof.
  split; [done|]. apply utf8_ascii. unfold make_query_id. apply Forall_app. split.
  - by vm_compute; repeat constructor.
  - unfold hex16. apply Forall_fmap, Forall_forall. intros i _. cbn. apply hex_char_ascii.
    split; [apply Z.land_nonneg; right; lia|].
    change 15 with (Z.ones 4) at 2. rewrite Z.land_ones by lia. by apply Z.mod_pos_bound.
Qed.

Section Paging.
Context {S : Type} `{N : NodeStore S} `{NL : !NodeStoreLaws S}.
Context `{H : Blake3} `{K : KeyedBlake3} `{KL : !KeyedBlake3Laws K} `{Q : QueryHasher}.
Context (save : PartitionId -> NodeId -> RaftPeer -> bool).
Implicit Types (c : Cluster S).

(** The partitions a call asks for. *)
Definition scope_of c (o : ScanOptions) : list PartitionId :=
  match scan_partitions o with
  | Some ps => scope ps
  | None => all_partitions (partition_map c)
  end.
Lemma scope_of_asc c o : asc (scope_of c o).
Proof. unfold scope_of. destruct (scan_partitions o); [apply scope_asc|apply all_partitions_asc]. Qed.

(** A visit order that names the scope, possibly with repetitions. *)
Definition visits_scope c (o : ScanOptions) : Prop :=
  forall order, visit_order o = Some order -> scope order = scope_of c o.

Lemma visits_scope_of c o :
  visits_scope c o -> continuation o = None ->
  exists visit, visit_of (resolve c o None) o = Ok visit.
Proof.
  intros Hv Hc. unfold visit_of. destruct (visit_order o) as [order|] eqn:E; [|by eauto].
  rewrite bool_decide_eq_true_2; [by eauto|]. by apply Hv.
Qed.

Definition limited (l : option Z) (rows : list row) : list row :=
  match l with Some n => take (Z.to_nat n) rows | None => rows end.

(** A scan that is not paged returns the rows, cut at the limit, and says so. *)
Lemma unpaged_rows c o cov rows docs : page_size o = None -> continuation o = None ->
  exists f, paginate c (resolve c o None) cov rows docs = Ok f
    /\ find_entries f = limited (limit o) rows
    /\ truncated f = match limit o with Some l => l <? Z.of_nat (length rows) | None => false end
    /\ (find_coverage f = cov \/ exists msg, find_coverage f = Coverage.note cov msg).
Proof.
  intros Hps Hc. unfold paginate, resolve. cbn [q_page q_limit]. rewrite Hps.
  cbn [or_else fmap option_fmap option_map mbind option_bind]. unfold limited.
  destruct (limit o) as [l|]; [|by eexists; split_and!; [reflexivity|..|left]].
  destruct (Z.ltb_spec l (Z.of_nat (length rows))); eexists; (split; [reflexivity|]); cbn [find_entries truncated find_coverage].
  - split_and!; [done|done|right; by eexists].
  - split_and!; [by rewrite take_ge by lia|done|by left].
Qed.

(** Every live subject in scope can be read: none is partial or damaged. *)
Definition whole c (parts : list PartitionId) (prefix after : option (list byte)) : Prop :=
  forall p s k, p ∈ parts -> serving c p = Some s -> k ∈ live_keys s ->
    in_scope c p prefix after k = true -> exists v, store_get s k = Ok (Some v).

(** C32. A one-shot scan answers, under these conditions: its read mode is not
    linearizable or the cluster is a convergent one, so that no election is
    needed; it has no budget of documents; and every live subject in scope can be
    read at the first online replica of its partition.  Then there are rows, in
    strictly ascending subject order, that are exactly the live subjects of the
    scope with their values at those replicas, whatever order the partitions are
    visited in, and the answer is these rows up to the limit, marked as truncated
    exactly when the limit cut some.  It lists every requested partition as
    completed or unavailable according to whether a replica was online, and claims
    complete coverage exactly when all had one.  The cluster itself is unchanged.
    (A subject whose payload is partial is left out although coverage is then still
    claimed complete: [partial_subject_dropped].) *)
Theorem scan_exact c o :
  plain c (scan_read_mode o) -> continuation o = None -> page_size o = None ->
  max_docs_scanned o = None -> visits_scope c o ->
  whole c (scope_of c o) (subject_prefix o) (after_subject o) ->
  exists f rows, scan_with save c o = (c, Ok f)
    /\ StronglySorted row_lt rows
    /\ (forall k v, (k, v) ∈ rows <->
          exists p s, p ∈ scope_of c o /\ serving c p = Some s /\ k ∈ live_keys s
            /\ in_scope c p (subject_prefix o) (after_subject o) k = true
            /\ store_get s k = Ok (Some v))
    /\ (forall p s k, p ∈ scope_of c o -> serving c p = Some s -> k ∈ live_keys s ->
          in_scope c p (subject_prefix o) (after_subject o) k = true -> k ∈ rows.*1)
    /\ find_entries f = limited (limit o) rows
    /\ truncated f = match limit o with Some l => l <? Z.of_nat (length rows) | None => false end
    /\ (forall p, p ∈ Coverage.completed (find_coverage f) <->
          p ∈ scope_of c o /\ is_Some (serving c p))
    /\ (forall p, p ∈ Coverage.unavailable (find_coverage f) <->
          p ∈ scope_of c o /\ serving c p = None)
    /\ (Coverage.is_complete (find_coverage f) = true <->
          forall p, p ∈ scope_of c o -> is_Some (serving c p)).
Proof.
  intros Hplain Hc Hps Hmd Hv Hw. destruct (visits_scope_of c o Hv Hc) as [visit Hvisit].
  assert (Hr : readable c (scope_of c o) (subject_prefix o) (after_subject o)).
  { intros p s k e Hp Hs Hk Hi He. destruct (Hw p s k Hp Hs Hk Hi) as [v Hg]. congruence. }
  assert (Hmd' : q_max_docs (resolve c o None) = None) by done.
  destruct (scan_with_spec save c o None visit) as (cov & docs & Hscan & Hcov); try done.
  { unfold resumes. by rewrite Hc. }
  { apply scope_of_asc. }
  rewrite Hscan. change (q_requested _) with (scope_of c o) in *. cbn [resolve q_prefix q_after].
  set (rows := expected _ _ _ _).
  destruct (unpaged_rows c o cov rows docs Hps Hc) as (f & Hf & He & Ht & Hfc).
  assert (Hcov' : scan_coverage c (scope_of c o) (find_coverage f)).
  { destruct Hfc as [-> |[msg ->]]; [done|by apply scan_coverage_note]. }
  assert (Hrows : forall k v, (k, v) ∈ rows <->
          exists p s, p ∈ scope_of c o /\ serving c p = Some s /\ k ∈ live_keys s
            /\ in_scope c p (subject_prefix o) (after_subject o) k = true
            /\ store_get s k = Ok (Some v)).
  { intros k v. unfold rows. rewrite elem_of_expected. setoid_rewrite elem_of_partition_rows. cbn [fst snd].
    split; [intros (p & Hp & s & ? & ? & ? & ?); by exists p, s|].
    intros (p & s & Hp & ? & ? & ? & ?). exists p. split; [done|]. by exists s. }
  exists f, rows. split; [by rewrite <- Hf|]. split_and!; [|done| |done|done|..].
  - apply expected_sorted, asc_NoDup, scope_of_asc.
  - intros p s k Hp Hs Hk Hi. destruct (Hw p s k Hp Hs Hk Hi) as [v Hg]. apply list_elem_of_fmap. exists (k, v).
    split; [done|]. apply Hrows. by exists p, s.
  - apply (sc_completed _ _ _ Hcov').
  - apply (sc_unavailable _ _ _ Hcov').
  - by apply scan_coverage_complete.
Qed.

(** ** Following the tokens *)

(** A client's next request: nothing but the token. *)
Definition resume (tok : list byte) : ScanOptions := {|
  subject_prefix := None; limit := None; max_docs_scanned := None; scan_partitions := None;
  scan_read_mode := Linearizable; page_size := None; continuation := Some tok;
  visit_order := None; after_subject := None |}.

(** The pages a client sees until no token comes back; [None] when a call fails or
    the fuel runs out. *)
Fixpoint drain (fuel : nat) c (o : ScanOptions) : option (list (list row)) :=
  match fuel with
  | O => None
  | Datatypes.S n =>
      match scan_page save c o with
      | (_, Err _) => None
      | (c', Ok f) =>
          match next_token f with
          | None => Some [find_entries f]
          | Some tok => cons (find_entries f) <$> drain n c' (resume tok)
          end
      end
  end.

Lemma drain_more n m c o pages : drain n c o = Some pages -> (n <= m)%nat -> drain m c o = Some pages.
Proof.
  revert m c o pages. induction n as [|n IH]; intros [|m] c o pages Hd Hm; try done; try lia.
  cbn [drain] in *. destruct (scan_page save c o) as [c' [f|e]]; [|done].
  destruct (next_token f) as [tok|]; [|done].
  destruct (drain n c' (resume tok)) as [rest|] eqn:Hr; [|done]. by rewrite (IH m _ _ rest) by (done || lia).
Qed.

Section OneQuery.
Context c (mode : ReadMode) (prefix : option (list byte)) (parts : list PartitionId)
        (ps : Z) (qid : list byte).
Context (Hplain : plain c mode) (Hasc : asc parts) (Hu32 : Forall in_u32 parts)
        (Hps : 1 <= ps <= 4096) (Hqid : length qid = 18%nat /\ utf8_valid qid = true)
        (Hprefix : forall p, prefix = Some p -> utf8_valid p = true /\ p <> [])
        (Hfit : Z.of_nat (length (default [] prefix)) + 4 * Z.of_nat (length parts) <= 12000)
        (Hring : Keyring.keyring_ok (token_keyring c)) (Hcid : length (cluster_id c) = 16%nat).

(** The query at some point of the paging. *)
Definition page_query (after : option (list byte)) (l : option Z) : Query := {|
  q_mode := mode; q_prefix := prefix; q_after := after; q_page := Some ps; q_limit := l;
  q_max_docs := None; q_requested := parts; q_id := qid |}.
Definition next_continuation (k : list byte) (l : option Z) : Token.QueryContinuation := {|
  Token.query_id := qid; Token.after_subject := k; Token.page_size := ps; Token.prefix := prefix;
  Token.partitions := parts; Token.read_mode := mode; Token.remaining_limit := l;
  Token.remaining_max_docs := None |}.

Lemma next_resolves k l : resolve c (resume []) (Some (next_continuation k l)) = page_query (Some k) l.
Proof.
  unfold resolve, page_query; cbn. unfold clamp_page, MAX_PAGE, Token.MAX_FIND_PAGE_SIZE.
  replace (Z.max 1 (Z.min ps 4096)) with ps by lia. by destruct prefix, l.
Qed.

Lemma next_token_ok k l :
  utf8_valid k = true -> Z.of_nat (length k) <= 4096 -> budget_ok l ->
  exists tok, Token.encode (next_continuation k l) (cluster_id c) (token_keyring c) = Ok tok
    /\ Token.decode (cluster_id c) (token_keyring c) tok = Ok (next_continuation k l).
Proof.
  intros Hk Hlen Hl.
  destruct (encode_succeeds (next_continuation k l) (cluster_id c) (token_keyring c)) as [tok He];
    try done; [apply Hqid|].
  exists tok. split; [done|]. eapply decode_issued; try done.
  - constructor; try done; [apply Hqid|cbn; lia].
  - unfold Keyring.mac_key_for, Keyring.active_generation_id. by rewrite Z.eqb_refl.
Qed.

Definition short_keys (rows : list row) : Prop :=
  Forall (fun r => utf8_valid r.1 = true /\ Z.of_nat (length r.1) <= 4096) rows.

(** One page: either it is the last one, or a token is issued for the rows behind it. *)
Lemma page_step after l cov docs rows :
  budget_ok l -> short_keys rows ->
  exists f, paginate c (page_query after l) cov rows docs = Ok f
  /\ Z.of_nat (length (find_entries f)) <= ps
  /\ (find_entries f = limited l rows /\ next_token f = None
      \/ exists k v tok,
           let n := Z.to_nat (match l with Some x => Z.min x ps | None => ps end) in
           let l' := (fun x => x - Z.of_nat n) <$> l in
           find_entries f = take n rows /\ next_token f = Some tok
           /\ last (take n rows) = Some (k, v) /\ (n < length rows)%nat /\ (1 <= n)%nat
           /\ budget_ok l' /\ (forall x, l = Some x -> Z.of_nat n < x)
           /\ Token.decode (cluster_id c) (token_keyring c) tok = Ok (next_continuation k l')).
Proof.
  intros Hl Hshort. unfold paginate. cbn [page_query q_page q_limit q_prefix q_requested q_mode q_id q_max_docs].
  set (cap := match l with Some x => Z.min x ps | None => ps end).
  assert (Hcap : 0 <= cap /\ cap <= ps /\ (forall x, l = Some x -> cap <= x)).
  { subst cap. destruct l as [x|]; [|split_and!; [lia..|done]]. specialize (Hl x eq_refl).
    split_and!; [lia..|]. intros y [= <-]. lia. }
  destruct (Z.ltb_spec cap (Z.of_nat (length rows))) as [Hlt|Hge].
  2: { eexists. split; [reflexivity|]. split; [cbn [find_entries]; lia|].
       left. split; [|done]. cbn [find_entries]. unfold limited.
       destruct l as [x|]; [|done]. rewrite take_ge; [done|]. destruct Hcap as (_ & _ & Hx).
       specialize (Hx x eq_refl). lia. }
  assert (Hlen : length (take (Z.to_nat cap) rows) = Z.to_nat cap) by (rewrite length_take; lia).
  destruct (last (take (Z.to_nat cap) rows)) as [[k v]|] eqn:Hlast.
  2: { eexists. split; [reflexivity|]. split; [cbn [find_entries]; lia|].
       left. split; [|done]. cbn [find_entries]. apply last_None in Hlast. rewrite Hlast in Hlen |- *. cbn in Hlen.
       assert (Hc0 : cap = 0) by lia. unfold limited. subst cap. destruct l as [x|]; [|lia].
       specialize (Hl x eq_refl). assert (x = 0) as -> by lia. by rewrite take_0. }
  rewrite Hlen.
  assert (Hn : (1 <= Z.to_nat cap)%nat).
  { destruct (Z.to_nat cap); [|lia]. by rewrite take_0 in Hlast. }
  assert (Hrest : sat_sub_opt l (Z.of_nat (Z.to_nat cap)) = (fun x => x - Z.of_nat (Z.to_nat cap)) <$> l).
  { destruct l as [x|]; [|done]. cbn. unfold sat_sub. destruct Hcap as (? & ? & Hx).
    specialize (Hx x eq_refl). f_equal. lia. }
  rewrite Hrest. case_bool_decide as H0.
  { eexists. split; [reflexivity|]. split; [cbn [find_entries]; lia|].
    left. split; [|done]. cbn [find_entries]. unfold limited. destruct l as [x|]; [|done]. cbn in H0. simplify_eq. f_equal. specialize (Hl x eq_refl). lia. }
  assert (Hk : utf8_valid k = true /\ Z.of_nat (length k) <= 4096).
  { apply last_Some_elem_of in Hlast. unfold short_keys in Hshort. rewrite Forall_forall in Hshort.
    apply (Hshort (k, v)). rewrite <- (take_drop (Z.to_nat cap) rows), elem_of_app. by left. }
  assert (Hl' : budget_ok ((fun x => x - Z.of_nat (Z.to_nat cap)) <$> l)).
  { intros y Hy. destruct l as [x|]; [|done]. cbn in Hy. simplify_eq.
    destruct Hcap as (? & ? & Hx). specialize (Hx x eq_refl). specialize (Hl x eq_refl). lia. }
  destruct (next_token_ok k _ (proj1 Hk) (proj2 Hk) Hl') as (tok & He & Hd).
  unfold next_continuation in He. cbn [sat_sub_opt fmap option_fmap option_map].
  rewrite He. cbn [lift_token]. eexists. split; [reflexivity|]. split; [cbn [find_entries]; lia|]. right.
  exists k, v, tok. cbn zeta. split_and!; try done; [lia|].
  intros x ->. destruct Hcap as (? & ? & Hx). specialize (Hx x eq_refl). cbn in H0.
  assert (x - Z.of_nat (Z.to_nat cap) <> 0) by congruence. lia.
Qed.

Lemma readable_after after k :
  (forall a, after = Some a -> bytes_lt a k) ->
  readable c parts prefix after -> readable c parts prefix (Some k).
Proof.
  intros Hak Hr p s x e Hp Hs Hx Hi. rewrite (in_scope_after c p prefix after) in Hi by done.
  apply andb_true_iff in Hi as [Hi _]. by eapply Hr.
Qed.
Lemma expected_beyond after r :
  r ∈ expected c parts prefix after -> forall a, after = Some a -> bytes_lt a r.1.
Proof.
  intros (p & _ & (s & _ & _ & Hi & _)%elem_of_partition_rows)%elem_of_expected a ->.
  unfold in_scope in Hi. boolify. by apply bytes_leb_false.
Qed.

(** The options [scan_page] hands to [scan_with]. *)
Definition paged (o : ScanOptions) : ScanOptions := {|
  subject_prefix := subject_prefix o; limit := limit o; max_docs_scanned := max_docs_scanned o;
  scan_partitions := scan_partitions o; scan_read_mode := scan_read_mode o;
  page_size := match page_size o, continuation o with
               | None, None => Some DEFAULT_FIND_PAGE_SIZE
               | x, _ => x
               end;
  continuation := continuation o; visit_order := visit_order o; after_subject := after_subject o |}.

Lemma limited_split l n (rows : list row) :
  (forall x, l = Some x -> Z.of_nat n < x) ->
  take n rows ++ limited ((fun x => x - Z.of_nat n) <$> l) (drop n rows) = limited l rows.
Proof.
  intros Hx. unfold limited. destruct l as [x|]; cbn; [|by rewrite take_drop].
  specialize (Hx x eq_refl). replace (Z.to_nat x) with (n + Z.to_nat (x - Z.of_nat n))%nat by lia.
  by rewrite take_take_drop.
Qed.

Lemma drain_query fuel : forall o cont visit after l,
  resumes c (paged o) cont -> resolve c (paged o) cont = page_query after l ->
  visit_of (page_query after l) (paged o) = Ok visit -> readable c parts prefix after ->
  short_keys (expected c parts prefix after) -> budget_ok l ->
  (length (expected c parts prefix after) < fuel)%nat ->
  exists pages, drain fuel c o = Some pages
    /\ mjoin pages = limited l (expected c parts prefix after)
    /\ Forall (fun page => Z.of_nat (length page) <= ps) pages.
Proof.
  induction fuel as [|fuel IH]; intros o cont visit after l Hres Hq Hv Hr Hs Hl Hf; [lia|].
  destruct (scan_with_spec save c (paged o) cont visit) as (cov & docs & Hscan & _);
    rewrite ?Hq; try done.
  rewrite Hq in Hscan. cbn [q_requested q_prefix q_after page_query] in Hscan.
  set (rows := expected c parts prefix after) in *.
  destruct (page_step after l cov docs rows Hl Hs) as (f & Hp & Hle & Hf').
  cbn [drain]. change (scan_page save c o) with (scan_with save c (paged o)).
  rewrite Hscan, Hp. destruct Hf' as [[He Hn]|(k & v & tok & He & Ht & Hlast & Hlt & Hpos & Hl' & Hx & Hd)].
  { rewrite Hn. eexists. split; [done|]. cbn. rewrite app_nil_r. by repeat constructor. }
  rewrite Ht. set (n := Z.to_nat _) in *.
  assert (Hin : (k, v) ∈ rows).
  { apply last_Some_elem_of in Hlast. rewrite <- (take_drop n rows), elem_of_app. by left. }
  pose proof (expected_beyond _ _ Hin) as Hbeyond. cbn [fst] in Hbeyond.
  assert (Hnext : expected c parts prefix (Some k) = drop n rows).
  { rewrite (expected_after c parts prefix after) by (try apply asc_NoDup; done). fold rows.
    eapply rows_after; [|done]. apply expected_sorted, asc_NoDup, Hasc. }
  destruct (IH (resume tok) (Some (next_continuation k ((fun x => x - Z.of_nat n) <$> l))) parts
              (Some k) ((fun x => x - Z.of_nat n) <$> l)) as (pages & Hdr & Hj & Hsz).
  - cbn. eauto.
  - apply next_resolves.
  - done.
  - by eapply readable_after.
  - rewrite Hnext. by apply Forall_drop.
  - done.
  - rewrite Hnext, length_drop. lia.
  - rewrite Hdr. eexists. split; [done|]. split.
    + change (mjoin (find_entries f :: pages)) with (find_entries f ++ mjoin pages).
      rewrite He, Hj, Hnext. by apply limited_split.
    + by constructor.
Qed.
End OneQuery.

(** The same request without paging. *)
Definition one_shot (o : ScanOptions) : ScanOptions := {|
  subject_prefix := subject_prefix o; limit := limit o; max_docs_scanned := max_docs_scanned o;
  scan_partitions := scan_partitions o; scan_read_mode := scan_read_mode o; page_size := None;
  continuation := continuation o; visit_order := visit_order o; after_subject := after_subject o |}.

(** What a paged find needs of the cluster and the request: the rows of a page
    and the scope fit into a token. *)
Record pageable c (o : ScanOptions) : Prop := {
  pg_cid : length (cluster_id c) = 16%nat;
  pg_ring : Keyring.keyring_ok (token_keyring c);
  pg_scope : Forall in_u32 (scope_of c o);
  pg_prefix : forall p, subject_prefix o = Some p -> utf8_valid p = true /\ p <> [];
  pg_fit : Z.of_nat (length (default [] (subject_prefix o)))
           + 4 * Z.of_nat (length (scope_of c o)) <= 12000;
  pg_keys : forall p s k, p ∈ scope_of c o -> serving c p = Some s -> k ∈ live_keys s ->
              Z.of_nat (length k) <= 4096;
  pg_limit : budget_ok (limit o) }.

(** C33. Paging returns exactly what the one-shot scan returns, under these
    conditions: the read mode is not linearizable or the cluster is a convergent
    one, so that no election is needed; the request has no budget of documents;
    every live subject in scope can be read or is partial; and tokens can be
    issued ([pageable]): the prefix and the ids of the scope take at most 12000
    bytes, subjects at most 4096, and the keyring is well formed.  Then the
    one-shot scan answers, and a client that starts a paged find and follows the continuation tokens reaches
    the end after at most one call more than there are rows; the pages,
    concatenated, are the rows of the one-shot scan (the overall limit
    included), so no row is lost, repeated or reordered, and no page is longer
    than the page size. *)
Theorem paged_find_exact c o :
  plain c (scan_read_mode o) -> continuation o = None -> max_docs_scanned o = None ->
  visits_scope c o -> readable c (scope_of c o) (subject_prefix o) (after_subject o) ->
  pageable c o ->
  exists f pages, scan_with save c (one_shot o) = (c, Ok f)
    /\ mjoin pages = find_entries f
    /\ Forall (fun page => Z.of_nat (length page)
                           <= clamp_page (default DEFAULT_FIND_PAGE_SIZE (page_size o))) pages
    /\ forall fuel,
         (length (expected c (scope_of c o) (subject_prefix o) (after_subject o)) < fuel)%nat ->
         drain fuel c o = Some pages.
Proof.
  intros Hplain Hc Hmd Hv Hr [Hcid Hring Hu32 Hpfx Hfit Hkeys Hlim].
  destruct (visits_scope_of c o Hv Hc) as [visit Hvisit].
  assert (Hresume : resumes c o None) by (unfold resumes; by rewrite Hc).
  pose proof (scope_of_asc c o) as Hasc.
  set (ps := clamp_page (default DEFAULT_FIND_PAGE_SIZE (page_size o))).
  assert (Hps : 1 <= ps <= 4096) by (unfold ps, clamp_page, MAX_PAGE, Token.MAX_FIND_PAGE_SIZE; lia).
  set (qid := make_query_id (scope_of c o) (subject_prefix o) (limit o)).
  set (q := page_query (scan_read_mode o) (subject_prefix o) (scope_of c o) ps qid
              (after_subject o) (limit o)).
  assert (Hq : resolve c (paged o) None = q).
  { unfold resolve, q, page_query; cbn. rewrite Hmd, Hc. do 2 f_equal. by destruct (page_size o). }
  set (rows := expected c (scope_of c o) (subject_prefix o) (after_subject o)).
  assert (Hshort : short_keys rows).
  { apply Forall_forall. intros r (p & Hp & (s & Hs & Hk & Hi & _)%elem_of_partition_rows)%elem_of_expected.
    split; [unfold in_scope in Hi; by boolify|by eapply Hkeys]. }
  destruct (drain_query c (scan_read_mode o) (subject_prefix o) (scope_of c o) ps qid
              Hplain Hasc Hu32 Hps (query_id_ok _ _ _) Hpfx Hfit Hring Hcid (Datatypes.S (length rows))
              o None visit (after_subject o) (limit o)) as (pages & Hd & Hj & Hsz);
    [done|done|done|done|done|done|unfold rows; lia|].
  destruct (scan_with_spec save c (one_shot o) None visit) as (cov & docs & Hscan & _); try done.
  destruct (unpaged_rows c (one_shot o) cov rows docs eq_refl Hc) as (f & Hf & Hrows & _).
  exists f, pages. split_and!.
  - rewrite Hscan. cbn [resolve q_requested q_prefix q_after one_shot]. by rewrite <- Hf.
  - by rewrite Hj.
  - done.
  - intros fuel Hfuel. eapply drain_more; [done|]. fold rows in Hfuel. lia.
Qed.
End Paging.

(** ** A cluster of one node *)

(** A store that keeps every body: the smallest implementation of [NodeStore]. *)
Abbreviation Shelf := (gmap (list byte) (list byte)).
#[global] Instance shelf_store : NodeStore Shelf := {|
  live_keys s := sort_texts ((map_to_list s).*1);
  store_get s k := Ok (s !! k) |}.

Lemma bytes_cmp_trans x y z : not_gt bytes_cmp x y -> not_gt bytes_cmp y z -> not_gt bytes_cmp x z.
Proof. apply (row_cmp_trans (x, []) (y, []) (z, [])). Qed.

#[global] Instance shelf_laws : NodeStoreLaws Shelf.
Proof.
  intros s. unfold live_keys, shelf_store, sort_texts.
  pose proof (sort_by_sorted bytes_cmp (fun x y => bytes_cmp_antisym x y) bytes_cmp_trans
                ((map_to_list s).*1)) as Hs.
  assert (Hn : NoDup (sort_by bytes_cmp ((map_to_list s).*1)))
    by (rewrite sort_by_perm; apply NoDup_fst_map_to_list).
  induction Hs as [|x k Hk IH Hx]; [constructor|]. apply NoDup_cons in Hn as [Hx' Hn].
  constructor; [by apply IH|]. rewrite Forall_forall in Hx |- *. intros y Hy. specialize (Hx _ Hy).
  unfold not_gt in Hx. unfold bytes_lt. destruct (bytes_cmp x y) eqn:E; [|done..].
  apply bytes_cmp_Eq in E as ->. done.
Qed.

Definition plain_hash : Blake3 := fun bs => le_bytes 32 (le_val bs).
Definition plain_query_hash : QueryHasher := fun parts _ _ => Z.of_nat (length parts).
Definition saves_all (_ : PartitionId) (_ : NodeId) (_ : RaftPeer) : bool := true.

Definition sample_shelf : Shelf :=
  list_to_map [(lit "a", lit "1"); (lit "b", lit "2"); (lit "c", lit "3"); (lit "d", lit "4")].
Definition two_partitions : PartitionMap :=
  {| virtual_partitions := 2; hash_profile := HASH_PROFILE_BLAKE3_MOD |}.
(** A cluster whose only node has the store [s]. *)
Definition cluster_over {S} (s : S) : Cluster S := {|
  cluster_id := sample_cid; profile := Development; consistency_mode := PartitionLinearizable;
  partition_map := two_partitions;
  directory := {| Directory.map := two_partitions; Directory.dir_epoch := 1;
                  Directory.assignments :=
                    [{| Directory.partition := 0; Directory.replicas := [0]; Directory.leader := 0;
                        Directory.term := 1; Directory.placement_epoch := 1 |};
                     {| Directory.partition := 1; Directory.replicas := [3; 0];
                        Directory.leader := 3; Directory.term := 1;
                        Directory.placement_epoch := 1 |}] |};
  expected_node_count := 1; nodes := {[0 := s]}; offline := []; missing_nodes := [];
  raft := ∅; convergent_pos := ∅; rebalance_jobs := ∅; token_keyring := sample_ring |}.
Definition sample_cluster : Cluster Shelf := cluster_over sample_shelf.
Definition sample_find : ScanOptions := {|
  subject_prefix := None; limit := Some 3; max_docs_scanned := None; scan_partitions := None;
  scan_read_mode := Available; page_size := Some 2; continuation := None;
  visit_order := Some [1; 0; 1]; after_subject := None |}.
Definition sample_scan : ScanOptions := {|
  subject_prefix := None; limit := None; max_docs_scanned := None;
  scan_partitions := Some [1; 0; 1]; scan_read_mode := Available; page_size := None;
  continuation := None; visit_order := None; after_subject := None |}.

#[local] Existing Instance plain_hash.
#[local] Existing Instance sample_keyed.
#[local] Existing Instance plain_query_hash.

Lemma sample_keyed_laws : KeyedBlake3Laws sample_keyed.
Proof. intros key bs. apply length_be_bytes. Qed.
Lemma sample_plain : plain sample_cluster Available.
Proof. left. discriminate. Qed.
Lemma sample_scan_visits : visits_scope sample_cluster sample_scan.
Proof. intros order [=]. Qed.
Lemma sample_visits : visits_scope sample_cluster sample_find.
Proof. by intros order [= <-]. Qed.
Lemma shelf_readable (c : Cluster Shelf) parts prefix after : readable c parts prefix after.
Proof. intros p s k e _ _ _ _. done. Qed.
Lemma sample_serving p s : p ∈ [0; 1] -> serving sample_cluster p = Some s -> s = sample_shelf.
Proof.
  assert (H0 : serving sample_cluster 0 = Some sample_shelf) by reflexivity.
  assert (H1 : serving sample_cluster 1 = Some sample_shelf) by reflexivity.
  intros [->|[->|?%not_elem_of_nil]%elem_of_cons]%elem_of_cons Hs; [| |done];
    apply (inj Some); symmetry; [rewrite <- H0|rewrite <- H1]; exact Hs.
Qed.
Lemma sample_pageable : pageable sample_cluster sample_find.
Proof.
  constructor.
  - done.
  - apply sample_ring_ok.
  - by repeat constructor.
  - done.
  - by vm_compute.
  - intros p s k Hp Hs Hk. apply sample_serving in Hs as ->; [|done].
    assert (Hf : Forall (fun k => Z.of_nat (length k) <= 4096) (live_keys sample_shelf))
      by (vm_compute; repeat constructor; discriminate).
    rewrite Forall_forall in Hf. by apply Hf.
  - by intros n [= <-].
Qed.

(** The hypotheses of [scan_exact] hold of the sample cluster. *)
Lemma shelf_whole parts prefix after : whole sample_cluster parts prefix after.
Proof.
  intros p s k _ Hs Hk _. assert (Hin : forall (t : Shelf), k ∈ live_keys t -> exists v, store_get t k = Ok (Some v)).
  { intros t. unfold live_keys, store_get, shelf_store, sort_texts. rewrite sort_by_perm.
    intros ([k' v] & -> & Hkv%elem_of_map_to_list)%list_elem_of_fmap. exists v. by f_equal. }
  by apply Hin.
Qed.
Lemma scan_exact_witness :
  exists f rows, scan_with saves_all sample_cluster sample_scan = (sample_cluster, Ok f)
            /\ StronglySorted row_lt rows /\ find_entries f = rows.
Proof.
  destruct (scan_exact saves_all sample_cluster sample_scan
              sample_plain eq_refl eq_refl eq_refl sample_scan_visits
              (shelf_whole _ _ _)) as (f & rows & Hf & Hs & _ & _ & He & _).
  exists f, rows. exact (conj Hf (conj Hs He)).
Defined.

(** A store in which a body may be partial. *)
Abbreviation TornShelf := (gmap (list byte) (option (list byte))).
#[local] Instance torn_store : NodeStore TornShelf := {|
  live_keys s := sort_texts ((map_to_list s).*1);
  store_get s k := match s !! k with
                   | None => Ok None
                   | Some None => Err PayloadPartial
                   | Some (Some v) => Ok (Some v)
                   end |}.
(** Of two live subjects, one partial, a scan returns the other and claims to be
    complete and not truncated. *)
Example partial_subject_dropped :
  match scan_with saves_all (cluster_over (list_to_map [(lit "a", Some (lit "1")); (lit "b", None)] : TornShelf))
          sample_scan with
  | (_, Ok f) => find_entries f = [(lit "a", lit "1")] /\ truncated f = false
                 /\ Coverage.is_complete (find_coverage f) = true
  | _ => False
  end.
Proof. vm_compute. split_and!; reflexivity. Qed.

(** The hypotheses of [paged_find_exact] hold of the sample cluster; its pages are
    two subjects and one. *)
Lemma paged_find_exact_witness :
  drain saves_all 5 sample_cluster sample_find
  = Some [[(lit "a", lit "1"); (lit "b", lit "2")]; [(lit "c", lit "3")]]
  /\ exists f pages, scan_with saves_all sample_cluster (one_shot sample_find) = (sample_cluster, Ok f)
       /\ mjoin pages = find_entries f.
Proof.
  split; [vm_compute; reflexivity|].
  destruct (paged_find_exact (KL := sample_keyed_laws) saves_all sample_cluster sample_find
              sample_plain eq_refl eq_refl sample_visits (shelf_readable _ _ _ _) sample_pageable)
    as (f & pages & Hf & Hj & _).
  exists f, pages. exact (conj Hf Hj).
Defined.
