(* ===== verification/ClusterWrite.v ===== *)
(** * Writes to a cluster

    Model of the write paths of [crates/residiuum-cluster/src/cluster.rs]: the
    replicated write through the partition's log, the convergent write to every
    online replica, batches, and the reconciliation of convergent replicas.  The
    writes of a node's store are the operations of [NodeStoreWrite].  An error
    leaves the handle as far as the call had got. *)
From S2P Require Import Prelude Cbor AtomicFile AtomicPlan WriteDedup Raft Cluster ClusterToken ClusterScan.

Inductive CommitStatus : Type := Committed | Prepared | Conflicting | UnknownCommit.

Record WriteReceipt := { event_id : list byte; store_id : list byte; segment_id : list byte }.

Class NodeStoreWrite (S : Type) : Type := {
  (** [store.put] and [store.delete] *)
  store_put : S -> list byte -> list byte -> DurabilityMode -> S * result StoreError WriteReceipt;
  store_delete : S -> list byte -> DurabilityMode -> S * result StoreError WriteReceipt }.

(** What the store promises of a write it acknowledges: the subject reads back, and no
    other subject is touched. *)
Class NodeStoreWriteLaws (S : Type) `{N : NodeStore S} `{W : NodeStoreWrite S} : Prop := {
  put_reads s k v m s' r : store_put s k v m = (s', Ok r) ->
    store_get s' k = Ok (Some v) /\ forall x, x <> k -> store_get s' x = store_get s x;
  put_live s k v m s' r x : store_put s k v m = (s', Ok r) ->
    x ∈ live_keys s' <-> x = k \/ x ∈ live_keys s;
  delete_reads s k m s' r : store_delete s k m = (s', Ok r) ->
    store_get s' k = Ok None /\ forall x, x <> k -> store_get s' x = store_get s x }.

Module Write.
Import Reads.

Record ClusterWriteAck := {
  ack_cluster_id : list byte;
  ack_consistency_mode : ConsistencyMode;
  ack_durability_mode : DurabilityMode;
  ack_partition : PartitionId;
  ack_term : Term;
  ack_position : LogPosition;
  ack_placement_epoch : PlacementEpoch;
  ack_replica_acks : Z;
  ack_committed : bool;
  ack_commit_status : CommitStatus;
  ack_leader : NodeId;
  ack_event_id : list byte;
  ack_store_id : list byte;
  ack_segment_id : list byte }.

(** [String] payloads of the replicated log. *)
Definition to_text (s : list byte) : string := String.string_of_list_byte s.
Definition of_text (s : string) : list byte := String.list_byte_of_string s.

Section Writes.
Context {S : Type} `{N : NodeStore S} `{W : NodeStoreWrite S} `{H : Blake3}.
Context (save : PartitionId -> NodeId -> RaftPeer -> bool).
Implicit Types (c : Cluster S).

Definition set_raft c (p : PartitionId) (g : PartitionRaft) : Cluster S :=
  with_parts c (directory c) (nodes c) (offline c) (<[p := g]> (raft c)).
Definition set_node c (n : NodeId) (s : S) : Cluster S :=
  with_parts c (directory c) (<[n := s]> (nodes c)) (offline c) (raft c).

(** ** The replicated write *)

Definition apply_log_command (s : S) (mode : DurabilityMode) (cmd : LogCommand)
    : S * result StoreError WriteReceipt :=
  match cmd with
  | Put subject value => store_put s (of_text subject) value mode
  | Delete subject => store_delete s (of_text subject) mode
  end.

(** The entries of a batch in order; the receipt kept is the last one. *)
Fixpoint apply_entries (s : S) (mode : DurabilityMode) (es : list LogEntry)
    (receipt : option WriteReceipt) : S * result StoreError (option WriteReceipt) :=
  match es with
  | [] => (s, Ok receipt)
  | e :: rest =>
      match apply_log_command s mode (e_command e) with
      | (s', Ok r) => apply_entries s' mode rest (Some r)
      | (s', Err e) => (s', Err e)
      end
  end.

Definition take_batch c (p : PartitionId) (leader n : NodeId) : Cluster S * list LogEntry :=
  match raft c !! p with
  | None => (c, [])
  | Some g =>
      let '(g', batch) := take_apply_batch (sync_follower_commit g leader n) n in
      (set_raft c p g', batch)
  end.

Fixpoint apply_nodes c (p : PartitionId) (leader : NodeId) (mode : DurabilityMode)
    (ns : list NodeId) (receipt : option WriteReceipt)
    : Cluster S * result ClusterError (option WriteReceipt) :=
  match ns with
  | [] => (c, Ok receipt)
  | n :: rest =>
      let '(c1, batch) := take_batch c p leader n in
      match batch with
      | [] => apply_nodes c1 p leader mode rest receipt
      | _ :: _ =>
          match nodes c1 !! n with
          | None => apply_nodes c1 p leader mode rest receipt
          | Some s =>
              match apply_entries s mode batch None with
              | (s', Err e) => (set_node c1 n s', Err (Store e))
              | (s', Ok r) =>
                  apply_nodes (set_node c1 n s') p leader mode rest
                    (if n =? leader then r else receipt)
              end
          end
      end
  end.

Definition propose_failure (p : PartitionId) (e : ProposeError) : ClusterError :=
  match e with
  | NotLeader => NoLeader p
  | SteppedDown _ => PartitionUnavailable p "leader stepped down during propose"
  | ProposePersistFailed =>
      DurabilityUnavailable (lit "raft log persist failed before replication")
  end.

Definition quorum_missed (acks quorum p : Z) : list byte :=
  lit "quorum not reached: got " ++ decimal acks ++ lit " of " ++ decimal quorum
    ++ lit " for partition " ++ decimal p.

Definition command_of (subject value : list byte) (is_delete : bool) : LogCommand :=
  if is_delete then Delete (to_text subject) else Put (to_text subject) value.

Definition write_linearizable c (subject value : list byte) (mode : DurabilityMode)
    (is_delete : bool) : Cluster S * result ClusterError ClusterWriteAck :=
  let p := partition_for_subject c subject in
  match Directory.get (directory c) p with
  | None => (c, Err (NoLeader p))
  | Some a =>
      match ensure_partition_leader save c p with
      | (c1, Err e) => (c1, Err e)
      | (c1, Ok (leader, _)) =>
          let online := online_nodes c1 in
          match raft c1 !! p with
          | None => (c1, Err (NoLeader p))
          | Some g =>
              match propose (save p) g leader (command_of subject value is_delete) online with
              | (g', Err e) => (set_raft c1 p g', Err (propose_failure p e))
              | (g', Ok r) =>
                  let c2 := set_raft c1 p g' in
                  if negb (pr_committed r) then
                    (c2, Err (DurabilityUnavailable
                                (quorum_missed (replica_acks r) (profile_write_quorum (profile c2)) p)))
                  else
                    match apply_nodes c2 p leader mode online None with
                    | (c3, Err e) => (c3, Err e)
                    | (c3, Ok None) =>
                        (c3, Err (PartitionUnavailable p "leader apply missing receipt"))
                    | (c3, Ok (Some rc)) =>
                        (c3, Ok {| ack_cluster_id := cluster_id c3;
                                   ack_consistency_mode := consistency_mode c3;
                                   ack_durability_mode := mode; ack_partition := p;
                                   ack_term := pr_term r; ack_position := pr_position r;
                                   ack_placement_epoch := Directory.placement_epoch a;
                                   ack_replica_acks := replica_acks r;
                                   ack_committed := pr_committed r;
                                   ack_commit_status := Committed; ack_leader := leader;
                                   ack_event_id := event_id rc; ack_store_id := store_id rc;
                                   ack_segment_id := segment_id rc |})
                    end
              end
          end
      end
  end.

(** ** The convergent write *)

Definition set_convergent c (p : PartitionId) (pos : Z) : Cluster S := {|
  cluster_id := cluster_id c; profile := profile c; consistency_mode := consistency_mode c;
  partition_map := partition_map c; directory := directory c;
  expected_node_count := expected_node_count c; nodes := nodes c; offline := offline c;
  missing_nodes := missing_nodes c; raft := raft c;
  convergent_pos := <[p := pos]> (convergent_pos c); rebalance_jobs := rebalance_jobs c;
  token_keyring := token_keyring c |}.

Fixpoint check_targets c (p : PartitionId) (a : Directory.PartitionAssignment) (ts : list NodeId)
    : result ClusterError unit :=
  match ts with
  | [] => Ok tt
  | n :: rest =>
      if negb (is_online c n) then Err (PartitionUnavailable p "ingest target offline")
      else if negb (bool_decide (n ∈ Directory.replicas a)) then
        Err (ReplicationRejected (lit "node node-" ++ decimal n
                                    ++ lit " is not a replica of partition " ++ decimal p))
      else check_targets c p a rest
  end.

Fixpoint write_targets c (p : PartitionId) (subject value : list byte) (mode : DurabilityMode)
    (is_delete : bool) (ts : list NodeId) (first : option WriteReceipt) (acks : Z)
    : Cluster S * result ClusterError (option WriteReceipt * Z) :=
  match ts with
  | [] => (c, Ok (first, acks))
  | n :: rest =>
      match nodes c !! n with
      | None => (c, Err (PartitionUnavailable p "ingest store missing"))
      | Some s =>
          match (if is_delete then store_delete s subject mode else store_put s subject value mode) with
          | (s', Err e) => (set_node c n s', Err (Store e))
          | (s', Ok r) =>
              write_targets (set_node c n s') p subject value mode is_delete rest
                (or_else first (Some r)) (acks + 1)
          end
      end
  end.

Definition write_convergent_on c (targets : list NodeId) (subject value : list byte)
    (mode : DurabilityMode) (is_delete : bool) : Cluster S * result ClusterError ClusterWriteAck :=
  let p := partition_for_subject c subject in
  match Directory.get (directory c) p with
  | None => (c, Err (NoLeader p))
  | Some a =>
      match targets with
      | [] => (c, Err (PartitionUnavailable p "no ingest targets"))
      | ingest :: _ =>
          match check_targets c p a targets with
          | Err e => (c, Err e)
          | Ok _ =>
              let pos := default 0 (convergent_pos c !! p) + 1 in
              match write_targets (set_convergent c p pos) p subject value mode is_delete targets
                      None 0 with
              | (c', Err e) => (c', Err e)
              | (c', Ok (None, _)) => (c', Err (CorruptMeta "at least one target"))
              | (c', Ok (Some rc, acks)) =>
                  (c', Ok {| ack_cluster_id := cluster_id c';
                             ack_consistency_mode := ConvergentAppend; ack_durability_mode := mode;
                             ack_partition := p; ack_term := 0; ack_position := pos;
                             ack_placement_epoch := Directory.placement_epoch a;
                             ack_replica_acks := acks; ack_committed := false;
                             ack_commit_status := Prepared; ack_leader := ingest;
                             ack_event_id := event_id rc; ack_store_id := store_id rc;
                             ack_segment_id := segment_id rc |})
              end
          end
      end
  end.

Definition write_convergent c (subject value : list byte) (mode : DurabilityMode) (is_delete : bool)
    : Cluster S * result ClusterError ClusterWriteAck :=
  let p := partition_for_subject c subject in
  match Directory.get (directory c) p with
  | None => (c, Err (NoLeader p))
  | Some a =>
      match List.filter (is_online c) (Directory.replicas a) with
      | [] => (c, Err (PartitionUnavailable p "no online replica for convergent append"))
      | targets => write_convergent_on c targets subject value mode is_delete
      end
  end.

Definition append_local c (n : NodeId) (subject value : list byte) (mode : DurabilityMode)
    : Cluster S * result ClusterError ClusterWriteAck :=
  if negb (bool_decide (consistency_mode c = ConvergentAppend)) then
    (c, Err (ConsistencyViolation "append_local requires convergent-append mode"))
  else if negb (is_online c n) then
    (c, Err (PartitionUnavailable (partition_for_subject c subject) "target ingest node offline"))
  else write_convergent_on c [n] subject value mode false.

(** ** Entry points *)

Definition write_event c (subject value : list byte) (mode : DurabilityMode) (is_delete : bool)
    : Cluster S * result ClusterError ClusterWriteAck :=
  if bool_decide (consistency_mode c = ConvergentAppend)
  then write_convergent c subject value mode is_delete
  else write_linearizable c subject value mode is_delete.

Definition put c (subject value : list byte) (mode : DurabilityMode) :=
  write_event c subject value mode false.
Definition delete_subject c (subject : list byte) (mode : DurabilityMode) :=
  write_event c subject [] mode true.

(** [put_many]: the items of one partition, in their order. *)
Fixpoint put_group c (mode : DurabilityMode) (items : list (nat * (list byte * list byte)))
    (slots : gmap nat ClusterWriteAck) : Cluster S * result ClusterError (gmap nat ClusterWriteAck) :=
  match items with
  | [] => (c, Ok slots)
  | (i, (subject, value)) :: rest =>
      match write_event c subject value mode false with
      | (c', Err e) => (c', Err e)
      | (c', Ok ack) => put_group c' mode rest (<[i := ack]> slots)
      end
  end.

Fixpoint put_groups c (mode : DurabilityMode) (items : list (nat * (list byte * list byte)))
    (parts : list PartitionId) (slots : gmap nat ClusterWriteAck)
    : Cluster S * result ClusterError (gmap nat ClusterWriteAck) :=
  match parts with
  | [] => (c, Ok slots)
  | p :: rest =>
      match ensure_partition_leader save c p with
      | (c1, Err e) => (c1, Err e)
      | (c1, Ok _) =>
          match put_group c1 mode
                  (List.filter (fun it => partition_for_subject c it.2.1 =? p) items) slots with
          | (c2, Err e) => (c2, Err e)
          | (c2, Ok slots') => put_groups c2 mode items rest slots'
          end
      end
  end.

Fixpoint collect_slots (slots : gmap nat ClusterWriteAck) (ixs : list nat)
    : result ClusterError (list ClusterWriteAck) :=
  match ixs with
  | [] => Ok []
  | i :: rest =>
      match slots !! i with
      | None => Err (CorruptMeta "put_many missing ack slot")
      | Some a => let? l := collect_slots slots rest in Ok (a :: l)
      end
  end.

Definition put_many c (items : list (list byte * list byte)) (mode : DurabilityMode)
    : Cluster S * result ClusterError (list ClusterWriteAck) :=
  match items with
  | [] => (c, Ok [])
  | _ =>
      let indexed := zip (seq 0 (length items)) items in
      let parts := dedup_ids (sort_ids ((fun it => partition_for_subject c it.1) <$> items)) in
      match put_groups c mode indexed parts ∅ with
      | (c', Err e) => (c', Err e)
      | (c', Ok slots) => (c', collect_slots slots (seq 0 (length items)))
      end
  end.

(** ** Reconciling convergent replicas *)

Record SubjectVariant := { var_node : NodeId; var_body : list byte; var_hash : list byte }.
Record SubjectConflict := {
  conf_subject : list byte; conf_partition : PartitionId; conf_variants : list SubjectVariant }.
Record ReconcileReport := {
  events_replicated : Z; conflicts : list SubjectConflict; participants : list NodeId }.

(** The live bodies of one node, in index order; partial payloads are passed over. *)
Fixpoint node_bodies (s : S) (keys : list (list byte))
    : result ClusterError (list (list byte * list byte)) :=
  match keys with
  | [] => Ok []
  | k :: rest =>
      if negb (utf8_valid k) then node_bodies s rest
      else match store_get s k with
           | Ok (Some v) => let? l := node_bodies s rest in Ok ((k, v) :: l)
           | Ok None | Err PayloadPartial => node_bodies s rest
           | Err e => Err (Store e)
           end
  end.

Definition Observed : Type := gmap (list byte) (list (NodeId * list byte)).

Definition observe (n : NodeId) (m : Observed) (kv : list byte * list byte) : Observed :=
  <[kv.1 := default [] (m !! kv.1) ++ [(n, kv.2)]]> m.

Fixpoint observe_nodes c (ns : list NodeId) (m : Observed) : result ClusterError Observed :=
  match ns with
  | [] => Ok m
  | n :: rest =>
      match nodes c !! n with
      | None => observe_nodes c rest m
      | Some s =>
          let? bodies := node_bodies s (live_keys s) in
          observe_nodes c rest (foldl (observe n) m bodies)
      end
  end.

(** The first holder of every distinct body. *)
Fixpoint distinct (seen : list (list byte)) (vs : list (NodeId * list byte)) : list SubjectVariant :=
  match vs with
  | [] => []
  | (n, b) :: rest =>
      let h := blake3 b in
      if bool_decide (h ∈ seen) then distinct seen rest
      else {| var_node := n; var_body := b; var_hash := h |} :: distinct (h :: seen) rest
  end.

Definition hash_cmp (a b : SubjectVariant) : comparison := bytes_cmp (var_hash a) (var_hash b).

Fixpoint put_variants (s : S) (subject : list byte) (current : option (list byte))
    (vs : list SubjectVariant) (count : Z) : S * result StoreError Z :=
  match vs with
  | [] => (s, Ok count)
  | v :: rest =>
      if bool_decide (current = Some (var_hash v)) then put_variants s subject current rest count
      else match store_put s subject (var_body v) Durable with
           | (s', Err e) => (s', Err e)
           | (s', Ok _) => put_variants s' subject current rest (count + 1)
           end
  end.

(** One participant: with a single variant, or with all of them in hash order, the
    bodies that are not its current one are put; the source's two branches are this
    loop over the sorted variants. *)
Fixpoint reconcile_nodes c (subject : list byte) (a : Directory.PartitionAssignment)
    (vs : list SubjectVariant) (ns : list NodeId) (count : Z) : Cluster S * result ClusterError Z :=
  match ns with
  | [] => (c, Ok count)
  | n :: rest =>
      if negb (bool_decide (n ∈ Directory.replicas a)) then reconcile_nodes c subject a vs rest count
      else
        match nodes c !! n with
        | None => reconcile_nodes c subject a vs rest count
        | Some s =>
            match store_get s subject with
            | Err e => (c, Err (Store e))
            | Ok cur =>
                match put_variants s subject (blake3 <$> cur) vs count with
                | (s', Err e) => (set_node c n s', Err (Store e))
                | (s', Ok k) => reconcile_nodes (set_node c n s') subject a vs rest k
                end
            end
        end
  end.

Fixpoint reconcile_subjects c (ns : list NodeId) (subjects : list (list byte * list (NodeId * list byte)))
    (count : Z) : Cluster S * result ClusterError Z :=
  match subjects with
  | [] => (c, Ok count)
  | (k, vs) :: rest =>
      match Directory.get (directory c) (partition_for_subject c k) with
      | None => reconcile_subjects c ns rest count
      | Some a =>
          match reconcile_nodes c k a (sort_by hash_cmp (distinct [] vs)) ns count with
          | (c', Err e) => (c', Err e)
          | (c', Ok n) => reconcile_subjects c' ns rest n
          end
      end
  end.

Definition conflict_of c (kv : list byte * list (NodeId * list byte)) : option SubjectConflict :=
  let vs := distinct [] kv.2 in
  if (1 <? length vs)%nat then
    Some {| conf_subject := kv.1; conf_partition := partition_for_subject c kv.1;
            conf_variants := vs |}
  else None.

Definition subject_cmp (a b : list byte * list (NodeId * list byte)) : comparison :=
  bytes_cmp a.1 b.1.

(** The subjects are taken in order of their names, so that the conflicts come out
    sorted; the source visits a [HashMap] and sorts the conflicts at the end. *)
Definition reconcile c : Cluster S * result ClusterError ReconcileReport :=
  if negb (bool_decide (consistency_mode c = ConvergentAppend)) then
    (c, Err (ConsistencyViolation "reconcile is for convergent-append mode"))
  else
    let ns := online_nodes c in
    match observe_nodes c ns ∅ with
    | Err e => (c, Err e)
    | Ok m =>
        let subjects := sort_by subject_cmp (map_to_list m) in
        match reconcile_subjects c ns subjects 0 with
        | (c', Err e) => (c', Err e)
        | (c', Ok k) =>
            (c', Ok {| events_replicated := k; conflicts := omap (conflict_of c) subjects;
                       participants := ns |})
        end
    end.
End Writes.
End Write.
