(* ===== verification/ClusterWriteFacts.v ===== *)
(** * An acknowledged write is what the leader reads

    The replicated write, followed through the log of the partition's leader, the
    batch applied to its store and the linearizable read: the composition of the
    consensus group, the cluster handle and the node's store. *)
From S2P Require Import Prelude Cbor AtomicFile AtomicPlan WriteDedup Raft RaftFacts RaftLogFacts Cluster ClusterToken ClusterScan ClusterScanFacts ClusterPaging ClusterWrite.
Import Reads Write.

(** ** The leader's own record during a proposal *)

(** Log and frontiers of a record: what replication leaves alone in the leader's. *)
Definition durable_part (p : RaftPeer) : list LogEntry * Z * Z :=
  (log p, commit_index p, last_applied p).

Lemma replicate_loop_leader save fuel g L f : f <> L ->
  durable_part <$> peers (fst (replicate_loop save fuel g L f)) !! L = durable_part <$> peers g !! L.
Proof.
  intros Hne. revert g. induction fuel as [|fuel IH]; intros g; cbn [replicate_loop]; [done|].
  destruct (peers g !! L) as [p|] eqn:Hp; [|by cbn; rewrite Hp]. destruct (negb _); [by cbn; rewrite Hp|].
  set (prev := sat_sub _ 1). set (es := List.filter _ _). set (pt := default 0 _).
  pose proof (append_entries_others save g f L (current_term p) prev pt es (commit_index p) L
    (not_eq_sym Hne)) as Hsame.
  destruct (append_entries _ _ _ _ _ _ _ _ _) as [g1 res]. cbn [fst] in Hsame.
  rewrite Hp in Hsame.
  destruct (_ <? _); [cbn; by rewrite lookup_alter_eq, Hsame|].
  destruct (ar_success res); [cbn; by rewrite lookup_alter_eq, Hsame|].
  rewrite Hsame. destruct (back_off _ _ _ _) as [p' stop] eqn:Hb.
  assert (Hc : durable_part p' = durable_part p).
  { unfold back_off in Hb. destruct (if 1 <? _ then _ else _). by injection Hb as <- <-. }
  destruct stop; [|rewrite IH]; cbn; rewrite lookup_insert_eq; cbn; by rewrite Hc.
Qed.

Lemma replicate_to_leader save g L f : f <> L ->
  durable_part <$> peers (fst (replicate_to save g L f)) !! L = durable_part <$> peers g !! L.
Proof. rewrite replicate_to_eq. apply replicate_loop_leader. Qed.

Lemma replicate_all_leader save L n fs acked g : (forall f, f ∈ fs -> f <> L) ->
  durable_part <$> peers (fst (replicate_all save g L n fs acked)) !! L
  = durable_part <$> peers g !! L.
Proof.
  revert acked g. induction fs as [|f fs IH]; intros acked g Hne; cbn [replicate_all]; [done|].
  pose proof (replicate_to_leader save g L f (Hne f (list_elem_of_here _ _))) as Hf.
  destruct (replicate_to save g L f) as [g1 [|]]; cbn [fst] in Hf; [|done].
  rewrite IH; [done|]. intros x Hx. apply Hne. by right.
Qed.

Lemma push_commit_leader save g L online :
  durable_part <$> peers (push_commit save g L online) !! L = durable_part <$> peers g !! L.
Proof.
  unfold push_commit. generalize (voters g). intros l. revert g.
  induction l as [|f l IH]; intros g; cbn [fold_left]; [done|]. rewrite IH.
  destruct (_ || _) eqn:Hs; [done|]. apply orb_false_iff in Hs as [Hs%Z.eqb_neq _].
  by apply replicate_to_leader.
Qed.

(** After a committed proposal the leader's log ends with the command, and all of
    it is committed. *)
Lemma propose_leader_log save g L cmd online g' r p :
  peers g !! L = Some p -> indexed (log p) -> commit_index p <= last_log_index p ->
  propose save g L cmd online = (g', Ok r) -> pr_committed r = true ->
  exists q e, peers g' !! L = Some q /\ log q = log p ++ [e] /\ e_command e = cmd
    /\ indexed (log q) /\ commit_index q = Z.of_nat (length (log q))
    /\ last_applied q = last_applied p.
Proof.
  intros Hp Hix Hci Hr Hc. unfold propose in Hr. rewrite Hp in Hr. destruct (negb _); [done|].
  set (N := last_log_index p + 1) in *. set (entry := {| e_term := _ |}) in *.
  set (p1 := set_indices _ _ _) in *. set (g1 := with_peers g _) in *.
  destruct (negb _); [done|]. set (fs := List.filter _ _) in Hr.
  assert (Hfs : forall f, f ∈ fs -> f <> L).
  { intros f Hf. apply list_elem_of_In, filter_In in Hf as [_ Hf].
    apply andb_true_iff in Hf as [Hf _]. by apply negb_true_iff, Z.eqb_neq in Hf. }
  pose proof (replicate_all_leader save L N fs [L] g1 Hfs) as Hrep.
  destruct (replicate_all save g1 L N fs [L]) as [g2 [acked|]]; [|done]. cbn [fst] in Hrep.
  injection Hr as <- <-. cbn [pr_committed] in Hc. rewrite Hc.
  unfold g1 in Hrep. cbn [peers with_peers] in Hrep. rewrite lookup_insert_eq in Hrep.
  destruct (peers g2 !! L) as [p2|] eqn:Hp2; [|done]. cbn in Hrep.
  injection Hrep as Hl2 Hc2 Ha2. cbn in Hl2, Hc2, Ha2.
  assert (HN : N = Z.of_nat (length (log p2))).
  { rewrite Hl2, length_app. cbn. unfold N, last_log_index. rewrite indexed_last by done. lia. }
  assert (Hix2 : indexed (log p2)).
  { rewrite Hl2. apply indexed_snoc; [done|]. cbn. rewrite HN, Hl2, length_app. cbn. lia. }
  pose proof (push_commit_leader save (advance_commit g2 L) L online) as Hpush.
  set (g4 := push_commit save (advance_commit g2 L) L online) in *. clearbody g4.
  unfold advance_commit in Hc, Hpush. rewrite Hp2 in Hc, Hpush.
  assert (Hlow : N <=? commit_index p2 = false) by (apply Z.leb_gt; unfold N; lia).
  destruct (negb _); [by rewrite Hp2, Hlow in Hc|].
  destruct (List.find _ _) as [n|] eqn:Hfind; [|by rewrite Hp2, Hlow in Hc].
  apply List.find_some in Hfind as [Hin _].
  rewrite (upd_lookup _ _ _ p2) in Hc, Hpush by done.
  cbn [peers with_peers] in Hc, Hpush. rewrite lookup_insert_eq in Hc, Hpush.
  cbn [commit_index set_frontiers] in Hc.
  assert (Hn : n = N).
  { apply list_elem_of_In, elem_of_reverse, elem_of_seqZ in Hin. unfold last_log_index in Hin.
    rewrite indexed_last in Hin by done. apply Z.leb_le in Hc. lia. }
  destruct (peers g4 !! L) as [q|] eqn:Hq; [|done]. cbn in Hpush.
  injection Hpush as Hlq Hcq Haq.
  exists q, entry. rewrite Hlq, Hcq, Haq, Hn, Ha2. split_and!; done.
Qed.

(** ** The batch applied to the leader's store *)

Definition not_base (e : LogEntry) : bool :=
  negb (bool_decide (subject_of (e_command e) = SNAPSHOT_BASE)).

Lemma apply_loop_batch fuel p out :
  indexed (log p) -> 0 <= last_applied p -> commit_index p <= Z.of_nat (length (log p)) ->
  Z.of_nat fuel = commit_index p - last_applied p ->
  snd (apply_loop fuel p out)
  = out ++ List.filter not_base (take fuel (drop (Z.to_nat (last_applied p)) (log p))).
Proof.
  revert p out. induction fuel as [|fuel IH]; intros p out Hi Ha Hc Hf; cbn [apply_loop].
  { cbn. by rewrite app_nil_r. }
  rewrite (proj2 (Z.ltb_lt _ _)) by lia. unfold entry_at, log_entry_at.
  rewrite (proj2 (Z.eqb_neq _ _)) by lia.
  replace (Z.to_nat (last_applied p + 1 - 1)) with (Z.to_nat (last_applied p)) by lia.
  destruct (lookup_lt_is_Some_2 (log p) (Z.to_nat (last_applied p))) as [e He]; [lia|].
  rewrite He, IH by (cbn; lia || done). cbn [log last_applied set_frontiers].
  rewrite (drop_S (log p) e (Z.to_nat (last_applied p))) by done. cbn [take List.filter].
  replace (Z.to_nat (last_applied p + 1)) with (Datatypes.S (Z.to_nat (last_applied p))) by lia.
  unfold not_base at 2. case_bool_decide; cbn [negb]; [done|]. by rewrite <- app_assoc.
Qed.

Lemma take_batch_leader g L q :
  peers g !! L = Some q -> indexed (log q) -> 0 <= last_applied q ->
  commit_index q = Z.of_nat (length (log q)) -> last_applied q <= commit_index q ->
  snd (take_apply_batch (sync_follower_commit g L L) L)
  = List.filter not_base (drop (Z.to_nat (last_applied q)) (log q)).
Proof.
  intros Hq Hi Ha Hc Hle. unfold sync_follower_commit. rewrite Hq.
  rewrite (upd_lookup _ _ _ q) by done. rewrite Z.ltb_irrefl.
  unfold take_apply_batch. cbn [peers with_peers]. rewrite lookup_insert_eq.
  pose proof (apply_loop_batch (Z.to_nat (commit_index q - last_applied q)) q [] Hi Ha) as Hb.
  destruct (apply_loop _ q []) as [q' out]. cbn [snd] in *. rewrite Hb by lia. cbn [app].
  f_equal. apply take_ge. rewrite length_drop. lia.
Qed.

(** Another node's turn does not touch the leader's record. *)
Lemma take_batch_others g L n :
  n <> L -> peers (fst (take_apply_batch (sync_follower_commit g L n) n)) !! L = peers g !! L.
Proof.
  intros Hn. unfold take_apply_batch, sync_follower_commit.
  destruct (peers (upd g n _) !! n) as [p|]; [|cbn; by rewrite lookup_alter_ne].
  destruct (apply_loop _ p []) as [p' out]. cbn.
  by rewrite lookup_insert_ne, lookup_alter_ne.
Qed.

Section Effects.
Context {S : Type} `{N : NodeStore S} `{W : NodeStoreWrite S} `{WL : !NodeStoreWriteLaws S} `{H : Blake3}.
Context (save : PartitionId -> NodeId -> RaftPeer -> bool).
Implicit Types (c : Cluster S).

(** What a command leaves under its subject. *)
Definition effect (cmd : LogCommand) : option (list byte) :=
  match cmd with Put _ v => Some v | Delete _ => None end.

Lemma apply_entries_last s mode es e receipt s' r :
  apply_entries s mode (es ++ [e]) receipt = (s', Ok r) ->
  store_get s' (of_text (subject_of (e_command e))) = Ok (effect (e_command e)).
Proof.
  revert s receipt. induction es as [|x es IH]; intros s receipt; cbn [apply_entries app].
  - destruct (apply_log_command s mode (e_command e)) as [s1 [r1|]] eqn:Ha; [|done].
    intros [= <- <-]. unfold apply_log_command in Ha. destruct (e_command e) as [k v|k]; cbn.
    + by apply put_reads in Ha as [Ha _].
    + by apply delete_reads in Ha as [Ha _].
  - destruct (apply_log_command s mode (e_command x)) as [s1 [r1|]]; [|done]. apply IH.
Qed.

(** Nodes behind the leader in the loop leave its store, and the receipt, alone. *)
Lemma apply_nodes_rest c p L mode ns receipt c' r :
  L ∉ ns -> apply_nodes c p L mode ns receipt = (c', Ok r) ->
  nodes c' !! L = nodes c !! L /\ r = receipt.
Proof.
  revert c receipt. induction ns as [|n ns IH]; intros c receipt Hn; cbn [apply_nodes].
  { by intros [= <- <-]. }
  assert (n <> L /\ L ∉ ns) as [Hne Hns].
  { split; intros ?; apply Hn; subst; [by left|by right]. }
  assert (Hnodes : nodes (fst (take_batch c p L n)) = nodes c).
  { unfold take_batch. destruct (raft c !! p); [|done]. by destruct (take_apply_batch _ _). }
  destruct (take_batch c p L n) as [c1 batch]. cbn [fst] in Hnodes.
  destruct batch as [|e es].
  { intros [Hl Hr]%IH; [|done]. by rewrite Hl, Hnodes. }
  destruct (nodes c1 !! n) as [s|].
  2: { intros [Hl Hr]%IH; [|done]. by rewrite Hl, Hnodes. }
  destruct (apply_entries s mode _ None) as [s' [r'|]]; [|done].
  rewrite (proj2 (Z.eqb_neq _ _)) by done. intros [Hl Hr]%IH; [|done].
  rewrite Hl. cbn. rewrite lookup_insert_ne by done. by rewrite Hnodes.
Qed.

(** The leader's store ends with the effect of the last entry of its log. *)
Lemma apply_nodes_leader c p L mode ns c' rc g q es e :
  NoDup ns -> raft c !! p = Some g -> peers g !! L = Some q ->
  indexed (log q) -> 0 <= last_applied q <= Z.of_nat (length es) ->
  commit_index q = Z.of_nat (length (log q)) -> log q = es ++ [e] -> not_base e = true ->
  apply_nodes c p L mode ns None = (c', Ok (Some rc)) ->
  exists s, nodes c' !! L = Some s
    /\ store_get s (of_text (subject_of (e_command e))) = Ok (effect (e_command e)).
Proof.
  intros Hnd Hg Hq Hi Ha Hc Hlog Hb. revert c g Hg Hq. induction Hnd as [|n ns Hn Hnd IH];
    intros c g Hg Hq; cbn [apply_nodes]; [done|].
  unfold take_batch. rewrite Hg. destruct (decide (n = L)) as [->|Hne].
  - pose proof (take_batch_leader g L q Hq Hi ltac:(lia) Hc) as Hbatch.
    rewrite Hlog, drop_app_le, List.filter_app in Hbatch by lia. cbn [List.filter] in Hbatch.
    rewrite Hb in Hbatch.
    destruct (take_apply_batch _ L) as [g' batch]. cbn [snd] in Hbatch.
    rewrite Hbatch by (rewrite Hc, Hlog, length_app; cbn; lia).
    set (pre := List.filter not_base _). destruct (pre ++ [e]) as [|x xs] eqn:Hpre;
      [by destruct pre|]. rewrite <- Hpre.
    destruct (nodes (set_raft c p g') !! L) as [s|].
    2: { intros Hr. by apply apply_nodes_rest in Hr as [_ ?]. }
    destruct (apply_entries s mode (pre ++ [e]) None) as [s' [r'|]] eqn:He; [|done].
    intros [Hl _]%apply_nodes_rest; [|done]. exists s'. rewrite Hl. cbn. rewrite lookup_insert_eq.
    split; [done|]. by eapply apply_entries_last.
  - pose proof (take_batch_others g L n Hne) as Hsame.
    destruct (take_apply_batch _ n) as [g' batch]. cbn [fst] in Hsame. rewrite Hq in Hsame.
    assert (Hg' : raft (set_raft c p g') !! p = Some g') by (cbn; by rewrite lookup_insert_eq).
    destruct batch as [|x xs]; [by apply IH with g'|].
    destruct (nodes (set_raft c p g') !! n) as [s|]; [|by apply IH with g'].
    destruct (apply_entries s mode _ None) as [s' [r'|]]; [|done].
    rewrite (proj2 (Z.eqb_neq _ _)) by done. by apply IH with g'.
Qed.

(** Applying a batch keeps the handle's placement and configuration. *)
Lemma apply_nodes_frame c p L mode ns receipt c' r g :
  raft c !! p = Some g -> apply_nodes c p L mode ns receipt = (c', Ok r) ->
  directory c' = directory c /\ partition_map c' = partition_map c
  /\ consistency_mode c' = consistency_mode c /\ exists g', raft c' !! p = Some g'.
Proof.
  revert c g receipt. induction ns as [|n ns IH]; intros c g receipt Hg; cbn [apply_nodes].
  { intros [= <- <-]. eauto. }
  unfold take_batch. rewrite Hg. destruct (take_apply_batch _ n) as [g' batch].
  assert (Hg' : forall x, raft (set_node (set_raft c p g') n x) !! p = Some g')
    by (intros x; cbn; by rewrite lookup_insert_eq).
  assert (Hg2 : raft (set_raft c p g') !! p = Some g') by (cbn; by rewrite lookup_insert_eq).
  destruct batch as [|x xs]; [by intros ?%(IH _ g')|].
  destruct (nodes (set_raft c p g') !! n) as [s|]; [|by intros ?%(IH _ g')].
  destruct (apply_entries s mode _ None) as [s' [r'|]]; [|done]. by intros ?%(IH _ g').
Qed.

Lemma online_nodes_NoDup c : NoDup (online_nodes c).
Proof. unfold online_nodes, sort_ids. rewrite sort_by_perm. apply NoDup_fst_map_to_list. Qed.
Lemma elem_of_online_nodes c n s : nodes c !! n = Some s -> n ∈ online_nodes c.
Proof.
  intros Hn. unfold online_nodes. rewrite elem_of_sort_ids. apply list_elem_of_fmap.
  exists (n, s). split; [done|]. by apply elem_of_map_to_list.
Qed.

(** The leader serves a linearizable read of a subject its store can read. *)
Lemma leader_read c subject L t g s v :
  let p := partition_for_subject c subject in
  consistency_mode c <> ConvergentAppend -> is_Some (Directory.get (directory c) p) ->
  raft c !! p = Some g -> current_leader g = Some (L, t) ->
  nodes c !! L = Some s -> store_get s subject = Ok v ->
  exists r, snd (get save c subject Linearizable) = Ok r /\ value r = v /\ absence_proven r = true.
Proof.
  intros p Hm [a Ha] Hg Hl Hs Hv. unfold get. fold p. rewrite Ha.
  unfold get_linearizable. rewrite (bool_decide_eq_false_2 _ Hm).
  unfold ensure_partition_leader. rewrite Hg. unfold ensure_leader_preferring. rewrite Hl.
  rewrite bool_decide_eq_true_2 by (by eapply elem_of_online_nodes).
  cbn [nodes with_parts]. rewrite Hs, Hv. cbn [snd]. eauto.
Qed.

Lemma text_round s : of_text (to_text s) = s.
Proof. apply String.list_byte_of_string_of_list_byte. Qed.

(** C31. Read your writes: when a replicated put or delete is acknowledged, it is
    reported committed by the leader that was elected or found for it, and as
    long as that node leads the partition a linearizable read of the subject
    answers, claims proof, and returns what was written (nothing after a
    delete). *)
Theorem acknowledged_write_reads c subject body mode del c1 L t g q c3 ack :
  let p := partition_for_subject c subject in
  consistency_mode c <> ConvergentAppend -> to_text subject <> SNAPSHOT_BASE ->
  ensure_partition_leader save c p = (c1, Ok (L, t)) ->
  raft c1 !! p = Some g -> peers g !! L = Some q -> indexed (log q) ->
  0 <= last_applied q <= last_log_index q -> commit_index q <= last_log_index q ->
  write_linearizable save c subject body mode del = (c3, Ok ack) ->
  ack_leader ack = L /\ ack_committed ack = true
  /\ exists g3, raft c3 !! p = Some g3 /\ forall t', current_leader g3 = Some (L, t') ->
       exists r, snd (get save c3 subject Linearizable) = Ok r
         /\ value r = (if del then None else Some body) /\ absence_proven r = true.
Proof.
  intros p Hm Hbase He Hg Hq Hi Ha Hc Hw. unfold write_linearizable in Hw. fold p in Hw.
  destruct (Directory.get (directory c) p) as [a|] eqn:Hdir; [|done]. rewrite He, Hg in Hw.
  assert (Hframe : directory c1 = Directory.set_leader (directory c) p L t
    /\ partition_map c1 = partition_map c /\ consistency_mode c1 = consistency_mode c).
  { unfold ensure_partition_leader in He. destruct (raft c !! p); [|done].
    destruct (ensure_leader_preferring _ _ _ _) as [g' [[l' t']|]]; [|done].
    injection He as <- <- <-. done. }
  destruct Hframe as (Hd1 & Hpm1 & Hcm1).
  set (cmd := command_of subject body del) in *.
  destruct (propose (save p) g L cmd (online_nodes c1)) as [g2 [r|]] eqn:Hp; [|done].
  destruct (pr_committed r) eqn:Hcom; cbn [negb] in Hw; [|done].
  set (c2 := set_raft c1 p g2) in *.
  destruct (propose_leader_log _ _ _ _ _ _ _ _ Hq Hi Hc Hp Hcom)
    as (q2 & e & Hq2 & Hlog2 & Hcmd & Hi2 & Hc2 & Ha2).
  destruct (apply_nodes c2 p L mode (online_nodes c1) None) as [c4 [[rc|]|]] eqn:Hap; [|done..].
  injection Hw as <- <-. cbn [ack_leader ack_committed]. split; [done|]. split; [done|].
  assert (Hg2 : raft c2 !! p = Some g2) by (cbn; by rewrite lookup_insert_eq).
  destruct (apply_nodes_frame _ _ _ _ _ _ _ _ _ Hg2 Hap) as (Hd & Hpm & Hcm & g3 & Hg3).
  exists g3. split; [done|]. intros t' Hlead.
  assert (Hsub : subject_of cmd = to_text subject) by (unfold cmd; by destruct del).
  destruct (apply_nodes_leader c2 p L mode (online_nodes c1) c4 rc g2 q2 (log q) e)
    as (s & Hs & Hget); try done.
  - apply online_nodes_NoDup.
  - rewrite Ha2. unfold last_log_index in Ha. by rewrite indexed_last in Ha.
  - unfold not_base. rewrite Hcmd, Hsub. by rewrite bool_decide_eq_false_2.
  - rewrite Hcmd, Hsub, text_round in Hget.
    replace (effect cmd) with (if del then None else Some body) in Hget by (unfold cmd; by destruct del).
    assert (Hpart : partition_for_subject c4 subject = p).
    { unfold partition_for_subject. rewrite Hpm. cbn. by rewrite Hpm1. }
    eapply leader_read; rewrite ?Hpart; try done.
    + rewrite Hcm. cbn. by rewrite Hcm1.
    + rewrite Hd. cbn. rewrite Hd1, DirectoryFacts.get_set_leader, decide_True, Hdir by done. by eexists.
Qed.
End Effects.

(** ** Concrete clusters *)

Definition no_receipt : WriteReceipt := {| event_id := []; store_id := []; segment_id := [] |}.
#[global] Instance shelf_write : NodeStoreWrite Shelf := {|
  store_put s k v _ := (<[k := v]> s, Ok no_receipt);
  store_delete s k _ := (delete k s, Ok no_receipt) |}.
#[global] Instance shelf_write_laws : NodeStoreWriteLaws Shelf.
Proof.
  assert (Hlive : forall (s : Shelf) x, x ∈ live_keys s <-> is_Some (s !! x)).
  { intros s x. change (live_keys s) with (sort_texts ((map_to_list s).*1)).
    unfold sort_texts. rewrite sort_by_perm, list_elem_of_fmap. split.
    - intros ([y w] & -> & Hy%elem_of_map_to_list). by exists w.
    - intros [w Hw]. exists (x, w). split; [done|]. by apply elem_of_map_to_list. }
  split.
  - intros s k v m s' r [= <- <-]. split; [|intros x Hx]; cbn [store_get shelf_store]; f_equal.
    + apply lookup_insert_eq.
    + by apply lookup_insert_ne.
  - intros s k v m s' r x [= <- <-]. rewrite !Hlive. rewrite lookup_insert_is_Some.
    destruct (decide (x = k)) as [->|]; intuition congruence.
  - intros s k m s' r [= <- <-]. split; [|intros x Hx]; cbn [store_get shelf_store]; f_equal.
    + apply lookup_delete_eq.
    + by apply lookup_delete_ne.
Qed.

Definition one_partition : PartitionMap :=
  {| virtual_partitions := 1; hash_profile := HASH_PROFILE_BLAKE3_MOD |}.
Definition three_nodes (mode : ConsistencyMode) (ns : gmap Z Shelf) : Cluster Shelf := {|
  cluster_id := sample_cid; profile := DependableLocal; consistency_mode := mode;
  partition_map := one_partition;
  directory := {| Directory.map := one_partition; Directory.dir_epoch := 1;
                  Directory.assignments :=
                    [{| Directory.partition := 0; Directory.replicas := [0; 1; 2];
                        Directory.leader := 0; Directory.term := 1;
                        Directory.placement_epoch := 1 |}] |};
  expected_node_count := 3; nodes := ns; offline := []; missing_nodes := [];
  raft := {[0 := raft_new 0 [0; 1; 2] 1]}; convergent_pos := ∅; rebalance_jobs := ∅;
  token_keyring := sample_ring |}.

#[local] Existing Instance plain_hash.

Definition replicated : Cluster Shelf :=
  three_nodes PartitionLinearizable {[0 := (∅ : Shelf); 1 := (∅ : Shelf); 2 := (∅ : Shelf)]}.
Definition elected : Cluster Shelf := fst (ensure_partition_leader saves_all replicated 0).
Definition elected_group : PartitionRaft := default (raft_new 0 [] 0) (raft elected !! 0).
Definition elected_peer : RaftPeer := default (peer_new 0) (peers elected_group !! 0).
Definition written : Cluster Shelf * result ClusterError ClusterWriteAck :=
  write_linearizable saves_all replicated (lit "k") (lit "v") Durable false.
Definition sample_ack : option ClusterWriteAck :=
  match snd written with Ok a => Some a | Err _ => None end.

Example written_acked : (fun a => (ack_leader a, ack_replica_acks a)) <$> sample_ack = Some (0, 3).
Proof. vm_compute. reflexivity. Qed.

Lemma elected_indexed : indexed (log elected_peer).
Proof. intros i e Hi. by replace (log elected_peer) with (@nil LogEntry) in Hi by (vm_compute; reflexivity). Qed.

(** The hypotheses of [acknowledged_write_reads] hold of a three-node cluster; the
    read after the acknowledged put returns the value. *)
Lemma acknowledged_write_reads_witness :
  exists r, snd (get saves_all (fst written) (lit "k") Linearizable) = Ok r
    /\ value r = Some (lit "v") /\ absence_proven r = true.
Proof.
  destruct sample_ack as [ack|] eqn:Hack; [|vm_compute in Hack; discriminate].
  assert (Hw : write_linearizable saves_all replicated (lit "k") (lit "v") Durable false
               = (fst written, Ok ack)).
  { unfold sample_ack in Hack. unfold written in *.
    destruct (write_linearizable _ _ _ _ _ _) as [c' [a|e]]; cbn in Hack; [|discriminate].
    injection Hack as ->. reflexivity. }
  destruct (acknowledged_write_reads saves_all replicated (lit "k") (lit "v") Durable false
              elected 0 1 elected_group elected_peer (fst written) ack)
    as (_ & _ & g3 & Hg3 & Hread).
  - discriminate.
  - discriminate.
  - reflexivity.
  - reflexivity.
  - reflexivity.
  - apply elected_indexed.
  - vm_compute. split; discriminate.
  - vm_compute. discriminate.
  - exact Hw.
  - apply (Hread 1). clear -Hg3.
    assert (Hl : current_leader (default (raft_new 0 [] 0) (raft (fst written) !! 0)) = Some (0, 1))
      by (vm_compute; reflexivity).
    change (partition_for_subject replicated (lit "k")) with 0 in Hg3. rewrite Hg3 in Hl. exact Hl.
Defined.

(** ** Two behaviours of the convergent mode *)

(** With one of three nodes online a convergent put is accepted, but the same item
    through [put_many] is refused: the batch elects a leader first. *)
Definition split_side : Cluster Shelf := three_nodes ConvergentAppend {[2 := (∅ : Shelf)]}.
Example put_many_needs_a_quorum :
  is_ok (snd (put saves_all split_side (lit "k") (lit "v") Durable)) = true
  /\ snd (put_many saves_all split_side [(lit "k", lit "v")] Durable)
     = Err (PartitionUnavailable 0 "no leader elected (quorum unavailable)").
Proof. vm_compute. split; reflexivity. Qed.

(** Two replicas that accepted different bodies exchange them: reconciling leaves the
    conflict, with the live values swapped, and a second round swaps them back. *)
Definition diverged (a b : list byte) : Cluster Shelf :=
  three_nodes ConvergentAppend {[0 := {[lit "k" := a]} : Shelf; 1 := {[lit "k" := b]} : Shelf]}.
Definition live_values (c : Cluster Shelf) : list (option (list byte)) :=
  (fun n => nodes c !! n ≫= lookup (lit "k")) <$> [0; 1].
Example reconcile_swaps_live_values :
  live_values (fst (reconcile (diverged (lit "x") (lit "y")))) = [Some (lit "y"); Some (lit "x")]
  /\ live_values (fst (reconcile (fst (reconcile (diverged (lit "x") (lit "y"))))))
     = [Some (lit "x"); Some (lit "y")].
Proof. vm_compute. split; reflexivity. Qed.
