(* ===== verification/ClusterRepair.v ===== *)
(** * Anti-entropy inventory and repair

    Model of [crates/residiuum-cluster/src/repair.rs] and of the repair pass of
    [cluster.rs]: the views of a subject on the online replicas, the choice of a
    repair source, the inventory of a partition and the bounded copy pass.  The
    audit file is outside the model; the entries a pass would append to it are in
    its report. *)
From S2P Require Import Prelude Cbor AtomicFile AtomicPlan WriteDedup SegmentIds Raft Cluster ClusterToken ClusterScan ClusterWrite.

(** ** Digests as text *)

(** [hash_hex] writes two hex digits a byte, as [layout.rs] does for identities. *)
Definition hash_hex (h : list byte) : list byte := SegmentIds.hex16 h.
Definition parse_hash_hex (s : list byte) : Parsed :=
  if negb (length s =? 64)%nat then NotId else unhex_loop s 0 32.

Module Repair.
Import Reads Write.

Inductive ReplicaObservation : Type := Healthy | Missing | Corrupt | Divergent.
#[global] Instance ReplicaObservation_eq_dec : EqDecision ReplicaObservation.
Proof. solve_decision. Defined.

Record NodeSubjectView := {
  v_node : NodeId;
  observation : ReplicaObservation;
  content_hash_hex : list byte;
  v_body : option (list byte) }.

Record SubjectInventory := {
  subject : list byte;
  inv_partition : PartitionId;
  views : list NodeSubjectView;
  target_hash_hex : option (list byte);
  source_node : option NodeId;
  conflicting : bool;
  irrecoverable : bool }.

Record PartitionInventory := {
  pi_partition : PartitionId;
  pi_replicas : list NodeId;
  online_replicas : list NodeId;
  log_frontier : LogPosition;
  pi_leader : option NodeId;
  segment_fingerprints : list (NodeId * list byte);
  subjects : list SubjectInventory;
  needs_repair : Z;
  pi_irrecoverable : Z;
  pi_conflicts : Z }.

(** ** Choosing a source *)

Inductive SourceSelectError : Type := Irrecoverable | AllMissing | Conflict.

(** A content hash, its votes and its holders. *)
Record Tally := { t_hash : list byte; t_count : Z; t_holders : list NodeId }.

Fixpoint vote (h : list byte) (n : NodeId) (ts : list Tally) : list Tally :=
  match ts with
  | [] => [{| t_hash := h; t_count := 1; t_holders := [n] |}]
  | t :: rest =>
      if bytes_eqb (t_hash t) h
      then {| t_hash := h; t_count := t_count t + 1; t_holders := t_holders t ++ [n] |} :: rest
      else t :: vote h n rest
  end.

Definition is_readable (o : ReplicaObservation) : bool :=
  match o with Healthy | Divergent => true | _ => false end.

(** The digests are texts of [hash_hex] or empty, so parsing never splits a character. *)
Definition tally (ts : list Tally) (v : NodeSubjectView) : list Tally :=
  if is_readable (observation v) then
    match parse_hash_hex (content_hash_hex v) with
    | Id h => vote h (v_node v) ts
    | _ => ts
    end
  else ts.

(** [b.1.cmp(&a.1).then_with(|| a.0.cmp(&b.0))] *)
Definition tally_cmp (a b : Tally) : comparison :=
  match t_count b ?= t_count a with Eq => bytes_cmp (t_hash a) (t_hash b) | o => o end.

Definition select_repair_source (vs : list NodeSubjectView) (leader : option NodeId)
    : result SourceSelectError (list byte * NodeId) :=
  let any_readable := existsb (fun v => is_readable (observation v)) vs in
  let corrupt_only := forallb (fun v => bool_decide (observation v = Corrupt)) vs in
  if negb any_readable then
    if corrupt_only && existsb (fun v => bool_decide (observation v = Corrupt)) vs
    then Err Irrecoverable else Err AllMissing
  else
    match sort_by tally_cmp (foldl tally [] vs) with
    | [] => Err Irrecoverable
    | best :: rest =>
        if (1 <? length (List.filter (fun t => (t_count t =? t_count best)%Z) (best :: rest)))%nat
        then Err Conflict
        else
          match leader with
          | Some l =>
              if bool_decide (l ∈ t_holders best) then Ok (t_hash best, l)
              else Ok (t_hash best, hd 0 (sort_ids (t_holders best)))
          | None => Ok (t_hash best, hd 0 (sort_ids (t_holders best)))
          end
    end.

(** ** The inventory *)

Class NodeFingerprint (S : Type) : Type := segment_fingerprint : S -> result StoreError (list byte).

Section Repair.
Context {S : Type} `{N : NodeStore S} `{W : NodeStoreWrite S} `{F : NodeFingerprint S} `{H : Blake3}.
Implicit Types (c : Cluster S).

Definition view_of (n : NodeId) (s : S) (k : list byte) : result ClusterError NodeSubjectView :=
  match store_get s k with
  | Ok (Some b) => Ok {| v_node := n; observation := Healthy;
                         content_hash_hex := hash_hex (blake3 b); v_body := Some b |}
  | Ok None => Ok {| v_node := n; observation := Missing; content_hash_hex := []; v_body := None |}
  | Err PayloadPartial | Err PayloadConflict =>
      Ok {| v_node := n; observation := Corrupt; content_hash_hex := []; v_body := None |}
  | Err e => Err (Store e)
  end.

Fixpoint views_of c (k : list byte) (ns : list NodeId) : result ClusterError (list NodeSubjectView) :=
  match ns with
  | [] => Ok []
  | n :: rest =>
      match nodes c !! n with
      | None => views_of c k rest
      | Some s =>
          let? v := view_of n s k in
          let? l := views_of c k rest in
          Ok (v :: l)
      end
  end.

(** A readable view that disagrees with the target is divergent. *)
Definition against (target : list byte) (v : NodeSubjectView) : NodeSubjectView :=
  if is_readable (observation v) && negb (bytes_eqb (content_hash_hex v) target)
  then {| v_node := v_node v; observation := Divergent; content_hash_hex := content_hash_hex v;
          v_body := v_body v |}
  else v.
Definition needs (target : list byte) (v : NodeSubjectView) : bool :=
  negb (is_readable (observation v)) || negb (bytes_eqb (content_hash_hex v) target).

(** One subject's entry, and whether it counts as needing repair. *)
Definition classify (p : PartitionId) (k : list byte) (vs : list NodeSubjectView)
    (leader : option NodeId) : SubjectInventory * bool :=
  let entry vs target src conf irr :=
    {| subject := k; inv_partition := p; views := vs; target_hash_hex := target; source_node := src;
       conflicting := conf; irrecoverable := irr |} in
  match select_repair_source vs leader with
  | Ok (h, src) =>
      (entry (against (hash_hex h) <$> vs) (Some (hash_hex h)) (Some src) false false,
       existsb (needs (hash_hex h)) vs)
  | Err Conflict => (entry vs None None true false, true)
  | Err Irrecoverable => (entry vs None None false true, true)
  | Err AllMissing => (entry vs None None false false, false)
  end.

Fixpoint inventory_subjects c (p : PartitionId) (leader : option NodeId) (online : list NodeId)
    (ks : list (list byte)) : result ClusterError (list (SubjectInventory * bool)) :=
  match ks with
  | [] => Ok []
  | k :: rest =>
      let? vs := views_of c k online in
      let? l := inventory_subjects c p leader online rest in
      Ok (classify p k vs leader :: l)
  end.

Definition partition_keys c (p : PartitionId) (n : NodeId) : list (list byte) :=
  match nodes c !! n with
  | Some s => List.filter (fun k => utf8_valid k && (partition_for_subject c k =? p)) (live_keys s)
  | None => []
  end.
(** The union over the replicas, sorted. *)
Definition subject_list c (p : PartitionId) (online : list NodeId) : list (list byte) :=
  sort_texts (elements (list_to_set (online ≫= partition_keys c p) : gset (list byte))).

Definition fingerprints c (online : list NodeId) : list (NodeId * list byte) :=
  omap (fun n => match nodes c !! n with
                 | Some s => Some (n, match segment_fingerprint s with
                                      | Ok fp => hash_hex fp
                                      | Err _ => []
                                      end)
                 | None => None
                 end) online.

Definition count_where {A} (f : A -> bool) (l : list A) : Z := Z.of_nat (length (List.filter f l)).

Definition current_leader_of c (p : PartitionId) : option NodeId :=
  fst <$> (raft c !! p ≫= current_leader).

Definition inventory_partition c (p : PartitionId) : result ClusterError PartitionInventory :=
  match Directory.get (directory c) p with
  | None => Err (NoLeader p)
  | Some a =>
      let online := List.filter (is_online c) (Directory.replicas a) in
      let leader := current_leader_of c p in
      let? l := inventory_subjects c p leader online (subject_list c p online) in
      Ok {| pi_partition := p; pi_replicas := Directory.replicas a; online_replicas := online;
            log_frontier := commit_position c p; pi_leader := leader;
            segment_fingerprints := fingerprints c online; subjects := l.*1;
            needs_repair := count_where snd l;
            pi_irrecoverable := count_where irrecoverable (l.*1);
            pi_conflicts := count_where conflicting (l.*1) |}
  end.

(** ** The copy pass *)

Inductive RepairActionKind : Type :=
| Copied | QuarantinedCorrupt | PreservedConflict | IrrecoverableHole | AlreadyMatched.

Record RepairAuditEntry := {
  a_seq : Z;
  a_subject : list byte;
  a_partition : PartitionId;
  a_action : RepairActionKind;
  a_source : option NodeId;
  a_destination : option NodeId;
  a_content_hash_hex : list byte;
  a_reason : string }.

Record RepairOptions := { max_subjects : option Z; max_bytes : option Z; dry_run : bool }.
Definition unlimited : RepairOptions :=
  {| max_subjects := None; max_bytes := None; dry_run := false |}.

(** The counters of the report and of the budgets. *)
Record Pass := {
  subjects_repaired : Z;
  copies_written : Z;
  corrupt_quarantined : Z;
  conflicts_preserved : Z;
  irrecoverable_holes : Z;
  budget_exhausted : bool;
  audit : list RepairAuditEntry;
  subjects_used : Z;
  bytes_used : Z;
  remaining_after_budget : Z }.

Definition pass_start : Pass := {|
  subjects_repaired := 0; copies_written := 0; corrupt_quarantined := 0; conflicts_preserved := 0;
  irrecoverable_holes := 0; budget_exhausted := false; audit := []; subjects_used := 0;
  bytes_used := 0; remaining_after_budget := 0 |}.

(** Adds to the counters and appends audit entries. *)
Definition tick (st : Pass) (repaired copies corrupt confl holes used bytes : Z)
    (es : list RepairAuditEntry) : Pass := {|
  subjects_repaired := subjects_repaired st + repaired;
  copies_written := copies_written st + copies;
  corrupt_quarantined := corrupt_quarantined st + corrupt;
  conflicts_preserved := conflicts_preserved st + confl;
  irrecoverable_holes := irrecoverable_holes st + holes;
  budget_exhausted := budget_exhausted st; audit := audit st ++ es;
  subjects_used := subjects_used st + used; bytes_used := sat_add (bytes_used st) bytes;
  remaining_after_budget := remaining_after_budget st |}.
Definition exhaust (st : Pass) : Pass := {|
  subjects_repaired := subjects_repaired st; copies_written := copies_written st;
  corrupt_quarantined := corrupt_quarantined st; conflicts_preserved := conflicts_preserved st;
  irrecoverable_holes := irrecoverable_holes st; budget_exhausted := true; audit := audit st;
  subjects_used := subjects_used st; bytes_used := bytes_used st;
  remaining_after_budget := remaining_after_budget st + 1 |}.

Definition entry (p : PartitionId) (k : list byte) (act : RepairActionKind) (src dst : option NodeId)
    (h : list byte) (why : string) : RepairAuditEntry := {|
  a_seq := 0; a_subject := k; a_partition := p; a_action := act; a_source := src;
  a_destination := dst; a_content_hash_hex := h; a_reason := why |}.

Definition quarantine_entries (p : PartitionId) (si : SubjectInventory) : list RepairAuditEntry :=
  (fun v => entry p (subject si) QuarantinedCorrupt None (Some (v_node v)) []
              "payload unreadable; never used as repair source")
  <$> List.filter (fun v => bool_decide (observation v = Corrupt)) (views si).

Definition quarantine (p : PartitionId) (si : SubjectInventory) (st : Pass) : Pass :=
  let es := quarantine_entries p si in tick st 0 0 (Z.of_nat (length es)) 0 0 0 0 es.

Definition needs_copy (target : list byte) (v : NodeSubjectView) : bool :=
  match observation v with
  | Missing | Corrupt | Divergent => true
  | Healthy => negb (bytes_eqb (content_hash_hex v) target)
  end.
Definition destinations (si : SubjectInventory) (target : list byte) (src : NodeId) : list NodeId :=
  List.filter (fun d => negb (d =? src)) (v_node <$> List.filter (needs_copy target) (views si)).

Definition sat_mul (a b : Z) : Z := Z.min (a * b) U64_MAX.

Definition matches (target : list byte) (r : result StoreError (option (list byte))) : bool :=
  match r with Ok (Some b) => bytes_eqb (hash_hex (blake3 b)) target | _ => false end.

Definition verify_failed (k : list byte) (d : NodeId) : list byte :=
  lit "repair verify failed for subject " ++ k ++ lit " on node " ++ decimal d.

(** The writes to the destinations; the flag says whether anything was written. *)
Fixpoint copy_to c (o : RepairOptions) (p : PartitionId) (k b target : list byte) (src : NodeId)
    (ds : list NodeId) (st : Pass) (wrote : bool) : Cluster S * result ClusterError (Pass * bool) :=
  match ds with
  | [] => (c, Ok (st, wrote))
  | d :: rest =>
      match nodes c !! d with
      | None => copy_to c o p k b target src rest st wrote
      | Some s =>
          let len := Z.of_nat (length b) in
          if match max_bytes o with
             | Some m => (m <? sat_add (bytes_used st) len) && (0 <? bytes_used st)
             | None => false
             end
          then (c, Ok (exhaust st, wrote))
          else if matches target (store_get s k) then
            copy_to c o p k b target src rest
              (tick st 0 0 0 0 0 0 0 [entry p k AlreadyMatched (Some src) (Some d) target
                                        "destination already matched target"]) wrote
          else
            match store_put s k b Durable with
            | (s', Err e) => (set_node c d s', Err (Store e))
            | (s', Ok _) =>
                match store_get s' k with
                | Err e => (set_node c d s', Err (Store e))
                | Ok got =>
                    if negb (matches target (Ok got)) then
                      (set_node c d s', Err (ReplicationRejected (verify_failed k d)))
                    else
                      copy_to (set_node c d s') o p k b target src rest
                        (tick st 0 1 0 0 0 0 len
                           [entry p k Copied (Some src) (Some d) target
                              "majority/integrity source; verified after put"]) true
                end
            end
      end
  end.

Inductive SourceBody : Type := Body (b : list byte) | Lost | NoSource | Failed (e : StoreError).
Definition source_body c (si : SubjectInventory) (src : NodeId) : SourceBody :=
  match List.find (fun v => v_node v =? src) (views si) ≫= v_body with
  | Some b => Body b
  | None =>
      match nodes c !! src with
      | None => NoSource
      | Some s => match store_get s (subject si) with
                  | Ok (Some b) => Body b
                  | Ok None => Lost
                  | Err e => Failed e
                  end
      end
  end.

Definition dry_entries (p : PartitionId) (k target : list byte) (src : NodeId) (ds : list NodeId)
    : list RepairAuditEntry :=
  (fun d => entry p k Copied (Some src) (Some d) target "dry-run majority/integrity source") <$> ds.

(** The copy of one subject once a body is at hand. *)
Definition copy_subject c (o : RepairOptions) (p : PartitionId) (k b target : list byte)
    (src : NodeId) (ds : list NodeId) (st : Pass) : Cluster S * result ClusterError Pass :=
  let actual := hash_hex (blake3 b) in
  if negb (bytes_eqb actual target) then
    (c, Ok (tick st 0 0 1 0 0 0 0
              [entry p k QuarantinedCorrupt (Some src) None actual
                 "source body hash drifted after inventory; skipped"]))
  else if match max_bytes o with
          | Some m =>
              (m <? sat_add (bytes_used st)
                      (sat_mul (Z.of_nat (length b)) (Z.of_nat (length ds))))
              && (0 <? bytes_used st)
          | None => false
          end then (c, Ok (exhaust st))
  else if dry_run o then
    (c, Ok (tick st 1 (Z.of_nat (length ds)) 0 0 0 1 0 (dry_entries p k target src ds)))
  else
    match copy_to c o p k b target src ds st false with
    | (c', Err e) => (c', Err e)
    | (c', Ok (st', wrote)) => (c', Ok (if wrote then tick st' 1 0 0 0 0 1 0 [] else st'))
    end.

Definition repair_subject c (o : RepairOptions) (p : PartitionId) (si : SubjectInventory)
    (st0 : Pass) : Cluster S * result ClusterError Pass :=
  let st := quarantine p si st0 in
  let k := subject si in
  if conflicting si then
    (c, Ok (tick st 0 0 0 1 0 0 0 [entry p k PreservedConflict None None []
                                     "equal-vote content split; no mtime winner"]))
  else if irrecoverable si then
    (c, Ok (tick st 0 0 0 0 1 0 0 [entry p k IrrecoverableHole None None []
                                     "no healthy replica holds a verified body"]))
  else
    match target_hash_hex si, source_node si with
    | Some target, Some src =>
        match destinations si target src with
        | [] => (c, Ok st)
        | ds =>
            if match max_subjects o with Some m => m <=? subjects_used st | None => false end
            then (c, Ok (exhaust st))
            else
              match source_body c si src with
              | Failed e => (c, Err (Store e))
              | NoSource => (c, Ok st)
              | Lost =>
                  (c, Ok (tick st 0 0 0 0 1 0 0
                            [entry p k IrrecoverableHole (Some src) None target
                               "source lost body after inventory"]))
              | Body b => copy_subject c o p k b target src ds st
              end
        end
    | _, _ => (c, Ok st)
    end.

Fixpoint repair_subjects c (o : RepairOptions) (p : PartitionId) (l : list SubjectInventory)
    (st : Pass) : Cluster S * result ClusterError Pass :=
  match l with
  | [] => (c, Ok st)
  | si :: rest =>
      match repair_subject c o p si st with
      | (c', Err e) => (c', Err e)
      | (c', Ok st') => repair_subjects c' o p rest st'
      end
  end.

Definition apply_repair_from_inventory c (inv : PartitionInventory) (o : RepairOptions)
    : Cluster S * result ClusterError Pass :=
  repair_subjects c o (pi_partition inv) (subjects inv) pass_start.

Definition repair_partition c (p : PartitionId) (o : RepairOptions)
    : Cluster S * result ClusterError Pass :=
  match inventory_partition c p with
  | Err e => (c, Err e)
  | Ok inv => apply_repair_from_inventory c inv o
  end.

(** ** The whole cluster *)

Record RepairReport := {
  r_subjects_repaired : Z;
  r_copies_written : Z;
  r_corrupt_quarantined : Z;
  r_conflicts_preserved : Z;
  r_irrecoverable_holes : Z;
  r_budget_remaining_subjects : Z;
  r_budget_exhausted : bool;
  r_audit : list RepairAuditEntry;
  r_needs_repair_before : Z }.

Fixpoint inventory_all c (ps : list PartitionId) : result ClusterError (list PartitionInventory) :=
  match ps with
  | [] => Ok []
  | p :: rest =>
      let? i := inventory_partition c p in
      let? l := inventory_all c rest in
      Ok (i :: l)
  end.
Definition inventory_cluster c : result ClusterError (list PartitionInventory) :=
  inventory_all c (Directory.partition <$> Directory.assignments (directory c)).

Definition add_pass (r : RepairReport) (st : Pass) : RepairReport := {|
  r_subjects_repaired := r_subjects_repaired r + subjects_repaired st;
  r_copies_written := r_copies_written r + copies_written st;
  r_corrupt_quarantined := r_corrupt_quarantined r + corrupt_quarantined st;
  r_conflicts_preserved := r_conflicts_preserved r + conflicts_preserved st;
  r_irrecoverable_holes := r_irrecoverable_holes r + irrecoverable_holes st;
  r_budget_remaining_subjects :=
    r_budget_remaining_subjects r
    + (if budget_exhausted st then remaining_after_budget st else 0);
  r_budget_exhausted := r_budget_exhausted r || budget_exhausted st;
  r_audit := r_audit r ++ audit st; r_needs_repair_before := r_needs_repair_before r |}.
Definition skip_partition (r : RepairReport) (i : PartitionInventory) : RepairReport := {|
  r_subjects_repaired := r_subjects_repaired r; r_copies_written := r_copies_written r;
  r_corrupt_quarantined := r_corrupt_quarantined r;
  r_conflicts_preserved := r_conflicts_preserved r;
  r_irrecoverable_holes := r_irrecoverable_holes r;
  r_budget_remaining_subjects := sat_add (r_budget_remaining_subjects r) (needs_repair i);
  r_budget_exhausted := r_budget_exhausted r; r_audit := r_audit r;
  r_needs_repair_before := r_needs_repair_before r |}.
Definition exhaust_report (r : RepairReport) : RepairReport := {|
  r_subjects_repaired := r_subjects_repaired r; r_copies_written := r_copies_written r;
  r_corrupt_quarantined := r_corrupt_quarantined r;
  r_conflicts_preserved := r_conflicts_preserved r;
  r_irrecoverable_holes := r_irrecoverable_holes r;
  r_budget_remaining_subjects := r_budget_remaining_subjects r; r_budget_exhausted := true;
  r_audit := r_audit r; r_needs_repair_before := r_needs_repair_before r |}.

Fixpoint repair_all c (dry bytes_limited : bool) (subjects_left bytes_left : option Z)
    (is_ : list PartitionInventory) (r : RepairReport) : Cluster S * result ClusterError RepairReport :=
  match is_ with
  | [] => (c, Ok r)
  | i :: rest =>
      if r_budget_exhausted r then
        repair_all c dry bytes_limited subjects_left bytes_left rest (skip_partition r i)
      else
        match apply_repair_from_inventory c i
                {| max_subjects := subjects_left; max_bytes := bytes_left; dry_run := dry |} with
        | (c', Err e) => (c', Err e)
        | (c', Ok st) =>
            let r1 := add_pass r st in
            let left' := (fun m => sat_sub m (subjects_repaired st)) <$> subjects_left in
            let r2 := if bool_decide (left' = Some 0) then exhaust_report r1 else r1 in
            repair_all c' dry bytes_limited left'
              (if budget_exhausted st && bytes_limited then (fun _ => 0) <$> bytes_left
               else bytes_left) rest r2
        end
  end.

Definition repair_cluster c (o : RepairOptions) : Cluster S * result ClusterError RepairReport :=
  match inventory_cluster c with
  | Err e => (c, Err e)
  | Ok l =>
      repair_all c (dry_run o) (bool_decide (is_Some (max_bytes o))) (max_subjects o) (max_bytes o) l
        {| r_subjects_repaired := 0; r_copies_written := 0; r_corrupt_quarantined := 0;
           r_conflicts_preserved := 0; r_irrecoverable_holes := 0;
           r_budget_remaining_subjects := 0; r_budget_exhausted := false; r_audit := [];
           r_needs_repair_before := foldr Z.add 0 (needs_repair <$> l) |}
  end.

Definition anti_entropy_once c : Cluster S * result ClusterError RepairReport :=
  repair_cluster c unlimited.
End Repair.
End Repair.
