(* ===== verification/ClusterRepairFacts.v ===== *)
(** * Repair converges

    One unlimited repair pass brings every online replica of a partition to the
    selected content of every subject that has one, leaves conflicts and holes as
    they were, and a second pass writes nothing. *)
From S2P Require Import Prelude Cbor AtomicFile AtomicPlan WriteDedup SegmentIds SegmentIdsFacts Raft RaftFacts RaftLogFacts Cluster ClusterToken ClusterScan ClusterScanFacts ClusterPaging ClusterWrite ClusterWriteFacts ClusterRepair.
Import Reads Write Repair.

(** ** Digests *)

Lemma length_hash_hex h : length (hash_hex h) = (2 * length h)%nat.
Proof.
  unfold hash_hex, SegmentIds.hex16. induction h as [|b h IH]; [done|]. cbn [List.map concat].
  rewrite length_app, IH. cbn. lia.
Qed.
Lemma parse_hash_hex_hex h : length h = 32%nat -> parse_hash_hex (hash_hex h) = Id h.
Proof.
  intros Hl. unfold parse_hash_hex. rewrite length_hash_hex, Hl. cbn [Nat.eqb negb Nat.mul Nat.add].
  pose proof (unhex_loop_hex h 32 ltac:(lia)) as E. rewrite Hl, Nat.sub_diag, drop_0 in E. exact E.
Qed.

(** ** The selected source holds the selected content *)

Definition holds (vs : list NodeSubjectView) (h : list byte) (n : NodeId) : Prop :=
  exists v, v ∈ vs /\ v_node v = n /\ is_readable (observation v) = true
            /\ parse_hash_hex (content_hash_hex v) = Id h.
Definition tally_ok (vs : list NodeSubjectView) (t : Tally) : Prop :=
  t_holders t <> [] /\ forall n, n ∈ t_holders t -> holds vs (t_hash t) n.

Lemma vote_ok vs h n ts : holds vs h n -> Forall (tally_ok vs) ts -> Forall (tally_ok vs) (vote h n ts).
Proof.
  intros Hn. induction 1 as [|t ts [Hne Ht] Hts IH]; cbn [vote].
  - constructor; [|constructor]. split; [done|]. by intros x ->%list_elem_of_singleton.
  - unfold bytes_eqb. case_bool_decide as Hh; [|by constructor].
    constructor; [|done]. split; cbn [t_holders t_hash].
    + by destruct (t_holders t).
    + intros x [Hx| ->%list_elem_of_singleton]%elem_of_app; [|done]. rewrite <- Hh. by apply Ht.
Qed.
Lemma tallies_ok vs vs' ts :
  (forall v, v ∈ vs' -> v ∈ vs) -> Forall (tally_ok vs) ts -> Forall (tally_ok vs) (foldl tally ts vs').
Proof.
  revert ts. induction vs' as [|v vs' IH]; intros ts Hsub Hts; cbn [foldl]; [done|].
  apply IH; [intros x Hx; apply Hsub; by right|]. unfold tally.
  destruct (is_readable (observation v)) eqn:Hr; [|done].
  destruct (parse_hash_hex (content_hash_hex v)) as [h| |] eqn:Hp; [|done..].
  apply vote_ok; [|done]. exists v. split_and!; [apply Hsub; by left|done..].
Qed.

Lemma hd_sorted_holder l : l <> [] -> hd 0 (sort_ids l) ∈ l.
Proof.
  intros Hl. apply elem_of_sort_ids. pose proof (sort_by_perm Z.compare l) as Hp.
  fold (sort_ids l) in Hp. destruct (sort_ids l) as [|x k]; [|by left].
  symmetry in Hp. by apply Permutation_nil_r in Hp.
Qed.

Lemma select_holds vs leader h src :
  select_repair_source vs leader = Ok (h, src) -> holds vs h src.
Proof.
  unfold select_repair_source. destruct (negb _); [by destruct (_ && _)|].
  assert (Hall : Forall (tally_ok vs) (sort_by tally_cmp (foldl tally [] vs))).
  { rewrite sort_by_perm. by apply tallies_ok. }
  destruct (sort_by tally_cmp _) as [|best rest]; [done|].
  destruct (_ <? _)%nat; [done|]. apply Forall_cons in Hall as [[Hne Hb] _].
  destruct leader as [l|]; [case_bool_decide|]; intros [= <- <-]; apply Hb;
    [done|by apply hd_sorted_holder..].
Qed.

(** The limits of a write: [Store::put] refuses longer subjects, and bodies above the
    limit of its profile. *)
Definition MAX_SUBJECT_LEN : Z := 4096.
Definition within (max_body : Z) (k v : list byte) : Prop :=
  Z.of_nat (length k) <= MAX_SUBJECT_LEN /\ Z.of_nat (length v) <= max_body.

Section Converge.
Context {S : Type} `{N : NodeStore S} `{W : NodeStoreWrite S} `{WL : !NodeStoreWriteLaws S}.
Context `{F : NodeFingerprint S} `{H : Blake3} `{HL : !Blake3Laws H}.
Implicit Types (c : Cluster S) (k : list byte).

(** Stores that accept writes: a store in such a state takes every subject and body
    within its limits, and is in such a state afterwards. *)
Definition accepts (accepting : S -> Prop) (max_body : Z) : Prop :=
  forall s k v, accepting s -> within max_body k v ->
    exists s' r, store_put s k v Durable = (s', Ok r) /\ accepting s'.
Context (accepting : S -> Prop) (max_body : Z) (Haccept : accepts accepting max_body).

(** ** What a pass may change *)

(** Only subjects of [K] may read differently or become live. *)
Definition moved (K : list byte -> Prop) (s s' : S) : Prop :=
  (forall x, ~ K x -> store_get s' x = store_get s x)
  /\ (forall x, x ∈ live_keys s -> x ∈ live_keys s')
  /\ (forall x, x ∈ live_keys s' -> K x \/ x ∈ live_keys s)
  /\ (accepting s -> accepting s').

Record evolves (K : list byte -> Prop) c c' : Prop := {
  ev_directory : directory c' = directory c;
  ev_map : partition_map c' = partition_map c;
  ev_raft : raft c' = raft c;
  ev_nodes : forall n, option_Forall2 (moved K) (nodes c !! n) (nodes c' !! n) }.

Lemma moved_refl K s : moved K s s.
Proof. split_and!; [done|done|by right|done]. Qed.
Lemma moved_trans K s1 s2 s3 : moved K s1 s2 -> moved K s2 s3 -> moved K s1 s3.
Proof.
  intros (A1 & B1 & C1 & D1) (A2 & B2 & C2 & D2). split_and!.
  - intros x Hx. by rewrite A2, A1.
  - auto.
  - intros x [?|?%C1]%C2; auto.
  - auto.
Qed.
Lemma moved_weaken (K K' : list byte -> Prop) s s' : (forall x, K x -> K' x) -> moved K s s' -> moved K' s s'.
Proof.
  intros HK (A & B & C & D). split_and!; [intros x Hx; apply A; auto|done| |done].
  intros x [?|?]%C; auto.
Qed.
Lemma evolves_refl K c : evolves K c c.
Proof. split; [done..|]. intros n. destruct (nodes c !! n); constructor. apply moved_refl. Qed.
Lemma evolves_trans K c1 c2 c3 : evolves K c1 c2 -> evolves K c2 c3 -> evolves K c1 c3.
Proof.
  intros [A1 B1 C1 D1] [A2 B2 C2 D2]. split; [congruence..|]. intros n.
  specialize (D1 n). specialize (D2 n). inversion D1 as [s1 s2 M E1 E2|E1 E2]; rewrite <- E2 in D2.
  - inversion D2 as [? s3 M' E3 E4|]; subst. constructor. by eapply moved_trans.
  - inversion D2. constructor.
Qed.
Lemma evolves_weaken (K K' : list byte -> Prop) c c' :
  (forall x, K x -> K' x) -> evolves K c c' -> evolves K' c c'.
Proof.
  intros HK [A B C D]. split; [done..|]. intros n. specialize (D n).
  inversion D as [? ? M|]; constructor. by eapply moved_weaken.
Qed.

(** The read of a subject at a node. *)
Definition read c (n : NodeId) k : option (result StoreError (option (list byte))) :=
  (fun s => store_get s k) <$> nodes c !! n.
Lemma evolves_read K c c' n k : evolves K c c' -> ~ K k -> read c' n k = read c n k.
Proof.
  intros [_ _ _ D] Hk. specialize (D n). unfold read.
  inversion D as [s s' (M & _) E1 E2|E1 E2]; [|done]. cbn. by rewrite M.
Qed.
Lemma views_of_read c c' k ns :
  (forall n, read c' n k = read c n k) -> views_of c' k ns = views_of c k ns.
Proof.
  intros Hr. induction ns as [|n ns IH]; [done|]. cbn [views_of]. specialize (Hr n). unfold read in Hr.
  destruct (nodes c' !! n) as [s'|], (nodes c !! n) as [s|]; cbn in Hr; try done.
  injection Hr as Hr. unfold view_of. by rewrite Hr, IH.
Qed.

Lemma set_node_evolves c n s s' K :
  nodes c !! n = Some s -> moved K s s' -> evolves K c (set_node c n s').
Proof.
  intros Hn Hm. split; [done..|]. intros m. cbn. destruct (decide (m = n)) as [->|Hne].
  - rewrite lookup_insert_eq, Hn. by constructor.
  - rewrite lookup_insert_ne by done. destruct (nodes c !! m); constructor. apply moved_refl.
Qed.
Lemma put_moved s k v s' r : within max_body k v -> store_put s k v Durable = (s', Ok r) -> moved (eq k) s s'.
Proof.
  intros Hw Hp. destruct (put_reads _ _ _ _ _ _ Hp) as [_ Ho]. split_and!.
  - intros x Hx. apply Ho. congruence.
  - intros x Hx. apply (put_live _ _ _ _ _ _ _ Hp). by right.
  - intros x [->|Hx]%(put_live _ _ _ _ _ _ _ Hp); auto.
  - intros Ha. destruct (Haccept s k v Ha Hw) as (s2 & r2 & Hp2 & Ha2). congruence.
Qed.

(** The replicas [ns] accept writes. *)
Definition accepting_at c (ns : list NodeId) : Prop :=
  forall n s, n ∈ ns -> nodes c !! n = Some s -> accepting s.
Lemma evolves_accepting K c c' ns : evolves K c c' -> accepting_at c ns -> accepting_at c' ns.
Proof.
  intros [_ _ _ Hn] Ha n s' Hin Hs'. specialize (Hn n). rewrite Hs' in Hn.
  inversion Hn as [s ? (_ & _ & _ & Hm) E1 E2|]; subst. apply Hm. by apply (Ha n).
Qed.

(** ** The copy loop *)

Lemma matches_self b : matches (hash_hex (blake3 b)) (Ok (Some b)) = true.
Proof. unfold matches, bytes_eqb. by rewrite bool_decide_eq_true_2. Qed.

Lemma copy_to_spec c p k b src ds st wrote :
  let target := hash_hex (blake3 b) in
  within max_body k b -> accepting_at c ds ->
  exists c' st' w, copy_to c unlimited p k b target src ds st wrote = (c', Ok (st', w))
    /\ evolves (eq k) c c'
    /\ (forall n, n ∉ ds -> nodes c' !! n = nodes c !! n)
    /\ (forall n r, n ∈ ds -> read c' n k = Some r -> matches target r = true).
Proof.
  intros target Hw. revert c st wrote.
  induction ds as [|d ds IH]; intros c st wrote Hacc; cbn [copy_to].
  { exists c, st, wrote. split_and!; [done|apply evolves_refl|done|]. by intros n r ?%not_elem_of_nil. }
  assert (Hdone : forall c1 c2, evolves (eq k) c1 c2 ->
    (forall n, n ∉ ds -> nodes c2 !! n = nodes c1 !! n) ->
    (forall n r, n ∈ ds -> read c2 n k = Some r -> matches target r = true) ->
    (forall r, read c1 d k = Some r -> matches target r = true) ->
    forall n r, n ∈ d :: ds -> read c2 n k = Some r -> matches target r = true).
  { intros c1 c2 _ Hout Hin Hd n r Hn Hr. clear Hacc. destruct (decide (n ∈ ds)) as [Hn'|Hn']; [by apply (Hin n)|].
    apply elem_of_cons in Hn as [->|?]; [|done]. unfold read in Hr. rewrite Hout in Hr by done. by apply Hd. }
  assert (Hacc' : accepting_at c ds) by (intros n s Hn; apply Hacc; by right).
  destruct (nodes c !! d) as [s|] eqn:Hs.
  2: { destruct (IH c st wrote Hacc') as (c' & st' & w & Hc & He & Hout & Hin).
       exists c', st', w. split_and!; [done|done|intros n Hn; apply Hout; set_solver|].
       eapply Hdone; [done..|]. intros r. unfold read. by rewrite Hs. }
  cbn [max_bytes unlimited].
  destruct (matches target (store_get s k)) eqn:Hm.
  { match goal with |- context [copy_to c _ _ _ _ _ _ _ ?st1 _] =>
      destruct (IH c st1 wrote Hacc') as (c' & st' & w & Hc & He & Hout & Hin) end.
    exists c', st', w. split_and!; [done|done|intros n Hn; apply Hout; set_solver|].
    eapply Hdone; [done..|]. intros r. unfold read. rewrite Hs. by intros [= <-]. }
  destruct (Haccept s k b (Hacc d s (list_elem_of_here _ _) Hs) Hw) as (s' & rc & Hp & Ha'). rewrite Hp.
  assert (Hev : evolves (eq k) c (set_node c d s')) by (eapply set_node_evolves; [done|by eapply put_moved]).
  destruct (put_reads _ _ _ _ _ _ Hp) as [Hg _]. rewrite Hg.
  assert (Hself : matches target (Ok (Some b)) = true) by apply matches_self.
  rewrite Hself. cbn [negb].
  match goal with |- context [copy_to (set_node c d s') _ _ _ _ _ _ _ ?st1 _] =>
    destruct (IH (set_node c d s') st1 true (evolves_accepting _ _ _ _ Hev Hacc')) as (c' & st' & w & Hc & He & Hout & Hin) end.
  exists c', st', w. split_and!.
  - done.
  - by eapply evolves_trans.
  - intros n Hn. rewrite Hout by set_solver. cbn. apply lookup_insert_ne. set_solver.
  - eapply Hdone; [done..|]. intros r. unfold read. cbn. rewrite lookup_insert_eq. cbn.
    rewrite Hg. intros [= <-]. apply matches_self.
Qed.

(** ** One subject *)

(** What a view says of the store it was taken from. *)
Definition true_view c k (v : NodeSubjectView) : Prop :=
  exists s, nodes c !! v_node v = Some s /\ view_of (v_node v) s k = Ok v.

Lemma view_node n s k v : view_of n s k = Ok v -> v_node v = n.
Proof. unfold view_of. destruct (store_get s k) as [[b|]|[]]; by intros [= <-]. Qed.

Lemma views_of_true c k ns vs :
  views_of c k ns = Ok vs ->
  (forall v, v ∈ vs -> true_view c k v)
  /\ (forall n s, n ∈ ns -> nodes c !! n = Some s -> exists v, v ∈ vs /\ v_node v = n).
Proof.
  revert vs. induction ns as [|n ns IH]; intros vs; cbn [views_of].
  { intros [= <-]. split; [by intros v ?%not_elem_of_nil|by intros n s ?%not_elem_of_nil]. }
  destruct (nodes c !! n) as [s|] eqn:Hs.
  - destruct (view_of n s k) as [v|] eqn:Hv; [|done].
    destruct (views_of c k ns) as [l|] eqn:Hl; [|done]. intros [= <-].
    pose proof (view_node _ _ _ _ Hv) as Hn. destruct (IH l eq_refl) as [IH1 IH2]. split.
    + intros x [->|Hx]%elem_of_cons; [|by apply IH1]. exists s. by rewrite Hn.
    + intros m sm [->|Hm]%elem_of_cons Hsm; [exists v; split; [by left|done]|].
      destruct (IH2 m sm Hm Hsm) as (x & Hx & Hxm). exists x. split; [by right|done].
  - intros Hl. destruct (IH vs Hl) as [IH1 IH2]. split; [done|].
    intros m sm [->|Hm]%elem_of_cons Hsm; [congruence|by eapply IH2].
Qed.

Lemma views_of_nodes c k ns vs v : views_of c k ns = Ok vs -> v ∈ vs -> v_node v ∈ ns.
Proof.
  revert vs. induction ns as [|n ns IH]; intros vs; cbn [views_of].
  { by intros [= <-] ?%not_elem_of_nil. }
  destruct (nodes c !! n) as [s|].
  - destruct (view_of n s k) as [w|] eqn:Hw; [|done]. destruct (views_of c k ns) as [l|]; [|done].
    intros [= <-] [->|Hv]%elem_of_cons; [|right; by eapply IH]. rewrite (view_node _ _ _ _ Hw). by left.
  - intros Hl Hv. right. by eapply IH.
Qed.

(** A view that needs no copy reads the target. *)
Lemma healthy_view c k v target :
  true_view c k v -> needs_copy target (against target v) = false ->
  exists b, read c (v_node v) k = Some (Ok (Some b)) /\ hash_hex (blake3 b) = target.
Proof.
  intros (s & Hs & Hv) Hn. unfold view_of in Hv. unfold read. rewrite Hs. cbn.
  destruct (store_get s k) as [[b|]|[]]; try discriminate Hv; injection Hv as Hv;
    rewrite <- Hv in Hn; try discriminate Hn.
  exists b. split; [done|]. unfold against in Hn. cbn in Hn.
  destruct (bytes_eqb (hash_hex (blake3 b)) target) eqn:E; cbn in Hn; [|done].
  by apply bool_decide_eq_true in E.
Qed.

(** The source's view reads the target. *)
Lemma source_view c k vs leader h src v :
  (forall v, v ∈ vs -> true_view c k v) -> select_repair_source vs leader = Ok (h, src) ->
  v ∈ vs -> v_node v = src ->
  exists b, v_body v = Some b /\ blake3 b = h /\ read c src k = Some (Ok (Some b)).
Proof.
  intros Ht Hsel Hv Hsrc. destruct (select_holds _ _ _ _ Hsel) as (w & Hw & Hwn & Hr & Hp).
  destruct (Ht v Hv) as (s & Hs & Hvs). destruct (Ht w Hw) as (s' & Hs' & Hws).
  rewrite Hsrc in Hs, Hvs. rewrite Hwn in Hs', Hws. assert (s' = s) as -> by congruence.
  assert (w = v) as -> by congruence. unfold view_of in Hvs. unfold read. rewrite Hs. cbn.
  destruct (store_get s k) as [[b|]|[]]; try discriminate Hvs; injection Hvs as <-; try discriminate Hr.
  cbn in Hp. rewrite parse_hash_hex_hex in Hp by apply HL. injection Hp as Hp.
  exists b. done.
Qed.

Lemma against_node target v : v_node (against target v) = v_node v /\ v_body (against target v) = v_body v.
Proof. unfold against. by destruct (_ && _). Qed.

Lemma find_source target vs src w :
  w ∈ vs -> v_node w = src ->
  exists v, v ∈ vs /\ v_node v = src
    /\ List.find (fun v => v_node v =? src) (against target <$> vs) = Some (against target v).
Proof.
  induction vs as [|v vs IH]; [by intros ?%not_elem_of_nil|]. intros Hw Hs. cbn [fmap list_fmap List.find].
  rewrite (proj1 (against_node target v)). destruct (Z.eqb_spec (v_node v) src) as [He|Hne].
  - exists v. split; [by left|done].
  - apply elem_of_cons in Hw as [->|Hw]; [done|]. destruct (IH Hw Hs) as (x & Hx & Hxs & Hf).
    exists x. split; [by right|done].
Qed.

(** The entry of a subject with a selected source. *)
Definition target_entry (p : PartitionId) k (vs : list NodeSubjectView) (h : list byte)
    (src : NodeId) : SubjectInventory := {|
  subject := k; inv_partition := p; views := against (hash_hex h) <$> vs;
  target_hash_hex := Some (hash_hex h); source_node := Some src; conflicting := false;
  irrecoverable := false |}.

(** A node that is no destination holds the target already. *)
Lemma settled_node c p k online leader vs h src n r :
  views_of c k online = Ok vs -> select_repair_source vs leader = Ok (h, src) -> n ∈ online ->
  n ∉ destinations (target_entry p k vs h src) (hash_hex h) src -> read c n k = Some r ->
  matches (hash_hex h) r = true.
Proof.
  intros Hvs Hsel Hn Hnd Hr. destruct (views_of_true _ _ _ _ Hvs) as [Htrue Hall].
  pose proof Hr as Hr'. unfold read in Hr'.
  destruct (nodes c !! n) as [s|] eqn:Hs; [|done]. destruct (Hall n s Hn Hs) as (v & Hv & Hvn).
  assert (Hrd : exists b, read c n k = Some (Ok (Some b)) /\ hash_hex (blake3 b) = hash_hex h).
  { destruct (decide (n = src)) as [->|Hne].
    - destruct (source_view c k vs leader h src v) as (b & _ & <- & Hb); [done..|]. by exists b.
    - destruct (needs_copy (hash_hex h) (against (hash_hex h) v)) eqn:Hnc.
      + destruct Hnd. unfold destinations. apply list_elem_of_In, filter_In.
        split; [|by apply negb_true_iff, Z.eqb_neq].
        apply list_elem_of_In, list_elem_of_fmap. exists (against (hash_hex h) v).
        split; [by rewrite (proj1 (against_node _ _))|]. apply list_elem_of_In, filter_In.
        split; [|done]. apply list_elem_of_In, list_elem_of_fmap. by exists v.
      + destruct (healthy_view c k v (hash_hex h) (Htrue v Hv) Hnc) as (b & Hb & Hh).
        exists b. by rewrite <- Hvn. }
  destruct Hrd as (b & Hb & Hh). rewrite Hb in Hr. injection Hr as <-.
  unfold matches, bytes_eqb. by rewrite bool_decide_eq_true_2.
Qed.

(** Every body of [k] that one of [ns] reads is within the limits. *)
Definition bodies_within c (ns : list NodeId) k : Prop :=
  forall n b, n ∈ ns -> read c n k = Some (Ok (Some b)) -> within max_body k b.

Lemma destinations_online c p k online vs h src d :
  views_of c k online = Ok vs -> d ∈ destinations (target_entry p k vs h src) (hash_hex h) src -> d ∈ online.
Proof.
  intros Hvs Hd. unfold destinations in Hd. apply list_elem_of_In, filter_In in Hd as [Hd _].
  apply list_elem_of_In, list_elem_of_fmap in Hd as (v & -> & Hv).
  apply list_elem_of_In, filter_In in Hv as [Hv _]. apply list_elem_of_In in Hv. cbn [views target_entry] in Hv.
  apply list_elem_of_fmap in Hv as (w & -> & Hw). rewrite (proj1 (against_node _ _)). by eapply views_of_nodes.
Qed.

Lemma repair_subject_spec c p k online leader vs st :
  views_of c k online = Ok vs -> accepting_at c online -> bodies_within c online k ->
  exists c' st', repair_subject c unlimited p (classify p k vs leader).1 st = (c', Ok st')
    /\ evolves (eq k) c c'
    /\ match select_repair_source vs leader with
       | Ok (h, _) => forall n r, n ∈ online -> read c' n k = Some r -> matches (hash_hex h) r = true
       | Err _ => c' = c
       end.
Proof.
  intros Hvs Hacc Hbod. unfold classify.
  destruct (select_repair_source vs leader) as [[h src]|[]] eqn:Hsel; cbn [fst];
    [fold (target_entry p k vs h src)
    |by eexists c, _; (split; [reflexivity|split; [apply evolves_refl|done]])..].
  pose proof (fun n r => settled_node c p k online leader vs h src n r Hvs Hsel) as Hfin.
  pose proof (fun d => destinations_online c p k online vs h src d Hvs) as Hdo.
  unfold repair_subject.
  cbn [conflicting irrecoverable target_hash_hex source_node subject target_entry].
  fold (target_entry p k vs h src).
  destruct (destinations _ _ _) as [|d ds].
  { eexists c, _. split; [reflexivity|]. split; [apply evolves_refl|]. intros n r Hn. apply Hfin; [done|].
    by intros ?%not_elem_of_nil. }
  destruct (select_holds _ _ _ _ Hsel) as (w & Hw & Hwn & _).
  destruct (find_source (hash_hex h) vs src w Hw Hwn) as (v & Hv & Hvn & Hf).
  destruct (source_view c k vs leader h src v) as (b & Hb & Hbh & Hrb); [|done..|].
  { by apply (views_of_true _ _ _ _ Hvs). }
  assert (Hwb : within max_body k b).
  { apply (Hbod src); [|done]. rewrite <- Hvn. by eapply views_of_nodes. }
  cbn [max_subjects unlimited]. unfold source_body. cbn [views target_entry]. rewrite Hf.
  cbn [mbind option_bind]. rewrite (proj2 (against_node _ _)), Hb. unfold copy_subject. rewrite Hbh.
  unfold bytes_eqb. rewrite bool_decide_eq_true_2 by done. cbn [negb max_bytes unlimited dry_run].
  match goal with |- context [copy_to c _ _ _ _ _ _ _ ?st1 _] =>
    destruct (copy_to_spec c p k b src (d :: ds) st1 false Hwb) as (c' & st' & wr & Hc & He & Hout & Hin);
      [intros n s Hn; apply Hacc; by apply Hdo|] end.
  rewrite Hbh in Hc, Hin. rewrite Hc. eexists c', _. split; [reflexivity|]. split; [done|].
  intros n r Hn Hr. destruct (decide (n ∈ d :: ds)) as [Hd|Hd]; [by apply (Hin n)|].
  apply (Hfin n); [done..|]. rewrite <- Hr. unfold read. by rewrite Hout.
Qed.

(** ** All subjects *)

Definition settled (online : list NodeId) (leader : option NodeId) c c' k : Prop :=
  exists vs, views_of c k online = Ok vs
  /\ match select_repair_source vs leader with
     | Ok (h, _) => forall n r, n ∈ online -> read c' n k = Some r -> matches (hash_hex h) r = true
     | Err _ => forall n, read c' n k = read c n k
     end.

Lemma inventory_read c c' p leader online ks :
  (forall n k, k ∈ ks -> read c' n k = read c n k) ->
  inventory_subjects c' p leader online ks = inventory_subjects c p leader online ks.
Proof.
  induction ks as [|k ks IH]; intros Hr; [done|]. cbn [inventory_subjects].
  rewrite (views_of_read c c') by (intros n; apply Hr; by left).
  rewrite IH by (intros n x Hx; apply Hr; by right). done.
Qed.

Lemma repair_subjects_spec c p leader online ks l st :
  NoDup ks -> inventory_subjects c p leader online ks = Ok l ->
  accepting_at c online -> (forall k, k ∈ ks -> bodies_within c online k) ->
  exists c' st', repair_subjects c unlimited p (l.*1) st = (c', Ok st')
    /\ evolves (fun x => x ∈ ks) c c' /\ forall k, k ∈ ks -> settled online leader c c' k.
Proof.
  intros Hnd. revert c l st. induction Hnd as [|k ks Hk Hnd IH]; intros c l st Hinv Hacc Hbod; cbn in Hinv.
  { injection Hinv as <-. exists c, st. split_and!; [done|apply evolves_refl|].
    by intros k ?%not_elem_of_nil. }
  destruct (views_of c k online) as [vs|] eqn:Hvs; [|done].
  destruct (inventory_subjects c p leader online ks) as [l'|] eqn:Hl; [|done]. injection Hinv as <-.
  destruct (repair_subject_spec c p k online leader vs st Hvs Hacc (Hbod k (list_elem_of_here _ _))) as (c1 & st1 & Hr & He & Hm).
  assert (Hrest : forall n x, x ∈ ks -> read c1 n x = read c n x).
  { intros n x Hx. eapply evolves_read; [done|]. by intros ->. }
  destruct (IH c1 l' st1) as (c' & st' & Hr' & He' & Hs);
    [by rewrite (inventory_read c c1)|by eapply evolves_accepting| |].
  { intros x Hx n b Hn. rewrite Hrest by done. apply (Hbod x); [by right|done]. }
  cbn [fmap list_fmap repair_subjects]. rewrite Hr. exists c', st'. split; [done|]. split.
  - eapply evolves_trans; [eapply evolves_weaken; [|done]|eapply evolves_weaken; [|done]].
    + intros x <-. by left.
    + intros x Hx. by right.
  - intros x [->|Hx]%elem_of_cons.
    + exists vs. split; [done|].
      assert (Hkk : forall n, read c' n k = read c1 n k) by (intros n; by eapply evolves_read).
      destruct (select_repair_source vs leader) as [[h src]|].
      * intros n r Hn Hrd. rewrite Hkk in Hrd. by eapply Hm.
      * intros n. by rewrite Hkk, Hm.
    + destruct (Hs x Hx) as (vx & Hvx & Hmx). exists vx.
      rewrite (views_of_read c c1) in Hvx by (intros n; by apply Hrest). split; [done|].
      destruct (select_repair_source vx leader) as [[h src]|]; [done|].
      intros n. by rewrite Hmx, Hrest.
Qed.

(** ** A settled partition *)

(** With every view at the target nothing is copied. *)
Lemma repair_subject_idle c o p k leader vs st :
  (forall h src v, select_repair_source vs leader = Ok (h, src) -> v ∈ vs ->
     needs_copy (hash_hex h) (against (hash_hex h) v) = false) ->
  exists st', repair_subject c o p (classify p k vs leader).1 st = (c, Ok st')
    /\ copies_written st' = copies_written st.
Proof.
  intros Hn. unfold classify.
  destruct (select_repair_source vs leader) as [[h src]|[]] eqn:Hsel; cbn [fst];
    [fold (target_entry p k vs h src)|eexists; (split; [reflexivity|cbn; lia])..].
  assert (Hd : destinations (target_entry p k vs h src) (hash_hex h) src = []).
  { unfold destinations. cbn [views target_entry]. rewrite (filter_none (needs_copy _)); [done|].
    intros v (w & -> & Hw)%list_elem_of_fmap. by eapply Hn. }
  unfold repair_subject. cbn [conflicting irrecoverable target_hash_hex source_node target_entry].
  fold (target_entry p k vs h src). rewrite Hd. eexists. split; [reflexivity|]. cbn. lia.
Qed.

Lemma repair_subjects_idle c o p leader online ks l st :
  inventory_subjects c p leader online ks = Ok l ->
  (forall k vs h src v, k ∈ ks -> views_of c k online = Ok vs ->
     select_repair_source vs leader = Ok (h, src) -> v ∈ vs ->
     needs_copy (hash_hex h) (against (hash_hex h) v) = false) ->
  exists st', repair_subjects c o p (l.*1) st = (c, Ok st')
    /\ copies_written st' = copies_written st.
Proof.
  revert l st. induction ks as [|k ks IH]; intros l st Hinv Hidle; cbn in Hinv.
  { injection Hinv as <-. by exists st. }
  destruct (views_of c k online) as [vs|] eqn:Hvs; [|done].
  destruct (inventory_subjects c p leader online ks) as [l'|] eqn:Hl; [|done]. injection Hinv as <-.
  cbn [fmap list_fmap repair_subjects].
  destruct (repair_subject_idle c o p k leader vs st) as (st1 & Hr & Hc).
  { intros h src v. by apply (Hidle k vs h src v (list_elem_of_here _ _)). }
  rewrite Hr. destruct (IH l' st1 eq_refl) as (st' & Hr' & Hc').
  { intros x vx h src v Hx. apply Hidle. by right. }
  exists st'. split; [done|congruence].
Qed.

Lemma matches_read target r :
  matches target r = true -> exists b, r = Ok (Some b) /\ hash_hex (blake3 b) = target.
Proof.
  destruct r as [[b|]|]; cbn; [|done..]. intros Hb%bool_decide_eq_true. by exists b.
Qed.

(** After a pass every view of a subject with a target is at the target. *)
Lemma settled_idle online leader c c' k vs h src v :
  settled online leader c c' k -> views_of c' k online = Ok vs ->
  select_repair_source vs leader = Ok (h, src) -> v ∈ vs ->
  needs_copy (hash_hex h) (against (hash_hex h) v) = false.
Proof.
  intros (vs0 & Hvs0 & Hm) Hvs Hsel Hv. destruct (views_of_true _ _ _ _ Hvs) as [Htrue _].
  destruct (select_repair_source vs0 leader) as [[h0 src0]|e] eqn:Hsel0.
  2: { rewrite (views_of_read c c') in Hvs by done. assert (vs0 = vs) as -> by congruence. congruence. }
  assert (Hview : forall w, w ∈ vs -> observation w = Healthy
    /\ exists b, content_hash_hex w = hash_hex (blake3 b) /\ hash_hex (blake3 b) = hash_hex h0).
  { intros w Hw. destruct (Htrue w Hw) as (s & Hs & Hws).
    pose proof (views_of_nodes _ _ _ _ _ Hvs Hw) as Hin.
    destruct (matches_read (hash_hex h0) (store_get s k)) as (b & Hb & Hh).
    { apply (Hm (v_node w)); [done|]. unfold read. by rewrite Hs. }
    unfold view_of in Hws. rewrite Hb in Hws. injection Hws as <-. split; [done|]. by exists b. }
  destruct (select_holds _ _ _ _ Hsel) as (w & Hw & _ & _ & Hp).
  destruct (Hview w Hw) as (_ & b & Hcb & Hbh). rewrite Hcb, parse_hash_hex_hex in Hp by apply HL.
  injection Hp as <-. destruct (Hview v Hv) as (Ho & b' & Hcv & Hbh').
  assert (He : bytes_eqb (content_hash_hex v) (hash_hex (blake3 b)) = true)
    by (apply bool_decide_eq_true; congruence).
  unfold against. rewrite Ho, He. cbn [is_readable negb andb]. unfold needs_copy. by rewrite Ho, He.
Qed.

Lemma settled_views online leader c c' k :
  settled online leader c c' k -> exists vs, views_of c' k online = Ok vs.
Proof.
  intros (vs0 & Hvs0 & Hm).
  destruct (select_repair_source vs0 leader) as [[h0 src0]|e]; [|rewrite (views_of_read c c') by done; eauto].
  clear Hvs0. revert Hm. induction online as [|n ns IH]; intros Hm; [by eexists|]. cbn [views_of].
  destruct IH as [l Hl]; [intros m r Hin; apply Hm; by right|]. rewrite Hl.
  destruct (nodes c' !! n) as [s|] eqn:Hs; [|by eexists].
  destruct (matches_read (hash_hex h0) (store_get s k)) as (b & Hb & _).
  { apply (Hm n); [by left|]. unfold read. by rewrite Hs. }
  unfold view_of. rewrite Hb. by eexists.
Qed.

Lemma inventory_exists c p leader online ks :
  (forall k, k ∈ ks -> exists vs, views_of c k online = Ok vs) ->
  exists l, inventory_subjects c p leader online ks = Ok l.
Proof.
  induction ks as [|k ks IH]; intros Hv; [by eexists|]. cbn [inventory_subjects].
  destruct (Hv k) as [vs ->]; [by left|]. destruct IH as [l ->]; [|by eexists].
  intros x Hx. apply Hv. by right.
Qed.

(** A pass keeps the set of subjects to look at. *)
Lemma subject_list_NoDup c p online : NoDup (subject_list c p online).
Proof. unfold subject_list, sort_texts. rewrite sort_by_perm. apply NoDup_elements. Qed.
Lemma elem_of_subject_list c p online k :
  k ∈ subject_list c p online <-> exists n, n ∈ online /\ k ∈ partition_keys c p n.
Proof.
  unfold subject_list, sort_texts. rewrite sort_by_perm, elem_of_elements, elem_of_list_to_set.
  rewrite list_elem_of_bind. split; intros (n & ? & ?); eauto.
Qed.
Lemma subject_list_evolves c c' p online :
  evolves (fun x => x ∈ subject_list c p online) c c' ->
  subject_list c' p online = subject_list c p online.
Proof.
  intros [_ Hmap _ Hn]. unfold subject_list at 1, sort_texts. f_equal.
  enough (Hset : (list_to_set (online ≫= partition_keys c' p) : gset (list byte))
                 = list_to_set (online ≫= partition_keys c p)) by (by rewrite Hset).
  assert (Hpart : forall k, partition_for_subject c' k = partition_for_subject c k)
    by (intros k; unfold partition_for_subject; by rewrite Hmap).
  apply set_eq. intros k. rewrite !elem_of_list_to_set, !list_elem_of_bind. split.
  - intros (n & Hk & Hin). unfold partition_keys in Hk. specialize (Hn n).
    inversion Hn as [s s' (_ & _ & Hback & _) E1 E2|E1 E2]; rewrite <- E2 in Hk;
      [|by apply not_elem_of_nil in Hk].
    rewrite list_elem_of_In, filter_In, <- list_elem_of_In, Hpart in Hk. destruct Hk as [Hk Hs].
    destruct (Hback k Hk) as [Hl|Hl].
    + apply elem_of_subject_list in Hl as (m & ? & ?). by exists m.
    + exists n. split; [|done]. unfold partition_keys. rewrite <- E1.
      by rewrite list_elem_of_In, filter_In, <- list_elem_of_In.
  - intros (n & Hk & Hin). exists n. split; [|done]. unfold partition_keys in *. specialize (Hn n).
    inversion Hn as [s s' (_ & Hfwd & _ & _) E1 E2|E1 E2]; rewrite <- E1 in Hk;
      [|by apply not_elem_of_nil in Hk].
    rewrite list_elem_of_In, filter_In, <- list_elem_of_In in Hk. destruct Hk as [Hk Hs].
    rewrite list_elem_of_In, filter_In, <- list_elem_of_In, Hpart. split; [by apply Hfwd|done].
Qed.

Definition online_of c (a : Directory.PartitionAssignment) : list NodeId :=
  List.filter (is_online c) (Directory.replicas a).

Lemma online_evolves K c c' a : evolves K c c' -> online_of c' a = online_of c a.
Proof.
  intros [_ _ _ Hn]. unfold online_of. apply filter_ext. intros n. unfold is_online.
  apply bool_decide_ext. specialize (Hn n). inversion Hn; split; intros [? ?]; done.
Qed.

(** C35. Repair converges.  When the partition can be inventoried, the online
    replicas accept writes within the limits of the store (no subject above 4096
    bytes, no body above the limit of the profile), and every body they read for a
    subject of the partition is within these limits, one unlimited pass ends
    without an error; afterwards every online replica of a subject for which a
    source was selected reads content of the selected digest, a subject in conflict
    or without a healthy copy reads as before on every node, no other subject is
    touched, and a second pass writes no copy and changes nothing. *)
Theorem repair_converges c p a inv :
  Directory.get (directory c) p = Some a -> inventory_partition c p = Ok inv ->
  accepting_at c (online_of c a) ->
  (forall k, k ∈ subject_list c p (online_of c a) -> bodies_within c (online_of c a) k) ->
  exists c' st, repair_partition c p unlimited = (c', Ok st)
    /\ (forall k, k ∈ subject_list c p (online_of c a) ->
          settled (online_of c a) (current_leader_of c p) c c' k)
    /\ (forall n k, k ∉ subject_list c p (online_of c a) -> read c' n k = read c n k)
    /\ exists st', repair_partition c' p unlimited = (c', Ok st') /\ copies_written st' = 0.
Proof.
  intros Ha Hinv Hacc Hbod. unfold repair_partition. rewrite Hinv. unfold inventory_partition in *.
  rewrite Ha in Hinv. cbn zeta in Hinv. fold (online_of c a) in Hinv.
  set (online := online_of c a) in *. set (leader := current_leader_of c p) in *.
  set (ks := subject_list c p online) in *.
  destruct (inventory_subjects c p leader online ks) as [l|] eqn:Hl; [|done]. injection Hinv as <-.
  unfold apply_repair_from_inventory. cbn [pi_partition subjects].
  destruct (repair_subjects_spec c p leader online ks l pass_start (subject_list_NoDup _ _ _) Hl Hacc Hbod)
    as (c' & st & Hr & He & Hs).
  exists c', st. split; [done|]. split; [done|]. split; [intros n k Hk; by eapply evolves_read|].
  rewrite (ev_directory _ _ _ He), Ha. cbn zeta. fold (online_of c' a).
  rewrite (online_evolves _ _ _ a He). fold online. rewrite (subject_list_evolves c c' p online) by done.
  fold ks. assert (Hlead : current_leader_of c' p = leader).
  { unfold leader, current_leader_of. by rewrite (ev_raft _ _ _ He). }
  rewrite Hlead. destruct (inventory_exists c' p leader online ks) as [l' Hl'].
  { intros k Hk. by eapply settled_views, Hs. }
  rewrite Hl'. cbn [pi_partition subjects].
  destruct (repair_subjects_idle c' unlimited p leader online ks l' pass_start Hl') as (st' & Hr' & Hc').
  { intros k vs h src v Hk Hvs Hsel Hv. eapply settled_idle; [by apply Hs|done..]. }
  by exists st'.
Qed.
End Converge.

(** ** Concrete passes *)

#[local] Existing Instance plain_hash.
#[local] Instance shelf_fingerprint : NodeFingerprint Shelf := fun _ => Ok (repeat (z2b 0) 32).
Lemma plain_hash_laws : Blake3Laws plain_hash.
Proof. intros bs. apply length_le_bytes. Qed.

(** A store that refuses what [Store::put] refuses: long subjects, and bodies above a
    limit of 1024 bytes. *)
Definition SHELF_MAX_BODY : Z := 1024.
#[local] Instance bounded_write : NodeStoreWrite Shelf := {|
  store_put s k v m :=
    if MAX_SUBJECT_LEN <? Z.of_nat (length k) then (s, Err (StoreFailure "subject too long"))
    else if SHELF_MAX_BODY <? Z.of_nat (length v) then (s, Err (StoreFailure "payload too large"))
    else @store_put Shelf shelf_write s k v m;
  store_delete := @store_delete Shelf shelf_write |}.
#[local] Instance bounded_write_laws : NodeStoreWriteLaws Shelf (W := bounded_write).
Proof.
  split.
  - intros s k v m s' r. unfold store_put at 1. cbn [bounded_write]. destruct (_ <? _); [done|]. destruct (_ <? _); [done|].
    apply (put_reads (W := shelf_write)).
  - intros s k v m s' r x. unfold store_put at 1. cbn [bounded_write]. destruct (_ <? _); [done|]. destruct (_ <? _); [done|].
    apply (put_live (W := shelf_write)).
  - apply (delete_reads (W := shelf_write)).
Qed.
Lemma shelf_accepts : accepts (W := bounded_write) (fun _ : Shelf => True) SHELF_MAX_BODY.
Proof.
  intros s k v _ [Hk Hv]. unfold store_put at 1. cbn [bounded_write].
  rewrite (proj2 (Z.ltb_ge _ _)), (proj2 (Z.ltb_ge _ _)) by done. by eexists _, _.
Qed.

(** Node 1 misses a subject the others hold. *)
Definition lagging : Cluster Shelf :=
  three_nodes PartitionLinearizable
    {[0 := {[lit "k" := lit "v"]} : Shelf; 1 := (∅ : Shelf); 2 := {[lit "k" := lit "v"]} : Shelf]}.

(** The hypotheses of [repair_converges] hold of a cluster with a lagging replica; the
    first pass writes one copy. *)
Lemma lagging_bodies k : bodies_within SHELF_MAX_BODY lagging [0; 1; 2] k.
Proof.
  intros n b _ Hr. unfold read in Hr. cbn [nodes lagging three_nodes] in Hr.
  destruct (_ !! n) as [s|] eqn:Hs in Hr; [|done]. cbn [fmap option_fmap option_map store_get shelf_store] in Hr.
  injection Hr as Hr. assert (Hk : s = {[lit "k" := lit "v"]} \/ s = ∅).
  { apply lookup_insert_Some in Hs as [[_ <-]|[_ Hs]]; [by left|].
    apply lookup_insert_Some in Hs as [[_ <-]|[_ Hs]]; [by right|]. apply lookup_singleton_Some in Hs as [_ <-]. by left. }
  destruct Hk as [-> | ->]; [|done]. apply lookup_singleton_Some in Hr as [<- <-]. by split; vm_compute.
Qed.
Lemma repair_converges_witness :
  match snd (repair_partition lagging 0 unlimited) with
  | Ok st => copies_written st = 1
  | Err _ => False
  end
  /\ exists c' st st', repair_partition lagging 0 unlimited = (c', Ok st)
       /\ repair_partition c' 0 unlimited = (c', Ok st') /\ copies_written st' = 0.
Proof.
  split; [vm_compute; reflexivity|].
  destruct (inventory_partition lagging 0) as [inv|e] eqn:Hinv;
    [|exfalso; assert (Hi : is_ok (inventory_partition lagging 0) = true) by (vm_compute; reflexivity);
      rewrite Hinv in Hi; discriminate Hi].
  destruct (repair_converges (HL := plain_hash_laws) _ _ shelf_accepts lagging 0 _ inv eq_refl Hinv)
    as (c' & st & Hr & _ & _ & st' & Hr' & Hc).
  - intros n s _ _. exact Logic.I.
  - intros k _. exact (lagging_bodies k).
  - exists c', st, st'. exact (conj Hr (conj Hr' Hc)).
Defined.

(** A single readable copy among missing ones is selected: the choice is a plurality of
    the readable replicas, not a majority of the online ones. *)
Definition copy_of (n : NodeId) (b : list byte) : NodeSubjectView :=
  {| v_node := n; observation := Healthy; content_hash_hex := hash_hex (blake3 b); v_body := Some b |}.
Definition absent (n : NodeId) : NodeSubjectView :=
  {| v_node := n; observation := Missing; content_hash_hex := []; v_body := None |}.
Example one_copy_of_three_is_selected :
  select_repair_source [absent 0; absent 1; copy_of 2 (lit "v")] None = Ok (blake3 (lit "v"), 2).
Proof. vm_compute. reflexivity. Qed.

(** A committed delete is undone: with node 2 offline the delete is acknowledged and
    reads as proven absence; node 2 returns with its old copy, a repair pass copies it
    to the others, and the leader serves the deleted value again. *)
Definition deleted : Cluster Shelf :=
  fst (delete_subject saves_all (mark_offline (fst written) 2) (lit "k") Durable).
Definition returned : Cluster Shelf :=
  fst (mark_online deleted 2 (match nodes (fst written) !! 2 with
                              | Some s => Ok s | None => Err PayloadPartial end)).
Definition leader_sees (c : Cluster Shelf) : option (option (list byte) * bool) :=
  match snd (get saves_all c (lit "k") Linearizable) with
  | Ok r => Some (value r, absence_proven r)
  | Err _ => None
  end.
Example repair_undoes_a_committed_delete :
  is_ok (snd (delete_subject saves_all (mark_offline (fst written) 2) (lit "k") Durable)) = true
  /\ leader_sees deleted = Some (None, true)
  /\ leader_sees (fst (repair_partition returned 0 unlimited)) = Some (Some (lit "v"), true).
Proof. vm_compute. split_and!; reflexivity. Qed.
