(* ===== verification/ClusterRebalance.v ===== *)
(** * Moving a partition to other nodes

    Model of the rebalance driver of [crates/residiuum-cluster/src/cluster.rs]
    ([begin_rebalance], [advance_rebalance], the [rb_*] steps and
    [rebalance_partition]).  A job moves one partition from its replicas to a new
    set in seven steps, one per call, so that reads, writes and failures can fall
    between any two of them.  What the files of the cluster answer is given by the
    oracles of the section; a failed call leaves the handle as far as it had got.
    Counters and epochs are [u64] in the source and are not driven to their limit. *)
From S2P Require Import Prelude Cbor AtomicFile AtomicPlan WriteDedup Raft Cluster ClusterToken ClusterScan ClusterWrite.

Module Rebalancing.
Import Reads Write Cluster.Rebalance.

Record RebalanceReport := { report_job : RebalanceJob; phases_completed : list RebalancePhase }.

Definition set_phase (j : RebalanceJob) (ph : RebalancePhase) : RebalanceJob := {|
  job_id := job_id j; job_partition := job_partition j; old_replicas := old_replicas j;
  new_replicas := new_replicas j; destinations := destinations j; removals := removals j;
  phase := ph; plan_epoch := plan_epoch j; activated_epoch := activated_epoch j;
  subjects_copied := subjects_copied j; log_entries_streamed := log_entries_streamed j;
  joint := joint j |}.
Definition set_counts (j : RebalanceJob) (subjects entries : Z) : RebalanceJob := {|
  job_id := job_id j; job_partition := job_partition j; old_replicas := old_replicas j;
  new_replicas := new_replicas j; destinations := destinations j; removals := removals j;
  phase := phase j; plan_epoch := plan_epoch j; activated_epoch := activated_epoch j;
  subjects_copied := subjects; log_entries_streamed := entries; joint := joint j |}.
Definition set_joint (j : RebalanceJob) (b : bool) (activated : option PlacementEpoch)
    : RebalanceJob := {|
  job_id := job_id j; job_partition := job_partition j; old_replicas := old_replicas j;
  new_replicas := new_replicas j; destinations := destinations j; removals := removals j;
  phase := phase j; plan_epoch := plan_epoch j; activated_epoch := activated;
  subjects_copied := subjects_copied j; log_entries_streamed := log_entries_streamed j;
  joint := b |}.

Section Driver.
Context {S : Type} `{N : NodeStore S} `{W : NodeStoreWrite S} `{H : Blake3}.
Context (save : PartitionId -> NodeId -> RaftPeer -> bool).
(** The store at a node's path: [None] when there is no path, else what [Store::open]
    answers. *)
Context (disk : NodeId -> option (result StoreError S)).
(** Whether the directory of a peer, the file of jobs and the placement directory can
    be written. *)
Context (open_peer : NodeId -> PartitionId -> bool)
        (jobs_save : gmap Z RebalanceJob -> bool)
        (directory_save : Directory.PartitionDirectory -> bool).
Implicit Types (c : Cluster S).

Definition with_jobs c (js : gmap Z RebalanceJob) : Cluster S := {|
  cluster_id := cluster_id c; profile := profile c; consistency_mode := consistency_mode c;
  partition_map := partition_map c; directory := directory c;
  expected_node_count := expected_node_count c; nodes := nodes c; offline := offline c;
  missing_nodes := missing_nodes c; raft := raft c; convergent_pos := convergent_pos c;
  rebalance_jobs := js; token_keyring := token_keyring c |}.
Definition set_directory c (d : Directory.PartitionDirectory) : Cluster S :=
  with_parts c d (nodes c) (offline c) (raft c).

Definition persist_rebalance_jobs c : result ClusterError unit :=
  if jobs_save (rebalance_jobs c) then Ok tt else Err Io.

(** ** Planning *)

Definition has_store c (n : NodeId) : bool := bool_decide (is_Some (disk n)) || is_online c n.

Definition begin_rebalance c (job_id : list byte) (p : PartitionId) (new_replicas : list NodeId)
    : Cluster S * result ClusterError RebalanceJob :=
  if bool_decide (new_replicas = []) then
    (c, Err (Rebalance (lit "new replica set must be non-empty")))
  else
    match List.find (fun n => negb (has_store c n)) new_replicas with
    | Some n =>
        (c, Err (Rebalance (lit "destination node " ++ decimal n ++ lit " has no store path")))
    | None =>
        if bool_decide (is_Some (rebalance_jobs c !! p)) then
          (c, Err (Rebalance (lit "rebalance already in progress for partition " ++ decimal p)))
        else
          match Directory.get (directory c) p with
          | None => (c, Err (Rebalance (lit "no assignment for partition " ++ decimal p)))
          | Some a =>
              let j := plan job_id p (Directory.replicas a) new_replicas
                         (Directory.dir_epoch (directory c)) in
              let c' := with_jobs c (<[p := j]> (rebalance_jobs c)) in
              (c', let? _ := persist_rebalance_jobs c' in Ok j)
          end
    end.

(** ** The steps *)

(** The peers of the destinations; an unwritable directory ends the loop. *)
Fixpoint add_learners (p : PartitionId) (g : PartitionRaft) (ds : list NodeId)
    : PartitionRaft * bool :=
  match ds with
  | [] => (g, true)
  | d :: rest =>
      let g := ensure_peer g d in
      if open_peer d p then add_learners p (attach_store g d) rest else (g, false)
  end.

Fixpoint open_destinations c (ds : list NodeId) : Cluster S * result ClusterError unit :=
  match ds with
  | [] => (c, Ok tt)
  | d :: rest =>
      if is_online c d then open_destinations c rest
      else match disk d with
           | None => (c, Err (Rebalance (lit "learner destination " ++ decimal d
                                           ++ lit " offline with no store")))
           | Some (Err e) => (c, Err (Store e))
           | Some (Ok s) =>
               open_destinations
                 (with_parts c (directory c) (<[d := s]> (nodes c))
                    (List.filter (fun x => negb (x =? d)) (offline c)) (raft c)) rest
           end
  end.

Definition rb_learners_added c (j : RebalanceJob) : Cluster S * result ClusterError RebalanceJob :=
  let p := job_partition j in
  let '(c1, added) :=
    match raft c !! p with
    | None => (c, true)
    | Some g => let '(g', ok) := add_learners p g (destinations j) in (set_raft c p g', ok)
    end in
  if added then
    match open_destinations c1 (destinations j) with
    | (c2, Ok _) => (c2, Ok (set_phase j LearnersAdded))
    | (c2, Err e) => (c2, Err e)
    end
  else (c1, Err Io).

(** The live subjects of the partition in a store, with their bodies; an unreadable
    one is passed over. *)
Definition partition_rows c (p : PartitionId) (s : S) : list (list byte * list byte) :=
  omap (fun k => if utf8_valid k && (partition_for_subject c k =? p) then
                   match store_get s k with Ok (Some b) => Some (k, b) | _ => None end
                 else None) (live_keys s).

Fixpoint put_rows (s : S) (rows : list (list byte * list byte)) (n : Z) : S * result StoreError Z :=
  match rows with
  | [] => (s, Ok n)
  | (k, b) :: rest =>
      match store_put s k b Durable with
      | (s', Ok _) => put_rows s' rest (n + 1)
      | (s', Err e) => (s', Err e)
      end
  end.

Fixpoint copy_rows c (rows : list (list byte * list byte)) (ds : list NodeId) (n : Z)
    : Cluster S * result ClusterError Z :=
  match ds with
  | [] => (c, Ok n)
  | d :: rest =>
      match nodes c !! d with
      | None => (c, Err (Rebalance (lit "destination " ++ decimal d
                                      ++ lit " offline during segment copy")))
      | Some s =>
          match put_rows s rows n with
          | (s', Ok n') => copy_rows (set_node c d s') rows rest n'
          | (s', Err e) => (set_node c d s', Err (Store e))
          end
      end
  end.

(** The first replica of the old set that is online. *)
Definition copy_source c (j : RebalanceJob) : option NodeId :=
  List.find (is_online c) (old_replicas j).

Definition rb_segments_copied c (j : RebalanceJob) : Cluster S * result ClusterError RebalanceJob :=
  match copy_source c j with
  | None => (c, Err (Rebalance (lit "no online source replica during segment copy (CLUSTER_SPEC §22.13)")))
  | Some src =>
      match nodes c !! src with
      | None => (c, Err (Rebalance (lit "source store missing")))
      | Some s =>
          match copy_rows c (partition_rows c (job_partition j) s) (destinations j)
                  (subjects_copied j) with
          | (c', Ok n) => (c', Ok (set_phase (set_counts j n (log_entries_streamed j)) SegmentsCopied))
          | (c', Err e) => (c', Err e)
          end
      end
  end.

(** The leader, or the first old replica that is a peer. *)
Definition log_source (g : PartitionRaft) (j : RebalanceJob) : option NodeId :=
  match current_leader g with
  | Some (l, _) => Some l
  | None => List.find (fun n => bool_decide (is_Some (peers g !! n))) (old_replicas j)
  end.

Fixpoint stream_logs (g : PartitionRaft) (leader : NodeId) (ds : list NodeId) (n : Z)
    : PartitionRaft * Z :=
  match ds with
  | [] => (g, n)
  | d :: rest => let '(g', k) := stream_log_to g leader d in stream_logs g' leader rest (n + k)
  end.

Definition rb_log_caught_up c (j : RebalanceJob) : Cluster S * result ClusterError RebalanceJob :=
  match raft c !! job_partition j with
  | None => (c, Err (Rebalance (lit "raft group missing")))
  | Some g =>
      match log_source g j with
      | None => (c, Err (Rebalance (lit "no leader/source for log catch-up")))
      | Some leader =>
          let '(g', n) := stream_logs g leader (destinations j) (log_entries_streamed j) in
          (set_raft c (job_partition j) g',
           Ok (set_phase (set_counts j (subjects_copied j) n) LogCaughtUp))
      end
  end.

(** [if let Some(group) = self.raft.get_mut(&p) { .. }] *)
Definition alter_group c (p : PartitionId) (f : PartitionRaft -> PartitionRaft) : Cluster S :=
  match raft c !! p with Some g => set_raft c p (f g) | None => c end.

Definition rb_membership_changed c (j : RebalanceJob)
    : Cluster S * result ClusterError RebalanceJob :=
  (alter_group c (job_partition j) (fun g =>
     set_joint_voters g (old_replicas j) (new_replicas j) (plan_epoch j)),
   Ok (set_phase (set_joint j true (activated_epoch j)) MembershipChanged)).

(** An election that fails here is not reported.  [set_replicas] asserts that the
    set is not empty, which [begin_rebalance] has checked. *)
Definition rb_epoch_activated c (j : RebalanceJob) : Cluster S * result ClusterError RebalanceJob :=
  let p := job_partition j in
  let epoch := plan_epoch j + 1 in
  let c1 := alter_group c p (fun g => set_voters g (new_replicas j) epoch) in
  match Directory.set_replicas (directory c1) p (new_replicas j) epoch with
  | None => (c1, Err (Rebalance (lit "panic")))
  | Some d =>
      let '(c2, _) := ensure_partition_leader save (set_directory c1 d) p in
      if directory_save (directory c2) then
        (c2, Ok (set_phase (set_joint j false (Some epoch)) EpochActivated))
      else (c2, Err Io)
  end.

Definition rb_safety_window c (j : RebalanceJob) : Cluster S * result ClusterError RebalanceJob :=
  (c, Ok (set_phase j SafetyWindow)).
Definition rb_reclaimed c (j : RebalanceJob) : Cluster S * result ClusterError RebalanceJob :=
  (c, Ok (set_phase j Reclaimed)).

Definition rb_step c (j : RebalanceJob) (next : RebalancePhase)
    : Cluster S * result ClusterError RebalanceJob :=
  match next with
  | LearnersAdded => rb_learners_added c j
  | SegmentsCopied => rb_segments_copied c j
  | LogCaughtUp => rb_log_caught_up c j
  | MembershipChanged => rb_membership_changed c j
  | EpochActivated => rb_epoch_activated c j
  | SafetyWindow => rb_safety_window c j
  | Reclaimed => rb_reclaimed c j
  | PlanCommitted => (c, Err (Rebalance (lit "cannot re-enter plan")))
  end.

Definition advance_rebalance c (p : PartitionId) : Cluster S * result ClusterError RebalanceJob :=
  match rebalance_jobs c !! p with
  | None => (c, Err (Rebalance (lit "no in-flight rebalance for partition " ++ decimal p)))
  | Some j =>
      if bool_decide (phase j = Reclaimed) then
        (c, Err (Rebalance (lit "rebalance already complete")))
      else
        match phase_next (phase j) with
        | None => (c, Err (Rebalance (lit "no next phase")))
        | Some next =>
            match rb_step c j next with
            | (c1, Err e) => (c1, Err e)
            | (c1, Ok j') =>
                let c2 := with_jobs c1
                  (if bool_decide (phase j' = Reclaimed) then delete p (rebalance_jobs c1)
                   else <[p := j']> (rebalance_jobs c1)) in
                (c2, let? _ := persist_rebalance_jobs c2 in Ok j')
            end
        end
  end.

(** [while job.phase != Reclaimed]; [None] is a loop that has not ended within the
    fuel. *)
Fixpoint run_rebalance (fuel : nat) c (p : PartitionId) (j : RebalanceJob)
    (phases : list RebalancePhase) : option (Cluster S * result ClusterError RebalanceReport) :=
  if bool_decide (phase j = Reclaimed) then
    Some (c, Ok {| report_job := j; phases_completed := phases |})
  else match fuel with
       | O => None
       | Datatypes.S fuel' =>
           match advance_rebalance c p with
           | (c', Ok j') => run_rebalance fuel' c' p j' (phases ++ [phase j'])
           | (c', Err e) => Some (c', Err e)
           end
       end.

Definition PHASE_STEPS : nat := 7.

Definition rebalance_partition c (job_id : list byte) (p : PartitionId) (new_replicas : list NodeId)
    : option (Cluster S * result ClusterError RebalanceReport) :=
  match begin_rebalance c job_id p new_replicas with
  | (c', Ok j) => run_rebalance PHASE_STEPS c' p j [PlanCommitted]
  | (c', Err e) => Some (c', Err e)
  end.
End Driver.
End Rebalancing.
