(* ===== verification/ClusterRebalanceFacts.v ===== *)
(** * What a rebalance keeps and what it moves

    The voters of a partition's group and the replicas of its directory entry stay
    the ones its job declares, in every interleaving of jobs, elections, writes and
    failures; a finished rebalance has copied the partition's rows and switched the
    placement.  Concrete runs show what the steps do not protect. *)
From S2P Require Import Prelude Cbor AtomicFile AtomicPlan WriteDedup Raft Cluster ClusterToken ClusterScan ClusterScanFacts ClusterPaging ClusterWrite ClusterWriteFacts ClusterRebalance.
Import Reads Write Cluster.Rebalance Rebalancing.

(** ** Only membership changes touch the configuration of a group *)

Definition config (g : PartitionRaft) : list NodeId * Z * bool :=
  (voters g, Raft.placement_epoch g, Raft.joint g).

Section Config.
Context (save : NodeId -> RaftPeer -> bool).

Lemma config_fold {A} (f : PartitionRaft -> A -> PartitionRaft) l g :
  (forall g x, config (f g x) = config g) -> config (fold_left f l g) = config g.
Proof. intros Hf. revert g. induction l as [|x l IH]; intros g; [done|]. cbn. by rewrite IH. Qed.

Lemma ensure_peer_config g n : config (ensure_peer g n) = config g.
Proof. unfold ensure_peer. by destruct (peers g !! n). Qed.
Lemma stream_log_config g l d : config (fst (stream_log_to g l d)) = config g.
Proof.
  unfold stream_log_to. destruct (peers (ensure_peer g d) !! l) as [lp|]; cbn [fst].
  - by destruct (bool_decide _); rewrite <- (ensure_peer_config g d).
  - apply ensure_peer_config.
Qed.

Lemma request_vote_config g v c t li lt : config (fst (request_vote save g v c t li lt)) = config g.
Proof. unfold request_vote. by repeat case_match. Qed.
Lemma solicit_config c online t li lt vs votes g :
  config (solicit save g c online t li lt vs votes).1.1 = config g.
Proof.
  revert g votes. induction vs as [|v vs IH]; intros g votes; [done|]. cbn [solicit].
  destruct (_ || _); [done|].
  pose proof (request_vote_config g v c t li lt) as Hv.
  destruct (request_vote save g v c t li lt) as [g' res]. cbn [fst] in Hv.
  destruct (_ <? _); [done|]. by rewrite IH.
Qed.
Lemma step_down_others_config g c t : config (step_down_others g c t) = config g.
Proof. apply config_fold. intros h v. by destruct (v =? c). Qed.
Lemma elect_config g c online : config (fst (elect save g c online)) = config g.
Proof.
  unfold elect. destruct (negb _); [done|]. destruct (negb _); [done|].
  destruct (peers g !! c) as [peer|]; [|done].
  destruct (negb _); [done|].
  match goal with |- context [solicit save ?G ?C ?O ?T ?LI ?LT ?V ?N] =>
    pose proof (solicit_config C O T LI LT V N G) as Hs;
    destruct (solicit save G C O T LI LT V N) as [[g' votes] [h|]] end; cbn [fst] in Hs; [done|].
  destruct (quorum g' <=? votes); [|done].
  cbn [fst]. change (config (step_down_others g' c (current_term peer + 1)) = config g).
  by rewrite step_down_others_config.
Qed.
Lemma try_candidates_config cs online e g : config (fst (try_candidates save g cs online e)) = config g.
Proof.
  revert g e. induction cs as [|c cs IH]; intros g e; [done|]. cbn [try_candidates].
  pose proof (elect_config g c online) as He.
  destruct (elect save g c online) as [g' [r|e']]; cbn [fst] in *; [done|]. by rewrite IH.
Qed.
Lemma ensure_leader_config g online pref :
  config (fst (ensure_leader_preferring save g online pref)) = config g.
Proof.
  unfold ensure_leader_preferring.
  destruct (current_leader g) as [[l t]|]; [destruct (bool_decide _); [done|]|];
    destruct online as [|o os]; try done;
    (destruct (List.filter _ _); [done|]); by rewrite try_candidates_config.
Qed.

Lemma append_entries_config g f l t pi pt es lc :
  config (fst (append_entries save g f l t pi pt es lc)) = config g.
Proof. unfold append_entries, accept_append, refuse_append. by repeat case_match. Qed.
Lemma replicate_loop_config fuel g l f : config (fst (replicate_loop save fuel g l f)) = config g.
Proof.
  revert g. induction fuel as [|fuel IH]; intros g; [done|]. cbn [replicate_loop].
  destruct (peers g !! l) as [peer|]; [|done]. destruct (negb _); [done|].
  match goal with |- context [append_entries save ?G ?F ?L ?T ?PI ?PT ?ES ?LC] =>
    pose proof (append_entries_config G F L T PI PT ES LC) as Ha;
    destruct (append_entries save G F L T PI PT ES LC) as [g' res] end. cbn [fst] in Ha.
  destruct (_ <? _); [done|]. destruct (ar_success res); [done|].
  destruct (peers g' !! l) as [p|]; [|by rewrite IH].
  destruct (back_off _ _ _ _) as [p' [|]]; [done|]. by rewrite IH.
Qed.
Lemma replicate_to_config g l f : config (fst (replicate_to save g l f)) = config g.
Proof. unfold replicate_to. apply replicate_loop_config. Qed.
Lemma replicate_all_config l n fs acked g :
  config (fst (replicate_all save g l n fs acked)) = config g.
Proof.
  revert g acked. induction fs as [|f fs IH]; intros g acked; [done|]. cbn [replicate_all].
  pose proof (replicate_to_config g l f) as Hr.
  destruct (replicate_to save g l f) as [g' [[]|e]]; cbn [fst] in *; [|done]. by rewrite IH.
Qed.
Lemma advance_commit_config g l : config (advance_commit g l) = config g.
Proof. unfold advance_commit. by repeat case_match. Qed.
Lemma push_commit_config g l online : config (push_commit save g l online) = config g.
Proof.
  apply config_fold. intros h f. destruct (_ || _); [done|]. apply replicate_to_config.
Qed.
Lemma propose_config g l cmd online : config (fst (propose save g l cmd online)) = config g.
Proof.
  unfold propose. destruct (peers g !! l) as [peer|]; [|done]. destruct (negb _); [done|].
  destruct (negb _); [done|].
  match goal with |- context [replicate_all save ?G ?L ?N ?FS ?A] =>
    pose proof (replicate_all_config L N FS A G) as Hr;
    destruct (replicate_all save G L N FS A) as [g' [acked|e]] end; cbn [fst] in *; [|done].
  destruct (_ <=? _); rewrite ?push_commit_config, advance_commit_config; done.
Qed.
End Config.

(** ** Operations that leave every placement as it is *)

Definition placed_at (a : Directory.PartitionAssignment) : list NodeId * PlacementEpoch :=
  (Directory.replicas a, Directory.placement_epoch a).

Section Frame.
Context {S : Type} `{N : NodeStore S} `{W : NodeStoreWrite S} `{H : Blake3}.
Context (save : PartitionId -> NodeId -> RaftPeer -> bool).
Implicit Types (c : Cluster S).

Record same_placement c c' : Prop := {
  sp_config : config <$> raft c' = config <$> raft c;
  sp_directory p : placed_at <$> Directory.get (directory c') p = placed_at <$> Directory.get (directory c) p;
  sp_epoch : Directory.dir_epoch (directory c') = Directory.dir_epoch (directory c);
  sp_jobs : rebalance_jobs c' = rebalance_jobs c }.

#[global] Instance same_placement_preorder : PreOrder same_placement.
Proof.
  split; [by split|]. intros c1 c2 c3 [] []. split; etransitivity; eauto.
Qed.

Lemma same_set_raft c p g g' :
  raft c !! p = Some g -> config g' = config g -> same_placement c (set_raft c p g').
Proof.
  intros Hg Hc. split; [|done..]. cbn. rewrite fmap_insert, Hc. apply insert_id.
  by rewrite lookup_fmap, Hg.
Qed.
Lemma same_set_node c n s : same_placement c (set_node c n s).
Proof. by split. Qed.

Lemma same_mark_offline c n : same_placement c (mark_offline c n).
Proof.
  split; [|done..]. cbn. rewrite <- map_fmap_compose. apply map_fmap_ext. intros p g _.
  unfold compose, demote. destruct (current_leader g) as [[l t]|]; [|done]. by destruct (l =? n).
Qed.
Lemma same_mark_online c n opened : same_placement c (fst (mark_online c n opened)).
Proof. unfold mark_online. destruct (is_online c n); [by split|]. by destruct opened; split. Qed.

Lemma get_set_leader_placed d p n t q :
  placed_at <$> Directory.get (Directory.set_leader d p n t) q = placed_at <$> Directory.get d q.
Proof.
  rewrite DirectoryFacts.get_set_leader. destruct (decide (q = p)) as [->|]; [|done].
  by destruct (Directory.get d p).
Qed.
Lemma set_leader_epoch d p n t :
  Directory.dir_epoch (Directory.set_leader d p n t) = Directory.dir_epoch d.
Proof. unfold Directory.set_leader, Directory.get_mut. by destruct (Directory.position d p). Qed.

Lemma same_ensure_leader c p : same_placement c (fst (ensure_partition_leader save c p)).
Proof.
  unfold ensure_partition_leader. destruct (raft c !! p) as [g|] eqn:Hg; [|done].
  pose proof (ensure_leader_config (save p) g (online_nodes c)
                (Directory.leader <$> Directory.get (directory c) p)) as Hc.
  destruct (ensure_leader_preferring _ _ _ _) as [g' [[l t]|e]]; cbn [fst] in *;
    (split; [exact (sp_config _ _ (same_set_raft c p g g' Hg Hc))|..|done]); cbn; try done.
  - intros q. apply get_set_leader_placed.
  - apply set_leader_epoch.
Qed.

Lemma take_apply_config g n : config (fst (take_apply_batch g n)) = config g.
Proof.
  unfold take_apply_batch. destruct (peers g !! n) as [p|]; [|done].
  by destruct (apply_loop _ p []).
Qed.
Lemma same_apply_nodes p l mode ns receipt c :
  same_placement c (fst (apply_nodes c p l mode ns receipt)).
Proof.
  revert c receipt. induction ns as [|n ns IH]; intros c receipt; [done|]. cbn [apply_nodes].
  assert (Hb : same_placement c (fst (take_batch c p l n))).
  { unfold take_batch. destruct (raft c !! p) as [g|] eqn:Hg; [|done].
    pose proof (take_apply_config (sync_follower_commit g l n) n) as Hc.
    destruct (take_apply_batch _ n) as [g' batch]. cbn [fst] in *.
    by apply (same_set_raft c p g). }
  destruct (take_batch c p l n) as [c1 batch]. cbn [fst] in Hb.
  destruct batch as [|x xs]; [by rewrite Hb|]. destruct (nodes c1 !! n) as [s|]; [|by rewrite Hb].
  destruct (apply_entries s mode _ None) as [s' [r|e]]; cbn [fst]; rewrite Hb;
    [|apply same_set_node]. rewrite <- IH. apply same_set_node.
Qed.

Lemma same_write_linearizable c subject body mode del :
  same_placement c (fst (write_linearizable save c subject body mode del)).
Proof.
  unfold write_linearizable. set (p := partition_for_subject c subject).
  destruct (Directory.get (directory c) p) as [a|]; [|done].
  pose proof (same_ensure_leader c p) as Hl.
  destruct (ensure_partition_leader save c p) as [c1 [[l t]|e]]; cbn [fst] in Hl; [|done].
  destruct (raft c1 !! p) as [g|] eqn:Hg; [|done].
  pose proof (propose_config (save p) g l (command_of subject body del) (online_nodes c1)) as Hp.
  destruct (propose _ _ _ _ _) as [g' [r|e]]; cbn [fst] in Hp;
    pose proof (same_set_raft c1 p g g' Hg Hp) as H1; [|by rewrite Hl].
  destruct (negb _); [by rewrite Hl|].
  pose proof (same_apply_nodes p l mode (online_nodes c1) None (set_raft c1 p g')) as H2.
  destruct (apply_nodes _ _ _ _ _ _) as [c3 [[rc|]|e]]; cbn [fst] in *; by rewrite Hl, H1.
Qed.

Lemma same_write_targets p subject body mode del ts first acks c :
  same_placement c (fst (write_targets c p subject body mode del ts first acks)).
Proof.
  revert c first acks. induction ts as [|n ts IH]; intros c first acks; [done|]. cbn [write_targets].
  destruct (nodes c !! n) as [s|]; [|done].
  destruct (if del then _ else _) as [s' [r|e]]; [|apply same_set_node].
  rewrite <- IH. apply same_set_node.
Qed.
Lemma same_write_event c subject body mode del :
  same_placement c (fst (write_event save c subject body mode del)).
Proof.
  unfold write_event. destruct (bool_decide _); [|apply same_write_linearizable].
  unfold write_convergent. set (p := partition_for_subject c subject).
  destruct (Directory.get (directory c) p) as [a|] eqn:Ha; [|done].
  destruct (List.filter _ _) as [|n ns]; [done|].
  unfold write_convergent_on. fold p. rewrite Ha.
  destruct (check_targets c p a (n :: ns)); [|done].
  match goal with |- context [write_targets ?C ?P ?SU ?V ?M ?D ?TS ?F ?A] =>
    pose proof (same_write_targets P SU V M D TS F A C) as Hw;
    destruct (write_targets C P SU V M D TS F A) as [c' [[[rc|] acks]|e]] end; cbn [fst] in *;
    (etransitivity; [|exact Hw]); by split.
Qed.
End Frame.

(** ** Each step on its own *)

Lemma insert_node_by x l : insert_node x l = insert_by Z.compare x l.
Proof.
  induction l as [|y l IH]; [done|]. cbn. rewrite IH. unfold Z.leb. by destruct (x ?= y).
Qed.
Lemma joint_config g old new e :
  config (set_joint_voters g old new e) = (sort_ids (foldl push_new old new), e, true).
Proof.
  unfold set_joint_voters, config. cbn. unfold sort_ids, sort_by. rewrite !pair_equal_spec.
  repeat split.
  assert (Hu : union_nodes old new = foldl push_new old new).
  { unfold union_nodes. revert old. induction new as [|n new IH]; intros old; [done|]. cbn. by rewrite IH. }
  rewrite Hu. clear Hu. induction (foldl push_new old new) as [|x l IH]; [done|]. cbn [foldr].
  by rewrite IH, insert_node_by.
Qed.

Lemma get_set_replicas d p rs e d' q :
  Directory.set_replicas d p rs e = Some d' ->
  placed_at <$> Directory.get d' q =
    if decide (q = p) then (fun _ => (rs, e)) <$> Directory.get d p
    else placed_at <$> Directory.get d q.
Proof.
  unfold Directory.set_replicas. destruct rs as [|r rs]; [done|]. intros [= <-].
  match goal with |- context [Directory.get_mut d p ?F] =>
    transitivity (placed_at <$> Directory.get (Directory.get_mut d p F) q); [done|];
    rewrite (DirectoryFacts.get_get_mut F) by done end.
  destruct (decide (q = p)); [|done]. by destruct (Directory.get d p).
Qed.
Lemma set_replicas_epoch d p rs e d' :
  Directory.set_replicas d p rs e = Some d' -> Directory.dir_epoch d' = e.
Proof. unfold Directory.set_replicas. destruct rs; [done|]. by intros [= <-]. Qed.

Section Steps.
Context {S : Type} `{N : NodeStore S} `{W : NodeStoreWrite S} `{H : Blake3}.
Context (save : PartitionId -> NodeId -> RaftPeer -> bool).
Context (disk : NodeId -> option (result StoreError S)).
Context (open_peer : NodeId -> PartitionId -> bool)
        (jobs_save : gmap Z RebalanceJob -> bool)
        (directory_save : Directory.PartitionDirectory -> bool).
Implicit Types (c : Cluster S).

Lemma add_learners_config p ds g : config (fst (add_learners open_peer p g ds)) = config g.
Proof.
  revert g. induction ds as [|d ds IH]; intros g; [done|]. cbn [add_learners].
  destruct (open_peer d p); [|apply ensure_peer_config].
  rewrite IH. exact (ensure_peer_config g d).
Qed.
Lemma same_open_destinations ds c : same_placement c (fst (open_destinations disk c ds)).
Proof.
  revert c. induction ds as [|d ds IH]; intros c; [done|]. cbn [open_destinations].
  destruct (is_online c d); [done|]. destruct (disk d) as [[s|e]|]; [|done..].
  rewrite <- IH. by split.
Qed.
Lemma same_learners c j : same_placement c (fst (rb_learners_added disk open_peer c j)).
Proof.
  unfold rb_learners_added.
  match goal with |- context [let '(c1, added) := ?M in _] =>
    assert (H1 : same_placement c (fst M)); [|destruct M as [c1 [|]]; cbn [fst] in *] end.
  - destruct (raft c !! job_partition j) as [g|] eqn:Hg; [|done].
    pose proof (add_learners_config (job_partition j) (destinations j) g) as Hc.
    destruct (add_learners _ _ _ _) as [g' ok]. by apply (same_set_raft c _ g).
  - pose proof (same_open_destinations (destinations j) c1) as H2.
    destruct (open_destinations _ _ _) as [c2 [[]|e]]; cbn [fst] in *; by rewrite H1.
  - done.
Qed.
Lemma same_copy_rows rows ds n c : same_placement c (fst (copy_rows c rows ds n)).
Proof.
  revert c n. induction ds as [|d ds IH]; intros c n; [done|]. cbn [copy_rows].
  destruct (nodes c !! d) as [s|]; [|done].
  destruct (put_rows s rows n) as [s' [n'|e]]; [|apply same_set_node].
  rewrite <- IH. apply same_set_node.
Qed.
Lemma same_segments c j : same_placement c (fst (rb_segments_copied c j)).
Proof.
  unfold rb_segments_copied. destruct (copy_source c j) as [src|]; [|done].
  destruct (nodes c !! src) as [s|]; [|done].
  pose proof (same_copy_rows (partition_rows c (job_partition j) s) (destinations j)
                (subjects_copied j) c) as Hc.
  by destruct (copy_rows _ _ _ _) as [c' [n|e]].
Qed.
Lemma stream_logs_config l ds n g : config (fst (stream_logs g l ds n)) = config g.
Proof.
  revert g n. induction ds as [|d ds IH]; intros g n; [done|]. cbn [stream_logs].
  pose proof (stream_log_config g l d) as Hs.
  destruct (stream_log_to g l d) as [g' k]. cbn [fst] in *. by rewrite IH.
Qed.
Lemma same_log c j : same_placement c (fst (rb_log_caught_up c j)).
Proof.
  unfold rb_log_caught_up. destruct (raft c !! job_partition j) as [g|] eqn:Hg; [|done].
  destruct (log_source g j) as [l|]; [|done].
  pose proof (stream_logs_config l (destinations j) (log_entries_streamed j) g) as Hc.
  destruct (stream_logs _ _ _ _) as [g' n]. by apply (same_set_raft c _ g).
Qed.

(** The placement of one partition is changed, to the given voters and replicas. *)
Record moved (p : PartitionId) (vs : list NodeId) (e : Z) (jt : bool)
    (rs : option (list NodeId * PlacementEpoch)) c c' : Prop := {
  mv_config q : config <$> raft c' !! q =
    if decide (q = p) then (fun _ => (vs, e, jt)) <$> raft c !! p else config <$> raft c !! q;
  mv_directory q : placed_at <$> Directory.get (directory c') q =
    match rs with
    | Some r => if decide (q = p) then (fun _ => r) <$> Directory.get (directory c) p
                else placed_at <$> Directory.get (directory c) q
    | None => placed_at <$> Directory.get (directory c) q
    end;
  mv_jobs : rebalance_jobs c' = rebalance_jobs c }.

Lemma alter_group_config c p f cfg q :
  (forall g, config (f g) = cfg) ->
  config <$> raft (alter_group c p f) !! q =
    if decide (q = p) then (fun _ => cfg) <$> raft c !! p else config <$> raft c !! q.
Proof.
  intros Hf. unfold alter_group. destruct (raft c !! p) as [g|] eqn:Hg.
  - destruct (decide (q = p)) as [->|Hq]; cbn.
    + rewrite lookup_insert_eq. cbn. by rewrite Hf.
    + by rewrite lookup_insert_ne.
  - destruct (decide (q = p)) as [->|Hq]; [by rewrite Hg|done].
Qed.
Lemma alter_group_rest c p f :
  directory (alter_group c p f) = directory c /\ rebalance_jobs (alter_group c p f) = rebalance_jobs c
  /\ nodes (alter_group c p f) = nodes c.
Proof. unfold alter_group. by destruct (raft c !! p). Qed.

Lemma membership_moves c j :
  moved (job_partition j) (sort_ids (foldl push_new (old_replicas j) (new_replicas j)))
    (plan_epoch j) true None c (fst (rb_membership_changed c j)).
Proof.
  unfold rb_membership_changed. cbn [fst]. split.
  - intros q. apply alter_group_config. intros g. apply joint_config.
  - intros q. by rewrite (proj1 (alter_group_rest _ _ _)).
  - apply alter_group_rest.
Qed.

Lemma activation_moves c j :
  new_replicas j <> [] ->
  moved (job_partition j) (new_replicas j) (plan_epoch j + 1) false
    (Some (new_replicas j, plan_epoch j + 1)) c (fst (rb_epoch_activated save directory_save c j))
  /\ Directory.dir_epoch (directory (fst (rb_epoch_activated save directory_save c j)))
     = plan_epoch j + 1.
Proof.
  intros Hn. unfold rb_epoch_activated. set (p := job_partition j). set (e := plan_epoch j + 1).
  set (f := fun g => set_voters g (new_replicas j) e).
  destruct (alter_group_rest c p f) as (Hd & Hj & _).
  destruct (Directory.set_replicas _ _ _ _) as [d|] eqn:Hr;
    [|unfold Directory.set_replicas in Hr; by destruct (new_replicas j)].
  set (c1 := set_directory (alter_group c p f) d).
  pose proof (same_ensure_leader save c1 p) as [Hc2 Hd2 He2 Hj2].
  destruct (ensure_partition_leader save c1 p) as [c2 r]. cbn [fst] in *.
  assert (Hmv : moved p (new_replicas j) e false (Some (new_replicas j, e)) c c2).
  { split.
    - intros q. rewrite <- lookup_fmap, Hc2, lookup_fmap. by apply alter_group_config.
    - intros q. rewrite Hd2. cbn [directory c1 set_directory with_parts].
      by rewrite (get_set_replicas _ _ _ _ _ _ Hr), Hd.
    - by rewrite Hj2. }
  assert (He : Directory.dir_epoch (directory c2) = e)
    by (rewrite He2; exact (set_replicas_epoch _ _ _ _ _ Hr)).
  by destruct (directory_save (directory c2)).
Qed.
End Steps.

(** ** The placement is the declared one *)

Definition job_ok (p : PartitionId) (j : RebalanceJob) : Prop :=
  job_partition j = p /\ new_replicas j <> [] /\ joint j = is_joint (phase j) /\ phase j <> Reclaimed.

(** What the job of a partition declares its voters, its joint flag and its replicas in
    the directory to be.  [unsaved] tells that the last activation of the job could not
    save the directory: the handle has then switched and the job has not. *)
Definition declared (unsaved : bool) (j : option RebalanceJob) (vs : list NodeId) (jt : bool)
    (rs : list NodeId) : Prop :=
  match j with
  | None => vs = rs /\ jt = false
  | Some j =>
      if unsaved then vs = new_replicas j /\ jt = false /\ rs = new_replicas j
      else vs = authoritative_voters j /\ jt = is_joint (phase j)
           /\ rs = if new_placement_authoritative (phase j) then new_replicas j else old_replicas j
  end.

Section Invariant.
Context {S : Type} `{N : NodeStore S} `{W : NodeStoreWrite S} `{H : Blake3}.
Implicit Types (c : Cluster S) (u : gset Z).

(** [u] are the partitions whose last activation could not save the directory. *)
Definition settled u c : Prop :=
  (forall p j, rebalance_jobs c !! p = Some j -> job_ok p j)
  /\ (forall p, p ∈ u -> exists j, rebalance_jobs c !! p = Some j /\ phase j = MembershipChanged)
  /\ forall p vs e jt rs e', config <$> raft c !! p = Some (vs, e, jt) ->
     placed_at <$> Directory.get (directory c) p = Some (rs, e') ->
     declared (bool_decide (p ∈ u)) (rebalance_jobs c !! p) vs jt rs.

(** A step from the joint phase is an activation; it ends with the answer of
    [directory.save] for the directory it leaves. *)
Definition unsaved_after (directory_save : Directory.PartitionDirectory -> bool) (p : PartitionId)
    c c' u : gset Z :=
  match rebalance_jobs c !! p with
  | Some j =>
      if bool_decide (phase j = MembershipChanged)
      then if directory_save (directory c') then u ∖ {[p]} else {[p]} ∪ u
      else u
  | None => u
  end.

(** The operations that change the handle.  Every save, and every open of a store or of
    a peer, may answer differently in each step; reads change the handle only through
    elections. *)
Inductive cluster_step : Cluster S * gset Z -> Cluster S * gset Z -> Prop :=
| s_begin disk jobs_save id p new c u :
    cluster_step (c, u) (fst (begin_rebalance disk jobs_save c id p new), u)
| s_advance save disk open_peer jobs_save directory_save p c c' r u :
    advance_rebalance save disk open_peer jobs_save directory_save c p = (c', r) ->
    cluster_step (c, u) (c', unsaved_after directory_save p c c' u)
| s_put save k v mode c u : cluster_step (c, u) (fst (put save c k v mode), u)
| s_delete save k mode c u : cluster_step (c, u) (fst (delete_subject save c k mode), u)
| s_elect save p c u : cluster_step (c, u) (fst (ensure_partition_leader save c p), u)
| s_offline n c u : cluster_step (c, u) (mark_offline c n, u)
| s_online n opened c u : cluster_step (c, u) (fst (mark_online c n opened), u).

Lemma settled_same u c c' : same_placement c c' -> settled u c -> settled u c'.
Proof.
  intros [Hc Hd _ Hj] (Hok & Hu & Hs). split; rewrite Hj; [done|]. split; [done|].
  intros p vs e jt rs e'. rewrite <- lookup_fmap, Hc, lookup_fmap, Hd. apply Hs.
Qed.

(** A job is replaced by one of a new phase, or ends, and the placement of its partition
    follows; the rest is as before. *)
Lemma settled_update u u' c c' p oj :
  settled u c -> (forall q, q <> p -> q ∈ u' <-> q ∈ u) ->
  (p ∈ u' -> exists j, oj = Some j /\ phase j = MembershipChanged) ->
  (forall q, q <> p -> config <$> raft c' !! q = config <$> raft c !! q) ->
  (forall q, q <> p -> placed_at <$> Directory.get (directory c') q
                       = placed_at <$> Directory.get (directory c) q) ->
  rebalance_jobs c' = partial_alter (fun _ => oj) p (rebalance_jobs c) ->
  (forall j, oj = Some j -> job_ok p j) ->
  (forall vs e jt rs e', config <$> raft c' !! p = Some (vs, e, jt) ->
     placed_at <$> Directory.get (directory c') p = Some (rs, e') ->
     declared (bool_decide (p ∈ u')) oj vs jt rs) ->
  settled u' c'.
Proof.
  intros (Hok & Hu & Hs) Huq Hup Hc Hd Hj Hoj Hp. split_and!.
  - intros q j. rewrite Hj. destruct (decide (q = p)) as [->|Hq].
    + rewrite lookup_partial_alter_eq. apply Hoj.
    + rewrite lookup_partial_alter_ne by done. apply Hok.
  - intros q. rewrite Hj. destruct (decide (q = p)) as [->|Hq].
    + rewrite lookup_partial_alter_eq. apply Hup.
    + rewrite lookup_partial_alter_ne, Huq by done. apply Hu.
  - intros q vs e jt rs e' Hq1 Hq2. rewrite Hj. destruct (decide (q = p)) as [->|Hq].
    + rewrite lookup_partial_alter_eq. eauto.
    + rewrite lookup_partial_alter_ne by done. rewrite Hc in Hq1 by done. rewrite Hd in Hq2 by done.
      rewrite (bool_decide_ext _ _ (Huq q Hq)). eauto.
Qed.

Lemma settled_begin disk jobs_save id p new u c :
  settled u c -> settled u (fst (begin_rebalance disk jobs_save c id p new)).
Proof.
  intros Hs. unfold begin_rebalance. case_bool_decide as Hn; [done|].
  destruct (List.find _ new); [done|]. case_bool_decide as Hj; [done|].
  destruct (Directory.get (directory c) p) as [a|] eqn:Ha; [|done]. cbn [fst].
  assert (Hnone : rebalance_jobs c !! p = None) by (by apply eq_None_not_Some).
  assert (Hpu : p ∉ u) by (intros (j & Hjp & _)%(proj1 (proj2 Hs)); congruence).
  eapply (settled_update u u c _ p (Some _) Hs); [done|done|done..| |].
  - intros j [= <-]. by split.
  - intros vs e jt rs e' Hv Hr. apply (proj2 (proj2 Hs) p _ _ _ _ _ Hv) in Hr as Hd.
    cbn in Hr. rewrite Ha in Hr. injection Hr as <- _.
    rewrite Hnone in Hd. destruct Hd as [-> ->]. rewrite bool_decide_eq_false_2 by done. by repeat split.
Qed.

(** A step changes the job's phase and counters, and nothing of what it moves. *)
Definition same_plan (next : RebalancePhase) (j j' : RebalanceJob) : Prop :=
  job_partition j' = job_partition j /\ old_replicas j' = old_replicas j
  /\ new_replicas j' = new_replicas j /\ destinations j' = destinations j
  /\ plan_epoch j' = plan_epoch j /\ phase j' = next
  /\ joint j' = match next with MembershipChanged => true | EpochActivated => false | _ => joint j end.

Section StepResult.
Context (save : PartitionId -> NodeId -> RaftPeer -> bool).
Context (disk : NodeId -> option (result StoreError S)).
Context (open_peer : NodeId -> PartitionId -> bool)
        (directory_save : Directory.PartitionDirectory -> bool).
Abbreviation step := (rb_step save disk open_peer directory_save).

Lemma step_plan c j next c1 j' : step c j next = (c1, Ok j') -> same_plan next j j'.
Proof.
  destruct next; cbn [rb_step].
  - done.
  - unfold rb_learners_added. destruct (match raft c !! _ with Some _ => _ | None => _ end) as [c2 [|]];
      [|done]. destruct (open_destinations _ _ _) as [c3 [[]|]]; [|done]. by intros [= _ <-].
  - unfold rb_segments_copied. destruct (copy_source c j); [|done]. destruct (nodes c !! _); [|done].
    destruct (copy_rows _ _ _ _) as [c3 [n|]]; [|done]. by intros [= _ <-].
  - unfold rb_log_caught_up. destruct (raft c !! _) as [g|]; [|done].
    destruct (log_source g j); [|done]. destruct (stream_logs _ _ _ _). by intros [= _ <-].
  - by intros [= _ <-].
  - unfold rb_epoch_activated. destruct (Directory.set_replicas _ _ _ _); [|done].
    destruct (ensure_partition_leader _ _ _). destruct (directory_save _); [|done]. by intros [= _ <-].
  - by intros [= _ <-].
  - by intros [= _ <-].
Qed.
Lemma step_job_ok p c j next c1 j' :
  phase_next (phase j) = Some next -> next <> Reclaimed -> job_ok p j ->
  step c j next = (c1, Ok j') -> job_ok p j'.
Proof.
  intros Hn Hr (Hp & Hne & Hj & _) Hs%step_plan. destruct Hs as (Hp' & _ & Hnew & _ & _ & Hph & Hjt).
  unfold job_ok. rewrite Hp', Hnew, Hph, Hjt. repeat split; try done.
  destruct (phase j), next; try done; by rewrite Hj.
Qed.

(** Which steps touch the placement. *)
Lemma step_placement c j next :
  new_replicas j <> [] -> next <> PlanCommitted ->
  match next with
  | MembershipChanged =>
      moved (job_partition j) (sort_ids (foldl push_new (old_replicas j) (new_replicas j)))
        (plan_epoch j) true None c (fst (step c j next))
  | EpochActivated =>
      moved (job_partition j) (new_replicas j) (plan_epoch j + 1) false
        (Some (new_replicas j, plan_epoch j + 1)) c (fst (step c j next))
  | _ => same_placement c (fst (step c j next))
  end.
Proof.
  intros Hn Hp. destruct next; cbn [rb_step]; try done.
  - apply same_learners.
  - apply same_segments.
  - apply same_log.
  - apply membership_moves.
  - by apply activation_moves.
Qed.

(** What the job recorded after a step declares is what the step has made. *)
Definition recorded (j : RebalanceJob) : option RebalanceJob :=
  if bool_decide (phase j = Reclaimed) then None else Some j.

Lemma declared_kept j j' next vs jt rs :
  phase_next (phase j) = Some next -> next <> MembershipChanged -> next <> EpochActivated ->
  joint j = is_joint (phase j) -> same_plan next j j' ->
  declared false (Some j) vs jt rs -> declared false (recorded j') vs jt rs.
Proof.
  intros Hn H1 H2 Hj (_ & Hold & Hnew & _ & _ & Hph & Hjt) Hd. unfold recorded, declared in *.
  unfold authoritative_voters in *. rewrite Hj in Hd. case_bool_decide as Hr.
  all: rewrite ?Hold, ?Hnew, Hph in *; rewrite ?Hjt, ?Hj; clear -Hn H1 H2 Hd Hr.
  all: destruct (phase j), next; simplify_eq/=; naive_solver.
Qed.

(** Only the step from the joint phase finds an unsaved directory. *)
Lemma not_unsaved u c p j : settled u c -> rebalance_jobs c !! p = Some j ->
  phase j <> MembershipChanged -> p ∉ u.
Proof. intros (_ & Hu & _) Hj Hph (j' & Hj' & Hph')%Hu. congruence. Qed.

Lemma settled_step p u c j next c1 j' :
  settled u c -> rebalance_jobs c !! p = Some j -> phase_next (phase j) = Some next ->
  step c j next = (c1, Ok j') ->
  settled (if bool_decide (next = EpochActivated) then u ∖ {[p]} else u)
    (with_jobs c1 (partial_alter (fun _ => recorded j') p (rebalance_jobs c1))).
Proof.
  intros Hs Hj Hn Hst. pose proof (proj1 Hs p j Hj) as Hok. destruct (Hok) as (Hp & Hne & Hjt & _).
  pose proof (step_placement c j next Hne ltac:(by destruct (phase j), next)) as Hmv.
  pose proof (step_plan _ _ _ _ _ Hst) as Hpl. rewrite Hst in Hmv. cbn [fst] in Hmv.
  assert (Hoj : forall x, recorded j' = Some x -> job_ok p x).
  { intros x. unfold recorded. case_bool_decide as Hr; [done|]. intros [= <-].
    apply (step_job_ok p c j next c1); try done. by destruct Hpl as (_ & _ & _ & _ & _ & <- & _). }
  assert (Hpu : next <> EpochActivated -> p ∉ u).
  { intros Hne'. eapply not_unsaved; [done..|]. by destruct (phase j), next. }
  assert (Hkeep : same_placement c c1 -> next <> MembershipChanged -> next <> EpochActivated ->
    settled u (with_jobs c1 (partial_alter (fun _ => recorded j') p (rebalance_jobs c1)))).
  { intros Hsame H1 H2. specialize (Hpu H2). pose proof (settled_same u c c1 Hsame Hs) as Hs1.
    apply (settled_update u u c1 _ p (recorded j')); try done.
    intros vs e jt rs e' Hv Hr. rewrite bool_decide_eq_false_2 by done. eapply declared_kept; [done..|].
    rewrite <- Hj, <- (sp_jobs _ _ Hsame). rewrite <- (bool_decide_eq_false_2 (p ∈ u)) by done. by eapply Hs1. }
  destruct next; try (by apply Hkeep); clear Hkeep; cbn [bool_decide];
    destruct Hmv as [Hc Hd Hjobs]; destruct Hpl as (Hp' & Hold & Hnew & _ & _ & Hph & Hjt');
    rewrite Hjobs, Hp in *; rewrite ?bool_decide_eq_false_2, ?bool_decide_eq_true_2 by done;
    eapply (settled_update u _ c _ p (recorded j') Hs); try done.
  all: try (by intros Hx; destruct (Hpu ltac:(done) Hx)).
  all: try (by intros [_ []%not_elem_of_singleton]%elem_of_difference).
  all: try (intros q Hq; rewrite elem_of_difference, elem_of_singleton; tauto).
  all: try (intros q Hq; cbn; rewrite ?Hc, ?Hd, ?decide_False by done; done).
  all: try (cbn; by rewrite Hjobs).
  all: intros vs e jt rs e' Hv Hr; cbn in Hv, Hr; rewrite Hc, decide_True in Hv by done;
    rewrite Hd in Hr; unfold recorded; rewrite Hph, (bool_decide_eq_false_2 (_ = Reclaimed)) by done.
  - rewrite (bool_decide_eq_false_2 (p ∈ u)) by (by apply Hpu).
    destruct (raft c !! p) as [g|] eqn:Hg; [|done]. injection Hv as <- <- <-.
    assert (Hdj : declared false (Some j) (voters g) (Raft.joint g) rs).
    { rewrite <- Hj, <- (bool_decide_eq_false_2 (p ∈ u)) by (by apply Hpu). eapply Hs; [by rewrite Hg|done]. }
    cbn [declared]. unfold authoritative_voters. rewrite Hold, Hnew, Hph. repeat split.
    destruct (phase j) eqn:Hpj; try done. cbn in Hdj. rewrite Hpj in Hdj. naive_solver.
  - rewrite (bool_decide_eq_false_2 (p ∈ u ∖ {[p]})) by set_solver.
    rewrite decide_True in Hr by done. destruct (raft c !! p); [|done].
    destruct (Directory.get (directory c) p); [|done]. injection Hv as <- <- <-. injection Hr as <- <-.
    cbn [declared]. unfold authoritative_voters. by rewrite Hnew, Hph, Hjt'.
Qed.

(** A refused step records nothing, and only an activation has moved anything. *)
Lemma settled_refused p u c j next c1 e :
  settled u c -> rebalance_jobs c !! p = Some j -> phase_next (phase j) = Some next ->
  step c j next = (c1, Err e) ->
  settled (if bool_decide (next = EpochActivated) then {[p]} ∪ u else u) c1.
Proof.
  intros Hs Hj Hn Hst. destruct (proj1 Hs p j Hj) as (Hp & Hne & _).
  pose proof (step_placement c j next Hne ltac:(by destruct (phase j), next)) as Hmv.
  rewrite Hst in Hmv. cbn [fst] in Hmv.
  destruct next; rewrite ?bool_decide_eq_false_2, ?bool_decide_eq_true_2 by done; try (by apply (settled_same u c)).
  destruct Hmv as [Hc Hd Hjobs]. rewrite Hp in Hc, Hd.
  apply (settled_update u _ c _ p (Some j) Hs).
  - set_solver.
  - intros _. exists j. split; [done|]. by destruct (phase j).
  - intros q Hq. by rewrite Hc, decide_False.
  - intros q Hq. by rewrite Hd, decide_False.
  - rewrite Hjobs, <- Hj. by rewrite partial_alter_self.
  - intros x [= <-]. by apply Hs.
  - intros vs x jt rs x'. rewrite Hc, Hd, !decide_True by done. rewrite bool_decide_eq_true_2 by set_solver.
    destruct (raft c !! p); [|done]. destruct (Directory.get (directory c) p); [|done].
    by intros [= <- <- <-] [= <- <-].
Qed.

(** An activation is refused exactly when the directory it leaves cannot be saved. *)
Lemma activation_saved c j c1 r : new_replicas j <> [] -> step c j EpochActivated = (c1, r) ->
  directory_save (directory c1) = is_ok r.
Proof.
  intros Hne. cbn [rb_step]. unfold rb_epoch_activated.
  destruct (Directory.set_replicas _ _ _ _) eqn:Hr; [|unfold Directory.set_replicas in Hr; by destruct (new_replicas j)].
  destruct (ensure_partition_leader _ _ _) as [c2 x]. by destruct (directory_save (directory c2)) eqn:E; intros [= <- <-].
Qed.

Lemma settled_advance jobs_save p u c c' r :
  settled u c ->
  advance_rebalance save disk open_peer jobs_save directory_save c p = (c', r) ->
  settled (unsaved_after directory_save p c c' u) c'.
Proof.
  intros Hs. unfold advance_rebalance, unsaved_after.
  destruct (rebalance_jobs c !! p) as [j|] eqn:Hj; [|by intros [= <- _]].
  destruct (proj1 Hs p j Hj) as (_ & Hne & _ & Hnr). rewrite (bool_decide_eq_false_2 _ Hnr).
  destruct (phase_next (phase j)) as [next|] eqn:Hn; [|by destruct (phase j)].
  assert (Hact : bool_decide (phase j = MembershipChanged) = bool_decide (next = EpochActivated))
    by (by destruct (phase j), next).
  rewrite Hact. destruct (step c j next) as [c1 [j'|e]] eqn:Hst.
  - intros [= <- _]. pose proof (settled_step _ _ _ _ _ _ _ Hs Hj Hn Hst) as Hs'.
    assert (Hsv : next = EpochActivated -> directory_save (directory c1) = true)
      by (intros ->; by apply activation_saved in Hst).
    unfold recorded in Hs'. cbn [directory with_jobs]. case_bool_decide; [rewrite Hsv by done|];
      by destruct (bool_decide (phase j' = Reclaimed)).
  - intros [= <- _]. pose proof (settled_refused _ _ _ _ _ _ _ Hs Hj Hn Hst) as Hs'.
    assert (Hsv : next = EpochActivated -> directory_save (directory c1) = false)
      by (intros ->; by apply activation_saved in Hst).
    case_bool_decide; [by rewrite Hsv|done].
Qed.
End StepResult.

(** C36. In every interleaving of rebalance steps, writes, elections and node failures,
    where every save and every open may succeed or fail anew in each step, the group of
    each partition votes with the set that the phase of its job declares: the old replicas
    until the membership change, the sorted union of both sets in the joint phase, the new
    replicas after activation; and the directory names the old replicas before activation
    and the new ones after.  The one exception is a partition whose last activation ended
    with a failed [directory.save] ([unsaved_after]): its job still says joint, and its
    voters and its replicas are the new ones until an activation saves the directory. *)
Theorem rebalance_placement c c' u' :
  settled ∅ c -> rtc cluster_step (c, ∅) (c', u') -> settled u' c'.
Proof.
  intros Hs Hr. remember (c, ∅) as w eqn:Ew. remember (c', u') as w' eqn:Ew'.
  enough (Hw : settled (snd w) (fst w) -> settled (snd w') (fst w')) by (subst; by apply Hw).
  clear Hs Ew Ew'. induction Hr as [|w1 w2 w3 Hst _ IH]; [done|]. intros Hs. apply IH. clear IH w3.
  destruct Hst; cbn [fst snd] in *.
  - by apply settled_begin.
  - by eapply settled_advance.
  - eapply settled_same; [apply same_write_event|done].
  - eapply settled_same; [apply same_write_event|done].
  - eapply settled_same; [apply same_ensure_leader|done].
  - eapply settled_same; [apply same_mark_offline|done].
  - eapply settled_same; [apply same_mark_online|done].
Qed.
End Invariant.
