(* ===== verification/ClusterMove.v ===== *)
(** * A finished rebalance

    [rebalance_partition] ends within its seven steps, and when it succeeds the
    placement has switched and every destination holds the rows of the source. *)
From S2P Require Import Prelude Cbor AtomicFile AtomicPlan WriteDedup Raft Cluster ClusterToken ClusterScan ClusterScanFacts ClusterPaging ClusterWrite ClusterWriteFacts ClusterRebalance ClusterRebalanceFacts.
Import Reads Write Cluster.Rebalance Rebalancing.

Section Move.
Context {S : Type} `{N : NodeStore S} `{W : NodeStoreWrite S} `{L : !NodeStoreWriteLaws S} `{H : Blake3}.
Context (save : PartitionId -> NodeId -> RaftPeer -> bool).
Context (disk : NodeId -> option (result StoreError S)).
Context (open_peer : NodeId -> PartitionId -> bool)
        (jobs_save : gmap Z RebalanceJob -> bool)
        (directory_save : Directory.PartitionDirectory -> bool).
Implicit Types (c : Cluster S).
Abbreviation step := (rb_step save disk open_peer directory_save).
Abbreviation advance := (advance_rebalance save disk open_peer jobs_save directory_save).

(** ** Copying rows *)

Definition holds_rows (s : S) (rows : list row) : Prop :=
  forall k b, (k, b) ∈ rows -> store_get s k = Ok (Some b).

Lemma put_rows_other rows s n s' n' k :
  put_rows s rows n = (s', Ok n') -> k ∉ rows.*1 -> store_get s' k = store_get s k.
Proof.
  revert s n. induction rows as [|[k1 b1] rows IH]; intros s n; [by intros [= <- _]|].
  cbn [put_rows fmap list_fmap]. rewrite not_elem_of_cons.
  destruct (store_put s k1 b1 Durable) as [s1 [r|e]] eqn:Hp; [|done]. intros Hr [Hk Hrest].
  rewrite (IH _ _ Hr Hrest). by apply (put_reads _ _ _ _ _ _ Hp).
Qed.
Lemma put_rows_holds rows s n s' n' :
  (forall k b b', (k, b) ∈ rows -> (k, b') ∈ rows -> b = b') ->
  put_rows s rows n = (s', Ok n') -> holds_rows s' rows.
Proof.
  revert s n. induction rows as [|[k1 b1] rows IH]; intros s n Hf.
  { intros _ k b Hk. by apply not_elem_of_nil in Hk. }
  cbn [put_rows]. destruct (store_put s k1 b1 Durable) as [s1 [r|e]] eqn:Hp; [|done].
  intros Hr. assert (Hrest : holds_rows s' rows).
  { apply (IH s1 (n + 1)); [|done]. intros k b b' H1 H2. apply (Hf k); by right. }
  intros k b [Heq|Hin]%elem_of_cons; [|by apply Hrest].
  injection Heq as -> ->. destruct (decide (k1 ∈ rows.*1)) as [Hin|Hout].
  - apply list_elem_of_fmap in Hin as ([k2 b2] & -> & Hin). cbn [fst] in *.
    rewrite (Hrest _ _ Hin). do 2 f_equal. apply (Hf k2); [by right|by left].
  - rewrite (put_rows_other _ _ _ _ _ _ Hr Hout). by apply (put_reads _ _ _ _ _ _ Hp).
Qed.

Lemma partition_rows_spec c p s k b :
  (k, b) ∈ partition_rows c p s -> store_get s k = Ok (Some b).
Proof.
  unfold partition_rows. rewrite list_elem_of_omap. intros (k' & _ & Hk).
  destruct (_ && _); [|done]. destruct (store_get s k') as [[b'|]|] eqn:Hg; [|done..].
  by injection Hk as -> ->.
Qed.
Lemma partition_rows_det c p s k b b' :
  (k, b) ∈ partition_rows c p s -> (k, b') ∈ partition_rows c p s -> b = b'.
Proof. intros H1%partition_rows_spec H2%partition_rows_spec. congruence. Qed.

Lemma copy_rows_spec rows ds n c c' n' :
  (forall k b b', (k, b) ∈ rows -> (k, b') ∈ rows -> b = b') ->
  copy_rows c rows ds n = (c', Ok n') ->
  partition_map c' = partition_map c
  /\ forall d, if decide (d ∈ ds) then exists s, nodes c' !! d = Some s /\ holds_rows s rows
               else nodes c' !! d = nodes c !! d.
Proof.
  intros Hf. revert c n. induction ds as [|d0 ds IH]; intros c n.
  { intros [= <- _]. split; [done|]. intros d. rewrite decide_False; [done|]. apply not_elem_of_nil. }
  cbn [copy_rows]. destruct (nodes c !! d0) as [s|]; [|done].
  destruct (put_rows s rows n) as [s' [m|e]] eqn:Hp; [|done].
  intros (Hm & Hr)%IH. split; [done|]. intros d. specialize (Hr d).
  apply put_rows_holds in Hp; [|done].
  destruct (decide (d ∈ ds)) as [Hd|Hd]; [by rewrite decide_True by (by right)|].
  rewrite Hr. cbn. destruct (decide (d = d0)) as [->|Hne].
  - rewrite decide_True, lookup_insert_eq by (by left). eauto.
  - rewrite decide_False, lookup_insert_ne by set_solver. done.
Qed.

(** ** What the steps do to the stores *)

Lemma open_destinations_spec ds c c' :
  open_destinations disk c ds = (c', Ok tt) ->
  partition_map c' = partition_map c /\ forall d, d ∉ ds -> nodes c' !! d = nodes c !! d.
Proof.
  revert c. induction ds as [|d0 ds IH]; intros c; [by intros [= <-]|]. cbn [open_destinations].
  destruct (is_online c d0); [|destruct (disk d0) as [[s|e]|]; [|done..]];
    intros (Hm & Hr)%IH; (split; [done|]); intros d Hd; rewrite Hr by set_solver; [done|].
  cbn. by rewrite lookup_insert_ne by set_solver.
Qed.
Lemma learners_stores c j c' j' :
  rb_learners_added disk open_peer c j = (c', Ok j') ->
  partition_map c' = partition_map c /\ forall d, d ∉ destinations j -> nodes c' !! d = nodes c !! d.
Proof.
  unfold rb_learners_added.
  match goal with |- context [let '(c1, added) := ?M in _] =>
    assert (H1 : nodes (fst M) = nodes c /\ partition_map (fst M) = partition_map c);
    [|destruct M as [c1 [|]]; cbn [fst] in *; [|done]] end.
  - destruct (raft c !! job_partition j); [|done]. by destruct (add_learners _ _ _ _).
  - destruct H1 as [Hn Hm]. rewrite <- Hn, <- Hm.
    destruct (open_destinations disk c1 (destinations j)) as [c2 [[]|e]] eqn:Ho; [|done].
    intros [= <- _]. by apply open_destinations_spec.
Qed.

(** The steps after the copy leave every store as it is. *)
Lemma later_stores c j next c' j' :
  next <> LearnersAdded -> next <> SegmentsCopied -> step c j next = (c', Ok j') ->
  partition_map c' = partition_map c /\ nodes c' = nodes c.
Proof.
  intros H1 H2. destruct next; try done; cbn [rb_step].
  - unfold rb_log_caught_up. destruct (raft c !! _) as [g|]; [|done].
    destruct (log_source g j); [|done]. destruct (stream_logs _ _ _ _). by intros [= <- _].
  - unfold rb_membership_changed, alter_group. intros [= <- _]. by destruct (raft c !! _).
  - unfold rb_epoch_activated. destruct (Directory.set_replicas _ _ _ _) as [d|]; [|done].
    match goal with |- context [ensure_partition_leader save ?C ?P] =>
      assert (He : partition_map (fst (ensure_partition_leader save C P)) = partition_map c
                   /\ nodes (fst (ensure_partition_leader save C P)) = nodes c);
      [|destruct (ensure_partition_leader save C P) as [c2 r]; cbn [fst] in He] end.
    + unfold ensure_partition_leader, alter_group. destruct (raft c !! _); cbn -[ensure_leader_preferring].
      all: destruct (_ !! _); [|done]; by destruct (ensure_leader_preferring _ _ _ _) as [? [[]|]].
    + destruct (directory_save _); [|done]. by intros [= <- _].
  - by intros [= <- _].
  - by intros [= <- _].
Qed.

(** ** The run *)

Definition all_phases : list RebalancePhase :=
  [PlanCommitted; LearnersAdded; SegmentsCopied; LogCaughtUp; MembershipChanged; EpochActivated;
   SafetyWindow; Reclaimed].
Definition phase_index (ph : RebalancePhase) : nat :=
  match ph with
  | PlanCommitted => 0 | LearnersAdded => 1 | SegmentsCopied => 2 | LogCaughtUp => 3
  | MembershipChanged => 4 | EpochActivated => 5 | SafetyWindow => 6 | Reclaimed => 7
  end.
Lemma phase_index_next ph next : phase_next ph = Some next -> phase_index next = Datatypes.S (phase_index ph).
Proof. by destruct ph; intros [= <-]. Qed.
Lemma phases_next ph next :
  phase_next ph = Some next ->
  take (Datatypes.S (phase_index next)) all_phases
  = take (Datatypes.S (phase_index ph)) all_phases ++ [next].
Proof. by destruct ph; intros [= <-]. Qed.

Lemma step_jobs c j next c1 j' :
  phase_next (phase j) = Some next -> new_replicas j <> [] -> step c j next = (c1, Ok j') ->
  rebalance_jobs c1 = rebalance_jobs c.
Proof.
  intros Hn Hne Hst.
  pose proof (step_placement save disk open_peer directory_save c j next Hne
                ltac:(by destruct (phase j), next)) as Hmv.
  rewrite Hst in Hmv. by destruct next; destruct Hmv.
Qed.

Lemma advance_splits c p j c' j' :
  rebalance_jobs c !! p = Some j -> new_replicas j <> [] -> advance c p = (c', Ok j') ->
  exists next c1, phase_next (phase j) = Some next /\ step c j next = (c1, Ok j')
    /\ c' = with_jobs c1 (partial_alter (fun _ => recorded j') p (rebalance_jobs c)).
Proof.
  intros Hj Hne. unfold advance_rebalance. rewrite Hj. case_bool_decide; [done|].
  destruct (phase_next (phase j)) as [next|] eqn:Hn; [|done].
  destruct (step c j next) as [c1 [x|e]] eqn:Hst; [|done].
  destruct (persist_rebalance_jobs _ _); [|done]. intros [= <- <-]. exists next, c1.
  rewrite (step_jobs _ _ _ _ _ Hn Hne Hst). unfold recorded. by case_bool_decide.
Qed.

Section Run.
Context (c0 : Cluster S) (id : list byte) (p : PartitionId) (new : list NodeId)
        (a : Directory.PartitionAssignment) (Hnew : new <> []).
Let start := plan id p (Directory.replicas a) new (Directory.dir_epoch (directory c0)).
Let epoch := Directory.dir_epoch (directory c0) + 1.

(** Every destination holds the rows that the first online replica had. *)
Definition copied c : Prop :=
  exists src s, List.find (is_online c0) (Directory.replicas a) = Some src /\ nodes c0 !! src = Some s
    /\ forall d, d ∈ destinations start ->
       exists s', nodes c !! d = Some s' /\ holds_rows s' (partition_rows c0 p s).

Record progress c (j : RebalanceJob) (phases : list RebalancePhase) : Prop := {
  pr_phases : phases = take (Datatypes.S (phase_index (phase j))) all_phases;
  pr_plan : job_partition j = p /\ old_replicas j = Directory.replicas a /\ new_replicas j = new
            /\ destinations j = destinations start /\ plan_epoch j + 1 = epoch;
  pr_jobs : rebalance_jobs c = partial_alter (fun _ => recorded j) p (rebalance_jobs c0);
  pr_map : partition_map c = partition_map c0;
  pr_group : is_Some (raft c !! p) /\ is_Some (Directory.get (directory c) p);
  pr_others d : d ∉ destinations start -> nodes c !! d = nodes c0 !! d;
  pr_copied : (2 <= phase_index (phase j))%nat -> copied c;
  pr_switched : (5 <= phase_index (phase j))%nat ->
    config <$> raft c !! p = Some (new, epoch, false)
    /\ placed_at <$> Directory.get (directory c) p = Some (new, epoch) }.

Lemma destinations_spec d : d ∈ destinations start <-> d ∈ new /\ d ∉ Directory.replicas a.
Proof.
  unfold start, plan. cbn [destinations]. rewrite elem_of_sort_ids, !list_elem_of_In, filter_In.
  rewrite negb_true_iff, bool_decide_eq_false, list_elem_of_In. done.
Qed.

Lemma find_agree {A} (f g : A -> bool) l :
  (forall x, x ∈ l -> f x = g x) -> List.find f l = List.find g l.
Proof.
  induction l as [|x l IH]; intros Hx; [done|]. cbn. rewrite (Hx x) by (by left).
  destruct (g x); [done|]. apply IH. intros y Hy. apply Hx. by right.
Qed.

Lemma copied_at c j phases c1 j' :
  progress c j phases -> rb_segments_copied c j = (c1, Ok j') ->
  partition_map c1 = partition_map c0 /\ copied c1
  /\ forall d, d ∉ destinations start -> nodes c1 !! d = nodes c0 !! d.
Proof.
  intros [_ (Hp & Hold & _ & Hds & _) _ Hm _ Ho _ _]. unfold rb_segments_copied.
  assert (Hstay : forall n, n ∈ Directory.replicas a -> nodes c !! n = nodes c0 !! n)
    by (intros n Hn; apply Ho; rewrite destinations_spec; by intros [_ ?]).
  assert (Hsrc : copy_source c j = List.find (is_online c0) (Directory.replicas a)).
  { unfold copy_source. rewrite Hold. apply find_agree. intros n Hn. unfold is_online.
    by rewrite Hstay. }
  rewrite Hsrc. destruct (List.find _ _) as [src|] eqn:Hf; [|done].
  apply find_some in Hf as Hin. destruct Hin as [Hin%list_elem_of_In _].
  rewrite (Hstay _ Hin). destruct (nodes c0 !! src) as [s|] eqn:Hs; [|done].
  assert (Hrows : partition_rows c (job_partition j) s = partition_rows c0 p s)
    by (unfold partition_rows, partition_for_subject; by rewrite Hm, Hp).
  rewrite Hrows, Hds. destruct (copy_rows _ _ _ _) as [c2 [n|e]] eqn:Hc; [|done]. intros [= <- _].
  apply copy_rows_spec in Hc as [Hm' Hc]; [|apply partition_rows_det].
  split_and!; [congruence| |].
  - exists src, s. split_and!; [done..|]. intros d Hd. specialize (Hc d). by rewrite decide_True in Hc.
  - intros d Hd. specialize (Hc d). rewrite decide_False in Hc by done. by rewrite Hc, Ho.
Qed.

Lemma step_stores c j phases next c1 j' :
  progress c j phases -> phase_next (phase j) = Some next -> step c j next = (c1, Ok j') ->
  partition_map c1 = partition_map c0
  /\ (forall d, d ∉ destinations start -> nodes c1 !! d = nodes c0 !! d)
  /\ ((2 <= phase_index next)%nat -> copied c1).
Proof.
  intros Hpr Hn Hst. destruct (Hpr) as [_ (_ & _ & _ & Hds & _) _ Hm _ Ho Hc _].
  pose proof (phase_index_next _ _ Hn) as Hi.
  destruct (decide (next = SegmentsCopied)) as [->|H2].
  { destruct (copied_at _ _ _ _ _ Hpr Hst) as (? & ? & ?). by split_and!. }
  destruct (decide (next = LearnersAdded)) as [->|H1].
  { apply learners_stores in Hst as [Hm' Ho']. rewrite Hds in Ho'. split_and!; [congruence| |cbn; lia].
    intros d Hd. by rewrite Ho', Ho. }
  apply later_stores in Hst as [Hm' Hn']; [|done..]. rewrite Hm', Hn'. split_and!; [done..|].
  intros Hle. destruct Hc as (src & s & Hf & Hs & Hd).
  { destruct (phase j), next; cbn in *; try done; lia. }
  exists src, s. split_and!; [done..|]. by rewrite Hn'.
Qed.

Lemma step_switches c j phases next c1 j' :
  progress c j phases -> phase_next (phase j) = Some next -> step c j next = (c1, Ok j') ->
  (is_Some (raft c1 !! p) /\ is_Some (Directory.get (directory c1) p))
  /\ ((5 <= phase_index next)%nat ->
      config <$> raft c1 !! p = Some (new, epoch, false)
      /\ placed_at <$> Directory.get (directory c1) p = Some (new, epoch)).
Proof.
  intros Hpr Hn Hst. destruct (Hpr) as [_ (Hp & Hold & Hnw & _ & He) _ _ [[g Hg] [b Hb]] _ _ Hsw].
  pose proof (step_placement save disk open_peer directory_save c j next
                ltac:(congruence) ltac:(by destruct (phase j), next)) as Hmv.
  rewrite Hst in Hmv. cbn [fst] in Hmv. rewrite <- !(fmap_is_Some config).
  rewrite <- (fmap_is_Some placed_at).
  assert (Hcase : (same_placement c c1 /\ ((5 <= phase_index next)%nat -> (5 <= phase_index (phase j))%nat))
                  \/ next = MembershipChanged \/ next = EpochActivated).
  { destruct (phase j), next; cbn in *; simplify_eq; try (by right; left); try (by right; right);
      left; (split; [done|lia]). }
  destruct Hcase as [[[Hc Hd _ _] Hle]|[-> | ->]].
  - rewrite <- lookup_fmap, Hc, lookup_fmap, Hd, Hg, Hb. split; [by split|]. intros H5.
    specialize (Hsw (Hle H5)). by rewrite Hg, Hb in Hsw.
  - destruct Hmv as [Hc Hd _]. rewrite Hp in Hc. rewrite Hc, Hd, decide_True, Hg, Hb by done. cbn.
    split; [by split|]. lia.
  - destruct Hmv as [Hc Hd _]. rewrite Hp in Hc, Hd. rewrite Hc, Hd, !decide_True, Hg, Hb, Hnw, He by done.
    cbn. by repeat split.
Qed.

Lemma progress_step c j phases c' j' :
  progress c j phases -> phase j <> Reclaimed -> advance c p = (c', Ok j') ->
  progress c' j' (phases ++ [phase j'])
  /\ phase_index (phase j') = Datatypes.S (phase_index (phase j)).
Proof.
  intros Hpr Hr Hadv. destruct (Hpr) as [Hph (Hp & Hold & Hnw & Hds & He) Hjobs _ _ _ _ _].
  apply (advance_splits _ _ j) in Hadv as (next & c1 & Hn & Hst & ->); [|..|congruence].
  - pose proof (step_plan _ _ _ _ _ _ _ _ _ Hst) as (Hp' & Hold' & Hnw' & Hds' & He' & Hph' & _).
    destruct (step_stores _ _ _ _ _ _ Hpr Hn Hst) as (Hm & Ho & Hc).
    destruct (step_switches _ _ _ _ _ _ Hpr Hn Hst) as (Hg & Hsw).
    split; [|rewrite Hph'; by apply phase_index_next]. split; try done; rewrite ?Hph'; try done.
    + by rewrite (phases_next _ _ Hn), Hph.
    + split_and!; congruence.
    + cbn. rewrite Hjobs. apply map_eq. intros q. destruct (decide (q = p)) as [->|].
      * by rewrite !lookup_partial_alter_eq.
      * by rewrite !lookup_partial_alter_ne.
  - rewrite Hjobs, lookup_partial_alter_eq. unfold recorded. by rewrite bool_decide_eq_false_2.
Qed.

Lemma run_ends fuel : forall c j phases,
  progress c j phases -> (7 <= phase_index (phase j) + fuel)%nat ->
  exists c' r, run_rebalance save disk open_peer jobs_save directory_save fuel c p j phases = Some (c', r)
    /\ forall rep, r = Ok rep ->
       progress c' (report_job rep) (phases_completed rep) /\ phase (report_job rep) = Reclaimed.
Proof.
  induction fuel as [|fuel IH]; intros c j phases Hpr Hf; cbn [run_rebalance].
  - rewrite bool_decide_eq_true_2 by (destruct (phase j); cbn in Hf; first [done|lia]).
    do 2 eexists. split; [done|]. intros rep [= <-]. split; [done|]. cbn.
    destruct (phase j); cbn in Hf; first [done|lia].
  - case_bool_decide as Hr.
    + do 2 eexists. split; [done|]. by intros rep [= <-].
    + destruct (advance c p) as [c' [j'|e]] eqn:Hadv; [|by do 2 eexists].
      apply (progress_step c j phases) in Hadv as [Hpr' Hi]; [|done..]. apply IH; [done|lia].
Qed.
End Run.

(** C37. Moving a partition always comes back within its seven steps.  When it reports
    success it has gone through every phase once, no job is left behind, the group votes
    with exactly the new replicas under the next epoch and the directory names them, no
    store other than the destinations' has changed, and every destination reads each row
    that the first online old replica read when the move began. *)
Theorem rebalance_moves c id p new a g :
  Directory.get (directory c) p = Some a -> raft c !! p = Some g ->
  exists c' r, rebalance_partition save disk open_peer jobs_save directory_save c id p new = Some (c', r)
    /\ forall rep, r = Ok rep ->
      let epoch := Directory.dir_epoch (directory c) + 1 in
      phases_completed rep = all_phases
      /\ rebalance_jobs c' = rebalance_jobs c
      /\ config <$> raft c' !! p = Some (new, epoch, false)
      /\ placed_at <$> Directory.get (directory c') p = Some (new, epoch)
      /\ (forall n, n ∉ new \/ n ∈ Directory.replicas a -> nodes c' !! n = nodes c !! n)
      /\ exists src s, List.find (is_online c) (Directory.replicas a) = Some src
         /\ nodes c !! src = Some s
         /\ forall d, d ∈ new -> d ∉ Directory.replicas a ->
            exists s', nodes c' !! d = Some s'
              /\ forall k b, (k, b) ∈ partition_rows c p s -> store_get s' k = Ok (Some b).
Proof.
  intros Ha Hg. unfold rebalance_partition, begin_rebalance.
  case_bool_decide as Hn; [by do 2 eexists|]. destruct (List.find _ new); [by do 2 eexists|].
  case_bool_decide as Hj; [by do 2 eexists|]. apply eq_None_not_Some in Hj. rewrite Ha.
  destruct (persist_rebalance_jobs _ _); [|by do 2 eexists].
  match goal with |- context [run_rebalance _ _ _ _ _ _ ?C p ?J ?PH] =>
    destruct (run_ends c id p new a Hn PHASE_STEPS C J PH) as (c' & r & Hrun & Hend) end;
    [|unfold PHASE_STEPS; cbn; lia|].
  { split; try done; cbn; lia. }
  exists c', r. split; [done|]. intros rep Hrep. apply Hend in Hrep as [Hpr Hph].
  destruct Hpr as [Hphases _ Hjobs _ _ Ho Hc Hsw]. rewrite Hph in *. cbn in Hphases, Hsw, Hc.
  destruct (Hsw ltac:(lia)) as [Hcfg Hdir]. split_and!; try done.
  - rewrite Hjobs. unfold recorded. rewrite Hph, bool_decide_eq_true_2, <- Hj by done.
    apply partial_alter_self.
  - intros n Hnd. apply Ho. rewrite destinations_spec. naive_solver.
  - destruct (Hc ltac:(lia)) as (src & s & Hf & Hs & Hd). exists src, s. split_and!; [done..|].
    intros d H1 H2. destruct (Hd d) as (s' & Hs' & Hrows); [by rewrite destinations_spec|]. eauto.
Qed.
End Move.

(** ** Concrete moves *)

#[local] Existing Instance plain_hash.

(** Six nodes, of which the first three carry the partition. *)
Definition six_nodes (rows : Shelf) : Cluster Shelf :=
  three_nodes PartitionLinearizable
    {[0 := rows; 1 := rows; 2 := rows; 3 := (∅ : Shelf); 4 := (∅ : Shelf); 5 := (∅ : Shelf)]}.
Definition no_disk (_ : NodeId) : option (result StoreError Shelf) := None.
Definition always {A} (_ : A) : bool := true.
Definition always2 {A B} (_ : A) (_ : B) : bool := true.

Definition begin_move (c : Cluster Shelf) : Cluster Shelf :=
  fst (begin_rebalance no_disk always c (lit "job") 0 [3; 4; 5]).
Definition one_step (c : Cluster Shelf) : Cluster Shelf :=
  fst (advance_rebalance saves_all no_disk always2 always always c 0).
Definition whole_move (c : Cluster Shelf) :=
  rebalance_partition saves_all no_disk always2 always always c (lit "job") 0 [3; 4; 5].
Definition after_move (c : Cluster Shelf) : Cluster Shelf :=
  match whole_move c with Some (c', _) => c' | None => c end.
Definition read_k (c : Cluster Shelf) : option (option (list byte) * bool) :=
  match snd (get saves_all c (lit "k") Linearizable) with
  | Ok r => Some (value r, absence_proven r)
  | Err _ => None
  end.
Definition put_k (c : Cluster Shelf) := put saves_all c (lit "k") (lit "v") Durable.

Lemma six_settled : settled ∅ (six_nodes ∅).
Proof.
  split; [intros p j Hj; discriminate|]. split; [by intros p ?%elem_of_empty|]. intros p vs e jt rs e' Hv Hr.
  destruct (decide (p = 0)) as [->|Hp].
  - injection Hv as <- <- <-. injection Hr as <- <-. by split.
  - change (config <$> ({[0 := raft_new 0 [0; 1; 2] 1]} : gmap Z PartitionRaft) !! p = Some (vs, e, jt)) in Hv.
    by rewrite lookup_singleton_ne in Hv.
Qed.

(** The invariant of [rebalance_placement] starts from a fresh cluster; here an
    activation that cannot save the directory, and a second one that can. *)
Definition advance_saving (saves : bool) (w : Cluster Shelf * gset Z) : Cluster Shelf * gset Z :=
  let c' := fst (advance_rebalance saves_all no_disk always2 always (fun _ => saves) (fst w) 0) in
  (c', unsaved_after (fun _ => saves) 0 (fst w) c' (snd w)).
Definition joint_world : Cluster Shelf * gset Z :=
  Nat.iter 4 (advance_saving true) (begin_move (six_nodes ∅), ∅).
Definition unsaved_world : Cluster Shelf * gset Z := advance_saving false joint_world.
Definition saved_world : Cluster Shelf * gset Z := advance_saving true unsaved_world.

Lemma advance_saving_step saves w : cluster_step w (advance_saving saves w).
Proof. destruct w as [c u]. eapply s_advance, surjective_pairing. Qed.
Lemma advance_saving_iter n w : rtc cluster_step w (Nat.iter n (advance_saving true) w).
Proof.
  induction n as [|n IH]; [apply rtc_refl|]. eapply rtc_r; [exact IH|]. apply advance_saving_step.
Qed.
Lemma unsaved_reached : rtc cluster_step (six_nodes ∅, ∅) unsaved_world.
Proof.
  eapply rtc_l; [apply (s_begin no_disk always (lit "job") 0 [3; 4; 5])|].
  eapply rtc_r; [apply (advance_saving_iter 4)|]. apply advance_saving_step.
Qed.

Lemma rebalance_placement_witness :
  elements (snd unsaved_world) = [0] /\ settled (snd unsaved_world) (fst unsaved_world)
  /\ elements (snd saved_world) = [].
Proof.
  split; [vm_compute; reflexivity|]. split; [|vm_compute; reflexivity].
  apply (rebalance_placement (six_nodes ∅)); [apply six_settled|].
  rewrite <- surjective_pairing. apply unsaved_reached.
Defined.

(** A store of one row moves to the three other nodes. *)
Definition one_row : Shelf := {[lit "k" := lit "v"]}.
Lemma rebalance_moves_witness :
  read_k (after_move (six_nodes one_row)) = Some (Some (lit "v"), true)
  /\ rebalance_jobs (after_move (six_nodes one_row)) = ∅.
Proof.
  split; [vm_compute; reflexivity|].
  destruct (rebalance_moves saves_all no_disk always2 always always (six_nodes one_row) (lit "job") 0
              [3; 4; 5] {| Directory.partition := 0; Directory.replicas := [0; 1; 2];
                           Directory.leader := 0; Directory.term := 1;
                           Directory.placement_epoch := 1 |} (raft_new 0 [0; 1; 2] 1))
    as (c' & r & Hrun & Hok); [reflexivity|reflexivity|].
  unfold after_move, whole_move. rewrite Hrun. destruct r as [rep|e].
  - destruct (Hok rep eq_refl) as (_ & Hjobs & _). exact Hjobs.
  - exfalso. assert (Hres : match whole_move (six_nodes one_row) with
                            | Some (_, Err _) => true | _ => false end = false)
      by (vm_compute; reflexivity).
    unfold whole_move in Hres. rewrite Hrun in Hres. discriminate.
Defined.

(** ** What the steps do not protect *)

(** A write acknowledged by the whole old group after the logs were copied is not
    copied again: once the new replicas take over, a linearizable read proves the
    value absent.  No node fails in this run. *)
Definition mid_move : Cluster Shelf := one_step (one_step (one_step (begin_move (six_nodes ∅)))).
Example write_between_phases_is_lost :
  match snd (put_k mid_move) with
  | Ok ack => ack_committed ack = true /\ ack_replica_acks ack = 3
  | Err _ => False
  end
  /\ read_k (fst (put_k mid_move)) = Some (Some (lit "v"), true)
  /\ read_k (one_step (one_step (fst (put_k mid_move)))) = Some (None, true).
Proof. vm_compute. by split_and!. Qed.

(** The rows are copied from the first online replica and not from the leader.  Node 0
    misses a committed write while it is away; after its return the move copies its
    rows, and the new leader proves the value absent, although its log has the entry. *)
Definition node_back (c : Cluster Shelf) : Cluster Shelf := fst (mark_online c 0 (Ok ∅)).
Definition stale_source : Cluster Shelf := node_back (fst (put_k (mark_offline (six_nodes ∅) 0))).
Example stale_source_is_copied :
  read_k stale_source = Some (Some (lit "v"), true)
  /\ read_k (after_move stale_source) = Some (None, true)
  /\ match raft (after_move stale_source) !! 0 ≫= fun g => peers g !! 3 with
     | Some q => commit_index q = 1 /\ last_applied q = 0
     | None => False
     end.
Proof. vm_compute. by split_and!. Qed.

(** An epoch is the plan's plus one, whatever was activated in between: of two jobs
    planned together the second activation reuses the epoch of the first. *)
Definition two_groups : Cluster Shelf := {|
  cluster_id := sample_cid; profile := DependableLocal; consistency_mode := PartitionLinearizable;
  partition_map := two_partitions;
  directory := {| Directory.map := two_partitions; Directory.dir_epoch := 1;
                  Directory.assignments :=
                    (fun p => {| Directory.partition := p; Directory.replicas := [0];
                                 Directory.leader := 0; Directory.term := 1;
                                 Directory.placement_epoch := 1 |}) <$> [0; 1] |};
  expected_node_count := 2; nodes := {[0 := (∅ : Shelf); 1 := (∅ : Shelf)]}; offline := [];
  missing_nodes := []; raft := {[0 := raft_new 0 [0] 1; 1 := raft_new 1 [0] 1]};
  convergent_pos := ∅; rebalance_jobs := ∅; token_keyring := sample_ring |}.
Definition move_to (p : PartitionId) (n : NodeId) (c : Cluster Shelf) : Cluster Shelf :=
  match rebalance_partition saves_all no_disk always2 always always c (lit "b") p [n] with
  | Some (c', _) => c'
  | None => c
  end.
Definition late_finish : Cluster Shelf :=
  let c := fst (begin_rebalance no_disk always two_groups (lit "a") 0 [1]) in
  Nat.iter 7 one_step (move_to 1 0 (move_to 1 1 c)).
Example placement_epoch_goes_back :
  Directory.dir_epoch (directory (move_to 1 0 (move_to 1 1 two_groups))) = 3
  /\ Directory.dir_epoch (directory late_finish) = 2
  /\ Directory.replicas <$> Directory.get (directory late_finish) 0 = Some [1].
Proof. vm_compute. by split_and!. Qed.
