(* ===== verification/RaftStore.v ===== *)
(** * The durable store of a consensus peer

    Model of [crates/residiuum-cluster/src/raft_persist.rs]: the hard state, the
    membership, the log and the snapshot of one peer, as files of its directory on
    the file system of [AtomicFile].  A write is a sequence of system calls that may
    fail; a load reads a file system without faults and may cut a torn log.  The
    texts of [serde_json] are the class [ControlJson]. *)
From S2P Require Import Prelude Cbor AtomicFile AtomicPlan SegmentIds Raft.

Module PeerStore.

(** ** Documents *)

Record HardState := {
  hs_current_term : Z; hs_voted_for : option Z; hs_commit_index : Z; hs_last_applied : Z }.
Definition hard_default : HardState :=
  {| hs_current_term := 0; hs_voted_for := None; hs_commit_index := 0; hs_last_applied := 0 |}.

Record MembershipState := {
  ms_voters : list Z; ms_placement_epoch : Z; ms_joint : bool; ms_outgoing : list Z;
  ms_incoming : list Z }.

Record SnapshotMeta := {
  last_included_index : Z; last_included_term : Z; blob_checksum : list byte; blob_len : Z;
  note : list byte }.
Record Snapshot := { meta : SnapshotMeta; blob : list byte }.

Inductive ConsensusEvidenceClass : Type := Committed | Prepared | Conflicting | UnknownCommit.

(** [serde_json]: values with their canonical text, the conversions of a document
    type, the envelope ([json!] with its three fields, and the parts that a reader
    takes from a text), and the text of a log entry. *)
Class ControlJson : Type := {
  jvalue : Type;
  value_to_vec : jvalue -> list byte;
  envelope_to_vec : list byte -> list byte -> jvalue -> list byte;
  envelope_from_slice : list byte -> option (list byte * list byte * option jvalue);
  entry_to_vec : LogEntry -> list byte;
  entry_from_slice : list byte -> option LogEntry }.
Class Document (T : Type) `{J : ControlJson} : Type := {
  to_value : T -> jvalue;
  from_value : jvalue -> option T }.

(** What is written is read back. *)
Class ControlJsonLaws (J : ControlJson) : Prop := {
  envelope_round f s v : envelope_from_slice (envelope_to_vec f s v) = Some (f, s, Some v);
  entry_round e : entry_from_slice (entry_to_vec e) = Some e }.
Class DocumentLaws (T : Type) `{D : Document T} : Prop :=
  value_round (t : T) : from_value (to_value t) = Some t.

Definition RAFT_PERSIST_PROFILE : list byte := lit "residiuum-raft-persist-v1".
Definition HARD_STATE_FILE : Name := lit "hard_state.json".
Definition MEMBERSHIP_FILE : Name := lit "membership.json".
Definition LOG_FILE : Name := lit "log.ndjson".
Definition SNAPSHOT_META_FILE : Name := lit "snapshot.meta.json".
Definition SNAPSHOT_BLOB_FILE : Name := lit "snapshot.blob".

Definition hex32 (bs : list byte) : list byte := SegmentIds.hex16 bs.

Section Store.
Context {J : ControlJson} {H : Blake3}.
(** The process id; each atomic write has its own clock reading. *)
Context (pid : Z).

(** ** Checksummed documents *)

Section Docs.
Context {T : Type} {D : Document T}.

Definition doc_bytes (t : T) : list byte :=
  let v := to_value t in
  envelope_to_vec RAFT_PERSIST_PROFILE (hex32 (blake3 (value_to_vec v))) v.

Definition write_checksum_doc (nanos : Z) (path : Name) (t : T) : Io unit :=
  write_atomic_keep_previous pid nanos path (doc_bytes t).

Definition parse_checksum_doc (bytes : list byte) : option T :=
  match envelope_from_slice bytes with
  | None => None
  | Some (format, checksum, body) =>
      if negb (bytes_eqb format RAFT_PERSIST_PROFILE) then None
      else match body with
           | None => None
           | Some v =>
               if negb (bytes_eqb (hex32 (blake3 (value_to_vec v))) checksum) then None
               else from_value v
           end
  end.

(** The primary if it parses, else the previous generation. *)
Definition read_checksum_doc (f : Fs) (path : Name) : option T :=
  match read_file f path ≫= parse_checksum_doc with
  | Some t => Some t
  | None => read_file f (previous_path path) ≫= parse_checksum_doc
  end.
End Docs.

(** ** Log records *)

(** [len as u32] wraps. *)
Definition encode_log_record (e : LogEntry) : list byte :=
  let payload := entry_to_vec e in
  le_bytes 4 (as_u32 (32 + Z.of_nat (length payload))) ++ blake3 payload ++ payload.

(** The record at the front: its entry and the bytes behind it. *)
Definition read_record (bytes : list byte) : option (LogEntry * list byte) :=
  if Z.of_nat (length bytes) <? 4 then None
  else
    let len := le_val (take 4 bytes) in
    let rest := drop 4 bytes in
    if (len <? 32) || (Z.of_nat (length rest) <? len) then None
    else
      let record := take (Z.to_nat len) rest in
      let payload := drop 32 record in
      if negb (bytes_eqb (blake3 payload) (take 32 record)) then None
      else match entry_from_slice payload with
           | Some e => Some (e, drop (Z.to_nat len) rest)
           | None => None
           end.

(** [last] is the index of the last entry read; the loop advances by a record, which
    has at least 36 bytes. *)
Fixpoint decode_loop (fuel : nat) (last : option Z) (bytes : list byte) : list LogEntry * nat :=
  match fuel with
  | O => ([], 0%nat)
  | S fuel' =>
      match read_record bytes with
      | None => ([], 0%nat)
      | Some (e, rest) =>
          if match last with Some i => negb (e_index e =? i + 1) | None => false end
          then ([], 0%nat)
          else
            let '(es, n) := decode_loop fuel' (Some (e_index e)) rest in
            (e :: es, (length bytes - length rest + n)%nat)
      end
  end.
(** The entries and the bytes they take. *)
Definition decode_log_records (bytes : list byte) : list LogEntry * nat :=
  decode_loop (S (length bytes)) None bytes.

Definition log_bytes (es : list LogEntry) : list byte := concat (map encode_log_record es).

(** ** The store *)

Context {DH : Document HardState} {DM : Document MembershipState} {DS : Document SnapshotMeta}.

Definition load_hard_state (f : Fs) : HardState :=
  default hard_default (read_checksum_doc f HARD_STATE_FILE).
Definition persist_hard_state (nanos : Z) (hs : HardState) : Io unit :=
  write_checksum_doc nanos HARD_STATE_FILE hs.
Definition load_membership (f : Fs) : option MembershipState := read_checksum_doc f MEMBERSHIP_FILE.
Definition persist_membership (nanos : Z) (m : MembershipState) : Io unit :=
  write_checksum_doc nanos MEMBERSHIP_FILE m.

(** [set_len], [sync_all] and the sync of the directory. *)
Definition truncate_file (path : Name) (n : nat) (f : Fs) : Fs :=
  match current f !! path with
  | Some i =>
      match inodes f !! i with
      | Some x =>
          let f' := set_inode f i {| data := take n (data x); synced := true |} in
          {| inodes := inodes f'; durable := current f'; pending := [] |}
      | None => f
      end
  | None => f
  end.
Definition load_log (f : Fs) : list LogEntry * Fs :=
  match read_file f LOG_FILE with
  | None => ([], f)
  | Some bytes =>
      let '(es, consumed) := decode_log_records bytes in
      (es, if (consumed <? length bytes)%nat then truncate_file LOG_FILE consumed f else f)
  end.
Definition rewrite_log (nanos : Z) (es : list LogEntry) : Io unit :=
  write_atomic pid nanos LOG_FILE (log_bytes es).

(** [OpenOptions::new().create(true).append(true)] *)
Definition open_append (path : Name) : Io nat := fun m =>
  match current (fs m) !! path with
  | Some i => simple_call (fun f => Some (i, f)) m
  | None => create_new path m
  end.
Fixpoint write_records (i : nat) (es : list LogEntry) : Io unit :=
  match es with
  | [] => mret tt
  | e :: rest => write_all i (encode_log_record e) ≫= fun _ => write_records i rest
  end.
Definition append_log (es : list LogEntry) : Io unit :=
  match es with
  | [] => mret tt
  | _ =>
      open_append LOG_FILE ≫= fun i =>
      write_records i es ≫= fun _ =>
      sync_all i ≫= fun _ => sync_dir
  end.

Definition load_snapshot (f : Fs) : option Snapshot :=
  match read_checksum_doc f SNAPSHOT_META_FILE with
  | None => None
  | Some m =>
      if blob_len m =? 0 then Some {| meta := m; blob := [] |}
      else match read_file f SNAPSHOT_BLOB_FILE with
           | None => None
           | Some b =>
               if negb (Z.of_nat (length b) =? blob_len m) then None
               else if negb (bytes_eqb (hex32 (blake3 b)) (blob_checksum m)) then None
               else Some {| meta := m; blob := b |}
           end
  end.

Definition snapshot_meta_for (index : Z) (t : Term) (b : list byte) (text : list byte) : SnapshotMeta :=
  {| last_included_index := index; last_included_term := t; blob_checksum := hex32 (blake3 b);
     blob_len := Z.of_nat (length b); note := text |}.

(** [None] inside the outcome is a refused argument, before anything is written. *)
Definition install_snapshot (n1 n2 n3 : Z) (m : SnapshotMeta) (b : list byte)
    (remaining : list LogEntry) : Io (result RaftMetaError unit) :=
  if negb (Z.of_nat (length b) =? blob_len m) then
    mret (Err (CorruptMeta "snapshot blob_len mismatch"))
  else if negb (bytes_eqb (hex32 (blake3 b)) (blob_checksum m)) then
    mret (Err (CorruptMeta "snapshot blob checksum mismatch"))
  else
    write_atomic pid n1 SNAPSHOT_BLOB_FILE b ≫= fun _ =>
    write_checksum_doc n2 SNAPSHOT_META_FILE m ≫= fun _ =>
    rewrite_log n3 remaining ≫= fun _ => mret (Ok tt).

(** ** Peers *)

(** [while !log.is_empty()]: entries below the base are dropped one by one. *)
Fixpoint drop_to_base (base : Z) (es : list LogEntry) : list LogEntry :=
  match es with
  | [] => []
  | e :: rest =>
      if e_index e =? base + 1 then es
      else if base + 1 <? e_index e then []
      else drop_to_base base rest
  end.

(** The log above the snapshot, with the placeholder when nothing is above it. *)
Definition above_snapshot (snap : option Snapshot) (es : list LogEntry) : list LogEntry :=
  match snap with
  | None => es
  | Some s =>
      let base := last_included_index (meta s) in
      let es := drop_to_base base (List.filter (fun e => base <? e_index e) es) in
      match es with
      | [] => if 0 <? base then [snapshot_base (last_included_term (meta s)) base] else []
      | _ => es
      end
  end.
Definition max_index (snap : option Snapshot) (es : list LogEntry) : Z :=
  match last es with
  | Some e => e_index e
  | None => match snap with Some s => last_included_index (meta s) | None => 0 end
  end.

(** The peer that the documents describe, always a follower. *)
Definition assemble_peer (n : NodeId) (hs : HardState) (es : list LogEntry) (snap : option Snapshot)
    : RaftPeer :=
  let es := above_snapshot snap es in
  let commit := Z.min (hs_commit_index hs) (max_index snap es) in
  {| node_id := n; current_term := hs_current_term hs; voted_for := hs_voted_for hs;
     role := Follower; log := es; commit_index := commit;
     last_applied := Z.min (hs_last_applied hs) commit; next_index := ∅; match_index := ∅ |}.

Definition load_peer (n : NodeId) (f : Fs) : RaftPeer * Fs :=
  let hs := load_hard_state f in
  let '(es, f') := load_log f in
  (assemble_peer n hs es (load_snapshot f'), f').

Definition hard_of (p : RaftPeer) : HardState := {|
  hs_current_term := current_term p; hs_voted_for := voted_for p;
  hs_commit_index := commit_index p; hs_last_applied := last_applied p |}.
(** The entries of a peer that go to disk. *)
Definition disk_entries (snap : option Snapshot) (p : RaftPeer) : list LogEntry :=
  List.filter (fun e =>
    match snap with
    | Some s => last_included_index (meta s) <? e_index e
    | None => negb (bool_decide (subject_of (e_command e) = SNAPSHOT_BASE))
    end) (log p).

(** The log is written before the hard state. *)
Definition save_peer (n1 n2 : Z) (p : RaftPeer) : Io unit := fun m =>
  (rewrite_log n1 (disk_entries (load_snapshot (fs m)) p) ≫= fun _ =>
   persist_hard_state n2 (hard_of p)) m.

Definition evidence_class (f : Fs) (index : Z) : ConsensusEvidenceClass :=
  let hs := load_hard_state f in
  let '(es, f') := load_log f in
  let snap := load_snapshot f' in
  let max_idx := max_index snap es in
  if index =? 0 then Committed
  else if max_idx <? index then UnknownCommit
  else if index <=? Z.min (hs_commit_index hs) max_idx then Committed
  else if existsb (fun e => e_index e =? index) es
          || match snap with Some s => index <=? last_included_index (meta s) | None => false end
  then Prepared
  else UnknownCommit.

(** ** Groups *)

Definition membership_of (g : PartitionRaft) : MembershipState := {|
  ms_voters := voters g; ms_placement_epoch := placement_epoch g; ms_joint := joint g;
  ms_outgoing := outgoing g; ms_incoming := incoming g |}.

(** [f] is the directory of the node's store. *)
Definition restore_peer_from_store (g : PartitionRaft) (n : NodeId) (f : Fs) : PartitionRaft * Fs :=
  if bool_decide (n ∈ stores g) then
    let '(p, f') := load_peer n f in
    let g := with_peers g (<[n := p]> (peers g)) in
    (match load_membership f' with
     | Some m => with_membership g (ms_voters m) (ms_placement_epoch m) (ms_joint m)
                   (ms_outgoing m) (ms_incoming m)
     | None => g
     end, f')
  else (g, f).
End Store.
End PeerStore.
