(* ===== verification/RaftRecovery.v ===== *)
(** * What a consensus peer finds after a crash

    The records of the log, the files of a peer as registers beside each other, and
    the peer that a restart loads after any sequence of saves, failed saves and
    crashes. *)
From S2P Require Import Prelude Cbor AtomicFile AtomicFileFacts AtomicPlan SegmentIds Raft RaftStore.
Import PeerStore.

(** ** Log records *)

Section Records.
Context {J : ControlJson} {H : Blake3} {JL : ControlJsonLaws J} {HL : Blake3Laws H}.

Definition record_fits (e : LogEntry) : Prop := 32 + Z.of_nat (length (entry_to_vec e)) < 2 ^ 32.

Lemma length_record e : length (encode_log_record e) = (36 + length (entry_to_vec e))%nat.
Proof. unfold encode_log_record. rewrite !length_app, length_le_bytes, blake3_length. lia. Qed.

Lemma record_len e rest :
  record_fits e -> le_val (take 4 (encode_log_record e ++ rest)) = 32 + Z.of_nat (length (entry_to_vec e)).
Proof.
  intros Hf. unfold encode_log_record, record_fits in *. rewrite <- app_assoc.
  rewrite take_app_length' by (by rewrite length_le_bytes).
  unfold as_u32. rewrite Z.mod_small by lia. apply le_val_bytes_small. cbn. lia.
Qed.
Lemma record_body e rest :
  drop 4 (encode_log_record e ++ rest) = (blake3 (entry_to_vec e) ++ entry_to_vec e) ++ rest.
Proof.
  unfold encode_log_record. rewrite <- !app_assoc. by rewrite drop_app_length' by (by rewrite length_le_bytes).
Qed.

Lemma read_record_encode e rest :
  record_fits e -> read_record (encode_log_record e ++ rest) = Some (e, rest).
Proof.
  intros Hf. unfold read_record. rewrite record_len, record_body, !length_app, length_record by done.
  pose proof (blake3_length (entry_to_vec e)) as Hb. set (n := length (entry_to_vec e)) in *.
  rewrite (proj2 (Z.ltb_ge _ _)) by lia. rewrite (proj2 (Z.ltb_ge (32 + Z.of_nat n) 32)) by lia.
  rewrite Hb, (proj2 (Z.ltb_ge _ (32 + Z.of_nat n))) by lia. cbn [orb].
  replace (Z.to_nat (32 + Z.of_nat n)) with (length (blake3 (entry_to_vec e) ++ entry_to_vec e))
    by (rewrite length_app; lia).
  rewrite take_app_length, drop_app_length, take_app_length', drop_app_length' by done.
  unfold bytes_eqb. rewrite bool_decide_eq_true_2 by done. cbn [negb]. by rewrite entry_round.
Qed.

(** A record that is cut short is not read. *)
Lemma read_record_torn e rest k :
  record_fits e -> (k < length (encode_log_record e))%nat ->
  read_record (take k (encode_log_record e ++ rest)) = None.
Proof.
  intros Hf Hk. pose proof (length_record e) as Hl. unfold read_record.
  rewrite length_take, length_app.
  destruct (Z.ltb_spec (Z.of_nat (k `min` (length (encode_log_record e) + length rest))) 4); [done|].
  rewrite take_take, Nat.min_l, record_len by (done || lia).
  rewrite (proj2 (Z.ltb_ge (32 + _) 32)) by lia. cbn [orb].
  by rewrite length_drop, length_take, length_app, (proj2 (Z.ltb_lt _ _)) by lia.
Qed.

Fixpoint contiguous (last : option Z) (es : list LogEntry) : Prop :=
  match es with
  | [] => True
  | e :: rest =>
      match last with Some i => e_index e = i + 1 | None => True end
      /\ contiguous (Some (e_index e)) rest
  end.

Lemma log_bytes_cons e es : log_bytes (e :: es) = encode_log_record e ++ log_bytes es.
Proof. done. Qed.

(** However a log file is cut, the whole records in front of the cut are read. *)
Lemma decode_prefix es : forall fuel lst k,
  contiguous lst es -> Forall record_fits es -> (length (take k (log_bytes es)) < fuel)%nat ->
  exists n, decode_loop fuel lst (take k (log_bytes es)) = (take n es, length (log_bytes (take n es)))
    /\ (length (log_bytes es) <= k -> n = length es)%nat
    /\ (length (log_bytes (take n es)) <= k)%nat
    /\ (n < length es -> k < length (log_bytes (take (S n) es)))%nat.
Proof.
  induction es as [|e es IH]; intros fuel lst k Hc Hf Hfuel.
  - exists 0%nat. cbn. rewrite take_nil. destruct fuel; cbn in *; [lia|]. split_and!; try done; lia.
  - destruct fuel as [|fuel]; [lia|]. cbn [decode_loop] in *. rewrite log_bytes_cons in *.
    apply Forall_cons in Hf as [He Hf]. destruct Hc as [Hi Hc].
    pose proof (length_record e) as Hle.
    destruct (decide (k < length (encode_log_record e))%nat) as [Hk|Hk].
    + exists 0%nat. rewrite read_record_torn by done. cbn. rewrite length_app in *.
      split_and!; [done|lia|lia|]. intros _. rewrite take_0. cbn. rewrite app_nil_r. done.
    + rewrite take_app_ge, read_record_encode by (done || lia).
      rewrite (take_app_ge _ _ k) in Hfuel by lia. rewrite length_app in Hfuel.
      set (k' := (k - length (encode_log_record e))%nat) in *.
      destruct (IH fuel (Some (e_index e)) k' Hc Hf ltac:(lia)) as (n & Hd & H1 & H2 & H3).
      exists (S n). rewrite Hd.
      replace (match lst with Some i => negb (e_index e =? i + 1) | None => false end) with false
        by (destruct lst; [rewrite Hi, Z.eqb_refl|]; done).
      cbn [take length]. rewrite !log_bytes_cons, !length_app.
      split_and!; [f_equal; lia|lia|lia|]. intros Hn. specialize (H3 ltac:(lia)). lia.
Qed.

Lemma decode_log es :
  contiguous None es -> Forall record_fits es ->
  decode_log_records (log_bytes es) = (es, length (log_bytes es)).
Proof.
  intros Hc Hf.
  destruct (decode_prefix es (S (length (log_bytes es))) None (length (log_bytes es)) Hc Hf)
    as (n & Hd & Hn & _); rewrite ?firstn_all in *; [lia|].
  unfold decode_log_records. rewrite Hd, Hn by lia. by rewrite firstn_all.
Qed.
End Records.

(** ** Registers beside each other *)

Lemma triple_conj {A} P1 P2 (c : Io A) (Q1 Q2 : A -> Fs -> Prop) E1 E2 :
  triple P1 c Q1 E1 -> triple P2 c Q2 E2 ->
  triple (fun f => P1 f /\ P2 f) c (fun a f => Q1 a f /\ Q2 a f) (fun f => E1 f /\ E2 f).
Proof.
  intros H1 H2 m [HP1 HP2]. specialize (H1 m HP1). specialize (H2 m HP2).
  by destruct (c m) as [[a|] m'].
Qed.
Lemma triple_weaken {A} P (c : Io A) (Q : A -> Fs -> Prop) (E E' : Fs -> Prop) :
  (forall f, E f -> E' f) -> triple P c Q E -> triple P c Q E'.
Proof. intros HE H m HP. specialize (H m HP). destruct (c m) as [[a|] m']; auto. Qed.

Section Frame.
Variables (path : Name) (fallback : bool) (allowed : list (option (list byte))).
Variables (other : Name) (pid nanos : Z) (bytes : list byte).
Abbreviation tmp := (temp_path_for pid nanos other).
Abbreviation inv := (reg_inv path fallback allowed).

Definition apart (n : Name) : Prop := n <> path /\ n <> previous_path path.
Hypotheses (Ho : apart other) (Hop : apart (previous_path other)) (Ht : apart tmp).

(** The file with inode [i] is not one that the register relies on. *)
Definition beside (i : nat) (f : Fs) : Prop :=
  inv f /\ exists x, inodes f !! i = Some x /\ synced x = false.

Lemma inv_push f op n : apart n -> inv f ->
  (forall q, q <> n -> apply_op (current f) op !! q = current f !! q) -> inv (push_op f op).
Proof.
  intros [H1 H2] Hi Hq. apply reg_inv_push; [done|].
  apply (good_same _ _ _ _ (current f)); [by apply Hq, not_eq_sym..|by apply reg_inv_current].
Qed.
Lemma inv_rename f a b : apart a -> apart b -> inv f -> inv (push_op f (DRename a b)).
Proof.
  intros [A1 A2] [B1 B2] Hi. apply reg_inv_push; [done|]. cbn.
  destruct (current f !! a) as [i|]; [|by apply reg_inv_current].
  apply (good_same _ _ _ _ (current f)); [| |by apply reg_inv_current];
    by rewrite lookup_insert_ne, lookup_delete_ne.
Qed.

Lemma unlink_frame n : apart n -> triple inv (remove_file n) (fun _ => inv) inv.
Proof.
  intros Hn. apply triple_simple; [done|]. intros f Hi. destruct (current f !! n); [|done].
  apply (inv_push f _ n Hn Hi). intros q Hq. by apply lookup_delete_ne, not_eq_sym.
Qed.
Lemma rename_frame a b : apart a -> apart b -> triple inv (rename a b) (fun _ => inv) inv.
Proof.
  intros Ha Hb. apply triple_simple; [done|]. intros f Hi. destruct (current f !! a); [|done].
  by apply inv_rename.
Qed.
Lemma create_frame n : apart n -> triple inv (create_new n) beside inv.
Proof.
  intros Hn. apply triple_simple; [done|]. intros f Hi. destruct (current f !! n); [done|].
  set (ins := inodes f ++ _).
  assert (Hf : frozen (inodes f) ins) by (intros i x Hx _; unfold ins; by apply lookup_app_l_Some).
  pose proof (reg_inv_frozen _ _ _ _ _ Hf Hi) as Hi'. split.
  - apply (inv_push _ _ n Hn Hi'). intros q Hq. by apply lookup_insert_ne, not_eq_sym.
  - eexists. cbn. unfold ins. split; [by rewrite lookup_app_r, Nat.sub_diag by lia|done].
Qed.
Lemma set_beside i y f : beside i f -> inv (set_inode f i y).
Proof.
  intros (Hi & x & Hx & Hsy). apply reg_inv_frozen; [|done]. intros j z Hz Hsz.
  rewrite list_lookup_insert_ne; [done|]. intros ->. congruence.
Qed.
Lemma append_beside i bs f : beside i f -> beside i (append_data i bs f).
Proof.
  intros Hb. pose proof Hb as (_ & x & Hx & _). unfold append_data. rewrite Hx. split.
  - by apply set_beside.
  - eexists. cbn. rewrite list_lookup_insert_eq by (by eapply lookup_lt_Some). done.
Qed.
Lemma write_frame i bs : triple (beside i) (write_all i bs) (fun _ => beside i) inv.
Proof. apply triple_call; intros f; [|intros n]; intros Hb; [|apply append_beside with (bs := take n bs) in Hb; apply Hb]. by apply append_beside. Qed.
Lemma sync_frame i : triple (beside i) (sync_all i) (fun _ => inv) inv.
Proof.
  apply triple_simple; [by intros f []|]. intros f Hb. pose proof Hb as (_ & x & Hx & _). rewrite Hx.
  by apply set_beside.
Qed.
Lemma sync_dir_frame : triple inv sync_dir (fun _ => inv) inv.
Proof.
  apply triple_simple; [done|]. intros f Hi. unfold reg_inv. cbn. apply Forall_singleton.
  by apply reg_inv_current.
Qed.
Lemma promote_frame : triple inv (promote_previous other) (fun _ => inv) inv.
Proof.
  unfold promote_previous. eapply (triple_bind _ _ _ (fun _ => inv)).
  { intros m Hm. exact Hm. }
  intros [|]; [|by intros m]. eapply (triple_bind _ _ _ (fun _ => inv)).
  - apply triple_attempt. by apply unlink_frame.
  - intros _. by apply rename_frame.
Qed.

(** Replacing one document leaves another as it is, at every failure and every crash. *)
Lemma write_atomic_frame keep :
  triple inv (write_atomic_with pid nanos other bytes keep) (fun _ => inv) inv.
Proof.
  unfold write_atomic_with.
  eapply (triple_bind _ _ _ (fun _ => inv)); [by apply triple_attempt, unlink_frame|intros ?].
  eapply triple_bind; [by apply triple_hit|intros ?].
  eapply triple_bind; [by apply create_frame|intros i].
  eapply triple_bind; [apply write_frame|intros ?].
  eapply triple_bind; [apply triple_hit; by intros f []|intros ?].
  eapply triple_bind; [apply sync_frame|intros ?].
  eapply triple_bind; [by apply triple_hit|intros ?].
  eapply triple_bind; [by apply triple_hit|intros ?].
  eapply (triple_bind _ _ _ (fun _ => inv)).
  { destruct keep; [apply promote_frame|]. by intros m. }
  intros ?. eapply triple_bind; [by apply triple_hit|intros ?].
  eapply triple_bind; [by apply rename_frame|intros ?].
  eapply triple_bind; [by apply triple_hit|intros ?].
  eapply triple_bind; [by apply triple_hit|intros ?].
  eapply triple_bind; [apply sync_dir_frame|intros ?].
  eapply triple_bind; [by apply triple_hit|intros ?]. by apply triple_hit.
Qed.
End Frame.

(** The files of a peer; no name begins with the dot of a temporary file. *)
Definition store_files : list Name :=
  [HARD_STATE_FILE; MEMBERSHIP_FILE; LOG_FILE; SNAPSHOT_META_FILE; SNAPSHOT_BLOB_FILE].

Lemma store_names a b : a ∈ store_files -> b ∈ store_files -> b <> previous_path a.
Proof.
  intros Ha%list_elem_of_In Hb%list_elem_of_In Heq.
  assert (Hc : forallb (fun a => forallb (fun b => negb (bytes_eqb b (previous_path a))) store_files)
                 store_files = true) by (vm_compute; reflexivity).
  rewrite forallb_forall in Hc. specialize (Hc a Ha). rewrite forallb_forall in Hc.
  specialize (Hc b Hb). unfold bytes_eqb in Hc. by rewrite bool_decide_eq_true_2 in Hc.
Qed.
Lemma store_heads a : a ∈ store_files -> exists c rest, a = c :: rest /\ c <> z2b 46.
Proof.
  intros Ha%list_elem_of_In.
  assert (Hc : forallb (fun x => match x with [] => false | c :: _ => negb (bool_decide (c = z2b 46)) end)
                 store_files = true) by (vm_compute; reflexivity).
  rewrite forallb_forall in Hc. specialize (Hc a Ha). destruct a as [|c rest]; [done|].
  exists c, rest. split; [done|]. by apply negb_true_iff, bool_decide_eq_false in Hc.
Qed.

Lemma store_apart a b pid nanos :
  a ∈ store_files -> b ∈ store_files -> a <> b ->
  apart a b /\ apart a (previous_path b) /\ apart a (temp_path_for pid nanos b).
Proof.
  intros Ha Hb Hab. destruct (store_heads a Ha) as (c & rest & Hc & Hdot).
  assert (Ht : exists r, temp_path_for pid nanos b = z2b 46 :: r) by (by eexists).
  destruct Ht as [r Hr]. split_and!; split.
  - congruence.
  - by apply store_names.
  - apply not_eq_sym. by apply store_names.
  - unfold previous_path. intros Heq%app_inv_tail. congruence.
  - congruence.
  - rewrite Hr, Hc. unfold previous_path. cbn. congruence.
Qed.

(** * The peer that a restart loads

    A peer's files as registers, the run of saves and crashes, the round trip of a
    saved peer, and what the snapshot files and the fallback do not protect. *)
Import PeerStore.

Section Recovery.
Context {J : ControlJson} {H : Blake3} {JL : ControlJsonLaws J} {HL : Blake3Laws H}.
Context {DH : Document HardState} {DM : Document MembershipState} {DS : Document SnapshotMeta}.
Context {LH : DocumentLaws HardState} {LS : DocumentLaws SnapshotMeta}.

(** ** Reading a register *)

Lemma parse_doc {T} {D : Document T} {L : DocumentLaws T} (t : T) :
  parse_checksum_doc (doc_bytes t) = Some t.
Proof.
  unfold parse_checksum_doc, doc_bytes. rewrite envelope_round. unfold bytes_eqb.
  rewrite !bool_decide_eq_true_2 by done. cbn [negb]. apply value_round.
Qed.

(** The bytes of the values that a file may hold; [None] is an absent file. *)
Definition docs {T} {D : Document T} (ts : list (option T)) : list (option (list byte)) :=
  (fun o : option T => doc_bytes <$> o) <$> ts.
Definition logs (ls : list (option (list LogEntry))) : list (option (list byte)) :=
  (fun o : option (list LogEntry) => log_bytes <$> o) <$> ls.

(** A document that is one of those allowed is read as it was written. *)
Lemma read_doc {T} {D : Document T} {L : DocumentLaws T} path (allowed : list (option T)) f :
  reg_inv path true (docs allowed) f ->
  exists t, t ∈ allowed /\ document path true f = doc_bytes <$> t /\ read_checksum_doc f path = t.
Proof.
  intros Hi. pose proof (document_content _ _ _ _ Hi) as Hd.
  destruct (reg_inv_current _ _ _ _ Hi) as [_ Hc]. rewrite <- Hd in Hc.
  apply list_elem_of_fmap in Hc as (t & Ht & Hin). exists t. split_and!; [done..|].
  unfold document, read_with_previous in Ht. unfold read_checksum_doc.
  destruct (read_file f path) as [b|]; cbn in Ht |- *.
  - destruct t as [t|]; [|done]. injection Ht as ->. by rewrite parse_doc.
  - destruct (read_file f (previous_path path)) as [b|]; cbn in Ht |- *; destruct t as [t|]; try done.
    injection Ht as ->. apply parse_doc.
Qed.

Definition entries_ok (es : list LogEntry) : Prop := contiguous None es /\ Forall record_fits es.

Lemma read_log (allowed : list (option (list LogEntry))) f :
  reg_inv LOG_FILE false (logs allowed) f ->
  (forall es, Some es ∈ allowed -> entries_ok es) ->
  exists l, l ∈ allowed /\ document LOG_FILE false f = log_bytes <$> l
    /\ load_log f = (default [] l, f).
Proof.
  intros Hi Hok. pose proof (document_content _ _ _ _ Hi) as Hd.
  destruct (reg_inv_current _ _ _ _ Hi) as [_ Hc]. rewrite <- Hd in Hc.
  apply list_elem_of_fmap in Hc as (l & Hl & Hin). exists l. split_and!; [done..|].
  change (read_file f LOG_FILE = (log_bytes <$> l)) in Hl. unfold load_log. rewrite Hl. destruct l as [es|]; [|done].
  cbn -[decode_log_records log_bytes Nat.ltb].
  destruct (Hok es Hin). rewrite decode_log by done. by rewrite Nat.ltb_irrefl.
Qed.

(** ** The state of a store *)

Section Run.
(** The snapshot files, which saves leave alone. *)
Context (md : option SnapshotMeta) (bd : option (list byte)).
Definition snapshot_of : option Snapshot :=
  match md with
  | None => None
  | Some m =>
      if blob_len m =? 0 then Some {| meta := m; blob := [] |}
      else match bd with
           | None => None
           | Some b =>
               if negb (Z.of_nat (length b) =? blob_len m) then None
               else if negb (bytes_eqb (hex32 (blake3 b)) (blob_checksum m)) then None
               else Some {| meta := m; blob := b |}
           end
  end.
Abbreviation snap := snapshot_of.

Definition snapshot_files (f : Fs) : Prop :=
  reg_inv SNAPSHOT_META_FILE true (docs [md]) f /\ reg_inv SNAPSHOT_BLOB_FILE false [bd] f.
Definition hard_inv (hs : list (option HardState)) : Fs -> Prop :=
  reg_inv HARD_STATE_FILE true (docs hs).
Definition log_inv (ls : list (option (list LogEntry))) : Fs -> Prop :=
  reg_inv LOG_FILE false (logs ls).

Lemma load_snapshot_files f : snapshot_files f -> load_snapshot f = snap.
Proof.
  intros [Hm Hb]. unfold load_snapshot.
  destruct (read_doc SNAPSHOT_META_FILE [md] f Hm) as (t & ->%list_elem_of_singleton & _ & ->).
  assert (Hbd : read_file f SNAPSHOT_BLOB_FILE = bd).
  { change (document SNAPSHOT_BLOB_FILE false f = bd). rewrite (document_content _ _ _ _ Hb).
    by destruct (reg_inv_current _ _ _ _ Hb) as [_ ->%list_elem_of_singleton]. }
  rewrite Hbd. done.
Qed.

Lemma snapshot_frame pid nanos other bytes keep :
  other ∈ [HARD_STATE_FILE; LOG_FILE] ->
  triple snapshot_files (write_atomic_with pid nanos other bytes keep)
    (fun _ => snapshot_files) snapshot_files.
Proof.
  intros Ho.
  assert (Hin : other ∈ store_files) by (set_solver).
  assert (Hne : other <> SNAPSHOT_META_FILE /\ other <> SNAPSHOT_BLOB_FILE).
  { rewrite !list_elem_of_In in Ho. destruct Ho as [<-|[<-|[]]]; split; vm_compute; congruence. }
  destruct Hne as [H1 H2].
  destruct (store_apart SNAPSHOT_META_FILE other pid nanos) as (A1 & A2 & A3); [set_solver|done|congruence|].
  destruct (store_apart SNAPSHOT_BLOB_FILE other pid nanos) as (B1 & B2 & B3); [set_solver|done|congruence|].
  apply triple_conj; by apply write_atomic_frame.
Qed.

(** A save replaces the log, then the hard state. *)
Lemma save_peer_spec pid n1 n2 p hs ls :
  triple (fun f => hard_inv hs f /\ log_inv ls f /\ snapshot_files f) (save_peer pid n1 n2 p)
    (fun _ f => hard_inv [Some (hard_of p)] f /\ log_inv [Some (disk_entries snap p)] f /\ snapshot_files f)
    (fun f => hard_inv (Some (hard_of p) :: hs) f
              /\ log_inv (Some (disk_entries snap p) :: ls) f /\ snapshot_files f).
Proof.
  intros m (Hh & Hl & Hs). unfold save_peer. rewrite (load_snapshot_files _ Hs).
  set (es := disk_entries snap p). unfold rewrite_log, persist_hard_state, write_checksum_doc,
    write_atomic, write_atomic_keep_previous.
  assert (HL1 : LOG_FILE ∈ store_files) by set_solver.
  assert (HH1 : HARD_STATE_FILE ∈ store_files) by set_solver.
  assert (Hne : LOG_FILE <> HARD_STATE_FILE) by (vm_compute; congruence).
  destruct (store_apart HARD_STATE_FILE LOG_FILE pid n1) as (A1 & A2 & A3); [done..|congruence|].
  destruct (store_apart LOG_FILE HARD_STATE_FILE pid n2) as (B1 & B2 & B3); [done..|].
  pose proof (triple_conj _ _ _ _ _ _ _
    (write_atomic_frame HARD_STATE_FILE true (docs hs) LOG_FILE pid n1 (log_bytes es)
       A1 A2 A3 false)
    (triple_conj _ _ _ _ _ _ _
      (write_atomic_spec LOG_FILE false pid n1 (log_bytes es) (logs ls) false ltac:(done))
      (snapshot_frame pid n1 LOG_FILE (log_bytes es) false ltac:(set_solver)))) as T1.
  pose proof (triple_conj _ _ _ _ _ _ _
    (write_atomic_spec HARD_STATE_FILE true pid n2 (doc_bytes (hard_of p)) (docs hs) true
       ltac:(done))
    (triple_conj _ _ _ _ _ _ _
      (write_atomic_frame LOG_FILE false [Some (log_bytes es)] HARD_STATE_FILE pid n2
         (doc_bytes (hard_of p)) B1 B2 B3 true)
      (snapshot_frame pid n2 HARD_STATE_FILE (doc_bytes (hard_of p)) true ltac:(set_solver)))) as T2.
  unfold mbind, Io_bind.
  assert (Hpre : reg_inv LOG_FILE false (Some (log_bytes es) :: (logs ls)) (fs m))
    by (by apply reg_inv_weaken).
  specialize (T1 m (conj Hh (conj Hpre Hs))).
  destruct (write_atomic_with pid n1 LOG_FILE (log_bytes es) false m) as [[[]|] m1]; cbn in T1.
  - destruct T1 as (Hh1 & Hl1 & Hs1). unfold settled in Hl1.
    specialize (T2 m1 (conj (reg_inv_weaken _ _ _ _ _ Hh1) (conj Hl1 Hs1))).
    destruct (write_atomic_with pid n2 HARD_STATE_FILE _ true m1) as [[[]|] m2]; [exact T2|].
    destruct T2 as (Hh2 & Hl2 & Hs2). split_and!; [done| |done].
    by apply (settled_after LOG_FILE false).
  - destruct T1 as (Hh1 & Hl1 & Hs1). split_and!; [by apply reg_inv_weaken|done|done].
Qed.

(** ** Saves, failures and crashes *)

(** The file system with the hard states and the logs that a restart may find. *)
Inductive store_step :
  Fs * list (option HardState) * list (option (list LogEntry)) ->
  Fs * list (option HardState) * list (option (list LogEntry)) -> Prop :=
| st_saved f hs ls pid n1 n2 p faults m : entries_ok (disk_entries snap p) ->
    save_peer pid n1 n2 p {| fs := f; faults := faults |} = (Some tt, m) ->
    store_step (f, hs, ls) (fs m, [Some (hard_of p)], [Some (disk_entries snap p)])
| st_failed f hs ls pid n1 n2 p faults m : entries_ok (disk_entries snap p) ->
    save_peer pid n1 n2 p {| fs := f; faults := faults |} = (None, m) ->
    store_step (f, hs, ls) (fs m, Some (hard_of p) :: hs, Some (disk_entries snap p) :: ls)
| st_crashed f f' hs ls : crash f f' -> store_step (f, hs, ls) (f', hs, ls).

Definition store_inv (st : Fs * list (option HardState) * list (option (list LogEntry))) : Prop :=
  let '(f, hs, ls) := st in
  hard_inv hs f /\ log_inv ls f /\ snapshot_files f /\ forall es, Some es ∈ ls -> entries_ok es.

Lemma reg_inv_crash path fb allowed f f' :
  crash f f' -> reg_inv path fb allowed f -> reg_inv path fb allowed f'.
Proof.
  intros Hc Hi. destruct (crash_good _ _ _ _ _ Hi Hc) as [Hi' Ha].
  eapply Forall_impl; [exact Hi'|]. intros d [Hs Hd]. split; [done|].
  apply list_elem_of_singleton in Hd. by rewrite Hd.
Qed.

Lemma store_step_inv st st' : store_step st st' -> store_inv st -> store_inv st'.
Proof.
  intros [f hs ls pid n1 n2 p fl m Hok Hr|f hs ls pid n1 n2 p fl m Hok Hr|f f' hs ls Hc]
    (Hh & Hl & Hs & Hls).
  - pose proof (save_peer_spec pid n1 n2 p hs ls {| fs := f; faults := fl |} (conj Hh (conj Hl Hs))) as T.
    rewrite Hr in T. destruct T as (Hh' & Hl' & Hs'). split_and!; try done.
    by intros es [= ->]%list_elem_of_singleton.
  - pose proof (save_peer_spec pid n1 n2 p hs ls {| fs := f; faults := fl |} (conj Hh (conj Hl Hs))) as T.
    rewrite Hr in T. destruct T as (Hh' & Hl' & Hs'). split_and!; try done.
    intros es [[= ->]|Hin]%elem_of_cons; [done|]. by apply Hls.
  - destruct Hs as [Hs1 Hs2]. unfold store_inv, snapshot_files.
    split_and!; first [done|by eapply reg_inv_crash].
Qed.

Lemma store_loads f hs ls n :
  store_inv (f, hs, ls) ->
  exists h l, h ∈ hs /\ l ∈ ls
    /\ load_peer n f = (assemble_peer n (default hard_default h) (default [] l) snap, f).
Proof.
  intros (Hh & Hl & Hs & Hok). destruct (read_doc _ _ _ Hh) as (h & Hin & _ & Hrd).
  destruct (read_log _ _ Hl Hok) as (l & Hlin & _ & Hll). exists h, l. split_and!; [done..|].
  unfold load_peer. rewrite Hll. unfold load_hard_state. by rewrite Hrd, (load_snapshot_files _ Hs).
Qed.

(** ** A saved peer comes back *)

Definition placeholder (e : LogEntry) : bool := bool_decide (subject_of (e_command e) = SNAPSHOT_BASE).

(** The shapes of a log beside a snapshot: whole without one; the placeholder alone,
    the entries above it, or nothing. *)
Definition log_fits (l : list LogEntry) : Prop :=
  match snap with
  | None => Forall (fun e => placeholder e = false) l
  | Some s =>
      let base := last_included_index (meta s) in
      (l = [snapshot_base (last_included_term (meta s)) base] /\ 0 < base)
      \/ (l = [] /\ base <= 0)
      \/ (exists e rest, l = e :: rest /\ e_index e = base + 1)
  end.
Definition peer_fits (p : RaftPeer) : Prop :=
  contiguous None (log p) /\ Forall record_fits (log p) /\ log_fits (log p)
  /\ commit_index p <= max_index snap (log p) /\ last_applied p <= commit_index p.
Definition recovered (p : RaftPeer) : RaftPeer := {|
  node_id := node_id p; current_term := current_term p; voted_for := voted_for p; role := Follower;
  log := log p; commit_index := commit_index p; last_applied := last_applied p; next_index := ∅;
  match_index := ∅ |}.

Lemma contiguous_above i es : contiguous (Some i) es -> Forall (fun e => i < e_index e) es.
Proof.
  revert i. induction es as [|e es IH]; intros i; [done|]. intros [He Hc]. constructor; [lia|].
  eapply Forall_impl; [by apply IH|]. cbn. lia.
Qed.
Lemma filter_all {A} (g : A -> bool) l : Forall (fun x => g x = true) l -> List.filter g l = l.
Proof. induction 1 as [|x l Hx _ IH]; [done|]. cbn. by rewrite Hx, IH. Qed.

Lemma above_base base e rest :
  contiguous None (e :: rest) -> e_index e = base + 1 ->
  List.filter (fun e => base <? e_index e) (e :: rest) = e :: rest.
Proof.
  intros [_ Hc] He. apply filter_all. constructor; [apply Z.ltb_lt; lia|].
  eapply Forall_impl; [by apply contiguous_above|]. cbn. intros x Hx. apply Z.ltb_lt. lia.
Qed.

Lemma disk_round p : contiguous None (log p) -> log_fits (log p) ->
  above_snapshot snap (disk_entries snap p) = log p.
Proof.
  intros Hc Hf. unfold disk_entries, above_snapshot, log_fits in *. destruct snap as [s|].
  - set (base := last_included_index (meta s)) in *.
    destruct Hf as [[-> Hb]|[[-> Hb]|(e & rest & Hl & He)]].
    + cbn. rewrite Z.ltb_irrefl. cbn. by rewrite (proj2 (Z.ltb_lt _ _) Hb).
    + cbn. by rewrite (proj2 (Z.ltb_ge _ _)) by lia.
    + rewrite Hl in *. rewrite !above_base by done. cbn. by rewrite He, Z.eqb_refl.
  - apply filter_all. eapply Forall_impl; [exact Hf|]. intros e He. unfold placeholder in He.
    by rewrite He.
Qed.
Lemma saved_round p : peer_fits p ->
  assemble_peer (node_id p) (hard_of p) (disk_entries snap p) snap = recovered p.
Proof.
  intros (Hc & _ & Hf & Hcm & Hap). unfold assemble_peer. rewrite disk_round by done.
  cbn. by rewrite !Z.min_l by lia.
Qed.
Lemma fits_entries p : peer_fits p -> entries_ok (disk_entries snap p).
Proof.
  intros (Hc & Hr & Hf & _). unfold entries_ok, disk_entries, log_fits in *. destruct snap as [s|].
  - destruct Hf as [[-> Hb]|[[-> Hb]|(e & rest & Hl & He)]].
    + cbn. by rewrite Z.ltb_irrefl.
    + done.
    + rewrite Hl in *. by rewrite above_base.
  - rewrite filter_all; [done|]. eapply Forall_impl; [exact Hf|]. intros e He. unfold placeholder in He.
    by rewrite He.
Qed.

(** C38. A restart finds what a peer made durable.  Through any sequence of saves that
    succeed, saves that fail at any system call and crashes that lose unsynced work, the
    peer loaded from the files, before or after one more crash, has the term, the vote
    and the frontiers of the last saved hard state or of one whose save failed after it,
    and the log of the last saved log or of one whose save failed after it, read without
    cutting anything.  When the last save reported success the peer comes back as it was
    saved, as a follower, so a vote that was granted after its flush is never forgotten. *)
Theorem peer_survives_crashes f0 h0 l0 f hs ls :
  store_inv (f0, [h0], [l0]) ->
  rtc store_step (f0, [h0], [l0]) (f, hs, ls) ->
  forall f', f' = f \/ crash f f' ->
    (forall n, exists h l, h ∈ hs /\ l ∈ ls
       /\ load_peer n f' = (assemble_peer n (default hard_default h) (default [] l) snap, f'))
    /\ (forall p, peer_fits p -> hs = [Some (hard_of p)] -> ls = [Some (disk_entries snap p)] ->
        load_peer (node_id p) f' = (recovered p, f')).
Proof.
  intros Hi0 Hr f' Hf'.
  assert (Hi : store_inv (f', hs, ls)).
  { assert (Hrun : forall st st', rtc store_step st st' -> store_inv st -> store_inv st').
    { intros st st'. induction 1 as [|s1 s2 s3 H12 _ IH]; [done|]. intros Hs. apply IH.
      by eapply store_step_inv. }
    apply (Hrun _ _ Hr) in Hi0. destruct Hf' as [->|Hc]; [done|].
    eapply store_step_inv; [by apply st_crashed|done]. }
  split; [intros n; by apply store_loads|].
  intros p Hfit -> ->. destruct (store_loads _ _ _ (node_id p) Hi) as (h & l & Hh & Hl & ->).
  apply list_elem_of_singleton in Hh as ->. apply list_elem_of_singleton in Hl as ->.
  cbn [default from_option]. by rewrite saved_round.
Qed.
End Run.
End Recovery.

(** ** Concrete stores

    A codec for the texts: a countable value is a number, and a number is its binary
    digits. *)

Fixpoint digits_of (p : positive) : list byte :=
  match p with
  | xH => []
  | xO q => z2b 0 :: digits_of q
  | xI q => z2b 1 :: digits_of q
  end.
Fixpoint of_digits (bs : list byte) : positive :=
  match bs with
  | [] => xH
  | b :: rest => if b2z b =? 0 then xO (of_digits rest) else xI (of_digits rest)
  end.
Lemma of_digits_of p : of_digits (digits_of p) = p.
Proof. induction p as [p IH|p IH|]; cbn; by rewrite ?IH. Qed.

Definition pack {A} `{Countable A} (a : A) : list byte := digits_of (encode a).
Definition unpack {A} `{Countable A} (bs : list byte) : option A := decode (of_digits bs).
Lemma unpack_pack {A} `{Countable A} (a : A) : unpack (pack a) = Some a.
Proof. unfold unpack, pack. by rewrite of_digits_of, decode_encode. Qed.

#[global] Instance LogCommand_eq_dec : EqDecision LogCommand.
Proof. solve_decision. Defined.
#[global] Instance LogEntry_eq_dec : EqDecision LogEntry.
Proof. solve_decision. Defined.
#[global] Instance HardState_eq_dec : EqDecision HardState.
Proof. solve_decision. Defined.
#[global] Instance SnapshotMeta_eq_dec : EqDecision SnapshotMeta.
Proof. solve_decision. Defined.
#[global] Instance LogCommand_countable : Countable LogCommand.
Proof.
  apply (inj_countable' (fun c => match c with Put s v => inl (s, v) | Delete s => inr s end)
           (fun x => match x with inl (s, v) => Put s v | inr s => Delete s end)).
  by intros [].
Defined.
#[global] Instance LogEntry_countable : Countable LogEntry.
Proof.
  apply (inj_countable' (fun e => (e_term e, e_index e, e_command e))
           (fun '(t, i, c) => {| e_term := t; e_index := i; e_command := c |})).
  by intros [].
Defined.
#[global] Instance HardState_countable : Countable HardState.
Proof.
  apply (inj_countable'
           (fun h => (hs_current_term h, hs_voted_for h, hs_commit_index h, hs_last_applied h))
           (fun '(t, v, c, a) => {| hs_current_term := t; hs_voted_for := v; hs_commit_index := c;
                                    hs_last_applied := a |})).
  by intros [].
Defined.
#[global] Instance SnapshotMeta_countable : Countable SnapshotMeta.
Proof.
  apply (inj_countable'
           (fun m => (last_included_index m, last_included_term m, blob_checksum m, blob_len m, note m))
           (fun '(i, t, c, l, n) => {| last_included_index := i; last_included_term := t;
                                       blob_checksum := c; blob_len := l; note := n |})).
  by intros [].
Defined.

#[local] Instance digit_json : ControlJson := {|
  jvalue := positive; value_to_vec := digits_of;
  envelope_to_vec f s v := pack (f, s, v);
  envelope_from_slice bs := (fun '(f, s, v) => (f, s, Some v)) <$> unpack bs;
  entry_to_vec := pack; entry_from_slice := unpack |}.
#[local] Instance digit_json_laws : ControlJsonLaws digit_json.
Proof. split; intros; cbn; by rewrite unpack_pack. Qed.
#[local] Instance digit_document {T} `{Countable T} : Document T := {|
  to_value := (encode : T -> positive); from_value := (decode : positive -> option T) |}.
#[local] Instance digit_document_laws {T} `{Countable T} : DocumentLaws T.
Proof. intros t. apply decode_encode. Qed.
#[local] Instance sum_hash : Blake3 := fun bs => le_bytes 32 (le_val bs).
#[local] Instance sum_hash_laws : Blake3Laws sum_hash.
Proof. intros bs. apply length_le_bytes. Qed.

Definition entry (i : Z) : LogEntry := {| e_term := 1; e_index := i; e_command := Put "k" [z2b i] |}.
Definition voter (t : Z) (vote : option Z) (l : list LogEntry) (commit : Z) : RaftPeer := {|
  node_id := 1; current_term := t; voted_for := vote; role := Candidate; log := l;
  commit_index := commit; last_applied := commit; next_index := ∅; match_index := ∅ |}.
Definition fresh : Machine := {| fs := empty_fs; faults := [] |}.
Definition save (p : RaftPeer) (m : Machine) : Machine := snd (save_peer 7 1 2 p m).

Lemma empty_register path fb : reg_inv path fb [None] empty_fs.
Proof.
  apply Forall_singleton. split; [by intros n i _ Hi|]. unfold content.
  by destruct fb; apply list_elem_of_singleton.
Qed.

(** A peer with two entries and a vote in term 3 is saved; it is loaded as it was, from
    the files as they are and after any crash. *)
Definition sample_peer : RaftPeer := voter 3 (Some 2) [entry 1; entry 2] 1.
Definition sample_files : Fs := fs (save sample_peer fresh).
Lemma peer_survives_crashes_witness :
  load_peer 1 sample_files = (recovered sample_peer, sample_files)
  /\ (forall f', crash sample_files f' -> load_peer 1 f' = (recovered sample_peer, f')).
Proof.
  assert (Hfit : peer_fits None None sample_peer).
  { split_and!; cbn; try lia; repeat constructor; vm_compute; congruence. }
  assert (Hok : fst (save_peer 7 1 2 sample_peer fresh) = Some tt) by (vm_compute; reflexivity).
  assert (Hrun : save_peer 7 1 2 sample_peer fresh = (Some tt, save sample_peer fresh)).
  { unfold save. destruct (save_peer 7 1 2 sample_peer fresh). cbn in Hok. by rewrite Hok. }
  assert (Hload : forall f', f' = sample_files \/ crash sample_files f' ->
            load_peer 1 f' = (recovered sample_peer, f')).
  { intros f' Hf'.
    destruct (peer_survives_crashes None None empty_fs None None sample_files
                [Some (hard_of sample_peer)] [Some (disk_entries None sample_peer)]) with (f' := f')
      as [_ Hlast].
    - split_and!; try apply empty_register; [split; apply empty_register|].
      intros es Hes. apply list_elem_of_singleton in Hes. discriminate.
    - eapply rtc_l; [|apply rtc_refl]. apply (st_saved None None _ _ _ 7 1 2 sample_peer [] _).
      + by apply (fits_entries None None).
      + exact Hrun.
    - exact Hf'.
    - exact (Hlast sample_peer Hfit eq_refl eq_refl). }
  split; [apply Hload; by left|]. intros f' Hc. apply Hload. by right.
Defined.

(** ** What the files do not protect *)

Definition damage (path : Name) (f : Fs) : Fs :=
  match current f !! path with
  | Some i => set_inode f i {| data := lit "damaged"; synced := true |}
  | None => f
  end.

(** A damaged hard state is answered by the generation before it: the vote for node 2 in
    term 8 is forgotten, and node 3 gets a second vote in the same term. *)
Definition two_terms : Fs := fs (save (voter 8 (Some 2) [] 0) (save (voter 7 None [] 0) fresh)).
Example fallback_forgets_a_vote :
  let p := fst (load_peer 1 (damage HARD_STATE_FILE two_terms)) in
  let g := with_peers (raft_new 0 [1; 2; 3] 1) {[1 := p]} in
  hs_voted_for (load_hard_state two_terms) = Some 2
  /\ current_term p = 7
  /\ vote_granted (snd (request_vote (fun _ _ => true) g 1 3 8 0 0)) = true.
Proof. vm_compute. by split_and!. Qed.

(** A new snapshot begins by replacing the blob of the old one.  When the next write
    fails, the old description has the wrong blob, the snapshot is discarded, and the
    entries that it had replaced are in no file. *)
Definition install (faults : list IoFault) (i : Z) (b : string) (rest : list LogEntry) (m : Machine)
    : Machine :=
  snd (install_snapshot 7 3 4 5 (snapshot_meta_for i 1 (lit b) []) (lit b) rest
         {| fs := fs m; faults := faults |}).
Definition compacted : Machine :=
  install [] 2 "state at 2" [entry 3] (save (voter 1 None [entry 1; entry 2; entry 3] 3) fresh).
Definition half_installed : Machine :=
  install (repeat Works 16 ++ [Fails 0]) 3 "state at 3" [] compacted.
Example failed_install_loses_the_snapshot :
  (fun s => last_included_index (meta s)) <$> load_snapshot (fs compacted) = Some 2
  /\ load_snapshot (fs half_installed) = None
  /\ e_index <$> log (fst (load_peer 1 (fs half_installed))) = [3]
  /\ commit_index (fst (load_peer 1 (fs half_installed))) = 3.
Proof. vm_compute. by split_and!. Qed.
