(* ===== verification/RaftRpc.v ===== *)
(** * Consensus over a network

    Model of [crates/residiuum-cluster/src/raft_rpc.rs]: the messages, a node that
    owns the state of one peer, its handlers, campaigns and proposals over a
    transport, the in-process network, and the text of snapshot blobs.  The trait [RaftTransport] is a class
    over the state of the world behind it; the flushes of a node are the oracles of
    [Raft].  Message texts carry the numbers of the source where they do; delays are
    not modelled. *)
From S2P Require Import Prelude Cbor AtomicFile AtomicPlan SegmentIds Raft RaftStore.

(** ** Snapshot blobs in JSON: base64 *)

Module Base64.

Definition T : list byte := lit "ABCDEFGHIJKLMNOPQRSTUVWXYZabcdefghijklmnopqrstuvwxyz0123456789+/".
Definition digit (n : Z) : byte := nth (Z.to_nat n) T Byte.x00.

(** One chunk of one to three bytes. *)
Definition encode_chunk (c0 : byte) (c1 c2 : option byte) : list byte :=
  let b0 := b2z c0 in
  let b1 := from_option b2z 0 c1 in
  let b2 := from_option b2z 0 c2 in
  let n := Z.lor (Z.lor (Z.shiftl b0 16) (Z.shiftl b1 8)) b2 in
  [digit (Z.land (Z.shiftr n 18) 63); digit (Z.land (Z.shiftr n 12) 63);
   match c1 with Some _ => digit (Z.land (Z.shiftr n 6) 63) | None => Byte.x3d end;
   match c2 with Some _ => digit (Z.land n 63) | None => Byte.x3d end].
Fixpoint b64_encode (data : list byte) : list byte :=
  match data with
  | [] => []
  | [a] => encode_chunk a None None
  | [a; b] => encode_chunk a (Some b) None
  | a :: b :: c :: rest => encode_chunk a (Some b) (Some c) ++ b64_encode rest
  end.

Definition val (c : byte) : result (list byte) Z :=
  let z := b2z c in
  if (65 <=? z) && (z <=? 90) then Ok (z - 65)
  else if (97 <=? z) && (z <=? 122) then Ok (z - 97 + 26)
  else if (48 <=? z) && (z <=? 57) then Ok (z - 48 + 52)
  else if z =? 43 then Ok 62
  else if z =? 47 then Ok 63
  else Err (lit "invalid base64").
Definition is_pad (c : byte) : bool := bool_decide (c = Byte.x3d).
Definition val_pad (c : byte) : result (list byte) Z := val (if is_pad c then Byte.x41 else c).

Definition decode_chunk (c0 c1 c2 c3 : byte) : result (list byte) (list byte) :=
  let pad := length (List.filter is_pad [c0; c1; c2; c3]) in
  match val c0 with Err e => Err e | Ok v0 =>
  match val_pad c1 with Err e => Err e | Ok v1 =>
  match val_pad c2 with Err e => Err e | Ok v2 =>
  match val_pad c3 with Err e => Err e | Ok v3 =>
    let n := Z.lor (Z.lor (Z.lor (Z.shiftl v0 18) (Z.shiftl v1 12)) (Z.shiftl v2 6)) v3 in
    Ok ([z2b (Z.land (Z.shiftr n 16) 255)]
        ++ (if (pad <? 2)%nat then [z2b (Z.land (Z.shiftr n 8) 255)] else [])
        ++ (if (pad <? 1)%nat then [z2b (Z.land n 255)] else []))
  end end end end.
Fixpoint decode_chunks (s : list byte) : result (list byte) (list byte) :=
  match s with
  | c0 :: c1 :: c2 :: c3 :: rest =>
      match decode_chunk c0 c1 c2 c3 with
      | Err e => Err e
      | Ok out => match decode_chunks rest with Err e => Err e | Ok outs => Ok (out ++ outs) end
      end
  | _ => Ok []
  end.
Definition b64_decode (s : list byte) : result (list byte) (list byte) :=
  if negb (length s mod 4 =? 0)%nat then Err (lit "invalid base64 length") else decode_chunks s.

(** *** Decoding undoes encoding *)

Lemma lor_disjoint a b k : 0 <= k -> 0 <= b < 2 ^ k -> Z.lor (Z.shiftl a k) b = a * 2 ^ k + b.
Proof.
  intros Hk Hb.
  assert (Hland : Z.land (Z.shiftl a k) b = 0).
  { apply Z.bits_inj'. intros i Hi. rewrite Z.land_spec, Z.bits_0.
    destruct (Z.lt_ge_cases i k).
    - by rewrite Z.shiftl_spec_low by lia.
    - rewrite <- (Z.mod_small b (2 ^ k)) by lia. rewrite Z.mod_pow2_bits_high by lia. apply andb_false_r. }
  rewrite <- Z.lxor_lor, <- Z.add_nocarry_lxor by done. by rewrite Z.shiftl_mul_pow2 by lia.
Qed.
Lemma three_bytes b0 b1 b2 : 0 <= b1 < 256 -> 0 <= b2 < 256 ->
  Z.lor (Z.lor (Z.shiftl b0 16) (Z.shiftl b1 8)) b2 = (b0 * 256 + b1) * 256 + b2.
Proof.
  intros H1 H2. rewrite (Z.shiftl_mul_pow2 b1 8), (lor_disjoint b0 (b1 * 2 ^ 8) 16) by lia.
  replace (b0 * 2 ^ 16 + b1 * 2 ^ 8) with (Z.shiftl (b0 * 256 + b1) 8)
    by (rewrite Z.shiftl_mul_pow2 by lia; lia).
  by rewrite (lor_disjoint _ b2 8) by lia.
Qed.
Lemma four_digits v0 v1 v2 v3 : 0 <= v1 < 64 -> 0 <= v2 < 64 -> 0 <= v3 < 64 ->
  Z.lor (Z.lor (Z.lor (Z.shiftl v0 18) (Z.shiftl v1 12)) (Z.shiftl v2 6)) v3
  = ((v0 * 64 + v1) * 64 + v2) * 64 + v3.
Proof.
  intros H1 H2 H3. rewrite (Z.shiftl_mul_pow2 v1 12), (lor_disjoint v0 (v1 * 2 ^ 12) 18) by lia.
  replace (v0 * 2 ^ 18 + v1 * 2 ^ 12) with (Z.shiftl (v0 * 64 + v1) 12)
    by (rewrite Z.shiftl_mul_pow2 by lia; lia).
  rewrite (Z.shiftl_mul_pow2 v2 6), (lor_disjoint (v0 * 64 + v1) (v2 * 2 ^ 6) 12) by lia.
  replace ((v0 * 64 + v1) * 2 ^ 12 + v2 * 2 ^ 6) with (Z.shiftl ((v0 * 64 + v1) * 64 + v2) 6)
    by (rewrite Z.shiftl_mul_pow2 by lia; lia).
  rewrite (lor_disjoint _ v3 6) by lia. lia.
Qed.
Lemma sextet n k : 0 <= k -> Z.land (Z.shiftr n k) 63 = (n / 2 ^ k) mod 64.
Proof. intros. rewrite Z.shiftr_div_pow2 by lia. change 63 with (Z.ones 6). by rewrite Z.land_ones by lia. Qed.
Lemma octet n k : 0 <= k -> z2b (Z.land (Z.shiftr n k) 255) = z2b (n / 2 ^ k).
Proof.
  intros. rewrite Z.shiftr_div_pow2 by lia. change 255 with (Z.ones 8). rewrite Z.land_ones by lia.
  apply b2z_inj. rewrite !b2z_z2b. by rewrite Z.mod_mod by lia.
Qed.

Lemma digit_spec v : 0 <= v < 64 ->
  val (digit v) = Ok v /\ val_pad (digit v) = Ok v /\ is_pad (digit v) = false.
Proof.
  intros Hv. assert (Hall : forallb (fun n => match val (digit (Z.of_nat n)) with
      | Ok z => (z =? Z.of_nat n) && negb (is_pad (digit (Z.of_nat n))) | Err _ => false end) (seq 0 64) = true)
    by reflexivity.
  rewrite forallb_forall in Hall. specialize (Hall (Z.to_nat v)). rewrite in_seq in Hall.
  specialize (Hall ltac:(lia)). rewrite Z2Nat.id in Hall by lia. unfold val_pad.
  destruct (val (digit v)) as [z|e] eqn:E; [|done]. apply andb_true_iff in Hall as [->%Z.eqb_eq Hp].
  apply negb_true_iff in Hp. by rewrite Hp, E.
Qed.

Lemma chunk_roundtrip c0 c1 c2 : (c1 = None -> c2 = None) ->
  match encode_chunk c0 c1 c2 with
  | [d0; d1; d2; d3] => decode_chunk d0 d1 d2 d3 = Ok (c0 :: option_list c1 ++ option_list c2)
  | _ => False
  end.
Proof.
  intros Hc. unfold encode_chunk. pose proof (b2z_range c0) as H0.
  set (b1 := from_option b2z 0 c1). set (b2 := from_option b2z 0 c2).
  assert (H1 : 0 <= b1 < 256) by (destruct c1 as [c|]; [apply (b2z_range c)|cbn; lia]).
  assert (H2 : 0 <= b2 < 256) by (destruct c2 as [c|]; [apply (b2z_range c)|cbn; lia]).
  rewrite three_bytes by done. set (n := (b2z c0 * 256 + b1) * 256 + b2).
  rewrite !sextet by lia. replace (Z.land n 63) with ((n / 2 ^ 0) mod 64)
    by (rewrite Z.div_1_r; change 63 with (Z.ones 6); by rewrite Z.land_ones by lia).
  set (s k := (n / 2 ^ k) mod 64).
  assert (Hs : forall k, 0 <= s k < 64) by (intros k; apply Z.mod_pos_bound; lia).
  fold (s 18) (s 12) (s 6) (s 0).
  assert (Hn : ((s 18 * 64 + s 12) * 64 + s 6) * 64 + s 0 = n).
  { unfold s, n. clear -H0 H1 H2. Z.to_euclidean_division_equations. lia. }
  assert (Hp : val_pad Byte.x3d = Ok 0) by reflexivity.
  unfold decode_chunk. destruct (digit_spec (s 18) (Hs 18)) as (-> & _ & E0).
  destruct (digit_spec (s 12) (Hs 12)) as (_ & -> & E1).
  destruct (digit_spec (s 6) (Hs 6)) as (_ & V2 & E2). destruct (digit_spec (s 0) (Hs 0)) as (_ & V3 & E3).
  assert (Hz : (c2 = None -> s 0 = 0) /\ (c1 = None -> s 6 = 0)).
  { split; intros Hx; [|pose proof (Hc Hx)]; subst; unfold s, n, b1, b2 in *; cbn in *;
      Z.to_euclidean_division_equations; lia. }
  assert (O0 : z2b (n / 2 ^ 16) = c0).
  { apply b2z_inj. rewrite b2z_z2b. unfold n. clear -H0 H1 H2. Z.to_euclidean_division_equations; lia. }
  assert (O1 : b2z (z2b (n / 2 ^ 8)) = b1).
  { rewrite b2z_z2b. unfold n. clear -H0 H1 H2. Z.to_euclidean_division_equations; lia. }
  assert (O2 : b2z (z2b (n / 2 ^ 0)) = b2).
  { rewrite b2z_z2b. unfold n. clear -H0 H1 H2. Z.to_euclidean_division_equations; lia. }
  destruct Hz as [Z0 Z6].
  assert (V2' : val_pad match c1 with Some _ => digit (s 6) | None => Byte.x3d end = Ok (s 6))
    by (destruct c1; [done|by rewrite Z6]).
  assert (V3' : val_pad match c2 with Some _ => digit (s 0) | None => Byte.x3d end = Ok (s 0))
    by (destruct c2; [done|by rewrite Z0]).
  rewrite V2', V3', four_digits, Hn, !octet by (done || lia).
  rewrite <- (Z.shiftr_0_r n) at 3. rewrite octet by lia. rewrite O0.
  destruct c1 as [c1|], c2 as [c2|]; [..|by specialize (Hc eq_refl)|]; cbn [List.filter]; rewrite ?E0, ?E1, ?E2, ?E3;
    change (is_pad Byte.x3d) with true; cbn [length Nat.ltb Nat.leb app option_list]; try done;
    [apply b2z_inj in O1 as ->; by apply b2z_inj in O2 as ->|by apply b2z_inj in O1 as ->].
Qed.
Lemma encode_chunk_length c0 c1 c2 : exists d0 d1 d2 d3, encode_chunk c0 c1 c2 = [d0; d1; d2; d3].
Proof. by repeat eexists. Qed.
Lemma b64_roundtrip data : b64_decode (b64_encode data) = Ok data.
Proof.
  assert (H : forall k data, (length data <= k)%nat ->
    (length (b64_encode data) mod 4 = 0)%nat /\ decode_chunks (b64_encode data) = Ok data).
  { clear data. induction k as [|k IH]; intros data Hlen; [by destruct data; [|cbn in Hlen; lia]|].
    assert (Hstep : forall c0 c1 c2 rest, (c1 = None -> c2 = None) -> (length rest <= k)%nat ->
      (length (encode_chunk c0 c1 c2 ++ b64_encode rest) mod 4 = 0)%nat
      /\ decode_chunks (encode_chunk c0 c1 c2 ++ b64_encode rest)
         = Ok ((c0 :: option_list c1 ++ option_list c2) ++ rest)).
    { intros c0 c1 c2 rest Hc Hk. pose proof (chunk_roundtrip c0 c1 c2 Hc) as Hr.
      destruct (encode_chunk_length c0 c1 c2) as (d0 & d1 & d2 & d3 & He). rewrite He in Hr |- *.
      destruct (IH rest Hk) as [Hm Hd]. split.
      - rewrite length_app. cbn [length]. by rewrite Nat.add_comm, (Nat.Div0.add_mod _ 4), Hm.
      - cbn [app decode_chunks]. by rewrite Hr, Hd. }
    destruct data as [|a [|b [|c rest]]]; [done|..].
    - apply (Hstep a None None []); [done|cbn; lia].
    - apply (Hstep a (Some b) None []); [done|cbn; lia].
    - apply (Hstep a (Some b) (Some c) rest); [done|cbn in Hlen; lia]. }
  unfold b64_decode. destruct (H _ data (le_n _)) as [Hm Hd]. by rewrite Hm.
Qed.
End Base64.

Module Rpc.

Definition DEFAULT_MAX_APPEND_BATCH : nat := 64.
Definition DEFAULT_REPLICATE_ATTEMPTS : nat := 32.

(** ** Messages *)

Record RequestVoteRequest := {
  v_cluster_id : list byte; v_partition : Z; v_placement_epoch : Z; v_term : Term;
  candidate_id : NodeId; v_last_log_index : Z; v_last_log_term : Term }.
Record RequestVoteResponse := { vresp_term : Term; vresp_granted : bool }.
Record AppendEntriesRequest := {
  a_cluster_id : list byte; a_partition : Z; a_placement_epoch : Z; a_term : Term;
  a_leader_id : NodeId; prev_log_index : Z; prev_log_term : Term; entries : list LogEntry;
  leader_commit : Z }.
Record AppendEntriesResponse := {
  aresp_term : Term; success : bool; aresp_conflict : option Z; aresp_match : option Z }.
Record InstallSnapshotRequest := {
  i_cluster_id : list byte; i_partition : Z; i_placement_epoch : Z; i_term : Term;
  i_leader_id : NodeId; i_last_included_index : Z; i_last_included_term : Term;
  i_blob_checksum : list byte; i_blob : list byte }.
(** The texts of the errors of a response. *)
Inductive InstallError : Type := StaleLeader | ChecksumMismatch | NotInstalled (e : RaftMetaError).
Record InstallSnapshotResponse := {
  iresp_term : Term; iresp_success : bool; iresp_error : option InstallError }.
Record ReadIndexRequest := {
  r_cluster_id : list byte; r_partition : Z; r_placement_epoch : Z; r_term : Term; from_id : NodeId }.
Record ReadIndexResponse := {
  rresp_term : Term; rresp_is_leader : bool; rresp_commit_index : Z; rresp_leader_id : option NodeId }.

Inductive RaftRpcError : Type :=
| Unavailable (s : list byte) | Unauthorized (s : list byte) | Fenced (s : list byte)
| Protocol (s : list byte) | Persist (s : list byte) | Timeout (s : list byte).

(** The control plane behind a node; a call may change it. *)
Class RaftTransport (W : Type) : Type := {
  rpc_request_vote : NodeId -> RequestVoteRequest -> W -> W * result RaftRpcError RequestVoteResponse;
  rpc_append_entries : NodeId -> AppendEntriesRequest -> W -> W * result RaftRpcError AppendEntriesResponse;
  rpc_install_snapshot : NodeId -> InstallSnapshotRequest -> W -> W * result RaftRpcError InstallSnapshotResponse;
  rpc_read_index : NodeId -> ReadIndexRequest -> W -> W * result RaftRpcError ReadIndexResponse }.

(** ** Nodes *)

Record NetworkRaftNode := {
  cluster_id : list byte;
  local : NodeId;
  group : PartitionRaft;
  max_append_batch : nat;
  replicate_attempts : nat;
  propose_dedup : gmap (list byte) Z;
  peer_failures : gmap Z Z }.

Definition node_new (cid : list byte) (part : Z) (n : NodeId) (vs : list NodeId) (epoch : Z)
    : option NetworkRaftNode :=
  if bool_decide (n ∈ vs) then
    Some {| cluster_id := cid; local := n; group := raft_new part vs epoch;
            max_append_batch := DEFAULT_MAX_APPEND_BATCH;
            replicate_attempts := DEFAULT_REPLICATE_ATTEMPTS; propose_dedup := ∅; peer_failures := ∅ |}
  else None.

Definition set_group (nd : NetworkRaftNode) (g : PartitionRaft) : NetworkRaftNode := {|
  cluster_id := cluster_id nd; local := local nd; group := g;
  max_append_batch := max_append_batch nd; replicate_attempts := replicate_attempts nd;
  propose_dedup := propose_dedup nd; peer_failures := peer_failures nd |}.
Definition set_failures (nd : NetworkRaftNode) (m : gmap Z Z) : NetworkRaftNode := {|
  cluster_id := cluster_id nd; local := local nd; group := group nd;
  max_append_batch := max_append_batch nd; replicate_attempts := replicate_attempts nd;
  propose_dedup := propose_dedup nd; peer_failures := m |}.
Definition set_dedup (nd : NetworkRaftNode) (m : gmap (list byte) Z) : NetworkRaftNode := {|
  cluster_id := cluster_id nd; local := local nd; group := group nd;
  max_append_batch := max_append_batch nd; replicate_attempts := replicate_attempts nd;
  propose_dedup := m; peer_failures := peer_failures nd |}.
(** [*c = c.saturating_add(1)] on a [u32]. *)
Definition peer_failed (nd : NetworkRaftNode) (n : NodeId) : NetworkRaftNode :=
  set_failures nd (<[n := Z.min (default 0 (peer_failures nd !! n) + 1) (2 ^ 32 - 1)]> (peer_failures nd)).
Definition peer_answered (nd : NetworkRaftNode) (n : NodeId) : NetworkRaftNode :=
  set_failures nd (<[n := 0]> (peer_failures nd)).

Definition local_peer (nd : NetworkRaftNode) : option RaftPeer := peers (group nd) !! local nd.
(** [if let Some(p) = self.group.peer_mut(self.local) { .. }] *)
Definition upd_local (nd : NetworkRaftNode) (f : RaftPeer -> RaftPeer) : NetworkRaftNode :=
  set_group nd (upd (group nd) (local nd) f).
Definition node_role (nd : NetworkRaftNode) : RaftRole :=
  match local_peer nd with Some p => role p | None => Follower end.
Definition node_term (nd : NetworkRaftNode) : Term :=
  match local_peer nd with Some p => current_term p | None => 0 end.
Definition node_commit_index (nd : NetworkRaftNode) : Z :=
  match local_peer nd with Some p => commit_index p | None => 0 end.
Definition is_leader (nd : NetworkRaftNode) : bool := bool_decide (node_role nd = Leader).
Definition node_quorum (nd : NetworkRaftNode) : Z := quorum (group nd).
Definition cluster_hex (nd : NetworkRaftNode) : list byte := hex16 (cluster_id nd).

Definition check_fence (nd : NetworkRaftNode) (cid : list byte) (part epoch : Z)
    : result RaftRpcError unit :=
  if negb (bytes_eqb cid (cluster_hex nd)) then
    Err (Fenced (lit "cluster_id mismatch: got " ++ cid ++ lit ", want " ++ cluster_hex nd))
  else if negb (part =? partition (group nd)) then
    Err (Fenced (lit "partition mismatch: got " ++ decimal part ++ lit ", want "
                   ++ decimal (partition (group nd))))
  else if negb (epoch =? placement_epoch (group nd)) then
    Err (Fenced (lit "placement_epoch mismatch: got " ++ decimal epoch ++ lit ", want "
                   ++ decimal (placement_epoch (group nd))))
  else Ok tt.

Section Node.
Context {H : Blake3}.
Context (save : NodeId -> RaftPeer -> bool)
        (save_snapshot : NodeId -> Z -> Term -> list byte -> list LogEntry -> bool).

(** ** Handlers *)

Definition handle_request_vote (nd : NetworkRaftNode) (req : RequestVoteRequest)
    : NetworkRaftNode * result RaftRpcError RequestVoteResponse :=
  match check_fence nd (v_cluster_id req) (v_partition req) (v_placement_epoch req) with
  | Err e => (nd, Err e)
  | Ok _ =>
      let '(g, res) := request_vote save (group nd) (local nd) (candidate_id req) (v_term req)
                         (v_last_log_index req) (v_last_log_term req) in
      (set_group nd g, Ok {| vresp_term := vr_term res; vresp_granted := vote_granted res |})
  end.

Definition handle_append_entries (nd : NetworkRaftNode) (req : AppendEntriesRequest)
    : NetworkRaftNode * result RaftRpcError AppendEntriesResponse :=
  match check_fence nd (a_cluster_id req) (a_partition req) (a_placement_epoch req) with
  | Err e => (nd, Err e)
  | Ok _ =>
      let '(g, res) := append_entries save (group nd) (local nd) (a_leader_id req) (a_term req)
                         (prev_log_index req) (prev_log_term req) (entries req) (leader_commit req) in
      let nd := set_group nd g in
      (nd, Ok {| aresp_term := ar_term res; success := ar_success res;
                 aresp_conflict := conflict_index res;
                 aresp_match := if ar_success res then last_log_index <$> local_peer nd else None |})
  end.

(** The adoption of the sender's term before a snapshot is looked at. *)
Definition follow_sender (p : RaftPeer) (t : Term) (leader : NodeId) : RaftPeer :=
  if (current_term p <? t) || negb (bool_decide (role p = Follower))
  then set_role (set_hard p t (Some leader)) Follower else p.

Definition handle_install_snapshot (nd : NetworkRaftNode) (req : InstallSnapshotRequest)
    : NetworkRaftNode * result RaftRpcError InstallSnapshotResponse :=
  match check_fence nd (i_cluster_id req) (i_partition req) (i_placement_epoch req) with
  | Err e => (nd, Err e)
  | Ok _ =>
      if i_term req <? node_term nd then
        (nd, Ok {| iresp_term := node_term nd; iresp_success := false; iresp_error := Some StaleLeader |})
      else
        let nd := upd_local nd (fun p => follow_sender p (i_term req) (i_leader_id req)) in
        if negb (bool_decide (i_blob_checksum req = []))
           && negb (bytes_eqb (PeerStore.hex32 (blake3 (i_blob req))) (i_blob_checksum req)) then
          (nd, Ok {| iresp_term := node_term nd; iresp_success := false;
                     iresp_error := Some ChecksumMismatch |})
        else
          let has_index := match local_peer nd with
                           | Some p => bool_decide (is_Some (term_at p (i_last_included_index req)))
                           | None => false
                           end in
          let '(g, r) :=
            if has_index then
              install_local_snapshot save save_snapshot (group nd) (local nd)
                (i_last_included_index req) (i_blob req)
            else
              force_install_snapshot save save_snapshot (group nd) (local nd)
                (i_last_included_index req) (i_last_included_term req) (i_blob req) in
          let nd := set_group nd g in
          (nd, Ok {| iresp_term := node_term nd;
                     iresp_success := match r with Ok _ => true | Err _ => false end;
                     iresp_error := match r with Ok _ => None | Err e => Some (NotInstalled e) end |})
  end.

Definition handle_read_index (nd : NetworkRaftNode) (req : ReadIndexRequest)
    : NetworkRaftNode * result RaftRpcError ReadIndexResponse :=
  (nd,
   match check_fence nd (r_cluster_id req) (r_partition req) (r_placement_epoch req) with
   | Err e => Err e
   | Ok _ => Ok {| rresp_term := node_term nd; rresp_is_leader := is_leader nd;
                   rresp_commit_index := if is_leader nd then node_commit_index nd else 0;
                   rresp_leader_id := if is_leader nd then Some (local nd) else None |}
   end).

(** ** Campaigns and proposals *)

Section Calls.
Context {W : Type} {T : RaftTransport W}.

Definition vote_request (nd : NetworkRaftNode) (p : RaftPeer) : RequestVoteRequest := {|
  v_cluster_id := cluster_hex nd; v_partition := partition (group nd);
  v_placement_epoch := placement_epoch (group nd); v_term := current_term p;
  candidate_id := local nd; v_last_log_index := last_log_index p;
  v_last_log_term := last_log_term p |}.

(** The loop over the voters: the votes and the higher term that stopped it. *)
Fixpoint ask_votes (nd : NetworkRaftNode) (w : W) (req : RequestVoteRequest) (online : list NodeId)
    (vs : list NodeId) (votes : Z) : NetworkRaftNode * W * Z * option Term :=
  match vs with
  | [] => (nd, w, votes, None)
  | v :: rest =>
      if (v =? local nd) || negb (bool_decide (v ∈ online))
      then ask_votes nd w req online rest votes
      else
        match rpc_request_vote v req w with
        | (w, Ok res) =>
            let nd := peer_answered nd v in
            if v_term req <? vresp_term res then (nd, w, votes, Some (vresp_term res))
            else ask_votes nd w req online rest (if vresp_granted res then votes + 1 else votes)
        | (w, Err _) => ask_votes (peer_failed nd v) w req online rest votes
        end
  end.

(** A flush whose failure is dropped changes nothing that a node sees. *)
Definition campaign (nd : NetworkRaftNode) (w : W) (online : list NodeId)
    : NetworkRaftNode * W * result ElectError (NodeId * Term) :=
  if negb (bool_decide (local nd ∈ voters (group nd))) then (nd, w, Err NotAVoter)
  else if negb (bool_decide (local nd ∈ online)) then (nd, w, Err CandidateOffline)
  else match local_peer nd with
  | None => (nd, w, Err NotAVoter)
  | Some peer =>
      let new_term := current_term peer + 1 in
      let cand := set_role (set_hard peer new_term (Some (local nd))) Candidate in
      let nd := set_group nd (with_peers (group nd) (<[local nd := cand]> (peers (group nd)))) in
      if negb (flush_peer save (group nd) (local nd)) then
        (upd_local nd (fun p => set_role p Follower), w, Err ElectPersistFailed)
      else
        let '(nd, w, votes, saw_higher) :=
          ask_votes nd w (vote_request nd cand) online (voters (group nd)) 1 in
        match saw_higher with
        | Some higher =>
            (upd_local nd (fun p => become_follower p higher), w, Err (HigherTerm higher))
        | None =>
            if node_quorum nd <=? votes then
              (upd_local nd (fun p =>
                 become_leader (set_hard p new_term (voted_for p)) (voters (group nd))), w,
               Ok (local nd, new_term))
            else
              (upd_local nd (fun p => set_role p Follower), w, Err (NoQuorum votes (node_quorum nd)))
        end
  end.

Definition append_request (nd : NetworkRaftNode) (p : RaftPeer) (follower : NodeId)
    : AppendEntriesRequest :=
  let next := default 1 (next_index p !! follower) in
  let prev := sat_sub next 1 in
  {| a_cluster_id := cluster_hex nd; a_partition := partition (group nd);
     a_placement_epoch := placement_epoch (group nd); a_term := current_term p;
     a_leader_id := local nd; prev_log_index := prev; prev_log_term := default 0 (term_at p prev);
     entries := take (max_append_batch nd) (List.filter (fun e => next <=? e_index e) (log p));
     leader_commit := commit_index p |}.

(** The reported match, or the end of what was sent. *)
Definition matched_to (req : AppendEntriesRequest) (res : AppendEntriesResponse) : Z :=
  match aresp_match res with
  | Some m => m
  | None => match last (entries req) with Some e => e_index e | None => prev_log_index req end
  end.
Definition retreat (p : RaftPeer) (follower : NodeId) (hint : option Z) : RaftPeer :=
  let next := default 1 (next_index p !! follower) in
  let next := Z.max (default (sat_sub next 1) hint) 1 in
  let next := if 1 <? next then Z.max (sat_sub next 1) 1 else next in
  set_indices p (<[follower := next]> (next_index p)) (match_index p).

(** At most [fuel] attempts; the source starts with the configured number. *)
Fixpoint replicate_loop (fuel : nat) (nd : NetworkRaftNode) (w : W) (follower : NodeId)
    : NetworkRaftNode * W * result ProposeError unit :=
  match fuel with
  | O => (nd, w, Ok tt)
  | S fuel' =>
      match local_peer nd with
      | None => (nd, w, Err NotLeader)
      | Some peer =>
          if negb (bool_decide (role peer = Leader)) then (nd, w, Err NotLeader)
          else
            let req := append_request nd peer follower in
            match rpc_append_entries follower req w with
            | (w, Err _) => (peer_failed nd follower, w, Ok tt)
            | (w, Ok res) =>
                let nd := peer_answered nd follower in
                if a_term req <? aresp_term res then
                  (upd_local nd (fun p => become_follower p (aresp_term res)), w,
                   Err (SteppedDown (aresp_term res)))
                else if success res then
                  let m := matched_to req res in
                  (upd_local nd (fun p => set_indices p (<[follower := m + 1]> (next_index p))
                                                        (<[follower := m]> (match_index p))), w, Ok tt)
                else
                  replicate_loop fuel' (upd_local nd (fun p => retreat p follower (aresp_conflict res)))
                    w follower
            end
      end
  end.
Definition replicate_to (nd : NetworkRaftNode) (w : W) (follower : NodeId) :=
  replicate_loop (replicate_attempts nd) nd w follower.

(** The node's [advance_commit] is the search of the group's. *)
Definition node_advance_commit (nd : NetworkRaftNode) : NetworkRaftNode :=
  set_group nd (advance_commit (group nd) (local nd)).

(** The first loop keeps the acknowledgements and ends at a lost leadership. *)
Fixpoint replicate_followers (nd : NetworkRaftNode) (w : W) (new_index : Z) (fs : list NodeId)
    (acked : list NodeId) : NetworkRaftNode * W * result ProposeError (list NodeId) :=
  match fs with
  | [] => (nd, w, Ok acked)
  | f :: rest =>
      match replicate_to nd w f with
      | (nd, w, Ok _) =>
          let m := match local_peer nd with
                   | Some p => default 0 (match_index p !! f) | None => 0 end in
          replicate_followers nd w new_index rest (if new_index <=? m then acked ++ [f] else acked)
      | (nd, w, Err (SteppedDown t)) => (nd, w, Err (SteppedDown t))
      | (nd, w, Err _) => replicate_followers nd w new_index rest acked
      end
  end.
(** The second loop spreads the commit and drops errors. *)
Fixpoint spread_commit (nd : NetworkRaftNode) (w : W) (online : list NodeId) (fs : list NodeId)
    : NetworkRaftNode * W :=
  match fs with
  | [] => (nd, w)
  | f :: rest =>
      if (f =? local nd) || negb (bool_decide (f ∈ online)) then spread_commit nd w online rest
      else let '(nd, w, _) := replicate_to nd w f in spread_commit nd w online rest
  end.

(** The evidence of an earlier proposal with the same operation id. *)
Definition prior_proposal (nd : NetworkRaftNode) (oid : option (list byte)) : option ProposeResult :=
  oid ← oid; idx ← propose_dedup nd !! oid; peer ← local_peer nd;
  if bool_decide (role peer = Leader) && (idx <=? commit_index peer) then
    e ← entry_at peer idx;
    Some {| pr_entry := e; pr_term := e_term e; pr_position := idx; replica_acks := node_quorum nd;
            pr_acked_by := [local nd]; pr_committed := true; pr_commit_index := commit_index peer |}
  else None.

Definition propose (nd : NetworkRaftNode) (w : W) (command : LogCommand) (online : list NodeId)
    (oid : option (list byte)) : NetworkRaftNode * W * result ProposeError ProposeResult :=
  match prior_proposal nd oid with
  | Some r => (nd, w, Ok r)
  | None =>
  match local_peer nd with
  | None => (nd, w, Err NotLeader)
  | Some peer =>
      if negb (bool_decide (role peer = Leader)) then (nd, w, Err NotLeader)
      else
        let me := local nd in
        let t := current_term peer in
        let new_index := last_log_index peer + 1 in
        let entry := {| e_term := t; e_index := new_index; e_command := command |} in
        let peer' := set_indices (set_log peer (log peer ++ [entry]))
                       (<[me := new_index + 1]> (next_index peer))
                       (<[me := new_index]> (match_index peer)) in
        let nd := set_group nd (with_peers (group nd) (<[me := peer']> (peers (group nd)))) in
        if negb (flush_peer save (group nd) me) then
          (upd_local nd (fun p =>
             let p := if last_log_index p =? new_index then set_log p (removelast (log p)) else p in
             set_indices p (<[me := last_log_index p + 1]> (next_index p))
                           (<[me := last_log_index p]> (match_index p))), w,
           Err ProposePersistFailed)
        else
          let followers := List.filter
            (fun v => negb (v =? me) && bool_decide (v ∈ online)) (voters (group nd)) in
          match replicate_followers nd w new_index followers [me] with
          | (nd, w, Err e) => (nd, w, Err e)
          | (nd, w, Ok acked) =>
              let nd := node_advance_commit nd in
              let commit := node_commit_index nd in
              let committed := new_index <=? commit in
              let '(nd, w) := if committed then spread_commit nd w online (voters (group nd))
                              else (nd, w) in
              let nd := match oid with
                        | Some o => if committed then set_dedup nd (<[o := new_index]> (propose_dedup nd))
                                    else nd
                        | None => nd
                        end in
              (nd, w, Ok {| pr_entry := entry; pr_term := t; pr_position := new_index;
                            replica_acks := Z.of_nat (length acked); pr_acked_by := acked;
                            pr_committed := committed; pr_commit_index := commit |})
          end
  end end.

Definition send_snapshot (nd : NetworkRaftNode) (w : W) (follower : NodeId) (blob : list byte)
    : W * result RaftRpcError InstallSnapshotResponse :=
  if negb (is_leader nd) then (w, Err (Fenced (lit "not leader")))
  else match local_peer nd with
  | None => (w, Err (Protocol (lit "missing local peer")))
  | Some p =>
      rpc_install_snapshot follower
        {| i_cluster_id := cluster_hex nd; i_partition := partition (group nd);
           i_placement_epoch := placement_epoch (group nd); i_term := current_term p;
           i_leader_id := local nd; i_last_included_index := last_log_index p;
           i_last_included_term := last_log_term p;
           i_blob_checksum := PeerStore.hex32 (blake3 blob); i_blob := blob |} w
  end.
End Calls.

(** ** The in-process network *)

Record MemoryRaftNetwork := { net_nodes : gmap Z (gmap Z NetworkRaftNode); net_offline : gset Z }.
Definition network_new : MemoryRaftNetwork := {| net_nodes := ∅; net_offline := ∅ |}.
Definition register (net : MemoryRaftNetwork) (nd : NetworkRaftNode) : MemoryRaftNetwork :=
  let p := partition (group nd) in
  {| net_nodes := <[p := <[local nd := nd]> (default ∅ (net_nodes net !! p))]> (net_nodes net);
     net_offline := net_offline net |}.
Definition net_mark_offline (net : MemoryRaftNetwork) (n : NodeId) : MemoryRaftNetwork :=
  {| net_nodes := net_nodes net; net_offline := {[n]} ∪ net_offline net |}.
Definition net_mark_online (net : MemoryRaftNetwork) (n : NodeId) : MemoryRaftNetwork :=
  {| net_nodes := net_nodes net; net_offline := net_offline net ∖ {[n]} |}.
Definition is_offline (net : MemoryRaftNetwork) (n : NodeId) : bool := bool_decide (n ∈ net_offline net).
Definition peer_arc (net : MemoryRaftNetwork) (p : Z) (n : NodeId) : option NetworkRaftNode :=
  m ← net_nodes net !! p; m !! n.
Definition store_node (net : MemoryRaftNetwork) (p : Z) (nd : NetworkRaftNode) : MemoryRaftNetwork :=
  {| net_nodes := alter (insert (local nd) nd) p (net_nodes net); net_offline := net_offline net |}.
(** Hash maps are walked in key order. *)
Definition online_voters (net : MemoryRaftNetwork) (p : Z) : list NodeId :=
  match net_nodes net !! p with
  | None => []
  | Some m => List.filter (fun n => negb (is_offline net n)) (fst <$> map_to_list m)
  end.

(** [with_node_mut] under the checks of [MemoryRaftTransport]. *)
Definition route {R} (net : MemoryRaftNetwork) (p : Z) (to : NodeId)
    (f : NetworkRaftNode -> NetworkRaftNode * result RaftRpcError R)
    : MemoryRaftNetwork * result RaftRpcError R :=
  if is_offline net to then (net, Err (Unavailable (lit "node-" ++ decimal to ++ lit " offline")))
  else match peer_arc net p to with
       | None => (net, Err (Unavailable (lit "node-" ++ decimal to ++ lit " missing")))
       | Some nd => let '(nd', r) := f nd in (store_node net p nd', r)
       end.
Definition MemoryRaftTransport (p : Z) : RaftTransport MemoryRaftNetwork := {|
  rpc_request_vote to req net := route net p to (fun nd => handle_request_vote nd req);
  rpc_append_entries to req net := route net p to (fun nd => handle_append_entries nd req);
  rpc_install_snapshot to req net := route net p to (fun nd => handle_install_snapshot nd req);
  rpc_read_index to req net := route net p to (fun nd => handle_read_index nd req) |}.

Definition net_campaign (net : MemoryRaftNetwork) (p : Z) (candidate : NodeId)
    : MemoryRaftNetwork * result ElectError (NodeId * Term) :=
  match peer_arc net p candidate with
  | None => (net, Err NotAVoter)
  | Some nd =>
      let '(nd, net, r) := campaign (T := MemoryRaftTransport p) nd net (online_voters net p) in
      (store_node net p nd, r)
  end.
Definition net_propose (net : MemoryRaftNetwork) (p : Z) (leader : NodeId) (command : LogCommand)
    (oid : option (list byte)) : MemoryRaftNetwork * result ProposeError ProposeResult :=
  match peer_arc net p leader with
  | None => (net, Err NotLeader)
  | Some nd =>
      let '(nd, net, r) := propose (T := MemoryRaftTransport p) nd net command (online_voters net p) oid in
      (store_node net p nd, r)
  end.
Definition net_current_leader (net : MemoryRaftNetwork) (p : Z) : option (NodeId * Term) :=
  match List.find (fun n => match peer_arc net p n with Some nd => is_leader nd | None => false end)
          (online_voters net p) with
  | Some n => nd ← peer_arc net p n; Some (local nd, node_term nd)
  | None => None
  end.
End Node.
End Rpc.
