(* ===== verification/RaftRpcFacts.v ===== *)
(** * Elections over a network

    Nodes that exchange messages in any order, with any of them lost, delayed or
    repeated, elect at most one leader in a term; the in-process network is such a
    system.  Runs of it show what the record of operation ids and the snapshots of a
    leader do not guarantee. *)
From S2P Require Import Prelude Cbor AtomicFile AtomicPlan SegmentIds Raft RaftFacts RaftStore RaftRpc.
Import Rpc.

(** ** What an operation does to the local peer *)

(** Nothing that elections depend on, or a later term without leadership. *)
Definition advances (p p' : RaftPeer) : Prop :=
  hard p' = hard p \/ (current_term p < current_term p' /\ role p' <> Leader).
#[global] Instance advances_preorder : PreOrder advances.
Proof.
  split; [by left|]. intros p q r [H1|[H1 R1]] [H2|[H2 R2]].
  - left. congruence.
  - right. injection H1 as Ht _ _. split; [lia|done].
  - right. injection H2 as Ht _ Hr. split; [lia|congruence].
  - right. split; [lia|done].
Qed.

(** Nodes that differ in their local peer at most. *)
Definition same_node (nd nd' : NetworkRaftNode) : Prop :=
  local nd' = local nd /\ voters (group nd') = voters (group nd).
Definition peer_step (R : RaftPeer -> RaftPeer -> Prop) (nd nd' : NetworkRaftNode) : Prop :=
  same_node nd nd'
  /\ forall p, local_peer nd = Some p -> exists p', local_peer nd' = Some p' /\ R p p'.

Lemma peer_step_trans nd1 nd2 nd3 :
  peer_step advances nd1 nd2 -> peer_step advances nd2 nd3 -> peer_step advances nd1 nd3.
Proof.
  intros [[L1 V1] S1] [[L2 V2] S2]. split; [split; congruence|]. intros p Hp.
  destruct (S1 p Hp) as (q & Hq & H1). destruct (S2 q Hq) as (r & Hr & H2).
  exists r. split; [done|]. by transitivity q.
Qed.
Lemma peer_step_refl nd : peer_step advances nd nd.
Proof. split; [by split|]. intros p Hp. by exists p. Qed.

Lemma upd_local_step (R : RaftPeer -> RaftPeer -> Prop) nd f :
  (forall p, local_peer nd = Some p -> R p (f p)) -> peer_step R nd (upd_local nd f).
Proof.
  intros Hf. split; [by split|]. intros p Hp. exists (f p). split; [|by apply Hf].
  unfold local_peer, upd_local, upd in *. cbn. by rewrite lookup_alter_eq, Hp.
Qed.

Section Ops.
Context {H : Blake3}.
Context (save : NodeId -> RaftPeer -> bool)
        (save_snapshot : NodeId -> Z -> Term -> list byte -> list LogEntry -> bool).

(** The request vote of a voter with a local peer. *)
Lemma request_vote_peer g v c t li lt p :
  peers g !! v = Some p ->
  let '(g', res) := request_vote save g v c t li lt in
  voters g' = voters g /\ exists p', peers g' !! v = Some p'
  /\ (if vote_granted res then
        current_term p <= t /\ (current_term p = t -> voted_for p = None \/ voted_for p = Some c)
        /\ current_term p' = t /\ voted_for p' = Some c
        /\ (role p' = Leader -> current_term p = t /\ role p = Leader)
      else hard p' = hard p \/ (current_term p < current_term p' /\ role p' <> Leader)).
Proof.
  intros Hp. unfold request_vote. rewrite Hp.
  destruct (Z.ltb_spec t (current_term p)) as [|Hle]; [split; [done|]; exists p; split; [done|by left]|].
  set (p1 := if current_term p <? t then become_follower p t else p).
  assert (Hp1 : (current_term p < t /\ p1 = become_follower p t) \/ (current_term p = t /\ p1 = p)).
  { unfold p1. destruct (Z.ltb_spec (current_term p) t); [left|right]; (split; [lia|done]). }
  destruct (_ && _) eqn:Hcan; [destruct (negb _)|]; cbn [vote_granted]; (split; [done|]);
    eexists; (split; [cbn; by rewrite lookup_insert_eq|]).
  - destruct Hp1 as [[Hlt ->]|[_ ->]]; [right; by split|by left].
  - apply andb_true_iff in Hcan as [Hcan _]. split_and!; [done| |done|done|].
    + intros He. destruct Hp1 as [[Hlt _]|[_ E1]]; [lia|]. rewrite E1 in Hcan.
      destruct (voted_for p) as [x|]; [|by left]. apply Z.eqb_eq in Hcan as ->. by right.
    + destruct Hp1 as [[Hlt ->]|[He ->]]; [done|]. done.
  - destruct Hp1 as [[Hlt ->]|[_ ->]]; [right; by split|by left].
Qed.

(** A message of a leader is followed, or ignored. *)
Definition follows (L : NodeId) (t : Term) (p p' : RaftPeer) : Prop :=
  hard p' = hard p \/ (current_term p <= t /\ hard p' = (t, Some L, Follower)).

Lemma append_entries_peer g f L t pi pt es lc p :
  peers g !! f = Some p ->
  let '(g', res) := append_entries save g f L t pi pt es lc in
  voters g' = voters g /\ exists p', peers g' !! f = Some p' /\ follows L t p p'.
Proof.
  intros Hp. unfold append_entries. rewrite Hp.
  destruct (Z.ltb_spec t (current_term p)) as [|Hle]; [split; [done|]; exists p; split; [done|by left]|].
  assert (Ha : follows L t p (adopt_leader p L t)).
  { unfold adopt_leader. destruct (_ && _); [right; by split|by left]. }
  assert (Hacc : forall q, follows L t p q ->
    let '(g', res) := accept_append save g f q es lc in
    voters g' = voters g /\ exists p', peers g' !! f = Some p' /\ follows L t p p').
  { intros q Hq. unfold accept_append, refuse_append.
    destruct (append_log (log q) es) as [l [c|]]; (split; [done|]); eexists;
      (split; [cbn; by rewrite lookup_insert_eq|]); [exact Hq|].
    by destruct (commit_index _ <? lc). }
  destruct (0 <? pi); [|by apply Hacc].
  destruct (term_at _ pi) as [t'|]; [destruct (t' =? pt)|]; [by apply Hacc|..];
    unfold refuse_append; (split; [done|]); eexists; (split; [cbn; by rewrite lookup_insert_eq|done]).
Qed.

Lemma install_local_peer g n i b p :
  peers g !! n = Some p ->
  let '(g', r) := install_local_snapshot save save_snapshot g n i b in
  voters g' = voters g /\ exists p', peers g' !! n = Some p' /\ hard p' = hard p.
Proof.
  intros Hp. unfold install_local_snapshot. rewrite Hp.
  destruct (term_at p i) as [t|]; [|split; [done|by exists p]].
  destruct (bool_decide (n ∈ _)); [destruct (_ && _)|]; (split; [done|]); eexists;
    (split; [cbn; by rewrite lookup_insert_eq|done]).
Qed.
Lemma force_install_peer g n i t b p :
  peers g !! n = Some p ->
  let '(g', r) := force_install_snapshot save save_snapshot g n i t b in
  voters g' = voters g /\ exists p', peers g' !! n = Some p' /\ hard p' = hard p.
Proof.
  intros Hp. unfold force_install_snapshot. rewrite Hp.
  match goal with |- context [install_local_snapshot save save_snapshot ?G n i b] =>
    pose proof (install_local_peer G n i b) as Hi;
    destruct (install_local_snapshot save save_snapshot G n i b) as [g' r] end.
  cbn [peers with_peers] in Hi. rewrite lookup_insert_eq in Hi. by destruct (Hi _ eq_refl).
Qed.

Lemma handle_append_step nd req :
  peer_step (follows (a_leader_id req) (a_term req)) nd (fst (handle_append_entries save nd req)).
Proof.
  unfold handle_append_entries. destruct (check_fence _ _ _ _); cbn [fst].
  2: { split; [by split|]. intros p Hp. exists p. split; [done|by left]. }
  match goal with |- context [append_entries save ?G ?F ?L ?T ?PI ?PT ?ES ?LC] =>
    pose proof (append_entries_peer G F L T PI PT ES LC) as Ha;
    destruct (append_entries save G F L T PI PT ES LC) as [g' res] eqn:Hr end.
  cbn [fst]. split.
  - split; [done|]. destruct (peers (group nd) !! local nd) as [p|] eqn:Hp; [by apply (Ha p)|].
    unfold append_entries in Hr. rewrite Hp in Hr. by injection Hr as <- _.
  - intros p Hp. destruct (Ha p Hp) as (_ & p' & Hp' & Hf). by exists p'.
Qed.

Lemma handle_snapshot_step nd req :
  is_Some (local_peer nd) ->
  peer_step (follows (i_leader_id req) (i_term req)) nd (fst (handle_install_snapshot save save_snapshot nd req)).
Proof.
  intros [p Hp].
  assert (Hrefl : peer_step (follows (i_leader_id req) (i_term req)) nd nd).
  { split; [by split|]. intros q Hq. exists q. split; [done|by left]. }
  unfold handle_install_snapshot. destruct (check_fence _ _ _ _); [|done].
  destruct (Z.ltb_spec (i_term req) (node_term nd)) as [|Hle]; [done|].
  set (nd1 := upd_local nd _).
  assert (H1 : peer_step (follows (i_leader_id req) (i_term req)) nd nd1).
  { apply upd_local_step. intros q Hq. unfold follow_sender. destruct (_ || _); [|by left].
    right. split; [|done]. unfold node_term in Hle. by rewrite Hq in Hle. }
  destruct (_ && _); [done|]. destruct H1 as [Hs1 H1]. destruct (H1 p Hp) as (p1 & Hp1 & Hf1).
  set (has := match local_peer nd1 with Some _ => _ | None => _ end).
  match goal with |- context [let '(g, r) := ?M in _] =>
    assert (Hm : voters (fst M) = voters (group nd1)
                 /\ exists p', peers (fst M) !! local nd1 = Some p' /\ hard p' = hard p1) end.
  { destruct has.
    - pose proof (install_local_peer (group nd1) (local nd1) (i_last_included_index req) (i_blob req) p1 Hp1) as Hi.
      by destruct (install_local_snapshot _ _ _ _ _ _).
    - pose proof (force_install_peer (group nd1) (local nd1) (i_last_included_index req)
                    (i_last_included_term req) (i_blob req) p1 Hp1) as Hi.
      by destruct (force_install_snapshot _ _ _ _ _ _ _). }
  match goal with |- context [let '(g, r) := ?M in _] => destruct M as [g r] end. cbn [fst] in *.
  destruct Hm as (Hv & p' & Hp' & Hh). destruct Hs1 as [L1 V1]. split; [split; [done|by rewrite <- V1]|].
  intros q Hq. assert (q = p) as -> by congruence. exists p'. split; [done|].
  destruct Hf1 as [Hf1|[Hle1 Hf1]]; [left|right]; [congruence|]. split; [done|congruence].
Qed.
End Ops.

(** ** Calls against any answers *)

(** A transport that answers from a script: whatever the world replies. *)
Record Script := {
  vote_replies : list (result RaftRpcError RequestVoteResponse);
  append_replies : list (result RaftRpcError AppendEntriesResponse) }.
Definition lost {R} : result RaftRpcError R := Err (Rpc.Timeout []).
#[global] Instance scripted : RaftTransport Script := {|
  rpc_request_vote _ _ w :=
    ({| vote_replies := tl (vote_replies w); append_replies := append_replies w |},
     default lost (head (vote_replies w)));
  rpc_append_entries _ _ w :=
    ({| vote_replies := vote_replies w; append_replies := tl (append_replies w) |},
     default lost (head (append_replies w)));
  rpc_install_snapshot _ _ w := (w, lost);
  rpc_read_index _ _ w := (w, lost) |}.

Section Calls.
Context (save : NodeId -> RaftPeer -> bool).

Lemma failures_step nd m : peer_step advances nd (set_failures nd m).
Proof. split; [by split|]. intros p Hp. exists p. split; [done|by left]. Qed.
Lemma upd_hard_step nd f :
  (forall p, advances p (f p)) -> peer_step advances nd (upd_local nd f).
Proof. intros Hf. apply upd_local_step. intros p _. apply Hf. Qed.

Lemma replicate_loop_step fuel nd (w : Script) f :
  peer_step advances nd (Rpc.replicate_loop fuel nd w f).1.1.
Proof.
  revert nd w. induction fuel as [|fuel IH]; intros nd w; [apply peer_step_refl|].
  cbn [Rpc.replicate_loop]. destruct (local_peer nd) as [p|] eqn:Hp; [|apply peer_step_refl].
  destruct (negb _); [apply peer_step_refl|]. cbn [rpc_append_entries scripted].
  destruct (default lost (head (append_replies w))) as [res|e]; cbn [fst]; [|apply failures_step].
  destruct (Z.ltb_spec (a_term (append_request nd p f)) (aresp_term res)) as [Hlt|_].
  - cbn [fst]. eapply peer_step_trans; [apply failures_step|].
    apply upd_local_step. intros q Hq. right. cbn in Hlt |- *.
    assert (q = p) as -> by (unfold local_peer in *; cbn in Hq; congruence). by split.
  - destruct (success res); cbn [fst].
    + eapply peer_step_trans; [apply failures_step|]. apply upd_hard_step. by left.
    + eapply peer_step_trans; [|apply IH]. eapply peer_step_trans; [apply failures_step|].
      apply upd_hard_step. by left.
Qed.
Lemma replicate_to_step nd (w : Script) f : peer_step advances nd (Rpc.replicate_to nd w f).1.1.
Proof. apply replicate_loop_step. Qed.
Lemma replicate_followers_step fs nd (w : Script) i acked :
  peer_step advances nd (replicate_followers nd w i fs acked).1.1.
Proof.
  revert nd w acked. induction fs as [|f fs IH]; intros nd w acked; [apply peer_step_refl|].
  cbn [replicate_followers]. pose proof (replicate_to_step nd w f) as Hs.
  destruct (Rpc.replicate_to nd w f) as [[nd1 w1] [[]|[]]]; cbn [fst] in *; try done;
    (eapply peer_step_trans; [exact Hs|apply IH]).
Qed.
Lemma spread_commit_step fs nd (w : Script) online :
  peer_step advances nd (spread_commit nd w online fs).1.
Proof.
  revert nd w. induction fs as [|f fs IH]; intros nd w; [apply peer_step_refl|].
  cbn [spread_commit]. destruct (_ || _); [apply IH|].
  pose proof (replicate_to_step nd w f) as Hs.
  destruct (Rpc.replicate_to nd w f) as [[nd1 w1] r]. cbn [fst] in Hs.
  eapply peer_step_trans; [exact Hs|apply IH].
Qed.
Lemma advance_step nd : peer_step advances nd (node_advance_commit nd).
Proof.
  assert (Hsame : peer_step advances nd (set_group nd (group nd))).
  { split; [by split|]. intros p Hp. exists p. split; [done|by left]. }
  unfold node_advance_commit, advance_commit.
  destruct (peers (group nd) !! local nd) as [p|] eqn:Hp; [|done].
  destruct (negb _); [done|]. destruct (List.find _ _) as [n|]; [|done].
  apply (upd_hard_step nd). by left.
Qed.

(** Proposing keeps the vote of a term and never makes a leader. *)
Lemma propose_step nd (w : Script) cmd online oid :
  peer_step advances nd (Rpc.propose save nd w cmd online oid).1.1.
Proof.
  unfold Rpc.propose. destruct (prior_proposal nd oid); [apply peer_step_refl|].
  destruct (local_peer nd) as [p|] eqn:Hp; [|apply peer_step_refl].
  destruct (negb _); [apply peer_step_refl|].
  set (nd1 := set_group nd _).
  assert (H1 : peer_step advances nd nd1).
  { split; [by split|]. intros q Hq. assert (q = p) as -> by congruence. eexists.
    split; [unfold local_peer, nd1; cbn; by rewrite lookup_insert_eq|by left]. }
  destruct (negb _).
  { cbn [fst]. eapply peer_step_trans; [exact H1|]. apply upd_hard_step. intros q. left.
    by destruct (_ =? _). }
  match goal with |- context [replicate_followers ?A ?B ?C ?D ?E] =>
    pose proof (replicate_followers_step D A B C E) as H2;
    destruct (replicate_followers A B C D E) as [[nd2 w2] [acked|e]] end; cbn [fst] in *;
    [|by eapply peer_step_trans].
  set (nd3 := node_advance_commit nd2). pose proof (advance_step nd2) as H3. fold nd3 in H3.
  match goal with |- context [let '(a, b) := ?M in _] =>
    assert (H4 : peer_step advances nd3 (fst M));
    [|destruct M as [nd4 w4]; cbn [fst] in *] end.
  { destruct (_ <=? _); [apply spread_commit_step|apply peer_step_refl]. }
  assert (H5 : peer_step advances nd nd4).
  { eapply peer_step_trans; [exact H1|]. eapply peer_step_trans; [exact H2|].
    by eapply peer_step_trans. }
  destruct oid as [o|]; [|done]. by destruct (_ <=? _).
Qed.

(** ** Campaigns *)

Definition contacted (nd : NetworkRaftNode) (online vs : list NodeId) : list NodeId :=
  List.filter (fun v => negb ((v =? local nd) || negb (bool_decide (v ∈ online)))) vs.

(** The votes counted are those of contacted voters whose reply grants one. *)
Lemma ask_votes_spec req online vs : forall nd (w : Script) n nd' w' votes hi,
  NoDup vs -> ask_votes nd w req online vs n = (nd', w', votes, hi) ->
  peer_step eq nd nd' /\ group nd' = group nd
  /\ (forall h, hi = Some h -> v_term req < h)
  /\ exists G, NoDup G /\ votes = n + Z.of_nat (length G)
     /\ forall v, v ∈ G -> v ∈ vs /\ v <> local nd
        /\ exists i r, contacted nd online vs !! i = Some v /\ vote_replies w !! i = Some (Ok r)
                       /\ vresp_granted r = true.
Proof.
  induction vs as [|v vs IH]; intros nd w n nd' w' votes hi Hnd; cbn [ask_votes].
  { intros [= <- <- <- <-]. split_and!; [split; [by split|]; eauto|done|done|].
    exists []. split_and!; [constructor|cbn; lia|]. by intros v Hv%not_elem_of_nil. }
  apply NoDup_cons in Hnd as [Hv Hnd]. unfold contacted. cbn [List.filter].
  destruct ((v =? local nd) || negb (bool_decide (v ∈ online))) eqn:Hskip; cbn [negb].
  - intros Ha. destruct (IH _ _ _ _ _ _ _ Hnd Ha) as (H1 & H2 & H3 & G & HG & Hn & Hin).
    split_and!; [done..|]. exists G. split_and!; [done..|]. intros x Hx.
    destruct (Hin x Hx) as (? & ? & ?). split_and!; [by right|done|done].
  - apply orb_false_iff in Hskip as [Hne%Z.eqb_neq _]. cbn [rpc_request_vote scripted].
    assert (Hrest : forall nd1 n1, local nd1 = local nd -> group nd1 = group nd ->
      ask_votes nd1 {| vote_replies := tl (vote_replies w); append_replies := append_replies w |}
        req online vs n1 = (nd', w', votes, hi) ->
      peer_step eq nd nd' /\ group nd' = group nd /\ (forall h, hi = Some h -> v_term req < h)
      /\ exists G, NoDup G /\ votes = n1 + Z.of_nat (length G)
         /\ forall x, x ∈ G -> x ∈ vs /\ x <> local nd
            /\ exists i r, (v :: contacted nd online vs) !! i = Some x
                 /\ vote_replies w !! i = Some (Ok r) /\ vresp_granted r = true).
    { intros nd1 n1 Hl Hg Ha. destruct (IH _ _ _ _ _ _ _ Hnd Ha) as ([[L V] P] & H2 & H3 & G & HG & Hn & Hin).
      split_and!; [|congruence|done|].
      - split; [split; congruence|]. intros p Hp. apply P. unfold local_peer in *. by rewrite Hl, Hg.
      - exists G. split_and!; [done..|]. intros x Hx. destruct (Hin x Hx) as (? & ? & i & r & Hi & Hr & Hgr).
        split_and!; [done|congruence|]. exists (S i), r. unfold contacted in *. rewrite Hl in Hi.
        split_and!; [done| |done]. cbn in Hr. by destruct (vote_replies w). }
    destruct (head (vote_replies w)) as [[res|e]|] eqn:Hh; cbn [from_option id].
    + destruct (Z.ltb_spec (v_term req) (vresp_term res)) as [Hlt|_].
      * intros [= <- <- <- <-]. split_and!; [split; [by split|]; eauto|done|by intros h [= <-]|].
        exists []. split_and!; [constructor|cbn; lia|]. by intros x Hx%not_elem_of_nil.
      * intros Ha. destruct (Hrest (peer_answered nd v) _ eq_refl eq_refl Ha) as (H1 & H2 & H3 & G & HG & Hn & Hin).
        split_and!; [done..|]. destruct (vresp_granted res) eqn:Hgr.
        -- exists (v :: G). split_and!.
           ++ constructor; [|done]. intros Hg. by destruct (Hin v Hg) as (? & _).
           ++ cbn [length]. lia.
           ++ intros x [->|Hx]%elem_of_cons; [|destruct (Hin x Hx) as (? & ? & ?); split_and!; [by right|done|done]].
              split_and!; [by left|done|]. exists 0%nat, res. split_and!; [done| |done].
              by destruct (vote_replies w) as [|y l]; cbn in Hh; simplify_eq.
        -- exists G. split_and!; [done..|]. intros x Hx. destruct (Hin x Hx) as (? & ? & ?).
           split_and!; [by right|done|done].
    + intros Ha. destruct (Hrest (peer_failed nd v) _ eq_refl eq_refl Ha) as (H1 & H2 & H3 & G & HG & Hn & Hin).
      split_and!; [done..|]. exists G. split_and!; [done..|]. intros x Hx.
      destruct (Hin x Hx) as (? & ? & ?). split_and!; [by right|done|done].
    + intros Ha. destruct (Hrest (peer_failed nd v) _ eq_refl eq_refl Ha) as (H1 & H2 & H3 & G & HG & Hn & Hin).
      split_and!; [done..|]. exists G. split_and!; [done..|]. intros x Hx.
      destruct (Hin x Hx) as (? & ? & ?). split_and!; [by right|done|done].
Qed.
End Calls.

(** ** Runs of a network *)

Abbreviation Nodes := (gmap Z NetworkRaftNode).

Section Network.
Context {H : Blake3}.
Context (save : NodeId -> RaftPeer -> bool)
        (save_snapshot : NodeId -> Z -> Term -> list byte -> list LogEntry -> bool).
Context (vs : list NodeId).

(** The nodes, the elections that were won and the votes that were granted.  A node acts
    alone while it is locked; what it hears from the others is a script.  A reply that
    grants a vote was given; messages of leaders come from nodes that won the term.
    Anything may be lost, late or repeated. *)
Inductive net_step : Nodes * Elections * Votes -> Nodes * Elections * Votes -> Prop :=
| ns_vote ns E V n nd req nd' r : ns !! n = Some nd ->
    handle_request_vote save nd req = (nd', r) ->
    net_step (ns, E, V)
      (<[n := nd']> ns, E,
       match r with
       | Ok x => if vresp_granted x then (n, v_term req, candidate_id req) :: V else V
       | Err _ => V
       end)
| ns_append ns E V n nd req : ns !! n = Some nd -> (a_leader_id req, a_term req) ∈ E ->
    net_step (ns, E, V) (<[n := fst (handle_append_entries save nd req)]> ns, E, V)
| ns_snapshot ns E V n nd req : ns !! n = Some nd -> (i_leader_id req, i_term req) ∈ E ->
    net_step (ns, E, V) (<[n := fst (handle_install_snapshot save save_snapshot nd req)]> ns, E, V)
| ns_propose ns E V n nd (w : Script) cmd online oid : ns !! n = Some nd ->
    net_step (ns, E, V) (<[n := (Rpc.propose save nd w cmd online oid).1.1]> ns, E, V)
| ns_campaign ns E V n nd (w : Script) online nd' w' r : ns !! n = Some nd ->
    campaign save nd w online = (nd', w', r) ->
    (forall i v x, contacted nd online (voters (group nd)) !! i = Some v ->
       vote_replies w !! i = Some (Ok x) -> vresp_granted x = true -> (v, node_term nd + 1, n) ∈ V) ->
    net_step (ns, E, V)
      (<[n := nd']> ns, match r with Ok won => won :: E | Err _ => E end, V).

Definition fresh_node (n : NodeId) (nd : NetworkRaftNode) : Prop :=
  local nd = n /\ voters (group nd) = vs /\ local_peer nd = Some (peer_new n).

(** The group that the local peers of the nodes form together. *)
Definition joined_group (ns : Nodes) : PartitionRaft := with_peers (raft_new 0 vs 0) (omap local_peer ns).

Definition nodes_ok (ns : Nodes) : Prop :=
  forall n nd, ns !! n = Some nd -> local nd = n /\ voters (group nd) = vs /\ is_Some (local_peer nd).

(** A vote for a node that had won the term already need not be counted. *)
Definition net_inv (st : Nodes * Elections * Votes) : Prop :=
  let '(ns, E, V) := st in
  nodes_ok ns /\ exists V', elections_ok vs (joined_group ns) E V'
    /\ forall v t c, (v, t, c) ∈ V -> (v, t, c) ∈ V' \/ (c, t) ∈ E.

Lemma joined_lookup ns n : peers (joined_group ns) !! n = ns !! n ≫= local_peer.
Proof. unfold joined_group. cbn. apply lookup_omap. Qed.
Lemma joined_insert ns n nd p : local_peer nd = Some p ->
  joined_group (<[n := nd]> ns) = with_peers (joined_group ns) (<[n := p]> (peers (joined_group ns))).
Proof. intros Hp. unfold joined_group, with_peers. cbn. f_equal. by apply omap_insert_Some. Qed.

Lemma nodes_insert ns n nd nd' p : nodes_ok ns -> ns !! n = Some nd -> same_node nd nd' ->
  local_peer nd' = Some p -> nodes_ok (<[n := nd']> ns).
Proof.
  intros Hok Hn [Hl Hv] Hp m x Hx. destruct (decide (m = n)) as [->|Hne].
  - rewrite lookup_insert_eq in Hx. injection Hx as <-. destruct (Hok n nd Hn) as (? & ? & _).
    split_and!; [congruence..|by eexists].
  - rewrite lookup_insert_ne in Hx by done. by apply (Hok m).
Qed.

(** A step of the local peer that elections do not notice. *)
Lemma net_inv_peer ns E V n nd nd' (R : RaftPeer -> RaftPeer -> Prop) :
  net_inv (ns, E, V) -> ns !! n = Some nd -> peer_step R nd nd' ->
  (forall p p', local_peer nd = Some p -> R p p' ->
     current_term p <= current_term p'
     /\ (current_term p' = current_term p -> voted_for p' = voted_for p
         \/ exists L, voted_for p' = Some L /\ (L, current_term p') ∈ E)
     /\ (role p' = Leader -> current_term p' = current_term p /\ role p = Leader)) ->
  net_inv (<[n := nd']> ns, E, V).
Proof.
  intros [Hok (V' & He & Hsub)] Hn [Hs Hstep] HR. destruct (Hok n nd Hn) as (Hl & Hv & p & Hp).
  destruct (Hstep p Hp) as (p' & Hp' & HRp). destruct (HR p p' Hp HRp) as (H1 & H2 & H3).
  split; [by eapply nodes_insert|]. exists V'. split; [|done]. rewrite (joined_insert ns n nd' p' Hp').
  assert (Hj : peers (joined_group ns) !! n = Some p) by (rewrite joined_lookup, Hn; exact Hp).
  apply (elections_update vs (joined_group ns) E V' n p); try done.
  intros Hr. destruct (H3 Hr) as [-> Hr']. by apply (eo_leader _ _ _ _ He n).
Qed.

Lemma advances_unnoticed (E : Elections) p p' : advances p p' ->
  current_term p <= current_term p'
  /\ (current_term p' = current_term p -> voted_for p' = voted_for p
      \/ exists L, voted_for p' = Some L /\ (L, current_term p') ∈ E)
  /\ (role p' = Leader -> current_term p' = current_term p /\ role p = Leader).
Proof.
  intros [Hh|[Hlt Hr]].
  - injection Hh as -> -> ->. split_and!; [lia|by left|done].
  - split_and!; [lia|lia|done].
Qed.
Lemma follows_unnoticed L t (E : Elections) p p' : follows L t p p' -> (L, t) ∈ E ->
  current_term p <= current_term p'
  /\ (current_term p' = current_term p -> voted_for p' = voted_for p
      \/ exists L, voted_for p' = Some L /\ (L, current_term p') ∈ E)
  /\ (role p' = Leader -> current_term p' = current_term p /\ role p = Leader).
Proof.
  intros [Hh|[Hle Hh]] HE; injection Hh as -> -> ->.
  - split_and!; [lia|by left|done].
  - split_and!; [lia|right; by exists L|done].
Qed.

(** A vote: counted when the candidate has not won the term yet. *)
Lemma net_vote ns E V n nd req nd' r :
  net_inv (ns, E, V) -> ns !! n = Some nd -> handle_request_vote save nd req = (nd', r) ->
  net_inv (<[n := nd']> ns, E,
    match r with
    | Ok x => if vresp_granted x then (n, v_term req, candidate_id req) :: V else V
    | Err _ => V
    end).
Proof.
  intros Hi Hn Hh. pose proof Hi as [Hok (V' & He & Hsub)]. destruct (Hok n nd Hn) as (Hl & Hv & p & Hp).
  unfold handle_request_vote in Hh. destruct (check_fence _ _ _ _) as [u|e].
  2: { injection Hh as <- <-. rewrite insert_id by done. exact Hi. }
  match type of Hh with context [request_vote save ?G ?F ?C ?T ?LI ?LT] =>
    pose proof (request_vote_peer save G F C T LI LT p Hp) as Hr;
    destruct (request_vote save G F C T LI LT) as [g res] end.
  injection Hh as <- <-. destruct Hr as (Hg & p' & Hp' & Hres). cbn [vresp_granted].
  assert (Hs : peer_step (fun a b => a = p /\ b = p') nd (set_group nd g)).
  { split; [by split|]. intros q Hq. assert (q = p) as -> by congruence. by exists p'. }
  assert (Hj : peers (joined_group ns) !! n = Some p) by (rewrite joined_lookup, Hn; exact Hp).
  destruct (vote_granted res).
  2: { apply (net_inv_peer ns E V n nd _ _ Hi Hn Hs). intros ? ? _ [-> ->].
       by apply advances_unnoticed. }
  destruct Hres as (H1 & H2 & H3 & H4 & H5).
  destruct (decide ((candidate_id req, v_term req) ∈ E)) as [Hwon|Hnot].
  - assert (Hi' : net_inv (<[n := set_group nd g]> ns, E, V)).
    { apply (net_inv_peer ns E V n nd _ _ Hi Hn Hs). intros ? ? _ [-> ->].
      split_and!; [lia| |intros Hr; destruct (H5 Hr); split; [lia|done]].
      intros _. right. exists (candidate_id req). by rewrite H3. }
    destruct Hi' as [Hok' (V1 & He1 & Hsub1)]. split; [done|]. exists V1. split; [done|].
    intros v t c [[= -> -> ->]|Hin]%elem_of_cons; [by right|by apply Hsub1].
  - split; [by eapply nodes_insert; [| |apply Hs|]|]. exists ((n, v_term req, candidate_id req) :: V').
    split.
    + rewrite (joined_insert ns n _ p') by done. apply (elections_vote vs _ _ _ _ p); try done.
      intros Hr. destruct (H5 Hr) as [<- Hr']. by apply (eo_leader _ _ _ _ He n).
    + intros v t c [Hin|Hin]%elem_of_cons; [left; rewrite Hin; by left|].
      destruct (Hsub v t c Hin); [left; by right|by right].
Qed.

Lemma campaign_spec nd (w : Script) online nd' w' r p :
  NoDup (voters (group nd)) -> Z.of_nat (length (voters (group nd))) < 2 ^ 32 ->
  local_peer nd = Some p -> campaign save nd w online = (nd', w', r) ->
  same_node nd nd' /\ exists p', local_peer nd' = Some p' /\
  match r with
  | Err _ => advances p p'
  | Ok (c, t) => c = local nd /\ t = current_term p + 1 /\ current_term p' = t /\ voted_for p' = Some c
      /\ exists Q, NoDup Q /\ (length (voters (group nd)) < 2 * length Q)%nat
         /\ forall v, v ∈ Q -> v ∈ voters (group nd) /\ (v = local nd
             \/ exists i x, contacted nd online (voters (group nd)) !! i = Some v
                  /\ vote_replies w !! i = Some (Ok x) /\ vresp_granted x = true)
  end.
Proof.
  intros Hnd Hsmall Hp. unfold campaign.
  assert (Hid : same_node nd nd /\ exists p', local_peer nd = Some p' /\ advances p p').
  { split; [done|]. exists p. split; [done|by left]. }
  destruct (bool_decide_reflect (local nd ∈ voters (group nd))) as [Hin|]; cbn [negb];
    [|intros [= <- <- <-]; exact Hid].
  destruct (negb _); [intros [= <- <- <-]; exact Hid|]. rewrite Hp. clear Hid.
  set (cand := set_role _ Candidate). set (nd1 := set_group nd _).
  assert (Hp1 : local_peer nd1 = Some cand) by (unfold local_peer, nd1; cbn; by rewrite lookup_insert_eq).
  destruct (negb _).
  { intros [= <- <- <-]. split; [done|]. exists (set_role cand Follower). split.
    - unfold local_peer, upd_local, upd. cbn. by rewrite lookup_alter_eq, lookup_insert_eq.
    - right. cbn. split; [lia|done]. }
  destruct (ask_votes nd1 w (vote_request nd1 cand) online (voters (group nd1)) 1)
    as [[[nd2 w2] votes] hi] eqn:Hask.
  destruct (ask_votes_spec _ _ _ _ _ _ _ _ _ _ Hnd Hask) as ([[L2 _] _] & Hg2 & Hhi & G & HG & Hn & HGin).
  assert (Hp2 : local_peer nd2 = Some cand) by (unfold local_peer; rewrite Hg2, L2; exact Hp1).
  assert (Hend : forall f, same_node nd (upd_local nd2 f) /\ local_peer (upd_local nd2 f) = Some (f cand)).
  { intros f. split; [split; [exact L2|cbn; by rewrite Hg2]|].
    unfold local_peer, upd_local, upd in *. cbn. by rewrite lookup_alter_eq, Hp2. }
  destruct hi as [h|].
  { intros [= <- <- <-]. specialize (Hhi h eq_refl). destruct (Hend (fun p => become_follower p h)) as [H1 H2].
    split; [done|]. eexists. split; [exact H2|]. right. cbn in Hhi |- *. split; [lia|done]. }
  assert (Hq : node_quorum nd2 = Z.of_nat (length (voters (group nd))) / 2 + 1).
  { unfold node_quorum. rewrite Hg2. apply (quorum_spec (group nd1)). exact Hsmall. }
  destruct (Z.leb_spec (node_quorum nd2) votes) as [Hle|_].
  - intros [= <- <- <-]. match goal with |- context [upd_local nd2 ?F] => destruct (Hend F) as [H1 H2] end.
    split; [done|]. eexists. split; [exact H2|]. split_and!; [exact L2|done|done|cbn; f_equal; symmetry; exact L2|].
    exists (local nd :: G). split_and!.
    + apply NoDup_cons. split; [|done]. intros Hc. by destruct (HGin _ Hc) as (_ & ? & _).
    + cbn [length]. pose proof (Z.div_mod (Z.of_nat (length (voters (group nd)))) 2).
      pose proof (Z.mod_pos_bound (Z.of_nat (length (voters (group nd)))) 2). lia.
    + intros v [->|Hv]%elem_of_cons; [split; [done|by left]|]. destruct (HGin v Hv) as (? & _ & Hx).
      split; [done|right; exact Hx].
  - intros [= <- <- <-]. destruct (Hend (fun p => set_role p Follower)) as [H1 H2].
    split; [done|]. eexists. split; [exact H2|]. right. cbn. split; [lia|done].
Qed.

Context (Hvs : NoDup vs) (Hsmall : Z.of_nat (length vs) < 2 ^ 32).

Lemma net_campaigned ns E V n nd (w : Script) online nd' w' r :
  net_inv (ns, E, V) -> ns !! n = Some nd -> campaign save nd w online = (nd', w', r) ->
  (forall i v x, contacted nd online (voters (group nd)) !! i = Some v ->
     vote_replies w !! i = Some (Ok x) -> vresp_granted x = true -> (v, node_term nd + 1, n) ∈ V) ->
  net_inv (<[n := nd']> ns, match r with Ok won => won :: E | Err _ => E end, V).
Proof.
  intros Hi Hn Hc Hheard. pose proof Hi as [Hok (V' & He & Hsub)].
  destruct (Hok n nd Hn) as (Hl & Hv & p & Hp).
  destruct (campaign_spec nd w online nd' w' r p) as (Hs & p' & Hp' & Hr); [by rewrite Hv..|done|done|].
  destruct r as [[c t]|e].
  2: { apply (net_inv_peer ns E V n nd _ advances Hi Hn).
       - split; [done|]. intros q Hq. assert (q = p) as -> by congruence. by exists p'.
       - intros ? ? _. apply advances_unnoticed. }
  destruct Hr as (-> & -> & Ht & Hvote & Q & HQ & Hmaj & HQin). rewrite Hl, Hv in *.
  assert (Hj : peers (joined_group ns) !! n = Some p) by (rewrite joined_lookup, Hn; exact Hp).
  assert (Hnot : ~ (n, current_term p + 1) ∈ E).
  { intros Hin. destruct (eo_term _ _ _ _ He _ _ Hin) as (q & Hq & Hle).
    assert (q = p) as -> by congruence. lia. }
  split; [by eapply nodes_insert|]. exists ((n, current_term p + 1, n) :: V').
  assert (Hnt : node_term nd = current_term p) by (unfold node_term; by rewrite Hp).
  split; [|intros v t c Hin; destruct (Hsub v t c Hin); [left; by right|right; by right]].
  set (cand := set_role p' Candidate).
  assert (H1 : elections_ok vs (with_peers (joined_group ns) (<[n := cand]> (peers (joined_group ns)))) E
                 ((n, current_term p + 1, n) :: V')).
  { apply (elections_vote vs _ _ _ _ p); try done; [lia|lia]. }
  assert (H2 : elections_ok vs (with_peers (joined_group ns) (<[n := cand]> (peers (joined_group ns))))
                 ((n, current_term p + 1) :: E) ((n, current_term p + 1, n) :: V')).
  { apply (elections_elect vs _ _ _ _ _ cand Q); [done|cbn; by rewrite lookup_insert_eq|cbn; lia|done| |done].
    intros q Hq. destruct (HQin q Hq) as [Hqv [->|(i & x & Hx1 & Hx2 & Hx3)]]; [split; [done|by left]|].
    split; [done|]. right. pose proof (Hheard i q x Hx1 Hx2 Hx3) as Hin. rewrite Hnt in Hin.
    by destruct (Hsub _ _ _ Hin). }
  rewrite (joined_insert ns n nd' p' Hp').
  pose proof (elections_update vs _ _ _ n cand p' H2) as H3. cbn [peers with_peers] in H3.
  rewrite lookup_insert_eq in H3. rewrite insert_insert_eq in H3.
  apply H3; [done|by apply Z.le_refl|by left|]. intros _. rewrite Ht. by left.
Qed.

Lemma net_step_inv st st' : net_inv st -> net_step st st' -> net_inv st'.
Proof.
  intros Hi Hs. destruct Hs as [ns E V n nd req nd' r Hn Hh|ns E V n nd req Hn HE
    |ns E V n nd req Hn HE|ns E V n nd w cmd online oid Hn|ns E V n nd w online nd' w' r Hn Hc Hheard].
  - by apply (net_vote ns E V n nd).
  - apply (net_inv_peer ns E V n nd _ _ Hi Hn (handle_append_step save nd req)).
    intros p p' _ Hf. by eapply follows_unnoticed.
  - pose proof (proj1 Hi) as Hok. destruct (Hok n nd Hn) as (_ & _ & Hp).
    apply (net_inv_peer ns E V n nd _ _ Hi Hn (handle_snapshot_step save save_snapshot nd req Hp)).
    intros p p' _ Hf. by eapply follows_unnoticed.
  - apply (net_inv_peer ns E V n nd _ _ Hi Hn (propose_step save nd w cmd online oid)).
    intros p p' _. apply advances_unnoticed.
  - by apply (net_campaigned ns E V n nd w online nd' w').
Qed.

Lemma net_inv_fresh ns : (forall n nd, ns !! n = Some nd -> fresh_node n nd) -> net_inv (ns, [], []).
Proof.
  intros Hf. split.
  - intros n nd Hn. destruct (Hf n nd Hn) as (? & ? & ?). split_and!; [done..|by eexists].
  - exists []. split; [|by intros v t c Hin%not_elem_of_nil]. split; try done.
    1,2,3,4: by intros; match goal with Hin : _ ∈ [] |- _ => by apply not_elem_of_nil in Hin end.
    intros n p Hp Hr. rewrite joined_lookup in Hp. destruct (ns !! n) as [nd|] eqn:Hn; [|done].
    destruct (Hf n nd Hn) as (_ & _ & Hp'). cbn in Hp. rewrite Hp' in Hp. by injection Hp as <-.
Qed.

Lemma net_runs_inv st st' : net_inv st -> rtc net_step st st' -> net_inv st'.
Proof. intros Hi Hr. induction Hr; [done|]. eauto using net_step_inv. Qed.
End Network.

(** ** The in-process network *)

Section Memory.
Context {H : Blake3}.
Context (save : NodeId -> RaftPeer -> bool)
        (save_snapshot : NodeId -> Z -> Term -> list byte -> list LogEntry -> bool).
Context (p : Z).
Local Abbreviation steps := (rtc (net_step save save_snapshot)).
#[local] Instance memory : RaftTransport MemoryRaftNetwork := MemoryRaftTransport save save_snapshot p.

Definition nodes_of (net : MemoryRaftNetwork) : Nodes := default ∅ (net_nodes net !! p).
Definition keyed (ns : Nodes) : Prop := forall n nd, ns !! n = Some nd -> local nd = n.

Lemma nodes_of_store net n nd0 nd : peer_arc net p n = Some nd0 ->
  nodes_of (store_node net p nd) = <[local nd := nd]> (nodes_of net).
Proof.
  unfold peer_arc, nodes_of, store_node. cbn. rewrite lookup_alter_eq.
  by destruct (net_nodes net !! p).
Qed.
Lemma peer_arc_nodes net n : peer_arc net p n = nodes_of net !! n.
Proof. unfold peer_arc, nodes_of. destruct (net_nodes net !! p); [done|]. cbn. by rewrite lookup_empty. Qed.
Lemma keyed_insert ns n nd : keyed ns -> local nd = n -> keyed (<[n := nd]> ns).
Proof.
  intros Hk Hl m x Hx. destruct (decide (m = n)) as [->|Hne]; simplify_map_eq; [done|by apply Hk].
Qed.

(** A routed call is lost, or is a step of the node it reaches. *)
Lemma route_spec {R} net to (f : NetworkRaftNode -> NetworkRaftNode * result RaftRpcError R) net' r :
  keyed (nodes_of net) -> (forall nd, local (fst (f nd)) = local nd) -> route net p to f = (net', r) ->
  (net' = net /\ exists e, r = Err e)
  \/ exists nd, nodes_of net !! to = Some nd /\ f nd = (fst (f nd), r)
       /\ nodes_of net' = <[to := fst (f nd)]> (nodes_of net).
Proof.
  intros Hk Hf. unfold route. destruct (is_offline net to); [intros [= <- <-]; left; eauto|].
  destruct (peer_arc net p to) as [nd|] eqn:Ha; [|intros [= <- <-]; left; eauto].
  specialize (Hf nd). destruct (f nd) as [nd' r'] eqn:Hfn. cbn [fst] in Hf. intros [= <- <-]. right.
  exists nd. rewrite (nodes_of_store net to nd nd' Ha), Hfn. rewrite peer_arc_nodes in Ha.
  split_and!; [done|done|]. by rewrite Hf, (Hk to nd Ha).
Qed.

Lemma vote_local nd req : local (fst (handle_request_vote save nd req)) = local nd.
Proof.
  unfold handle_request_vote. destruct (check_fence _ _ _ _); [|done].
  by destruct (request_vote _ _ _ _ _ _ _).
Qed.

Lemma memory_vote req (E : Elections) net v net' r (V : Votes) :
  keyed (nodes_of net) -> route net p v (fun nd => handle_request_vote save nd req) = (net', r) ->
  exists V', steps (nodes_of net, E, V) (nodes_of net', E, V') /\ V ⊆ V' /\ keyed (nodes_of net')
    /\ (forall m, v <> m -> nodes_of net' !! m = nodes_of net !! m)
    /\ forall x, r = Ok x -> vresp_granted x = true -> (v, v_term req, candidate_id req) ∈ V'.
Proof.
  intros Hk Hr. destruct (route_spec net v _ net' r Hk (fun nd => vote_local nd req) Hr)
    as [(-> & e & ->)|(nd & Hn & Hf & ->)].
  { by exists V. }
  set (nd' := fst _) in *. eexists. split; [apply rtc_once, (ns_vote _ _ _ _ _ v nd req nd' r Hn Hf)|].
  assert (Hl : local nd' = v) by (unfold nd'; rewrite vote_local; by apply Hk).
  split_and!; [|by apply keyed_insert|by intros m Hm; rewrite lookup_insert_ne|].
  - destruct r as [x|]; [|done]. destruct (vresp_granted x); [|done]. intros y Hy. by right.
  - intros x -> ->. by left.
Qed.

(** Soliciting votes on the network is a run in which the others vote, and the replies
    form a script. *)
Lemma memory_votes req online vs (E : Elections) : forall nd net n V nd' net' votes hi,
  keyed (nodes_of net) -> ask_votes nd net req online vs n = (nd', net', votes, hi) ->
  exists rs V',
    ask_votes nd {| vote_replies := rs; append_replies := [] |} req online vs n
      = (nd', {| vote_replies := []; append_replies := [] |}, votes, hi)
    /\ steps (nodes_of net, E, V) (nodes_of net', E, V') /\ V ⊆ V' /\ keyed (nodes_of net')
    /\ nodes_of net' !! local nd = nodes_of net !! local nd
    /\ forall i v x, contacted nd online vs !! i = Some v -> rs !! i = Some (Ok x) ->
         vresp_granted x = true -> (v, v_term req, candidate_id req) ∈ V'.
Proof.
  induction vs as [|v vs IH]; intros nd net n V nd' net' votes hi Hk; cbn [ask_votes].
  { intros [= <- <- <- <-]. by exists [], V. }
  unfold contacted. cbn [List.filter].
  destruct ((v =? local nd) || negb (bool_decide (v ∈ online))) eqn:Hskip; cbn [negb]; [by apply IH|].
  apply orb_false_iff in Hskip as [Hne%Z.eqb_neq _]. cbn [rpc_request_vote memory MemoryRaftTransport scripted].
  destruct (route net p v _) as [net1 res] eqn:Hr.
  destruct (memory_vote req E net v net1 res V Hk Hr) as (V1 & Hs1 & Hsub1 & Hk1 & Hsame1 & Hg1).
  assert (Hrest : forall nd1 n1, local nd1 = local nd ->
    ask_votes nd1 net1 req online vs n1 = (nd', net', votes, hi) ->
    exists rs V',
      ask_votes nd1 {| vote_replies := rs; append_replies := [] |} req online vs n1
        = (nd', {| vote_replies := []; append_replies := [] |}, votes, hi)
      /\ steps (nodes_of net, E, V) (nodes_of net', E, V') /\ V ⊆ V' /\ keyed (nodes_of net')
      /\ nodes_of net' !! local nd = nodes_of net !! local nd
      /\ forall i u x, (v :: contacted nd online vs) !! i = Some u -> (res :: rs) !! i = Some (Ok x) ->
           vresp_granted x = true -> (u, v_term req, candidate_id req) ∈ V').
  { intros nd1 n1 Hl Ha. destruct (IH _ _ _ V1 _ _ _ _ Hk1 Ha) as (rs & V' & H1 & H2 & H3 & H4 & H5 & H6).
    exists rs, V'. split_and!; [done|by etrans|by etrans|done| |].
    - rewrite <- Hl, H5, Hl. by apply Hsame1.
    - intros [|i] u x Hu Hx Hg; cbn in Hu, Hx; [|unfold contacted in H6; rewrite Hl in H6; by apply (H6 i u x)].
      injection Hu as <-. injection Hx as ->. by apply H3, (Hg1 x). }
  destruct res as [res|e].
  - destruct (v_term req <? vresp_term res) eqn:Hlt.
    + intros [= <- <- <- <-]. exists [Ok res], V1. split_and!; [|done|done|done|by apply Hsame1|].
      * cbn. by rewrite Hlt.
      * intros [|i] u x Hu Hx Hg; [|by destruct i]. injection Hu as <-. injection Hx as ->. by apply (Hg1 x).
    + intros Ha. destruct (Hrest (peer_answered nd v) _ eq_refl Ha) as (rs & V' & H1 & H2).
      exists (Ok res :: rs), V'. split; [|exact H2]. cbn. by rewrite Hlt.
  - intros Ha. destruct (Hrest (peer_failed nd v) _ eq_refl Ha) as (rs & V' & H1 & H2).
    exists (Err e :: rs), V'. by split.
Qed.

Lemma ask_votes_local {W} `{RaftTransport W} nd (w : W) req online l n :
  local (fst (fst (fst (ask_votes nd w req online l n)))) = local nd.
Proof.
  revert nd w n. induction l as [|v l IH]; intros nd w n; [done|]. cbn [ask_votes].
  destruct (_ || _); [apply IH|].
  destruct (rpc_request_vote _ _ _) as [w1 [res|e]]; [|apply (IH (peer_failed nd v))].
  destruct (_ <? _); [done|]. apply (IH (peer_answered nd v)).
Qed.
Lemma campaign_local {W} `{RaftTransport W} nd (w : W) online :
  local (fst (fst (campaign save nd w online))) = local nd.
Proof.
  unfold campaign. destruct (negb _); [done|]. destruct (negb _); [done|].
  destruct (local_peer nd) as [q|]; [|done]. destruct (negb _); [done|].
  match goal with |- context [ask_votes ?A ?B ?C ?D ?F ?G] =>
    pose proof (ask_votes_local A B C D F G) as Hl;
    destruct (ask_votes A B C D F G) as [[[nd2 w2] votes] hi] end.
  cbn [fst] in Hl. destruct hi; [done|]. by destruct (_ <=? _).
Qed.
Lemma memory_campaign nd net online (E : Elections) (V : Votes) nd' net' r :
  keyed (nodes_of net) -> campaign save nd net online = (nd', net', r) ->
  exists (w w' : Script) (V' : Votes), campaign save nd w online = (nd', w', r)
    /\ steps (nodes_of net, E, V) (nodes_of net', E, V') /\ keyed (nodes_of net')
    /\ nodes_of net' !! local nd = nodes_of net !! local nd
    /\ forall i v x, contacted nd online (voters (group nd)) !! i = Some v ->
         vote_replies w !! i = Some (Ok x) -> vresp_granted x = true ->
         (v, node_term nd + 1, local nd) ∈ V'.
Proof.
  intros Hk. set (w0 := {| vote_replies := []; append_replies := [] |}). unfold campaign.
  destruct (negb _); [intros [= <- <- <-]; by exists w0, w0, V|].
  destruct (negb _); [intros [= <- <- <-]; by exists w0, w0, V|].
  destruct (local_peer nd) as [q|] eqn:Hq; [|intros [= <- <- <-]; by exists w0, w0, V].
  set (nd1 := set_group nd _). destruct (negb _); [intros [= <- <- <-]; by exists w0, w0, V|].
  set (req := vote_request nd1 _).
  destruct (ask_votes nd1 net req online (voters (group nd1)) 1) as [[[nd2 net2] votes] hi] eqn:Ha.
  destruct (memory_votes req online _ E _ _ _ V _ _ _ _ Hk Ha) as (rs & V' & H1 & H2 & H3 & H4 & H5 & H6).
  intros Hr. exists {| vote_replies := rs; append_replies := [] |}, w0, V'.
  assert (net2 = net') as ->.
  { destruct hi; [by injection Hr|]. by destruct (_ <=? _); injection Hr. }
  rewrite H1. split_and!; [|done|done|done|].
  - destruct hi; [by injection Hr as <- <-|]. by destruct (_ <=? _); injection Hr as <- <-.
  - unfold node_term. rewrite Hq. exact H6.
Qed.

(** *** Proposals *)

(** A leader's term was won. *)
Definition leads (E : Elections) (nd : NetworkRaftNode) : Prop :=
  forall q, local_peer nd = Some q -> role q = Leader -> (local nd, current_term q) ∈ E.
Lemma leads_step E nd nd' q : local_peer nd = Some q -> leads E nd -> peer_step advances nd nd' -> leads E nd'.
Proof.
  intros Hq Hl [[L _] Hs] q' Hq' Hr. destruct (Hs q Hq) as (q2 & Hq2 & Ha).
  assert (q2 = q') as -> by congruence. rewrite L. destruct Ha as [Hh|[_ Hn]]; [|done].
  injection Hh as Ht _ Hrole. rewrite Ht. apply Hl; [done|congruence].
Qed.

(** What a call that replicates leaves: the node as against some script, the others
    after a run. *)
Definition replayed {R} (E : Elections) (V : Votes) (net net' : MemoryRaftNetwork) (me : NodeId)
    (f : Script -> NetworkRaftNode * Script * R) (nd' : NetworkRaftNode) (r : R) : Prop :=
  (exists rs, forall more, f {| vote_replies := []; append_replies := rs ++ more |}
                = (nd', {| vote_replies := []; append_replies := more |}, r))
  /\ steps (nodes_of net, E, V) (nodes_of net', E, V) /\ keyed (nodes_of net')
  /\ nodes_of net' !! me = nodes_of net !! me.

Lemma memory_append req (E : Elections) net f net' r (V : Votes) :
  keyed (nodes_of net) -> (a_leader_id req, a_term req) ∈ E ->
  route net p f (fun nd => handle_append_entries save nd req) = (net', r) ->
  steps (nodes_of net, E, V) (nodes_of net', E, V) /\ keyed (nodes_of net')
    /\ (forall m, f <> m -> nodes_of net' !! m = nodes_of net !! m).
Proof.
  intros Hk HE Hr. assert (Hl : forall nd, local (fst (handle_append_entries save nd req)) = local nd).
  { intros nd. by destruct (handle_append_step save nd req) as [[? _] _]. }
  destruct (route_spec net f _ net' r Hk Hl Hr) as [(-> & e & ->)|(nd & Hn & Hf & ->)]; [done|].
  split_and!; [|by apply keyed_insert; [|rewrite Hl; apply Hk]|by intros m Hm; rewrite lookup_insert_ne].
  by apply rtc_once, ns_append.
Qed.

Lemma memory_replicate fuel f (E : Elections) (V : Votes) : forall nd net nd' net' r q,
  keyed (nodes_of net) -> local_peer nd = Some q -> leads E nd -> f <> local nd ->
  Rpc.replicate_loop fuel nd net f = (nd', net', r) ->
  replayed E V net net' (local nd) (fun w => Rpc.replicate_loop fuel nd w f) nd' r.
Proof.
  induction fuel as [|fuel IH]; intros nd net nd' net' r q Hk Hq Hl Hf; cbn [Rpc.replicate_loop].
  { intros [= <- <- <-]. split_and!; [by exists []|done|done|done]. }
  rewrite Hq. destruct (bool_decide_reflect (role q = Leader)) as [Hrole|]; cbn [negb];
    [|intros [= <- <- <-]; split_and!; [by exists []|done|done|done]].
  cbn [rpc_append_entries memory MemoryRaftTransport scripted].
  destruct (route net p f _) as [net1 res] eqn:Hr.
  destruct (memory_append (append_request nd q f) E _ _ _ _ V Hk (Hl q Hq Hrole) Hr) as (Hs1 & Hk1 & Hsame1).
  assert (Hone : steps (nodes_of net, E, V) (nodes_of net1, E, V) /\ keyed (nodes_of net1)
    /\ nodes_of net1 !! local nd = nodes_of net !! local nd).
  { split_and!; [done|done|by apply Hsame1]. }
  destruct res as [res|e].
  2: { intros [= <- <- <-]. split; [|exact Hone]. by exists [Err e]. }
  destruct (a_term (append_request nd q f) <? aresp_term res) eqn:Hlt.
  { intros [= <- <- <-]. split; [|exact Hone]. exists [Ok res]. intros more. cbn [app append_replies vote_replies head tl from_option id]. by rewrite Hlt. }
  destruct (success res) eqn:Hsucc.
  { intros [= <- <- <-]. split; [|exact Hone]. exists [Ok res]. intros more. cbn [app append_replies vote_replies head tl from_option id]. by rewrite Hlt, Hsucc. }
  set (nd1 := upd_local (peer_answered nd f) _).
  assert (Hps : peer_step advances nd nd1).
  { eapply peer_step_trans; [apply failures_step|]. apply upd_hard_step. by left. }
  destruct (proj2 Hps q Hq) as (q1 & Hq1 & _).
  intros Hloop. destruct (IH nd1 net1 nd' net' r q1 Hk1 Hq1 (leads_step E nd nd1 q Hq Hl Hps) Hf Hloop)
    as ([rs Hrs] & Hs2 & Hk2 & Hsame2).
  split_and!; [|by etrans|done|by rewrite <- (Hsame1 _ Hf)].
  exists (Ok res :: rs). intros more. cbn [app append_replies vote_replies head tl from_option id]. rewrite Hlt, Hsucc. apply Hrs.
Qed.

Lemma replayed_ret {R} (E : Elections) (V : Votes) net me nd (r : R) :
  keyed (nodes_of net) -> replayed E V net net me (fun w => (nd, w, r)) nd r.
Proof. intros Hk. split_and!; [by exists []|done|done|done]. Qed.
Lemma replayed_bind {R S} (E : Elections) (V : Votes) net net1 net2 me (f : Script -> _ * _ * R)
    (g h : Script -> _ * _ * S) nd1 r1 nd2 r2 :
  replayed E V net net1 me f nd1 r1 -> replayed E V net1 net2 me g nd2 r2 ->
  (forall w w1, f w = (nd1, w1, r1) -> h w = g w1) -> replayed E V net net2 me h nd2 r2.
Proof.
  intros ([rs Hf] & S1 & K1 & M1) ([rs' Hg] & S2 & K2 & M2) Hh.
  split_and!; [|by etrans|done|congruence]. exists (rs ++ rs'). intros more. rewrite <- (assoc_L (++)).
  by rewrite (Hh _ _ (Hf _)), Hg.
Qed.
(** The node after a replayed call kept the term, or lost the leadership. *)
Lemma replayed_step {R} (E : Elections) (V : Votes) net net' nd (f : Script -> _ * _ * R) nd' r q :
  replayed E V net net' (local nd) f nd' r -> (forall w, peer_step advances nd (fst (fst (f w)))) ->
  local_peer nd = Some q -> leads E nd ->
  keyed (nodes_of net') /\ local nd' = local nd /\ leads E nd' /\ exists q', local_peer nd' = Some q'.
Proof.
  intros ([rs Hf] & _ & Hk & _) Hs Hq Hl.
  specialize (Hs {| vote_replies := []; append_replies := rs ++ [] |}). rewrite Hf in Hs. cbn [fst] in Hs.
  split_and!; [done|apply Hs|by eapply leads_step|]. destruct (proj2 Hs q Hq) as (q' & Hq' & _). by exists q'.
Qed.

Lemma memory_replicate_to f (E : Elections) (V : Votes) nd net nd' net' r q :
  keyed (nodes_of net) -> local_peer nd = Some q -> leads E nd -> f <> local nd ->
  Rpc.replicate_to nd net f = (nd', net', r) ->
  replayed E V net net' (local nd) (fun w => Rpc.replicate_to nd w f) nd' r.
Proof. apply memory_replicate. Qed.

Lemma memory_followers i fs (E : Elections) (V : Votes) : forall nd net acked nd' net' r q,
  keyed (nodes_of net) -> local_peer nd = Some q -> leads E nd -> (forall f, f ∈ fs -> f <> local nd) ->
  replicate_followers nd net i fs acked = (nd', net', r) ->
  replayed E V net net' (local nd) (fun w => replicate_followers nd w i fs acked) nd' r.
Proof.
  induction fs as [|f fs IH]; intros nd net acked nd' net' r q Hk Hq Hl Hfs; cbn [replicate_followers].
  { intros [= <- <- <-]. by apply replayed_ret. }
  destruct (Rpc.replicate_to nd net f) as [[nd1 net1] r1] eqn:Hr.
  pose proof (memory_replicate_to f E V _ _ _ _ _ _ Hk Hq Hl (Hfs f ltac:(by left)) Hr) as H1.
  destruct (replayed_step E V _ _ _ _ _ _ q H1 (fun w => replicate_to_step nd w f) Hq Hl)
    as (Hk1 & L1 & Hl1 & q1 & Hq1).
  assert (Hfs1 : forall f0, f0 ∈ fs -> f0 <> local nd1) by (intros f0 Hf0; rewrite L1; apply Hfs; by right).
  assert (Hrest : forall ak, replicate_followers nd1 net1 i fs ak = (nd', net', r) ->
    replayed E V net1 net' (local nd) (fun w => replicate_followers nd1 w i fs ak) nd' r).
  { intros ak Ha. rewrite <- L1. by apply (IH _ _ _ _ _ _ q1). }
  destruct r1 as [u|e].
  - intros Ha. eapply replayed_bind; [exact H1|by apply Hrest|]. intros w w1 Hw. by rewrite Hw.
  - destruct e as [|t0|] eqn:He; try (intros Ha; eapply replayed_bind; [exact H1|by apply Hrest|];
      intros w w1 Hw; by rewrite Hw).
    intros [= <- <- <-]. eapply replayed_bind; [exact H1|by apply replayed_ret|]. intros w w1 Hw. by rewrite Hw.
Qed.

Lemma memory_spread online fs (E : Elections) (V : Votes) : forall nd net nd' net' q,
  keyed (nodes_of net) -> local_peer nd = Some q -> leads E nd ->
  spread_commit nd net online fs = (nd', net') ->
  replayed E V net net' (local nd) (fun w => (spread_commit nd w online fs, tt)) nd' tt.
Proof.
  induction fs as [|f fs IH]; intros nd net nd' net' q Hk Hq Hl; cbn [spread_commit].
  { intros [= <- <-]. by apply replayed_ret. }
  destruct ((f =? local nd) || _) eqn:Hskip; [by apply (IH _ _ _ _ q)|].
  apply orb_false_iff in Hskip as [Hne%Z.eqb_neq _].
  destruct (Rpc.replicate_to nd net f) as [[nd1 net1] r1] eqn:Hr.
  pose proof (memory_replicate_to f E V _ _ _ _ _ _ Hk Hq Hl Hne Hr) as H1.
  destruct (replayed_step E V _ _ _ _ _ _ q H1 (fun w => replicate_to_step nd w f) Hq Hl)
    as (Hk1 & L1 & Hl1 & q1 & Hq1).
  intros Ha. pose proof (IH _ _ _ _ q1 Hk1 Hq1 Hl1 Ha) as H2. rewrite L1 in H2.
  eapply replayed_bind; [exact H1|exact H2|]. intros w w1 Hw. by rewrite Hw.
Qed.

Lemma memory_propose cmd online oid (E : Elections) (V : Votes) nd net nd' net' r q :
  keyed (nodes_of net) -> local_peer nd = Some q -> leads E nd ->
  Rpc.propose save nd net cmd online oid = (nd', net', r) ->
  replayed E V net net' (local nd) (fun w => Rpc.propose save nd w cmd online oid) nd' r.
Proof.
  intros Hk Hq Hl. unfold Rpc.propose.
  destruct (prior_proposal nd oid); [intros [= <- <- <-]; by apply replayed_ret|]. rewrite Hq.
  destruct (negb _); [intros [= <- <- <-]; by apply replayed_ret|].
  set (nd1 := set_group nd _).
  destruct (negb _); [intros [= <- <- <-]; by apply replayed_ret|].
  set (q1 := set_indices _ _ _) in nd1.
  assert (Hq1 : local_peer nd1 = Some q1) by (unfold local_peer, nd1; cbn; by rewrite lookup_insert_eq).
  assert (Hl1 : leads E nd1).
  { intros x Hx. assert (x = q1) as -> by congruence. by apply (Hl q). }
  set (fs := List.filter _ _). set (i := last_log_index q + 1).
  assert (Hfs : forall f, f ∈ fs -> f <> local nd1).
  { intros f [_ [Hf%negb_true_iff%Z.eqb_neq _]%andb_true_iff]%list_elem_of_In%filter_In. exact Hf. }
  destruct (replicate_followers nd1 net i fs [local nd]) as [[nd2 net2] r2] eqn:Hr.
  pose proof (memory_followers i fs E V _ _ _ _ _ _ q1 Hk Hq1 Hl1 Hfs Hr) as H1.
  destruct (replayed_step E V _ _ _ _ _ _ q1 H1 (fun w => replicate_followers_step fs nd1 w i [local nd]) Hq1 Hl1)
    as (Hk2 & L2 & Hl2 & q2 & Hq2).
  change (local nd1) with (local nd) in H1, L2. destruct r2 as [acked|e].
  2: { intros [= <- <- <-]. eapply replayed_bind; [exact H1|by apply replayed_ret|]. intros w w1 Hw. by rewrite Hw. }
  set (nd3 := node_advance_commit nd2). pose proof (advance_step nd2) as Hs3. fold nd3 in Hs3.
  destruct (proj2 Hs3 q2 Hq2) as (q3 & Hq3 & _). pose proof (leads_step E nd2 nd3 q2 Hq2 Hl2 Hs3) as Hl3.
  set (ok := i <=? node_commit_index nd3).
  destruct (if ok then spread_commit nd3 net2 online (voters (group nd3)) else (nd3, net2)) as [nd4 net4] eqn:Hsp.
  assert (H2 : replayed E V net2 net4 (local nd)
    (fun w => ((if ok then spread_commit nd3 w online (voters (group nd3)) else (nd3, w)), tt)) nd4 tt).
  { destruct ok.
    - pose proof (memory_spread _ _ E V _ _ _ _ q3 Hk2 Hq3 Hl3 Hsp) as Hx.
      rewrite (proj1 (proj1 Hs3)), L2 in Hx. exact Hx.
    - injection Hsp as <- <-. by apply replayed_ret. }
  intros [= <- <- <-]. eapply replayed_bind; [exact H1| |intros w w1 Hw; rewrite Hw; reflexivity].
  eapply replayed_bind; [exact H2| |].
  - apply replayed_ret. apply H2.
  - intros w w1 Hw. cbv beta zeta. fold nd3 ok. apply (f_equal fst) in Hw. cbn [fst] in Hw. by rewrite Hw.
Qed.

(** *** The operations of the network *)

Inductive NetOp : Type :=
| OpCampaign (c : NodeId) | OpPropose (leader : NodeId) (cmd : LogCommand) (oid : option (list byte))
| OpOffline (n : NodeId) | OpOnline (n : NodeId).
Definition net_apply (net : MemoryRaftNetwork) (o : NetOp) : MemoryRaftNetwork :=
  match o with
  | OpCampaign c => fst (net_campaign save save_snapshot net p c)
  | OpPropose l cmd oid => fst (net_propose save save_snapshot net p l cmd oid)
  | OpOffline n => net_mark_offline net n
  | OpOnline n => net_mark_online net n
  end.

Context (vs : list NodeId).

Lemma net_inv_keyed net E V : net_inv vs (nodes_of net, E, V) -> keyed (nodes_of net).
Proof. intros [Hok _] n nd Hn. by apply (Hok n nd). Qed.
Lemma net_inv_leads ns E V n nd : net_inv vs (ns, E, V) -> ns !! n = Some nd -> leads E nd.
Proof.
  intros [Hok (V' & He & _)] Hn q Hq Hr. destruct (Hok n nd Hn) as (-> & _ & _).
  apply (eo_leader _ _ _ _ He n q); [|done]. by rewrite joined_lookup, Hn.
Qed.

Lemma net_apply_steps net o E V : net_inv vs (nodes_of net, E, V) ->
  exists E' V', steps (nodes_of net, E, V) (nodes_of (net_apply net o), E', V').
Proof.
  intros Hi. pose proof (net_inv_keyed _ _ _ Hi) as Hk.
  destruct o as [c|l cmd oid|n|n]; [..|by exists E, V|by exists E, V]; cbn [net_apply].
  - unfold net_campaign. destruct (peer_arc net p c) as [nd|] eqn:Ha; [|by exists E, V].
    pose proof Ha as Hn. rewrite peer_arc_nodes in Hn. pose proof (Hk c nd Hn) as Hc.
    change (MemoryRaftTransport save save_snapshot p) with memory.
    destruct (campaign save nd net (online_voters net p)) as [[nd' net'] r] eqn:Hr.
    destruct (memory_campaign _ _ _ E V _ _ _ Hk Hr) as (w & w' & V' & Hw & Hs & Hk' & Hsame & Hheard).
    assert (Hn' : nodes_of net' !! c = Some nd) by (rewrite <- Hc, Hsame, Hc; exact Hn).
    assert (Hl' : local nd' = c).
    { destruct (proj1 Hi c nd Hn) as (_ & _ & q & Hq).
      apply (f_equal (fun x => local (fst (fst x)))) in Hw. cbn [fst] in Hw. rewrite <- Hw, <- Hc.
      apply campaign_local. }
    eexists _, V'. cbn [fst].
    rewrite (nodes_of_store net' c nd nd') by (rewrite peer_arc_nodes; exact Hn'). rewrite Hl'.
    eapply rtc_r; [exact Hs|]. rewrite Hc in Hheard. by eapply (ns_campaign _ _ _ E V' c nd w).
  - unfold net_propose. destruct (peer_arc net p l) as [nd|] eqn:Ha; [|by exists E, V].
    pose proof Ha as Hn. rewrite peer_arc_nodes in Hn. pose proof (Hk l nd Hn) as Hc.
    change (MemoryRaftTransport save save_snapshot p) with memory.
    destruct (Rpc.propose save nd net cmd (online_voters net p) oid) as [[nd' net'] r] eqn:Hr.
    destruct (proj1 Hi l nd Hn) as (_ & _ & q & Hq).
    pose proof (memory_propose cmd _ oid E V _ _ _ _ _ q Hk Hq (net_inv_leads _ _ _ _ _ Hi Hn) Hr)
      as ([rs Hrs] & Hs & Hk' & Hsame).
    specialize (Hrs []). assert (Hn' : nodes_of net' !! l = Some nd) by (rewrite <- Hc, Hsame, Hc; exact Hn).
    set (w := {| vote_replies := []; append_replies := rs ++ [] |}) in Hrs.
    pose proof (propose_step save nd w cmd (online_voters net p) oid) as Hps. rewrite Hrs in Hps. cbn [fst] in Hps.
    exists E, V. cbn [fst].
    rewrite (nodes_of_store net' l nd nd') by (rewrite peer_arc_nodes; exact Hn').
    rewrite (proj1 (proj1 Hps)), Hc. eapply rtc_r; [exact Hs|].
    pose proof (ns_propose save save_snapshot _ E V l nd w cmd (online_voters net p) oid Hn') as Hst.
    rewrite Hrs in Hst. exact Hst.
Qed.

Context (Hvs : NoDup vs) (Hsmall : Z.of_nat (length vs) < 2 ^ 32).
Lemma net_ops_steps ops : forall net E V, net_inv vs (nodes_of net, E, V) ->
  exists E' V', steps (nodes_of net, E, V) (nodes_of (fold_left net_apply ops net), E', V').
Proof.
  induction ops as [|o ops IH]; intros net E V Hi; [by exists E, V|]. cbn [fold_left].
  destruct (net_apply_steps net o E V Hi) as (E1 & V1 & H1).
  destruct (IH (net_apply net o) E1 V1) as (E2 & V2 & H2).
  { by apply (net_runs_inv save save_snapshot vs Hvs Hsmall _ _ Hi). }
  exists E2, V2. by etrans.
Qed.
End Memory.

(** ** Claims *)

(** One winner per term, among those that won and those that lead. *)
Definition one_leader (ns : Nodes) (E : Elections) : Prop :=
  (forall c1 c2 t, (c1, t) ∈ E -> (c2, t) ∈ E -> c1 = c2)
  /\ forall n1 n2 nd1 nd2, ns !! n1 = Some nd1 -> ns !! n2 = Some nd2 ->
       is_leader nd1 = true -> is_leader nd2 = true -> node_term nd1 = node_term nd2 -> n1 = n2.

Lemma leader_elected vs ns E V n nd : net_inv vs (ns, E, V) -> ns !! n = Some nd ->
  is_leader nd = true -> (n, node_term nd) ∈ E.
Proof.
  intros Hi Hn. unfold is_leader, node_role, node_term. rewrite bool_decide_eq_true.
  destruct (local_peer nd) as [q|] eqn:Hq; [|done]. intros Hr. destruct (proj1 Hi n nd Hn) as (<- & _ & _).
  by apply (net_inv_leads vs ns E V (local nd) nd Hi Hn).
Qed.
Lemma net_inv_one vs ns E V : net_inv vs (ns, E, V) -> one_leader ns E.
Proof.
  intros Hi. pose proof Hi as [_ (V' & He & _)].
  assert (Hu : forall c1 c2 t, (c1, t) ∈ E -> (c2, t) ∈ E -> c1 = c2)
    by (intros; by eapply elections_unique).
  split; [exact Hu|]. intros n1 n2 nd1 nd2 H1 H2 R1 R2 Ht. apply (Hu n1 n2 (node_term nd1)).
  - by eapply leader_elected.
  - rewrite Ht. by eapply leader_elected.
Qed.

(** C39. Consensus nodes that only exchange messages elect at most one leader in a term.
    From nodes that have just been created, through any interleaving of votes,
    campaigns, proposals, entries and snapshots, with any message lost, late or
    repeated and any flush failing, two campaigns that succeed in the same term are of
    the same node, and two nodes that lead in the same term are the same node. *)
Theorem network_election_safety `{Blake3} save save_snapshot vs ns0 ns E V :
  NoDup vs -> Z.of_nat (length vs) < 2 ^ 32 ->
  (forall n nd, ns0 !! n = Some nd -> fresh_node vs n nd) ->
  rtc (net_step save save_snapshot) (ns0, [], []) (ns, E, V) -> one_leader ns E.
Proof.
  intros Hvs Hsmall Hf Hr. apply (net_inv_one vs ns E V).
  apply (net_runs_inv save save_snapshot vs Hvs Hsmall (ns0, [], [])); [|done]. by apply net_inv_fresh.
Qed.

(** C40. The in-process network is an instance of message passing.  Whatever sequence of
    campaigns, proposals and outages its nodes go through, what they become is a run of
    single nodes that exchange messages, in which the calls between them are the
    messages that were sent and answered; so it has one leader in a term. *)
Theorem memory_network_refines `{Blake3} save save_snapshot p vs net ops :
  NoDup vs -> Z.of_nat (length vs) < 2 ^ 32 ->
  (forall n nd, nodes_of p net !! n = Some nd -> fresh_node vs n nd) ->
  let net' := fold_left (net_apply save save_snapshot p) ops net in
  exists E V, rtc (net_step save save_snapshot) (nodes_of p net, [], []) (nodes_of p net', E, V)
              /\ one_leader (nodes_of p net') E.
Proof.
  intros Hvs Hsmall Hf. cbn zeta. pose proof (net_inv_fresh vs _ Hf) as Hi.
  destruct (net_ops_steps save save_snapshot p vs Hvs Hsmall ops net [] [] Hi) as (E & V & Hr).
  exists E, V. split; [exact Hr|]. apply (net_inv_one vs _ E V).
  by apply (net_runs_inv save save_snapshot vs Hvs Hsmall _ _ Hi).
Qed.

(** ** A network of three nodes *)

#[local] Instance flat_hash : Blake3 := fun bs => le_bytes 32 (le_val bs).
Definition always (_ : NodeId) (_ : RaftPeer) : bool := true.
Definition always_snapshot (_ : NodeId) (_ : Z) (_ : Term) (_ : list byte) (_ : list LogEntry) : bool := true.
Definition trio : list NodeId := [1; 2; 3].
Definition three_node_net : MemoryRaftNetwork :=
  fold_left (fun net n => from_option (register net) net (node_new (lit "cluster-cluster-") 0 n trio 1))
    trio network_new.
Definition three_nodes : Nodes := nodes_of 0 three_node_net.
Definition run (ops : list NetOp) : MemoryRaftNetwork :=
  fold_left (net_apply always always_snapshot 0) ops three_node_net.
Definition put : LogCommand := Put "x" (lit "once").

Lemma three_nodes_fresh : forall n nd, three_nodes !! n = Some nd -> fresh_node trio n nd.
Proof.
  assert (Hall : map_Forall (fun n nd => fresh_node trio n nd) three_nodes).
  { unfold three_nodes, nodes_of, three_node_net, fresh_node. cbn.
    repeat apply map_Forall_insert_2; try apply map_Forall_empty; by repeat split. }
  intros n nd. apply Hall.
Qed.

(** Node 1 is elected with the vote of node 2, commits a command, and is cut off; node 3
    is elected in term 2, while node 1 still leads term 1. *)
Lemma memory_network_refines_witness :
  let net' := run [OpCampaign 1; OpPropose 1 put None; OpOffline 1; OpCampaign 3] in
  (is_leader <$> nodes_of 0 net' !! 1 = Some true /\ node_term <$> nodes_of 0 net' !! 1 = Some 1)
  /\ (is_leader <$> nodes_of 0 net' !! 3 = Some true /\ node_term <$> nodes_of 0 net' !! 3 = Some 2)
  /\ exists E V, rtc (net_step always always_snapshot) (three_nodes, [], []) (nodes_of 0 net', E, V)
                 /\ one_leader (nodes_of 0 net') E.
Proof.
  split; [split; vm_compute; reflexivity|]. split; [split; vm_compute; reflexivity|].
  apply (memory_network_refines always always_snapshot 0 trio three_node_net).
  - apply NoDup_ListNoDup. repeat constructor; cbn; lia.
  - vm_compute. reflexivity.
  - exact three_nodes_fresh.
Defined.

(** Node 2 votes for node 1 in term 1; node 1 hears of it and leads. *)
Definition trio_node (n : NodeId) : NetworkRaftNode :=
  {| cluster_id := lit "cluster-cluster-"; local := n; group := raft_new 0 trio 1;
     max_append_batch := DEFAULT_MAX_APPEND_BATCH; replicate_attempts := DEFAULT_REPLICATE_ATTEMPTS;
     propose_dedup := ∅; peer_failures := ∅ |}.
Definition ballot : RequestVoteRequest :=
  {| v_cluster_id := hex16 (lit "cluster-cluster-"); v_partition := 0; v_placement_epoch := 1;
     v_term := 1; candidate_id := 1; v_last_log_index := 0; v_last_log_term := 0 |}.
Definition heard : Script :=
  {| vote_replies := [Ok {| vresp_term := 1; vresp_granted := true |}]; append_replies := [] |}.
Definition voted_nodes : Nodes := <[2 := fst (handle_request_vote always (trio_node 2) ballot)]> three_nodes.
Definition elected_nodes : Nodes := <[1 := (campaign always (trio_node 1) heard [1; 2]).1.1]> voted_nodes.

Lemma network_election_safety_witness :
  rtc (net_step always always_snapshot) (three_nodes, [], []) (elected_nodes, [(1, 1)], [(2, 1, 1)])
  /\ is_leader <$> elected_nodes !! 1 = Some true /\ one_leader elected_nodes [(1, 1)].
Proof.
  assert (Hrun : rtc (net_step always always_snapshot) (three_nodes, [], [])
                   (elected_nodes, [(1, 1)], [(2, 1, 1)])).
  { eapply rtc_l; [|apply rtc_once].
    - apply (ns_vote always always_snapshot three_nodes [] [] 2 (trio_node 2) ballot
               (fst (handle_request_vote always (trio_node 2) ballot))
               (Ok {| vresp_term := 1; vresp_granted := true |})); reflexivity.
    - apply (ns_campaign always always_snapshot voted_nodes [] [(2, 1, 1)] 1 (trio_node 1) heard [1; 2]
               (campaign always (trio_node 1) heard [1; 2]).1.1
               {| vote_replies := []; append_replies := [] |} (Ok (1, 1))); [reflexivity|reflexivity|].
      intros [|i] v x Hv Hx Hg; [|destruct i; discriminate]. vm_compute in Hv. injection Hv as <-. by left. }
  split; [exact Hrun|]. split; [vm_compute; reflexivity|].
  apply (network_election_safety always always_snapshot trio three_nodes elected_nodes [(1, 1)] [(2, 1, 1)]).
  - apply NoDup_ListNoDup. repeat constructor; cbn; lia.
  - vm_compute. reflexivity.
  - exact three_nodes_fresh.
  - exact Hrun.
Defined.

(** The record of an operation id stays with the node that served it.  A command that was
    committed is retried, its response lost, after another election: the new leader logs
    and commits it again. *)
Definition op_id : option (list byte) := Some (lit "op-1").
Definition commands (net : MemoryRaftNetwork) (n : NodeId) : option (list (Z * LogCommand)) :=
  nd ← nodes_of 0 net !! n; q ← local_peer nd;
  Some (map (fun e => (e_index e, e_command e)) (take (Z.to_nat (commit_index q)) (log q))).
Example retry_at_a_new_leader_commits_twice :
  commands (run [OpCampaign 1; OpPropose 1 put op_id; OpCampaign 2; OpPropose 2 put op_id]) 2
  = Some [(1, put); (2, put)].
Proof. vm_compute. reflexivity. Qed.
(** Also at the same leader, when the first attempt did not reach a quorum at once. *)
Example retry_before_commit_commits_twice :
  commands (run [OpCampaign 1; OpOffline 2; OpOffline 3; OpPropose 1 put op_id;
                 OpOnline 2; OpOnline 3; OpPropose 1 put op_id]) 1
  = Some [(1, put); (2, put)].
Proof. vm_compute. reflexivity. Qed.
(** A retry at the leader that committed it finds the first position. *)
Example retry_after_commit_is_answered :
  commands (run [OpCampaign 1; OpPropose 1 put op_id; OpPropose 1 put op_id]) 1 = Some [(1, put)].
Proof. vm_compute. reflexivity. Qed.

(** A snapshot is sent for the whole log of the leader.  An entry that no other node has
    is installed at a follower as committed while the leader has committed nothing. *)
Definition unquorate : MemoryRaftNetwork :=
  run [OpCampaign 1; OpOffline 2; OpOffline 3; OpPropose 1 put None; OpOnline 2].
Definition after_snapshot : option MemoryRaftNetwork :=
  nd ← nodes_of 0 unquorate !! 1;
  Some (fst (send_snapshot (T := MemoryRaftTransport always always_snapshot 0) nd unquorate 2 (lit "state"))).
Example snapshot_commits_an_open_entry :
  (net ← after_snapshot; node_commit_index <$> nodes_of 0 net !! 1) = Some 0
  /\ (net ← after_snapshot; node_commit_index <$> nodes_of 0 net !! 2) = Some 1.
Proof. split; vm_compute; reflexivity. Qed.
